(* ===== verification/_CoqProject ===== *)
-Q . S2P
Prelude.v
Linked.v
HiveBlock.v
HiveHeap.v
HiveInv.v
HiveStore.v
HiveErase.v
HiveCapacity.v
HiveClear.v
Hive.v
HiveObjects.v
HiveAlgorithms.v
HiveSort.v
HiveFilter.v
HiveWhole.v
HiveProps.v
RecordQueue.v
Channel.v
ChannelSpec.v
ChannelSystem.v
ChannelProps.v
CountingScope.v
CountingScopeSystem.v
CountingScopeProps.v
StopSource.v
StopSystem.v
StopInv.v
StopProps.v
StopScope.v
Strand.v
StrandInv.v
StrandProps.v
Buffer.v
Result.v
Vector.v
Stream.v
AnyStream.v
MemoryStream.v
ScriptedStream.v
StreamProps.v
Extents.v
Layouts.v
LayoutSpec.v
LayoutProps.v
Slices.v
Submdspan.v
SubmdspanSpec.v
SubmdspanLayout.v
SubmdspanProps.v
LinalgViews.v
LinalgLevel1.v
LinalgLevel2.v
LinalgLevel3.v
LinalgSimd.v
LinalgSpec.v
LinalgProducts.v
LinalgSolve.v
LinalgMatrices.v
LinalgVectors.v
LinalgTransposed.v
LinalgVectorised.v
LinalgExamples.v
LinalgProps.v
LinalgVectorProps.v
WhenAll.v
WhenAllInv.v
WhenAllProps.v
Workers.v
RunLoop.v
ThreadPool.v
WorkersProps.v
Split.v
SplitProps.v
SpawnFuture.v
SpawnFutureProps.v
TimerContext.v
TimerInv.v
TimerProps.v
Senders.v
SenderProps.v
