(* ===== verification/Prelude.v ===== *)
(** * CC Forge in Rocq

    CC Forge (this repository, under src/) is a header-only C++ library: backports
    of C++26 library components (src/backport/cpp26) and a concurrency and I/O
    framework on top of them (src/include/forge).  This development models the
    components that keep state of their own, as shallow embeddings, and proves
    what makes them correct.

    ** How the code is modelled

    A component's state is a record with the members of its class; a function is
    a definition with the function's name where that is possible, with its early
    returns and its calls in the order of the source.  A function that changes
    state is a program [prog S A], a function from a state to a result and a new
    state; [None] is behaviour the language does not define, such as following a
    pointer to an object that is gone, or [std::terminate], and the theorems show
    that it does not happen.  The hive has a finer monad (HiveHeap.v): a result,
    an exception, or stuck.  Pointers are locations in finite maps; a machine
    integer is a [Z] with its wrap-around written out ([u16], [u64]).

    What other code decides is a parameter: whether an allocation fails, what a
    constructor of the element type does, where the allocator puts a block, how
    a vector grows, whether a scheduler runs or stops what it is given.  Code
    that runs in several threads is cut at its critical sections, each of which
    is one definition; a relation [step] lets any thread run any of them at any
    time, and [reachable] is what can come of that.  What a critical section
    leaves to be done after unlocking is its result and is done in a later step.
    The mutexes are sequentially consistent in this sense; the memory orders of
    the few atomics outside them are not modelled.

    ** The parts

    - [std::hive] (src/backport/cpp26/hive.hpp).  One block with its slots, skip
      field and list of dead runs: HiveBlock.  The container on a heap of blocks,
      control blocks and hive objects, with the ledger of its allocations:
      HiveHeap; whole hives (constructors, assignment, swap, splice, reshape):
      HiveObjects; [unique], [erase_if], [sort], [get_iterator]: HiveAlgorithms.
      The block lists and the invariant [hive_rep] are in HiveInv, on the segments
      of Linked; HiveStore, HiveErase, HiveCapacity and HiveClear show what the
      operations do to it, HiveSort, HiveFilter and HiveWhole do so for the rest.
      Hive and HiveProps have the properties, on the example of HiveClear: insertion and
      erasure change one element and move none, iteration visits every element
      once, forwards and backwards, no operation loses or leaks a block, an
      exception leaves everything as it was, capacities respect the limits, the
      heap sort sorts, and the algorithms agree with their list counterparts.
    - [forge::bounded_channel] (src/include/forge/channel.hpp).  Its intrusive
      queues: RecordQueue; its operations: Channel; the abstract channel, a buffer
      and two lists, and the refinement: ChannelSpec; the concurrent system:
      ChannelSystem; ChannelProps: first in first out, every operation completes
      once, nothing waits that need not, closing drains.
    - [std::execution] counting scopes (src/backport/cpp26/execution/
      counting_scope.hpp).  [simple_counting_scope]: CountingScope, its invariant
      and the concurrent system CountingScopeSystem; CountingScopeProps: the counter counts, joins complete once and only when all is
      released.  [counting_scope] and the operations it wraps: StopScope.
    - [std::inplace_stop_source] (src/backport/cpp26/execution/stop_token.hpp).
      StopSource, the concurrent system StopSystem, the invariant StopInv;
      StopProps: callbacks run at most once, never after their
      destructor returned, and are not lost.
    - [forge::strand] (src/include/forge/strand.hpp).  Strand with the
      concurrent system, the invariant StrandInv; StrandProps: one turn at a
      time, in the order of starting, each record completed once; [wait] is sound
      and is woken; the threads finish all that was started.
    - [std::execution::when_all], [split] and [spawn_future]
      (src/backport/cpp26/execution).  The
      operation state with the completions of its children, atomic action by
      atomic action: WhenAll, the invariant WhenAllInv, WhenAllProps: one signal,
      after all children, the one they ask for.  The shared state of [split] with
      its subscribers: Split, SplitProps: each gets what the source
      completed with, once, and nothing after its operation is destroyed.
      The shared state of [spawn_future] with its operation and its one consumer:
      SpawnFuture; SpawnFutureProps, with the invariant: the consumer gets
      one signal, a stop and a completion race for what it is, what is abandoned is
      asked to stop, and the state lives as long as it is needed.
    - the sender adaptors without shared state (src/backport/cpp26/execution:
      just.hpp, read_env.hpp, then.hpp, upon.hpp, let.hpp, bulk.hpp,
      into_variant.hpp, stopped_as.hpp, continues_on.hpp, and what when_all.hpp
      makes of its children's completions, on the lists of signatures of
      concepts.hpp).  The computation of completion signatures and the receivers:
      Senders; SenderProps: what typechecks completes, with a signature that it
      declares, and nothing throws in a function that must not; [stopped_as_error]
      and [stopped_as_optional] do what the expressions they stand for do.
    - [std::execution::run_loop] and [forge::static_thread_pool]
      (src/backport/cpp26/execution/run_loop.hpp,
      src/include/forge/static_thread_pool.hpp).  The loop that worker threads
      run, for any queue with the laws of the class [WorkerQueueLaws]: Workers;
      the two queues: RunLoop and ThreadPool; WorkersProps: tasks are executed
      once each, in order, no wakeup is lost, and everything is executed before
      the threads leave.
    - [forge::timer_context] (src/include/forge/timer_context.hpp).  The list of
      waiting items, the worker and the operations with their stop callbacks and
      destructors, on a clock: TimerContext; the stages of an operation, why each is
      told what, and why the worker may sleep: TimerInv; TimerProps: one
      signal each, no value too early, the least deadline first, nothing after the
      destructor, no lost wakeup, and what is left when nothing moves.
    - [forge::io] (src/include/forge/io).  Buffers over a memory of bytes: Buffer;
      results: Result; vectors of bytes: Vector; the transfers over any stream
      that keeps the laws of the classes [ReadStreamLaws] and [WriteStreamLaws]:
      Stream; the streams that keep them: MemoryStream and ScriptedStream; the
      type-erased streams and their owners: AnyStream; StreamProps.
    - the layouts of mdspan (src/backport/cpp26/mdspan_padded.hpp and
      submdspan.hpp).  Extents over any index type of up to 64 bits, with its
      conversions and overflows: Extents; the two padded mappings next to those of
      the standard library: Layouts, with their closed forms in LayoutSpec
      and the properties in LayoutProps: no overflow, distinct offsets
      below the span, round trips between layouts, and mandates that are enough.
      Slices and their canonical forms: Slices; the extents, layout,
      strides and offset of a part: Submdspan; the specification of a part and why
      each layout of the result is right: SubmdspanSpec, SubmdspanLayout;
      SubmdspanProps: the view of a part shows
      the elements its slices name, within the span of the source.  Failed static
      assertions and overflows have no result, and the theorems show there is one.
    - the linear algebra of C++26 (src/backport/cpp26/linalg).  Elements with any
      arithmetic, views of memory with their layouts and accessors: LinalgViews;
      the algorithms on vectors, on matrices and vectors and on matrices:
      LinalgLevel1, LinalgLevel2, LinalgLevel3; their vectorised loops: LinalgSimd.
      How loops over views are reasoned about, what inputs and outputs may share,
      sums, and the matrices that triangles stand for: LinalgSpec.
      LinalgProducts, LinalgSolve and LinalgMatrices show what the algorithms leave
      in memory, and LinalgProps states it: products and updates
      hold the sums of their formulas in the order of the indices, with no law of
      arithmetic assumed, and the solution of a triangular system solves it when
      the arithmetic is exact.  LinalgVectors, LinalgTransposed
      and LinalgVectorised do so for the algorithms on vectors, the saturating
      sums of integers, the views of views with the packed layouts, and the
      vectorised loops, and LinalgVectorProps states it: what each element holds,
      sums that are exact or the greatest value, packed offsets that fill their
      span, and vectorised loops that do what the plain ones do, for sizes with
      room for one more vector in the index type.  LinalgExamples decides the
      assumptions about concrete views.

    The hive, the channel, the scope, the stop source and the strand do not call
    each other; StopScope puts the scope and the stop sources together, the
    strand and the run loop chain their records with the queue of the channel's
    records, the run loop and the pool are queues for the same loop, and the
    transfers work on the streams through the classes.  A part of an mdspan has
    one of the five layouts, the padded ones among them, and reaches its elements
    through the class of accessors; the views of linalg have these layouts, too.

    ** Bounds and fuel

    Loops over a list of the heap have as fuel the number of cells of the heap, or
    of the blocks or joiners there are; an invariant says that the list has no
    repetition, so that the fuel suffices, and the theorems state results, not
    results in case there are any.  [copy_loop] has the number of buffers plus
    one, [read_exactly_loop] and [write_all_loop] the size of the buffer plus one,
    since every round but the last empties a buffer or moves a byte;
    [read_until] takes its fuel as an argument, and any that is greater than the
    number of items of the stream will do.  Senders need no fuel: they are trees, and
    the loop of [bulk] has the shape as its bound.  [strand_drains], [when_all_joins],
    [split_delivers], [spawn_future_delivers], [run_loop_finishes], [pool_drains]
    and [timer_finishes] bound the steps of the threads by a measure, and
    [request_stop_terminates] those of the requester alone.  Waits for a
    callback that is under way, in the destructors of stop callbacks, are left out of
    SpawnFuture and TimerContext, so that there the threads may be further than they
    are in the code.

    ** Not modelled

    Of the hive the order of iterators and the invariant checker of the tests; of
    the strand and the streams the reference counts of shared states; failing
    allocations of the vectors of bytes.  Of senders the
    storage of their operation states, environments and queries, domains, the
    concepts that select overloads, and the adaptors on, affine, associate and
    awaitable.  Of the library: the contexts of the operating systems, whose behaviour
    is that of the kernels; coroutine frames; type erasure by virtual functions
    other than that of the streams; the memory of the pool's tasks; and, planned
    next, [sync_wait], the io contexts' own timers, and the operations of simd.  Of the layouts, conversions
    between two index types; of linalg, calls whose views have different element
    or index types, and the norms and rotations that take square roots. *)
From stdpp Require Export base numbers option list gmap fin_maps fin_sets.
From Stdlib Require Export ZArith Lia.

#[global] Set Default Proof Using "Type".

Declare Scope forge_scope.
Delimit Scope forge_scope with forge.

(** ** Machine integers *)

(** [std::uint16_t] and [std::size_t] conversions: reduction modulo the width. *)
Definition u16 (z : Z) : Z := (z mod 2 ^ 16)%Z.
Definition u64 (z : Z) : Z := (z mod 2 ^ 64)%Z.

Lemma u16_small z : (0 <= z < 65536)%Z -> u16 z = z.
Proof. intros ?; apply Z.mod_small; lia. Qed.

Lemma u64_small z : (0 <= z < 2 ^ 64)%Z -> u64 z = z.
Proof. intros ?; by apply Z.mod_small. Qed.

Lemma u64_range z : (0 <= u64 z < 2 ^ 64)%Z.
Proof. by apply Z.mod_pos_bound. Qed.

(** Ranges of machine integers, for [eauto with machine]. *)
Create HintDb machine.
#[export] Hint Resolve u64_range : machine.
#[export] Hint Extern 1 (u64 _ = _) => apply u64_small; lia : machine.
#[export] Hint Extern 1 (u16 _ = _) => apply u16_small; lia : machine.

(** ** Tactics *)

(** Split conjunctions and existentials of the context. *)
Ltac destruct_ex :=
  repeat match goal with
  | H : _ /\ _ |- _ => destruct H
  | H : exists _, _ |- _ => destruct H
  end.

(** Decide a boolean comparison of the goal and turn it into a hypothesis. *)
Ltac case_zb :=
  match goal with
  | |- context [Z.eqb ?a ?b] => destruct (Z.eqb_spec a b)
  | |- context [Z.ltb ?a ?b] => destruct (Z.ltb_spec a b)
  | |- context [Z.leb ?a ?b] => destruct (Z.leb_spec a b)
  end.

(** Evaluate the comparisons whose outcome the context fixes. *)
Ltac zb_true :=
  match goal with
  | |- context [Z.eqb ?a ?b] => replace (Z.eqb a b) with true by (symmetry; apply Z.eqb_eq; lia)
  | |- context [Z.ltb ?a ?b] => replace (Z.ltb a b) with true by (symmetry; apply Z.ltb_lt; lia)
  | |- context [Z.leb ?a ?b] => replace (Z.leb a b) with true by (symmetry; apply Z.leb_le; lia)
  end.
Ltac zb_false :=
  match goal with
  | |- context [Z.eqb ?a ?b] => replace (Z.eqb a b) with false by (symmetry; apply Z.eqb_neq; lia)
  | |- context [Z.ltb ?a ?b] => replace (Z.ltb a b) with false by (symmetry; apply Z.ltb_ge; lia)
  | |- context [Z.leb ?a ?b] => replace (Z.leb a b) with false by (symmetry; apply Z.leb_gt; lia)
  end.
Ltac zb := repeat first [zb_true | zb_false].


(** ** Lists *)

Lemma last_app_cons {A} (l1 l2 : list A) x : last (l1 ++ x :: l2) = last (x :: l2).
Proof.
  induction l1 as [|y l1 IH]; [done|]. rewrite <- IH. simpl.
  by destruct (l1 ++ x :: l2) eqn:E; [destruct l1|].
Qed.

Lemma last_is_Some_elem {A} (l : list A) x : last l = Some x -> x ∈ l.
Proof. intros H. apply last_Some in H as [l' ->]. set_solver. Qed.

Lemma head_is_Some_elem {A} (l : list A) x : head l = Some x -> x ∈ l.
Proof. destruct l; simpl; [done|]. intros [= ->]. set_solver. Qed.

Lemma nodup_size {A} (m : gmap Z A) (ls : list Z) :
  NoDup ls -> (forall j, j ∈ ls -> is_Some (m !! j)) -> length ls <= size m.
Proof.
  intros Hnd Hls. rewrite <- size_dom, <- (size_list_to_set (C := gset Z) ls Hnd).
  apply subseteq_size. intros j Hj. apply elem_of_list_to_set in Hj. by apply elem_of_dom, Hls.
Qed.

(** How many elements have a property, and how an update changes that. *)
Definition count {A} (f : A -> bool) (l : list A) : nat := length (filter (fun x => f x = true) l).

Lemma count_cons {A} (f : A -> bool) x l : count f (x :: l) = Nat.b2n (f x) + count f l.
Proof. unfold count. rewrite filter_cons. case_decide as H; [by rewrite H|by apply not_true_is_false in H as ->]. Qed.

Lemma count_app {A} (f : A -> bool) l1 l2 : count f (l1 ++ l2) = count f l1 + count f l2.
Proof. unfold count. by rewrite filter_app, length_app. Qed.

Lemma count_insert {A} (f : A -> bool) l i x y :
  l !! i = Some x -> count f (<[i := y]> l) + Nat.b2n (f x) = count f l + Nat.b2n (f y).
Proof.
  revert i. induction l as [|z l IH]; intros [|i] Hi; simplify_eq/=; rewrite !count_cons; [lia|].
  specialize (IH _ Hi). lia.
Qed.

Lemma count_zero {A} (f : A -> bool) l i x : count f l = 0 -> l !! i = Some x -> f x = false.
Proof.
  revert i. induction l as [|z l IH]; intros [|i] Hc Hi; simplify_eq/=; rewrite count_cons in Hc.
  - destruct (f x); simpl in Hc; [lia|done].
  - apply (IH i); [lia|done].
Qed.

Lemma count_none {A} (f : A -> bool) l : (forall x, x ∈ l -> f x = false) -> count f l = 0.
Proof.
  induction l as [|x l IH]; intros Hall; [done|]. rewrite count_cons, Hall by apply list_elem_of_here.
  apply IH. intros y Hy. apply Hall. by apply list_elem_of_further.
Qed.

Lemma count_bound {A} (f : A -> bool) l : count f l <= length l.
Proof. apply length_filter. Qed.

Lemma count_pos {A} (f : A -> bool) l : 0 < count f l -> exists i x, l !! i = Some x /\ f x = true.
Proof.
  induction l as [|y l IH]; [unfold count; simpl; lia|]. rewrite count_cons. intros Hc.
  destruct (f y) eqn:Hy; [by exists 0, y|]. destruct IH as (i & x & Hi & Hx); [simpl in Hc; lia|].
  by exists (S i), x.
Qed.

Lemma sum_insert {A} (f : A -> nat) l i x y :
  l !! i = Some x -> sum_list_with f (<[i := y]> l) + f x = sum_list_with f l + f y.
Proof.
  intros Hi. rewrite <- (take_drop_middle l i x Hi) at 2.
  rewrite insert_take_drop by (by eapply lookup_lt_Some). rewrite !sum_list_with_app. simpl. lia.
Qed.

Lemma sum_insert_lt {A} (f : A -> nat) l i x y :
  l !! i = Some x -> f y < f x -> sum_list_with f (<[i := y]> l) < sum_list_with f l.
Proof. intros Hi Hy. pose proof (sum_insert f l i x y Hi). lia. Qed.

Lemma sum_bound {A} (f : A -> nat) k l : (forall x, f x <= k) -> sum_list_with f l <= k * length l.
Proof. intros Hf. induction l as [|x l IH]; simpl; [lia|]. pose proof (Hf x). lia. Qed.

(** ** Runs of steps that may fail *)
Definition run_all {S} (fs : list (S -> option S)) (s : S) : S := foldl (fun s f => default s (f s)) s fs.

Lemma run_all_invariant {S} (P : S -> Prop) fs s :
  (forall f s s', f ∈ fs -> f s = Some s' -> P s -> P s') -> P s -> P (run_all fs s).
Proof.
  revert s. induction fs as [|f fs IH]; intros s Hf Hs; [done|]. simpl. apply IH; [set_solver|].
  destruct (f s) eqn:E; simpl; [|done]. eapply Hf; [apply list_elem_of_here|done|done].
Qed.

(** ** Programs that thread a state and may go wrong

    [prog S A] reads and writes a state [S] and returns an [A]; [None] means
    that the program did something the language does not define, such as
    following a null pointer. *)
Definition prog (S A : Type) : Type := S -> option (A * S).

Definition give {S A} (a : A) : prog S A := fun s => Some (a, s).
Definition after {S A B} (m : prog S A) (f : A -> prog S B) : prog S B := fun s =>
  match m s with Some (a, s') => f a s' | None => None end.
Definition undefined {S A} : prog S A := fun _ => None.
Definition read {S A} (f : S -> A) : prog S A := fun s => Some (f s, s).
Definition modify {S} (f : S -> S) : prog S unit := fun s => Some (tt, f s).
Definition defined {S A} (o : option A) : prog S A :=
  match o with Some a => give a | None => undefined end.

Declare Scope prog_scope.
Delimit Scope prog_scope with prog.
Notation "x ← m ; k" := (after m (fun x => k))
  (at level 20, m at level 100, k at level 200, only parsing) : prog_scope.
Notation "m ;; k" := (after m (fun _ => k))
  (at level 100, k at level 200, right associativity) : prog_scope.

Section prog_rules.
Context {S : Type}.

Lemma prog_bind_ok {A B} (m : prog S A) (f : A -> prog S B) s a s' :
  m s = Some (a, s') -> after m f s = f a s'.
Proof. unfold after. by intros ->. Qed.

Lemma prog_ret_bind {A B} (a : A) (f : A -> prog S B) s : after (give a) f s = f a s.
Proof. done. Qed.

Lemma prog_read_bind {A B} (g : S -> A) (f : A -> prog S B) s : after (read g) f s = f (g s) s.
Proof. done. Qed.

Lemma prog_modify_bind {B} (g : S -> S) (f : unit -> prog S B) s : after (modify g) f s = f tt (g s).
Proof. done. Qed.

Lemma prog_defined_bind {A B} (a : A) (f : A -> prog S B) s : after (defined (Some a)) f s = f a s.
Proof. done. Qed.
End prog_rules.

(** The pure steps of a program as a rewrite database. *)
Create HintDb prog.
#[export] Hint Rewrite @prog_ret_bind @prog_read_bind @prog_modify_bind @prog_defined_bind : prog.

(** Run the steps of a program whose results the context knows. *)
Ltac prog_step :=
  first [ rewrite prog_read_bind | rewrite prog_modify_bind | rewrite prog_ret_bind
        | rewrite prog_defined_bind | erewrite prog_bind_ok by eassumption ].
