(* ===== verification/Linked.v ===== *)
(** * Intrusive linked lists

    The program links its nodes through fields of the nodes themselves: the
    free runs of a hive block, the active and the available blocks of a hive,
    its reserved blocks, the records of a channel and of a strand.  This file
    holds the representation predicates those components share: [dseg] for
    doubly linked segments, [sseg] for singly linked ones, each over a function
    that reads the links of a node. *)
From S2P Require Import Prelude.

Section doubly_linked.
Context {K P : Type} `{EqDecision K} (inj : K -> P).
Implicit Types (lk : K -> option (P * P)) (ks : list K) (p n : P).

(** The pointer to the first (last) node of [ks], or [d] when there is none. *)
Definition hd_or (d : P) (ks : list K) : P :=
  match head ks with Some k => inj k | None => d end.
Definition last_or (d : P) (ks : list K) : P :=
  match last ks with Some k => inj k | None => d end.

(** [dseg lk p ks n]: the nodes [ks] are linked in this order, the first one's
    predecessor link is [p], the last one's successor link is [n]. *)
Fixpoint dseg lk p ks n : Prop :=
  match ks with
  | [] => True
  | k :: ks' => lk k = Some (p, hd_or n ks') /\ dseg lk (inj k) ks' n
  end.

(** What changing the link into [ks2] to [y] and the link out of [ks1] to [x]
    does to the links of node [j]. *)
Definition patched ks1 ks2 (x y : P) (j : K) (l : P * P) : P * P :=
  (if decide (head ks2 = Some j) then y else l.1,
   if decide (last ks1 = Some j) then x else l.2).

Lemma hd_or_app d ks1 ks2 : hd_or d (ks1 ++ ks2) = hd_or (hd_or d ks2) ks1.
Proof. by destruct ks1. Qed.

Lemma last_or_cons d k ks : last_or d (k :: ks) = last_or (inj k) ks.
Proof.
  unfold last_or. destruct ks as [|k' ks]; [done|].
  change (last (k :: k' :: ks)) with (last (k' :: ks)).
  destruct (last (k' :: ks)) eqn:E; [done|]. by apply last_None in E.
Qed.

Lemma last_or_snoc d k ks : last_or d (ks ++ [k]) = inj k.
Proof. unfold last_or. by rewrite last_snoc. Qed.

Lemma dseg_app lk p ks1 ks2 n :
  dseg lk p (ks1 ++ ks2) n <->
  dseg lk p ks1 (hd_or n ks2) /\ dseg lk (last_or p ks1) ks2 n.
Proof.
  revert p. induction ks1 as [|k ks1 IH]; intros p; simpl; [tauto|].
  rewrite IH, hd_or_app, last_or_cons. tauto.
Qed.

Lemma dseg_ext lk lk' p ks n :
  (forall k, k ∈ ks -> lk' k = lk k) -> dseg lk p ks n -> dseg lk' p ks n.
Proof.
  revert p. induction ks as [|k ks IH]; intros p Heq; simpl; [done|].
  intros [H1 H2]. split.
  - rewrite Heq; [done|set_solver].
  - apply IH; [|done]. intros; apply Heq; set_solver.
Qed.

Lemma dseg_lookup lk p ks1 k ks2 n :
  dseg lk p (ks1 ++ k :: ks2) n -> lk k = Some (last_or p ks1, hd_or n ks2).
Proof. rewrite dseg_app. by intros [_ [H _]]. Qed.

(** Patching both ends of a gap in one go: the only relinking lemma needed. *)
Lemma dseg_patch_l lk lk' p ks n x :
  NoDup ks ->
  (forall j, j ∈ ks -> lk' j =
     (fun l => (l.1, if decide (last ks = Some j) then x else l.2)) <$> lk j) ->
  dseg lk p ks n -> dseg lk' p ks x.
Proof.
  revert p. induction ks as [|k ks IH]; intros p Hnd Heq; simpl; [done|].
  apply NoDup_cons in Hnd as [Hk Hnd]. intros [H1 H2]. split.
  - rewrite Heq, H1 by set_solver. cbn [fmap option_fmap option_map fst snd].
    destruct ks as [|k' ks]; [by rewrite decide_True|].
    rewrite decide_False; [done|]. intros E.
    apply (last_is_Some_elem (k' :: ks)) in E. set_solver.
  - apply IH; [done| |done]. intros j Hj. rewrite Heq by set_solver.
    destruct ks as [|k' ks]; [set_solver|]. done.
Qed.

Lemma dseg_patch_r lk lk' p ks n y :
  NoDup ks ->
  (forall j, j ∈ ks -> lk' j =
     (fun l => (if decide (head ks = Some j) then y else l.1, l.2)) <$> lk j) ->
  dseg lk p ks n -> dseg lk' y ks n.
Proof.
  destruct ks as [|k ks]; intros Hnd Heq; simpl; [done|].
  apply NoDup_cons in Hnd as [Hk Hnd]. intros [H1 H2]. split.
  - rewrite Heq, H1 by set_solver. simpl. by rewrite decide_True.
  - eapply dseg_ext; [|done]. intros j Hj. rewrite Heq by set_solver. simpl.
    destruct (lk j) as [[]|]; simpl; [|done].
    by rewrite decide_False by (intros [= ->]; done).
Qed.

Lemma dseg_patch lk lk' ks1 ks2 p n a b x y :
  NoDup (ks1 ++ ks2) ->
  (forall j, j ∈ ks1 ++ ks2 -> lk' j = patched ks1 ks2 x y j <$> lk j) ->
  dseg lk p ks1 a -> dseg lk b ks2 n ->
  dseg lk' p ks1 x /\ dseg lk' y ks2 n.
Proof.
  intros Hnd Heq H1 H2. apply NoDup_app in Hnd as (Hnd1 & Hdis & Hnd2). split.
  - eapply dseg_patch_l; [done| |done]. intros j Hj. rewrite Heq by set_solver.
    unfold patched. destruct (lk j) as [l|]; simpl; [|done].
    rewrite (decide_False (P := head ks2 = Some j)); [done|].
    intros H%head_is_Some_elem. set_solver.
  - eapply dseg_patch_r; [done| |done]. intros j Hj. rewrite Heq by set_solver.
    unfold patched. destruct (lk j) as [l|]; simpl; [|done].
    rewrite (decide_False (P := last ks1 = Some j)); [done|].
    intros H%last_is_Some_elem. set_solver.
Qed.

(** Closing the gap left by an unlinked node. *)
Lemma dseg_join lk lk' ks1 ks2 p n a b :
  NoDup (ks1 ++ ks2) ->
  (forall j, j ∈ ks1 ++ ks2 ->
     lk' j = patched ks1 ks2 (hd_or n ks2) (last_or p ks1) j <$> lk j) ->
  dseg lk p ks1 a -> dseg lk b ks2 n ->
  dseg lk' p (ks1 ++ ks2) n.
Proof. intros. rewrite dseg_app. by eapply dseg_patch. Qed.

(** Linking a node into a gap. *)
Lemma dseg_insert lk lk' ks1 k ks2 p n a b :
  NoDup (ks1 ++ ks2) -> k ∉ ks1 ++ ks2 ->
  lk' k = Some (last_or p ks1, hd_or n ks2) ->
  (forall j, j ∈ ks1 ++ ks2 -> lk' j = patched ks1 ks2 (inj k) (inj k) j <$> lk j) ->
  dseg lk p ks1 a -> dseg lk b ks2 n ->
  dseg lk' p (ks1 ++ k :: ks2) n.
Proof.
  intros Hnd Hk Hlk Heq H1 H2. rewrite dseg_app. simpl.
  destruct (dseg_patch lk lk' ks1 ks2 p n a b (inj k) (inj k)) as [H3 H4]; done.
Qed.
End doubly_linked.

Section singly_linked.
Context {K P : Type} (inj : K -> P).
Implicit Types (nx : K -> option P) (ks : list K).

(** [sseg nx ks n]: the nodes [ks] are linked in this order by their successor
    field, and the last one's successor is [n]. *)
Fixpoint sseg nx ks n : Prop :=
  match ks with
  | [] => True
  | k :: ks' => nx k = Some (hd_or inj n ks') /\ sseg nx ks' n
  end.

Lemma sseg_app nx ks1 ks2 n :
  sseg nx (ks1 ++ ks2) n <-> sseg nx ks1 (hd_or inj n ks2) /\ sseg nx ks2 n.
Proof.
  induction ks1 as [|k ks1 IH]; simpl; [tauto|].
  rewrite IH, hd_or_app. tauto.
Qed.

Lemma sseg_ext nx nx' ks n :
  (forall k, k ∈ ks -> nx' k = nx k) -> sseg nx ks n -> sseg nx' ks n.
Proof.
  induction ks as [|k ks IH]; intros Heq; simpl; [done|]. intros [H1 H2]. split.
  - rewrite Heq; [done|set_solver].
  - apply IH; [|done]. intros; apply Heq; set_solver.
Qed.
End singly_linked.

(** Links that are null at the ends. *)
Lemma hd_or_Some {K} (ks : list K) : hd_or Some None ks = head ks.
Proof. unfold hd_or. by destruct (head ks). Qed.

Lemma last_or_Some {K} (ks : list K) : last_or Some None ks = last ks.
Proof. unfold last_or. by destruct (last ks). Qed.
