(* ===== verification/HiveBlock.v ===== *)
(** * Hive blocks: the skipfield and the free-run list of one block

    Models the part of [hive::block_type] (backport/cpp26/hive.hpp) that the
    slot-level operations read and write: the slot storage, the jump-counting
    skipfield, [live_count], [high_water] and [free_head].  The link fields of
    a block are in the file HiveHeap.

    Slot storage and skipfield are finite maps from indices: an index that is
    absent is memory outside the allocation or never written.  An operation
    that reads such memory, or reads a slot as something it does not hold
    (the bytes of free-run links where an element lives, an element where
    there is none), returns [None]; the theorems show that it never happens on
    a well-formed block. *)
From S2P Require Import Prelude Linked.

(** ** Indices *)

(** [npos] and [slot_npos]: the largest [size_t] and [uint16_t]. *)
Definition npos : Z := 2 ^ 64 - 1.
Definition slot_npos : Z := 2 ^ 16 - 1.

Definition to_slot_index (index : Z) : Z :=
  if (index =? npos)%Z then slot_npos else u16 index.

Definition to_wide_index (index : Z) : Z :=
  if (index =? slot_npos)%Z then npos else index.

(** The two 16-bit links stored as bytes in the first slot of a dead run. *)
Record free_run_links := FreeRunLinks { previous : Z; next : Z }.

Section block.
Context {T : Type}.
Implicit Types (x : T) (i j : Z).

(** What a slot's storage holds: nothing that may be read, an element, or the
    links of a free run. *)
Inductive slot := Raw | Elem (x : T) | Links (l : free_run_links).

Record skipfield := SkipField {
  slots : gmap Z slot;
  skip : gmap Z Z;
  capacity : Z;
  live_count : Z;
  high_water : Z;
  free_head : Z;
}.
Implicit Types b : skipfield.

Definition set_slots (m : gmap Z slot) b : skipfield :=
  SkipField m (skip b) (capacity b) (live_count b) (high_water b) (free_head b).
Definition set_skip (m : gmap Z Z) b : skipfield :=
  SkipField (slots b) m (capacity b) (live_count b) (high_water b) (free_head b).
Definition set_live_count (n : Z) b : skipfield :=
  SkipField (slots b) (skip b) (capacity b) n (high_water b) (free_head b).
Definition set_high_water (n : Z) b : skipfield :=
  SkipField (slots b) (skip b) (capacity b) (live_count b) n (free_head b).
Definition set_free_head (n : Z) b : skipfield :=
  SkipField (slots b) (skip b) (capacity b) (live_count b) (high_water b) n.

(** ** Slot and skipfield accesses *)

(** [block->skip[i]] read and written; the index is within the allocation. *)
Definition read_skip b i : option Z := skip b !! i.
Definition write_skip b i (n : Z) : option skipfield :=
  if ((0 <=? i) && (i <? capacity b))%Z
  then Some (set_skip (<[i := u16 n]> (skip b)) b) else None.

Definition write_slot b i (s : slot) : option skipfield :=
  if ((0 <=? i) && (i <? capacity b))%Z
  then Some (set_slots (<[i := s]> (slots b)) b) else None.

Definition read_free_links b i : option free_run_links :=
  match slots b !! i with Some (Links l) => Some l | _ => None end.
Definition write_free_links b i (l : free_run_links) : option skipfield :=
  write_slot b i (Links l).

(** The element at [i]: [None] when no element lives there. *)
Definition element b i : option T :=
  match slots b !! i with Some (Elem x) => Some x | _ => None end.

(** [construct] on raw storage: constructing over a live element is refused. *)
Definition construct_at b i x : option skipfield :=
  match element b i with None => write_slot b i (Elem x) | Some _ => None end.
(** [destroy] of the element at [i]. *)
Definition destroy_at b i : option skipfield :=
  match element b i with Some _ => write_slot b i Raw | None => None end.
(** A constructor that throws may have overwritten the storage. *)
Definition clobber_at b i : option skipfield :=
  match element b i with None => write_slot b i Raw | Some _ => None end.

(** ** The free-run list *)

Definition unlink_free_run b (links : free_run_links) : option skipfield :=
  b1 ← (if (previous links =? slot_npos)%Z
        then Some (set_free_head (to_wide_index (next links)) b)
        else p ← read_free_links b (previous links);
             write_free_links b (previous links)
               (FreeRunLinks (previous p) (next links)));
  if negb (next links =? slot_npos)%Z
  then n ← read_free_links b1 (next links);
       write_free_links b1 (next links) (FreeRunLinks (previous links) (next n))
  else Some b1.

Definition move_free_run b i (links : free_run_links) : option skipfield :=
  b0 ← write_free_links b i links;
  b1 ← (if (previous links =? slot_npos)%Z
        then Some (set_free_head i b0)
        else p ← read_free_links b0 (previous links);
             write_free_links b0 (previous links)
               (FreeRunLinks (previous p) (to_slot_index i)));
  if negb (next links =? slot_npos)%Z
  then n ← read_free_links b1 (next links);
       write_free_links b1 (next links) (FreeRunLinks (to_slot_index i) (next n))
  else Some b1.

Definition push_free_run b i : option skipfield :=
  move_free_run b i (FreeRunLinks slot_npos (to_slot_index (free_head b))).

Definition reset_vacant_block b : skipfield :=
  set_free_head npos (set_high_water 0 (set_live_count 0 b)).

(** A block fresh from [allocate_block]: nothing is initialised. *)
Definition fresh_field (cap : Z) : skipfield :=
  SkipField ∅ ∅ cap 0 0 npos.

(** ** The slot-level halves of the hive operations *)

(** [emplace] into an available block: reuse the head of the free-run list or
    bump [high_water].  [x] is the constructed element, [None] when the
    construction throws; the second result is the index of the new element. *)
Definition emplace_slot b (x : option T) : option (skipfield * option Z) :=
  let reuse := negb (free_head b =? npos)%Z in
  let index := if reuse then free_head b else high_water b in
  run_length ← (if reuse then read_skip b index else Some 0%Z);
  links ← (if reuse then read_free_links b index
           else Some (FreeRunLinks slot_npos slot_npos));
  match x with
  | None =>
      b1 ← clobber_at b index;
      b2 ← (if reuse then write_free_links b1 index links else Some b1);
      Some (b2, None)
  | Some v =>
      b1 ← construct_at b index v;
      b2 ← write_skip b1 index 0;
      b3 ← (if reuse then
              if (run_length =? 1)%Z then unlink_free_run b2 links
              else
                let remaining := u16 (run_length - 1) in
                b4 ← write_skip b2 (index + 1) remaining;
                b5 ← write_skip b4 (index + run_length - 1) remaining;
                move_free_run b5 (index + 1) links
            else Some (set_high_water (high_water b2 + 1) b2));
      Some (set_live_count (live_count b3 + 1) b3, Some index)
  end.

(** The first element of a block taken from the reserved list or allocated. *)
Definition emplace_first b (x : option T) : option (skipfield * option Z) :=
  match x with
  | None => b1 ← clobber_at b 0; Some (b1, None)
  | Some v =>
      b1 ← construct_at b 0 v;
      b2 ← write_skip b1 0 0;
      Some (set_live_count 1 (set_high_water 1 b2), Some 0%Z)
  end.

(** The part of [erase] that turns the destroyed slot [i], below the last
    initialised slot, into a dead run, merging it with the run of [left] slots
    before it and the run of [right] slots after it. *)
Definition merge_dead_runs b i (left right : Z) : option skipfield :=
  let length := u16 (left + right + 1) in
  if ((left =? 0) && (right =? 0))%Z then
    b1 ← write_skip b i 1;
    push_free_run b1 i
  else if (right =? 0)%Z then
    b1 ← write_skip b (i - left) length;
    write_skip b1 i length
  else if (left =? 0)%Z then
    links ← read_free_links b (i + 1);
    b1 ← write_skip b i length;
    b2 ← write_skip b1 (i + right) length;
    move_free_run b2 i links
  else
    b1 ← write_skip b (i - left) length;
    b2 ← write_skip b1 (i + right) length;
    b3 ← write_skip b2 i 1;
    links ← read_free_links b3 (i + 1);
    unlink_free_run b3 links.

(** [erase]: destroy the element and give its slot to the skipfield and the
    free-run list; erasing the last initialised slot lowers [high_water],
    past a dead run before it. *)
Definition erase_slot b i : option skipfield :=
  b0 ← destroy_at b i;
  let b := set_live_count (live_count b0 - 1) b0 in
  if (i =? high_water b - 1)%Z then
    let b1 := set_high_water i b in
    if (i =? 0)%Z then Some b1 else
    before ← read_skip b1 (i - 1);
    if (before =? 0)%Z then Some b1 else
    let run_start := (i - before)%Z in
    links ← read_free_links b1 run_start;
    b2 ← unlink_free_run b1 links;
    Some (set_high_water run_start b2)
  else
    left ← (if (i =? 0)%Z then Some 0%Z else read_skip b (i - 1));
    right ← read_skip b (i + 1);
    merge_dead_runs b i left right.

(** [destroy_live_elements]: the fuel bounds the number of iterations. *)
Fixpoint destroy_from (fuel : nat) b i : option skipfield :=
  if (i <? high_water b)%Z then
    match fuel with
    | O => None
    | S fuel' =>
        b1 ← destroy_at b i;
        let i := (i + 1)%Z in
        if (i <? high_water b1)%Z
        then n ← read_skip b1 i; destroy_from fuel' b1 (i + n)
        else destroy_from fuel' b1 i
    end
  else Some b.

Definition destroy_live_elements b : option skipfield :=
  i ← (if (high_water b =? 0)%Z then Some 0%Z else read_skip b 0);
  destroy_from (Z.to_nat (high_water b)) b i.

(** [operator++] and [operator--] within a block: the index of the next
    (previous) live slot, [None] inside when the block is left. *)
Definition next_index b i : option (option Z) :=
  let nxt := (i + 1)%Z in
  if (nxt <? high_water b)%Z
  then n ← read_skip b nxt; Some (Some (nxt + n)%Z)
  else Some None.

Definition prev_index b i : option (option Z) :=
  if negb (i =? 0)%Z then
    let prv := (i - 1)%Z in
    skipped ← read_skip b prv;
    if (skipped <=? prv)%Z then Some (Some (prv - skipped)%Z) else Some None
  else Some None.

(** ** Layouts: what the skipfield encodes

    A block is a sequence of live slots and maximal dead runs, each dead run
    followed by a live slot. *)
Inductive segment := Live (x : T) | Dead (n : Z).
Implicit Types (l : list segment) (fs : list Z).

Definition seg_width (s : segment) : Z :=
  match s with Live _ => 1 | Dead n => n end.

Fixpoint width l : Z :=
  match l with [] => 0 | s :: l' => (seg_width s + width l')%Z end.

(** The elements in index order. *)
Fixpoint elems l : list T :=
  match l with
  | [] => []
  | Live x :: l' => x :: elems l'
  | Dead _ :: l' => elems l'
  end.

(** The first index of every dead run. *)
Fixpoint starts (base : Z) l : list Z :=
  match l with
  | [] => []
  | Live _ :: l' => starts (base + 1) l'
  | Dead n :: l' => base :: starts (base + n) l'
  end.

Fixpoint shape l : Prop :=
  match l with
  | [] => True
  | Live _ :: l' => shape l'
  | Dead n :: l' =>
      (1 <= n)%Z /\ match l' with Live _ :: _ => shape l' | _ => False end
  end.

(** Storage that holds no element. *)
Definition vacant (o : option slot) : Prop :=
  match o with Some (Elem _) => False | _ => True end.

Fixpoint encodes b (base : Z) l : Prop :=
  match l with
  | [] => True
  | Live x :: l' =>
      skip b !! base = Some 0%Z /\ slots b !! base = Some (Elem x) /\
      encodes b (base + 1) l'
  | Dead n :: l' =>
      skip b !! base = Some n /\ skip b !! (base + n - 1)%Z = Some n /\
      (forall j, (base <= j < base + n)%Z ->
         vacant (slots b !! j) /\ exists v, skip b !! j = Some v /\ v <> 0%Z) /\
      encodes b (base + n) l'
  end.

(** The links stored at a slot, as pairs. *)
Definition run_links b (i : Z) : option (Z * Z) :=
  (fun r => (previous r, next r)) <$> read_free_links b i.

Definition free_list b fs : Prop :=
  free_head b = hd_or id npos fs /\ dseg id (run_links b) slot_npos fs slot_npos.

(** A block with layout [l] whose free-run list is [fs]. *)
Record block_rep b l fs : Prop := BlockRep {
  rep_capacity : (1 <= capacity b <= slot_npos)%Z;
  rep_high_water : high_water b = width l;
  rep_bound : (width l <= capacity b)%Z;
  rep_shape : shape l;
  rep_encodes : encodes b 0 l;
  rep_tail : forall j, (width l <= j)%Z -> vacant (slots b !! j);
  rep_live_count : live_count b = Z.of_nat (length (elems l));
  rep_free : free_list b fs;
  rep_starts : fs ≡ₚ starts 0 l;
}.
End block.

Arguments slot : clear implicits.
Arguments skipfield : clear implicits.
Arguments segment : clear implicits.

(** ** Facts about layouts *)

Section layout_facts.
Context {T : Type}.
Implicit Types (x : T) (i j : Z) (b : skipfield T) (l : list (segment T)) (fs : list Z).

Lemma width_app l1 l2 : width (l1 ++ l2) = (width l1 + width l2)%Z.
Proof. induction l1; simpl; lia. Qed.

Lemma elems_app l1 l2 : elems (l1 ++ l2) = elems l1 ++ elems l2.
Proof. induction l1 as [|[x|n] l1 IH]; simpl; by rewrite ?IH. Qed.

Lemma starts_app base l1 l2 :
  starts base (l1 ++ l2) = starts base l1 ++ starts (base + width l1) l2.
Proof.
  revert base. induction l1 as [|[x|n] l1 IH]; intros base; simpl.
  - f_equal. lia.
  - rewrite IH. do 2 f_equal. lia.
  - rewrite IH. do 3 f_equal. lia.
Qed.

Lemma encodes_app b base l1 l2 :
  encodes b base (l1 ++ l2) <-> encodes b base l1 /\ encodes b (base + width l1) l2.
Proof.
  revert base. induction l1 as [|[x|n] l1 IH]; intros base; simpl.
  - rewrite Z.add_0_r. tauto.
  - rewrite IH, Z.add_assoc. tauto.
  - rewrite IH, Z.add_assoc. tauto.
Qed.

(** The layouts a prefix (suffix) of a well-shaped layout may have. *)
Fixpoint widths_pos l : Prop :=
  match l with [] => True | s :: l' => (1 <= seg_width s)%Z /\ widths_pos l' end.

Lemma shape_widths l : shape l -> widths_pos l.
Proof.
  induction l as [|[x|n] l IH]; simpl; [done|by split; [lia|auto]|].
  destruct l as [|[y|m] l]; intros [? H]; try done. split; [done|]. apply IH. exact H.
Qed.

Lemma widths_pos_app l1 l2 : widths_pos (l1 ++ l2) <-> widths_pos l1 /\ widths_pos l2.
Proof. induction l1; simpl; tauto. Qed.

Lemma width_nonneg l : widths_pos l -> (0 <= width l)%Z.
Proof. induction l; simpl; [lia|]. intros [? H%IHl]. lia. Qed.

Lemma shape_suffix l1 l2 : shape (l1 ++ l2) -> shape l2.
Proof.
  induction l1 as [|[x|n] l1 IH]; simpl; [done|auto|].
  intros [_ H]. apply IH. destruct (l1 ++ l2) as [|[]]; done.
Qed.

(** A live slot separates what is before it from what is after it. *)
Lemma shape_app_live l1 x l2 : shape (l1 ++ Live x :: l2) <-> shape (l1 ++ [Live x]) /\ shape l2.
Proof.
  induction l1 as [|[y|n] l1 IH]; simpl; [tauto|done|].
  destruct l1 as [|[z|m] l1]; simpl in *; [tauto|tauto|]. tauto.
Qed.

Lemma shape_live_x l1 x y : shape (l1 ++ [Live x]) <-> shape (l1 ++ [Live y]).
Proof.
  induction l1 as [|[z|n] l1 IH]; simpl; [done|done|].
  destruct l1 as [|[z|m] l1]; simpl in *; [tauto|tauto|tauto].
Qed.

Lemma shape_snoc_inv l1 x :
  shape (l1 ++ [Live x]) ->
  shape l1 \/ exists l0 n, l1 = l0 ++ [Dead n] /\ (1 <= n)%Z /\ shape l0.
Proof.
  induction l1 as [|[y|n] l1 IH]; simpl; [auto|auto|].
  - intros [H|(l0 & m & -> & ? & ?)]%IH; [by left|].
    right. exists (Live y :: l0), m. done.
  - destruct l1 as [|[z|m] l1]; simpl; [|intros [Hn H]|by intros [??]].
    + intros [? _]. right. by exists [], n.
    + destruct (IH H) as [?|(l0 & m & Heq & ? & ?)]; [by left|].
      right. destruct l0 as [|s l0]; [done|]. simpl in Heq. injection Heq as <- ->.
      by exists (Dead n :: Live z :: l0), m.
Qed.

Lemma starts_range base l s :
  widths_pos l -> s ∈ starts base l -> (base <= s < base + width l)%Z.
Proof.
  revert base. induction l as [|[x|n] l IH]; intros base; simpl; [set_solver| |].
  - intros [_ H] Hs. specialize (IH (base + 1)%Z H Hs). lia.
  - intros [? H] [->|Hs]%elem_of_cons.
    + pose proof (width_nonneg l H). lia.
    + specialize (IH (base + n)%Z H Hs). lia.
Qed.

Lemma starts_NoDup base l : widths_pos l -> NoDup (starts base l).
Proof.
  revert base. induction l as [|[x|n] l IH]; intros base; simpl.
  - constructor.
  - intros [_ H]. auto.
  - intros [? H]. constructor; [|auto].
    intros Hs%starts_range; [lia|done].
Qed.

Lemma elems_length_le l : widths_pos l -> (Z.of_nat (length (elems l)) <= width l)%Z.
Proof. induction l as [|[x|n] l IH]; simpl; [lia| |]; intros [? H%IH]; lia. Qed.

(** ** Frame lemmas *)

(** [b'] encodes what [b] encodes on the indices where it agrees with [b] up to
    the contents of vacant slots. *)
Definition agree_at b b' (j : Z) : Prop :=
  skip b' !! j = skip b !! j /\
  (slots b' !! j = slots b !! j \/ vacant (slots b !! j) /\ vacant (slots b' !! j)).

Lemma agree_at_refl b j : agree_at b b j.
Proof. split; [done|by left]. Qed.

Lemma agree_at_trans b1 b2 b3 j : agree_at b1 b2 j -> agree_at b2 b3 j -> agree_at b1 b3 j.
Proof.
  intros [H1 H2] [H3 H4]. split; [congruence|].
  destruct H2 as [H2|[H2 H2']], H4 as [H4|[H4 H4']]; rewrite ?H2, ?H4 in *; auto.
Qed.

Lemma encodes_frame b b' base l :
  widths_pos l ->
  (forall j, (base <= j < base + width l)%Z -> agree_at b b' j) ->
  encodes b base l -> encodes b' base l.
Proof.
  revert base. induction l as [|[x|n] l IH]; intros base; simpl; [done| |].
  - intros [_ Hw] Hag (H1 & H2 & H3). pose proof (width_nonneg l Hw).
    destruct (Hag base ltac:(lia)) as [Hk [Hs|[Hs _]]]; [|by rewrite H2 in Hs].
    repeat split; [congruence..|]. apply IH; [done| |done]. intros; apply Hag; lia.
  - intros [Hn Hw] Hag (H1 & H2 & H3 & H4). pose proof (width_nonneg l Hw).
    destruct (Hag base ltac:(lia)) as [Hk1 _].
    destruct (Hag (base + n - 1)%Z ltac:(lia)) as [Hk2 _].
    split; [congruence|]. split; [congruence|]. split.
    + intros j Hj. destruct (Hag j ltac:(lia)) as [Hk Hs].
      destruct (H3 j Hj) as [Hv ?]. rewrite Hk. split; [|done].
      destruct Hs as [->|[_ ?]]; done.
    + apply IH; [done| |done]. intros; apply Hag; lia.
Qed.

(** ** Reading a layout back *)

Lemma encodes_hd_skip b base s l :
  encodes b base (s :: l) ->
  skip b !! base = Some (match s with Live _ => 0 | Dead n => n end)%Z.
Proof. destruct s; simpl; tauto. Qed.

Lemma encodes_last_skip b base l s :
  encodes b base (l ++ [s]) ->
  skip b !! (base + width (l ++ [s]) - 1)%Z =
    Some (match s with Live _ => 0 | Dead n => n end)%Z.
Proof.
  rewrite encodes_app, width_app. destruct s as [x|n]; simpl.
  - intros (_ & E & _). rewrite <- E. f_equal. lia.
  - intros (_ & _ & E & _). rewrite <- E. f_equal. lia.
Qed.

Lemma encodes_vacant_start b base l s :
  widths_pos l -> encodes b base l -> s ∈ starts base l -> vacant (slots b !! s).
Proof.
  revert base. induction l as [|[x|n] l IH]; intros base; simpl; [set_solver| |].
  - intros [_ ?] (_ & _ & ?) ?. eauto.
  - intros [? ?] (_ & _ & Hv & ?) [->|?]%elem_of_cons; [apply (Hv base); lia|eauto].
Qed.
End layout_facts.

(** ** The free-run list operations *)

Section free_list_facts.
Context {T : Type}.
Implicit Types (i j : Z) (b : skipfield T) (l : list (segment T)) (fs : list Z).

(** [b'] differs from [b] only in [free_head] and in the contents of vacant
    slots. *)
Record only_links b b' : Prop := OnlyLinks {
  ol_skip : skip b' = skip b;
  ol_capacity : capacity b' = capacity b;
  ol_live : live_count b' = live_count b;
  ol_high : high_water b' = high_water b;
  ol_slots : forall j, slots b' !! j = slots b !! j \/
                       vacant (slots b !! j) /\ vacant (slots b' !! j);
}.

Lemma only_links_agree b b' j : only_links b b' -> agree_at b b' j.
Proof. intros [Hk _ _ _ Hs]. split; [by rewrite Hk|done]. Qed.

Lemma only_links_refl b : only_links b b.
Proof. split; auto. Qed.

Lemma only_links_trans b1 b2 b3 : only_links b1 b2 -> only_links b2 b3 -> only_links b1 b3.
Proof.
  intros H12 H23. split; [| | | |intros j;
    exact (proj2 (agree_at_trans _ _ _ j (only_links_agree _ _ j H12) (only_links_agree _ _ j H23)))];
  destruct H12, H23; congruence.
Qed.

Lemma write_slot_ok b i s :
  (0 <= i < capacity b)%Z ->
  write_slot b i s = Some (set_slots (<[i := s]> (slots b)) b).
Proof. intros ?. unfold write_slot. by zb. Qed.

Lemma write_skip_ok b i n :
  (0 <= i < capacity b)%Z -> (0 <= n < 65536)%Z ->
  write_skip b i n = Some (set_skip (<[i := n]> (skip b)) b).
Proof. intros ??. unfold write_skip. zb. simpl. by rewrite u16_small. Qed.

Lemma run_links_set b i r j :
  run_links (set_slots (<[i := Links r]> (slots b)) b) j =
  if decide (i = j) then Some (previous r, next r) else run_links b j.
Proof.
  unfold run_links, read_free_links. simpl. case_decide; [subst|].
  - by rewrite lookup_insert_eq.
  - by rewrite lookup_insert_ne.
Qed.

Lemma run_links_read b i p n :
  run_links b i = Some (p, n) -> read_free_links b i = Some (FreeRunLinks p n).
Proof.
  unfold run_links. destruct (read_free_links b i) as [[]|]; simpl; [|done].
  by intros [= -> ->].
Qed.

Lemma run_links_vacant b i pn : run_links b i = Some pn -> vacant (slots b !! i).
Proof. unfold run_links, read_free_links. by destruct (slots b !! i) as [[]|]. Qed.

Lemma only_links_write b i r :
  vacant (slots b !! i) -> only_links b (set_slots (<[i := Links r]> (slots b)) b).
Proof.
  intros Hv. split; try done. intros j. simpl. destruct (decide (i = j)) as [->|].
  - right. by rewrite lookup_insert_eq.
  - left. by rewrite lookup_insert_ne.
Qed.

Lemma only_links_head b h : only_links b (set_free_head h b).
Proof. split; auto. Qed.

Lemma last_or_npos fs :
  Forall (fun s => 0 <= s < slot_npos)%Z fs ->
  (last_or id slot_npos fs =? slot_npos)%Z = match last fs with None => true | _ => false end.
Proof.
  intros Hf. unfold last_or. destruct (last fs) as [s|] eqn:E; [|apply Z.eqb_refl].
  apply last_is_Some_elem in E. rewrite Forall_forall in Hf. specialize (Hf _ E).
  apply Z.eqb_neq. unfold id. lia.
Qed.

Lemma hd_or_npos fs :
  Forall (fun s => 0 <= s < slot_npos)%Z fs ->
  (hd_or id slot_npos fs =? slot_npos)%Z = match head fs with None => true | _ => false end.
Proof.
  intros Hf. unfold hd_or. destruct (head fs) as [s|] eqn:E; [|apply Z.eqb_refl].
  apply head_is_Some_elem in E. rewrite Forall_forall in Hf. specialize (Hf _ E).
  apply Z.eqb_neq. unfold id. lia.
Qed.

(** The two halves of [unlink_free_run] and [move_free_run]: the successor link
    of the last node of [fs1], or [free_head], and the predecessor link of the
    first node of [fs2]. *)
Definition set_successor b (p h v : Z) : option (skipfield T) :=
  if (p =? slot_npos)%Z then Some (set_free_head h b)
  else r ← read_free_links b p; write_free_links b p (FreeRunLinks (previous r) v).

Definition set_predecessor b (n v : Z) : option (skipfield T) :=
  if negb (n =? slot_npos)%Z
  then r ← read_free_links b n; write_free_links b n (FreeRunLinks v (next r))
  else Some b.

Definition in_capacity b fs : Prop :=
  Forall (fun s => (0 <= s < slot_npos)%Z /\ (s < capacity b)%Z) fs.

Lemma in_capacity_npos b fs : in_capacity b fs -> Forall (fun s => 0 <= s < slot_npos)%Z fs.
Proof. intros H. eapply Forall_impl; [exact H|]. simpl. tauto. Qed.

Lemma set_successor_spec b p fs n h v :
  in_capacity b fs -> dseg id (run_links b) p fs n ->
  exists b', set_successor b (last_or id slot_npos fs) h v = Some b' /\
    only_links b b' /\
    free_head b' = (match fs with [] => h | _ => free_head b end) /\
    forall j, run_links b' j =
      (fun r => (r.1, if decide (last fs = Some j) then v else r.2)) <$> run_links b j.
Proof.
  intros Hc Hd. unfold set_successor. rewrite last_or_npos by by eapply in_capacity_npos.
  destruct fs as [|k fs _] using rev_ind.
  - eexists. split; [done|]. split; [apply only_links_head|]. split; [done|].
    intros j. change (run_links (set_free_head h b) j) with (run_links b j).
    by destruct (run_links b j) as [[]|].
  - rewrite last_snoc, last_or_snoc. change (id k) with k.
    pose proof (dseg_lookup id _ _ _ _ _ _ Hd) as Hk.
    rewrite (run_links_read _ _ _ _ Hk). simpl. unfold write_free_links.
    apply Forall_app in Hc as [_ Hc]. apply Forall_cons in Hc as [[??] _].
    rewrite write_slot_ok by lia. eexists. split; [done|].
    split; [by eapply only_links_write, run_links_vacant|].
    split; [by destruct fs|].
    intros j. rewrite run_links_set. destruct (decide (k = j)) as [->|].
    + rewrite Hk. simpl. by rewrite decide_True.
    + destruct (run_links b j) as [[]|]; simpl; [|done].
      by rewrite decide_False by congruence.
Qed.

Lemma set_predecessor_spec b p fs n v :
  in_capacity b fs -> dseg id (run_links b) p fs n ->
  exists b', set_predecessor b (hd_or id slot_npos fs) v = Some b' /\
    only_links b b' /\ free_head b' = free_head b /\
    forall j, run_links b' j =
      (fun r => (if decide (head fs = Some j) then v else r.1, r.2)) <$> run_links b j.
Proof.
  intros Hc Hd. unfold set_predecessor. rewrite hd_or_npos by by eapply in_capacity_npos.
  destruct fs as [|k fs].
  - eexists. split; [done|]. split; [apply only_links_refl|]. split; [done|].
    intros j. by destruct (run_links b j) as [[]|].
  - simpl in Hd. destruct Hd as [Hk _]. unfold hd_or. simpl. change (id k) with k.
    rewrite (run_links_read _ _ _ _ Hk). simpl. unfold write_free_links.
    apply Forall_cons in Hc as [[??] _].
    rewrite write_slot_ok by lia. eexists. split; [done|].
    split; [by eapply only_links_write, run_links_vacant|]. split; [done|].
    intros j. rewrite run_links_set. destruct (decide (k = j)) as [->|].
    + rewrite Hk. simpl. by rewrite decide_True.
    + destruct (run_links b j) as [[]|]; simpl; [|done].
      by rewrite decide_False by congruence.
Qed.

(** The list around a gap: [fs1] before it, [fs2] after it. *)
Record free_gap b fs1 fs2 : Prop := FreeGap {
  gap_nodup : NoDup (fs1 ++ fs2);
  gap_capacity : in_capacity b (fs1 ++ fs2);
  gap_left : exists a, dseg id (run_links b) slot_npos fs1 a;
  gap_right : exists c, dseg id (run_links b) c fs2 slot_npos;
  gap_head : fs1 <> [] -> free_head b = hd_or id npos fs1;
}.

Lemma dseg_relinked b b' ks (f : Z -> Z * Z -> Z * Z) p n :
  (forall j, run_links b' j = f j <$> run_links b j) ->
  (forall j r, j ∈ ks -> f j r = r) ->
  dseg id (run_links b) p ks n -> dseg id (run_links b') p ks n.
Proof.
  intros Hb Hf. apply dseg_ext. intros j Hj. rewrite Hb.
  destruct (run_links b j); simpl; [by rewrite Hf|done].
Qed.

(** Both halves together relink the gap. *)
Lemma relink_gap b fs1 fs2 h v w :
  free_gap b fs1 fs2 ->
  exists b1 b2, set_successor b (last_or id slot_npos fs1) h v = Some b1 /\
    set_predecessor b1 (hd_or id slot_npos fs2) w = Some b2 /\
    only_links b b2 /\
    free_head b2 = (match fs1 with [] => h | _ => free_head b end) /\
    forall j, run_links b2 j = patched fs1 fs2 v w j <$> run_links b j.
Proof.
  intros [Hnd Hc [a Hl] [c Hr] Hh]. apply Forall_app in Hc as [Hc1 Hc2].
  apply NoDup_app in Hnd as (Hnd1 & Hdis & Hnd2).
  destruct (set_successor_spec b _ _ _ h v Hc1 Hl) as (b1 & Hb1 & Ho1 & Hf1 & Hj1).
  assert (dseg id (run_links b1) c fs2 slot_npos) as Hr1.
  { eapply dseg_relinked; [exact Hj1| |exact Hr]. intros j [] Hj. simpl.
    rewrite decide_False; [done|]. intros E%last_is_Some_elem. by apply (Hdis j). }
  assert (in_capacity b1 fs2) as Hc2'.
  { unfold in_capacity. by rewrite (ol_capacity _ _ Ho1). }
  destruct (set_predecessor_spec b1 _ _ _ w Hc2' Hr1) as (b2 & Hb2 & Ho2 & Hf2 & Hj2).
  exists b1, b2. split; [done|]. split; [done|]. split; [by eapply only_links_trans|].
  split; [congruence|].
  intros j. rewrite Hj2, Hj1. destruct (run_links b j) as [[]|]; done.
Qed.

Lemma to_wide_hd fs :
  Forall (fun s => 0 <= s < slot_npos)%Z fs ->
  to_wide_index (hd_or id slot_npos fs) = hd_or id npos fs.
Proof.
  intros Hf. unfold to_wide_index. rewrite hd_or_npos by done.
  unfold hd_or. by destruct (head fs).
Qed.

(** [unlink_free_run] given the links of the node to drop closes the gap. *)
Lemma unlink_free_run_spec b fs1 fs2 :
  free_gap b fs1 fs2 ->
  exists b', unlink_free_run b
      (FreeRunLinks (last_or id slot_npos fs1) (hd_or id slot_npos fs2)) = Some b' /\
    only_links b b' /\ free_list b' (fs1 ++ fs2).
Proof.
  intros Hgap.
  destruct (relink_gap b fs1 fs2 (to_wide_index (hd_or id slot_npos fs2))
    (hd_or id slot_npos fs2) (last_or id slot_npos fs1) Hgap)
    as (b1 & b2 & H1 & H2 & Ho & Hh & Hj).
  destruct Hgap as [Hnd Hc [a Hl] [c Hr] Hhd].
  exists b2. split; [|split; [done|split]].
  - unfold set_successor in H1. unfold unlink_free_run. simpl. rewrite H1. exact H2.
  - rewrite Hh. destruct fs1 as [|k fs1]; [|by rewrite hd_or_app, Hhd by done].
    apply to_wide_hd. by eapply in_capacity_npos.
  - eapply dseg_join; eauto.
Qed.

(** [move_free_run] links the run that starts at [i] into the gap. *)
Lemma move_free_run_spec b i fs1 fs2 :
  free_gap b fs1 fs2 -> i ∉ fs1 ++ fs2 ->
  (0 <= i < slot_npos)%Z -> (i < capacity b)%Z -> vacant (slots b !! i) ->
  exists b', move_free_run b i
      (FreeRunLinks (last_or id slot_npos fs1) (hd_or id slot_npos fs2)) = Some b' /\
    only_links b b' /\ free_list b' (fs1 ++ i :: fs2).
Proof.
  intros Hgap Hi Hri Hci Hv.
  set (r := FreeRunLinks (last_or id slot_npos fs1) (hd_or id slot_npos fs2)).
  set (b0 := set_slots (<[i := Links r]> (slots b)) b).
  assert (forall j, j ∈ fs1 ++ fs2 -> run_links b0 j = run_links b j) as Hb0.
  { intros j Hj. unfold b0. rewrite run_links_set. rewrite decide_False; [done|set_solver]. }
  assert (free_gap b0 fs1 fs2) as Hgap0.
  { destruct Hgap as [Hnd Hc [a Hl] [c Hr] Hhd]. split; [done|done|exists a|exists c|done].
    - eapply dseg_ext; [|done]. intros. apply Hb0. set_solver.
    - eapply dseg_ext; [|done]. intros. apply Hb0. set_solver. }
  destruct (relink_gap b0 fs1 fs2 i i i Hgap0) as (b1 & b2 & H1 & H2 & Ho & Hh & Hj).
  assert (to_slot_index i = i) as Hti.
  { unfold to_slot_index, npos, slot_npos in *. zb. by rewrite u16_small by lia. }
  exists b2. split; [|split; [|split]].
  - assert (move_free_run b i r =
      (b1 ← set_successor b0 (previous r) i (to_slot_index i);
       set_predecessor b1 (next r) (to_slot_index i))) as ->.
    { unfold move_free_run. change (write_free_links b i r) with (write_slot b i (Links r)).
      by rewrite write_slot_ok by lia. }
    rewrite Hti. simpl. by rewrite H1.
  - eapply only_links_trans; [|exact Ho]. by apply only_links_write.
  - rewrite Hh. destruct fs1 as [|k fs1]; [done|].
    change (free_head b0) with (free_head b). rewrite hd_or_app.
    by rewrite (gap_head _ _ _ Hgap) by done.
  - destruct Hgap0 as [Hnd Hc [a Hl] [c Hr] Hhd].
    eapply dseg_insert; eauto.
    rewrite Hj. unfold b0 at 1. rewrite run_links_set, decide_True by done. simpl.
    unfold patched. simpl.
    rewrite !decide_False; [done| |].
    + intros E%last_is_Some_elem. set_solver.
    + intros E%head_is_Some_elem. set_solver.
Qed.

(** A free list cut at one of its nodes is a gap, and the links read there are
    those the operations expect. *)
Lemma free_list_cut b fs1 s fs2 :
  free_list b (fs1 ++ s :: fs2) -> NoDup (fs1 ++ s :: fs2) ->
  in_capacity b (fs1 ++ s :: fs2) ->
  read_free_links b s =
    Some (FreeRunLinks (last_or id slot_npos fs1) (hd_or id slot_npos fs2)) /\
  free_gap b fs1 fs2.
Proof.
  intros [Hh Hd] Hnd Hc. split.
  - apply run_links_read. by eapply dseg_lookup.
  - apply dseg_app in Hd as [Hl Hr]. simpl in Hr. destruct Hr as [_ Hr].
    rewrite NoDup_app, NoDup_cons in Hnd. destruct Hnd as (? & Hdis & ? & ?).
    split.
    + apply NoDup_app. split_and!; [done| |done]. set_solver.
    + apply Forall_app in Hc as [? Hc]. apply Forall_app. by inversion Hc.
    + by eexists.
    + by eexists.
    + intros Hne. rewrite Hh. by destruct fs1.
Qed.

(** Writes to other slots do not disturb a gap. *)
Lemma free_gap_frame b b' fs1 fs2 :
  (forall j, j ∈ fs1 ++ fs2 -> slots b' !! j = slots b !! j) ->
  capacity b' = capacity b -> free_head b' = free_head b ->
  free_gap b fs1 fs2 -> free_gap b' fs1 fs2.
Proof.
  intros Hs Hcap Hfh [Hnd Hc [a Hl] [c Hr] Hhd].
  assert (forall j, j ∈ fs1 ++ fs2 -> run_links b' j = run_links b j) as Hlk.
  { intros j Hj. unfold run_links, read_free_links. by rewrite Hs. }
  split; [done| |exists a|exists c|].
  - unfold in_capacity. by rewrite Hcap.
  - eapply dseg_ext; [|done]. intros. apply Hlk. set_solver.
  - eapply dseg_ext; [|done]. intros. apply Hlk. set_solver.
  - by rewrite Hfh.
Qed.
End free_list_facts.

(** ** Building a representation from a changed window *)

Section window.
Context {T : Type}.
Implicit Types (i j : Z) (x : T) (b : skipfield T) (l : list (segment T)) (fs : list Z).

Lemma encodes_mid b lA lM lB base :
  encodes b base (lA ++ lM ++ lB) ->
  encodes b base lA /\ encodes b (base + width lA) lM /\
  encodes b (base + width lA + width lM) lB.
Proof. rewrite !encodes_app. tauto. Qed.

(** Replacing the segments [lM] by [lM'] at index [width lA]: outside the window
    the block is unchanged up to the contents of vacant slots. *)
Lemma rep_window b b' lA lM lM' lB fs fs' :
  block_rep b (lA ++ lM ++ lB) fs ->
  shape (lA ++ lM' ++ lB) ->
  lB = [] \/ width lM' = width lM ->
  capacity b' = capacity b ->
  high_water b' = width (lA ++ lM' ++ lB) ->
  (width (lA ++ lM' ++ lB) <= capacity b)%Z ->
  (forall j, (0 <= j < width lA)%Z \/
     (width lA + width lM <= j /\ width lA + width lM' <= j)%Z -> agree_at b b' j) ->
  encodes b' (width lA) lM' ->
  (forall j, (width lA + width lM' <= j < width lA + width lM)%Z -> vacant (slots b' !! j)) ->
  live_count b' =
    (live_count b + Z.of_nat (length (elems lM')) - Z.of_nat (length (elems lM)))%Z ->
  free_list b' fs' -> fs' ≡ₚ starts 0 (lA ++ lM' ++ lB) ->
  block_rep b' (lA ++ lM' ++ lB) fs'.
Proof.
  intros [Hcap Hhw Hbd Hsh Henc Htl Hlc Hfl Hst] Hsh' HB Hc' Hhw' Hbd' Hag HM Hv Hl' Hfl' Hst'.
  pose proof (shape_widths _ Hsh) as Hw. rewrite !widths_pos_app in Hw.
  pose proof (shape_widths _ Hsh') as Hw'. rewrite !widths_pos_app in Hw'.
  destruct Hw as (HwA & HwM & HwB), Hw' as (_ & HwM' & _).
  pose proof (width_nonneg _ HwA). pose proof (width_nonneg _ HwM).
  pose proof (width_nonneg _ HwM'). pose proof (width_nonneg _ HwB).
  apply encodes_mid in Henc as (HA & _ & HBe). rewrite !Z.add_0_l in HBe.
  split; try done; [by rewrite Hc'|by rewrite Hc'| | |].
  - rewrite !encodes_app, !Z.add_0_l. split; [|split; [done|]].
    + eapply encodes_frame; [done| |done]. intros j Hj. apply Hag. lia.
    + destruct HB as [->|HB]; [done|]. rewrite HB.
      eapply encodes_frame; [done| |done]. intros j Hj. apply Hag. lia.
  - intros j Hj. rewrite !width_app in Hj.
    destruct (Z.lt_ge_cases j (width lA + width lM)); [apply Hv; lia|].
    assert (vacant (slots b !! j)) as Hvb.
    { apply Htl. rewrite !width_app. destruct HB as [->|HB]; simpl in *; lia. }
    destruct (Hag j) as [_ [->|[_ ?]]]; [lia|done|done].
  - rewrite Hl', Hlc, !elems_app, !length_app. lia.
Qed.

(** Facts about a represented block used by every operation. *)
Lemma rep_in_capacity b l fs : block_rep b l fs -> in_capacity b fs.
Proof.
  intros R. apply Forall_forall. intros s Hs. rewrite (rep_starts _ _ _ R) in Hs.
  apply starts_range in Hs; [|by apply shape_widths, R].
  pose proof (rep_bound _ _ _ R). pose proof (rep_capacity _ _ _ R). lia.
Qed.

Lemma rep_nodup b l fs : block_rep b l fs -> NoDup fs.
Proof.
  intros R. rewrite (rep_starts _ _ _ R). apply starts_NoDup. by apply shape_widths, R.
Qed.

(** The free list around the run that starts at [width lA]. *)
Lemma rep_cut b lA n lB fs :
  block_rep b (lA ++ Dead n :: lB) fs ->
  exists fs1 fs2, fs = fs1 ++ width lA :: fs2 /\
    read_free_links b (width lA) =
      Some (FreeRunLinks (last_or id slot_npos fs1) (hd_or id slot_npos fs2)) /\
    free_gap b fs1 fs2 /\
    fs1 ++ fs2 ≡ₚ starts 0 lA ++ starts (width lA + n) lB.
Proof.
  intros R. pose proof (rep_starts _ _ _ R) as Hp.
  rewrite starts_app in Hp. simpl in Hp. rewrite Z.add_0_l in Hp.
  assert (width lA ∈ fs) as Hin by (rewrite Hp; set_solver).
  apply list_elem_of_split in Hin as (fs1 & fs2 & ->).
  exists fs1, fs2. split; [done|].
  destruct (free_list_cut b fs1 (width lA) fs2 (rep_free _ _ _ R)
    (rep_nodup _ _ _ R) (rep_in_capacity _ _ _ R)) as [? ?].
  split; [done|]. split; [done|].
  rewrite <- !Permutation_middle in Hp. by apply Permutation_cons_inv in Hp.
Qed.

Lemma rep_live b lA x lB fs :
  block_rep b (lA ++ Live x :: lB) fs ->
  slots b !! width lA = Some (Elem x) /\ skip b !! width lA = Some 0%Z /\
  (0 <= width lA < capacity b)%Z /\ (0 <= width lB)%Z /\
  high_water b = (width lA + 1 + width lB)%Z.
Proof.
  intros R. pose proof (rep_encodes _ _ _ R) as He. rewrite encodes_app in He.
  destruct He as [_ (Hk & Hs & _)]. rewrite Z.add_0_l in Hk, Hs.
  pose proof (shape_widths _ (rep_shape _ _ _ R)) as Hw.
  apply widths_pos_app in Hw as [HwA [_ HwB]].
  pose proof (width_nonneg _ HwA). pose proof (width_nonneg _ HwB).
  pose proof (rep_bound _ _ _ R) as Hb. pose proof (rep_high_water _ _ _ R) as Hh.
  rewrite width_app in Hb, Hh. simpl in Hb, Hh. repeat split; try done; lia.
Qed.

(** The slot before a live slot: what [skip] says there. *)
Lemma rep_skip_before b lA s lB fs :
  block_rep b ((lA ++ [s]) ++ lB) fs ->
  skip b !! (width (lA ++ [s]) - 1)%Z =
    Some (match s with Live _ => 0 | Dead n => n end)%Z.
Proof.
  intros R. pose proof (rep_encodes _ _ _ R) as He. rewrite encodes_app in He.
  destruct He as [He _]. apply encodes_last_skip in He. by rewrite Z.add_0_l in He.
Qed.

Lemma rep_skip_at b lA s lB fs :
  block_rep b (lA ++ s :: lB) fs ->
  skip b !! width lA = Some (match s with Live _ => 0 | Dead n => n end)%Z.
Proof.
  intros R. pose proof (rep_encodes _ _ _ R) as He. rewrite encodes_app in He.
  destruct He as [_ He]. apply encodes_hd_skip in He. by rewrite Z.add_0_l in He.
Qed.

(** The inside of a dead run. *)
Lemma rep_dead_run b lA n lB fs :
  block_rep b (lA ++ Dead n :: lB) fs ->
  (1 <= n)%Z /\ skip b !! (width lA + n - 1)%Z = Some n /\
  forall j, (width lA <= j < width lA + n)%Z ->
    vacant (slots b !! j) /\ exists v, skip b !! j = Some v /\ v <> 0%Z.
Proof.
  intros R. pose proof (rep_encodes _ _ _ R) as He. rewrite encodes_app in He.
  destruct He as [_ He]. simpl in He. rewrite Z.add_0_l in He.
  destruct He as (_ & H2 & H3 & _). split; [|done].
  pose proof (shape_widths _ (rep_shape _ _ _ R)) as Hw.
  apply widths_pos_app in Hw as [_ [? _]]. done.
Qed.
End window.

(** ** [emplace] within a block *)

Section emplace.
Context {T : Type}.
Implicit Types (i j : Z) (x : T) (b : skipfield T) (l : list (segment T)) (fs : list Z).

Lemma shape_app l1 l2 : shape l1 -> shape l2 -> shape (l1 ++ l2).
Proof.
  induction l1 as [|[x|n] l1 IH]; simpl; [done|auto|].
  destruct l1 as [|[y|m] l1]; simpl; intros [? H] ?; [done| |done]. split; [done|].
  by apply IH.
Qed.

Lemma shape_app_dead l1 n l2 :
  shape (l1 ++ Dead n :: l2) ->
  shape l1 /\ (1 <= n)%Z /\ shape l2 /\ exists y l3, l2 = Live y :: l3.
Proof.
  induction l1 as [|[x|m] l1 IH]; simpl; [|done|].
  - destruct l2 as [|[y|m] l3]; intros [? H]; try done. eauto 10.
  - destruct l1 as [|[y|k] l1]; simpl; [by intros [_ []]| |by intros [_ []]].
    intros [? H]. destruct (IH H) as (? & ? & ? & ?). done.
Qed.

Lemma element_vacant b j : vacant (slots b !! j) <-> element b j = None.
Proof. unfold element. by destruct (slots b !! j) as [[]|]. Qed.

Lemma element_only_links b b' j : only_links b b' -> element b' j = element b j.
Proof.
  intros H. destruct (ol_slots _ _ H j) as [Hs|[H1 H2]].
  - unfold element. by rewrite Hs.
  - apply element_vacant in H1, H2. congruence.
Qed.

Lemma element_set_slot b i s j :
  element (set_slots (<[i := s]> (slots b)) b) j =
  if decide (i = j) then (match s with Elem x => Some x | _ => None end) else element b j.
Proof.
  unfold element. simpl. case_decide; [subst; by rewrite lookup_insert_eq|].
  by rewrite lookup_insert_ne.
Qed.

Lemma construct_at_ok b i x :
  (0 <= i < capacity b)%Z -> vacant (slots b !! i) ->
  construct_at b i x = Some (set_slots (<[i := Elem x]> (slots b)) b).
Proof.
  intros ? Hv. unfold construct_at. apply element_vacant in Hv. rewrite Hv.
  by apply write_slot_ok.
Qed.

Lemma free_list_nil_npos b l fs :
  block_rep b l fs -> (free_head b =? npos)%Z = match fs with [] => true | _ => false end.
Proof.
  intros R. destruct (rep_free _ _ _ R) as [Hh _]. rewrite Hh.
  destruct fs as [|s fs]; [by apply Z.eqb_refl|].
  pose proof (rep_in_capacity _ _ _ R) as Hc. apply Forall_cons in Hc as [[??] _].
  unfold hd_or, npos, slot_npos, id in *. simpl. apply Z.eqb_neq. lia.
Qed.

(** The layout a free-run head belongs to. *)
Lemma starts_split base l s :
  s ∈ starts base l ->
  exists lA n lB, l = lA ++ Dead n :: lB /\ s = (base + width lA)%Z.
Proof.
  revert base. induction l as [|[x|n] l IH]; intros base; simpl; [set_solver| |].
  - intros (lA & n & lB & -> & ->)%IH. exists (Live x :: lA), n, lB. split; [done|]. simpl. lia.
  - intros [->|(lA & m & lB & -> & ->)%IH]%elem_of_cons.
    + exists [], n, l. split; [done|]. simpl. lia.
    + exists (Dead n :: lA), m, lB. split; [done|]. simpl. lia.
Qed.

Lemma emplace_slot_bump b l v :
  block_rep b l [] -> (width l < capacity b)%Z ->
  exists b', emplace_slot b (Some v) = Some (b', Some (width l)) /\
    block_rep b' (l ++ [Live v]) [] /\ capacity b' = capacity b /\
    forall j, element b' j = if decide (width l = j) then Some v else element b j.
Proof.
  intros R Hlt. pose proof (shape_widths _ (rep_shape _ _ _ R)) as Hw.
  pose proof (width_nonneg _ Hw).
  unfold emplace_slot. rewrite (free_list_nil_npos _ _ _ R). simpl.
  rewrite (rep_high_water _ _ _ R).
  rewrite construct_at_ok by (try apply (rep_tail _ _ _ R); lia). simpl.
  rewrite write_skip_ok by (simpl; lia). simpl. eexists. split; [done|].
  split; [|split; [done|intros j; apply element_set_slot]].
  rewrite (rep_high_water _ _ _ R).
  rewrite <- (app_nil_r [Live v]).
  eapply (rep_window b _ l [] [Live v] []); simpl; rewrite ?app_nil_r; try done.
  - apply shape_app; [apply R|done].
  - by left.
  - rewrite width_app. simpl. lia.
  - rewrite width_app. simpl. lia.
  - intros j Hj. split; simpl; rewrite lookup_insert_ne by lia; auto.
  - rewrite !lookup_insert_eq. done.
  - intros j Hj. lia.
  - lia.
  - destruct (rep_free _ _ _ R) as [Hh _]. split; done.
  - rewrite starts_app. simpl. rewrite app_nil_r. apply (rep_starts _ _ _ R).
Qed.

(** What the layout around a dead run looks like. *)
Lemma rep_dead_bounds b lA n lB fs :
  block_rep b (lA ++ Dead n :: lB) fs ->
  shape lA /\ shape lB /\ (exists y l3, lB = Live y :: l3) /\
  (1 <= n /\ 0 <= width lA /\ 0 <= width lB /\
   width lA + n + width lB <= capacity b /\ capacity b < 65536 /\
   high_water b = width lA + n + width lB)%Z.
Proof.
  intros R. pose proof (rep_shape _ _ _ R) as Hsh. pose proof (shape_widths _ Hsh) as Hw.
  apply widths_pos_app in Hw as [HwA [_ HwB]].
  pose proof (width_nonneg _ HwA). pose proof (width_nonneg _ HwB).
  pose proof (rep_bound _ _ _ R) as Hb. pose proof (rep_high_water _ _ _ R) as Hh.
  rewrite width_app in Hb, Hh. simpl in Hb, Hh.
  pose proof (rep_capacity _ _ _ R) as Hcap. unfold slot_npos in Hcap.
  apply shape_app_dead in Hsh as (? & ? & ? & ?). split_and!; try done; lia.
Qed.

(** The block after constructing into slot [i] and clearing its skip entry. *)
Definition constructed b i v : skipfield T :=
  set_skip (<[i := 0%Z]> (skip b)) (set_slots (<[i := Elem v]> (slots b)) b).

Lemma constructed_agree b i v j : j <> i -> agree_at b (constructed b i v) j.
Proof. intros ?. split; simpl; rewrite lookup_insert_ne by done; auto. Qed.

Lemma constructed_element b b' i v j :
  only_links (constructed b i v) b' ->
  element b' j = if decide (i = j) then Some v else element b j.
Proof.
  intros Ho. rewrite (element_only_links _ _ _ Ho). unfold constructed.
  exact (element_set_slot b i (Elem v) j).
Qed.

Lemma only_links_constructed b b' i v :
  only_links (constructed b i v) b' ->
  skip b' !! i = Some 0%Z /\ slots b' !! i = Some (Elem v).
Proof.
  intros Ho. split.
  - rewrite (ol_skip _ _ Ho). unfold constructed. simpl. by rewrite lookup_insert_eq.
  - destruct (ol_slots _ _ Ho i) as [->|[Hv _]]; simpl in *; by rewrite lookup_insert_eq in *.
Qed.

(** The steps of [emplace_slot] the two reuse cases share. *)
Lemma emplace_reuse_prefix b lA n lB fs2 v :
  block_rep b (lA ++ Dead n :: lB) (width lA :: fs2) ->
  let i := width lA in
  let links := FreeRunLinks slot_npos (hd_or id slot_npos fs2) in
  fs2 ≡ₚ starts 0 lA ++ starts (i + n) lB /\
  free_gap (constructed b i v) [] fs2 /\
  emplace_slot b (Some v) =
    (b3 ← (if (n =? 1)%Z then unlink_free_run (constructed b i v) links
           else b4 ← write_skip (constructed b i v) (i + 1) (u16 (n - 1));
                b5 ← write_skip b4 (i + n - 1) (u16 (n - 1));
                move_free_run b5 (i + 1) links);
     Some (set_live_count (live_count b3 + 1) b3, Some i)).
Proof.
  intros R i links.
  destruct (rep_cut _ _ _ _ _ R) as (fs1' & fs2' & Hfs & Hrd & Hgap & Hperm).
  pose proof (rep_nodup _ _ _ R) as Hnd. apply NoDup_cons in Hnd as [Hnd _].
  assert (fs1' = [] /\ fs2' = fs2) as [-> ->].
  { destruct fs1' as [|s fs1']; simpl in Hfs; [by injection Hfs|].
    exfalso. injection Hfs as <- ->. set_solver. }
  destruct (rep_dead_run _ _ _ _ _ R) as (Hn & Hlast & Hrun).
  destruct (rep_dead_bounds _ _ _ _ _ R) as (_ & _ & _ & ? & ? & ? & ? & ? & _).
  split; [done|]. split.
  { eapply (free_gap_frame b); [|done|done|exact Hgap]. intros j Hj. simpl.
    rewrite lookup_insert_ne; [done|]. by intros <-. }
  assert (free_head b = i) as Hfh by apply (rep_free _ _ _ R).
  unfold emplace_slot. rewrite (free_list_nil_npos _ _ _ R). simpl. rewrite Hfh.
  unfold read_skip. rewrite (rep_skip_at _ _ _ _ _ R : skip b !! i = _). simpl.
  fold i in Hrd. rewrite Hrd. simpl.
  rewrite construct_at_ok by (try apply Hrun; unfold i; lia). simpl.
  rewrite write_skip_ok by (simpl; unfold i; lia). done.
Qed.

Lemma emplace_slot_reuse_1 b lA lB fs2 v :
  block_rep b (lA ++ Dead 1 :: lB) (width lA :: fs2) ->
  exists b' fs', emplace_slot b (Some v) = Some (b', Some (width lA)) /\
    block_rep b' (lA ++ Live v :: lB) fs' /\ capacity b' = capacity b /\
    forall j, element b' j = if decide (width lA = j) then Some v else element b j.
Proof.
  intros R. destruct (emplace_reuse_prefix _ _ _ _ _ v R) as (Hperm & Hgap & ->).
  destruct (rep_dead_bounds _ _ _ _ _ R) as (HshA & HshB & _ & ? & ? & ? & ? & ? & Hhw).
  destruct (unlink_free_run_spec _ [] fs2 Hgap) as (b3 & Hb3 & Ho & Hfl).
  change (last_or id slot_npos []) with slot_npos in Hb3. cbn [Z.eqb Pos.eqb]. rewrite Hb3. simpl.
  exists (set_live_count (live_count b3 + 1) b3), fs2. split; [done|].
  split; [|split; [apply (ol_capacity _ _ Ho)|intros j; exact (constructed_element _ _ _ _ j Ho)]].
  destruct (only_links_constructed _ _ _ _ Ho) as [Hk Hs].
  eapply (rep_window b _ lA [Dead 1] [Live v] lB); try done.
  - by apply shape_app.
  - by right.
  - apply (ol_capacity _ _ Ho).
  - simpl. rewrite (ol_high _ _ Ho), width_app. simpl. lia.
  - rewrite width_app. simpl. lia.
  - intros j Hj. simpl in Hj. apply (agree_at_trans _ (constructed b (width lA) v));
      [apply constructed_agree; lia|apply (only_links_agree _ _ _ Ho)].
  - simpl. intros j Hj. lia.
  - simpl. rewrite (ol_live _ _ Ho). simpl. lia.
  - rewrite starts_app. simpl. by rewrite Hperm, Z.add_0_l.
Qed.

Lemma emplace_slot_reuse_n b lA n lB fs2 v :
  block_rep b (lA ++ Dead n :: lB) (width lA :: fs2) -> n <> 1%Z ->
  exists b' fs', emplace_slot b (Some v) = Some (b', Some (width lA)) /\
    block_rep b' (lA ++ Live v :: Dead (n - 1) :: lB) fs' /\ capacity b' = capacity b /\
    forall j, element b' j = if decide (width lA = j) then Some v else element b j.
Proof.
  intros R Hn1. destruct (emplace_reuse_prefix _ _ _ _ _ v R) as (Hperm & Hgap & ->).
  destruct (rep_dead_bounds _ _ _ _ _ R) as (HshA & HshB & (y & l3 & Hy) & ? & ? & ? & ? & ? & Hhw).
  destruct (rep_dead_run _ _ _ _ _ R) as (_ & _ & Hrun).
  set (i := width lA) in *. zb. rewrite u16_small by lia.
  rewrite write_skip_ok by (simpl; lia). simpl.
  rewrite write_skip_ok by (simpl; lia). simpl.
  set (b5 := set_skip _ _).
  assert (forall j, agree_at (constructed b i v) b5 j \/ j = (i + 1)%Z \/ j = (i + n - 1)%Z) as Hb5.
  { intros j. destruct (decide (j = i + 1)%Z); [auto|]. destruct (decide (j = i + n - 1)%Z); [auto|].
    left. split; simpl; rewrite ?lookup_insert_ne by done; auto. }
  assert (free_gap b5 [] fs2) as Hgap5
    by (eapply (free_gap_frame (constructed b i v)); [|done|done|exact Hgap]; done).
  destruct (move_free_run_spec b5 (i + 1) [] fs2 Hgap5) as (b3 & Hb3 & Ho & Hfl).
  { simpl. rewrite Hperm, elem_of_app. intros [Hin|Hin]; apply starts_range in Hin;
      try (by apply shape_widths); unfold i in *; lia. }
  { unfold slot_npos. lia. }
  { simpl. lia. }
  { simpl. rewrite lookup_insert_ne by lia. apply Hrun. lia. }
  change (last_or id slot_npos []) with slot_npos in Hb3. rewrite Hb3. simpl.
  assert (forall j, slots b3 !! j = slots (constructed b i v) !! j \/
            vacant (slots (constructed b i v) !! j) /\ vacant (slots b3 !! j)) as Hs3
    by exact (ol_slots _ _ Ho).
  exists (set_live_count (live_count b3 + 1) b3), ((i + 1)%Z :: fs2). split; [done|].
  split; [|split; [apply (ol_capacity _ _ Ho)|]].
  2:{ intros j. change (element b3 j = if decide (i = j) then Some v else element b j).
      rewrite (element_only_links _ _ _ Ho). exact (element_set_slot b i (Elem v) j). }
  eapply (rep_window b _ lA [Dead n] [Live v; Dead (n - 1)] lB); try done.
  - apply shape_app; [done|]. subst lB. simpl. split; [lia|done].
  - right. simpl. lia.
  - apply (ol_capacity _ _ Ho).
  - simpl. rewrite (ol_high _ _ Ho), width_app. simpl. lia.
  - rewrite width_app. simpl. lia.
  - intros j Hj. simpl in Hj. fold i in Hj.
    apply (agree_at_trans _ b5); [|apply (only_links_agree _ _ _ Ho)].
    apply (agree_at_trans _ (constructed b i v)); [apply constructed_agree; lia|].
    destruct (Hb5 j) as [?|[?|?]]; [done|lia..].
  - fold i. simpl. rewrite (ol_skip _ _ Ho). simpl.
    destruct (Hs3 i) as [Hsi|[Hv _]]; simpl in *; rewrite lookup_insert_eq in *; [|done].
    replace (i + 1 + (n - 1) - 1)%Z with (i + n - 1)%Z by lia.
    rewrite (lookup_insert_ne _ (i + n - 1)%Z i), (lookup_insert_ne _ (i + 1)%Z i) by lia.
    rewrite !lookup_insert_eq. split_and!; try done.
    + destruct (decide (i + n - 1 = i + 1)%Z) as [->|]; [by rewrite lookup_insert_eq|].
      by rewrite lookup_insert_ne, lookup_insert_eq by done.
    + intros j Hj. destruct (Hrun j ltac:(lia)) as [Hv (w & Hw & Hw0)]. split.
      * destruct (Hs3 j) as [->|[_ ?]]; [|done]. by rewrite lookup_insert_ne by lia.
      * destruct (decide (j = i + n - 1)%Z) as [->|]; [rewrite lookup_insert_eq; eexists; split; [done|lia]|].
        destruct (decide (j = i + 1)%Z) as [->|].
        -- rewrite lookup_insert_ne, lookup_insert_eq by done. eexists. split; [done|lia].
        -- rewrite !lookup_insert_ne by lia. eauto.
  - simpl. intros j Hj. lia.
  - simpl. rewrite (ol_live _ _ Ho). simpl. lia.
  - rewrite starts_app. simpl. rewrite Z.add_0_l. fold i.
    replace (i + 1 + (n - 1))%Z with (i + n)%Z by lia. rewrite Hperm.
    by rewrite Permutation_middle.
Qed.
End emplace.

(** ** [erase] within a block *)

Section erase.
Context {T : Type}.
Implicit Types (i j : Z) (x : T) (b : skipfield T) (l : list (segment T)) (fs : list Z).

(** The block after destroying the element of slot [i]. *)
Definition destroyed b i : skipfield T :=
  set_live_count (live_count b - 1) (set_slots (<[i := Raw]> (slots b)) b).

Lemma destroyed_agree b i j : j <> i -> agree_at b (destroyed b i) j.
Proof. intros ?. split; simpl; [done|]. rewrite lookup_insert_ne by done. auto. Qed.

Lemma destroyed_vacant b i j : vacant (slots b !! j) -> vacant (slots (destroyed b i) !! j).
Proof.
  intros Hv. simpl. destruct (decide (i = j)) as [->|]; [by rewrite lookup_insert_eq|].
  by rewrite lookup_insert_ne.
Qed.

Lemma destroyed_vacant_eq b i : vacant (slots (destroyed b i) !! i).
Proof. simpl. by rewrite lookup_insert_eq. Qed.

Lemma destroyed_element b i j :
  element (destroyed b i) j = if decide (i = j) then None else element b j.
Proof. exact (element_set_slot b i Raw j). Qed.

Lemma destroy_at_ok b lA x lB fs :
  block_rep b (lA ++ Live x :: lB) fs ->
  destroy_at b (width lA) = Some (set_slots (<[width lA := Raw]> (slots b)) b).
Proof.
  intros R. destruct (rep_live _ _ _ _ _ R) as (Hs & _ & ? & _).
  unfold destroy_at, element. rewrite Hs. by apply write_slot_ok.
Qed.

Lemma rep_live_bounds b lA x lB fs :
  block_rep b (lA ++ Live x :: lB) fs ->
  shape lB /\
  (0 <= width lA /\ 0 <= width lB /\ width lA + 1 + width lB <= capacity b /\
   capacity b < 65536 /\ high_water b = width lA + 1 + width lB)%Z.
Proof.
  intros R. destruct (rep_live _ _ _ _ _ R) as (_ & _ & ? & ? & Hh).
  pose proof (rep_bound _ _ _ R) as Hb. rewrite width_app in Hb. simpl in Hb.
  pose proof (rep_capacity _ _ _ R) as Hcap. unfold slot_npos in Hcap.
  split; [apply (shape_app_live lA x lB), R|]. split_and!; lia.
Qed.

(** [skip] before the erased slot: zero after a live slot or at the front, the
    run's length after a dead run. *)
Lemma left_closed b lA x lB fs :
  block_rep b (lA ++ Live x :: lB) fs -> shape lA ->
  (if (width lA =? 0)%Z then Some 0%Z else read_skip b (width lA - 1)) = Some 0%Z.
Proof.
  intros R Hsh. case_zb; [done|]. destruct lA as [|s lA _] using rev_ind; [done|].
  unfold read_skip. rewrite (rep_skip_before _ _ _ _ _ R). destruct s as [y|m]; [done|].
  apply shape_app_dead in Hsh. destruct Hsh as (_ & _ & _ & ? & ? & ?). done.
Qed.

Lemma left_dead b l0 m x lB fs :
  block_rep b ((l0 ++ [Dead m]) ++ Live x :: lB) fs ->
  skip b !! (width (l0 ++ [Dead m]) - 1)%Z = Some m.
Proof. intros R. apply (rep_skip_before _ _ _ _ _ R). Qed.

(** Erasing the last initialised slot lowers [high_water]. *)
Lemma erase_back_closed b lA x fs :
  block_rep b (lA ++ [Live x]) fs -> shape lA ->
  exists b', erase_slot b (width lA) = Some b' /\ block_rep b' lA fs /\
    capacity b' = capacity b /\
    forall j, element b' j = if decide (width lA = j) then None else element b j.
Proof.
  intros R HshA. destruct (rep_live_bounds _ _ _ _ _ R) as (_ & ? & _ & ? & ? & Hhw).
  simpl in *. unfold erase_slot. rewrite (destroy_at_ok _ _ _ _ _ R). simpl.
  rewrite Hhw. zb.
  exists (set_high_water (width lA) (destroyed b (width lA))).
  split; [|split; [|split; [done|intros j; exact (destroyed_element b (width lA) j)]]].
  - pose proof (left_closed _ _ _ _ _ R HshA) as Hl. unfold read_skip in *. simpl.
    destruct (Z.eqb_spec (width lA) 0); [done|]. rewrite Hl. done.
  - pose proof (rep_starts _ _ _ R) as Hst. rewrite starts_app in Hst. simpl in Hst.
    rewrite app_nil_r in Hst.
    rewrite <- (app_nil_r lA). change (lA ++ []) with (lA ++ [] ++ @nil (segment T)).
    eapply (rep_window b _ lA [Live x] [] []); simpl; rewrite ?app_nil_r; try done.
    + by left.
    + lia.
    + intros j Hj. apply (destroyed_agree b (width lA) j). lia.
    + intros j Hj. replace j with (width lA) by lia. apply destroyed_vacant_eq.
    + lia.
    + destruct (rep_free _ _ _ R) as [Hh Hd]. split; [done|].
      eapply dseg_ext; [|exact Hd]. intros s Hs. unfold run_links, read_free_links. simpl.
      rewrite lookup_insert_ne; [done|]. intros <-. rewrite Hst in Hs.
      apply starts_range in Hs; [lia|by apply shape_widths].
Qed.

Lemma erase_back_dead b l0 m x fs :
  block_rep b ((l0 ++ [Dead m]) ++ [Live x]) fs ->
  exists b' fs', erase_slot b (width (l0 ++ [Dead m])) = Some b' /\ block_rep b' l0 fs' /\
    capacity b' = capacity b /\
    forall j, element b' j = if decide (width (l0 ++ [Dead m]) = j) then None else element b j.
Proof.
  intros R. pose proof R as R'. rewrite <- app_assoc in R'. simpl in R'.
  destruct (rep_dead_bounds _ _ _ _ _ R') as (HshA & _ & _ & ? & ? & _ & ? & ? & Hhw).
  destruct (rep_cut _ _ _ _ _ R') as (fs1 & fs2 & -> & Hrd & Hgap & Hperm).
  destruct (rep_dead_run _ _ _ _ _ R') as (_ & _ & Hrun).
  simpl in Hperm. rewrite app_nil_r in Hperm. simpl in Hhw.
  pose proof (left_dead _ _ _ _ _ _ R) as Hleft.
  unfold erase_slot. rewrite (destroy_at_ok _ _ _ _ _ R). simpl.
  rewrite width_app in *. simpl in *. rewrite Hhw. zb. unfold read_skip. simpl.
  rewrite Z.add_0_r in *. rewrite Hleft. simpl. zb.
  set (i := (width l0 + m)%Z) in *. replace (i - m)%Z with (width l0) by (unfold i; lia).
  change (set_live_count _ _) with (destroyed b i). set (b1 := set_high_water i _).
  assert (forall j, j <> i -> slots b1 !! j = slots b !! j) as Hs1
    by (intros j ?; simpl; by rewrite lookup_insert_ne).
  assert (read_free_links b1 (width l0) = read_free_links b (width l0)) as ->.
  { unfold read_free_links. rewrite Hs1 by (unfold i; lia). done. }
  rewrite Hrd. simpl.
  destruct (unlink_free_run_spec b1 fs1 fs2) as (b2 & Hb2 & Ho & Hfl).
  { eapply (free_gap_frame b); [|done|done|done]. intros j Hj. apply Hs1. intros ->.
    rewrite Hperm in Hj. apply starts_range in Hj; [lia|by apply shape_widths]. }
  rewrite Hb2. simpl. eexists _, (fs1 ++ fs2). split; [done|].
  split; [|split; [exact (ol_capacity _ _ Ho)|]].
  2:{ intros j. change (element b2 j = if decide (i = j) then None else element b j).
      rewrite (element_only_links _ _ _ Ho). exact (destroyed_element b i j). }
  rewrite <- (app_nil_r l0). change (l0 ++ []) with (l0 ++ [] ++ @nil (segment T)).
  eapply (rep_window b _ l0 [Dead m; Live x] [] []); simpl; rewrite ?app_nil_r; try done.
  - by left.
  - exact (ol_capacity _ _ Ho).
  - lia.
  - intros j Hj. apply (agree_at_trans _ b1); [|exact (only_links_agree _ _ _ Ho)].
    apply (destroyed_agree b i j). lia.
  - intros j Hj. destruct (ol_slots _ _ Ho j) as [->|[_ ?]]; [|done].
    destruct (decide (j = i)) as [->|]; [apply (destroyed_vacant_eq b i)|].
    rewrite Hs1 by done. apply Hrun. lia.
  - rewrite (ol_live _ _ Ho). simpl. lia.
Qed.

(** Freeing a slot below [high_water]: the runs on either side decide. *)
Lemma erase_slot_mid b lA x s lB fs left :
  block_rep b (lA ++ Live x :: s :: lB) fs ->
  (if (width lA =? 0)%Z then Some 0%Z else read_skip b (width lA - 1)) = Some left ->
  erase_slot b (width lA) =
    merge_dead_runs (destroyed b (width lA)) (width lA) left
      (match s with Live _ => 0 | Dead n => n end)%Z.
Proof.
  intros R Hleft. destruct (rep_live_bounds _ _ _ _ _ R) as (_ & ? & ? & ? & ? & Hhw).
  pose proof (shape_widths _ (rep_shape _ _ _ R)) as Hw.
  apply widths_pos_app in Hw as [_ [_ [? HwB]]]. apply width_nonneg in HwB.
  simpl in *. unfold erase_slot. rewrite (destroy_at_ok _ _ _ _ _ R). simpl.
  rewrite Hhw. zb. unfold read_skip in *. simpl. rewrite Hleft. simpl.
  assert (skip b !! (width lA + 1)%Z = Some (match s with Live _ => 0 | Dead n => n end)%Z) as ->.
  { pose proof R as R'. change (lA ++ Live x :: s :: lB) with (lA ++ [Live x] ++ s :: lB) in R'.
    rewrite app_assoc in R'. apply rep_skip_at in R'. by rewrite width_app in R'. }
  done.
Qed.

(** [b'] holds the elements of [b], in a block of the same capacity. *)
Definition same_elements b b' : Prop :=
  capacity b' = capacity b /\ forall j, element b' j = element b j.

Lemma only_links_same b b' : only_links b b' -> same_elements b b'.
Proof. intros Ho. split; [apply Ho|]. intros j. by apply element_only_links. Qed.

(** The free list is the gap at its own front. *)
Lemma rep_gap_front b l fs : block_rep b l fs -> free_gap b [] fs.
Proof.
  intros R. destruct (rep_free _ _ _ R) as [_ Hd]. split; simpl.
  - by eapply rep_nodup.
  - by eapply rep_in_capacity.
  - by exists slot_npos.
  - by exists slot_npos.
  - done.
Qed.

Lemma to_slot_hd b l fs :
  block_rep b l fs -> to_slot_index (free_head b) = hd_or id slot_npos fs.
Proof.
  intros R. destruct (rep_free _ _ _ R) as [Hh _]. rewrite Hh.
  destruct fs as [|s fs]; [done|].
  pose proof (rep_in_capacity _ _ _ R) as Hc. apply Forall_cons in Hc as [[??] _].
  unfold hd_or, to_slot_index, npos, slot_npos, id in *. simpl. zb. apply u16_small. lia.
Qed.

Lemma starts_not_live b lA x lB fs s :
  block_rep b (lA ++ Live x :: lB) fs -> s ∈ fs -> s <> width lA.
Proof.
  intros R Hs ->. rewrite (rep_starts _ _ _ R) in Hs.
  apply encodes_vacant_start with (b := b) in Hs; [| |apply R].
  - destruct (rep_live _ _ _ _ _ R) as [He _]. by rewrite He in Hs.
  - apply shape_widths, R.
Qed.

(** Give equal bases to the occurrences of [starts] on the same layout. *)
Ltac norm_starts :=
  repeat match goal with
  | |- context [starts ?a ?l] =>
      match goal with
      | |- context [starts ?b l] =>
          tryif constr_eq a b then fail else replace a with b by lia
      end
  end.

(** What a block that merges slot [i] into the dead run [w, w + n) satisfies. *)
Lemma encodes_dead b w n :
  skip b !! w = Some n -> skip b !! (w + n - 1)%Z = Some n ->
  (forall j, (w <= j < w + n)%Z ->
     vacant (slots b !! j) /\ exists v, skip b !! j = Some v /\ v <> 0%Z) ->
  encodes b w [Dead n].
Proof. intros. simpl. tauto. Qed.

Lemma merge_isolated b lA x y lB fs :
  block_rep b (lA ++ Live x :: Live y :: lB) fs -> shape lA ->
  exists b', merge_dead_runs (destroyed b (width lA)) (width lA) 0 0 = Some b' /\
    block_rep b' (lA ++ Dead 1 :: Live y :: lB) (width lA :: fs) /\
    same_elements (destroyed b (width lA)) b'.
Proof.
  intros R HshA. destruct (rep_live_bounds _ _ _ _ _ R) as (HshB & ? & ? & ? & ? & Hhw).
  simpl in *. set (i := width lA) in *. unfold merge_dead_runs. simpl.
  rewrite write_skip_ok by (simpl; lia). simpl. set (b1 := set_skip _ _).
  unfold push_free_run. change (free_head b1) with (free_head b).
  rewrite (to_slot_hd _ _ _ R).
  assert (i ∉ fs) as Hi.
  { intros Hin. by apply (starts_not_live _ _ _ _ _ _ R) in Hin. }
  destruct (move_free_run_spec b1 i [] fs) as (b2 & Hb2 & Ho & Hfl).
  { eapply (free_gap_frame b); [|done|done|by eapply rep_gap_front]. intros j Hj. simpl.
    rewrite lookup_insert_ne; [done|]. by intros ->. }
  { done. } { unfold slot_npos. lia. } { simpl. lia. }
  { apply (destroyed_vacant_eq b i). }
  change (last_or id slot_npos []) with slot_npos in Hb2.
  exists b2. split; [done|]. split; [|exact (only_links_same _ _ Ho)].
  assert (vacant (slots b2 !! i)) as Hvi.
  { destruct (ol_slots _ _ Ho i) as [->|[_ ?]]; [apply (destroyed_vacant_eq b i)|done]. }
  eapply (rep_window b _ lA [Live x] [Dead 1] (Live y :: lB)); try done.
  - apply shape_app; [done|]. simpl. done.
  - by right.
  - exact (ol_capacity _ _ Ho).
  - rewrite (ol_high _ _ Ho), width_app. simpl. lia.
  - rewrite width_app. simpl. lia.
  - intros j Hj. simpl in Hj. fold i in Hj.
    apply (agree_at_trans _ b1); [|exact (only_links_agree _ _ _ Ho)].
    apply (agree_at_trans _ (destroyed b i)); [apply destroyed_agree; lia|].
    split; simpl; [by rewrite lookup_insert_ne by lia|auto].
  - fold i. assert (skip b2 !! i = Some 1%Z) as Hki.
    { rewrite (ol_skip _ _ Ho). simpl. by rewrite lookup_insert_eq. }
    apply encodes_dead; [done|by replace (i + 1 - 1)%Z with i by lia|].
    intros j Hj. replace j with i by lia. eauto.
  - simpl. intros j Hj. lia.
  - rewrite (ol_live _ _ Ho). simpl. lia.
  - rewrite (rep_starts _ _ _ R), !starts_app. simpl. rewrite Z.add_0_l. fold i.
    by rewrite Permutation_middle.
Qed.

(** Free-run links are untouched by writes to slots outside the list. *)
Lemma free_list_frame b b' fs :
  free_head b' = free_head b -> (forall s, s ∈ fs -> slots b' !! s = slots b !! s) ->
  free_list b fs -> free_list b' fs.
Proof.
  intros Hh Hs [H1 H2]. split; [congruence|]. eapply dseg_ext; [|exact H2].
  intros s Hin. unfold run_links, read_free_links. by rewrite Hs.
Qed.

Lemma merge_left b l0 m x y lB fs :
  block_rep b ((l0 ++ [Dead m]) ++ Live x :: Live y :: lB) fs ->
  let i := (width l0 + m)%Z in
  exists b', merge_dead_runs (destroyed b i) i m 0 = Some b' /\
    block_rep b' (l0 ++ Dead (m + 1) :: Live y :: lB) fs /\
    same_elements (destroyed b i) b'.
Proof.
  intros R. pose proof R as R'. rewrite <- app_assoc in R'. simpl in R'.
  destruct (rep_dead_bounds _ _ _ _ _ R') as (HshA & HshB & _ & ? & ? & ? & ? & ? & Hhw).
  destruct (rep_dead_run _ _ _ _ _ R') as (_ & _ & Hrun).
  destruct (rep_live_bounds _ _ _ _ _ R) as (_ & _ & HwB & _).
  simpl in *. set (w := width l0) in *. set (i := (w + m)%Z).
  unfold merge_dead_runs. zb. simpl. rewrite u16_small by lia.
  replace (i - m)%Z with w by (unfold i; lia). replace (m + 0 + 1)%Z with (m + 1)%Z by lia.
  rewrite write_skip_ok by (simpl; lia). simpl. rewrite write_skip_ok by (simpl; unfold i; lia). simpl.
  eexists. split; [done|]. split; [|done].
  assert (forall j, j <> i -> slots (destroyed b i) !! j = slots b !! j) as Hs
    by (intros; simpl; by rewrite lookup_insert_ne).
  eapply (rep_window b _ l0 [Dead m; Live x] [Dead (m + 1)] (Live y :: lB)); try done.
  - apply shape_app; [done|]. simpl. split; [lia|done].
  - right. simpl. lia.
  - rewrite width_app. simpl. fold w. lia.
  - rewrite width_app. simpl. fold w. lia.
  - intros j Hj. simpl in Hj. fold w in Hj.
    apply (agree_at_trans _ (destroyed b i)); [apply destroyed_agree; unfold i; lia|].
    split; simpl; [rewrite !lookup_insert_ne by (unfold i; lia); done|auto].
  - fold w. apply encodes_dead.
    + simpl. rewrite lookup_insert_ne, lookup_insert_eq by (unfold i; lia). done.
    + simpl. replace (w + (m + 1) - 1)%Z with i by (unfold i; lia). by rewrite lookup_insert_eq.
    + intros j Hj. destruct (decide (j = i)) as [->|Hne].
      * split; [apply destroyed_vacant_eq|]. simpl. rewrite lookup_insert_eq. eexists. split; [done|lia].
      * destruct (Hrun j ltac:(unfold i in *; lia)) as [Hv (v & Hk & Hv0)].
        split; [by apply destroyed_vacant|]. simpl. rewrite lookup_insert_ne by done.
        destruct (decide (w = j)) as [->|]; [rewrite lookup_insert_eq; eexists; split; [done|lia]|].
        rewrite lookup_insert_ne by done. eauto.
  - simpl. fold w. intros j Hj. lia.
  - simpl. lia.
  - eapply free_list_frame; [|intros s Hin|apply (rep_free _ _ _ R)]; [done|].
    apply Hs. apply (starts_not_live _ _ _ _ _ _ R) in Hin. rewrite width_app in Hin. simpl in Hin.
    unfold i, w. lia.
  - rewrite (rep_starts _ _ _ R), !starts_app. simpl. rewrite <- app_assoc. simpl.
    rewrite width_app. simpl. fold w. rewrite !Z.add_0_l.
    by norm_starts.
Qed.

Lemma merge_right b lA x n lB fs :
  block_rep b (lA ++ Live x :: Dead n :: lB) fs -> shape lA ->
  exists b' fs', merge_dead_runs (destroyed b (width lA)) (width lA) 0 n = Some b' /\
    block_rep b' (lA ++ Dead (n + 1) :: lB) fs' /\
    same_elements (destroyed b (width lA)) b'.
Proof.
  intros R HshA. pose proof R as R'.
  change (lA ++ Live x :: Dead n :: lB) with (lA ++ [Live x] ++ Dead n :: lB) in R'.
  rewrite app_assoc in R'.
  destruct (rep_dead_bounds _ _ _ _ _ R') as (_ & HshB & (y & l3 & ->) & ? & ? & ? & ? & ? & Hhw).
  destruct (rep_cut _ _ _ _ _ R') as (fs1 & fs2 & -> & Hrd & Hgap & Hperm).
  destruct (rep_dead_run _ _ _ _ _ R') as (_ & _ & Hrun).
  destruct (rep_live_bounds _ _ _ _ _ R) as (_ & ? & _).
  rewrite starts_app, app_nil_r in Hperm. rewrite width_app in *. simpl in *.
  set (i := width lA) in *. replace (i + (1 + 0))%Z with (i + 1)%Z in * by lia.
  unfold merge_dead_runs. zb. simpl. rewrite u16_small by lia.
  replace (0 + n + 1)%Z with (n + 1)%Z by lia.
  assert (forall j, j <> i -> slots (destroyed b i) !! j = slots b !! j) as Hs
    by (intros; simpl; by rewrite lookup_insert_ne).
  assert (read_free_links (destroyed b i) (i + 1) = read_free_links b (i + 1)) as ->.
  { unfold read_free_links. by rewrite Hs by lia. }
  rewrite Hrd. simpl. rewrite write_skip_ok by (simpl; lia). simpl.
  rewrite write_skip_ok by (simpl; lia). simpl. set (b2 := set_skip _ _).
  assert (i ∉ fs1 ++ fs2) as Hi.
  { intros Hin. apply (starts_not_live _ _ _ _ _ i R); [|done]. set_solver. }
  destruct (move_free_run_spec b2 i fs1 fs2) as (b3 & Hb3 & Ho & Hfl).
  { eapply (free_gap_frame b); [|done|done|exact Hgap]. intros j Hj. simpl.
    rewrite lookup_insert_ne; [done|]. by intros ->. }
  { done. } { unfold slot_npos. lia. } { simpl. lia. } { apply (destroyed_vacant_eq b i). }
  rewrite Hb3. eexists _, (fs1 ++ i :: fs2). split; [done|].
  split; [|exact (only_links_same _ _ Ho)].
  eapply (rep_window b _ lA [Live x; Dead n] [Dead (n + 1)] (Live y :: l3)); try done.
  - apply shape_app; [done|]. simpl. split; [lia|done].
  - right. simpl. lia.
  - exact (ol_capacity _ _ Ho).
  - rewrite (ol_high _ _ Ho), width_app. simpl. fold i. lia.
  - rewrite width_app. simpl. fold i. lia.
  - intros j Hj. simpl in Hj. fold i in Hj.
    apply (agree_at_trans _ b2); [|exact (only_links_agree _ _ _ Ho)].
    apply (agree_at_trans _ (destroyed b i)); [apply destroyed_agree; lia|].
    split; simpl; [rewrite !lookup_insert_ne by lia; done|auto].
  - fold i. apply (encodes_frame b2).
    { simpl. split; [lia|done]. }
    { intros j _. exact (only_links_agree _ _ _ Ho). }
    apply encodes_dead.
    + simpl. rewrite lookup_insert_ne, lookup_insert_eq by lia. done.
    + simpl. replace (i + (n + 1) - 1)%Z with (i + n)%Z by lia. by rewrite lookup_insert_eq.
    + intros j Hj. destruct (decide (j = i)) as [->|Hne].
      * split; [apply destroyed_vacant_eq|]. simpl. rewrite lookup_insert_ne, lookup_insert_eq by lia.
        eexists. split; [done|lia].
      * destruct (Hrun j ltac:(lia)) as [Hv (v & Hk & Hv0)].
        split; [by apply destroyed_vacant|]. simpl.
        destruct (decide (i + n = j)%Z) as [<-|]; [rewrite lookup_insert_eq; eexists; split; [done|lia]|].
        rewrite !lookup_insert_ne by done. eauto.
  - simpl. fold i. intros j Hj. lia.
  - rewrite (ol_live _ _ Ho). simpl. lia.
  - rewrite <- Permutation_middle, Hperm, !starts_app. simpl. rewrite Z.add_0_l. fold i.
    norm_starts. by rewrite Permutation_middle.
Qed.

Lemma merge_both b l0 m x n lB fs :
  block_rep b ((l0 ++ [Dead m]) ++ Live x :: Dead n :: lB) fs ->
  let i := (width l0 + m)%Z in
  exists b' fs', merge_dead_runs (destroyed b i) i m n = Some b' /\
    block_rep b' (l0 ++ Dead (m + 1 + n) :: lB) fs' /\
    same_elements (destroyed b i) b'.
Proof.
  intros R. pose proof R as RL. rewrite <- app_assoc in RL. simpl in RL.
  pose proof R as RR. change (Live x :: Dead n :: lB) with ([Live x] ++ Dead n :: lB) in RR.
  rewrite app_assoc in RR.
  destruct (rep_dead_bounds _ _ _ _ _ RL) as (HshA & _ & _ & ? & ? & _).
  destruct (rep_live_bounds _ _ _ _ _ R) as (_ & _ & HwB & _).
  destruct (rep_dead_bounds _ _ _ _ _ RR) as (_ & HshB & (y & l3 & ->) & ? & _ & ? & ? & ? & Hhw).
  destruct (rep_cut _ _ _ _ _ RR) as (fs1 & fs2 & -> & Hrd & Hgap & Hperm).
  destruct (rep_dead_run _ _ _ _ _ RL) as (_ & _ & HrunL).
  destruct (rep_dead_run _ _ _ _ _ RR) as (_ & _ & HrunR).
  rewrite !starts_app in Hperm. rewrite !width_app in *. simpl in *.
  set (w := width l0) in *. set (i := (w + m)%Z) in *.
  replace (w + (m + 0) + (1 + 0))%Z with (i + 1)%Z in * by lia.
  unfold merge_dead_runs. zb. simpl. rewrite u16_small by lia.
  replace (i - m)%Z with w by lia. replace (m + n + 1)%Z with (m + 1 + n)%Z by lia.
  rewrite write_skip_ok by (simpl; lia). simpl. rewrite write_skip_ok by (simpl; lia). simpl.
  rewrite write_skip_ok by (simpl; lia). simpl. set (b3 := set_skip _ _).
  assert (forall j, j <> i -> slots b3 !! j = slots b !! j) as Hs
    by (intros; simpl; by rewrite lookup_insert_ne).
  assert (read_free_links b3 (i + 1) = read_free_links b (i + 1)) as ->.
  { unfold read_free_links. by rewrite Hs by lia. }
  rewrite Hrd. simpl.
  destruct (unlink_free_run_spec b3 fs1 fs2) as (b4 & Hb4 & Ho & Hfl).
  { eapply (free_gap_frame b); [|done|done|exact Hgap]. intros j Hj. apply Hs. intros ->.
    apply (starts_not_live _ _ _ _ _ i R); [set_solver|]. rewrite width_app. simpl. lia. }
  rewrite Hb4. eexists _, (fs1 ++ fs2). split; [done|].
  split; [|exact (only_links_same _ _ Ho)].
  eapply (rep_window b _ l0 [Dead m; Live x; Dead n] [Dead (m + 1 + n)] (Live y :: l3)); try done.
  - apply shape_app; [done|]. simpl. split; [lia|done].
  - right. simpl. lia.
  - exact (ol_capacity _ _ Ho).
  - rewrite (ol_high _ _ Ho), width_app. simpl. fold w. lia.
  - rewrite width_app. simpl. fold w. lia.
  - intros j Hj. simpl in Hj. fold w in Hj.
    apply (agree_at_trans _ b3); [|exact (only_links_agree _ _ _ Ho)].
    apply (agree_at_trans _ (destroyed b i)); [apply destroyed_agree; lia|].
    split; simpl; [rewrite !lookup_insert_ne by lia; done|auto].
  - fold w. apply (encodes_frame b3).
    { simpl. split; [lia|done]. }
    { intros j _. exact (only_links_agree _ _ _ Ho). }
    apply encodes_dead.
    + simpl. rewrite !lookup_insert_ne by lia. by rewrite lookup_insert_eq.
    + simpl. replace (w + (m + 1 + n) - 1)%Z with (i + n)%Z by lia.
      rewrite lookup_insert_ne by lia. by rewrite lookup_insert_eq.
    + intros j Hj.
      destruct (decide (j = i)) as [->|Hne].
      { split; [apply destroyed_vacant_eq|]. simpl. rewrite lookup_insert_eq. eexists. split; [done|lia]. }
      assert (vacant (slots b !! j) /\ exists v, skip b !! j = Some v /\ v <> 0%Z) as [Hv (v & Hk & Hv0)].
      { destruct (Z.lt_ge_cases j i); [apply HrunL; lia|apply HrunR; lia]. }
      split; [by apply destroyed_vacant|]. simpl. rewrite lookup_insert_ne by done.
      destruct (decide (i + n = j)%Z) as [<-|]; [rewrite lookup_insert_eq; eexists; split; [done|lia]|].
      rewrite lookup_insert_ne by done.
      destruct (decide (w = j)%Z) as [<-|]; [rewrite lookup_insert_eq; eexists; split; [done|lia]|].
      rewrite lookup_insert_ne by done. eauto.
  - simpl. fold w. intros j Hj. lia.
  - rewrite (ol_live _ _ Ho). simpl. lia.
  - rewrite Hperm, !starts_app. simpl. rewrite !Z.add_0_l, app_nil_r. fold w.
    norm_starts. by rewrite <- app_assoc.
Qed.
End erase.

(** ** What the block operations do *)

Section block_spec.
Context {T : Type}.
Implicit Types (i j : Z) (x y : T) (b : skipfield T) (l : list (segment T)) (fs : list Z).

(** A block with room: a free run to reuse, or slots above [high_water]. *)
Definition has_room b : bool :=
  negb (free_head b =? npos)%Z || (high_water b <? capacity b)%Z.

(** Element [x] is at index [i] of layout [l]. *)
Definition live_at l i x : Prop :=
  exists lA lB, l = lA ++ Live x :: lB /\ i = width lA.

Lemma rep_element b l fs i x : block_rep b l fs -> live_at l i x -> element b i = Some x.
Proof.
  intros R (lA & lB & -> & ->). destruct (rep_live _ _ _ _ _ R) as [Hs _].
  unfold element. by rewrite Hs.
Qed.

Lemma encodes_element b base l i x :
  widths_pos l -> encodes b base l -> (base <= i < base + width l)%Z ->
  element b i = Some x -> exists lA lB, l = lA ++ Live x :: lB /\ i = (base + width lA)%Z.
Proof.
  revert base. induction l as [|[y|n] l IH]; intros base; simpl; [lia| |].
  - intros [_ Hw] (_ & Hs & He) Hi Hx. destruct (decide (i = base)) as [->|].
    + unfold element in Hx. rewrite Hs in Hx. injection Hx as ->.
      exists [], l. split; [done|]. simpl. lia.
    + destruct (IH (base + 1)%Z Hw He ltac:(lia) Hx) as (lA & lB & -> & ->).
      exists (Live y :: lA), lB. split; [done|]. simpl. lia.
  - intros [? Hw] (_ & _ & Hrun & He) Hi Hx. destruct (Z.lt_ge_cases i (base + n)).
    + destruct (Hrun i ltac:(lia)) as [Hv _]. apply element_vacant in Hv. congruence.
    + destruct (IH (base + n)%Z Hw He ltac:(lia) Hx) as (lA & lB & -> & ->).
      exists (Dead n :: lA), lB. split; [done|]. simpl. lia.
Qed.

Lemma rep_element_iff b l fs i x :
  block_rep b l fs -> (0 <= i)%Z -> element b i = Some x <-> live_at l i x.
Proof.
  intros R Hi. split; [|by eapply rep_element]. intros Hx.
  destruct (Z.lt_ge_cases i (width l)) as [Hlt|Hge].
  - destruct (encodes_element b 0 l i x) as (lA & lB & -> & ->);
      [apply shape_widths, R|apply R|lia|done|]. by exists lA, lB.
  - apply (rep_tail _ _ _ R) in Hge. apply element_vacant in Hge. congruence.
Qed.

(** The element sequence gains [v] at one place. *)
Definition inserted {A} (v : A) (xs ys : list A) : Prop :=
  exists xs1 xs2, xs = xs1 ++ xs2 /\ ys = xs1 ++ v :: xs2.

Lemma emplace_slot_spec b l fs v :
  block_rep b l fs -> has_room b = true ->
  exists b' i l' fs', emplace_slot b (Some v) = Some (b', Some i) /\
    block_rep b' l' fs' /\ capacity b' = capacity b /\
    inserted v (elems l) (elems l') /\ element b i = None /\ (0 <= i)%Z /\
    forall j, element b' j = if decide (i = j) then Some v else element b j.
Proof.
  intros R Hroom. unfold has_room in Hroom. rewrite (free_list_nil_npos _ _ _ R) in Hroom.
  destruct fs as [|s fs2].
  - simpl in Hroom. apply Z.ltb_lt in Hroom. rewrite (rep_high_water _ _ _ R) in Hroom.
    destruct (emplace_slot_bump b l v R Hroom) as (b' & He & R' & Hc & Hel).
    eexists b', _, _, _. split_and!; [exact He|exact R'|done| | | |done].
    + exists (elems l), []. rewrite elems_app, app_nil_r. done.
    + apply element_vacant, (rep_tail _ _ _ R). done.
    + apply width_nonneg, shape_widths, R.
  - assert (s ∈ starts 0 l) as Hs by (rewrite <- (rep_starts _ _ _ R); set_solver).
    apply starts_split in Hs as (lA & n & lB & -> & ->). rewrite Z.add_0_l in *.
    destruct (rep_dead_run _ _ _ _ _ R) as (Hn & _ & Hrun).
    destruct (rep_dead_bounds _ _ _ _ _ R) as (_ & _ & _ & _ & ? & _).
    assert (element b (width lA) = None) as Hnone by (apply element_vacant, Hrun; lia).
    destruct (decide (n = 1%Z)) as [->|Hn1].
    + destruct (emplace_slot_reuse_1 _ _ _ _ v R) as (b' & fs' & He & R' & Hc & Hel).
      eexists b', _, _, _. split_and!; [exact He|exact R'|done| |done|done|done].
      exists (elems lA), (elems lB). by rewrite !elems_app.
    + destruct (emplace_slot_reuse_n _ _ _ _ _ v R Hn1) as (b' & fs' & He & R' & Hc & Hel).
      eexists b', _, _, _. split_and!; [exact He|exact R'|done| |done|done|done].
      exists (elems lA), (elems lB). by rewrite !elems_app.
Qed.

(** A construction that throws leaves the layout and the free list as they
    were, although it may have overwritten the links it found. *)
Lemma emplace_slot_throws b l fs :
  block_rep b l fs -> has_room b = true ->
  exists b', emplace_slot b None = Some (b', None) /\ block_rep b' l fs /\
    capacity b' = capacity b /\ high_water b' = high_water b /\
    free_head b' = free_head b /\ forall j, element b' j = element b j.
Proof.
  intros R Hroom. unfold has_room in Hroom. rewrite (free_list_nil_npos _ _ _ R) in Hroom.
  pose proof (rep_capacity _ _ _ R) as Hcap. unfold slot_npos in Hcap.
  pose proof (width_nonneg _ (shape_widths _ (rep_shape _ _ _ R))).
  unfold emplace_slot. rewrite (free_list_nil_npos _ _ _ R). destruct fs as [|s fs2]; simpl.
  - simpl in Hroom. apply Z.ltb_lt in Hroom.
    pose proof (rep_high_water _ _ _ R) as Hhw. rewrite Hhw in *.
    assert (vacant (slots b !! width l)) as Hv by (by apply (rep_tail _ _ _ R)).
    unfold clobber_at. rewrite (proj1 (element_vacant _ _) Hv).
    rewrite write_slot_ok by lia. simpl. eexists. split; [done|].
    split; [|split_and!; try done; intros j; rewrite element_set_slot; case_decide; subst;
              [by symmetry; apply element_vacant|done]].
    destruct R. split; try done.
    + eapply encodes_frame; [by apply shape_widths| |done]. intros j Hj.
      split; simpl; [done|]. rewrite lookup_insert_ne by lia. auto.
    + intros j Hj. simpl. destruct (decide (width l = j)) as [->|];
        [by rewrite lookup_insert_eq|rewrite lookup_insert_ne by done; auto].
  - assert (s ∈ starts 0 l) as Hs by (rewrite <- (rep_starts _ _ _ R); set_solver).
    apply starts_split in Hs as (lA & n & lB & -> & ->). rewrite Z.add_0_l in *.
    destruct (rep_dead_run _ _ _ _ _ R) as (Hn & _ & Hrun).
    destruct (rep_dead_bounds _ _ _ _ _ R) as (_ & _ & _ & _ & ? & ? & ? & ? & ?).
    destruct (free_list_cut b [] (width lA) fs2 (rep_free _ _ _ R)
      (rep_nodup _ _ _ R) (rep_in_capacity _ _ _ R)) as [Hrd _].
    assert (free_head b = width lA) as Hfh by apply (rep_free _ _ _ R). rewrite Hfh.
    unfold read_skip. rewrite (rep_skip_at _ _ _ _ _ R). simpl. rewrite Hrd. simpl.
    assert (vacant (slots b !! width lA)) as Hv by (apply Hrun; lia).
    unfold clobber_at. rewrite (proj1 (element_vacant _ _) Hv).
    rewrite write_slot_ok by lia. simpl. unfold write_free_links.
    rewrite write_slot_ok by (simpl; lia). simpl. eexists. split; [done|].
    set (b' := set_slots _ _).
    assert (forall j, slots b' !! j = slots b !! j) as Hsame.
    { intros j. simpl. destruct (decide (width lA = j)) as [<-|].
      - rewrite lookup_insert_eq. unfold read_free_links in Hrd.
        by destruct (slots b !! width lA) as [[| |]|]; simplify_eq.
      - by rewrite !lookup_insert_ne by done. }
    split; [|split_and!; try done; intros j; unfold element; by rewrite Hsame].
    destruct R. split; try done.
    + eapply encodes_frame; [by apply shape_widths| |done]. intros j Hj.
      split; [done|]. left. apply Hsame.
    + intros j Hj. rewrite Hsame. auto.
    + eapply free_list_frame; [..|done]; [done|]. intros. apply Hsame.
Qed.

Lemma erase_slot_spec b lA x lB fs :
  block_rep b (lA ++ Live x :: lB) fs ->
  exists b' l' fs', erase_slot b (width lA) = Some b' /\ block_rep b' l' fs' /\
    capacity b' = capacity b /\ elems l' = elems lA ++ elems lB /\
    forall j, element b' j = if decide (width lA = j) then None else element b j.
Proof.
  intros R. pose proof (rep_shape _ _ _ R) as Hsh. apply shape_app_live in Hsh as [Hsh _].
  assert (forall b', same_elements (destroyed b (width lA)) b' -> capacity b' = capacity b /\
    forall j, element b' j = if decide (width lA = j) then None else element b j) as Hsame.
  { intros b' [Hc He]. split; [exact Hc|]. intros j. rewrite He. apply destroyed_element. }
  destruct (shape_snoc_inv _ _ Hsh) as [HshA|(l0 & m & -> & Hm & Hsh0)].
  - pose proof (left_closed _ _ _ _ _ R HshA) as Hleft.
    destruct lB as [|[y|n] lB].
    + destruct (erase_back_closed _ _ _ _ R HshA) as (b' & He & R' & Hc & Hel).
      exists b', lA, fs. split_and!; try done. by rewrite app_nil_r.
    + rewrite (erase_slot_mid _ _ _ _ _ _ _ R Hleft).
      destruct (merge_isolated _ _ _ _ _ _ R HshA) as (b' & -> & R' & Hs).
      apply Hsame in Hs as [? ?]. eexists _, _, _. split_and!; [done|exact R'|done| |done].
      by rewrite elems_app.
    + rewrite (erase_slot_mid _ _ _ _ _ _ _ R Hleft).
      destruct (merge_right _ _ _ _ _ _ R HshA) as (b' & fs' & -> & R' & Hs).
      apply Hsame in Hs as [? ?]. eexists _, _, _. split_and!; [done|exact R'|done| |done].
      by rewrite elems_app.
  - assert (width (l0 ++ [Dead m]) = (width l0 + m)%Z) as Hwi by (rewrite width_app; simpl; lia).
    pose proof (left_dead _ _ _ _ _ _ R) as Hleft.
    destruct lB as [|s lB].
    + destruct (erase_back_dead _ _ _ _ _ R) as (b' & fs' & He & R' & Hc & Hel).
      exists b', l0, fs'. split_and!; try done. by rewrite elems_app, !app_nil_r.
    + pose proof (rep_live _ _ _ _ _ R) as (_ & _ & Hi & _).
      pose proof (width_nonneg _ (shape_widths _ Hsh0)).
      rewrite (erase_slot_mid _ _ _ _ _ _ m R) by (rewrite Hwi in *; unfold read_skip; by zb).
      rewrite Hwi in *.
      destruct s as [y|n].
      * destruct (merge_left _ _ _ _ _ _ _ R) as (b' & -> & R' & Hs).
        apply Hsame in Hs as [? ?]. eexists _, _, _. split_and!; [done|exact R'|done| |done].
        by rewrite !elems_app, app_nil_r.
      * destruct (merge_both _ _ _ _ _ _ _ R) as (b' & fs' & -> & R' & Hs).
        apply Hsame in Hs as [? ?]. eexists _, _, _. split_and!; [done|exact R'|done| |done].
        by rewrite !elems_app, app_nil_r.
Qed.
End block_spec.

(** ** Traversal, destruction, first element *)

Section traversal.
Context {T : Type}.
Implicit Types (i j : Z) (x y : T) (b : skipfield T) (l : list (segment T)) (fs : list Z).

(** A suffix of a layout that follows a live slot: empty, or a possibly empty
    dead part and a live slot. *)
Lemma shape_first l :
  shape l -> l = [] \/
  exists lD y l3, l = lD ++ Live y :: l3 /\ elems lD = [] /\
    width lD = (match l with Dead n :: _ => n | _ => 0 end)%Z.
Proof.
  destruct l as [|[y|n] l]; [by left| |].
  - intros _. right. by exists [], y, l.
  - intros [? H]. destruct l as [|[y|m] l]; [done| |done].
    right. exists [Dead n], y, l. split; [done|]. split; [done|]. simpl. lia.
Qed.

Lemma next_index_spec b lA x lB fs :
  block_rep b (lA ++ Live x :: lB) fs ->
  lB = [] /\ next_index b (width lA) = Some None \/
  exists lD y l3, lB = lD ++ Live y :: l3 /\ elems lD = [] /\
    next_index b (width lA) = Some (Some (width (lA ++ Live x :: lD))).
Proof.
  intros R. destruct (rep_live_bounds _ _ _ _ _ R) as (HshB & ? & ? & ? & ? & Hhw).
  unfold next_index. destruct (shape_first lB HshB) as [->|(lD & y & l3 & Heq & HD & HwD)].
  - left. split; [done|]. simpl in Hhw. by zb.
  - right. exists lD, y, l3. split; [done|]. split; [done|].
    assert (1 <= width lB)%Z as HwB.
    { subst lB. rewrite width_app. simpl.
      pose proof (shape_widths _ HshB) as Hw. apply widths_pos_app in Hw as [Hw1 [_ Hw2]].
      apply width_nonneg in Hw1, Hw2. lia. }
    destruct lB as [|s lB']; [simpl in HwB; lia|]. zb. unfold read_skip.
    pose proof R as R'. change (lA ++ Live x :: s :: lB') with (lA ++ [Live x] ++ s :: lB') in R'.
    rewrite app_assoc in R'. apply rep_skip_at in R'. rewrite width_app in R'. simpl in R'.
    rewrite Z.add_0_r in R'. rewrite R'. simpl. do 2 f_equal.
    rewrite width_app. simpl. destruct s; lia.
Qed.

Lemma prev_index_spec b lA x lB fs :
  block_rep b (lA ++ Live x :: lB) fs ->
  elems lA = [] /\ prev_index b (width lA) = Some None \/
  exists l0 y lD, lA = l0 ++ Live y :: lD /\ elems lD = [] /\
    prev_index b (width lA) = Some (Some (width l0)).
Proof.
  intros R. destruct (rep_live_bounds _ _ _ _ _ R) as (_ & ? & ? & ? & ? & Hhw).
  pose proof (rep_shape _ _ _ R) as Hsh. apply shape_app_live in Hsh as [Hsh _].
  unfold prev_index. destruct (shape_snoc_inv _ _ Hsh) as [HshA|(l0 & m & -> & Hm & Hsh0)].
  - destruct lA as [|s lA _] using rev_ind; [by left|]. right.
    destruct s as [y|n]; [|apply shape_app_dead in HshA; by destruct HshA as (_ & _ & _ & ? & ? & ?)].
    exists lA, y, []. split; [done|]. split; [done|].
    pose proof (rep_skip_before _ _ _ _ _ R) as Hk. unfold read_skip.
    rewrite width_app in *. simpl in *.
    pose proof (shape_widths _ HshA) as Hw. apply widths_pos_app in Hw as [Hw _].
    apply width_nonneg in Hw. zb. simpl. rewrite Hk. simpl. zb.
    do 2 f_equal; lia.
  - pose proof (left_dead _ _ _ _ _ _ R) as Hk. rewrite width_app in *. simpl in *.
    pose proof (shape_widths _ Hsh0) as Hw. apply width_nonneg in Hw.
    unfold read_skip. zb. simpl. rewrite Hk. simpl.
    destruct l0 as [|s l0 _] using rev_ind.
    + left. split; [done|]. simpl. zb. done.
    + right. destruct s as [y|n];
        [|apply shape_app_dead in Hsh0; by destruct Hsh0 as (_ & _ & _ & ? & ? & ?)].
      exists l0, y, [Dead m]. split; [by rewrite <- app_assoc|]. split; [done|].
      rewrite width_app in *. simpl in *.
      pose proof (shape_widths _ Hsh0) as Hw0. apply widths_pos_app in Hw0 as [Hw0 _].
      apply width_nonneg in Hw0. zb. do 2 f_equal. lia.
Qed.

(** [begin()] of a block reads [skip[0]]; the last element is below
    [high_water]. *)
Lemma first_index_spec b l fs :
  block_rep b l fs -> l <> [] ->
  exists lD y l3, l = lD ++ Live y :: l3 /\ elems lD = [] /\ read_skip b 0 = Some (width lD).
Proof.
  intros R Hne. destruct (shape_first l (rep_shape _ _ _ R)) as [->|(lD & y & l3 & Heq & HD & HwD)];
    [done|].
  exists lD, y, l3. split; [done|]. split; [done|].
  pose proof (rep_encodes _ _ _ R) as He. destruct l as [|s l]; [done|].
  apply encodes_hd_skip in He. unfold read_skip. rewrite He, HwD. by destruct s.
Qed.

Lemma last_index_spec b l fs :
  block_rep b l fs -> l <> [] ->
  exists l0 y, l = l0 ++ [Live y] /\ (high_water b - 1 = width l0)%Z.
Proof.
  intros R Hne. pose proof (rep_shape _ _ _ R) as Hsh. pose proof (rep_high_water _ _ _ R) as Hh.
  destruct l as [|s l _] using rev_ind; [done|].
  destruct s as [y|n]; [|apply shape_app_dead in Hsh; by destruct Hsh as (_ & _ & _ & ? & ? & ?)].
  exists l, y. split; [done|]. rewrite width_app in Hh. simpl in Hh. lia.
Qed.

(** ** Vacant blocks *)

Lemma fresh_field_rep cap :
  (1 <= cap <= slot_npos)%Z -> block_rep (fresh_field cap : skipfield T) [] [].
Proof.
  intros Hc. split; simpl; try done; lia.
Qed.

Lemma emplace_first_spec b v :
  block_rep b [] [] ->
  exists b', emplace_first b (Some v) = Some (b', Some 0%Z) /\
    block_rep b' [Live v] [] /\ capacity b' = capacity b /\
    element b 0 = None /\
    forall j, element b' j = if decide (0%Z = j) then Some v else element b j.
Proof.
  intros R. pose proof (rep_capacity _ _ _ R) as Hc. unfold slot_npos in Hc.
  assert (vacant (slots b !! 0%Z)) as Hv by (by apply (rep_tail _ _ _ R)).
  unfold emplace_first. rewrite construct_at_ok by (done || lia). simpl.
  rewrite write_skip_ok by (simpl; lia). simpl. eexists. split; [done|].
  split; [|split; [done|split; [by apply element_vacant|]]].
  2: { intros j. unfold element. simpl. rewrite lookup_insert. by case_decide. }
  split; simpl; try done; try lia.
  - rewrite !lookup_insert_eq. done.
  - intros j Hj. rewrite lookup_insert_ne by lia. apply (rep_tail _ _ _ R). simpl. lia.
  - apply R.
Qed.

Lemma emplace_first_throws b :
  block_rep b [] [] ->
  exists b', emplace_first b None = Some (b', None) /\ block_rep b' [] [] /\
    capacity b' = capacity b /\ forall j, element b' j = element b j.
Proof.
  intros R. pose proof (rep_capacity _ _ _ R) as Hc. unfold slot_npos in Hc.
  assert (vacant (slots b !! 0%Z)) as Hv by (by apply (rep_tail _ _ _ R)).
  unfold emplace_first, clobber_at. rewrite (proj1 (element_vacant _ _) Hv).
  rewrite write_slot_ok by lia. simpl. eexists. split; [done|]. split; [|split; [done|]].
  2: { intros j. apply element_vacant in Hv. unfold element in *. simpl. rewrite lookup_insert.
       case_decide; [by subst|done]. }
  destruct R. split; try done.
  intros j Hj. simpl. destruct (decide (0%Z = j)) as [<-|];
    [by rewrite lookup_insert_eq|rewrite lookup_insert_ne by done; by apply rep_tail0].
Qed.

(** [destroy_live_elements] visits the live slots: from the live slot at [base]
    on, every slot ends up vacant and nothing else changes. *)
Lemma destroy_from_spec fuel l base b :
  shape l -> (match l with Dead _ :: _ => False | _ => True end) ->
  encodes b base l -> high_water b = (base + width l)%Z ->
  (0 <= base)%Z -> (base + width l <= capacity b)%Z -> (length (elems l) <= fuel)%nat ->
  exists b', destroy_from fuel b base = Some b' /\ capacity b' = capacity b /\
    (forall j, (base <= j < base + width l)%Z -> vacant (slots b' !! j)) /\
    (forall j, (j < base \/ base + width l <= j)%Z -> slots b' !! j = slots b !! j).
Proof.
  revert l base b. induction fuel as [|fuel IH]; intros l base b Hsh Hl He Hh Hb Hc Hf.
  { destruct l as [|[x|n] l]; [|simpl in Hf; lia|done]. simpl in *. exists b.
    rewrite Hh. zb. split_and!; [done..|intros; lia|done]. }
  destruct l as [|[x|n] l]; [|simpl in *|done].
  { simpl in *. exists b. rewrite Hh. zb. split_and!; [done..|intros; lia|done]. }
  pose proof (shape_widths _ Hsh) as Hw. pose proof (width_nonneg _ Hw).
  destruct He as (Hk & Hx & He). rewrite Hh. zb.
  unfold destroy_at, element. rewrite Hx, write_slot_ok by lia. simpl. set (b1 := set_slots _ b).
  assert (forall j, j <> base -> slots b1 !! j = slots b !! j) as Hb1
    by (intros; simpl; by rewrite lookup_insert_ne).
  assert (vacant (slots b1 !! base)) as Hv1 by (simpl; by rewrite lookup_insert_eq).
  assert (encodes b1 (base + 1) l) as He1.
  { eapply encodes_frame; [done| |exact He]. intros j Hj. split; [done|]. left. apply Hb1. lia. }
  rewrite Hh. destruct l as [|[y|n] l].
  - simpl in *. zb. destruct (IH [] (base + 1)%Z b1) as (b' & Hb' & ? & _ & Ho);
      simpl; try done; try lia.
    exists b'. simpl in *. split_and!; [done..| |].
    + intros j Hj. rewrite Ho by lia. by replace j with base by lia.
    + intros j Hj. rewrite Ho by lia. apply Hb1. lia.
  - simpl in *. destruct Hw as [_ Hw]. apply width_nonneg in Hw.
    pose proof He1 as [Hk1 _]. zb. unfold read_skip. simpl. rewrite Hk1. simpl. rewrite Z.add_0_r.
    destruct (IH (Live y :: l) (base + 1)%Z b1) as (b' & Hb' & ? & Hv & Ho);
      simpl; try done; try lia.
    exists b'. simpl in *. split_and!; [done..| |].
    + intros j Hj. destruct (decide (j = base)) as [->|]; [by rewrite Ho by lia|]. apply Hv. lia.
    + intros j Hj. rewrite Ho by lia. apply Hb1. lia.
  - simpl in *. destruct Hw as [? Hw]. apply width_nonneg in Hw.
    destruct He1 as (Hk1 & _ & Hrun & He1). zb. unfold read_skip. simpl. rewrite Hk1. simpl.
    destruct Hsh as [_ Hsh].
    destruct (IH l (base + 1 + n)%Z b1) as (b' & Hb' & ? & Hv & Ho);
      simpl; try done; try lia; [by destruct l as [|[]]..|].
    exists b'. split_and!; [done..| |].
    + intros j Hj. destruct (decide (j = base)) as [->|]; [by rewrite Ho by lia|].
      destruct (Z.lt_ge_cases j (base + 1 + n)); [rewrite Ho by lia; apply Hrun; lia|apply Hv; lia].
    + intros j Hj. rewrite Ho by lia. apply Hb1. lia.
Qed.

Lemma destroy_live_elements_spec b l fs :
  block_rep b l fs ->
  exists b', destroy_live_elements b = Some b' /\ capacity b' = capacity b /\
    forall j, (0 <= j)%Z -> vacant (slots b' !! j).
Proof.
  intros R. pose proof (rep_high_water _ _ _ R) as Hh. pose proof (rep_shape _ _ _ R) as Hsh.
  pose proof (shape_widths _ Hsh) as Hw. pose proof (width_nonneg _ Hw) as Hw0.
  pose proof (rep_bound _ _ _ R) as Hb. pose proof (rep_encodes _ _ _ R) as He.
  pose proof (elems_length_le _ Hw) as Hlen.
  unfold destroy_live_elements.
  destruct l as [|s l].
  { simpl in *. rewrite Hh. exists b. simpl. rewrite Hh. split_and!; [done..|].
    intros j Hj. apply (rep_tail _ _ _ R). simpl. lia. }
  destruct Hw as [Hs Hw]. pose proof (width_nonneg _ Hw).
  rewrite Hh. simpl in Hb |- *. zb. unfold read_skip. rewrite (encodes_hd_skip _ _ _ _ He).
  destruct s as [x|n]; simpl in *.
  - destruct (destroy_from_spec (Z.to_nat (1 + width l)) (Live x :: l) 0 b)
      as (b' & Hb' & ? & Hv & Ho); simpl; try done; try lia.
    exists b'. split_and!; [done..|]. intros j Hj. destruct (Z.lt_ge_cases j (1 + width l)).
    + apply Hv. simpl. lia.
    + rewrite Ho by (simpl; lia). by apply (rep_tail _ _ _ R).
  - destruct He as (_ & _ & Hrun & He). destruct Hsh as [_ Hsh].
    destruct (destroy_from_spec (Z.to_nat (n + width l)) l n b)
      as (b' & Hb' & ? & Hv & Ho); simpl; try done; try lia; [by destruct l as [|[]]..|].
    exists b'. split_and!; [done..|]. intros j Hj.
    destruct (Z.lt_ge_cases j n); [rewrite Ho by lia; apply Hrun; lia|].
    destruct (Z.lt_ge_cases j (n + width l)); [apply Hv; lia|].
    rewrite Ho by lia. by apply (rep_tail _ _ _ R).
Qed.

(** A cleared block can take elements again. *)
Lemma reset_vacant_rep b :
  (1 <= capacity b <= slot_npos)%Z -> (forall j, (0 <= j)%Z -> vacant (slots b !! j)) ->
  block_rep (reset_vacant_block b) [] [].
Proof. intros Hc Hv. split; simpl; try done; lia. Qed.

(** Erasing the only element leaves a block that [reset_vacant_block] makes
    vacant. *)
Lemma rep_no_elems b l fs : block_rep b l fs -> elems l = [] -> l = [] /\ fs = [].
Proof.
  intros R H0. pose proof (rep_shape _ _ _ R) as Hsh. pose proof (rep_starts _ _ _ R) as Hst.
  destruct l as [|[x|n] l]; [|done|].
  - split; [done|]. by apply Permutation_nil_r in Hst.
  - destruct Hsh as [_ Hsh]. by destruct l as [|[]].
Qed.

Lemma rep_vacant b : block_rep b [] [] -> block_rep (reset_vacant_block b) [] [].
Proof.
  intros R. apply reset_vacant_rep; [apply R|]. intros j Hj. by apply (rep_tail _ _ _ R).
Qed.
End traversal.
