(* ===== verification/HiveHeap.v ===== *)
(** * The hive: control block, block lists and container operations

    Models class [hive] of backport/cpp26/hive.hpp over an explicit heap: the
    blocks, the control blocks and the hive objects are cells named by
    locations, pointers are locations ([None] is the null pointer), and every
    operation reads and writes the cells the code reads and writes.

    An operation returns a value, raises an exception, or is [Stuck]: it
    dereferenced a dangling or null pointer, released storage that was not
    allocated, read memory it must not read, or exhausted the bound of a loop.
    The theorems show that operations on well-formed hives are never stuck. *)
From S2P Require Import Prelude Linked HiveBlock.

Abbreviation loc := Z.

(** ** Data *)

Record hive_limits := HiveLimits { lim_min : Z; lim_max : Z }.

(** The active-list links of a block, its position in that order, and the flag
    that says it is active. *)
Record active_part := ActivePart {
  active_prev : option loc;
  active_next : option loc;
  order : Z;
  active : bool;
}.

(** The links of a block in the list of blocks with room. *)
Record available_part := AvailablePart {
  available_prev : option loc;
  available_next : option loc;
  in_available : bool;
}.

(** [control_type]. *)
Record control_type := Control {
  owner : loc;
  control_allocation : loc;
  active_head : option loc;
  active_tail : option loc;
  reserved_head : option loc;
  available_head : option loc;
  ctl_size : Z;
  ctl_capacity : Z;
  next_block_order : Z;
}.

(** The data members of a [hive] object. *)
Record hive_object := HiveObject {
  alloc_ : Z;
  limits_ : hive_limits;
  control_ : option loc;
  end_epoch_ : Z;
}.

(** [hive_iterator]: an element, or the end of the hive [it_owner]. *)
Record iterator := Iterator {
  it_block : option loc;
  it_index : Z;
  it_owner : option loc;
  it_epoch : Z;
}.

(** What the allocator handed out, with the extent it was asked for. *)
Inductive allocation :=
  | ABlock | ASlots (n : Z) | ASkip (n : Z) | AControl.

#[export] Instance allocation_eq_dec : EqDecision allocation.
Proof. solve_decision. Defined.

Inductive exn := bad_alloc | length_error | element_exn.

#[export] Instance exn_eq_dec : EqDecision exn.
Proof. solve_decision. Defined.

(** What the hive is compiled against: the size of a slot, the [max_size] of
    the element, slot and skip allocators, the allocator's constant bound when
    it has one, the propagation traits, and which of the allocation requests
    succeed. *)
Class Config := {
  sizeof_slot : Z;
  allocator_max : Z;
  slot_max : Z;
  skip_max : Z;
  constexpr_bound : option Z;
  pocca : bool;
  pocma : bool;
  pocs : bool;
  always_equal : bool;
  alloc_ok : nat -> bool;
}.

Section hive.
Context {T : Type} `{Config}.
Implicit Types (l c this : loc) (x : T).

(** [block_type]: constants of its allocation, slots, links. *)
Record block_type := Block {
  control : loc;
  block_allocation : loc;
  slot_allocation : loc;
  skip_allocation : loc;
  field : skipfield T;
  act : active_part;
  reserved_next : option loc;
  avl : available_part;
}.

Record world := World {
  blocks : gmap loc block_type;
  controls : gmap loc control_type;
  hives : gmap loc hive_object;
  ledger : gmap loc allocation;
  next_loc : loc;
  requests : nat;
}.
Implicit Types (w : world) (b : block_type) (k : control_type).

(** ** Effects *)

Inductive outcome (A : Type) := Ret (a : A) | Raise (e : exn) | Stuck.
Arguments Ret {_} _.
Arguments Raise {_} _.
Arguments Stuck {_}.

Definition M (A : Type) : Type := world -> outcome A * world.

Definition ret {A} (a : A) : M A := fun w => (Ret a, w).
Definition bind {A B} (m : M A) (f : A -> M B) : M B := fun w =>
  match m w with
  | (Ret a, w') => f a w'
  | (Raise e, w') => (Raise e, w')
  | (Stuck, w') => (Stuck, w')
  end.
Definition throw {A} (e : exn) : M A := fun w => (Raise e, w).
Definition stuck {A} : M A := fun w => (Stuck, w).
(** [try m catch (...) { handler; throw; }]. *)
Definition on_raise {A} (m : M A) (handler : M unit) : M A := fun w =>
  match m w with
  | (Raise e, w') =>
      match handler w' with (Ret _, w'') => (Raise e, w'') | (_, w'') => (Stuck, w'') end
  | r => r
  end.
Definition from_option {A} (o : option A) : M A :=
  match o with Some a => ret a | None => stuck end.

End hive.
Arguments block_type : clear implicits.
Arguments world : clear implicits.
Arguments M : clear implicits.
Arguments Ret {_} _.
Arguments Raise {_} _.
Arguments Stuck {_}.

Declare Scope hive_scope.
Delimit Scope hive_scope with hive.
Notation "'let*' x := m 'in' k" := (bind m (fun x => k))
  (at level 10, x name, m at level 100, k at level 200) : hive_scope.
Notation "m ;;; k" := (bind m (fun _ => k))
  (at level 100, right associativity) : hive_scope.
Open Scope hive_scope.
#[local] Open Scope Z_scope.

Section operations.
Context {T : Type} `{cfg : Config}.
Implicit Types (l c this : loc) (x : T) (b : block_type T) (k : control_type).
Implicit Types (w : world T).

(** ** Heap cells *)

Definition set_blocks (m : gmap loc (block_type T)) w : world T :=
  World m (controls w) (hives w) (ledger w) (next_loc w) (requests w).
Definition set_controls (m : gmap loc control_type) w : world T :=
  World (blocks w) m (hives w) (ledger w) (next_loc w) (requests w).
Definition set_hives (m : gmap loc hive_object) w : world T :=
  World (blocks w) (controls w) m (ledger w) (next_loc w) (requests w).
Definition set_ledger (m : gmap loc allocation) w : world T :=
  World (blocks w) (controls w) (hives w) m (next_loc w) (requests w).

Definition read_cell {A} (cells : world T -> gmap loc A) (l : loc) : M T A := fun w =>
  match cells w !! l with Some a => (Ret a, w) | None => (Stuck, w) end.

Definition get_block l : M T (block_type T) := read_cell blocks l.
Definition get_control c : M T control_type := read_cell controls c.
Definition get_hive this : M T hive_object := read_cell hives this.

(** Writes go to cells that exist. *)
Definition put_block l b : M T unit := fun w =>
  match blocks w !! l with
  | Some _ => (Ret tt, set_blocks (<[l := b]> (blocks w)) w)
  | None => (Stuck, w)
  end.
Definition put_control c k : M T unit := fun w =>
  match controls w !! c with
  | Some _ => (Ret tt, set_controls (<[c := k]> (controls w)) w)
  | None => (Stuck, w)
  end.
Definition put_hive this (h : hive_object) : M T unit := fun w =>
  match hives w !! this with
  | Some _ => (Ret tt, set_hives (<[this := h]> (hives w)) w)
  | None => (Stuck, w)
  end.

Definition upd_block l (f : block_type T -> block_type T) : M T unit :=
  let* b := get_block l in put_block l (f b).
Definition upd_control c (f : control_type -> control_type) : M T unit :=
  let* k := get_control c in put_control c (f k).
Definition upd_hive this (f : hive_object -> hive_object) : M T unit :=
  let* h := get_hive this in put_hive this (f h).

(** Following a pointer: null is an error. *)
Definition deref (p : option loc) : M T loc := from_option p.

(** Member updates. *)
Definition with_field f b : block_type T :=
  Block (control b) (block_allocation b) (slot_allocation b) (skip_allocation b)
    f (act b) (reserved_next b) (avl b).
Definition with_act a b : block_type T :=
  Block (control b) (block_allocation b) (slot_allocation b) (skip_allocation b)
    (field b) a (reserved_next b) (avl b).
Definition with_avl a b : block_type T :=
  Block (control b) (block_allocation b) (slot_allocation b) (skip_allocation b)
    (field b) (act b) (reserved_next b) a.
Definition with_reserved_next n b : block_type T :=
  Block (control b) (block_allocation b) (slot_allocation b) (skip_allocation b)
    (field b) (act b) n (avl b).
Definition with_control c b : block_type T :=
  Block c (block_allocation b) (slot_allocation b) (skip_allocation b)
    (field b) (act b) (reserved_next b) (avl b).

Definition with_active_prev p b := with_act
  (ActivePart p (active_next (act b)) (order (act b)) (active (act b))) b.
Definition with_active_next n b := with_act
  (ActivePart (active_prev (act b)) n (order (act b)) (active (act b))) b.
Definition with_order o b := with_act
  (ActivePart (active_prev (act b)) (active_next (act b)) o (active (act b))) b.
Definition with_active f b := with_act
  (ActivePart (active_prev (act b)) (active_next (act b)) (order (act b)) f) b.
Definition with_available_prev p b := with_avl
  (AvailablePart p (available_next (avl b)) (in_available (avl b))) b.
Definition with_available_next n b := with_avl
  (AvailablePart (available_prev (avl b)) n (in_available (avl b))) b.
Definition with_in_available f b := with_avl
  (AvailablePart (available_prev (avl b)) (available_next (avl b)) f) b.

Definition with_owner o k := Control o (control_allocation k) (active_head k) (active_tail k)
  (reserved_head k) (available_head k) (ctl_size k) (ctl_capacity k) (next_block_order k).
Definition with_active_head p k := Control (owner k) (control_allocation k) p (active_tail k)
  (reserved_head k) (available_head k) (ctl_size k) (ctl_capacity k) (next_block_order k).
Definition with_active_tail p k := Control (owner k) (control_allocation k) (active_head k) p
  (reserved_head k) (available_head k) (ctl_size k) (ctl_capacity k) (next_block_order k).
Definition with_reserved_head p k := Control (owner k) (control_allocation k) (active_head k)
  (active_tail k) p (available_head k) (ctl_size k) (ctl_capacity k) (next_block_order k).
Definition with_available_head p k := Control (owner k) (control_allocation k) (active_head k)
  (active_tail k) (reserved_head k) p (ctl_size k) (ctl_capacity k) (next_block_order k).
Definition with_size n k := Control (owner k) (control_allocation k) (active_head k)
  (active_tail k) (reserved_head k) (available_head k) n (ctl_capacity k) (next_block_order k).
Definition with_capacity n k := Control (owner k) (control_allocation k) (active_head k)
  (active_tail k) (reserved_head k) (available_head k) (ctl_size k) n (next_block_order k).
Definition with_next_order n k := Control (owner k) (control_allocation k) (active_head k)
  (active_tail k) (reserved_head k) (available_head k) (ctl_size k) (ctl_capacity k) n.

Definition with_limits lim h := HiveObject (alloc_ h) lim (control_ h) (end_epoch_ h).
Definition with_control_ p h := HiveObject (alloc_ h) (limits_ h) p (end_epoch_ h).
Definition with_alloc a h := HiveObject a (limits_ h) (control_ h) (end_epoch_ h).
Definition with_end_epoch e h := HiveObject (alloc_ h) (limits_ h) (control_ h) e.

(** Slot operations on a block of the heap. *)
Definition on_field {A} l (f : skipfield T -> option (skipfield T * A)) : M T A :=
  let* b := get_block l in
  match f (field b) with
  | Some (s, a) => put_block l (with_field s b) ;;; ret a
  | None => stuck
  end.
Definition on_field_ l (f : skipfield T -> option (skipfield T)) : M T unit :=
  on_field l (fun s => (fun s' => (s', tt)) <$> f s).

(** ** Allocation *)

(** One allocation request: it fails when the allocator says so. *)
Definition allocate (a : allocation) : M T loc := fun w =>
  let w1 := World (blocks w) (controls w) (hives w) (ledger w) (next_loc w)
              (S (requests w)) in
  if alloc_ok (requests w)
  then (Ret (next_loc w),
        World (blocks w1) (controls w1) (hives w1)
          (<[next_loc w := a]> (ledger w1)) (next_loc w + 1) (requests w1))
  else (Raise bad_alloc, w1).

(** Deallocation with the extent of the allocation; anything else is an error. *)
Definition deallocate (l : loc) (a : allocation) : M T unit := fun w =>
  if decide (ledger w !! l = Some a)
  then (Ret tt, set_ledger (delete l (ledger w)) w)
  else (Stuck, w).

Definition allocate_control this : M T loc :=
  let* c := allocate AControl in
  (fun w => (Ret tt, set_controls (<[c :=
     Control this c None None None None 0 0 0]> (controls w)) w)) ;;;
  ret c.

Definition deallocate_control c : M T unit :=
  let* k := get_control c in
  (fun w => (Ret tt, set_controls (delete c (controls w)) w)) ;;;
  deallocate (control_allocation k) AControl.

Definition allocate_block c (cap : Z) : M T loc :=
  let* lb := allocate ABlock in
  let* ls := on_raise (allocate (ASlots cap)) (deallocate lb ABlock) in
  let* lk := on_raise (allocate (ASkip cap))
               (deallocate ls (ASlots cap) ;;; deallocate lb ABlock) in
  (fun w => (Ret tt, set_blocks (<[lb :=
     Block c lb ls lk (fresh_field cap) (ActivePart None None 0 false) None
       (AvailablePart None None false)]> (blocks w)) w)) ;;;
  ret lb.

Definition deallocate_block l : M T unit :=
  let* b := get_block l in
  let cap := capacity (field b) in
  (fun w => (Ret tt, set_blocks (delete l (blocks w)) w)) ;;;
  deallocate (skip_allocation b) (ASkip cap) ;;;
  deallocate (slot_allocation b) (ASlots cap) ;;;
  deallocate (block_allocation b) ABlock.

(** ** The block lists *)

Definition available_add c l : M T unit :=
  upd_block l (with_in_available true) ;;;
  upd_block l (with_available_prev None) ;;;
  let* k := get_control c in
  upd_block l (with_available_next (available_head k)) ;;;
  match available_head k with
  | Some h => upd_block h (with_available_prev (Some l))
  | None => ret tt
  end ;;;
  upd_control c (with_available_head (Some l)).

Definition available_remove c l : M T unit :=
  let* b := get_block l in
  if negb (in_available (avl b)) then ret tt else
  match available_prev (avl b) with
  | Some p => upd_block p (with_available_next (available_next (avl b)))
  | None => upd_control c (with_available_head (available_next (avl b)))
  end ;;;
  match available_next (avl b) with
  | Some n => upd_block n (with_available_prev (available_prev (avl b)))
  | None => ret tt
  end ;;;
  upd_block l (with_available_prev None) ;;;
  upd_block l (with_available_next None) ;;;
  upd_block l (with_in_available false).

Definition active_append c l : M T unit :=
  upd_block l (with_active true) ;;;
  let* k := get_control c in
  upd_block l (with_active_prev (active_tail k)) ;;;
  upd_block l (with_active_next None) ;;;
  upd_block l (with_order (next_block_order k)) ;;;
  upd_control c (with_next_order (u64 (next_block_order k + 1))) ;;;
  match active_tail k with
  | Some t => upd_block t (with_active_next (Some l))
  | None => upd_control c (with_active_head (Some l))
  end ;;;
  upd_control c (with_active_tail (Some l)).

Definition active_remove c l : M T unit :=
  let* b := get_block l in
  match active_prev (act b) with
  | Some p => upd_block p (with_active_next (active_next (act b)))
  | None => upd_control c (with_active_head (active_next (act b)))
  end ;;;
  match active_next (act b) with
  | Some n => upd_block n (with_active_prev (active_prev (act b)))
  | None => upd_control c (with_active_tail (active_prev (act b)))
  end ;;;
  upd_block l (with_active_prev None) ;;;
  upd_block l (with_active_next None) ;;;
  upd_block l (with_active false).

Definition link_reserved c l : M T unit :=
  upd_block l (with_active false) ;;;
  let* k := get_control c in
  upd_block l (with_reserved_next (reserved_head k)) ;;;
  upd_control c (with_reserved_head (Some l)) ;;;
  let* b := get_block l in
  upd_control c (with_capacity (u64 (ctl_capacity k + capacity (field b)))).

(** Following a list of blocks from [p]; the bound is the number of blocks. *)
Fixpoint walk (fuel : nat) (step : loc -> M T (option loc)) (p : option loc) : M T unit :=
  match p with
  | None => ret tt
  | Some l =>
      match fuel with
      | O => stuck
      | S fuel' => let* n := step l in walk fuel' step n
      end
  end.

Definition for_blocks (step : loc -> M T (option loc)) (p : option loc) : M T unit :=
  fun w => walk (size (blocks w)) step p w.

Definition touch_end this : M T unit :=
  upd_hive this (fun h => with_end_epoch (u64 (end_epoch_ h + 1)) h).

(** ** Limits and capacity *)

Definition structural_max_size : Z :=
  let by_slots := (2 ^ 64 - 1) / (sizeof_slot + 2) in
  let by_difference := 2 ^ 63 - 1 in
  Z.min (Z.min by_slots by_difference) (npos - 1).

Definition static_max_size : Z :=
  match constexpr_bound with
  | Some allocator_bound => Z.min structural_max_size allocator_bound
  | None => structural_max_size
  end.

Definition max_size : Z := Z.min allocator_max static_max_size.

Definition block_capacity_hard_limits : hive_limits :=
  let maximum := Z.min static_max_size slot_npos in
  HiveLimits (if (maximum <? 1)%Z then maximum else 1) maximum.

Definition block_capacity_default_limits : hive_limits :=
  let hard := block_capacity_hard_limits in
  HiveLimits (if (lim_max hard <? 8)%Z then lim_max hard else 8)
             (if (lim_max hard <? 4096)%Z then lim_max hard else 4096).

Definition is_within_hard_limits (lim : hive_limits) : bool :=
  let hard := block_capacity_hard_limits in
  ((lim_min hard <=? lim_min lim) && (lim_min lim <=? lim_max lim) &&
   (lim_max lim <=? lim_max hard))%Z.

Definition validate_limits (lim : hive_limits) : M T unit :=
  if is_within_hard_limits lim then ret tt else throw length_error.

Definition within (lim : hive_limits) (cap : Z) : bool :=
  ((lim_min lim <=? cap) && (cap <=? lim_max lim))%Z.

Definition allocation_block_max (lim : hive_limits) : Z :=
  Z.min (Z.min (lim_max lim) slot_npos) (Z.min slot_max skip_max).

Record capacity_plan := CapacityPlan { pl_blocks : Z; pl_added : Z; pl_block_max : Z }.

(** [plan_capacity]: [None] when it returns false. *)
Definition plan_capacity (lim : hive_limits) (current requested : Z) : option capacity_plan :=
  let maximum := max_size in
  let block_max := allocation_block_max lim in
  if ((maximum <? requested) || (maximum <? current) || (lim_min lim =? 0) ||
      (block_max <? lim_min lim))%Z then None else
  let missing := u64 (requested - current) in
  let blocks := (missing / block_max + (if negb (missing mod block_max =? 0) then 1 else 0))%Z in
  if ((maximum - current) / lim_min lim <? blocks)%Z then None else
  Some (CapacityPlan blocks (Z.max missing (blocks * lim_min lim)) block_max).

(** The block capacities [reserve_blocks] asks for, in order. *)
Definition next_block_capacity (lim : hive_limits) (p : capacity_plan) : Z :=
  Z.min (pl_block_max p) (pl_added p - (pl_blocks p - 1) * lim_min lim).

(** The handlers of [emplace] and [reserve_blocks] release a control block that
    was just allocated. *)
Definition drop_control c (nc : bool) : M T unit :=
  if nc then deallocate_control c else ret tt.

(** One iteration of [reserve_blocks]; control [c] is new when [nc]. *)
Definition reserve_block this c (nc : bool) (cap : Z) : M T unit :=
  let* l := on_raise (allocate_block c cap) (drop_control c nc) in
  (if nc then upd_hive this (with_control_ (Some c)) else ret tt) ;;;
  link_reserved c l.

Fixpoint reserve_loop (n : nat) this (p : capacity_plan) : M T unit :=
  match n with
  | O => ret tt
  | S n' =>
      let* h := get_hive this in
      let cap := next_block_capacity (limits_ h) p in
      let nc := match control_ h with None => true | Some _ => false end in
      let* c := (match control_ h with Some c => ret c | None => allocate_control this end) in
      reserve_block this c nc cap ;;;
      reserve_loop n' this
        (CapacityPlan (pl_blocks p - 1) (pl_added p - cap) (pl_block_max p))
  end.

Definition reserve_blocks this (p : capacity_plan) : M T unit :=
  reserve_loop (Z.to_nat (pl_blocks p)) this p.

Definition hive_size this : M T Z :=
  let* h := get_hive this in
  match control_ h with
  | Some c => let* k := get_control c in ret (ctl_size k)
  | None => ret 0%Z
  end.

Definition hive_capacity this : M T Z :=
  let* h := get_hive this in
  match control_ h with
  | Some c => let* k := get_control c in ret (ctl_capacity k)
  | None => ret 0%Z
  end.

Definition reserve this (n : Z) : M T unit :=
  let* cap := hive_capacity this in
  if (n <=? cap)%Z then ret tt else
  let* h := get_hive this in
  match plan_capacity (limits_ h) cap n with
  | None => throw length_error
  | Some p => reserve_blocks this p
  end.

(** ** Iterators *)

Definition at_element l (i : Z) : iterator := Iterator (Some l) i None 0.

Definition hive_end this : M T iterator :=
  let* h := get_hive this in ret (Iterator None npos (Some this) (end_epoch_ h)).

Definition hive_begin this : M T iterator :=
  let* h := get_hive this in
  match control_ h with
  | None => hive_end this
  | Some c =>
      let* k := get_control c in
      match active_head k with
      | None => hive_end this
      | Some l =>
          let* b := get_block l in
          let* i := from_option (read_skip (field b) 0) in
          ret (at_element l i)
      end
  end.

(** [operator++]. *)
Definition it_next (it : iterator) : M T iterator :=
  let* l := deref (it_block it) in
  let* b := get_block l in
  let* n := from_option (next_index (field b) (it_index it)) in
  match n with
  | Some i => ret (Iterator (Some l) i (it_owner it) (it_epoch it))
  | None =>
      let* k := get_control (control b) in
      match active_next (act b) with
      | Some l' =>
          let* b' := get_block l' in
          let* i := from_option (read_skip (field b') 0) in
          ret (Iterator (Some l') i (it_owner it) (it_epoch it))
      | None =>
          let* h := get_hive (owner k) in
          ret (Iterator None npos (Some (owner k)) (end_epoch_ h))
      end
  end.

(** [operator--]. *)
Definition it_prev (it : iterator) : M T iterator :=
  match it_block it with
  | None =>
      match it_owner it with
      | None => ret it
      | Some o =>
          let* h := get_hive o in
          match control_ h with
          | None => ret it
          | Some c =>
              let* k := get_control c in
              match active_tail k with
              | None => ret it
              | Some t =>
                  let* b := get_block t in
                  ret (at_element t (high_water (field b) - 1))
              end
          end
      end
  | Some l =>
      let* b := get_block l in
      let* n := from_option (prev_index (field b) (it_index it)) in
      match n with
      | Some i => ret (Iterator (Some l) i (it_owner it) (it_epoch it))
      | None =>
          let* p := deref (active_prev (act b)) in
          let* b' := get_block p in
          ret (Iterator (Some p) (high_water (field b') - 1) (it_owner it) (it_epoch it))
      end
  end.

(** [operator*]. *)
Definition it_deref (it : iterator) : M T T :=
  let* l := deref (it_block it) in
  let* b := get_block l in
  from_option (element (field b) (it_index it)).

(** [operator==]. *)
Definition it_eqb (a b : iterator) : bool :=
  match it_block a, it_block b with
  | Some l, Some l' => ((l =? l') && (it_index a =? it_index b))%Z
  | None, None =>
      bool_decide (it_owner a = it_owner b) && (it_epoch a =? it_epoch b)%Z
  | _, _ => false
  end.

(** ** Insertion *)

Definition inc_size c : M T unit :=
  upd_control c (fun k => with_size (u64 (ctl_size k + 1)) k).

(** [emplace] into a block that has room.  [x] is what constructing the element
    gives: [None] when it throws. *)
Definition emplace_available this c l (x : option T) : M T iterator :=
  let* r := on_field l (fun s => emplace_slot s x) in
  match r with
  | None => throw element_exn
  | Some index =>
      inc_size c ;;;
      let* b := get_block l in
      (if (high_water (field b) =? capacity (field b)) && (free_head (field b) =? npos)
       then available_remove c l else ret tt) ;;;
      touch_end this ;;;
      ret (at_element l index)
  end.

(** The steps [emplace] takes once a vacant block holds its first element. *)
Definition activate c l : M T unit :=
  active_append c l ;;;
  let* b := get_block l in
  if negb (high_water (field b) =? capacity (field b)) then available_add c l else ret tt.

Definition emplace_reserved this c l (x : option T) : M T iterator :=
  let* r := on_field l (fun s => emplace_first s x) in
  match r with
  | None => throw element_exn
  | Some index =>
      let* b := get_block l in
      upd_control c (with_reserved_head (reserved_next b)) ;;;
      upd_block l (with_reserved_next None) ;;;
      activate c l ;;;
      inc_size c ;;;
      touch_end this ;;;
      ret (at_element l index)
  end.

(** The capacity of the block [emplace] allocates, [None] when it gives up. *)
Definition growth_capacity (lim : hive_limits) (current : Z) : option Z :=
  let maximum := max_size in
  let block_max := allocation_block_max lim in
  if (lim_min lim =? 0) || (block_max <? lim_min lim) || (maximum <? current) ||
     (maximum - current <? lim_min lim) then None
  else Some (Z.min (Z.min (Z.max (lim_min lim) current) block_max) (maximum - current)).

(** [emplace] into a new block of control [c], which is new itself when [nc]. *)
Definition emplace_grow this c (nc : bool) (cap : Z) (x : option T) : M T iterator :=
  let* l := on_raise (allocate_block c cap) (drop_control c nc) in
  let* index := on_raise
    (let* r := on_field l (fun s => emplace_first s x) in
     match r with None => throw element_exn | Some i => ret i end)
    (deallocate_block l ;;; drop_control c nc) in
  (if nc then upd_hive this (with_control_ (Some c)) else ret tt) ;;;
  activate c l ;;;
  let* b := get_block l in
  upd_control c (fun k => with_capacity (u64 (ctl_capacity k + capacity (field b))) k) ;;;
  inc_size c ;;;
  touch_end this ;;;
  ret (at_element l index).

Definition emplace_new this (x : option T) : M T iterator :=
  let* h := get_hive this in
  let* current := hive_capacity this in
  match growth_capacity (limits_ h) current with
  | None => throw length_error
  | Some cap =>
      match control_ h with
      | None => let* c := allocate_control this in emplace_grow this c true cap x
      | Some c => emplace_grow this c false cap x
      end
  end.

Definition emplace this (x : option T) : M T iterator :=
  let* h := get_hive this in
  match control_ h with
  | None => emplace_new this x
  | Some c =>
      let* k := get_control c in
      match available_head k with
      | Some l => emplace_available this c l x
      | None =>
          match reserved_head k with
          | Some l => emplace_reserved this c l x
          | None => emplace_new this x
          end
      end
  end.

(** [append_input], [append_range], [append_default], [append_copies]: one
    [emplace] per element. *)
Fixpoint append_input this (xs : list (option T)) : M T unit :=
  match xs with
  | [] => ret tt
  | x :: xs' => emplace this x ;;; append_input this xs'
  end.

Definition append_copies this (count : nat) (x : option T) : M T unit :=
  append_input this (replicate count x).

(** ** Erasure *)

(** The block that lost its last element goes to the reserved list. *)
Definition retire_block c l : M T unit :=
  available_remove c l ;;;
  active_remove c l ;;;
  upd_block l (fun b => with_field (reset_vacant_block (field b)) b) ;;;
  let* k := get_control c in
  upd_block l (with_reserved_next (reserved_head k)) ;;;
  upd_control c (with_reserved_head (Some l)).

Definition erase this (position : iterator) : M T iterator :=
  let* l := deref (it_block position) in
  let index := it_index position in
  let* successor := it_next position in
  let* h := get_hive this in
  let* c := deref (control_ h) in
  on_field_ l (fun s => erase_slot s index) ;;;
  upd_control c (fun k => with_size (u64 (ctl_size k - 1)) k) ;;;
  let* b := get_block l in
  (if live_count (field b) =? 0 then retire_block c l
   else if negb (in_available (avl b)) then available_add c l else ret tt) ;;;
  match it_block successor with
  | None => touch_end this ;;; hive_end this
  | Some l' => ret (at_element l' (it_index successor))
  end.

(** [erase(first, last)]; the bound is the number of elements. *)
Fixpoint erase_until (fuel : nat) this (first last : iterator) : M T iterator :=
  match it_block last with
  | None =>
      match it_block first with
      | None => hive_end this
      | Some _ =>
          match fuel with
          | O => stuck
          | S fuel' => let* first := erase this first in erase_until fuel' this first last
          end
      end
  | Some l =>
      if bool_decide (it_block first = it_block last) && (it_index first =? it_index last)
      then ret (at_element l (it_index last))
      else
        match fuel with
        | O => stuck
        | S fuel' => let* first := erase this first in erase_until fuel' this first last
        end
  end.

Definition erase_range this (first last : iterator) : M T iterator :=
  let* n := hive_size this in
  erase_until (Z.to_nat n) this first last.

(** ** Clearing and releasing *)

Definition clear_step c l : M T (option loc) :=
  let* b := get_block l in
  let next := active_next (act b) in
  on_field_ l destroy_live_elements ;;;
  upd_block l (fun b => with_field (reset_vacant_block (field b)) b) ;;;
  upd_block l (with_active false) ;;;
  upd_block l (with_active_prev None) ;;;
  upd_block l (with_active_next None) ;;;
  upd_block l (with_available_prev None) ;;;
  upd_block l (with_available_next None) ;;;
  upd_block l (with_in_available false) ;;;
  let* k := get_control c in
  upd_block l (with_reserved_next (reserved_head k)) ;;;
  upd_control c (with_reserved_head (Some l)) ;;;
  ret next.

Definition clear_without_end_invalidation this : M T unit :=
  let* h := get_hive this in
  match control_ h with
  | None => ret tt
  | Some c =>
      let* k := get_control c in
      for_blocks (clear_step c) (active_head k) ;;;
      upd_control c (fun k => with_size 0 (with_available_head None
        (with_active_tail None (with_active_head None k))))
  end.

Definition clear this : M T unit :=
  clear_without_end_invalidation this ;;; touch_end this.

Definition release_storage this : M T unit :=
  let* h := get_hive this in
  match control_ h with
  | None => ret tt
  | Some c =>
      let* k := get_control c in
      for_blocks (fun l =>
        let* b := get_block l in
        let next := active_next (act b) in
        on_field_ l destroy_live_elements ;;;
        deallocate_block l ;;;
        ret next) (active_head k) ;;;
      for_blocks (fun l =>
        let* b := get_block l in
        let next := reserved_next b in
        deallocate_block l ;;;
        ret next) (reserved_head k) ;;;
      deallocate_control c ;;;
      upd_hive this (with_control_ None)
  end.

(** ** Capacity reduction *)

(** Release reserved blocks from the head while [keep] allows it. *)
Fixpoint trim_loop (fuel : nat) c (go : control_type -> Z -> bool) : M T unit :=
  let* k := get_control c in
  match reserved_head k with
  | None => ret tt
  | Some l =>
      let* b := get_block l in
      if go k (capacity (field b)) then
        match fuel with
        | O => stuck
        | S fuel' =>
            upd_control c (with_reserved_head (reserved_next b)) ;;;
            upd_control c (fun k => with_capacity (u64 (ctl_capacity k - capacity (field b))) k) ;;;
            deallocate_block l ;;;
            trim_loop fuel' c go
        end
      else ret tt
  end.

Definition trim_blocks c (go : control_type -> Z -> bool) : M T unit :=
  fun w => trim_loop (size (blocks w)) c go w.

(** [trim_capacity()] and [trim_capacity(n)]. *)
Definition trim_capacity this : M T unit :=
  let* h := get_hive this in
  match control_ h with
  | None => ret tt
  | Some c => trim_blocks c (fun _ _ => true)
  end.

Definition trim_capacity_to this (n : Z) : M T unit :=
  let* h := get_hive this in
  match control_ h with
  | None => ret tt
  | Some c =>
      let* k := get_control c in
      if (ctl_capacity k <=? n)%Z then ret tt
      else trim_blocks c (fun k cap => (n <=? ctl_capacity k - cap)%Z)
  end.
End operations.
