(* ===== verification/HiveInv.v ===== *)
(** * The block lists and the invariant of a hive

    What the active, available and reserved lists of a control block look like
    in the heap, and that the list operations of [hive] maintain them.  The
    slots of the blocks play no part here: the operations leave them alone
    ([same_fields]). *)
From S2P Require Import Prelude Linked HiveBlock HiveHeap.

Section links.
Context {T : Type} `{cfg : Config}.
Implicit Types (l j c this : loc) (b : block_type T) (k : control_type).
Implicit Types (w : world T) (bs rs av ls : list loc).

(** The links of a block in the heap. *)
Definition alinks w j : option (option loc * option loc) :=
  (fun b => (active_prev (act b), active_next (act b))) <$> blocks w !! j.
Definition vlinks w j : option (option loc * option loc) :=
  (fun b => (available_prev (avl b), available_next (avl b))) <$> blocks w !! j.
Definition rnext w j : option (option loc) := reserved_next <$> blocks w !! j.

(** The part of a block the lists do not touch. *)
Definition core b : loc * loc * loc * loc * skipfield T :=
  (control b, block_allocation b, slot_allocation b, skip_allocation b, field b).
Definition core_of w j := core <$> blocks w !! j.

(** [w'] differs from [w] only in block links and in the control [c]. *)
Record same_fields c w w' : Prop := SameFields {
  sf_core : forall j, core_of w' j = core_of w j;
  sf_controls : forall c', c' <> c -> controls w' !! c' = controls w !! c';
  sf_hives : hives w' = hives w;
  sf_ledger : ledger w' = ledger w;
  sf_next : next_loc w' = next_loc w;
  sf_requests : requests w' = requests w;
}.

(** The lists of control [c], whose blocks are [ls]: [bs] are active in this
    order, [av] the active blocks with room, [rs] the reserved ones.  A block
    that is not in a list has null links for it. *)
Record links_rep w c k ls bs rs av : Prop := LinksRep {
  lr_control : controls w !! c = Some k;
  lr_blocks : forall j, j ∈ ls -> is_Some (blocks w !! j);
  lr_sub : bs ⊆ ls /\ rs ⊆ ls /\ av ⊆ ls;
  lr_nodup : NoDup bs /\ NoDup rs /\ NoDup av;
  lr_head : active_head k = head bs /\ active_tail k = last bs;
  lr_reserved_head : reserved_head k = head rs;
  lr_available_head : available_head k = head av;
  lr_active : dseg Some (alinks w) None bs None;
  lr_available : dseg Some (vlinks w) None av None;
  lr_reserved : sseg Some (rnext w) rs None;
  lr_flags : forall j b, j ∈ ls -> blocks w !! j = Some b ->
    (if decide (j ∈ bs) then active (act b) = true
     else active_prev (act b) = None /\ active_next (act b) = None /\ active (act b) = false) /\
    (if decide (j ∈ av) then in_available (avl b) = true
     else avl b = AvailablePart None None false) /\
    (if decide (j ∈ rs) then True else reserved_next b = None);
}.

(** ** Heap writes *)

Lemma bind_ret_eq {A B} (m : M T A) (f : A -> M T B) w w' a :
  m w = (Ret a, w') -> bind m f w = f a w'.
Proof. unfold bind. by intros ->. Qed.

Lemma bind_ret {A B} (a : A) (f : A -> M T B) w : bind (ret a) f w = f a w.
Proof. done. Qed.

Lemma bind_deref {B} l (f : loc -> M T B) w : bind (deref (Some l)) f w = f l w.
Proof. done. Qed.

Lemma get_block_ok w l b : blocks w !! l = Some b -> get_block l w = (Ret b, w).
Proof. unfold get_block, read_cell. by intros ->. Qed.

Lemma get_control_ok w c k : controls w !! c = Some k -> get_control c w = (Ret k, w).
Proof. unfold get_control, read_cell. by intros ->. Qed.

Lemma get_hive_ok w this h : hives w !! this = Some h -> get_hive this w = (Ret h, w).
Proof. unfold get_hive, read_cell. by intros ->. Qed.

Lemma upd_block_ok w l f :
  is_Some (blocks w !! l) ->
  upd_block l f w = (Ret tt, set_blocks (alter f l (blocks w)) w).
Proof.
  intros [b Hb]. unfold upd_block, bind, get_block, read_cell, put_block. rewrite Hb, Hb.
  do 2 f_equal. by rewrite (alter_alt_Some _ _ _ b).
Qed.

Lemma upd_control_ok w c k f :
  controls w !! c = Some k ->
  upd_control c f w = (Ret tt, set_controls (<[c := f k]> (controls w)) w).
Proof.
  intros Hk. unfold upd_control, bind, get_control, read_cell, put_control. by rewrite Hk, Hk.
Qed.

Lemma upd_hive_ok w this h f :
  hives w !! this = Some h ->
  upd_hive this f w = (Ret tt, set_hives (<[this := f h]> (hives w)) w).
Proof.
  intros Hh. unfold upd_hive, bind, get_hive, read_cell, put_hive. by rewrite Hh, Hh.
Qed.

Lemma is_Some_alter (m : gmap loc (block_type T)) f l j :
  is_Some (m !! j) -> is_Some (alter f l m !! j).
Proof. by rewrite lookup_alter_is_Some. Qed.
End links.

(** Facts about the cells of a heap that was just written. *)
Ltac cell :=
  simpl; first
    [ done
    | apply lookup_insert_eq
    | rewrite ?lookup_insert_ne by done; done
    | repeat apply is_Some_alter; done
    | repeat apply is_Some_alter; eauto; done ].

(** Run one heap access whose cell is known to exist. *)
Ltac step1 :=
  first
    [ erewrite bind_ret_eq by (apply upd_block_ok; cell)
    | erewrite bind_ret_eq by (apply upd_control_ok; cell)
    | erewrite bind_ret_eq by (apply get_control_ok; cell)
    | erewrite bind_ret_eq by (apply get_block_ok; cell)
    | rewrite bind_ret
    | rewrite upd_block_ok by cell
    | erewrite upd_control_ok by cell ];
  cbn [blocks controls hives ledger next_loc requests set_blocks set_controls set_hives set_ledger].
Ltac steps := repeat step1.

Section list_operations.
Context {T : Type} `{cfg : Config}.
Implicit Types (l j c this : loc) (b : block_type T) (k : control_type).
Implicit Types (w : world T) (bs rs av ls : list loc).

(** Read the links of node [j] in a heap written by [alter]s. *)
Ltac at_node j :=
  unfold alinks, vlinks, rnext, core_of; simpl;
  repeat (rewrite lookup_alter; case_decide; subst); try done;
  try match goal with
  | |- context [blocks ?w !! j] => destruct (blocks w !! j) as [?b|] eqn:?Hj
  end; simpl; try done.

(** Changing one list only: the other two keep their representation. *)
Lemma links_rep_available w w' c k ls bs rs av av' :
  links_rep w c k ls bs rs av ->
  controls w' !! c = Some (with_available_head (head av') k) ->
  (forall j b, j ∈ ls -> blocks w !! j = Some b -> exists b', blocks w' !! j = Some b' /\
     act b' = act b /\ reserved_next b' = reserved_next b /\
     if decide (j ∈ av') then in_available (avl b') = true
     else avl b' = AvailablePart None None false) ->
  av' ⊆ ls -> NoDup av' -> dseg Some (vlinks w') None av' None ->
  links_rep w' c (with_available_head (head av') k) ls bs rs av'.
Proof.
  intros [Hk Hls (Hs1 & Hs2 & Hs3) (Hn1 & Hn2 & Hn3) Hh Hrh Hvh Ha Hv Hr Hf] Hk' Heff Hsub Hnd Hd.
  split; try done.
  - intros j Hj. destruct (Hls j Hj) as [b Hb]. destruct (Heff j b Hj Hb) as (b' & Hb' & _). eauto.
  - eapply dseg_ext; [|exact Ha]. intros j Hj. destruct (Hls j (Hs1 j Hj)) as [b Hb].
    destruct (Heff j b (Hs1 j Hj) Hb) as (b' & Hb' & Hact & _).
    unfold alinks. rewrite Hb, Hb'. simpl. by rewrite Hact.
  - eapply sseg_ext; [|exact Hr]. intros j Hj. destruct (Hls j (Hs2 j Hj)) as [b Hb].
    destruct (Heff j b (Hs2 j Hj) Hb) as (b' & Hb' & _ & Hres & _).
    unfold rnext. rewrite Hb, Hb'. simpl. by rewrite Hres.
  - intros j b' Hj Hb'. destruct (Hls j Hj) as [b Hb].
    destruct (Heff j b Hj Hb) as (b'' & Hb'' & Hact & Hres & Hav). simplify_eq.
    destruct (Hf j b Hj Hb) as (H1 & _ & H3). rewrite Hact, Hres. done.
Qed.

Lemma links_rep_active w w' c k k' ls bs bs' rs av :
  links_rep w c k ls bs rs av ->
  controls w' !! c = Some k' ->
  active_head k' = head bs' /\ active_tail k' = last bs' /\
    reserved_head k' = reserved_head k /\ available_head k' = available_head k ->
  (forall j b, j ∈ ls -> blocks w !! j = Some b -> exists b', blocks w' !! j = Some b' /\
     avl b' = avl b /\ reserved_next b' = reserved_next b /\
     if decide (j ∈ bs') then active (act b') = true
     else active_prev (act b') = None /\ active_next (act b') = None /\ active (act b') = false) ->
  bs' ⊆ ls -> NoDup bs' -> dseg Some (alinks w') None bs' None ->
  links_rep w' c k' ls bs' rs av.
Proof.
  intros [Hk Hls (Hs1 & Hs2 & Hs3) (Hn1 & Hn2 & Hn3) Hh Hrh Hvh Ha Hv Hr Hf] Hk' (? & ? & Hr' & Hv')
    Heff Hsub Hnd Hd.
  split; try done; try congruence.
  - intros j Hj. destruct (Hls j Hj) as [b Hb]. destruct (Heff j b Hj Hb) as (b' & Hb' & _). eauto.
  - eapply dseg_ext; [|exact Hv]. intros j Hj. destruct (Hls j (Hs3 j Hj)) as [b Hb].
    destruct (Heff j b (Hs3 j Hj) Hb) as (b' & Hb' & Hact & _).
    unfold vlinks. rewrite Hb, Hb'. simpl. by rewrite Hact.
  - eapply sseg_ext; [|exact Hr]. intros j Hj. destruct (Hls j (Hs2 j Hj)) as [b Hb].
    destruct (Heff j b (Hs2 j Hj) Hb) as (b' & Hb' & _ & Hres & _).
    unfold rnext. rewrite Hb, Hb'. simpl. by rewrite Hres.
  - intros j b' Hj Hb'. destruct (Hls j Hj) as [b Hb].
    destruct (Heff j b Hj Hb) as (b'' & Hb'' & Havl & Hres & Hact). simplify_eq.
    destruct (Hf j b Hj Hb) as (_ & H2 & H3). rewrite Havl, Hres. done.
Qed.

Lemma links_rep_reserved w w' c k k' ls bs rs rs' av :
  links_rep w c k ls bs rs av ->
  controls w' !! c = Some k' ->
  active_head k' = active_head k /\ active_tail k' = active_tail k /\
    reserved_head k' = head rs' /\ available_head k' = available_head k ->
  (forall j b, j ∈ ls -> blocks w !! j = Some b -> exists b', blocks w' !! j = Some b' /\
     avl b' = avl b /\ act b' = act b /\
     if decide (j ∈ rs') then True else reserved_next b' = None) ->
  rs' ⊆ ls -> NoDup rs' -> sseg Some (rnext w') rs' None ->
  links_rep w' c k' ls bs rs' av.
Proof.
  intros [Hk Hls (Hs1 & Hs2 & Hs3) (Hn1 & Hn2 & Hn3) [Hh Ht] Hrh Hvh Ha Hv Hr Hf] Hk' (? & ? & Hr' & Hv')
    Heff Hsub Hnd Hd.
  split; try done; try (split; congruence); try congruence.
  - intros j Hj. destruct (Hls j Hj) as [b Hb]. destruct (Heff j b Hj Hb) as (b' & Hb' & _). eauto.
  - eapply dseg_ext; [|exact Ha]. intros j Hj. destruct (Hls j (Hs1 j Hj)) as [b Hb].
    destruct (Heff j b (Hs1 j Hj) Hb) as (b' & Hb' & _ & Hact & _).
    unfold alinks. rewrite Hb, Hb'. simpl. by rewrite Hact.
  - eapply dseg_ext; [|exact Hv]. intros j Hj. destruct (Hls j (Hs3 j Hj)) as [b Hb].
    destruct (Heff j b (Hs3 j Hj) Hb) as (b' & Hb' & Havl & _).
    unfold vlinks. rewrite Hb, Hb'. simpl. by rewrite Havl.
  - intros j b' Hj Hb'. destruct (Hls j Hj) as [b Hb].
    destruct (Heff j b Hj Hb) as (b'' & Hb'' & Havl & Hact & Hres). simplify_eq.
    destruct (Hf j b Hj Hb) as (H1 & H2 & _). rewrite Havl, Hact. done.
Qed.

Lemma same_fields_refl c w : same_fields c w w.
Proof. by split. Qed.

Lemma same_fields_trans c w1 w2 w3 :
  same_fields c w1 w2 -> same_fields c w2 w3 -> same_fields c w1 w3.
Proof.
  intros [A1 A2 A3 A4 A5 A6] [B1 B2 B3 B4 B5 B6].
  split; [intros j; by rewrite B1|intros c' Hc; by rewrite B2, A2|congruence..].
Qed.

(** A heap that differs by link writes given block by block. *)
Lemma same_fields_intro c w w' (F : loc -> block_type T -> block_type T) :
  (forall j, blocks w' !! j = F j <$> blocks w !! j) ->
  (forall j b, core (F j b) = core b) ->
  (forall c', c' <> c -> controls w' !! c' = controls w !! c') ->
  hives w' = hives w -> ledger w' = ledger w -> next_loc w' = next_loc w ->
  requests w' = requests w -> same_fields c w w'.
Proof.
  intros HF Hc ? ? ? ? ?. split; try done. intros j. unfold core_of. rewrite HF.
  destruct (blocks w !! j); simpl; [by rewrite Hc|done].
Qed.

(** The writes of [available_add], block by block. *)
Definition added_available av l j b : block_type T :=
  if decide (l = j) then with_avl (AvailablePart None (head av) true) b
  else if decide (head av = Some j) then with_available_prev (Some l) b else b.

Lemma available_add_run w c k ls bs rs av l :
  links_rep w c k ls bs rs av -> l ∈ ls -> l ∉ av ->
  exists w', available_add c l w = (Ret tt, w') /\
    controls w' = <[c := with_available_head (Some l) k]> (controls w) /\
    (forall j, blocks w' !! j = added_available av l j <$> blocks w !! j) /\
    same_fields c w w'.
Proof.
  intros [Hk Hls (Hs1 & Hs2 & Hs3) _ _ _ Hvh _ _ _ _] Hl Hav.
  pose proof (Hls l Hl) as Hbl. unfold available_add. steps. rewrite Hvh.
  assert (forall h, head av = Some h -> is_Some (blocks w !! h) /\ h <> l) as Hhd.
  { intros h Hh'%head_is_Some_elem. split; [apply Hls; set_solver|congruence]. }
  assert (forall w', controls w' = <[c := with_available_head (Some l) k]> (controls w) ->
    (forall j, blocks w' !! j = added_available av l j <$> blocks w !! j) ->
    hives w' = hives w -> ledger w' = ledger w -> next_loc w' = next_loc w ->
    requests w' = requests w ->
    controls w' = <[c := with_available_head (Some l) k]> (controls w) /\
    (forall j, blocks w' !! j = added_available av l j <$> blocks w !! j) /\
    same_fields c w w') as Hfin.
  { intros w' Hc Hb ????. split; [done|]. split; [done|].
    eapply same_fields_intro; try done; [|intros; by rewrite Hc, lookup_insert_ne].
    intros j b. unfold added_available. by repeat case_decide. }
  destruct (head av) as [h|] eqn:Eh; [destruct (Hhd h eq_refl) as [Hbh Hhl]|]; steps;
    (eexists; split; [done|apply Hfin; try done]);
    intros j; unfold added_available; simpl; rewrite Eh;
    repeat (rewrite lookup_alter; case_decide; subst); try congruence;
    repeat (case_decide; subst; try congruence);
    try (destruct (blocks w !! j)); done.
Qed.

Lemma available_add_spec w c k ls bs rs av l :
  links_rep w c k ls bs rs av -> l ∈ ls -> l ∉ av ->
  exists w', available_add c l w = (Ret tt, w') /\ same_fields c w w' /\
    links_rep w' c (with_available_head (Some l) k) ls bs rs (l :: av).
Proof.
  intros R Hl Hav. destruct (available_add_run _ _ _ _ _ _ _ _ R Hl Hav) as (w' & Hrun & Hc & Hb & Hs).
  exists w'. split; [done|]. split; [done|].
  pose proof R as [Hk Hls (Hs1 & Hs2 & Hs3) (Hn1 & Hn2 & Hn3) Hh Hrh Hvh Ha Hv Hr Hf].
  apply (links_rep_available w w' c k ls bs rs av (l :: av) R); [| | | |].
  - rewrite Hc. apply lookup_insert_eq.
  - intros j b Hj Hjb. rewrite Hb, Hjb. eexists. split; [done|].
    destruct (Hf j b Hj Hjb) as (_ & H2 & _). unfold added_available.
    destruct (decide (l = j)) as [<-|Hlj].
    { by rewrite decide_True by apply elem_of_cons, or_introl, eq_refl. }
    assert (j ∈ l :: av <-> j ∈ av) as Hin by (rewrite elem_of_cons; split; [by intros [?|?]|auto]).
    rewrite (decide_ext _ _ _ _ Hin).
    destruct (decide (head av = Some j)) as [Hhj|]; simpl; [|done].
    apply head_is_Some_elem in Hhj. by rewrite decide_True in H2 |- * by done.
  - intros j [->|?]%elem_of_cons; auto.
  - by constructor.
  - eapply (dseg_insert Some (vlinks w) _ [] l av None None None None); try done.
    + unfold vlinks. rewrite Hb. destruct (Hls l Hl) as [b ->]. simpl.
      unfold added_available. rewrite decide_True by done. simpl. by rewrite hd_or_Some.
    + intros j Hj. unfold vlinks. rewrite Hb. unfold patched, added_available. simpl.
      destruct (blocks w !! j) as [b|]; simpl; [|done].
      rewrite (decide_False (P := l = j)) by (by intros ->).
      by case_decide.
Qed.

(** The writes of [available_remove], block by block. *)
Definition removed_available av1 av2 l j b : block_type T :=
  if decide (l = j) then with_avl (AvailablePart None None false) b
  else with_avl (AvailablePart
    (if decide (head av2 = Some j) then last av1 else available_prev (avl b))
    (if decide (last av1 = Some j) then head av2 else available_next (avl b))
    (in_available (avl b))) b.

Lemma available_remove_run w c k ls bs rs av1 l av2 :
  links_rep w c k ls bs rs (av1 ++ l :: av2) ->
  exists w', available_remove c l w = (Ret tt, w') /\
    controls w' !! c = Some (with_available_head (head (av1 ++ av2)) k) /\
    (forall j, blocks w' !! j = removed_available av1 av2 l j <$> blocks w !! j) /\
    same_fields c w w'.
Proof.
  intros [Hk Hls (Hs1 & Hs2 & Hs3) (_ & _ & Hn3) _ _ Hvh _ Hv _ Hf].
  assert (l ∈ ls) as Hl by set_solver. destruct (Hls l Hl) as [b Hbl].
  pose proof (dseg_lookup Some _ _ _ _ _ _ Hv) as Hlk. rewrite last_or_Some, hd_or_Some in Hlk.
  unfold vlinks in Hlk. rewrite Hbl in Hlk. simpl in Hlk. injection Hlk as Hp Hn.
  destruct (Hf l b Hl Hbl) as (_ & Hin & _). rewrite decide_True in Hin by set_solver.
  apply NoDup_app in Hn3 as (Hn1' & Hdis & Hn2'). apply NoDup_cons in Hn2' as [Hl2 Hn2'].
  assert (forall p, last av1 = Some p -> is_Some (blocks w !! p) /\ p <> l) as Hlast.
  { intros p Hp'%last_is_Some_elem. split; [apply Hls; set_solver|]. intros ->. set_solver. }
  assert (forall h, head av2 = Some h -> is_Some (blocks w !! h) /\ h <> l) as Hhead.
  { intros h Hh'%head_is_Some_elem. split; [apply Hls; set_solver|]. intros ->. set_solver. }
  assert (forall w', hives w' = hives w -> ledger w' = ledger w -> next_loc w' = next_loc w ->
    requests w' = requests w ->
    (forall c', c' <> c -> controls w' !! c' = controls w !! c') ->
    (forall j, blocks w' !! j = removed_available av1 av2 l j <$> blocks w !! j) ->
    (forall j, blocks w' !! j = removed_available av1 av2 l j <$> blocks w !! j) /\
    same_fields c w w') as Hfin.
  { intros w' ????? Hb. split; [done|]. eapply same_fields_intro; try done.
    intros j b'. unfold removed_available. by repeat case_decide. }
  unfold available_remove. steps. rewrite Hin. simpl. rewrite Hp, Hn.
  destruct (last av1) as [p|] eqn:E1; [destruct (Hlast p eq_refl)|];
  (destruct (head av2) as [h|] eqn:E2; [destruct (Hhead h eq_refl)|]); steps;
  (eexists; split; [done|]; split; [|apply Hfin; try done]); simpl.
  all: try (intros c' Hc'; by rewrite lookup_insert_ne by done).
  all: try (rewrite ?lookup_insert_eq; apply last_None in E1; subst av1; simpl; by rewrite E2).
  all: try (rewrite Hk; f_equal; destruct av1 as [|a av1]; [done|]; simpl in *; rewrite <- Hvh; by destruct k).
  all: intros j; unfold removed_available; rewrite ?E1, ?E2.
  all: repeat (rewrite lookup_alter; case_decide; subst); try congruence.
  all: repeat (case_decide; simplify_eq); rewrite ?Hbl; try (destruct (blocks w !! j) as [b'|]; simpl; [|done]).
  all: try done; f_equal; try (by destruct b' as [????????]; simpl; destruct avl0).
  all: try (destruct b' as [? ? ? ? ? ? ? []]; done).
Qed.

Lemma decide_remove (j l : loc) (l1 l2 : list loc) {A} (x y : A) :
  j <> l ->
  (if decide (j ∈ l1 ++ l :: l2) then x else y) = (if decide (j ∈ l1 ++ l2) then x else y).
Proof.
  intros Hne. apply decide_ext. rewrite !elem_of_app, elem_of_cons. naive_solver.
Qed.

Lemma available_remove_spec w c k ls bs rs av1 l av2 :
  links_rep w c k ls bs rs (av1 ++ l :: av2) ->
  exists w', available_remove c l w = (Ret tt, w') /\ same_fields c w w' /\
    links_rep w' c (with_available_head (head (av1 ++ av2)) k) ls bs rs (av1 ++ av2).
Proof.
  intros R. destruct (available_remove_run _ _ _ _ _ _ _ _ _ R) as (w' & Hrun & Hc & Hb & Hs).
  exists w'. split; [done|]. split; [done|].
  pose proof R as [_ Hls (_ & _ & Hs3) (_ & _ & Hn3) _ _ _ _ Hv _ Hf].
  pose proof Hn3 as Hn3'. rewrite <- Permutation_middle in Hn3'. apply NoDup_cons in Hn3' as [Hl Hnd].
  apply (links_rep_available w w' c k ls bs rs _ (av1 ++ av2) R Hc); [| |done|].
  - intros j b Hj Hjb. rewrite Hb, Hjb. eexists. split; [done|].
    destruct (Hf j b Hj Hjb) as (_ & H2 & _). unfold removed_available.
    destruct (decide (l = j)) as [<-|Hlj].
    { by rewrite decide_False. }
    split; [done|]. split; [done|]. rewrite decide_remove in H2 by done.
    case_decide as Hin; simpl; [done|].
    rewrite elem_of_app in Hin. rewrite H2. simpl.
    rewrite !decide_False; [done| |].
    + intros H%last_is_Some_elem. auto.
    + intros H%head_is_Some_elem. auto.
  - intros j Hj. apply Hs3. rewrite elem_of_app in Hj. rewrite elem_of_app, elem_of_cons. tauto.
  - apply dseg_app in Hv as [Hv1 [_ Hv2]].
    eapply (dseg_join Some (vlinks w)); try done. intros j Hj. unfold vlinks. rewrite Hb.
    destruct (blocks w !! j) as [b|]; simpl; [|done].
    unfold patched, removed_available. rewrite hd_or_Some, last_or_Some.
    by rewrite (decide_False (P := l = j)) by congruence.
Qed.

Lemma available_remove_absent w c k ls bs rs av l :
  links_rep w c k ls bs rs av -> l ∈ ls -> l ∉ av -> available_remove c l w = (Ret tt, w).
Proof.
  intros [_ Hls _ _ _ _ _ _ _ _ Hf] Hl Hav. destruct (Hls l Hl) as [b Hb].
  destruct (Hf l b Hl Hb) as (_ & H & _). rewrite decide_False in H by done.
  unfold available_remove. steps. by rewrite H.
Qed.

(** The writes of [active_append], block by block. *)
Definition appended_active (o : Z) bs l j b : block_type T :=
  if decide (l = j) then with_act (ActivePart (last bs) None o true) b
  else if decide (last bs = Some j) then with_active_next (Some l) b else b.

Definition appended_control l k : control_type :=
  with_active_tail (Some l) (
    (match active_tail k with Some _ => id | None => with_active_head (Some l) end)
      (with_next_order (u64 (next_block_order k + 1)) k)).

Lemma active_append_run w c k ls bs rs av l :
  links_rep w c k ls bs rs av -> l ∈ ls -> l ∉ bs ->
  exists w', active_append c l w = (Ret tt, w') /\
    controls w' !! c = Some (appended_control l k) /\
    (forall j, blocks w' !! j = appended_active (next_block_order k) bs l j <$> blocks w !! j) /\
    same_fields c w w'.
Proof.
  intros [Hk Hls (Hs1 & Hs2 & Hs3) _ [_ Ht] _ _ _ _ _ _] Hl Hbs.
  pose proof (Hls l Hl) as Hbl. unfold active_append, appended_control. steps. rewrite Ht.
  assert (forall h, last bs = Some h -> is_Some (blocks w !! h) /\ h <> l) as Hlast.
  { intros h Hh'%last_is_Some_elem. split; [apply Hls; set_solver|congruence]. }
  destruct (last bs) as [h|] eqn:Eh; [destruct (Hlast h eq_refl) as [Hbh Hhl]|]; steps;
    (eexists; split; [done|]; split; [simpl; rewrite ?lookup_insert_eq; done|]);
    (match goal with |- ?A /\ _ => assert A as Hj; [|split; [exact Hj|]] end; simpl).
  all: try (eapply same_fields_intro; [exact Hj| |..]; simpl; try done;
    [intros j b; unfold appended_active; repeat case_decide; done
    |intros; rewrite ?lookup_insert_ne by done; done]).
  all: intros j; unfold appended_active; rewrite Eh;
    repeat (rewrite lookup_alter; case_decide; subst); try congruence;
    repeat (case_decide; subst; try congruence);
    try (destruct (blocks w !! j)); done.
Qed.

Lemma active_append_spec w c k ls bs rs av l :
  links_rep w c k ls bs rs av -> l ∈ ls -> l ∉ bs ->
  exists w', active_append c l w = (Ret tt, w') /\ same_fields c w w' /\
    links_rep w' c (appended_control l k) ls (bs ++ [l]) rs av.
Proof.
  intros R Hl Hbs.
  destruct (active_append_run _ _ _ _ _ _ _ _ R Hl Hbs) as (w' & Hrun & Hc & Hb & Hs).
  exists w'. split; [done|]. split; [done|].
  pose proof R as [Hk Hls (Hs1 & Hs2 & Hs3) (Hn1 & Hn2 & Hn3) [Hh Ht] Hrh Hvh Ha Hv Hr Hf].
  apply (links_rep_active w w' c k (appended_control l k) ls bs (bs ++ [l]) rs av R Hc); [| | | |].
  - unfold appended_control. rewrite Ht, last_snoc.
    destruct bs as [|h bs]; [done|].
    destruct (last (h :: bs)) eqn:E; [|by apply last_None in E]. done.
  - intros j b Hj Hjb. rewrite Hb, Hjb. eexists. split; [done|].
    destruct (Hf j b Hj Hjb) as (H1 & _). unfold appended_active.
    destruct (decide (l = j)) as [<-|Hlj].
    { by rewrite decide_True by (apply elem_of_app; right; by apply list_elem_of_singleton). }
    assert (j ∈ bs ++ [l] <-> j ∈ bs) as Hin.
    { rewrite elem_of_app, list_elem_of_singleton. naive_solver. }
    rewrite (decide_ext _ _ _ _ Hin).
    destruct (decide (last bs = Some j)) as [Hhj|]; simpl; [|done].
    apply last_is_Some_elem in Hhj. by rewrite decide_True in H1 |- * by done.
  - intros j [?| ->%list_elem_of_singleton]%elem_of_app; auto.
  - apply NoDup_app. split; [done|]. split; [|apply NoDup_singleton].
    intros j Hj ->%list_elem_of_singleton. done.
  - eapply (dseg_insert Some (alinks w) _ bs l [] None None None None); try done.
    + by rewrite app_nil_r.
    + by rewrite app_nil_r.
    + unfold alinks. rewrite Hb. destruct (Hls l Hl) as [b ->]. simpl.
      unfold appended_active. rewrite decide_True by done. simpl. by rewrite last_or_Some.
    + intros j Hj. rewrite app_nil_r in Hj. unfold alinks. rewrite Hb. unfold patched, appended_active.
      simpl. destruct (blocks w !! j) as [b|]; simpl; [|done].
      rewrite (decide_False (P := l = j)) by (by intros ->).
      by case_decide.
Qed.

(** The writes of [active_remove], block by block. *)
Definition removed_active bs1 bs2 l j b : block_type T :=
  if decide (l = j) then with_act (ActivePart None None (order (act b)) false) b
  else with_act (ActivePart
    (if decide (head bs2 = Some j) then last bs1 else active_prev (act b))
    (if decide (last bs1 = Some j) then head bs2 else active_next (act b))
    (order (act b)) (active (act b))) b.

Definition removed_control bs1 bs2 k : control_type :=
  with_active_head (head (bs1 ++ bs2)) (with_active_tail (last (bs1 ++ bs2)) k).

Lemma active_remove_run w c k ls bs1 l bs2 rs av :
  links_rep w c k ls (bs1 ++ l :: bs2) rs av ->
  exists w', active_remove c l w = (Ret tt, w') /\
    controls w' !! c = Some (removed_control bs1 bs2 k) /\
    (forall j, blocks w' !! j = removed_active bs1 bs2 l j <$> blocks w !! j) /\
    same_fields c w w'.
Proof.
  intros [Hk Hls (Hs1 & Hs2 & Hs3) (Hn1 & _) [Hh Ht] _ _ Ha _ _ Hf].
  assert (l ∈ ls) as Hl by set_solver. destruct (Hls l Hl) as [b Hbl].
  pose proof (dseg_lookup Some _ _ _ _ _ _ Ha) as Hlk. rewrite last_or_Some, hd_or_Some in Hlk.
  unfold alinks in Hlk. rewrite Hbl in Hlk. simpl in Hlk. injection Hlk as Hp Hn.
  apply NoDup_app in Hn1 as (Hn1' & Hdis & Hn2'). apply NoDup_cons in Hn2' as [Hl2 Hn2'].
  assert (forall p, last bs1 = Some p -> is_Some (blocks w !! p) /\ p <> l) as Hlast.
  { intros p Hp'%last_is_Some_elem. split; [apply Hls; set_solver|]. intros ->. set_solver. }
  assert (forall h, head bs2 = Some h -> is_Some (blocks w !! h) /\ h <> l) as Hhead.
  { intros h Hh'%head_is_Some_elem. split; [apply Hls; set_solver|]. intros ->. set_solver. }
  assert (head (bs1 ++ bs2) = match bs1 with [] => head bs2 | _ => active_head k end) as Hhd.
  { destruct bs1; [done|]. by rewrite Hh. }
  assert (last (bs1 ++ bs2) = match bs2 with [] => last bs1 | _ => active_tail k end) as Htl.
  { destruct bs2 as [|y bs2]; [by rewrite app_nil_r|].
    by rewrite Ht, last_app_cons, last_app_cons. }
  clear Hs1 Hs2 Hs3 Hls Hdis Hn1' Hn2' Ha Hf.
  unfold active_remove, removed_control. steps. rewrite Hp, Hn, Hhd, Htl.
  destruct (last bs1) as [p|] eqn:E1; [destruct (Hlast p eq_refl)|apply last_None in E1; subst bs1];
  (destruct (head bs2) as [h|] eqn:E2; [destruct (Hhead h eq_refl)|apply head_None in E2; subst bs2]);
  clear Hlast Hhead; steps;
  (eexists; split; [done|]; split; [|
    match goal with |- ?A /\ _ => assert A as Hj; [|split; [exact Hj|]] end; simpl]).
  all: try (eapply same_fields_intro; [exact Hj| |..]; simpl; try done;
    first [intros j b'; unfold removed_active; by repeat case_decide
          |intros; rewrite ?lookup_insert_ne by done; done]).
  all: try (simpl; rewrite ?lookup_insert_eq, ?Hk; f_equal; try (destruct bs1; [done|]);
    try (destruct bs2; [done|]); by destruct k).
  all: intros j; unfold removed_active; rewrite ?E1, ?E2.
  all: repeat (rewrite lookup_alter; case_decide; subst); try congruence;
    repeat (case_decide; simplify_eq); rewrite ?Hbl;
    try (destruct (blocks w !! j) as [b'|]; simpl; [|done]);
    try done; f_equal; try (by destruct b' as [????? [] ??]); by destruct b as [????? [] ??].
Qed.

Lemma active_remove_spec w c k ls bs1 l bs2 rs av :
  links_rep w c k ls (bs1 ++ l :: bs2) rs av ->
  exists w', active_remove c l w = (Ret tt, w') /\ same_fields c w w' /\
    links_rep w' c (removed_control bs1 bs2 k) ls (bs1 ++ bs2) rs av.
Proof.
  intros R. destruct (active_remove_run _ _ _ _ _ _ _ _ _ R) as (w' & Hrun & Hc & Hb & Hs).
  exists w'. split; [done|]. split; [done|].
  pose proof R as [_ Hls (Hs1 & _) (Hn1 & _) _ _ _ Ha _ _ Hf].
  pose proof Hn1 as Hn1'. rewrite <- Permutation_middle in Hn1'. apply NoDup_cons in Hn1' as [Hl Hnd].
  apply (links_rep_active w w' c k _ ls _ (bs1 ++ bs2) rs av R Hc); [done| | |done|].
  - intros j b Hj Hjb. rewrite Hb, Hjb. eexists. split; [done|].
    destruct (Hf j b Hj Hjb) as (H1 & _). unfold removed_active.
    destruct (decide (l = j)) as [<-|Hlj].
    { by rewrite decide_False. }
    split; [done|]. split; [done|]. rewrite decide_remove in H1 by done.
    case_decide as Hin; simpl; [done|].
    rewrite elem_of_app in Hin. destruct H1 as (-> & -> & ->).
    rewrite !decide_False; [done| |].
    + intros H%last_is_Some_elem. auto.
    + intros H%head_is_Some_elem. auto.
  - intros j Hj. apply Hs1. rewrite elem_of_app in Hj. rewrite elem_of_app, elem_of_cons. tauto.
  - apply dseg_app in Ha as [Ha1 [_ Ha2]].
    eapply (dseg_join Some (alinks w)); try done. intros j Hj. unfold alinks. rewrite Hb.
    destruct (blocks w !! j) as [b|]; simpl; [|done].
    unfold patched, removed_active. rewrite hd_or_Some, last_or_Some.
    by rewrite (decide_False (P := l = j)) by congruence.
Qed.
End list_operations.

(** ** The invariant of a hive

    When a heap holds a well-formed hive ([hive_rep]): its blocks form the
    three lists of its control block, every block's slots encode a layout, the
    counters are those of the layouts, the capacities respect the limits, and
    the allocations of the hive are exactly its blocks and its control block.
    The specifications of the operations are stated with [post], which excludes
    [Stuck]. *)

Section post.
Context {T : Type}.
Implicit Types (w : world T).

(** The result is a value that satisfies [Q] or an exception that satisfies
    [E]; it is never [Stuck]. *)
Definition post {A} (r : outcome A * world T) (Q : A -> world T -> Prop)
    (E : exn -> world T -> Prop) : Prop :=
  match r with
  | (Ret a, w) => Q a w
  | (Raise e, w) => E e w
  | (Stuck, _) => False
  end.

Definition no_exn : exn -> world T -> Prop := fun _ _ => False.

Lemma post_bind {A B} (m : M T A) (f : A -> M T B) w Q E :
  post (m w) (fun a w' => post (f a w') Q E) E -> post (bind m f w) Q E.
Proof. unfold bind. by destruct (m w) as [[] ?]. Qed.

Lemma post_ret {A} (m : M T A) w w' a (Q : A -> world T -> Prop) E :
  m w = (Ret a, w') -> Q a w' -> post (m w) Q E.
Proof. by intros ->. Qed.

Lemma post_mono {A} (r : outcome A * world T) (Q Q' : A -> world T -> Prop) E E' :
  post r Q E -> (forall a w, Q a w -> Q' a w) -> (forall e w, E e w -> E' e w) -> post r Q' E'.
Proof. destruct r as [[] ?]; simpl; auto. Qed.

Lemma post_on_raise {A} (m : M T A) h w Q E :
  post (m w) Q (fun e w' => post (h w') (fun _ => E e) no_exn) -> post (on_raise m h w) Q E.
Proof.
  unfold on_raise. destruct (m w) as [[a|e|] w']; simpl; [done| |done].
  destruct (h w') as [[]?]; simpl; done.
Qed.
End post.

Section invariant.
Context {T : Type} `{cfg : Config}.
Implicit Types (l j c this : loc) (b : block_type T) (k : control_type).
Implicit Types (w : world T) (bs rs av ls : list loc) (f : skipfield T).

(** An entry names a block and the layout of its slots. *)
Abbreviation entry := (loc * list (segment T))%type.
Implicit Types (e : entry) (es cs : list entry) (F : list (loc * allocation)).

(** What the entries contain, in order. *)
Fixpoint contents es : list T :=
  match es with [] => [] | e :: es' => elems e.2 ++ contents es' end.

(** Active blocks and reserved ones. *)
Definition entries cs rs : list entry := cs ++ ((fun l => (l, [])) <$> rs).

Definition block_capacity w l : Z :=
  match core_of w l with Some (_, f) => capacity f | None => 0 end.

Definition owned_by w l : list (loc * allocation) :=
  match core_of w l with
  | Some (_, ba, sa, ka, f) => [(ka, ASkip (capacity f)); (sa, ASlots (capacity f)); (ba, ABlock)]
  | None => []
  end.

Fixpoint owned w ls : list (loc * allocation) :=
  match ls with [] => [] | l :: ls' => owned_by w l ++ owned w ls' end.

Fixpoint total_capacity w ls : Z :=
  match ls with [] => 0 | l :: ls' => (block_capacity w l + total_capacity w ls')%Z end.

(** Block [e.1] belongs to control [c], its slots encode [e.2], its capacity
    respects the limits, and it is in the available list [av] exactly when it
    is active and has room. *)
Definition block_ok w c (lim : hive_limits) av e : Prop :=
  exists ba sa ka f fs, core_of w e.1 = Some (c, ba, sa, ka, f) /\ block_rep f e.2 fs /\
    within lim (capacity f) = true /\ (e.1 ∈ av <-> e.2 <> [] /\ has_room f = true).

(** Locations that were never handed out hold nothing. *)
Definition fresh w : Prop := forall l, (next_loc w <= l)%Z ->
  blocks w !! l = None /\ controls w !! l = None /\ ledger w !! l = None.

(** The control block [c] of hive [this], its active blocks [cs], its reserved
    blocks [rs] and its blocks with room [av]; [F] are the allocations of
    everybody else. *)
Record store_rep w this c k lim cs rs av F : Prop := StoreRep {
  sr_links : links_rep w c k (entries cs rs).*1 cs.*1 rs av;
  sr_nodup : NoDup (entries cs rs).*1;
  sr_owner : owner k = this;
  sr_nonempty : Forall (fun e => e.2 <> []) cs;
  sr_blocks : Forall (block_ok w c lim av) (entries cs rs);
  sr_size : ctl_size k = Z.of_nat (length (contents cs));
  sr_capacity : ctl_capacity k = total_capacity w (entries cs rs).*1;
  sr_bound : (ctl_capacity k <= Z.max 0 max_size)%Z;
  sr_ledger : map_to_list (ledger w) ≡ₚ
    (control_allocation k, AControl) :: owned w (entries cs rs).*1 ++ F;
  sr_fresh : fresh w;
}.

Definition limits_ok (lim : hive_limits) : Prop :=
  is_within_hard_limits lim = true /\ (0 <= lim_min lim)%Z.

(** Hive [this]. *)
Definition hive_rep w this cs rs av F : Prop :=
  exists h, hives w !! this = Some h /\ limits_ok (limits_ h) /\
    match control_ h with
    | None => cs = [] /\ rs = [] /\ av = [] /\ fresh w /\ map_to_list (ledger w) ≡ₚ F
    | Some c => exists k, store_rep w this c k (limits_ h) cs rs av F
    end.

(** The element at slot [i] of block [l]. *)
Definition elem_at w l (i : Z) : option T := b ← blocks w !! l; element (field b) i.

(** ** The heap parts of the invariant *)

Lemma contents_app es1 es2 : contents (es1 ++ es2) = contents es1 ++ contents es2.
Proof. induction es1; simpl; [done|]. by rewrite IHes1, app_assoc. Qed.

Lemma contents_entries cs rs : contents (entries cs rs) = contents cs.
Proof.
  unfold entries. rewrite contents_app.
  assert (contents ((fun l => (l, [])) <$> rs) = []) as ->; [|by rewrite app_nil_r].
  by induction rs.
Qed.

Lemma entries_fst cs rs : (entries cs rs).*1 = cs.*1 ++ rs.
Proof.
  unfold entries. rewrite fmap_app. f_equal. induction rs; csimpl; [done|]. by f_equal.
Qed.

Lemma owned_app w ls1 ls2 : owned w (ls1 ++ ls2) = owned w ls1 ++ owned w ls2.
Proof. induction ls1; simpl; [done|]. by rewrite IHls1, app_assoc. Qed.

Lemma total_capacity_app w ls1 ls2 :
  total_capacity w (ls1 ++ ls2) = (total_capacity w ls1 + total_capacity w ls2)%Z.
Proof. induction ls1; simpl; lia. Qed.

#[global] Instance owned_perm w : Proper (Permutation ==> Permutation) (owned w).
Proof.
  intros l1 l2 HP. induction HP; simpl; [done| | |by etrans].
  - by rewrite IHHP.
  - by rewrite !app_assoc, (Permutation_app_comm (owned_by w x)).
Qed.

#[global] Instance total_capacity_perm w : Proper (Permutation ==> eq) (total_capacity w).
Proof. intros l1 l2 HP. induction HP; simpl; lia. Qed.

Lemma owned_ext w w' ls :
  (forall j, j ∈ ls -> owned_by w' j = owned_by w j) -> owned w' ls = owned w ls.
Proof.
  induction ls as [|l ls IH]; intros Heq; simpl; [done|].
  rewrite Heq by apply list_elem_of_here. f_equal. apply IH. intros j Hj. apply Heq. by right.
Qed.

Lemma total_capacity_ext w w' ls :
  (forall j, j ∈ ls -> block_capacity w' j = block_capacity w j) ->
  total_capacity w' ls = total_capacity w ls.
Proof.
  induction ls as [|l ls IH]; intros Heq; simpl; [done|].
  rewrite Heq by apply list_elem_of_here. f_equal. apply IH. intros j Hj. apply Heq. by right.
Qed.

Lemma block_ok_ext w w' c lim av av' e :
  core_of w' e.1 = core_of w e.1 -> (e.1 ∈ av' <-> e.1 ∈ av) ->
  block_ok w c lim av e -> block_ok w' c lim av' e.
Proof.
  intros Hc Hav (ba & sa & ka & f & fs & ? & ? & ? & ?).
  exists ba, sa, ka, f, fs. rewrite Hc, Hav. done.
Qed.

Lemma has_room_iff f (lay : list (segment T)) fs :
  block_rep f lay fs -> has_room f = true <-> (Z.of_nat (length (elems lay)) < capacity f)%Z.
Proof.
  intros R. unfold has_room. rewrite (free_list_nil_npos _ _ _ R).
  pose proof (elems_length_le lay (shape_widths _ (rep_shape _ _ _ R))) as Hle.
  pose proof (rep_bound _ _ _ R) as Hb. rewrite (rep_high_water _ _ _ R).
  pose proof (rep_starts _ _ _ R) as Hst.
  assert (forall base (l : list (segment T)), widths_pos l -> shape l ->
    if decide (starts base l = []) then Z.of_nat (length (elems l)) = width l
    else (Z.of_nat (length (elems l)) < width l)%Z) as Hw.
  { clear. intros base l. revert base. induction l as [|[x|n] l IH]; intros base; simpl; [done| |].
    - intros [? Hp] Hs. specialize (IH (base + 1)%Z Hp Hs). case_decide; lia.
    - intros [? Hp] [Hn Hs]. pose proof (elems_length_le l Hp). lia. }
  specialize (Hw 0%Z lay (shape_widths _ (rep_shape _ _ _ R)) (rep_shape _ _ _ R)).
  destruct fs as [|s fs]; simpl.
  - apply Permutation_nil in Hst. rewrite decide_True in Hw by done. rewrite Z.ltb_lt. lia.
  - case_decide as E; [|split; [lia|done]]. rewrite E in Hst. symmetry in Hst.
    by apply Permutation_nil_cons in Hst.
Qed.

(** ** Changing one block *)

(** The blocks of [w] and [w'] have the same links. *)
Definition same_links ls w w' : Prop := forall j b, j ∈ ls -> blocks w !! j = Some b ->
  exists b', blocks w' !! j = Some b' /\ act b' = act b /\ avl b' = avl b /\
    reserved_next b' = reserved_next b.

Definition same_heads k k' : Prop :=
  active_head k' = active_head k /\ active_tail k' = active_tail k /\
  reserved_head k' = reserved_head k /\ available_head k' = available_head k.

Lemma links_rep_ext w w' c k k' ls bs rs av :
  links_rep w c k ls bs rs av -> controls w' !! c = Some k' -> same_heads k k' ->
  same_links ls w w' -> links_rep w' c k' ls bs rs av.
Proof.
  intros [Hk Hls (Hs1 & Hs2 & Hs3) Hn [Hh Ht] Hrh Hvh Ha Hv Hr Hf] Hk' (? & ? & ? & ?) Heff.
  assert (forall j, j ∈ ls -> exists b b', blocks w !! j = Some b /\ blocks w' !! j = Some b' /\
    act b' = act b /\ avl b' = avl b /\ reserved_next b' = reserved_next b) as Heff'.
  { intros j Hj. destruct (Hls j Hj) as [b Hb]. destruct (Heff j b Hj Hb) as (b' & ?). eauto. }
  split; try done; try congruence; try (split; congruence).
  - intros j Hj. destruct (Heff' j Hj) as (? & b' & ? & ? & _). eauto.
  - eapply dseg_ext; [|exact Ha]. intros j Hj.
    destruct (Heff' j (Hs1 j Hj)) as (b & b' & Hb & Hb' & E1 & E2 & E3).
    unfold alinks. rewrite Hb, Hb'. simpl. by rewrite E1.
  - eapply dseg_ext; [|exact Hv]. intros j Hj.
    destruct (Heff' j (Hs3 j Hj)) as (b & b' & Hb & Hb' & E1 & E2 & E3).
    unfold vlinks. rewrite Hb, Hb'. simpl. by rewrite E2.
  - eapply sseg_ext; [|exact Hr]. intros j Hj.
    destruct (Heff' j (Hs2 j Hj)) as (b & b' & Hb & Hb' & E1 & E2 & E3).
    unfold rnext. rewrite Hb, Hb'. simpl. by rewrite E3.
  - intros j b' Hj Hb'. destruct (Heff' j Hj) as (b & b'' & Hb & Hb'' & E1 & E2 & E3).
    simplify_eq. rewrite E1, E2, E3. eauto.
Qed.

(** Which blocks the lists name is all that matters about [ls]. *)
Lemma links_rep_perm w c k ls ls' bs rs av :
  ls ≡ₚ ls' -> links_rep w c k ls bs rs av -> links_rep w c k ls' bs rs av.
Proof.
  intros HP [Hk Hls (Hs1 & Hs2 & Hs3) Hn Hh Hrh Hvh Ha Hv Hr Hf].
  assert (forall j, j ∈ ls' -> j ∈ ls) as Hin by (intros j; by rewrite HP).
  split; eauto. repeat split; intros j Hj; rewrite <- HP; auto.
Qed.

(** The slots of block [l] become [s]. *)
Definition set_field_at l (s : skipfield T) w : world T :=
  set_blocks (alter (with_field s) l (blocks w)) w.

Lemma on_field_ok {A} w l b (g : skipfield T -> option (skipfield T * A)) s a :
  blocks w !! l = Some b -> g (field b) = Some (s, a) ->
  on_field l g w = (Ret a, set_field_at l s w).
Proof.
  intros Hb Hg. unfold on_field, bind, get_block, read_cell. rewrite Hb, Hg.
  unfold put_block. rewrite Hb. unfold ret, set_field_at. do 2 f_equal.
  by rewrite (alter_alt_Some _ _ _ b).
Qed.

Lemma on_field__ok w l b (g : skipfield T -> option (skipfield T)) s :
  blocks w !! l = Some b -> g (field b) = Some s ->
  on_field_ l g w = (Ret tt, set_field_at l s w).
Proof. intros Hb Hg. apply (on_field_ok w l b); [done|]. by rewrite Hg. Qed.

Lemma same_links_field ls w l s : same_links ls w (set_field_at l s w).
Proof.
  intros j b _ Hb. unfold set_field_at. simpl. rewrite lookup_alter.
  case_decide; [subst; exists (with_field s b); by rewrite Hb|by exists b].
Qed.

Lemma core_of_field w l s j :
  core_of (set_field_at l s w) j =
  if decide (l = j) then (fun t => (t.1, s)) <$> core_of w j else core_of w j.
Proof.
  unfold core_of, set_field_at. simpl. rewrite lookup_alter.
  case_decide; [|done]. subst. by destruct (blocks w !! j).
Qed.

Lemma core_of_block w l c ba sa ka f :
  core_of w l = Some (c, ba, sa, ka, f) -> exists b, blocks w !! l = Some b /\
    control b = c /\ block_allocation b = ba /\ slot_allocation b = sa /\
    skip_allocation b = ka /\ field b = f.
Proof.
  unfold core_of. destruct (blocks w !! l) as [b|]; simpl; [|done].
  intros [= <- <- <- <- <-]. by exists b.
Qed.

(** What an operation on the blocks of control [c] leaves alone. *)
Record same_store c w w' : Prop := SameStore {
  ss_controls : forall c', c' <> c -> controls w' !! c' = controls w !! c';
  ss_hives : hives w' = hives w;
  ss_ledger : ledger w' = ledger w;
  ss_next : next_loc w' = next_loc w;
  ss_requests : requests w' = requests w;
}.

Lemma same_store_trans c w1 w2 w3 :
  same_store c w1 w2 -> same_store c w2 w3 -> same_store c w1 w3.
Proof.
  intros [A1 A2 A3 A4 A5] [B1 B2 B3 B4 B5].
  split; [intros c' Hc; by rewrite B1, A1|congruence..].
Qed.

Lemma same_fields_store c w w' : same_fields c w w' -> same_store c w w'.
Proof. by intros []. Qed.

Lemma same_store_field c w l s : same_store c w (set_field_at l s w).
Proof. by split. Qed.

Lemma same_store_control c w k : same_store c w (set_controls (<[c := k]> (controls w)) w).
Proof. split; try done. intros c' Hc. simpl. by rewrite lookup_insert_ne. Qed.

Lemma fresh_ext c k w w' :
  fresh w -> controls w !! c = Some k -> next_loc w' = next_loc w -> ledger w' = ledger w ->
  (forall c', c' <> c -> controls w' !! c' = controls w !! c') ->
  (forall j, core_of w' j = None <-> core_of w j = None) -> fresh w'.
Proof.
  intros Hf Hk Hn Hl Hc Hb j Hj. rewrite Hn in Hj. destruct (Hf j Hj) as (H1 & H2 & H3).
  rewrite Hl. repeat split; [| |done].
  - assert (core_of w' j = None) as Hcore by (apply Hb; unfold core_of; by rewrite H1).
    unfold core_of in Hcore. by destruct (blocks w' !! j).
  - rewrite Hc; [done|]. congruence.
Qed.

(** Block [l] changes its slots, its layout and its place in the lists. *)
Lemma store_rep_update w w' this c k k' lim cs cs' rs rs' av av' F l lay lay' es0 t f f' fs' :
  store_rep w this c k lim cs rs av F ->
  entries cs rs ≡ₚ (l, lay) :: es0 -> entries cs' rs' ≡ₚ (l, lay') :: es0 ->
  core_of w l = Some (t, f) ->
  (forall j, core_of w' j = if decide (l = j) then Some (t, f') else core_of w j) ->
  same_store c w w' ->
  block_rep f' lay' fs' -> capacity f' = capacity f ->
  (forall j, j <> l -> j ∈ av' <-> j ∈ av) -> (l ∈ av' <-> lay' <> [] /\ has_room f' = true) ->
  Forall (fun e => e.2 <> []) cs' ->
  links_rep w' c k' (entries cs rs).*1 cs'.*1 rs' av' ->
  owner k' = owner k -> control_allocation k' = control_allocation k ->
  ctl_capacity k' = ctl_capacity k -> ctl_size k' = Z.of_nat (length (contents cs')) ->
  store_rep w' this c k' lim cs' rs' av' F.
Proof.
  intros [SL Snd Sown Sne Sb Ssz Scap Sbd Sled Sfr] He He' Hl Hcore [Hc Hh Hled Hn Hq] R' Hcap Hav Hlav
    Hne' SL' Ho' Hca' Hcap' Hsz'.
  assert ((entries cs' rs').*1 ≡ₚ (entries cs rs).*1) as Hfst by (by rewrite He, He').
  assert (forall j, owned_by w' j = owned_by w j) as Howned.
  { intros j. unfold owned_by. rewrite Hcore. case_decide; [|done]. subst. rewrite Hl.
    destruct t as [[[??]?]?]. by rewrite Hcap. }
  assert (forall j, block_capacity w' j = block_capacity w j) as Hbcap.
  { intros j. unfold block_capacity. rewrite Hcore. case_decide; [|done]. subst. rewrite Hl.
    by destruct t as [[[??]?]?]. }
  assert (l ∉ es0.*1) as Hl0.
  { rewrite He in Snd. csimpl in *. by apply NoDup_cons in Snd as [? _]. }
  split; try done.
  - eapply links_rep_perm; [symmetry; exact Hfst|done].
  - by rewrite Hfst.
  - congruence.
  - rewrite He'. rewrite He in Sb. apply Forall_cons in Sb as [Hbl Sb]. apply Forall_cons. split.
    + destruct Hbl as (ba & sa & ka & f0 & fs & Hc0 & R & Hw & _). simpl in *.
      rewrite Hl in Hc0. injection Hc0 as -> ->.
      exists ba, sa, ka, f', fs'. simpl. rewrite Hcore, decide_True by done. by rewrite Hcap.
    + rewrite Forall_forall in Sb |- *. intros e Hin.
      assert (l <> e.1) by (intros ->; by apply Hl0, list_elem_of_fmap_2).
      eapply block_ok_ext; [|by apply Hav|by apply Sb].
      by rewrite Hcore, decide_False.
  - rewrite Hcap', Scap, Hfst. symmetry. by apply total_capacity_ext.
  - by rewrite Hcap'.
  - rewrite Hled, Hca', Hfst, Sled. by rewrite (owned_ext w w').
  - eapply fresh_ext; [exact Sfr|apply SL|done..|].
    intros j. rewrite Hcore. case_decide; [|done]. subst. by rewrite Hl.
Qed.

(** ** Consequences *)

Lemma max_size_bound : (Z.max 0 max_size < npos)%Z.
Proof. unfold max_size, static_max_size, structural_max_size, npos. destruct constexpr_bound; lia. Qed.

Lemma contents_bound w c lim av es :
  Forall (block_ok w c lim av) es -> (Z.of_nat (length (contents es)) <= total_capacity w es.*1)%Z.
Proof.
  induction 1 as [|e es He _ IH]; [done|]. csimpl. rewrite length_app.
  destruct He as (ba & sa & ka & f & fs & Hc & R & _). unfold block_capacity at 1. rewrite Hc.
  pose proof (elems_length_le _ (shape_widths _ (rep_shape _ _ _ R))).
  pose proof (rep_bound _ _ _ R). lia.
Qed.

Lemma store_rep_counters w this c k lim cs rs av F :
  store_rep w this c k lim cs rs av F ->
  (0 <= ctl_size k <= ctl_capacity k /\ ctl_capacity k < npos)%Z.
Proof.
  intros S. pose proof (contents_bound _ _ _ _ _ (sr_blocks _ _ _ _ _ _ _ _ _ S)) as Hle.
  rewrite contents_entries in Hle. rewrite (sr_size _ _ _ _ _ _ _ _ _ S).
  pose proof (sr_capacity _ _ _ _ _ _ _ _ _ S). pose proof (sr_bound _ _ _ _ _ _ _ _ _ S).
  pose proof max_size_bound. lia.
Qed.

Lemma store_rep_hives m w this c k lim cs rs av F :
  store_rep w this c k lim cs rs av F -> store_rep (set_hives m w) this c k lim cs rs av F.
Proof.
  intros [SL Snd Sown Sne Sb Ssz Scap Sbd Sled Sfr]. split; try done.
  - eapply links_rep_ext; [exact SL|apply SL|done|]. intros j b _ Hb. by exists b.
  - by rewrite (total_capacity_ext w).
  - by rewrite (owned_ext w).
Qed.

(** A block of an entry, with its heap cell. *)
Lemma block_ok_cell w c lim av l lay :
  block_ok w c lim av (l, lay) -> exists b fs, blocks w !! l = Some b /\ control b = c /\
    block_rep (field b) lay fs /\ within lim (capacity (field b)) = true /\
    (l ∈ av <-> lay <> [] /\ has_room (field b) = true) /\
    core_of w l = Some (c, block_allocation b, slot_allocation b, skip_allocation b, field b).
Proof.
  intros (ba & sa & ka & f & fs & Hc & R & Hw & Hav). simpl in *.
  destruct (core_of_block _ _ _ _ _ _ _ Hc) as (b & Hb & <- & <- & <- & <- & <-).
  exists b, fs. eauto 10.
Qed.

Lemma entries_middle cs1 l lay cs2 rs :
  entries (cs1 ++ (l, lay) :: cs2) rs ≡ₚ (l, lay) :: entries (cs1 ++ cs2) rs.
Proof. unfold entries. by rewrite <- !app_assoc, <- app_comm_cons, <- Permutation_middle. Qed.

Lemma store_rep_entry w this c k lim cs rs av F l :
  store_rep w this c k lim cs rs av F -> l ∈ cs.*1 -> exists cs1 lay cs2,
    cs = cs1 ++ (l, lay) :: cs2 /\ lay <> [] /\ block_ok w c lim av (l, lay).
Proof.
  intros S [[l' lay] [-> Hin]]%list_elem_of_fmap. simpl.
  pose proof (sr_nonempty _ _ _ _ _ _ _ _ _ S) as Hne. rewrite Forall_forall in Hne.
  pose proof (sr_blocks _ _ _ _ _ _ _ _ _ S) as Hb. rewrite Forall_forall in Hb.
  pose proof Hin as Hin'. apply list_elem_of_split in Hin as (cs1 & cs2 & ->).
  exists cs1, lay, cs2. split; [done|]. split; [by apply (Hne (l', lay))|]. apply Hb.
  unfold entries. by apply elem_of_app; left.
Qed.

Lemma store_rep_available w this c k lim cs rs av F l :
  store_rep w this c k lim cs rs av F -> l ∈ av -> l ∈ cs.*1.
Proof.
  intros S Hl. pose proof (sr_links _ _ _ _ _ _ _ _ _ S) as L.
  destruct (lr_sub _ _ _ _ _ _ _ L) as (_ & _ & Hs). apply Hs in Hl as Hin.
  rewrite entries_fst in Hin. apply elem_of_app in Hin as [|Hr]; [done|].
  pose proof (sr_blocks _ _ _ _ _ _ _ _ _ S) as Hb. rewrite Forall_forall in Hb.
  destruct (Hb (l, [])) as (? & ? & ? & ? & ? & _ & _ & _ & Hav).
  - unfold entries. apply elem_of_app. right. by apply (list_elem_of_fmap_2 (fun l => (l, []))).
  - by apply Hav in Hl as [].
Qed.

Lemma hive_rep_control w this cs rs av F h c :
  hive_rep w this cs rs av F -> hives w !! this = Some h -> control_ h = Some c ->
  exists k, store_rep w this c k (limits_ h) cs rs av F.
Proof. intros (h' & Hh & _ & Hc) Hh' Hc'. simplify_eq. by rewrite Hc' in Hc. Qed.

Lemma hive_rep_intro w w' this c k cs rs av cs' rs' av' F h h' :
  hive_rep w this cs rs av F -> hives w !! this = Some h ->
  store_rep w' this c k (limits_ h) cs' rs' av' F -> hives w' !! this = Some h' ->
  control_ h' = Some c -> limits_ h' = limits_ h -> hive_rep w' this cs' rs' av' F.
Proof.
  intros (h0 & Hh & Hlim & _) Hh0 S Hh' Hc Hl. simplify_eq.
  exists h'. rewrite Hc, Hl. eauto.
Qed.
End invariant.
