(* ===== verification/HiveStore.v ===== *)
(** * Storage of a hive: its blocks, its spots and its iterators

    What [allocate_block], [allocate_control] and their counterparts do to the
    heap and to the allocator's ledger, on success and on failure, and how a
    block joins or leaves the invariant. *)
From stdpp Require Import sorting.
From S2P Require Import Prelude Linked HiveBlock HiveHeap HiveInv.

#[local] Open Scope Z_scope.

Section storage.
Context {T : Type} `{cfg : Config}.
Implicit Types (l j c this : loc) (b : block_type T) (k : control_type).
Implicit Types (w : world T) (bs rs av ls : list loc) (f : skipfield T) (v x : T).
Implicit Types (cs : list (loc * list (segment T))) (F X : list (loc * allocation)).

(** The allocations of [w]. *)
Definition allocs w : list (loc * allocation) := map_to_list (ledger w).

(** Same heap, same allocations; only requests and fresh locations were spent. *)
Record bumped w w' : Prop := Bumped {
  bm_blocks : blocks w' = blocks w;
  bm_controls : controls w' = controls w;
  bm_hives : hives w' = hives w;
  bm_allocs : allocs w' ≡ₚ allocs w;
  bm_next : (next_loc w <= next_loc w')%Z;
  bm_fresh : fresh w';
}.

Lemma bumped_trans w1 w2 w3 : bumped w1 w2 -> bumped w2 w3 -> bumped w1 w3.
Proof. intros [] []. split; try congruence; try lia; try done. by etrans. Qed.

Lemma core_of_blocks w w' j : blocks w' = blocks w -> core_of w' j = core_of w j.
Proof. unfold core_of. by intros ->. Qed.

Lemma owned_by_core w w' j : core_of w' j = core_of w j -> owned_by w' j = owned_by w j.
Proof. unfold owned_by. by intros ->. Qed.

Lemma block_capacity_core w w' j :
  core_of w' j = core_of w j -> block_capacity w' j = block_capacity w j.
Proof. unfold block_capacity. by intros ->. Qed.

Lemma store_rep_bumped w w' this c k lim cs rs av F :
  store_rep w this c k lim cs rs av F -> bumped w w' -> store_rep w' this c k lim cs rs av F.
Proof.
  intros [SL Snd Sown Sne Sb Ssz Scap Sbd Sled Sfr] [Hb Hc Hh Ha Hn Hf].
  assert (forall j, core_of w' j = core_of w j) as Hcore by (intros; by apply core_of_blocks).
  split; try done.
  - eapply links_rep_ext; [exact SL|rewrite Hc; apply SL|done|].
    intros j b _ Hj. rewrite Hb. by exists b.
  - eapply Forall_impl; [exact Sb|]. intros e. by apply block_ok_ext.
  - rewrite Scap. symmetry. apply total_capacity_ext. intros. by apply block_capacity_core.
  - unfold allocs in Ha. rewrite Ha, Sled. rewrite (owned_ext w w'); [done|].
    intros. by apply owned_by_core.
Qed.

(** One allocation. *)
Lemma allocate_ok w a :
  fresh w ->
  post (allocate a w)
    (fun l w' => l = next_loc w /\ blocks w' = blocks w /\ controls w' = controls w /\
       hives w' = hives w /\ allocs w' ≡ₚ (l, a) :: allocs w /\
       next_loc w' = (next_loc w + 1)%Z /\ fresh w')
    (fun e w' => e = bad_alloc /\ bumped w w').
Proof.
  intros Hf. unfold allocate. destruct (alloc_ok (requests w)); simpl.
  - destruct (Hf (next_loc w) ltac:(lia)) as (_ & _ & Hnone).
    do 4 (split; [done|]). split; [by apply map_to_list_insert|]. split; [done|].
    intros j Hj. simpl in *. rewrite lookup_insert_ne by lia. apply Hf. lia.
  - split; [done|]. split; try done.
Qed.

(** One release. *)
Lemma deallocate_ok w l a X :
  allocs w ≡ₚ (l, a) :: X ->
  exists w', deallocate l a w = (Ret tt, w') /\ w' = set_ledger (delete l (ledger w)) w /\
    allocs w' ≡ₚ X.
Proof.
  intros HP. unfold allocs in *.
  assert (ledger w !! l = Some a) as Hl.
  { apply elem_of_map_to_list. rewrite HP. apply list_elem_of_here. }
  eexists. unfold deallocate. rewrite decide_True by done. split; [done|]. split; [done|].
  simpl. rewrite <- (insert_delete_id _ _ _ Hl) in HP.
  rewrite map_to_list_insert in HP by apply lookup_delete_eq.
  by apply Permutation_cons_inv in HP.
Qed.

Lemma fresh_delete_ledger w l : fresh w -> fresh (set_ledger (delete l (ledger w)) w).
Proof.
  intros Hf j Hj. destruct (Hf j Hj) as (? & ? & ?). repeat split; try done. simpl.
  by rewrite lookup_delete_None; right.
Qed.

(** Releasing what was just allocated undoes the allocation. *)
Lemma deallocate_bumped w0 w l a :
  fresh w -> blocks w = blocks w0 -> controls w = controls w0 -> hives w = hives w0 ->
  allocs w ≡ₚ (l, a) :: allocs w0 -> (next_loc w0 <= next_loc w)%Z ->
  exists w', deallocate l a w = (Ret tt, w') /\ bumped w0 w'.
Proof.
  intros Hf ? ? ? HP ?. destruct (deallocate_ok _ _ _ _ HP) as (w' & Hd & -> & Ha).
  eexists. split; [exact Hd|]. split; try done. by apply fresh_delete_ledger.
Qed.

Definition fresh_block c l sa ka (cap : Z) : block_type T :=
  Block c l sa ka (fresh_field cap) (ActivePart None None 0 false) None
    (AvailablePart None None false).

Lemma allocate_block_ok w c cap :
  fresh w ->
  post (allocate_block c cap w)
    (fun l w' => (next_loc w <= l < next_loc w')%Z /\ fresh w' /\
       controls w' = controls w /\ hives w' = hives w /\
       exists sa ka, blocks w' = <[l := fresh_block c l sa ka cap]> (blocks w) /\
         allocs w' ≡ₚ [(ka, ASkip cap); (sa, ASlots cap); (l, ABlock)] ++ allocs w)
    (fun e w' => e = bad_alloc /\ bumped w w').
Proof.
  intros Hf. unfold allocate_block. apply post_bind.
  eapply post_mono; [by apply allocate_ok| |done].
  intros l w1 (-> & B1 & C1 & H1 & A1 & N1 & F1). apply post_bind, post_on_raise.
  eapply post_mono; [by apply allocate_ok| |].
  2: { intros e w2 (-> & [B2 C2 H2 A2 N2 F2]).
       destruct (deallocate_bumped w w2 (next_loc w) ABlock) as (w3 & -> & ?);
         [done|congruence..| |lia|done].
       by rewrite A2. }
  intros sa w2 (-> & B2 & C2 & H2 & A2 & N2 & F2). apply post_bind, post_on_raise.
  eapply post_mono; [by apply allocate_ok| |].
  2: { intros e w3 (-> & [B3 C3 H3 A3 N3 F3]).
       destruct (deallocate_bumped w1 w3 (next_loc w1) (ASlots cap)) as (w4 & Hd & [B4 C4 H4 A4 N4 F4]);
         [done|congruence..|by rewrite A3|lia|].
       rewrite (bind_ret_eq _ _ _ _ _ Hd).
       destruct (deallocate_bumped w w4 (next_loc w) ABlock) as (w5 & -> & ?);
         [done|congruence..| |lia|done].
       by rewrite A4. }
  intros ka w3 (-> & B3 & C3 & H3 & A3 & N3 & F3). simpl. unfold bind. simpl.
  split; [lia|]. split; [|split; [congruence|split; [congruence|]]].
  - intros j Hj. simpl in *. destruct (F3 j Hj) as (? & ? & ?).
    split; [|done]. by rewrite lookup_insert_ne by lia.
  - exists (next_loc w1), (next_loc w2). split; [by rewrite B3, B2, B1|].
    unfold allocs in *. simpl. rewrite A3, A2, A1.
    done.
Qed.

Lemma deallocate_block_ok w l b X :
  blocks w !! l = Some b -> fresh w -> allocs w ≡ₚ owned_by w l ++ X ->
  exists w', deallocate_block l w = (Ret tt, w') /\ blocks w' = delete l (blocks w) /\
    controls w' = controls w /\ hives w' = hives w /\ next_loc w' = next_loc w /\
    fresh w' /\ allocs w' ≡ₚ X.
Proof.
  intros Hb Hf HP. unfold owned_by, core_of in HP. rewrite Hb in HP. simpl in HP.
  unfold deallocate_block. erewrite bind_ret_eq by (by apply get_block_ok). cbv zeta.
  set (w1 := set_blocks (delete l (blocks w)) w).
  rewrite (bind_ret_eq _ _ w w1 tt) by done.
  destruct (deallocate_ok w1 (skip_allocation b) (ASkip (capacity (field b)))
    ((slot_allocation b, ASlots (capacity (field b))) :: (block_allocation b, ABlock) :: X))
    as (w2 & H2 & E2 & A2).
  { exact HP. }
  rewrite (bind_ret_eq _ _ _ _ _ H2).
  destruct (deallocate_ok w2 (slot_allocation b) (ASlots (capacity (field b)))
    ((block_allocation b, ABlock) :: X) A2) as (w3 & H3 & E3 & A3).
  rewrite (bind_ret_eq _ _ _ _ _ H3).
  destruct (deallocate_ok w3 (block_allocation b) ABlock X A3) as (w4 & H4 & E4 & A4).
  exists w4. split; [done|]. subst w4 w3 w2. repeat (split; [done|]). split; [|done].
  do 3 apply fresh_delete_ledger. intros j Hj. destruct (Hf j Hj) as (? & ? & ?).
  split; [|done]. simpl. by rewrite lookup_delete_None; right.
Qed.

(** ** Blocks that join or leave *)

Lemma store_rep_add w w' this c k k' lim cs cs' rs rs' av av' F l lay ba sa ka f fs :
  store_rep w this c k lim cs rs av F ->
  l ∉ (entries cs rs).*1 -> entries cs' rs' ≡ₚ (l, lay) :: entries cs rs ->
  (forall j, j <> l -> core_of w' j = core_of w j) ->
  core_of w' l = Some (c, ba, sa, ka, f) ->
  block_rep f lay fs -> within lim (capacity f) = true ->
  (forall j, j <> l -> j ∈ av' <-> j ∈ av) -> (l ∈ av' <-> lay <> [] /\ has_room f = true) ->
  Forall (fun e => e.2 <> []) cs' ->
  links_rep w' c k' (l :: (entries cs rs).*1) cs'.*1 rs' av' ->
  owner k' = owner k -> control_allocation k' = control_allocation k ->
  ctl_capacity k' = (ctl_capacity k + capacity f)%Z -> (ctl_capacity k' <= Z.max 0 max_size)%Z ->
  ctl_size k' = Z.of_nat (length (contents cs')) ->
  allocs w' ≡ₚ owned_by w' l ++ allocs w -> fresh w' ->
  store_rep w' this c k' lim cs' rs' av' F.
Proof.
  intros [SL Snd Sown Sne Sb Ssz Scap Sbd Sled Sfr] Hl0 He' Hcore Hl R' Hw Hav Hlav
    Hne' SL' Ho' Hca' Hcap' Hbd' Hsz' Hled Hf'.
  assert ((entries cs' rs').*1 ≡ₚ l :: (entries cs rs).*1) as Hfst by by rewrite He'.
  assert (forall j, j ∈ (entries cs rs).*1 -> core_of w' j = core_of w j) as Hcore'.
  { intros j Hj. apply Hcore. by intros ->. }
  split; try done.
  - eapply links_rep_perm; [symmetry; exact Hfst|done].
  - rewrite Hfst. by constructor.
  - congruence.
  - rewrite He'. apply Forall_cons. split.
    + exists ba, sa, ka, f, fs. done.
    + rewrite Forall_forall in Sb |- *. intros e Hin.
      assert (e.1 ∈ (entries cs rs).*1) by by apply list_elem_of_fmap_2.
      eapply block_ok_ext; [by apply Hcore'| |by apply Sb].
      apply Hav. by intros <-.
  - rewrite Hcap', Hfst, Scap. simpl. unfold block_capacity at 1. rewrite Hl.
    rewrite (total_capacity_ext w w'); [lia|]. intros. by apply block_capacity_core, Hcore'.
  - unfold allocs in Hled. rewrite Hled, Hca', Hfst, Sled. simpl.
    rewrite (owned_ext w w') by (intros; by apply owned_by_core, Hcore').
    rewrite <- app_assoc. symmetry. apply Permutation_middle.
Qed.

Lemma links_rep_delete w w' c k k' ls bs rs av l :
  links_rep w c k (l :: ls) bs (l :: rs) av -> NoDup (l :: ls) -> l ∉ bs -> l ∉ av ->
  blocks w' = delete l (blocks w) -> controls w' !! c = Some k' ->
  same_heads (with_reserved_head (head rs) k) k' ->
  links_rep w' c k' ls bs rs av.
Proof.
  intros [Hk Hls (Hs1 & Hs2 & Hs3) (Hn1 & Hn2 & Hn3) [Hh Ht] Hrh Hvh Ha Hv Hr Hf] Hnd Hlb Hla Hb Hk'
    (? & ? & ? & ?). simpl in *.
  apply NoDup_cons in Hnd as [Hll _]. apply NoDup_cons in Hn2 as [Hlr Hn2].
  assert (forall j, j <> l -> blocks w' !! j = blocks w !! j) as Hbj.
  { intros j Hj. by rewrite Hb, lookup_delete_ne. }
  assert (forall j xs, l ∉ xs -> xs ⊆ l :: ls -> j ∈ xs -> j <> l /\ j ∈ ls) as Hin.
  { intros j xs Hx Hsub Hj. assert (j <> l) by by intros ->. split; [done|].
    by apply Hsub, elem_of_cons in Hj as [|]. }
  split; try done; try congruence; try (split; congruence).
  - intros j Hj. rewrite Hbj by by intros ->. apply Hls. by right.
  - split; [|split]; intros j Hj.
    + by eapply (Hin j bs).
    + eapply (Hin j rs); [done| |done]. intros i Hi. apply Hs2. by right.
    + by eapply (Hin j av).
  - eapply dseg_ext; [|exact Ha]. intros j Hj. unfold alinks.
    by rewrite Hbj by (intros ->; done).
  - eapply dseg_ext; [|exact Hv]. intros j Hj. unfold vlinks.
    by rewrite Hbj by (intros ->; done).
  - destruct Hr as [_ Hr]. eapply sseg_ext; [|exact Hr]. intros j Hj. unfold rnext.
    by rewrite Hbj by (intros ->; done).
  - intros j b Hj Hjb. assert (j <> l) by by intros ->. rewrite Hbj in Hjb by done.
    destruct (Hf j b ltac:(by right) Hjb) as (Hf1 & Hf2 & Hf3). split; [done|]. split; [done|].
    assert (j ∈ l :: rs <-> j ∈ rs) as Hiff by (rewrite elem_of_cons; naive_solver).
    by rewrite (decide_ext _ _ _ _ Hiff) in Hf3.
Qed.

Lemma entries_reserved cs l rs : entries cs (l :: rs) ≡ₚ (l, []) :: entries cs rs.
Proof. unfold entries. csimpl. by rewrite Permutation_middle. Qed.

(** A reserved block that is not linked elsewhere. *)
Lemma store_rep_reserved w this c k lim cs rs av F l :
  store_rep w this c k lim cs rs av F -> l ∈ rs ->
  l ∉ cs.*1 /\ l ∉ av /\ block_ok w c lim av (l, []).
Proof.
  intros S Hl. assert (block_ok w c lim av (l, [])) as Hblk.
  { pose proof (sr_blocks _ _ _ _ _ _ _ _ _ S) as Hb. rewrite Forall_forall in Hb. apply Hb.
    unfold entries. apply elem_of_app. right. by apply (list_elem_of_fmap_2 (fun l => (l, []))). }
  pose proof (sr_nodup _ _ _ _ _ _ _ _ _ S) as Hnd. rewrite entries_fst in Hnd.
  apply NoDup_app in Hnd as (_ & Hdis & _). split; [|split; [|done]].
  - intros Hc. by eapply Hdis.
  - destruct Hblk as (? & ? & ? & ? & ? & _ & _ & _ & Hav). intros [Hx _]%Hav. done.
Qed.

Lemma store_rep_remove w w' this c k k' lim cs rs av F l :
  store_rep w this c k lim cs (l :: rs) av F ->
  blocks w' = delete l (blocks w) -> controls w' !! c = Some k' ->
  same_heads (with_reserved_head (head rs) k) k' ->
  owner k' = owner k -> control_allocation k' = control_allocation k -> ctl_size k' = ctl_size k ->
  ctl_capacity k' = (ctl_capacity k - block_capacity w l)%Z ->
  allocs w ≡ₚ owned_by w l ++ allocs w' -> fresh w' ->
  store_rep w' this c k' lim cs rs av F.
Proof.
  intros S Hb Hk' Hh Ho Hca Hsz Hcap Hled Hf'.
  destruct (store_rep_reserved _ _ _ _ _ _ _ _ _ l S (list_elem_of_here _ _)) as (Hlc & Hla & Hblk).
  destruct S as [SL Snd Sown Sne Sb Ssz Scap Sbd Sled Sfr].
  assert ((entries cs (l :: rs)).*1 ≡ₚ l :: (entries cs rs).*1) as Hfst by by rewrite entries_reserved.
  pose proof Snd as Snd'. rewrite Hfst in Snd'. apply NoDup_cons in Snd' as [Hl0 Snd'].
  assert (forall j, j ∈ (entries cs rs).*1 -> core_of w' j = core_of w j) as Hcore'.
  { intros j Hj. unfold core_of. rewrite Hb, lookup_delete_ne; [done|]. by intros ->. }
  assert (forall j, j ∈ (entries cs rs).*1 -> block_capacity w' j = block_capacity w j) as Hbc.
  { intros. by apply block_capacity_core, Hcore'. }
  assert (0 <= block_capacity w l)%Z as Hpos.
  { destruct Hblk as (? & ? & ? & f & ? & Hc & R & _). unfold block_capacity. simpl in Hc. rewrite Hc.
    pose proof (rep_capacity _ _ _ R). lia. }
  rewrite Hfst in Sled, Scap. rewrite entries_reserved in Sb. apply Forall_cons in Sb as [_ Sb].
  split; try done; try congruence.
  - eapply links_rep_delete; [eapply links_rep_perm; [exact Hfst|exact SL]|by constructor|done..].
  - rewrite Forall_forall in Sb |- *. intros e Hin.
    eapply block_ok_ext; [|done|by apply Sb]. by apply Hcore', list_elem_of_fmap_2.
  - rewrite Hcap, Scap, (total_capacity_ext w w') by done. simpl. lia.
  - lia.
  - unfold allocs in Hled. rewrite Hled in Sled. simpl in Sled. rewrite Hca.
    rewrite (owned_ext w w') by (intros; by apply owned_by_core, Hcore').
    rewrite <- app_assoc, (Permutation_middle (owned_by w l)) in Sled.
    by apply Permutation_app_inv_l in Sled.
Qed.

(** A new control block has no blocks. *)
Definition new_control this c : control_type :=
  Control this c None None None None 0 0 0.

Lemma allocate_control_ok w this lim F :
  fresh w -> allocs w ≡ₚ F ->
  post (allocate_control this w)
    (fun c w' => store_rep w' this c (new_control this c) lim [] [] [] F /\ hives w' = hives w /\
       blocks w' = blocks w)
    (fun e w' => e = bad_alloc /\ bumped w w').
Proof.
  intros Hf HF. unfold allocate_control. apply post_bind.
  eapply post_mono; [by apply allocate_ok| |done].
  intros c w1 (-> & B1 & C1 & H1 & A1 & N1 & F1). unfold bind. simpl.
  split; [|done]. split; try done.
  - split; try done; try (split; done); [apply lookup_insert_eq| | |];
      [|repeat split; constructor|]; intros j; [intros []%not_elem_of_nil|intros b []%not_elem_of_nil].
  - constructor.
  - simpl. lia.
  - simpl. unfold allocs in *. by rewrite A1, HF.
  - intros j Hj. simpl in *. destruct (F1 j Hj) as (? & ? & ?).
    rewrite lookup_insert_ne by lia. done.
Qed.

Lemma deallocate_control_ok w this c k lim F :
  store_rep w this c k lim [] [] [] F ->
  exists w', deallocate_control c w = (Ret tt, w') /\ fresh w' /\ allocs w' ≡ₚ F /\
    hives w' = hives w /\ blocks w' = blocks w.
Proof.
  intros [SL _ _ _ _ _ _ _ Sled Sfr]. unfold deallocate_control.
  erewrite bind_ret_eq by (by apply get_control_ok, SL). simpl in Sled.
  set (w1 := set_controls (delete c (controls w)) w).
  rewrite (bind_ret_eq _ _ w w1 tt) by done.
  destruct (deallocate_ok w1 _ _ _ Sled) as (w2 & -> & -> & HA).
  eexists. split; [done|]. split; [|done].
  apply fresh_delete_ledger. intros j Hj. destruct (Sfr j Hj) as (? & ? & ?).
  split; [done|]. split; [|done]. simpl. by rewrite lookup_delete_None; right.
Qed.
End storage.

(** ** The spots of a hive: its elements with their places

    A spot is a block, a slot index and the element there; the spots of the
    active blocks, in order, are what the iterators of a hive go through. *)

Section spots.
Context {T : Type} `{cfg : Config}.
Implicit Types (l j c this : loc) (b : block_type T) (k : control_type).
Implicit Types (w : world T) (bs rs av ls : list loc) (f : skipfield T) (v x : T).
Implicit Types (lay : list (segment T)).
Implicit Types (cs : list (loc * list (segment T))) (F : list (loc * allocation)).

Lemma inserted_app {A} (v : A) (xs ys zs ws : list A) :
  inserted v xs ys -> inserted v (zs ++ xs ++ ws) (zs ++ ys ++ ws).
Proof.
  intros (x1 & x2 & -> & ->). exists (zs ++ x1), (x2 ++ ws). by rewrite <- !app_assoc.
Qed.

Lemma inserted_length {A} (v : A) (xs ys : list A) : inserted v xs ys -> length ys = S (length xs).
Proof. intros (x1 & x2 & -> & ->). rewrite !length_app. simpl. lia. Qed.

(** The live slots of a layout, and of all the active blocks, in order. *)
Fixpoint live_spots l (base : Z) lay : list (loc * Z * T) :=
  match lay with
  | [] => []
  | Live x :: lay' => (l, base, x) :: live_spots l (base + 1) lay'
  | Dead n :: lay' => live_spots l (base + n) lay'
  end.

Fixpoint spots cs : list (loc * Z * T) :=
  match cs with [] => [] | (l, lay) :: cs' => live_spots l 0 lay ++ spots cs' end.

Lemma live_spots_app l base lay1 lay2 :
  live_spots l base (lay1 ++ lay2) = live_spots l base lay1 ++ live_spots l (base + width lay1) lay2.
Proof.
  revert base. induction lay1 as [|[x|n] lay1 IH]; intros base; simpl.
  - by rewrite Z.add_0_r.
  - by rewrite IH, Z.add_assoc.
  - by rewrite IH, Z.add_assoc.
Qed.

Lemma live_spots_elems l base lay : (live_spots l base lay).*2 = elems lay.
Proof. revert base. induction lay as [|[x|n] lay IH]; intros base; csimpl; by rewrite ?IH. Qed.

Lemma live_spots_dead l base lay : elems lay = [] -> live_spots l base lay = [].
Proof. revert base. induction lay as [|[x|n] lay IH]; intros base; simpl; auto. done. Qed.

Lemma spots_app cs1 cs2 : spots (cs1 ++ cs2) = spots cs1 ++ spots cs2.
Proof. induction cs1 as [|[l lay] cs1 IH]; simpl; [done|]. by rewrite IH, app_assoc. Qed.

Lemma spots_contents cs : (spots cs).*2 = contents cs.
Proof.
  induction cs as [|[l lay] cs IH]; simpl; [done|]. by rewrite fmap_app, live_spots_elems, IH.
Qed.

Lemma live_spots_split l0 base lay ps l i x qs :
  live_spots l0 base lay = ps ++ (l, i, x) :: qs ->
  exists lA lB, lay = lA ++ Live x :: lB /\ l = l0 /\ i = (base + width lA)%Z /\
    ps = live_spots l base lA /\ qs = live_spots l (i + 1) lB.
Proof.
  revert base ps. induction lay as [|[y|n] lay IH]; intros base ps; simpl.
  - by destruct ps.
  - destruct ps as [|p ps]; simpl.
    + intros [= <- <- <- <-]. exists [], lay. simpl. rewrite Z.add_0_r. done.
    + intros [= <- Heq]. destruct (IH _ _ Heq) as (lA & lB & -> & -> & -> & -> & ->).
      exists (Live y :: lA), lB. simpl. rewrite Z.add_assoc. done.
  - intros Heq. destruct (IH _ _ Heq) as (lA & lB & -> & -> & -> & -> & ->).
    exists (Dead n :: lA), lB. simpl. rewrite Z.add_assoc. done.
Qed.

Lemma spots_split cs ps l i x qs :
  spots cs = ps ++ (l, i, x) :: qs ->
  exists cs1 lA lB cs2, cs = cs1 ++ (l, lA ++ Live x :: lB) :: cs2 /\ i = width lA /\
    ps = spots cs1 ++ live_spots l 0 lA /\ qs = live_spots l (i + 1) lB ++ spots cs2.
Proof.
  revert ps. induction cs as [|[l0 lay] cs IH]; intros ps; simpl; [by destruct ps|]. intros Heq.
  apply app_eq_inv in Heq as [(k1 & Hk & Heq)|(k1 & Hk & Heq)].
  - destruct k1 as [|p k1]; simpl in Heq.
    + rewrite app_nil_r in Hk. symmetry in Heq.
      destruct (IH [] Heq) as (cs1 & lA & lB & cs2 & -> & -> & Hps & ->).
      exists ((l0, lay) :: cs1), lA, lB, cs2. subst ps. simpl. rewrite <- app_assoc, <- Hps, app_nil_r.
      done.
    + injection Heq as <- ->. destruct (live_spots_split _ _ _ _ _ _ _ _ Hk)
        as (lA & lB & -> & -> & -> & -> & ->).
      by exists [], lA, lB, cs.
  - destruct (IH _ Heq) as (cs1 & lA & lB & cs2 & -> & -> & -> & ->).
    exists ((l0, lay) :: cs1), lA, lB, cs2. subst ps. simpl. by rewrite <- app_assoc.
Qed.

Lemma spots_block cs1 l lay cs2 :
  spots (cs1 ++ (l, lay) :: cs2) = spots cs1 ++ live_spots l 0 lay ++ spots cs2.
Proof. by rewrite spots_app. Qed.

(** The first and the last spot of a block. *)
Lemma first_spot f lay fs l :
  block_rep f lay fs -> lay <> [] ->
  exists i x qs, live_spots l 0 lay = (l, i, x) :: qs /\ read_skip f 0 = Some i.
Proof.
  intros R Hne. destruct (first_index_spec _ _ _ R Hne) as (lD & y & l3 & -> & HD & Hr).
  rewrite live_spots_app, (live_spots_dead _ _ _ HD). simpl. rewrite Hr. eauto.
Qed.

Lemma last_spot f lay fs l :
  block_rep f lay fs -> lay <> [] ->
  exists ps x, live_spots l 0 lay = ps ++ [(l, high_water f - 1, x)]%Z.
Proof.
  intros R Hne. destruct (last_index_spec _ _ _ R Hne) as (l0 & y & -> & Hr).
  rewrite live_spots_app. simpl. rewrite Hr. eauto.
Qed.

(** ** Spots are determined by the slots *)

Definition spot_lt (p q : loc * Z * T) : Prop := (p.1.2 < q.1.2)%Z.

#[local] Instance spot_lt_antisym : AntiSymm (=) spot_lt.
Proof. intros p q. unfold spot_lt. lia. Qed.

Lemma live_spots_bound l base lay p :
  widths_pos lay -> p ∈ live_spots l base lay -> (base <= p.1.2)%Z /\ p.1.1 = l.
Proof.
  revert base. induction lay as [|[x|n] lay IH]; intros base; simpl; [by intros _ ?%not_elem_of_nil| |].
  - intros [_ Hw] [->|Hp]%elem_of_cons; [simpl; lia|]. destruct (IH _ Hw Hp). split; [lia|done].
  - intros [? Hw] Hp. destruct (IH _ Hw Hp). split; [lia|done].
Qed.

Lemma live_spots_sorted l base lay : widths_pos lay -> StronglySorted spot_lt (live_spots l base lay).
Proof.
  revert base. induction lay as [|[x|n] lay IH]; intros base; simpl; [constructor| |].
  - intros [_ Hw]. constructor; [auto|]. apply Forall_forall. intros p Hp.
    destruct (live_spots_bound _ _ _ _ Hw Hp). unfold spot_lt. simpl. lia.
  - intros [_ Hw]. auto.
Qed.

Lemma sorted_NoDup (ps : list (loc * Z * T)) : StronglySorted spot_lt ps -> NoDup ps.
Proof.
  induction 1 as [|p ps _ IH Hp]; constructor; [|done]. intros Hin.
  rewrite Forall_forall in Hp. specialize (Hp _ Hin). unfold spot_lt in Hp. lia.
Qed.

Lemma live_spots_elem f lay fs l l' i x :
  block_rep f lay fs ->
  (l', i, x) ∈ live_spots l 0 lay <-> l' = l /\ 0 <= i /\ element f i = Some x.
Proof.
  intros R. pose proof (shape_widths _ (rep_shape _ _ _ R)) as Hw. split.
  - intros Hin. destruct (live_spots_bound _ _ _ _ Hw Hin) as [Hi Hl]. simpl in Hi, Hl. subst l'.
    split; [done|]. split; [done|]. apply list_elem_of_split in Hin as (ps & qs & Hs).
    destruct (live_spots_split _ _ _ _ _ _ _ _ Hs) as (lA & lB & -> & _ & Hi' & _).
    apply (rep_element_iff _ _ _ _ _ R Hi). exists lA, lB. split; [done|lia].
  - intros (-> & Hi & He). apply (rep_element_iff _ _ _ _ _ R Hi) in He as (lA & lB & -> & ->).
    rewrite live_spots_app. apply elem_of_app. right. simpl. apply list_elem_of_here.
Qed.

(** A sorted list that lists the live slots is the list of spots. *)
Lemma live_spots_unique f lay fs l ps :
  block_rep f lay fs -> StronglySorted spot_lt ps ->
  (forall l' i x, (l', i, x) ∈ ps <-> l' = l /\ 0 <= i /\ element f i = Some x) ->
  live_spots l 0 lay = ps.
Proof.
  intros R Hs Hiff. pose proof (live_spots_sorted l 0 _ (shape_widths _ (rep_shape _ _ _ R))) as Hs'.
  apply (StronglySorted_unique spot_lt); [done|done|].
  apply NoDup_Permutation; [by apply sorted_NoDup|by apply sorted_NoDup|].
  intros [[l' i] x]. by rewrite Hiff, (live_spots_elem _ _ _ _ _ _ _ R).
Qed.

Lemma sorted_remove (ps qs : list (loc * Z * T)) p :
  StronglySorted spot_lt (ps ++ p :: qs) -> StronglySorted spot_lt (ps ++ qs).
Proof.
  intros H. apply StronglySorted_app in H as (H1 & H2 & H3). inversion H3; subst.
  apply StronglySorted_app. split; [|split; [|done]]; [|done].
  intros y1 y2 Hy1 Hy2. apply H1; [done|by right].
Qed.

Lemma erased_spots f f' lay lay' fs fs' l ps i x qs :
  block_rep f lay fs -> block_rep f' lay' fs' ->
  live_spots l 0 lay = ps ++ (l, i, x) :: qs ->
  (forall j, element f' j = if decide (i = j) then None else element f j) ->
  live_spots l 0 lay' = ps ++ qs.
Proof.
  intros R R' Hs He. pose proof (live_spots_sorted l 0 _ (shape_widths _ (rep_shape _ _ _ R))) as Hso.
  rewrite Hs in Hso. apply (live_spots_unique f' lay' fs'); [done|by eapply sorted_remove|].
  pose proof (sorted_NoDup _ Hso) as Hnd. rewrite <- Permutation_middle in Hnd.
  apply NoDup_cons in Hnd as [Hni _].
  intros l' i' y. rewrite He.
  pose proof (live_spots_elem _ _ _ l l' i' y R) as Hel. rewrite Hs in Hel.
  case_decide as Hi.
  - subst i'. split; [|naive_solver]. intros Hin.
    destruct (proj1 Hel) as (-> & _ & Hx); [rewrite elem_of_app in *; rewrite elem_of_cons; tauto|].
    destruct (proj1 (live_spots_elem _ _ _ l l i x R)) as (_ & _ & Hx').
    { rewrite Hs. apply elem_of_app. right. apply list_elem_of_here. }
    rewrite Hx in Hx'. injection Hx' as ->. done.
  - rewrite <- Hel, !elem_of_app, elem_of_cons. naive_solver.
Qed.

(** The sequence gains [p] at one place. *)
Lemma inserted_spots (f f' : skipfield T) lay lay' fs fs' l i x :
  block_rep f lay fs -> block_rep f' lay' fs' -> 0 <= i -> element f i = None ->
  (forall j, element f' j = if decide (i = j) then Some x else element f j) ->
  inserted (l, i, x) (live_spots l 0 lay) (live_spots l 0 lay').
Proof.
  intros R R' Hi Hnone He.
  assert ((l, i, x) ∈ live_spots l 0 lay') as Hin.
  { apply (live_spots_elem _ _ _ _ _ _ _ R'). rewrite He, decide_True by done. done. }
  apply list_elem_of_split in Hin as (ps & qs & Hs). exists ps, qs. split; [|done].
  eapply (erased_spots f' f); [done..|]. intros j. rewrite He. by case_decide; subst.
Qed.

Lemma inserted_blocks cs1 l lay lay' cs2 (p : loc * Z * T) :
  inserted p (live_spots l 0 lay) (live_spots l 0 lay') ->
  inserted p (spots (cs1 ++ (l, lay) :: cs2)) (spots (cs1 ++ (l, lay') :: cs2)).
Proof. intros H. rewrite !spots_block. by apply inserted_app. Qed.

Lemma inserted_contents cs cs' (p : loc * Z * T) :
  inserted p (spots cs) (spots cs') -> inserted p.2 (contents cs) (contents cs').
Proof.
  intros (ps & qs & H1 & H2). exists ps.*2, qs.*2.
  by rewrite <- !spots_contents, H1, H2, !fmap_app.
Qed.
End spots.

(** ** Iteration over a hive

    [begin], [end], [operator++], [operator--] and [operator*]: the iterators
    of a well-formed hive are its elements in order ([spots]). *)

Section iteration.
Context {T : Type} `{cfg : Config}.
Implicit Types (l j c this : loc) (b : block_type T) (k : control_type).
Implicit Types (w : world T) (bs rs av ls : list loc) (f : skipfield T) (v x : T).
Implicit Types (lay : list (segment T)).
Implicit Types (cs : list (loc * list (segment T))) (F : list (loc * allocation)).

(** The iterator to a spot, or to the end. *)
Definition iterator_at this (h : hive_object) (p : option (loc * Z * T)) : iterator :=
  match p with
  | Some (l, i, _) => at_element l i
  | None => Iterator None npos (Some this) (end_epoch_ h)
  end.

(** The elements a loop from an iterator to the end reads. *)
Fixpoint collect (fuel : nat) (it last : iterator) : M T (list T) :=
  if it_eqb it last then ret [] else
  match fuel with
  | O => stuck
  | S fuel' =>
      let* x := it_deref it in
      let* it' := it_next it in
      let* xs := collect fuel' it' last in
      ret (x :: xs)
  end.

(** An active block of a hive. *)
Lemma active_cell w this c k lim cs1 l lay cs2 rs av F :
  store_rep w this c k lim (cs1 ++ (l, lay) :: cs2) rs av F ->
  exists b fs, blocks w !! l = Some b /\ control b = c /\ block_rep (field b) lay fs /\ lay <> [] /\
    active_prev (act b) = last cs1.*1 /\ active_next (act b) = head cs2.*1 /\
    (l ∈ av <-> lay <> [] /\ has_room (field b) = true).
Proof.
  intros S. pose proof (sr_links _ _ _ _ _ _ _ _ _ S) as L.
  pose proof (sr_blocks _ _ _ _ _ _ _ _ _ S) as Hb. rewrite Forall_forall in Hb.
  pose proof (sr_nonempty _ _ _ _ _ _ _ _ _ S) as Hne. rewrite Forall_forall in Hne.
  assert ((l, lay) ∈ cs1 ++ (l, lay) :: cs2) as Hin.
  { apply elem_of_app. right. apply list_elem_of_here. }
  destruct (block_ok_cell _ _ _ _ _ _ (Hb (l, lay) ltac:(unfold entries; by apply elem_of_app; left)))
    as (b & fs & Hbl & Hc & R & _ & Hav & _).
  exists b, fs. split; [done|]. split; [done|]. split; [done|]. split; [by apply (Hne (l, lay))|].
  pose proof (lr_active _ _ _ _ _ _ _ L) as Ha. rewrite fmap_app in Ha. csimpl in Ha.
  apply dseg_lookup in Ha. unfold alinks in Ha. rewrite Hbl in Ha. simpl in Ha.
  rewrite last_or_Some, hd_or_Some in Ha. by injection Ha as -> ->.
Qed.

Section on_hive.
#[local] Set Default Proof Using "All".
Context (w : world T) (this : loc) (cs : list (loc * list (segment T))) (rs av : list loc).
Context (F : list (loc * allocation)) (h : hive_object).
Hypothesis rep : hive_rep w this cs rs av F.
Hypothesis object : hives w !! this = Some h.

Lemma hive_no_control : control_ h = None -> cs = [].
Proof. destruct rep as (h' & Hh & _ & Hc). simplify_eq. intros E. rewrite E in Hc. by destruct Hc. Qed.

Lemma hive_control c : control_ h = Some c -> exists k, store_rep w this c k (limits_ h) cs rs av F.
Proof. intros E. by eapply hive_rep_control. Qed.

Lemma hive_spot ps p qs : spots cs = ps ++ p :: qs -> exists c, control_ h = Some c.
Proof.
  intros Hp. destruct (control_ h) as [c|] eqn:E; [eauto|]. rewrite (hive_no_control E) in Hp.
  by destruct ps.
Qed.

Lemma begin_spec : hive_begin this w = (Ret (iterator_at this h (head (spots cs))), w).
Proof.
  unfold hive_begin, hive_end. rewrite (bind_ret_eq _ _ _ _ _ (get_hive_ok _ _ _ object)).
  destruct (control_ h) as [c|] eqn:E.
  2: { rewrite (hive_no_control E). by rewrite (bind_ret_eq _ _ _ _ _ (get_hive_ok _ _ _ object)). }
  destruct (hive_control c E) as [k S]. pose proof (sr_links _ _ _ _ _ _ _ _ _ S) as L.
  rewrite (bind_ret_eq _ _ _ _ _ (get_control_ok _ _ _ (lr_control _ _ _ _ _ _ _ L))).
  rewrite (proj1 (lr_head _ _ _ _ _ _ _ L)).
  destruct cs as [|[l lay] cs']; simpl;
    [by rewrite (bind_ret_eq _ _ _ _ _ (get_hive_ok _ _ _ object))|].
  destruct (active_cell _ _ _ _ _ [] _ _ _ _ _ _ S) as (b & fs & Hb & _ & R & Hne & _).
  rewrite (bind_ret_eq _ _ _ _ _ (get_block_ok _ _ _ Hb)).
  destruct (first_spot _ _ _ l R Hne) as (i & x & qs & -> & ->). done.
Qed.

Lemma next_spec ps l i x qs :
  spots cs = ps ++ (l, i, x) :: qs ->
  it_next (at_element l i) w = (Ret (iterator_at this h (head qs)), w).
Proof.
  intros Hp. destruct (hive_spot _ _ _ Hp) as [c E]. destruct (hive_control c E) as [k S].
  destruct (spots_split _ _ _ _ _ _ Hp) as (cs1 & lA & lB & cs2 & Hcs & -> & _ & ->).
  rewrite Hcs in S. pose proof (sr_links _ _ _ _ _ _ _ _ _ S) as L.
  destruct (active_cell _ _ _ _ _ _ _ _ _ _ _ _ S) as (b & fs & Hb & Hc & R & Hne & _ & Hn & _).
  unfold it_next. simpl. rewrite bind_ret, (bind_ret_eq _ _ _ _ _ (get_block_ok _ _ _ Hb)).
  destruct (next_index_spec _ _ _ _ _ R) as [[-> Hx]|(lD & y & l3 & -> & HD & Hx)]; rewrite Hx; simpl.
  - rewrite bind_ret, Hc.
    rewrite (bind_ret_eq _ _ _ _ _ (get_control_ok _ _ _ (lr_control _ _ _ _ _ _ _ L))), Hn.
    destruct cs2 as [|[l2 lay2] cs2]; simpl.
    + rewrite (sr_owner _ _ _ _ _ _ _ _ _ S).
      by rewrite (bind_ret_eq _ _ _ _ _ (get_hive_ok _ _ _ object)).
    + rewrite (cons_middle (l, _)), app_assoc in S.
      destruct (active_cell _ _ _ _ _ _ _ _ _ _ _ _ S) as (b2 & fs2 & Hb2 & _ & R2 & Hne2 & _).
      rewrite (bind_ret_eq _ _ _ _ _ (get_block_ok _ _ _ Hb2)).
      destruct (first_spot _ _ _ l2 R2 Hne2) as (i & z & qs & -> & ->). done.
  - rewrite live_spots_app, (live_spots_dead _ _ _ HD). simpl.
    assert (width (lA ++ Live x :: lD) = (width lA + 1 + width lD)%Z) as ->; [|done].
    rewrite width_app. simpl. lia.
Qed.

Lemma prev_spec ps l i x p qs :
  spots cs = ps ++ (l, i, x) :: p :: qs ->
  it_prev (iterator_at this h (Some p)) w = (Ret (at_element l i), w).
Proof.
  destruct p as [[l' i'] y]. intros Hp.
  destruct (hive_spot _ _ _ Hp) as [c E]. destruct (hive_control c E) as [k S].
  rewrite (cons_middle (l, i, x)), app_assoc in Hp.
  destruct (spots_split _ _ _ _ _ _ Hp) as (cs1 & lA & lB & cs2 & Hcs & -> & Hps & _).
  rewrite Hcs in S.
  destruct (active_cell _ _ _ _ _ _ _ _ _ _ _ _ S) as (b & fs & Hb & Hc & R & Hne & Hpr & _).
  unfold it_prev. simpl. rewrite (bind_ret_eq _ _ _ _ _ (get_block_ok _ _ _ Hb)).
  destruct (prev_index_spec _ _ _ _ _ R) as [[HA Hx]|(l0 & z & lD & -> & HD & Hx)]; rewrite Hx; simpl.
  - rewrite bind_ret, Hpr. rewrite (live_spots_dead _ _ _ HA), app_nil_r in Hps.
    destruct cs1 as [|[l1 lay1] cs1 _] using rev_ind; [by destruct ps|].
    rewrite fmap_app. csimpl. rewrite last_snoc. simpl. rewrite bind_ret.
    rewrite <- app_assoc in S.
    destruct (active_cell _ _ _ _ _ _ _ _ _ _ _ _ S) as (b1 & fs1 & Hb1 & _ & R1 & Hne1 & _).
    rewrite (bind_ret_eq _ _ _ _ _ (get_block_ok _ _ _ Hb1)).
    rewrite spots_app in Hps. simpl in Hps. rewrite app_nil_r in Hps.
    destruct (last_spot _ _ _ l1 R1 Hne1) as (ps1 & x1 & Hl). rewrite Hl, app_assoc in Hps.
    by apply app_inj_tail in Hps as [_ [= -> -> ->]].
  - rewrite live_spots_app in Hps. simpl in Hps. rewrite (live_spots_dead _ _ _ HD), app_assoc in Hps.
    by apply app_inj_tail in Hps as [_ [= -> -> ->]].
Qed.

Lemma prev_end_spec ps l i x :
  spots cs = ps ++ [(l, i, x)] ->
  it_prev (iterator_at this h None) w = (Ret (at_element l i), w).
Proof.
  intros Hp. destruct (hive_spot _ _ _ Hp) as [c E]. destruct (hive_control c E) as [k S].
  pose proof (sr_links _ _ _ _ _ _ _ _ _ S) as L.
  unfold it_prev. simpl. rewrite (bind_ret_eq _ _ _ _ _ (get_hive_ok _ _ _ object)), E.
  rewrite (bind_ret_eq _ _ _ _ _ (get_control_ok _ _ _ (lr_control _ _ _ _ _ _ _ L))).
  rewrite (proj2 (lr_head _ _ _ _ _ _ _ L)).
  destruct cs as [|[l1 lay1] cs1 _] using rev_ind; [by destruct ps|].
  rewrite fmap_app. csimpl. rewrite last_snoc. simpl.
  destruct (active_cell _ _ _ _ _ _ _ _ _ _ _ _ S) as (b1 & fs1 & Hb1 & _ & R1 & Hne1 & _).
  rewrite (bind_ret_eq _ _ _ _ _ (get_block_ok _ _ _ Hb1)).
  rewrite spots_app in Hp. simpl in Hp. rewrite app_nil_r in Hp.
  destruct (last_spot _ _ _ l1 R1 Hne1) as (ps1 & x1 & Hl). rewrite Hl, app_assoc in Hp.
  by apply app_inj_tail in Hp as [_ [= <- <- <-]].
Qed.

Lemma deref_spec ps l i x qs :
  spots cs = ps ++ (l, i, x) :: qs -> it_deref (at_element l i) w = (Ret x, w).
Proof.
  intros Hp. destruct (hive_spot _ _ _ Hp) as [c E]. destruct (hive_control c E) as [k S].
  destruct (spots_split _ _ _ _ _ _ Hp) as (cs1 & lA & lB & cs2 & Hcs & -> & _ & _).
  rewrite Hcs in S.
  destruct (active_cell _ _ _ _ _ _ _ _ _ _ _ _ S) as (b & fs & Hb & _ & R & _).
  unfold it_deref. simpl. rewrite bind_ret, (bind_ret_eq _ _ _ _ _ (get_block_ok _ _ _ Hb)).
  rewrite (rep_element _ _ _ _ x R); [done|]. by exists lA, lB.
Qed.

Lemma collect_ok qs : forall ps fuel, spots cs = ps ++ qs -> (length qs <= fuel)%nat ->
  collect fuel (iterator_at this h (head qs)) (iterator_at this h None) w = (Ret qs.*2, w).
Proof.
  induction qs as [|[[l i] x] qs IH]; intros ps fuel Hs Hf.
  - destruct fuel; simpl; unfold it_eqb; simpl; by rewrite bool_decide_true, Z.eqb_refl.
  - destruct fuel as [|fuel]; simpl in Hf; [lia|]. simpl.
    rewrite (bind_ret_eq _ _ _ _ _ (deref_spec _ _ _ _ _ Hs)).
    rewrite (bind_ret_eq _ _ _ _ _ (next_spec _ _ _ _ _ Hs)).
    rewrite (cons_middle (l, i, x)), app_assoc in Hs.
    rewrite (bind_ret_eq _ _ _ _ _ (IH _ fuel Hs ltac:(lia))). done.
Qed.
End on_hive.
End iteration.
