(* ===== verification/HiveErase.v ===== *)
(** * Insertion into a hive and erasure from it

    [emplace] on its four paths: into a block with room, into a reserved block,
    into a new block, and with a constructor that throws. *)
From S2P Require Import Prelude Linked HiveBlock HiveHeap HiveInv HiveStore.

#[local] Open Scope Z_scope.

Section insert.
Context {T : Type} `{cfg : Config}.
Implicit Types (l j c this : loc) (b : block_type T) (k : control_type).
Implicit Types (w : world T) (bs rs av ls : list loc) (f : skipfield T) (v x : T).
Implicit Types (cs : list (loc * list (segment T))) (F : list (loc * allocation)).

(** [w'] is [w] with element [v] added at slot [i] of block [l], every other
    slot as it was. *)
Definition stored w w' l (i : Z) v : Prop :=
  elem_at w l i = None /\ (0 <= i)%Z /\
  forall l' i', (0 <= i')%Z ->
    elem_at w' l' i' = if decide (l' = l /\ i' = i) then Some v else elem_at w l' i'.

Lemma elem_at_core w l i : elem_at w l i = t ← core_of w l; element t.2 i.
Proof. unfold elem_at, core_of. by destruct (blocks w !! l). Qed.

Lemma elem_at_field w l s l' i :
  is_Some (blocks w !! l) ->
  elem_at (set_field_at l s w) l' i = if decide (l = l') then element s i else elem_at w l' i.
Proof.
  intros [b Hb]. unfold elem_at, set_field_at. simpl. rewrite lookup_alter.
  case_decide; [|done]. subst. by rewrite Hb.
Qed.

Lemma elem_at_same_fields c w w' l i : same_fields c w w' -> elem_at w' l i = elem_at w l i.
Proof. intros H. by rewrite !elem_at_core, (sf_core _ _ _ H). Qed.

Lemma layout_nonempty v (lay lay' : list (segment T)) : inserted v (elems lay) (elems lay') -> lay' <> [].
Proof. intros (x1 & x2 & _ & H) ->. by destruct x1. Qed.

Lemma size_step k c w this lim cs rs av F :
  store_rep w this c k lim cs rs av F -> u64 (ctl_size k + 1) = ctl_size k + 1.
Proof. intros S. destruct (store_rep_counters _ _ _ _ _ _ _ _ _ S). apply u64_small. unfold npos in *. lia. Qed.

Lemma full_iff f lay fs :
  block_rep f lay fs ->
  ((high_water f =? capacity f) && (free_head f =? npos)) = negb (has_room f).
Proof.
  intros R. pose proof (rep_high_water _ _ _ R). pose proof (rep_bound _ _ _ R).
  unfold has_room. destruct (free_head f =? npos); simpl; [|by rewrite andb_false_r].
  case_zb; case_zb; simpl; try done; lia.
Qed.

(** A block that is full leaves the available list. *)
Lemma remove_when_full w c k ls bs rs av l b lay fs :
  links_rep w c k ls bs rs (l :: av) -> blocks w !! l = Some b -> block_rep (field b) lay fs ->
  exists w' av', (if (high_water (field b) =? capacity (field b)) && (free_head (field b) =? npos)
    then available_remove c l else ret tt) w = (Ret tt, w') /\ same_fields c w w' /\
    links_rep w' c (with_available_head (head av') k) ls bs rs av' /\
    (forall j, j <> l -> j ∈ av' <-> j ∈ l :: av) /\ (l ∈ av' <-> has_room (field b) = true).
Proof.
  intros L Hb R. rewrite (full_iff _ _ _ R).
  assert (l ∉ av) as Hl by (pose proof (lr_nodup _ _ _ _ _ _ _ L) as (_ & _ & H); by inversion H).
  destruct (has_room (field b)); simpl.
  - exists w, (l :: av). split; [done|]. split; [apply same_fields_refl|].
    split; [|split; [done|split; [done|intros _; apply list_elem_of_here]]].
    eapply links_rep_ext; [exact L| |by repeat split; [..|symmetry; apply L]|by intros j b' _ ?; exists b'].
    rewrite (lr_control _ _ _ _ _ _ _ L). f_equal.
    rewrite <- (lr_available_head _ _ _ _ _ _ _ L). by destruct k.
  - destruct (available_remove_spec _ _ _ _ _ _ [] _ _ L) as (w' & Hrun & Hs & L').
    exists w', av. repeat (split; [done|]). split; [|split; [done|intros ?; done]].
    intros j Hj. rewrite elem_of_cons. naive_solver.
Qed.

Lemma emplace_available_ok w this c k lim cs rs av F l v h :
  store_rep w this c k lim cs rs av F -> hives w !! this = Some h -> head av = Some l ->
  exists w' k' cs' av' i, emplace_available this c l (Some v) w = (Ret (at_element l i), w') /\
    store_rep w' this c k' lim cs' rs av' F /\ stored w w' l i v /\
    inserted (l, i, v) (spots cs) (spots cs') /\ cs'.*1 = cs.*1 /\
    hives w' = <[this := with_end_epoch (u64 (end_epoch_ h + 1)) h]> (hives w).
Proof.
  intros S Hh Hhead. pose proof (sr_links _ _ _ _ _ _ _ _ _ S) as L.
  destruct av as [|l0 av]; [done|]. injection Hhead as ->.
  pose proof (store_rep_available _ _ _ _ _ _ _ _ _ _ S (list_elem_of_here _ _)) as Hlcs.
  destruct (store_rep_entry _ _ _ _ _ _ _ _ _ _ S Hlcs) as (cs1 & lay & cs2 & -> & Hlay & Hblk).
  destruct (block_ok_cell _ _ _ _ _ _ Hblk) as (b & fs & Hb & _ & R & _ & Hav & Hcore).
  destruct (proj1 Hav (list_elem_of_here _ _)) as [_ Hroom].
  destruct (emplace_slot_spec _ _ _ v R Hroom)
    as (f' & i & lay' & fs' & He & R' & Hcap & Hins & Hnone & Hi & Hel).
  pose proof (inserted_blocks cs1 l lay lay' cs2 _
    (inserted_spots _ _ _ _ _ _ l i v R R' Hi Hnone Hel)) as Hic.
  pose proof (inserted_length _ _ _ (inserted_contents _ _ _ Hic)) as Hlen.
  set (w1 := set_field_at l f' w).
  set (k2 := with_size (ctl_size k + 1) k).
  set (w2 := set_controls (<[c := k2]> (controls w1)) w1).
  assert (blocks w2 !! l = Some (with_field f' b)) as Hb2.
  { simpl. by rewrite lookup_alter_eq, Hb. }
  assert (links_rep w2 c k2 (entries (cs1 ++ (l, lay) :: cs2) rs).*1
    (cs1 ++ (l, lay) :: cs2).*1 rs (l :: av)) as L2.
  { eapply links_rep_ext; [exact L|apply lookup_insert_eq|done|apply same_links_field]. }
  destruct (remove_when_full _ _ _ _ _ _ _ _ _ _ _ L2 Hb2 R') as (w3 & av' & Hrun & Hs & L3 & Ho & Hl3).
  exists (set_hives (<[this := with_end_epoch (u64 (end_epoch_ h + 1)) h]> (hives w3)) w3).
  exists (with_available_head (head av') k2), (cs1 ++ (l, lay') :: cs2), av', i.
  assert (hives w3 = hives w) as Hh3 by (by rewrite (sf_hives _ _ _ Hs)).
  split; [|split; [|split; [|split; [exact Hic|split; [by rewrite !fmap_app|]]]]].
  - unfold emplace_available. erewrite bind_ret_eq by (by eapply on_field_ok).
    unfold inc_size. fold w1.
    erewrite bind_ret_eq by (apply upd_control_ok, L).
    cbv beta. rewrite (size_step _ _ _ _ _ _ _ _ _ S). fold k2. fold w2.
    erewrite bind_ret_eq by (by apply get_block_ok). simpl field.
    erewrite bind_ret_eq by exact Hrun.
    unfold touch_end. erewrite bind_ret_eq by (apply upd_hive_ok; by rewrite Hh3). done.
  - apply store_rep_hives.
    eapply (store_rep_update w w3) with (lay' := lay'); [exact S|apply entries_middle|apply entries_middle
      |exact Hcore| | |exact R'|exact Hcap|exact Ho| | | |done|done|done|].
    + intros j. rewrite (sf_core _ _ _ Hs). change (core_of w2 j) with (core_of (set_field_at l f' w) j).
      rewrite core_of_field. case_decide; [|done]. subst. by rewrite Hcore.
    + eapply same_store_trans; [|by apply same_fields_store].
      eapply same_store_trans; [apply same_store_field|apply same_store_control].
    + rewrite Hl3. split; [|by intros []]. intros; split; [by eapply layout_nonempty|done].
    + pose proof (sr_nonempty _ _ _ _ _ _ _ _ _ S) as Hne. rewrite Forall_app, Forall_cons in *.
      destruct Hne as (? & _ & ?). split; [done|]. split; [|done]. by eapply layout_nonempty.
    + rewrite fmap_app. rewrite fmap_app in L3. exact L3.
    + simpl. rewrite Hlen, (sr_size _ _ _ _ _ _ _ _ _ S). lia.
  - split; [unfold elem_at; by rewrite Hb|]. split; [done|]. intros l' i' _.
    change (elem_at (set_hives _ w3) l' i') with (elem_at w3 l' i').
    rewrite (elem_at_same_fields _ _ _ _ _ Hs).
    change (elem_at w2 l' i') with (elem_at (set_field_at l f' w) l' i').
    rewrite elem_at_field by eauto. destruct (decide (l = l')) as [<-|].
    + rewrite Hel. unfold elem_at. rewrite Hb. simpl. repeat case_decide; naive_solver.
    + by rewrite decide_False by naive_solver.
  - simpl. by rewrite Hh3.
Qed.

(** The element cannot be constructed. *)
Lemma emplace_available_throws w this c k lim cs rs av F l :
  store_rep w this c k lim cs rs av F -> head av = Some l ->
  exists w', emplace_available this c l None w = (Raise element_exn, w') /\
    store_rep w' this c k lim cs rs av F /\ hives w' = hives w /\
    forall l' i', elem_at w' l' i' = elem_at w l' i'.
Proof.
  intros S Hhead. pose proof (sr_links _ _ _ _ _ _ _ _ _ S) as L.
  pose proof (head_is_Some_elem _ _ Hhead) as Hlav.
  pose proof (store_rep_available _ _ _ _ _ _ _ _ _ _ S Hlav) as Hlcs.
  destruct (store_rep_entry _ _ _ _ _ _ _ _ _ _ S Hlcs) as (cs1 & lay & cs2 & -> & Hlay & Hblk).
  destruct (block_ok_cell _ _ _ _ _ _ Hblk) as (b & fs & Hb & _ & R & _ & Hav & Hcore).
  destruct (proj1 Hav Hlav) as [_ Hroom].
  destruct (emplace_slot_throws _ _ _ R Hroom) as (f' & He & R' & Hcap & Hhw & Hfh & Hel).
  exists (set_field_at l f' w). split; [|split; [|split; [done|]]].
  - unfold emplace_available. by erewrite bind_ret_eq by (by eapply on_field_ok).
  - eapply (store_rep_update w) with (lay' := lay); [exact S|apply entries_middle|apply entries_middle
      |exact Hcore| | |exact R'|exact Hcap|done| | | |done..|].
    + intros j. rewrite core_of_field. case_decide; [|done]. subst. by rewrite Hcore.
    + apply same_store_field.
    + assert (has_room f' = has_room (field b)) as ->; [|done].
      unfold has_room. by rewrite Hhw, Hfh, Hcap.
    + apply (sr_nonempty _ _ _ _ _ _ _ _ _ S).
    + eapply links_rep_ext; [exact L|apply L|done|apply same_links_field].
    + apply (sr_size _ _ _ _ _ _ _ _ _ S).
  - intros l' i'. rewrite elem_at_field by eauto. case_decide; [|done]. subst.
    rewrite Hel. unfold elem_at. by rewrite Hb.
Qed.

(** What the list operations keep of a control block. *)
Definition same_counts k k' : Prop :=
  owner k' = owner k /\ control_allocation k' = control_allocation k /\
  ctl_size k' = ctl_size k /\ ctl_capacity k' = ctl_capacity k.

Lemma appended_counts l k : same_counts k (appended_control l k).
Proof. unfold appended_control. by destruct (active_tail k). Qed.

(** A block with one element is appended to the active list, and to the
    available one when it has room. *)
Lemma activate_ok w c k ls bs rs av l b v :
  links_rep w c k ls bs rs av -> l ∈ ls -> l ∉ bs -> l ∉ av ->
  blocks w !! l = Some b -> block_rep (field b) [Live v] [] ->
  exists w' k' av', activate c l w = (Ret tt, w') /\ same_fields c w w' /\ same_counts k k' /\
    links_rep w' c k' ls (bs ++ [l]) rs av' /\
    (forall j, j <> l -> j ∈ av' <-> j ∈ av) /\ (l ∈ av' <-> has_room (field b) = true).
Proof.
  intros L Hl Hlb Hla Hb R. unfold activate.
  destruct (active_append_spec _ _ _ _ _ _ _ _ L Hl Hlb) as (w1 & Hrun & Hs & L1).
  rewrite (bind_ret_eq _ _ _ _ _ Hrun).
  assert (exists b1, blocks w1 !! l = Some b1 /\ field b1 = field b) as (b1 & Hb1 & Hf1).
  { pose proof (sf_core _ _ _ Hs l) as Hc. unfold core_of in Hc. rewrite Hb in Hc.
    destruct (blocks w1 !! l) as [b1|]; simpl in Hc; [|done]. unfold core in Hc. exists b1. split; congruence. }
  rewrite (bind_ret_eq _ _ _ _ _ (get_block_ok _ _ _ Hb1)), Hf1.
  assert (negb (high_water (field b) =? capacity (field b)) = has_room (field b)) as ->.
  { unfold has_room. rewrite (free_list_nil_npos _ _ _ R). simpl.
    pose proof (rep_high_water _ _ _ R). pose proof (rep_bound _ _ _ R). case_zb; case_zb; try done; lia. }
  destruct (has_room (field b)).
  - destruct (available_add_spec _ _ _ _ _ _ _ _ L1 Hl Hla) as (w2 & Hrun2 & Hs2 & L2).
    eexists w2, _, (l :: av). split; [exact Hrun2|]. split; [by eapply same_fields_trans|].
    split; [|split; [exact L2|]].
    + by destruct (appended_counts l k) as (? & ? & ? & ?).
    + split; [|split; [done|intros _; apply list_elem_of_here]].
      intros j Hj. rewrite elem_of_cons. naive_solver.
  - eexists w1, _, av. split; [done|]. split; [done|]. split; [apply appended_counts|].
    split; [exact L1|]. done.
Qed.

Lemma core_of_alter l (g : block_type T -> block_type T) w j :
  (forall b, core (g b) = core b) ->
  core_of (set_blocks (alter g l (blocks w)) w) j = core_of w j.
Proof.
  intros Hg. unfold core_of. simpl. rewrite lookup_alter. case_decide; [|done]. subst.
  destruct (blocks w !! j); simpl; [by rewrite Hg|done].
Qed.

(** The head of the reserved list is taken out. *)
Lemma reserved_pop w w' c k ls bs l rs av b :
  links_rep w c k ls bs (l :: rs) av -> blocks w !! l = Some b ->
  controls w' !! c = Some (with_reserved_head (reserved_next b) k) ->
  blocks w' = alter (with_reserved_next None) l (blocks w) ->
  links_rep w' c (with_reserved_head (reserved_next b) k) ls bs rs av.
Proof.
  intros L Hb Hk' Hbl. pose proof (lr_reserved _ _ _ _ _ _ _ L) as [Hn Hr].
  pose proof (lr_nodup _ _ _ _ _ _ _ L) as (_ & [Hlr Hn2]%NoDup_cons & _).
  pose proof (lr_sub _ _ _ _ _ _ _ L) as (_ & Hs & _).
  unfold rnext in Hn. rewrite Hb in Hn. simpl in Hn. rewrite hd_or_Some in Hn. injection Hn as Hn.
  eapply (links_rep_reserved w w' c k _ ls bs (l :: rs) rs av L Hk').
  - by rewrite Hn.
  - intros j b' Hj Hjb. rewrite Hbl, lookup_alter.
    case_decide as Hjl.
    + subst j. rewrite Hjb. eexists. split; [done|]. split; [done|]. split; [done|].
      by rewrite decide_False.
    + exists b'. split; [done|]. split; [done|]. split; [done|].
      destruct (lr_flags _ _ _ _ _ _ _ L j b' Hj Hjb) as (_ & _ & Hf).
      rewrite (decide_ext (j ∈ l :: rs) (j ∈ rs)) in Hf; [done|].
      rewrite elem_of_cons. naive_solver.
  - intros j Hj. apply Hs. by right.
  - done.
  - eapply sseg_ext; [|exact Hr]. intros j Hj. unfold rnext.
    rewrite Hbl, lookup_alter_ne; [done|]. by intros ->.
Qed.

Lemma emplace_reserved_ok w this c k lim cs rs av F l v h :
  store_rep w this c k lim cs rs av F -> hives w !! this = Some h -> head rs = Some l ->
  exists w' k' cs' rs' av', emplace_reserved this c l (Some v) w = (Ret (at_element l 0), w') /\
    store_rep w' this c k' lim cs' rs' av' F /\ stored w w' l 0 v /\
    cs' = cs ++ [(l, [Live v])] /\
    hives w' = <[this := with_end_epoch (u64 (end_epoch_ h + 1)) h]> (hives w).
Proof.
  intros S Hh Hhead. pose proof (sr_links _ _ _ _ _ _ _ _ _ S) as L.
  destruct rs as [|l0 rs]; [done|]. injection Hhead as ->.
  destruct (store_rep_reserved _ _ _ _ _ _ _ _ _ l S (list_elem_of_here _ _)) as (Hlc & Hla & Hblk).
  destruct (block_ok_cell _ _ _ _ _ _ Hblk) as (b & fs & Hb & _ & R & _ & Hav & Hcore).
  assert (fs = []) as -> by apply (rep_no_elems _ _ _ R eq_refl).
  destruct (emplace_first_spec _ v R) as (f' & He & R' & Hcap & Hel).
  set (w1 := set_field_at l f' w).
  set (b1 := with_field f' b).
  set (k1 := with_reserved_head (reserved_next b) k).
  assert (blocks w1 !! l = Some b1) as Hb1 by by (simpl; rewrite lookup_alter_eq, Hb).
  assert (links_rep w1 c k (entries cs (l :: rs)).*1 cs.*1 (l :: rs) av) as L1.
  { eapply links_rep_ext; [exact L|apply L|done|apply same_links_field]. }
  set (w2 := set_controls (<[c := k1]> (controls w1)) w1).
  set (w3 := set_blocks (alter (with_reserved_next None) l (blocks w2)) w2).
  assert (links_rep w3 c k1 (entries cs (l :: rs)).*1 cs.*1 rs av) as L3.
  { eapply (reserved_pop w1 w3 c k _ _ l rs av b1 L1 Hb1); [apply lookup_insert_eq|done]. }
  assert (blocks w3 !! l = Some (with_reserved_next None b1)) as Hb3.
  { simpl. by rewrite lookup_alter_eq, lookup_alter_eq, Hb. }
  assert (l ∈ (entries cs (l :: rs)).*1) as Hls.
  { rewrite entries_fst. apply elem_of_app. right. apply list_elem_of_here. }
  destruct (activate_ok w3 c k1 _ _ _ _ l _ v L3 Hls Hlc Hla Hb3 R')
    as (w4 & k4 & av' & Hact & Hs & (Ho & Hca & Hsz & Hcp) & L4 & Hav' & Hl4).
  pose proof (sr_size _ _ _ _ _ _ _ _ _ S) as Hsize.
  assert (ctl_size k4 = ctl_size k) as Hsz4 by (rewrite Hsz; done).
  set (k5 := with_size (ctl_size k4 + 1) k4).
  set (w5 := set_controls (<[c := k5]> (controls w4)) w4).
  assert (hives w5 = hives w) as Hh5 by (simpl; by rewrite (sf_hives _ _ _ Hs)).
  exists (set_hives (<[this := with_end_epoch (u64 (end_epoch_ h + 1)) h]> (hives w5)) w5).
  exists k5, (cs ++ [(l, [Live v])]), rs, av'.
  split; [|split; [|split; [|split; [done|]]]].
  - unfold emplace_reserved.
    erewrite bind_ret_eq by (by eapply on_field_ok). fold w1. cbv beta iota.
    rewrite (bind_ret_eq _ _ _ _ _ (get_block_ok _ _ _ Hb1)).
    erewrite bind_ret_eq by (apply upd_control_ok, L1). fold w2.
    erewrite bind_ret_eq by (apply upd_block_ok; by exists b1). fold w3.
    rewrite (bind_ret_eq _ _ _ _ _ Hact). unfold inc_size.
    erewrite bind_ret_eq by (apply upd_control_ok, L4). cbv beta.
    rewrite Hsz4, (size_step _ _ _ _ _ _ _ _ _ S), <- Hsz4. fold k5 w5.
    unfold touch_end. erewrite bind_ret_eq by (apply upd_hive_ok; by rewrite Hh5). done.
  - apply store_rep_hives.
    eapply (store_rep_update w w5) with (l := l) (lay := []) (lay' := [Live v]);
      [exact S|apply entries_reserved|rewrite entries_middle, app_nil_r; done
      |exact Hcore| | |exact R'|exact Hcap|exact Hav'| | | |done|done|done|].
    + intros j. change (core_of w5 j) with (core_of w4 j). rewrite (sf_core _ _ _ Hs).
      transitivity (core_of w1 j).
      { apply (core_of_alter l (with_reserved_next None) w2 j). done. }
      unfold w1. rewrite core_of_field. case_decide; [|done]. subst. by rewrite Hcore.
    + eapply same_store_trans; [|apply same_store_control].
      eapply same_store_trans; [|by apply same_fields_store].
      split; try done. intros c2 Hc2. simpl. by rewrite lookup_insert_ne.
    + rewrite Hl4. split; [|by intros []]. intros; split; [done|done].
    + pose proof (sr_nonempty _ _ _ _ _ _ _ _ _ S) as Hne. rewrite Forall_app, Forall_singleton. done.
    + rewrite fmap_app. eapply links_rep_ext; [exact L4|apply lookup_insert_eq|done|].
      intros j b' _ Hj. by exists b'.
    + simpl. rewrite contents_app, length_app, Hsz4. simpl. lia.
  - split; [unfold elem_at; rewrite Hb; apply Hel|]. split; [done|]. intros l' i' _.
    change (elem_at (set_hives _ w5) l' i') with (elem_at w4 l' i').
    rewrite (elem_at_same_fields _ _ _ _ _ Hs).
    transitivity (elem_at w1 l' i').
    { rewrite !elem_at_core. unfold w3. by rewrite (core_of_alter l (with_reserved_next None) w2 l' ltac:(done)). }
    unfold w1. rewrite elem_at_field by eauto. destruct (decide (l = l')) as [<-|].
    + destruct Hel as [_ Hel]. rewrite Hel. unfold elem_at. rewrite Hb. simpl.
      repeat case_decide; naive_solver.
    + by rewrite decide_False by naive_solver.
  - simpl. by rewrite (sf_hives _ _ _ Hs).
Qed.

Lemma emplace_reserved_throws w this c k lim cs rs av F l :
  store_rep w this c k lim cs rs av F -> head rs = Some l ->
  exists w', emplace_reserved this c l None w = (Raise element_exn, w') /\
    store_rep w' this c k lim cs rs av F /\ hives w' = hives w /\
    forall l' i', elem_at w' l' i' = elem_at w l' i'.
Proof.
  intros S Hhead. pose proof (sr_links _ _ _ _ _ _ _ _ _ S) as L.
  destruct rs as [|l0 rs]; [done|]. injection Hhead as ->.
  destruct (store_rep_reserved _ _ _ _ _ _ _ _ _ l S (list_elem_of_here _ _)) as (Hlc & Hla & Hblk).
  destruct (block_ok_cell _ _ _ _ _ _ Hblk) as (b & fs & Hb & _ & R & _ & Hav & Hcore).
  assert (fs = []) as -> by apply (rep_no_elems _ _ _ R eq_refl).
  destruct (emplace_first_throws _ R) as (f' & He & R' & Hcap & Hel).
  exists (set_field_at l f' w). split; [|split; [|split; [done|]]].
  - unfold emplace_reserved. by erewrite bind_ret_eq by (by eapply on_field_ok).
  - eapply (store_rep_update w) with (lay' := []); [exact S|apply entries_reserved|apply entries_reserved
      |exact Hcore| | |exact R'|exact Hcap|done| | | |done..|].
    + intros j. rewrite core_of_field. case_decide; [|done]. subst. by rewrite Hcore.
    + apply same_store_field.
    + split; [done|by intros []].
    + apply (sr_nonempty _ _ _ _ _ _ _ _ _ S).
    + eapply links_rep_ext; [exact L|apply L|done|apply same_links_field].
    + apply (sr_size _ _ _ _ _ _ _ _ _ S).
  - intros l' i'. rewrite elem_at_field by eauto. case_decide; [|done]. subst.
    rewrite Hel. unfold elem_at. by rewrite Hb.
Qed.

(** ** Growth *)

Lemma growth_capacity_bounds lim current cap :
  limits_ok lim -> (0 <= current)%Z -> growth_capacity lim current = Some cap ->
  within lim cap = true /\ (1 <= cap <= slot_npos)%Z /\ (current + cap <= max_size)%Z.
Proof.
  intros [_ H0] Hc. unfold growth_capacity.
  destruct (((lim_min lim =? 0) || (allocation_block_max lim <? lim_min lim) || (max_size <? current) ||
    (max_size - current <? lim_min lim))) eqn:E; [done|].
  apply orb_false_iff in E as [[[E1 E2]%orb_false_iff E3]%orb_false_iff E4].
  apply Z.eqb_neq in E1. apply Z.ltb_ge in E2, E3, E4. intros [= <-].
  assert (allocation_block_max lim <= lim_max lim /\ allocation_block_max lim <= slot_npos)%Z.
  { unfold allocation_block_max. lia. }
  destruct_ex.
  unfold within. rewrite andb_true_iff, !Z.leb_le. lia.
Qed.

Lemma links_rep_new_block w c k ls bs rs av l w' b :
  links_rep w c k ls bs rs av -> l ∉ ls ->
  blocks w' = <[l := b]> (blocks w) -> controls w' = controls w ->
  act b = ActivePart None None 0 false -> avl b = AvailablePart None None false ->
  reserved_next b = None -> links_rep w' c k (l :: ls) bs rs av.
Proof.
  intros L Hl Hb Hc H1 H2 H3.
  pose proof L as [Hk Hls (Hs1 & Hs2 & Hs3) Hn Hh Hrh Hvh Ha Hv Hr Hf].
  assert (forall j, j ∈ ls -> blocks w' !! j = blocks w !! j) as Hbj.
  { intros j Hj. rewrite Hb, lookup_insert_ne; [done|by intros ->]. }
  split; try done.
  - by rewrite Hc.
  - intros j [->|Hj]%elem_of_cons; [rewrite Hb, lookup_insert_eq; eauto|rewrite Hbj by done; auto].
  - split; [|split]; intros j Hj; right; auto.
  - eapply dseg_ext; [|exact Ha]. intros j Hj. unfold alinks. by rewrite Hbj by auto.
  - eapply dseg_ext; [|exact Hv]. intros j Hj. unfold vlinks. by rewrite Hbj by auto.
  - eapply sseg_ext; [|exact Hr]. intros j Hj. unfold rnext. by rewrite Hbj by auto.
  - intros j b' [->|Hj]%elem_of_cons Hjb.
    + rewrite Hb, lookup_insert_eq in Hjb. injection Hjb as <-.
      rewrite !decide_False by auto. by rewrite H1.
    + rewrite Hbj in Hjb by done. auto.
Qed.

Lemma store_rep_not_fresh w this c k lim cs rs av F l :
  store_rep w this c k lim cs rs av F -> (next_loc w <= l)%Z -> l ∉ (entries cs rs).*1.
Proof.
  intros S Hl Hin. destruct (lr_blocks _ _ _ _ _ _ _ (sr_links _ _ _ _ _ _ _ _ _ S) l Hin) as [b Hb].
  destruct (sr_fresh _ _ _ _ _ _ _ _ _ S l Hl) as [Hn _]. congruence.
Qed.

Lemma emplace_grow_ok w this c k lim cs rs av F (x : option T) cap nc h (P : world T -> Prop) :
  store_rep w this c k lim cs rs av F -> hives w !! this = Some h ->
  within lim cap = true -> (1 <= cap <= slot_npos)%Z -> (ctl_capacity k + cap <= max_size)%Z ->
  (forall w1, bumped w w1 ->
     post (drop_control c nc w1) (fun _ => P) no_exn) ->
  post (emplace_grow this c nc cap x w)
    (fun it w' => exists k' cs' av' l v, x = Some v /\ it = at_element l 0 /\
       store_rep w' this c k' lim cs' rs av' F /\ stored w w' l 0 v /\
       cs' = cs ++ [(l, [Live v])] /\
       hives w' = <[this := with_end_epoch (u64 (end_epoch_ h + 1))
         (if nc then with_control_ (Some c) h else h)]> (hives w))
    (fun _ w' => P w').
Proof.
  intros S Hh Hwith Hcap Hmax HP. unfold emplace_grow. apply post_bind, post_on_raise.
  eapply post_mono; [apply allocate_block_ok, S| |by intros e w1 [_ Hb]; auto].
  intros l w1 (Hl & F1 & C1 & H1 & sa & ka & B1 & A1). apply post_bind, post_on_raise.
  pose proof (store_rep_not_fresh _ _ _ _ _ _ _ _ _ l S ltac:(lia)) as Hl0.
  assert (blocks w1 !! l = Some (fresh_block c l sa ka cap)) as Hb1 by by rewrite B1, lookup_insert_eq.
  assert (blocks w !! l = None) as Hnone by (apply (sr_fresh _ _ _ _ _ _ _ _ _ S); lia).
  pose proof (fresh_field_rep (T := T) cap Hcap) as R.
  destruct x as [v|].
  2: { destruct (emplace_first_throws _ R) as (f' & He & R' & Hc' & _).
    erewrite bind_ret_eq by (by eapply on_field_ok). simpl. apply post_bind.
    destruct (deallocate_block_ok (set_field_at l f' w1) l
      (with_field f' (fresh_block c l sa ka cap)) (allocs w)) as (w2 & -> & B2 & C2 & H2 & N2 & F2 & A2).
    - simpl. by rewrite lookup_alter_eq, Hb1.
    - intros j Hj. simpl in *. destruct (F1 j Hj) as (? & ? & ?).
      by rewrite lookup_alter_ne by lia.
    - unfold owned_by. rewrite core_of_field, decide_True by done. unfold core_of. rewrite Hb1. simpl.
      rewrite Hc'. exact A1.
    - simpl. apply HP. split; try done.
      + rewrite B2. simpl. rewrite B1, delete_alter_eq, delete_insert_id by done. done.
      + by rewrite C2.
      + by rewrite H2.
      + rewrite N2. simpl. lia. }
  destruct (emplace_first_spec _ v R) as (f' & He & R' & Hc' & Hnone' & Hel).
  set (w2 := set_field_at l f' w1).
  set (b2 := with_field f' (fresh_block c l sa ka cap)).
  erewrite bind_ret_eq by (by eapply on_field_ok). fold w2. cbn beta iota. simpl post.
  apply post_bind.
  set (h3 := if nc then with_control_ (Some c) h else h).
  set (w3 := set_hives (<[this := h3]> (hives w)) w2).
  assert (hives w2 = hives w) as Hh2 by done.
  eapply (post_ret _ _ w3 tt).
  { unfold w3, h3, drop_control. destruct nc.
    - rewrite (upd_hive_ok w2 this h) by (by rewrite Hh2). by rewrite Hh2.
    - unfold ret. rewrite insert_id by done. rewrite <- Hh2. done. }
  assert (blocks w3 !! l = Some b2) as Hb3 by (by simpl; rewrite lookup_alter_eq, Hb1).
  pose proof (sr_links _ _ _ _ _ _ _ _ _ S) as L.
  assert (blocks w3 = <[l := b2]> (blocks w)) as Hbw3 by (simpl; rewrite B1; apply alter_insert_eq).
  assert (links_rep w3 c k (l :: (entries cs rs).*1) cs.*1 rs av) as L3.
  { by eapply (links_rep_new_block w c k _ _ _ _ l w3 b2). }
  assert (l ∉ cs.*1 /\ l ∉ av) as [Hlc Hla].
  { pose proof (lr_sub _ _ _ _ _ _ _ L) as (Hs1 & _ & Hs3). split; intros ?; apply Hl0; auto. }
  destruct (activate_ok w3 c k _ _ _ _ l _ v L3 (list_elem_of_here _ _) Hlc Hla Hb3 R')
    as (w4 & k4 & av' & Hact & Hs & (Ho & Hca & Hsz & Hcp) & L4 & Hav' & Hl4).
  apply post_bind. eapply post_ret; [exact Hact|].
  destruct (core_of_block w4 l c l sa ka f') as (b4 & Hb4 & _ & _ & _ & _ & Hf4).
  { rewrite (sf_core _ _ _ Hs). unfold core_of. by rewrite Hb3. }
  destruct (store_rep_counters _ _ _ _ _ _ _ _ _ S) as [Hcs Hcn].
  assert (capacity f' = cap) as Hfc by (by rewrite Hc').
  assert (max_size < npos)%Z as Hmx by (pose proof max_size_bound; lia).
  set (k5 := with_capacity (ctl_capacity k + cap) k4).
  set (w5 := set_controls (<[c := k5]> (controls w4)) w4).
  set (k6 := with_size (ctl_size k + 1) k5).
  set (w6 := set_controls (<[c := k6]> (controls w5)) w5).
  apply post_bind. eapply post_ret; [by apply get_block_ok|]. rewrite Hf4, Hfc.
  apply post_bind. eapply (post_ret _ _ w5).
  { rewrite (upd_control_ok _ _ _ _ (lr_control _ _ _ _ _ _ _ L4)). rewrite Hcp.
    unfold w5, k5. by rewrite u64_small by (unfold npos in *; lia). }
  apply post_bind. eapply (post_ret _ _ w6).
  { unfold inc_size. rewrite (upd_control_ok w5 c k5) by apply lookup_insert_eq.
    simpl. rewrite Hsz. unfold w6, k6. by rewrite u64_small by (unfold npos in *; lia). }
  assert (hives w6 = <[this := h3]> (hives w)) as Hh6.
  { simpl. by rewrite (sf_hives _ _ _ Hs). }
  apply post_bind. unfold touch_end.
  eapply post_ret; [apply upd_hive_ok; rewrite Hh6; apply lookup_insert_eq|].
  simpl. set (wf := set_hives _ w6).
  exists k6, (cs ++ [(l, [Live v])]), av', l, v.
  assert (forall j, core_of wf j = core_of w3 j) as Hcf.
  { intros j. transitivity (core_of w4 j); [done|]. apply (sf_core _ _ _ Hs). }
  assert (core_of wf l = Some (c, l, sa, ka, f')) as Hcl.
  { rewrite Hcf. unfold core_of. by rewrite Hb3. }
  split; [done|]. split; [done|]. split; [|split; [|split; [done|]]].
  - eapply (store_rep_add w) with (l := l); [exact S|exact Hl0| | |exact Hcl|exact R'
      |by rewrite Hfc|exact Hav'| | | |done|done| | | | |].
    + by rewrite entries_middle, app_nil_r.
    + intros j Hj. rewrite Hcf. unfold core_of. by rewrite Hbw3, lookup_insert_ne.
    + rewrite Hl4. split; [by intros|by intros []].
    + pose proof (sr_nonempty _ _ _ _ _ _ _ _ _ S) as Hne. by rewrite Forall_app, Forall_singleton.
    + rewrite fmap_app. eapply links_rep_ext; [exact L4|apply lookup_insert_eq|done|].
      intros j b' _ Hj. by exists b'.
    + simpl. by rewrite Hfc.
    + simpl. lia.
    + simpl. rewrite contents_app, length_app. simpl. rewrite (sr_size _ _ _ _ _ _ _ _ _ S). lia.
    + unfold owned_by. rewrite Hcl, Hfc.
      assert (allocs wf = allocs w1) as -> by (unfold allocs; simpl; by rewrite (sf_ledger _ _ _ Hs)). 
      exact A1.
    + intros j Hj. simpl in Hj. rewrite (sf_next _ _ _ Hs) in Hj. simpl in Hj.
      destruct (F1 j Hj) as (Hj1 & Hj2 & Hj3).
      assert (j <> c).
      { intros ->. rewrite C1 in Hj2. rewrite (lr_control _ _ _ _ _ _ _ L) in Hj2. done. }
      simpl. rewrite !lookup_insert_ne by done. rewrite (sf_ledger _ _ _ Hs), (sf_controls _ _ _ Hs) by done.
      split; [|done]. specialize (Hcf j). unfold core_of in Hcf. simpl in Hcf.
      rewrite B1, alter_insert_eq, lookup_insert_ne in Hcf by lia.
      rewrite B1, lookup_insert_ne in Hj1 by lia. rewrite Hj1 in Hcf.
      by destruct (blocks w4 !! j).
  - split; [unfold elem_at; by rewrite Hnone|]. split; [done|]. intros l' i' Hi'.
    rewrite !elem_at_core, Hcf. unfold core_of. rewrite Hbw3, lookup_insert.
    destruct (decide (l = l')) as [<-|]; simpl.
    + rewrite Hel, Hnone. simpl. repeat case_decide; naive_solver.
    + by rewrite decide_False by naive_solver.
  - simpl. rewrite (sf_hives _ _ _ Hs). simpl. rewrite insert_insert_eq.
    assert (end_epoch_ h3 = end_epoch_ h) as -> by (unfold h3; by destruct nc). done.
Qed.

(** ** [emplace] *)

(** An operation that failed left the hive and every element where it was. *)
Definition unchanged w w' this cs rs av F : Prop :=
  hive_rep w' this cs rs av F /\ hives w' = hives w /\
  forall l i, elem_at w' l i = elem_at w l i.

(** An operation that put [v] in the hive. *)
Definition gained w w' this cs F v (it : iterator) : Prop :=
  exists cs' rs' av' l i, it = at_element l i /\ hive_rep w' this cs' rs' av' F /\
    stored w w' l i v /\ inserted (l, i, v) (spots cs) (spots cs') /\ cs.*1 `prefix_of` cs'.*1.

Lemma hive_capacity_ok w this cs rs av F h :
  hive_rep w this cs rs av F -> hives w !! this = Some h ->
  exists n, hive_capacity this w = (Ret n, w) /\ (0 <= n)%Z /\
    match control_ h with
    | None => n = 0%Z
    | Some c => exists k, store_rep w this c k (limits_ h) cs rs av F /\ n = ctl_capacity k
    end.
Proof.
  intros (h' & Hh & _ & Hc) Hh'. assert (h' = h) as -> by congruence. unfold hive_capacity.
  erewrite bind_ret_eq by (by apply get_hive_ok). destruct (control_ h) as [c|].
  - destruct Hc as [k S]. erewrite bind_ret_eq by (apply get_control_ok, S).
    exists (ctl_capacity k). destruct (store_rep_counters _ _ _ _ _ _ _ _ _ S).
    split; [done|]. split; [lia|]. eauto.
  - by exists 0%Z.
Qed.

Lemma elem_at_blocks w w' l i : blocks w' = blocks w -> elem_at w' l i = elem_at w l i.
Proof. unfold elem_at. by intros ->. Qed.

Lemma prefix_fmap_snoc cs l (lay : list (segment T)) : cs.*1 `prefix_of` (cs ++ [(l, lay)]).*1.
Proof. rewrite fmap_app. by apply prefix_app_r. Qed.

Lemma inserted_snoc cs l v : inserted (l, 0, v) (spots cs) (spots (cs ++ [(l, [Live v])])).
Proof. exists (spots cs), []. rewrite spots_app. simpl. by rewrite app_nil_r. Qed.

Lemma emplace_new_spec w this cs rs av F (x : option T) :
  hive_rep w this cs rs av F ->
  post (emplace_new this x w)
    (fun it w' => exists v, x = Some v /\ gained w w' this cs F v it)
    (fun _ w' => unchanged w w' this cs rs av F).
Proof.
  intros HR. pose proof HR as (h & Hh & Hlim & Hctl). unfold emplace_new.
  erewrite bind_ret_eq by (by apply get_hive_ok).
  destruct (hive_capacity_ok _ _ _ _ _ _ _ HR Hh) as (n & Hn & Hn0 & Hk).
  rewrite (bind_ret_eq _ _ _ _ _ Hn).
  destruct (growth_capacity (limits_ h) n) as [cap|] eqn:Hg; [|by repeat split].
  destruct (growth_capacity_bounds _ _ _ Hlim Hn0 Hg) as (Hw & Hc1 & Hmax).
  destruct (control_ h) as [c|] eqn:Hch.
  - destruct Hk as (k & S & ->).
    eapply post_mono; [eapply (emplace_grow_ok w this c k) with
      (P := fun w' => unchanged w w' this cs rs av F); try done| |done].
    + intros w1 Hb. unfold drop_control. simpl. split; [|split; [apply Hb|]].
      * eapply hive_rep_intro; [done..|by eapply store_rep_bumped|by rewrite (bm_hives _ _ Hb)|done|done].
      * intros l i. apply elem_at_blocks, Hb.
    + intros it w' (k' & cs' & av' & l & v & -> & -> & S' & Hst & Hcs & Hh').
      exists v. split; [done|]. exists cs', rs, av', l, 0%Z. split; [done|]. split; [|split; [done|]].
      * eapply hive_rep_intro; [done..|exact S'|by rewrite Hh', lookup_insert_eq|done|done].
      * subst cs'. split; [|apply prefix_fmap_snoc].
        apply inserted_snoc.
  - subst n. destruct Hctl as (-> & -> & -> & Hf & HF). apply post_bind.
    eapply post_mono; [by eapply (allocate_control_ok w this (limits_ h) F)| |].
    2: { intros e w1 [_ Hb]. split; [|split; [apply Hb|]].
         - exists h. rewrite (bm_hives _ _ Hb), Hch. split; [done|]. split; [done|].
           repeat (split; [done|]). split; [apply Hb|]. etrans; [apply Hb|done].
         - intros l i. apply elem_at_blocks, Hb. }
    intros c w1 (S & Hh1 & Hb1). rewrite <- Hh1 in Hh.
    eapply post_mono; [eapply (emplace_grow_ok w1 this c _) with
      (P := fun w' => unchanged w w' this [] [] [] F); try done| |done].
    + intros w2 Hb. destruct (deallocate_control_ok w2 this c (new_control this c) (limits_ h) F)
        as (w3 & Hd & Hf3 & HF3 & Hh3 & Hb3); [by eapply store_rep_bumped|].
      simpl. rewrite Hd. simpl. split; [|split].
      * exists h. rewrite Hh3, (bm_hives _ _ Hb), Hch. done.
      * by rewrite Hh3, (bm_hives _ _ Hb).
      * intros l i. apply elem_at_blocks. by rewrite Hb3, (bm_blocks _ _ Hb).
    + intros it w' (k' & cs' & av' & l & v & -> & -> & S' & Hst & Hcs & Hh').
      exists v. split; [done|]. exists cs', [], av', l, 0%Z. split; [done|].
      split; [|split; [|split]].
      * eexists. split; [by rewrite Hh', lookup_insert_eq|]. split; [done|]. simpl. eauto.
      * destruct Hst as (H1 & H2 & H3). split; [by rewrite (elem_at_blocks w w1) in H1|].
        split; [done|]. intros l' i' Hi'. rewrite H3 by done. by rewrite (elem_at_blocks w w1).
      * subst cs'. apply (inserted_snoc [] l v).
      * subst cs'. apply prefix_nil.
Qed.

Lemma emplace_spec w this cs rs av F (x : option T) :
  hive_rep w this cs rs av F ->
  post (emplace this x w)
    (fun it w' => exists v, x = Some v /\ gained w w' this cs F v it)
    (fun _ w' => unchanged w w' this cs rs av F).
Proof.
  intros HR. pose proof HR as (h & Hh & Hlim & Hctl). unfold emplace.
  erewrite bind_ret_eq by (by apply get_hive_ok).
  destruct (control_ h) as [c|] eqn:Hch; [|by apply emplace_new_spec].
  destruct Hctl as [k S]. pose proof (sr_links _ _ _ _ _ _ _ _ _ S) as L.
  erewrite bind_ret_eq by (by apply get_control_ok, L).
  rewrite (lr_available_head _ _ _ _ _ _ _ L).
  destruct (head av) as [l|] eqn:Hav; [|rewrite (lr_reserved_head _ _ _ _ _ _ _ L);
    destruct (head rs) as [l|] eqn:Hrs; [|by apply emplace_new_spec]].
  - destruct x as [v|].
    + destruct (emplace_available_ok _ _ _ _ _ _ _ _ _ _ v _ S Hh Hav)
        as (w' & k' & cs' & av' & i & -> & S' & Hst & Hin & Hcs & Hh').
      simpl. exists v. split; [done|]. exists cs', rs, av', l, i. split; [done|].
      split; [|by rewrite Hcs].
      eapply hive_rep_intro; [done..|exact S'|by rewrite Hh', lookup_insert_eq|done|done].
    + destruct (emplace_available_throws _ _ _ _ _ _ _ _ _ _ S Hav) as (w' & -> & S' & Hh' & He).
      simpl. split; [|done]. eapply hive_rep_intro; [done..|exact S'|by rewrite Hh'|done|done].
  - destruct x as [v|].
    + destruct (emplace_reserved_ok _ _ _ _ _ _ _ _ _ _ v _ S Hh Hrs)
        as (w' & k' & cs' & rs' & av' & -> & S' & Hst & Hcs & Hh').
      simpl. exists v. split; [done|]. exists cs', rs', av', l, 0%Z. split; [done|].
      split; [|subst cs'; split; [done|split; [apply inserted_snoc|apply prefix_fmap_snoc]]].
      eapply hive_rep_intro; [done..|exact S'|by rewrite Hh', lookup_insert_eq|done|done].
    + destruct (emplace_reserved_throws _ _ _ _ _ _ _ _ _ _ S Hrs) as (w' & -> & S' & Hh' & He).
      simpl. split; [|done]. eapply hive_rep_intro; [done..|exact S'|by rewrite Hh'|done|done].
Qed.
End insert.

(** ** Erasure from a hive

    [erase] removes one element and nothing else: every other element keeps its
    slot, and the result is the iterator to the element that followed.  A block
    that loses its last element moves to the reserved list. *)

Section erase.
Context {T : Type} `{cfg : Config}.
Implicit Types (l j c this : loc) (b : block_type T) (k : control_type).
Implicit Types (w : world T) (bs rs av ls : list loc) (f : skipfield T) (v x : T).
Implicit Types (lay : list (segment T)).
Implicit Types (cs : list (loc * list (segment T))) (F : list (loc * allocation)).

(** ** The lists *)

Lemma reserved_push w w' c k ls bs rs av l :
  links_rep w c k ls bs rs av -> l ∈ ls -> l ∉ rs ->
  controls w' !! c = Some (with_reserved_head (Some l) k) ->
  blocks w' = alter (with_reserved_next (reserved_head k)) l (blocks w) ->
  links_rep w' c (with_reserved_head (Some l) k) ls bs (l :: rs) av.
Proof.
  intros L Hl Hlr Hk' Hb. pose proof (lr_reserved _ _ _ _ _ _ _ L) as Hr.
  pose proof (lr_nodup _ _ _ _ _ _ _ L) as (_ & Hn & _).
  pose proof (lr_sub _ _ _ _ _ _ _ L) as (_ & Hs & _).
  eapply (links_rep_reserved w w' c k _ ls bs rs (l :: rs) av L Hk'); [done| | | |].
  - intros j b Hj Hjb. rewrite Hb, lookup_alter. case_decide as Hjl.
    + subst j. rewrite Hjb. eexists. split; [done|]. split; [done|]. split; [done|].
      by rewrite decide_True by apply list_elem_of_here.
    + exists b. split; [done|]. split; [done|]. split; [done|].
      destruct (lr_flags _ _ _ _ _ _ _ L j b Hj Hjb) as (_ & _ & Hf).
      rewrite (decide_ext (j ∈ l :: rs) (j ∈ rs)); [done|]. rewrite elem_of_cons. naive_solver.
  - intros j [->|Hj]%elem_of_cons; auto.
  - by constructor.
  - split.
    + unfold rnext. rewrite Hb, lookup_alter_eq. destruct (lr_blocks _ _ _ _ _ _ _ L l Hl) as [b ->].
      simpl. by rewrite hd_or_Some, (lr_reserved_head _ _ _ _ _ _ _ L).
    + eapply sseg_ext; [|exact Hr]. intros j Hj. unfold rnext.
      rewrite Hb, lookup_alter_ne; [done|]. by intros ->.
Qed.

Lemma available_drop w c k ls bs rs av l :
  links_rep w c k ls bs rs av -> l ∈ ls ->
  exists w' av', available_remove c l w = (Ret tt, w') /\ same_fields c w w' /\
    links_rep w' c (with_available_head (head av') k) ls bs rs av' /\
    (forall j, j <> l -> j ∈ av' <-> j ∈ av) /\ l ∉ av'.
Proof.
  intros L Hl. destruct (decide (l ∈ av)) as [Hav|Hav].
  - apply list_elem_of_split in Hav as (av1 & av2 & ->).
    destruct (available_remove_spec _ _ _ _ _ _ _ _ _ L) as (w' & Hrun & Hs & L').
    exists w', (av1 ++ av2). repeat (split; [done|]). split.
    + intros j Hj. rewrite !elem_of_app, elem_of_cons. naive_solver.
    + pose proof (lr_nodup _ _ _ _ _ _ _ L) as (_ & _ & Hn).
      rewrite <- Permutation_middle in Hn. by apply NoDup_cons in Hn as [? _].
  - exists w, av. split; [by eapply available_remove_absent|]. split; [apply same_fields_refl|].
    split; [|done].
    eapply links_rep_ext; [exact L| |by repeat split; [..|symmetry; apply L]|by intros j b' _ ?; exists b'].
    rewrite (lr_control _ _ _ _ _ _ _ L). f_equal.
    rewrite <- (lr_available_head _ _ _ _ _ _ _ L). by destruct k.
Qed.

Lemma retire_ok w c k ls bs1 l bs2 rs av :
  links_rep w c k ls (bs1 ++ l :: bs2) rs av -> l ∈ ls -> l ∉ rs ->
  exists w' k' av', retire_block c l w = (Ret tt, w') /\ same_store c w w' /\ same_counts k k' /\
    links_rep w' c k' ls (bs1 ++ bs2) (l :: rs) av' /\
    (forall j, j <> l -> j ∈ av' <-> j ∈ av) /\ l ∉ av' /\
    forall j, core_of w' j = if decide (l = j)
      then (fun t => (t.1, reset_vacant_block t.2)) <$> core_of w j else core_of w j.
Proof.
  intros L Hl Hlr. unfold retire_block.
  destruct (available_drop _ _ _ _ _ _ _ _ L Hl) as (w1 & av' & Hr1 & Hs1 & L1 & Hav & Hlav).
  rewrite (bind_ret_eq _ _ _ _ _ Hr1).
  destruct (active_remove_spec _ _ _ _ _ _ _ _ _ L1) as (w2 & Hr2 & Hs2 & L2).
  rewrite (bind_ret_eq _ _ _ _ _ Hr2).
  set (g := fun b : block_type T => with_field (reset_vacant_block (field b)) b).
  set (k2 := removed_control bs1 bs2 (with_available_head (head av') k)) in *.
  set (w3 := set_blocks (alter g l (blocks w2)) w2).
  assert (links_rep w3 c k2 ls (bs1 ++ bs2) rs av') as L3.
  { eapply links_rep_ext; [exact L2|apply L2|done|]. intros j b _ Hb. simpl. rewrite lookup_alter.
    case_decide; [subst; exists (g b); by rewrite Hb|by exists b]. }
  destruct (lr_blocks _ _ _ _ _ _ _ L2 l Hl) as [b2 Hb2].
  erewrite bind_ret_eq by (by apply upd_block_ok). fold g w3.
  erewrite bind_ret_eq by (apply get_control_ok, L3).
  set (w4 := set_blocks (alter (with_reserved_next (reserved_head k2)) l (blocks w3)) w3).
  erewrite bind_ret_eq by (apply upd_block_ok, L3, Hl). fold w4.
  erewrite upd_control_ok by (apply L3).
  eexists _, (with_reserved_head (Some l) k2), av'. split; [done|]. split; [|split; [|split; [|split; [done|split; [done|]]]]].
  - eapply same_store_trans; [by apply same_fields_store|].
    eapply same_store_trans; [by apply same_fields_store|].
    split; try done. intros c' Hc'. simpl. by rewrite lookup_insert_ne.
  - done.
  - by eapply reserved_push; [exact L3|done|done|apply lookup_insert_eq|].
  - intros j. change (core_of (set_controls _ w4) j) with (core_of w4 j).
    unfold w4. rewrite core_of_alter by done.
    rewrite <- (sf_core _ _ _ Hs1), <- (sf_core _ _ _ Hs2). unfold core_of. simpl. rewrite lookup_alter.
    case_decide; [subst|done]. by destruct (blocks w2 !! j).
Qed.

(** ** [erase] *)

(** What [erase] does to the lists once the element is gone: [b] is the block
    in [w], whose slots now encode [lay] and have room. *)
Lemma erase_settle w c k ls cs1 cs2 l lay0 lay rs av b fs :
  links_rep w c k ls (cs1 ++ (l, lay0) :: cs2).*1 rs av -> l ∈ ls -> l ∉ rs ->
  blocks w !! l = Some b -> block_rep (field b) lay fs -> has_room (field b) = true ->
  Forall (fun e => e.2 <> []) (cs1 ++ cs2) ->
  exists w' k' cs' rs' av' lay' f' fs',
    (if live_count (field b) =? 0 then retire_block c l
     else if negb (in_available (avl b)) then available_add c l else ret tt) w = (Ret tt, w') /\
    same_store c w w' /\ same_counts k k' /\
    links_rep w' c k' ls cs'.*1 rs' av' /\
    (forall j, core_of w' j = if decide (l = j) then (fun t => (t.1, f')) <$> core_of w j else core_of w j) /\
    block_rep f' lay' fs' /\ capacity f' = capacity (field b) /\
    (forall j, (0 <= j)%Z -> element f' j = element (field b) j) /\
    (forall j, j <> l -> j ∈ av' <-> j ∈ av) /\ (l ∈ av' <-> lay' <> [] /\ has_room f' = true) /\
    entries cs' rs' ≡ₚ (l, lay') :: entries (cs1 ++ cs2) rs /\
    Forall (fun e => e.2 <> []) cs' /\
    spots cs' = spots cs1 ++ live_spots l 0 lay' ++ spots cs2.
Proof.
  intros L Hl Hlr Hb R Hroom Hne.
  rewrite fmap_app in L. csimpl in L. pose proof (rep_live_count _ _ _ R) as Hlc.
  assert (core_of w l = Some (control b, block_allocation b, slot_allocation b, skip_allocation b, field b))
    as Hcore by (unfold core_of; by rewrite Hb).
  destruct (Z.eqb_spec (live_count (field b)) 0) as [Hz|Hz].
  - assert (lay = [] /\ fs = []) as [-> ->].
    { apply (rep_no_elems _ _ _ R). destruct (elems lay); [done|simpl in *; lia]. }
    destruct (retire_ok _ _ _ _ _ _ _ _ _ L Hl Hlr) as (w' & k' & av' & Hr & Hs & Hk & L' & Hav & Hlav & Hc).
    exists w', k', (cs1 ++ cs2), (l :: rs), av', [], (reset_vacant_block (field b)), [].
    split; [done|]. split; [done|]. split; [done|]. split; [by rewrite fmap_app|].
    split; [|split; [by apply rep_vacant|repeat (split; [done|])]].
    + intros j. rewrite Hc. case_decide; [|done]. subst j. by rewrite Hcore.
    + split; [split; [by intros ?%Hlav|by intros []]|]. split; [apply entries_reserved|].
      split; [done|]. by rewrite spots_app.
  - assert (lay <> []) as Hlay by (intros ->; simpl in *; lia).
    assert (Forall (fun e => e.2 <> []) (cs1 ++ (l, lay) :: cs2)) as Hne'.
    { rewrite Forall_app in Hne. rewrite Forall_app, Forall_cons. naive_solver. }
    assert (forall j, core_of w j = if decide (l = j)
      then (fun t => (t.1, field b)) <$> core_of w j else core_of w j) as Hsame.
    { intros j. case_decide; [|done]. subst j. by rewrite Hcore. }
    destruct (lr_flags _ _ _ _ _ _ _ L l b Hl Hb) as (_ & Hflag & _).
    destruct (decide (l ∈ av)) as [Hlav|Hlav]; rewrite ?Hflag; simpl.
    + exists w, k, (cs1 ++ (l, lay) :: cs2), rs, av, lay, (field b), fs.
      split; [done|]. split; [done|]. split; [done|]. split; [by rewrite fmap_app|].
      split; [done|]. repeat (split; [done|]). split; [apply entries_middle|]. split; [done|].
      by rewrite spots_block.
    + destruct (available_add_spec _ _ _ _ _ _ _ _ L Hl Hlav) as (w' & Hr & Hs & L').
      eexists w', _, (cs1 ++ (l, lay) :: cs2), rs, (l :: av), lay, (field b), fs.
      split; [exact Hr|]. split; [by apply same_fields_store|]. split; [|split; [by rewrite fmap_app|]].
      { done. }
      split; [intros j; rewrite (sf_core _ _ _ Hs); apply Hsame|]. repeat (split; [done|]).
      split; [intros j Hj; rewrite elem_of_cons; naive_solver|].
      split; [split; [done|intros _; apply list_elem_of_here]|].
      split; [apply entries_middle|]. split; [done|]. by rewrite spots_block.
Qed.

(** The hive object after an erasure that returned an iterator to [p]. *)
Definition erased_object (h : hive_object) (p : option (loc * Z * T)) : hive_object :=
  match p with Some _ => h | None => with_end_epoch (u64 (end_epoch_ h + 1)) h end.

Lemma erase_finish this h (w : world T) (p : option (loc * Z * T)) :
  hives w !! this = Some h ->
  (match it_block (iterator_at this h p) with
   | None => touch_end this ;;; hive_end this
   | Some l' => ret (at_element l' (it_index (iterator_at this h p)))
   end) w = (Ret (iterator_at this (erased_object h p) p),
             set_hives (<[this := erased_object h p]> (hives w)) w).
Proof.
  intros Hh. destruct p as [[[l i] x]|]; simpl.
  - rewrite insert_id by done. by destruct w.
  - unfold touch_end. rewrite (bind_ret_eq _ _ _ _ _ (upd_hive_ok _ _ _ _ Hh)).
    unfold hive_end. erewrite bind_ret_eq by (apply get_hive_ok, lookup_insert_eq). done.
Qed.

Lemma erase_spec w this cs rs av F h ps l i x qs :
  hive_rep w this cs rs av F -> hives w !! this = Some h -> spots cs = ps ++ (l, i, x) :: qs ->
  exists w' cs' rs' av', let h' := erased_object h (head qs) in
    erase this (at_element l i) w = (Ret (iterator_at this h' (head qs)), w') /\
    hive_rep w' this cs' rs' av' F /\ hives w' = <[this := h']> (hives w) /\ spots cs' = ps ++ qs.
Proof.
  intros HR Hh Hsp. destruct (hive_spot _ _ _ _ _ _ _ HR Hh _ _ _ Hsp) as [c Hc].
  destruct (hive_control _ _ _ _ _ _ _ HR Hh c Hc) as [k S].
  pose proof (next_spec _ _ _ _ _ _ _ HR Hh _ _ _ _ _ Hsp) as Hnext.
  destruct (spots_split _ _ _ _ _ _ Hsp) as (cs1 & lA & lB & cs2 & -> & -> & -> & ->).
  pose proof (sr_links _ _ _ _ _ _ _ _ _ S) as L.
  assert (l ∈ (cs1 ++ (l, lA ++ Live x :: lB) :: cs2).*1) as Hlcs.
  { rewrite fmap_app. apply elem_of_app. right. apply list_elem_of_here. }
  assert (l ∈ (entries (cs1 ++ (l, lA ++ Live x :: lB) :: cs2) rs).*1) as Hls.
  { rewrite entries_fst. apply elem_of_app. by left. }
  assert (l ∉ rs) as Hlr.
  { intros Hr. by destruct (store_rep_reserved _ _ _ _ _ _ _ _ _ _ S Hr) as (? & _). }
  destruct (active_cell _ _ _ _ _ _ _ _ _ _ _ _ S) as (b & fs & Hb & Hbc & R & Hne & _ & _ & _).
  assert (core_of w l = Some (c, block_allocation b, slot_allocation b, skip_allocation b, field b))
    as Hcore by (unfold core_of; rewrite Hb, <- Hbc; done).
  destruct (erase_slot_spec _ _ _ _ _ R) as (f1 & lay1 & fs1 & He & R1 & Hcap1 & Hel1 & Hslots).
  set (w1 := set_field_at l f1 w). set (b1 := with_field f1 b).
  set (k2 := with_size (ctl_size k - 1) k).
  set (w2 := set_controls (<[c := k2]> (controls w1)) w1).
  assert (blocks w2 !! l = Some b1) as Hb2 by (simpl; by rewrite lookup_alter_eq, Hb).
  assert (links_rep w2 c k2 (entries (cs1 ++ (l, lA ++ Live x :: lB) :: cs2) rs).*1
    (cs1 ++ (l, lA ++ Live x :: lB) :: cs2).*1 rs av) as L2.
  { eapply links_rep_ext; [exact L|apply lookup_insert_eq|done|apply same_links_field]. }
  assert (has_room f1 = true) as Hroom.
  { apply (has_room_iff _ _ _ R1). rewrite Hel1, Hcap1.
    pose proof (elems_length_le _ (shape_widths _ (rep_shape _ _ _ R))) as Hle.
    pose proof (rep_bound _ _ _ R). rewrite elems_app, !length_app in *. simpl in *. lia. }
  pose proof (sr_nonempty _ _ _ _ _ _ _ _ _ S) as Hne0.
  rewrite Forall_app, Forall_cons in Hne0. destruct Hne0 as (Hn1 & _ & Hn2).
  destruct (erase_settle _ _ _ _ _ _ _ _ lay1 _ _ _ _ L2 Hls Hlr Hb2 R1 Hroom ltac:(by apply Forall_app))
    as (w3 & k3 & cs3 & rs3 & av3 & lay3 & f3 & fs3 & Hset & Hs3 & (Ho3 & Ha3 & Hz3 & Hc3) & L3 & Hcore3 & R3 &
        Hcap3 & Hslots3 & Hav3 & Hlav3 & Hent3 & Hne3 & Hspots3).
  assert (live_spots l 0 lay3 = live_spots l 0 lA ++ live_spots l (width lA + 1) lB) as Hls3.
  { assert (live_spots l 0 (lA ++ Live x :: lB) =
      live_spots l 0 lA ++ (l, width lA, x) :: live_spots l (width lA + 1) lB) as Hls0 by (by rewrite live_spots_app).
    assert (live_spots l 0 lay1 = live_spots l 0 lA ++ live_spots l (width lA + 1) lB) as <-
      by (by eapply (erased_spots (field b) f1)).
    apply (live_spots_unique f3 _ fs3); [done|apply live_spots_sorted, shape_widths, R1|].
    intros l' i' y. rewrite (live_spots_elem _ _ _ _ _ _ _ R1).
    split; (intros (-> & Hi' & Hx); split; [done|split; [done|]]);
      [by rewrite Hslots3|by rewrite <- Hslots3]. }
  assert (hives w3 = hives w) as Hh3 by by rewrite (ss_hives _ _ _ Hs3).
  set (qs := live_spots l (width lA + 1) lB ++ spots cs2) in *.
  eexists (set_hives (<[this := erased_object h (head qs)]> (hives w3)) w3), cs3, rs3, av3. cbv zeta.
  split; [|split; [|split; [by rewrite <- Hh3|by rewrite Hspots3, Hls3, <- !app_assoc]]].
  - unfold erase. cbn [it_block it_index at_element]. rewrite bind_deref.
    rewrite (bind_ret_eq _ _ _ _ _ Hnext), (bind_ret_eq _ _ _ _ _ (get_hive_ok _ _ _ Hh)), Hc.
    rewrite bind_deref. erewrite bind_ret_eq by (by eapply on_field__ok). fold w1.
    erewrite bind_ret_eq by (apply upd_control_ok, L). cbv beta.
    rewrite u64_small. 2: { destruct (store_rep_counters _ _ _ _ _ _ _ _ _ S) as [? ?].
      pose proof (sr_size _ _ _ _ _ _ _ _ _ S) as Hsz. rewrite contents_app in Hsz. simpl in Hsz.
      rewrite elems_app, !length_app in Hsz. simpl in Hsz. unfold npos in *. lia. }
    fold k2. fold w2. rewrite (bind_ret_eq _ _ _ _ _ (get_block_ok _ _ _ Hb2)).
    rewrite (bind_ret_eq _ _ _ _ _ Hset). apply erase_finish. by rewrite Hh3.
  - exists (erased_object h (head qs)).
    assert (limits_ (erased_object h (head qs)) = limits_ h) as -> by by destruct (head qs).
    assert (control_ (erased_object h (head qs)) = Some c) as -> by (rewrite <- Hc; by destruct (head qs)).
    split; [simpl; apply lookup_insert_eq|]. split; [by destruct HR as (? & ? & ? & _); simplify_eq|].
    exists k3. apply store_rep_hives.
    eapply (store_rep_update w w3) with (l := l) (lay' := lay3);
      [exact S|apply entries_middle|exact Hent3|exact Hcore| | |exact R3|by rewrite Hcap3|exact Hav3
      |exact Hlav3|exact Hne3|exact L3|by rewrite Ho3|by rewrite Ha3|by rewrite Hc3|].
    + intros j. rewrite Hcore3. change (core_of w2 j) with (core_of w1 j). unfold w1.
      rewrite core_of_field. case_decide; [subst|done]. by rewrite Hcore.
    + eapply same_store_trans; [|exact Hs3].
      eapply same_store_trans; [apply same_store_field|apply same_store_control].
    + rewrite Hz3. simpl. rewrite (sr_size _ _ _ _ _ _ _ _ _ S).
      rewrite <- !spots_contents, Hspots3, Hls3, Hsp. rewrite !length_fmap, !length_app. simpl. unfold qs. rewrite length_app. lia.
Qed.

(** ** [erase(first, last)] *)

Lemma spots_place_unique w this cs rs av F ps l i x qs l' i' y :
  hive_rep w this cs rs av F -> spots cs = ps ++ (l, i, x) :: qs -> (l', i', y) ∈ qs ->
  (l =? l') && (i =? i') = false.
Proof.
  intros HR Hs Hq. apply andb_false_iff. rewrite !Z.eqb_neq.
  destruct (decide (l = l')) as [<-|]; [right|by left]. intros <-.
  pose proof HR as (h & Hh & _). destruct (hive_spot _ _ _ _ _ _ _ HR Hh _ _ _ Hs) as [c Hc].
  destruct (hive_control _ _ _ _ _ _ _ HR Hh c Hc) as [k S].
  pose proof (sr_nodup _ _ _ _ _ _ _ _ _ S) as Hnd. rewrite entries_fst in Hnd.
  apply NoDup_app in Hnd as [Hnd _].
  destruct (spots_split _ _ _ _ _ _ Hs) as (cs1 & lA & lB & cs2 & -> & -> & _ & ->).
  destruct (active_cell _ _ _ _ _ _ _ _ _ _ _ _ S) as (b & fs & _ & _ & R & _).
  apply elem_of_app in Hq as [Hq|Hq].
  - assert (widths_pos lB) as Hw.
    { pose proof (shape_widths _ (rep_shape _ _ _ R)) as Hw. apply widths_pos_app in Hw as [_ Hw].
      by destruct Hw. }
    destruct (live_spots_bound _ _ _ _ Hw Hq) as [Hb _]. simpl in Hb. lia.
  - rewrite fmap_app in Hnd. csimpl in Hnd. apply NoDup_app in Hnd as (_ & _ & Hnd).
    apply NoDup_cons in Hnd as [Hni _]. apply Hni. clear -Hq.
    induction cs2 as [|[l2 lay2] cs2 IH]; simpl in Hq; [by apply not_elem_of_nil in Hq|].
    apply elem_of_app in Hq as [Hq|Hq]; [|right; auto].
    assert (forall base, (l, width lA, y) ∈ live_spots l2 base lay2 -> l = l2) as Hl.
    { clear. induction lay2 as [|[z|n] lay2 IH]; intros base; simpl; [by intros ?%not_elem_of_nil| |apply IH].
      intros [[= -> _ _]|Hin]%elem_of_cons; [done|by eapply IH]. }
    csimpl. rewrite (Hl _ Hq). apply list_elem_of_here.
Qed.

(** The end iterator that a range erasure returns belongs to the final state. *)
Lemma erase_until_ok ms : forall fuel w this cs rs av F h ps qs last,
  hive_rep w this cs rs av F -> hives w !! this = Some h -> spots cs = ps ++ ms ++ qs ->
  (length ms <= fuel)%nat ->
  match qs with
  | [] => it_block last = None
  | (l, i, _) :: _ => last = at_element l i
  end ->
  exists w' cs' rs' av' h',
    erase_until fuel this (iterator_at this h (head (ms ++ qs))) last w =
      (Ret (iterator_at this h' (head qs)), w') /\
    hive_rep w' this cs' rs' av' F /\ hives w' !! this = Some h' /\ spots cs' = ps ++ qs.
Proof.
  induction ms as [|[[l i] x] ms IH]; intros fuel w this cs rs av F h ps qs last HR Hh Hs Hf Hlast.
  - simpl in *. destruct qs as [|[[l i] x] qs]; simpl.
    + exists w, cs, rs, av, h. split; [|done]. destruct fuel; simpl; rewrite Hlast; simpl;
        unfold hive_end; by erewrite bind_ret_eq by (by apply get_hive_ok).
    + exists w, cs, rs, av, h. split; [|done]. subst last.
      destruct fuel; simpl; rewrite bool_decide_true, Z.eqb_refl by done; done.
  - destruct fuel as [|fuel]; simpl in Hf; [lia|]. simpl in Hs.
    destruct (erase_spec _ _ _ _ _ _ _ _ _ _ _ _ HR Hh Hs) as (w1 & cs1 & rs1 & av1 & Hrun & HR1 & Hh1 & Hs1).
    set (h1 := erased_object h (head (ms ++ qs))) in *.
    assert (hives w1 !! this = Some h1) as Hh1' by by rewrite Hh1, lookup_insert_eq.
    destruct (IH fuel w1 this cs1 rs1 av1 F h1 ps qs last HR1 Hh1' Hs1 ltac:(lia) Hlast)
      as (w2 & cs2 & rs2 & av2 & h2 & Hrun2 & HR2 & Hh2 & Hs2).
    exists w2, cs2, rs2, av2, h2. split; [|done]. simpl.
    destruct qs as [|[[l' i'] y] qs]; simpl in Hlast.
    + rewrite Hlast. rewrite (bind_ret_eq _ _ _ _ _ Hrun). exact Hrun2.
    + subst last. simpl.
      pose proof (spots_place_unique _ _ _ _ _ _ _ _ _ _ _ l' i' y HR Hs) as Hne.
      assert (bool_decide (Some l = Some l') = (l =? l')) as ->.
      { destruct (Z.eqb_spec l l') as [->|]; [by apply bool_decide_true|].
        apply bool_decide_false. congruence. }
      rewrite Hne by (rewrite elem_of_app; right; apply list_elem_of_here).
      rewrite (bind_ret_eq _ _ _ _ _ Hrun). exact Hrun2.
Qed.

Lemma hive_size_ok w this cs rs av F :
  hive_rep w this cs rs av F -> hive_size this w = (Ret (Z.of_nat (length (contents cs))), w).
Proof.
  intros (h & Hh & _ & Hc). unfold hive_size.
  rewrite (bind_ret_eq _ _ _ _ _ (get_hive_ok _ _ _ Hh)). destruct (control_ h) as [c|].
  - destruct Hc as [k S]. erewrite bind_ret_eq by (apply get_control_ok, S).
    by rewrite (sr_size _ _ _ _ _ _ _ _ _ S).
  - by destruct Hc as [-> _].
Qed.
End erase.
