(* ===== verification/HiveCapacity.v ===== *)
(** * Capacity of a hive: planning, reserving and trimming

    [plan_capacity] splits a request into blocks whose capacities respect the
    limits, [reserve] allocates them, [trim_capacity] releases vacant blocks. *)
From S2P Require Import Prelude Linked HiveBlock HiveHeap HiveInv HiveStore.
From S2P Require Import HiveErase.

#[local] Open Scope Z_scope.

(** ** Plans *)

Section plan.
Context `{cfg : Config}.

(** [p] can be carried out from capacity [current]: its blocks, each between
    the minimum and [pl_block_max], add up to what it adds. *)
Record plan_ok (lim : hive_limits) (current : Z) (p : capacity_plan) : Prop := PlanOk {
  po_blocks : (0 <= pl_blocks p)%Z;
  po_min : (1 <= lim_min lim <= pl_block_max p)%Z;
  po_max : (pl_block_max p <= lim_max lim /\ pl_block_max p <= slot_npos)%Z;
  po_low : (pl_blocks p * lim_min lim <= pl_added p)%Z;
  po_high : (pl_added p <= pl_blocks p * pl_block_max p)%Z;
  po_total : (current + pl_added p <= max_size)%Z;
}.

Lemma div_up_bounds (n d : Z) :
  (0 <= n)%Z -> (0 < d)%Z ->
  let q := (n / d + (if negb (n mod d =? 0) then 1 else 0))%Z in
  (n <= q * d)%Z /\ (0 <= q)%Z /\ (0 < n -> (q - 1) * d < n)%Z.
Proof.
  intros Hn Hd q. pose proof (Z.div_mod n d ltac:(lia)) as E.
  pose proof (Z.mod_pos_bound n d Hd) as Hm. pose proof (Z.div_pos n d Hn Hd) as Hp.
  unfold q. destruct (Z.eqb_spec (n mod d) 0); simpl; nia.
Qed.

Lemma plan_capacity_ok lim current requested p :
  limits_ok lim -> (0 <= current < requested)%Z -> (requested < 2 ^ 64)%Z ->
  plan_capacity lim current requested = Some p ->
  plan_ok lim current p /\ (1 <= pl_blocks p)%Z /\ (requested <= current + pl_added p)%Z.
Proof.
  intros [_ H0] Hc Hr. unfold plan_capacity.
  destruct ((max_size <? requested) || (max_size <? current) || (lim_min lim =? 0) ||
    (allocation_block_max lim <? lim_min lim)) eqn:E; [done|].
  apply orb_false_iff in E as [[[E1 E2]%orb_false_iff E3]%orb_false_iff E4].
  apply Z.ltb_ge in E1, E2, E4. apply Z.eqb_neq in E3. cbv zeta.
  rewrite u64_small by lia.
  destruct (div_up_bounds (requested - current) (allocation_block_max lim)) as (Hq1 & Hq2 & Hq3); [lia..|].
  set (q := ((requested - current) / _ + _)%Z) in *.
  destruct (Z.ltb_spec ((max_size - current) / lim_min lim) q) as [|Hle]; [done|]. intros [= <-].
  assert (q * lim_min lim <= max_size - current)%Z as Hbound.
  { pose proof (Z.mul_div_le (max_size - current) (lim_min lim) ltac:(lia)). nia. }
  assert (allocation_block_max lim <= lim_max lim /\ allocation_block_max lim <= slot_npos)%Z.
  { unfold allocation_block_max. lia. }
  split; [split; simpl; try lia; nia|]. simpl. split; [nia|lia].
Qed.

Lemma plan_block_max lim current requested p :
  plan_capacity lim current requested = Some p -> pl_block_max p = allocation_block_max lim.
Proof. unfold plan_capacity. case_match; [done|]. cbv zeta. case_match; [done|]. by intros [= <-]. Qed.

(** One block of a plan. *)
Lemma plan_step lim current p :
  plan_ok lim current p -> (1 <= pl_blocks p)%Z ->
  let cap := next_block_capacity lim p in
  within lim cap = true /\ (1 <= cap <= slot_npos)%Z /\
  plan_ok lim (current + cap) (CapacityPlan (pl_blocks p - 1) (pl_added p - cap) (pl_block_max p)).
Proof.
  intros [H1 H2 H3 H4 H5 H6] Hb cap. unfold cap, next_block_capacity, within.
  rewrite andb_true_iff, !Z.leb_le.
  assert (lim_min lim <= pl_added p - (pl_blocks p - 1) * lim_min lim)%Z by nia.
  split; [lia|]. split; [lia|]. split; simpl; try lia; nia.
Qed.

(** The capacities that [next_block_capacity] gives, block after block, as
    [reserve_loop] and the constructors ask for them. *)
Fixpoint plan_capacities (n : nat) (lim : hive_limits) (p : capacity_plan) : list Z :=
  match n with
  | O => []
  | S n' =>
      let cap := next_block_capacity lim p in
      cap :: plan_capacities n' lim (CapacityPlan (pl_blocks p - 1) (pl_added p - cap) (pl_block_max p))
  end.

Lemma plan_done lim current p : plan_ok lim current p -> pl_blocks p = 0%Z -> pl_added p = 0%Z.
Proof. intros [] H0. rewrite H0 in *. lia. Qed.

(** Block after block, the plan is served exactly. *)
Lemma plan_served n lim current p :
  plan_ok lim current p -> pl_blocks p = Z.of_nat n ->
  length (plan_capacities n lim p) = n /\ foldr Z.add 0%Z (plan_capacities n lim p) = pl_added p /\
  Forall (fun cap => within lim cap = true /\ (cap <= pl_block_max p)%Z) (plan_capacities n lim p).
Proof.
  revert current p. induction n as [|n IH]; intros current p Hp Hn; simpl.
  { by rewrite (plan_done _ _ _ Hp Hn). }
  destruct (plan_step _ _ _ Hp ltac:(lia)) as (Hw & _ & Hp').
  destruct (IH _ _ Hp' ltac:(simpl; lia)) as (-> & -> & Hall). simpl. split; [done|]. split; [lia|].
  constructor; [|exact Hall]. split; [done|]. unfold next_block_capacity. lia.
Qed.
End plan.

Section capacity.
Context {T : Type} `{cfg : Config}.
Implicit Types (l j c this : loc) (b : block_type T) (k : control_type).
Implicit Types (w : world T) (bs rs av ls : list loc) (f : skipfield T) (v x : T).
Implicit Types (cs : list (loc * list (segment T))) (F : list (loc * allocation)).

(** ** [reserve] *)

Definition act_off b : block_type T := with_active false b.

(** A block that was just allocated joins the reserved list. *)
Lemma link_reserved_ok w w1 this c k lim cs rs av F l sa ka cap :
  store_rep w this c k lim cs rs av F -> l ∉ (entries cs rs).*1 ->
  blocks w1 = <[l := fresh_block c l sa ka cap]> (blocks w) -> controls w1 = controls w ->
  allocs w1 ≡ₚ [(ka, ASkip cap); (sa, ASlots cap); (l, ABlock)] ++ allocs w -> fresh w1 ->
  within lim cap = true -> (1 <= cap <= slot_npos)%Z -> (ctl_capacity k + cap <= max_size)%Z ->
  exists w', link_reserved c l w1 = (Ret tt, w') /\
    store_rep w' this c (with_capacity (ctl_capacity k + cap) (with_reserved_head (Some l) k))
      lim cs (l :: rs) av F /\
    hives w' = hives w1 /\ forall j, core_of w' j = core_of w1 j.
Proof.
  intros S Hl0 B1 C1 A1 F1 Hw Hcap Hmax. pose proof (sr_links _ _ _ _ _ _ _ _ _ S) as L.
  assert (blocks w1 !! l = Some (fresh_block c l sa ka cap)) as Hb1 by (by rewrite B1, lookup_insert_eq).
  assert (links_rep w1 c k (l :: (entries cs rs).*1) cs.*1 rs av) as L1.
  { by eapply (links_rep_new_block w c k _ _ _ _ l w1 (fresh_block c l sa ka cap)). }
  set (w2 := set_blocks (alter (with_active false) l (blocks w1)) w1).
  assert (links_rep w2 c k (l :: (entries cs rs).*1) cs.*1 rs av) as L2.
  { eapply (links_rep_new_block w c k _ _ _ _ l w2 (with_active false (fresh_block c l sa ka cap))); try done.
    simpl. rewrite B1. apply alter_insert_eq. }
  set (w3 := set_blocks (alter (with_reserved_next (reserved_head k)) l (blocks w2)) w2).
  set (k4 := with_reserved_head (Some l) k).
  set (w4 := set_controls (<[c := k4]> (controls w3)) w3).
  assert (l ∉ rs) as Hlr.
  { intros Hr. apply Hl0. rewrite entries_fst. apply elem_of_app. by right. }
  assert (l ∉ av) as Hla.
  { intros Hr. apply Hl0. by apply (lr_sub _ _ _ _ _ _ _ L). }
  assert (links_rep w4 c k4 (l :: (entries cs rs).*1) cs.*1 (l :: rs) av) as L4.
  { eapply (reserved_push w2 w4); [exact L2|apply list_elem_of_here|done|apply lookup_insert_eq|done]. }
  destruct (store_rep_counters _ _ _ _ _ _ _ _ _ S) as [Hcs Hcn].
  set (k5 := with_capacity (ctl_capacity k + cap) k4).
  assert (max_size < npos)%Z as Hmx by (pose proof max_size_bound; lia).
  assert (exists b4, blocks w4 !! l = Some b4 /\ field b4 = fresh_field cap) as (b4 & Hb4 & Hf4).
  { eexists. split; [simpl; by rewrite !lookup_alter_eq, Hb1|done]. }
  assert (forall j, core_of (set_controls (<[c := k5]> (controls w4)) w4) j = core_of w1 j) as Hcore.
  { intros j. change (core_of w3 j = core_of w1 j). unfold w3. rewrite core_of_alter by done.
    unfold w2. by rewrite core_of_alter. }
  eexists. split; [|split; [|split; [|exact Hcore]]].
  - unfold link_reserved.
    erewrite bind_ret_eq by (apply upd_block_ok, L1, list_elem_of_here). fold w2.
    erewrite bind_ret_eq by (apply get_control_ok, L2).
    erewrite bind_ret_eq by (apply upd_block_ok, L2, list_elem_of_here). fold w3.
    erewrite bind_ret_eq by (apply upd_control_ok, L2). fold k4 w4.
    rewrite (bind_ret_eq _ _ _ _ _ (get_block_ok _ _ _ Hb4)), Hf4. simpl capacity.
    rewrite u64_small by (unfold npos in *; lia).
    rewrite (upd_control_ok _ _ _ _ (lr_control _ _ _ _ _ _ _ L4)). fold k5. done.
  - eapply (store_rep_add w) with (l := l) (lay := []) (f := fresh_field cap); [exact S|exact Hl0
      |apply entries_reserved| |rewrite Hcore; unfold core_of; by rewrite Hb1
      |by apply fresh_field_rep|done|done| | | |done|done|done| | | |].
    + intros j Hj. rewrite Hcore. unfold core_of. by rewrite B1, lookup_insert_ne.
    + split; [done|by intros []].
    + apply S.
    + eapply links_rep_ext; [exact L4|apply lookup_insert_eq|done|]. intros j b _ Hj. by exists b.
    + simpl. lia.
    + apply S.
    + unfold owned_by. rewrite Hcore. unfold core_of. rewrite Hb1. exact A1.
    + eapply fresh_ext; [exact F1|rewrite C1; apply L|done|done| |by intros; rewrite Hcore].
      intros c' Hc'. simpl. by rewrite !lookup_insert_ne.
  - done.
Qed.

(** [w'] is [w] with the blocks [new] reserved. *)
Definition reserved_more w w' this cs rs av F (new : list loc) : Prop :=
  hive_rep w' this cs (new ++ rs) av F /\ forall l i, elem_at w' l i = elem_at w l i.

Lemma elem_at_new_block w w1 w' l c sa ka cap l' i :
  blocks w !! l = None -> blocks w1 = <[l := fresh_block c l sa ka cap]> (blocks w) ->
  (forall j, core_of w' j = core_of w1 j) -> elem_at w' l' i = elem_at w l' i.
Proof.
  intros Hn B1 Hc. rewrite !elem_at_core, Hc. unfold core_of. rewrite B1, lookup_insert.
  case_decide; [|done]. subst. by rewrite Hn.
Qed.

(** One block of a plan, for a control block that exists. *)
Lemma reserve_block_ok w this c k lim cs rs av F cap nc (P : world T -> Prop) :
  store_rep w this c k lim cs rs av F -> is_Some (hives w !! this) ->
  within lim cap = true -> (1 <= cap <= slot_npos)%Z -> (ctl_capacity k + cap <= max_size)%Z ->
  (forall w1, bumped w w1 -> post (drop_control c nc w1) (fun _ => P) no_exn) ->
  post (reserve_block this c nc cap w)
    (fun _ w' => exists l k', store_rep w' this c k' lim cs (l :: rs) av F /\
       ctl_capacity k' = (ctl_capacity k + cap)%Z /\
       (forall l i, elem_at w' l i = elem_at w l i) /\
       hives w' = if nc then alter (with_control_ (Some c)) this (hives w) else hives w)
    (fun e w' => e = bad_alloc /\ P w').
Proof.
  intros S [h Hh] Hw Hcap Hmax HP. apply post_bind, post_on_raise.
  eapply post_mono; [apply allocate_block_ok, S| |].
  2: { intros e w1 [-> Hb]. eapply post_mono; [by apply HP|by intros|done]. }
  intros l w1 (Hl & F1 & C1 & H1 & sa & ka & B1 & A1).
  pose proof (store_rep_not_fresh _ _ _ _ _ _ _ _ _ l S ltac:(lia)) as Hl0.
  assert (blocks w !! l = None) as Hnone by (apply (sr_fresh _ _ _ _ _ _ _ _ _ S); lia).
  set (w2 := set_hives (if nc then alter (with_control_ (Some c)) this (hives w) else hives w) w1).
  apply post_bind. eapply (post_ret _ _ w2 tt).
  { unfold w2. destruct nc.
    - rewrite (upd_hive_ok w1 this h) by (by rewrite H1).
      by rewrite H1, (alter_alt_Some _ _ _ h).
    - rewrite <- H1. by destruct w1. }
  destruct (link_reserved_ok w w2 this c k lim cs rs av F l sa ka cap)
    as (w3 & Hrun & S3 & Hh3 & Hcore3); try done.
  rewrite Hrun. simpl. exists l. eexists. split; [exact S3|]. split; [done|].
  split; [|by rewrite Hh3]. intros l' i. by eapply elem_at_new_block.
Qed.

(** The state after an attempt to reserve: more reserved blocks, nothing else. *)
Lemma reserve_loop_ok n w this cs rs av F h p cur :
  hive_rep w this cs rs av F -> hives w !! this = Some h ->
  hive_capacity this w = (Ret cur, w) -> plan_ok (limits_ h) cur p -> pl_blocks p = Z.of_nat n ->
  post (reserve_loop n this p w)
    (fun _ w' => exists new, reserved_more w w' this cs rs av F new /\
       hive_capacity this w' = (Ret (cur + pl_added p), w'))
    (fun e w' => e = bad_alloc /\ exists new, reserved_more w w' this cs rs av F new).
Proof.
  revert w rs h p cur. induction n as [|n IH]; intros w rs h p cur HR Hh Hcur Hp Hn.
  { simpl. exists []. rewrite (plan_done _ _ _ Hp Hn), Z.add_0_r. done. }
  destruct (plan_step _ _ _ Hp ltac:(lia)) as (Hw & Hcap & Hp').
  pose proof (po_total _ _ _ Hp) as Htot. pose proof (po_low _ _ _ Hp) as Hlow.
  assert (cur + next_block_capacity (limits_ h) p <= max_size) as Hmax.
  { pose proof (po_low _ _ _ Hp') as Hlow'. simpl in Hlow'. pose proof (po_min _ _ _ Hp). nia. }
  set (cap := next_block_capacity (limits_ h) p) in *.
  set (p' := CapacityPlan (pl_blocks p - 1) (pl_added p - cap) (pl_block_max p)) in *.
  destruct (hive_capacity_ok _ _ _ _ _ _ _ HR Hh) as (m & Hm & _ & Hk).
  rewrite Hm in Hcur. injection Hcur as ->.
  assert (forall w1 l h1, hive_rep w1 this cs (l :: rs) av F -> hives w1 !! this = Some h1 ->
    limits_ h1 = limits_ h -> hive_capacity this w1 = (Ret (cur + cap), w1) ->
    (forall l i, elem_at w1 l i = elem_at w l i) ->
    post (reserve_loop n this p' w1)
      (fun _ w' => exists new, reserved_more w w' this cs rs av F new /\
         hive_capacity this w' = (Ret (cur + pl_added p), w'))
      (fun e w' => e = bad_alloc /\ exists new, reserved_more w w' this cs rs av F new)) as Hrec.
  { intros w1 l h1 R1 Hh1 Hl1 Hc1 He1.
    assert (pl_blocks p' = Z.of_nat n) as Hn' by (simpl; lia).
    rewrite <- Hl1 in Hp'.
    eapply post_mono; [by eapply (IH w1 (l :: rs) h1 p' (cur + cap))| |].
    - intros _ w' (new & [R' He'] & Hc'). exists (new ++ [l]). unfold reserved_more. rewrite <- app_assoc. split.
      + split; [done|]. intros. by rewrite He', He1.
      + by assert (cur + pl_added p = cur + cap + pl_added p') as -> by (simpl; lia).
    - intros e w' (-> & new & [R' He']). split; [done|]. exists (new ++ [l]). unfold reserved_more. rewrite <- app_assoc.
      split; [done|]. intros. by rewrite He', He1. }
  simpl. erewrite bind_ret_eq by (by apply get_hive_ok). fold cap.
  destruct HR as (h0 & Hh0 & Hlim & Hctl). assert (h0 = h) as -> by congruence. clear Hh0.
  destruct (control_ h) as [c|] eqn:Hch.
  - rewrite bind_ret. destruct Hk as (k & S & ->). apply post_bind.
    eapply post_mono; [eapply (reserve_block_ok w this c k) with
      (P := fun w' => reserved_more w w' this cs rs av F []); try done| |].
    + intros w1 Hb. simpl. split; [|intros l i; apply elem_at_blocks, Hb].
      exists h. rewrite (bm_hives _ _ Hb), Hch. split; [done|]. split; [done|].
      exists k. by eapply store_rep_bumped.
    + intros _ w1 (l & k' & S1 & Hk' & He1 & Hh1).
      assert (hives w1 !! this = Some h) as Hh1' by by rewrite Hh1.
      apply (Hrec w1 l h); try done.
      * exists h. rewrite Hch. eauto.
      * unfold hive_capacity. erewrite bind_ret_eq by (by apply get_hive_ok).
        rewrite Hch. erewrite bind_ret_eq by (apply get_control_ok, S1). by rewrite Hk'.
    + intros e w1 [-> Hr]. eauto.
  - destruct Hctl as (-> & -> & -> & Hf & HF). subst cur. apply post_bind.
    eapply post_mono; [by eapply (allocate_control_ok w this (limits_ h) F)| |].
    2: { intros e w1 [-> Hb]. split; [done|]. exists []. split; [|intros l i; apply elem_at_blocks, Hb].
         exists h. rewrite (bm_hives _ _ Hb), Hch. split; [done|]. split; [done|].
         repeat (split; [done|]). split; [apply Hb|]. etrans; [apply Hb|done]. }
    intros c w1 (S & Hh1 & Hb1). apply post_bind.
    eapply post_mono; [eapply (reserve_block_ok w1 this c _) with
      (P := fun w' => reserved_more w w' this [] [] [] F []); try done; [by rewrite Hh1; eexists|]| |].
    + intros w2 Hb. destruct (deallocate_control_ok w2 this c (new_control this c) (limits_ h) F)
        as (w3 & Hd & Hf3 & HF3 & Hh3 & Hb3); [by eapply store_rep_bumped|].
      simpl. rewrite Hd. simpl. split; [|intros l i; apply elem_at_blocks; by rewrite Hb3, (bm_blocks _ _ Hb)].
      exists h. by rewrite Hh3, (bm_hives _ _ Hb), Hh1, Hch.
    + intros _ w2 (l & k' & S1 & Hk' & He1 & Hh2).
      assert (hives w2 !! this = Some (with_control_ (Some c) h)) as Hh2'.
      { rewrite Hh2, Hh1. by rewrite lookup_alter_eq, Hh. }
      apply (Hrec w2 l (with_control_ (Some c) h)); try done.
      * eexists. split; [done|]. split; [done|]. simpl. eauto.
      * unfold hive_capacity. erewrite bind_ret_eq by (by apply get_hive_ok). simpl.
        erewrite bind_ret_eq by (apply get_control_ok, S1). by rewrite Hk'.
      * intros l' i. rewrite He1. by apply elem_at_blocks.
    + intros e w2 [-> Hr]. eauto.
Qed.

Lemma reserve_spec w this cs rs av F n cur :
  hive_rep w this cs rs av F -> (n < 2 ^ 64)%Z -> hive_capacity this w = (Ret cur, w) ->
  post (reserve this n w)
    (fun _ w' => exists new cur', reserved_more w w' this cs rs av F new /\
       hive_capacity this w' = (Ret cur', w') /\ (Z.max n cur <= cur' <= Z.max cur max_size)%Z)
    (fun e w' => exists new, reserved_more w w' this cs rs av F new /\
       (e = length_error -> w' = w)).
Proof.
  intros HR Hn Hcur. pose proof HR as (h & Hh & Hlim & _). unfold reserve.
  rewrite (bind_ret_eq _ _ _ _ _ Hcur). destruct (Z.leb_spec n cur) as [Hle|Hgt].
  { simpl. exists [], cur. repeat (split; [done|]). lia. }
  destruct (hive_capacity_ok _ _ _ _ _ _ _ HR Hh) as (m & Hm & Hm0 & _).
  rewrite Hm in Hcur. injection Hcur as ->.
  erewrite bind_ret_eq by (by apply get_hive_ok).
  destruct (plan_capacity (limits_ h) cur n) as [p|] eqn:Hp.
  2: { simpl. exists []. by repeat split. }
  destruct (plan_capacity_ok _ _ _ _ Hlim (conj Hm0 Hgt) Hn Hp) as (Hok & Hb & Hadd).
  eapply post_mono; [eapply (reserve_loop_ok _ w this cs rs av F h p cur); try done; lia| |].
  - intros _ w' (new & Hr & Hc). exists new, (cur + pl_added p)%Z. split; [done|]. split; [done|].
    pose proof (po_total _ _ _ Hok). lia.
  - intros e w' (-> & new & Hr). by exists new.
Qed.

(** ** [trim_capacity] *)

(** [trim_loop] releases the reserved blocks from the head, as long as [go]
    allows; the released ones are [gone]. *)
Lemma trim_loop_ok rs : forall fuel w this c k lim cs av F (go : control_type -> Z -> bool),
  store_rep w this c k lim cs rs av F -> (length rs <= fuel)%nat ->
  exists gone kept w' k', rs = gone ++ kept /\ trim_loop fuel c go w = (Ret tt, w') /\
    store_rep w' this c k' lim cs kept av F /\ hives w' = hives w /\
    (forall l, l ∉ gone -> blocks w' !! l = blocks w !! l) /\
    ctl_capacity k' = (ctl_capacity k - total_capacity w gone)%Z /\
    match kept with [] => True | l :: _ => go k' (block_capacity w' l) = false end /\
    (gone <> [] -> exists k0 cap, go k0 cap = true /\ ctl_capacity k' = (ctl_capacity k0 - cap)%Z).
Proof.
  induction rs as [|l rs IH]; intros fuel w this c k lim cs av F go S Hfuel.
  - exists [], [], w, k. destruct fuel; simpl;
      (split; [done|]; split; [|repeat (split; [done|]); simpl; split; [lia|by split]]);
      erewrite bind_ret_eq by (apply get_control_ok, S);
      by rewrite (lr_reserved_head _ _ _ _ _ _ _ (sr_links _ _ _ _ _ _ _ _ _ S)).
  - destruct fuel as [|fuel]; [simpl in Hfuel; lia|]. simpl in Hfuel.
    pose proof (sr_links _ _ _ _ _ _ _ _ _ S) as L.
    destruct (store_rep_reserved _ _ _ _ _ _ _ _ _ l S (list_elem_of_here _ _)) as (Hlc & Hla & Hblk).
    destruct (block_ok_cell _ _ _ _ _ _ Hblk) as (b & fs & Hb & _ & R & _ & _ & Hcore).
    assert (block_capacity w l = capacity (field b)) as Hbc by (unfold block_capacity; by rewrite Hcore).
    pose proof (lr_reserved _ _ _ _ _ _ _ L) as [Hn _].
    unfold rnext in Hn. rewrite Hb, hd_or_Some in Hn. simpl in Hn. injection Hn as Hn.
    simpl. erewrite bind_ret_eq by (apply get_control_ok, S).
    rewrite (lr_reserved_head _ _ _ _ _ _ _ L). simpl.
    rewrite (bind_ret_eq _ _ _ _ _ (get_block_ok _ _ _ Hb)).
    destruct (go k (capacity (field b))) eqn:Hgo.
    2: { exists [], (l :: rs), w, k. split; [done|]. split; [done|]. split; [done|]. split; [done|].
         split; [done|]. split; [simpl; lia|]. by rewrite Hbc. }
    set (k2 := with_capacity (ctl_capacity k - capacity (field b)) (with_reserved_head (head rs) k)).
    erewrite bind_ret_eq by (apply upd_control_ok, L). rewrite Hn.
    erewrite bind_ret_eq by (apply upd_control_ok, lookup_insert_eq). cbv beta.
    destruct (store_rep_counters _ _ _ _ _ _ _ _ _ S) as [Hcs Hcn].
    assert (capacity (field b) <= ctl_capacity k)%Z as Hle.
    { rewrite (sr_capacity _ _ _ _ _ _ _ _ _ S), entries_reserved. csimpl. rewrite Hbc.
      pose proof (sr_blocks _ _ _ _ _ _ _ _ _ S) as Hbs. rewrite entries_reserved in Hbs.
      apply Forall_cons in Hbs as [_ Hbs]. pose proof (contents_bound _ _ _ _ _ Hbs). lia. }
    pose proof (rep_capacity _ _ _ R) as Hcap.
    simpl ctl_capacity. rewrite u64_small by (unfold npos in *; lia).
    set (w2 := set_controls _ _).
    destruct (deallocate_block_ok w2 l b
      ((control_allocation k, AControl) :: owned w (entries cs rs).*1 ++ F))
      as (w3 & Hd & B3 & C3 & H3 & N3 & F3 & A3); [done| | |].
    + eapply fresh_ext; [apply S|apply L|done|done| |done].
      intros c' Hc'. simpl. by rewrite !lookup_insert_ne.
    + pose proof (sr_ledger _ _ _ _ _ _ _ _ _ S) as Hl. rewrite entries_reserved in Hl. csimpl in Hl.
      change (allocs w2) with (allocs w). unfold allocs. rewrite Hl.
      rewrite <- app_assoc. apply Permutation_middle.
    + rewrite (bind_ret_eq _ _ _ _ _ Hd).
      assert (store_rep w3 this c k2 lim cs rs av F) as S3.
      { eapply (store_rep_remove w); [exact S|done| |done|done|done|done|by rewrite Hbc| |done].
        - rewrite C3. simpl. apply lookup_insert_eq.
        - rewrite A3. pose proof (sr_ledger _ _ _ _ _ _ _ _ _ S) as Hl.
          rewrite entries_reserved in Hl. csimpl in Hl. unfold allocs. rewrite Hl, <- app_assoc.
          apply Permutation_middle. }
      destruct (IH fuel w3 this c k2 lim cs av F go S3 ltac:(lia))
        as (gone & kept & w4 & k4 & -> & Hrun & S4 & H4 & B4 & Hk4 & Hstop & Hlast).
      exists (l :: gone), kept, w4, k4. split; [done|]. split; [done|]. split; [done|].
      split; [by rewrite H4, H3|]. split; [|split; [|split; [done|]]].
      * intros j [Hj1 Hj2]%not_elem_of_cons. rewrite B4 by done. rewrite B3. simpl.
        by rewrite lookup_delete_ne.
      * rewrite Hk4. simpl. rewrite Hbc. rewrite (total_capacity_ext w w3); [lia|].
        intros j Hj. apply block_capacity_core. unfold core_of. rewrite B3. simpl.
        rewrite lookup_delete_ne; [done|]. intros <-.
        pose proof (sr_nodup _ _ _ _ _ _ _ _ _ S) as Hnd. rewrite entries_reserved in Hnd. csimpl in Hnd.
        apply NoDup_cons in Hnd as [Hni _]. apply Hni. rewrite entries_fst, !elem_of_app. auto.
      * intros _. destruct gone as [|l0 gone]; [|by apply Hlast].
        exists k, (capacity (field b)). split; [done|]. rewrite Hk4. simpl. lia.
Qed.

Lemma trim_blocks_ok w this c k lim cs rs av F go :
  store_rep w this c k lim cs rs av F ->
  exists gone kept w' k', rs = gone ++ kept /\ trim_blocks c go w = (Ret tt, w') /\
    store_rep w' this c k' lim cs kept av F /\ hives w' = hives w /\
    (forall l, l ∉ gone -> blocks w' !! l = blocks w !! l) /\
    ctl_capacity k' = (ctl_capacity k - total_capacity w gone)%Z /\
    match kept with [] => True | l :: _ => go k' (block_capacity w' l) = false end /\
    (gone <> [] -> exists k0 cap, go k0 cap = true /\ ctl_capacity k' = (ctl_capacity k0 - cap)%Z).
Proof.
  intros S. apply trim_loop_ok; [done|]. pose proof (sr_links _ _ _ _ _ _ _ _ _ S) as L.
  destruct (lr_sub _ _ _ _ _ _ _ L) as (_ & Hs & _).
  apply nodup_size; [apply L|]. intros j Hj. by apply L, Hs.
Qed.
End capacity.
