(* ===== verification/HiveClear.v ===== *)
(** * Clearing and destroying a hive, and a concrete one

    [clear] destroys every element and keeps every block, all of them reserved
    afterwards; [release_storage], the body of the destructor, gives every
    allocation of the hive back. *)
From S2P Require Import Prelude Linked HiveBlock HiveHeap HiveInv HiveStore.

#[local] Open Scope Z_scope.

Section clear.
Context {T : Type} `{cfg : Config}.
Implicit Types (l j c this : loc) (b : block_type T) (k : control_type).
Implicit Types (w : world T) (bs rs av ls : list loc) (f : skipfield T) (v x : T).
Implicit Types (lay : list (segment T)).
Implicit Types (cs todo : list (loc * list (segment T))) (F X : list (loc * allocation)).

(** ** The loop of [clear] *)

Definition anext w j : option (option loc) := (fun b => active_next (act b)) <$> blocks w !! j.

Lemma dseg_sseg_next w p bs :
  dseg Some (alinks w) p bs None -> sseg Some (anext w) bs None.
Proof.
  revert p. induction bs as [|l bs IH]; intros p; simpl; [done|]. intros [Hl Hs].
  split; [|by eapply IH]. unfold alinks, anext in *. destruct (blocks w !! l); simplify_eq/=. congruence.
Qed.

(** A block still to be cleared, and one that is reserved. *)
Definition todo_ok w c lim (e : loc * list (segment T)) : Prop :=
  exists b fs, blocks w !! e.1 = Some b /\ control b = c /\ block_rep (field b) e.2 fs /\
    within lim (capacity (field b)) = true.

Definition done_ok w c lim l : Prop :=
  exists b, blocks w !! l = Some b /\ control b = c /\ block_rep (field b) [] [] /\
    within lim (capacity (field b)) = true /\
    active_prev (act b) = None /\ active_next (act b) = None /\ active (act b) = false /\
    avl b = AvailablePart None None false.

(** Half way through [clear]: [todo] are still linked by [active_next], [done]
    is the reserved list. *)
Record clearing w c k lim todo (done : list loc) : Prop := Clearing {
  cl_control : controls w !! c = Some k;
  cl_reserved : reserved_head k = head done;
  cl_todo : sseg Some (anext w) todo.*1 None;
  cl_done : sseg Some (rnext w) done None;
  cl_nodup : NoDup (todo.*1 ++ done);
  cl_todo_ok : Forall (todo_ok w c lim) todo;
  cl_done_ok : Forall (done_ok w c lim) done;
}.

(** Every block keeps its owner, its allocations and its capacity. *)
Definition same_sizes w w' : Prop := forall j,
  (fun t => (t.1, capacity t.2)) <$> core_of w' j = (fun t => (t.1, capacity t.2)) <$> core_of w j.

Lemma same_sizes_owned w w' j : same_sizes w w' -> owned_by w' j = owned_by w j.
Proof.
  intros H. specialize (H j). unfold owned_by.
  destruct (core_of w j) as [[[[[]?]?]?]|], (core_of w' j) as [[[[[]?]?]?]|]; simplify_eq/=; done || congruence.
Qed.

Lemma same_sizes_capacity w w' j : same_sizes w w' -> block_capacity w' j = block_capacity w j.
Proof.
  intros H. specialize (H j). unfold block_capacity.
  destruct (core_of w j) as [[[[[]?]?]?]|], (core_of w' j) as [[[[[]?]?]?]|]; simplify_eq/=; done || congruence.
Qed.

Lemma same_sizes_none w w' j : same_sizes w w' -> core_of w' j = None <-> core_of w j = None.
Proof. intros H. specialize (H j). destruct (core_of w j), (core_of w' j); simplify_eq/=; done. Qed.

(** The block [clear_step] leaves. *)
Definition cleared f (n : option loc) b : block_type T :=
  Block (control b) (block_allocation b) (slot_allocation b) (skip_allocation b)
    (reset_vacant_block f) (ActivePart None None (order (act b)) false) n
    (AvailablePart None None false).

Lemma upd_block_ins w l b g :
  blocks w !! l = Some b ->
  upd_block l g w = (Ret tt, set_blocks (<[l := g b]> (blocks w)) w).
Proof.
  intros Hb. rewrite upd_block_ok by eauto. by rewrite (alter_alt_Some _ _ _ b).
Qed.

Lemma clear_step_run w c k l b f :
  blocks w !! l = Some b -> controls w !! c = Some k -> destroy_live_elements (field b) = Some f ->
  clear_step c l w = (Ret (active_next (act b)),
    set_controls (<[c := with_reserved_head (Some l) k]> (controls w))
      (set_blocks (<[l := cleared f (reserved_head k) b]> (blocks w)) w)).
Proof.
  intros Hb Hk Hd. unfold clear_step.
  rewrite (bind_ret_eq _ _ _ _ _ (get_block_ok _ _ _ Hb)).
  erewrite bind_ret_eq by (by eapply on_field__ok).
  assert (set_field_at l f w = set_blocks (<[l := with_field f b]> (blocks w)) w) as ->.
  { unfold set_field_at. by rewrite (alter_alt_Some _ _ _ b). }
  do 7 (erewrite bind_ret_eq by (apply upd_block_ins, lookup_insert_eq);
        cbn [blocks set_blocks]; rewrite insert_insert_eq).
  erewrite bind_ret_eq by (by apply get_control_ok).
  erewrite bind_ret_eq by (apply upd_block_ins, lookup_insert_eq).
  cbn [blocks set_blocks]. rewrite insert_insert_eq.
  erewrite bind_ret_eq by (by apply upd_control_ok). done.
Qed.

Lemma clear_step_ok w c k lim l lay todo done :
  clearing w c k lim ((l, lay) :: todo) done ->
  exists w', clear_step c l w = (Ret (head todo.*1), w') /\
    clearing w' c (with_reserved_head (Some l) k) lim todo (l :: done) /\
    same_sizes w w' /\ same_store c w w'.
Proof.
  intros [Hc Hr Ht Hd Hnd Hto Hdo]. csimpl in *. destruct Ht as [Hn Ht].
  apply Forall_cons in Hto as [(b & fs & Hb & Hbc & R & Hw) Hto]. simpl in *.
  destruct (destroy_live_elements_spec _ _ _ R) as (f & He & Hcap & Hvac).
  unfold anext in Hn. rewrite Hb in Hn. simpl in Hn. rewrite hd_or_Some in Hn. injection Hn as Hn.
  rewrite (clear_step_run _ _ _ _ _ _ Hb Hc He), Hn. eexists. split; [done|].
  apply NoDup_cons in Hnd as [Hni Hnd]. rewrite elem_of_app in Hni.
  set (b' := cleared f (reserved_head k) b).
  assert (block_rep (field b') [] []) as R'.
  { apply reset_vacant_rep; [|done]. rewrite Hcap. apply R. }
  assert (forall j, j <> l -> <[l := b']> (blocks w) !! j = blocks w !! j) as Hj.
  { intros. by rewrite lookup_insert_ne. }
  split; [split; try done|split].
  - apply lookup_insert_eq.
  - eapply sseg_ext; [|exact Ht]. intros j Hjt. unfold anext. simpl. rewrite Hj; [done|].
    intros ->. auto.
  - split; [unfold rnext; simpl; rewrite lookup_insert_eq; simpl; by rewrite Hr, hd_or_Some|].
    eapply sseg_ext; [|exact Hd]. intros j Hjd. unfold rnext. simpl. rewrite Hj; [done|].
    intros ->. auto.
  - rewrite <- Permutation_middle. constructor; [|done]. by rewrite elem_of_app.
  - rewrite Forall_forall in Hto |- *. intros e Hin. specialize (Hto e Hin).
    unfold todo_ok in *. simpl. rewrite Hj; [done|]. intros Heq. apply Hni. left. rewrite <- Heq.
    by apply list_elem_of_fmap_2.
  - apply Forall_cons. split.
    + exists b'. simpl. rewrite lookup_insert_eq. repeat (split; [done|]). by rewrite Hcap.
    + rewrite Forall_forall in Hdo |- *. intros j Hin. specialize (Hdo j Hin).
      unfold done_ok in *. simpl. rewrite Hj; [done|]. intros ->. auto.
  - intros j. unfold core_of. simpl. rewrite lookup_insert. case_decide; [|done]. subst j.
    rewrite Hb. simpl. by rewrite Hcap.
  - split; try done. intros c' Hc'. simpl. by rewrite lookup_insert_ne.
Qed.

Lemma clear_walk todo : forall fuel w c k lim done,
  clearing w c k lim todo done -> (length todo <= fuel)%nat ->
  exists w' h, walk fuel (clear_step c) (head todo.*1) w = (Ret tt, w') /\
    clearing w' c (with_reserved_head h k) lim [] (rev todo.*1 ++ done) /\
    same_sizes w w' /\ same_store c w w'.
Proof.
  induction todo as [|[l lay] todo IH]; intros fuel w c k lim done C Hf.
  - exists w, (reserved_head k). destruct fuel; simpl; (split; [done|]; split; [|done]);
      (assert (with_reserved_head (reserved_head k) k = k) as -> by (by destruct k); done).
  - destruct fuel as [|fuel]; simpl in Hf; [lia|].
    destruct (clear_step_ok _ _ _ _ _ _ _ _ C) as (w1 & Hrun & C1 & Hs1 & Hst1).
    destruct (IH fuel w1 c _ lim (l :: done) C1 ltac:(lia)) as (w2 & h & Hw & C2 & Hs2 & Hst2).
    exists w2, h. simpl. rewrite (bind_ret_eq _ _ _ _ _ Hrun), Hw. split; [done|].
    split; [|split].
    + csimpl. rewrite <- app_assoc. exact C2.
    + intros j. by rewrite Hs2, Hs1.
    + by eapply same_store_trans.
Qed.

Lemma clearing_start w this c k lim cs rs av F :
  store_rep w this c k lim cs rs av F -> clearing w c k lim cs rs.
Proof.
  intros S. pose proof (sr_links _ _ _ _ _ _ _ _ _ S) as L.
  pose proof (sr_blocks _ _ _ _ _ _ _ _ _ S) as Hb. rewrite Forall_forall in Hb.
  split; try apply L.
  - eapply dseg_sseg_next, L.
  - rewrite <- entries_fst. apply S.
  - apply Forall_forall. intros [l lay] Hin.
    destruct (block_ok_cell _ _ _ _ _ _ (Hb (l, lay) ltac:(unfold entries; by apply elem_of_app; left)))
      as (b & fs & Hbl & Hc & R & Hw & _). by exists b, fs.
  - apply Forall_forall. intros l Hin.
    destruct (store_rep_reserved _ _ _ _ _ _ _ _ _ _ S Hin) as (Hlc & Hla & Hblk).
    destruct (block_ok_cell _ _ _ _ _ _ Hblk) as (b & fs & Hbl & Hc & R & Hw & _).
    exists b. split; [done|]. split; [done|].
    split; [by destruct (rep_no_elems _ _ _ R eq_refl) as [_ ->]|]. split; [done|].
    destruct (lr_flags _ _ _ _ _ _ _ L l b) as (H1 & H2 & _); [|done|].
    + rewrite entries_fst. apply elem_of_app. by right.
    + rewrite decide_False in H1 by done. rewrite decide_False in H2 by done. naive_solver.
Qed.

Definition emptied_control k : control_type :=
  with_size 0 (with_available_head None (with_active_tail None (with_active_head None k))).

Lemma cleared_links w w' c k lim done :
  clearing w c k lim [] done -> blocks w' = blocks w ->
  controls w' !! c = Some (emptied_control k) ->
  links_rep w' c (emptied_control k) done [] done [].
Proof.
  intros [Hc Hr _ Hd Hnd _ Hdo] Hb Hk'. rewrite Forall_forall in Hdo. simpl in Hnd.
  split; try done; try (split; done).
  - intros j Hj. destruct (Hdo j Hj) as (b & Hbj & _). rewrite Hb. eauto.
  - repeat split; [by intros ? ?%not_elem_of_nil|done|by intros ? ?%not_elem_of_nil].
  - repeat split; [constructor|done|constructor].
  - eapply sseg_ext; [|exact Hd]. intros j _. unfold rnext. by rewrite Hb.
  - intros j b Hj Hbj. destruct (Hdo j Hj) as (b' & Hb' & _ & _ & _ & H1 & H2 & H3 & H4).
    rewrite Hb in Hbj. simplify_eq. rewrite !decide_False by apply not_elem_of_nil.
    by rewrite decide_True.
Qed.

Lemma clear_ok w this c k lim cs rs av F :
  store_rep w this c k lim cs rs av F ->
  exists w' k', (for_blocks (clear_step c) (active_head k) ;;; upd_control c emptied_control) w
      = (Ret tt, w') /\
    store_rep w' this c k' lim [] (rev cs.*1 ++ rs) [] F /\ hives w' = hives w.
Proof.
  intros S. pose proof (sr_links _ _ _ _ _ _ _ _ _ S) as L.
  destruct (clear_walk cs (size (blocks w)) w c k lim rs (clearing_start _ _ _ _ _ _ _ _ _ S))
    as (w1 & h & Hw & C1 & Hs1 & Hst1).
  { rewrite <- (length_fmap fst). destruct (lr_sub _ _ _ _ _ _ _ L) as (Hsub & _).
    apply nodup_size; [apply L|]. intros j Hj. by apply L, Hsub. }
  set (k1 := with_reserved_head h k) in *.
  set (w2 := set_controls (<[c := emptied_control k1]> (controls w1)) w1).
  exists w2, (emptied_control k1). split; [|split; [|apply Hst1]].
  { unfold for_blocks, bind. rewrite (proj1 (lr_head _ _ _ _ _ _ _ L)), Hw.
    apply upd_control_ok, C1. }
  assert (links_rep w2 c (emptied_control k1) (rev cs.*1 ++ rs) [] (rev cs.*1 ++ rs) []) as L2.
  { eapply cleared_links; [exact C1|done|apply lookup_insert_eq]. }
  assert (forall rs', (entries (T := T) [] rs').*1 = rs') as Hent by (intros; by rewrite entries_fst).
  assert (rev cs.*1 ++ rs ≡ₚ (entries cs rs).*1) as HP.
  { rewrite entries_fst. apply Permutation_app_tail. symmetry. apply Permutation_rev. }
  assert (forall j, core_of w2 j = core_of w1 j) as Hc2 by done.
  split; rewrite ?Hent; try done; try apply S; try apply L2.
  - unfold entries. simpl. apply Forall_fmap, Forall_forall. intros l Hl.
    pose proof (cl_done_ok _ _ _ _ _ _ C1) as Hdo. rewrite Forall_forall in Hdo.
    destruct (Hdo l Hl) as (b & Hb & Hbc & R & Hwi & _).
    exists (block_allocation b), (slot_allocation b), (skip_allocation b), (field b), [].
    split; [unfold core_of; simpl; by rewrite Hb, <- Hbc|]. split; [done|]. split; [done|].
    simpl. split; [by intros ?%not_elem_of_nil|by intros []].
  - simpl. rewrite HP, (sr_capacity _ _ _ _ _ _ _ _ _ S). apply total_capacity_ext.
    intros j _. symmetry. by apply same_sizes_capacity.
  - simpl. rewrite HP, (ss_ledger _ _ _ Hst1), (sr_ledger _ _ _ _ _ _ _ _ _ S).
    rewrite (owned_ext w w2); [done|]. intros j _. by apply same_sizes_owned.
  - eapply fresh_ext; [apply S|apply L|apply Hst1|apply Hst1| |].
    + intros c' Hc'. simpl. rewrite lookup_insert_ne by done. by apply Hst1.
    + intros j. rewrite Hc2. by apply same_sizes_none.
Qed.

Lemma clear_spec w this cs rs av F h :
  hive_rep w this cs rs av F -> hives w !! this = Some h ->
  exists w' rs', clear this w = (Ret tt, w') /\ hive_rep w' this [] rs' [] F /\
    rs' ≡ₚ cs.*1 ++ rs /\
    hives w' = <[this := with_end_epoch (u64 (end_epoch_ h + 1)) h]> (hives w).
Proof.
  intros (h' & Hh & Hlim & Hctl) Hh'. assert (h' = h) as -> by congruence.
  unfold clear, clear_without_end_invalidation, touch_end.
  set (h2 := with_end_epoch (u64 (end_epoch_ h + 1)) h).
  destruct (control_ h) as [c|] eqn:Hc.
  - destruct Hctl as [k S]. pose proof (sr_links _ _ _ _ _ _ _ _ _ S) as L.
    destruct (clear_ok _ _ _ _ _ _ _ _ _ S) as (w1 & k1 & Hrun & S1 & H1).
    exists (set_hives (<[this := h2]> (hives w1)) w1), (rev cs.*1 ++ rs). split; [|split; [|split]].
    + erewrite bind_ret_eq.
      2: { erewrite bind_ret_eq by (by apply get_hive_ok). rewrite Hc.
           erewrite bind_ret_eq by (apply get_control_ok, L). exact Hrun. }
      rewrite (upd_hive_ok w1 this h) by (by rewrite H1). done.
    + exists h2. split; [apply lookup_insert_eq|]. split; [done|]. simpl. rewrite Hc.
      exists k1. by apply store_rep_hives.
    + apply Permutation_app_tail. symmetry. apply Permutation_rev.
    + simpl. by rewrite H1.
  - destruct Hctl as (-> & -> & -> & Hf & HF).
    exists (set_hives (<[this := h2]> (hives w)) w), []. split; [|split; [|split; [done|done]]].
    + erewrite bind_ret_eq. 2: { erewrite bind_ret_eq by (by apply get_hive_ok). by rewrite Hc. }
      by rewrite (upd_hive_ok w this h).
    + exists h2. split; [apply lookup_insert_eq|]. split; [done|]. simpl. by rewrite Hc.
Qed.

(** ** [release_storage] *)

Definition release_step (nx : block_type T -> option loc) (pre : loc -> M T unit) l : M T (option loc) :=
  let* b := get_block l in
  let next := nx b in
  pre l ;;; deallocate_block l ;;; ret next.

(** [pre] only changes the slots of the block. *)
Definition slots_only (pre : loc -> M T unit) : Prop := forall w l b lay fs,
  blocks w !! l = Some b -> block_rep (field b) lay fs ->
  exists f, pre l w = (Ret tt, set_field_at l f w) /\ capacity f = capacity (field b).

Lemma destroy_slots_only : slots_only (fun l => on_field_ l destroy_live_elements).
Proof.
  intros w l b lay fs Hb R. destruct (destroy_live_elements_spec _ _ _ R) as (f & He & Hcap & _).
  exists f. split; [by eapply on_field__ok|done].
Qed.

Lemma nothing_slots_only : slots_only (fun _ => ret tt).
Proof.
  intros w l b lay fs Hb R. exists (field b). split; [|done]. unfold ret, set_field_at.
  rewrite (alter_alt_Some _ _ _ b) by done.
  assert (with_field (field b) b = b) as -> by (by destruct b). rewrite insert_id by done. by destruct w.
Qed.

Definition good_block w l : Prop :=
  exists b lay fs, blocks w !! l = Some b /\ block_rep (field b) lay fs.

(** The blocks [ls] are released; every other block stays. *)
Lemma release_walk (nx : block_type T -> option loc) pre ls : slots_only pre -> forall (fuel : nat) w X,
  sseg Some (fun j => nx <$> blocks w !! j) ls None -> NoDup ls ->
  Forall (good_block w) ls -> fresh w -> allocs w ≡ₚ owned w ls ++ X ->
  (forall l f b, nx (with_field f b) = nx b) -> (length ls <= fuel)%nat ->
  exists w', walk fuel (release_step nx pre) (head ls) w = (Ret tt, w') /\ fresh w' /\
    allocs w' ≡ₚ X /\ controls w' = controls w /\ hives w' = hives w /\
    (forall j, j ∉ ls -> blocks w' !! j = blocks w !! j).
Proof.
  intros Hpre. induction ls as [|l ls IH]; intros fuel w X Hs Hnd Hg Hf HX Hnx Hfuel.
  { exists w. by destruct fuel. }
  destruct fuel as [|fuel]; simpl in Hfuel; [lia|]. destruct Hs as [Hl Hs].
  apply NoDup_cons in Hnd as [Hni Hnd]. apply Forall_cons in Hg as [(b & lay & fs & Hb & R) Hg].
  rewrite Hb, hd_or_Some in Hl. simpl in Hl. injection Hl as Hl.
  destruct (Hpre w l b lay fs Hb R) as (f & Hrun & Hcap).
  destruct (deallocate_block_ok (set_field_at l f w) l (with_field f b) (owned w ls ++ X))
    as (w2 & Hd & B2 & C2 & H2 & N2 & F2 & A2).
  { simpl. by rewrite lookup_alter_eq, Hb. }
  { intros j Hj. destruct (Hf j Hj) as (Hj1 & ? & ?). split; [|done]. simpl.
    rewrite lookup_alter. by case_decide; subst; rewrite Hj1. }
  { change (allocs (set_field_at l f w)) with (allocs w). rewrite HX. simpl. rewrite <- app_assoc.
    assert (owned_by (set_field_at l f w) l = owned_by w l) as ->; [|done].
    unfold owned_by. rewrite core_of_field, decide_True by done. unfold core_of. rewrite Hb. simpl.
    by rewrite Hcap. }
  assert (forall j, j <> l -> blocks w2 !! j = blocks w !! j) as Hj.
  { intros j Hj. rewrite B2. simpl. by rewrite lookup_delete_ne, lookup_alter_ne. }
  destruct (IH fuel w2 X) as (w3 & Hw & F3 & A3 & C3 & H3 & B3); try done; try lia.
  - eapply sseg_ext; [|exact Hs]. intros j Hin. simpl. rewrite Hj; [done|by intros ->].
  - rewrite Forall_forall in Hg |- *. intros j Hin. destruct (Hg j Hin) as (b' & lay' & fs' & Hb' & R').
    exists b', lay', fs'. rewrite Hj; [done|by intros ->].
  - rewrite A2, (owned_ext w w2); [done|]. intros j Hin. apply owned_by_core. unfold core_of.
    rewrite Hj; [done|by intros ->].
  - exists w3. split; [|split; [done|split; [done|split; [by rewrite C3, C2|split; [by rewrite H3, H2|]]]]].
    + simpl. erewrite bind_ret_eq.
      2: { unfold release_step. rewrite (bind_ret_eq _ _ _ _ _ (get_block_ok _ _ _ Hb)), Hl.
           rewrite (bind_ret_eq _ _ _ _ _ Hrun), (bind_ret_eq _ _ _ _ _ Hd). done. }
      exact Hw.
    + intros j [? ?]%not_elem_of_cons. by rewrite B3, Hj.
Qed.

Lemma release_walk_all (nx : block_type T -> option loc) pre ls w X :
  slots_only pre -> sseg Some (fun j => nx <$> blocks w !! j) ls None -> NoDup ls ->
  Forall (good_block w) ls -> fresh w -> allocs w ≡ₚ owned w ls ++ X ->
  (forall (l : loc) f b, nx (with_field f b) = nx b) ->
  exists w', for_blocks (release_step nx pre) (head ls) w = (Ret tt, w') /\ fresh w' /\
    allocs w' ≡ₚ X /\ controls w' = controls w /\ hives w' = hives w /\
    (forall j, j ∉ ls -> blocks w' !! j = blocks w !! j).
Proof.
  intros. unfold for_blocks. apply release_walk; try done.
  apply nodup_size; [done|]. intros j Hj. rewrite Forall_forall in *.
  destruct (H2 j Hj) as (b & ? & ? & ? & _). eauto.
Qed.

Lemma store_rep_good w this c k lim cs rs av F l :
  store_rep w this c k lim cs rs av F -> l ∈ (entries cs rs).*1 -> good_block w l.
Proof.
  intros S [[l' lay] [-> Hin]]%list_elem_of_fmap.
  pose proof (sr_blocks _ _ _ _ _ _ _ _ _ S) as Hb. rewrite Forall_forall in Hb.
  destruct (block_ok_cell _ _ _ _ _ _ (Hb _ Hin)) as (b & fs & Hbl & _ & R & _). by exists b, lay, fs.
Qed.

Lemma release_ok w this cs rs av F :
  hive_rep w this cs rs av F ->
  exists w', release_storage this w = (Ret tt, w') /\ hive_rep w' this [] [] [] F /\
    allocs w' ≡ₚ F.
Proof.
  intros (h & Hh & Hlim & Hctl). unfold release_storage.
  rewrite (bind_ret_eq _ _ _ _ _ (get_hive_ok _ _ _ Hh)).
  destruct (control_ h) as [c|] eqn:Hc.
  2: { destruct Hctl as (-> & -> & -> & Hf & HF). exists w. split; [done|]. split; [|done].
       exists h. by rewrite Hc. }
  destruct Hctl as [k S]. pose proof (sr_links _ _ _ _ _ _ _ _ _ S) as L.
  pose proof (sr_nodup _ _ _ _ _ _ _ _ _ S) as Hnd. rewrite entries_fst in Hnd.
  apply NoDup_app in Hnd as (Hnd1 & Hdis & Hnd2).
  rewrite (bind_ret_eq _ _ _ _ _ (get_control_ok _ _ _ (lr_control _ _ _ _ _ _ _ L))).
  pose proof (sr_ledger _ _ _ _ _ _ _ _ _ S) as Hled. rewrite entries_fst, owned_app in Hled.
  destruct (release_walk_all (fun b => active_next (act b)) (fun l => on_field_ l destroy_live_elements)
    cs.*1 w ((control_allocation k, AControl) :: owned w rs ++ F)) as (w1 & Hw1 & F1 & A1 & C1 & H1 & B1);
    [apply destroy_slots_only|eapply dseg_sseg_next, L|done| |apply S| |done|].
  { apply Forall_forall. intros l Hl. eapply store_rep_good; [exact S|]. rewrite entries_fst.
    apply elem_of_app. by left. }
  { unfold allocs. rewrite Hled, <- app_assoc. apply Permutation_middle. }
  assert (forall j, j ∈ rs -> blocks w1 !! j = blocks w !! j) as Hj.
  { intros j Hj. apply B1. intros ?. by eapply Hdis. }
  destruct (release_walk_all reserved_next (fun _ => ret tt)
    rs w1 ((control_allocation k, AControl) :: F)) as (w2 & Hw2 & F2 & A2 & C2 & H2 & B2);
    [apply nothing_slots_only| |done| |done| |done|].
  { eapply sseg_ext; [|apply L]. intros j Hin. unfold rnext. by rewrite Hj. }
  { apply Forall_forall. intros l Hl. destruct (store_rep_good _ _ _ _ _ _ _ _ _ l S) as (b & lay & fs & ? & ?).
    - rewrite entries_fst. apply elem_of_app. by right.
    - exists b, lay, fs. by rewrite Hj. }
  { rewrite A1, (owned_ext w w1); [apply Permutation_middle|].
    intros j Hin. apply owned_by_core. unfold core_of. by rewrite Hj. }
  assert (controls w2 !! c = Some k) as Hk2 by (rewrite C2, C1; apply L).
  set (w3 := set_controls (delete c (controls w2)) w2).
  destruct (deallocate_ok w3 _ _ _ A2) as (w4 & Hd & -> & A4).
  assert (hives w2 = hives w) as Hh2 by (by rewrite H2, H1).
  exists (set_hives (<[this := with_control_ None h]> (hives w)) (set_ledger (delete (control_allocation k) (ledger w3)) w3)).
  split; [|split; [|exact A4]].
  - rewrite (proj1 (lr_head _ _ _ _ _ _ _ L)), (bind_ret_eq _ _ _ _ _ Hw1).
    rewrite (lr_reserved_head _ _ _ _ _ _ _ L), (bind_ret_eq _ _ _ _ _ Hw2).
    erewrite bind_ret_eq.
    2: { unfold deallocate_control. rewrite (bind_ret_eq _ _ _ _ _ (get_control_ok _ _ _ Hk2)).
         rewrite (bind_ret_eq _ _ w2 w3 tt) by done. exact Hd. }
    rewrite (upd_hive_ok _ this h); simpl; by rewrite Hh2.
  - exists (with_control_ None h). split; [apply lookup_insert_eq|]. split; [done|]. simpl.
    repeat (split; [done|]). split; [|exact A4].
    intros j Hj'. destruct (F2 j Hj') as (? & ? & ?). simpl. split; [done|]. split.
    + by rewrite lookup_delete_None; right.
    + by rewrite lookup_delete_None; right.
Qed.
End clear.

(** ** A concrete hive

    The heap after seven insertions and two erasures: three blocks, one with a
    dead run between two live slots.  The properties of the hive are applied to
    it. *)

#[export] Instance demo_config : Config := {|
  sizeof_slot := 16; allocator_max := 2 ^ 32; slot_max := 2 ^ 32; skip_max := 2 ^ 32;
  constexpr_bound := None; pocca := false; pocma := false; pocs := false;
  always_equal := true; alloc_ok := fun _ => true |}.

(** A hive object at location 0, with limits 2 and 4 and no storage. *)
Definition demo_start : world nat :=
  World ∅ ∅ {[0 := HiveObject 0 (HiveLimits 2 4) None 0]} ∅ 1 0.

Definition demo_run : M nat unit :=
  append_input 0 (Some <$> [10; 20; 30; 40; 50; 60; 70]%nat) ;;;
  erase 0 (at_element 8 1) ;;;
  erase 0 (at_element 2 0) ;;;
  ret tt.

Definition demo_world : world nat := Eval vm_compute in (demo_run demo_start).2.

Definition demo_blocks : list (loc * list (segment nat)) :=
  [(2, [Dead 1; Live 20%nat]); (5, [Live 30%nat; Live 40%nat]);
   (8, [Live 50%nat; Dead 1; Live 70%nat])].

Definition demo_control : control_type :=
  Control 0 1 (Some 2) (Some 8) None (Some 2) 5 8 3.

Lemma demo_run_ok : (demo_run demo_start).1 = Ret tt.
Proof. by vm_compute. Qed.

Lemma demo_hive : hives demo_world !! 0 = Some (HiveObject 0 (HiveLimits 2 4) (Some 1) 7).
Proof. by vm_compute. Qed.

Lemma demo_start_rep : hive_rep demo_start 0 [] [] [] [].
Proof.
  exists (HiveObject 0 (HiveLimits 2 4) None 0). split; [by vm_compute|]. split; [split; [by vm_compute|simpl; lia]|].
  repeat (split; [done|]). done.
Qed.


(** The entries of a concrete map. *)
Ltac in_map :=
  match goal with
  | |- context [?m !! ?j] =>
      let E := fresh in destruct (m !! j) eqn:E; [|try done];
      apply elem_of_map_to_list in E; vm_compute in E;
      repeat (apply elem_of_cons in E as [E|E]; [injection E as -> ->|]);
      try (by apply not_elem_of_nil in E)
  end.

(** Deciding what a concrete block encodes. *)
Ltac demo_rep :=
  split;
  [ vm_compute; split; congruence | by vm_compute | vm_compute; congruence
  | simpl; split_and?; done || lia
  | simpl; split_and?; try (by vm_compute); intros j Hj;
    assert (j = 0 \/ j = 1) as [-> | ->] by lia; try lia;
    vm_compute; (split; [done|by eexists])
  | simpl; intros j Hj; try in_map; try lia; try done
  | by vm_compute | split; by vm_compute | by vm_compute ].

Lemma demo_ok : Forall (block_ok demo_world 1 (HiveLimits 2 4) [2; 8]) (entries demo_blocks []).
Proof.
  unfold entries, demo_blocks. simpl. rewrite !Forall_cons, Forall_nil. split_and!; [| | |done].
  - eexists _, _, _, _, [0]. split; [by vm_compute|]. split; [demo_rep|split; [by vm_compute|]].
    split; [by vm_compute|intros _; set_solver].
  - eexists _, _, _, _, []. split; [by vm_compute|]. split; [demo_rep|split; [by vm_compute|]].
    split; [simpl; set_solver|intros [_ H]; by vm_compute in H].
  - eexists _, _, _, _, [1]. split; [by vm_compute|]. split; [demo_rep|split; [by vm_compute|]].
    split; [by vm_compute|intros _; set_solver].
Qed.

Lemma demo_fresh : fresh demo_world.
Proof.
  intros j Hj. change (next_loc demo_world) with 11 in Hj.
  split_and!; in_map; lia.
Qed.

Lemma demo_links :
  links_rep demo_world 1 demo_control [2; 5; 8] [2; 5; 8] [] [2; 8].
Proof.
  split; try (by vm_compute).
  - intros j Hj. repeat (apply elem_of_cons in Hj as [->|Hj]; [by vm_compute; eexists|]).
    by apply not_elem_of_nil in Hj.
  - split_and!; set_solver.
  - split_and!; repeat constructor; set_solver.
  - intros j b Hj Hb. repeat (apply elem_of_cons in Hj as [->|Hj];
      [vm_compute in Hb; injection Hb as <-; by vm_compute|]).
    by apply not_elem_of_nil in Hj.
Qed.

Lemma demo_rep_ok : hive_rep demo_world 0 demo_blocks [] [2; 8] [].
Proof.
  eexists. split; [apply demo_hive|]. split; [split; [by vm_compute|simpl; lia]|].
  exists demo_control. split.
  - exact demo_links.
  - simpl. repeat constructor; set_solver.
  - done.
  - repeat constructor; done.
  - exact demo_ok.
  - done.
  - by vm_compute.
  - by vm_compute.
  - apply (bool_decide_unpack _). by vm_compute.
  - exact demo_fresh.
Qed.

Lemma demo_spots : spots demo_blocks =
  [(2, 1, 20%nat); (5, 0, 30%nat); (5, 1, 40%nat); (8, 0, 50%nat); (8, 2, 70%nat)].
Proof. done. Qed.

(** The concrete hive once it was cleared: its three blocks are reserved. *)
Definition demo_cleared : world nat := Eval vm_compute in (clear 0 demo_world).2.

Lemma demo_cleared_rep : exists rs, hive_rep demo_cleared 0 [] rs [] [] /\ rs ≡ₚ [2; 5; 8].
Proof.
  destruct (clear_spec _ _ _ _ _ _ _ demo_rep_ok demo_hive) as (w' & rs & Hrun & HR & HP & _).
  exists rs. split; [|done].
  assert (demo_cleared = w') as ->; [|done].
  change demo_cleared with (clear 0 demo_world).2. by rewrite Hrun.
Qed.
