(* ===== verification/Hive.v ===== *)
(** * Correctness of the hive

    The properties of class [hive] (backport/cpp26/hive.hpp), each for every
    well-formed hive ([hive_rep]), every element type and every behaviour of the
    allocator, with a witness on the concrete hive of HiveClear. *)
From S2P Require Import Prelude Linked HiveBlock HiveHeap HiveInv HiveStore.
From S2P Require Import HiveStore HiveErase HiveCapacity HiveClear.

#[local] Open Scope Z_scope.

Section properties.
Context {T : Type} `{cfg : Config}.
Implicit Types (l j c this : loc) (w : world T) (rs av : list loc) (v x : T).
Implicit Types (cs : list (loc * list (segment T))) (F : list (loc * allocation)).

(** C1: [emplace] on a well-formed hive never goes wrong.  When it returns, it
    returns the iterator to a slot that was free and now holds the new element;
    the hive is well formed, the sequence of spots (elements with their block
    and slot) gained exactly that spot, and no other slot of the heap changed,
    so every iterator, pointer and reference stays valid.  When the element's
    constructor throws, the allocator fails or the hive would exceed
    [max_size], the exception leaves the hive, the allocations and every slot as
    they were. *)
Theorem emplace_correct w this cs rs av F (x : option T) :
  hive_rep w this cs rs av F ->
  match emplace this x w with
  | (Ret it, w') => exists v l i cs' rs' av',
      x = Some v /\ it = at_element l i /\ hive_rep w' this cs' rs' av' F /\
      inserted (l, i, v) (spots cs) (spots cs') /\ stored w w' l i v
  | (Raise _, w') => hive_rep w' this cs rs av F /\ forall l i, elem_at w' l i = elem_at w l i
  | (Stuck, _) => False
  end.
Proof.
  intros HR. pose proof (emplace_spec _ _ _ _ _ _ x HR) as H.
  destruct (emplace this x w) as [[it|e|] w']; simpl in H; [| |done].
  - destruct H as (v & -> & cs' & rs' & av' & l & i & -> & ? & ? & ? & _). naive_solver.
  - by destruct H as (? & _ & ?).
Qed.

(** [--] undoes [++], also from the end back to the last element. *)
Lemma decrement_increment w this cs rs av F h ps l i x qs :
  hive_rep w this cs rs av F -> hives w !! this = Some h -> spots cs = ps ++ (l, i, x) :: qs ->
  (let* it := it_next (at_element l i) in it_prev it) w = (Ret (at_element l i), w).
Proof.
  intros HR Hh Hs. rewrite (bind_ret_eq _ _ _ _ _ (next_spec _ _ _ _ _ _ _ HR Hh _ _ _ _ _ Hs)).
  destruct qs as [|q qs]; [by eapply prev_end_spec|by eapply prev_spec].
Qed.

(** C3: the loop [for (it = begin(); it != end(); ++it)] over a well-formed hive
    terminates after [size()] steps, never dereferences a dead slot, and reads
    exactly the elements of the hive in order; and [--] undoes [++] at every
    place, also from the end back to the last element. *)
Theorem iteration_correct w this cs rs av F :
  hive_rep w this cs rs av F ->
  (let* first := hive_begin this in
   let* last := hive_end this in
   let* n := hive_size this in
   collect (Z.to_nat n) first last) w = (Ret (contents cs), w) /\
  forall h ps l i x qs, hives w !! this = Some h -> spots cs = ps ++ (l, i, x) :: qs ->
    (let* it := it_next (at_element l i) in it_prev it) w = (Ret (at_element l i), w).
Proof.
  intros HR. split; [|intros; by eapply decrement_increment]. pose proof HR as (h & Hh & _).
  rewrite (bind_ret_eq _ _ _ _ _ (begin_spec _ _ _ _ _ _ _ HR Hh)).
  erewrite bind_ret_eq by (unfold hive_end; by erewrite bind_ret_eq by (by apply get_hive_ok)).
  rewrite (bind_ret_eq _ _ _ _ _ (hive_size_ok _ _ _ _ _ _ HR)), Nat2Z.id.
  pose proof (collect_ok _ _ _ _ _ _ _ HR Hh (spots cs) [] (length (contents cs)) eq_refl) as Hc.
  rewrite <- spots_contents, length_fmap in *. by apply Hc.
Qed.

(** C2: [erase] of the iterator to any spot of a well-formed hive returns the
    iterator to the next spot (the end when there is none); the sequence of
    spots loses exactly that one, so every other element keeps its block and
    slot.  [erase(first, last)] terminates, removes exactly the spots between the
    two iterators and returns the iterator to [last]. *)
Theorem erase_correct w this cs rs av F h :
  hive_rep w this cs rs av F -> hives w !! this = Some h ->
  (forall ps l i x qs, spots cs = ps ++ (l, i, x) :: qs ->
    exists w' cs' rs' av' h', erase this (at_element l i) w = (Ret (iterator_at this h' (head qs)), w') /\
      hive_rep w' this cs' rs' av' F /\ hives w' !! this = Some h' /\ spots cs' = ps ++ qs) /\
  (forall ps ms qs, spots cs = ps ++ ms ++ qs ->
    exists w' cs' rs' av' h',
      erase_range this (iterator_at this h (head (ms ++ qs))) (iterator_at this h (head qs)) w =
        (Ret (iterator_at this h' (head qs)), w') /\
      hive_rep w' this cs' rs' av' F /\ hives w' !! this = Some h' /\ spots cs' = ps ++ qs).
Proof.
  intros HR Hh. split.
  - intros ps l i x qs Hs. destruct (erase_spec _ _ _ _ _ _ _ _ _ _ _ _ HR Hh Hs)
      as (w' & cs' & rs' & av' & Hrun & HR' & Hh' & Hs').
    eexists w', cs', rs', av', _. split; [exact Hrun|]. by rewrite Hh', lookup_insert_eq.
  - intros ps ms qs Hs. unfold erase_range.
    rewrite (bind_ret_eq _ _ _ _ _ (hive_size_ok _ _ _ _ _ _ HR)), Nat2Z.id.
    eapply erase_until_ok; [done..| |by destruct qs as [|[[]]]].
    rewrite <- spots_contents, length_fmap, Hs, !length_app. lia.
Qed.

(** C4: the destructor ([release_storage]) destroys the hive without touching a
    dead slot and gives back every allocation of the hive, each once and with
    the extent it was made with: the ledger afterwards is that of everybody
    else.  [clear] terminates with an empty well-formed hive that keeps all its
    blocks, in reserve, and all its allocations. *)
Theorem release_clear_correct w this cs rs av F :
  hive_rep w this cs rs av F ->
  (exists w', release_storage this w = (Ret tt, w') /\ allocs w' ≡ₚ F /\ hive_rep w' this [] [] [] F) /\
  (exists w' rs', clear this w = (Ret tt, w') /\ hive_rep w' this [] rs' [] F /\ rs' ≡ₚ cs.*1 ++ rs).
Proof.
  intros HR. split; [destruct (release_ok _ _ _ _ _ _ HR) as (w' & ? & ? & ?); eauto|].
  pose proof HR as (h & Hh & _).
  destruct (clear_spec _ _ _ _ _ _ _ HR Hh) as (w' & rs' & ? & ? & ? & _). eauto.
Qed.

Lemma trim_capacity_to_ok w this cs rs av F n cur :
  hive_rep w this cs rs av F -> hive_capacity this w = (Ret cur, w) -> (0 <= n < cur)%Z ->
  exists gone kept w' cur', rs = gone ++ kept /\ trim_capacity_to this n w = (Ret tt, w') /\
    hive_rep w' this cs kept av F /\ (forall l i, l ∉ gone -> elem_at w' l i = elem_at w l i) /\
    hive_capacity this w' = (Ret cur', w') /\ (n <= cur')%Z /\
    match kept with [] => True | l :: _ => (cur' - block_capacity w' l < n)%Z end.
Proof.
  intros HR Hcur Hn. pose proof HR as (h & Hh & _).
  destruct (hive_capacity_ok _ _ _ _ _ _ _ HR Hh) as (m & Hm & _ & Hk).
  rewrite Hcur in Hm. injection Hm as <-. destruct (control_ h) as [c|] eqn:Hc; [|lia].
  destruct Hk as (k & S & ->). destruct (trim_blocks_ok _ _ _ _ _ _ _ _ _
    (fun k cap => (n <=? ctl_capacity k - cap)%Z) S)
    as (gone & kept & w' & k' & -> & Hrun & S' & Hh' & Hb & Hcap & Hstop & Hlast).
  assert (hives w' !! this = Some h) as Hh2 by (by rewrite Hh').
  exists gone, kept, w', (ctl_capacity k'). split; [done|]. split_and!.
  - unfold trim_capacity_to. erewrite bind_ret_eq by (by apply get_hive_ok). rewrite Hc.
    erewrite bind_ret_eq by (apply get_control_ok, S). case_zb; [lia|done].
  - by eapply hive_rep_intro.
  - intros l i Hl. unfold elem_at. by rewrite Hb.
  - unfold hive_capacity. erewrite bind_ret_eq by (by apply get_hive_ok). rewrite Hc.
    by erewrite bind_ret_eq by (apply get_control_ok, S').
  - destruct gone; [simpl in Hcap; lia|]. destruct Hlast as (k0 & cap & Hgo & ->); [done|].
    by apply Z.leb_le in Hgo.
  - destruct kept; [done|]. by apply Z.leb_gt.
Qed.
(** C5: [reserve(n)] terminates; when it returns, [capacity()] is at least [n]
    and at most [max_size()] unless it already exceeded it, and no element
    moved.  When it throws, the hive is well formed with the same elements in
    the same places, and [length_error] means that nothing happened at all.
    [trim_capacity(n)] on a hive whose capacity exceeds [n] terminates, releases
    reserved blocks only, from the front of the reserved list, never brings the
    capacity below [n], and stops exactly when the next block would.  Every plan
    of [plan_capacity] has at least one block and brings the capacity to the
    requested one at least and to [max_size()] at most.  The capacities that
    [next_block_capacity] gives, block after block, are as many as the plan has
    blocks and add up to what it adds; each is within the hive's limits and no
    greater than one allocation may be. *)
Theorem reserve_trim_correct w this cs rs av F n cur :
  hive_rep w this cs rs av F -> hive_capacity this w = (Ret cur, w) ->
  ((n < 2 ^ 64)%Z ->
   match reserve this n w with
   | (Ret _, w') => exists new cur', hive_rep w' this cs (new ++ rs) av F /\
       hive_capacity this w' = (Ret cur', w') /\ (Z.max n cur <= cur' <= Z.max cur max_size)%Z /\
       forall l i, elem_at w' l i = elem_at w l i
   | (Raise e, w') => exists new, hive_rep w' this cs (new ++ rs) av F /\
       (forall l i, elem_at w' l i = elem_at w l i) /\ (e = length_error -> w' = w)
   | (Stuck, _) => False
   end) /\
  ((0 <= n < cur)%Z ->
   exists gone kept w' cur', rs = gone ++ kept /\ trim_capacity_to this n w = (Ret tt, w') /\
     hive_rep w' this cs kept av F /\ (forall l i, l ∉ gone -> elem_at w' l i = elem_at w l i) /\
     hive_capacity this w' = (Ret cur', w') /\ (n <= cur')%Z /\
     match kept with [] => True | l :: _ => (cur' - block_capacity w' l < n)%Z end) /\
  (forall lim p, limits_ok lim -> (0 <= cur < n)%Z -> (n < 2 ^ 64)%Z -> plan_capacity lim cur n = Some p ->
   let caps := plan_capacities (Z.to_nat (pl_blocks p)) lim p in
   (1 <= pl_blocks p)%Z /\ (n <= cur + pl_added p <= max_size)%Z /\
   (pl_blocks p * lim_min lim <= pl_added p <= pl_blocks p * pl_block_max p)%Z /\
   Z.of_nat (length caps) = pl_blocks p /\ foldr Z.add 0%Z caps = pl_added p /\
   Forall (fun cap => within lim cap = true /\ (cap <= allocation_block_max lim)%Z) caps).
Proof.
  intros HR Hc. split; [intros Hn|split; [by apply trim_capacity_to_ok|]].
  2: { intros lim p Hl Hcn Hn Hp. destruct (plan_capacity_ok _ _ _ _ Hl Hcn Hn Hp) as (Hok & Hb & Ha).
    destruct (plan_served (Z.to_nat (pl_blocks p)) _ _ _ Hok) as (Hlen & Hsum & Hall); [lia|].
    rewrite <- (plan_block_max _ _ _ _ Hp). destruct Hok. split_and!; try lia. exact Hall. }
  pose proof (reserve_spec _ _ _ _ _ _ _ _ HR Hn Hc) as H.
  destruct (reserve this n w) as [[u|e|] w']; simpl in H; [| |done].
  - destruct H as (new & cur' & [? ?] & ? & ?). eauto 10.
  - destruct H as (new & [? ?] & ?). eauto 10.
Qed.
End properties.

(** ** The properties on a concrete hive *)

Abbreviation demo_hive_object := (HiveObject 0 (HiveLimits 2 4) (Some 1) 7).

Lemma emplace_correct_witness :
  hive_rep demo_world 0 demo_blocks [] [2; 8] [] /\
  match emplace 0 (Some 99%nat) demo_world with
  | (Ret it, w') => exists v l i cs' rs' av',
      Some 99%nat = Some v /\ it = at_element l i /\ hive_rep w' 0 cs' rs' av' [] /\
      inserted (l, i, v) (spots demo_blocks) (spots cs') /\ stored demo_world w' l i v
  | (Raise _, w') => hive_rep w' 0 demo_blocks [] [2; 8] [] /\
      forall l i, elem_at w' l i = elem_at demo_world l i
  | (Stuck, _) => False
  end.
Proof. split; [exact demo_rep_ok|]. exact (emplace_correct _ _ _ _ _ _ (Some 99%nat) demo_rep_ok). Defined.

Lemma erase_correct_witness :
  (exists w' cs' rs' av' h', erase 0 (at_element 8 0) demo_world = (Ret (iterator_at 0 h' (Some (8, 2, 70%nat))), w') /\
    hive_rep w' 0 cs' rs' av' [] /\ hives w' !! 0 = Some h' /\
    spots cs' = [(2, 1, 20%nat); (5, 0, 30%nat); (5, 1, 40%nat); (8, 2, 70%nat)]) /\
  (exists w' cs' rs' av' h',
    erase_range 0 (at_element 5 1) (at_element 8 2) demo_world =
      (Ret (iterator_at 0 h' (Some (8, 2, 70%nat))), w') /\
    hive_rep w' 0 cs' rs' av' [] /\ hives w' !! 0 = Some h' /\
    spots cs' = [(2, 1, 20%nat); (5, 0, 30%nat); (8, 2, 70%nat)]).
Proof.
  destruct (erase_correct demo_world 0 demo_blocks [] [2; 8] [] demo_hive_object demo_rep_ok
    ltac:(vm_compute; reflexivity)) as [Hone Hrange]. split.
  - apply (Hone [(2, 1, 20%nat); (5, 0, 30%nat); (5, 1, 40%nat)] 8 0 50%nat [(8, 2, 70%nat)]);
      vm_compute; reflexivity.
  - apply (Hrange [(2, 1, 20%nat); (5, 0, 30%nat)] [(5, 1, 40%nat); (8, 0, 50%nat)] [(8, 2, 70%nat)]);
      vm_compute; reflexivity.
Defined.

Lemma iteration_correct_witness :
  (let* first := hive_begin 0 in
   let* last := hive_end 0 in
   let* n := hive_size 0 in
   collect (Z.to_nat n) first last) demo_world = (Ret [20; 30; 40; 50; 70]%nat, demo_world) /\
  (let* it := it_next (at_element 5 1) in it_prev it) demo_world = (Ret (at_element 5 1), demo_world).
Proof.
  destruct (iteration_correct demo_world 0 demo_blocks [] [2; 8] [] demo_rep_ok) as [H1 H2].
  split; [exact H1|].
  apply (H2 demo_hive_object [(2, 1, 20%nat); (5, 0, 30%nat)] 5 1 40%nat [(8, 0, 50%nat); (8, 2, 70%nat)]);
    vm_compute; reflexivity.
Defined.

Lemma release_clear_correct_witness :
  (exists w', release_storage 0 demo_world = (Ret tt, w') /\ allocs w' ≡ₚ [] /\ hive_rep w' 0 [] [] [] []) /\
  (exists w' rs', clear 0 demo_world = (Ret tt, w') /\ hive_rep w' 0 [] rs' [] [] /\ rs' ≡ₚ [2; 5; 8]).
Proof. exact (release_clear_correct _ _ _ _ _ _ demo_rep_ok). Defined.

Lemma reserve_trim_correct_witness :
  match reserve 0 20 demo_world with
  | (Ret _, w') => exists new cur', hive_rep w' 0 demo_blocks (new ++ []) [2; 8] [] /\
      hive_capacity 0 w' = (Ret cur', w') /\ (Z.max 20 8 <= cur' <= Z.max 8 max_size)%Z /\
      forall l i, elem_at w' l i = elem_at demo_world l i
  | (Raise e, w') => exists new, hive_rep w' 0 demo_blocks (new ++ []) [2; 8] [] /\
      (forall l i, elem_at w' l i = elem_at demo_world l i) /\ (e = length_error -> w' = demo_world)
  | (Stuck, _) => False
  end /\
  exists rs gone kept w' cur', rs ≡ₚ [2; 5; 8] /\ rs = gone ++ kept /\
    trim_capacity_to 0 3 demo_cleared = (Ret tt, w') /\
    hive_rep w' 0 [] kept [] [] /\ (forall l i, l ∉ gone -> elem_at w' l i = elem_at demo_cleared l i) /\
    hive_capacity 0 w' = (Ret cur', w') /\ (3 <= cur')%Z /\
    match kept with [] => True | l :: _ => (cur' - block_capacity w' l < 3)%Z end.
Proof.
  split.
  - destruct (reserve_trim_correct demo_world 0 demo_blocks [] [2; 8] [] 20 8 demo_rep_ok
      ltac:(vm_compute; reflexivity)) as [Hreserve _].
    apply Hreserve. lia.
  - destruct demo_cleared_rep as (rs & HR & HP).
    destruct (reserve_trim_correct demo_cleared 0 [] rs [] [] 3 8 HR ltac:(vm_compute; reflexivity))
      as (_ & Htrim & _).
    destruct (Htrim ltac:(lia)) as (gone & kept & w' & cur' & H).
    exists rs, gone, kept, w', cur'. split; [exact HP|exact H].
Defined.

