(* ===== verification/HiveObjects.v ===== *)
(** * Hives as objects

    Construction, destruction, assignment, swapping and splicing of hives, and
    the operations that rebuild one ([shrink_to_fit], [reshape]): the parts of
    class [hive] (backport/cpp26/hive.hpp) that work with whole hives.  They are
    compositions of the operations of HiveHeap.v; [this] and [other] are the
    addresses of hive objects, and an object that a function creates on its
    stack lives at an address that is an argument.

    What the element type does is a parameter: [value_init], [copy_of] and
    [move_of] say what its constructors give ([None] when they throw), and
    [moved_from] what they leave behind of an element that was moved. *)
From S2P Require Import Prelude Linked HiveBlock HiveHeap.

#[local] Open Scope Z_scope.

Section objects.
Context {T : Type} `{cfg : Config}.
Context (value_init : option T) (copy_of move_of : T -> option T) (moved_from : T -> T).
Context (select_on_copy : Z -> Z).
Implicit Types (l c this other : loc) (x : T) (w : world T).

(** ** Elements of another hive, one after the other *)

(** Writing to an element. *)
Definition it_assign (it : iterator) x : M T unit :=
  let* l := deref (it_block it) in
  on_field_ l (fun f => _ ← element f (it_index it); write_slot f (it_index it) (Elem x)).

(** [append_input] with the iterators of another hive: its elements are copied. *)
Fixpoint copy_elements (fuel : nat) this (first last : iterator) : M T unit :=
  if it_eqb first last then ret tt else
  match fuel with
  | O => stuck
  | S fuel' =>
      let* x := it_deref first in
      emplace this (copy_of x) ;;;
      let* first := it_next first in
      copy_elements fuel' this first last
  end.

Definition append_from this other : M T unit :=
  let* first := hive_begin other in
  let* last := hive_end other in
  let* n := hive_size other in
  copy_elements (Z.to_nat n) this first last.

(** The loop of [append_moves] and [append_move_to]: each element is moved. *)
Fixpoint move_elements (fuel : nat) this (current last : iterator) : M T unit :=
  if it_eqb current last then ret tt else
  match fuel with
  | O => stuck
  | S fuel' =>
      let* x := it_deref current in
      emplace this (move_of x) ;;;
      it_assign current (moved_from x) ;;;
      let* current := it_next current in
      move_elements fuel' this current last
  end.

Definition append_moves this source : M T unit :=
  let* current := hive_begin source in
  let* last := hive_end source in
  let* n := hive_size source in
  move_elements (Z.to_nat n) this current last.

Definition append_move_to this destination : M T unit :=
  let* current := hive_begin this in
  let* last := hive_end this in
  let* n := hive_size this in
  move_elements (Z.to_nat n) destination current last.

Definition append_default this (count : nat) : M T unit :=
  append_input this (replicate count value_init).

(** [append_range]. *)
Definition append_range this (xs : list (option T)) : M T unit := append_input this xs.

(** ** Objects *)

Definition create_hive this (h : hive_object) : M T unit := fun w =>
  match hives w !! this with
  | None => (Ret tt, set_hives (<[this := h]> (hives w)) w)
  | Some _ => (Stuck, w)
  end.

Definition remove_hive this : M T unit := fun w => (Ret tt, set_hives (delete this (hives w)) w).

(** [~hive]. *)
Definition destroy_hive this : M T unit := release_storage this ;;; remove_hive this.

(** A constructor that delegates: once the delegate has returned, an exception
    in the body runs the destructor. *)
Definition delegating this (target body : M T unit) : M T unit :=
  target ;;; on_raise body (destroy_hive this).

(** ** Constructors *)

Definition hive_alloc this (a : Z) : M T unit :=
  create_hive this (HiveObject a block_capacity_default_limits None 0).

Definition hive_limits_alloc this lim (a : Z) : M T unit :=
  create_hive this (HiveObject a lim None 0) ;;;
  on_raise (validate_limits lim) (remove_hive this).

Definition hive_count this (n : nat) a : M T unit :=
  delegating this (hive_alloc this a) (append_default this n).
Definition hive_count_limits this (n : nat) lim a : M T unit :=
  delegating this (hive_limits_alloc this lim a) (append_default this n).
Definition hive_fill this (n : nat) x a : M T unit :=
  delegating this (hive_alloc this a) (append_copies this n (copy_of x)).
Definition hive_fill_limits this (n : nat) x lim a : M T unit :=
  delegating this (hive_limits_alloc this lim a) (append_copies this n (copy_of x)).
Definition hive_from_input this (xs : list (option T)) a : M T unit :=
  delegating this (hive_alloc this a) (append_input this xs).
Definition hive_from_input_limits this (xs : list (option T)) lim a : M T unit :=
  delegating this (hive_limits_alloc this lim a) (append_input this xs).
Definition hive_from_range this (xs : list (option T)) a : M T unit :=
  delegating this (hive_alloc this a) (append_range this xs).
Definition hive_from_range_limits this (xs : list (option T)) lim a : M T unit :=
  delegating this (hive_limits_alloc this lim a) (append_range this xs).
Definition hive_from_list this (xs : list T) a : M T unit := hive_from_input this (copy_of <$> xs) a.
Definition hive_from_list_limits this (xs : list T) lim a : M T unit :=
  hive_from_input_limits this (copy_of <$> xs) lim a.

Definition hive_copy this other : M T unit :=
  let* o := get_hive other in
  delegating this (hive_limits_alloc this (limits_ o) (select_on_copy (alloc_ o)))
    (append_from this other).
Definition hive_copy_alloc this other a : M T unit :=
  let* o := get_hive other in
  delegating this (hive_limits_alloc this (limits_ o) a) (append_from this other).

(** [steal_from]. *)
Definition steal_from this other : M T unit :=
  let* o := get_hive other in
  upd_hive this (with_control_ (control_ o)) ;;;
  upd_hive other (with_control_ None) ;;;
  match control_ o with
  | Some c => upd_control c (with_owner this)
  | None => ret tt
  end ;;;
  upd_hive this (with_limits (limits_ o)).

(** What follows each [steal_from]. *)
Definition touch_ends this other : M T unit := touch_end this ;;; touch_end other.

Definition hive_move this other : M T unit :=
  let* o := get_hive other in
  hive_alloc this (alloc_ o) ;;;
  steal_from this other ;;; touch_ends this other.

Definition hive_move_alloc this other a : M T unit :=
  let* o := get_hive other in
  delegating this (hive_alloc this a)
    (if always_equal || (a =? alloc_ o) then steal_from this other ;;; touch_ends this other
     else append_moves this other ;;; clear other).
(** ** Assignment

    The operations that replace the elements keep the epoch of the end
    iterators, also when they throw. *)
Definition restoring_epoch this (m : M T unit) : M T unit :=
  let* h := get_hive this in
  let restore := upd_hive this (with_end_epoch (end_epoch_ h)) in
  on_raise m restore ;;; restore.

Definition assign_input this (xs : list (option T)) : M T unit :=
  restoring_epoch this (clear_without_end_invalidation this ;;; append_input this xs).
Definition assign_range this (xs : list (option T)) : M T unit :=
  restoring_epoch this (clear_without_end_invalidation this ;;; append_range this xs).
Definition assign_copies this (n : nat) x : M T unit :=
  restoring_epoch this (clear_without_end_invalidation this ;;; append_copies this n (copy_of x)).
Definition assign this (xs : list (option T)) : M T unit := assign_input this xs.
Definition assign_list this (xs : list T) : M T unit := assign this (copy_of <$> xs).

Definition copy_assign this other : M T unit :=
  if decide (this = other) then ret tt else
  restoring_epoch this (
    (if pocca then
       release_storage this ;;;
       let* o := get_hive other in upd_hive this (with_alloc (alloc_ o))
     else clear_without_end_invalidation this) ;;;
    append_from this other).

(** The branches of [operator=(hive&&)] that take over the storage. *)
Definition assign_by_stealing this other : M T unit :=
  release_storage this ;;;
  (if pocma then let* o := get_hive other in upd_hive this (with_alloc (alloc_ o)) else ret tt) ;;;
  steal_from this other ;;; touch_ends this other.

Definition move_assign this other : M T unit :=
  if decide (this = other) then ret tt else
  let* h := get_hive this in
  let* o := get_hive other in
  if pocma || always_equal || (alloc_ h =? alloc_ o) then assign_by_stealing this other
  else
    restoring_epoch this (
      clear_without_end_invalidation this ;;; append_moves this other ;;; clear other).

(** ** Exchanging *)

Definition adopt this : M T unit :=
  let* h := get_hive this in
  match control_ h with Some c => upd_control c (with_owner this) | None => ret tt end.

Definition swap this other : M T unit :=
  if decide (this = other) then ret tt else
  let* h := get_hive this in
  let* o := get_hive other in
  (if pocs then upd_hive this (with_alloc (alloc_ o)) ;;; upd_hive other (with_alloc (alloc_ h))
   else ret tt) ;;;
  upd_hive this (with_control_ (control_ o)) ;;; upd_hive other (with_control_ (control_ h)) ;;;
  upd_hive this (with_limits (limits_ o)) ;;; upd_hive other (with_limits (limits_ h)) ;;;
  adopt this ;;; adopt other ;;; touch_ends this other.

(** ** Rebuilding

    [tmp] is the address of the local object [rebuilt], which is destroyed at
    the end, also when something throws. *)
Definition with_local tmp (make body : M T unit) : M T unit :=
  make ;;; on_raise body (destroy_hive tmp) ;;; destroy_hive tmp.

Definition shrink_to_fit this tmp : M T unit :=
  trim_capacity this ;;;
  let* cap := hive_capacity this in
  let* n := hive_size this in
  if (cap =? n) || (n =? 0) then ret tt else
  let* h := get_hive this in
  match plan_capacity (limits_ h) 0 n with
  | None => ret tt
  | Some p =>
      if cap <=? pl_added p then ret tt else
      with_local tmp (hive_limits_alloc tmp (limits_ h) (alloc_ h))
        (reserve_blocks tmp p ;;; append_move_to this tmp ;;; swap this tmp)
  end.

(** Whether an active block from [p] on does not respect [lim]. *)
Fixpoint any_outside (fuel : nat) lim (p : option loc) : M T bool :=
  match p with
  | None => ret false
  | Some l =>
      match fuel with
      | O => stuck
      | S fuel' =>
          let* b := get_block l in
          if negb (within lim (capacity (field b))) then ret true
          else any_outside fuel' lim (active_next (act b))
      end
  end.

(** Dropping the reserved blocks that do not respect [lim]; [prev] is the block
    whose [reserved_next] is the link the code's pointer refers to, and [None]
    stands for the head of the list. *)
Definition set_link c (prev : option loc) (n : option loc) : M T unit :=
  match prev with
  | None => upd_control c (with_reserved_head n)
  | Some l => upd_block l (with_reserved_next n)
  end.

Fixpoint drop_outside (fuel : nat) lim c (prev p : option loc) : M T unit :=
  match p with
  | None => ret tt
  | Some l =>
      match fuel with
      | O => stuck
      | S fuel' =>
          let* b := get_block l in
          let next := reserved_next b in
          if negb (within lim (capacity (field b))) then
            set_link c prev next ;;;
            upd_control c (fun k => with_capacity (u64 (ctl_capacity k - capacity (field b))) k) ;;;
            deallocate_block l ;;;
            drop_outside fuel' lim c prev next
          else drop_outside fuel' lim c (Some l) next
      end
  end.

(** The bound of a walk over blocks. *)
Definition block_count : M T nat := fun w => (Ret (size (blocks w)), w).

Definition reshape this tmp lim : M T unit :=
  validate_limits lim ;;;
  let* h := get_hive this in
  match control_ h with
  | None => upd_hive this (with_limits lim)
  | Some c =>
      let* k := get_control c in
      let* fuel := block_count in
      let* rebuild := any_outside fuel lim (active_head k) in
      if rebuild : bool then
        with_local tmp (hive_limits_alloc tmp lim (alloc_ h))
          (let* n := hive_size this in
           reserve tmp n ;;; append_move_to this tmp ;;; swap this tmp)
      else
        drop_outside fuel lim c None (reserved_head k) ;;;
        upd_hive this (with_limits lim)
  end.

(** ** [splice] *)

(** The capacity of the blocks from [p] on; [length_error] at the first one that
    does not respect the limits. *)
Fixpoint active_capacity (fuel : nat) lim (p : option loc) (sum : Z) : M T Z :=
  match p with
  | None => ret sum
  | Some l =>
      match fuel with
      | O => stuck
      | S fuel' =>
          let* b := get_block l in
          if negb (within lim (capacity (field b))) then throw length_error
          else active_capacity fuel' lim (active_next (act b)) (u64 (sum + capacity (field b)))
      end
  end.

(** One round of the loop that hands the blocks over to [destination]. *)
Definition hand_over destination l : M T (option loc) :=
  let* b := get_block l in
  let available := in_available (avl b) in
  upd_block l (with_available_prev None) ;;;
  upd_block l (with_available_next None) ;;;
  upd_block l (with_in_available false) ;;;
  upd_block l (with_control destination) ;;;
  let* d := get_control destination in
  upd_control destination (with_next_order (u64 (next_block_order d + 1))) ;;;
  upd_block l (with_order (next_block_order d)) ;;;
  (if available then available_add destination l else ret tt) ;;;
  let* b := get_block l in
  ret (active_next (act b)).

(** The commit, which only updates pointers and integers. *)
Definition splice_blocks destination source_control (first last : loc) (moved capacity : Z) : M T unit :=
  let* d := get_control destination in
  match active_tail d with
  | Some t => upd_block t (with_active_next (Some first)) ;;; upd_block first (with_active_prev (Some t))
  | None => upd_control destination (with_active_head (Some first)) ;;;
      upd_block first (with_active_prev None)
  end ;;;
  upd_control destination (with_active_tail (Some last)) ;;;
  upd_block last (with_active_next None) ;;;
  for_blocks (hand_over destination) (Some first) ;;;
  upd_control source_control (with_active_head None) ;;;
  upd_control source_control (with_active_tail None) ;;;
  upd_control source_control (with_available_head None) ;;;
  upd_control source_control (with_size 0) ;;;
  upd_control source_control (fun k => with_capacity (u64 (ctl_capacity k - capacity)) k) ;;;
  upd_control destination (fun k => with_size (u64 (ctl_size k + moved)) k) ;;;
  upd_control destination (fun k => with_capacity (u64 (ctl_capacity k + capacity)) k).

Definition splice this source : M T unit :=
  if decide (this = source) then ret tt else
  let* s := get_hive source in
  match control_ s with
  | None => touch_ends this source
  | Some sc =>
      let* k := get_control sc in
      match active_head k with
      | None => touch_ends this source
      | Some first =>
          let* h := get_hive this in
          let* fuel := block_count in
          let* cap := active_capacity fuel (limits_ h) (Some first) 0 in
          match control_ h, reserved_head k with
          | None, None =>
              upd_hive this (with_control_ (Some sc)) ;;;
              upd_hive source (with_control_ None) ;;;
              upd_control sc (with_owner this) ;;;
              touch_ends this source
          | destination, _ =>
              let* d := (match destination with Some d => ret d | None => allocate_control this end) in
              let* last := deref (active_tail k) in
              splice_blocks d sc first last (ctl_size k) cap ;;;
              (match destination with
               | None => upd_hive this (with_control_ (Some d))
               | Some _ => ret tt
               end) ;;;
              touch_ends this source
          end
      end
  end.
End objects.
