(* ===== verification/HiveAlgorithms.v ===== *)
(** * Algorithms on a hive

    [unique], [erase_if], [sort] and [get_iterator] of class [hive]
    (backport/cpp26/hive.hpp), on the heap of HiveHeap.v.  The predicates are
    parameters.  [sort] is an in-place heap sort over a table of the hive's
    iterators. *)
From S2P Require Import Prelude Linked HiveBlock HiveHeap HiveStore.

#[local] Open Scope Z_scope.

Section algorithms.
Context {T : Type} `{cfg : Config}.
Implicit Types (l c this : loc) (x : T) (w : world T).

(** ** [unique] and [erase_if] *)

Fixpoint unique_loop (fuel : nat) (same : T -> T -> bool) this (previous current : iterator)
    (removed : Z) : M T Z :=
  let* last := hive_end this in
  if it_eqb current last then ret removed else
  match fuel with
  | O => stuck
  | S fuel' =>
      let* x := it_deref current in
      let* y := it_deref previous in
      if same x y then
        let* next := erase this current in
        unique_loop fuel' same this previous next (u64 (removed + 1))
      else
        let* next := it_next current in
        unique_loop fuel' same this current next removed
  end.

Definition unique (same : T -> T -> bool) this : M T Z :=
  let* n := hive_size this in
  if n <? 2 then ret 0 else
  let* previous := hive_begin this in
  let* current := it_next previous in
  unique_loop (Z.to_nat n) same this previous current 0.

Fixpoint erase_if_loop (fuel : nat) (pred : T -> bool) this (current : iterator) : M T unit :=
  let* last := hive_end this in
  if it_eqb current last then ret tt else
  match fuel with
  | O => stuck
  | S fuel' =>
      let* x := it_deref current in
      let* next := (if pred x then erase this current else it_next current) in
      erase_if_loop fuel' pred this next
  end.

Definition erase_if (pred : T -> bool) this : M T Z :=
  let* original_size := hive_size this in
  let* first := hive_begin this in
  erase_if_loop (Z.to_nat original_size) pred this first ;;;
  let* n := hive_size this in
  ret (u64 (original_size - n)).

(** [erase(container, value)]. *)
Definition erase_value (eqb : T -> T -> bool) this (value : T) : M T Z :=
  erase_if (fun x => eqb x value) this.

(** ** [sort] *)

(** The table of positions, in order. *)
Fixpoint collect_positions (fuel : nat) this (it : iterator) : M T (list iterator) :=
  let* last := hive_end this in
  if it_eqb it last then ret [] else
  match fuel with
  | O => stuck
  | S fuel' =>
      let* next := it_next it in
      let* rest := collect_positions fuel' this next in
      ret (it :: rest)
  end.

Section on_positions.
Context (comp : T -> T -> bool) (positions : list iterator).

Definition at_position (i : nat) : M T T :=
  let* it := from_option (positions !! i) in it_deref it.

Definition store_position (i : nat) x : M T unit :=
  let* it := from_option (positions !! i) in
  let* l := deref (it_block it) in
  on_field_ l (fun f => _ ← element f (it_index it); write_slot f (it_index it) (Elem x)).

(** Comparing the elements at two positions. *)
Definition comp_positions (i j : nat) : M T bool :=
  let* x := at_position i in let* y := at_position j in ret (comp x y).

Definition swap_positions (i j : nat) : M T unit :=
  let* x := at_position i in
  let* y := at_position j in
  store_position i y ;;; store_position j x.

Fixpoint sift_down (fuel : nat) (i count : nat) : M T unit :=
  match fuel with
  | O => stuck
  | S fuel' =>
      let left := (2 * i + 1)%nat in
      if (count <=? left)%nat then ret tt else
      let* right_larger :=
        (if (left + 1 <? count)%nat then comp_positions left (left + 1) else ret false) in
      let largest := if right_larger : bool then (left + 1)%nat else left in
      let* smaller := comp_positions i largest in
      if negb smaller then ret tt else
      swap_positions i largest ;;; sift_down fuel' largest count
  end.

(** [for (i = n / 2; i > 0; --i)]. *)
Fixpoint heapify (i n : nat) : M T unit :=
  match i with O => ret tt | S i' => sift_down (S n) i' n ;;; heapify i' n end.

(** [for (e = n; e > 1; --e)]. *)
Fixpoint sort_down (e n : nat) : M T unit :=
  match e with
  | O | S O => ret tt
  | S e' => swap_positions 0 e' ;;; sift_down (S n) 0 e' ;;; sort_down e' n
  end.
End on_positions.

(** [alloc]: reserving the table succeeds. *)
Definition hive_sort (comp : T -> T -> bool) (alloc : bool) this : M T unit :=
  let* n := hive_size this in
  if n <? 2 then ret tt else
  if negb alloc then throw bad_alloc else
  let* first := hive_begin this in
  let* positions := collect_positions (Z.to_nat n) this first in
  heapify comp positions (Z.to_nat n / 2) (Z.to_nat n) ;;;
  sort_down comp positions (Z.to_nat n) (Z.to_nat n).

(** ** [get_iterator]

    [address l] is the address of the slots that were allocated as [l]; an
    element lies at the start of its slot. *)
Section lookup.
Context (address : loc -> Z).

Definition slot_address b (i : Z) : Z := address (slot_allocation (T := T) b) + i * sizeof_slot.

Fixpoint find_slot (fuel : nat) (target : Z) (p : option loc) : M T (option (loc * Z)) :=
  match p with
  | None => ret None
  | Some l =>
      match fuel with
      | O => stuck
      | S fuel' =>
          let* b := get_block l in
          let next := active_next (act b) in
          let base := address (slot_allocation b) in
          if target <? base then find_slot fuel' target next else
          let displacement := target - base in
          if negb (displacement mod sizeof_slot =? 0) then find_slot fuel' target next else
          let candidate := displacement / sizeof_slot in
          if high_water (field b) <=? candidate then find_slot fuel' target next else
          let* skipped := from_option (read_skip (field b) candidate) in
          if (skipped =? 0) && (slot_address b candidate =? target) then ret (Some (l, candidate))
          else find_slot fuel' target next
      end
  end.

Definition get_iterator this (p : Z) : M T iterator :=
  let* h := get_hive this in
  match control_ h with
  | None => hive_end this
  | Some c =>
      let* k := get_control c in
      let* found := (fun w => find_slot (size (blocks w)) p (active_head k) w) in
      match found with
      | Some (l, i) => ret (at_element l i)
      | None => hive_end this
      end
  end.
End lookup.
End algorithms.
