(* ===== verification/HiveSort.v ===== *)
(** * Heap sort: on lists, and of a hive

    The sort of a hive works on the values at a table of positions.  Here it is
    as a function of the list of values, and the proof that it sorts: [sift]
    repairs a heap that is broken at one place ([heap_but]), [build] makes a
    heap of any list, and [unload] turns a heap into a sorted list. *)
From stdpp Require Import sorting.
From S2P Require Import Prelude Linked HiveBlock HiveHeap HiveInv HiveStore HiveErase HiveAlgorithms.

Section heap_sort.
Context {T : Type} (comp : T -> T -> bool).
Implicit Types (x y z : T) (xs ys : list T) (i j k : nat).

Definition less_at xs i j : option bool := x ← xs !! i; y ← xs !! j; Some (comp x y).

Definition swap_at xs i j : option (list T) :=
  x ← xs !! i; y ← xs !! j; Some (<[j := x]> (<[i := y]> xs)).

Fixpoint sift (fuel : nat) xs i count : option (list T) :=
  match fuel with
  | O => None
  | S fuel' =>
      let left := 2 * i + 1 in
      if count <=? left then Some xs else
      right_larger ← (if left + 1 <? count then less_at xs left (left + 1) else Some false);
      let largest := if right_larger : bool then left + 1 else left in
      smaller ← less_at xs i largest;
      if negb smaller then Some xs else
      xs ← swap_at xs i largest; sift fuel' xs largest count
  end.

Fixpoint build i n xs : option (list T) :=
  match i with O => Some xs | S i' => xs ← sift (S n) xs i' n; build i' n xs end.

Fixpoint unload e n xs : option (list T) :=
  match e with
  | O | S O => Some xs
  | S e' => xs ← swap_at xs 0 e'; xs ← sift (S n) xs 0 e'; unload e' n xs
  end.

(** What the comparison has to be: a strict weak order. *)
Record weak_order : Prop := WeakOrder {
  wo_asym : forall x y, comp x y = true -> comp y x = false;
  wo_trans : forall x y z, comp x y = false -> comp y z = false -> comp x z = false;
}.
Hypothesis order : weak_order.
#[local] Set Default Proof Using "All".

(** [x] is not less than [y]. *)
Abbreviation ge x y := (comp x y = false).

Lemma ge_refl x : ge x x.
Proof. destruct (comp x x) eqn:E; [|done]. by rewrite (wo_asym order _ _ E) in E. Qed.

(** [j] is a child of [i]. *)
Definition child i j : Prop := j = 2 * i + 1 \/ j = 2 * i + 2.

(** No value is less than one of its children, from [root] on; [heap_but k]
    leaves out the children of [k], but they are not larger than its parent. *)
Definition heap root count xs : Prop :=
  forall i j x y, root <= i -> child i j -> j < count -> xs !! i = Some x -> xs !! j = Some y -> ge x y.

Definition heap_but k root count xs : Prop :=
  (forall i j x y, root <= i -> i <> k -> child i j -> j < count ->
     xs !! i = Some x -> xs !! j = Some y -> ge x y) /\
  (forall p j x y, root <= p -> child p k -> child k j -> j < count ->
     xs !! p = Some x -> xs !! j = Some y -> ge x y).

(** The values before [count] were permuted, the others are where they were. *)
Definition permuted count xs ys : Prop :=
  take count xs ≡ₚ take count ys /\ drop count xs = drop count ys.

Lemma permuted_refl count xs : permuted count xs xs.
Proof. done. Qed.

Lemma permuted_trans count xs ys zs : permuted count xs ys -> permuted count ys zs -> permuted count xs zs.
Proof. intros [H1 H2] [H3 H4]. split; [by rewrite H1|by rewrite H2]. Qed.

Lemma permuted_perm count xs ys : permuted count xs ys -> xs ≡ₚ ys.
Proof. intros [H1 H2]. rewrite <- (take_drop count xs), <- (take_drop count ys). by rewrite H1, H2. Qed.

Lemma permuted_length count xs ys : permuted count xs ys -> length xs = length ys.
Proof. by intros ->%permuted_perm%Permutation_length. Qed.

Lemma insert_swap_perm xs i j x y :
  xs !! i = Some x -> xs !! j = Some y -> <[j := x]> (<[i := y]> xs) ≡ₚ xs.
Proof.
  revert i j. induction xs as [|z xs IH]; intros [|i] [|j] Hi Hj; simplify_eq/=; try done.
  - rewrite <- (take_drop_middle xs j y) at 2 by done.
    rewrite insert_take_drop by (by eapply lookup_lt_Some). solve_Permutation.
  - rewrite <- (take_drop_middle xs i x) at 2 by done.
    rewrite insert_take_drop by (by eapply lookup_lt_Some). solve_Permutation.
  - by rewrite (IH i j).
Qed.

Lemma swap_at_ok count xs i j x y :
  xs !! i = Some x -> xs !! j = Some y -> i < count -> j < count ->
  exists ys, swap_at xs i j = Some ys /\ permuted count ys xs /\
    forall k, ys !! k = if decide (k = j) then Some x else if decide (k = i) then Some y else xs !! k.
Proof.
  intros Hi Hj Hic Hjc. exists (<[j := x]> (<[i := y]> xs)). unfold swap_at. rewrite Hi, Hj.
  split; [done|]. split; [split|].
  - rewrite !take_insert_lt by done. apply insert_swap_perm; by rewrite lookup_take_lt.
  - by rewrite !drop_insert_lt by done.
  - intros k. pose proof (lookup_lt_Some _ _ _ Hi). pose proof (lookup_lt_Some _ _ _ Hj).
    rewrite list_lookup_insert. rewrite length_insert. case_decide; case_decide; try naive_solver.
    rewrite list_lookup_insert. repeat case_decide; naive_solver.
Qed.
(** The child that is chosen is the largest one. *)
Lemma larger_child xs i count :
  2 * i + 1 < count -> count <= length xs ->
  exists r z, (if 2 * i + 1 + 1 <? count then less_at xs (2 * i + 1) (2 * i + 1 + 1) else Some false) = Some r /\
    let m := if r : bool then 2 * i + 1 + 1 else 2 * i + 1 in
    child i m /\ m < count /\ xs !! m = Some z /\
    forall j y, child i j -> j < count -> xs !! j = Some y -> ge z y.
Proof.
  intros Hleft Hl. destruct (lookup_lt_is_Some_2 xs (2 * i + 1)) as [y1 Hy1]; [lia|].
  destruct (Nat.ltb_spec (2 * i + 1 + 1) count) as [Hlt|Hge].
  - destruct (lookup_lt_is_Some_2 xs (2 * i + 1 + 1)) as [y2 Hy2]; [lia|].
    unfold less_at. rewrite Hy1, Hy2. cbn [mbind option_bind].
    assert (2 * i + 1 + 1 = 2 * i + 2) as E2 by lia.
    exists (comp y1 y2), (if comp y1 y2 then y2 else y1). split; [done|]. cbv zeta.
    destruct (comp y1 y2) eqn:E; (split; [unfold child; lia|]); (split; [lia|]); (split; [done|]);
      intros j y [-> | ->] _ Hy; rewrite ?E2 in *; simplify_eq; try apply ge_refl; [|done].
    by apply (wo_asym order).
  - exists false, y1. split; [done|]. split; [by left|]. split; [lia|]. split; [done|].
    intros j y [-> | ->] Hj Hy; [simplify_eq; apply ge_refl|lia].
Qed.

Lemma sift_ok fuel : forall xs i root count,
  heap_but i root count xs -> root <= i -> i < count -> count <= length xs -> count - i < fuel ->
  exists ys, sift fuel xs i count = Some ys /\ heap root count ys /\ permuted count ys xs.
Proof.
  induction fuel as [|fuel IH]; intros xs i root count [Hb Hg] Hr Hi Hl Hf; [lia|]. simpl.
  case_match eqn:Hleft; [apply Nat.leb_le in Hleft|apply Nat.leb_gt in Hleft].
  { exists xs. split; [done|]. split; [|done]. intros a b x y Ha Hc Hbc Hx Hy.
    apply (Hb a b x y); try done. intros ->. destruct Hc; lia. }
  destruct (lookup_lt_is_Some_2 xs i) as [x Hx]; [lia|].
  destruct (larger_child xs i count) as (r & z & Hr' & Hcm & Hmc & Hz & Hmax); [lia|done|].
  change (i + (i + 0) + 1) with (2 * i + 1). rewrite Hr'. cbn [mbind option_bind].
  set (m := if r then _ else _) in *.
  unfold less_at. rewrite Hx, Hz. simpl. destruct (comp x z) eqn:Exz; simpl.
  2: { exists xs. split; [done|]. split; [|done]. intros a b u v Ha Hc Hbc Hu Hv.
    destruct (decide (a = i)) as [->|]; [|by apply (Hb a b u v)]. simplify_eq.
    apply (wo_trans order _ z); [done|]. by apply (Hmax b). }
  assert (i < m) as Him by (destruct Hcm; lia).
  destruct (swap_at_ok count xs i m x z Hx Hz Hi Hmc) as (ys & -> & Hp & Hys). simpl.
  destruct (IH ys m root count) as (zs & Hs & Hh & Hp'); try lia.
  - split.
    + intros a b u v Ha Hne Hc Hbc. rewrite !Hys.
      destruct (decide (a = i)) as [->|]; rewrite (decide_False (P := _ = m)) by (done || lia).
      * intros [= <-].
        assert (b <> i) by (destruct Hc; lia). rewrite (decide_False (P := b = i)) by done.
        case_decide; [intros [= <-]; by apply (wo_asym order)|]. intros Hv. by apply (Hmax b).
      * intros Hu. assert (b <> m) by (intros ->; destruct Hcm, Hc; lia).
        rewrite (decide_False (P := b = m)) by done. case_decide as Hbi.
        -- intros [= <-]. subst b. by apply (Hg a m u z).
        -- intros Hv. by apply (Hb a b u v).
    + intros p j u v Hrp Hpm Hmj Hjc. assert (p = i) as -> by (destruct Hpm, Hcm; lia).
      rewrite !Hys. rewrite (decide_False (P := i = m)), (decide_True (P := i = i)) by (done || lia).
      assert (j <> m /\ j <> i) as [? ?] by (destruct Hmj; lia). rewrite !decide_False by done.
      intros [= <-] Hv. apply (Hb m j); [lia|lia|done..].
  - rewrite (permuted_length _ _ _ Hp). done.
  - exists zs. split; [done|]. split; [done|]. by eapply permuted_trans.
Qed.
Lemma build_ok n xs i :
  heap i n xs -> i <= n -> n <= length xs ->
  exists ys, build i n xs = Some ys /\ heap 0 n ys /\ permuted n ys xs.
Proof.
  revert xs. induction i as [|i IH]; intros xs Hh Hi Hn; [by exists xs|].
  change (build (S i) n xs) with (xs ← sift (S n) xs i n; build i n xs).
  destruct (sift_ok (S n) xs i i n) as (ys & Hs & Hh' & Hp); try lia.
  - split; [intros a b x y ? ?; apply Hh; lia|]. intros p j x y Hp1 [-> | ->]; lia.
  - rewrite Hs. cbn [mbind option_bind].
    destruct (IH ys Hh') as (zs & -> & ? & ?); [lia|by rewrite (permuted_length _ _ _ Hp)|].
    exists zs. split; [done|]. split; [done|]. by eapply permuted_trans.
Qed.

(** The places beyond [n / 2] have no children. *)
Lemma heap_start n xs : heap (n / 2) n xs.
Proof.
  intros i j x y Hi Hc Hj _ _. pose proof (Nat.div_mod n 2 ltac:(lia)).
  pose proof (Nat.mod_upper_bound n 2 ltac:(lia)). destruct Hc; lia.
Qed.

Lemma heap_top count xs x :
  heap 0 count xs -> xs !! 0 = Some x -> forall i y, i < count -> xs !! i = Some y -> ge x y.
Proof.
  intros Hh Hx i. induction i as [i IH] using (well_founded_induction lt_wf). intros y Hi Hy.
  destruct i as [|i]; [simplify_eq; apply ge_refl|].
  assert (child (i / 2) (S i)) as Hc.
  { pose proof (Nat.div_mod i 2 ltac:(lia)). pose proof (Nat.mod_upper_bound i 2 ltac:(lia)).
    unfold child. lia. }
  assert (i / 2 < S i) by (apply Nat.Div0.div_lt_upper_bound; lia).
  destruct (lookup_lt_is_Some_2 xs (i / 2)) as [z Hz]; [apply lookup_lt_Some in Hy; lia|].
  eapply (wo_trans order); [apply (IH (i / 2)); [done|lia|done]|]. eapply (Hh (i / 2)); try done; lia.
Qed.

(** In order: no value is less than one before it. *)
Abbreviation in_order := (StronglySorted (fun x y => ge y x)).

(** The values from [e] on are in order, and none of them is less than one
    before [e]. *)
Definition settled e xs : Prop :=
  in_order (drop e xs) /\ forall x y, x ∈ take e xs -> y ∈ drop e xs -> ge y x.

Lemma settled_permuted e xs ys : permuted e ys xs -> settled e xs -> settled e ys.
Proof.
  intros [Hp Hd] [Hs Hle]. split; [by rewrite Hd|]. intros x y. rewrite Hp, Hd. apply Hle.
Qed.

Lemma settled_step e xs x :
  xs !! e = Some x -> (forall y, y ∈ take e xs -> ge x y) -> settled (S e) xs -> settled e xs.
Proof.
  intros Hx Hmax [Hs Hle]. split.
  - rewrite (drop_S xs x e Hx). constructor; [done|]. apply Forall_forall. intros y Hy. apply Hle; [|done].
    rewrite (take_S_r _ _ _ Hx). apply elem_of_app. right. apply list_elem_of_here.
  - intros u v Hu. rewrite (drop_S xs x e Hx), elem_of_cons. intros [-> |Hv]; [by apply Hmax|].
    apply Hle; [|done]. rewrite (take_S_r _ _ _ Hx). apply elem_of_app. by left.
Qed.

Lemma unload_ok n e : forall xs,
  heap 0 e xs -> settled e xs -> e <= n -> n = length xs ->
  exists ys, unload e n xs = Some ys /\ in_order ys /\ ys ≡ₚ xs.
Proof.
  induction e as [|e IH]; intros xs Hh Hs He Hn; [by exists xs; destruct Hs|].
  destruct e as [|e].
  { exists xs. split; [done|]. split; [|done]. destruct xs as [|x xs]; [constructor|].
    destruct Hs as [Hs Hle]. simpl in *. constructor; [done|]. apply Forall_forall. intros y Hy.
    apply Hle; [apply list_elem_of_here|done]. }
  destruct (lookup_lt_is_Some_2 xs 0) as [x Hx]; [lia|].
  destruct (lookup_lt_is_Some_2 xs (S e)) as [y Hy]; [lia|].
  destruct (swap_at_ok (S (S e)) xs 0 (S e) x y Hx Hy) as (ys & Hsw & Hp & Hys); [lia..|].
  assert (heap_but 0 0 (S e) ys) as Hb.
  { split; [|intros p j u v _ [? | ?]; lia]. intros i j u v _ Hi0 Hc Hj. rewrite !Hys.
    rewrite !decide_False by (destruct Hc; lia). by apply Hh; [lia|..|lia]. }
  destruct (sift_ok (S n) ys 0 0 (S e) Hb) as (zs & Hsi & Hhz & Hpz); [lia|lia| |lia|].
  { rewrite (permuted_length _ _ _ Hp). lia. }
  assert (settled (S e) ys) as Hsy.
  { apply (settled_step _ _ x).
    - rewrite Hys. by rewrite decide_True.
    - intros z [i [Hz Hi]%lookup_take_Some]%list_elem_of_lookup. rewrite Hys in Hz.
      rewrite decide_False in Hz by lia. case_decide.
      + simplify_eq. apply (heap_top _ _ _ Hh Hx (S e)); [lia|done].
      + apply (heap_top _ _ _ Hh Hx i); [lia|done].
    - by eapply settled_permuted. }
  destruct (IH zs Hhz) as (us & Hu & Ho & Hpu); [by eapply settled_permuted|lia| |].
  { rewrite (permuted_length _ _ _ Hpz), (permuted_length _ _ _ Hp). done. }
  exists us. change (unload (S (S e)) n xs) with
    (xs ← swap_at xs 0 (S e); xs ← sift (S n) xs 0 (S e); unload (S e) n xs).
  rewrite Hsw. cbn [mbind option_bind]. rewrite Hsi. cbn [mbind option_bind].
  split; [done|]. split; [done|]. rewrite Hpu. by rewrite (permuted_perm _ _ _ Hpz), (permuted_perm _ _ _ Hp).
Qed.

Lemma heap_sort_ok xs :
  exists ys zs, build (length xs / 2) (length xs) xs = Some ys /\
    unload (length xs) (length xs) ys = Some zs /\ in_order zs /\ zs ≡ₚ xs.
Proof.
  destruct (build_ok (length xs) xs (length xs / 2)) as (ys & Hb & Hh & Hp);
    [apply heap_start|apply Nat.Div0.div_le_upper_bound; lia|done|].
  pose proof (permuted_length _ _ _ Hp) as Hl.
  destruct (unload_ok (length xs) (length xs) ys Hh) as (zs & Hu & Ho & Hz); [|done|done|].
  - split; rewrite drop_ge by lia; [constructor|by intros ? ? _ ?%not_elem_of_nil].
  - exists ys, zs. split_and!; try done. by rewrite Hz, (permuted_perm _ _ _ Hp).
Qed.
End heap_sort.

(** ** Sorting a hive

    [sort] of HiveAlgorithms.v does on the heap what the heap sort above
    does on the list of the values: every step of it keeps the hive well formed,
    with the same spots ([arranged]), and rearranges the values. *)

#[local] Open Scope Z_scope.

Section assignment.
Context {T : Type} `{cfg : Config}.
Implicit Types (l j c this : loc) (w : world T) (rs av : list loc) (x y v : T).
Implicit Types (cs : list (loc * list (segment T))) (F : list (loc * allocation)).

(** Writing to an element of a block. *)
Lemma rep_assign (f : skipfield T) lA x y lB fs :
  block_rep f (lA ++ Live x :: lB) fs ->
  let f' := set_slots (<[width lA := Elem y]> (slots f)) f in
  write_slot f (width lA) (Elem y) = Some f' /\ block_rep f' (lA ++ Live y :: lB) fs.
Proof.
  intros R f'. destruct (rep_live _ _ _ _ _ R) as (Hs & Hk & Hb & HB & Hh). split.
  { unfold write_slot. rewrite (proj2 (Z.leb_le _ _)), (proj2 (Z.ltb_lt _ _)) by lia. done. }
  pose proof (rep_high_water _ _ _ R) as Hhw. pose proof (rep_bound _ _ _ R) as Hbd.
  rewrite !width_app in *. simpl in *.
  eapply (rep_window f f' lA [Live x] [Live y] lB); try done.
  - pose proof (rep_shape _ _ _ R) as Hsh. simpl.
    rewrite shape_app_live in Hsh |- *. by rewrite (shape_live_x lA y x).
  - by right.
  - rewrite !width_app. simpl. lia.
  - rewrite !width_app. simpl. lia.
  - intros j Hj. simpl in Hj. split; [done|]. left. simpl. rewrite lookup_insert_ne; [done|]. lia.
  - simpl. split; [done|]. by rewrite lookup_insert_eq.
  - intros j Hj. simpl in Hj. lia.
  - simpl. lia.
  - apply (free_list_frame f); [done| |exact (rep_free _ _ _ R)]. intros s Hin. simpl. rewrite lookup_insert_ne; [done|].
    intros E. by eapply starts_not_live.
  - rewrite (rep_starts _ _ _ R), !starts_app. simpl. done.
Qed.

(** Writing to the element at a spot of a hive. *)
Lemma assign_spec w this cs rs av F ps l i x qs y :
  hive_rep w this cs rs av F -> spots cs = ps ++ (l, i, x) :: qs ->
  exists w' cs', on_field_ l (fun f => _ ← element f i; write_slot f i (Elem y)) w = (Ret tt, w') /\
    hive_rep w' this cs' rs av F /\ hives w' = hives w /\ spots cs' = ps ++ (l, i, y) :: qs.
Proof.
  intros HR Hs. pose proof HR as (h & Hh & _). destruct (hive_spot _ _ _ _ _ _ _ HR Hh _ _ _ Hs) as [c Hc].
  destruct (hive_control _ _ _ _ _ _ _ HR Hh c Hc) as [k S].
  destruct (spots_split _ _ _ _ _ _ Hs) as (cs1 & lA & lB & cs2 & -> & -> & -> & ->).
  destruct (active_cell _ _ _ _ _ _ _ _ _ _ _ _ S) as (b & fs & Hb & Hbc & R & Hne & _ & _ & Hav).
  destruct (rep_assign _ _ _ y _ _ R) as [Hw R']. set (f' := set_slots _ _) in *.
  assert (core_of w l = Some (c, block_allocation b, slot_allocation b, skip_allocation b, field b))
    as Hcore by (unfold core_of; rewrite Hb, <- Hbc; done).
  exists (set_field_at l f' w), (cs1 ++ (l, lA ++ Live y :: lB) :: cs2).
  split; [|split; [|split; [done|]]].
  - apply (on_field__ok _ _ b); [done|]. destruct (rep_live _ _ _ _ _ R) as (Hx & _).
    unfold element. by rewrite Hx.
  - eapply hive_rep_intro; [exact HR|exact Hh| |exact Hh|exact Hc|done].
    eapply (store_rep_update w _ _ _ k k) with (l := l) (lay' := lA ++ Live y :: lB) (f' := f');
      [exact S|apply entries_middle|apply entries_middle|exact Hcore| | |exact R'|done|done| | | |done..|].
    + intros j. rewrite core_of_field. case_decide; [subst|done]. by rewrite Hcore.
    + apply same_store_field.
    + rewrite Hav. assert (has_room f' = has_room (field b)) as -> by done.
      split; (intros [_ ?]; split; [by destruct lA|done]).
    + pose proof (sr_nonempty _ _ _ _ _ _ _ _ _ S) as Hn. rewrite Forall_app, Forall_cons in Hn |- *.
      destruct Hn as (? & _ & ?). split_and!; try done. by destruct lA.
    + assert ((cs1 ++ (l, lA ++ Live y :: lB) :: cs2).*1 = (cs1 ++ (l, lA ++ Live x :: lB) :: cs2).*1) as ->
        by by rewrite !fmap_app.
      eapply links_rep_ext; [exact (sr_links _ _ _ _ _ _ _ _ _ S)|exact (lr_control _ _ _ _ _ _ _ (sr_links _ _ _ _ _ _ _ _ _ S))|done|apply same_links_field].
    + rewrite (sr_size _ _ _ _ _ _ _ _ _ S), !contents_app. simpl. rewrite !elems_app, !length_app.
      simpl. lia.
  - rewrite spots_block, live_spots_app. simpl. by rewrite <- !app_assoc.
Qed.
End assignment.

Section sorting.
Context {T : Type} `{cfg : Config}.
Implicit Types (l j c this : loc) (w : world T) (rs av : list loc) (x y v : T) (xs ys : list T).
Implicit Types (cs : list (loc * list (segment T))) (F : list (loc * allocation)).
Context (comp : T -> T -> bool).

(** The iterators to a list of places. *)
Definition position_table (places : list (loc * Z)) : list iterator :=
  (fun p => at_element p.1 p.2) <$> places.

(** The hive [this] has the elements [xs], in this order, at [places]. *)
Definition arranged w this (rs av : list loc) F (hs : gmap loc hive_object) (places : list (loc * Z)) xs : Prop :=
  exists cs, hive_rep w this cs rs av F /\ hives w = hs /\
    (spots cs).*1 = places /\ (spots cs).*2 = xs.

Section places.
Context (this : loc) (rs av : list loc) (F : list (loc * allocation)).
Context (hs : gmap loc hive_object) (places : list (loc * Z)).
Abbreviation arr := (fun w xs => arranged w this rs av F hs places xs).
Abbreviation table := (position_table places).

Lemma arranged_spot w xs i x :
  arr w xs -> xs !! i = Some x ->
  exists cs ps l j qs, hive_rep w this cs rs av F /\ hives w = hs /\ (spots cs).*1 = places /\
    (spots cs).*2 = xs /\ spots cs = ps ++ (l, j, x) :: qs /\ length ps = i /\
    table !! i = Some (at_element l j).
Proof.
  intros (cs & HR & Hh & <- & <-) Hx. rewrite list_lookup_fmap in Hx.
  destruct (spots cs !! i) as [[[l j] x']|] eqn:E; simplify_eq/=.
  pose proof (list_elem_of_split_length _ _ _ E) as (ps & qs & Hs & Hl).
  exists cs, ps, l, j, qs. split_and!; try done.
  unfold position_table. by rewrite !list_lookup_fmap, E.
Qed.

Lemma at_position_ok w xs i x : arr w xs -> xs !! i = Some x -> at_position table i w = (Ret x, w).
Proof.
  intros A Hx. destruct (arranged_spot _ _ _ _ A Hx) as (cs & ps & l & j & qs & HR & _ & _ & _ & Hs & _ & Ht).
  unfold at_position. rewrite Ht. pose proof HR as (h & Hh & _).
  exact (deref_spec _ _ _ _ _ _ _ HR Hh _ _ _ _ _ Hs).
Qed.

Lemma store_position_ok w xs i y :
  arr w xs -> (i < length xs)%nat ->
  exists w', store_position table i y w = (Ret tt, w') /\ arr w' (<[i := y]> xs).
Proof.
  intros A [x Hx]%lookup_lt_is_Some_2.
  destruct (arranged_spot _ _ _ _ A Hx) as (cs & ps & l & j & qs & HR & Hh & Hp & Hxs & Hs & <- & Ht).
  destruct (assign_spec _ _ _ _ _ _ _ _ _ _ _ y HR Hs) as (w' & cs' & Hrun & HR' & Hh' & Hs').
  exists w'. split; [unfold store_position; rewrite Ht; exact Hrun|].
  exists cs'. split; [done|]. split; [by rewrite Hh'|]. rewrite <- Hp, <- Hxs, Hs, Hs'.
  rewrite !fmap_app. csimpl. split; [done|].
  by rewrite insert_app_r_alt, length_fmap, Nat.sub_diag by (by rewrite length_fmap).
Qed.

Lemma comp_positions_ok w xs (i m : nat) r :
  arr w xs -> less_at comp xs i m = Some r -> comp_positions comp table i m w = (Ret r, w).
Proof.
  intros A H. apply bind_Some in H as (x & Hx & (y & Hy & [= <-])%bind_Some). unfold comp_positions.
  rewrite (bind_ret_eq _ _ _ _ _ (at_position_ok _ _ _ _ A Hx)).
  by rewrite (bind_ret_eq _ _ _ _ _ (at_position_ok _ _ _ _ A Hy)).
Qed.

Lemma swap_positions_ok w xs (i m : nat) ys :
  arr w xs -> swap_at xs i m = Some ys ->
  exists w', swap_positions table i m w = (Ret tt, w') /\ arr w' ys.
Proof.
  intros A H. apply bind_Some in H as (x & Hx & (y & Hy & [= <-])%bind_Some). unfold swap_positions.
  rewrite (bind_ret_eq _ _ _ _ _ (at_position_ok _ _ _ _ A Hx)).
  rewrite (bind_ret_eq _ _ _ _ _ (at_position_ok _ _ _ _ A Hy)).
  destruct (store_position_ok _ _ i y A) as (w1 & Hr1 & A1); [by eapply lookup_lt_Some|].
  rewrite (bind_ret_eq _ _ _ _ _ Hr1). apply store_position_ok; [done|].
  rewrite length_insert. by eapply lookup_lt_Some.
Qed.

Lemma sift_down_ok fuel : forall w xs i count ys,
  arr w xs -> sift comp fuel xs i count = Some ys ->
  exists w', sift_down comp table fuel i count w = (Ret tt, w') /\ arr w' ys.
Proof.
  induction fuel as [|fuel IH]; intros w xs i count ys A H; [done|].
  cbn [sift sift_down] in *. cbv zeta in *. case_match; [simplify_eq; by exists w|].
  apply bind_Some in H as (r & Hr & H).
  erewrite (bind_ret_eq _ _ _ _ r).
  2: { destruct (_ <? _)%nat; [by eapply comp_positions_ok|by simplify_eq]. }
  apply bind_Some in H as (s & Hs & H).
  rewrite (bind_ret_eq _ _ _ _ _ (comp_positions_ok _ _ _ _ _ A Hs)).
  destruct (negb s); [simplify_eq; by exists w|].
  apply bind_Some in H as (zs & Hz & H).
  destruct (swap_positions_ok _ _ _ _ _ A Hz) as (w1 & Hr1 & A1).
  rewrite (bind_ret_eq _ _ _ _ _ Hr1). by apply IH with zs.
Qed.

Lemma heapify_ok n i : forall w xs ys,
  arr w xs -> build comp i n xs = Some ys ->
  exists w', heapify comp table i n w = (Ret tt, w') /\ arr w' ys.
Proof.
  induction i as [|i IH]; intros w xs ys A H; [cbn in H; simplify_eq; by exists w|].
  apply bind_Some in H as (zs & Hz & H).
  destruct (sift_down_ok _ _ _ _ _ _ A Hz) as (w1 & Hr1 & A1).
  cbn [heapify]. rewrite (bind_ret_eq _ _ _ _ _ Hr1). by apply IH with zs.
Qed.

Lemma sort_down_ok n e : forall w xs ys,
  arr w xs -> unload comp e n xs = Some ys ->
  exists w', sort_down comp table e n w = (Ret tt, w') /\ arr w' ys.
Proof.
  induction e as [|e IH]; intros w xs ys A H; [cbn in H; simplify_eq; by exists w|].
  destruct e as [|e]; [cbn in H; simplify_eq; by exists w|].
  apply bind_Some in H as (zs & Hz & (us & Hu & H)%bind_Some).
  destruct (swap_positions_ok _ _ _ _ _ A Hz) as (w1 & Hr1 & A1).
  destruct (sift_down_ok _ _ _ _ _ _ A1 Hu) as (w2 & Hr2 & A2).
  change (sort_down comp table (S (S e)) n) with
    (swap_positions table 0 (S e) ;;; sift_down comp table (S n) 0 (S e) ;;; sort_down comp table (S e) n).
  rewrite (bind_ret_eq _ _ _ _ _ Hr1), (bind_ret_eq _ _ _ _ _ Hr2). by apply IH with us.
Qed.
End places.

Lemma collect_positions_ok w this cs rs av F h :
  hive_rep w this cs rs av F -> hives w !! this = Some h -> forall qs ps fuel,
  spots cs = ps ++ qs -> (length qs <= fuel)%nat ->
  collect_positions fuel this (iterator_at this h (head qs)) w = (Ret (position_table qs.*1), w).
Proof.
  intros HR Hh qs. induction qs as [|[[l i] x] qs IH]; intros ps fuel Hs Hf.
  - destruct fuel; simpl; unfold hive_end; rewrite (bind_ret_eq _ _ _ _ _ (bind_ret_eq _ _ _ _ _ (get_hive_ok _ _ _ Hh)));
      unfold it_eqb; simpl; by rewrite bool_decide_true, Z.eqb_refl.
  - destruct fuel as [|fuel]; simpl in Hf; [lia|]. simpl. unfold hive_end.
    rewrite (bind_ret_eq _ _ _ _ _ (bind_ret_eq _ _ _ _ _ (get_hive_ok _ _ _ Hh))). simpl.
    rewrite (bind_ret_eq _ _ _ _ _ (next_spec _ _ _ _ _ _ _ HR Hh _ _ _ _ _ Hs)).
    rewrite (cons_middle (l, i, x)), app_assoc in Hs.
    by rewrite (bind_ret_eq _ _ _ _ _ (IH _ fuel Hs ltac:(lia))).
Qed.

Lemma sort_spec w this cs rs av F :
  weak_order comp -> hive_rep w this cs rs av F -> exists w' cs',
  hive_sort comp true this w = (Ret tt, w') /\ hive_rep w' this cs' rs av F /\ hives w' = hives w /\
  (spots cs').*1 = (spots cs).*1 /\ contents cs' ≡ₚ contents cs /\
  StronglySorted (fun x y => comp y x = false) (contents cs').
Proof.
  intros Ho HR. pose proof HR as (h & Hh & _). unfold hive_sort.
  rewrite (bind_ret_eq _ _ _ _ _ (hive_size_ok _ _ _ _ _ _ HR)). case_match eqn:Hn.
  { apply Z.ltb_lt in Hn. exists w, cs. split_and!; try done.
    destruct (contents cs) as [|x [|y xs]]; [constructor|by repeat constructor|simpl in Hn; lia]. }
  rewrite Nat2Z.id. cbn [negb].
  rewrite (bind_ret_eq _ _ _ _ _ (begin_spec _ _ _ _ _ _ _ HR Hh)).
  assert (length (contents cs) = length (spots cs)) as Hl by by rewrite <- spots_contents, length_fmap.
  erewrite bind_ret_eq by (eapply (collect_positions_ok w this cs) with (ps := []); [done..|lia]).
  destruct (heap_sort_ok comp Ho (contents cs)) as (ys & zs & Hb & Hu & Hsort & Hp).
  assert (arranged w this rs av F (hives w) (spots cs).*1 (contents cs)) as A.
  { exists cs. by rewrite spots_contents. }
  destruct (heapify_ok _ _ _ _ _ _ _ _ _ _ _ A Hb) as (w1 & Hr1 & A1).
  destruct (sort_down_ok _ _ _ _ _ _ _ _ _ _ _ A1 Hu) as (w2 & Hr2 & (cs' & HR' & Hh' & Hp' & Hx)).
  exists w2, cs'. rewrite (bind_ret_eq _ _ _ _ _ Hr1). rewrite <- (spots_contents cs'), Hx. done.
Qed.
End sorting.
