(* ===== verification/HiveFilter.v ===== *)
(** * Removing elements by a predicate, and finding them by address

    [unique] and [erase_if] of HiveAlgorithms.v against their reference
    functions on the sequence of spots ([unique_by] and [filter]): both go
    through the hive once and erase as they go. *)
From S2P Require Import Prelude Linked HiveBlock HiveHeap HiveInv HiveStore HiveErase HiveAlgorithms.

#[local] Open Scope Z_scope.

Section filtering.
Context {T : Type} `{cfg : Config}.
Implicit Types (l j c this : loc) (w : world T) (rs av : list loc) (x y v : T).
Implicit Types (cs : list (loc * list (segment T))) (F : list (loc * allocation)).

(** Dropping every element that is the same as the last one kept. *)
Fixpoint unique_by {A} (same : A -> A -> bool) (prev : A) (xs : list A) : list A :=
  match xs with
  | [] => []
  | x :: xs' => if same x prev then unique_by same prev xs' else x :: unique_by same x xs'
  end.

Definition unique_list {A} (same : A -> A -> bool) (xs : list A) : list A :=
  match xs with [] => [] | x :: xs' => x :: unique_by same x xs' end.

(** The same on spots, which are compared by their elements. *)
Definition same_spot (same : T -> T -> bool) (p q : loc * Z * T) : bool := same p.2 q.2.

Lemma unique_by_length {A} (same : A -> A -> bool) xs : forall p, (length (unique_by same p xs) <= length xs)%nat.
Proof. induction xs as [|x xs IH]; intros p; simpl; [done|]. case_match; simpl; [by apply le_S|apply le_n_S]; apply IH. Qed.

Lemma hive_end_at w this h : hives w !! this = Some h -> hive_end this w = (Ret (iterator_at (T := T) this h None), w).
Proof. intros Hh. unfold hive_end. by rewrite (bind_ret_eq _ _ _ _ _ (get_hive_ok _ _ _ Hh)). Qed.

Lemma at_end this h : it_eqb (iterator_at (T := T) this h None) (iterator_at (T := T) this h None) = true.
Proof. unfold it_eqb. simpl. by rewrite bool_decide_true, Z.eqb_refl. Qed.

Lemma unique_loop_ok same this F qs : forall fuel w cs rs av h ps p (removed : Z),
  hive_rep w this cs rs av F -> hives w !! this = Some h -> spots cs = ps ++ p :: qs ->
  (length qs <= fuel)%nat -> 0 <= removed -> removed + Z.of_nat (length qs) < 2 ^ 64 ->
  exists w' cs' rs' av',
    unique_loop fuel same this (at_element p.1.1 p.1.2) (iterator_at this h (head qs)) removed w =
      (Ret (removed + (Z.of_nat (length qs) - Z.of_nat (length (unique_by (same_spot same) p qs)))), w') /\
    hive_rep w' this cs' rs' av' F /\ spots cs' = ps ++ p :: unique_by (same_spot same) p qs.
Proof.
  induction qs as [|[[l i] x] qs IH]; intros fuel w cs rs' av h ps p removed HR Hh Hs Hf H0 Hr.
  - exists w, cs, rs', av. rewrite Z.sub_diag, Z.add_0_r. split; [|done].
    destruct fuel; cbn [unique_loop]; by rewrite (bind_ret_eq _ _ _ _ _ (hive_end_at _ _ _ Hh)), at_end.
  - destruct fuel as [|fuel]; cbn [length] in Hf, Hr; [lia|]. cbn [unique_loop].
    rewrite (bind_ret_eq _ _ _ _ _ (hive_end_at _ _ _ Hh)). cbn [head iterator_at it_eqb at_element it_block].
    pose proof Hs as Hs2. rewrite (cons_middle p), app_assoc in Hs2. destruct p as [[l0 i0] y]. cbn [fst snd].
    rewrite (bind_ret_eq _ _ _ _ _ (deref_spec _ _ _ _ _ _ _ HR Hh _ _ _ _ _ Hs2)).
    rewrite (bind_ret_eq _ _ _ _ _ (deref_spec _ _ _ _ _ _ _ HR Hh _ _ _ _ _ Hs)).
    cbn [unique_by]. change (same_spot same (l, i, x) (l0, i0, y)) with (same x y). destruct (same x y).
    + destruct (erase_spec _ _ _ _ _ _ _ _ _ _ _ _ HR Hh Hs2) as (w1 & cs1 & rs1 & av1 & Hrun & HR1 & Hh1 & Hs1).
      rewrite (bind_ret_eq _ _ _ _ _ Hrun). rewrite (u64_small (removed + 1)) by lia.
      rewrite <- app_assoc in Hs1.
      assert (hives w1 !! this = Some (erased_object h (head qs))) as Hh1' by by rewrite Hh1, lookup_insert_eq.
      destruct (IH fuel w1 cs1 rs1 av1 _ ps (l0, i0, y) (removed + 1) HR1 Hh1' Hs1)
        as (w2 & cs2 & rs2 & av2 & Hrun2 & HR2 & Hs3); [lia|lia|lia|].
      exists w2, cs2, rs2, av2. cbn [fst snd] in Hrun2. rewrite Hrun2. split; [|done].
      do 2 f_equal. cbn [length]. lia.
    + rewrite (bind_ret_eq _ _ _ _ _ (next_spec _ _ _ _ _ _ _ HR Hh _ _ _ _ _ Hs2)).
      destruct (IH fuel w cs rs' av h (ps ++ [(l0, i0, y)]) (l, i, x) removed HR Hh Hs2)
        as (w2 & cs2 & rs2 & av2 & Hrun2 & HR2 & Hs3); [lia|lia|lia|].
      exists w2, cs2, rs2, av2. cbn [fst snd] in Hrun2. unfold at_element in *. rewrite Hrun2.
      split; [do 2 f_equal; cbn [length]; lia|]. split; [done|]. by rewrite Hs3, <- app_assoc.
Qed.
Lemma hive_size_bound w this cs rs av F :
  hive_rep w this cs rs av F -> Z.of_nat (length (contents cs)) < 2 ^ 64.
Proof.
  intros (h & _ & _ & Hc). destruct (control_ h) as [c|]; [|by destruct Hc as [-> _]].
  destruct Hc as [k S]. destruct (store_rep_counters _ _ _ _ _ _ _ _ _ S) as [? ?].
  rewrite <- (sr_size _ _ _ _ _ _ _ _ _ S). unfold npos in *. lia.
Qed.

Lemma unique_spec same w this cs rs av F :
  hive_rep w this cs rs av F ->
  exists w' cs' rs' av',
    unique same this w = (Ret (Z.of_nat (length (contents cs)) - Z.of_nat (length (contents cs'))), w') /\
    hive_rep w' this cs' rs' av' F /\ spots cs' = unique_list (same_spot same) (spots cs).
Proof.
  intros HR. pose proof HR as (h & Hh & _). unfold unique.
  rewrite (bind_ret_eq _ _ _ _ _ (hive_size_ok _ _ _ _ _ _ HR)).
  rewrite <- !spots_contents, length_fmap. case_match eqn:Hn; [apply Z.ltb_lt in Hn|apply Z.ltb_ge in Hn].
  { exists w, cs, rs, av. rewrite <- spots_contents, length_fmap, Z.sub_diag. split; [done|]. split; [done|].
    destruct (spots cs) as [|p [|q qs]]; [done..|cbn [length] in Hn; lia]. }
  rewrite (bind_ret_eq _ _ _ _ _ (begin_spec _ _ _ _ _ _ _ HR Hh)).
  destruct (spots cs) as [|[[l i] x] qs] eqn:Hs; [simpl in Hn; lia|]. cbn [head iterator_at].
  rewrite (bind_ret_eq _ _ _ _ _ (next_spec _ _ _ _ _ _ _ HR Hh [] _ _ _ _ Hs)).
  pose proof (hive_size_bound _ _ _ _ _ _ HR) as Hb. rewrite <- spots_contents, length_fmap, Hs in Hb.
  rewrite Nat2Z.id.
  destruct (unique_loop_ok same this F qs (length ((l, i, x) :: qs)) w cs rs av h [] (l, i, x) 0)
    as (w' & cs' & rs' & av' & Hrun & HR' & Hs'); [done..|cbn [length]; lia|lia|cbn [length] in Hb; lia|].
  exists w', cs', rs', av'. cbn [fst snd] in Hrun. rewrite Hrun. split; [|done]. do 2 f_equal.
  rewrite <- spots_contents, length_fmap, Hs'. cbn [length app]. lia.
Qed.

(** The spots whose elements do not satisfy the predicate. *)
Definition kept (pred : T -> bool) (ps : list (loc * Z * T)) : list (loc * Z * T) :=
  filter (fun p => pred p.2 = false) ps.

Lemma erase_if_loop_ok pred this F qs : forall fuel w cs rs av h ps,
  hive_rep w this cs rs av F -> hives w !! this = Some h -> spots cs = ps ++ qs ->
  (length qs <= fuel)%nat ->
  exists w' cs' rs' av', erase_if_loop fuel pred this (iterator_at this h (head qs)) w = (Ret tt, w') /\
    hive_rep w' this cs' rs' av' F /\ spots cs' = ps ++ kept pred qs.
Proof.
  induction qs as [|[[l i] x] qs IH]; intros fuel w cs rs' av h ps HR Hh Hs Hf.
  - exists w, cs, rs', av. split; [|done].
    destruct fuel; cbn [erase_if_loop]; by rewrite (bind_ret_eq _ _ _ _ _ (hive_end_at _ _ _ Hh)), at_end.
  - destruct fuel as [|fuel]; cbn [length] in Hf; [lia|]. cbn [erase_if_loop].
    rewrite (bind_ret_eq _ _ _ _ _ (hive_end_at _ _ _ Hh)). cbn [head iterator_at it_eqb at_element it_block].
    rewrite (bind_ret_eq _ _ _ _ _ (deref_spec _ _ _ _ _ _ _ HR Hh _ _ _ _ _ Hs)).
    unfold kept. destruct (pred x) eqn:Hx.
    + rewrite filter_cons_False by (simpl; congruence).
      destruct (erase_spec _ _ _ _ _ _ _ _ _ _ _ _ HR Hh Hs) as (w1 & cs1 & rs1 & av1 & Hrun & HR1 & Hh1 & Hs1).
      rewrite (bind_ret_eq _ _ _ _ _ Hrun).
      apply (IH fuel w1 cs1 rs1 av1); [done|by rewrite Hh1, lookup_insert_eq|done|lia].
    + rewrite filter_cons_True by done.
      rewrite (bind_ret_eq _ _ _ _ _ (next_spec _ _ _ _ _ _ _ HR Hh _ _ _ _ _ Hs)).
      rewrite (cons_middle (l, i, x)), app_assoc in Hs.
      destruct (IH fuel w cs rs' av h (ps ++ [(l, i, x)]) HR Hh Hs ltac:(lia)) as (w2 & cs2 & rs2 & av2 & Hr & HR2 & Hs2).
      exists w2, cs2, rs2, av2. split; [done|]. split; [done|]. by rewrite Hs2, <- app_assoc.
Qed.

Lemma erase_if_spec pred w this cs rs av F :
  hive_rep w this cs rs av F ->
  exists w' cs' rs' av',
    erase_if pred this w = (Ret (Z.of_nat (length (contents cs)) - Z.of_nat (length (contents cs'))), w') /\
    hive_rep w' this cs' rs' av' F /\ spots cs' = kept pred (spots cs).
Proof.
  intros HR. pose proof HR as (h & Hh & _). unfold erase_if.
  rewrite (bind_ret_eq _ _ _ _ _ (hive_size_ok _ _ _ _ _ _ HR)).
  rewrite (bind_ret_eq _ _ _ _ _ (begin_spec _ _ _ _ _ _ _ HR Hh)).
  destruct (erase_if_loop_ok pred this F (spots cs) (length (contents cs)) w cs rs av h [])
    as (w' & cs' & rs' & av' & Hrun & HR' & Hs'); [done..| |].
  { by rewrite <- spots_contents, length_fmap. }
  exists w', cs', rs', av'. split; [|done]. rewrite Nat2Z.id, (bind_ret_eq _ _ _ _ _ Hrun).
  rewrite (bind_ret_eq _ _ _ _ _ (hive_size_ok _ _ _ _ _ _ HR')). unfold ret. rewrite u64_small; [done|].
  pose proof (hive_size_bound _ _ _ _ _ _ HR) as Hb. rewrite <- !spots_contents, !length_fmap, Hs' in *.
  pose proof (length_filter (fun p : loc * Z * T => pred p.2 = false) (spots cs)). unfold kept. simpl. lia.
Qed.
End filtering.

(** ** Finding the iterator to an element

    [get_iterator] of HiveAlgorithms.v against the set of spots: it finds a spot
    at the address it is given if there is one, and reads the skip field only
    where it is initialised. *)

Section lookup.
Context {T : Type} `{cfg : Config}.
Implicit Types (l j c this : loc) (w : world T) (rs av : list loc) (x y v : T).
Implicit Types (cs : list (loc * list (segment T))) (F : list (loc * allocation)).
Context (address : loc -> Z).

(** Every slot below the high-water mark has a skip count, which is zero exactly
    where an element lives. *)
Lemma encodes_skip (f : skipfield T) (lay : list (segment T)) : forall base j,
  widths_pos lay -> encodes f base lay -> base <= j < base + width lay ->
  exists v : Z, read_skip f j = Some v /\ (v = 0 <-> exists x, element f j = Some x).
Proof.
  induction lay as [|[x|n] lay IH]; intros base j Hw He Hj; simpl in *; [lia| |].
  - destruct Hw as [_ Hw], He as (Hk & Hs & He). destruct (decide (j = base)) as [->|].
    + exists 0. split; [done|]. unfold element. rewrite Hs. split; eauto.
    + apply (IH (base + 1)); [done..|lia].
  - destruct Hw as [Hn Hw], He as (_ & _ & Hd & He). destruct (Z.lt_ge_cases j (base + n)) as [Hlt|].
    + destruct (Hd j ltac:(lia)) as (Hv & v & Hk & Hv0). exists v. split; [done|].
      unfold element. destruct (slots f !! j) as [[| |]|]; try done; split; try done; by intros [? [=]].
    + apply (IH (base + n)); [done..|lia].
Qed.

Lemma rep_skip_element (f : skipfield T) lay fs j :
  block_rep f lay fs -> 0 <= j < high_water f ->
  exists v : Z, read_skip f j = Some v /\ (v = 0 <-> exists x, element f j = Some x).
Proof.
  intros R Hj. rewrite (rep_high_water _ _ _ R) in Hj.
  eapply (encodes_skip f lay 0); [apply shape_widths, R|apply R|lia].
Qed.

(** An element lives below the high-water mark. *)
Lemma element_below (f : skipfield T) lay fs j x : block_rep f lay fs -> 0 <= j -> element f j = Some x -> j < high_water f.
Proof.
  intros R Hj Hx. destruct (Z.lt_ge_cases j (high_water f)) as [|Hge]; [done|].
  rewrite (rep_high_water _ _ _ R) in Hge. pose proof (rep_tail _ _ _ R j Hge) as Hv.
  unfold element in Hx. by destruct (slots f !! j) as [[]|].
Qed.

(** The spot of a list of blocks that lies at address [p]. *)
Definition spot_at w cs (p : Z) (l : loc) (i : Z) : Prop :=
  exists x b, (l, i, x) ∈ spots cs /\ blocks w !! l = Some b /\ slot_address address b i = p.

Hypothesis slot_positive : 0 < sizeof_slot.
#[local] Set Default Proof Using "All".

(** Whether the block [l] has a spot at the address [p]. *)
Lemma no_spot w l lay fs b p :
  blocks w !! l = Some b -> block_rep (field b) lay fs ->
  (forall i, slot_address address b i = p -> 0 <= i -> element (field b) i = None) ->
  forall i, ~ spot_at w [(l, lay)] p l i.
Proof.
  intros Hb R Hno i (x & b' & Hin & Hb' & Hp). simplify_eq. simpl in Hin. rewrite app_nil_r in Hin.
  apply (live_spots_elem _ _ _ _ _ _ _ R) in Hin as (_ & Hi & Hx). by rewrite (Hno i) in Hx.
Qed.

Lemma find_slot_ok w this c k lim rs av F p cs2 : forall fuel cs1,
  store_rep w this c k lim (cs1 ++ cs2) rs av F -> (length cs2 <= fuel)%nat ->
  exists r, find_slot address fuel p (head cs2.*1) w = (Ret r, w) /\
    match r with
    | Some (l, i) => spot_at w cs2 p l i
    | None => forall l i, ~ spot_at w cs2 p l i
    end.
Proof.
  induction cs2 as [|[l lay] cs2 IH]; intros fuel cs1 S Hf.
  { exists None. split; [by destruct fuel|]. intros l i (x & b & Hin & _). by apply not_elem_of_nil in Hin. }
  destruct fuel as [|fuel]; cbn [length] in Hf; [lia|]. csimpl.
  destruct (active_cell _ _ _ _ _ _ _ _ _ _ _ _ S) as (b & fs & Hb & _ & R & _ & _ & Hn & _).
  assert (store_rep w this c k lim ((cs1 ++ [(l, lay)]) ++ cs2) rs av F) as S' by (by rewrite <- app_assoc).
  destruct (IH fuel _ S' ltac:(lia)) as (r & Hr & Hspec). clear IH.
  (* going on to the next block *)
  assert ((forall i, slot_address address b i = p -> 0 <= i -> element (field b) i = None) ->
    exists r', find_slot address fuel p (active_next (act b)) w = (Ret r', w) /\
    match r' with
    | Some (l', i) => spot_at w ((l, lay) :: cs2) p l' i
    | None => forall l' i, ~ spot_at w ((l, lay) :: cs2) p l' i
    end) as Hon.
  { intros Hno. exists r. rewrite Hn. split; [done|]. destruct r as [[l' i]|].
    - destruct Hspec as (x & b' & Hin & ? & ?). exists x, b'. split; [|done].
      simpl. apply elem_of_app. by right.
    - intros l' i (x & b' & Hin & Hb' & Hp). simpl in Hin. apply elem_of_app in Hin as [Hin|Hin].
      + pose proof Hin as Hin'. apply (live_spots_elem _ _ _ _ _ _ _ R) in Hin' as (-> & _ & _).
        apply (no_spot _ _ _ _ _ p Hb R Hno i). exists x, b'. split; [|done]. simpl. by rewrite app_nil_r.
      + apply (Hspec l' i). by exists x, b'. }
  rewrite (bind_ret_eq _ _ _ _ _ (get_block_ok _ _ _ Hb)). cbv zeta. unfold slot_address in Hon.
  destruct (p <? address (slot_allocation b)) eqn:H1; [apply Z.ltb_lt in H1; apply Hon; intros i Hp Hi; nia|apply Z.ltb_ge in H1].
  assert (exists d, d = p - address (slot_allocation b)) as [d Ed] by eauto. rewrite <- Ed.
  destruct (negb (d mod sizeof_slot =? 0)) eqn:H2; [|apply negb_false_iff, Z.eqb_eq in H2].
  { apply negb_true_iff, Z.eqb_neq in H2. apply Hon. intros i Hp Hi. destruct H2.
    replace d with (i * sizeof_slot) by lia. apply Z.mod_mul. lia. }
  assert (sizeof_slot <> 0) as Hnz by lia. pose proof (Z.div_mod d sizeof_slot Hnz) as Hd. rewrite H2 in Hd.
  assert (0 <= d / sizeof_slot) as Hd0 by (apply Z.div_pos; lia).
  assert (forall i, address (slot_allocation b) + i * sizeof_slot = p -> i = d / sizeof_slot) as Hi.
  { intros i Hp. replace d with (i * sizeof_slot) by lia. by rewrite Z.div_mul by lia. }
  destruct (high_water (field b) <=? d / sizeof_slot) eqn:H3; [apply Z.leb_le in H3|apply Z.leb_gt in H3].
  { apply Hon. intros i Hp Hi0. destruct (element (field b) i) as [x|] eqn:Hx; [|done].
    apply (element_below _ _ _ _ _ R Hi0) in Hx. apply Hi in Hp. lia. }
  destruct (rep_skip_element _ _ _ (d / sizeof_slot) R) as (v & Hv & Hlive); [lia|]. rewrite Hv. simpl.
  rewrite bind_ret. unfold slot_address. assert ((address (slot_allocation b) + d / sizeof_slot * sizeof_slot =? p) = true)
    as -> by (apply Z.eqb_eq; lia). rewrite andb_true_r. destruct (v =? 0) eqn:H4.
  - apply Z.eqb_eq, Hlive in H4 as [x Hx]. exists (Some (l, d / sizeof_slot)). split; [done|].
    exists x, b. split; [|split; [done|unfold slot_address; lia]]. simpl. apply elem_of_app. left.
    by apply (live_spots_elem _ _ _ _ _ _ _ R).
  - apply Z.eqb_neq in H4. apply Hon. intros i Hp _. apply Hi in Hp. subst i.
    destruct (element _ _) eqn:E; [|done]. exfalso. apply H4, Hlive. eauto.
Qed.
Lemma get_iterator_spec w this cs rs av F h p :
  hive_rep w this cs rs av F -> hives w !! this = Some h ->
  exists r, get_iterator address this p w = (Ret r, w) /\
    ((exists l i, r = at_element l i /\ spot_at w cs p l i) \/
     (r = iterator_at (T := T) this h None /\ forall l i, ~ spot_at w cs p l i)).
Proof.
  intros HR Hh. unfold get_iterator, hive_end. rewrite (bind_ret_eq _ _ _ _ _ (get_hive_ok _ _ _ Hh)).
  destruct (control_ h) as [c|] eqn:Hc.
  2: { rewrite (bind_ret_eq _ _ _ _ _ (get_hive_ok _ _ _ Hh)). eexists. split; [done|]. right.
    rewrite (hive_no_control _ _ _ _ _ _ _ HR Hh Hc). split; [done|].
    intros l i (x & b & Hin & _). by apply not_elem_of_nil in Hin. }
  destruct (hive_control _ _ _ _ _ _ _ HR Hh c Hc) as [k S]. pose proof (sr_links _ _ _ _ _ _ _ _ _ S) as L.
  rewrite (bind_ret_eq _ _ _ _ _ (get_control_ok _ _ _ (lr_control _ _ _ _ _ _ _ L))).
  rewrite (proj1 (lr_head _ _ _ _ _ _ _ L)).
  destruct (find_slot_ok w this c k (limits_ h) rs av F p cs (size (blocks w)) [] S) as (r & Hr & Hspec).
  { rewrite <- (length_fmap fst cs). apply nodup_size; [apply L|]. intros j Hj.
    by apply (lr_blocks _ _ _ _ _ _ _ L), (proj1 (lr_sub _ _ _ _ _ _ _ L)). }
  erewrite bind_ret_eq by exact Hr. destruct r as [[l i]|].
  - eexists. split; [done|]. left. by exists l, i.
  - rewrite (bind_ret_eq _ _ _ _ _ (get_hive_ok _ _ _ Hh)). eexists. split; [done|]. by right.
Qed.

(** Allocations of slots do not overlap. *)
Definition disjoint_slots w : Prop := forall a b n m,
  ledger w !! a = Some (ASlots n) -> ledger w !! b = Some (ASlots m) -> a <> b ->
  address a + n * sizeof_slot <= address b \/ address b + m * sizeof_slot <= address a.

(** Two blocks of a hive have different allocations of slots, both in the ledger. *)
Lemma slots_in_ledger w this c k lim cs rs av F l b l' b' :
  store_rep w this c k lim cs rs av F -> blocks w !! l = Some b -> blocks w !! l' = Some b' ->
  l ∈ cs.*1 -> l' ∈ cs.*1 ->
  ledger w !! slot_allocation b = Some (ASlots (capacity (field b))) /\
  ledger w !! slot_allocation b' = Some (ASlots (capacity (field b'))) /\
  (l <> l' -> slot_allocation b <> slot_allocation b').
Proof.
  intros S Hb Hb' Hl Hl'. pose proof (sr_ledger _ _ _ _ _ _ _ _ _ S) as HL.
  pose proof (sr_nodup _ _ _ _ _ _ _ _ _ S) as Hnd.
  assert (l ∈ (entries cs rs).*1 /\ l' ∈ (entries cs rs).*1) as [Hi Hi'].
  { rewrite entries_fst, !elem_of_app. auto. }
  assert (forall j bj, blocks w !! j = Some bj -> j ∈ (entries cs rs).*1 ->
    (slot_allocation bj, ASlots (capacity (field bj))) ∈ map_to_list (ledger w)) as Hin.
  { intros j bj Hbj Hj. rewrite HL. right. apply elem_of_app. left.
    apply list_elem_of_split in Hj as (l1 & l2 & ->). rewrite owned_app, elem_of_app. right. simpl.
    unfold owned_by, core_of. rewrite Hbj. simpl. set_solver. }
  split; [by apply elem_of_map_to_list, (Hin l)|]. split; [by apply elem_of_map_to_list, (Hin l')|].
  intros Hne Heq. pose proof (NoDup_fst_map_to_list (ledger w)) as HN. rewrite HL in HN.
  apply list_elem_of_split in Hi as (l1 & l2 & Hls).
  assert (exists rest, (entries cs rs).*1 ≡ₚ l :: l' :: rest) as [rest HP].
  { rewrite Hls, elem_of_app, elem_of_cons in Hi'.
    assert (l' ∈ l1 ++ l2) as (l4 & l5 & Hl45)%list_elem_of_split by (rewrite elem_of_app; naive_solver).
    exists (l4 ++ l5). rewrite Hls, <- !Permutation_middle, Hl45. by rewrite <- Permutation_middle. }
  rewrite HP in HN. simpl in HN. unfold owned_by, core_of in HN. rewrite Hb, Hb' in HN. simpl in HN.
  rewrite !NoDup_cons in HN. destruct HN as (_ & _ & HN & _). apply HN. rewrite Heq. clear. set_solver.
Qed.

Lemma spot_at_unique w this cs rs av F p l i l' i' :
  hive_rep w this cs rs av F -> disjoint_slots w ->
  spot_at w cs p l i -> spot_at w cs p l' i' -> l' = l /\ i' = i.
Proof.
  intros HR Hdis (x & b & Hin & Hb & Hp) (x' & b' & Hin' & Hb' & Hp'). unfold slot_address in *.
  apply list_elem_of_split in Hin as (ps & qs & Hs), Hin' as (ps' & qs' & Hs').
  pose proof HR as (h & Hh & _). destruct (hive_spot _ _ _ _ _ _ _ HR Hh _ _ _ Hs) as [c Hc].
  destruct (hive_control _ _ _ _ _ _ _ HR Hh c Hc) as [k S].
  assert (forall l i x b ps qs, spots cs = ps ++ (l, i, x) :: qs -> blocks w !! l = Some b ->
    l ∈ cs.*1 /\ 0 <= i < capacity (field b)) as Hbd.
  { clear -S. intros l i x b ps qs Hs Hb.
    destruct (spots_split _ _ _ _ _ _ Hs) as (cs1 & lA & lB & cs2 & -> & -> & _ & _).
    destruct (active_cell _ _ _ _ _ _ _ _ _ _ _ _ S) as (b0 & fs & Hb0 & _ & R & _). simplify_eq.
    split; [rewrite fmap_app; set_solver|]. by destruct (rep_live _ _ _ _ _ R) as (_ & _ & ? & _). }
  destruct (Hbd _ _ _ _ _ _ Hs Hb) as [Hl Hi], (Hbd _ _ _ _ _ _ Hs' Hb') as [Hl' Hi'].
  destruct (slots_in_ledger _ _ _ _ _ _ _ _ _ _ _ _ _ S Hb Hb' Hl Hl') as (Hg & Hg' & Hd).
  destruct (decide (l = l')) as [<-|Hne].
  - simplify_eq. split; [done|]. nia.
  - destruct (Hdis _ _ _ _ Hg Hg' (Hd Hne)); nia.
Qed.
End lookup.
