(* ===== verification/HiveWhole.v ===== *)
(** * Whole hives: construction, assignment, exchange

    The operations of HiveObjects.v on well-formed hives: filling an empty hive,
    constructors that clean up after an exception, assignment, and [swap]. *)
From S2P Require Import Prelude Linked HiveBlock HiveHeap HiveInv HiveStore.
From S2P Require Import HiveStore HiveErase HiveClear HiveObjects.

#[local] Open Scope Z_scope.

Section whole.
Context {T : Type} `{cfg : Config}.
Implicit Types (l j c this other : loc) (w : world T) (rs av : list loc) (x y v : T).
Implicit Types (cs : list (loc * list (segment T))) (F : list (loc * allocation)).

(** The hive holds [vs], in some order. *)
Definition holds w this F (vs : list T) : Prop :=
  exists cs rs av, hive_rep w this cs rs av F /\ contents cs ≡ₚ vs.

Lemma inserted_perm {A} (v : A) xs ys : inserted v xs ys -> ys ≡ₚ v :: xs.
Proof. intros (x1 & x2 & -> & ->). solve_Permutation. Qed.

Lemma holds_object w this F vs : holds w this F vs -> exists h, hives w !! this = Some h.
Proof. intros (cs & rs & av & (h & Hh & _) & _). eauto. Qed.

Lemma emplace_holds w this F vs (x : option T) :
  holds w this F vs ->
  post (emplace this x w)
    (fun _ w' => exists v, x = Some v /\ holds w' this F (v :: vs)) (fun _ w' => holds w' this F vs).
Proof.
  intros (cs & rs & av & HR & Hp). eapply post_mono; [by apply emplace_spec| |].
  - intros it w' (v & -> & cs' & rs' & av' & l & i & _ & HR' & _ & Hin & _). exists v. split; [done|].
    exists cs', rs', av'. split; [done|]. apply inserted_perm in Hin.
    rewrite <- (spots_contents cs'), Hin. csimpl. by rewrite spots_contents, Hp.
  - intros e w' (HR' & _). by exists cs, rs, av.
Qed.

(** The elements that a sequence of insertions gets to before one fails. *)
Lemma append_input_holds this F (xs : list (option T)) : forall w vs,
  holds w this F vs ->
  post (append_input this xs w)
    (fun _ w' => exists us, xs = Some <$> us /\ holds w' this F (us ++ vs))
    (fun _ w' => exists us rest, xs = (Some <$> us) ++ rest /\ holds w' this F (us ++ vs)).
Proof.
  induction xs as [|x xs IH]; intros w vs H; [by exists []|]. simpl append_input.
  apply post_bind. eapply post_mono; [by apply emplace_holds| |].
  - intros _ w1 (v & -> & H1). eapply post_mono; [by apply IH| |].
    + intros [] w2 (us & -> & H2). exists (v :: us). split; [done|].
      destruct H2 as (cs & rs & av & HR & Hp). exists cs, rs, av. split; [done|]. rewrite Hp. solve_Permutation.
    + intros e w2 (us & rest & -> & H2). exists (v :: us), rest. split; [done|].
      destruct H2 as (cs & rs & av & HR & Hp). exists cs, rs, av. split; [done|]. rewrite Hp. solve_Permutation.
  - intros e w1 H1. by exists [], (x :: xs).
Qed.

(** ** Construction *)

Lemma limits_checked lim : 0 <= lim_min lim -> is_within_hard_limits lim = true -> limits_ok lim.
Proof. by split. Qed.

Lemma empty_hive w this a lim F :
  hives w !! this = None -> fresh w -> allocs w ≡ₚ F -> limits_ok lim ->
  holds (set_hives (<[this := HiveObject a lim None 0]> (hives w)) w) this F [].
Proof.
  intros Hn Hf HF Hl. exists [], [], []. split; [|done].
  exists (HiveObject a lim None 0). split; [apply lookup_insert_eq|]. done.
Qed.

(** Destroying a hive gives everything back. *)
Lemma destroy_holds w this F vs :
  holds w this F vs ->
  exists w', destroy_hive this w = (Ret tt, w') /\ hives w' !! this = None /\ allocs w' ≡ₚ F /\ fresh w'.
Proof.
  intros (cs & rs & av & HR & _). destruct (release_ok _ _ _ _ _ _ HR) as (w1 & Hr & HR1 & HF).
  exists (set_hives (delete this (hives w1)) w1). unfold destroy_hive.
  rewrite (bind_ret_eq _ _ _ _ _ Hr). split; [done|]. split; [apply lookup_delete_eq|]. split; [done|].
  destruct HR1 as (h & _ & _ & Hc). destruct (control_ h); [|by destruct Hc as (_ & _ & _ & Hf & _)].
  destruct Hc as [k S]. exact (sr_fresh _ _ _ _ _ _ _ _ _ S).
Qed.

Lemma construct_spec w this lim a F (xs : list (option T)) :
  hives w !! this = None -> fresh w -> allocs w ≡ₚ F -> 0 <= lim_min lim ->
  post (hive_from_input_limits this xs lim a w)
    (fun _ w' => is_within_hard_limits lim = true /\ exists vs, xs = Some <$> vs /\ holds w' this F vs)
    (fun _ w' => hives w' !! this = None /\ allocs w' ≡ₚ F /\ fresh w').
Proof.
  intros Hn Hf HF Hl. unfold hive_from_input_limits, delegating, hive_limits_alloc.
  apply post_bind. unfold bind at 1, create_hive. rewrite Hn. unfold validate_limits, on_raise at 1.
  destruct (is_within_hard_limits lim) eqn:Hw; simpl.
  - apply post_on_raise. eapply post_mono; [eapply append_input_holds, empty_hive; done| |].
    + intros [] w' (us & -> & H). split; [done|]. exists us. split; [done|]. by rewrite app_nil_r in H.
    + intros e w' (us & rest & _ & H). destruct (destroy_holds _ _ _ _ H) as (w2 & -> & ? & ? & ?). done.
  - split; [apply lookup_delete_eq|done].
Qed.

(** ** Assignment *)

Lemma holds_end_epoch w this F vs h e :
  holds w this F vs -> hives w !! this = Some h ->
  holds (set_hives (<[this := with_end_epoch e h]> (hives w)) w) this F vs.
Proof.
  intros (cs & rs & av & (h' & Hh & Hl & Hc) & Hp) Hh'. assert (h' = h) as -> by congruence. exists cs, rs, av. split; [|done].
  exists (with_end_epoch e h). split; [apply lookup_insert_eq|]. split; [done|]. simpl.
  destruct (control_ h) as [c|]; [|done]. destruct Hc as [k S]. exists k. by apply store_rep_hives.
Qed.

Lemma clear_holds w this F vs h :
  holds w this F vs -> hives w !! this = Some h ->
  exists w', clear_without_end_invalidation this w = (Ret tt, w') /\ holds w' this F [] /\ hives w' = hives w.
Proof.
  intros (cs & rs & av & (h' & Hh & Hl & Hc) & _) Hh'. assert (h' = h) as -> by congruence. unfold clear_without_end_invalidation.
  rewrite (bind_ret_eq _ _ _ _ _ (get_hive_ok _ _ _ Hh)). destruct (control_ h) as [c|] eqn:E.
  - destruct Hc as [k S]. rewrite (bind_ret_eq _ _ _ _ _ (get_control_ok _ _ _ (lr_control _ _ _ _ _ _ _ (sr_links _ _ _ _ _ _ _ _ _ S)))).
    destruct (clear_ok _ _ _ _ _ _ _ _ _ S) as (w1 & k1 & Hr & S1 & H1). exists w1. split; [exact Hr|].
    split; [|done]. exists [], (rev cs.*1 ++ rs), []. split; [|done]. exists h. rewrite H1, E. eauto.
  - exists w. split; [done|]. split; [|done]. exists [], [], []. split; [|done].
    exists h. destruct Hc as (_ & _ & _ & ? & ?). by rewrite E.
Qed.

(** What restoring the epoch adds to the outcome of [m]. *)
Lemma restoring_epoch_ok this F h (m : M T unit) w (Q E : list T -> Prop) :
  hives w !! this = Some h ->
  post (m w) (fun _ w' => exists vs, Q vs /\ holds w' this F vs) (fun _ w' => exists vs, E vs /\ holds w' this F vs) ->
  post (restoring_epoch this m w)
    (fun _ w' => exists vs h', Q vs /\ holds w' this F vs /\ hives w' !! this = Some h' /\ end_epoch_ h' = end_epoch_ h)
    (fun _ w' => exists vs h', E vs /\ holds w' this F vs /\ hives w' !! this = Some h' /\ end_epoch_ h' = end_epoch_ h).
Proof.
  intros Hh Hm. unfold restoring_epoch. rewrite (bind_ret_eq _ _ _ _ _ (get_hive_ok _ _ _ Hh)).
  assert (forall w', (exists h', hives w' !! this = Some h') -> exists h', hives w' !! this = Some h' /\
    upd_hive this (with_end_epoch (end_epoch_ h)) w' =
      (Ret tt, set_hives (<[this := with_end_epoch (end_epoch_ h) h']> (hives w')) w')) as Hrestore.
  { intros w' [h' Hh']. exists h'. split; [done|]. by apply upd_hive_ok. }
  apply post_bind, post_on_raise. eapply post_mono; [exact Hm| |].
  - intros [] w1 (vs & HQ & H1). destruct (Hrestore w1 (holds_object _ _ _ _ H1)) as (h1 & Hh1 & ->).
    exists vs, (with_end_epoch (end_epoch_ h) h1). split; [done|]. split; [by apply holds_end_epoch|].
    split; [apply lookup_insert_eq|done].
  - intros e w1 (vs & HE & H1). destruct (Hrestore w1 (holds_object _ _ _ _ H1)) as (h1 & Hh1 & ->).
    exists vs, (with_end_epoch (end_epoch_ h) h1). split; [done|]. split; [by apply holds_end_epoch|].
    split; [apply lookup_insert_eq|done].
Qed.

Lemma assign_spec' w this F h vs (xs : list (option T)) :
  holds w this F vs -> hives w !! this = Some h ->
  post (assign_input this xs w)
    (fun _ w' => exists us h', xs = Some <$> us /\ holds w' this F us /\
       hives w' !! this = Some h' /\ end_epoch_ h' = end_epoch_ h)
    (fun _ w' => exists us h', (exists rest, xs = (Some <$> us) ++ rest) /\ holds w' this F us /\
       hives w' !! this = Some h' /\ end_epoch_ h' = end_epoch_ h).
Proof.
  intros H Hh. unfold assign_input.
  apply (restoring_epoch_ok this F h _ w (fun us => xs = Some <$> us)
    (fun us => exists rest, xs = (Some <$> us) ++ rest)); [done|].
  destruct (clear_holds _ _ _ _ _ H Hh) as (w1 & Hr & H1 & _). rewrite (bind_ret_eq _ _ _ _ _ Hr).
  eapply post_mono; [by apply append_input_holds| |].
  - intros [] w2 (us & -> & H2). exists us. rewrite app_nil_r in H2. done.
  - intros e w2 (us & rest & -> & H2). exists us. rewrite app_nil_r in H2. eauto.
Qed.
(** ** Exchange *)

(** The control block [c] changes its owner. *)
Lemma store_rep_owner w w' this this' c k lim cs rs av F :
  store_rep w this c k lim cs rs av F ->
  blocks w' = blocks w -> controls w' !! c = Some (with_owner this' k) ->
  (forall c', is_Some (controls w' !! c') -> is_Some (controls w !! c')) ->
  ledger w' = ledger w -> next_loc w' = next_loc w ->
  store_rep w' this' c (with_owner this' k) lim cs rs av F.
Proof.
  intros [SL Snd Sown Sne Sb Ssz Scap Sbd Sled Sfr] Hb Hc Hcs Hg Hn.
  assert (forall j, core_of w' j = core_of w j) as Hcore by (intros j; unfold core_of; by rewrite Hb).
  split; try done.
  - eapply links_rep_ext; [exact SL|done|done|]. intros j b _ Hj. exists b. by rewrite Hb.
  - eapply Forall_impl; [exact Sb|]. intros [j lay] (ba & sa & ka & f & fs & Hf & H).
    exists ba, sa, ka, f, fs. by rewrite Hcore.
  - simpl. rewrite Scap. symmetry. apply total_capacity_ext. intros j _. unfold block_capacity. by rewrite Hcore.
  - rewrite Hg, (owned_ext w); [exact Sled|]. intros j _. unfold owned_by. by rewrite Hcore.
  - intros j Hj. rewrite Hn in Hj. destruct (Sfr j Hj) as (H1 & H2 & H3). rewrite Hb, Hg. split; [done|].
    split; [|done]. destruct (controls w' !! j) eqn:E; [|done]. destruct (Hcs j) as [? Hx]; [by rewrite E|].
    by rewrite H2 in Hx.
Qed.

(** The storage of a hive, apart from the object that refers to it. *)
Definition stored_at w this lim (p : option loc) cs rs av F : Prop :=
  limits_ok lim /\
  match p with
  | None => cs = [] /\ rs = [] /\ av = [] /\ fresh w /\ map_to_list (ledger w) ≡ₚ F
  | Some c => exists k, store_rep w this c k lim cs rs av F
  end.

(** Handing the storage over to the object [this']. *)
Lemma stored_at_owner w w' this this' lim p cs rs av F :
  stored_at w this lim p cs rs av F ->
  blocks w' = blocks w -> ledger w' = ledger w -> next_loc w' = next_loc w ->
  (forall c', is_Some (controls w' !! c') -> is_Some (controls w !! c')) ->
  (forall c k, p = Some c -> controls w !! c = Some k -> controls w' !! c = Some (with_owner this' k)) ->
  stored_at w' this' lim p cs rs av F.
Proof.
  intros [Hl Hp] Hb Hg Hn Hcs Hc. split; [done|]. destruct p as [c|].
  - destruct Hp as [k S]. exists (with_owner this' k). eapply store_rep_owner; try done.
    apply Hc; [done|]. exact (lr_control _ _ _ _ _ _ _ (sr_links _ _ _ _ _ _ _ _ _ S)).
  - destruct Hp as (-> & -> & -> & Hf & HF). repeat (split; [done|]). split; [|by rewrite Hg].
    intros j Hj. rewrite Hn in Hj. destruct (Hf j Hj) as (H1 & H2 & H3). rewrite Hb, Hg. split; [done|].
    split; [|done]. destruct (controls w' !! j) eqn:E; [|done]. destruct (Hcs j) as [? Hx]; [by rewrite E|].
    by rewrite H2 in Hx.
Qed.

(** [adopt]: the control block of [this], if there is one, belongs to it. *)
Lemma adopt_ok w this h :
  hives w !! this = Some h -> (forall c, control_ h = Some c -> is_Some (controls w !! c)) ->
  exists w', adopt this w = (Ret tt, w') /\ hives w' = hives w /\ blocks w' = blocks w /\
    ledger w' = ledger w /\ next_loc w' = next_loc w /\
    forall c', controls w' !! c' =
      if decide (control_ h = Some c') then with_owner this <$> controls w !! c' else controls w !! c'.
Proof.
  intros Hh Hc. unfold adopt. rewrite (bind_ret_eq _ _ _ _ _ (get_hive_ok _ _ _ Hh)).
  destruct (control_ h) as [c|].
  - destruct (Hc c eq_refl) as [k Hk]. eexists. split; [by apply upd_control_ok|]. repeat (split; [done|]).
    intros c'. simpl. rewrite lookup_insert. destruct (decide (c = c')) as [<-|].
    + by rewrite decide_True, Hk by done.
    + rewrite decide_False; [done|congruence].
  - exists w. repeat (split; [done|]). intros c'. by rewrite decide_False.
Qed.
(** The objects after [swap]: [h] takes over from [o]. *)
Definition swapped (h o : hive_object) : hive_object :=
  HiveObject (if pocs then alloc_ o else alloc_ h) (limits_ o) (control_ o) (u64 (end_epoch_ h + 1)).

Lemma hive_rep_stored w this h cs rs av F :
  hives w !! this = Some h ->
  hive_rep w this cs rs av F <-> stored_at w this (limits_ h) (control_ h) cs rs av F.
Proof.
  intros Hh. split; [intros (h' & Hh' & H); by simplify_eq|]. intros H. by exists h.
Qed.

Lemma stored_at_control w this lim c cs rs av F :
  stored_at w this lim (Some c) cs rs av F -> exists k, controls w !! c = Some k /\ owner k = this.
Proof.
  intros [_ [k S]]. exists k. split; [exact (lr_control _ _ _ _ _ _ _ (sr_links _ _ _ _ _ _ _ _ _ S))|].
  exact (sr_owner _ _ _ _ _ _ _ _ _ S).
Qed.

(** The writes to the two objects. *)
Lemma swap_objects w this other h o :
  this <> other -> hives w !! this = Some h -> hives w !! other = Some o ->
  exists w1, (forall A (m : M T A),
      ((if pocs then upd_hive this (with_alloc (alloc_ o)) ;;; upd_hive other (with_alloc (alloc_ h)) else ret tt) ;;;
       upd_hive this (with_control_ (control_ o)) ;;; upd_hive other (with_control_ (control_ h)) ;;;
       upd_hive this (with_limits (limits_ o)) ;;; upd_hive other (with_limits (limits_ h)) ;;; m) w = m w1) /\
    blocks w1 = blocks w /\ controls w1 = controls w /\ ledger w1 = ledger w /\ next_loc w1 = next_loc w /\
    hives w1 !! this = Some (HiveObject (if pocs then alloc_ o else alloc_ h) (limits_ o) (control_ o) (end_epoch_ h)) /\
    hives w1 !! other = Some (HiveObject (if pocs then alloc_ h else alloc_ o) (limits_ h) (control_ h) (end_epoch_ o)).
Proof.
  intros Hne Hh Ho. assert (forall (g : hive_object -> hive_object) (A : Type) (m : M T A) w0 p (x : hive_object),
    hives w0 !! p = Some x -> (upd_hive p g ;;; m) w0 = m (set_hives (<[p := g x]> (hives w0)) w0)) as Hstep.
  { intros g A m w0 p x Hp. by rewrite (bind_ret_eq _ _ _ _ _ (upd_hive_ok _ _ _ _ Hp)). }
  destruct pocs.
  - eexists. split.
    { intros A m. unfold bind at 1. rewrite (Hstep _ _ _ _ _ _ Hh). erewrite upd_hive_ok by (simpl; by rewrite lookup_insert_ne).
      erewrite Hstep by (simpl; rewrite lookup_insert_ne by done; apply lookup_insert_eq).
      erewrite Hstep by (simpl; rewrite lookup_insert_ne by done; apply lookup_insert_eq).
      erewrite Hstep by (simpl; rewrite lookup_insert_ne by done; apply lookup_insert_eq).
      erewrite Hstep by (simpl; rewrite lookup_insert_ne by done; apply lookup_insert_eq). done. }
    repeat (split; [done|]). simpl. split; [rewrite lookup_insert_ne by done|]; by rewrite lookup_insert_eq.
  - eexists. split.
    { intros A m. rewrite bind_ret, (Hstep _ _ _ _ _ _ Hh). erewrite Hstep by (simpl; by rewrite lookup_insert_ne).
      erewrite Hstep by (simpl; rewrite lookup_insert_ne by done; apply lookup_insert_eq).
      erewrite Hstep by (simpl; rewrite lookup_insert_ne by done; apply lookup_insert_eq). done. }
    repeat (split; [done|]). simpl. split; [rewrite lookup_insert_ne by done|]; by rewrite lookup_insert_eq.
Qed.

Lemma swap_spec w this other h o cs1 rs1 av1 F1 cs2 rs2 av2 F2 :
  this <> other -> hives w !! this = Some h -> hives w !! other = Some o ->
  hive_rep w this cs1 rs1 av1 F1 -> hive_rep w other cs2 rs2 av2 F2 ->
  exists w', swap this other w = (Ret tt, w') /\
    hive_rep w' this cs2 rs2 av2 F2 /\ hive_rep w' other cs1 rs1 av1 F1 /\
    hives w' !! this = Some (swapped h o) /\ hives w' !! other = Some (swapped o h) /\
    blocks w' = blocks w /\ ledger w' = ledger w.
Proof.
  intros Hne Hh Ho HR1 HR2. apply (hive_rep_stored _ _ _ _ _ _ _ Hh) in HR1.
  apply (hive_rep_stored _ _ _ _ _ _ _ Ho) in HR2. unfold swap. rewrite decide_False by done.
  rewrite (bind_ret_eq _ _ _ _ _ (get_hive_ok _ _ _ Hh)), (bind_ret_eq _ _ _ _ _ (get_hive_ok _ _ _ Ho)).
  destruct (swap_objects w this other h o Hne Hh Ho) as (w1 & -> & Hb1 & Hc1 & Hg1 & Hn1 & Hh1 & Ho1).
  destruct (adopt_ok w1 this _ Hh1) as (w2 & Hr2 & Hh2 & Hb2 & Hg2 & Hn2 & Hc2).
  { simpl. intros c Hc. rewrite Hc in HR2. destruct (stored_at_control _ _ _ _ _ _ _ _ HR2) as (k & Hk & _).
    rewrite Hc1, Hk. eauto. }
  rewrite (bind_ret_eq _ _ _ _ _ Hr2). rewrite <- Hh2 in Ho1, Hh1.
  destruct (adopt_ok w2 other _ Ho1) as (w3 & Hr3 & Hh3 & Hb3 & Hg3 & Hn3 & Hc3).
  { simpl. intros c Hc. rewrite Hc in HR1. destruct (stored_at_control _ _ _ _ _ _ _ _ HR1) as (k & Hk & _).
    rewrite Hc2, Hc1, Hk. case_decide; eauto. }
  rewrite (bind_ret_eq _ _ _ _ _ Hr3). rewrite <- Hh3 in Ho1, Hh1. unfold touch_ends, touch_end.
  rewrite (bind_ret_eq _ _ _ _ _ (upd_hive_ok _ _ _ _ Hh1)).
  rewrite (upd_hive_ok _ other _ _ (eq_trans (lookup_insert_ne _ _ _ _ Hne) Ho1)). cbn [hives set_hives].
  eexists. split; [done|].
  assert (forall c, control_ o = Some c -> control_ h <> Some c) as Hdis.
  { intros c E1 E2. rewrite E1 in HR2. rewrite E2 in HR1.
    destruct (stored_at_control _ _ _ _ _ _ _ _ HR1) as (k1 & Hk1 & <-).
    destruct (stored_at_control _ _ _ _ _ _ _ _ HR2) as (k2 & Hk2 & <-). simplify_eq. }
  assert (forall c', is_Some (controls w3 !! c') -> is_Some (controls w !! c')) as Hcs.
  { intros c'. rewrite Hc3, Hc2, Hc1. repeat case_decide; rewrite ?fmap_is_Some; auto. }
  split; [|split; [|split; [|split; [|split; simpl; congruence]]]].
  - eapply hive_rep_stored; [simpl; rewrite lookup_insert_ne by done; apply lookup_insert_eq|]. simpl.
    eapply (stored_at_owner w _ other); [exact HR2|simpl; congruence..|done|].
    intros c k E Hk. simpl. rewrite Hc3, Hc2, Hc1. rewrite decide_False by (simpl; by apply Hdis).
    by rewrite decide_True, Hk by done.
  - eapply hive_rep_stored; [apply lookup_insert_eq|]. simpl.
    eapply (stored_at_owner w _ this); [exact HR1|simpl; congruence..|done|].
    intros c k E Hk. simpl. rewrite Hc3, Hc2, Hc1. rewrite decide_True by done.
    rewrite decide_False by (simpl; intros E'; by apply (Hdis c)). by rewrite Hk.
  - simpl. rewrite lookup_insert_ne by done. by rewrite lookup_insert_eq.
  - simpl. by rewrite lookup_insert_eq.
Qed.
End whole.
