(* ===== verification/HiveProps.v ===== *)
(** * Correctness of the algorithms on hives and of whole hives

    The properties of [sort], [unique], [erase_if], [get_iterator], [swap], the
    constructors and the assignments of class [hive]
    (backport/cpp26/hive.hpp), with witnesses on the concrete hive of
    HiveClear. *)
From stdpp Require Import sorting.
From S2P Require Import Prelude Linked HiveBlock HiveHeap HiveInv HiveStore.
From S2P Require Import HiveStore HiveClear HiveObjects HiveAlgorithms HiveSort HiveFilter.
From S2P Require Import HiveFilter HiveWhole.

#[local] Open Scope Z_scope.

Section properties.
Context {T : Type} `{cfg : Config}.
Implicit Types (l j c this other : loc) (w : world T) (rs av : list loc) (v x : T).
Implicit Types (cs : list (loc * list (segment T))) (F : list (loc * allocation)).

(** C35: [sort] terminates and sorts, for every comparison that is a strict weak
    order: afterwards the elements are a permutation of what they were, none is
    less than one before it, and they occupy the same slots in the same
    iteration order, so no iterator is invalidated. *)
Theorem sort_correct (comp : T -> T -> bool) w this cs rs av F :
  weak_order comp -> hive_rep w this cs rs av F ->
  exists w' cs', hive_sort comp true this w = (Ret tt, w') /\ hive_rep w' this cs' rs av F /\
    (spots cs').*1 = (spots cs).*1 /\ contents cs' ≡ₚ contents cs /\
    StronglySorted (fun x y => comp y x = false) (contents cs').
Proof.
  intros Ho HR. destruct (sort_spec comp w this cs rs av F Ho HR) as (w' & cs' & ? & ? & _ & ? & ? & ?).
  by exists w', cs'.
Qed.

(** C36: [unique] and [erase_if] terminate, return the number of the elements
    they removed, and leave exactly what the reference functions on sequences
    leave: [unique] drops every element equal to the last one kept, [erase_if]
    those that satisfy the predicate; every element that stays keeps its slot. *)
Theorem unique_erase_if_correct (same : T -> T -> bool) (pred : T -> bool) w this cs rs av F :
  hive_rep w this cs rs av F ->
  let n := Z.of_nat (length (contents cs)) in
  (exists w' cs' rs' av', unique same this w = (Ret (n - Z.of_nat (length (contents cs'))), w') /\
     hive_rep w' this cs' rs' av' F /\ spots cs' = unique_list (same_spot same) (spots cs)) /\
  (exists w' cs' rs' av', erase_if pred this w = (Ret (n - Z.of_nat (length (contents cs'))), w') /\
     hive_rep w' this cs' rs' av' F /\ spots cs' = filter (fun p => pred p.2 = false) (spots cs)).
Proof. intros HR n. split; [by eapply unique_spec|by eapply erase_if_spec]. Qed.

(** C37: [get_iterator] of the address of an element returns the iterator to it,
    provided that allocations do not overlap, and [end()] for every address at
    which no element of the hive lives; it terminates, changes nothing and reads
    no slot that was never initialised. *)
Theorem get_iterator_correct (address : loc -> Z) w this cs rs av F h p :
  0 < sizeof_slot -> hive_rep w this cs rs av F -> hives w !! this = Some h -> disjoint_slots address w ->
  exists r, get_iterator address this p w = (Ret r, w) /\
    (forall l i, spot_at address w cs p l i -> r = at_element l i) /\
    ((forall l i, ~ spot_at address w cs p l i) -> r = iterator_at (T := T) this h None).
Proof.
  intros Hs HR Hh Hd. destruct (get_iterator_spec address Hs w this cs rs av F h p HR Hh) as (r & Hr & Hspec).
  exists r. split; [done|]. destruct Hspec as [(l & i & -> & Hsp)|[-> Hno]].
  - split; [|intros Hno; by destruct (Hno l i)]. intros l' i' Hsp'.
    by destruct (spot_at_unique address Hs w this cs rs av F p l i l' i' HR Hd Hsp Hsp') as [-> ->].
  - split; [|done]. intros l i Hsp. by destruct (Hno l i).
Qed.

Lemma construct_correct w this lim a F (xs : list (option T)) :
  hives w !! this = None -> HiveInv.fresh w -> allocs w ≡ₚ F -> 0 <= lim_min lim ->
  match hive_from_input_limits this xs lim a w with
  | (Ret _, w') => is_within_hard_limits lim = true /\
      exists vs, xs = Some <$> vs /\ holds w' this F vs
  | (Raise _, w') => hives w' !! this = None /\ allocs w' ≡ₚ F
  | (Stuck, _) => False
  end.
Proof.
  intros Hn Hf HF Hl. pose proof (construct_spec w this lim a F xs Hn Hf HF Hl) as H.
  destruct (hive_from_input_limits this xs lim a w) as [[[]|e|] w']; simpl in H; [done|naive_solver|done].
Qed.

Lemma assign_correct w this F h vs (xs : list (option T)) :
  holds w this F vs -> hives w !! this = Some h ->
  match assign this xs w with
  | (Ret _, w') => exists us h', xs = Some <$> us /\ holds w' this F us /\
      hives w' !! this = Some h' /\ end_epoch_ h' = end_epoch_ h
  | (Raise _, w') => exists us rest h', xs = (Some <$> us) ++ rest /\ holds w' this F us /\
      hives w' !! this = Some h' /\ end_epoch_ h' = end_epoch_ h
  | (Stuck, _) => False
  end.
Proof.
  intros H Hh. pose proof (assign_spec' w this F h vs xs H Hh) as HA. unfold assign.
  destruct (assign_input this xs w) as [[[]|e|] w']; simpl in HA; [done|naive_solver|done].
Qed.

(** C38: a constructor from a sequence either constructs a well-formed hive that
    holds exactly the sequence, or throws and leaves no trace: the object does
    not exist, every allocation it made was given back, and limits that are not
    within the hard ones are always rejected.  [assign] replaces the elements:
    when it returns, the hive holds the sequence; when it throws, the hive is
    well formed and holds the part of the sequence before the failure; either way
    the epoch of the end iterators is the one it was.  [swap] of two hives
    exchanges what they hold: each is well formed with the elements, the blocks
    and the limits of the other one, no element moves and nothing is allocated;
    only the end iterators of both change. *)
Theorem construct_assign_swap_correct w this F (xs : list (option T)) :
  (forall lim a, hives w !! this = None -> HiveInv.fresh w -> allocs w ≡ₚ F -> 0 <= lim_min lim ->
      match hive_from_input_limits this xs lim a w with
      | (Ret _, w') => is_within_hard_limits lim = true /\
          exists vs, xs = Some <$> vs /\ holds w' this F vs
      | (Raise _, w') => hives w' !! this = None /\ allocs w' ≡ₚ F
      | (Stuck, _) => False
      end) /\
  (forall h vs, holds w this F vs -> hives w !! this = Some h ->
      match assign this xs w with
      | (Ret _, w') => exists us h', xs = Some <$> us /\ holds w' this F us /\
          hives w' !! this = Some h' /\ end_epoch_ h' = end_epoch_ h
      | (Raise _, w') => exists us rest h', xs = (Some <$> us) ++ rest /\ holds w' this F us /\
          hives w' !! this = Some h' /\ end_epoch_ h' = end_epoch_ h
      | (Stuck, _) => False
      end) /\
  (forall other h o cs1 rs1 av1 F1 cs2 rs2 av2 F2,
      this <> other -> hives w !! this = Some h -> hives w !! other = Some o ->
      hive_rep w this cs1 rs1 av1 F1 -> hive_rep w other cs2 rs2 av2 F2 ->
      exists w', swap this other w = (Ret tt, w') /\
        hive_rep w' this cs2 rs2 av2 F2 /\ hive_rep w' other cs1 rs1 av1 F1 /\
        hives w' !! this = Some (swapped h o) /\ hives w' !! other = Some (swapped o h) /\
        blocks w' = blocks w /\ ledger w' = ledger w).
Proof.
  split; [|split]; intros; [by apply construct_correct|by eapply assign_correct|by apply swap_spec].
Qed.
End properties.

(** ** The properties on concrete hives *)

Abbreviation object0 := (HiveObject 0 (HiveLimits 2 4) (Some 1) 7).

Lemma ltb_order : weak_order (fun x y : nat => (y <? x)%nat).
Proof. split; [intros x y ?%Nat.ltb_lt; apply Nat.ltb_ge; lia|]. intros x y z ?%Nat.ltb_ge ?%Nat.ltb_ge. apply Nat.ltb_ge. lia. Qed.

Lemma sort_correct_witness :
  exists w' cs', hive_sort (fun x y : nat => (y <? x)%nat) true 0 demo_world = (Ret tt, w') /\
    hive_rep w' 0 cs' [] [2; 8] [] /\ (spots cs').*1 = (spots demo_blocks).*1 /\
    contents cs' ≡ₚ [20; 30; 40; 50; 70]%nat /\
    StronglySorted (fun x y => (x <? y)%nat = false) (contents cs').
Proof. exact (sort_correct _ demo_world 0 demo_blocks [] [2; 8] [] ltb_order demo_rep_ok). Defined.

Lemma unique_erase_if_correct_witness :
  let same := fun x y => (x / 20 =? y / 20)%nat in
  let pred := fun x => (x <? 40)%nat in
  (exists w' cs' rs' av', unique same 0 demo_world = (Ret (5 - Z.of_nat (length (contents cs'))), w') /\
     hive_rep w' 0 cs' rs' av' [] /\ spots cs' = [(2, 1, 20%nat); (5, 1, 40%nat); (8, 2, 70%nat)]) /\
  (exists w' cs' rs' av', erase_if pred 0 demo_world = (Ret (5 - Z.of_nat (length (contents cs'))), w') /\
     hive_rep w' 0 cs' rs' av' [] /\ spots cs' = [(5, 1, 40%nat); (8, 0, 50%nat); (8, 2, 70%nat)]).
Proof. exact (unique_erase_if_correct _ _ demo_world 0 demo_blocks [] [2; 8] [] demo_rep_ok). Defined.

Lemma demo_disjoint : disjoint_slots (fun l => 1000 * l) demo_world.
Proof.
  intros a b n m Ha Hb Hab. apply elem_of_map_to_list in Ha, Hb. vm_compute in Ha, Hb.
  change (list_elem_of ?x ?l) with (x ∈ l) in Ha, Hb.
  rewrite !elem_of_cons in Ha, Hb. change sizeof_slot with 16.
  repeat match type of Ha with _ \/ _ => destruct Ha as [Ha|Ha] end; simplify_eq;
    try (by apply not_elem_of_nil in Ha);
  repeat match type of Hb with _ \/ _ => destruct Hb as [Hb|Hb] end; simplify_eq;
    try (by apply not_elem_of_nil in Hb); lia.
Qed.

Lemma get_iterator_correct_witness :
  exists r, get_iterator (fun l => 1000 * l) 0 6016 demo_world = (Ret r, demo_world) /\
    (forall l i, spot_at (fun l => 1000 * l) demo_world demo_blocks 6016 l i -> r = at_element l i) /\
    ((forall l i, ~ spot_at (fun l => 1000 * l) demo_world demo_blocks 6016 l i) ->
       r = iterator_at (T := nat) 0 object0 None).
Proof.
  apply (get_iterator_correct (fun l => 1000 * l) demo_world 0 demo_blocks [] [2; 8] [] object0 6016);
    [vm_compute; reflexivity|exact demo_rep_ok|exact demo_hive|exact demo_disjoint].
Defined.

(** Next to the concrete hive, a second one that is empty. *)
Definition demo_object2 : hive_object := HiveObject 0 (HiveLimits 3 9) None 4.
Definition demo_pair : world nat := set_hives (<[20 := demo_object2]> (hives demo_world)) demo_world.

Lemma demo_pair_first : hive_rep demo_pair 0 demo_blocks [] [2; 8] [].
Proof.
  destruct demo_rep_ok as (h & Hh & Hl & Hc). exists h. split; [exact Hh|]. split; [exact Hl|].
  destruct (control_ h); [destruct Hc as [k S]; exists k; by apply store_rep_hives|exact Hc].
Qed.

Lemma demo_pair_second : hive_rep demo_pair 20 [] [] [] (allocs demo_pair).
Proof.
  exists demo_object2. split; [vm_compute; reflexivity|]. split; [split; [vm_compute; reflexivity|simpl; lia]|].
  do 3 (split; [done|]). split; [exact demo_fresh|done].
Qed.

Lemma construct_assign_swap_correct_witness :
  (match hive_from_input_limits 20 (Some <$> [1; 2; 3]%nat) (HiveLimits 2 4) 0 demo_world with
  | (Ret _, w') => is_within_hard_limits (HiveLimits 2 4) = true /\
      exists vs, Some <$> [1; 2; 3]%nat = Some <$> vs /\ holds w' 20 (allocs demo_world) vs
  | (Raise _, w') => hives w' !! 20 = None /\ allocs w' ≡ₚ allocs demo_world
  | (Stuck, _) => False
  end) /\
  (match assign 0 [Some 1%nat; None; Some 3%nat] demo_world with
  | (Ret _, w') => exists us h', [Some 1%nat; None; Some 3%nat] = Some <$> us /\ holds w' 0 [] us /\
      hives w' !! 0 = Some h' /\ end_epoch_ h' = 7
  | (Raise _, w') => exists us rest h', [Some 1%nat; None; Some 3%nat] = (Some <$> us) ++ rest /\
      holds w' 0 [] us /\ hives w' !! 0 = Some h' /\ end_epoch_ h' = 7
  | (Stuck, _) => False
  end) /\
  exists w', swap 0 20 demo_pair = (Ret tt, w') /\
    hive_rep w' 0 [] [] [] (allocs demo_pair) /\ hive_rep w' 20 demo_blocks [] [2; 8] [] /\
    hives w' !! 0 = Some (swapped object0 demo_object2) /\
    hives w' !! 20 = Some (swapped demo_object2 object0) /\
    blocks w' = blocks demo_world /\ ledger w' = ledger demo_world.
Proof.
  split; [|split].
  - apply (proj1 (construct_assign_swap_correct demo_world 20 (allocs demo_world) _) (HiveLimits 2 4) 0);
      [vm_compute; reflexivity|exact demo_fresh|reflexivity|simpl; lia].
  - apply (proj1 (proj2 (construct_assign_swap_correct demo_world 0 [] _)) object0 (contents demo_blocks));
      [exists demo_blocks, [], [2; 8]; split; [exact demo_rep_ok|reflexivity]|exact demo_hive].
  - apply (proj2 (proj2 (construct_assign_swap_correct demo_pair 0 [] [])) 20 object0 demo_object2);
      [lia|vm_compute; reflexivity|vm_compute; reflexivity|exact demo_pair_first|exact demo_pair_second].
Defined.
