(* ===== verification/RecordQueue.v ===== *)
(** * Intrusive queues of operation records

    Models [__record_queue] (include/forge/channel.hpp): records linked through
    their [next] member, with a head and a tail pointer.  The [next] members
    are a map from records to pointers; following a pointer to a record that is
    not there is [None].  A pointer that was moved from is null.

    [queue_rep] relates a queue to the list of its records; every operation is
    proved to act on that list as its name says. *)
From S2P Require Import Prelude Linked.

Abbreviation record_id := Z.

Record record_queue := RecordQueue { q_head : option record_id; q_tail : option record_id }.

(** The [next] member of every record. *)
Abbreviation links := (gmap record_id (option record_id)).
Implicit Types (q : record_queue) (nx : links) (r : record_id) (ks : list record_id).

Definition empty_queue : record_queue := RecordQueue None None.

Definition is_empty q : bool := match q_head q with None => true | Some _ => false end.

(** [r->next = n]. *)
Definition set_next nx r (n : option record_id) : option links :=
  match nx !! r with Some _ => Some (<[r := n]> nx) | None => None end.

Definition push_back q nx r : option (record_queue * links) :=
  nx1 ← set_next nx r None;
  match q_tail q with
  | Some t => nx2 ← set_next nx1 t (Some r); Some (RecordQueue (q_head q) (Some r), nx2)
  | None => Some (RecordQueue (Some r) (Some r), nx1)
  end.

Definition pop_front q nx : option (record_queue * links * option record_id) :=
  match q_head q with
  | None => Some (RecordQueue None (q_tail q), nx, None)
  | Some r =>
      n ← nx !! r;
      nx1 ← set_next nx r None;
      Some (RecordQueue n (match n with None => None | Some _ => q_tail q end), nx1, Some r)
  end.

(** The loop of [remove]: [cur] is [*link], [previous] the record that holds the
    link, null for the head.  The result is the final [previous], or [None]
    inside when the record is not in the queue; the fuel bounds the length. *)
Fixpoint find_link (fuel : nat) nx (previous cur : option record_id) r : option (option (option record_id)) :=
  match cur with
  | None => Some None
  | Some k =>
      if decide (k = r) then Some (Some previous) else
      match fuel with
      | O => None
      | S fuel' => n ← nx !! k; find_link fuel' nx (Some k) n r
      end
  end.

Definition remove q nx r : option (record_queue * links * option record_id) :=
  found ← find_link (size nx) nx None (q_head q) r;
  match found with
  | None => Some (q, nx, None)
  | Some previous =>
      n ← nx !! r;
      nx1 ← set_next nx r None;
      let tail := match n with None => previous | Some _ => q_tail q end in
      match previous with
      | None => Some (RecordQueue n tail, nx1, Some r)
      | Some p => nx2 ← set_next nx1 p n; Some (RecordQueue (q_head q) tail, nx2, Some r)
      end
  end.

(** The queue is emptied; the result is the head of the chain. *)
Definition take_all q : record_queue * option record_id := (RecordQueue None None, q_head q).

(** The loops of [close] and [request_stop] over such a chain: the records in
    order, each cut off its successor. *)
Fixpoint unchain (fuel : nat) nx (p : option record_id) : option (list record_id * links) :=
  match p with
  | None => Some ([], nx)
  | Some r =>
      match fuel with
      | O => None
      | S fuel' =>
          n ← nx !! r;
          nx1 ← set_next nx r None;
          '(rs, nx2) ← unchain fuel' nx1 n;
          Some (r :: rs, nx2)
      end
  end.

(** ** Representation *)

(** The queue holds the records [ks], in this order. *)
Record queue_rep nx q ks : Prop := QueueRep {
  qr_head : q_head q = head ks;
  qr_tail : q_tail q = last ks;
  qr_links : sseg Some (fun j => nx !! j) ks None;
  qr_nodup : NoDup ks;
}.

(** Records outside [ks] keep their links. *)
Definition links_kept nx nx' ks : Prop := forall j, j ∉ ks -> nx' !! j = nx !! j.

(** The same records exist. *)
Definition same_records nx nx' : Prop := forall j, is_Some (nx' !! j) <-> is_Some (nx !! j).

Lemma set_next_ok nx r n :
  is_Some (nx !! r) -> set_next nx r n = Some (<[r := n]> nx).
Proof. unfold set_next. by intros [? ->]. Qed.

Lemma same_records_insert nx r n : is_Some (nx !! r) -> same_records nx (<[r := n]> nx).
Proof.
  intros H j. rewrite lookup_insert. case_decide; [subst|done]. split; [done|eauto].
Qed.

Lemma same_records_trans nx1 nx2 nx3 :
  same_records nx1 nx2 -> same_records nx2 nx3 -> same_records nx1 nx3.
Proof. intros H1 H2 j. etrans; [apply H2|apply H1]. Qed.

Lemma queue_rep_in nx q ks r : queue_rep nx q ks -> r ∈ ks -> is_Some (nx !! r).
Proof.
  intros R (k1 & k2 & ->)%list_elem_of_split. pose proof (qr_links _ _ _ R) as H.
  apply sseg_app in H as [_ [H _]]. eauto.
Qed.

(** Only the links of the queue's own records matter. *)
Lemma queue_rep_ext nx nx' q ks :
  queue_rep nx q ks -> (forall j, j ∈ ks -> nx' !! j = nx !! j) -> queue_rep nx' q ks.
Proof.
  intros [H1 H2 H3 H4] He. split; try done. eapply sseg_ext; [|exact H3]. intros; by apply He.
Qed.

Lemma empty_rep nx : queue_rep nx empty_queue [].
Proof. split; try done. constructor. Qed.

Lemma is_empty_iff nx q ks : queue_rep nx q ks -> is_empty q = bool_decide (ks = []).
Proof. intros [H _ _ _]. unfold is_empty. rewrite H. by destruct ks. Qed.

Lemma push_back_ok nx q ks r :
  queue_rep nx q ks -> r ∉ ks -> is_Some (nx !! r) ->
  exists q' nx', push_back q nx r = Some (q', nx') /\ queue_rep nx' q' (ks ++ [r]) /\
    same_records nx nx' /\ links_kept nx nx' (ks ++ [r]).
Proof.
  intros R Hr Hs. pose proof R as [Hh Ht Hl Hn]. unfold push_back. rewrite set_next_ok by done. simpl.
  pose proof (same_records_insert nx r None Hs) as Hsr. rewrite Ht.
  destruct ks as [|t ks _] using rev_ind.
  - simpl. eexists _, _. split; [done|]. split; [|split; [done|]].
    + split; [done|done| |apply NoDup_singleton]. split; [apply lookup_insert_eq|done].
    + intros j Hj. simpl in Hj. apply not_elem_of_cons in Hj as [Hj _]. by rewrite lookup_insert_ne.
  - rewrite last_snoc. assert (t <> r) by (intros ->; apply Hr, elem_of_app; right; apply list_elem_of_here).
    assert (is_Some (nx !! t)) as Ht'.
    { eapply queue_rep_in; [exact R|]. apply elem_of_app. right. apply list_elem_of_here. }
    rewrite set_next_ok by (by rewrite lookup_insert_ne). simpl.
    eexists _, _. split; [done|]. split; [|split].
    + apply sseg_app in Hl as [Hl _]. rewrite elem_of_app in Hr.
      apply NoDup_app in Hn as (Hn1 & Hn2 & _).
      split.
      * rewrite Hh. by destruct ks.
      * by rewrite last_snoc.
      * rewrite <- app_assoc. apply sseg_app. split; [|split; [|split; [|done]]].
        -- eapply sseg_ext; [|exact Hl]. intros j Hj. rewrite !lookup_insert_ne; [done|naive_solver|].
           intros ->. by eapply Hn2; [|apply list_elem_of_here].
        -- apply lookup_insert_eq.
        -- rewrite lookup_insert_ne by done. apply lookup_insert_eq.
      * apply NoDup_app. split; [by apply NoDup_app; split; [|split; [|apply NoDup_singleton]]|].
        split; [|apply NoDup_singleton]. intros j Hj ->%list_elem_of_singleton. apply Hr.
        by rewrite elem_of_app in Hj.
    + eapply same_records_trans; [exact Hsr|]. apply same_records_insert. by rewrite lookup_insert_ne.
    + intros j Hj. rewrite !elem_of_app, !list_elem_of_singleton in Hj.
      rewrite !lookup_insert_ne by naive_solver. done.
Qed.

Lemma pop_front_ok nx q r ks :
  queue_rep nx q (r :: ks) ->
  exists q' nx', pop_front q nx = Some (q', nx', Some r) /\ queue_rep nx' q' ks /\
    same_records nx nx' /\ links_kept nx nx' [r].
Proof.
  intros [Hh Ht [Hl1 Hl2] Hn]. apply NoDup_cons in Hn as [Hr Hn]. unfold pop_front. rewrite Hh. simpl.
  rewrite Hl1. simpl. rewrite set_next_ok by eauto. simpl. rewrite hd_or_Some.
  eexists _, _. split; [done|]. split; [|split].
  - split; simpl; [done| |eapply sseg_ext; [|exact Hl2]|done].
    + rewrite Ht. by destruct ks.
    + intros j Hj. rewrite lookup_insert_ne; [done|by intros ->].
  - apply same_records_insert. eauto.
  - intros j [Hj _]%not_elem_of_cons. by rewrite lookup_insert_ne.
Qed.

Lemma pop_front_empty nx q : queue_rep nx q [] -> pop_front q nx = Some (q, nx, None).
Proof. intros [Hh _ _ _]. unfold pop_front. rewrite Hh. simpl. simpl in Hh. by destruct q; simpl in *; subst. Qed.

Lemma find_link_absent fuel nx k1 ks r :
  sseg Some (fun j => nx !! j) ks None -> r ∉ ks -> (length ks <= fuel) ->
  find_link fuel nx k1 (head ks) r = Some None.
Proof.
  revert k1 ks. induction fuel as [|fuel IH]; intros k1 [|k ks] Hl Hr Hf; simpl in *; try done; [lia|].
  apply not_elem_of_cons in Hr as [Hrk Hr]. destruct Hl as [Hk Hl]. rewrite decide_False by done.
  rewrite Hk, hd_or_Some. simpl. apply IH; [done|done|lia].
Qed.

Lemma find_link_found fuel nx ks1 p r ks2 :
  sseg Some (fun j => nx !! j) (ks1 ++ r :: ks2) None -> r ∉ ks1 -> (length ks1 <= fuel) ->
  find_link fuel nx p (head (ks1 ++ r :: ks2)) r =
    Some (Some (match last ks1 with None => p | Some x => Some x end)).
Proof.
  revert p ks1. induction fuel as [|fuel IH]; intros p [|k ks] Hl Hr Hf; simpl in *;
    try (by rewrite decide_True); [lia|].
  apply not_elem_of_cons in Hr as [Hrk Hr]. destruct Hl as [Hk Hl]. rewrite decide_False by done.
  rewrite Hk, hd_or_Some. simpl. rewrite (IH (Some k) ks Hl Hr ltac:(lia)).
  destruct ks as [|k2 ks]; [done|]. change (last (k :: k2 :: ks)) with (last (k2 :: ks)).
  destruct (last (k2 :: ks)) eqn:E; [done|]. by apply last_None in E.
Qed.

Lemma queue_rep_size nx q ks : queue_rep nx q ks -> length ks <= size nx.
Proof. intros R. apply nodup_size; [apply R|]. intros j. by eapply queue_rep_in. Qed.

Lemma remove_absent nx q ks r :
  queue_rep nx q ks -> r ∉ ks -> remove q nx r = Some (q, nx, None).
Proof.
  intros R Hr. unfold remove. rewrite (qr_head _ _ _ R).
  rewrite (find_link_absent _ _ _ _ _ (qr_links _ _ _ R) Hr (queue_rep_size _ _ _ R)). done.
Qed.

Lemma remove_ok nx q ks1 r ks2 :
  queue_rep nx q (ks1 ++ r :: ks2) ->
  exists q' nx', remove q nx r = Some (q', nx', Some r) /\ queue_rep nx' q' (ks1 ++ ks2) /\
    same_records nx nx' /\ links_kept nx nx' (ks1 ++ [r]).
Proof.
  intros R. pose proof (queue_rep_size _ _ _ R) as Hsz. rewrite length_app in Hsz.
  pose proof (fun j => queue_rep_in _ _ _ j R) as Hin. destruct R as [Hh Ht Hl Hn].
  pose proof Hn as Hn'. rewrite <- Permutation_middle in Hn'. apply NoDup_cons in Hn' as [Hr Hn'].
  rewrite elem_of_app in Hr.
  unfold remove. rewrite Hh, find_link_found by (done || (auto; simpl in *; lia) || naive_solver).
  apply sseg_app in Hl as [Hl1 [Hl2 Hl3]]. rewrite hd_or_Some in Hl2. simpl. rewrite Hl2. simpl.
  rewrite set_next_ok by eauto. simpl.
  pose proof (same_records_insert nx r None (mk_is_Some _ _ Hl2)) as Hsr.
  assert (last (ks1 ++ ks2) = match head ks2 with None => last ks1 | Some _ => q_tail q end) as Htl.
  { destruct ks2 as [|k2 ks2]; [by rewrite app_nil_r|]. simpl.
    rewrite Ht. by rewrite !last_app_cons. }
  destruct ks1 as [|p ks1 _] using rev_ind.
  - simpl. eexists _, _. split; [done|]. split; [|split; [done|]].
    + split; [done|done| |done]. eapply sseg_ext; [|exact Hl3]. intros j Hj.
      rewrite lookup_insert_ne; [done|]. intros ->. naive_solver.
    + intros j [Hj _]%not_elem_of_cons. by rewrite lookup_insert_ne.
  - rewrite last_snoc in *. assert (p <> r).
    { intros ->. apply Hr. left. apply elem_of_app. right. apply list_elem_of_here. }
    assert (is_Some (nx !! p)) as Hp.
    { apply Hin. rewrite <- app_assoc. apply elem_of_app. right. apply list_elem_of_here. }
    rewrite set_next_ok by (by rewrite lookup_insert_ne). simpl.
    eexists _, _. split; [done|]. split; [|split].
    + split; [by destruct ks1|done| |done].
      apply sseg_app in Hl1 as [Hl1 _]. rewrite <- app_assoc in Hn'.
      apply NoDup_app in Hn' as (Hn1 & Hn2 & Hn3). apply NoDup_cons in Hn3 as [Hp3 Hn3].
      rewrite !elem_of_app in Hr. rewrite <- app_assoc. apply sseg_app. split; [|split].
      * eapply sseg_ext; [|exact Hl1]. intros j Hj. rewrite !lookup_insert_ne; [done|naive_solver|].
        intros ->. by eapply Hn2; [|apply list_elem_of_here].
      * rewrite lookup_insert_eq. by rewrite hd_or_Some.
      * eapply sseg_ext; [|exact Hl3]. intros j Hj. rewrite !lookup_insert_ne; [done|naive_solver|].
        by intros ->.
    + eapply same_records_trans; [exact Hsr|]. apply same_records_insert. by rewrite lookup_insert_ne.
    + intros j Hj. rewrite !elem_of_app, !list_elem_of_singleton in Hj.
      rewrite !lookup_insert_ne by naive_solver. done.
Qed.

Lemma unchain_ok ks : forall fuel nx,
  sseg Some (fun j => nx !! j) ks None -> NoDup ks -> length ks <= fuel ->
  exists nx', unchain fuel nx (head ks) = Some (ks, nx') /\
    same_records nx nx' /\ links_kept nx nx' ks.
Proof.
  induction ks as [|r ks IH]; intros fuel nx Hl Hn Hf.
  - exists nx. by destruct fuel.
  - destruct fuel as [|fuel]; simpl in Hf; [lia|]. destruct Hl as [Hr Hl].
    apply NoDup_cons in Hn as [Hni Hn]. simpl. rewrite Hr. simpl. rewrite set_next_ok by eauto. simpl.
    rewrite hd_or_Some. destruct (IH fuel (<[r:=None]> nx)) as (nx' & Hun & Hs & Hk); [|done|lia|].
    { eapply sseg_ext; [|exact Hl]. intros j Hj. rewrite lookup_insert_ne; [done|by intros ->]. }
    rewrite Hun. simpl. exists nx'. split; [done|]. split.
    + eapply same_records_trans; [|exact Hs]. apply same_records_insert. eauto.
    + intros j [Hjr Hj]%not_elem_of_cons. rewrite Hk by done. by rewrite lookup_insert_ne.
Qed.

Lemma take_all_ok nx q ks :
  queue_rep nx q ks -> take_all q = (empty_queue, head ks).
Proof. intros [Hh _ _ _]. unfold take_all. by rewrite Hh. Qed.
