(* ===== verification/Channel.v ===== *)
(** * The bounded channel

    Models [__state], the send and receive records and the operations of
    [bounded_channel] (include/forge/channel.hpp).  The part of an operation
    that runs under the channel's mutex is one function of the channel state;
    the completions it leaves to be run after unlocking are returned as a list.
    Records are named by identifiers, a class of its own for sends and for
    receives. *)
From S2P Require Import Prelude Linked RecordQueue.

#[local] Open Scope prog_scope.

Section channel.
Context {T : Type}.
Implicit Types (v : T) (s r : record_id).

(** ** Data *)

(** [__send_record]: [std::optional<T> value], whose content is [None] once it
    was moved from, and the two atomic flags. *)
Record send_record := SendRecord {
  s_value : option (option T);
  s_stop_requested : bool;
  s_done : bool;
}.

(** [__recv_record]. *)
Record recv_record := RecvRecord {
  r_value : option T;
  r_stop_requested : bool;
  r_done : bool;
}.

(** [__state], with the records it refers to. *)
Record channel := Channel {
  capacity : nat;
  closed : bool;
  stopped : bool;
  buffer : list T;
  pending_sends : record_queue;
  pending_recvs : record_queue;
  send_next : links;
  recv_next : links;
  sends : gmap record_id send_record;
  recvs : gmap record_id recv_record;
}.
Implicit Types (c : channel).

(** What a completion will call once the lock is released. *)
Inductive completion :=
  | RecvValue r | SendValue s | SendError s | RecvStopped r | SendStopped s.

(** [__actions]. *)
Record actions := Actions {
  recv_value : option record_id;
  send_value : option record_id;
  send_error : option record_id;
  recv_stopped : option record_id;
  send_stopped : option record_id;
}.

Definition no_actions : actions := Actions None None None None None.

(** [__actions::run]: the order in which it completes the records. *)
Definition run (a : actions) : list completion :=
  option_list (RecvValue <$> recv_value a) ++ option_list (SendValue <$> send_value a) ++
  option_list (SendError <$> send_error a) ++ option_list (RecvStopped <$> recv_stopped a) ++
  option_list (SendStopped <$> send_stopped a).

(** What the receiver of a record observes. *)
Inductive signal :=
  | SendSetValue s | SendSetError s | SendSetStopped s | RecvSetValue r v | RecvSetStopped r.

(** ** Member access *)

Definition with_closed x c := Channel (capacity c) x (stopped c) (buffer c) (pending_sends c)
  (pending_recvs c) (send_next c) (recv_next c) (sends c) (recvs c).
Definition with_stopped x c := Channel (capacity c) (closed c) x (buffer c) (pending_sends c)
  (pending_recvs c) (send_next c) (recv_next c) (sends c) (recvs c).
Definition with_buffer x c := Channel (capacity c) (closed c) (stopped c) x (pending_sends c)
  (pending_recvs c) (send_next c) (recv_next c) (sends c) (recvs c).
Definition with_pending_sends q nx c := Channel (capacity c) (closed c) (stopped c) (buffer c) q
  (pending_recvs c) nx (recv_next c) (sends c) (recvs c).
Definition with_pending_recvs q nx c := Channel (capacity c) (closed c) (stopped c) (buffer c)
  (pending_sends c) q (send_next c) nx (sends c) (recvs c).
Definition with_sends x c := Channel (capacity c) (closed c) (stopped c) (buffer c) (pending_sends c)
  (pending_recvs c) (send_next c) (recv_next c) x (recvs c).
Definition with_recvs x c := Channel (capacity c) (closed c) (stopped c) (buffer c) (pending_sends c)
  (pending_recvs c) (send_next c) (recv_next c) (sends c) x.

Definition get_send s : prog channel send_record := fun c =>
  match sends c !! s with Some x => Some (x, c) | None => None end.
Definition get_recv r : prog channel recv_record := fun c =>
  match recvs c !! r with Some x => Some (x, c) | None => None end.
Definition put_send s x : prog channel unit := modify (fun c => with_sends (<[s := x]> (sends c)) c).
Definition put_recv r x : prog channel unit := modify (fun c => with_recvs (<[r := x]> (recvs c)) c).

(** The queue operations on the two queues of the channel. *)
Definition sends_push s : prog channel unit := fun c =>
  ('(q, nx) ← push_back (pending_sends c) (send_next c) s; Some (tt, with_pending_sends q nx c))%stdpp.
Definition recvs_push r : prog channel unit := fun c =>
  ('(q, nx) ← push_back (pending_recvs c) (recv_next c) r; Some (tt, with_pending_recvs q nx c))%stdpp.
Definition sends_pop : prog channel (option record_id) := fun c =>
  ('(q, nx, o) ← pop_front (pending_sends c) (send_next c); Some (o, with_pending_sends q nx c))%stdpp.
Definition recvs_pop : prog channel (option record_id) := fun c =>
  ('(q, nx, o) ← pop_front (pending_recvs c) (recv_next c); Some (o, with_pending_recvs q nx c))%stdpp.
Definition sends_remove s : prog channel (option record_id) := fun c =>
  ('(q, nx, o) ← remove (pending_sends c) (send_next c) s; Some (o, with_pending_sends q nx c))%stdpp.
Definition recvs_remove r : prog channel (option record_id) := fun c =>
  ('(q, nx, o) ← remove (pending_recvs c) (recv_next c) r; Some (o, with_pending_recvs q nx c))%stdpp.
Definition sends_take : prog channel (list record_id) := fun c =>
  let '(q, p) := take_all (pending_sends c) in
  ('(l, nx) ← unchain (size (send_next c)) (send_next c) p; Some (l, with_pending_sends q nx c))%stdpp.
Definition recvs_take : prog channel (list record_id) := fun c =>
  let '(q, p) := take_all (pending_recvs c) in
  ('(l, nx) ← unchain (size (recv_next c)) (recv_next c) p; Some (l, with_pending_recvs q nx c))%stdpp.

(** ** Records *)

(** [take_value]: moves the value out; taking it twice is an error. *)
Definition take_value s : prog channel T :=
  x ← get_send s;
  match s_value x with
  | Some (Some v) => put_send s (SendRecord (Some None) (s_stop_requested x) (s_done x)) ;; give v
  | _ => undefined
  end.

Definition prepare_value r v : prog channel unit :=
  x ← get_recv r; put_recv r (RecvRecord (Some v) (r_stop_requested x) (r_done x)).

(** The store of a stop callback. *)
Definition flag_send s : prog channel unit :=
  x ← get_send s; put_send s (SendRecord (s_value x) true (s_done x)).
Definition flag_recv r : prog channel unit :=
  x ← get_recv r; put_recv r (RecvRecord (r_value x) true (r_done x)).

(** [complete_value], [complete_error] and [complete_stopped] of the records:
    the first one wins, the others do nothing. *)
Definition finish_send s (o : signal) : prog channel (option signal) :=
  x ← get_send s;
  if s_done x then give None else
  put_send s (SendRecord None (s_stop_requested x) true) ;; give (Some o).

Definition complete (a : completion) : prog channel (option signal) :=
  match a with
  | SendValue s => finish_send s (SendSetValue s)
  | SendError s => finish_send s (SendSetError s)
  | SendStopped s => finish_send s (SendSetStopped s)
  | RecvValue r =>
      x ← get_recv r;
      if r_done x then give None else
      match r_value x with
      | Some v =>
          put_recv r (RecvRecord (r_value x) (r_stop_requested x) true) ;;
          give (Some (RecvSetValue r v))
      | None => undefined
      end
  | RecvStopped r =>
      x ← get_recv r;
      if r_done x then give None else
      put_recv r (RecvRecord (r_value x) (r_stop_requested x) true) ;;
      give (Some (RecvSetStopped r))
  end.

(** ** Operations under the mutex *)

Definition has_space c : bool := length (buffer c) <? capacity c.

(** [promote_one_send_locked]; [alloc]: the buffer's node allocation succeeds. *)
Definition promote_one_send_locked (alloc : bool) (a : actions) : prog channel actions :=
  q ← read pending_sends;
  if is_empty q then give a else
  space ← read has_space;
  if space then
    o ← sends_pop; s ← defined o;
    v ← take_value s;
    if alloc then
      modify (fun c => with_buffer (buffer c ++ [v]) c) ;;
      give (Actions (recv_value a) (Some s) (send_error a) (recv_stopped a) (send_stopped a))
    else
      give (Actions (recv_value a) (send_value a) (Some s) (recv_stopped a) (send_stopped a))
  else give a.

(** [start_send]; [late]: the record's stop callback stores its flag between the
    first check of the flag and the second one.  The result says whether the
    operation is pending. *)
Definition start_send s (late alloc : bool) : prog channel (bool * actions) :=
  c ← read id;
  if stopped c || closed c then give (false, Actions None None None None (Some s)) else
  x ← get_send s;
  if s_stop_requested x then give (false, Actions None None None None (Some s)) else
  if negb (is_empty (pending_recvs c)) then
    o ← recvs_pop; r ← defined o;
    v ← take_value s;
    prepare_value r v ;;
    give (false, Actions (Some r) (Some s) None None None)
  else if is_empty (pending_sends c) && has_space c then
    v ← take_value s;
    if alloc then
      modify (fun c => with_buffer (buffer c ++ [v]) c) ;;
      give (false, Actions None (Some s) None None None)
    else give (false, Actions None None (Some s) None None)
  else
    sends_push s ;;
    (if late then flag_send s else give tt) ;;
    x ← get_send s;
    if negb (s_stop_requested x) then give (true, no_actions) else
    o ← sends_remove s;
    give (false, Actions None None None None o).

(** [start_recv]. *)
Definition start_recv r (late alloc : bool) : prog channel (bool * actions) :=
  c ← read id;
  match buffer c with
  | v :: rest =>
      prepare_value r v ;;
      modify (with_buffer rest) ;;
      a ← promote_one_send_locked alloc (Actions (Some r) None None None None);
      give (false, a)
  | [] =>
      if negb (is_empty (pending_sends c)) then
        o ← sends_pop; s ← defined o;
        v ← take_value s;
        prepare_value r v ;;
        give (false, Actions (Some r) (Some s) None None None)
      else if stopped c || closed c then give (false, Actions None None None (Some r) None) else
      x ← get_recv r;
      if r_stop_requested x then give (false, Actions None None None (Some r) None) else
      recvs_push r ;;
      (if late then flag_recv r else give tt) ;;
      x ← get_recv r;
      if negb (r_stop_requested x) then give (true, no_actions) else
      o ← recvs_remove r;
      give (false, Actions None None None o None)
  end.

(** How [try_send] ends: by returning, or with the exception of the buffer's
    allocation, before anything changed. *)
Inductive try_result := Accepted | Rejected | Threw.

Definition try_send v (alloc : bool) : prog channel (try_result * actions) :=
  c ← read id;
  if stopped c || closed c then give (Rejected, no_actions) else
  if negb (is_empty (pending_recvs c)) then
    o ← recvs_pop; r ← defined o;
    prepare_value r v ;;
    give (Accepted, Actions (Some r) None None None None)
  else if is_empty (pending_sends c) && has_space c then
    if alloc then
      modify (fun c => with_buffer (buffer c ++ [v]) c) ;;
      give (Accepted, no_actions)
    else give (Threw, no_actions)
  else give (Rejected, no_actions).

Definition try_recv (alloc : bool) : prog channel (option T * actions) :=
  c ← read id;
  match buffer c with
  | v :: rest =>
      modify (with_buffer rest) ;;
      a ← promote_one_send_locked alloc no_actions;
      give (Some v, a)
  | [] =>
      if negb (is_empty (pending_sends c)) then
        o ← sends_pop; s ← defined o;
        v ← take_value s;
        give (Some v, Actions None (Some s) None None None)
      else give (None, no_actions)
  end.

(** The completion [close] chooses for a receiver it took. *)
Definition close_recv r : prog channel completion :=
  x ← get_recv r;
  give (match r_value x with Some _ => RecvValue r | None => RecvStopped r end).

Fixpoint close_recvs (rs : list record_id) : prog channel (list completion) :=
  match rs with
  | [] => give []
  | r :: rs' => a ← close_recv r; l ← close_recvs rs'; give (a :: l)
  end.

Definition close : prog channel (list completion) :=
  modify (with_closed true) ;;
  ss ← sends_take;
  rs ← recvs_take;
  l ← close_recvs rs;
  give (l ++ (SendStopped <$> ss)).

Definition request_stop : prog channel (list completion) :=
  modify (with_stopped true) ;;
  ss ← sends_take;
  rs ← recvs_take;
  modify (with_buffer []) ;;
  give ((RecvStopped <$> rs) ++ (SendStopped <$> ss)).

Definition shutdown : prog channel (list completion) :=
  l1 ← close; l2 ← request_stop; give (l1 ++ l2).

Definition cancel_send s : prog channel (list completion) :=
  o ← sends_remove s; give (option_list (SendStopped <$> o)).

Definition cancel_recv r : prog channel (list completion) :=
  o ← recvs_remove r; give (option_list (RecvStopped <$> o)).

Definition is_closed : prog channel bool := read closed.

(** [__send_op::start] and [__recv_op::start]: [requested] is what the
    receiver's stop token says, [installed] whether installing the callback
    succeeds. *)
Definition send_start s (requested installed late alloc : bool) : prog channel (list completion) :=
  if requested then give [SendStopped s] else
  x ← get_send s;
  if s_done x then give [] else
  if negb installed then give [SendStopped s] else
  r ← start_send s late alloc;
  give (run r.2).

Definition recv_start r (requested installed late alloc : bool) : prog channel (list completion) :=
  if requested then give [RecvStopped r] else
  x ← get_recv r;
  if r_done x then give [] else
  if negb installed then give [RecvStopped r] else
  a ← start_recv r late alloc;
  give (run a.2).

(** The constructor, and the records [connect] allocates. *)
Definition make_channel (cap : nat) : channel :=
  Channel cap false false [] empty_queue empty_queue ∅ ∅ ∅ ∅.

Definition connect_send s v : prog channel unit := modify (fun c =>
  Channel (capacity c) (closed c) (stopped c) (buffer c) (pending_sends c) (pending_recvs c)
    (<[s := None]> (send_next c)) (recv_next c) (<[s := SendRecord (Some (Some v)) false false]> (sends c))
    (recvs c)).

Definition connect_recv r : prog channel unit := modify (fun c =>
  Channel (capacity c) (closed c) (stopped c) (buffer c) (pending_sends c) (pending_recvs c)
    (send_next c) (<[r := None]> (recv_next c)) (sends c)
    (<[r := RecvRecord None false false]> (recvs c))).
End channel.
