(* ===== verification/ChannelSpec.v ===== *)
(** * The bounded channel: abstract specification and refinement

    The abstract channel is a buffer, a list of pending sends with their values
    and a list of pending receives.  [chan_rep] relates it to the channel of
    Channel.v, with its intrusive queues and its records; every operation is
    proved to refine its abstract counterpart.  In particular an operation never
    takes a value twice, never follows a dangling link and never completes a
    receive without a value. *)
From S2P Require Import Prelude Linked RecordQueue Channel.

Section channel_spec.
Context {T : Type}.
Implicit Types (v : T) (s r : record_id) (c : channel (T := T)).

(** ** The abstract channel *)

Record spec := Spec {
  sp_capacity : nat;
  sp_closed : bool;
  sp_stopped : bool;
  sp_buffer : list T;
  sp_sends : list (record_id * T);
  sp_recvs : list record_id;
}.
Implicit Types (sp : spec).

(** What an operation does besides changing the abstract channel: the
    completions it leaves, the sends whose value it took, the receives it gave
    a value. *)
Record effect := Effect {
  e_actions : actions;
  e_taken : list record_id;
  e_given : list (record_id * T);
}.

Definition no_effect (a : actions) : effect := Effect a [] [].

Definition sp_set_buffer b sp := Spec (sp_capacity sp) (sp_closed sp) (sp_stopped sp) b (sp_sends sp) (sp_recvs sp).
Definition sp_set_sends l sp := Spec (sp_capacity sp) (sp_closed sp) (sp_stopped sp) (sp_buffer sp) l (sp_recvs sp).
Definition sp_set_recvs l sp := Spec (sp_capacity sp) (sp_closed sp) (sp_stopped sp) (sp_buffer sp) (sp_sends sp) l.

Definition sp_space sp : bool := length (sp_buffer sp) <? sp_capacity sp.

(** A send: the receivers first, then the buffer, then the queue. *)
Definition spec_start_send sp s v (stop late alloc : bool) : spec * bool * effect :=
  if sp_stopped sp || sp_closed sp || stop
  then (sp, false, no_effect (Actions None None None None (Some s))) else
  match sp_recvs sp with
  | r :: rs => (sp_set_recvs rs sp, false, Effect (Actions (Some r) (Some s) None None None) [s] [(r, v)])
  | [] =>
      if bool_decide (sp_sends sp = []) && sp_space sp then
        if alloc
        then (sp_set_buffer (sp_buffer sp ++ [v]) sp, false, Effect (Actions None (Some s) None None None) [s] [])
        else (sp, false, Effect (Actions None None (Some s) None None) [s] [])
      else if late
      then (sp, false, no_effect (Actions None None None None (Some s)))
      else (sp_set_sends (sp_sends sp ++ [(s, v)]) sp, true, no_effect no_actions)
  end.

(** The first pending send moves its value into the buffer. *)
Definition spec_promote (alloc : bool) sp (e : effect) : spec * effect :=
  match sp_sends sp with
  | [] => (sp, e)
  | (s, v) :: rest =>
      if sp_space sp then
        if alloc
        then (sp_set_buffer (sp_buffer sp ++ [v]) (sp_set_sends rest sp),
              Effect (Actions (recv_value (e_actions e)) (Some s) (send_error (e_actions e))
                (recv_stopped (e_actions e)) (send_stopped (e_actions e))) (s :: e_taken e) (e_given e))
        else (sp_set_sends rest sp,
              Effect (Actions (recv_value (e_actions e)) (send_value (e_actions e)) (Some s)
                (recv_stopped (e_actions e)) (send_stopped (e_actions e))) (s :: e_taken e) (e_given e))
      else (sp, e)
  end.

(** A receive: the buffer first, then a pending send, then the queue. *)
Definition spec_start_recv sp r (stop late alloc : bool) : spec * bool * effect :=
  match sp_buffer sp with
  | v :: rest =>
      let '(sp', e) := spec_promote alloc (sp_set_buffer rest sp)
                         (Effect (Actions (Some r) None None None None) [] [(r, v)]) in
      (sp', false, e)
  | [] =>
      match sp_sends sp with
      | (s, v) :: rest =>
          (sp_set_sends rest sp, false, Effect (Actions (Some r) (Some s) None None None) [s] [(r, v)])
      | [] =>
          if sp_stopped sp || sp_closed sp || stop || late
          then (sp, false, no_effect (Actions None None None (Some r) None))
          else (sp_set_recvs (sp_recvs sp ++ [r]) sp, true, no_effect no_actions)
      end
  end.

Definition spec_try_send sp v (alloc : bool) : spec * try_result * effect :=
  if sp_stopped sp || sp_closed sp then (sp, Rejected, no_effect no_actions) else
  match sp_recvs sp with
  | r :: rs => (sp_set_recvs rs sp, Accepted, Effect (Actions (Some r) None None None None) [] [(r, v)])
  | [] =>
      if bool_decide (sp_sends sp = []) && sp_space sp then
        if alloc then (sp_set_buffer (sp_buffer sp ++ [v]) sp, Accepted, no_effect no_actions)
        else (sp, Threw, no_effect no_actions)
      else (sp, Rejected, no_effect no_actions)
  end.

Definition spec_try_recv sp (alloc : bool) : spec * option T * effect :=
  match sp_buffer sp with
  | v :: rest =>
      let '(sp', e) := spec_promote alloc (sp_set_buffer rest sp) (no_effect no_actions) in (sp', Some v, e)
  | [] =>
      match sp_sends sp with
      | (s, v) :: rest => (sp_set_sends rest sp, Some v, Effect (Actions None (Some s) None None None) [s] [])
      | [] => (sp, None, no_effect no_actions)
      end
  end.

(** Closing completes every pending operation as stopped and keeps the buffer. *)
Definition spec_close sp : spec * list completion :=
  (Spec (sp_capacity sp) true (sp_stopped sp) (sp_buffer sp) [] [],
   (RecvStopped <$> sp_recvs sp) ++ (SendStopped <$> (sp_sends sp).*1)).

(** Stopping drops the buffer as well. *)
Definition spec_request_stop sp : spec * list completion :=
  (Spec (sp_capacity sp) (sp_closed sp) true [] [] [],
   (RecvStopped <$> sp_recvs sp) ++ (SendStopped <$> (sp_sends sp).*1)).

Definition spec_cancel_send sp s : spec * list completion :=
  (sp_set_sends (filter (fun e => e.1 <> s) (sp_sends sp)) sp,
   if decide (s ∈ (sp_sends sp).*1) then [SendStopped s] else []).

Definition spec_cancel_recv sp r : spec * list completion :=
  (sp_set_recvs (filter (fun j => j <> r) (sp_recvs sp)) sp,
   if decide (r ∈ sp_recvs sp) then [RecvStopped r] else []).

(** ** The invariant *)

(** The parts of the records that matter besides the stop flags. *)
Definition sview c s : option (option (option T) * bool) :=
  (fun x => (s_value x, s_done x)) <$> sends c !! s.
Definition rview c r : option (option T * bool) :=
  (fun x => (r_value x, r_done x)) <$> recvs c !! r.

(** The queues of [c] hold the sends [ss] and the receives [rs]. *)
Record queues_rep c (ss rs : list record_id) : Prop := QueuesRep {
  qs_sends : queue_rep (send_next c) (pending_sends c) ss;
  qs_recvs : queue_rep (recv_next c) (pending_recvs c) rs;
  qs_send_dom : forall s, is_Some (send_next c !! s) <-> is_Some (sends c !! s);
  qs_recv_dom : forall r, is_Some (recv_next c !! r) <-> is_Some (recvs c !! r);
}.

(** What holds of the abstract channel: the buffer is bounded; a receive only
    waits when there is nothing to receive; a closed channel has nothing
    pending, a stopped one nothing at all. *)
Record spec_ok sp : Prop := SpecOk {
  so_bound : length (sp_buffer sp) <= sp_capacity sp;
  so_exclusive : sp_recvs sp <> [] -> sp_buffer sp = [] /\ sp_sends sp = [];
  so_closed : sp_closed sp || sp_stopped sp = true -> sp_sends sp = [] /\ sp_recvs sp = [];
  so_stopped : sp_stopped sp = true -> sp_buffer sp = [];
}.

Record chan_rep c sp : Prop := ChanRep {
  cr_fields : capacity c = sp_capacity sp /\ closed c = sp_closed sp /\ stopped c = sp_stopped sp /\
    buffer c = sp_buffer sp;
  cr_queues : queues_rep c (sp_sends sp).*1 (sp_recvs sp);
  cr_sends : forall s v, (s, v) ∈ sp_sends sp -> sview c s = Some (Some (Some v), false);
  cr_recvs : forall r, r ∈ sp_recvs sp -> rview c r = Some (None, false);
  cr_ok : spec_ok sp;
}.

(** The records after an operation with effect [e]. *)
Record records_after c c' (e : effect) : Prop := RecordsAfter {
  ra_sends : forall s, sview c' s =
    if decide (s ∈ e_taken e) then Some (Some None, false) else sview c s;
  ra_recvs : forall r, rview c' r =
    match (list_to_map (e_given e) : gmap record_id T) !! r with
    | Some v => Some (Some v, false)
    | None => rview c r
    end;
}.

(** ** Primitive operations *)

(** Everything but the two queues. *)
Definition chan_core c := (capacity c, closed c, stopped c, buffer c, sends c, recvs c).

Lemma sends_pop_ok c s ss rs :
  queues_rep c (s :: ss) rs ->
  exists c', sends_pop c = Some (Some s, c') /\ queues_rep c' ss rs /\ chan_core c' = chan_core c.
Proof.
  intros [H1 H2 H3 H4]. destruct (pop_front_ok _ _ _ _ H1) as (q & nx & Hp & Hq & Hs & _).
  unfold sends_pop. rewrite Hp. eexists. split; [done|]. split; [|done]. split; try done.
  intros j. simpl. by rewrite (Hs j).
Qed.

Lemma recvs_pop_ok c r ss rs :
  queues_rep c ss (r :: rs) ->
  exists c', recvs_pop c = Some (Some r, c') /\ queues_rep c' ss rs /\ chan_core c' = chan_core c.
Proof.
  intros [H1 H2 H3 H4]. destruct (pop_front_ok _ _ _ _ H2) as (q & nx & Hp & Hq & Hs & _).
  unfold recvs_pop. rewrite Hp. eexists. split; [done|]. split; [|done]. split; try done.
  intros j. simpl. by rewrite (Hs j).
Qed.

Lemma sends_push_ok c s ss rs :
  queues_rep c ss rs -> s ∉ ss -> is_Some (sends c !! s) ->
  exists c', sends_push s c = Some (tt, c') /\ queues_rep c' (ss ++ [s]) rs /\ chan_core c' = chan_core c.
Proof.
  intros [H1 H2 H3 H4] Hni Hs. apply H3 in Hs.
  destruct (push_back_ok _ _ _ _ H1 Hni Hs) as (q & nx & Hp & Hq & Hr & _).
  unfold sends_push. rewrite Hp. eexists. split; [done|]. split; [|done]. split; try done.
  intros j. simpl. by rewrite (Hr j).
Qed.

Lemma recvs_push_ok c r ss rs :
  queues_rep c ss rs -> r ∉ rs -> is_Some (recvs c !! r) ->
  exists c', recvs_push r c = Some (tt, c') /\ queues_rep c' ss (rs ++ [r]) /\ chan_core c' = chan_core c.
Proof.
  intros [H1 H2 H3 H4] Hni Hs. apply H4 in Hs.
  destruct (push_back_ok _ _ _ _ H2 Hni Hs) as (q & nx & Hp & Hq & Hr & _).
  unfold recvs_push. rewrite Hp. eexists. split; [done|]. split; [|done]. split; try done.
  intros j. simpl. by rewrite (Hr j).
Qed.

(** Removing a record that may or may not be queued. *)
Definition without r (ks : list record_id) : list record_id := filter (fun j => j <> r) ks.

Lemma without_absent r ks : r ∉ ks -> without r ks = ks.
Proof.
  intros Hr. unfold without. induction ks as [|k ks IH]; [done|].
  apply not_elem_of_cons in Hr as [Hk Hr]. rewrite filter_cons_True by done. by rewrite IH.
Qed.

Lemma without_middle r ks1 ks2 : NoDup (ks1 ++ r :: ks2) -> without r (ks1 ++ r :: ks2) = ks1 ++ ks2.
Proof.
  intros H. rewrite <- Permutation_middle in H. apply NoDup_cons in H as [Hr _].
  rewrite elem_of_app in Hr. unfold without. rewrite filter_app, filter_cons_False by naive_solver.
  fold (without r ks1) (without r ks2). rewrite !without_absent by naive_solver. done.
Qed.

Lemma sends_remove_ok c s ss rs :
  queues_rep c ss rs ->
  exists c', sends_remove s c = Some (if decide (s ∈ ss) then Some s else None, c') /\
    queues_rep c' (without s ss) rs /\ chan_core c' = chan_core c.
Proof.
  intros [H1 H2 H3 H4]. unfold sends_remove. destruct (decide (s ∈ ss)) as [Hs|Hs].
  - apply list_elem_of_split in Hs as (k1 & k2 & ->).
    rewrite without_middle by apply H1.
    destruct (remove_ok _ _ _ _ _ H1) as (q & nx & Hp & Hq & Hr & _). rewrite Hp.
    eexists. split; [done|]. split; [|done]. split; try done. intros j. simpl. by rewrite (Hr j).
  - rewrite (remove_absent _ _ _ _ H1 Hs), without_absent by done. eexists. split; [done|]. by split; [split|].
Qed.

Lemma recvs_remove_ok c r ss rs :
  queues_rep c ss rs ->
  exists c', recvs_remove r c = Some (if decide (r ∈ rs) then Some r else None, c') /\
    queues_rep c' ss (without r rs) /\ chan_core c' = chan_core c.
Proof.
  intros [H1 H2 H3 H4]. unfold recvs_remove. destruct (decide (r ∈ rs)) as [Hs|Hs].
  - apply list_elem_of_split in Hs as (k1 & k2 & ->).
    rewrite without_middle by apply H2.
    destruct (remove_ok _ _ _ _ _ H2) as (q & nx & Hp & Hq & Hr & _). rewrite Hp.
    eexists. split; [done|]. split; [|done]. split; try done. intros j. simpl. by rewrite (Hr j).
  - rewrite (remove_absent _ _ _ _ H2 Hs), without_absent by done. eexists. split; [done|]. by split; [split|].
Qed.

Lemma sends_take_ok c ss rs :
  queues_rep c ss rs ->
  exists c', sends_take c = Some (ss, c') /\ queues_rep c' [] rs /\ chan_core c' = chan_core c.
Proof.
  intros [H1 H2 H3 H4]. unfold sends_take. rewrite (take_all_ok _ _ _ H1).
  destruct (unchain_ok ss (size (send_next c)) (send_next c)) as (nx & Hu & Hr & _);
    [apply H1|apply H1|by eapply queue_rep_size|].
  rewrite Hu. eexists. split; [done|]. split; [|done].
  split; try done; [apply empty_rep|]. intros j. simpl. by rewrite (Hr j).
Qed.

Lemma recvs_take_ok c ss rs :
  queues_rep c ss rs ->
  exists c', recvs_take c = Some (rs, c') /\ queues_rep c' ss [] /\ chan_core c' = chan_core c.
Proof.
  intros [H1 H2 H3 H4]. unfold recvs_take. rewrite (take_all_ok _ _ _ H2).
  destruct (unchain_ok rs (size (recv_next c)) (recv_next c)) as (nx & Hu & Hr & _);
    [apply H2|apply H2|by eapply queue_rep_size|].
  rewrite Hu. eexists. split; [done|]. split; [|done].
  split; try done; [apply empty_rep|]. intros j. simpl. by rewrite (Hr j).
Qed.

Lemma queues_rep_send c ss rs s x :
  queues_rep c ss rs -> is_Some (sends c !! s) -> queues_rep (with_sends (<[s := x]> (sends c)) c) ss rs.
Proof.
  intros [H1 H2 H3 H4] Hs. split; try done. intros j. simpl. rewrite H3, lookup_insert.
  case_decide; [subst|done]. split; [by eexists|done].
Qed.

Lemma queues_rep_recv c ss rs r x :
  queues_rep c ss rs -> is_Some (recvs c !! r) -> queues_rep (with_recvs (<[r := x]> (recvs c)) c) ss rs.
Proof.
  intros [H1 H2 H3 H4] Hs. split; try done. intros j. simpl. rewrite H4, lookup_insert.
  case_decide; [subst|done]. split; [by eexists|done].
Qed.

Lemma queues_rep_core c c' ss rs :
  queues_rep c ss rs -> sends c' = sends c -> recvs c' = recvs c -> send_next c' = send_next c ->
  recv_next c' = recv_next c -> pending_sends c' = pending_sends c -> pending_recvs c' = pending_recvs c ->
  queues_rep c' ss rs.
Proof.
  intros [H1 H2 H3 H4] E1 E2 E3 E4 E5 E6. split; by rewrite ?E1, ?E2, ?E3, ?E4, ?E5, ?E6.
Qed.

Lemma take_value_ok c s x v :
  sends c !! s = Some x -> s_value x = Some (Some v) ->
  take_value s c =
    Some (v, with_sends (<[s := SendRecord (Some None) (s_stop_requested x) (s_done x)]> (sends c)) c).
Proof.
  intros Hs Hv. unfold take_value, get_send, after, put_send, modify, give. by rewrite Hs, Hv.
Qed.

Lemma flag_send_ok c s x :
  sends c !! s = Some x ->
  flag_send s c = Some (tt, with_sends (<[s := SendRecord (s_value x) true (s_done x)]> (sends c)) c).
Proof. intros Hs. unfold flag_send, get_send, after, put_send, modify. by rewrite Hs. Qed.

Lemma flag_recv_ok c r x :
  recvs c !! r = Some x ->
  flag_recv r c = Some (tt, with_recvs (<[r := RecvRecord (r_value x) true (r_done x)]> (recvs c)) c).
Proof. intros Hr. unfold flag_recv, get_recv, after, put_recv, modify. by rewrite Hr. Qed.

Lemma prepare_value_ok c r x v :
  recvs c !! r = Some x ->
  prepare_value r v c =
    Some (tt, with_recvs (<[r := RecvRecord (Some v) (r_stop_requested x) (r_done x)]> (recvs c)) c).
Proof. intros Hr. unfold prepare_value, get_recv, after, put_recv, modify. by rewrite Hr. Qed.

Lemma sview_some c s p : sview c s = Some p -> exists x, sends c !! s = Some x /\ p = (s_value x, s_done x).
Proof. unfold sview. destruct (sends c !! s) as [x|]; simpl; [|done]. intros [= <-]. eauto. Qed.

Lemma rview_some c r p : rview c r = Some p -> exists x, recvs c !! r = Some x /\ p = (r_value x, r_done x).
Proof. unfold rview. destruct (recvs c !! r) as [x|]; simpl; [|done]. intros [= <-]. eauto. Qed.

(** Assembling the invariant after an operation. *)
Lemma chan_rep_build c c' sp sp' e :
  chan_rep c sp ->
  (capacity c' = sp_capacity sp' /\ closed c' = sp_closed sp' /\ stopped c' = sp_stopped sp' /\
    buffer c' = sp_buffer sp') ->
  queues_rep c' (sp_sends sp').*1 (sp_recvs sp') -> records_after c c' e ->
  (forall s v, (s, v) ∈ sp_sends sp' -> s ∉ e_taken e /\
     ((s, v) ∈ sp_sends sp \/ sview c s = Some (Some (Some v), false))) ->
  (forall r, r ∈ sp_recvs sp' -> (list_to_map (e_given e) : gmap record_id T) !! r = None /\
     (r ∈ sp_recvs sp \/ rview c r = Some (None, false))) ->
  spec_ok sp' -> chan_rep c' sp'.
Proof.
  intros [_ _ H3 H4 _] Hf Hq [Ra1 Ra2] Hs Hr Ho. split; try done.
  - intros s v Hin. destruct (Hs s v Hin) as [Ht Hor]. rewrite Ra1, decide_False by done.
    destruct Hor; auto.
  - intros r Hin. destruct (Hr r Hin) as [Ht Hor]. rewrite Ra2, Ht. destruct Hor; auto.
Qed.

Lemma records_none c c' a :
  sends c' = sends c -> recvs c' = recvs c -> records_after c c' (no_effect a).
Proof.
  intros Es Er. split; intros j; cbn [e_taken e_given no_effect list_to_map].
  - rewrite decide_False by (apply not_elem_of_nil). unfold sview. by rewrite Es.
  - rewrite list_to_map_nil, lookup_empty. unfold rview. by rewrite Er.
Qed.

Lemma records_taken c c' a s x f :
  sends c !! s = Some x -> s_done x = false ->
  sends c' = <[s := SendRecord (Some None) f (s_done x)]> (sends c) -> recvs c' = recvs c ->
  records_after c c' (Effect a [s] []).
Proof.
  intros Hs Hd Es Er. split; intros j; cbn [e_taken e_given no_effect list_to_map].
  - unfold sview. rewrite Es, lookup_insert. case_decide as E1; case_decide as E2; subst; simpl; try done.
    + by rewrite Hd.
    + by destruct E2; apply list_elem_of_here.
    + apply list_elem_of_singleton in E2. congruence.
  - rewrite list_to_map_nil, lookup_empty. unfold rview. by rewrite Er.
Qed.

Lemma records_given c c' a r y v f :
  recvs c !! r = Some y -> r_done y = false ->
  sends c' = sends c -> recvs c' = <[r := RecvRecord (Some v) f (r_done y)]> (recvs c) ->
  records_after c c' (Effect a [] [(r, v)]).
Proof.
  intros Hr Hd Es Er. split; intros j; cbn [e_taken e_given no_effect list_to_map].
  - rewrite decide_False by (apply not_elem_of_nil). unfold sview. by rewrite Es.
  - rewrite list_to_map_cons, list_to_map_nil. cbn [fst snd]. unfold rview. rewrite Er, !lookup_insert.
    case_decide; subst; simpl; [by rewrite Hd|]. by rewrite lookup_empty.
Qed.

Lemma records_both c c' a s x f r y v g :
  sends c !! s = Some x -> s_done x = false -> recvs c !! r = Some y -> r_done y = false ->
  sends c' = <[s := SendRecord (Some None) f (s_done x)]> (sends c) ->
  recvs c' = <[r := RecvRecord (Some v) g (r_done y)]> (recvs c) ->
  records_after c c' (Effect a [s] [(r, v)]).
Proof.
  intros Hs Hd Hr Hd' Es Er.
  destruct (records_taken c (with_sends (sends c') c) a s x f Hs Hd Es eq_refl) as [R1 _].
  destruct (records_given c (with_recvs (recvs c') c) a r y v g Hr Hd' eq_refl Er) as [_ R2].
  split; [exact R1|exact R2].
Qed.

(** ** Refinement *)

Lemma nonempty_fst (l : list (record_id * T)) : bool_decide (l.*1 = []) = bool_decide (l = []).
Proof. by destruct l. Qed.

Lemma spec_handoff sp r rs : spec_ok sp -> sp_recvs sp = r :: rs -> spec_ok (sp_set_recvs rs sp).
Proof.
  intros [H1 H2 H3 H4] E. rewrite E in *. split; simpl; try done.
  - intros _. by apply H2.
  - intros Hc. by destruct (H3 Hc).
Qed.

Lemma spec_buffer_push sp v :
  spec_ok sp -> sp_stopped sp || sp_closed sp = false -> sp_recvs sp = [] -> sp_space sp = true ->
  spec_ok (sp_set_buffer (sp_buffer sp ++ [v]) sp).
Proof.
  intros [H1 H2 H3 H4] E Er Hsp. apply Nat.ltb_lt in Hsp. apply orb_false_iff in E as [E1 E2].
  split; simpl; try done.
  - rewrite length_app. simpl. lia.
  - by rewrite E1.
Qed.

(** A send, a receive that was connected but never started. *)
Definition ready_send c sp s v (stop : bool) : Prop :=
  sends c !! s = Some (SendRecord (Some (Some v)) stop false) /\ s ∉ (sp_sends sp).*1.
Definition ready_recv c sp r (stop : bool) : Prop :=
  recvs c !! r = Some (RecvRecord None stop false) /\ r ∉ sp_recvs sp.

Lemma rep_recvs_nodup c sp : chan_rep c sp -> NoDup (sp_recvs sp).
Proof. intros H. eapply qr_nodup, qs_recvs, cr_queues, H. Qed.

Lemma rep_sends_nodup c sp : chan_rep c sp -> NoDup (sp_sends sp).*1.
Proof. intros H. eapply qr_nodup, qs_sends, cr_queues, H. Qed.

(** Split the fields of a representation. *)
Ltac open_rep H :=
  let Hcap := fresh "Hcap" in let Hclosed := fresh "Hclosed" in let Hstopped := fresh "Hstopped" in
  let Hbuffer := fresh "Hbuffer" in
  pose proof (cr_fields _ _ H) as (Hcap & Hclosed & Hstopped & Hbuffer).

Lemma pending_sends_empty c ss rs : queues_rep c ss rs -> is_empty (pending_sends c) = bool_decide (ss = []).
Proof. intros H. eapply is_empty_iff, H. Qed.

Lemma pending_recvs_empty c ss rs : queues_rep c ss rs -> is_empty (pending_recvs c) = bool_decide (rs = []).
Proof. intros H. eapply is_empty_iff, H. Qed.

Lemma start_send_refines c sp s v stop late alloc :
  chan_rep c sp -> ready_send c sp s v stop ->
  let '(sp', b, e) := spec_start_send sp s v stop late alloc in
  exists c', start_send s late alloc c = Some ((b, e_actions e), c') /\ chan_rep c' sp' /\
    records_after c c' e.
Proof.
  intros H [Hs Hni]. open_rep H. pose proof (cr_queues _ _ H) as Q. pose proof (cr_ok _ _ H) as Ho.
  unfold spec_start_send, start_send. rewrite <- Hstopped, <- Hclosed.
  rewrite prog_read_bind. unfold id. destruct (stopped c || closed c) eqn:Esc; simpl orb.
  { exists c. split; [done|]. split; [done|by apply records_none]. }
  assert (get_send s c = Some (SendRecord (Some (Some v)) stop false, c)) as Hg by (unfold get_send; by rewrite Hs).
  rewrite (prog_bind_ok _ _ _ _ _ Hg). cbn [s_stop_requested]. destruct stop; cbn [orb]; cbv iota.
  { exists c. split; [done|]. split; [done|by apply records_none]. }
  rewrite (pending_recvs_empty _ _ _ Q), (pending_sends_empty _ _ _ Q), nonempty_fst.
  destruct (sp_recvs sp) as [|r rs] eqn:Er;
    [rewrite (bool_decide_true (@nil record_id = [])) by done
    |rewrite (bool_decide_false (r :: rs = [])) by done]; cbn [negb]; cbv iota.
  - assert (has_space c = sp_space sp) as -> by (unfold has_space, sp_space; by rewrite Hcap, Hbuffer).
    destruct (bool_decide (sp_sends sp = []) && sp_space sp) eqn:Esp.
    + rewrite (prog_bind_ok _ _ _ _ _ (take_value_ok _ _ _ _ Hs eq_refl)).
      apply andb_true_iff in Esp as [Ess%bool_decide_eq_true Esp].
      set (c1 := with_sends _ c).
      assert (queues_rep c1 (sp_sends sp).*1 []) as Q1 by (apply queues_rep_send; [done|by eexists]).
      destruct alloc.
      * eexists. split; [done|]. simpl.
        match goal with |- chan_rep ?c2 _ /\ _ => set (cf := c2) end.
        assert (records_after c cf (Effect (Actions None (Some s) None None None) [s] [])) as R
          by (by eapply (records_taken c cf)).
        split; [|exact R]. eapply chan_rep_build; [exact H| | |exact R| | |].
        -- simpl. by rewrite Hbuffer.
        -- simpl. rewrite Er. by eapply queues_rep_core.
        -- simpl. rewrite Ess. by intros ?? ?%not_elem_of_nil.
        -- simpl. rewrite Er. by intros ? ?%not_elem_of_nil.
        -- apply spec_buffer_push; [done|by rewrite <- Hstopped, <- Hclosed|done|done].
      * eexists. split; [done|].
        assert (records_after c c1 (Effect (Actions None None (Some s) None None) [s] [])) as R
          by (by eapply (records_taken c c1)).
        split; [|exact R]. eapply chan_rep_build; [exact H|done| |exact R| | |done].
        -- by rewrite Er.
        -- rewrite Ess. by intros ?? ?%not_elem_of_nil.
        -- rewrite Er. by intros ? ?%not_elem_of_nil.
    + rewrite <- Er in Q.
      destruct (sends_push_ok _ s _ _ Q Hni ltac:(by eexists)) as (c1 & Hp & Q1 & Hc1).
      injection Hc1 as E1 E2 E3 E4 E5 E6.
      rewrite (prog_bind_ok _ _ _ _ _ Hp). destruct late.
      * assert (flag_send s c1 = Some (tt, with_sends (<[s := SendRecord (Some (Some v)) true false]> (sends c1)) c1))
          as Hf by (by apply (flag_send_ok c1 s (SendRecord (Some (Some v)) false false)); rewrite E5).
        rewrite (prog_bind_ok _ _ _ _ _ Hf). set (c2 := with_sends _ c1).
        assert (get_send s c2 = Some (SendRecord (Some (Some v)) true false, c2)) as Hg2.
        { unfold get_send, c2. simpl. by rewrite lookup_insert_eq. }
        rewrite (prog_bind_ok _ _ _ _ _ Hg2). cbn [s_stop_requested negb]; cbv iota.
        assert (queues_rep c2 ((sp_sends sp).*1 ++ [s]) (sp_recvs sp)) as Q2.
        { apply queues_rep_send; [done|]. rewrite E5. by eexists. }
        destruct (sends_remove_ok c2 s _ _ Q2) as (c3 & Hr & Q3 & Hc3).
        injection Hc3 as F1 F2 F3 F4 F5 F6.
        rewrite (prog_bind_ok _ _ _ _ _ Hr).
        rewrite decide_True by (apply elem_of_app; right; apply list_elem_of_here).
        rewrite without_middle in Q3 by apply Q2. rewrite app_nil_r in Q3.
        eexists. split; [done|].
        assert (records_after c c3 (no_effect (Actions None None None None (Some s)))) as R.
        { split; intros j; simpl; [|rewrite lookup_empty; unfold rview; by rewrite F6, E6].
          unfold sview. rewrite F5, lookup_insert, E5. destruct (decide (s = j)) as [<-|]; [by rewrite Hs|done]. }
        split; [|exact R]. eapply chan_rep_build; [exact H| |exact Q3|exact R| | |done].
        -- rewrite F1, F2, F3, F4. by rewrite E1, E2, E3, E4.
        -- intros s' v' Hin. split; [apply not_elem_of_nil|by left].
        -- intros r' Hin. split; [done|by left].
      * rewrite prog_ret_bind.
        assert (get_send s c1 = Some (SendRecord (Some (Some v)) false false, c1)) as Hg1
          by (unfold get_send; by rewrite E5, Hs).
        rewrite (prog_bind_ok _ _ _ _ _ Hg1). cbn [s_stop_requested negb]; cbv iota.
        eexists. split; [done|].
        assert (records_after c c1 (no_effect no_actions)) as R by (by apply records_none).
        split; [|exact R]. eapply chan_rep_build; [exact H| | |exact R| | |].
        -- simpl. by rewrite E1, E2, E3, E4.
        -- simpl. rewrite fmap_app. exact Q1.
        -- simpl. intros s' v' Hin. split; [apply not_elem_of_nil|].
           apply elem_of_app in Hin as [|[= -> ->]%list_elem_of_singleton]; [by left|right].
           unfold sview. by rewrite Hs.
        -- intros r' Hin. split; [done|by left].
        -- destruct Ho as [O1 O2 O3 O4]. split; simpl; try done; try (by rewrite Er).
           by rewrite <- Hstopped, <- Hclosed, orb_comm, Esc.
  - assert (r ∈ sp_recvs sp) as Hr by (rewrite Er; apply list_elem_of_here).
    destruct (rview_some _ _ _ (cr_recvs _ _ H r Hr)) as (y & Hy & [= Hyv Hyd]).
    destruct (recvs_pop_ok _ _ _ _ Q) as (c1 & Hp & Q1 & Hc1). injection Hc1 as E1 E2 E3 E4 E5 E6.
    rewrite (prog_bind_ok _ _ _ _ _ Hp), prog_defined_bind.
    rewrite <- E5 in Hs. rewrite (prog_bind_ok _ _ _ _ _ (take_value_ok _ _ _ _ Hs eq_refl)).
    set (c2 := with_sends _ c1). assert (recvs c2 !! r = Some y) as Hy2 by (simpl; by rewrite E6).
    rewrite (prog_bind_ok _ _ _ _ _ (prepare_value_ok _ _ _ v Hy2)).
    set (c3 := with_recvs _ c2). exists c3. split; [done|].
    assert (records_after c c3 (Effect (Actions (Some r) (Some s) None None None) [s] [(r, v)])) as R.
    { rewrite E5 in Hs. eapply (records_both c c3); [exact Hs|done|exact Hy|done| |].
      - simpl. by rewrite E5.
      - simpl. by rewrite E6. }
    pose proof (rep_recvs_nodup _ _ H) as Hnd.
    rewrite Er in Hnd. apply NoDup_cons in Hnd as [Hnr _].
    split; [|exact R]. eapply chan_rep_build; [exact H| | |exact R| | |by eapply spec_handoff].
    + simpl. by rewrite E1, E2, E3, E4.
    + simpl. apply queues_rep_recv; [|by eexists]. apply queues_rep_send; [exact Q1|by eexists].
    + simpl. destruct (so_exclusive _ Ho) as [_ ->]; [by rewrite Er|]. by intros ?? ?%not_elem_of_nil.
    + simpl. intros j Hj. split; [|left; rewrite Er; by right].
      rewrite lookup_insert_ne; [done|by intros ->].
Qed.

Lemma records_take_one c0 c c' e a s x f :
  records_after c0 c e -> sends c !! s = Some x -> s_done x = false ->
  sends c' = <[s := SendRecord (Some None) f (s_done x)]> (sends c) -> recvs c' = recvs c ->
  records_after c0 c' (Effect a (s :: e_taken e) (e_given e)).
Proof.
  intros [R1 R2] Hs Hd Es Er. split; intros j; cbn [e_taken e_given].
  - unfold sview. rewrite Es, lookup_insert. destruct (decide (s = j)) as [<-|Hne].
    + rewrite decide_True by apply list_elem_of_here. simpl. by rewrite Hd.
    + change (sview c j = if decide (j ∈ s :: e_taken e) then Some (Some None, false) else sview c0 j).
      rewrite R1. apply decide_ext. rewrite elem_of_cons. naive_solver.
  - unfold rview. rewrite Er. apply R2.
Qed.

(** Moving the first pending send out of the queue keeps the rest in order. *)
Lemma spec_drop_send sp s v rest :
  spec_ok sp -> sp_sends sp = (s, v) :: rest -> spec_ok (sp_set_sends rest sp).
Proof.
  intros [H1 H2 H3 H4] E. rewrite E in *. split; simpl; try done.
  - intros Hr. by destruct (H2 Hr).
  - intros Hc. by destruct (H3 Hc).
Qed.

Lemma spec_promoted sp s v rest :
  spec_ok sp -> sp_sends sp = (s, v) :: rest -> sp_space sp = true ->
  spec_ok (sp_set_buffer (sp_buffer sp ++ [v]) (sp_set_sends rest sp)).
Proof.
  intros [H1 H2 H3 H4] E Hsp. apply Nat.ltb_lt in Hsp. rewrite E in *. split; simpl.
  - rewrite length_app. simpl. lia.
  - intros Hr. by destruct (H2 Hr).
  - intros Hc. by destruct (H3 Hc).
  - intros Hs. rewrite Hs, orb_true_r in H3. by destruct (H3 eq_refl).
Qed.

Lemma promote_refines c0 c sp e alloc :
  chan_rep c sp -> records_after c0 c e ->
  let '(sp', e') := spec_promote alloc sp e in
  exists c', promote_one_send_locked alloc (e_actions e) c = Some (e_actions e', c') /\
    chan_rep c' sp' /\ records_after c0 c' e'.
Proof.
  intros H R. open_rep H. pose proof (cr_queues _ _ H) as Q. pose proof (cr_ok _ _ H) as Ho.
  unfold spec_promote, promote_one_send_locked. rewrite prog_read_bind.
  rewrite (pending_sends_empty _ _ _ Q), nonempty_fst.
  destruct (sp_sends sp) as [|[s v] rest] eqn:Ess;
    [rewrite (bool_decide_true (@nil (record_id * T) = [])) by done
    |rewrite (bool_decide_false ((s, v) :: rest = [])) by done]; cbv iota.
  { exists c. done. }
  rewrite prog_read_bind.
  assert (has_space c = sp_space sp) as -> by (unfold has_space, sp_space; by rewrite Hcap, Hbuffer).
  destruct (sp_space sp) eqn:Esp; [|by exists c].
  assert (sview c s = Some (Some (Some v), false)) as Hsv.
  { apply (cr_sends _ _ H). rewrite Ess. apply list_elem_of_here. }
  destruct (sview_some _ _ _ Hsv) as (x & Hs & [= Hxv Hxd]).
  csimpl in Q. destruct (sends_pop_ok _ _ _ _ Q) as (c1 & Hp & Q1 & Hc1).
  injection Hc1 as E1 E2 E3 E4 E5 E6. rewrite (prog_bind_ok _ _ _ _ _ Hp), prog_defined_bind.
  assert (sends c1 !! s = Some x) as Hs1 by (by rewrite E5).
  rewrite (prog_bind_ok _ _ _ _ _ (take_value_ok _ _ _ _ Hs1 (eq_sym Hxv))).
  set (c2 := with_sends _ c1).
  assert (queues_rep c2 rest.*1 (sp_recvs sp)) as Q2 by (apply queues_rep_send; [done|by eexists]).
  pose proof (rep_sends_nodup _ _ H) as Hnd. rewrite Ess in Hnd. csimpl in Hnd.
  apply NoDup_cons in Hnd as [Hni _].
  assert (forall c', sends c' = sends c2 -> recvs c' = recvs c2 ->
    records_after c c' (Effect no_actions [s] [])) as R2.
  { intros c' F1 F2. eapply (records_taken c c'); [exact Hs|done| |].
    - rewrite F1. simpl. by rewrite E5.
    - rewrite F2. simpl. by rewrite E6. }
  assert (forall s' v', (s', v') ∈ rest -> s' ∉ [s] /\
     ((s', v') ∈ sp_sends sp \/ sview c s' = Some (Some (Some v'), false))) as Hrest.
  { intros s' v' Hin. split; [|left; rewrite Ess; by right].
    intros ->%list_elem_of_singleton. apply Hni. by apply (list_elem_of_fmap_2 fst _ (s, v')). }
  destruct alloc.
  - eexists. split; [done|]. simpl. match goal with |- chan_rep ?c3 _ /\ _ => set (cf := c3) end. split.
    + eapply chan_rep_build; [exact H| | |by apply R2|exact Hrest| |by eapply spec_promoted].
      * simpl. by rewrite E1, E2, E3, E4, Hbuffer.
      * by eapply queues_rep_core.
      * intros r Hr. split; [done|by left].
    + eapply (records_take_one c0 c cf); [exact R|exact Hs|done| |]; simpl; by rewrite ?E5, ?E6.
  - exists c2. split; [done|]. split.
    + eapply chan_rep_build; [exact H| |exact Q2|by apply R2|exact Hrest| |by eapply spec_drop_send].
      * simpl. by rewrite E1, E2, E3, E4.
      * intros r Hr. split; [done|by left].
    + eapply (records_take_one c0 c c2); [exact R|exact Hs|done| |]; simpl; by rewrite ?E5, ?E6.
Qed.

(** Taking the first value out of the buffer. *)
Lemma buffer_pop c sp v rest :
  chan_rep c sp -> sp_buffer sp = v :: rest ->
  chan_rep (with_buffer rest c) (sp_set_buffer rest sp).
Proof.
  intros H E. open_rep H. pose proof (cr_ok _ _ H) as [O1 O2 O3 O4].
  eapply (chan_rep_build c _ sp _ (no_effect no_actions)); [exact H|done| | | | |].
  - by eapply queues_rep_core; [apply H|..].
  - by apply records_none.
  - intros s' v' Hin. split; [apply not_elem_of_nil|by left].
  - intros r Hr. split; [done|by left].
  - rewrite E in *. split; simpl in *; try done; [lia| |].
    + intros Hr. by destruct (O2 Hr).
    + intros Hs. by specialize (O4 Hs).
Qed.

(** Giving a receive that is not queued a value. *)
Lemma prepare_rep c sp r v f :
  chan_rep c sp -> ready_recv c sp r f ->
  exists c', prepare_value r v c = Some (tt, c') /\ chan_rep c' sp /\
    records_after c c' (Effect no_actions [] [(r, v)]) /\ pending_sends c' = pending_sends c /\
    sends c' = sends c.
Proof.
  intros H [Hr Hni]. rewrite (prepare_value_ok _ _ _ v Hr). eexists. split; [done|].
  set (c1 := with_recvs _ c).
  assert (records_after c c1 (Effect no_actions [] [(r, v)])) as R by (by eapply (records_given c c1)).
  split; [|done]. eapply chan_rep_build; [exact H|apply H| |exact R| | |apply H].
  - apply queues_rep_recv; [apply H|by eexists].
  - intros s' v' Hin. split; [apply not_elem_of_nil|by left].
  - intros j Hj. split; [|by left]. simpl. rewrite lookup_insert_ne; [done|by intros ->].
Qed.

(** A pending send hands its value over. *)
Lemma take_pending c sp s v rest :
  chan_rep c sp -> sp_sends sp = (s, v) :: rest ->
  exists c1 c', sends_pop c = Some (Some s, c1) /\ take_value s c1 = Some (v, c') /\
    chan_rep c' (sp_set_sends rest sp) /\ records_after c c' (Effect no_actions [s] []) /\
    recvs c' = recvs c.
Proof.
  intros H Ess. open_rep H. pose proof (cr_queues _ _ H) as Q. rewrite Ess in Q. csimpl in Q.
  assert (sview c s = Some (Some (Some v), false)) as Hsv.
  { apply (cr_sends _ _ H). rewrite Ess. apply list_elem_of_here. }
  destruct (sview_some _ _ _ Hsv) as (x & Hs & [= Hxv Hxd]).
  destruct (sends_pop_ok _ _ _ _ Q) as (c1 & Hp & Q1 & Hc1). injection Hc1 as E1 E2 E3 E4 E5 E6.
  assert (sends c1 !! s = Some x) as Hs1 by (by rewrite E5).
  exists c1. eexists. split; [exact Hp|]. split; [by apply take_value_ok|].
  set (c2 := with_sends _ c1).
  assert (records_after c c2 (Effect no_actions [s] [])) as R.
  { eapply (records_taken c c2); [exact Hs|done| |done]. simpl. by rewrite E5. }
  pose proof (rep_sends_nodup _ _ H) as Hnd. rewrite Ess in Hnd. csimpl in Hnd.
  apply NoDup_cons in Hnd as [Hni _].
  split; [|split; [exact R|done]]. eapply chan_rep_build; [exact H| | |exact R| | |].
  - simpl. by rewrite E1, E2, E3, E4.
  - apply queues_rep_send; [exact Q1|by eexists].
  - simpl. intros s' v' Hin. split; [|left; rewrite Ess; by right].
    intros ->%list_elem_of_singleton. apply Hni. by apply (list_elem_of_fmap_2 fst _ (s, v')).
  - intros r Hr. split; [done|by left].
  - eapply spec_drop_send; [apply H|exact Ess].
Qed.

Lemma records_trans c c1 c2 e1 e2 a :
  records_after c c1 e1 -> records_after c1 c2 e2 ->
  records_after c c2 (Effect a (e_taken e2 ++ e_taken e1) (e_given e2 ++ e_given e1)).
Proof.
  intros [A1 A2] [B1 B2]. split; intros j; cbn [e_taken e_given].
  - rewrite B1, A1. repeat case_decide; rewrite ?elem_of_app in *; tauto.
  - rewrite B2, A2, list_to_map_app, lookup_union.
    destruct (list_to_map (e_given e2) !! j), (list_to_map (e_given e1) !! j); done.
Qed.

Lemma records_relabel c c' e a : records_after c c' e -> records_after c c' (Effect a (e_taken e) (e_given e)).
Proof. by intros []. Qed.

Lemma ready_recv_sends c c' sp sp' r f :
  ready_recv c sp r f -> recvs c' = recvs c -> sp_recvs sp' = sp_recvs sp -> ready_recv c' sp' r f.
Proof. intros [? ?] E1 E2. split; [by rewrite E1|by rewrite E2]. Qed.

(** Waiting for a value. *)
Lemma recv_wait c sp r (late : bool) :
  chan_rep c sp -> ready_recv c sp r false -> sp_buffer sp = [] -> sp_sends sp = [] ->
  stopped c || closed c = false ->
  let '(sp', b, a) := if late then (sp, false, Actions None None None (Some r) None)
    else (sp_set_recvs (sp_recvs sp ++ [r]) sp, true, no_actions) in
  exists c', (recvs_push r ;;
    (if late then flag_recv r else give tt) ;;
    x ← get_recv r;
    if negb (r_stop_requested x) then give (true, no_actions) else
    o ← recvs_remove r;
    give (false, Actions None None None o None))%prog c = Some ((b, a), c') /\
    chan_rep c' sp' /\ records_after c c' (no_effect a).
Proof.
  intros H [Hr Hni] Eb Es Esc. open_rep H. pose proof (cr_queues _ _ H) as Q.
  destruct (recvs_push_ok _ r _ _ Q Hni ltac:(by eexists)) as (c1 & Hp & Q1 & Hc1).
  injection Hc1 as E1 E2 E3 E4 E5 E6.
  rewrite (prog_bind_ok _ _ _ _ _ Hp). destruct late.
  - assert (flag_recv r c1 = Some (tt, with_recvs (<[r := RecvRecord None true false]> (recvs c1)) c1))
      as Hf by (by apply (flag_recv_ok c1 r (RecvRecord None false false)); rewrite E6).
    rewrite (prog_bind_ok _ _ _ _ _ Hf). set (c2 := with_recvs _ c1).
    assert (get_recv r c2 = Some (RecvRecord None true false, c2)) as Hg2.
    { unfold get_recv, c2. simpl. by rewrite lookup_insert_eq. }
    rewrite (prog_bind_ok _ _ _ _ _ Hg2). cbn [r_stop_requested negb]; cbv iota.
    assert (queues_rep c2 (sp_sends sp).*1 (sp_recvs sp ++ [r])) as Q2.
    { apply queues_rep_recv; [done|]. rewrite E6. by eexists. }
    destruct (recvs_remove_ok c2 r _ _ Q2) as (c3 & Hrm & Q3 & Hc3). injection Hc3 as F1 F2 F3 F4 F5 F6.
    rewrite (prog_bind_ok _ _ _ _ _ Hrm).
    rewrite decide_True by (apply elem_of_app; right; apply list_elem_of_here).
    rewrite without_middle in Q3 by apply Q2. rewrite app_nil_r in Q3.
    eexists. split; [done|].
    assert (records_after c c3 (no_effect (Actions None None None (Some r) None))) as R.
    { split; intros j; simpl; [unfold sview; by rewrite F5, E5|]. rewrite lookup_empty.
      unfold rview. rewrite F6, lookup_insert, E6. destruct (decide (r = j)) as [<-|]; [by rewrite Hr|done]. }
    split; [|exact R]. eapply chan_rep_build; [exact H| |exact Q3|exact R| | |apply H].
    + rewrite F1, F2, F3, F4. by rewrite E1, E2, E3, E4.
    + intros s' v' Hin. split; [apply not_elem_of_nil|by left].
    + intros r' Hin. split; [done|by left].
  - rewrite prog_ret_bind.
    assert (get_recv r c1 = Some (RecvRecord None false false, c1)) as Hg1
      by (unfold get_recv; by rewrite E6, Hr).
    rewrite (prog_bind_ok _ _ _ _ _ Hg1). cbn [r_stop_requested negb]; cbv iota.
    eexists. split; [done|].
    assert (records_after c c1 (no_effect no_actions)) as R by (by apply records_none).
    split; [|exact R]. eapply chan_rep_build; [exact H| |exact Q1|exact R| | |].
    + simpl. by rewrite E1, E2, E3, E4.
    + intros s' v' Hin. split; [apply not_elem_of_nil|by left].
    + simpl. intros r' Hin. split; [done|].
      apply elem_of_app in Hin as [?| ->%list_elem_of_singleton]; [by left|right].
      unfold rview. by rewrite Hr.
    + destruct (cr_ok _ _ H) as [O1 O2 O3 O4]. split; simpl; try done.
      by rewrite <- Hstopped, <- Hclosed, orb_comm, Esc.
Qed.

Lemma start_recv_refines c sp r stop late alloc :
  chan_rep c sp -> ready_recv c sp r stop ->
  let '(sp', b, e) := spec_start_recv sp r stop late alloc in
  exists c', start_recv r late alloc c = Some ((b, e_actions e), c') /\ chan_rep c' sp' /\
    records_after c c' e.
Proof.
  intros H Hready. open_rep H. pose proof (cr_queues _ _ H) as Q.
  unfold spec_start_recv, start_recv. rewrite prog_read_bind. unfold id. rewrite Hbuffer.
  destruct (sp_buffer sp) as [|v rest] eqn:Eb.
  - rewrite (pending_sends_empty _ _ _ Q), nonempty_fst.
    destruct (sp_sends sp) as [|[s v] rest] eqn:Ess;
      [rewrite (bool_decide_true (@nil (record_id * T) = [])) by done
      |rewrite (bool_decide_false ((s, v) :: rest = [])) by done]; cbn [negb]; cbv iota.
    + rewrite <- Hstopped, <- Hclosed. destruct (stopped c || closed c) eqn:Esc; cbn [orb]; cbv iota.
      { exists c. split; [done|]. split; [done|by apply records_none]. }
      assert (get_recv r c = Some (RecvRecord None stop false, c)) as Hg
        by (unfold get_recv; by rewrite (proj1 Hready)).
      rewrite (prog_bind_ok _ _ _ _ _ Hg). cbn [r_stop_requested]. destruct stop; cbn [orb]; cbv iota.
      { exists c. split; [done|]. split; [done|by apply records_none]. }
      pose proof (recv_wait c sp r late H Hready Eb Ess Esc) as Hw. by destruct late.
    + destruct (take_pending _ _ _ _ _ H Ess) as (c1 & c2 & Hp & Ht & H2 & R2 & Er).
      rewrite (prog_bind_ok _ _ _ _ _ Hp), prog_defined_bind, (prog_bind_ok _ _ _ _ _ Ht).
      destruct (prepare_rep _ _ _ v _ H2 (ready_recv_sends _ _ _ _ _ _ Hready Er eq_refl))
        as (c3 & Hpr & H3 & R3 & _).
      rewrite (prog_bind_ok _ _ _ _ _ Hpr). exists c3. split; [done|]. split; [done|].
      exact (records_trans _ _ _ _ _ _ R2 R3).
  - destruct (prepare_rep _ _ _ v _ H Hready) as (c1 & Hpr & H1 & R1 & _).
    rewrite (prog_bind_ok _ _ _ _ _ Hpr), prog_modify_bind.
    pose proof (buffer_pop _ _ _ _ H1 Eb) as H2.
    pose proof (promote_refines c (with_buffer rest c1) _
      (Effect (Actions (Some r) None None None None) [] [(r, v)]) alloc H2) as Hprom.
    destruct (spec_promote _ _ _) as [sp' e']. destruct Hprom as (c3 & Hrun & H3 & R3).
    { by destruct R1. }
    exists c3. rewrite (prog_bind_ok _ _ _ _ _ Hrun). done.
Qed.

Lemma try_send_refines c sp v alloc :
  chan_rep c sp ->
  let '(sp', b, e) := spec_try_send sp v alloc in
  exists c', try_send v alloc c = Some ((b, e_actions e), c') /\ chan_rep c' sp' /\
    records_after c c' e.
Proof.
  intros H. open_rep H. pose proof (cr_queues _ _ H) as Q. pose proof (cr_ok _ _ H) as Ho.
  unfold spec_try_send, try_send. rewrite prog_read_bind. unfold id. rewrite <- Hstopped, <- Hclosed.
  destruct (stopped c || closed c) eqn:Esc.
  { exists c. split; [done|]. split; [done|by apply records_none]. }
  rewrite (pending_recvs_empty _ _ _ Q), (pending_sends_empty _ _ _ Q), nonempty_fst.
  destruct (sp_recvs sp) as [|r rs] eqn:Er;
    [rewrite (bool_decide_true (@nil record_id = [])) by done
    |rewrite (bool_decide_false (r :: rs = [])) by done]; cbn [negb]; cbv iota.
  - assert (has_space c = sp_space sp) as -> by (unfold has_space, sp_space; by rewrite Hcap, Hbuffer).
    destruct (bool_decide (sp_sends sp = []) && sp_space sp) eqn:Esp.
    2: { exists c. split; [done|]. split; [done|by apply records_none]. }
    apply andb_true_iff in Esp as [Ess%bool_decide_eq_true Esp]. destruct alloc.
    2: { exists c. split; [done|]. split; [done|by apply records_none]. }
    rewrite prog_modify_bind. eexists. split; [done|].
    match goal with |- chan_rep ?c2 _ /\ _ => set (cf := c2) end.
    assert (records_after c cf (no_effect no_actions)) as R by (by apply records_none).
    split; [|exact R]. eapply chan_rep_build; [exact H| | |exact R| | |].
    + simpl. by rewrite Hbuffer.
    + simpl. rewrite Er. by eapply queues_rep_core.
    + simpl. rewrite Ess. by intros ?? ?%not_elem_of_nil.
    + simpl. rewrite Er. by intros ? ?%not_elem_of_nil.
    + apply spec_buffer_push; [done|by rewrite <- Hstopped, <- Hclosed|done|done].
  - assert (r ∈ sp_recvs sp) as Hr by (rewrite Er; apply list_elem_of_here).
    destruct (rview_some _ _ _ (cr_recvs _ _ H r Hr)) as (y & Hy & [= Hyv Hyd]).
    destruct (recvs_pop_ok _ _ _ _ Q) as (c1 & Hp & Q1 & Hc1). injection Hc1 as E1 E2 E3 E4 E5 E6.
    rewrite (prog_bind_ok _ _ _ _ _ Hp), prog_defined_bind.
    assert (recvs c1 !! r = Some y) as Hy1 by (by rewrite E6).
    rewrite (prog_bind_ok _ _ _ _ _ (prepare_value_ok _ _ _ v Hy1)).
    set (c2 := with_recvs _ c1). exists c2. split; [done|].
    assert (records_after c c2 (Effect (Actions (Some r) None None None None) [] [(r, v)])) as R.
    { eapply (records_given c c2); [exact Hy|done|simpl; by rewrite E5|simpl; by rewrite E6]. }
    pose proof (rep_recvs_nodup _ _ H) as Hnd. rewrite Er in Hnd. apply NoDup_cons in Hnd as [Hnr _].
    split; [|exact R]. eapply chan_rep_build; [exact H| | |exact R| | |by eapply spec_handoff].
    + simpl. by rewrite E1, E2, E3, E4.
    + simpl. apply queues_rep_recv; [exact Q1|by eexists].
    + simpl. destruct (so_exclusive _ Ho) as [_ ->]; [by rewrite Er|]. by intros ?? ?%not_elem_of_nil.
    + simpl. intros j Hj. split; [|left; rewrite Er; by right].
      rewrite lookup_insert_ne; [done|by intros ->].
Qed.

Lemma try_recv_refines c sp alloc :
  chan_rep c sp ->
  let '(sp', o, e) := spec_try_recv sp alloc in
  exists c', try_recv alloc c = Some ((o, e_actions e), c') /\ chan_rep c' sp' /\
    records_after c c' e.
Proof.
  intros H. open_rep H. pose proof (cr_queues _ _ H) as Q.
  unfold spec_try_recv, try_recv. rewrite prog_read_bind. unfold id. rewrite Hbuffer.
  destruct (sp_buffer sp) as [|v rest] eqn:Eb.
  - rewrite (pending_sends_empty _ _ _ Q), nonempty_fst.
    destruct (sp_sends sp) as [|[s v] rest] eqn:Ess;
      [rewrite (bool_decide_true (@nil (record_id * T) = [])) by done
      |rewrite (bool_decide_false ((s, v) :: rest = [])) by done]; cbn [negb]; cbv iota.
    + exists c. split; [done|]. split; [done|by apply records_none].
    + destruct (take_pending _ _ _ _ _ H Ess) as (c1 & c2 & Hp & Ht & H2 & R2 & Er).
      rewrite (prog_bind_ok _ _ _ _ _ Hp), prog_defined_bind, (prog_bind_ok _ _ _ _ _ Ht).
      exists c2. split; [done|]. split; [done|]. by destruct R2.
  - rewrite prog_modify_bind. pose proof (buffer_pop _ _ _ _ H Eb) as H2.
    pose proof (promote_refines c (with_buffer rest c) _ (no_effect no_actions) alloc H2) as Hprom.
    destruct (spec_promote _ _ _) as [sp' e']. destruct Hprom as (c3 & Hrun & H3 & R3).
    { by apply records_none. }
    exists c3. rewrite (prog_bind_ok _ _ _ _ _ Hrun). done.
Qed.

(** No receive that waits was given a value, so [close] stops them all. *)
Lemma close_recvs_ok c rs :
  (forall r, r ∈ rs -> rview c r = Some (None, false)) -> close_recvs rs c = Some (RecvStopped <$> rs, c).
Proof.
  induction rs as [|r rs IH]; intros Hr; [done|]. simpl.
  destruct (rview_some _ _ _ (Hr r (list_elem_of_here _ _))) as (y & Hy & [= Hyv _]).
  assert (close_recv r c = Some (RecvStopped r, c)) as Hc.
  { unfold close_recv, get_recv, after. by rewrite Hy, <- Hyv. }
  rewrite (prog_bind_ok _ _ _ _ _ Hc).
  rewrite (prog_bind_ok _ _ _ _ _ (IH (fun j Hj => Hr j (list_elem_of_further _ _ _ Hj)))). done.
Qed.

Lemma close_refines c sp :
  chan_rep c sp ->
  let '(sp', l) := spec_close sp in
  exists c', close c = Some (l, c') /\ chan_rep c' sp' /\ records_after c c' (no_effect no_actions).
Proof.
  intros H. open_rep H. pose proof (cr_queues _ _ H) as Q. simpl.
  set (c0 := with_closed true c).
  assert (queues_rep c0 (sp_sends sp).*1 (sp_recvs sp)) as Q0 by (by eapply queues_rep_core).
  destruct (sends_take_ok _ _ _ Q0) as (c1 & Hs & Q1 & Hc1). injection Hc1 as E1 E2 E3 E4 E5 E6.
  destruct (recvs_take_ok _ _ _ Q1) as (c2 & Hr & Q2 & Hc2). injection Hc2 as F1 F2 F3 F4 F5 F6.
  unfold close. rewrite prog_modify_bind. fold c0.
  rewrite (prog_bind_ok _ _ _ _ _ Hs), (prog_bind_ok _ _ _ _ _ Hr).
  assert (records_after c c2 (no_effect no_actions)) as R.
  { apply records_none; [by rewrite F5, E5|by rewrite F6, E6]. }
  rewrite (prog_bind_ok _ _ _ _ _ (close_recvs_ok c2 (sp_recvs sp) ltac:(
    intros r Hin; rewrite (ra_recvs _ _ _ R); apply (cr_recvs _ _ H _ Hin)))).
  exists c2. split; [done|]. split; [|exact R].
  pose proof (cr_ok _ _ H) as [O1 O2 O3 O4].
  eapply chan_rep_build; [exact H| |exact Q2|exact R| | |by split].
  - rewrite F1, F2, F3, F4, E1, E2, E3, E4. done.
  - simpl. by intros ?? ?%not_elem_of_nil.
  - simpl. by intros ? ?%not_elem_of_nil.
Qed.

Lemma request_stop_refines c sp :
  chan_rep c sp ->
  let '(sp', l) := spec_request_stop sp in
  exists c', request_stop c = Some (l, c') /\ chan_rep c' sp' /\ records_after c c' (no_effect no_actions).
Proof.
  intros H. open_rep H. pose proof (cr_queues _ _ H) as Q. simpl.
  set (c0 := with_stopped true c).
  assert (queues_rep c0 (sp_sends sp).*1 (sp_recvs sp)) as Q0 by (by eapply queues_rep_core).
  destruct (sends_take_ok _ _ _ Q0) as (c1 & Hs & Q1 & Hc1). injection Hc1 as E1 E2 E3 E4 E5 E6.
  destruct (recvs_take_ok _ _ _ Q1) as (c2 & Hr & Q2 & Hc2). injection Hc2 as F1 F2 F3 F4 F5 F6.
  unfold request_stop. rewrite prog_modify_bind. fold c0.
  rewrite (prog_bind_ok _ _ _ _ _ Hs), (prog_bind_ok _ _ _ _ _ Hr), prog_modify_bind.
  eexists. split; [done|]. set (c3 := with_buffer [] c2).
  assert (records_after c c3 (no_effect no_actions)) as R.
  { apply records_none; simpl; [by rewrite F5, E5|by rewrite F6, E6]. }
  split; [|exact R].
  eapply chan_rep_build; [exact H| | |exact R| | |split; simpl; try done; lia].
  - simpl. rewrite F1, F2, F3, E1, E2, E3. done.
  - simpl. by eapply queues_rep_core.
  - simpl. by intros ?? ?%not_elem_of_nil.
  - simpl. by intros ? ?%not_elem_of_nil.
Qed.

Lemma filter_fst s (l : list (record_id * T)) :
  (filter (fun e => e.1 <> s) l).*1 = without s l.*1.
Proof.
  unfold without. induction l as [|[j v] l IH]; [done|]. csimpl.
  destruct (decide (j = s)) as [->|Hne].
  - by rewrite !filter_cons_False by naive_solver.
  - rewrite !filter_cons_True by done. csimpl. by rewrite IH.
Qed.

Lemma cancel_send_refines c sp s :
  chan_rep c sp ->
  let '(sp', l) := spec_cancel_send sp s in
  exists c', cancel_send s c = Some (l, c') /\ chan_rep c' sp' /\ records_after c c' (no_effect no_actions).
Proof.
  intros H. open_rep H. pose proof (cr_queues _ _ H) as Q. simpl.
  destruct (sends_remove_ok _ s _ _ Q) as (c1 & Hr & Q1 & Hc1). injection Hc1 as E1 E2 E3 E4 E5 E6.
  unfold cancel_send. rewrite (prog_bind_ok _ _ _ _ _ Hr). exists c1.
  split; [by case_decide|].
  assert (records_after c c1 (no_effect no_actions)) as R by (by apply records_none).
  split; [|exact R]. pose proof (cr_ok _ _ H) as [O1 O2 O3 O4].
  eapply chan_rep_build; [exact H| | |exact R| | |].
  - by rewrite E1, E2, E3, E4.
  - simpl. by rewrite filter_fst.
  - simpl. intros s' v' [_ Hin]%list_elem_of_filter. split; [apply not_elem_of_nil|by left].
  - intros r Hin. split; [done|by left].
  - split; simpl; try done.
    + intros Hne. destruct (O2 Hne) as [? ->]. done.
    + intros Hc. destruct (O3 Hc) as [-> ?]. done.
Qed.

Lemma cancel_recv_refines c sp r :
  chan_rep c sp ->
  let '(sp', l) := spec_cancel_recv sp r in
  exists c', cancel_recv r c = Some (l, c') /\ chan_rep c' sp' /\ records_after c c' (no_effect no_actions).
Proof.
  intros H. open_rep H. pose proof (cr_queues _ _ H) as Q. simpl.
  destruct (recvs_remove_ok _ r _ _ Q) as (c1 & Hr & Q1 & Hc1). injection Hc1 as E1 E2 E3 E4 E5 E6.
  unfold cancel_recv. rewrite (prog_bind_ok _ _ _ _ _ Hr). exists c1.
  split; [by case_decide|].
  assert (records_after c c1 (no_effect no_actions)) as R by (by apply records_none).
  split; [|exact R]. pose proof (cr_ok _ _ H) as [O1 O2 O3 O4].
  eapply chan_rep_build; [exact H| |exact Q1|exact R| | |].
  - by rewrite E1, E2, E3, E4.
  - intros s' v' Hin. split; [apply not_elem_of_nil|by left].
  - simpl. intros j [_ Hin]%list_elem_of_filter. split; [done|by left].
  - split; simpl; try done.
    + intros Hne. apply O2. intros E. by rewrite E in Hne.
    + intros Hc. destruct (O3 Hc) as [? ->]. done.
Qed.

(** The stop flags play no part in the representation. *)
Lemma chan_rep_views c c' sp :
  chan_rep c sp -> queues_rep c' (sp_sends sp).*1 (sp_recvs sp) ->
  (capacity c', closed c', stopped c', buffer c') = (capacity c, closed c, stopped c, buffer c) ->
  (forall s, s ∈ (sp_sends sp).*1 -> sview c' s = sview c s) ->
  (forall r, r ∈ sp_recvs sp -> rview c' r = rview c r) -> chan_rep c' sp.
Proof.
  intros [H1 H2 H3 H4 H5] Q [= E1 E2 E3 E4] Hs Hr. split; try done.
  - by rewrite E1, E2, E3, E4.
  - intros s v Hin. rewrite Hs by (by apply (list_elem_of_fmap_2 fst _ (s, v))). by apply H3.
  - intros r Hin. rewrite Hr by done. by apply H4.
Qed.

(** ** Completions *)

(** What completing [a] needs of its record, and what its receiver observes. *)
Definition completable c (a : completion) (o : signal (T := T)) : Prop :=
  match a with
  | SendValue s => o = SendSetValue s /\ exists x, sview c s = Some (x, false)
  | SendError s => o = SendSetError s /\ exists x, sview c s = Some (x, false)
  | SendStopped s => o = SendSetStopped s /\ exists x, sview c s = Some (x, false)
  | RecvValue r => exists v, o = RecvSetValue r v /\ rview c r = Some (Some v, false)
  | RecvStopped r => o = RecvSetStopped r /\ exists x, rview c r = Some (x, false)
  end.

Definition completes_send (a : completion) : option record_id :=
  match a with SendValue s | SendError s | SendStopped s => Some s | _ => None end.
Definition completes_recv (a : completion) : option record_id :=
  match a with RecvValue r | RecvStopped r => Some r | _ => None end.

(** Completing marks the record done and delivers exactly one signal. *)
Lemma complete_ok c sp a o :
  chan_rep c sp -> completable c a o ->
  (forall s, completes_send a = Some s -> s ∉ (sp_sends sp).*1) ->
  (forall r, completes_recv a = Some r -> r ∉ sp_recvs sp) ->
  exists c', complete a c = Some (Some o, c') /\ chan_rep c' sp /\
    (forall s, completes_send a <> Some s -> sview c' s = sview c s) /\
    (forall r, completes_recv a <> Some r -> rview c' r = rview c r) /\
    (forall s, completes_send a = Some s -> exists x, sview c' s = Some (x, true)) /\
    (forall r, completes_recv a = Some r -> exists x, rview c' r = Some (x, true)).
Proof.
  intros H Ha Hs Hr. pose proof (cr_queues _ _ H) as Q.
  assert (forall s x, sview c s = Some (x, false) -> completes_send a = Some s -> completes_recv a = None ->
    exists c', finish_send s o c = Some (Some o, c') /\ chan_rep c' sp /\
      (forall s, completes_send a <> Some s -> sview c' s = sview c s) /\
      (forall r, completes_recv a <> Some r -> rview c' r = rview c r) /\
      (forall s, completes_send a = Some s -> exists x, sview c' s = Some (x, true)) /\
      (forall r, completes_recv a = Some r -> exists x, rview c' r = Some (x, true))) as Hfs.
  { intros s x Hv Hcs Hcr. destruct (sview_some _ _ _ Hv) as (y & Hy & [= _ Hyd]).
    unfold finish_send, get_send, after. rewrite Hy, <- Hyd. eexists. split; [done|].
    set (c1 := with_sends _ c).
    assert (forall j, j <> s -> sview c1 j = sview c j) as Hj.
    { intros j Hj. unfold sview. simpl. by rewrite lookup_insert_ne. }
    split; [|split; [|split; [done|split; [|by rewrite Hcr]]]].
    - eapply chan_rep_views; [exact H|by apply queues_rep_send; [|eexists]|done| |done].
      intros j Hin. apply Hj. intros ->. by eapply Hs.
    - intros j Hne. apply Hj. congruence.
    - intros j Hjs. assert (j = s) as -> by congruence. exists None. unfold sview. simpl.
      by rewrite lookup_insert_eq. }
  assert (forall r (y : recv_record), recvs c !! r = Some y -> completes_recv a = Some r -> completes_send a = None ->
    let c' := with_recvs (<[r := RecvRecord (r_value y) (r_stop_requested y) true]> (recvs c)) c in
    chan_rep c' sp /\
      (forall s, completes_send a <> Some s -> sview c' s = sview c s) /\
      (forall r, completes_recv a <> Some r -> rview c' r = rview c r) /\
      (forall s, completes_send a = Some s -> exists x, sview c' s = Some (x, true)) /\
      (forall r, completes_recv a = Some r -> exists x, rview c' r = Some (x, true))) as Hfr.
  { intros r y Hy Hcr Hcs c1.
    assert (forall j, j <> r -> rview c1 j = rview c j) as Hj.
    { intros j Hj. unfold rview. simpl. by rewrite lookup_insert_ne. }
    split; [|split; [done|split; [|split; [by rewrite Hcs|]]]].
    - eapply chan_rep_views; [exact H|by apply queues_rep_recv; [|eexists]|done|done|].
      intros j Hin. apply Hj. intros ->. by eapply Hr.
    - intros j Hne. apply Hj. congruence.
    - intros j Hjs. assert (j = r) as -> by congruence. exists (r_value y). unfold rview. simpl.
      by rewrite lookup_insert_eq. }
  destruct a as [r|s|s|r|s]; simpl in Ha.
  - destruct Ha as (v & -> & Hv). destruct (rview_some _ _ _ Hv) as (y & Hy & [= Hyv Hyd]).
    unfold complete, get_recv, after. rewrite Hy, <- Hyd, <- Hyv. eexists. split; [done|].
    rewrite Hyv. by eapply (Hfr r y).
  - destruct Ha as [-> [x Hx]]. by eapply Hfs.
  - destruct Ha as [-> [x Hx]]. by eapply Hfs.
  - destruct Ha as [-> [x Hx]]. destruct (rview_some _ _ _ Hx) as (y & Hy & [= _ Hyd]).
    unfold complete, get_recv, after. rewrite Hy, <- Hyd. eexists. split; [done|].
    by eapply (Hfr r y).
  - destruct Ha as [-> [x Hx]]. by eapply Hfs.
Qed.
End channel_spec.
