(* ===== verification/ChannelSystem.v ===== *)
(** * The bounded channel as a concurrent system

    Threads run the critical sections of the channel in any order; the
    completions a critical section leaves are run later, outside the lock, in
    any order and interleaved with everything else, and stop callbacks store
    their flag and cancel at any time.  [step] is one atomic action;
    [reachable] are the states of all executions.  Two histories record which
    values the channel accepted and which it handed to receivers; a third one
    the values [try_recv] returned. *)
From S2P Require Import Prelude Linked RecordQueue Channel ChannelSpec.

Section system.
Context {T : Type}.
Implicit Types (v : T) (s r : record_id) (c : channel (T := T)).

Record system := System {
  ch : channel (T := T);
  work : list completion;
  log : list (signal (T := T));
  started_s : list record_id;
  started_r : list record_id;
  accepted : list T;
  handed : list T;
  returned : list T;
}.
Implicit Types (sy : system).

(** The value a send still holds, the value a receive was given. *)
Definition send_value_of c s : option T :=
  x ← sends c !! s; match s_value x with Some (Some v) => Some v | _ => None end.
Definition recv_value_of c r : option T := x ← recvs c !! r; r_value x.

(** The values that completions in [l] accepted, and those they hand over. *)
Definition values_accepted c (l : list completion) : list T :=
  omap (fun a => match a with SendValue s => send_value_of c s | _ => None end) l.
Definition values_handed c (l : list completion) : list T :=
  omap (fun a => match a with RecvValue r => recv_value_of c r | _ => None end) l.

(** The state after a critical section that took [ch sy] to [c'], left [l], and
    accepted or handed over [acc] and [hd] besides. *)
Definition advance sy c' l ns nr acc hd : system :=
  System c' (work sy ++ l) (log sy) (started_s sy ++ ns) (started_r sy ++ nr)
    (accepted sy ++ values_accepted (ch sy) l ++ acc) (handed sy ++ values_handed c' l ++ hd)
    (returned sy ++ hd).

Inductive step : system -> system -> Prop :=
  | step_connect_send sy s v c' :
      sends (ch sy) !! s = None -> connect_send s v (ch sy) = Some (tt, c') ->
      step sy (advance sy c' [] [] [] [] [])
  | step_connect_recv sy r c' :
      recvs (ch sy) !! r = None -> connect_recv r (ch sy) = Some (tt, c') ->
      step sy (advance sy c' [] [] [] [] [])
  | step_start_send sy s requested installed late alloc l c' :
      is_Some (sends (ch sy) !! s) -> s ∉ started_s sy ->
      send_start s requested installed late alloc (ch sy) = Some (l, c') ->
      step sy (advance sy c' l [s] [] [] [])
  | step_start_recv sy r requested installed late alloc l c' :
      is_Some (recvs (ch sy) !! r) -> r ∉ started_r sy ->
      recv_start r requested installed late alloc (ch sy) = Some (l, c') ->
      step sy (advance sy c' l [] [r] [] [])
  | step_try_send sy v alloc res a c' :
      try_send v alloc (ch sy) = Some ((res, a), c') ->
      step sy (advance sy c' (run a) [] [] (match res with Accepted => [v] | _ => [] end) [])
  | step_try_recv sy alloc o a c' :
      try_recv alloc (ch sy) = Some ((o, a), c') ->
      step sy (advance sy c' (run a) [] [] [] (option_list o))
  | step_close sy l c' : close (ch sy) = Some (l, c') -> step sy (advance sy c' l [] [] [] [])
  | step_request_stop sy l c' :
      request_stop (ch sy) = Some (l, c') -> step sy (advance sy c' l [] [] [] [])
  | step_flag_send sy s c' : flag_send s (ch sy) = Some (tt, c') -> step sy (advance sy c' [] [] [] [] [])
  | step_flag_recv sy r c' : flag_recv r (ch sy) = Some (tt, c') -> step sy (advance sy c' [] [] [] [] [])
  | step_cancel_send sy s l c' :
      cancel_send s (ch sy) = Some (l, c') -> step sy (advance sy c' l [] [] [] [])
  | step_cancel_recv sy r l c' :
      cancel_recv r (ch sy) = Some (l, c') -> step sy (advance sy c' l [] [] [] [])
  | step_complete sy w1 a w2 o c' :
      work sy = w1 ++ a :: w2 -> complete a (ch sy) = Some (o, c') ->
      step sy (System c' (w1 ++ w2) (log sy ++ option_list o) (started_s sy) (started_r sy)
        (accepted sy) (handed sy) (returned sy)).

Definition initial cap : system := System (make_channel cap) [] [] [] [] [] [] [].

Inductive reachable cap : system -> Prop :=
  | reachable_initial : reachable cap (initial cap)
  | reachable_step sy sy' : reachable cap sy -> step sy sy' -> reachable cap sy'.

(** ** The invariant *)

Definition signals_send (o : signal (T := T)) : option record_id :=
  match o with SendSetValue s | SendSetError s | SendSetStopped s => Some s | _ => None end.
(** The value a signal delivers. *)
Definition delivers (o : signal (T := T)) : option T :=
  match o with RecvSetValue _ v => Some v | _ => None end.
Definition signals_recv (o : signal (T := T)) : option record_id :=
  match o with RecvSetValue r _ | RecvSetStopped r => Some r | _ => None end.

(** The record of an outstanding completion is not done, and holds a value when
    the completion delivers one. *)
Definition outstanding c (a : completion) : Prop := exists o, completable c a o.

Record sys_ok sy sp : Prop := SysOk {
  sys_rep : chan_rep (ch sy) sp;
  sys_sends : omap completes_send (work sy) ++ omap signals_send (log sy) ++ (sp_sends sp).*1
    ≡ₚ started_s sy;
  sys_recvs : omap completes_recv (work sy) ++ omap signals_recv (log sy) ++ sp_recvs sp
    ≡ₚ started_r sy;
  sys_nodup : NoDup (started_s sy) /\ NoDup (started_r sy);
  sys_exists : (forall s, s ∈ started_s sy -> is_Some (sends (ch sy) !! s)) /\
    (forall r, r ∈ started_r sy -> is_Some (recvs (ch sy) !! r));
  sys_work : Forall (outstanding (ch sy)) (work sy);
  sys_unstarted_s : forall s, s ∉ started_s sy -> is_Some (sends (ch sy) !! s) ->
    exists v, sview (ch sy) s = Some (Some (Some v), false);
  sys_unstarted_r : forall r, r ∉ started_r sy -> is_Some (recvs (ch sy) !! r) ->
    rview (ch sy) r = Some (None, false);
  sys_fifo : exists dropped, accepted sy = handed sy ++ dropped ++ sp_buffer sp /\
    (sp_stopped sp = false -> dropped = []);
  sys_values : omap delivers (log sy) ++ values_handed (ch sy) (work sy) ++ returned sy ≡ₚ handed sy;
}.

(** What a critical section must do to the abstract channel for the invariant
    to survive: completions and pending records balance, exactly the records
    concerned change, values leave in the order they came. *)
Record balanced c c' sp sp' l ns nr acc hd (e : effect (T := T)) : Prop := Balanced {
  ba_sends : omap completes_send l ++ (sp_sends sp').*1 ≡ₚ ns ++ (sp_sends sp).*1;
  ba_recvs : omap completes_recv l ++ sp_recvs sp' ≡ₚ nr ++ sp_recvs sp;
  ba_taken : e_taken e ⊆ ns ++ (sp_sends sp).*1;
  ba_given : (e_given e).*1 ⊆ nr ++ sp_recvs sp;
  ba_values : forall r, RecvValue r ∈ l ->
    is_Some ((list_to_map (e_given e) : gmap record_id T) !! r);
  ba_fifo : exists dropped,
    sp_buffer sp ++ values_accepted c l ++ acc = (values_handed c' l ++ hd) ++ dropped ++ sp_buffer sp' /\
    (sp_stopped sp' = false -> dropped = []) /\
    (sp_stopped sp = true -> values_accepted c l ++ acc = [] /\ values_handed c' l ++ hd = []);
  ba_stopped : sp_stopped sp' = false -> sp_stopped sp = false;
  ba_capacity : sp_capacity sp' = sp_capacity sp;
}.

Lemma sview_exists c s : is_Some (sends c !! s) <-> is_Some (sview c s).
Proof. unfold sview. by rewrite fmap_is_Some. Qed.

Lemma rview_exists c r : is_Some (recvs c !! r) <-> is_Some (rview c r).
Proof. unfold rview. by rewrite fmap_is_Some. Qed.

(** Where the records of a state are. *)
Lemma pending_started sy sp s : sys_ok sy sp -> s ∈ (sp_sends sp).*1 -> s ∈ started_s sy.
Proof. intros H Hs. rewrite <- (sys_sends _ _ H), !elem_of_app. auto. Qed.

Lemma waiting_started sy sp r : sys_ok sy sp -> r ∈ sp_recvs sp -> r ∈ started_r sy.
Proof. intros H Hs. rewrite <- (sys_recvs _ _ H), !elem_of_app. auto. Qed.

Lemma work_started_s sy sp a s :
  sys_ok sy sp -> a ∈ work sy -> completes_send a = Some s -> s ∈ started_s sy /\ s ∉ (sp_sends sp).*1.
Proof.
  intros H Ha Hs. pose proof (proj1 (sys_nodup _ _ H)) as Hnd.
  assert (s ∈ omap completes_send (work sy)) as Hin by (apply list_elem_of_omap; eauto).
  rewrite <- (sys_sends _ _ H) in Hnd |- *. rewrite !elem_of_app. split; [auto|].
  apply NoDup_app in Hnd as (_ & Hd & _). intros Hp. eapply Hd; [exact Hin|]. apply elem_of_app. auto.
Qed.

Lemma work_started_r sy sp a r :
  sys_ok sy sp -> a ∈ work sy -> completes_recv a = Some r -> r ∈ started_r sy /\ r ∉ sp_recvs sp.
Proof.
  intros H Ha Hs. pose proof (proj2 (sys_nodup _ _ H)) as Hnd.
  assert (r ∈ omap completes_recv (work sy)) as Hin by (apply list_elem_of_omap; eauto).
  rewrite <- (sys_recvs _ _ H) in Hnd |- *. rewrite !elem_of_app. split; [auto|].
  apply NoDup_app in Hnd as (_ & Hd & _). intros Hp. eapply Hd; [exact Hin|]. apply elem_of_app. auto.
Qed.

(** Outstanding work only looks at its own record. *)
Lemma outstanding_ext c c' a :
  (forall s, completes_send a = Some s -> sview c' s = sview c s) ->
  (forall r, completes_recv a = Some r -> rview c' r = rview c r) ->
  outstanding c a -> outstanding c' a.
Proof.
  intros Hs Hr [o Ho]. exists o. destruct a; simpl in *; by rewrite ?Hs, ?Hr by done.
Qed.

Lemma recv_value_rview c r : recv_value_of c r = (p ← rview c r; p.1).
Proof. unfold recv_value_of, rview. by destruct (recvs c !! r). Qed.

Lemma handed_ext c c' l :
  (forall a r, a ∈ l -> completes_recv a = Some r -> rview c' r = rview c r) ->
  values_handed c' l = values_handed c l.
Proof.
  induction l as [|a l IH]; intros Hr; [done|]. unfold values_handed in *. csimpl.
  rewrite IH by (intros; eapply Hr; [by right|done]).
  destruct a as [r| | | |]; try done. rewrite !recv_value_rview.
  by rewrite (Hr (RecvValue r) r (list_elem_of_here _ _) eq_refl).
Qed.

Section advance.
Context (sy : system) (sp : spec (T := T)) (c' : channel (T := T)) (sp' : spec (T := T)).
Context (l : list completion) (ns nr : list record_id) (acc hd : list T) (e : effect (T := T)).
Hypothesis ok : sys_ok sy sp.
Hypothesis after : records_after (ch sy) c' e.
Hypothesis rep : chan_rep c' sp'.
Hypothesis new_s : NoDup ns /\ forall s, s ∈ ns -> s ∉ started_s sy /\ is_Some (sends (ch sy) !! s).
Hypothesis new_r : NoDup nr /\ forall r, r ∈ nr -> r ∉ started_r sy /\ is_Some (recvs (ch sy) !! r).
Hypothesis bal : balanced (ch sy) c' sp sp' l ns nr acc hd e.
#[local] Set Default Proof Using "All".

Lemma concerned_s s : s ∈ ns ++ (sp_sends sp).*1 -> exists x, sview (ch sy) s = Some (x, false).
Proof.
  intros [Hs|Hs]%elem_of_app.
  - destruct (proj2 new_s s Hs) as [Hn He]. destruct (sys_unstarted_s _ _ ok s Hn He) as [v Hv]. eauto.
  - apply list_elem_of_fmap in Hs as ([s' v] & -> & Hin). exists (Some (Some v)).
    by apply (cr_sends _ _ (sys_rep _ _ ok)).
Qed.

Lemma concerned_r r : r ∈ nr ++ sp_recvs sp -> rview (ch sy) r = Some (None, false).
Proof.
  intros [Hs|Hs]%elem_of_app.
  - destruct (proj2 new_r r Hs) as [Hn He]. by apply (sys_unstarted_r _ _ ok).
  - by apply (cr_recvs _ _ (sys_rep _ _ ok)).
Qed.

Lemma taken_outside s : s ∉ ns -> s ∉ (sp_sends sp).*1 -> sview c' s = sview (ch sy) s.
Proof.
  intros H1 H2. rewrite (ra_sends _ _ _ after), decide_False; [done|].
  intros Ht. apply (ba_taken _ _ _ _ _ _ _ _ _ _ bal) in Ht. apply elem_of_app in Ht as [|]; auto.
Qed.

Lemma given_outside r : r ∉ nr -> r ∉ sp_recvs sp -> rview c' r = rview (ch sy) r.
Proof.
  intros H1 H2. rewrite (ra_recvs _ _ _ after).
  destruct (list_to_map (e_given e) !! r) eqn:E; [|done].
  apply elem_of_list_to_map_2 in E. apply (list_elem_of_fmap_2 fst) in E.
  apply (ba_given _ _ _ _ _ _ _ _ _ _ bal) in E. apply elem_of_app in E as [|]; by exfalso; auto.
Qed.

Lemma exists_s s : is_Some (sends c' !! s) <-> is_Some (sends (ch sy) !! s).
Proof.
  rewrite !sview_exists. destruct (decide (s ∈ ns ++ (sp_sends sp).*1)) as [Hs|Hs].
  - destruct (concerned_s s Hs) as [x Hx]. rewrite (ra_sends _ _ _ after), Hx.
    case_decide; split; eauto.
  - rewrite not_elem_of_app in Hs. by rewrite taken_outside by tauto.
Qed.

Lemma exists_r r : is_Some (recvs c' !! r) <-> is_Some (recvs (ch sy) !! r).
Proof.
  rewrite !rview_exists. destruct (decide (r ∈ nr ++ sp_recvs sp)) as [Hs|Hs].
  - pose proof (concerned_r r Hs) as Hx. rewrite (ra_recvs _ _ _ after), Hx.
    destruct (list_to_map _ !! _); split; eauto.
  - rewrite not_elem_of_app in Hs. by rewrite given_outside by tauto.
Qed.

Lemma new_work : Forall (outstanding c') l.
Proof.
  apply Forall_forall. intros a Ha.
  assert (forall s, completes_send a = Some s -> exists x, sview c' s = Some (x, false)) as Hs.
  { intros s Hs. assert (s ∈ ns ++ (sp_sends sp).*1) as Hc.
    { rewrite <- (ba_sends _ _ _ _ _ _ _ _ _ _ bal). apply elem_of_app. left. apply list_elem_of_omap. eauto. }
    destruct (concerned_s s Hc) as [x Hx]. rewrite (ra_sends _ _ _ after), Hx. case_decide; eauto. }
  assert (forall r, completes_recv a = Some r -> exists x, rview c' r = Some (x, false) /\
    (a = RecvValue r -> is_Some x)) as Hr.
  { intros r Hr. assert (r ∈ nr ++ sp_recvs sp) as Hc.
    { rewrite <- (ba_recvs _ _ _ _ _ _ _ _ _ _ bal). apply elem_of_app. left. apply list_elem_of_omap. eauto. }
    pose proof (concerned_r r Hc) as Hx. rewrite (ra_recvs _ _ _ after), Hx.
    destruct (list_to_map (e_given e) !! r) as [v|] eqn:E; eexists; split; eauto.
    intros ->. destruct (ba_values _ _ _ _ _ _ _ _ _ _ bal r Ha) as [v Hv].
    by rewrite E in Hv. }
  destruct a as [r|s|s|r|s]; simpl in *.
  - destruct (Hr r eq_refl) as (x & Hx & Hv). destruct (Hv eq_refl) as [v ->].
    exists (RecvSetValue r v). simpl. eauto.
  - exists (SendSetValue s). simpl. auto.
  - exists (SendSetError s). simpl. auto.
  - destruct (Hr r eq_refl) as (x & Hx & _). exists (RecvSetStopped r). simpl. eauto.
  - exists (SendSetStopped s). simpl. auto.
Qed.

Lemma advance_ok : sys_ok (advance sy c' l ns nr acc hd) sp'.
Proof.
  pose proof (sys_nodup _ _ ok) as [Hn1 Hn2].
  split; simpl.
  - exact rep.
  - rewrite omap_app, <- (sys_sends _ _ ok).
    rewrite <- app_assoc, (Permutation_app_comm (omap completes_send l)), <- !app_assoc.
    f_equiv. f_equiv. rewrite (Permutation_app_comm _ ns), <- (ba_sends _ _ _ _ _ _ _ _ _ _ bal).
    apply Permutation_app_comm.
  - rewrite omap_app, <- (sys_recvs _ _ ok).
    rewrite <- app_assoc, (Permutation_app_comm (omap completes_recv l)), <- !app_assoc.
    f_equiv. f_equiv. rewrite (Permutation_app_comm _ nr), <- (ba_recvs _ _ _ _ _ _ _ _ _ _ bal).
    apply Permutation_app_comm.
  - destruct new_s as [? Hs], new_r as [? Hr]. split; apply NoDup_app; (split; [done|split; [|done]]).
    + intros s Hin Hns. by apply (Hs s Hns).
    + intros r Hin Hnr. by apply (Hr r Hnr).
  - destruct (sys_exists _ _ ok) as [He1 He2]. split.
    + intros s [Hs|Hs]%elem_of_app; apply exists_s; [by apply He1|by apply new_s].
    + intros r [Hr|Hr]%elem_of_app; apply exists_r; [by apply He2|by apply new_r].
  - apply Forall_app. split; [|exact new_work].
    pose proof (sys_work _ _ ok) as Hw. rewrite Forall_forall in Hw |- *. intros a Ha.
    eapply outstanding_ext; [| |by apply Hw].
    + intros s Hs. destruct (work_started_s _ _ _ _ ok Ha Hs) as [Hst Hp]. apply taken_outside; [|done].
      intros Hns. by apply (proj2 new_s s Hns).
    + intros r Hr. destruct (work_started_r _ _ _ _ ok Ha Hr) as [Hst Hp]. apply given_outside; [|done].
      intros Hnr. by apply (proj2 new_r r Hnr).
  - intros s [Hs Hns]%not_elem_of_app He. apply exists_s in He.
    rewrite taken_outside; [by apply (sys_unstarted_s _ _ ok)|done|].
    intros Hp. by apply Hs, (pending_started _ _ _ ok).
  - intros r [Hr Hnr]%not_elem_of_app He. apply exists_r in He.
    rewrite given_outside; [by apply (sys_unstarted_r _ _ ok)|done|].
    intros Hp. by apply Hr, (waiting_started _ _ _ ok).
  - destruct (sys_fifo _ _ ok) as (d & Hf & Hd).
    destruct (ba_fifo _ _ _ _ _ _ _ _ _ _ bal) as (d' & Hf' & Hd' & Hst).
    destruct (sp_stopped sp) eqn:Es.
    + destruct (Hst eq_refl) as [E1 E2]. rewrite E1, E2, app_nil_r, Hf.
      rewrite (so_stopped _ (cr_ok _ _ (sys_rep _ _ ok)) Es), app_nil_r.
      rewrite E1, E2, (so_stopped _ (cr_ok _ _ (sys_rep _ _ ok)) Es) in Hf'. simpl in Hf'.
      symmetry in Hf'. apply app_eq_nil in Hf' as [-> ->].
      exists d. rewrite !app_nil_r. split; [done|]. intros Hns.
      rewrite (ba_stopped _ _ _ _ _ _ _ _ _ _ bal Hns) in Es. done.
    + rewrite (Hd eq_refl) in Hf. simpl in Hf. exists d'. split; [|done].
      rewrite Hf, <- !app_assoc, Hf'. by rewrite <- !app_assoc.
  - unfold values_handed at 1. rewrite omap_app. fold (values_handed c' (work sy)) (values_handed c' l).
    rewrite (handed_ext (ch sy) c' (work sy)).
    + rewrite <- (sys_values _ _ ok). solve_Permutation.
    + intros a r Ha Hr. destruct (work_started_r _ _ _ _ ok Ha Hr) as [Hst Hp].
      apply given_outside; [|done]. intros Hnr. by apply (proj2 new_r r Hnr).
Qed.
End advance.

(** ** What the operations leave balanced *)

Lemma send_value_of_view c s v d : sview c s = Some (Some (Some v), d) -> send_value_of c s = Some v.
Proof.
  intros Hs. destruct (sview_some _ _ _ Hs) as (x & Hx & [= Ev _]).
  unfold send_value_of. rewrite Hx. simpl. by rewrite <- Ev.
Qed.

Lemma recv_value_of_given c c' e r v :
  records_after c c' e -> (list_to_map (e_given e) : gmap record_id T) !! r = Some v ->
  recv_value_of c' r = Some v.
Proof.
  intros R Hr. pose proof (ra_recvs _ _ _ R r) as Hv. rewrite Hr in Hv.
  destruct (rview_some _ _ _ Hv) as (x & Hx & [= Ev _]). unfold recv_value_of. rewrite Hx. simpl. by rewrite Ev.
Qed.

(** The parts of [balanced] that are plain list reasoning. *)
Ltac known :=
  repeat match goal with
  | H : sp_recvs _ = _ |- _ => rewrite H
  | H : sp_sends _ = _ |- _ => rewrite H
  | H : sp_buffer _ = _ |- _ => rewrite H
  end.

Ltac balance :=
  split; cbn -[values_accepted values_handed list_to_map]; known;
  try solve [ done | set_solver | csimpl; solve_Permutation
    | let r := fresh in let H := fresh in intros r H; rewrite ?elem_of_cons in H;
      destruct_or? H; try discriminate; try (by apply not_elem_of_nil in H);
      simplify_eq; setoid_rewrite lookup_insert_eq; eauto ].

(** The values: [d] were dropped. *)
Ltac fifo d :=
  exists d; unfold values_accepted, values_handed; cbn;
  repeat match goal with
  | H : send_value_of _ _ = Some _ |- _ => rewrite !H
  | H : recv_value_of _ _ = Some _ |- _ => rewrite !H
  end; cbn; rewrite ?app_nil_r, <- ?app_assoc; try done;
  (split; [done|split; [done|first [done|congruence]]]).

Lemma balanced_idle c c' sp a : balanced c c' sp sp [] [] [] [] [] (no_effect a).
Proof. balance. fifo (@nil T). Qed.

Lemma balanced_stop_send c c' sp s a :
  balanced c c' sp sp [SendStopped s] [s] [] [] [] (no_effect a).
Proof. balance. fifo (@nil T). Qed.

Lemma balanced_stop_recv c c' sp r a :
  balanced c c' sp sp [RecvStopped r] [] [r] [] [] (no_effect a).
Proof. balance. fifo (@nil T). Qed.

Lemma balanced_start_send c c' sp s v stop late alloc :
  chan_rep c sp -> ready_send c sp s v stop ->
  let '(sp', b, e) := spec_start_send sp s v stop late alloc in
  records_after c c' e -> balanced c c' sp sp' (run (e_actions e)) [s] [] [] [] e.
Proof.
  intros H [Hs _]. pose proof (cr_ok _ _ H) as Ho. unfold spec_start_send.
  assert (send_value_of c s = Some v) as Hsv by (unfold send_value_of; by rewrite Hs).
  destruct (sp_stopped sp) eqn:Est; cbn [orb]; cbv iota; [intros _; apply balanced_stop_send|].
  destruct (sp_closed sp || stop); [intros _; apply balanced_stop_send|].
  destruct (sp_recvs sp) as [|r rs] eqn:Er.
  - destruct (bool_decide _ && _) eqn:Eb.
    + apply andb_true_iff in Eb as [Ess%bool_decide_eq_true _]. destruct alloc; intros R; balance.
      * fifo (@nil T).
      * fifo (@nil T).
    + destruct late; intros R; [apply balanced_stop_send|]. balance. 2: fifo (@nil T).
      rewrite fmap_app. apply Permutation_app_comm.
  - intros R. destruct (so_exclusive _ Ho) as [Eb _]; [by rewrite Er|]. balance.
    assert (recv_value_of c' r = Some v) by (by eapply recv_value_of_given; [exact R|apply lookup_insert_eq]).
    fifo (@nil T).
Qed.

(** The value at the head of the queue of sends. *)
Lemma pending_value c sp s v rest :
  chan_rep c sp -> sp_sends sp = (s, v) :: rest -> send_value_of c s = Some v.
Proof.
  intros H E. eapply send_value_of_view, (cr_sends _ _ H). rewrite E. apply list_elem_of_here.
Qed.

(** Nothing is buffered or pending on a stopped channel. *)
Lemma not_stopped c sp : chan_rep c sp -> sp_buffer sp <> [] \/ sp_sends sp <> [] -> sp_stopped sp = false.
Proof.
  intros H Hne. destruct (sp_stopped sp) eqn:E; [|done]. pose proof (cr_ok _ _ H) as [_ _ O3 O4].
  rewrite E, orb_true_r in O3. destruct (O3 eq_refl) as [E1 _]. specialize (O4 E).
  destruct Hne; congruence.
Qed.

Lemma balanced_start_recv c c' sp r stop late alloc :
  chan_rep c sp ->
  let '(sp', b, e) := spec_start_recv sp r stop late alloc in
  records_after c c' e -> balanced c c' sp sp' (run (e_actions e)) [] [r] [] [] e.
Proof.
  intros H. pose proof (cr_ok _ _ H) as Ho. unfold spec_start_recv.
  destruct (sp_buffer sp) as [|v rest] eqn:Eb.
  - destruct (sp_sends sp) as [|[s v] rest] eqn:Ess.
    + destruct (_ || late) eqn:Est; [intros _; apply balanced_stop_recv|]. intros R. balance. fifo (@nil T).
    + intros R. pose proof (pending_value _ _ _ _ _ H Ess).
      pose proof (not_stopped _ _ H ltac:(right; by rewrite Ess)).
      assert (recv_value_of c' r = Some v) by (by eapply recv_value_of_given; [exact R|apply lookup_insert_eq]).
      balance. fifo (@nil T).
  - unfold spec_promote. cbn [sp_sends sp_set_buffer]. pose proof (not_stopped _ _ H ltac:(left; by rewrite Eb)).
    destruct (sp_sends sp) as [|[s v'] rest'] eqn:Ess; [|destruct (sp_space _); [destruct alloc|]];
      intros R; try pose proof (pending_value _ _ _ _ _ H Ess);
      assert (recv_value_of c' r = Some v) by (by eapply recv_value_of_given; [exact R|apply lookup_insert_eq]);
      balance; fifo (@nil T).
Qed.

Lemma balanced_try_send c c' sp v alloc :
  chan_rep c sp ->
  let '(sp', res, e) := spec_try_send sp v alloc in
  records_after c c' e ->
  balanced c c' sp sp' (run (e_actions e)) [] [] (match res with Accepted => [v] | _ => [] end) [] e.
Proof.
  intros H. pose proof (cr_ok _ _ H) as Ho. unfold spec_try_send.
  destruct (sp_stopped sp) eqn:Est; cbn [orb]; cbv iota; [intros _; apply balanced_idle|].
  destruct (sp_closed sp); [intros _; apply balanced_idle|].
  destruct (sp_recvs sp) as [|r rs] eqn:Er.
  - destruct (bool_decide _ && _) eqn:Eb; [|intros _; apply balanced_idle].
    apply andb_true_iff in Eb as [Ess%bool_decide_eq_true _].
    destruct alloc; [|intros _; apply balanced_idle]. intros R. balance. fifo (@nil T).
  - intros R. destruct (so_exclusive _ Ho) as [Eb _]; [by rewrite Er|].
    assert (recv_value_of c' r = Some v) by (by eapply recv_value_of_given; [exact R|apply lookup_insert_eq]).
    balance. fifo (@nil T).
Qed.

Lemma balanced_try_recv c c' sp alloc :
  chan_rep c sp ->
  let '(sp', o, e) := spec_try_recv sp alloc in
  records_after c c' e -> balanced c c' sp sp' (run (e_actions e)) [] [] [] (option_list o) e.
Proof.
  intros H. unfold spec_try_recv. destruct (sp_buffer sp) as [|v rest] eqn:Eb.
  - destruct (sp_sends sp) as [|[s v] rest] eqn:Ess; [intros _; apply balanced_idle|].
    intros R. pose proof (pending_value _ _ _ _ _ H Ess).
    pose proof (not_stopped _ _ H ltac:(right; by rewrite Ess)). balance. fifo (@nil T).
  - unfold spec_promote. cbn [sp_sends sp_set_buffer]. pose proof (not_stopped _ _ H ltac:(left; by rewrite Eb)).
    destruct (sp_sends sp) as [|[s v'] rest'] eqn:Ess; [|destruct (sp_space _); [destruct alloc|]];
      intros R; try pose proof (pending_value _ _ _ _ _ H Ess); balance; fifo (@nil T).
Qed.

Lemma stops_sends rs ss :
  omap completes_send ((RecvStopped <$> rs) ++ (SendStopped <$> ss)) = ss.
Proof.
  rewrite omap_app. replace (omap completes_send (RecvStopped <$> rs)) with (@nil record_id) by (by induction rs).
  induction ss as [|s ss IH]; [done|]. csimpl. by f_equal.
Qed.

Lemma stops_recvs rs ss :
  omap completes_recv ((RecvStopped <$> rs) ++ (SendStopped <$> ss)) = rs.
Proof.
  rewrite omap_app. replace (omap completes_recv (SendStopped <$> ss)) with (@nil record_id) by (by induction ss).
  rewrite app_nil_r. induction rs as [|r rs IH]; [done|]. csimpl. by f_equal.
Qed.

Lemma stops_values c rs ss :
  let l := (RecvStopped <$> rs) ++ (SendStopped <$> ss) in
  values_accepted c l = [] /\ values_handed c l = [] /\ forall r, RecvValue r ∉ l.
Proof.
  intros l. unfold values_accepted, values_handed. subst l.
  split; [|split].
  - rewrite omap_app. induction rs as [|r rs IH]; csimpl; [by induction ss|done].
  - rewrite omap_app. induction rs as [|r rs IH]; csimpl; [by induction ss|done].
  - intros r. rewrite elem_of_app, !list_elem_of_fmap. naive_solver.
Qed.

(** Stopping every pending operation, possibly dropping the buffer. *)
Lemma balanced_stops c c' sp sp' a :
  sp_sends sp' = [] -> sp_recvs sp' = [] -> sp_capacity sp' = sp_capacity sp ->
  sp_buffer sp' = sp_buffer sp /\ sp_stopped sp' = sp_stopped sp \/ sp_buffer sp' = [] /\ sp_stopped sp' = true ->
  balanced c c' sp sp' ((RecvStopped <$> sp_recvs sp) ++ (SendStopped <$> (sp_sends sp).*1))
    [] [] [] [] (no_effect a).
Proof.
  intros Es Er Hcap Hb. destruct (stops_values c (sp_recvs sp) (sp_sends sp).*1) as (E1 & _ & _).
  destruct (stops_values c' (sp_recvs sp) (sp_sends sp).*1) as (_ & E2 & E3).
  split.
  - by rewrite stops_sends, Es, app_nil_r.
  - by rewrite stops_recvs, Er, app_nil_r.
  - simpl. set_solver.
  - simpl. set_solver.
  - intros r Hr. by apply E3 in Hr.
  - rewrite E1, E2. destruct Hb as [[-> ->]|[-> ->]].
    + exists []. by rewrite app_nil_r.
    + exists (sp_buffer sp). by rewrite !app_nil_r.
  - destruct Hb as [[? ->]|[? ->]]; [done|congruence].
  - done.
Qed.

Lemma without_perm s ks : NoDup ks -> s ∈ ks -> s :: without s ks ≡ₚ ks.
Proof.
  intros Hn (k1 & k2 & ->)%list_elem_of_split. rewrite without_middle by done.
  apply Permutation_middle.
Qed.

Lemma balanced_cancel_send c c' sp s a :
  chan_rep c sp ->
  let '(sp', l) := spec_cancel_send sp s in balanced c c' sp sp' l [] [] [] [] (no_effect a).
Proof.
  intros H. pose proof (rep_sends_nodup _ _ H) as Hn. simpl. case_decide as Hs.
  - balance; [|fifo (@nil T)]. rewrite filter_fst. by apply without_perm.
  - balance; [|fifo (@nil T)]. by rewrite filter_fst, without_absent.
Qed.

Lemma balanced_cancel_recv c c' sp r a :
  chan_rep c sp ->
  let '(sp', l) := spec_cancel_recv sp r in balanced c c' sp sp' l [] [] [] [] (no_effect a).
Proof.
  intros H. pose proof (rep_recvs_nodup _ _ H) as Hn. simpl. case_decide as Hs.
  - balance; [|fifo (@nil T)]. by apply without_perm.
  - balance; [|fifo (@nil T)]. fold (without r (sp_recvs sp)). by rewrite without_absent.
Qed.

(** ** Every step preserves the invariant *)

(** An operation that runs to its end and leaves the invariant's balance. *)
Definition runs c sp (m : prog channel (list completion)) ns nr : Prop :=
  exists l c' sp' e, m c = Some (l, c') /\ chan_rep c' sp' /\ records_after c c' e /\
    balanced c c' sp sp' l ns nr [] [] e.

Lemma unstarted_send sy sp s :
  sys_ok sy sp -> s ∉ started_s sy -> is_Some (sends (ch sy) !! s) ->
  exists v stop, ready_send (ch sy) sp s v stop.
Proof.
  intros H Hn He. destruct (sys_unstarted_s _ _ H s Hn He) as [v Hv].
  destruct (sview_some _ _ _ Hv) as ([x f d] & Hx & [= Ev Ed]). simpl in *. subst.
  exists v, f. split; [done|]. intros Hp. by apply Hn, (pending_started _ _ _ H).
Qed.

Lemma unstarted_recv sy sp r :
  sys_ok sy sp -> r ∉ started_r sy -> is_Some (recvs (ch sy) !! r) ->
  exists stop, ready_recv (ch sy) sp r stop.
Proof.
  intros H Hn He. pose proof (sys_unstarted_r _ _ H r Hn He) as Hv.
  destruct (rview_some _ _ _ Hv) as ([x f d] & Hx & [= Ev Ed]). simpl in *. subst.
  exists f. split; [done|]. intros Hp. by apply Hn, (waiting_started _ _ _ H).
Qed.

Lemma send_start_runs c sp s v stop requested installed late alloc :
  chan_rep c sp -> ready_send c sp s v stop ->
  runs c sp (send_start s requested installed late alloc) [s] [].
Proof.
  intros H Hs. unfold send_start.
  assert (records_after c c (no_effect no_actions)) as R0 by (by apply records_none).
  destruct requested; [by eexists _, _, sp, _; split; [|split; [|split; [|apply balanced_stop_send]]]|].
  assert (get_send s c = Some (SendRecord (Some (Some v)) stop false, c)) as Hg
    by (unfold get_send; by rewrite (proj1 Hs)).
  unfold runs. rewrite (prog_bind_ok _ _ _ _ _ Hg). cbn [s_done]; cbv iota.
  destruct installed; cbn [negb]; cbv iota;
    [|by eexists _, _, sp, _; split; [|split; [|split; [|apply balanced_stop_send]]]].
  pose proof (start_send_refines c sp s v stop late alloc H Hs) as Hr.
  destruct (spec_start_send sp s v stop late alloc) as [[sp' b] e] eqn:E.
  destruct Hr as (c' & Hrun & H' & R). rewrite (prog_bind_ok _ _ _ _ _ Hrun).
  exists (run (e_actions e)), c', sp', e. split; [done|]. split; [done|]. split; [done|].
  pose proof (balanced_start_send c c' sp s v stop late alloc H Hs) as Hb. rewrite E in Hb. auto.
Qed.

Lemma recv_start_runs c sp r stop requested installed late alloc :
  chan_rep c sp -> ready_recv c sp r stop ->
  runs c sp (recv_start r requested installed late alloc) [] [r].
Proof.
  intros H Hs. unfold recv_start.
  assert (records_after c c (no_effect no_actions)) as R0 by (by apply records_none).
  destruct requested; [by eexists _, _, sp, _; split; [|split; [|split; [|apply balanced_stop_recv]]]|].
  assert (get_recv r c = Some (RecvRecord None stop false, c)) as Hg
    by (unfold get_recv; by rewrite (proj1 Hs)).
  unfold runs. rewrite (prog_bind_ok _ _ _ _ _ Hg). cbn [r_done]; cbv iota.
  destruct installed; cbn [negb]; cbv iota;
    [|by eexists _, _, sp, _; split; [|split; [|split; [|apply balanced_stop_recv]]]].
  pose proof (start_recv_refines c sp r stop late alloc H Hs) as Hr.
  destruct (spec_start_recv sp r stop late alloc) as [[sp' b] e] eqn:E.
  destruct Hr as (c' & Hrun & H' & R). rewrite (prog_bind_ok _ _ _ _ _ Hrun).
  exists (run (e_actions e)), c', sp', e. split; [done|]. split; [done|]. split; [done|].
  pose proof (balanced_start_recv c c' sp r stop late alloc H) as Hb. rewrite E in Hb. auto.
Qed.

Lemma close_runs c sp : chan_rep c sp -> runs c sp close [] [].
Proof.
  intros H. pose proof (close_refines c sp H) as (c' & Hr & H' & R).
  eexists _, c', _, _. split; [exact Hr|]. split; [exact H'|]. split; [exact R|].
  apply balanced_stops; [done..|by left].
Qed.

Lemma request_stop_runs c sp : chan_rep c sp -> runs c sp request_stop [] [].
Proof.
  intros H. pose proof (request_stop_refines c sp H) as (c' & Hr & H' & R).
  eexists _, c', _, _. split; [exact Hr|]. split; [exact H'|]. split; [exact R|].
  apply balanced_stops; [done..|by right].
Qed.

Lemma cancel_send_runs c sp s : chan_rep c sp -> runs c sp (cancel_send s) [] [].
Proof.
  intros H. pose proof (cancel_send_refines c sp s H) as (c' & Hr & H' & R).
  eexists _, c', _, _. split; [exact Hr|]. split; [exact H'|]. split; [exact R|].
  by apply (balanced_cancel_send c c' sp s).
Qed.

Lemma cancel_recv_runs c sp r : chan_rep c sp -> runs c sp (cancel_recv r) [] [].
Proof.
  intros H. pose proof (cancel_recv_refines c sp r H) as (c' & Hr & H' & R).
  eexists _, c', _, _. split; [exact Hr|]. split; [exact H'|]. split; [exact R|].
  by apply (balanced_cancel_recv c c' sp r).
Qed.

(** The step that such an operation takes keeps the invariant. *)
Lemma runs_step sy sp m ns nr l c' :
  sys_ok sy sp -> runs (ch sy) sp m ns nr -> m (ch sy) = Some (l, c') ->
  (NoDup ns /\ forall s, s ∈ ns -> s ∉ started_s sy /\ is_Some (sends (ch sy) !! s)) ->
  (NoDup nr /\ forall r, r ∈ nr -> r ∉ started_r sy /\ is_Some (recvs (ch sy) !! r)) ->
  exists sp', sys_ok (advance sy c' l ns nr [] []) sp' /\ sp_capacity sp' = sp_capacity sp.
Proof.
  intros H (l0 & c0 & sp' & e & Hm & H' & R & B) Hrun Hs Hr. rewrite Hm in Hrun. simplify_eq.
  exists sp'. split; [by eapply advance_ok|apply B].
Qed.

Lemma none_new {A} (P : A -> Prop) : NoDup (@nil A) /\ forall j, j ∈ [] -> P j.
Proof. split; [constructor|]. by intros j ?%not_elem_of_nil. Qed.

Lemma one_new {A} (P : A -> Prop) k : P k -> NoDup [k] /\ forall j, j ∈ [k] -> P j.
Proof. intros Hk. split; [apply NoDup_singleton|]. by intros j ->%list_elem_of_singleton. Qed.

Lemma advance_idle sy c' :
  advance sy c' [] [] [] [] [] =
  System c' (work sy) (log sy) (started_s sy) (started_r sy) (accepted sy) (handed sy) (returned sy).
Proof. unfold advance. simpl. by rewrite !app_nil_r. Qed.

(** Adding a record nobody refers to yet. *)
Lemma queues_rep_connect_send c ss rs s x :
  queues_rep c ss rs -> sends c !! s = None ->
  queues_rep (Channel (capacity c) (closed c) (stopped c) (buffer c) (pending_sends c) (pending_recvs c)
    (<[s := None]> (send_next c)) (recv_next c) (<[s := x]> (sends c)) (recvs c)) ss rs.
Proof.
  intros [H1 H2 H3 H4] Hs. split; simpl; try done.
  - eapply queue_rep_ext; [exact H1|]. intros j Hj. apply (queue_rep_in _ _ _ _ H1) in Hj.
    apply H3 in Hj. rewrite lookup_insert_ne; [done|]. intros ->. rewrite Hs in Hj. by destruct Hj.
  - intros j. rewrite !lookup_insert. case_decide; [split; eauto|apply H3].
Qed.

Lemma queues_rep_connect_recv c ss rs r x :
  queues_rep c ss rs -> recvs c !! r = None ->
  queues_rep (Channel (capacity c) (closed c) (stopped c) (buffer c) (pending_sends c) (pending_recvs c)
    (send_next c) (<[r := None]> (recv_next c)) (sends c) (<[r := x]> (recvs c))) ss rs.
Proof.
  intros [H1 H2 H3 H4] Hs. split; simpl; try done.
  - eapply queue_rep_ext; [exact H2|]. intros j Hj. apply (queue_rep_in _ _ _ _ H2) in Hj.
    apply H4 in Hj. rewrite lookup_insert_ne; [done|]. intros ->. rewrite Hs in Hj. by destruct Hj.
  - intros j. rewrite !lookup_insert. case_decide; [split; eauto|apply H4].
Qed.

(** A step that changes nothing but records that are not started. *)
Lemma idle_step sy sp c' :
  sys_ok sy sp -> chan_rep c' sp ->
  (forall s, s ∈ started_s sy -> sview c' s = sview (ch sy) s) ->
  (forall r, r ∈ started_r sy -> rview c' r = rview (ch sy) r) ->
  (forall s, s ∉ started_s sy -> is_Some (sends c' !! s) ->
    exists v, sview c' s = Some (Some (Some v), false)) ->
  (forall r, r ∉ started_r sy -> is_Some (recvs c' !! r) -> rview c' r = Some (None, false)) ->
  sys_ok (advance sy c' [] [] [] [] []) sp.
Proof.
  intros H Hc Hs Hr Hus Hur. rewrite advance_idle. pose proof H as [H1 H2 H3 H4 [H5 H5'] H6 H7 H8 H9 H10].
  split; simpl; try done.
  2: { rewrite Forall_forall in H6 |- *. intros a Ha. eapply outstanding_ext; [| |by apply H6].
    + intros s Has. apply Hs. by eapply (work_started_s sy sp a).
    + intros r Har. apply Hr. by eapply (work_started_r sy sp a). }
  2: { rewrite (handed_ext (ch sy)); [done|]. intros a r Ha Har. apply Hr. by eapply (work_started_r sy sp a). }
  - split; intros j Hj; [apply sview_exists|apply rview_exists].
    + rewrite Hs by done. by apply sview_exists, H5.
    + rewrite Hr by done. by apply rview_exists, H5'.
Qed.

Lemma connect_send_step sy sp s v c' :
  sys_ok sy sp -> sends (ch sy) !! s = None -> connect_send s v (ch sy) = Some (tt, c') ->
  sys_ok (advance sy c' [] [] [] [] []) sp.
Proof.
  intros H Hn [= <-]. pose proof (sys_rep _ _ H) as Hc.
  assert (forall j, j ∈ started_s sy -> j <> s) as Hst.
  { intros j Hj ->. destruct (proj1 (sys_exists _ _ H) s Hj). congruence. }
  match goal with |- sys_ok (advance _ ?c2 _ _ _ _ _) _ => set (c1 := c2) end.
  assert (forall j, j <> s -> sview c1 j = sview (ch sy) j) as Hv.
  { intros j Hj. unfold sview. simpl. by rewrite lookup_insert_ne. }
  apply idle_step; [done| | |done| |].
  - eapply chan_rep_views; [exact Hc|apply queues_rep_connect_send; [apply Hc|done]|done| |done].
    intros j Hj. by apply Hv, Hst, (pending_started _ _ _ H).
  - intros j Hj. by apply Hv, Hst.
  - intros j Hj He. destruct (decide (j = s)) as [->|Hne].
    + exists v. unfold sview. simpl. by rewrite lookup_insert_eq.
    + simpl in He. rewrite lookup_insert_ne in He by done. rewrite Hv by done.
      by apply (sys_unstarted_s _ _ H).
  - apply (sys_unstarted_r _ _ H).
Qed.

Lemma connect_recv_step sy sp r c' :
  sys_ok sy sp -> recvs (ch sy) !! r = None -> connect_recv r (ch sy) = Some (tt, c') ->
  sys_ok (advance sy c' [] [] [] [] []) sp.
Proof.
  intros H Hn [= <-]. pose proof (sys_rep _ _ H) as Hc.
  assert (forall j, j ∈ started_r sy -> j <> r) as Hst.
  { intros j Hj ->. destruct (proj2 (sys_exists _ _ H) r Hj). congruence. }
  match goal with |- sys_ok (advance _ ?c2 _ _ _ _ _) _ => set (c1 := c2) end.
  assert (forall j, j <> r -> rview c1 j = rview (ch sy) j) as Hv.
  { intros j Hj. unfold rview. simpl. by rewrite lookup_insert_ne. }
  apply idle_step; [done| |done| | |].
  - eapply chan_rep_views; [exact Hc|apply queues_rep_connect_recv; [apply Hc|done]|done|done|].
    intros j Hj. by apply Hv, Hst, (waiting_started _ _ _ H).
  - intros j Hj. by apply Hv, Hst.
  - apply (sys_unstarted_s _ _ H).
  - intros j Hj He. destruct (decide (j = r)) as [->|Hne].
    + unfold rview. simpl. by rewrite lookup_insert_eq.
    + simpl in He. rewrite lookup_insert_ne in He by done. rewrite Hv by done.
      by apply (sys_unstarted_r _ _ H).
Qed.

Lemma flag_send_step sy sp s c' :
  sys_ok sy sp -> flag_send s (ch sy) = Some (tt, c') -> sys_ok (advance sy c' [] [] [] [] []) sp.
Proof.
  intros H Hf. pose proof (sys_rep _ _ H) as Hc. destruct (sends (ch sy) !! s) as [x|] eqn:Hs.
  2: { unfold flag_send, get_send, Prelude.after in Hf. by rewrite Hs in Hf. }
  rewrite (flag_send_ok _ _ _ Hs) in Hf. injection Hf as <-.
  match goal with |- sys_ok (advance _ ?c2 _ _ _ _ _) _ => set (c1 := c2) end.
  assert (forall j, sview c1 j = sview (ch sy) j) as Hv.
  { intros j. unfold sview. simpl. rewrite lookup_insert. case_decide; [subst; by rewrite Hs|done]. }
  apply idle_step; [done| |done|done| |].
  - eapply chan_rep_views; [exact Hc|apply queues_rep_send; [apply Hc|eauto]|done|done|done].
  - intros j Hj He. rewrite Hv. apply (sys_unstarted_s _ _ H); [done|].
    apply sview_exists. rewrite <- Hv. by apply sview_exists.
  - apply (sys_unstarted_r _ _ H).
Qed.

Lemma flag_recv_step sy sp r c' :
  sys_ok sy sp -> flag_recv r (ch sy) = Some (tt, c') -> sys_ok (advance sy c' [] [] [] [] []) sp.
Proof.
  intros H Hf. pose proof (sys_rep _ _ H) as Hc. destruct (recvs (ch sy) !! r) as [x|] eqn:Hs.
  2: { unfold flag_recv, get_recv, Prelude.after in Hf. by rewrite Hs in Hf. }
  rewrite (flag_recv_ok _ _ _ Hs) in Hf. injection Hf as <-.
  match goal with |- sys_ok (advance _ ?c2 _ _ _ _ _) _ => set (c1 := c2) end.
  assert (forall j, rview c1 j = rview (ch sy) j) as Hv.
  { intros j. unfold rview. simpl. rewrite lookup_insert. case_decide; [subst; by rewrite Hs|done]. }
  apply idle_step; [done| |done|done| |].
  - eapply chan_rep_views; [exact Hc|apply queues_rep_recv; [apply Hc|eauto]|done|done|done].
  - apply (sys_unstarted_s _ _ H).
  - intros j Hj He. rewrite Hv. apply (sys_unstarted_r _ _ H); [done|].
    apply rview_exists. rewrite <- Hv. by apply rview_exists.
Qed.

Lemma completable_signals c a o :
  completable c a o -> signals_send o = completes_send a /\ signals_recv o = completes_recv a.
Proof. destruct a; simpl; [intros (v & -> & _)|intros [-> _]..]; done. Qed.

Lemma completable_delivers c a o :
  completable c a o ->
  omap delivers [o] = values_handed c [a].
Proof.
  destruct a as [r| | | |]; simpl; [|intros [-> _]; done..]. intros (v & -> & Hv).
  unfold values_handed. csimpl. by rewrite recv_value_rview, Hv.
Qed.

(** A record has one outstanding completion at most. *)
Lemma work_once {A} (f : completion -> option A) w1 a w2 rest b :
  NoDup (omap f (w1 ++ a :: w2) ++ rest) -> b ∈ w1 ++ w2 -> is_Some (f a) -> f b <> f a.
Proof.
  intros Hn Hb [k Hk] E. apply NoDup_app in Hn as (Hn & _).
  rewrite omap_app in Hn. csimpl in Hn. rewrite Hk, <- Permutation_middle, <- omap_app in Hn.
  apply NoDup_cons in Hn as [Hn _]. apply Hn, list_elem_of_omap. exists b. by rewrite E.
Qed.

Lemma complete_runs sy sp a :
  sys_ok sy sp -> a ∈ work sy ->
  exists o c', complete a (ch sy) = Some (Some o, c') /\ completable (ch sy) a o /\ chan_rep c' sp /\
    (forall s, completes_send a <> Some s -> sview c' s = sview (ch sy) s) /\
    (forall r, completes_recv a <> Some r -> rview c' r = rview (ch sy) r) /\
    (forall s, is_Some (sends c' !! s) <-> is_Some (sends (ch sy) !! s)) /\
    (forall r, is_Some (recvs c' !! r) <-> is_Some (recvs (ch sy) !! r)).
Proof.
  intros H Ha. pose proof (sys_work _ _ H) as Hw. rewrite Forall_forall in Hw.
  destruct (Hw a Ha) as [o Ho].
  destruct (complete_ok (ch sy) sp a o (sys_rep _ _ H) Ho) as (c' & Hc & Hr & Hs & Hv & Hs' & Hr').
  - intros s Es. by eapply (work_started_s sy sp a).
  - intros r Er. by eapply (work_started_r sy sp a).
  - exists o, c'. do 5 (split; [done|]). split.
    + intros s. rewrite !sview_exists. destruct (decide (completes_send a = Some s)) as [E|E].
      * destruct (Hs' s E) as [x ->]. destruct (work_started_s _ _ _ _ H Ha E) as [Hst _].
        apply (sys_exists _ _ H), sview_exists in Hst. split; [done|eauto].
      * by rewrite Hs.
    + intros r. rewrite !rview_exists. destruct (decide (completes_recv a = Some r)) as [E|E].
      * destruct (Hr' r E) as [x ->]. destruct (work_started_r _ _ _ _ H Ha E) as [Hst _].
        apply (sys_exists _ _ H), rview_exists in Hst. split; [done|eauto].
      * by rewrite Hv.
Qed.

Lemma complete_step sy sp w1 a w2 o c' :
  sys_ok sy sp -> work sy = w1 ++ a :: w2 -> complete a (ch sy) = Some (o, c') ->
  sys_ok (System c' (w1 ++ w2) (log sy ++ option_list o) (started_s sy) (started_r sy)
    (accepted sy) (handed sy) (returned sy)) sp.
Proof.
  intros H Ew Hc. assert (a ∈ work sy) as Ha by (rewrite Ew; set_solver).
  destruct (complete_runs _ _ _ H Ha) as (o' & c0 & Hc' & Hco & Hr & Hs & Hv & He1 & He2).
  rewrite Hc' in Hc. injection Hc as <- <-. destruct (completable_signals _ _ _ Hco) as [Es Er].
  pose proof H as [H1 H2 H3 [H4 H4'] [H5 H5'] H6 H7 H8 H9 H10].
  split; simpl; try done.
  - rewrite <- H2, Ew, !omap_app. csimpl. rewrite Es. destruct (completes_send a); csimpl; solve_Permutation.
  - rewrite <- H3, Ew, !omap_app. csimpl. rewrite Er. destruct (completes_recv a); csimpl; solve_Permutation.
  - split; intros j Hj; [by apply He1, H5|by apply He2, H5'].
  - rewrite Forall_forall in H6 |- *. intros b Hb. eapply outstanding_ext; [| |apply H6; rewrite Ew; set_solver].
    + intros s Hbs. apply Hs. intros Has. rewrite <- H2, Ew in H4.
      eapply (work_once completes_send w1 a w2 _ b); [exact H4|done|eauto|congruence].
    + intros r Hbr. apply Hv. intros Har. rewrite <- H3, Ew in H4'.
      eapply (work_once completes_recv w1 a w2 _ b); [exact H4'|done|eauto|congruence].
  - intros s Hns Hex. rewrite Hs; [by apply H7; [|apply He1]|].
    intros E. by apply Hns, (work_started_s sy sp a s H Ha E).
  - intros r Hnr Hex. rewrite Hv; [by apply H8; [|apply He2]|].
    intros E. by apply Hnr, (work_started_r sy sp a r H Ha E).
  - rewrite <- H10, Ew, (handed_ext (ch sy) c0).
    + rewrite (app_assoc w1 [a] w2 : w1 ++ a :: w2 = _).
      rewrite omap_app, (completable_delivers _ _ _ Hco).
      unfold values_handed. rewrite !omap_app. solve_Permutation.
    + intros b r Hb Hbr. apply Hv. intros Har. rewrite <- H3, Ew in H4'.
      eapply (work_once completes_recv w1 a w2 _ b); [exact H4'|done|eauto|congruence].
Qed.

Lemma channel_step_ok sy sp sy' : sys_ok sy sp -> step sy sy' ->
  exists sp', sys_ok sy' sp' /\ sp_capacity sp' = sp_capacity sp.
Proof.
  intros H Hstep. pose proof (sys_rep _ _ H) as Hc.
  destruct Hstep as [sy s v c' Hn Hr|sy r c' Hn Hr|sy s rq ins late alloc l c' He Hn Hr
    |sy r rq ins late alloc l c' He Hn Hr|sy v alloc res a c' Hr|sy alloc o a c' Hr|sy l c' Hr|sy l c' Hr
    |sy s c' Hr|sy r c' Hr|sy s l c' Hr|sy r l c' Hr|sy w1 a w2 o c' Ew Hr].
  - exists sp. split; [by eapply connect_send_step|done].
  - exists sp. split; [by eapply connect_recv_step|done].
  - destruct (unstarted_send _ _ _ H Hn He) as (v & stop & Hs).
    eapply runs_step; [exact H|by apply (send_start_runs _ _ _ v stop)|exact Hr|by apply one_new|by apply none_new].
  - destruct (unstarted_recv _ _ _ H Hn He) as (stop & Hs).
    eapply runs_step; [exact H|by apply (recv_start_runs _ _ _ stop)|exact Hr|by apply none_new|by apply one_new].
  - pose proof (try_send_refines _ _ v alloc Hc) as Hf.
    pose proof (balanced_try_send (ch sy) c' _ v alloc Hc) as Hb.
    destruct (spec_try_send sp v alloc) as [[sp' res'] e]. destruct Hf as (c0 & Hf & H' & R).
    rewrite Hr in Hf. simplify_eq. exists sp'.
    split; [eapply advance_ok; [exact H|exact R|exact H'|apply none_new|apply none_new|by apply Hb]|by apply Hb].
  - pose proof (try_recv_refines _ _ alloc Hc) as Hf.
    pose proof (balanced_try_recv (ch sy) c' _ alloc Hc) as Hb.
    destruct (spec_try_recv sp alloc) as [[sp' o'] e]. destruct Hf as (c0 & Hf & H' & R).
    rewrite Hr in Hf. simplify_eq. exists sp'.
    split; [eapply advance_ok; [exact H|exact R|exact H'|apply none_new|apply none_new|by apply Hb]|by apply Hb].
  - eapply runs_step; [exact H|by apply close_runs|exact Hr|apply none_new|apply none_new].
  - eapply runs_step; [exact H|by apply request_stop_runs|exact Hr|apply none_new|apply none_new].
  - exists sp. split; [by eapply flag_send_step|done].
  - exists sp. split; [by eapply flag_recv_step|done].
  - eapply runs_step; [exact H|by apply cancel_send_runs|exact Hr|apply none_new|apply none_new].
  - eapply runs_step; [exact H|by apply cancel_recv_runs|exact Hr|apply none_new|apply none_new].
  - exists sp. split; [by eapply complete_step|done].
Qed.

Lemma initial_ok cap : sys_ok (initial cap) (Spec cap false false [] [] []).
Proof.
  assert (forall (A : Type) (m : gmap record_id A), (∅ : gmap record_id A) = m -> forall j, is_Some (m !! j) -> False) as He.
  { intros A m <- j [x Hx]. by rewrite lookup_empty in Hx. }
  split; simpl; try done.
  - split; simpl; try done.
    + split; simpl; try apply empty_rep; intros j; by rewrite !lookup_empty; split; intros [].
    + by intros ?? ?%not_elem_of_nil.
    + by intros ? ?%not_elem_of_nil.
    + split; simpl; try done. lia.
  - split; constructor.
  - split; by intros ? ?%not_elem_of_nil.
  - intros s _ Hs. by destruct (He _ _ eq_refl s Hs).
  - intros r _ Hr. by destruct (He _ _ eq_refl r Hr).
  - by exists [].
Qed.

Lemma channel_reachable_ok cap sy : reachable cap sy -> exists sp, sys_ok sy sp /\ sp_capacity sp = cap.
Proof.
  induction 1 as [|sy sy' _ [sp [H Hc]] Hs]; [eexists; split; [apply initial_ok|done]|].
  destruct (channel_step_ok _ _ _ H Hs) as (sp' & H' & Hc'). exists sp'. split; [done|congruence].
Qed.
End system.
