(* ===== verification/ChannelProps.v ===== *)
(** * The bounded channel: its properties

    What the channel promises, for every interleaving of its operations
    ([reachable] of ChannelSystem.v) and for every operation on its own (the
    refinement of ChannelSpec.v). *)
From S2P Require Import Prelude Linked RecordQueue Channel ChannelSpec ChannelSystem.

(** ** A small run, for the witnesses *)

(** The state and the result of an operation that is defined. *)
Definition outcome {S A} (o : option (A * S)) (d : A * S) : A * S := match o with Some p => p | None => d end.

(** A channel of capacity one: send 0 carries 7 and is buffered, send 1 carries
    8 and waits, receive 0 takes the 7 and lets the 8 into the buffer. *)
Definition demo0 : system (T := nat) := initial 1.
Definition demo_step (sy : system (T := nat)) (m : prog channel (list completion)) ns nr : system (T := nat) :=
  let '(l, c') := outcome (m (ch sy)) ([], ch sy) in advance sy c' l ns nr [] [].
Definition quiet (m : prog (channel (T := nat)) unit) : prog channel (list completion) :=
  after m (fun _ => give []).
Definition demo1 : system := demo_step demo0 (quiet (connect_send 0 7)) [] [].
Definition demo2 : system := demo_step demo1 (quiet (connect_send 1 8)) [] [].
Definition demo3 : system := demo_step demo2 (quiet (connect_recv 0)) [] [].
Definition demo4 : system := demo_step demo3 (send_start 0 false true false true) [0%Z] [].
Definition demo5 : system := demo_step demo4 (send_start 1 false true false true) [1%Z] [].
Definition demo6 : system := demo_step demo5 (recv_start 0 false true false true) [] [0%Z].

Lemma demo_reachable : reachable 1 demo6.
Proof.
  apply (reachable_step _ demo5); [apply (reachable_step _ demo4); [apply (reachable_step _ demo3);
    [apply (reachable_step _ demo2); [apply (reachable_step _ demo1); [apply (reachable_step _ demo0);
    [constructor|]|]|]|]|]|].
  - by apply (step_connect_send demo0 0 7).
  - by apply (step_connect_send demo1 1 8).
  - by apply (step_connect_recv demo2 0).
  - apply (step_start_send demo3 0 false true false true); [by eexists|apply not_elem_of_nil|by vm_compute].
  - apply (step_start_send demo4 1 false true false true); [by eexists|change (1%Z ∉ [0%Z]); by intros ?%list_elem_of_singleton|by vm_compute].
  - apply (step_start_recv demo5 0 false true false true); [by eexists|apply not_elem_of_nil|by vm_compute].
Qed.

Example demo_run :
  handed demo6 = [7] /\ accepted demo6 = [7; 8] /\ buffer (ch demo6) = [8] /\
  work demo6 = [SendValue 0; RecvValue 0; SendValue 1].
Proof. by vm_compute. Qed.

Lemma demo3_ok : sys_ok demo3 (Spec 1 false false [] [] []).
Proof.
  apply (connect_recv_step demo2 _ 0 (ch demo3)); [|done|done].
  apply (connect_send_step demo1 _ 1 8 (ch demo2)); [|done|done].
  apply (connect_send_step demo0 _ 0 7 (ch demo1)); [apply initial_ok|done|done].
Qed.

Lemma demo3_rep : chan_rep (ch demo3) (Spec 1 false false [] [] []).
Proof. apply demo3_ok. Qed.

Lemma demo3_send : ready_send (ch demo3) (Spec 1 false false [] [] []) 0 7 false.
Proof. split; [done|apply not_elem_of_nil]. Qed.

Lemma demo3_recv : ready_recv (ch demo3) (Spec 1 false false [] [] []) 0 false.
Proof. split; [done|apply not_elem_of_nil]. Qed.

Section properties.
Context {T : Type}.
Implicit Types (sy : system (T := T)) (c : channel (T := T)) (sp : spec (T := T)).

(** Running one outstanding completion. *)
Inductive completes : system (T := T) -> system (T := T) -> Prop :=
  | completes_one sy w1 a w2 o c' :
      work sy = w1 ++ a :: w2 -> complete a (ch sy) = Some (o, c') ->
      completes sy (System c' (w1 ++ w2) (log sy ++ option_list o) (started_s sy) (started_r sy)
        (accepted sy) (handed sy) (returned sy)).

Lemma completes_ok sy sp sy' :
  sys_ok sy sp -> completes sy sy' ->
  sys_ok sy' sp /\ length (work sy) = S (length (work sy')) /\
  started_s sy' = started_s sy /\ started_r sy' = started_r sy.
Proof.
  intros H Hs. destruct Hs as [sy w1 a w2 o c' Ew Hc]. split; [by eapply complete_step|].
  rewrite Ew. simpl. rewrite !length_app. simpl. split; [lia|done].
Qed.

Lemma completes_many n sy sp sy' :
  sys_ok sy sp -> nsteps completes n sy sy' ->
  sys_ok sy' sp /\ length (work sy) = n + length (work sy') /\
  started_s sy' = started_s sy /\ started_r sy' = started_r sy.
Proof.
  intros H Hn. induction Hn as [sy|n sy sy1 sy2 Hs _ IH]; [done|].
  destruct (completes_ok _ _ _ H Hs) as (H1 & E1 & E2 & E3). destruct (IH H1) as (H2 & F1 & F2 & F3).
  split; [done|]. split; [lia|]. split; congruence.
Qed.

(** C6: values leave the channel in the order they were accepted.  In every
    interleaving, the values handed over, then those a stop dropped, then the
    buffer are the values accepted, in this order; nothing is dropped unless the
    channel was stopped; every value handed over reaches exactly one receiver,
    by a signal sent, by one still to be sent, or by [try_recv]; the buffer never
    outgrows the capacity.  And every operation that was started is completed
    exactly once: the sends and the receives started are those that wait in a
    queue of the channel, those whose completion is still to run and those that
    were signalled, each of them once. *)
Theorem channel_exactly_once_in_order cap sy :
  reachable cap sy ->
  (exists dropped, accepted sy = handed sy ++ dropped ++ buffer (ch sy) /\
    (stopped (ch sy) = false -> dropped = [])) /\
  omap delivers (log sy) ++ values_handed (ch sy) (work sy) ++ returned sy ≡ₚ handed sy /\
  length (buffer (ch sy)) <= cap /\
  NoDup (started_s sy) /\ NoDup (started_r sy) /\
  exists ss rs, queues_rep (ch sy) ss rs /\
    omap completes_send (work sy) ++ omap signals_send (log sy) ++ ss ≡ₚ started_s sy /\
    omap completes_recv (work sy) ++ omap signals_recv (log sy) ++ rs ≡ₚ started_r sy.
Proof.
  intros (sp & H & <-)%channel_reachable_ok. destruct (cr_fields _ _ (sys_rep _ _ H)) as (_ & _ & Es & Eb).
  rewrite Es, Eb. split; [apply (sys_fifo _ _ H)|]. split; [apply (sys_values _ _ H)|].
  split; [apply (cr_ok _ _ (sys_rep _ _ H))|].
  destruct (sys_nodup _ _ H). split; [done|]. split; [done|].
  exists (sp_sends sp).*1, (sp_recvs sp). split; [apply (sys_rep _ _ H)|].
  split; [apply (sys_sends _ _ H)|apply (sys_recvs _ _ H)].
Qed.

Lemma waits_only cap sy :
  reachable cap sy ->
  (is_empty (pending_recvs (ch sy)) = false -> buffer (ch sy) = [] /\ is_empty (pending_sends (ch sy)) = true) /\
  (closed (ch sy) || stopped (ch sy) = true ->
    is_empty (pending_sends (ch sy)) = true /\ is_empty (pending_recvs (ch sy)) = true) /\
  (stopped (ch sy) = true -> buffer (ch sy) = []).
Proof.
  intros (sp & H & _)%channel_reachable_ok. pose proof (sys_rep _ _ H) as Hc.
  destruct (cr_fields _ _ Hc) as (_ & -> & -> & ->). destruct (cr_ok _ _ Hc) as [O1 O2 O3 O4].
  rewrite (pending_recvs_empty _ _ _ (cr_queues _ _ Hc)), (pending_sends_empty _ _ _ (cr_queues _ _ Hc)), nonempty_fst.
  split; [|split; [|done]].
  - intros Hr%bool_decide_eq_false. destruct (O2 Hr) as [-> ->]. done.
  - intros Hs. destruct (O3 Hs) as [-> ->]. done.
Qed.

(** Closing completes everything.  After [close], in whatever order the
    outstanding completions run: each run takes one of them away, none of them
    blocks, and when none is left every send and every receive ever started was
    signalled. *)
Lemma close_drains cap sy c' l n sy' :
  reachable cap sy -> close (ch sy) = Some (l, c') ->
  nsteps completes n (advance sy c' l [] [] [] []) sy' ->
  length (work sy') + n = length (work sy) + length l /\
  (work sy' <> [] -> exists sy'', completes sy' sy'') /\
  (work sy' = [] -> omap signals_send (log sy') ≡ₚ started_s sy /\
    omap signals_recv (log sy') ≡ₚ started_r sy).
Proof.
  intros (sp & H & _)%channel_reachable_ok Hc Hn. pose proof (close_refines _ _ (sys_rep _ _ H)) as (c0 & Hr & Hrep & R).
  rewrite Hc in Hr. injection Hr as -> <-.
  assert (sys_ok (advance sy c' ((RecvStopped <$> sp_recvs sp) ++ (SendStopped <$> (sp_sends sp).*1)) [] [] [] [])
    (spec_close sp).1) as H1.
  { eapply advance_ok; [exact H|exact R|exact Hrep|apply none_new|apply none_new|].
    apply balanced_stops; [done..|by left]. }
  destruct (completes_many _ _ _ _ H1 Hn) as (H2 & E1 & E2 & E3).
  split; [|split].
  - cbn [work advance] in E1. rewrite length_app in E1. lia.
  - intros Hw. destruct (work sy') as [|a w] eqn:Ew; [done|].
    destruct (complete_runs _ _ a H2) as (o & c2 & Ho & _); [rewrite Ew; apply list_elem_of_here|].
    eexists. eapply (completes_one sy' [] a w); [exact Ew|exact Ho].
  - intros Ew. pose proof (sys_sends _ _ H2) as Hs. pose proof (sys_recvs _ _ H2) as Hv.
    rewrite Ew, E2 in Hs. rewrite Ew, E3 in Hv. simpl in Hs, Hv. by rewrite !app_nil_r in Hs, Hv.
Qed.


(** C7: no operation of the channel ever goes wrong: in every interleaving none
    of them follows a dangling link, takes a value twice or completes a receive
    that holds no value, and every completion that is to run sends a signal.
    A receive only waits while there is nothing to receive; nothing waits on a
    channel that was closed or stopped, and a stopped channel holds no value.
    [close] completes everything: in whatever order the outstanding completions
    run after it, each run takes one of them away, none of them blocks, and when
    none is left every send and every receive ever started was signalled. *)
Theorem channel_never_fails cap sy :
  reachable cap sy ->
  (forall s requested installed late alloc, s ∉ started_s sy -> is_Some (sends (ch sy) !! s) ->
    is_Some (send_start s requested installed late alloc (ch sy))) /\
  (forall r requested installed late alloc, r ∉ started_r sy -> is_Some (recvs (ch sy) !! r) ->
    is_Some (recv_start r requested installed late alloc (ch sy))) /\
  (forall v alloc, is_Some (try_send v alloc (ch sy))) /\ (forall alloc, is_Some (try_recv alloc (ch sy))) /\
  is_Some (close (ch sy)) /\ is_Some (request_stop (ch sy)) /\ is_Some (shutdown (ch sy)) /\
  (forall s, is_Some (cancel_send s (ch sy))) /\ (forall r, is_Some (cancel_recv r (ch sy))) /\
  (forall a, a ∈ work sy -> exists o c', complete a (ch sy) = Some (Some o, c')) /\
  (is_empty (pending_recvs (ch sy)) = false -> buffer (ch sy) = [] /\ is_empty (pending_sends (ch sy)) = true) /\
  (closed (ch sy) || stopped (ch sy) = true ->
    is_empty (pending_sends (ch sy)) = true /\ is_empty (pending_recvs (ch sy)) = true) /\
  (stopped (ch sy) = true -> buffer (ch sy) = []) /\
  (forall l c' n sy', close (ch sy) = Some (l, c') -> nsteps completes n (advance sy c' l [] [] [] []) sy' ->
    length (work sy') + n = length (work sy) + length l /\
    (work sy' <> [] -> exists sy'', completes sy' sy'') /\
    (work sy' = [] -> omap signals_send (log sy') ≡ₚ started_s sy /\
      omap signals_recv (log sy') ≡ₚ started_r sy)).
Proof.
  intros Hr. destruct (waits_only _ _ Hr) as (Hw1 & Hw2 & Hw3).
  pose proof (fun l c' n sy' => close_drains cap sy c' l n sy' Hr) as Hdrains.
  apply channel_reachable_ok in Hr as (sp & H & _). pose proof (sys_rep _ _ H) as Hc.
  split; [|split; [|split; [|split; [|split; [|split; [|split; [|split; [|split; [|split; [|split; [exact Hw1|split; [exact Hw2|split; [exact Hw3|exact Hdrains]]]]]]]]]]]]].
  - intros s rq ins late alloc Hn He. destruct (unstarted_send _ _ _ H Hn He) as (v & stop & Hs).
    destruct (send_start_runs _ _ _ v stop rq ins late alloc Hc Hs) as (? & ? & ? & ? & -> & _). eauto.
  - intros r rq ins late alloc Hn He. destruct (unstarted_recv _ _ _ H Hn He) as (stop & Hs).
    destruct (recv_start_runs _ _ _ stop rq ins late alloc Hc Hs) as (? & ? & ? & ? & -> & _). eauto.
  - intros v alloc. pose proof (try_send_refines _ _ v alloc Hc) as Hf.
    destruct (spec_try_send sp v alloc) as [[? ?] ?]. destruct Hf as (? & -> & _). eauto.
  - intros alloc. pose proof (try_recv_refines _ _ alloc Hc) as Hf.
    destruct (spec_try_recv sp alloc) as [[? ?] ?]. destruct Hf as (? & -> & _). eauto.
  - destruct (close_refines _ _ Hc) as (? & -> & _). eauto.
  - destruct (request_stop_refines _ _ Hc) as (? & -> & _). eauto.
  - unfold shutdown. destruct (close_refines _ _ Hc) as (c' & E & H' & _).
    rewrite (prog_bind_ok _ _ _ _ _ E). destruct (request_stop_refines _ _ H') as (c2 & E2 & _).
    rewrite (prog_bind_ok _ _ _ _ _ E2). by eexists.
  - intros s. destruct (cancel_send_refines _ _ s Hc) as (? & -> & _). eauto.
  - intros r. destruct (cancel_recv_refines _ _ r Hc) as (? & -> & _). eauto.
  - intros a Ha. destruct (complete_runs _ _ _ H Ha) as (o & c' & Hr & _). eauto.
Qed.

Lemma start_operations_correct c sp :
  chan_rep c sp ->
  (forall s v stop late alloc, ready_send c sp s v stop ->
    let '(sp', pending, e) := spec_start_send sp s v stop late alloc in
    exists c', start_send s late alloc c = Some ((pending, e_actions e), c') /\ chan_rep c' sp' /\
      records_after c c' e) /\
  (forall r stop late alloc, ready_recv c sp r stop ->
    let '(sp', pending, e) := spec_start_recv sp r stop late alloc in
    exists c', start_recv r late alloc c = Some ((pending, e_actions e), c') /\ chan_rep c' sp' /\
      records_after c c' e).
Proof. intros H. split; intros; [by apply start_send_refines|by apply start_recv_refines]. Qed.

Lemma immediate_operations_correct c sp :
  chan_rep c sp ->
  let refines m (p : spec * list completion) :=
    exists c', m c = Some (p.2, c') /\ chan_rep c' p.1 /\ records_after c c' (no_effect no_actions) in
  (forall v alloc, let '(sp', res, e) := spec_try_send sp v alloc in
    exists c', try_send v alloc c = Some ((res, e_actions e), c') /\ chan_rep c' sp' /\ records_after c c' e) /\
  (forall alloc, let '(sp', o, e) := spec_try_recv sp alloc in
    exists c', try_recv alloc c = Some ((o, e_actions e), c') /\ chan_rep c' sp' /\ records_after c c' e) /\
  refines close (spec_close sp) /\ refines request_stop (spec_request_stop sp) /\
  (forall s, refines (cancel_send s) (spec_cancel_send sp s)) /\
  (forall r, refines (cancel_recv r) (spec_cancel_recv sp r)).
Proof.
  intros H refines. split; [by intros; apply try_send_refines|]. split; [by intros; apply try_recv_refines|].
  split; [by apply close_refines|]. split; [by apply request_stop_refines|].
  split; intros; [by apply cancel_send_refines|by apply cancel_recv_refines].
Qed.
(** C8: the operations refine the abstract ones on every branch.  A send is
    rejected when the channel is closed, stopped or the operation was asked to stop; handed to a
    waiting receive; buffered; failed when the buffer cannot allocate; queued; withdrawn when a stop
    request arrives in between.  A receive takes the oldest value of the buffer, and then a pending
    send moves up; otherwise that of a pending send; otherwise it queues, unless the channel is
    closed or stopped.  [try_send] leaves a rejected value to the caller, and nothing has changed
    when the allocation throws.  Closing and stopping complete all that waits, receives first, in
    the order they waited, and only stopping drops the buffer; a cancellation withdraws what waits. *)
Theorem channel_operations_refine c sp :
  chan_rep c sp ->
  ((forall s v stop late alloc, ready_send c sp s v stop ->
    let '(sp', pending, e) := spec_start_send sp s v stop late alloc in
    exists c', start_send s late alloc c = Some ((pending, e_actions e), c') /\ chan_rep c' sp' /\
      records_after c c' e) /\
  (forall r stop late alloc, ready_recv c sp r stop ->
    let '(sp', pending, e) := spec_start_recv sp r stop late alloc in
    exists c', start_recv r late alloc c = Some ((pending, e_actions e), c') /\ chan_rep c' sp' /\
      records_after c c' e)) /\
  (let refines m (p : spec * list completion) :=
    exists c', m c = Some (p.2, c') /\ chan_rep c' p.1 /\ records_after c c' (no_effect no_actions) in
  (forall v alloc, let '(sp', res, e) := spec_try_send sp v alloc in
    exists c', try_send v alloc c = Some ((res, e_actions e), c') /\ chan_rep c' sp' /\ records_after c c' e) /\
  (forall alloc, let '(sp', o, e) := spec_try_recv sp alloc in
    exists c', try_recv alloc c = Some ((o, e_actions e), c') /\ chan_rep c' sp' /\ records_after c c' e) /\
  refines close (spec_close sp) /\ refines request_stop (spec_request_stop sp) /\
  (forall s, refines (cancel_send s) (spec_cancel_send sp s)) /\
  (forall r, refines (cancel_recv r) (spec_cancel_recv sp r))).
Proof. intros H. split; [by apply start_operations_correct|by apply immediate_operations_correct]. Qed.
End properties.

(** ** The queue of records *)

(** The intrusive queue is a queue.  On a queue that holds [ks], pushing a
    record appends it, popping takes the first one, removing takes the record
    out wherever it is and reports a record that is not there, and taking the
    chain apart yields all of them in order; no link of a record outside the
    queue changes when it is pushed, popped or removed. *)
Theorem record_queue_correct nx q ks r :
  queue_rep nx q ks ->
  (r ∉ ks -> is_Some (nx !! r) -> exists q' nx', push_back q nx r = Some (q', nx') /\
    queue_rep nx' q' (ks ++ [r]) /\ links_kept nx nx' (ks ++ [r])) /\
  (exists q' nx', pop_front q nx = Some (q', nx', head ks) /\ queue_rep nx' q' (tail ks) /\
    links_kept nx nx' ks) /\
  (exists q' nx', remove q nx r = Some (q', nx', if decide (r ∈ ks) then Some r else None) /\
    queue_rep nx' q' (without r ks) /\ links_kept nx nx' ks) /\
  (exists nx', take_all q = (empty_queue, head ks) /\
    unchain (size nx) nx (head ks) = Some (ks, nx') /\ links_kept nx nx' ks).
Proof.
  intros H. split; [|split; [|split]].
  - intros Hr He. destruct (push_back_ok _ _ _ _ H Hr He) as (q' & nx' & ? & ? & _ & ?). eauto.
  - destruct ks as [|k ks]; [exists q, nx; by rewrite (pop_front_empty _ _ H)|].
    destruct (pop_front_ok _ _ _ _ H) as (q' & nx' & ? & ? & _ & Hk). exists q', nx'.
    split; [done|]. split; [done|]. intros j [Hj _]%not_elem_of_cons. apply Hk. by intros ->%list_elem_of_singleton.
  - case_decide as Hr.
    + apply list_elem_of_split in Hr as (k1 & k2 & ->). rewrite without_middle by apply H.
      destruct (remove_ok _ _ _ _ _ H) as (q' & nx' & ? & ? & _ & Hk). exists q', nx'.
      split; [done|]. split; [done|]. intros j Hj. apply Hk. set_solver.
    + exists q, nx. by rewrite (remove_absent _ _ _ _ H Hr), without_absent.
  - destruct (unchain_ok ks (size nx) nx) as (nx' & ? & _ & ?);
      [apply H|apply H|by eapply queue_rep_size|]. exists nx'. split; [by eapply take_all_ok|done].
Qed.

(** ** Witnesses *)

Lemma channel_exactly_once_in_order_witness : reachable 1 demo6 /\ NoDup (started_s demo6) /\
  (exists dropped, accepted demo6 = handed demo6 ++ dropped ++ buffer (ch demo6) /\
    (stopped (ch demo6) = false -> dropped = [])) /\ length (buffer (ch demo6)) <= 1.
Proof.
  split; [exact demo_reachable|].
  destruct (channel_exactly_once_in_order 1 demo6 demo_reachable) as (H1 & _ & H2 & H3 & _).
  split; [exact H3|]. split; [exact H1|exact H2].
Defined.

Lemma channel_never_fails_witness : reachable 1 demo6 /\ is_Some (shutdown (ch demo6)) /\
  (stopped (ch demo6) = true -> buffer (ch demo6) = []) /\
  exists l c', close (ch demo6) = Some (l, c') /\
    length (work (advance demo6 c' l [] [] [] [])) + 0 = length (work demo6) + length l.
Proof.
  split; [exact demo_reachable|].
  destruct (channel_never_fails 1 demo6 demo_reachable)
    as (_ & _ & _ & _ & Hclose & _ & Hshut & _ & _ & _ & _ & _ & Hst & Hdrains).
  split; [exact Hshut|]. split; [exact Hst|]. destruct Hclose as [[l c'] E]. exists l, c'. split; [exact E|].
  apply (Hdrains l c' 0 _ E). constructor.
Defined.

Lemma channel_operations_refine_witness : exists c1 c2 c3 c4,
  start_send 0 false true (ch demo3) = Some ((false, Actions None (Some 0%Z) None None None), c1) /\
  chan_rep c1 (Spec 1 false false [7] [] []) /\
  start_recv 0 false true (ch demo3) = Some ((true, no_actions), c2) /\
  chan_rep c2 (Spec 1 false false [] [] [0%Z]) /\
  try_send 9 true (ch demo3) = Some ((Accepted, no_actions), c3) /\
  chan_rep c3 (Spec 1 false false [9] [] []) /\
  close (ch demo3) = Some ([], c4) /\ chan_rep c4 (Spec 1 true false [] [] []).
Proof.
  destruct (channel_operations_refine (ch demo3) _ demo3_rep) as [[Hs Hr] (Ht & _ & (c4 & E4 & R4 & _) & _)].
  destruct (Hs 0%Z 7 false false true demo3_send) as (c1 & E1 & R1 & _).
  destruct (Hr 0%Z false false true demo3_recv) as (c2 & E2 & R2 & _).
  destruct (Ht 9 true) as (c3 & E3 & R3 & _). exists c1, c2, c3, c4.
  split; [exact E1|]. split; [exact R1|]. split; [exact E2|]. split; [exact R2|].
  split; [exact E3|]. split; [exact R3|]. by split.
Defined.

(** The records 1 and 2, linked. *)
Definition demo_links : links := <[1%Z := Some 2%Z]> (<[2%Z := None]> (<[3%Z := None]> ∅)).

Lemma demo_queue : queue_rep demo_links (RecordQueue (Some 1%Z) (Some 2%Z)) [1%Z; 2%Z].
Proof. split; [done|done|by split; [|split]|by apply (bool_decide_unpack _)]. Qed.

Lemma record_queue_correct_witness : exists q nx,
  push_back (RecordQueue (Some 1%Z) (Some 2%Z)) demo_links 3 = Some (q, nx) /\
  queue_rep nx q [1%Z; 2%Z; 3%Z].
Proof.
  destruct (record_queue_correct _ _ _ 3 demo_queue) as ((q & nx & H & Hq & _) & _).
  - by apply (bool_decide_unpack _).
  - by eexists.
  - exists q, nx. by split.
Defined.
