(* ===== verification/CountingScope.v ===== *)
(** * Counting scopes

    Models [simple_counting_scope] (backport/cpp26/execution/counting_scope.hpp):
    the state machine of a scope, the counter of its associations and the
    intrusive list of its joiners, the move-only handles of the associations, and
    the operations on all of them.  [counting_scope] adds a stop source and is in
    StopScope.v.

    [None] is [std::terminate], or a step through a pointer to nothing. *)
From S2P Require Import Prelude Linked.

#[local] Open Scope prog_scope.

(** ** The state machine *)

Inductive scope_state :=
  | unused | unused_and_closed | open | open_and_joining | closed | closed_and_joining | joined.

#[export] Instance scope_state_eq_dec : EqDecision scope_state.
Proof. solve_decision. Defined.

Definition scope_after_close (x : scope_state) : scope_state :=
  match x with
  | unused => unused_and_closed
  | open => closed
  | open_and_joining => closed_and_joining
  | _ => x
  end.

Definition scope_after_association (x : scope_state) : scope_state :=
  match x with unused => open | _ => x end.

(** The other states terminate the program. *)
Definition scope_after_join_start (x : scope_state) : option scope_state :=
  match x with
  | open | open_and_joining => Some open_and_joining
  | closed | closed_and_joining => Some closed_and_joining
  | _ => None
  end.

Definition scope_is_joining (x : scope_state) : bool :=
  match x with open_and_joining | closed_and_joining => true | _ => false end.

Definition scope_rejects_association (x : scope_state) : bool :=
  match x with unused | open | open_and_joining => false | _ => true end.

(** The next state, the next count, and whether the attempt succeeded. *)
Definition scope_try_associate (x : scope_state) (count limit : Z) : scope_state * Z * bool :=
  if (limit <=? count)%Z || scope_rejects_association x then (x, count, false)
  else (scope_after_association x, u64 (count + 1), true).

(** [max_associations]. *)
Definition max_associations : Z := (2 ^ 64 - 1)%Z.

(** ** A scope *)

Abbreviation joiner_id := Z.

(** [__join_state_base]. *)
Record join_state := JoinState { j_next : option joiner_id; j_registered : bool }.

(** The members of a scope, with the join operations it refers to. *)
Record scope := Scope {
  sc_state : scope_state;
  sc_count : Z;
  sc_joiners : option joiner_id;
  sc_ops : gmap joiner_id join_state;
}.

Definition new_scope : scope := Scope unused 0 None ∅.

Definition set_state x sc := Scope x (sc_count sc) (sc_joiners sc) (sc_ops sc).
Definition set_count n sc := Scope (sc_state sc) n (sc_joiners sc) (sc_ops sc).
Definition set_joiners p sc := Scope (sc_state sc) (sc_count sc) p (sc_ops sc).
Definition set_ops m sc := Scope (sc_state sc) (sc_count sc) (sc_joiners sc) m.

Definition close : prog scope unit := modify (fun sc => set_state (scope_after_close (sc_state sc)) sc).

Definition is_closed : prog scope bool := read (fun sc => scope_rejects_association (sc_state sc)).

Definition count : prog scope Z := read sc_count.

(** [__try_associate]: the result says whether the association is engaged. *)
Definition try_associate : prog scope bool :=
  sc ← read id;
  let '(x, _, engaged) := scope_try_associate (sc_state sc) (sc_count sc) max_associations in
  if negb engaged then give false else
  modify (set_state x) ;;
  modify (fun sc => set_count (u64 (sc_count sc + 1)) sc) ;;
  give true.

(** [__start_join]: [true] when there is nothing to wait for. *)
Definition start_join (j : joiner_id) : prog scope bool :=
  sc ← read id;
  if (sc_count sc =? 0)%Z then modify (set_state joined) ;; give true else
  x ← defined (scope_after_join_start (sc_state sc));
  modify (set_state x) ;;
  _ ← defined (sc_ops sc !! j);
  modify (set_ops (<[j := JoinState (sc_joiners sc) true]> (sc_ops sc))) ;;
  modify (set_joiners (Some j)) ;;
  give false.

(** [__complete_joiners]: the joiners it completes, in order, each taken off the
    list before it is completed. *)
Fixpoint complete_joiners (fuel : nat) (head : option joiner_id) : prog scope (list joiner_id) :=
  match head with
  | None => give []
  | Some j =>
      match fuel with
      | O => undefined
      | S fuel' =>
          sc ← read id;
          op ← defined (sc_ops sc !! j);
          modify (set_ops (<[j := JoinState None false]> (sc_ops sc))) ;;
          rest ← complete_joiners fuel' (j_next op);
          give (j :: rest)
      end
  end.

(** [__decrement]: the joiners it completes. *)
Definition decrement : prog scope (list joiner_id) :=
  sc ← read id;
  modify (set_count (u64 (sc_count sc - 1))) ;;
  if (sc_count sc =? 1)%Z && scope_is_joining (sc_state sc) then
    modify (set_state joined) ;;
    modify (set_joiners None) ;;
    complete_joiners (size (sc_ops sc)) (sc_joiners sc)
  else complete_joiners (size (sc_ops sc)) None.

(** The destructor terminates while there are associations. *)
Definition destroy : prog scope unit :=
  sc ← read id; if (sc_count sc =? 0)%Z then give tt else undefined.

(** ** Association handles *)

Abbreviation handle := Z.

(** A scope with the handles of its associations: a handle is engaged when it
    refers to the scope, empty otherwise. *)
Record owned := Owned { o_scope : scope; o_handles : gmap handle bool }.

Definition on_scope {A} (m : prog scope A) : prog owned A := fun o =>
  match m (o_scope o) with Some (a, sc) => Some (a, Owned sc (o_handles o)) | None => None end.
Definition get_handle (h : handle) : prog owned bool := fun o =>
  match o_handles o !! h with Some b => Some (b, o) | None => None end.
Definition put_handle (h : handle) (b : bool) : prog owned unit :=
  modify (fun o => Owned (o_scope o) (<[h := b]> (o_handles o))).

(** [__release]. *)
Definition release (h : handle) : prog owned (list joiner_id) :=
  b ← get_handle h;
  if negb b then give [] else put_handle h false ;; on_scope decrement.

(** [scope_token::try_associate], into the new handle [h]. *)
Definition token_try_associate (h : handle) : prog owned unit :=
  b ← on_scope try_associate; put_handle h b.

(** [scope_association::try_associate] of the handle [g]. *)
Definition association_try_associate (g h : handle) : prog owned unit :=
  e ← get_handle g;
  if negb e then put_handle h false else b ← on_scope try_associate; put_handle h b.

(** The move constructor. *)
Definition move_construct (h other : handle) : prog owned unit :=
  b ← get_handle other; put_handle other false ;; put_handle h b.

(** The move assignment. *)
Definition move_assign (h other : handle) : prog owned (list joiner_id) :=
  if decide (h = other) then give [] else
  l ← release h;
  b ← get_handle other; put_handle other false ;; put_handle h b ;; give l.

(** The destructor. *)
Definition destroy_handle (h : handle) : prog owned (list joiner_id) :=
  l ← release h;
  modify (fun o => Owned (o_scope o) (delete h (o_handles o))) ;; give l.
