(* ===== verification/CountingScopeSystem.v ===== *)
(** * Counting scopes: the invariant, and concurrent use

    [scope_ok sc js]: the scope [sc] is consistent and the joiners [js] wait on
    it.  Every operation of CountingScope.v keeps it; none of them terminates
    the program. *)
From S2P Require Import Prelude Linked CountingScope.

(** ** The list of joiners *)

Definition joiner_link (m : gmap joiner_id join_state) (j : joiner_id) : option (option joiner_id) :=
  j_next <$> m !! j.

(** The operations of [m] that are registered are [js], linked in this order. *)
Record joiners_rep (m : gmap joiner_id join_state) (p : option joiner_id) (js : list joiner_id) : Prop := JoinersRep {
  jr_head : p = head js;
  jr_links : sseg Some (joiner_link m) js None;
  jr_nodup : NoDup js;
  jr_flags : forall j op, m !! j = Some op -> j_registered op = bool_decide (j ∈ js);
}.

Lemma joiners_in m p js j : joiners_rep m p js -> j ∈ js -> is_Some (m !! j).
Proof.
  intros [_ H _ _] (l1 & l2 & ->)%list_elem_of_split. apply sseg_app in H as [_ [H _]].
  unfold joiner_link in H. destruct (m !! j); [eauto|done].
Qed.

Lemma joiners_push m p js j op :
  joiners_rep m p js -> m !! j = Some op -> j ∉ js ->
  joiners_rep (<[j := JoinState p true]> m) (Some j) (j :: js).
Proof.
  intros [-> Hl Hn Hf] Hm Hj. split; [done| |by constructor|].
  - split.
    + unfold joiner_link. rewrite lookup_insert_eq. simpl. by rewrite hd_or_Some.
    + eapply sseg_ext; [|exact Hl]. intros k Hk. unfold joiner_link. by rewrite lookup_insert_ne by (by intros ->).
  - intros k o. rewrite lookup_insert. case_decide as E.
    + subst. intros [= <-]. simpl. rewrite bool_decide_true; [done|apply list_elem_of_here].
    + intros Hk. rewrite (Hf k o Hk). apply bool_decide_ext. rewrite elem_of_cons. naive_solver.
Qed.

Lemma complete_joiners_ok js : forall fuel sc,
  joiners_rep (sc_ops sc) (head js) js -> length js <= fuel ->
  exists m, complete_joiners fuel (head js) sc = Some (js, set_ops m sc) /\
    joiners_rep m None [] /\ (forall j, is_Some (m !! j) <-> is_Some (sc_ops sc !! j)).
Proof.
  induction js as [|j js IH]; intros fuel sc [Hh Hl Hn Hf] Hfuel.
  - exists (sc_ops sc). destruct fuel; (split; [by destruct sc|]); (split; [|done]); split; try done; constructor.
  - destruct fuel as [|fuel]; simpl in Hfuel; [lia|]. destruct Hl as [Hj Hl].
    apply NoDup_cons in Hn as [Hni Hn]. simpl. rewrite prog_read_bind. unfold id.
    unfold joiner_link in Hj. destruct (sc_ops sc !! j) as [op|] eqn:Eop; [|done]. injection Hj as Hj.
    rewrite hd_or_Some in Hj. rewrite prog_defined_bind, prog_modify_bind.
    destruct (IH fuel (set_ops (<[j := JoinState None false]> (sc_ops sc)) sc)) as (m & Hm & Hr & Hd); [|lia|].
    + split; [done| |done|].
      * eapply sseg_ext; [|exact Hl]. intros k Hk. unfold joiner_link. simpl.
        by rewrite lookup_insert_ne by (by intros ->).
      * intros k o. simpl. rewrite lookup_insert. case_decide as E.
        -- subst. intros [= <-]. simpl. by rewrite bool_decide_false.
        -- intros Hk. rewrite (Hf k o Hk). apply bool_decide_ext. rewrite elem_of_cons. naive_solver.
    + rewrite Hj, (prog_bind_ok _ _ _ _ _ Hm). exists m. split; [done|]. split; [done|].
      intros k. rewrite Hd. simpl. rewrite lookup_insert. case_decide; [subst; rewrite Eop; split; eauto|done].
Qed.

(** ** The invariant of a scope *)

Record scope_ok (sc : scope) (js : list joiner_id) : Prop := ScopeOk {
  so_joiners : joiners_rep (sc_ops sc) (sc_joiners sc) js;
  so_range : (0 <= sc_count sc < 2 ^ 64)%Z;
  so_state : match sc_state sc with
    | unused | unused_and_closed | joined => sc_count sc = 0%Z /\ js = []
    | open | closed => js = []
    | open_and_joining | closed_and_joining => (0 < sc_count sc)%Z /\ js <> []
    end;
}.

Lemma new_scope_ok : scope_ok new_scope [].
Proof. split; simpl; [split; try done; constructor|lia|done]. Qed.

(** Joiners only wait while there is something to wait for. *)
Lemma joiners_wait sc js : scope_ok sc js -> js <> [] -> scope_is_joining (sc_state sc) = true /\ (0 < sc_count sc)%Z.
Proof. intros [_ _ H] Hj. destruct (sc_state sc); simpl; naive_solver. Qed.

Lemma close_ok sc js :
  scope_ok sc js -> exists sc', close sc = Some (tt, sc') /\ scope_ok sc' js /\
    sc_count sc' = sc_count sc /\ sc_ops sc' = sc_ops sc /\ sc_state sc' = scope_after_close (sc_state sc).
Proof.
  intros [H1 H2 H3]. eexists. split; [done|]. split; [|done]. split; simpl; try done.
  destruct (sc_state sc); simpl; tauto.
Qed.

(** Associating succeeds when the scope is not closed and the counter not full. *)
Definition accepts (sc : scope) : bool :=
  negb (scope_rejects_association (sc_state sc)) && (sc_count sc <? max_associations)%Z.

Lemma try_associate_ok sc js :
  scope_ok sc js -> exists sc', try_associate sc = Some (accepts sc, sc') /\ scope_ok sc' js /\
    sc_count sc' = (sc_count sc + if accepts sc then 1 else 0)%Z /\ sc_ops sc' = sc_ops sc /\
    sc_state sc' = (if accepts sc then scope_after_association (sc_state sc) else sc_state sc).
Proof.
  intros H. pose proof H as [H1 H2 H3]. unfold try_associate, scope_try_associate, accepts.
  rewrite prog_read_bind. unfold id. destruct (Z.leb_spec max_associations (sc_count sc)) as [Hm|Hm].
  { exists sc. rewrite (proj2 (Z.ltb_ge _ _)) by lia. rewrite andb_false_r. simpl. split; [done|].
    split; [done|]. split; [lia|done]. }
  rewrite (proj2 (Z.ltb_lt _ _)) by lia. rewrite andb_true_r, orb_false_l.
  destruct (scope_rejects_association (sc_state sc)) eqn:E; simpl.
  { exists sc. split; [done|]. split; [done|]. split; [lia|done]. }
  rewrite prog_modify_bind. eexists. split; [done|]. unfold max_associations in Hm.
  split; [|split; [|done]]; simpl; [|rewrite u64_small; lia].
  split; simpl; rewrite ?u64_small by lia; [done|lia|].
  destruct (sc_state sc); simpl in *; try done; try lia; naive_solver lia.
Qed.

Lemma start_join_ok sc js j :
  scope_ok sc js -> is_Some (sc_ops sc !! j) -> j ∉ js ->
  let now := (sc_count sc =? 0)%Z in
  exists sc', start_join j sc = Some (now, sc') /\ scope_ok sc' (if now then js else j :: js) /\
    sc_count sc' = sc_count sc /\ (forall k, is_Some (sc_ops sc' !! k) <-> is_Some (sc_ops sc !! k)) /\
    (if now then sc_state sc' = joined else scope_is_joining (sc_state sc') = true) /\
    (scope_rejects_association (sc_state sc) = true -> scope_rejects_association (sc_state sc') = true).
Proof.
  intros H [op Hop] Hj now. pose proof H as [H1 H2 H3]. subst now. unfold start_join.
  rewrite prog_read_bind. unfold id. destruct (Z.eqb_spec (sc_count sc) 0) as [E|E].
  - rewrite prog_modify_bind. eexists. split; [done|]. split; [|done]. split; simpl; try done.
    split; [done|]. destruct js as [|k js]; [done|]. destruct (joiners_wait _ _ H); [done|lia].
  - destruct (sc_state sc) eqn:Es; simpl in H3; try (exfalso; lia);
      cbn [scope_after_join_start]; rewrite prog_defined_bind, prog_modify_bind, Hop, prog_defined_bind,
        !prog_modify_bind; (eexists; split; [done|]);
      (split; [split; simpl; [by eapply joiners_push|done|split; [lia|done]]|]);
      (split; [done|]); (split; [|done]); intros k; simpl; rewrite lookup_insert;
      (case_decide; [subst; rewrite Hop; split; eauto|done]).
Qed.

Lemma decrement_ok sc js :
  scope_ok sc js -> (0 < sc_count sc)%Z ->
  let last := (sc_count sc =? 1)%Z in
  exists sc', decrement sc = Some (if last then js else [], sc') /\ scope_ok sc' (if last then [] else js) /\
    sc_count sc' = (sc_count sc - 1)%Z /\ (forall k, is_Some (sc_ops sc' !! k) <-> is_Some (sc_ops sc !! k)) /\
    (if last && scope_is_joining (sc_state sc) then sc_state sc' = joined else sc_state sc' = sc_state sc).
Proof.
  intros H Hpos last. pose proof H as [H1 H2 H3]. subst last. unfold decrement.
  rewrite prog_read_bind. unfold id. rewrite prog_modify_bind.
  destruct (Z.eqb_spec (sc_count sc) 1) as [E|E]; cbn [andb].
  - destruct (scope_is_joining (sc_state sc)) eqn:Ej.
    + rewrite !prog_modify_bind.
      destruct (complete_joiners_ok js (size (sc_ops sc))
        (set_joiners None (set_state joined (set_count (u64 (sc_count sc - 1)) sc)))) as (m & Hm & Hr & Hd).
      * by rewrite <- (jr_head _ _ _ H1).
      * apply nodup_size; [apply H1|]. intros k. by eapply joiners_in.
      * rewrite (jr_head _ _ _ H1), Hm. eexists. split; [done|]. simpl in Hd |- *.
        rewrite E. split; [|by split]. split; simpl; try done.
    + assert (js = []) as -> by (destruct js; [done|]; destruct (joiners_wait _ _ H); congruence).
      replace (complete_joiners (size (sc_ops sc)) None (set_count (u64 (sc_count sc - 1)) sc))
        with (Some (@nil joiner_id, set_count (u64 (sc_count sc - 1)) sc)) by (by destruct (size _)).
      eexists. split; [done|]. simpl. rewrite u64_small by lia. split; [|done].
      split; simpl; [done|lia|]. destruct (sc_state sc); simpl in *; try done; try lia; naive_solver lia.
  - replace (complete_joiners (size (sc_ops sc)) None (set_count (u64 (sc_count sc - 1)) sc))
      with (Some (@nil joiner_id, set_count (u64 (sc_count sc - 1)) sc)) by (by destruct (size _)).
    eexists. split; [done|]. simpl. rewrite u64_small by lia. split; [|done].
    split; simpl; [done|lia|]. destruct (sc_state sc); simpl in *; try done; try lia; naive_solver lia.
Qed.

(** ** Counting scopes under concurrent use

    Any number of handles associates with one scope, releases its associations,
    closes and joins it, in any order.  [step] is one operation; the joiners that
    a release takes off the list complete later, in any order. *)

(** The scope and its handles, the join operations that were started, those that
    wait to be completed and those that completed. *)
Record system := System {
  own : owned;
  started : list joiner_id;
  work : list joiner_id;
  completed : list joiner_id;
}.

Definition the_scope (sy : system) : scope := o_scope (own sy).
Definition handles (sy : system) : gmap handle bool := o_handles (own sy).

Definition initial : system := System (Owned new_scope ∅) [] [] [].

Inductive step : system -> system -> Prop :=
  | step_connect sy j :
      sc_ops (the_scope sy) !! j = None ->
      step sy (System (Owned (set_ops (<[j := JoinState None false]> (sc_ops (the_scope sy))) (the_scope sy))
        (handles sy)) (started sy) (work sy) (completed sy))
  | step_start_join sy j b o' :
      is_Some (sc_ops (the_scope sy) !! j) -> j ∉ started sy ->
      on_scope (start_join j) (own sy) = Some (b, o') ->
      step sy (System o' (j :: started sy) (work sy) (if b then j :: completed sy else completed sy))
  | step_token_try_associate sy h o' :
      handles sy !! h = None -> token_try_associate h (own sy) = Some (tt, o') ->
      step sy (System o' (started sy) (work sy) (completed sy))
  | step_association_try_associate sy g h o' :
      handles sy !! h = None -> association_try_associate g h (own sy) = Some (tt, o') ->
      step sy (System o' (started sy) (work sy) (completed sy))
  | step_move_construct sy h g o' :
      handles sy !! h = None -> move_construct h g (own sy) = Some (tt, o') ->
      step sy (System o' (started sy) (work sy) (completed sy))
  | step_move_assign sy h g l o' :
      move_assign h g (own sy) = Some (l, o') ->
      step sy (System o' (started sy) (work sy ++ l) (completed sy))
  | step_destroy_handle sy h l o' :
      destroy_handle h (own sy) = Some (l, o') ->
      step sy (System o' (started sy) (work sy ++ l) (completed sy))
  | step_close sy o' :
      on_scope close (own sy) = Some (tt, o') -> step sy (System o' (started sy) (work sy) (completed sy))
  | step_complete sy w1 j w2 :
      work sy = w1 ++ j :: w2 ->
      step sy (System (own sy) (started sy) (w1 ++ w2) (j :: completed sy)).

Inductive reachable : system -> Prop :=
  | reachable_initial : reachable initial
  | reachable_step sy sy' : reachable sy -> step sy sy' -> reachable sy'.

(** ** Engaged handles *)

(** The handles that refer to the scope. *)
Definition engaged (hs : gmap handle bool) : gset handle := dom (filter (fun p => p.2 = true) hs).

Lemma elem_of_engaged hs h : h ∈ engaged hs <-> hs !! h = Some true.
Proof.
  unfold engaged. rewrite elem_of_dom. split.
  - intros [b Hb]. apply map_lookup_filter_Some in Hb as [Hb Ht]. simpl in Ht. by subst.
  - intros Hh. exists true. by apply map_lookup_filter_Some.
Qed.

Lemma engaged_put_true hs h :
  hs !! h <> Some true -> size (engaged (<[h := true]> hs)) = S (size (engaged hs)).
Proof.
  intros Hh. rewrite <- elem_of_engaged in Hh.
  replace (engaged (<[h := true]> hs)) with ({[h]} ∪ engaged hs).
  - rewrite size_union by set_solver. rewrite size_singleton. lia.
  - apply set_eq. intros k. rewrite elem_of_union, elem_of_singleton, !elem_of_engaged, lookup_insert.
    case_decide; naive_solver.
Qed.

Lemma engaged_put_false hs h :
  hs !! h <> Some true -> engaged (<[h := false]> hs) = engaged hs.
Proof.
  intros Hh. apply set_eq. intros k. rewrite !elem_of_engaged, lookup_insert. case_decide; naive_solver.
Qed.

Lemma engaged_release hs h :
  hs !! h = Some true -> S (size (engaged (<[h := false]> hs))) = size (engaged hs).
Proof.
  intros Hh. replace hs with (<[h := true]> (<[h := false]> hs)) at 2.
  - rewrite engaged_put_true; [done|]. by rewrite lookup_insert_eq.
  - rewrite insert_insert_eq. by apply insert_id.
Qed.

Lemma engaged_delete hs h : hs !! h <> Some true -> engaged (delete h hs) = engaged hs.
Proof.
  intros Hh. apply set_eq. intros k. rewrite !elem_of_engaged, lookup_delete. case_decide; naive_solver.
Qed.

(** ** The invariant *)

(** The counter of the scope is the number of engaged handles. *)
Definition owned_ok (o : owned) (js : list joiner_id) : Prop :=
  scope_ok (o_scope o) js /\ sc_count (o_scope o) = Z.of_nat (size (engaged (o_handles o))).

Record sys_ok (sy : system) (js : list joiner_id) : Prop := SysOk {
  sys_owned : owned_ok (own sy) js;
  sys_joins : js ++ work sy ++ completed sy ≡ₚ started sy;
  sys_nodup : NoDup (started sy);
  sys_exists : forall j, j ∈ started sy -> is_Some (sc_ops (the_scope sy) !! j);
  sys_done : work sy ++ completed sy <> [] -> sc_state (the_scope sy) = joined;
}.

(** What an operation on handles does to the joiners and the state. *)
Definition handled (o o' : owned) (js js' l : list joiner_id) : Prop :=
  owned_ok o' js' /\ js' ++ l ≡ₚ js /\
  (forall j, is_Some (sc_ops (o_scope o') !! j) <-> is_Some (sc_ops (o_scope o) !! j)) /\
  (l <> [] -> sc_state (o_scope o') = joined) /\
  (sc_state (o_scope o) = joined -> sc_state (o_scope o') = joined) /\
  (scope_rejects_association (sc_state (o_scope o)) = true ->
    scope_rejects_association (sc_state (o_scope o')) = true).

Lemma handle_release_ok o js h b :
  owned_ok o js -> o_handles o !! h = Some b ->
  exists l o' js', release h o = Some (l, o') /\ handled o o' js js' l /\
    o_handles o' = <[h := false]> (o_handles o).
Proof.
  intros [H Hc] Hh. unfold release.
  assert (get_handle h o = Some (b, o)) as Hg by (unfold get_handle; by rewrite Hh).
  rewrite (prog_bind_ok _ _ _ _ _ Hg). destruct b; cbn [negb]; cbv iota.
  - unfold put_handle. rewrite prog_modify_bind. pose proof (engaged_release _ _ Hh) as He.
    destruct (decrement_ok _ _ H ltac:(lia)) as (sc' & Hd & H' & Hc' & Ho & Hs).
    unfold on_scope. cbn [o_scope o_handles]. rewrite Hd. eexists _, _, _. split; [done|]. split; [|done].
    split; [split; [exact H'|simpl; lia]|]. simpl.
    destruct (sc_count (o_scope o) =? 1)%Z; cbn [andb] in Hs.
    + split; [done|]. split; [done|]. split.
      * intros Hj. destruct (joiners_wait _ _ H Hj) as [Hjo _]. by rewrite Hjo in Hs.
      * split; [intros E; by rewrite E in Hs|]. by destruct (scope_is_joining _); rewrite Hs.
    + split; [by rewrite app_nil_r|]. split; [done|]. split; [done|]. by rewrite Hs.
  - exists [], o, js. split; [done|]. split.
    + split; [done|]. split; [by rewrite app_nil_r|done].
    + by rewrite insert_id.
Qed.

Lemma handled_trans o1 o2 o3 js1 js2 js3 l1 :
  handled o1 o2 js1 js2 l1 -> handled o2 o3 js2 js3 [] -> handled o1 o3 js1 js3 l1.
Proof.
  intros (_ & A2 & A3 & A4 & A5 & A6) (B1 & B2 & B3 & _ & B5 & B6). split; [done|].
  split; [rewrite <- A2, <- B2; by rewrite app_nil_r|]. split; [intros j; by rewrite B3|]. split; auto.
Qed.

Lemma handled_refl o js hs :
  owned_ok o js -> size (engaged hs) = size (engaged (o_handles o)) ->
  handled o (Owned (o_scope o) hs) js js [].
Proof.
  intros [H Hc] E. split; [split; simpl; [done|by rewrite E]|]. split; [by rewrite app_nil_r|done].
Qed.

(** Moving an association from [g] to the empty or new handle [h]. *)
Lemma move_ok o js h g b :
  owned_ok o js -> h <> g -> o_handles o !! g = Some b -> o_handles o !! h <> Some true ->
  handled o (Owned (o_scope o) (<[h := b]> (<[g := false]> (o_handles o)))) js js [].
Proof.
  intros H Hne Hg Hh. apply handled_refl; [done|].
  assert (<[g := false]> (o_handles o) !! h <> Some true) as Hh' by (by rewrite lookup_insert_ne).
  destruct b.
  - rewrite engaged_put_true by done. by rewrite engaged_release.
  - rewrite engaged_put_false by done. rewrite engaged_put_false; [done|congruence].
Qed.

Lemma associate_ok o js h :
  owned_ok o js -> o_handles o !! h = None ->
  exists o', token_try_associate h o = Some (tt, o') /\ handled o o' js js [] /\
    o_handles o' = <[h := accepts (o_scope o)]> (o_handles o).
Proof.
  intros [H Hc] Hh. destruct (try_associate_ok _ _ H) as (sc' & Ht & H' & Hc' & Ho & Hs).
  unfold token_try_associate, on_scope, after. rewrite Ht. eexists. split; [done|]. simpl. split; [|done].
  split; [split; simpl; [done|]|].
  - destruct (accepts (o_scope o)); [rewrite engaged_put_true by congruence|rewrite engaged_put_false by congruence]; lia.
  - split; [by rewrite app_nil_r|]. simpl. rewrite Ho. split; [done|]. split; [done|].
    rewrite Hs. split; [intros E; rewrite E; by destruct (accepts _)|].
    intros E. unfold accepts. by rewrite E.
Qed.

Lemma association_associate_ok o js g h :
  owned_ok o js -> o_handles o !! h = None -> is_Some (o_handles o !! g) ->
  exists o', association_try_associate g h o = Some (tt, o') /\ handled o o' js js [] /\
    exists b, o_handles o' = <[h := b]> (o_handles o).
Proof.
  intros H Hh [e He]. unfold association_try_associate.
  assert (get_handle g o = Some (e, o)) as Hg by (unfold get_handle; by rewrite He).
  rewrite (prog_bind_ok _ _ _ _ _ Hg). destruct e; cbn [negb]; cbv iota.
  - destruct (associate_ok o js h H Hh) as (o' & Ho & Hd & Hh'). exists o'. split; [exact Ho|].
    split; [done|]. eauto.
  - eexists. split; [done|]. split; [|by eexists]. apply handled_refl; [done|].
    rewrite engaged_put_false; congruence.
Qed.

Lemma move_construct_ok o js h g :
  owned_ok o js -> o_handles o !! h = None -> is_Some (o_handles o !! g) ->
  exists o', move_construct h g o = Some (tt, o') /\ handled o o' js js [].
Proof.
  intros H Hh [b Hg]. unfold move_construct.
  assert (get_handle g o = Some (b, o)) as Hgg by (unfold get_handle; by rewrite Hg).
  rewrite (prog_bind_ok _ _ _ _ _ Hgg). eexists. split; [done|]. simpl.
  apply move_ok; [done|by intros ->; congruence|done|congruence].
Qed.

Lemma move_assign_ok o js h g :
  owned_ok o js -> is_Some (o_handles o !! h) -> is_Some (o_handles o !! g) ->
  exists l o' js', move_assign h g o = Some (l, o') /\ handled o o' js js' l.
Proof.
  intros H [b Hh] [b' Hg]. unfold move_assign. case_decide as E.
  - exists [], o, js. split; [done|]. destruct o. by apply handled_refl.
  - destruct (handle_release_ok _ _ _ _ H Hh) as (l & o1 & js' & Hr & Hd & Hs).
    rewrite (prog_bind_ok _ _ _ _ _ Hr).
    assert (o_handles o1 !! g = Some b') as Hg1 by (by rewrite Hs, lookup_insert_ne).
    assert (get_handle g o1 = Some (b', o1)) as Hgg by (unfold get_handle; by rewrite Hg1).
    rewrite (prog_bind_ok _ _ _ _ _ Hgg). eexists _, _, js'. split; [done|].
    eapply handled_trans; [exact Hd|]. simpl. apply move_ok; [apply Hd|done|done|].
    by rewrite Hs, lookup_insert_eq.
Qed.

Lemma destroy_handle_ok o js h :
  owned_ok o js -> is_Some (o_handles o !! h) ->
  exists l o' js', destroy_handle h o = Some (l, o') /\ handled o o' js js' l.
Proof.
  intros H [b Hh]. unfold destroy_handle.
  destruct (handle_release_ok _ _ _ _ H Hh) as (l & o1 & js' & Hr & Hd & Hs).
  rewrite (prog_bind_ok _ _ _ _ _ Hr). eexists _, _, js'. split; [done|].
  eapply handled_trans; [exact Hd|]. simpl. apply handled_refl; [apply Hd|].
  rewrite engaged_delete; [done|]. by rewrite Hs, lookup_insert_eq.
Qed.

(** ** Preservation *)

Lemma handled_step sy js js' l o' :
  sys_ok sy js -> handled (own sy) o' js js' l ->
  sys_ok (System o' (started sy) (work sy ++ l) (completed sy)) js'.
Proof.
  intros [H1 H2 H3 H4 H5] (A1 & A2 & A3 & A4 & A5 & _). split; simpl; try done.
  - rewrite <- H2, <- A2. solve_Permutation.
  - intros j Hj. apply A3. by apply H4.
  - intros Hne. destruct l as [|j l]; [|by apply A4].
    rewrite app_nil_r in Hne. by apply A5, H5.
Qed.

Lemma handled_quiet sy js o' :
  sys_ok sy js -> handled (own sy) o' js js [] ->
  sys_ok (System o' (started sy) (work sy) (completed sy)) js.
Proof. intros H Hh. pose proof (handled_step _ _ _ _ _ H Hh) as Hs. by rewrite app_nil_r in Hs. Qed.

Lemma connect_step sy js j :
  sys_ok sy js -> sc_ops (the_scope sy) !! j = None ->
  sys_ok (System (Owned (set_ops (<[j := JoinState None false]> (sc_ops (the_scope sy))) (the_scope sy))
    (handles sy)) (started sy) (work sy) (completed sy)) js.
Proof.
  intros [[[K1 K2 K3] Hc] H2 H3 H4 H5] Hj. split; simpl; try done.
  - split; [|done]. split; simpl; try done. destruct K1 as [L1 L2 L3 L4].
    assert (j ∉ js) as Hjs.
    { intros Hin. assert (j ∈ started sy) as Hst by (rewrite <- H2; apply elem_of_app; auto).
      apply H4 in Hst as [? Hst]. congruence. }
    split; try done.
    + eapply sseg_ext; [|exact L2]. intros k Hk. unfold joiner_link.
      by rewrite lookup_insert_ne by (by intros ->).
    + intros k op. rewrite lookup_insert. case_decide as E; [|apply L4].
      subst. intros [= <-]. simpl. by rewrite bool_decide_false.
  - intros k Hk. rewrite lookup_insert. case_decide; [eauto|by apply H4].
Qed.

Lemma start_join_step sy js j b o' :
  sys_ok sy js -> is_Some (sc_ops (the_scope sy) !! j) -> j ∉ started sy ->
  on_scope (start_join j) (own sy) = Some (b, o') ->
  exists js', sys_ok (System o' (j :: started sy) (work sy) (if b then j :: completed sy else completed sy)) js'.
Proof.
  intros [[K Hc] H2 H3 H4 H5] Hex Hni Hs.
  assert (j ∉ js) as Hjs by (intros Hin; apply Hni; rewrite <- H2; apply elem_of_app; auto).
  destruct (start_join_ok _ _ _ K Hex Hjs) as (sc' & Hr & K' & Hc' & Ho & Hst & _).
  unfold on_scope in Hs. unfold the_scope in Hr. rewrite Hr in Hs. simplify_eq.
  eexists. split; simpl; [split; [exact K'|simpl; by rewrite Hc']| |by constructor| |].
  - rewrite <- H2. destruct (_ =? _)%Z; solve_Permutation.
  - intros k Hk. apply Ho. apply elem_of_cons in Hk as [->|Hk]; [done|by apply H4].
  - intros Hne. destruct (_ =? _)%Z eqn:E; [done|]. exfalso. apply Z.eqb_neq in E. apply E.
    specialize (H5 Hne). destruct K as [_ _ K3]. unfold the_scope in H5. by rewrite H5 in K3; destruct K3.
Qed.

Lemma get_handle_exists {A} (k : bool -> prog owned A) o h p :
  after (get_handle h) k o = Some p -> is_Some (o_handles o !! h).
Proof. unfold after, get_handle. destruct (o_handles o !! h); [eauto|done]. Qed.

Lemma release_exists o h l o' : release h o = Some (l, o') -> is_Some (o_handles o !! h).
Proof. apply get_handle_exists. Qed.

(** A move assignment that is defined is between existing handles, or does nothing. *)
Lemma move_assign_exists o h g l o' :
  move_assign h g o = Some (l, o') -> h = g /\ l = [] /\ o' = o \/ is_Some (o_handles o !! h) /\ is_Some (o_handles o !! g).
Proof.
  unfold move_assign. case_decide as E; [intros [= <- <-]; auto|]. intros H. right.
  unfold after at 1 in H. destruct (release h o) as [[l1 o1]|] eqn:Er; [|done].
  split; [by eapply release_exists|]. apply get_handle_exists in H.
  unfold release, after, get_handle in Er. destruct (o_handles o !! h) as [b|] eqn:Eh; [|done].
  destruct b; cbn [negb] in Er; cbv iota in Er; [|by injection Er as <- <-].
  unfold put_handle, modify, on_scope in Er. cbn [o_handles o_scope] in Er.
  destruct (decrement (o_scope o)) as [[l2 sc2]|]; [|done]. injection Er as <- <-. simpl in H.
  by rewrite lookup_insert_ne in H.
Qed.

Lemma close_step o js o' :
  owned_ok o js -> on_scope close o = Some (tt, o') ->
  handled o o' js js [] /\ scope_rejects_association (sc_state (o_scope o')) = true.
Proof.
  intros [K Hc] Hr. destruct (close_ok _ _ K) as (sc' & Hr' & K' & Hc' & Hops & Hst).
  unfold on_scope in Hr. rewrite Hr' in Hr. injection Hr as <-. simpl. rewrite Hst.
  split; [|by destruct (sc_state (o_scope o))].
  split; [split; simpl; [done|by rewrite Hc']|]. split; [by rewrite app_nil_r|]. simpl. rewrite Hops, Hst.
  split; [done|]. split; [done|]. by destruct (sc_state (o_scope o)).
Qed.

(** A scope that is closed or joined stays so. *)
Definition keeps (sy sy' : system) : Prop :=
  (sc_state (the_scope sy) = joined -> sc_state (the_scope sy') = joined) /\
  (scope_rejects_association (sc_state (the_scope sy)) = true ->
    scope_rejects_association (sc_state (the_scope sy')) = true).

Lemma handled_keeps sy o' js js' l ss ws cs :
  handled (own sy) o' js js' l -> keeps sy (System o' ss ws cs).
Proof. intros (_ & _ & _ & _ & H). exact H. Qed.

Lemma scope_step_ok sy sy' js : sys_ok sy js -> step sy sy' -> exists js', sys_ok sy' js' /\ keeps sy sy'.
Proof.
  intros H Hs. pose proof (sys_owned _ _ H) as Ho.
  destruct Hs as [sy j Hj|sy j b o' Hex Hni Hr|sy h o' Hh Hr|sy g h o' Hh Hr|sy h g o' Hh Hr|sy h g l o' Hr
    |sy h l o' Hr|sy o' Hr|sy w1 j w2 Ew].
  - exists js. split; [by apply connect_step|by split].
  - destruct (start_join_step _ _ _ _ _ H Hex Hni Hr) as [js' H']. exists js'. split; [done|].
    destruct Ho as [K _]. assert (j ∉ js) as Hjs.
    { intros Hin. apply Hni. rewrite <- (sys_joins _ _ H). apply elem_of_app; auto. }
    destruct (start_join_ok _ _ _ K Hex Hjs) as (sc' & Hr' & _ & _ & _ & Hst & Hrej).
    unfold on_scope in Hr. unfold the_scope in Hr'. rewrite Hr' in Hr. simplify_eq. split; [|exact Hrej].
    intros E. unfold the_scope in *. simpl. destruct K as [_ _ K3]. rewrite E in K3.
    destruct K3 as [K3 _]. by rewrite K3 in Hst.
  - destruct (associate_ok _ _ _ Ho Hh) as (o2 & Hr' & Hd & _). simplify_eq.
    exists js. split; [by apply handled_quiet|by eapply handled_keeps].
  - destruct (association_associate_ok _ _ g _ Ho Hh) as (o2 & Hr' & Hd & _);
      [by eapply get_handle_exists|]. simplify_eq.
    exists js. split; [by apply handled_quiet|by eapply handled_keeps].
  - destruct (move_construct_ok _ _ _ g Ho Hh) as (o2 & Hr' & Hd); [by eapply get_handle_exists|].
    simplify_eq. exists js. split; [by apply handled_quiet|by eapply handled_keeps].
  - destruct (move_assign_exists _ _ _ _ _ Hr) as [(-> & -> & ->)|[H1 H2]].
    + exists js. rewrite app_nil_r. split; [by destruct sy|by split].
    + destruct (move_assign_ok _ _ _ _ Ho H1 H2) as (l2 & o2 & js2 & Hr' & Hd). simplify_eq.
      exists js2. split; [by eapply handled_step|by eapply handled_keeps].
  - destruct (destroy_handle_ok _ _ h Ho) as (l2 & o2 & js2 & Hr' & Hd).
    { unfold destroy_handle, after at 1 in Hr. destruct (release h (own sy)) as [[]|] eqn:E; [|done].
      by eapply release_exists. }
    simplify_eq. exists js2. split; [by eapply handled_step|by eapply handled_keeps].
  - destruct (close_step _ _ _ Ho Hr) as [Hd _]. exists js. split; [by apply handled_quiet|by eapply handled_keeps].
  - exists js. destruct H as [H1 H2 H3 H4 H5]. split; [split; simpl; try done|by split].
    + rewrite <- H2, Ew. solve_Permutation.
    + intros _. apply H5. rewrite Ew. by destruct w1.
Qed.

Lemma scope_reachable_ok sy : reachable sy -> exists js, sys_ok sy js.
Proof.
  induction 1 as [|sy sy' _ [js H] Hs]; [|destruct (scope_step_ok _ _ _ H Hs) as (? & ? & _); eauto]. exists [].
  split; simpl; try done; [split; [apply new_scope_ok|done]|constructor|by intros ? ?%not_elem_of_nil].
Qed.
