(* ===== verification/CountingScopeProps.v ===== *)
(** * Counting scopes: their properties

    For every sequence of operations of CountingScopeSystem.v: the counter is the
    number of associations, nothing terminates the program, a closed scope takes
    no work, and a join completes once, when all work is done, and never sooner. *)
From S2P Require Import Prelude Linked CountingScope CountingScopeSystem.

(** The join operations that are registered with a scope. *)
Definition waiting (sy : system) (js : list joiner_id) : Prop :=
  joiners_rep (sc_ops (the_scope sy)) (sc_joiners (the_scope sy)) js.

(** No operation fails. *)
Lemma scope_never_fails sy :
  reachable sy ->
  (forall j, is_Some (sc_ops (the_scope sy) !! j) -> j ∉ started sy -> is_Some (start_join j (the_scope sy))) /\
  (forall h, handles sy !! h = None -> is_Some (token_try_associate h (own sy))) /\
  (forall h g, is_Some (handles sy !! h) -> is_Some (handles sy !! g) -> is_Some (move_assign h g (own sy))) /\
  (forall h, is_Some (handles sy !! h) -> is_Some (destroy_handle h (own sy))) /\
  (engaged (handles sy) = ∅ -> is_Some (destroy (the_scope sy))).
Proof.
  intros (js & H)%scope_reachable_ok. pose proof (sys_owned _ _ H) as Ho. pose proof Ho as [K Hc].
  split; [|split; [|split; [|split]]].
  - intros j He Hn. assert (j ∉ js) as Hj.
    { intros Hin. apply Hn. rewrite <- (sys_joins _ _ H). apply elem_of_app; auto. }
    destruct (start_join_ok _ _ _ K He Hj) as (? & Hs & _). unfold the_scope. rewrite Hs. eauto.
  - intros h Hh. destruct (associate_ok _ _ _ Ho Hh) as (? & -> & _). eauto.
  - intros h g Hh Hg. destruct (move_assign_ok _ _ _ _ Ho Hh Hg) as (? & ? & ? & -> & _). eauto.
  - intros h Hh. destruct (destroy_handle_ok _ _ _ Ho Hh) as (? & ? & ? & -> & _). eauto.
  - intros He. unfold destroy. rewrite prog_read_bind. unfold id, the_scope.
    unfold handles in He. rewrite Hc, He, size_empty. by eexists.
Qed.

(** C9: the counter of a scope is the number of its engaged associations, however
    handles are created, copied from, moved, assigned and destroyed, and never
    wraps around; a scope whose joiners wait has associations.  No operation on a
    scope or its handles terminates the program or follows a dangling pointer,
    and the destructor of the scope does not terminate either once no handle is
    engaged.  Every join that is started is, at any time, either waiting with the
    scope, or about to be completed, or completed, and only one of these. *)
Theorem scope_counts_associations sy :
  reachable sy ->
  sc_count (the_scope sy) = Z.of_nat (size (engaged (handles sy))) /\
  (0 <= sc_count (the_scope sy) <= max_associations)%Z /\
  (sc_joiners (the_scope sy) <> None -> scope_is_joining (sc_state (the_scope sy)) = true /\
    engaged (handles sy) <> ∅) /\
  (forall j, is_Some (sc_ops (the_scope sy) !! j) -> j ∉ started sy -> is_Some (start_join j (the_scope sy))) /\
  (forall h, handles sy !! h = None -> is_Some (token_try_associate h (own sy))) /\
  (forall h g, is_Some (handles sy !! h) -> is_Some (handles sy !! g) -> is_Some (move_assign h g (own sy))) /\
  (forall h, is_Some (handles sy !! h) -> is_Some (destroy_handle h (own sy))) /\
  (engaged (handles sy) = ∅ -> is_Some (destroy (the_scope sy))) /\
  NoDup (started sy) /\ (exists js, waiting sy js /\ js ++ work sy ++ completed sy ≡ₚ started sy).
Proof.
  intros Hreach. pose proof (scope_never_fails sy Hreach) as Hnever. revert Hreach.
  intros (js & H)%scope_reachable_ok. destruct (sys_owned _ _ H) as [K Hc]. split; [exact Hc|].
  unfold max_associations. split; [pose proof (so_range _ _ K); unfold the_scope; lia|].
  split; [|destruct Hnever as (? & ? & ? & ? & ?); split_and!; [done..|apply (sys_nodup _ _ H)|]].
  2: { exists js. split; [apply (sys_owned _ _ H)|apply (sys_joins _ _ H)]. }
  intros Hj. unfold the_scope in *. rewrite (jr_head _ _ _ (so_joiners _ _ K)) in Hj.
  destruct (joiners_wait _ _ K) as [H1 H2]; [by intros ->|]. split; [done|].
  intros He. unfold handles in He. rewrite He, size_empty in Hc. lia.
Qed.

Lemma steps_ok sy sy' js :
  sys_ok sy js -> rtc step sy sy' -> exists js', sys_ok sy' js' /\ keeps sy sy'.
Proof.
  intros H Hs. revert js H. induction Hs as [sy|sy sy1 sy2 Hs _ IH]; intros js H; [by exists js; split|].
  destruct (scope_step_ok _ _ _ H Hs) as (js1 & H1 & K1). destruct (IH _ H1) as (js2 & H2 & K2).
  exists js2. split; [done|]. destruct K1, K2. split; auto.
Qed.

Lemma joined_empty sy js : sys_ok sy js -> sc_state (the_scope sy) = joined -> engaged (handles sy) = ∅.
Proof.
  intros [[K Hc] _ _ _ _] E. destruct K as [_ _ K3]. unfold the_scope in E. rewrite E in K3.
  destruct K3 as [K3 _]. rewrite K3 in Hc. apply leibniz_equiv, size_empty_inv.
  unfold handles. lia.
Qed.

Lemma scope_join_empty sy sy' :
  reachable sy -> work sy ++ completed sy <> [] -> rtc step sy sy' ->
  engaged (handles sy') = ∅ /\
  forall h, handles sy' !! h = None ->
    exists o', token_try_associate h (own sy') = Some (tt, o') /\ o_handles o' !! h = Some false.
Proof.
  intros (js & H)%scope_reachable_ok Hd Hs. pose proof (sys_done _ _ H Hd) as Hj.
  destruct (steps_ok _ _ _ H Hs) as (js' & H' & [Hk _]). pose proof (Hk Hj) as Hj'.
  split; [by eapply joined_empty|]. intros h Hh.
  destruct (associate_ok _ _ _ (sys_owned _ _ H') Hh) as (o' & Ho & _ & E). exists o'. split; [done|].
  rewrite E, lookup_insert_eq. unfold accepts. unfold the_scope in Hj'. by rewrite Hj'.
Qed.

Lemma scope_close_rejects sy o' sy' h :
  reachable sy -> on_scope close (own sy) = Some (tt, o') ->
  rtc step (System o' (started sy) (work sy) (completed sy)) sy' -> handles sy' !! h = None ->
  is_closed (the_scope sy') = Some (true, the_scope sy') /\
  exists o2, token_try_associate h (own sy') = Some (tt, o2) /\ o_handles o2 !! h = Some false /\
    sc_count (o_scope o2) = sc_count (the_scope sy').
Proof.
  intros (js & H)%scope_reachable_ok Hc Hs Hh. destruct (close_step _ _ _ (sys_owned _ _ H) Hc) as [Hd Hr].
  destruct (steps_ok _ _ _ (handled_quiet _ _ _ H Hd) Hs) as (js' & H' & [_ Hk]). specialize (Hk Hr).
  split; [unfold is_closed, read; by rewrite Hk|].
  destruct (associate_ok _ _ _ (sys_owned _ _ H') Hh) as (o2 & Ho & Hd2 & E). exists o2. split; [done|].
  unfold the_scope in *. assert (accepts (o_scope (own sy')) = false) as Ea by (unfold accepts; by rewrite Hk).
  split; [by rewrite E, lookup_insert_eq, Ea|].
  destruct (sys_owned _ _ H') as [_ ->], Hd2 as [[_ ->] _].
  rewrite E, Ea, engaged_put_false; [done|]. unfold handles in Hh. congruence.
Qed.

(** The last association releases the joiners: destroying the only engaged
    handle of a scope takes all waiting joiners off the list, in the order they
    are kept, and none of them waits any more. *)
Lemma scope_last_release sy h js :
  reachable sy -> waiting sy js -> engaged (handles sy) = {[h]} ->
  exists o', destroy_handle h (own sy) = Some (js, o') /\ sc_joiners (o_scope o') = None /\
    (js <> [] -> sc_state (o_scope o') = joined).
Proof.
  intros (js0 & H)%scope_reachable_ok Hw He. pose proof (sys_owned _ _ H) as [K Hc].
  assert (handles sy !! h = Some true) as Hh by (apply elem_of_engaged; rewrite He; by apply elem_of_singleton).
  unfold handles in *. rewrite He, size_singleton in Hc.
  destruct (decrement_ok _ _ K ltac:(lia)) as (sc' & Hd & K' & _ & _ & Hs). rewrite Hc in Hd, K', Hs. simpl in Hd, K', Hs.
  assert (js0 = js) as ->.
  { destruct K as [[E1 L1 _ _] _ _], Hw as [E2 L2 _ _]. unfold the_scope in *. clear -E1 E2 L1 L2.
    rewrite E1 in E2. clear E1. revert js E2 L2. induction js0 as [|k js0 IH]; intros [|k' js] E2 L2; try done.
    simpl in E2. injection E2 as <-. simpl in L1, L2. destruct L1 as [L1 L1'], L2 as [L2 L2'].
    f_equal. apply (IH L1'); [|done]. rewrite !hd_or_Some in *. congruence. }
  unfold destroy_handle, release, get_handle, put_handle, on_scope, after, modify, give. rewrite Hh.
  cbn [negb o_scope o_handles]. cbv iota. rewrite Hd. eexists. split; [done|]. simpl.
  split; [by rewrite (jr_head _ _ _ (so_joiners _ _ K'))|].
  intros Hj. destruct (joiners_wait _ _ K Hj) as [Hjo _]. by rewrite Hjo in Hs.
Qed.


(** C10: a join completes only when all work is done, for good: once a join was
    completed, or is about to be, no handle is associated with the scope, in this
    state and in all later ones, and every later attempt to associate fails.
    After [close], too, in every later state: the scope reports itself closed and
    every attempt to associate fails.  And the last association releases the
    joiners: destroying the only engaged handle takes all waiting joiners off the
    list, in the order they are kept, and none of them waits any more. *)
Theorem scope_join_waits_for_all sy sy' :
  reachable sy ->
  (work sy ++ completed sy <> [] -> rtc step sy sy' ->
    engaged (handles sy') = ∅ /\
    forall h, handles sy' !! h = None ->
      exists o', token_try_associate h (own sy') = Some (tt, o') /\ o_handles o' !! h = Some false) /\
  (forall o' h, on_scope close (own sy) = Some (tt, o') ->
    rtc step (System o' (started sy) (work sy) (completed sy)) sy' -> handles sy' !! h = None ->
    is_closed (the_scope sy') = Some (true, the_scope sy') /\
    exists o2, token_try_associate h (own sy') = Some (tt, o2) /\ o_handles o2 !! h = Some false /\
      sc_count (o_scope o2) = sc_count (the_scope sy')) /\
  (forall h js, waiting sy js -> engaged (handles sy) = {[h]} ->
    exists o', destroy_handle h (own sy) = Some (js, o') /\ sc_joiners (o_scope o') = None /\
      (js <> [] -> sc_state (o_scope o') = joined)).
Proof.
  intros H. split; [|split]; intros.
  - by apply (scope_join_empty sy).
  - by eapply (scope_close_rejects sy).
  - by apply scope_last_release.
Qed.

(** ** Witnesses *)

(** One association, and one join that waits for it. *)
Definition outcome {A} (o : option (A * owned)) (d : owned) : owned := match o with Some (_, x) => x | None => d end.
Definition demo_own1 : owned := outcome (token_try_associate 7 (Owned new_scope ∅)) (Owned new_scope ∅).
Definition demo1 : system := System demo_own1 [] [] [].
Definition demo_own2 : owned :=
  Owned (set_ops (<[1%Z := JoinState None false]> (sc_ops (the_scope demo1))) (the_scope demo1)) (handles demo1).
Definition demo2 : system := System demo_own2 [] [] [].
Definition demo_own3 : owned := outcome (on_scope (start_join 1) demo_own2) demo_own2.
Definition demo3 : system := System demo_own3 [1%Z] [] [].
Definition demo_own4 : owned := outcome (destroy_handle 7 demo_own3) demo_own3.
Definition demo4 : system := System demo_own4 [1%Z] [1%Z] [].

Lemma demo3_reachable : reachable demo3.
Proof.
  apply (reachable_step demo2); [apply (reachable_step demo1); [apply (reachable_step initial); [constructor|]|]|].
  - by apply (step_token_try_associate initial 7).
  - by apply (step_connect demo1 1).
  - apply (step_start_join demo2 1 false); [by eexists|apply not_elem_of_nil|by vm_compute].
Qed.

Lemma demo4_reachable : reachable demo4.
Proof.
  apply (reachable_step demo3); [exact demo3_reachable|]. by apply (step_destroy_handle demo3 7 [1%Z]).
Qed.

Lemma demo3_waiting : waiting demo3 [1%Z].
Proof.
  destruct (scope_reachable_ok _ demo3_reachable) as [js H].
  assert (js ≡ₚ [1%Z]) as Hp.
  { pose proof (sys_joins _ _ H) as Hj. simpl in Hj. by rewrite app_nil_r in Hj. }
  symmetry in Hp. apply Permutation_length_1_inv in Hp as ->. apply (sys_owned _ _ H).
Qed.

Lemma scope_counts_associations_witness :
  reachable demo3 /\ sc_count (the_scope demo3) = 1%Z /\ NoDup (started demo3).
Proof.
  split; [exact demo3_reachable|].
  destruct (scope_counts_associations _ demo3_reachable) as (-> & _ & _ & _ & _ & _ & _ & _ & Hnd & _).
  split; [reflexivity|exact Hnd].
Defined.

Lemma scope_join_waits_for_all_witness : reachable demo4 /\ work demo4 ++ completed demo4 <> [] /\
  engaged (handles demo4) = ∅ /\
  is_closed (the_scope (System (outcome (on_scope close demo_own3) demo_own3) [1%Z] [] [])) =
  Some (true, the_scope (System (outcome (on_scope close demo_own3) demo_own3) [1%Z] [] [])) /\
  exists o', destroy_handle 7 demo_own3 = Some ([1%Z], o') /\ sc_state (o_scope o') = joined.
Proof.
  split; [exact demo4_reachable|]. split; [done|]. split; [|split].
  - apply (proj1 (scope_join_waits_for_all _ demo4 demo4_reachable)); [done|apply rtc_refl].
  - by apply (proj1 (proj2 (scope_join_waits_for_all demo3 _ demo3_reachable)) _ 9%Z eq_refl (rtc_refl _ _)).
  - destruct (proj2 (proj2 (scope_join_waits_for_all demo3 demo3 demo3_reachable)) 7%Z [1%Z] demo3_waiting)
      as (o' & H1 & _ & H2); [by vm_compute|]. exists o'. split; [exact H1|by apply H2].
Defined.
