(* ===== verification/StopSource.v ===== *)
(** * Stop sources and stop callbacks

    Models [inplace_stop_source] and [inplace_stop_callback]
    (backport/cpp26/execution/stop_token.hpp): the intrusive list of callbacks
    under the source's mutex, the control block each callback shares with the
    thread that requests the stop, and the steps of [request_stop], of the
    callback's constructor and of its destructor.  A step is what runs under one
    mutex; the threads are in StopSystem.v.

    A callback and its control block share one name.  [None] is a step through a
    pointer to an object that is not there. *)
From S2P Require Import Prelude Linked.

#[local] Open Scope prog_scope.

Abbreviation callback_id := Z.
Abbreviation thread_id := Z.

(** What a link points to: nothing, the source's [callbacks_], a callback.  The
    [prev] member holds the address of the link that points to the callback:
    that of [callbacks_], or the [next] member of a callback. *)
Inductive ptr := Null | Head | Obj (c : callback_id).

#[export] Instance ptr_eq_dec : EqDecision ptr.
Proof. solve_decision. Defined.

(** [callback_base], and the [source_] of the [inplace_stop_callback], null or not. *)
Record node := Node { n_next : ptr; n_prev : ptr; n_source : bool }.

(** [callback_control]: [object] says whether [object] and [invoke_fn], which are
    written together, are set. *)
Record control := Control {
  detached : bool;
  running : bool;
  cancelled : bool;
  object : bool;
  request_thread : option thread_id;
  next_detached : option callback_id;
}.

(** The source with the callback objects that exist and all control blocks. *)
Record source := Source {
  requested : bool;
  callbacks : ptr;
  nodes : gmap callback_id node;
  controls : gmap callback_id control;
}.

Definition new_source : source := Source false Null ∅ ∅.

Definition set_callbacks p s := Source (requested s) p (nodes s) (controls s).
Definition set_requested b s := Source b (callbacks s) (nodes s) (controls s).
Definition set_nodes m s := Source (requested s) (callbacks s) m (controls s).
Definition set_controls m s := Source (requested s) (callbacks s) (nodes s) m.

Definition get_node (c : callback_id) : prog source node := fun s =>
  match nodes s !! c with Some n => Some (n, s) | None => None end.
Definition put_node c n : prog source unit := fun s =>
  match nodes s !! c with Some _ => Some (tt, set_nodes (<[c := n]> (nodes s)) s) | None => None end.
Definition get_control (c : callback_id) : prog source control := fun s =>
  match controls s !! c with Some x => Some (x, s) | None => None end.
Definition put_control c x : prog source unit := fun s =>
  match controls s !! c with Some _ => Some (tt, set_controls (<[c := x]> (controls s)) s) | None => None end.

Definition set_next c p : prog source unit := n ← get_node c; put_node c (Node p (n_prev n) (n_source n)).
Definition set_prev c p : prog source unit := n ← get_node c; put_node c (Node (n_next n) p (n_source n)).

(** Storing to the link whose address is [p]. *)
Definition store_link (p q : ptr) : prog source unit :=
  match p with Null => undefined | Head => modify (set_callbacks q) | Obj c => set_next c q end.

(** ** Registration, under the source's mutex *)

Definition try_add_callback c : prog source bool :=
  s ← read id;
  if requested s then give false else
  set_next c (callbacks s) ;;
  set_prev c Head ;;
  match callbacks s with Obj d => set_prev d (Obj c) | _ => give tt end ;;
  modify (set_callbacks (Obj c)) ;;
  give true.

Definition remove_callback c : prog source unit :=
  n ← get_node c;
  match n_prev n with
  | Null => give tt
  | p =>
      match n_next n with Obj d => set_prev d p | _ => give tt end ;;
      store_link p (n_next n) ;;
      set_next c Null ;;
      set_prev c Null
  end.

(** ** The constructor of a callback

    [sourced]: the token has a source.  The result says whether the constructor
    has to call the function itself, after it cleared [source_]. *)
Definition construct c (sourced : bool) : prog source bool :=
  modify (fun s => set_nodes (<[c := Node Null Null sourced]> (nodes s)) s) ;;
  modify (fun s => set_controls (<[c := Control false false false true None None]> (controls s)) s) ;;
  if negb sourced then give false else
  added ← try_add_callback c;
  if added : bool then give false else
  n ← get_node c;
  put_node c (Node (n_next n) (n_prev n) false) ;;
  give true.

(** ** [request_stop] *)

(** The start of the critical section: [None] when a stop was requested before,
    and otherwise the list that is to be detached. *)
Definition begin_request : prog source (option ptr) :=
  s ← read id;
  if requested s then give None else
  modify (set_requested true) ;;
  modify (set_callbacks Null) ;;
  give (Some (callbacks s)).

(** One round of the detaching loop for the callback [c] on thread [th]: the
    control block, under its own mutex, then the chain of control blocks, of
    which [first] and [prev] are the ends.  The result is the next callback and
    the new ends. *)
Definition detach_one (th : thread_id) (c : callback_id) (first prev : option callback_id) :
    prog source (ptr * option callback_id * option callback_id) :=
  n ← get_node c;
  x ← get_control c;
  put_control c (Control true (running x) false true (Some th) None) ;;
  set_next c Null ;;
  set_prev c Null ;;
  match prev with
  | Some d => y ← get_control d;
      put_control d (Control (detached y) (running y) (cancelled y) (object y) (request_thread y) (Some c))
  | None => give tt
  end ;;
  give (n_next n, (match first with None => Some c | Some _ => first end), Some c).

(** The next control block of the chain, which is cut off. *)
Definition take_next (c : callback_id) : prog source (option callback_id) :=
  x ← get_control c;
  put_control c (Control (detached x) (running x) (cancelled x) (object x) (request_thread x) None) ;;
  give (next_detached x).

(** Whether the callback is to be invoked; it counts as running from now on. *)
Definition start_run (c : callback_id) : prog source bool :=
  x ← get_control c;
  if negb (cancelled x) && object x then
    put_control c (Control (detached x) true (cancelled x) (object x) (request_thread x) (next_detached x)) ;;
    give true
  else give false.

Definition end_run (c : callback_id) : prog source unit :=
  x ← get_control c;
  put_control c (Control (detached x) false true false (request_thread x) (next_detached x)).

(** ** The destructor of a callback *)

Definition read_detached (c : callback_id) : prog source bool := x ← get_control c; give (detached x).

Definition unlink (c : callback_id) (was_detached : bool) : prog source unit :=
  n ← get_node c; if n_source n && negb was_detached then remove_callback c else give tt.

(** The last critical section, on thread [th]: whether it has to wait. *)
Definition cancel (c : callback_id) (th : thread_id) : prog source bool :=
  x ← get_control c;
  put_control c (Control (detached x) (running x) true false (request_thread x) (next_detached x)) ;;
  give (running x && negb (bool_decide (request_thread x = Some th))).

(** The predicate the destructor waits for. *)
Definition stopped_running (c : callback_id) : prog source bool := x ← get_control c; give (negb (running x)).

(** The storage of the callback is gone. *)
Definition free (c : callback_id) : prog source unit := modify (fun s => set_nodes (delete c (nodes s)) s).
