(* ===== verification/StopSystem.v ===== *)
(** * Stop sources under concurrent use

    Any number of threads construct and destroy callbacks while one thread [rt]
    runs the [request_stop] that takes effect: [requester_step].  [step] is one critical section of
    StopSource.v, or one step between two of them; the body of a callback is
    whatever happens while the requester is [Invoking].

    [stage] lists the stages of a callback's life: which fields its object and
    its control block have, where it is linked and where its destructor stands.
    [world_ok] says that every callback is in one of them, at all times. *)
From S2P Require Import Prelude Linked StopSource.

(** Where the requester stands. *)
Inductive phase :=
  | Idle
  | Detaching (raw : ptr) (first prev : option callback_id)
  | Looping (head : option callback_id)
  | Deciding (c : callback_id) (head : option callback_id)
  | Invoking (c : callback_id) (head : option callback_id)
  | Finishing (c : callback_id) (head : option callback_id)
  | Finished.

#[export] Instance phase_eq_dec : EqDecision phase.
Proof. solve_decision. Defined.

(** Where a destructor stands, and on which thread. *)
Inductive dtor :=
  | Began (th : thread_id) (was_detached : bool) | Unlinked (th : thread_id) | Waiting (th : thread_id).

Record world := World {
  src : source;
  at_phase : phase;
  dtors : gmap callback_id dtor;
  invoked : list callback_id;
  destroyed : gmap callback_id thread_id;
}.

(** The source's mutex is held from one step to the next while it detaches. *)
Definition locked (p : phase) : bool := match p with Detaching _ _ _ => true | _ => false end.

Definition initial : world := World new_source Idle ∅ [] ∅.

(** The storage of [c] is gone. *)
Definition freed (w : world) (s' : source) c th : world :=
  World s' (at_phase w) (delete c (dtors w)) (invoked w) (<[c := th]> (destroyed w)).

(** The requester's own steps. *)
Inductive requester_step (rt : thread_id) : world -> world -> Prop :=
  | step_request w raw s' :
      at_phase w = Idle -> begin_request (src w) = Some (Some raw, s') ->
      requester_step rt w (World s' (Detaching raw None None) (dtors w) (invoked w) (destroyed w))
  | step_detach w c first prev raw' first' prev' s' :
      at_phase w = Detaching (Obj c) first prev ->
      detach_one rt c first prev (src w) = Some ((raw', first', prev'), s') ->
      requester_step rt w (World s' (Detaching raw' first' prev') (dtors w) (invoked w) (destroyed w))
  | step_detached w first prev :
      at_phase w = Detaching Null first prev ->
      requester_step rt w (World (src w) (Looping first) (dtors w) (invoked w) (destroyed w))
  | step_take w c h s' :
      at_phase w = Looping (Some c) -> take_next c (src w) = Some (h, s') ->
      requester_step rt w (World s' (Deciding c h) (dtors w) (invoked w) (destroyed w))
  | step_finished w :
      at_phase w = Looping None ->
      requester_step rt w (World (src w) Finished (dtors w) (invoked w) (destroyed w))
  | step_run w c h b s' :
      at_phase w = Deciding c h -> start_run c (src w) = Some (b, s') ->
      requester_step rt w (World s' (if b then Invoking c h else Finishing c h) (dtors w)
        (if b then c :: invoked w else invoked w) (destroyed w))
  | step_return w c h :
      at_phase w = Invoking c h ->
      requester_step rt w (World (src w) (Finishing c h) (dtors w) (invoked w) (destroyed w))
  | step_end w c h s' :
      at_phase w = Finishing c h -> end_run c (src w) = Some (tt, s') ->
      requester_step rt w (World s' (Looping h) (dtors w) (invoked w) (destroyed w)).

(** ... and those of everybody. *)
Inductive step (rt : thread_id) : world -> world -> Prop :=
  | step_construct w c sourced inline s' :
      nodes (src w) !! c = None -> controls (src w) !! c = None ->
      (sourced = true -> locked (at_phase w) = false) ->
      construct c sourced (src w) = Some (inline, s') ->
      step rt w (World s' (at_phase w) (dtors w) (if inline then c :: invoked w else invoked w) (destroyed w))
  | step_request_again w s' :
      locked (at_phase w) = false -> begin_request (src w) = Some (None, s') ->
      step rt w (World s' (at_phase w) (dtors w) (invoked w) (destroyed w))
  | step_requester w w' : requester_step rt w w' -> step rt w w'
  | step_dtor_begin w c th b s' :
      is_Some (nodes (src w) !! c) -> dtors w !! c = None ->
      read_detached c (src w) = Some (b, s') ->
      step rt w (World s' (at_phase w) (<[c := Began th b]> (dtors w)) (invoked w) (destroyed w))
  | step_dtor_unlink w c th b s' :
      dtors w !! c = Some (Began th b) -> (locked (at_phase w) = false \/ b = true) ->
      unlink c b (src w) = Some (tt, s') ->
      step rt w (World s' (at_phase w) (<[c := Unlinked th]> (dtors w)) (invoked w) (destroyed w))
  | step_dtor_wait w c th s' :
      dtors w !! c = Some (Unlinked th) -> cancel c th (src w) = Some (true, s') ->
      step rt w (World s' (at_phase w) (<[c := Waiting th]> (dtors w)) (invoked w) (destroyed w))
  | step_dtor_cancel w c th s1 s' :
      dtors w !! c = Some (Unlinked th) -> cancel c th (src w) = Some (false, s1) ->
      free c s1 = Some (tt, s') -> step rt w (freed w s' c th)
  | step_dtor_wake w c th s1 s' :
      dtors w !! c = Some (Waiting th) -> stopped_running c (src w) = Some (true, s1) ->
      free c s1 = Some (tt, s') -> step rt w (freed w s' c th).

Inductive reachable rt : world -> Prop :=
  | reachable_initial : reachable rt initial
  | reachable_step w w' : reachable rt w -> step rt w w' -> reachable rt w'.

(** ** The life of a callback *)

(** What the requester is doing with it. *)
Inductive role := NoRole | RDeciding | RInvoking | RFinishing.

#[export] Instance role_eq_dec : EqDecision role.
Proof. solve_decision. Defined.

Definition role_of (p : phase) (c : callback_id) : role :=
  match p with
  | Deciding d _ => if decide (c = d) then RDeciding else NoRole
  | Invoking d _ => if decide (c = d) then RInvoking else NoRole
  | Finishing d _ => if decide (c = d) then RFinishing else NoRole
  | _ => NoRole
  end.

(** The fields of the control block but for the chain: detached, running,
    cancelled, object, request thread. *)
Definition flags (x : control) : bool * bool * bool * bool * option thread_id :=
  (detached x, running x, cancelled x, object x, request_thread x).

(** The flags of a callback that was not detached. *)
Definition fresh_flags : bool * bool * bool * bool * option thread_id := (false, false, false, true, None).

(** A destructor that did not get to its last critical section. *)
Definition early (d : option dtor) : Prop := match d with Some (Waiting _) => False | _ => True end.
(** ... and that knows nothing of a request. *)
Definition unaware (d : option dtor) : Prop :=
  match d with None => True | Some (Began _ b) => b = false | _ => False end.

(** [stage rt source flags dtor linked chained role invoked destroyed]. *)
Inductive stage (rt : thread_id) :
    option bool -> option (bool * bool * bool * bool * option thread_id) -> option dtor ->
    bool -> bool -> role -> bool -> option thread_id -> Prop :=
  | stage_absent : stage rt None None None false false NoRole false None
  | stage_unsourced d i :
      early d -> stage rt (Some false) (Some fresh_flags) d false false NoRole i None
  | stage_linked d :
      unaware d -> stage rt (Some true) (Some fresh_flags) d true false NoRole false None
  | stage_unlinked th :
      stage rt (Some true) (Some fresh_flags) (Some (Unlinked th)) false false NoRole false None
  | stage_pending d ch r :
      early d -> ch = true /\ r = NoRole \/ ch = false /\ r = RDeciding ->
      stage rt (Some true) (Some (true, false, false, true, Some rt)) d false ch r false None
  | stage_withdrawn th ch r :
      ch = true /\ r = NoRole \/ ch = false /\ (r = RDeciding \/ r = RFinishing) ->
      stage rt None (Some (true, false, true, false, Some rt)) None false ch r false (Some th)
  | stage_running d r :
      early d -> r = RInvoking \/ r = RFinishing ->
      stage rt (Some true) (Some (true, true, false, true, Some rt)) d false false r true None
  | stage_awaited th r :
      th <> rt -> r = RInvoking \/ r = RFinishing ->
      stage rt (Some true) (Some (true, true, true, false, Some rt)) (Some (Waiting th)) false false r true None
  | stage_self_destroyed r :
      r = RInvoking \/ r = RFinishing ->
      stage rt None (Some (true, true, true, false, Some rt)) None false false r true (Some rt)
  | stage_done d :
      stage rt (Some true) (Some (true, false, true, false, Some rt)) d false false NoRole true None
  | stage_destroyed th t q i :
      stage rt None (Some (t, false, true, false, q)) None false false NoRole i (Some th).

(** ** Links *)

Definition links_of (s : source) (c : callback_id) : option (ptr * ptr) :=
  (fun n => (n_prev n, n_next n)) <$> nodes s !! c.
Definition next_of (s : source) (c : callback_id) : option ptr := n_next <$> nodes s !! c.
Definition chain_of (s : source) (c : callback_id) : option (option callback_id) :=
  next_detached <$> controls s !! c.

(** Callbacks that are not in [ks] point nowhere. *)
Definition loose (s : source) (ks : list callback_id) : Prop :=
  forall c n, nodes s !! c = Some n -> c ∉ ks -> n_prev n = Null /\ n_next n = Null.

(** The list of the source. *)
Record linked_rep (s : source) (ks : list callback_id) : Prop := LinkedRep {
  lr_head : callbacks s = hd_or Obj Null ks;
  lr_links : dseg Obj (links_of s) Head ks Null;
  lr_nodup : NoDup ks;
  lr_loose : loose s ks;
}.

(** The rest of the list that is being detached; its back links mean nothing. *)
Record detaching_rep (s : source) (raw : ptr) (ks : list callback_id) : Prop := DetachingRep {
  dr_empty : callbacks s = Null;
  dr_head : raw = hd_or Obj Null ks;
  dr_links : sseg Obj (next_of s) ks Null;
  dr_nodup : NoDup ks;
  dr_loose : loose s ks;
}.

(** ** The invariant *)

Definition view_ok (rt : thread_id) (w : world) (ks ds : list callback_id) (c : callback_id) : Prop :=
  stage rt (n_source <$> nodes (src w) !! c) (flags <$> controls (src w) !! c) (dtors w !! c)
    (bool_decide (c ∈ ks)) (bool_decide (c ∈ ds)) (role_of (at_phase w) c)
    (bool_decide (c ∈ invoked w)) (destroyed w !! c).

(** [ks] is still in the list, [ds] in the chain of control blocks. *)
Definition phase_ok (s : source) (p : phase) (ks ds : list callback_id) : Prop :=
  match p with
  | Idle => linked_rep s ks /\ ds = [] /\ requested s = false
  | Detaching raw first prev =>
      detaching_rep s raw ks /\ requested s = true /\ first = head ds /\ prev = last ds
  | Looping h | Deciding _ h | Invoking _ h | Finishing _ h =>
      linked_rep s [] /\ requested s = true /\ ks = [] /\ h = head ds
  | Finished => linked_rep s [] /\ requested s = true /\ ks = [] /\ ds = []
  end.

Record world_ok (rt : thread_id) (w : world) (ks ds : list callback_id) : Prop := WorldOk {
  wo_views : forall c, view_ok rt w ks ds c;
  wo_phase : phase_ok (src w) (at_phase w) ks ds;
  wo_chain : sseg Some (chain_of (src w)) ds None;
  wo_nodup : NoDup ds;
  wo_invoked : NoDup (invoked w);
}.
