(* ===== verification/StopInv.v ===== *)
(** * Stop sources: what the critical sections do, and the invariant

    Registering, removing and detaching callbacks on the list of a source
    ([linked_rep]) and on the list that is being detached ([detaching_rep]), and
    what each of them leaves alone. *)
From S2P Require Import Prelude Linked StopSource StopSystem.

(** The callbacks keep their [source_] members. *)
Definition same_sources (s s' : source) : Prop :=
  forall j, n_source <$> nodes s' !! j = n_source <$> nodes s !! j.

(** Only links change. *)
Definition relinked (s s' : source) : Prop :=
  same_sources s s' /\ controls s' = controls s /\ requested s' = requested s.

Lemma node_next_ok s c n p :
  nodes s !! c = Some n ->
  set_next c p s = Some (tt, set_nodes (<[c := Node p (n_prev n) (n_source n)]> (nodes s)) s).
Proof. intros H. unfold set_next, get_node, put_node, after. by rewrite H, H. Qed.

Lemma set_prev_ok s c n p :
  nodes s !! c = Some n ->
  set_prev c p s = Some (tt, set_nodes (<[c := Node (n_next n) p (n_source n)]> (nodes s)) s).
Proof. intros H. unfold set_prev, get_node, put_node, after. by rewrite H, H. Qed.

Lemma get_node_ok s c n : nodes s !! c = Some n -> get_node c s = Some (n, s).
Proof. intros H. unfold get_node. by rewrite H. Qed.

Lemma control_read_ok s c x : controls s !! c = Some x -> get_control c s = Some (x, s).
Proof. intros H. unfold get_control. by rewrite H. Qed.

Lemma put_control_ok s c x y :
  controls s !! c = Some x -> put_control c y s = Some (tt, set_controls (<[c := y]> (controls s)) s).
Proof. intros H. unfold put_control. by rewrite H. Qed.

Lemma links_of_in s p ks n c : dseg Obj (links_of s) p ks n -> c ∈ ks -> is_Some (nodes s !! c).
Proof.
  intros H (k1 & k2 & ->)%list_elem_of_split. apply dseg_app in H as [_ [H _]].
  unfold links_of in H. by destruct (nodes s !! c).
Qed.

Lemma hd_or_Obj d ks : hd_or Obj d ks = match ks with [] => d | c :: _ => Obj c end.
Proof. by destruct ks. Qed.

Lemma same_sources_insert s c n n' :
  nodes s !! c = Some n -> n_source n' = n_source n ->
  same_sources s (set_nodes (<[c := n']> (nodes s)) s).
Proof.
  intros H E j. simpl. rewrite lookup_insert. case_decide; [subst; by rewrite H; simpl; rewrite E|done].
Qed.

Lemma same_sources_trans s1 s2 s3 : same_sources s1 s2 -> same_sources s2 s3 -> same_sources s1 s3.
Proof. intros H1 H2 j. by rewrite H2. Qed.

(** ** The list *)

Lemma try_add_ok s ks c n :
  linked_rep s ks -> nodes s !! c = Some n -> c ∉ ks -> requested s = false ->
  exists s', try_add_callback c s = Some (true, s') /\ linked_rep s' (c :: ks) /\ relinked s s'.
Proof.
  intros [Hh Hl Hn Ho] Hc Hni Hr. unfold try_add_callback. rewrite prog_read_bind. unfold id. rewrite Hr.
  rewrite (prog_bind_ok _ _ _ _ _ (node_next_ok s c n (callbacks s) Hc)).
  set (s1 := set_nodes _ s).
  assert (nodes s1 !! c = Some (Node (callbacks s) (n_prev n) (n_source n))) as Hc1 by (apply lookup_insert_eq).
  rewrite (prog_bind_ok _ _ _ _ _ (set_prev_ok s1 c _ Head Hc1)). set (s2 := set_nodes _ s1).
  assert (nodes s2 !! c = Some (Node (callbacks s) Head (n_source n))) as Hc2 by (apply lookup_insert_eq).
  assert (forall j, j <> c -> nodes s2 !! j = nodes s !! j) as Hj2.
  { intros j Hj. simpl. by rewrite !lookup_insert_ne. }
  assert (same_sources s s2) as Hs2.
  { apply (same_sources_trans _ s1); [by apply (same_sources_insert s c n)|by apply (same_sources_insert s1 c _ _ Hc1)]. }
  assert (loose s2 (c :: ks)) as Ho2.
  { intros j m Hm Hj. apply not_elem_of_cons in Hj as [Hj1 Hj2']. rewrite Hj2 in Hm by done. by eapply Ho. }
  rewrite Hh, hd_or_Obj in *. destruct ks as [|d ks].
  - rewrite prog_ret_bind, prog_modify_bind. eexists. split; [done|]. split; [|done].
    split; [done| |by apply NoDup_singleton|exact Ho2]. split; [|done].
    change (links_of s2 c = Some (Head, Null)). unfold links_of. by rewrite Hc2.
  - assert (d <> c) as Hdc by (intros ->; apply Hni, list_elem_of_here).
    destruct (links_of_in _ _ _ _ d Hl (list_elem_of_here _ _)) as [m Hm].
    assert (nodes s2 !! d = Some m) as Hm2 by (by rewrite Hj2).
    rewrite (prog_bind_ok _ _ _ _ _ (set_prev_ok s2 d m (Obj c) Hm2)), prog_modify_bind.
    eexists. split; [done|]. set (s3 := set_callbacks _ _).
    assert (forall j, j <> d -> nodes s3 !! j = nodes s2 !! j) as Hj3.
    { intros j Hj. simpl. by rewrite lookup_insert_ne. }
    assert (nodes s3 !! d = Some (Node (n_next m) (Obj c) (n_source m))) as Hd3 by (apply lookup_insert_eq).
    split.
    + split; [done| |by constructor|].
      * eapply (dseg_insert Obj (links_of s) (links_of s3) [] c (d :: ks) Head Null Head Head);
          [exact Hn|exact Hni| | |done|exact Hl].
        -- unfold links_of. rewrite Hj3 by done. by rewrite Hc2.
        -- intros j Hj. simpl in Hj. unfold patched. simpl. unfold links_of.
           destruct (decide (j = d)) as [->|Hjd].
           ++ rewrite Hd3, Hm. simpl. by rewrite decide_True.
           ++ rewrite Hj3, Hj2 by (done || (intros ->; done)).
              destruct (nodes s !! j); [|done]. simpl. by rewrite decide_False by congruence.
      * intros j q Hq Hj. destruct (decide (j = d)) as [->|Hjd].
        -- exfalso. apply Hj. right. apply list_elem_of_here.
        -- rewrite Hj3 in Hq by done. by eapply Ho2.
    + split; [|done]. eapply same_sources_trans; [exact Hs2|]. by eapply (same_sources_insert s2 d m).
Qed.

Lemma relinked_trans s1 s2 s3 : relinked s1 s2 -> relinked s2 s3 -> relinked s1 s3.
Proof.
  intros (A1 & A2 & A3) (B1 & B2 & B3). split; [by eapply same_sources_trans|]. split; congruence.
Qed.

(** Clearing both links of a callback. *)
Lemma cut_off_ok s c n :
  nodes s !! c = Some n ->
  exists s', (set_next c Null ;; set_prev c Null)%prog s = Some (tt, s') /\ relinked s s' /\
    callbacks s' = callbacks s /\ nodes s' = <[c := Node Null Null (n_source n)]> (nodes s).
Proof.
  intros H. rewrite (prog_bind_ok _ _ _ _ _ (node_next_ok _ _ _ Null H)). set (s1 := set_nodes _ s).
  assert (nodes s1 !! c = Some (Node Null (n_prev n) (n_source n))) as H1 by (apply lookup_insert_eq).
  rewrite (set_prev_ok _ _ _ Null H1). eexists. split; [done|]. split; [split; [|done]|split; [done|]].
  - apply (same_sources_trans _ s1); [by eapply same_sources_insert|by eapply same_sources_insert].
  - simpl. by rewrite insert_insert_eq.
Qed.

(** A callback that is not in the list is left alone. *)
Lemma remove_loose s ks c n :
  loose s ks -> nodes s !! c = Some n -> c ∉ ks -> remove_callback c s = Some (tt, s).
Proof.
  intros Ho Hc Hni. unfold remove_callback. rewrite (prog_bind_ok _ _ _ _ _ (get_node_ok _ _ _ Hc)).
  by destruct (Ho _ _ Hc Hni) as [-> _].
Qed.

Lemma unregister_ok s ks1 c ks2 :
  linked_rep s (ks1 ++ c :: ks2) ->
  exists s', remove_callback c s = Some (tt, s') /\ linked_rep s' (ks1 ++ ks2) /\ relinked s s'.
Proof.
  intros [Hh Hl Hn Ho]. pose proof (fun j => links_of_in _ _ _ _ j Hl) as Hin.
  pose proof Hl as Hl0. apply dseg_app in Hl as [Hl1 [Hc Hl2]].
  unfold links_of in Hc. destruct (nodes s !! c) as [n|] eqn:En; [|done]. injection Hc as Hp Hx.
  assert (c ∉ ks1 ++ ks2 /\ NoDup (ks1 ++ ks2)) as [Hni Hn'].
  { rewrite <- Permutation_middle in Hn. by apply NoDup_cons in Hn. }
  (* the callback after [c] *)
  set (back := match hd_or Obj Null ks2 with Obj d => set_prev d (last_or Obj Head ks1) | _ => give tt end).
  assert (exists s1, back s = Some (tt, s1) /\ relinked s s1 /\ callbacks s1 = callbacks s /\
    forall j, links_of s1 j = (fun l => (if decide (head ks2 = Some j) then last_or Obj Head ks1 else l.1, l.2)) <$> links_of s j)
    as (s1 & Hb & R1 & Ec1 & L1).
  { subst back. rewrite hd_or_Obj. destruct ks2 as [|d ks2].
    - exists s. split; [done|]. split; [done|]. split; [done|]. intros j. simpl. by destruct (links_of s j) as [[]|].
    - destruct (Hin d) as [m Hm]; [set_solver|]. rewrite (set_prev_ok _ _ _ _ Hm). eexists. split; [done|].
      split; [split; [by eapply same_sources_insert|done]|]. split; [done|]. intros j. unfold links_of. simpl.
      rewrite lookup_insert. case_decide as E.
      + subst. rewrite Hm. simpl. by rewrite decide_True.
      + destruct (nodes s !! j); [|done]. simpl. by rewrite decide_False by congruence. }
  assert (last_or Obj Head ks1 = Head /\ ks1 = [] \/ exists d, last ks1 = Some d /\ last_or Obj Head ks1 = Obj d) as Hlast.
  { unfold last_or. destruct (last ks1) as [d|] eqn:E; [right; eauto|left]. by apply last_None in E. }
  (* the link to [c] *)
  assert (exists s2, store_link (last_or Obj Head ks1) (hd_or Obj Null ks2) s1 = Some (tt, s2) /\ relinked s s2 /\
    callbacks s2 = hd_or Obj Null (ks1 ++ ks2) /\
    forall j, links_of s2 j = patched ks1 ks2 (hd_or Obj Null ks2) (last_or Obj Head ks1) j <$> links_of s j)
    as (s2 & Hst & R2 & Ec2 & L2).
  { destruct Hlast as [[-> ->]|(d & Ed & ->)].
    - eexists. split; [done|]. split; [exact R1|]. split; [done|]. intros j.
      change (links_of (set_callbacks (hd_or Obj Null ks2) s1) j) with (links_of s1 j). rewrite L1. unfold patched. simpl. by destruct (links_of s j) as [[]|].
    - assert (d ∈ ks1) as Hd by (by apply last_is_Some_elem). destruct (Hin d) as [m Hm]; [set_solver|].
      assert (links_of s1 d = Some (n_prev m, n_next m)) as Hd1.
      { rewrite L1. unfold links_of. rewrite Hm. simpl. rewrite decide_False; [done|].
        intros E%head_is_Some_elem. apply NoDup_app in Hn' as (_ & Hdis & _). by apply (Hdis d). }
      unfold links_of in Hd1. destruct (nodes s1 !! d) as [m1|] eqn:Em1; [|done]. injection Hd1 as E1 E2.
      simpl. rewrite (node_next_ok _ _ _ _ Em1). eexists. split; [done|]. split; [|split].
      + destruct R1 as (A1 & A2 & A3). split; [|done]. eapply same_sources_trans; [exact A1|].
        by eapply same_sources_insert.
      + simpl. rewrite Ec1, Hh. destruct ks1 as [|k ks1]; [done|]. done.
      + intros j. unfold links_of at 1. simpl. rewrite lookup_insert. case_decide as E.
        * subst j. unfold links_of. rewrite Hm. unfold patched. simpl.
          rewrite (decide_True (P := last ks1 = Some d)) by done.
          rewrite decide_False; [by rewrite E1|]. intros E%head_is_Some_elem.
          apply NoDup_app in Hn' as (_ & Hdis & _). by apply (Hdis d).
        * change (links_of s1 j = patched ks1 ks2 (hd_or Obj Null ks2) (Obj d) j <$> links_of s j).
          rewrite L1. destruct (links_of s j) as [[]|]; [|done]. unfold patched. simpl.
          rewrite (decide_False (P := last ks1 = Some j)) by congruence. unfold last_or. by rewrite Ed. }
  assert (is_Some (nodes s2 !! c)) as [n2 Hn2].
  { specialize (L2 c). unfold links_of in L2. rewrite En in L2. by destruct (nodes s2 !! c). }
  assert (remove_callback c s = (set_next c Null ;; set_prev c Null)%prog s2) as ->.
  { unfold remove_callback. rewrite (prog_bind_ok _ _ _ _ _ (get_node_ok _ _ _ En)), Hp, Hx. subst back.
    destruct Hlast as [[El _]|(d & _ & El)]; rewrite El in *;
      by rewrite (prog_bind_ok _ _ _ _ _ Hb), (prog_bind_ok _ _ _ _ _ Hst). }
  destruct (cut_off_ok _ _ _ Hn2) as (s4 & -> & R4 & Ec4 & En4). exists s4. split; [done|].
  assert (forall j, j <> c -> nodes s4 !! j = nodes s2 !! j) as Hj4.
  { intros j Hj. rewrite En4. by rewrite lookup_insert_ne. }
  assert (nodes s4 !! c = Some (Node Null Null (n_source n2))) as Hc4 by (rewrite En4; apply lookup_insert_eq).
  split.
  - split; [by rewrite Ec4| |done|].
    + apply (dseg_join Obj (links_of s) (links_of s4) ks1 ks2 Head Null (Obj c) (Obj c)); [done| |exact Hl1|exact Hl2].
      intros j Hj. rewrite <- L2. unfold links_of. rewrite Hj4; [done|by intros ->].
    + intros j m Hm Hj. destruct (decide (j = c)) as [->|Hjc].
      * rewrite Hc4 in Hm. by injection Hm as <-.
      * rewrite Hj4 in Hm by done. assert (j ∉ ks1 ++ c :: ks2) as Hj' by set_solver.
        specialize (L2 j). unfold links_of in L2. rewrite Hm in L2.
        destruct (nodes s !! j) as [m0|] eqn:E0; [|done]. simpl in L2. injection L2 as E1 E2.
        destruct (Ho _ _ E0 Hj') as [F1 F2]. unfold patched in *. simpl in *.
        rewrite decide_False in E1 by (intros E%head_is_Some_elem; set_solver).
        rewrite decide_False in E2 by (intros E%last_is_Some_elem; set_solver). split; congruence.
  - by eapply relinked_trans.
Qed.

Lemma relinked_set_controls s s' m : relinked s s' ->
  same_sources s (set_controls m s') /\ requested (set_controls m s') = requested s.
Proof. intros (A1 & A2 & A3). split; [intros j; simpl; apply A1|done]. Qed.

(** The flags of the control blocks, but for [c]. *)
Definition reflagged (s s' : source) (c : callback_id) (f : bool * bool * bool * bool * option thread_id) : Prop :=
  forall j, flags <$> controls s' !! j = if decide (j = c) then Some f else flags <$> controls s !! j.

Lemma reflagged_insert s c y :
  reflagged s (set_controls (<[c := y]> (controls s)) s) c (flags y).
Proof. intros j. simpl. rewrite lookup_insert. repeat case_decide; congruence || done. Qed.

Lemma chain_of_in s ds d : sseg Some (chain_of s) ds None -> d ∈ ds -> is_Some (controls s !! d).
Proof.
  intros H (k1 & k2 & ->)%list_elem_of_split. apply sseg_app in H as [_ [H _]].
  unfold chain_of in H. by destruct (controls s !! d).
Qed.

Lemma linked_rep_ext s s' ks :
  linked_rep s ks -> nodes s' = nodes s -> callbacks s' = callbacks s -> linked_rep s' ks.
Proof.
  intros [H1 H2 H3 H4] En Ec. split; [by rewrite Ec| |done|].
  - eapply dseg_ext; [|exact H2]. intros k _. unfold links_of. by rewrite En.
  - intros j n. rewrite En. apply H4.
Qed.

Lemma detaching_rep_ext s s' raw ks :
  detaching_rep s raw ks -> nodes s' = nodes s -> callbacks s' = callbacks s -> detaching_rep s' raw ks.
Proof.
  intros [H1 H2 H3 H4 H5] En Ec. split; [by rewrite Ec|done| |done|].
  - eapply sseg_ext; [|exact H3]. intros k _. unfold next_of. by rewrite En.
  - intros j n. rewrite En. apply H5.
Qed.

(** Linking the control block of [c] behind the chain [ds]. *)
Lemma chain_push s ds c x :
  sseg Some (chain_of s) ds None -> c ∉ ds -> controls s !! c = Some x -> next_detached x = None -> NoDup ds ->
  exists s', (match last ds with
    | Some d => y ← get_control d;
        put_control d (Control (detached y) (running y) (cancelled y) (object y) (request_thread y) (Some c))
    | None => give tt
    end)%prog s = Some (tt, s') /\ sseg Some (chain_of s') (ds ++ [c]) None /\
    (forall j, flags <$> controls s' !! j = flags <$> controls s !! j) /\
    nodes s' = nodes s /\ callbacks s' = callbacks s /\ requested s' = requested s.
Proof.
  intros Hl Hc Hx Hn Hnd. destruct ds as [|d ds _] using rev_ind.
  - exists s. split; [done|]. split; [|done]. split; [|done]. unfold chain_of. rewrite Hx. simpl. by rewrite Hn.
  - rewrite last_snoc. destruct (chain_of_in _ _ d Hl) as [y Hy]; [set_solver|].
    rewrite (prog_bind_ok _ _ _ _ _ (control_read_ok _ _ _ Hy)), (put_control_ok _ _ _ _ Hy).
    eexists. split; [done|]. split; [|split; [|done]].
    + apply NoDup_app in Hnd as (_ & Hdis & _). apply sseg_app in Hl as [Hl _]. rewrite <- app_assoc.
      apply sseg_app. split; [|split; [|split; [|done]]].
      * eapply sseg_ext; [|exact Hl]. intros k Hk. unfold chain_of. simpl.
        rewrite lookup_insert_ne; [done|]. intros ->. apply (Hdis k Hk), list_elem_of_here.
      * unfold chain_of. simpl. by rewrite lookup_insert_eq.
      * unfold chain_of. simpl. rewrite lookup_insert_ne by set_solver. rewrite Hx. simpl. by rewrite Hn.
    + intros j. simpl. rewrite lookup_insert. case_decide; [subst; by rewrite Hy|done].
Qed.

Lemma detach_one_ok rt s c ks ds x :
  detaching_rep s (Obj c) (c :: ks) -> controls s !! c = Some x ->
  sseg Some (chain_of s) ds None -> c ∉ ds -> NoDup ds ->
  exists s', detach_one rt c (head ds) (last ds) s =
      Some ((hd_or Obj Null ks, head (ds ++ [c]), last (ds ++ [c])), s') /\
    detaching_rep s' (hd_or Obj Null ks) ks /\ same_sources s s' /\
    reflagged s s' c (true, running x, false, true, Some rt) /\
    sseg Some (chain_of s') (ds ++ [c]) None /\ requested s' = requested s.
Proof.
  intros [H1 _ [H2 H3] H4 H5] Hx Hl Hni Hnd. apply NoDup_cons in H4 as [H4 H4'].
  unfold next_of in H2. destruct (nodes s !! c) as [n|] eqn:En; [|done]. injection H2 as H2.
  unfold detach_one.
  rewrite (prog_bind_ok _ _ _ _ _ (get_node_ok _ _ _ En)), (prog_bind_ok _ _ _ _ _ (control_read_ok _ _ _ Hx)),
    (prog_bind_ok _ _ _ _ _ (put_control_ok _ _ _ _ Hx)).
  set (s1 := set_controls _ s).
  rewrite (prog_bind_ok _ _ _ _ _ (node_next_ok s1 c n Null En)). set (s2 := set_nodes _ s1).
  assert (nodes s2 !! c = Some (Node Null (n_prev n) (n_source n))) as En2 by (apply lookup_insert_eq).
  rewrite (prog_bind_ok _ _ _ _ _ (set_prev_ok s2 c _ Null En2)). set (s3 := set_nodes _ s2).
  assert (nodes s3 = <[c := Node Null Null (n_source n)]> (nodes s)) as E3.
  { simpl. by rewrite insert_insert_eq. }
  destruct (chain_push s3 ds c (Control true (running x) false true (Some rt) None)) as (s4 & Hr & Hch & Hf & En4 & Ec4 & Er4).
  - eapply sseg_ext; [|exact Hl]. intros k Hk. unfold chain_of. simpl.
    rewrite lookup_insert_ne; [done|by intros ->].
  - done.
  - simpl. apply lookup_insert_eq.
  - done.
  - done.
  - rewrite (prog_bind_ok _ _ _ _ _ Hr). exists s4. split; [|split; [|split; [|split; [|done]]]].
    + unfold give. rewrite H2, last_snoc. by destruct ds.
    + split; [by rewrite Ec4|done| |done|].
      * eapply sseg_ext; [|exact H3]. intros k Hk. unfold next_of. rewrite En4, E3.
        rewrite lookup_insert_ne; [done|by intros ->].
      * intros j m. rewrite En4, E3, lookup_insert. case_decide as E.
        -- by intros [= <-].
        -- intros Hm Hj. apply (H5 j m Hm). by intros [->|?]%elem_of_cons.
    + intros j. rewrite En4, E3, lookup_insert. case_decide; [subst; by rewrite En|done].
    + intros j. rewrite Hf. simpl. rewrite lookup_insert. repeat case_decide; congruence || done.
Qed.

(** Changing a control block leaves the rest of the source alone. *)
Lemma put_control_rest s c y :
  let s' := set_controls (<[c := y]> (controls s)) s in
  same_sources s s' /\ (forall ks, linked_rep s ks -> linked_rep s' ks) /\
  (forall raw ks, detaching_rep s raw ks -> detaching_rep s' raw ks) /\ requested s' = requested s.
Proof.
  split; [done|]. split; [|split; [|done]].
  - intros ks H. by eapply linked_rep_ext.
  - intros raw ks H. by eapply detaching_rep_ext.
Qed.

Lemma put_control_chain s c x y ds :
  sseg Some (chain_of s) ds None -> controls s !! c = Some x -> next_detached y = next_detached x ->
  sseg Some (chain_of (set_controls (<[c := y]> (controls s)) s)) ds None.
Proof.
  intros H Hx E. eapply sseg_ext; [|exact H]. intros k _. unfold chain_of. simpl. rewrite lookup_insert.
  case_decide; [subst; rewrite Hx; simpl; by rewrite E|done].
Qed.

(** ** Stop sources: every step keeps the invariant

    One lemma per rule of StopSystem.v: the step leads from a world in which every
    callback is in one of its stages to another such world. *)

(** ** Views *)

(** A step that does not concern [j]. *)
Lemma view_other rt w w' ks ks' ds ds' j :
  view_ok rt w ks ds j ->
  n_source <$> nodes (src w') !! j = n_source <$> nodes (src w) !! j ->
  flags <$> controls (src w') !! j = flags <$> controls (src w) !! j ->
  dtors w' !! j = dtors w !! j -> (j ∈ ks' <-> j ∈ ks) -> (j ∈ ds' <-> j ∈ ds) ->
  role_of (at_phase w') j = role_of (at_phase w) j -> (j ∈ invoked w' <-> j ∈ invoked w) ->
  destroyed w' !! j = destroyed w !! j -> view_ok rt w' ks' ds' j.
Proof.
  unfold view_ok. intros H -> -> -> E1 E2 -> E3 ->.
  by rewrite (bool_decide_ext _ _ E1), (bool_decide_ext _ _ E2), (bool_decide_ext _ _ E3).
Qed.

(** The fields of one callback, by name. *)
Record view (rt : thread_id) (w : world) (ks ds : list callback_id) (c : callback_id)
    n f d (l ch : bool) r (i : bool) dd : Prop := View {
  v_node : n_source <$> nodes (src w) !! c = n;
  v_flags : flags <$> controls (src w) !! c = f;
  v_dtor : dtors w !! c = d;
  v_linked : bool_decide (c ∈ ks) = l;
  v_chained : bool_decide (c ∈ ds) = ch;
  v_role : role_of (at_phase w) c = r;
  v_invoked : bool_decide (c ∈ invoked w) = i;
  v_destroyed : destroyed w !! c = dd;
  v_stage : stage rt n f d l ch r i dd;
}.

Lemma view_intro rt w ks ds c :
  view_ok rt w ks ds c -> exists n f d l ch r i dd, view rt w ks ds c n f d l ch r i dd.
Proof. intros H. by eexists _, _, _, _, _, _, _, _. Qed.

Lemma view_elim rt w ks ds c n f d (l ch : bool) r (i : bool) dd : view rt w ks ds c n f d l ch r i dd -> view_ok rt w ks ds c.
Proof. by intros [<- <- <- <- <- <- <- <- H]. Qed.

Lemma fmap_flags_some (m : gmap callback_id control) c f :
  flags <$> m !! c = Some f -> exists x, m !! c = Some x /\ flags x = f.
Proof. destruct (m !! c) as [x|]; simpl; [|done]. intros [= <-]. eauto. Qed.

Lemma fmap_source_some (m : gmap callback_id node) c b :
  n_source <$> m !! c = Some b -> exists n, m !! c = Some n /\ n_source n = b.
Proof. destruct (m !! c) as [x|]; simpl; [|done]. intros [= <-]. eauto. Qed.

(** ** Adding and freeing a callback that is not linked *)

Lemma linked_rep_put s ks c n m :
  linked_rep s ks -> c ∉ ks -> n_prev n = Null /\ n_next n = Null ->
  linked_rep (set_controls m (set_nodes (<[c := n]> (nodes s)) s)) ks.
Proof.
  intros [H1 H2 H3 H4] Hc Hn. split; [done| |done|].
  - eapply dseg_ext; [|exact H2]. intros k Hk. unfold links_of. simpl.
    rewrite lookup_insert_ne; [done|by intros ->].
  - intros j x. simpl. rewrite lookup_insert. case_decide; [by intros [= <-]|apply H4].
Qed.

Lemma detaching_rep_put s raw ks c n m :
  detaching_rep s raw ks -> c ∉ ks -> n_prev n = Null /\ n_next n = Null ->
  detaching_rep (set_controls m (set_nodes (<[c := n]> (nodes s)) s)) raw ks.
Proof.
  intros [H1 H2 H3 H4 H5] Hc Hn. split; [done|done| |done|].
  - eapply sseg_ext; [|exact H3]. intros k Hk. unfold next_of. simpl.
    rewrite lookup_insert_ne; [done|by intros ->].
  - intros j x. simpl. rewrite lookup_insert. case_decide; [by intros [= <-]|apply H5].
Qed.

Lemma linked_rep_free s ks c m :
  linked_rep s ks -> c ∉ ks -> linked_rep (set_nodes (delete c (nodes s)) (set_controls m s)) ks.
Proof.
  intros [H1 H2 H3 H4] Hc. split; [done| |done|].
  - eapply dseg_ext; [|exact H2]. intros k Hk. unfold links_of. simpl.
    rewrite lookup_delete_ne; [done|by intros ->].
  - intros j x. simpl. rewrite lookup_delete. case_decide; [done|apply H4].
Qed.

Lemma detaching_rep_free s raw ks c m :
  detaching_rep s raw ks -> c ∉ ks -> detaching_rep (set_nodes (delete c (nodes s)) (set_controls m s)) raw ks.
Proof.
  intros [H1 H2 H3 H4 H5] Hc. split; [done|done| |done|].
  - eapply sseg_ext; [|exact H3]. intros k Hk. unfold next_of. simpl.
    rewrite lookup_delete_ne; [done|by intros ->].
  - intros j x. simpl. rewrite lookup_delete. case_decide; [done|apply H5].
Qed.

Lemma phase_ok_put s p ks ds c n m :
  phase_ok s p ks ds -> c ∉ ks -> n_prev n = Null /\ n_next n = Null ->
  phase_ok (set_controls m (set_nodes (<[c := n]> (nodes s)) s)) p ks ds.
Proof.
  intros H Hc Hn. destruct p; simpl in *; destruct_and?; subst;
    repeat (split; [first [by apply linked_rep_put|by apply detaching_rep_put|done]|]); done.
Qed.

Lemma phase_ok_free s p ks ds c m :
  phase_ok s p ks ds -> c ∉ ks -> phase_ok (set_nodes (delete c (nodes s)) (set_controls m s)) p ks ds.
Proof.
  intros H Hc. destruct p; simpl in *; destruct_and?; subst;
    repeat (split; [first [by apply linked_rep_free|by apply detaching_rep_free|done]|]); done.
Qed.

Lemma phase_ok_control s p ks ds m :
  phase_ok s p ks ds -> phase_ok (set_controls m s) p ks ds.
Proof.
  intros H. destruct p; simpl in *; destruct_and?; subst;
    repeat (split; [first [by eapply linked_rep_ext|by eapply detaching_rep_ext|done]|]); done.
Qed.

(** A phase before the request is [Idle]. *)
Lemma not_requested s p ks ds : phase_ok s p ks ds -> requested s = false -> p = Idle.
Proof. destruct p; simpl; intuition congruence. Qed.

Lemma chain_put s ds c n x :
  sseg Some (chain_of s) ds None -> c ∉ ds ->
  sseg Some (chain_of (set_controls (<[c := x]> (controls s)) (set_nodes n s))) ds None.
Proof.
  intros H Hc. eapply sseg_ext; [|exact H]. intros k Hk. unfold chain_of. simpl.
  rewrite lookup_insert_ne; [done|by intros ->].
Qed.

(** Open the view of [c]: its fields are [En] ... [Ex], and its stage [Es]. *)
Ltac open_view H c :=
  let n := fresh "n" in let f := fresh "f" in let d := fresh "d" in let l := fresh "l" in
  let ch := fresh "ch" in let r := fresh "r" in let i := fresh "i" in let dd := fresh "dd" in
  destruct (view_intro _ _ _ _ _ (wo_views _ _ _ _ H c)) as
    (n & f & d & l & ch & r & i & dd & [En Ef Ed El Ec Er Ei Ex Es]).

(** The cases of the stage; what is known of memberships, as propositions too. *)
Ltac invert_stage Es :=
  inversion Es; clear Es; subst; try discriminate;
  destruct_or?; destruct_and?; destruct_or?; try discriminate;
  repeat match goal with
  | H : true = bool_decide ?P |- _ =>
      lazymatch goal with H' : P |- _ => fail | _ => idtac end;
      assert P by (by apply (bool_decide_eq_true P))
  | H : false = bool_decide ?P |- _ =>
      lazymatch goal with H' : ~ P |- _ => fail | _ => idtac end;
      assert (~ P) by (by apply (bool_decide_eq_false P))
  end.

(** Rewrite the fields of a view that the context fixes. *)
Ltac fields :=
  repeat match goal with
  | H : ?a = bool_decide ?P |- context [bool_decide ?P] => rewrite <- H
  | H : bool_decide ?P = ?a |- context [bool_decide ?P] => rewrite H
  | H : role_of ?p ?c = ?a |- context [role_of ?p ?c] => rewrite H
  | H : ?a = role_of ?p ?c |- context [role_of ?p ?c] => rewrite <- H
  | H : ?a = dtors ?w !! ?c |- context [dtors ?w !! ?c] => rewrite <- H
  | H : ?a = destroyed ?w !! ?c |- context [destroyed ?w !! ?c] => rewrite <- H
  | H : ?a = n_source <$> ?x |- context [n_source <$> ?x] => rewrite <- H
  | H : ?a = flags <$> ?x |- context [flags <$> ?x] => rewrite <- H
  end.

(** Prove a stage by one of its constructors. *)
Ltac to_stage :=
  fields; first
  [ solve [apply stage_unsourced; simpl; auto] | solve [apply stage_linked; simpl; auto]
  | solve [apply stage_unlinked] | solve [apply stage_pending; simpl; auto]
  | solve [apply stage_withdrawn; auto] | solve [apply stage_running; simpl; auto]
  | solve [apply stage_awaited; auto; congruence] | solve [apply stage_self_destroyed; auto]
  | solve [apply stage_done] | solve [apply stage_destroyed] ].

Lemma unaware_early d : unaware d -> early d.
Proof. by destruct d as [[]|]. Qed.

Lemma construct_plain s c sourced :
  sourced = false \/ requested s = true ->
  construct c sourced s = Some (sourced,
    set_controls (<[c := Control false false false true None None]> (controls s))
      (set_nodes (<[c := Node Null Null false]> (nodes s)) s)).
Proof.
  intros H. unfold construct. rewrite !prog_modify_bind. destruct sourced; [|done]. destruct H as [|Hr]; [done|].
  cbn [negb]. unfold try_add_callback. unfold after at 1. rewrite prog_read_bind. unfold id. simpl. rewrite Hr.
  unfold give, get_node, put_node, after. simpl.
  repeat (rewrite !lookup_insert_eq; simpl). by rewrite insert_insert_eq.
Qed.

Lemma construct_linked s c ks :
  linked_rep s ks -> requested s = false -> nodes s !! c = None -> c ∉ ks ->
  exists s', construct c true s = Some (false, s') /\ linked_rep s' (c :: ks) /\
    (forall j, n_source <$> nodes s' !! j = if decide (j = c) then Some true else n_source <$> nodes s !! j) /\
    controls s' = <[c := Control false false false true None None]> (controls s) /\ requested s' = false.
Proof.
  intros H Hr Hc Hni. unfold construct. rewrite !prog_modify_bind. cbn [negb]. cbv iota.
  match goal with |- context [after _ _ ?x] => set (s1 := x) end.
  destruct (try_add_ok s1 ks c (Node Null Null true)) as (s' & Ht & H' & Hs & Ec & Er).
  - by apply (linked_rep_put s ks c (Node Null Null true)).
  - apply lookup_insert_eq.
  - done.
  - done.
  - rewrite (prog_bind_ok _ _ _ _ _ Ht). exists s'. split; [done|]. split; [done|]. split; [|split].
    + intros j. rewrite Hs. simpl. rewrite lookup_insert. repeat case_decide; congruence || done.
    + by rewrite Ec.
    + by rewrite Er.
Qed.

Section preserve.
Context (rt : thread_id) (w : world) (ks ds : list callback_id).
Hypothesis ok : world_ok rt w ks ds.
#[local] Set Default Proof Using "All".

Lemma construct_step c sourced inline s' :
  nodes (src w) !! c = None -> controls (src w) !! c = None ->
  (sourced = true -> locked (at_phase w) = false) -> construct c sourced (src w) = Some (inline, s') ->
  exists ks', (at_phase w = Idle \/ ks' = ks) /\
    world_ok rt (World s' (at_phase w) (dtors w) (if inline then c :: invoked w else invoked w) (destroyed w)) ks' ds.
Proof.
  intros Hn Hc Hlk Hr. pose proof ok as [Hv Hp Hch Hds Hinv].
  open_view ok c. rewrite Hn in En. rewrite Hc in Ef. subst n f. invert_stage Es.
  destruct (decide (sourced = false \/ requested (src w) = true)) as [Hs|Hs].
  - rewrite (construct_plain _ _ _ Hs) in Hr. simplify_eq. exists ks. split; [by right|]. split; simpl.
    + intros j. destruct (decide (j = c)) as [->|Hj].
      * unfold view_ok. simpl. rewrite !lookup_insert_eq. simpl.
        fields. by constructor.
      * eapply view_other; [apply Hv|..]; simpl; try done.
        -- by rewrite lookup_insert_ne.
        -- by rewrite lookup_insert_ne.
        -- destruct inline; [|done]. rewrite elem_of_cons. naive_solver.
    + by apply phase_ok_put.
    + by apply chain_put.
    + done.
    + destruct inline; [constructor|]; done.
  - destruct sourced; [|naive_solver]. assert (requested (src w) = false) as Hrq by (destruct (requested _); naive_solver).
    pose proof (not_requested _ _ _ _ Hp Hrq) as Hidle. rewrite Hidle in Hp. simpl in Hp. destruct Hp as (Hl & Ed0 & _).
    destruct (construct_linked _ _ _ Hl Hrq Hn) as (s2 & Hr' & Hl' & Hs2 & Ec2 & Er2); [done|].
    rewrite Hr' in Hr. simplify_eq. exists (c :: ks). split; [by left|]. split; simpl.
    + intros j. destruct (decide (j = c)) as [->|Hj].
      * unfold view_ok. simpl. rewrite Hs2, Ec2, lookup_insert_eq, decide_True by done. simpl.
        rewrite bool_decide_true by apply list_elem_of_here.
        fields. by constructor.
      * eapply view_other; [apply Hv|..]; simpl; try done.
        -- rewrite Hs2. by rewrite decide_False.
        -- rewrite Ec2. by rewrite lookup_insert_ne.
        -- rewrite elem_of_cons. naive_solver.
    + rewrite Hidle. simpl. done.
    + done.
    + done.
    + done.
Qed.

(** A step of the requester that changes no callback. *)
Lemma quiet_step p s' ks' :
  nodes s' = nodes (src w) -> controls s' = controls (src w) ->
  (forall c, role_of p c = role_of (at_phase w) c) -> ks' = ks -> phase_ok s' p ks' ds ->
  world_ok rt (World s' p (dtors w) (invoked w) (destroyed w)) ks' ds.
Proof.
  intros En Ec Er -> Hp. pose proof ok as [Hv _ Hch Hds Hinv]. split; simpl; try done.
  - intros j. eapply view_other; [apply Hv|..]; simpl; by rewrite ?En, ?Ec, ?Er.
  - eapply sseg_ext; [|exact Hch]. intros k _. unfold chain_of. by rewrite Ec.
Qed.

Lemma request_step raw s' :
  at_phase w = Idle -> begin_request (src w) = Some (Some raw, s') ->
  world_ok rt (World s' (Detaching raw None None) (dtors w) (invoked w) (destroyed w)) ks ds.
Proof.
  intros Hidle Hr. pose proof ok as [_ Hp _ _ _]. rewrite Hidle in Hp. destruct Hp as ([L1 L2 L3 L4] & Ed0 & Hrq).
  unfold begin_request in Hr. rewrite prog_read_bind in Hr. unfold id in Hr. rewrite Hrq in Hr.
  injection Hr as <- <-. apply quiet_step; simpl; try done; [by rewrite Hidle|].
  split; [|by rewrite Ed0]. split; simpl; try done.
  clear -L2. generalize Head L2. clear L2. induction ks as [|k l IH]; intros p H; [done|].
  destruct H as [H1 H2]. split; [|by eapply IH].
  unfold next_of. unfold links_of in H1. simpl. destruct (nodes (src w) !! k); [|done].
  injection H1 as _ H1. simpl. by rewrite H1.
Qed.

Lemma request_again_step s' :
  begin_request (src w) = Some (None, s') ->
  world_ok rt (World s' (at_phase w) (dtors w) (invoked w) (destroyed w)) ks ds.
Proof.
  intros Hr. unfold begin_request in Hr. rewrite prog_read_bind in Hr. unfold id in Hr.
  destruct (requested (src w)); [|done]. injection Hr as <-. destruct w. exact ok.
Qed.

Lemma detach_step c first prev raw' first' prev' s' :
  at_phase w = Detaching (Obj c) first prev ->
  detach_one rt c first prev (src w) = Some ((raw', first', prev'), s') ->
  exists ks', ks = c :: ks' /\
    world_ok rt (World s' (Detaching raw' first' prev') (dtors w) (invoked w) (destroyed w)) ks' (ds ++ [c]).
Proof.
  intros Hph Hr. pose proof ok as [Hv Hp Hch Hds Hinv]. rewrite Hph in Hp. destruct Hp as (Hd & Hrq & -> & ->).
  pose proof (dr_head _ _ _ Hd) as Hhd. rewrite hd_or_Obj in Hhd.
  destruct ks as [|c' l] eqn:Eks; [done|]. injection Hhd as <-. rewrite <- Eks in ok.
  open_view ok c. rewrite Eks in El. rewrite bool_decide_true in El by apply list_elem_of_here. subst l0.
  invert_stage Es. 
  match goal with H : Some fresh_flags = flags <$> _ |- _ =>
    symmetry in H; apply fmap_flags_some in H as (x & Hx & Hfx) end.
  injection Hfx as F1 F2 F3 F4 F5.
  pose proof (dr_nodup _ _ _ Hd) as Hnd. apply NoDup_cons in Hnd as [Hcl Hnd].
  destruct (detach_one_ok rt _ _ _ _ _ Hd Hx Hch) as (s2 & Hr2 & Hd2 & Hs2 & Hf2 & Hc2 & Hq2); [done..|].
  rewrite Hr2 in Hr. simplify_eq. exists l. split; [done|]. split; simpl; try done.
  - intros j. destruct (decide (j = c)) as [->|Hj].
    + unfold view_ok. simpl. rewrite (Hs2 c), (Hf2 c), decide_True by done. rewrite F2.
      rewrite (bool_decide_true (c ∈ ds ++ [c])) by set_solver.
      rewrite (bool_decide_false (c ∈ l)) by done. fields.
      apply stage_pending; [by apply unaware_early|auto].
    + eapply view_other; [apply Hv|..]; simpl; try done.
      * rewrite Hf2. by rewrite decide_False.
      * rewrite elem_of_cons. naive_solver.
      * rewrite elem_of_app, list_elem_of_singleton. naive_solver.
      * by rewrite Hph.
  - split; [done|]. split; [congruence|done].
  - apply NoDup_app. split; [done|]. split; [|apply NoDup_singleton].
    intros j Hj ->%list_elem_of_singleton. done.
Qed.

Lemma detached_step first prev :
  at_phase w = Detaching Null first prev ->
  world_ok rt (World (src w) (Looping first) (dtors w) (invoked w) (destroyed w)) ks ds.
Proof.
  intros Hph. pose proof ok as [_ Hp _ _ _]. rewrite Hph in Hp. destruct Hp as ([D1 D2 D3 D4 D5] & Hrq & -> & _).
  rewrite hd_or_Obj in D2. assert (ks = []) as Eks by (clear -D2; by destruct ks).
  apply quiet_step; try done; [by rewrite Hph|]. simpl. rewrite Eks in D5.
  split; [split; [done|done|constructor|done]|done].
Qed.

Lemma finished_step :
  at_phase w = Looping None ->
  world_ok rt (World (src w) Finished (dtors w) (invoked w) (destroyed w)) ks ds.
Proof.
  intros Hph. pose proof ok as [_ Hp _ _ _]. rewrite Hph in Hp. destruct Hp as (Hl & Hrq & Eks & Hh).
  apply quiet_step; try done; [by rewrite Hph|]. simpl. split; [done|]. split; [done|]. split; [done|].
  clear -Hh. by destruct ds.
Qed.

Lemma take_step c h s' :
  at_phase w = Looping (Some c) -> take_next c (src w) = Some (h, s') ->
  exists ds', ds = c :: ds' /\ world_ok rt (World s' (Deciding c h) (dtors w) (invoked w) (destroyed w)) ks ds'.
Proof.
  intros Hph Hr. pose proof ok as [Hv Hp Hch Hds Hinv]. rewrite Hph in Hp. destruct Hp as (Hl & Hrq & Eks & Hh).
  destruct ds as [|c' l] eqn:Eds; [done|]. injection Hh as <-. rewrite <- Eds in ok.
  destruct Hch as [Hc1 Hc2]. apply NoDup_cons in Hds as [Hni Hnd].
  unfold chain_of in Hc1. destruct (controls (src w) !! c) as [x|] eqn:Ex; [|done]. injection Hc1 as Hc1.
  rewrite hd_or_Some in Hc1. unfold take_next in Hr.
  rewrite (prog_bind_ok _ _ _ _ _ (control_read_ok _ _ _ Ex)), (prog_bind_ok _ _ _ _ _ (put_control_ok _ _ _ _ Ex)) in Hr.
  injection Hr as <- <-. exists l. split; [done|]. split; simpl; try done.
  - intros j. destruct (decide (j = c)) as [->|Hj].
    + specialize (Hv c). unfold view_ok in *. simpl. rewrite lookup_insert_eq, (decide_True (P := c = c)) by done.
      rewrite Ex, Hph in Hv. rewrite (bool_decide_true (c ∈ c :: l)) in Hv by apply list_elem_of_here.
      rewrite (bool_decide_false (c ∈ l)) by done. simpl in *. unfold flags in *. simpl.
      inversion Hv; subst; simplify_eq; constructor; naive_solver.
    + eapply view_other; [apply Hv|..]; simpl; try done.
      * by rewrite lookup_insert_ne.
      * rewrite elem_of_cons. naive_solver.
      * rewrite Hph. simpl. by rewrite decide_False.
  - split; [by eapply linked_rep_ext|]. split; [done|]. split; [done|]. by rewrite Hc1.
  - eapply sseg_ext; [|exact Hc2]. intros k Hk. unfold chain_of. simpl.
    rewrite lookup_insert_ne; [done|by intros ->].
Qed.

Lemma run_step c h b s' :
  at_phase w = Deciding c h -> start_run c (src w) = Some (b, s') ->
  world_ok rt (World s' (if b then Invoking c h else Finishing c h) (dtors w)
    (if b then c :: invoked w else invoked w) (destroyed w)) ks ds.
Proof.
  intros Hph Hr. pose proof ok as [Hv Hp Hch Hds Hinv].
  open_view ok c. rewrite Hph in Er. simpl in Er. rewrite decide_True in Er by done. subst r.
  unfold start_run in Hr. destruct (controls (src w) !! c) as [x|] eqn:Ecx.
  2: { unfold after, get_control in Hr. by rewrite Ecx in Hr. }
  rewrite (prog_bind_ok _ _ _ _ _ (control_read_ok _ _ _ Ecx)) in Hr.
  assert (forall p', phase_ok (src w) (Deciding c h) ks ds -> (p' = Invoking c h \/ p' = Finishing c h) ->
    phase_ok (src w) p' ks ds) as Hpp by (intros p' ? [->| ->]; done).
  rewrite Hph in Hp. simpl in Ef. invert_stage Es;
    destruct x as [x1 x2 x3 x4 x5 x6]; unfold flags, fresh_flags in *; simpl in *; simplify_eq; simpl in *.
  - rewrite (prog_bind_ok _ _ _ _ _ (put_control_ok _ _ _ _ Ecx)) in Hr. injection Hr as <- <-. split; simpl; try done.
    + intros j. destruct (decide (j = c)) as [->|Hj].
      * unfold view_ok. simpl. rewrite lookup_insert_eq, (decide_True (P := c = c)) by done.
        rewrite (bool_decide_true (c ∈ c :: _)) by apply list_elem_of_here. fields.
        apply stage_running; auto.
      * eapply view_other; [apply Hv|..]; simpl; try done.
        -- by rewrite lookup_insert_ne.
        -- rewrite Hph. simpl. by rewrite !decide_False.
        -- rewrite elem_of_cons. naive_solver.
    + destruct Hp as (? & ? & ? & ?). split; [by eapply linked_rep_ext|done].
    + by eapply put_control_chain.
    + constructor; done.
  - injection Hr as <- <-. split; simpl; try done.
    intros j. destruct (decide (j = c)) as [->|Hj].
    + unfold view_ok. simpl. rewrite Ecx, (decide_True (P := c = c)) by done. fields. unfold flags. simpl.
      apply stage_withdrawn. auto.
    + eapply view_other; [apply Hv|..]; simpl; try done. rewrite Hph. simpl. by rewrite !decide_False.
Qed.

Lemma return_step c h :
  at_phase w = Invoking c h ->
  world_ok rt (World (src w) (Finishing c h) (dtors w) (invoked w) (destroyed w)) ks ds.
Proof.
  intros Hph. pose proof ok as [Hv Hp Hch Hds Hinv]. rewrite Hph in Hp. split; simpl; try done.
  intros j. destruct (decide (j = c)) as [->|Hj].
  - open_view ok c. rewrite Hph in Er. simpl in Er. rewrite decide_True in Er by done. subst r.
    unfold view_ok. simpl. rewrite (decide_True (P := c = c)) by done.
    invert_stage Es; to_stage.
  - eapply view_other; [apply Hv|..]; simpl; try done. rewrite Hph. simpl. by rewrite !decide_False.
Qed.

(** Changing the flags of one control block. *)
Lemma control_step c x y p dt iv de :
  controls (src w) !! c = Some x -> next_detached y = next_detached x -> phase_ok (src w) p ks ds ->
  NoDup iv -> (forall j, j <> c -> role_of p j = role_of (at_phase w) j /\ dt !! j = dtors w !! j /\
    (j ∈ iv <-> j ∈ invoked w) /\ de !! j = destroyed w !! j) ->
  stage rt (n_source <$> nodes (src w) !! c) (Some (flags y)) (dt !! c) (bool_decide (c ∈ ks))
    (bool_decide (c ∈ ds)) (role_of p c) (bool_decide (c ∈ iv)) (de !! c) ->
  world_ok rt (World (set_controls (<[c := y]> (controls (src w))) (src w)) p dt iv de) ks ds.
Proof.
  intros Hx Hnx Hp Hiv Hj Hs. pose proof ok as [Hv _ Hch Hds Hinv]. split; simpl; try done.
  - intros j. destruct (decide (j = c)) as [->|Hjc].
    + unfold view_ok. simpl. by rewrite lookup_insert_eq.
    + destruct (Hj j Hjc) as (E1 & E2 & E3 & E4). eapply view_other; [apply Hv|..]; simpl; try done.
      by rewrite lookup_insert_ne.
  - by apply phase_ok_control.
  - by eapply put_control_chain.
Qed.

Lemma end_step c h s' :
  at_phase w = Finishing c h -> end_run c (src w) = Some (tt, s') ->
  world_ok rt (World s' (Looping h) (dtors w) (invoked w) (destroyed w)) ks ds.
Proof.
  intros Hph Hr. pose proof ok as [Hv Hp Hch Hds Hinv].
  open_view ok c. rewrite Hph in Er. simpl in Er. rewrite decide_True in Er by done. subst r.
  unfold end_run in Hr. destruct (controls (src w) !! c) as [x|] eqn:Ecx.
  2: { unfold after, get_control in Hr. by rewrite Ecx in Hr. }
  rewrite (prog_bind_ok _ _ _ _ _ (control_read_ok _ _ _ Ecx)), (put_control_ok _ _ _ _ Ecx) in Hr.
  injection Hr as <-. apply (control_step c x); try done.
  - by rewrite Hph in Hp.
  - intros j Hj. rewrite Hph. simpl. by rewrite decide_False.
  - simpl in Ef. invert_stage Es; destruct x as [x1 x2 x3 x4 x5 x6]; unfold flags, fresh_flags in *; simpl in *;
      simplify_eq; simpl in *; to_stage.
Qed.

Lemma dtor_begin_step c th b s' :
  is_Some (nodes (src w) !! c) -> dtors w !! c = None -> read_detached c (src w) = Some (b, s') ->
  world_ok rt (World s' (at_phase w) (<[c := Began th b]> (dtors w)) (invoked w) (destroyed w)) ks ds.
Proof.
  intros [n0 Hn] Hd Hr. pose proof ok as [Hv Hp Hch Hds Hinv]. open_view ok c.
  rewrite Hn in En. rewrite Hd in Ed. subst n d. simpl in Es.
  unfold read_detached in Hr. destruct (controls (src w) !! c) as [x|] eqn:Ecx.
  2: { unfold after, get_control in Hr. by rewrite Ecx in Hr. }
  rewrite (prog_bind_ok _ _ _ _ _ (control_read_ok _ _ _ Ecx)) in Hr. injection Hr as <- <-.
  split; simpl; try done. intros j. destruct (decide (j = c)) as [->|Hj].
  - unfold view_ok. simpl. rewrite Hn, Ecx, lookup_insert_eq. simpl. simpl in Ef.
    invert_stage Es; destruct x as [x1 x2 x3 x4 x5 x6]; unfold flags, fresh_flags in *; simpl in *;
      simplify_eq; simpl in *;
      repeat match goal with H : ?b = n_source n0 |- _ => rewrite <- H; clear H | H : n_source n0 = ?b |- _ => rewrite H; clear H end;
      to_stage.
  - eapply view_other; [apply Hv|..]; simpl; try done. by rewrite lookup_insert_ne.
Qed.

(** A destructor that does not have to unlink. *)
Lemma dtor_skip_step c th b :
  dtors w !! c = Some (Began th b) -> c ∉ ks ->
  world_ok rt (World (src w) (at_phase w) (<[c := Unlinked th]> (dtors w)) (invoked w) (destroyed w)) ks ds.
Proof.
  intros Hd Hc. pose proof ok as [Hv Hp Hch Hds Hinv]. open_view ok c. rewrite Hd in Ed. subst d.
  rewrite bool_decide_false in El by done. subst l.
  split; simpl; try done. intros j. destruct (decide (j = c)) as [->|Hj].
  - unfold view_ok. simpl. rewrite lookup_insert_eq, (bool_decide_false (c ∈ ks)) by done.
    invert_stage Es; to_stage.
  - eapply view_other; [apply Hv|..]; simpl; try done. by rewrite lookup_insert_ne.
Qed.

Lemma dtor_unlink_step c th b s' :
  dtors w !! c = Some (Began th b) -> locked (at_phase w) = false \/ b = true ->
  unlink c b (src w) = Some (tt, s') ->
  exists ks', (at_phase w = Idle \/ ks' = ks) /\
    world_ok rt (World s' (at_phase w) (<[c := Unlinked th]> (dtors w)) (invoked w) (destroyed w)) ks' ds.
Proof.
  intros Hd Hlk Hr. pose proof ok as [Hv Hp Hch Hds Hinv].
  unfold unlink in Hr. destruct (nodes (src w) !! c) as [n0|] eqn:Hn.
  2: { unfold after, get_node in Hr. by rewrite Hn in Hr. }
  rewrite (prog_bind_ok _ _ _ _ _ (get_node_ok _ _ _ Hn)) in Hr.
  destruct (decide (c ∈ ks)) as [Hc|Hc].
  - open_view ok c. rewrite Hd in Ed. rewrite bool_decide_true in El by done. subst l d.
    revert Hlk. invert_stage Es. intros Hlk. match goal with H : unaware _ |- _ => simpl in H; subst b end.
    rewrite Hn in *. match goal with H : Some true = n_source <$> Some n0 |- _ => injection H as Hsrc end.
    rewrite <- Hsrc in Hr. simpl in Hr. destruct Hlk as [Hlk|]; [|done].
    assert (at_phase w = Idle) as Hidle.
    { destruct (at_phase w); simpl in Hp, Hlk; try done; destruct_and?; subst; by apply not_elem_of_nil in Hc. }
    rewrite Hidle in Hp. destruct Hp as (Hl & Hd0 & Hrq).
    apply list_elem_of_split in Hc as (k1 & k2 & Eks). rewrite Eks in Hl.
    destruct (unregister_ok _ _ _ _ Hl) as (s2 & Hr2 & Hl2 & Hs2 & Hc2 & Hq2). rewrite Hr2 in Hr. simplify_eq.
    pose proof (lr_nodup _ _ Hl) as Hnd. rewrite <- Permutation_middle in Hnd. apply NoDup_cons in Hnd as [Hni _].
    exists (k1 ++ k2). split; [by left|]. split; simpl; try done.
    + intros j. destruct (decide (j = c)) as [->|Hj].
      * unfold view_ok. simpl. rewrite (Hs2 c), Hc2, lookup_insert_eq, Hn. simpl. rewrite <- Hsrc.
        rewrite (bool_decide_false (c ∈ k1 ++ k2)) by done. fields. constructor.
      * eapply view_other; [apply Hv|..]; simpl; try done.
        -- by rewrite Hc2.
        -- by rewrite lookup_insert_ne.
        -- set_solver.
    + rewrite Hidle. simpl. by rewrite Hq2.
  - exists ks. split; [by right|]. assert (s' = src w) as ->; [|by eapply dtor_skip_step].
    destruct (n_source n0 && negb b) eqn:E; [|by injection Hr].
    destruct Hlk as [Hlk| ->]; [|by rewrite andb_false_r in E].
    assert (loose (src w) ks) as Hlo.
    { destruct (at_phase w); simpl in Hp, Hlk; try done; destruct_and?; subst; eapply lr_loose; eassumption. }
    rewrite (remove_loose _ _ _ _ Hlo Hn Hc) in Hr. by injection Hr.
Qed.

Lemma dtor_wait_step c th s' :
  dtors w !! c = Some (Unlinked th) -> cancel c th (src w) = Some (true, s') ->
  world_ok rt (World s' (at_phase w) (<[c := Waiting th]> (dtors w)) (invoked w) (destroyed w)) ks ds.
Proof.
  intros Hd Hr. pose proof ok as [Hv Hp Hch Hds Hinv]. open_view ok c. rewrite Hd in Ed. subst d.
  unfold cancel in Hr. destruct (controls (src w) !! c) as [x|] eqn:Ecx.
  2: { unfold after, get_control in Hr. by rewrite Ecx in Hr. }
  rewrite (prog_bind_ok _ _ _ _ _ (control_read_ok _ _ _ Ecx)), (prog_bind_ok _ _ _ _ _ (put_control_ok _ _ _ _ Ecx)) in Hr.
  injection Hr as Hw <-. apply andb_true_iff in Hw as [Hrun Hth%negb_true_iff%bool_decide_eq_false].
  apply (control_step c x); try done.
  - intros j Hj. by rewrite lookup_insert_ne.
  - rewrite lookup_insert_eq. simpl in Ef.
    invert_stage Es; destruct x as [x1 x2 x3 x4 x5 x6]; unfold flags, fresh_flags in *; simpl in *;
      simplify_eq; simpl in *; to_stage.
Qed.

(** The object of [c] is freed, its destructor ends. *)
Lemma free_step c th y :
  is_Some (controls (src w) !! c) -> (forall x, controls (src w) !! c = Some x -> next_detached y = next_detached x) ->
  c ∉ ks ->
  stage rt None (Some (flags y)) None false (bool_decide (c ∈ ds)) (role_of (at_phase w) c)
    (bool_decide (c ∈ invoked w)) (Some th) ->
  world_ok rt (freed w (set_nodes (delete c (nodes (src w))) (set_controls (<[c := y]> (controls (src w))) (src w))) c th) ks ds.
Proof.
  intros [x Hx] Hy Hc Hs. pose proof ok as [Hv Hp Hch Hds Hinv]. split; simpl; try done.
  - intros j. destruct (decide (j = c)) as [->|Hj].
    + unfold view_ok. simpl. rewrite lookup_delete_eq, lookup_insert_eq, lookup_delete_eq, lookup_insert_eq.
      by rewrite (bool_decide_false (c ∈ ks)).
    + eapply view_other; [apply Hv|..]; simpl; try done.
      * by rewrite lookup_delete_ne.
      * by rewrite lookup_insert_ne.
      * by rewrite lookup_delete_ne.
      * by rewrite lookup_insert_ne.
  - by apply phase_ok_free.
  - eapply sseg_ext; [|eapply (put_control_chain _ c x y); [exact Hch|exact Hx|by apply Hy]]. done.
Qed.

Lemma dtor_cancel_step c th s1 s' :
  dtors w !! c = Some (Unlinked th) -> cancel c th (src w) = Some (false, s1) -> free c s1 = Some (tt, s') ->
  world_ok rt (freed w s' c th) ks ds.
Proof.
  intros Hd Hr Hf. pose proof ok as [Hv Hp Hch Hds Hinv]. open_view ok c. rewrite Hd in Ed. subst d.
  unfold cancel in Hr. destruct (controls (src w) !! c) as [x|] eqn:Ecx.
  2: { unfold after, get_control in Hr. by rewrite Ecx in Hr. }
  rewrite (prog_bind_ok _ _ _ _ _ (control_read_ok _ _ _ Ecx)), (prog_bind_ok _ _ _ _ _ (put_control_ok _ _ _ _ Ecx)) in Hr.
  injection Hr as Hw <-. injection Hf as <-.
  assert (running x = true -> th = rt /\ request_thread x = Some rt) as Hself.
  { intros Hrun. rewrite Hrun in Hw. apply negb_false_iff, bool_decide_eq_true in Hw. split; [|simpl in Ef];
    invert_stage Es; destruct x as [x1 x2 x3 x4 x5 x6]; unfold flags, fresh_flags in *; simpl in *; simplify_eq; done. }
  simpl in Ef. rewrite <- Ef in Es. clear Ef.
  apply (free_step c th (Control (detached x) (running x) true false (request_thread x) (next_detached x))).
  - by eexists.
  - intros z Hz. simpl. congruence.
  - invert_stage Es; done.
  - destruct x as [x1 x2 x3 x4 x5 x6]. unfold flags in *. simpl in *.
    invert_stage Es; unfold fresh_flags in *; simplify_eq;
      try (destruct (Hself eq_refl) as [-> _]); to_stage.
Qed.

Lemma dtor_wake_step c th s1 s' :
  dtors w !! c = Some (Waiting th) -> stopped_running c (src w) = Some (true, s1) -> free c s1 = Some (tt, s') ->
  world_ok rt (freed w s' c th) ks ds.
Proof.
  intros Hd Hr Hf. pose proof ok as [Hv Hp Hch Hds Hinv]. open_view ok c. rewrite Hd in Ed. subst d.
  unfold stopped_running in Hr. destruct (controls (src w) !! c) as [x|] eqn:Ecx.
  2: { unfold after, get_control in Hr. by rewrite Ecx in Hr. }
  rewrite (prog_bind_ok _ _ _ _ _ (control_read_ok _ _ _ Ecx)) in Hr.
  injection Hr as Hw <-. injection Hf as <-. apply negb_true_iff in Hw.
  replace (set_nodes (delete c (nodes (src w))) (src w)) with
    (set_nodes (delete c (nodes (src w))) (set_controls (<[c := x]> (controls (src w))) (src w))).
  2: { rewrite insert_id by done. by destruct (src w). }
  apply free_step.
  - by eexists.
  - intros z Hz. congruence.
  - invert_stage Es; done.
  - simpl in Ef. invert_stage Es; destruct x as [x1 x2 x3 x4 x5 x6]; unfold flags, fresh_flags in *; simpl in *;
      simplify_eq; simpl in *; (done || to_stage).
Qed.
End preserve.

Lemma requester_step_ok rt w w' ks ds :
  world_ok rt w ks ds -> requester_step rt w w' -> exists ks' ds', world_ok rt w' ks' ds'.
Proof.
  intros H Hs. destruct Hs.
  - eexists _, _. by eapply request_step.
  - edestruct detach_step as (? & _ & ?); eauto.
  - eexists _, _. by eapply detached_step.
  - edestruct take_step as (? & _ & ?); eauto.
  - eexists _, _. by eapply finished_step.
  - eexists _, _. by eapply run_step.
  - eexists _, _. by eapply return_step.
  - eexists _, _. by eapply end_step.
Qed.

(** The others leave what the requester has to do as it is, once the request has begun. *)
Lemma stop_step_ok rt w w' ks ds :
  world_ok rt w ks ds -> step rt w w' ->
  exists ks' ds', world_ok rt w' ks' ds' /\
    (at_phase w = Idle \/ requester_step rt w w' \/ at_phase w' = at_phase w /\ ks' = ks /\ ds' = ds).
Proof.
  intros H Hs. destruct Hs as [| |w w' Hs| | | | |].
  - edestruct construct_step as (? & [?| ->] & ?); eauto 10.
  - eexists _, _. split; [by eapply request_again_step|by auto].
  - destruct (requester_step_ok _ _ _ _ _ H Hs) as (? & ? & ?). eauto 10.
  - eexists _, _. split; [by eapply dtor_begin_step|by auto].
  - edestruct dtor_unlink_step as (? & [?| ->] & ?); eauto 10.
  - eexists _, _. split; [by eapply dtor_wait_step|by auto].
  - eexists _, _. split; [by eapply dtor_cancel_step|by auto].
  - eexists _, _. split; [by eapply dtor_wake_step|by auto].
Qed.

Lemma stop_reachable_ok rt w : reachable rt w -> exists ks ds, world_ok rt w ks ds.
Proof.
  induction 1 as [|w w' _ (ks & ds & H) Hs].
  2: { destruct (stop_step_ok _ _ _ _ _ H Hs) as (ks' & ds' & H' & _). by exists ks', ds'. }
  exists [], [].
  assert (NoDup (@nil callback_id)) as Hnil by constructor. split; try done.
  intros c. unfold view_ok. simpl. rewrite !lookup_empty. simpl. constructor.
Qed.
