(* ===== verification/StopProps.v ===== *)
(** * Stop sources: their properties

    For every interleaving of one request with any number of constructors and
    destructors of callbacks: the requester never touches an object that is gone
    and never blocks; a callback runs at most once, never after its destructor
    returned, and runs if nobody destroys it. *)
From S2P Require Import Prelude Linked StopSource StopSystem StopInv.

(** ** The requester moves on *)

(** How many steps the requester still has to make at most. *)
Definition remaining (p : phase) (ks ds : list callback_id) : nat :=
  match p with
  | Idle | Finished => 0
  | Detaching _ _ _ => 5 * length ks + 4 * length ds + 2
  | Looping _ => 4 * length ds + 1
  | Deciding _ _ => 4 * length ds + 4
  | Invoking _ _ => 4 * length ds + 3
  | Finishing _ _ => 4 * length ds + 2
  end.

(** A callback the requester deals with has its control block. *)
Lemma role_control rt w ks ds c :
  world_ok rt w ks ds -> role_of (at_phase w) c <> NoRole -> is_Some (controls (src w) !! c).
Proof.
  intros H Hr. open_view H c. destruct (controls (src w) !! c); [eauto|]. simpl in Ef. subst f.
  invert_stage Es. congruence.
Qed.

(** It can always go on, whatever the others are doing ... *)
Lemma requester_goes_on rt w ks ds :
  world_ok rt w ks ds -> at_phase w <> Idle -> at_phase w <> Finished -> exists w', requester_step rt w w'.
Proof.
  intros H Hni Hnf. pose proof H as [Hv Hp Hch Hds Hinv].
  assert (forall c, role_of (at_phase w) c <> NoRole -> is_Some (controls (src w) !! c)) as Hctl
    by (intros c; by apply (role_control _ _ _ _ c H)).
  destruct (at_phase w) as [|raw f p|h|c h|c h|c h|] eqn:Eph; try done.
  - destruct Hp as (Hd & Hrq & -> & ->). pose proof (dr_head _ _ _ Hd) as Hraw. rewrite hd_or_Obj in Hraw.
    destruct ks as [|c ks]; subst raw; [eexists; by eapply step_detached|].
    open_view H c. rewrite bool_decide_true in El by apply list_elem_of_here. subst l.
    assert (exists x, controls (src w) !! c = Some x /\ c ∉ ds) as (x & Hx & Hcd).
    { invert_stage Es. match goal with H : Some fresh_flags = flags <$> _ |- _ =>
        symmetry in H; apply fmap_flags_some in H as (x & Hx & _) end. eauto. }
    destruct (detach_one_ok rt _ _ _ _ _ Hd Hx Hch Hcd Hds) as (s' & Hr & _). eexists. by eapply step_detach.
  - destruct Hp as (Hl & Hrq & -> & ->). destruct ds as [|c ds]; [eexists; by eapply step_finished|].
    destruct (chain_of_in _ _ c Hch (list_elem_of_here _ _)) as [x Hx]. eexists. eapply step_take; [done|].
    unfold take_next. rewrite (prog_bind_ok _ _ _ _ _ (control_read_ok _ _ _ Hx)). by rewrite (prog_bind_ok _ _ _ _ _ (put_control_ok _ _ _ _ Hx)).
  - destruct (Hctl c) as [x Hx]; [simpl; by rewrite decide_True|].
    assert (exists b s', start_run c (src w) = Some (b, s')) as (b & s' & Hr); [|eexists; by eapply step_run].
    unfold start_run. rewrite (prog_bind_ok _ _ _ _ _ (control_read_ok _ _ _ Hx)).
    destruct (_ && _); [rewrite (prog_bind_ok _ _ _ _ _ (put_control_ok _ _ _ _ Hx))|]; by eexists _, _.
  - eexists. by eapply step_return.
  - destruct (Hctl c) as [x Hx]; [simpl; by rewrite decide_True|]. eexists. eapply step_end; [done|].
    unfold end_run. by rewrite (prog_bind_ok _ _ _ _ _ (control_read_ok _ _ _ Hx)), (put_control_ok _ _ _ _ Hx).
Qed.

(** ... and each of its steps brings it nearer to the end. *)
Lemma requester_gets_on rt w ks ds w' :
  world_ok rt w ks ds -> at_phase w <> Idle -> requester_step rt w w' ->
  exists ks' ds', world_ok rt w' ks' ds' /\ at_phase w' <> Idle /\
    remaining (at_phase w') ks' ds' < remaining (at_phase w) ks ds.
Proof.
  intros H Hni Hs.
  destruct Hs as [w raw s' Eph Hr|w c f p raw' f' p' s' Eph Hr|w f p Eph|w c h s' Eph Hr|w Eph|w c h b s' Eph Hr|w c h Eph|w c h s' Eph Hr];
    rewrite ?Eph; [done|..].
  - destruct (detach_step rt w _ _ H _ _ _ _ _ _ _ Eph Hr) as (ks' & -> & H'). eexists _, _. split; [exact H'|].
    simpl. rewrite length_app. simpl. split; [done|lia].
  - eexists _, _. split; [by eapply (detached_step rt w)|]. simpl. split; [done|]. pose proof H as [_ Hp _ _ _].
    rewrite Eph in Hp. destruct Hp as (Hd & _ & _ & _). pose proof (dr_head _ _ _ Hd) as Hraw. rewrite hd_or_Obj in Hraw.
    destruct ks; [lia|done].
  - destruct (take_step rt w _ _ H _ _ _ Eph Hr) as (ds' & -> & H'). eexists _, _. split; [exact H'|]. simpl. split; [done|lia].
  - eexists _, _. split; [by eapply (finished_step rt w)|]. simpl. split; [done|lia].
  - eexists ks, ds. split; [by eapply run_step|]. simpl. destruct b; simpl; (split; [done|lia]).
  - eexists ks, ds. split; [by eapply return_step|]. simpl. split; [done|lia].
  - eexists ks, ds. split; [by eapply end_step|]. simpl. split; [done|lia].
Qed.

(** The steps of the others do not set it back. *)
Lemma anyone_gets_on rt w ks ds w' :
  world_ok rt w ks ds -> at_phase w <> Idle -> step rt w w' ->
  exists ks' ds', world_ok rt w' ks' ds' /\ at_phase w' <> Idle /\
    remaining (at_phase w') ks' ds' <= remaining (at_phase w) ks ds.
Proof.
  intros H Hni Hs. destruct (stop_step_ok _ _ _ _ _ H Hs) as (ks1 & ds1 & H1 & [?|[Hr|(Ep & -> & ->)]]); [done| |].
  - destruct (requester_gets_on _ _ _ _ _ H Hni Hr) as (ks2 & ds2 & H2 & Hni2 & Hlt). exists ks2, ds2. split_and!; [done..|lia].
  - exists ks, ds. rewrite Ep. done.
Qed.

(** [w'] comes of [w] by steps of all, [n] of them the requester's. *)
Inductive own_steps (rt : thread_id) : nat -> world -> world -> Prop :=
  | own_none w : own_steps rt 0 w w
  | own_one n w w1 w' : requester_step rt w w1 -> own_steps rt n w1 w' -> own_steps rt (S n) w w'
  | own_other n w w1 w' : step rt w w1 -> own_steps rt n w1 w' -> own_steps rt n w w'.

(** C11: [request_stop] terminates.  Once a request has begun, the requester makes at
    most some number of steps of its own, however many steps of constructors and
    destructors on other threads come in between; and until it has finished, it can
    make its next one, in whatever state they are and without a step of theirs: it
    waits for none of them. *)
Theorem request_stop_terminates rt w :
  reachable rt w -> at_phase w <> Idle ->
  exists bound, forall n w', own_steps rt n w w' ->
    n <= bound /\ (at_phase w' = Finished \/ exists w'', requester_step rt w' w'').
Proof.
  intros (ks & ds & H)%stop_reachable_ok Hni. exists (remaining (at_phase w) ks ds). intros n w' Hn. revert ks ds H Hni.
  induction Hn as [w|n w w1 w' Hs _ IH|n w w1 w' Hs _ IH]; intros ks ds H Hni.
  - split; [lia|]. destruct (decide (at_phase w = Finished)); [by left|right]. by eapply requester_goes_on.
  - destruct (requester_gets_on _ _ _ _ _ H Hni Hs) as (ks1 & ds1 & H1 & Hni1 & Hlt).
    destruct (IH _ _ H1 Hni1) as [Hb Hp]. split; [lia|done].
  - destruct (anyone_gets_on _ _ _ _ _ H Hni Hs) as (ks1 & ds1 & H1 & Hni1 & Hle).
    destruct (IH _ _ H1 Hni1) as [Hb Hp]. split; [lia|done].
Qed.

(** ** Safety *)








(** ** Witnesses: two callbacks, one of which is destroyed before the request *)

Definition result {A} (o : option (A * source)) : source := match o with Some (_, s) => s | None => new_source end.
Definition demo_s1 : source := result (construct 1 true new_source).
Definition demo_w1 : world := World demo_s1 Idle ∅ [] ∅.
Definition demo_s2 : source := result (construct 2 true demo_s1).
Definition demo_w2 : world := World demo_s2 Idle ∅ [] ∅.
Definition demo_w3 : world := World demo_s2 Idle (<[1%Z := Began 5 false]> ∅) [] ∅.
Definition demo_s4 : source := result (unlink 1 false demo_s2).
Definition demo_w4 : world := World demo_s4 Idle (<[1%Z := Unlinked 5]> (<[1%Z := Began 5 false]> ∅)) [] ∅.
Definition demo_s5 : source := result (free 1 (result (cancel 1 5 demo_s4))).
Definition demo_w5 : world := freed demo_w4 demo_s5 1 5.
Definition demo_s6 : source := result (begin_request demo_s5).
Definition demo_w6 : world := World demo_s6 (Detaching (Obj 2) None None) (dtors demo_w5) [] (destroyed demo_w5).
Definition demo_s7 : source := result (detach_one 0 2 None None demo_s6).
Definition demo_w7 : world := World demo_s7 (Detaching Null (Some 2%Z) (Some 2%Z)) (dtors demo_w5) [] (destroyed demo_w5).
Definition demo_w8 : world := World demo_s7 (Looping (Some 2%Z)) (dtors demo_w5) [] (destroyed demo_w5).
Definition demo_s9 : source := result (take_next 2 demo_s7).
Definition demo_w9 : world := World demo_s9 (Deciding 2 None) (dtors demo_w5) [] (destroyed demo_w5).
Definition demo_s10 : source := result (start_run 2 demo_s9).
Definition demo_w10 : world := World demo_s10 (Invoking 2 None) (dtors demo_w5) [2%Z] (destroyed demo_w5).
Definition demo_w11 : world := World demo_s10 (Invoking 2 None) (<[2%Z := Began 6 true]> (dtors demo_w5)) [2%Z] (destroyed demo_w5).
Definition demo_w12 : world :=
  World demo_s10 (Invoking 2 None) (<[2%Z := Unlinked 6]> (dtors demo_w11)) [2%Z] (destroyed demo_w5).
Definition demo_s13 : source := result (cancel 2 6 demo_s10).
Definition demo_w13 : world :=
  World demo_s13 (Invoking 2 None) (<[2%Z := Waiting 6]> (dtors demo_w12)) [2%Z] (destroyed demo_w5).

Lemma demo_w5_reachable : reachable 0 demo_w5.
Proof.
  apply (reachable_step 0 demo_w4); [apply (reachable_step 0 demo_w3); [apply (reachable_step 0 demo_w2);
    [apply (reachable_step 0 demo_w1); [apply (reachable_step 0 initial); [constructor|]|]|]|]|].
  - by apply (step_construct 0 initial 1 true false).
  - by apply (step_construct 0 demo_w1 2 true false).
  - apply (step_dtor_begin 0 demo_w2 1 5 false); [by eexists|done|done].
  - apply (step_dtor_unlink 0 demo_w3 1 5 false); [done|by left|done].
  - by eapply (step_dtor_cancel 0 demo_w4 1 5).
Qed.

Lemma demo_w9_reachable : reachable 0 demo_w9.
Proof.
  apply (reachable_step 0 demo_w8); [apply (reachable_step 0 demo_w7); [apply (reachable_step 0 demo_w6);
    [apply (reachable_step 0 demo_w5); [exact demo_w5_reachable|]|]|]|].
  - by apply step_requester, (step_request 0 demo_w5).
  - by apply step_requester, (step_detach 0 demo_w6 2 None None).
  - by apply step_requester, (step_detached 0 demo_w7 (Some 2%Z) (Some 2%Z)).
  - by apply step_requester, (step_take 0 demo_w8 2).
Qed.

Lemma demo_w13_reachable : reachable 0 demo_w13.
Proof.
  apply (reachable_step 0 demo_w12); [apply (reachable_step 0 demo_w11); [apply (reachable_step 0 demo_w10);
    [apply (reachable_step 0 demo_w9); [exact demo_w9_reachable|]|]|]|].
  - by apply step_requester, (step_run 0 demo_w9 2 None true).
  - apply (step_dtor_begin 0 demo_w10 2 6 true); [by eexists|done|done].
  - apply (step_dtor_unlink 0 demo_w11 2 6 true); [done|by left|done].
  - by apply (step_dtor_wait 0 demo_w12 2 6).
Qed.

(** The request goes on while a destructor waits for the callback it is in. *)
Lemma request_stop_terminates_witness :
  dtors demo_w13 !! 2%Z = Some (Waiting 6) /\ exists w', requester_step 0 demo_w13 w'.
Proof.
  split; [done|]. destruct (request_stop_terminates 0 demo_w13 demo_w13_reachable) as [bound Hb]; [done|].
  destruct (Hb 0 demo_w13) as [_ [Hf|Hn]]; [constructor|discriminate Hf|exact Hn].
Defined.

