(* ===== verification/StopScope.v ===== *)
(** * Counting scopes with a stop source

    Models [counting_scope] and the operation that its tokens wrap around a
    sender (backport/cpp26/execution/counting_scope.hpp).  The class is the
    scope of CountingScope.v with a stop source beside it.  A wrapped operation
    has a stop source of its own, the fused one, which is asked to stop when the
    scope's source or that of the receiver is: it registers a callback with each
    of them before the operation it wraps is started, and destroys both before it
    completes.  The sources are those of StopSource.v; what other threads do to
    them between two steps of one operation is in StopSystem.v.

    A step through a pointer to nothing is [None], and so is calling the
    callbacks of the fused source: it has none before the operation is started. *)
From S2P Require Import Prelude Linked CountingScope StopSource StopSystem StopInv.

#[local] Open Scope prog_scope.

(** ** The scope *)

Record counting_scope := MkCountingScope { cs_owned : owned; cs_stop_source : source }.

Definition on_owned {A} (m : prog owned A) : prog counting_scope A := fun cs =>
  match m (cs_owned cs) with
  | Some (a, o) => Some (a, MkCountingScope o (cs_stop_source cs))
  | None => None
  end.
Definition on_stop_source {A} (m : prog source A) : prog counting_scope A := fun cs =>
  match m (cs_stop_source cs) with
  | Some (a, s) => Some (a, MkCountingScope (cs_owned cs) s)
  | None => None
  end.

Definition new_counting_scope : counting_scope := MkCountingScope (Owned new_scope ∅) new_source.
Definition cs_destroy : prog counting_scope unit := on_owned (on_scope destroy).
Definition cs_close : prog counting_scope unit := on_owned (on_scope close).
Definition cs_request_stop : prog counting_scope (option ptr) := on_stop_source begin_request.
Definition cs_is_closed : prog counting_scope bool := on_owned (on_scope is_closed).
Definition cs_count : prog counting_scope Z := on_owned (on_scope count).
Definition cs_try_associate : prog counting_scope bool := on_owned (on_scope try_associate).
Definition cs_start_join (j : joiner_id) : prog counting_scope bool := on_owned (on_scope (start_join j)).
Definition cs_decrement : prog counting_scope (list joiner_id) := on_owned (on_scope decrement).

(** Association handles; [scope]: the token refers to a scope. *)
Definition cs_release (h : handle) : prog counting_scope (list joiner_id) := on_owned (release h).
Definition cs_move_construct (h other : handle) : prog counting_scope unit := on_owned (move_construct h other).
Definition cs_move_assign (h other : handle) : prog counting_scope (list joiner_id) := on_owned (move_assign h other).
Definition cs_destroy_handle (h : handle) : prog counting_scope (list joiner_id) := on_owned (destroy_handle h).
Definition cs_association_try_associate (g h : handle) : prog counting_scope unit :=
  on_owned (association_try_associate g h).
Definition cs_token_try_associate (scope : bool) (h : handle) : prog counting_scope unit :=
  if negb scope then on_owned (put_handle h false) else on_owned (token_try_associate h).

(** [start] of a join: whether it completes at once. *)
Definition join_start (scope : bool) (j : joiner_id) : prog counting_scope bool :=
  if scope then cs_start_join j else give true.

(** ** The sources of a wrapped operation *)

Record sources := Sources { scope_source : source; downstream_source : source; fused_source : source }.

Inductive origin := FromScope | FromDownstream.

Definition source_of (o : origin) (w : sources) : source :=
  match o with FromScope => scope_source w | FromDownstream => downstream_source w end.
Definition set_source (o : origin) (s : source) (w : sources) : sources :=
  match o with
  | FromScope => Sources s (downstream_source w) (fused_source w)
  | FromDownstream => Sources (scope_source w) s (fused_source w)
  end.

Definition on_source {A} (o : origin) (m : prog source A) : prog sources A := fun w =>
  match m (source_of o w) with Some (a, s) => Some (a, set_source o s w) | None => None end.
Definition on_fused {A} (m : prog source A) : prog sources A := fun w =>
  match m (fused_source w) with
  | Some (a, s) => Some (a, Sources (scope_source w) (downstream_source w) s)
  | None => None
  end.

(** [__fused_stop_token]; [state]: the token has a state. *)
Definition fused_stop_requested (state : bool) : prog sources bool :=
  if state then on_fused (read requested) else give false.
Definition fused_stop_possible (state : bool) : bool := state.

(** [__fused_stop_callback]: whether the constructor calls the function. *)
Definition fused_callback (state : bool) (c : callback_id) : prog sources bool :=
  if state then on_fused (construct c true) else give false.

(** [__request_fused_stop]. *)
Definition request_fused : prog sources unit :=
  raw ← on_fused begin_request;
  match raw with None | Some Null => give tt | Some _ => undefined end.

(** [install] for tokens without callbacks; [sourced]: the token has a source. *)
Definition install_poll (o : origin) (sourced : bool) : prog sources unit :=
  asked ← (if sourced then on_source o (read requested) else give false);
  if asked : bool then request_fused else give tt.

(** [install] for tokens with callbacks: the callback, if there is one then;
    [None] when constructing it throws. *)
Definition install (o : origin) (sourced : bool) (c : callback_id) (alloc : bool) :
    prog sources (option (option callback_id)) :=
  asked ← (if sourced then on_source o (read requested) else give false);
  if asked : bool then request_fused ;; give (Some None)
  else if sourced then
    if alloc then
      inline ← on_source o (construct c true);
      (if inline : bool then request_fused else give tt) ;;
      give (Some (Some c))
    else give None
  else give (Some None).

(** Destroying the callback, on the thread [th]; a callback that runs on another
    thread would be waited for. *)
Definition reset (o : origin) (th : thread_id) (cb : option callback_id) : prog sources unit :=
  match cb with
  | None => give tt
  | Some c =>
      d ← on_source o (read_detached c);
      on_source o (unlink c d) ;;
      waits ← on_source o (cancel c th);
      if waits : bool then undefined else on_source o (free c)
  end.

(** ** A wrapped operation *)

(** [__scope_stop] and [__downstream_stop]. *)
Record stop_op := StopOp { scope_stop : option callback_id; downstream_stop : option callback_id }.

Inductive started_as := InnerStarted | StoppedAtOnce.

Definition release_stop_callbacks (th : thread_id) (op : stop_op) : prog sources unit :=
  reset FromScope th (scope_stop op) ;; reset FromDownstream th (downstream_stop op).

(** [start]; [scope] and [down]: the tokens have sources; [alloc1] and [alloc2]:
    the control blocks of the callbacks are allocated. *)
Definition start_op (th : thread_id) (c1 c2 : callback_id) (scope down alloc1 alloc2 : bool) :
    prog sources (started_as * stop_op) :=
  cb1 ← install FromScope scope c1 alloc1;
  match cb1 with
  | None => release_stop_callbacks th (StopOp None None) ;; give (StoppedAtOnce, StopOp None None)
  | Some cb1 =>
      cb2 ← install FromDownstream down c2 alloc2;
      match cb2 with
      | None => release_stop_callbacks th (StopOp cb1 None) ;; give (StoppedAtOnce, StopOp None None)
      | Some cb2 => give (InnerStarted, StopOp cb1 cb2)
      end
  end.

(** The wrapped operation completes: what is completed next is the receiver. *)
Definition complete_op (th : thread_id) (op : stop_op) : prog sources stop_op :=
  release_stop_callbacks th op ;; give (StopOp None None).

(** ** What starting and completing do *)

Implicit Types (s : source) (w : sources) (o : origin) (ks : list callback_id).

Definition asked o (sourced : bool) w : bool := sourced && requested (source_of o w).

(** The callback that [install] leaves. *)
Definition callback_of o (sourced : bool) (c : callback_id) w : option callback_id :=
  if sourced && negb (requested (source_of o w)) then Some c else None.

(** A callback as its constructor leaves it when it is in the list. *)
Definition registered (s : source) (c : callback_id) : Prop :=
  controls s !! c = Some (Control false false false true None None) /\ n_source <$> nodes s !! c = Some true.

Definition other (o : origin) : origin := match o with FromScope => FromDownstream | FromDownstream => FromScope end.

Lemma request_fused_ok w :
  callbacks (fused_source w) = Null ->
  request_fused w = Some (tt, Sources (scope_source w) (downstream_source w)
    (set_requested true (fused_source w))).
Proof.
  intros Hn. unfold request_fused, on_fused, begin_request, after, read, modify, give, id.
  destruct (requested (fused_source w)) eqn:Er; simpl; [|rewrite Hn].
  - destruct w as [s1 s2 [r c n x]]; simpl in *; subst. done.
  - destruct w as [s1 s2 [r c n x]]; simpl in *; subst. done.
Qed.

Lemma asked_run o (sourced : bool) w :
  (if sourced then on_source o (read requested) else give false) w = Some (asked o sourced w, w).
Proof.
  unfold asked. destruct sourced; [|done]. unfold on_source, read. simpl.
  by destruct o, w.
Qed.

(** What [install] leaves when nothing throws: the callback is in the list of
    the source, or the fused source has been asked to stop. *)
Lemma install_ok o sourced c w ks :
  linked_rep (source_of o w) ks -> c ∉ ks -> nodes (source_of o w) !! c = None ->
  callbacks (fused_source w) = Null ->
  exists w', install o sourced c true w = Some (Some (callback_of o sourced c w), w') /\
    linked_rep (source_of o w') (option_list (callback_of o sourced c w) ++ ks) /\
    requested (source_of o w') = requested (source_of o w) /\
    source_of (other o) w' = source_of (other o) w /\
    requested (fused_source w') = requested (fused_source w) || asked o sourced w /\
    callbacks (fused_source w') = Null /\
    (forall j, j ∈ option_list (callback_of o sourced c w) -> registered (source_of o w') j).
Proof.
  intros L Hc Hn Hf. unfold install. rewrite (prog_bind_ok _ _ _ _ _ (asked_run o sourced w)).
  unfold callback_of. destruct (asked o sourced w) eqn:Ea.
  - unfold asked in Ea. apply andb_true_iff in Ea as [-> Er]. rewrite Er.
    rewrite (prog_bind_ok _ _ _ _ _ (request_fused_ok w Hf)). eexists. split; [reflexivity|].
    simpl. destruct o; simpl in *; (split; [done|]); (split; [done|]); (split; [done|]);
      (split; [by rewrite orb_true_r|]); (split; [done|]); by intros j ?%elem_of_nil.
  - rewrite orb_false_r. destruct sourced; [|exists w; split_and!; try done; by intros j ?%elem_of_nil].
    simpl in Ea. unfold asked in Ea. simpl in Ea. rewrite Ea. simpl.
    destruct (construct_linked (source_of o w) c ks L Ea Hn Hc) as (s' & E & L' & Hsrc & Hctl & Hr').
    rewrite (prog_bind_ok _ _ w false (set_source o s' w)) by (unfold on_source; by rewrite E).
    rewrite prog_ret_bind. exists (set_source o s' w). split; [done|].
    assert (registered s' c) as Hcc.
    { split; [rewrite Hctl; apply lookup_insert_eq|]. rewrite Hsrc. by rewrite decide_True. }
    destruct o; simpl in *; (split; [done|]); (split; [congruence|]); (split; [done|]); (split; [done|]);
      (split; [done|]); by intros j ->%list_elem_of_singleton.
Qed.

Lemma unlink_ok s c ks :
  linked_rep s (c :: ks) -> n_source <$> nodes s !! c = Some true ->
  exists s', unlink c false s = Some (tt, s') /\ linked_rep s' ks /\ controls s' = controls s /\
    requested s' = requested s /\ c ∉ ks.
Proof.
  intros L Hsrc. pose proof (lr_nodup _ _ L) as Hn. apply NoDup_cons in Hn as [Hn _].
  destruct (nodes s !! c) as [n|] eqn:Hnode; [|done]. injection Hsrc as Hsrc.
  destruct (unregister_ok s [] c ks L) as (s' & E & L' & _ & Ec & Er).
  unfold unlink. rewrite (prog_bind_ok _ _ _ _ _ (get_node_ok _ _ _ Hnode)), Hsrc. simpl. by exists s'.
Qed.

(** Destroying a callback that is in the list takes it out. *)
Lemma reset_ok o th cb w ks :
  linked_rep (source_of o w) (option_list cb ++ ks) ->
  (forall j, j ∈ option_list cb -> registered (source_of o w) j) ->
  exists w', reset o th cb w = Some (tt, w') /\ linked_rep (source_of o w') ks /\
    requested (source_of o w') = requested (source_of o w) /\
    source_of (other o) w' = source_of (other o) w /\ fused_source w' = fused_source w.
Proof.
  intros L Hctl. destruct cb as [c|]; [|by exists w]. simpl in *.
  destruct (Hctl c (list_elem_of_here _ _)) as [Hc Hsrc].
  destruct (unlink_ok (source_of o w) c ks L Hsrc) as (s1 & Hu & L1 & Ec & Er & Hni).
  unfold reset. unfold on_source at 1. unfold read_detached, get_control.
  rewrite (prog_bind_ok _ _ w false (set_source o (source_of o w) w))
    by (unfold after; rewrite Hc; done).
  assert (set_source o (source_of o w) w = w) as -> by by destruct o, w.
  rewrite (prog_bind_ok _ _ w tt (set_source o s1 w)) by (unfold on_source; by rewrite Hu).
  set (x := Control false false true false None None). set (s2 := set_controls (<[c := x]> (controls s1)) s1).
  assert (cancel c th s1 = Some (false, s2)) as Hcan.
  { assert (controls s1 !! c = Some (Control false false false true None None)) as Hc1 by by rewrite Ec.
    unfold cancel, get_control, put_control, after. by rewrite !Hc1. }
  rewrite (prog_bind_ok _ _ (set_source o s1 w) false (set_source o s2 w)).
  2: { unfold on_source. destruct o; simpl; by rewrite Hcan. }
  exists (set_source o (set_nodes (delete c (nodes s2)) s2) w).
  assert (linked_rep (set_nodes (delete c (nodes s2)) s2) ks) as L2.
  { apply (linked_rep_free s1 ks c (controls s2) L1 Hni). }
  destruct o; simpl in *; (split; [done|]); (split; [exact L2|]); (split; [done|]); done.
Qed.

(** ** The properties of a wrapped operation *)

(** The callbacks that [start_op] leaves are where they should be. *)
Record started_ok (w w' : sources) (op : stop_op) (ks1 ks2 : list callback_id) : Prop := StartedOk {
  st_scope : linked_rep (scope_source w') (option_list (scope_stop op) ++ ks1);
  st_down : linked_rep (downstream_source w') (option_list (downstream_stop op) ++ ks2);
  st_requested : requested (scope_source w') = requested (scope_source w) /\
    requested (downstream_source w') = requested (downstream_source w);
  st_scope_control : forall j, j ∈ option_list (scope_stop op) ->
    registered (scope_source w') j;
  st_down_control : forall j, j ∈ option_list (downstream_stop op) ->
    registered (downstream_source w') j;
}.

Lemma complete_op_ok th w w0 op ks1 ks2 :
  started_ok w0 w op ks1 ks2 ->
  exists w', release_stop_callbacks th op w = Some (tt, w') /\ linked_rep (scope_source w') ks1 /\
    linked_rep (downstream_source w') ks2 /\ fused_source w' = fused_source w.
Proof.
  intros [L1 L2 _ H1 H2]. unfold release_stop_callbacks.
  destruct (reset_ok FromScope th (scope_stop op) w ks1 L1 H1) as (w1 & E1 & L1' & _ & Eo & Ef).
  rewrite (prog_bind_ok _ _ _ _ _ E1). simpl in Eo.
  destruct (reset_ok FromDownstream th (downstream_stop op) w1 ks2) as (w2 & E2 & L2' & _ & Eo' & Ef').
  - simpl. by rewrite Eo.
  - simpl. by rewrite Eo.
  - exists w2. simpl in *. split; [done|]. split; [by rewrite Eo'|]. split; [done|]. congruence.
Qed.

(** [start] of a wrapped operation.  When nothing throws, the wrapped operation is started, with the
    fused source asked to stop exactly when it was before or the scope's source or the receiver's
    is, and with a callback in the list of each source that is not; completing it takes the
    callbacks out again.  When the second callback cannot be constructed, the receiver is completed
    as stopped with no callback left behind. *)
Theorem stop_op_correct th w ks1 ks2 c1 c2 scope down :
  linked_rep (scope_source w) ks1 -> linked_rep (downstream_source w) ks2 ->
  c1 ∉ ks1 -> nodes (scope_source w) !! c1 = None -> c2 ∉ ks2 -> nodes (downstream_source w) !! c2 = None ->
  callbacks (fused_source w) = Null ->
  (exists op w', start_op th c1 c2 scope down true true w = Some ((InnerStarted, op), w') /\
    started_ok w w' op ks1 ks2 /\
    op = StopOp (callback_of FromScope scope c1 w) (callback_of FromDownstream down c2 w) /\
    requested (fused_source w') =
      requested (fused_source w) || asked FromScope scope w || asked FromDownstream down w /\
    exists w'', complete_op th op w' = Some (StopOp None None, w'') /\
      linked_rep (scope_source w'') ks1 /\ linked_rep (downstream_source w'') ks2) /\
  (callback_of FromDownstream down c2 w = Some c2 ->
   exists w', start_op th c1 c2 scope down true false w = Some ((StoppedAtOnce, StopOp None None), w') /\
    linked_rep (scope_source w') ks1 /\ linked_rep (downstream_source w') ks2).
Proof.
  intros L1 L2 Hc1 Hn1 Hc2 Hn2 Hf. unfold start_op.
  destruct (install_ok FromScope scope c1 w ks1 L1 Hc1 Hn1 Hf) as (w1 & E1 & L1' & Er1 & Eo1 & Ef1 & Hf1 & Hctl1).
  simpl in Eo1, Er1, L1', Hctl1. split.
  - destruct (install_ok FromDownstream down c2 w1 ks2) as (w2 & E2 & L2' & Er2 & Eo2 & Ef2 & Hf2 & Hctl2).
    1-4: simpl; by rewrite ?Eo1.
    simpl in Eo2, Er2, L2', Hctl2.
    assert (callback_of FromDownstream down c2 w1 = callback_of FromDownstream down c2 w) as Ecb
      by (unfold callback_of; simpl; by rewrite Eo1).
    assert (asked FromDownstream down w1 = asked FromDownstream down w) as Eask
      by (unfold asked; simpl; by rewrite Eo1).
    rewrite Ecb in *. rewrite Eask in Ef2.
    rewrite (prog_bind_ok _ _ _ _ _ E1), (prog_bind_ok _ _ _ _ _ E2).
    set (op := StopOp (callback_of FromScope scope c1 w) (callback_of FromDownstream down c2 w)).
    assert (started_ok w w2 op ks1 ks2) as Hst.
    { split; simpl; [by rewrite Eo2|done|split; congruence|by rewrite Eo2|done]. }
    exists op, w2. split; [done|]. split; [done|]. split; [done|]. split; [congruence|].
    destruct (complete_op_ok th w2 w op ks1 ks2 Hst) as (w3 & E3 & L3 & L3' & _).
    exists w3. unfold complete_op. by rewrite (prog_bind_ok _ _ _ _ _ E3).
  - intros Hcb. rewrite (prog_bind_ok _ _ _ _ _ E1).
    assert (install FromDownstream down c2 false w1 = Some (None, w1)) as E2.
    { unfold install. rewrite (prog_bind_ok _ _ _ _ _ (asked_run FromDownstream down w1)).
      unfold callback_of, asked in *. simpl in *. rewrite Eo1. destruct down; [|done]. simpl in *.
      by destruct (requested (downstream_source w)). }
    rewrite (prog_bind_ok _ _ _ _ _ E2).
    destruct (complete_op_ok th w1 w (StopOp (callback_of FromScope scope c1 w) None) ks1 ks2) as (w3 & E3 & L3 & L3' & _).
    { split; simpl; [done|by rewrite Eo1|split; congruence|done|by intros j ?%elem_of_nil]. }
    exists w3. by rewrite (prog_bind_ok _ _ _ _ _ E3).
Qed.
