(* ===== verification/Strand.v ===== *)
(** * Strands

    Models [__state] of a strand and its records (include/forge/strand.hpp): the
    queue of records, the intrusive chain of records that are to be stopped, the
    flags [running_], [active_] and [closed_], and what each operation does under
    the mutex.  What it leaves to be done after unlocking is its result.  The
    chain is threaded through [deferred_stopped_next_] with a head and a tail
    pointer, the way the channel's queues are: its operations are those of
    RecordQueue.v. *)
From S2P Require Import Prelude Linked RecordQueue.

#[local] Open Scope prog_scope.

(** [__record_base] and the [done_] flag of [__record]. *)
Record strand_record := StrandRecord { stop_only : bool; done : bool }.

(** [__state]. *)
Record strand := Strand {
  queue : list record_id;
  deferred : record_queue;
  deferred_next : links;
  records : gmap record_id strand_record;
  running : bool;
  active : bool;
  closed : bool;
}.
Implicit Types (s : strand) (r : record_id).

Definition new_strand : strand := Strand [] empty_queue ∅ ∅ false false false.

Definition set_queue q s := Strand q (deferred s) (deferred_next s) (records s) (running s) (active s) (closed s).
Definition set_deferred q nx s := Strand (queue s) q nx (records s) (running s) (active s) (closed s).
Definition set_records m s := Strand (queue s) (deferred s) (deferred_next s) m (running s) (active s) (closed s).
Definition set_running b s := Strand (queue s) (deferred s) (deferred_next s) (records s) b (active s) (closed s).
Definition set_active b s := Strand (queue s) (deferred s) (deferred_next s) (records s) (running s) b (closed s).
Definition set_closed b s := Strand (queue s) (deferred s) (deferred_next s) (records s) (running s) (active s) b.

Definition get_record r : prog strand strand_record := fun s =>
  match records s !! r with Some x => Some (x, s) | None => None end.
Definition put_record r x : prog strand unit := modify (fun s => set_records (<[r := x]> (records s)) s).

(** ** Under the mutex *)

Definition append_deferred_stopped r : prog strand unit := fun s =>
  ('(q, nx) ← push_back (deferred s) (deferred_next s) r; Some (tt, set_deferred q nx s))%stdpp.

Fixpoint defer_list (l : list record_id) : prog strand unit :=
  match l with
  | [] => give tt
  | r :: l' => modify (set_queue l') ;; append_deferred_stopped r ;; defer_list l'
  end.

Definition defer_queue : prog strand unit := l ← read queue; defer_list l.

Definition take_deferred_stopped : prog strand (option record_id) := fun s =>
  let '(q, p) := take_all (deferred s) in Some (p, set_deferred q (deferred_next s) s).

Definition has_deferred s : bool := negb (is_empty (deferred s)).

(** What is left to do after unlocking: nothing, notify the waiting threads,
    complete a chain of records as stopped, launch a runner, run a record. *)
Inductive duty := Nothing | Notify | Drain (p : option record_id) | Launch | Run (r : record_id).

(** Claiming the turn to stop what was deferred. *)
Definition claim_drain : prog strand duty :=
  modify (set_active true) ;; modify (set_running true) ;;
  p ← take_deferred_stopped; give (Drain p).

(** [enqueue]; [alloc]: the queue's node is allocated. *)
Definition enqueue r (alloc : bool) : prog strand duty :=
  s ← read id;
  if closed s then
    defer_queue ;; append_deferred_stopped r ;;
    if negb (active s) then claim_drain else give Nothing
  else if alloc then
    modify (fun s => set_queue (queue s ++ [r]) s) ;;
    if negb (running s) then modify (set_running true) ;; give Launch else give Nothing
  else
    modify (set_closed true) ;;
    defer_queue ;; append_deferred_stopped r ;;
    if negb (active s) then claim_drain else give Nothing.

Definition enqueue_stopped r (alloc : bool) : prog strand duty :=
  x ← get_record r; put_record r (StrandRecord true (done x)) ;; enqueue r alloc.

Definition shutdown : prog strand duty :=
  modify (set_closed true) ;;
  s ← read id;
  if negb (active s) then
    if bool_decide (queue s = []) && negb (has_deferred s) then modify (set_running false) ;; give Notify
    else defer_queue ;;
      p ← take_deferred_stopped;
      modify (set_active true) ;; modify (set_running true) ;; give (Drain p)
  else give Nothing.

(** The first critical section of [run_one]. *)
Definition run_begin : prog strand duty :=
  s ← read id;
  if active s then give Nothing else
  match queue s with
  | [] => if closed s && has_deferred s then claim_drain else modify (set_running false) ;; give Notify
  | r :: rest =>
      modify (set_active true) ;;
      if closed s then defer_queue ;; p ← take_deferred_stopped; give (Drain p)
      else modify (set_queue rest) ;; give (Run r)
  end.

(** Its second one. *)
Definition run_end : prog strand duty :=
  s ← read id;
  if closed s && (negb (bool_decide (queue s = [])) || has_deferred s) then
    defer_queue ;; p ← take_deferred_stopped; give (Drain p)
  else
    modify (set_active false) ;;
    if bool_decide (queue s = []) then modify (set_running false) ;; give Notify else give Launch.

(** The loops of [complete_stopped_batch]: taking one record off the chain, and
    the critical section that ends a round. *)
Definition batch_next r : prog strand (option record_id) := fun s =>
  (n ← deferred_next s !! r; nx ← set_next (deferred_next s) r None;
   Some (n, set_deferred (deferred s) nx s))%stdpp.

Definition batch_check : prog strand duty :=
  defer_queue ;; p ← take_deferred_stopped;
  match p with
  | Some _ => give (Drain p)
  | None => modify (set_active false) ;; modify (set_running false) ;; give Notify
  end.

(** What [wait] waits for. *)
Definition idle s : bool := bool_decide (queue s = []) && negb (running s).

Definition is_closed : prog strand bool := read closed.

(** [stop_all]. *)
Definition stop_all : prog strand duty := shutdown.

(** ** Threads

    A thread keeps a stack of the strands whose turn it is in the middle of, and
    a stack of the strands it is launching a runner for, each with a flag that
    asks for another one. *)

Record launch_guard := LaunchGuard { guard_state : Z; relaunch : bool }.

(** [wait] by a thread with such a stack returns at once inside a turn of the
    strand itself, and otherwise when the condition holds. *)
Definition wait_returns (self : Z) (current : list Z) s : bool :=
  existsb (Z.eqb self) current || idle s.

(** Asking the innermost launch of the same strand for another runner. *)
Fixpoint mark_relaunch (self : Z) (guards : list launch_guard) : option (list launch_guard) :=
  match guards with
  | [] => None
  | g :: previous =>
      if (guard_state g =? self)%Z then Some (LaunchGuard self true :: previous)
      else option_map (cons g) (mark_relaunch self previous)
  end.

(** [launch_runner]: the stack that is left, and whether the loop is entered. *)
Definition launch_runner (self : Z) (guards : list launch_guard) : list launch_guard * bool :=
  match mark_relaunch self guards with
  | Some guards' => (guards', false)
  | None => (LaunchGuard self false :: guards, true)
  end.

(** One round of its loop: [None] when a runner is started, and what [stop_all]
    leaves to be done when that throws. *)
Definition launch_runner_once (throws : bool) : prog strand (option duty) :=
  if throws then d ← stop_all; give (Some d) else give None.

(** The condition of the loop: whether there is another round, the flag being
    taken back, or the guard goes. *)
Definition launch_again (guards : list launch_guard) : option (list launch_guard * bool) :=
  match guards with
  | [] => None
  | g :: previous =>
      Some (if relaunch g then (LaunchGuard (guard_state g) false :: previous, true) else (previous, false))
  end.

(** How the scheduler completes a runner, and what the runner does then. *)
Inductive runner_signal := RunnerValue | RunnerStopped | RunnerError.

Definition runner_recv (sig : runner_signal) : prog strand duty :=
  match sig with RunnerValue => run_begin | RunnerStopped | RunnerError => stop_all end.

(** ** Records *)

Inductive signal := SetValue r | SetStopped r.

(** [complete_value] and [complete_stopped]: the first one wins. *)
Definition finish r (o : signal) : prog strand (option signal) :=
  x ← get_record r;
  put_record r (StrandRecord (stop_only x) true) ;;
  give (if done x then None else Some o).

(** The turn of a record in [run_one]. *)
Definition run_record r : prog strand (option signal) :=
  x ← get_record r; if stop_only x then finish r (SetStopped r) else finish r (SetValue r).

Definition complete_stopped r : prog strand (option signal) := finish r (SetStopped r).

(** [connect]. *)
Definition connect r : prog strand unit := modify (fun s =>
  Strand (queue s) (deferred s) (<[r := None]> (deferred_next s)) (<[r := StrandRecord false false]> (records s))
    (running s) (active s) (closed s)).

(** [start] of an operation whose stop token has been asked to stop, or not. *)
Definition start r (stop_requested alloc : bool) : prog strand duty :=
  if stop_requested then enqueue_stopped r alloc else enqueue r alloc.

(** ** Strands: the system

    All that can happen to a strand, one critical section at a time and in any
    order: operations are connected and started, by any thread, with or without
    a stop request, with or without memory; the strand is shut down; the runners
    it asked for are started or not, and run or are stopped by their scheduler;
    and what an operation left to be done after unlocking is done.

    A thread in [launch_runner] is before a round of its loop, or inside one with
    the relaunch flag of its guard unset or set: only their numbers matter.
    [turn] is what holds the turn of the strand ([active_]) between two critical
    sections: a record to run, a record that has run, or a chain of records that
    are being stopped. *)

Inductive turn := TurnRun (r : record_id) | TurnEnd | TurnDrain (p : option record_id).

Record system := System {
  st : strand;
  turns : list turn;
  n_launch : nat;      (** calls of [launch_runner] to be made *)
  n_before : nat;      (** threads at the head of its loop *)
  n_inside : nat;      (** threads inside a round, flag unset *)
  n_relaunch : nat;    (** threads inside a round, flag set *)
  n_runner : nat;      (** runners started *)
  wakeups : nat;       (** calls of [notify_all] *)
  started : list record_id;
  log : list signal;
}.

Definition init : system := System new_strand [] 0 0 0 0 0 0 [] [].

Definition set_st s sy := System s (turns sy) (n_launch sy) (n_before sy) (n_inside sy) (n_relaunch sy)
  (n_runner sy) (wakeups sy) (started sy) (log sy).
Definition set_turns l sy := System (st sy) l (n_launch sy) (n_before sy) (n_inside sy) (n_relaunch sy)
  (n_runner sy) (wakeups sy) (started sy) (log sy).
Definition set_launch a b c d e sy := System (st sy) (turns sy) a b c d e (wakeups sy) (started sy) (log sy).
Definition add_started r sy := System (st sy) (turns sy) (n_launch sy) (n_before sy) (n_inside sy)
  (n_relaunch sy) (n_runner sy) (wakeups sy) (started sy ++ [r]) (log sy).
Definition add_log (o : option signal) sy := System (st sy) (turns sy) (n_launch sy) (n_before sy) (n_inside sy)
  (n_relaunch sy) (n_runner sy) (wakeups sy) (started sy) (log sy ++ option_list o).

(** What an operation left to be done. *)
Definition dispatch (d : duty) sy : system :=
  match d with
  | Nothing => sy
  | Notify => System (st sy) (turns sy) (n_launch sy) (n_before sy) (n_inside sy) (n_relaunch sy)
      (n_runner sy) (S (wakeups sy)) (started sy) (log sy)
  | Drain p => set_turns (turns sy ++ [TurnDrain p]) sy
  | Launch => set_launch (S (n_launch sy)) (n_before sy) (n_inside sy) (n_relaunch sy) (n_runner sy) sy
  | Run r => set_turns (turns sy ++ [TurnRun r]) sy
  end.

(** What the threads do with what is left to be done. *)
Inductive internal (sy : system) : system -> Prop :=
| internal_launch a :
    n_launch sy = S a ->
    internal sy (set_launch a (S (n_before sy)) (n_inside sy) (n_relaunch sy) (n_runner sy) sy)
| internal_launch_nested a c :
    n_launch sy = S a -> n_inside sy = S c ->
    internal sy (set_launch a (n_before sy) c (S (n_relaunch sy)) (n_runner sy) sy)
| internal_launch_merged a c :
    n_launch sy = S a -> n_relaunch sy = S c ->
    internal sy (set_launch a (n_before sy) (n_inside sy) (n_relaunch sy) (n_runner sy) sy)
| internal_once_started b s' :
    n_before sy = S b -> launch_runner_once false (st sy) = Some (None, s') ->
    internal sy (set_launch (n_launch sy) b (S (n_inside sy)) (n_relaunch sy) (S (n_runner sy)) (set_st s' sy))
| internal_once_failed b d s' :
    n_before sy = S b -> launch_runner_once true (st sy) = Some (Some d, s') ->
    internal sy (dispatch d (set_launch (n_launch sy) b (S (n_inside sy)) (n_relaunch sy) (n_runner sy) (set_st s' sy)))
| internal_return c :
    n_inside sy = S c ->
    internal sy (set_launch (n_launch sy) (n_before sy) c (n_relaunch sy) (n_runner sy) sy)
| internal_again c :
    n_relaunch sy = S c ->
    internal sy (set_launch (n_launch sy) (S (n_before sy)) (n_inside sy) c (n_runner sy) sy)
| internal_runner e sig d s' :
    n_runner sy = S e -> runner_recv sig (st sy) = Some (d, s') ->
    internal sy (dispatch d (set_launch (n_launch sy) (n_before sy) (n_inside sy) (n_relaunch sy) e (set_st s' sy)))
| internal_run l1 r l2 o s' :
    turns sy = l1 ++ TurnRun r :: l2 -> run_record r (st sy) = Some (o, s') ->
    internal sy (add_log o (set_turns (l1 ++ TurnEnd :: l2) (set_st s' sy)))
| internal_run_end l1 l2 d s' :
    turns sy = l1 ++ TurnEnd :: l2 -> run_end (st sy) = Some (d, s') ->
    internal sy (dispatch d (set_turns (l1 ++ l2) (set_st s' sy)))
| internal_drain l1 r l2 n s1 o s' :
    turns sy = l1 ++ TurnDrain (Some r) :: l2 ->
    batch_next r (st sy) = Some (n, s1) -> complete_stopped r s1 = Some (o, s') ->
    internal sy (add_log o (set_turns (l1 ++ TurnDrain n :: l2) (set_st s' sy)))
| internal_drain_check l1 l2 d s' :
    turns sy = l1 ++ TurnDrain None :: l2 -> batch_check (st sy) = Some (d, s') ->
    internal sy (dispatch d (set_turns (l1 ++ l2) (set_st s' sy))).

(** What the users of the strand do. *)
Inductive step (sy : system) : system -> Prop :=
| step_connect r s' :
    records (st sy) !! r = None -> connect r (st sy) = Some (tt, s') -> step sy (set_st s' sy)
| step_start r stop alloc d s' :
    is_Some (records (st sy) !! r) -> r ∉ started sy -> start r stop alloc (st sy) = Some (d, s') ->
    step sy (dispatch d (add_started r (set_st s' sy)))
| step_shutdown d s' :
    shutdown (st sy) = Some (d, s') -> step sy (dispatch d (set_st s' sy))
| step_internal sy' : internal sy sy' -> step sy sy'.

Inductive reachable : system -> Prop :=
| reachable_init : reachable init
| reachable_step sy sy' : reachable sy -> step sy sy' -> reachable sy'.
