(* ===== verification/StrandInv.v ===== *)
(** * Strands: the invariant

    Where the records of a strand are, and what each critical section does with
    them.  [pend] is the list of the records that are started and not completed:
    those of the turn, the deferred ones and the queue, in this order.  [ok]
    holds between two critical sections; [t] is the turn, [k] counts the runners
    on their way. *)
From S2P Require Import Prelude Linked RecordQueue Strand.

#[local] Open Scope prog_scope.
Implicit Types (s : strand) (r : record_id) (cur dks pend : list record_id) (t : option turn) (k : nat).

(** ** Where the records are *)

Record links_ok s cur dks : Prop := LinksOk {
  lo_deferred : queue_rep (deferred_next s) (deferred s) dks;
  lo_nodup : NoDup (cur ++ dks ++ queue s);
  lo_linked : forall r, is_Some (records s !! r) -> is_Some (deferred_next s !! r);
  lo_records : forall r, r ∈ cur ++ dks ++ queue s -> exists x, records s !! r = Some x /\ done x = false;
}.

Definition same_flags s s' : Prop := running s' = running s /\ active s' = active s /\ closed s' = closed s.

(** The links of [cur] are as they were. *)
Definition kept s s' cur : Prop := forall j, j ∈ cur -> deferred_next s' !! j = deferred_next s !! j.

Lemma lo_in s cur dks r : links_ok s cur dks -> r ∈ cur ++ dks ++ queue s -> is_Some (deferred_next s !! r).
Proof. intros L Hr. destruct (lo_records _ _ _ L r Hr) as (x & Hx & _). apply (lo_linked _ _ _ L). eauto. Qed.

Lemma has_deferred_iff s cur dks : links_ok s cur dks -> has_deferred s = negb (bool_decide (dks = [])).
Proof. intros L. unfold has_deferred. by rewrite (is_empty_iff _ _ _ (lo_deferred _ _ _ L)). Qed.

Lemma append_deferred_ok s cur dks r q :
  links_ok s cur dks -> r ∉ cur -> r ∉ dks -> NoDup (cur ++ (dks ++ [r]) ++ q) -> (forall j, j ∈ q -> j ∈ queue s) ->
  (exists x, records s !! r = Some x /\ done x = false) ->
  exists s', append_deferred_stopped r (set_queue q s) = Some (tt, s') /\ links_ok s' cur (dks ++ [r]) /\
    queue s' = q /\ records s' = records s /\ same_flags s s' /\ kept s s' cur.
Proof.
  intros L Hc Hd Hn Hq (x & Hx & Hdone). pose proof L as [R _ Hl Hr].
  destruct (push_back_ok _ _ _ r R Hd) as (q' & nx' & Hp & R' & Hs & Hk); [apply Hl; eauto|].
  unfold append_deferred_stopped. simpl. rewrite Hp. simpl.
  exists (set_deferred q' nx' (set_queue q s)). split; [done|].
  split; [|split; [done|split; [done|split; [done|]]]].
  - split; simpl; [done|done| |].
    + intros j Hj. by apply Hs, Hl.
    + intros j. rewrite !elem_of_app, list_elem_of_singleton. intros [Hj|[[Hj| ->]|Hj]]; [| |by eauto|];
        apply Hr; rewrite !elem_of_app; auto.
  - intros j Hj. apply Hk. rewrite elem_of_app, list_elem_of_singleton. intros [Hj'| ->]; [|done].
    apply NoDup_app in Hn as (_ & Hn & _). apply (Hn j Hj). set_solver.
Qed.

Lemma defer_list_ok l : forall s cur dks,
  links_ok s cur dks -> queue s = l ->
  exists s', defer_list l s = Some (tt, s') /\ links_ok s' cur (dks ++ l) /\ queue s' = [] /\
    records s' = records s /\ same_flags s s' /\ kept s s' cur.
Proof.
  induction l as [|r l IH]; intros s cur dks L Hq; simpl.
  { exists s. rewrite app_nil_r. by repeat split; try apply L. }
  rewrite prog_modify_bind. pose proof (lo_nodup _ _ _ L) as Hn. rewrite Hq in Hn.
  assert (NoDup (cur ++ (dks ++ [r]) ++ l)) as Hn' by by rewrite <- app_assoc.
  assert (r ∉ cur /\ r ∉ dks) as [Hc Hd].
  { apply NoDup_app in Hn as (_ & Hn1 & Hn2). apply NoDup_app in Hn2 as (_ & Hn2 & _).
    split; intros Hin; [apply (Hn1 r Hin)|apply (Hn2 r Hin)]; set_solver. }
  destruct (append_deferred_ok s cur dks r l L Hc Hd Hn') as (s1 & Ha & L1 & Hq1 & Hr1 & [Hf1 Hf1'] & Hk1).
  { intros j Hj. rewrite Hq. by right. }
  { apply (lo_records _ _ _ L). rewrite Hq. set_solver. }
  rewrite (prog_bind_ok _ _ _ _ _ Ha).
  destruct (IH s1 cur (dks ++ [r]) L1 Hq1) as (s' & Hrun & L' & Hq' & Hr' & [Hf' Hf''] & Hk').
  exists s'. rewrite <- app_assoc in L'. split; [done|]. split; [done|]. split; [done|]. split; [congruence|].
  split; [|intros j Hj; by rewrite Hk', Hk1]. unfold same_flags in *. destruct_and!. split_and!; congruence.
Qed.

Lemma defer_queue_ok s cur dks :
  links_ok s cur dks ->
  exists s', defer_queue s = Some (tt, s') /\ links_ok s' cur (dks ++ queue s) /\ queue s' = [] /\
    records s' = records s /\ same_flags s s' /\ kept s s' cur.
Proof. intros L. unfold defer_queue. rewrite prog_read_bind. by apply defer_list_ok. Qed.

(** The deferred records become those of the turn. *)
Definition chain s (p : option record_id) cur : Prop :=
  p = head cur /\ sseg Some (fun j => deferred_next s !! j) cur None.

Lemma take_deferred_ok s dks :
  links_ok s [] dks ->
  exists s', take_deferred_stopped s = Some (head dks, s') /\ links_ok s' dks [] /\ chain s' (head dks) dks /\
    queue s' = queue s /\ records s' = records s /\ same_flags s s'.
Proof.
  intros L. pose proof L as [R Hn Hl Hr]. unfold take_deferred_stopped. rewrite (take_all_ok _ _ _ R).
  eexists. split; [done|]. split; [|split; [split; [done|apply R]|done]].
  split; simpl; [apply empty_rep|done|done|done].
Qed.

(** ** Between two critical sections *)

Definition holds_turn s t cur : Prop :=
  match t with
  | None | Some TurnEnd => cur = []
  | Some (TurnRun r) => cur = [r]
  | Some (TurnDrain p) => chain s p cur /\ closed s = true
  end.

(** The flags agree with the turn, the queue and the runners. *)
Record flags_ok s dks t k : Prop := FlagsOk {
  fl_active : active s = bool_decide (is_Some t);
  fl_running : active s = true -> running s = true;
  fl_closed : closed s = true -> active s = false -> running s = false /\ queue s = [] /\ dks = [];
  fl_open : closed s = false -> dks = [] /\
    (active s = true -> k = 0) /\
    (active s = false -> if running s then k = 1 /\ queue s <> [] else k = 0 /\ queue s = []);
  fl_tokens : k <= 1;
}.

Definition ok s t k pend : Prop := exists cur dks,
  links_ok s cur dks /\ holds_turn s t cur /\ flags_ok s dks t k /\ pend = cur ++ dks ++ queue s.

Definition turn_after t (d : duty) : option turn :=
  match d with Drain p => Some (TurnDrain p) | Run r => Some (TurnRun r) | _ => t end.
Definition launches (d : duty) : nat := match d with Launch => 1 | _ => 0 end.
Definition takes_turn (d : duty) : bool := match d with Drain _ | Run _ => true | _ => false end.

(** What a critical section comes to: the turn is only taken when it is free. *)
Definition leads s t k pend (res : option (duty * strand)) : Prop := exists d s',
  res = Some (d, s') /\ ok s' (turn_after t d) (k + launches d) pend /\ (takes_turn d = true -> t = None) /\
  (idle s = false -> idle s' = true -> d = Notify).

Lemma ok_tokens s t k k' pend : ok s t k pend -> closed s = true -> k' <= 1 -> ok s t k' pend.
Proof.
  intros (cur & dks & L & Ht & F & E) Hc Hk. exists cur, dks. split; [done|]. split; [done|]. split; [|done].
  destruct F. split; try done. intros. congruence.
Qed.

(** Only the flags differ. *)
Lemma links_flags s s' cur dks :
  links_ok s cur dks -> queue s' = queue s -> deferred s' = deferred s -> deferred_next s' = deferred_next s ->
  records s' = records s -> links_ok s' cur dks.
Proof. intros [? ? ? ?] E1 E2 E3 E4. split; rewrite ?E1, ?E2, ?E3, ?E4; done. Qed.

Lemma idle_running s : running s = true -> idle s = false.
Proof. intros Hr. unfold idle. rewrite Hr. apply andb_false_r. Qed.

(** All there is becomes the turn's, to be stopped. *)
Lemma drained_ok s p all k :
  links_ok s all [] -> chain s p all -> queue s = [] -> closed s = true -> active s = true -> running s = true ->
  k <= 1 -> ok s (Some (TurnDrain p)) k all.
Proof.
  intros L Hch Hq Hc Ha Hr Hk. exists all, []. rewrite Hq, app_nil_r.
  split; [done|]. split; [by split|]. split; [|done]. split; try done; congruence.
Qed.

Lemma defer_take_ok s dks :
  links_ok s [] dks ->
  exists s', (forall B (f : option record_id -> prog strand B),
      (defer_queue ;; p ← take_deferred_stopped; f p) s = f (head (dks ++ queue s)) s') /\
    links_ok s' (dks ++ queue s) [] /\ chain s' (head (dks ++ queue s)) (dks ++ queue s) /\ queue s' = [] /\
    records s' = records s /\ same_flags s s'.
Proof.
  intros L. destruct (defer_queue_ok s [] dks L) as (s1 & H1 & L1 & Hq1 & Hr1 & (Hf1 & Hf2 & Hf3) & _).
  destruct (take_deferred_ok s1 (dks ++ queue s) L1) as (s2 & H2 & L2 & Hch & Hq2 & Hr2 & (Hf4 & Hf5 & Hf6)).
  exists s2. split; [intros B f; by rewrite (prog_bind_ok _ _ _ _ _ H1), (prog_bind_ok _ _ _ _ _ H2)|].
  split; [done|]. split; [done|]. split; [congruence|]. split; [congruence|]. split_and!; congruence.
Qed.

(** No turn is under way, or the turn's records are [cur]. *)
Lemma inactive s t cur dks k : holds_turn s t cur -> flags_ok s dks t k -> active s = false -> t = None /\ cur = [].
Proof.
  intros Ht F Ha. rewrite (fl_active _ _ _ _ F) in Ha. apply bool_decide_eq_false in Ha.
  destruct t as [t|]; [destruct Ha; eauto|done].
Qed.

Lemma holds_turn_keep s s' t cur :
  holds_turn s t cur -> kept s s' cur -> (closed s = true -> closed s' = true) -> holds_turn s' t cur.
Proof.
  destruct t as [[r| |p]|]; try done. intros [[Hp Hs] Hc] Hk Hcl. split; [split; [done|]|by apply Hcl].
  eapply sseg_ext; [|exact Hs]. intros j Hj. by apply Hk.
Qed.

Lemma active_drain t s : active s = bool_decide (is_Some t) -> active s = true -> exists x, t = Some x.
Proof. intros -> H%bool_decide_eq_true. destruct t; [eauto|by destruct H]. Qed.

(** A record is deferred behind all the others. *)
Lemma defer_all_ok s cur dks r :
  links_ok s cur dks -> r ∉ cur ++ dks ++ queue s -> (exists x, records s !! r = Some x /\ done x = false) ->
  exists s', (forall B (m : prog strand B), (defer_queue ;; append_deferred_stopped r ;; m) s = m s') /\
    links_ok s' cur (dks ++ queue s ++ [r]) /\ queue s' = [] /\ records s' = records s /\ same_flags s s' /\
    kept s s' cur.
Proof.
  intros L Hr Hx. destruct (defer_queue_ok s cur dks L) as (s1 & H1 & L1 & Hq1 & Hr1 & Hf1 & Hk1).
  rewrite !not_elem_of_app in Hr. destruct Hr as (Hc & Hd & Hq).
  assert (set_queue [] s1 = s1) as E by (rewrite <- Hq1; by destruct s1).
  destruct (append_deferred_ok s1 cur (dks ++ queue s) r [] L1 Hc) as (s2 & H2 & L2 & Hq2 & Hr2 & Hf2 & Hk2).
  - rewrite not_elem_of_app. done.
  - rewrite app_nil_r, app_assoc. apply NoDup_app. split; [by apply (lo_nodup _ _ _ L)|].
    split; [|apply NoDup_singleton]. intros j Hj ->%list_elem_of_singleton. rewrite !elem_of_app in Hj. tauto.
  - by intros j ?%elem_of_nil.
  - by rewrite Hr1.
  - rewrite E in H2. exists s2.
    split; [intros B m; by rewrite (prog_bind_ok _ _ _ _ _ H1), (prog_bind_ok _ _ _ _ _ H2)|].
    rewrite <- app_assoc in L2. split; [done|]. split; [done|]. split; [congruence|].
    split; [|intros j Hj; by rewrite Hk2, Hk1]. unfold same_flags in *. destruct_and!. split_and!; congruence.
Qed.

(** ... and the turn is claimed if it is free. *)
Lemma claim_ok s t k cur dks :
  links_ok s cur dks -> holds_turn s t cur -> active s = bool_decide (is_Some t) ->
  (active s = true -> running s = true) -> closed s = true -> k <= 1 -> queue s = [] ->
  exists d s', (if negb (active s) then claim_drain else give Nothing) s = Some (d, s') /\
    ok s' (turn_after t d) (k + launches d) (cur ++ dks) /\ (takes_turn d = true -> t = None) /\ idle s' = false.
Proof.
  intros L Ht Ha Hr Hc Hk Hq. destruct (active s) eqn:Ea; simpl.
  - exists Nothing, s. split; [done|]. simpl. rewrite Nat.add_0_r. split; [|split; [done|]].
    2: { by apply idle_running, Hr. }
    exists cur, dks. rewrite Hq, app_nil_r. split; [done|]. split; [done|]. split; [|done].
    split; try done; try congruence; auto.
  - symmetry in Ha. apply bool_decide_eq_false in Ha.
    destruct t as [t|]; [destruct Ha; eauto|]. simpl in Ht. subst cur.
    unfold claim_drain. rewrite !prog_modify_bind.
    set (s1 := set_running true (set_active true s)).
    destruct (take_deferred_ok s1 dks) as (s2 & H2 & L2 & Hch & Hq2 & Hr2 & (Hf1 & Hf2 & Hf3)).
    { by apply links_flags with s. }
    unfold s1 in *. simpl in Hq2, Hf1, Hf2, Hf3.
    rewrite (prog_bind_ok _ _ _ _ _ H2). exists (Drain (head dks)), s2. split; [done|].
    split; [|split; [done|by apply idle_running]].
    simpl. rewrite Nat.add_0_r. apply drained_ok; try done; congruence.
Qed.

Lemma enqueue_ok s t k pend r alloc :
  ok s t k pend -> r ∉ pend -> (exists x, records s !! r = Some x /\ done x = false) ->
  leads s t k (pend ++ [r]) (enqueue r alloc s).
Proof.
  intros (cur & dks & L & Ht & F & ->) Hr Hx. unfold enqueue. rewrite prog_read_bind. cbv beta. unfold id.
  assert (forall s0, closed s0 = true -> links_ok s0 cur dks -> queue s0 = queue s -> records s0 = records s ->
    running s0 = running s -> active s0 = active s -> deferred_next s0 = deferred_next s ->
    leads s t k ((cur ++ dks ++ queue s) ++ [r])
      ((defer_queue ;; append_deferred_stopped r ;; if negb (active s) then claim_drain else give Nothing) s0))
    as Hclosed.
  { intros s0 Hc0 L0 Hq0 Hr0 Hru0 Ha0 Hnx0.
    destruct (defer_all_ok s0 cur dks r L0) as (s1 & H1 & L1 & Hq1 & Hr1 & (Hf1 & Hf2 & Hf3) & Hk1);
      [by rewrite Hq0|by rewrite Hr0|].
    rewrite H1, <- Ha0, <- Hf2. rewrite Hq0 in L1.
    replace ((cur ++ dks ++ queue s) ++ [r]) with (cur ++ (dks ++ queue s ++ [r])) by by rewrite <- !app_assoc.
    destruct (claim_ok s1 t k cur (dks ++ queue s ++ [r])) as (d & s' & E & Hok & Ht' & Hi).
    - done.
    - apply holds_turn_keep with s; [done| |congruence]. intros j Hj. by rewrite Hk1, Hnx0.
    - rewrite Hf2, Ha0. apply F.
    - rewrite Hf1, Hf2, Hru0, Ha0. apply F.
    - congruence.
    - apply F.
    - done.
    - exists d, s'. split; [done|]. split; [done|]. split; [done|]. congruence. }
  pose proof F as [Ha Hru Hcl Hop Hk]. destruct (closed s) eqn:Ec; [by apply Hclosed|]. destruct alloc; cycle 1.
  { rewrite prog_modify_bind. apply (Hclosed (set_closed true s)); try done. by apply links_flags with s. }
  rewrite prog_modify_bind. destruct (Hop eq_refl) as (-> & Hact & Hin). simpl in *.
  set (s1 := set_queue (queue s ++ [r]) s).
  assert (forall s', queue s' = queue s1 -> deferred s' = deferred s -> deferred_next s' = deferred_next s ->
    records s' = records s -> links_ok s' cur []) as L1.
  { intros s' E1 E2 E3 E4. destruct L as [L1 L2 L3 L4]. split; rewrite ?E1, ?E2, ?E3, ?E4; try done.
    - simpl. rewrite app_assoc. apply NoDup_app. split; [done|]. split; [|apply NoDup_singleton].
      by intros j Hj ->%list_elem_of_singleton.
    - intros j. simpl. rewrite app_assoc, elem_of_app, list_elem_of_singleton. intros [Hj| ->]; [by apply L4|done]. }
  assert (queue s ++ [r] <> []) as Hne by (by destruct (queue s)).
  destruct (running s) eqn:Er; simpl.
  - exists Nothing, s1. split; [done|]. simpl. rewrite Nat.add_0_r. split; [|split; [done|]].
    + exists cur, []. split; [by apply L1|]. split; [by apply holds_turn_keep with s|].
      split; [|simpl; by rewrite app_assoc]. split; simpl; try done; try congruence.
      intros _. split; [done|]. split; [done|]. intros Hai. rewrite Er. destruct (Hin Hai). done.
    + by rewrite (idle_running s1).
  - rewrite prog_modify_bind. exists Launch, (set_running true s1). split; [done|].
    assert (active s = false) as Hai by (destruct (active s); [by specialize (Hru eq_refl)|done]).
    destruct (Hin Hai) as [-> _]. simpl. split; [|split; [done|]].
    + exists cur, []. split; [by apply L1|]. split; [by apply holds_turn_keep with s|].
      split; [|simpl; by rewrite app_assoc]. split; simpl; try done; try congruence; try lia.
      intros _. split; [done|]. split; [congruence|done].
    + by rewrite (idle_running (set_running true s1)).
Qed.

Lemma shutdown_ok s t k pend :
  ok s t k pend -> leads s t k pend (shutdown s) /\ forall d s', shutdown s = Some (d, s') -> closed s' = true.
Proof.
  intros (cur & dks & L & Ht & F & ->). pose proof F as [Ha Hru Hcl Hop Hk].
  assert (links_ok (set_closed true s) cur dks) as Lc by by apply links_flags with s.
  unfold shutdown. rewrite prog_modify_bind, prog_read_bind. unfold id. simpl.
  destruct (active s) eqn:Ea; simpl.
  - split; [|by intros d s' [= <- <-]]. exists Nothing, (set_closed true s). split; [done|].
    simpl. rewrite Nat.add_0_r. split; [|split; [done|]].
    + exists cur, dks. split; [done|]. split; [by apply holds_turn_keep with s|]. split; [|done].
      split; simpl; try done; try congruence; auto.
    + unfold idle. simpl. congruence.
  - destruct (inactive _ _ _ _ _ Ht F Ea) as [-> ->]. simpl in *.
    rewrite (has_deferred_iff _ _ _ Lc), negb_involutive.
    destruct (bool_decide (queue s = []) && bool_decide (dks = [])) eqn:E.
    + apply andb_true_iff in E as [Eq%bool_decide_eq_true Ed%bool_decide_eq_true]. subst dks.
      rewrite prog_modify_bind. split; [|by intros d s' [= <- <-]]. eexists Notify, _. split; [reflexivity|].
      simpl. rewrite Nat.add_0_r. split; [|split; [done|done]].
      exists [], []. split; [by apply links_flags with s|]. split; [done|]. split; [|done].
      split; simpl; try done. by rewrite Ea.
    + destruct (defer_take_ok _ _ Lc) as (s1 & H1 & L1 & Hch & Hq1 & Hr1 & (Hf1 & Hf2 & Hf3)).
      simpl in Hf1, Hf2, Hf3. rewrite H1, !prog_modify_bind. split; [|intros d s' [= <- <-]; simpl; congruence].
      do 2 eexists. split; [reflexivity|]. simpl. rewrite Nat.add_0_r.
      split; [|split; [done|by rewrite (idle_running (set_running _ _))]].
      apply drained_ok; try done; by apply links_flags with s1.
Qed.

Lemma run_begin_ok s t pend : ok s t 1 pend -> leads s t 0 pend (run_begin s).
Proof.
  intros (cur & dks & L & Ht & F & ->). pose proof F as [Ha Hru Hcl Hop Hk].
  unfold run_begin. rewrite prog_read_bind. unfold id. destruct (active s) eqn:Ea.
  - exists Nothing, s. split; [done|]. simpl. split; [|split; [done|congruence]].
    destruct (closed s) eqn:Ec; [|by destruct (Hop eq_refl) as (_ & Hk0 & _); specialize (Hk0 eq_refl)].
    apply ok_tokens with 1; [|done|lia]. by exists cur, dks.
  - destruct (inactive _ _ _ _ _ Ht F Ea) as [-> ->]. simpl in *.
    destruct (queue s) as [|r rest] eqn:Eq.
    + rewrite (has_deferred_iff _ _ _ L).
      assert (closed s = true) as Ec.
      { destruct (closed s) eqn:Ec; [done|]. destruct (Hop eq_refl) as (_ & _ & Hk0). specialize (Hk0 eq_refl).
        destruct (running s); destruct Hk0; done. }
      destruct (Hcl Ec eq_refl) as (Hr & _ & ->). rewrite Ec. simpl. rewrite prog_modify_bind.
      eexists Notify, _. split; [reflexivity|]. simpl. split; [|split; [done|done]].
      exists [], []. split; [by apply links_flags with s|]. split; [done|]. split; [|simpl; by rewrite Eq].
      split; simpl; try done; try congruence. lia.
    + assert (closed s = false) as Ec.
      { destruct (closed s) eqn:Ec; [|done]. destruct (Hcl eq_refl eq_refl) as (_ & ? & _). done. }
      destruct (Hop Ec) as (-> & _ & Hk0). specialize (Hk0 eq_refl).
      rewrite prog_modify_bind, Ec, prog_modify_bind.
      destruct (running s) eqn:Er; destruct Hk0 as [Hk0 _]; [|done].
      exists (Run r), (set_queue rest (set_active true s)). split; [done|]. simpl. split; [|split; [done|]].
      * exists [r], []. destruct L as [L1 L2 L3 L4]. rewrite Eq in *. split; [by split|]. split; [done|].
        split; [|done]. split; simpl; try done; congruence || lia.
      * by rewrite (idle_running (set_queue _ _)).
Qed.

Lemma run_end_ok s k pend : ok s (Some TurnEnd) k pend -> leads s None k pend (run_end s).
Proof.
  intros (cur & dks & L & -> & F & ->). pose proof F as [Ha Hru Hcl Hop Hk]. simpl in *.
  specialize (Hru Ha).
  unfold run_end. rewrite prog_read_bind. unfold id. rewrite (has_deferred_iff _ _ _ L).
  destruct (closed s && _) eqn:E.
  - apply andb_true_iff in E as [Ec _].
    destruct (defer_take_ok _ _ L) as (s1 & H1 & L1 & Hch & Hq1 & Hr1 & (Hf1 & Hf2 & Hf3)).
    rewrite H1. do 2 eexists. split; [reflexivity|]. simpl. rewrite Nat.add_0_r.
    split; [apply drained_ok; try done; congruence|]. split; [done|].
    rewrite (idle_running s1) by congruence. done.
  - rewrite prog_modify_bind. destruct (bool_decide_reflect (queue s = [])) as [Eq|Eq].
    + rewrite prog_modify_bind. eexists Notify, _. split; [reflexivity|]. simpl. rewrite Nat.add_0_r.
      split; [|done].
      assert (dks = []) as ->.
      { destruct (closed s) eqn:Ec; [|by destruct (Hop eq_refl)]. simpl in E. by apply negb_false_iff, bool_decide_eq_true in E. }
      exists [], []. split; [by apply links_flags with s|]. split; [done|]. split; [|done].
      split; simpl; try done. intros Ec. destruct (Hop Ec) as (_ & Hk0 & _). auto.
    + assert (closed s = false) as Ec by (destruct (closed s); [done|done]).
      destruct (Hop Ec) as (-> & Hk0 & _). rewrite (Hk0 Ha) in *.
      exists Launch, (set_active false s). split; [done|]. simpl. split; [|split; [done|]].
      * exists [], []. split; [by apply links_flags with s|]. split; [done|]. split; [|done].
        split; simpl; try done; try congruence. by intros _; rewrite Hru.
      * by rewrite (idle_running (set_active _ _)).
Qed.

Lemma batch_check_ok s k pend : ok s (Some (TurnDrain None)) k pend -> leads s None k pend (batch_check s).
Proof.
  intros (cur & dks & L & [[Hp _] Hc] & F & ->). pose proof F as [Ha Hru Hcl Hop Hk]. simpl in *.
  destruct cur; [|done]. specialize (Hru Ha).
  unfold batch_check. destruct (defer_take_ok _ _ L) as (s1 & H1 & L1 & Hch & Hq1 & Hr1 & (Hf1 & Hf2 & Hf3)).
  rewrite H1. destruct (dks ++ queue s) as [|r all] eqn:E; simpl.
  - rewrite !prog_modify_bind. eexists Notify, _. split; [reflexivity|]. simpl. rewrite Nat.add_0_r.
    split; [|done]. exists [], []. split; [by apply links_flags with s1|]. split; [done|].
    split; [|simpl; by rewrite Hq1]. split; simpl; try done. congruence.
  - do 2 eexists. split; [reflexivity|]. simpl. rewrite Nat.add_0_r. split; [apply drained_ok; try done; congruence|].
    split; [done|]. rewrite (idle_running s1) by congruence. done.
Qed.

(** ** Completing a record *)

Definition signal_record (o : signal) : record_id := match o with SetValue r | SetStopped r => r end.

(** The records are as they were, [r] apart, which is done. *)
Definition finished s s' r : Prop :=
  (forall j, j <> r -> records s' !! j = records s !! j) /\
  (forall j, is_Some (records s' !! j) <-> is_Some (records s !! j)).

Lemma finish_ok s cur dks r o :
  links_ok s (r :: cur) dks ->
  exists s', finish r o s = Some (Some o, s') /\ links_ok s' cur dks /\ finished s s' r /\
    queue s' = queue s /\ deferred_next s' = deferred_next s /\ same_flags s s'.
Proof.
  intros [L1 L2 L3 L4]. simpl in L2. apply NoDup_cons in L2 as [Hr L2].
  destruct (L4 r) as (x & Hx & Hd); [by left|]. unfold finish, get_record, put_record. cbn [after].
  unfold after, modify, give. rewrite Hx, Hd. eexists. split; [reflexivity|]. split; [split|split].
  - done.
  - done.
  - simpl. intros j Hj. apply L3. destruct (decide (j = r)) as [->|]; [by rewrite Hx|].
    by rewrite lookup_insert_ne in Hj.
  - intros j Hj. simpl. rewrite lookup_insert_ne by (by intros <-). apply L4. by right.
  - split; intros j; [intros Hj; simpl; by rewrite lookup_insert_ne|]. simpl.
    destruct (decide (r = j)) as [<-|]; [rewrite lookup_insert_eq, Hx; split; eauto|by rewrite lookup_insert_ne].
  - done.
Qed.

Lemma flags_keep s s' dks t t' k :
  flags_ok s dks t k -> same_flags s s' -> queue s' = queue s -> is_Some t -> is_Some t' -> flags_ok s' dks t' k.
Proof.
  intros [H1 H2 H3 H4 H5] (E1 & E2 & E3) Eq Ht Ht'. split; rewrite ?E1, ?E2, ?E3, ?Eq; try done.
  rewrite H1. by rewrite !bool_decide_eq_true_2.
Qed.

Lemma idle_same s s' : same_flags s s' -> queue s' = queue s -> idle s' = idle s.
Proof. intros (E1 & _ & _) E2. unfold idle. by rewrite E1, E2. Qed.

Lemma run_record_ok s r k pend :
  ok s (Some (TurnRun r)) k pend ->
  exists o s' pend', run_record r s = Some (Some o, s') /\ signal_record o = r /\ pend = r :: pend' /\
    ok s' (Some TurnEnd) k pend' /\ finished s s' r /\ idle s' = idle s.
Proof.
  intros (cur & dks & L & Ht & F & ->). simpl in Ht. subst cur.
  destruct (lo_records _ _ _ L r) as (x & Hx & _); [by left|].
  assert (forall o, signal_record o = r -> exists s' pend', finish r o s = Some (Some o, s') /\
    [r] ++ dks ++ queue s = r :: pend' /\ ok s' (Some TurnEnd) k pend' /\ finished s s' r /\ idle s' = idle s) as H.
  { intros o Ho. destruct (finish_ok s [] dks r o L) as (s' & E & L' & Hf & Hq & _ & Hfl).
    exists s', (dks ++ queue s). split; [done|]. split; [done|]. split; [|split; [done|by apply idle_same]].
    exists [], dks. rewrite Hq. split; [done|]. split; [done|]. split; [|done]. by eapply flags_keep. }
  unfold run_record, get_record, after. rewrite Hx.
  destruct (stop_only x); [destruct (H (SetStopped r))|destruct (H (SetValue r))]; try done; destruct_ex; eauto 10.
Qed.

Lemma drain_next_ok s r k pend :
  ok s (Some (TurnDrain (Some r))) k pend ->
  exists n s1 s' pend', batch_next r s = Some (n, s1) /\ complete_stopped r s1 = Some (Some (SetStopped r), s') /\
    pend = r :: pend' /\ ok s' (Some (TurnDrain n)) k pend' /\ finished s s' r /\ idle s' = idle s.
Proof.
  intros (cur & dks & L & [[Hp Hs] Hc] & F & ->). destruct cur as [|r' cur]; simplify_eq/=. destruct Hs as [Hn Hs].
  rewrite hd_or_Some in Hn. pose proof L as [L1 L2 L3 L4]. simpl in L2. apply NoDup_cons in L2 as [Hr L2].
  rewrite !not_elem_of_app in Hr. destruct Hr as (Hrc & Hrd & _).
  set (nx := <[r' := None]> (deferred_next s)). set (s1 := set_deferred (deferred s) nx s).
  assert (forall j, j <> r' -> nx !! j = deferred_next s !! j) as Hnx.
  { intros j Hj. unfold nx. by rewrite lookup_insert_ne. }
  assert (links_ok s1 (r' :: cur) dks) as Lk.
  { split; simpl; [|by apply L|..].
    - apply queue_rep_ext with (deferred_next s); [done|]. intros j Hj. apply Hnx. by intros ->.
    - intros j Hj. apply L3 in Hj. unfold nx. destruct (decide (r' = j)) as [<-|]; [rewrite lookup_insert_eq; eauto|].
      by rewrite lookup_insert_ne.
    - done. }
  destruct (finish_ok s1 cur dks r' (SetStopped r') Lk) as (s' & E & L' & Hf & Hq & Hnx' & Hfl).
  exists (head cur), s1, s', (cur ++ dks ++ queue s). split; [|split; [done|]].
  { unfold batch_next. rewrite Hn. simpl. by rewrite set_next_ok by eauto. }
  split; [done|]. split; [|split; [done|by rewrite (idle_same s1 s')]].
  exists cur, dks. rewrite Hq. split; [done|]. split; [|split; [|done]].
  - split; [split; [done|]|destruct Hfl as (_ & _ & ->); done].
    eapply sseg_ext; [|exact Hs]. intros j Hj. rewrite Hnx'. apply Hnx. by intros ->.
  - eapply flags_keep with (s := s1); [|done|done|by eauto|by eauto]. by destruct F; split.
Qed.

(** ** The system *)

Definition tokens (sy : system) : nat := n_launch sy + n_before sy + n_relaunch sy + n_runner sy.

Record inv (sy : system) : Prop := Inv {
  inv_ok : exists t pend, turns sy = option_list t /\ ok (st sy) t (tokens sy) pend /\
    (signal_record <$> log sy) ++ pend = started sy;
  inv_nodup : NoDup (started sy);
  inv_started : forall r, r ∈ started sy -> is_Some (records (st sy) !! r);
  inv_fresh : forall r x, records (st sy) !! r = Some x -> r ∉ started sy -> done x = false;
}.

Lemma dispatch_inv sy t pend d :
  turns sy = option_list t -> ok (st sy) (turn_after t d) (tokens sy + launches d) pend ->
  (takes_turn d = true -> t = None) -> (signal_record <$> log sy) ++ pend = started sy -> NoDup (started sy) ->
  (forall r, r ∈ started sy -> is_Some (records (st sy) !! r)) ->
  (forall r x, records (st sy) !! r = Some x -> r ∉ started sy -> done x = false) ->
  inv (dispatch d sy).
Proof.
  intros Ht Hok Htt Ho Hn Hs Hf. destruct d; simpl in *; rewrite ?Nat.add_0_r in Hok; split; try done.
  - by exists t, pend.
  - by exists t, pend.
  - exists (Some (TurnDrain p)), pend. simpl. rewrite Ht, Htt by done. done.
  - exists t, pend. unfold tokens in *. simpl. split; [done|]. split; [|done].
    rewrite Nat.add_1_r in Hok. exact Hok.
  - exists (Some (TurnRun r)), pend. simpl. rewrite Ht, Htt by done. done.
Qed.

Lemma init_inv : inv init.
Proof.
  split; simpl; [|constructor|by intros r ?%elem_of_nil|by intros r x ?%lookup_empty_Some].
  exists None, []. split; [done|]. split; [|done]. exists [], []. split; [split; simpl|split; [done|split; [|done]]].
  - apply empty_rep.
  - constructor.
  - by intros r [x ?%lookup_empty_Some].
  - by intros r ?%elem_of_nil.
  - split; simpl; try done; unfold tokens; simpl; lia.
Qed.

(** Only records that are not started change. *)
Lemma ok_records s s' t k pend :
  ok s t k pend -> queue s' = queue s -> deferred s' = deferred s -> same_flags s s' ->
  (forall r, r ∈ pend -> records s' !! r = records s !! r) ->
  (forall r, r ∈ pend -> deferred_next s' !! r = deferred_next s !! r) ->
  (forall r, is_Some (records s' !! r) -> is_Some (deferred_next s' !! r)) -> ok s' t k pend.
Proof.
  intros (cur & dks & [L1 L2 L3 L4] & Ht & F & ->) Eq Ed (E1 & E2 & E3) Hr Hn Hl. exists cur, dks.
  rewrite Eq. split; [split|split; [|split; [|done]]].
  - rewrite Ed. eapply queue_rep_ext; [done|]. intros j Hj. apply Hn. set_solver.
  - by rewrite Eq.
  - done.
  - rewrite Eq. intros r Hin. rewrite Hr by done. by apply L4.
  - apply holds_turn_keep with s; [done| |congruence]. intros j Hj. apply Hn. set_solver.
  - destruct F. split; rewrite ?E1, ?E2, ?E3, ?Eq; done.
Qed.

Lemma connect_inv sy r s' :
  inv sy -> records (st sy) !! r = None -> connect r (st sy) = Some (tt, s') -> inv (set_st s' sy).
Proof.
  intros [(t & pend & Ht & Hok & Ho) Hn Hs Hf] Hr [= <-]. split; simpl; try done.
  - exists t, pend. split; [done|]. split; [|done].
    assert (forall j, j ∈ pend -> j <> r) as Hne.
    { intros j Hj ->. destruct (Hs r) as [x Hx]; [rewrite <- Ho, elem_of_app; by right|congruence]. }
    apply ok_records with (st sy); simpl; try done.
    + intros j Hj. rewrite lookup_insert_ne; [done|]. by apply not_eq_sym, Hne.
    + intros j Hj. rewrite lookup_insert_ne; [done|]. by apply not_eq_sym, Hne.
    + intros j Hj. destruct (decide (r = j)) as [<-|]; [rewrite lookup_insert_eq; eauto|].
      rewrite lookup_insert_ne in Hj by done. rewrite lookup_insert_ne by done. destruct Hok as (cur & dks & [_ _ L3 _] & _). by apply L3.
  - intros j Hj. destruct (decide (r = j)) as [<-|]; [rewrite lookup_insert_eq; eauto|].
    rewrite lookup_insert_ne by done. by apply Hs.
  - intros j x Hx Hj. destruct (decide (r = j)) as [<-|]; [rewrite lookup_insert_eq in Hx; by simplify_eq|].
    rewrite lookup_insert_ne in Hx by done. by eapply Hf.
Qed.

(** ** Which operations leave the records alone *)

Definition keeps_records {A} (m : prog strand A) : Prop :=
  forall s a s', m s = Some (a, s') -> records s' = records s.

Lemma kr_give {A} (a : A) : keeps_records (give a).
Proof. by intros s b s' [= <- <-]. Qed.

Lemma kr_read {A} (f : strand -> A) : keeps_records (read f).
Proof. by intros s b s' [= <- <-]. Qed.

Lemma kr_modify f : (forall s, records (f s) = records s) -> keeps_records (modify f).
Proof. intros H s b s' [= <- <-]. apply H. Qed.

Lemma kr_after {A B} (m : prog strand A) (f : A -> prog strand B) :
  keeps_records m -> (forall a, keeps_records (f a)) -> keeps_records (after m f).
Proof.
  intros Hm Hf s b s'. unfold after. destruct (m s) as [[a s1]|] eqn:E; [|done]. intros H.
  rewrite (Hf a _ _ _ H). by eapply Hm.
Qed.

Lemma kr_append r : keeps_records (append_deferred_stopped r).
Proof.
  intros s b s'. unfold append_deferred_stopped. by destruct (push_back _ _ _) as [[q nx]|]; simpl; [intros [= <- <-]|].
Qed.

Lemma kr_take : keeps_records take_deferred_stopped.
Proof. by intros s b s' [= <- <-]. Qed.

Lemma kr_defer_list l : keeps_records (defer_list l).
Proof.
  induction l as [|r l IH]; simpl; [apply kr_give|].
  apply kr_after; [by apply kr_modify|]. intros _. apply kr_after; [apply kr_append|done].
Qed.

Create HintDb keeps_records.
#[export] Hint Resolve kr_give kr_read kr_append kr_take kr_defer_list : keeps_records.
#[export] Hint Extern 2 (keeps_records (modify _)) => by apply kr_modify : keeps_records.

Ltac keep_records :=
  repeat match goal with
  | |- keeps_records (after _ _) => apply kr_after; [|intros ?]
  | |- keeps_records (if ?b then _ else _) => destruct b
  | |- keeps_records (match ?x with _ => _ end) => destruct x
  end; auto with keeps_records.

Lemma kr_defer_queue : keeps_records defer_queue.
Proof. unfold defer_queue. keep_records. Qed.
#[export] Hint Resolve kr_defer_queue : keeps_records.

Lemma kr_claim_drain : keeps_records claim_drain.
Proof. unfold claim_drain. keep_records. Qed.
#[export] Hint Resolve kr_claim_drain : keeps_records.

Lemma kr_enqueue r alloc : keeps_records (enqueue r alloc).
Proof. unfold enqueue. keep_records. Qed.

Lemma kr_shutdown : keeps_records shutdown.
Proof. unfold shutdown. keep_records. Qed.

Lemma kr_run_begin : keeps_records run_begin.
Proof. unfold run_begin. keep_records. Qed.

Lemma kr_run_end : keeps_records run_end.
Proof. unfold run_end. keep_records. Qed.

Lemma kr_batch_check : keeps_records batch_check.
Proof. unfold batch_check. keep_records. Qed.
#[export] Hint Resolve kr_enqueue kr_shutdown kr_run_begin kr_run_end kr_batch_check : keeps_records.

Lemma kr_runner_recv sig : keeps_records (runner_recv sig).
Proof. destruct sig; simpl; unfold stop_all; auto with keeps_records. Qed.
#[export] Hint Resolve kr_runner_recv : keeps_records.

(** ** Steps *)

Lemma start_ok s t k pend r stop alloc :
  ok s t k pend -> r ∉ pend -> (exists x, records s !! r = Some x /\ done x = false) ->
  leads s t k (pend ++ [r]) (start r stop alloc s) /\
  forall d s', start r stop alloc s = Some (d, s') ->
    (forall j, is_Some (records s' !! j) <-> is_Some (records s !! j)) /\
    (forall j x, j <> r -> records s' !! j = Some x -> records s !! j = Some x).
Proof.
  intros Hok Hr (x & Hx & Hd). unfold start. destruct stop; cycle 1.
  { split; [by apply enqueue_ok; eauto|]. intros d s' E. by rewrite (kr_enqueue _ _ _ _ _ E). }
  set (s1 := set_records (<[r := StrandRecord true (done x)]> (records s)) s).
  assert (enqueue_stopped r alloc s = enqueue r alloc s1) as E.
  { unfold enqueue_stopped, get_record, put_record, after. by rewrite Hx. }
  assert (forall j, is_Some (records s1 !! j) <-> is_Some (records s !! j)) as Hs.
  { intros j. simpl. destruct (decide (r = j)) as [<-|]; [rewrite lookup_insert_eq, Hx; split; eauto|].
    by rewrite lookup_insert_ne. }
  rewrite E. split.
  - destruct (enqueue_ok s1 t k pend r alloc) as (d & s' & E1 & Hok' & Ht & Hi).
    + apply ok_records with s; try done.
      * intros j Hj. simpl. rewrite lookup_insert_ne; [done|by intros <-].
      * intros j Hj. destruct Hok as (cur & dks & [_ _ L3 _] & _). by apply L3, Hs.
    + done.
    + exists (StrandRecord true (done x)). simpl. by rewrite lookup_insert_eq.
    + exists d, s'. done.
  - intros d s' E1. rewrite (kr_enqueue _ _ _ _ _ E1). split; [done|]. intros j y Hj. simpl.
    by rewrite lookup_insert_ne by done.
Qed.

(** The duty of a critical section that leaves the records alone. *)
Lemma leads_inv sy sy0 t k pend d s' :
  inv sy -> leads (st sy) t k pend (Some (d, s')) -> records s' = records (st sy) ->
  st sy0 = s' -> turns sy0 = option_list t -> tokens sy0 = k -> log sy0 = log sy -> started sy0 = started sy ->
  (signal_record <$> log sy) ++ pend = started sy -> inv (dispatch d sy0).
Proof.
  intros I (d0 & s0 & [= <- <-] & Hok & Htt & _) Hr E1 E2 E3 E4 E5 Ho. destruct I as [_ Hn Hs Hf].
  apply dispatch_inv with t pend; rewrite ?E1, ?E2, ?E3, ?E4, ?E5; try done; by rewrite Hr.
Qed.

Lemma turns_single (l1 l2 : list turn) x t : l1 ++ x :: l2 = option_list t -> l1 = [] /\ l2 = [] /\ t = Some x.
Proof.
  destruct t as [y|]; simpl; [|by destruct l1]. destruct l1 as [|z [|? l1]]; simpl; [|done|done].
  by intros [= -> ->].
Qed.

(** A record that is done moves to the log. *)
Lemma finished_inv sy t k pend r o s' l :
  inv sy -> finished (st sy) s' r -> ok s' t k pend -> tokens sy = k -> signal_record o = r ->
  (signal_record <$> log sy) ++ r :: pend = started sy -> l = option_list t ->
  inv (add_log (Some o) (set_turns l (set_st s' sy))).
Proof.
  intros [_ Hn Hs Hf] [Hf1 Hf2] Hok Hk Ho Hst ->. split; simpl.
  - exists t, pend. split; [done|]. split; [unfold tokens in *; simpl; by rewrite Hk|].
    rewrite fmap_app, <- app_assoc. simpl. by rewrite Ho.
  - done.
  - intros j Hj. by apply Hf2, Hs.
  - intros j x Hx Hj. assert (j <> r) as Hne.
    { intros ->. apply Hj. rewrite <- Hst. apply elem_of_app. right. apply list_elem_of_here. }
    rewrite Hf1 in Hx by done. by eapply Hf.
Qed.

(** The runners on their way move on. *)
Lemma tokens_inv sy sy' :
  inv sy -> st sy' = st sy -> turns sy' = turns sy -> tokens sy' = tokens sy -> log sy' = log sy ->
  started sy' = started sy -> inv sy'.
Proof. intros [? ? ? ?] E1 E2 E3 E4 E5. split; rewrite ?E1, ?E2, ?E3, ?E4, ?E5; done. Qed.

Lemma start_inv sy r stop alloc d s' :
  inv sy -> is_Some (records (st sy) !! r) -> r ∉ started sy -> start r stop alloc (st sy) = Some (d, s') ->
  inv (dispatch d (add_started r (set_st s' sy))).
Proof.
  intros [(t & pend & Ht & Hok & Ho) Hn Hs Hf] [x Hx] Hnew E.
  destruct (start_ok (st sy) t (tokens sy) pend r stop alloc Hok) as [(d0 & s0 & E' & Hok' & Htt & _) Hrec].
  - intros Hin. apply Hnew. rewrite <- Ho. set_solver.
  - eauto.
  - rewrite E in E'. injection E' as <- <-. destruct (Hrec _ _ E) as [Hr1 Hr2].
    apply dispatch_inv with t (pend ++ [r]); simpl; try done.
    + by rewrite app_assoc, Ho.
    + apply NoDup_app. split; [done|]. split; [|apply NoDup_singleton]. by intros j Hj ->%list_elem_of_singleton.
    + intros j. rewrite elem_of_app, list_elem_of_singleton. intros [Hj| ->]; apply Hr1; eauto.
    + intros j y Hy. rewrite not_elem_of_app, list_elem_of_singleton. intros [Hj Hne]. by eapply Hf, Hj; apply Hr2.
Qed.

Lemma shutdown_launches s d s' : shutdown s = Some (d, s') -> launches d = 0.
Proof.
  unfold shutdown, after, modify, read, id, give. destruct (negb _); [|by intros [= <- <-]].
  destruct (_ && _); [by intros [= <- <-]|]. destruct (defer_queue _) as [[? ?]|]; [|done].
  destruct (take_deferred_stopped _) as [[? ?]|]; [|done]. by intros [= <- <-].
Qed.

(** A runner that will not come: the strand is closed. *)
Lemma stop_all_inv sy sy0 t pend d s' :
  inv sy -> ok (st sy) t (tokens sy) pend -> shutdown (st sy) = Some (d, s') ->
  st sy0 = s' -> turns sy0 = option_list t -> tokens sy0 <= 1 -> log sy0 = log sy -> started sy0 = started sy ->
  (signal_record <$> log sy) ++ pend = started sy -> inv (dispatch d sy0).
Proof.
  intros I Hok E E1 E2 E3 E4 E5 Ho. destruct (shutdown_ok _ _ _ _ Hok) as [(d0 & s0 & E' & Hok' & Htt & Hi) Hc].
  specialize (Hc _ _ E). rewrite E in E'. injection E' as <- <-.
  pose proof (shutdown_launches _ _ _ E) as Hd.
  apply leads_inv with sy t (tokens sy0) pend s'; try done; [|by apply kr_shutdown with (1 := E)].
  exists d, s'. split; [done|]. split; [|by split]. rewrite Hd, Nat.add_0_r in *. by eapply ok_tokens.
Qed.

Lemma internal_ok sy sy' : inv sy -> internal sy sy' -> inv sy'.
Proof.
  intros I Hstep. pose proof I as [(t & pend & Ht & Hok & Ho) Hn Hs Hf].
  assert (tokens sy <= 1) as Htok by (by destruct Hok as (cur & dks & _ & _ & [] & _)).
  unfold tokens in Htok.
  destruct Hstep as [a E|a c E1 E2|a c E1 E2|b s' E1 E|b d s' E1 E
    |c E|c E|e sig d s' E1 E|l1 r l2 o s' El E|l1 l2 d s' El E|l1 r l2 n s1 o s' El E1 E|l1 l2 d s' El E].
  - apply tokens_inv with sy; try done. unfold tokens. simpl. lia.
  - apply tokens_inv with sy; try done. unfold tokens. simpl. lia.
  - exfalso. lia.
  - unfold launch_runner_once in E. injection E as <-.
    apply tokens_inv with sy; try done. unfold tokens. simpl. lia.
  - unfold launch_runner_once, stop_all, after in E. destruct (shutdown (st sy)) as [[d0 s0]|] eqn:Es; [|done].
    injection E as <- <-. eapply stop_all_inv; try done. unfold tokens. simpl. lia.
  - apply tokens_inv with sy; try done.
  - apply tokens_inv with sy; try done. unfold tokens. simpl. lia.
  - assert (tokens sy = 1) as Hone by (unfold tokens; lia).
    destruct sig; simpl in E; unfold stop_all in E.
    + rewrite Hone in Hok. pose proof (run_begin_ok _ _ _ Hok) as Hl. rewrite E in Hl.
      eapply leads_inv; try done; [by apply kr_run_begin with (1 := E)|]. unfold tokens. simpl. lia.
    + eapply stop_all_inv; try done. unfold tokens. simpl. lia.
    + eapply stop_all_inv; try done. unfold tokens. simpl. lia.
  - rewrite Ht in El. symmetry in El. apply turns_single in El as (-> & -> & ->).
    destruct (run_record_ok _ _ _ _ Hok) as (o' & s0 & pend' & E' & Hor & -> & Hok' & Hfin & _).
    rewrite E in E'. injection E' as -> <-. by eapply finished_inv.
  - rewrite Ht in El. symmetry in El. apply turns_single in El as (-> & -> & ->).
    pose proof (run_end_ok _ _ _ Hok) as Hl. rewrite E in Hl.
    eapply leads_inv; try done. by apply kr_run_end with (1 := E).
  - rewrite Ht in El. symmetry in El. apply turns_single in El as (-> & -> & ->).
    destruct (drain_next_ok _ _ _ _ Hok) as (n' & s1' & s0 & pend' & E1' & E' & -> & Hok' & Hfin & _).
    rewrite E1 in E1'. injection E1' as <- <-. rewrite E in E'. injection E' as -> <-. by eapply finished_inv.
  - rewrite Ht in El. symmetry in El. apply turns_single in El as (-> & -> & ->).
    pose proof (batch_check_ok _ _ _ Hok) as Hl. rewrite E in Hl.
    eapply leads_inv; try done. by apply kr_batch_check with (1 := E).
Qed.

Lemma strand_step_ok sy sy' : inv sy -> step sy sy' -> inv sy'.
Proof.
  intros I Hstep. destruct Hstep as [r s' Hr Hc|r stop alloc d s' Hr Hnew E|d s' E|sy' E].
  - by eapply connect_inv.
  - by eapply start_inv.
  - pose proof I as [(t & pend & Ht & Hok & Ho) _ _ _].
    assert (tokens sy <= 1) as Htok by (by destruct Hok as (cur & dks & _ & _ & [] & _)).
    by eapply stop_all_inv.
  - by eapply internal_ok.
Qed.

Lemma strand_reachable_ok sy : reachable sy -> inv sy.
Proof. induction 1; [apply init_inv|by eapply strand_step_ok]. Qed.
