(* ===== verification/StrandProps.v ===== *)
(** * Strands: their properties

    For every sequence of steps of the system: work runs one turn at a time
    and in the order it was started, each piece once; [wait] does not return
    early and is woken; and all that is started comes to an end. *)
From S2P Require Import Prelude Linked RecordQueue Strand StrandInv.

(** ** How much is left to be done *)

Definition turn_weight (t : turn) : nat :=
  match t with TurnRun _ => 1 | TurnEnd => 12 | TurnDrain (Some _) => 5 | TurnDrain None => 6 end.

Definition duty_weight (d : duty) : nat :=
  match d with
  | Nothing | Notify => 0
  | Drain p => turn_weight (TurnDrain p)
  | Launch => 11
  | Run r => turn_weight (TurnRun r)
  end.

Definition work (sy : system) : nat :=
  20 * (length (started sy) - length (log sy)) + 11 * n_launch sy + 10 * n_before sy + n_inside sy +
  11 * n_relaunch sy + 8 * n_runner sy + sum_list_with turn_weight (turns sy).

Lemma work_dispatch d sy : work (dispatch d sy) = work sy + duty_weight d.
Proof.
  destruct d; unfold work; simpl; rewrite ?sum_list_with_app; simpl; try lia.
Qed.

Lemma drain_weight p : turn_weight (TurnDrain p) <= 6.
Proof. destruct p; simpl; lia. Qed.

(** What each critical section may leave, whatever the state. *)

Lemma claim_weight s d s' : claim_drain s = Some (d, s') -> duty_weight d <= 6.
Proof.
  unfold claim_drain. rewrite !prog_modify_bind. unfold after, take_deferred_stopped, take_all, give.
  intros [= <- <-]. apply drain_weight.
Qed.

Lemma shutdown_weight s d s' : shutdown s = Some (d, s') -> duty_weight d <= 6.
Proof.
  unfold shutdown. rewrite prog_modify_bind, prog_read_bind. destruct (negb _); [|by intros [= <- <-]; simpl; lia].
  destruct (_ && _); [rewrite prog_modify_bind; intros [= <- <-]; simpl; lia|].
  unfold after. destruct (defer_queue _) as [[? ?]|]; [|done]. unfold take_deferred_stopped, take_all, modify, give.
  intros [= <- <-]. apply drain_weight.
Qed.

Lemma run_begin_weight s d s' : run_begin s = Some (d, s') -> duty_weight d <= 6.
Proof.
  unfold run_begin. rewrite prog_read_bind. unfold id. destruct (active s); [intros [= <- <-]; simpl; lia|].
  destruct (queue s).
  - destruct (_ && _); [by apply claim_weight|]. rewrite prog_modify_bind. intros [= <- <-]. simpl. lia.
  - rewrite prog_modify_bind. destruct (closed s); [|rewrite prog_modify_bind; intros [= <- <-]; simpl; lia].
    unfold after. destruct (defer_queue _) as [[? ?]|]; [|done]. unfold take_deferred_stopped, take_all, give.
    intros [= <- <-]. apply drain_weight.
Qed.

Lemma run_end_weight s d s' : run_end s = Some (d, s') -> duty_weight d <= 11.
Proof.
  unfold run_end. rewrite prog_read_bind. unfold id. destruct (_ && _).
  - unfold after. destruct (defer_queue _) as [[? ?]|]; [|done]. unfold take_deferred_stopped, take_all, give.
    intros [= <- <-]. pose proof (drain_weight (q_head (deferred s0))). simpl in *. lia.
  - rewrite prog_modify_bind. destruct (bool_decide _); [rewrite prog_modify_bind|]; intros [= <- <-]; simpl; lia.
Qed.

Lemma batch_check_weight s d s' : batch_check s = Some (d, s') -> duty_weight d <= 5.
Proof.
  unfold batch_check, after. destruct (defer_queue _) as [[? ?]|]; [|done].
  unfold take_deferred_stopped, take_all, modify, give. destruct (q_head _); intros [= <- <-]; simpl; lia.
Qed.

(** Every step of the threads does some of it. *)
Lemma internal_work sy sy' : inv sy -> internal sy sy' -> work sy' < work sy.
Proof.
  intros I Hstep. pose proof I as [(t & pend & Ht & Hok & Ho) _ _ _].
  destruct Hstep as [a E|a c E1 E2|a c E1 E2|b s' E1 E|b d s' E1 E
    |c E|c E|e sig d s' E1 E|l1 r l2 o s' El E|l1 l2 d s' El E|l1 r l2 n s1 o s' El E1 E|l1 l2 d s' El E];
    rewrite ?work_dispatch.
  - unfold work. simpl. lia.
  - unfold work. simpl. lia.
  - unfold work. simpl. lia.
  - unfold work. simpl. lia.
  - unfold launch_runner_once, stop_all, after in E. destruct (shutdown (st sy)) as [[d0 s0]|] eqn:Es; [|done].
    injection E as <- <-. apply shutdown_weight in Es. unfold work. simpl. lia.
  - unfold work. simpl. lia.
  - unfold work. simpl. lia.
  - assert (duty_weight d <= 6).
    { destruct sig; [by eapply run_begin_weight|by eapply shutdown_weight|by eapply shutdown_weight]. }
    unfold work. simpl. lia.
  - rewrite Ht in El. symmetry in El. apply turns_single in El as (-> & -> & ->).
    destruct (run_record_ok _ _ _ _ Hok) as (o' & s0 & pend' & E' & _ & -> & _).
    rewrite E in E'. injection E' as -> _. apply (f_equal length) in Ho. rewrite length_app, length_fmap in Ho.
    unfold work. simpl. rewrite Ht, length_app. simpl in *. lia.
  - apply run_end_weight in E. unfold work. simpl. rewrite El, !sum_list_with_app. simpl. lia.
  - rewrite Ht in El. symmetry in El. apply turns_single in El as (-> & -> & ->).
    destruct (drain_next_ok _ _ _ _ Hok) as (n' & s1' & s0 & pend' & E1' & E' & -> & _).
    rewrite E1 in E1'. injection E1' as <- <-. rewrite E in E'. injection E' as -> _.
    apply (f_equal length) in Ho. rewrite length_app, length_fmap in Ho. pose proof (drain_weight n).
    unfold work. simpl. rewrite Ht, length_app. simpl in *. lia.
  - apply batch_check_weight in E. unfold work. simpl. rewrite El, !sum_list_with_app. simpl. lia.
Qed.

(** ** Nothing is left *)

Definition completed (sy : system) : Prop :=
  (signal_record <$> log sy) = started sy /\ turns sy = [] /\ idle (st sy) = true.

Lemma idle_completed sy : inv sy -> idle (st sy) = true -> completed sy.
Proof.
  intros [(t & pend & Ht & (cur & dks & L & Hh & F & ->) & Ho) _ _ _] Hi. unfold completed.
  pose proof Hi as Hi'. unfold idle in Hi'. apply andb_true_iff in Hi' as [Hq%bool_decide_eq_true Hr%negb_true_iff].
  assert (active (st sy) = false) as Ha.
  { destruct (active (st sy)) eqn:Ea; [|done]. rewrite (fl_running _ _ _ _ F Ea) in Hr. done. }
  destruct (inactive _ _ _ _ _ Hh F Ha) as [-> ->].
  assert (dks = []) as ->.
  { destruct (closed (st sy)) eqn:Ec; [by apply (fl_closed _ _ _ _ F)|by apply (fl_open _ _ _ _ F)]. }
  rewrite Hq in Ho. simpl in Ho. by rewrite app_nil_r in Ho.
Qed.

Lemma progress sy : inv sy -> (exists sy', internal sy sy') \/ completed sy.
Proof.
  intros I. pose proof I as [(t & pend & Ht & Hok & Ho) _ _ _].
  destruct (n_launch sy) as [|a] eqn:E1; [|left; eexists; by eapply internal_launch].
  destruct (n_before sy) as [|b] eqn:E2; [|left; eexists; by eapply internal_once_started].
  destruct (n_relaunch sy) as [|c] eqn:E3; [|left; eexists; by eapply internal_again].
  destruct (n_runner sy) as [|e] eqn:E4.
  2: { left. destruct (shutdown_ok _ _ _ _ Hok) as [(d & s' & E & _) _]. eexists.
       by eapply (internal_runner _ _ RunnerStopped). }
  destruct t as [[r| |[r|]]|]; simpl in Ht.
  - left. destruct (run_record_ok _ _ _ _ Hok) as (o & s' & pend' & E & _). eexists. by eapply (internal_run _ []).
  - left. destruct (run_end_ok _ _ _ Hok) as (d & s' & E & _). eexists. by eapply (internal_run_end _ []).
  - left. destruct (drain_next_ok _ _ _ _ Hok) as (n & s1 & s' & pend' & E & E' & _). eexists.
    by eapply (internal_drain _ []).
  - left. destruct (batch_check_ok _ _ _ Hok) as (d & s' & E & _). eexists. by eapply (internal_drain_check _ []).
  - right. apply idle_completed; [done|]. destruct Hok as (cur & dks & L & Hh & F & ->). simpl in Hh. subst cur.
    pose proof (fl_active _ _ _ _ F) as Ha. simpl in Ha. unfold idle.
    destruct (closed (st sy)) eqn:Ec.
    + destruct (fl_closed _ _ _ _ F Ec Ha) as (-> & -> & _). done.
    + destruct (fl_open _ _ _ _ F Ec) as (_ & _ & H). specialize (H Ha). unfold tokens in H.
      destruct (running (st sy)); destruct H as [H1 H2]; [lia|by rewrite H2].
Qed.

(** ** Nothing is undefined

    Whatever any of the threads does next in the state [sy] has a result: those at
    the head of the loop of [launch_runner], the runners, whoever holds the turn,
    and whoever starts an operation or shuts the strand down. *)
Definition turn_defined (t : turn) (s : strand) : Prop :=
  match t with
  | TurnRun r => is_Some (run_record r s)
  | TurnEnd => is_Some (run_end s)
  | TurnDrain (Some r) => exists n s1, batch_next r s = Some (n, s1) /\ is_Some (complete_stopped r s1)
  | TurnDrain None => is_Some (batch_check s)
  end.
Definition all_defined (sy : system) : Prop :=
  (n_before sy <> 0 -> forall throws, is_Some (launch_runner_once throws (st sy))) /\
  (n_runner sy <> 0 -> forall sig, is_Some (runner_recv sig (st sy))) /\
  (forall t, t ∈ turns sy -> turn_defined t (st sy)) /\
  is_Some (shutdown (st sy)) /\
  (forall r stop alloc, is_Some (records (st sy) !! r) -> r ∉ started sy -> is_Some (start r stop alloc (st sy))).

Lemma leads_defined s t k pend res : leads s t k pend res -> is_Some res.
Proof. intros (d & s' & -> & _). eauto. Qed.

Lemma inv_defined sy : inv sy -> all_defined sy.
Proof.
  intros I. pose proof I as [(t & pend & Ht & Hok & Ho) _ _ Hfresh].
  destruct (shutdown_ok _ _ _ _ Hok) as [[d0 [s0 [E0 _]]] _].
  assert (tokens sy <= 1) as Htok by (by destruct Hok as (cur & dks & _ & _ & [] & _)). unfold tokens in Htok.
  split; [|split; [|split; [|split; [by eexists|]]]].
  - intros _ []; unfold launch_runner_once, stop_all, after; [rewrite E0|]; by eexists.
  - intros Hn []; simpl; unfold stop_all; [|by eexists..]. eapply leads_defined, run_begin_ok.
    by assert (tokens sy = 1) as <- by (unfold tokens; lia).
  - intros t' Hin. rewrite Ht in Hin. destruct t as [t|]; [apply list_elem_of_singleton in Hin as ->|by apply not_elem_of_nil in Hin].
    destruct t as [r| |[r|]]; simpl.
    + destruct (run_record_ok _ _ _ _ Hok) as (o & s' & pend' & E & _). by eexists.
    + by eapply leads_defined, run_end_ok.
    + destruct (drain_next_ok _ _ _ _ Hok) as (n & s1 & s' & pend' & E & E' & _). exists n, s1. split; [done|]. by eexists.
    + by eapply leads_defined, batch_check_ok.
  - intros r stop alloc [x Hx] Hnew. eapply leads_defined, (start_ok (st sy) t (tokens sy) pend); [exact Hok| |].
    + intros Hin. apply Hnew. rewrite <- Ho. set_solver.
    + exists x. split; [done|]. by eapply Hfresh.
Qed.

(** ** Waking up *)

Lemma wakes_dispatch d sy : wakeups (dispatch d sy) = match d with Notify => S (wakeups sy) | _ => wakeups sy end.
Proof. by destruct d. Qed.

Lemma st_dispatch d sy : st (dispatch d sy) = st sy.
Proof. by destruct d. Qed.

Lemma leads_wakes s t k pend d s' sy0 w :
  leads s t k pend (Some (d, s')) -> st sy0 = s' -> wakeups sy0 = w -> idle s = false ->
  idle (st (dispatch d sy0)) = true -> wakeups (dispatch d sy0) = S w.
Proof.
  intros (d0 & s0 & [= <- <-] & _ & _ & Hi) <- <- Hi0. rewrite st_dispatch, wakes_dispatch. intros Hi1.
  by rewrite (Hi Hi0 Hi1).
Qed.

Lemma internal_wakes sy sy' :
  inv sy -> internal sy sy' -> idle (st sy) = false -> idle (st sy') = true -> wakeups sy' = S (wakeups sy).
Proof.
  intros I Hstep. pose proof I as [(t & pend & Ht & Hok & Ho) _ _ _].
  assert (tokens sy <= 1) as Htok by (by destruct Hok as (cur & dks & _ & _ & [] & _)). unfold tokens in Htok.
  destruct (shutdown_ok _ _ _ _ Hok) as [Hshut _].
  destruct Hstep as [a E|a c E1 E2|a c E1 E2|b s' E1 E|b d s' E1 E
    |c E|c E|e sig d s' E1 E|l1 r l2 o s' El E|l1 l2 d s' El E|l1 r l2 n s1 o s' El E1 E|l1 l2 d s' El E].
  - simpl. congruence.
  - simpl. congruence.
  - simpl. congruence.
  - unfold launch_runner_once in E. injection E as <-. simpl. congruence.
  - unfold launch_runner_once, stop_all, after in E. destruct (shutdown (st sy)) as [[d0 s0]|] eqn:Es; [|done].
    injection E as <- <-. by apply (leads_wakes _ _ _ _ _ _ _ _ Hshut).
  - simpl. congruence.
  - simpl. congruence.
  - assert (tokens sy = 1) as Hone by (unfold tokens; lia). rewrite Hone in Hok.
    destruct sig; simpl in E; unfold stop_all in E.
    + pose proof (run_begin_ok _ _ _ Hok) as Hl. rewrite E in Hl. by apply (leads_wakes _ _ _ _ _ _ _ _ Hl).
    + rewrite E in Hshut. by apply (leads_wakes _ _ _ _ _ _ _ _ Hshut).
    + rewrite E in Hshut. by apply (leads_wakes _ _ _ _ _ _ _ _ Hshut).
  - rewrite Ht in El. symmetry in El. apply turns_single in El as (-> & -> & ->).
    destruct (run_record_ok _ _ _ _ Hok) as (o' & s0 & pend' & E' & _ & _ & _ & _ & Hi).
    rewrite E in E'. injection E' as _ <-. simpl. congruence.
  - rewrite Ht in El. symmetry in El. apply turns_single in El as (-> & -> & ->).
    pose proof (run_end_ok _ _ _ Hok) as Hl. rewrite E in Hl. by apply (leads_wakes _ _ _ _ _ _ _ _ Hl).
  - rewrite Ht in El. symmetry in El. apply turns_single in El as (-> & -> & ->).
    destruct (drain_next_ok _ _ _ _ Hok) as (n' & s1' & s0 & pend' & E1' & E' & _ & _ & _ & Hi).
    rewrite E1 in E1'. injection E1' as <- <-. rewrite E in E'. injection E' as _ <-. simpl. congruence.
  - rewrite Ht in El. symmetry in El. apply turns_single in El as (-> & -> & ->).
    pose proof (batch_check_ok _ _ _ Hok) as Hl. rewrite E in Hl. by apply (leads_wakes _ _ _ _ _ _ _ _ Hl).
Qed.

Lemma step_wakes sy sy' :
  inv sy -> step sy sy' -> idle (st sy) = false -> idle (st sy') = true -> wakeups sy' = S (wakeups sy).
Proof.
  intros I Hstep. pose proof I as [(t & pend & Ht & Hok & Ho) _ _ Hf].
  destruct Hstep as [r s' Hr Hc|r stop alloc d s' [x Hx] Hnew E|d s' E|sy' E].
  - injection Hc as <-. unfold idle. simpl. congruence.
  - destruct (start_ok (st sy) t (tokens sy) pend r stop alloc Hok) as [Hl _].
    + intros Hin. apply Hnew. rewrite <- Ho. set_solver.
    + eauto.
    + rewrite E in Hl. by apply (leads_wakes _ _ _ _ _ _ _ _ Hl).
  - destruct (shutdown_ok _ _ _ _ Hok) as [Hl _]. rewrite E in Hl. by apply (leads_wakes _ _ _ _ _ _ _ _ Hl).
  - by apply internal_wakes.
Qed.

(** ** The properties *)

(** C13: a strand runs what it was given one piece at a time, each piece once, in the order it was
    given, however starts, shutdowns, failing allocations and runners interleave: at most one turn
    is under way, and it is under way exactly when the strand is active; the records completed so
    far, with a value or as stopped, are the first ones started, in that order and without
    repetition; and the record whose turn it is is the next one.  [wait] returns only inside a turn
    of the strand, or when all that was started has been completed and no turn is under way; and
    whenever a step makes its condition true, the step is followed by a notification, so no waiting
    thread sleeps on. *)
Theorem strand_serial_wait sy :
  reachable sy ->
  length (turns sy) <= 1 /\ (active (st sy) = true <-> turns sy <> []) /\
  (signal_record <$> log sy) `prefix_of` started sy /\ NoDup (signal_record <$> log sy) /\
  (forall r, turns sy = [TurnRun r] \/ turns sy = [TurnDrain (Some r)] -> started sy !! length (log sy) = Some r) /\
  (forall self current, wait_returns self current (st sy) = true -> In self current \/ completed sy) /\
  (forall sy', step sy sy' -> idle (st sy) = false -> idle (st sy') = true -> wakeups sy' = S (wakeups sy)).
Proof.
  intros Hreach. pose proof (strand_reachable_ok _ Hreach) as I. revert Hreach.
  intros [(t & pend & Ht & (cur & dks & L & Hh & F & ->) & Ho) Hn _ _]%strand_reachable_ok.
  rewrite Ht. split; [destruct t; simpl; lia|]. split; [|split; [|split; [|split; [|split]]]].
  - rewrite (fl_active _ _ _ _ F), bool_decide_eq_true. destruct t; simpl; split; try done; eauto.
  - rewrite <- Ho. by apply prefix_app_r.
  - rewrite <- Ho in Hn. by apply NoDup_app in Hn as (? & _).
  - intros r Hr. rewrite <- Ho, lookup_app_r by (by rewrite length_fmap). rewrite length_fmap, Nat.sub_diag.
    destruct t as [t|]; [|by destruct Hr]. destruct Hr; simplify_eq/=; [done|].
    destruct Hh as [[Hp _] _]. by destruct cur; simplify_eq/=.
  - unfold wait_returns. intros self current [Hin|Hi]%orb_true_iff; [left|right; by apply idle_completed].
    apply existsb_exists in Hin as (j & Hj & ->%Z.eqb_eq). done.
  - intros sy' Hs. by apply step_wakes.
Qed.

(** C14: whatever was started is completed: left alone, the threads make at most [work] steps, and
    until all records are completed, the strand is idle and no turn is under way, there is a next
    one.  At every point nothing that any thread may do next is undefined, be it in
    [launch_runner], in a runner, in the turn that is under way, or in a start or a shutdown.  That
    is so when runners cannot be started or are stopped by their scheduler, too. *)
Theorem strand_drains sy n sy' :
  reachable sy -> nsteps internal n sy sy' ->
  n <= work sy /\ ((exists sy'', internal sy' sy'') \/ completed sy') /\ all_defined sy'.
Proof.
  intros I%strand_reachable_ok Hn. revert I. induction Hn as [sy|n sy sy1 sy' Hs _ IH]; intros I.
  - split; [lia|]. split; [by apply progress|by apply inv_defined].
  - destruct (IH (internal_ok _ _ I Hs)) as [Hw Hp]. pose proof (internal_work _ _ I Hs). split; [lia|done].
Qed.

(** ** An example

    Two operations are connected and started; the runner gets the first one's
    turn, and then everything is shut down. *)

Definition outcome {A} (m : prog strand A) (s : strand) : strand :=
  match m s with Some (_, s') => s' | None => s end.

Definition demo2 : system := set_st (outcome (connect 2%Z) (outcome (connect 1%Z) (st init))) init.
Definition demo3 : system := dispatch Launch (add_started 1%Z (set_st (outcome (start 1%Z false true) (st demo2)) demo2)).
Definition demo4 : system := dispatch Nothing (add_started 2%Z (set_st (outcome (start 2%Z true true) (st demo3)) demo3)).
Definition demo6 : system := set_launch 0 0 1 0 1 demo4.
Definition demo7 : system := dispatch (Run 1%Z) (set_launch 0 0 1 0 0 (set_st (outcome run_begin (st demo6)) demo6)).

Lemma demo7_reachable : reachable demo7.
Proof.
  assert (reachable demo2) as H2.
  { eapply reachable_step; [eapply reachable_step; [apply reachable_init|]|].
    - by apply (step_connect init 1%Z (outcome (connect 1%Z) (st init))).
    - by apply (step_connect (set_st (outcome (connect 1%Z) (st init)) init) 2%Z). }
  assert (reachable demo3) as H3.
  { eapply reachable_step; [exact H2|]. apply (step_start demo2 1%Z false true Launch); [by eexists|by apply not_elem_of_nil|done]. }
  assert (reachable demo4) as H4.
  { eapply reachable_step; [exact H3|]. apply (step_start demo3 2%Z true true Nothing); [by eexists| |done].
    by apply (bool_decide_unpack _). }
  assert (reachable (set_launch 0 1 0 0 0 demo4)) as H5.
  { eapply reachable_step; [exact H4|]. by apply step_internal, (internal_launch demo4 0). }
  assert (reachable demo6) as H6.
  { eapply reachable_step; [exact H5|].
    by apply step_internal, (internal_once_started (set_launch 0 1 0 0 0 demo4) 0 (st demo4)). }
  eapply reachable_step; [exact H6|].
  by apply step_internal, (internal_runner demo6 0 RunnerValue (Run 1%Z) (outcome run_begin (st demo6))).
Qed.

Lemma strand_serial_wait_witness : reachable demo7 /\ started demo7 !! 0 = Some 1%Z /\
  (wait_returns 5 [5%Z] (st demo7) = true -> In 5%Z [5%Z] \/ completed demo7).
Proof.
  split; [exact demo7_reachable|].
  destruct (strand_serial_wait demo7 demo7_reachable) as (_ & _ & _ & _ & Hnext & Hwait & _).
  split; [apply Hnext; by left|exact (Hwait 5%Z [5%Z])].
Defined.

Lemma strand_drains_witness : reachable demo7 /\ 0 <= work demo7 /\ ((exists sy, internal demo7 sy) \/ completed demo7) /\ all_defined demo7.
Proof. split; [exact demo7_reachable|]. apply (strand_drains demo7 0 demo7 demo7_reachable). constructor. Defined.
