(* ===== verification/Buffer.v ===== *)
(** * Buffers

    Models include/forge/io/buffer.hpp: a buffer is an address with a size, and
    [buffer_copy] moves bytes between buffers and between sequences of them.
    Memory is a map from addresses to bytes; an access to an address that is not
    mapped is [None].  The constant and the mutable buffers of the code have the
    same data and are not told apart. *)
From S2P Require Import Prelude.
From Stdlib Require Import Strings.Byte.

#[local] Open Scope Z_scope.
#[local] Open Scope prog_scope.

Abbreviation byte := Byte.byte.
#[export] Instance byte_eq_decision : EqDecision byte := Byte.byte_eq_dec.

Abbreviation memory := (gmap Z byte).
Implicit Types (m : memory) (a : Z) (xs ys : list byte).

(** ** Memory *)

Fixpoint read_range m a (n : nat) : option (list byte) :=
  match n with
  | O => Some []
  | S n' => (x ← m !! a; xs ← read_range m (a + 1) n'; Some (x :: xs))%stdpp
  end.

Fixpoint write_range m a xs : option memory :=
  match xs with
  | [] => Some m
  | x :: xs' => (_ ← m !! a; write_range (<[a := x]> m) (a + 1) xs')%stdpp
  end.

(** [std::memmove]: the source is read before the destination is written. *)
Definition memmove (dest source : Z) (n : Z) : prog memory unit := fun m =>
  (xs ← read_range m source (Z.to_nat n); m' ← write_range m dest xs; Some (tt, m'))%stdpp.

(** ** Buffers *)

Record buffer := Buffer { data : Z; size : Z }.
Implicit Types b : buffer.

(** [mutable_buffer{}]. *)
Definition empty_buffer : buffer := Buffer 0 0.

(** [const_buffer(mutable_buffer)]. *)
Definition const_buffer b : buffer := Buffer (data b) (size b).

Definition buffer_empty b : bool := size b =? 0.

Fixpoint buffers_size_from (total : Z) (bs : list buffer) : Z :=
  match bs with [] => total | b :: bs' => buffers_size_from (u64 (total + size b)) bs' end.

(** [buffer_size] and [buffer_empty] of a sequence. *)
Definition buffers_size (bs : list buffer) : Z := buffers_size_from 0 bs.
Definition buffers_empty (bs : list buffer) : bool := buffers_size bs =? 0.

Definition buffer_prefix (max_size : Z) b : buffer := Buffer (data b) (Z.min max_size (size b)).

Definition buffer_copy (dest source : buffer) : prog memory Z :=
  let count := Z.min (size dest) (size source) in
  (if negb (count =? 0) then memmove (data dest) (data source) count else give tt) ;;
  give count.

(** The inner loops of the copy between sequences: the current buffer if there
    is one that is not empty, and otherwise the next one that is not. *)
Fixpoint next_buffer (current : option buffer) (rest : list buffer) : option (buffer * list buffer) :=
  match current with
  | Some b =>
      if negb (buffer_empty b) then Some (b, rest)
      else match rest with [] => None | b' :: rest' => next_buffer (Some b') rest' end
  | None => match rest with [] => None | b' :: rest' => next_buffer (Some b') rest' end
  end.

Fixpoint copy_loop (fuel : nat) (dest source : option buffer) (dests sources : list buffer) (total : Z) :
    prog memory Z :=
  match fuel with
  | O => undefined
  | S fuel' =>
      match next_buffer dest dests with
      | None => give total
      | Some (d, dests') =>
          match next_buffer source sources with
          | None => give total
          | Some (s, sources') =>
              copied ← buffer_copy d s;
              copy_loop fuel'
                (Some (Buffer (data d + copied) (size d - copied)))
                (Some (Buffer (data s + copied) (size s - copied)))
                dests' sources' (u64 (total + copied))
          end
      end
  end.

Definition buffers_copy (dests sources : list buffer) : prog memory Z :=
  copy_loop (S (length dests + length sources)) None None dests sources 0.

(** The overloads with a single buffer on one side. *)
Definition gather_copy (dest : buffer) (sources : list buffer) : prog memory Z := buffers_copy [dest] sources.
Definition scatter_copy (dests : list buffer) (source : buffer) : prog memory Z := buffers_copy dests [source].

(** ** What memory holds *)

(** The bytes [xs] are at address [a]. *)
Definition bytes_at m a xs : Prop := forall (i : nat) x, xs !! i = Some x -> m !! (a + Z.of_nat i) = Some x.

Lemma bytes_at_nil m a : bytes_at m a [].
Proof. by intros i x. Qed.

Lemma bytes_at_cons m a x xs : bytes_at m a (x :: xs) <-> m !! a = Some x /\ bytes_at m (a + 1) xs.
Proof.
  split.
  - intros H. split; [rewrite <- (Z.add_0_r a); by apply (H 0%nat)|].
    intros i y Hi. replace (a + 1 + Z.of_nat i) with (a + Z.of_nat (S i)) by lia. by apply H.
  - intros [Hx H] [|i] y Hy; simpl in Hy; [simplify_eq; by rewrite Z.add_0_r|].
    replace (a + Z.of_nat (S i)) with (a + 1 + Z.of_nat i) by lia. by apply H.
Qed.

Lemma bytes_at_app m a xs ys :
  bytes_at m a (xs ++ ys) <-> bytes_at m a xs /\ bytes_at m (a + Z.of_nat (length xs)) ys.
Proof.
  revert a. induction xs as [|x xs IH]; intros a; simpl.
  - rewrite Z.add_0_r. split; [intros H; split; [apply bytes_at_nil|done]|by intros [_ H]].
  - rewrite !bytes_at_cons, IH. replace (a + 1 + Z.of_nat (length xs)) with (a + Z.of_nat (S (length xs))) by lia.
    tauto.
Qed.

Lemma read_range_ok m a xs : bytes_at m a xs -> read_range m a (length xs) = Some xs.
Proof.
  revert a. induction xs as [|x xs IH]; intros a; simpl; [done|].
  rewrite bytes_at_cons. intros [-> H]. simpl. by rewrite IH.
Qed.

Lemma read_range_inv m a n xs : read_range m a n = Some xs -> bytes_at m a xs /\ length xs = n.
Proof.
  revert a xs. induction n as [|n IH]; intros a xs; simpl; [intros [= <-]; split; [apply bytes_at_nil|done]|].
  intros (x & Hx & (ys & Hy & [= <-])%bind_Some)%bind_Some. rewrite bytes_at_cons. simpl.
  destruct (IH _ _ Hy) as [? ->]. done.
Qed.

(** Outside the [n] bytes at [a], memory is as it was; no byte was unmapped. *)
Definition changed_only m m' a (n : nat) : Prop :=
  (forall j, ~ (a <= j < a + Z.of_nat n) -> m' !! j = m !! j) /\ (forall j, is_Some (m' !! j) <-> is_Some (m !! j)).

Lemma bytes_at_outside m m' a n (b : Z) xs :
  changed_only m m' a n -> (b + Z.of_nat (length xs) <= a \/ a + Z.of_nat n <= b \/ xs = []) ->
  bytes_at m b xs -> bytes_at m' b xs.
Proof.
  intros [H _] Hd Hb i x Hi. pose proof (lookup_lt_Some _ _ _ Hi). rewrite H; [by apply Hb|].
  destruct Hd as [| [| ->]]; [lia|lia|done].
Qed.

Lemma write_range_ok m a xs old :
  bytes_at m a old -> length old = length xs ->
  exists m', write_range m a xs = Some m' /\ bytes_at m' a xs /\ changed_only m m' a (length xs).
Proof.
  revert m a old. induction xs as [|x xs IH]; intros m a [|y old] Hold Hl; simplify_eq/=.
  { exists m. split; [done|]. split; [apply bytes_at_nil|]. split; [done|done]. }
  apply bytes_at_cons in Hold as [Hy Hold]. rewrite Hy. simpl.
  destruct (IH (<[a := x]> m) (a + 1) old) as (m' & Hw & Hb & Hc & Hd); [|done|].
  { intros i z Hz. rewrite lookup_insert_ne by lia. by apply Hold. }
  exists m'. split; [done|]. split; [|split].
  - apply bytes_at_cons. split; [|done]. rewrite Hc by lia. by rewrite lookup_insert_eq.
  - intros j Hj. rewrite Hc by lia. by rewrite lookup_insert_ne by lia.
  - intros j. rewrite Hd. destruct (decide (a = j)) as [<-|]; [rewrite lookup_insert_eq, Hy; split; eauto|].
    by rewrite lookup_insert_ne by done.
Qed.

(** ** A single copy *)

Lemma buffer_copy_ok m d s xs ys :
  bytes_at m (data d) ys -> size d = Z.of_nat (length ys) ->
  bytes_at m (data s) xs -> size s = Z.of_nat (length xs) ->
  let n := Nat.min (length ys) (length xs) in
  exists m', buffer_copy d s m = Some (Z.of_nat n, m') /\
    bytes_at m' (data d) (take n xs ++ drop n ys) /\ changed_only m m' (data d) n.
Proof.
  intros Hd Hdl Hs Hsl n. assert (Z.min (size d) (size s) = Z.of_nat n) as Hn by lia.
  assert (bytes_at m (data d) (take n ys) /\ bytes_at m (data d + Z.of_nat n) (drop n ys)) as [Hd1 Hd2].
  { rewrite <- (take_drop n ys) in Hd. apply bytes_at_app in Hd. by rewrite length_take_le in Hd by lia. }
  assert (bytes_at m (data s) (take n xs)) as Hs1.
  { rewrite <- (take_drop n xs) in Hs. by apply bytes_at_app in Hs as [? _]. }
  destruct (write_range_ok m (data d) (take n xs) (take n ys)) as (m' & Hw & Hb & Hc); [done| |].
  { rewrite !length_take. lia. }
  rewrite length_take_le in Hc by lia. exists m'. split; [|split; [|done]].
  - unfold buffer_copy. rewrite Hn. destruct (Z.of_nat n =? 0) eqn:E; simpl.
    + apply Z.eqb_eq in E. assert (n = 0%nat) as E0 by lia. rewrite E0 in Hw. simpl in Hw. simplify_eq.
      by rewrite E0.
    + rewrite (prog_bind_ok _ _ m tt m'); [done|]. unfold memmove. rewrite Nat2Z.id.
      rewrite <- (length_take_le xs n) by lia. rewrite read_range_ok by done. simpl. by rewrite Hw.
  - apply bytes_at_app. split; [done|]. rewrite length_take_le by lia.
    eapply bytes_at_outside; [done| |done]. lia.
Qed.

(** ** Copies between sequences *)

(** The bytes of a sequence of buffers, one buffer after the other. *)
Fixpoint view m (bs : list buffer) : option (list byte) :=
  match bs with
  | [] => Some []
  | b :: bs' => (xs ← read_range m (data b) (Z.to_nat (size b)); ys ← view m bs'; Some (xs ++ ys))%stdpp
  end.

Definition sized b : Prop := 0 <= size b.

Definition apart (b c : buffer) : Prop := data b + size b <= data c \/ data c + size c <= data b.

(** An address in one of the buffers. *)
Definition inside (bs : list buffer) (j : Z) : Prop := exists b, b ∈ bs /\ data b <= j < data b + size b.

Lemma view_inv m bs xs : Forall sized bs -> view m bs = Some xs ->
  match bs with
  | [] => xs = []
  | b :: bs' => exists ys zs, xs = ys ++ zs /\ bytes_at m (data b) ys /\ size b = Z.of_nat (length ys) /\
      view m bs' = Some zs
  end.
Proof.
  destruct bs as [|b bs]; simpl; [by intros _ [= <-]|]. intros [Hb _]%Forall_cons.
  intros (ys & Hy & (zs & Hz & [= <-])%bind_Some)%bind_Some.
  apply read_range_inv in Hy as [Hy Hl]. exists ys, zs. unfold sized in Hb. split_and!; [done|done|lia|done].
Qed.

Lemma view_cons m b bs ys zs :
  bytes_at m (data b) ys -> size b = Z.of_nat (length ys) -> view m bs = Some zs ->
  view m (b :: bs) = Some (ys ++ zs).
Proof. intros Hy Hl Hz. simpl. rewrite Hl, Nat2Z.id, (read_range_ok _ _ _ Hy). simpl. by rewrite Hz. Qed.

(** Memory changed only outside the buffers. *)
Lemma view_frame m m' bs xs :
  (forall j, inside bs j -> m' !! j = m !! j) -> Forall sized bs -> view m bs = Some xs -> view m' bs = Some xs.
Proof.
  revert xs. induction bs as [|b bs IH]; intros xs Hf Hs Hv; [done|].
  destruct (view_inv _ _ _ Hs Hv) as (ys & zs & -> & Hy & Hl & Hz). apply Forall_cons in Hs as [_ Hs].
  apply view_cons; [|done|].
  - intros i x Hi. pose proof (lookup_lt_Some _ _ _ Hi). rewrite Hf; [by apply Hy|].
    exists b. split; [apply list_elem_of_here|]. lia.
  - apply IH; [|done|done]. intros j (c & Hc & Hj). apply Hf. exists c. split; [by right|done].
Qed.

Lemma view_skip m skipped bs :
  Forall (fun b => buffer_empty b = true) skipped -> view m (skipped ++ bs) = view m bs.
Proof.
  induction 1 as [|b skipped Hb _ IH]; simpl; [done|]. apply Z.eqb_eq in Hb. rewrite Hb. simpl. rewrite IH.
  by destruct (view m bs).
Qed.

Lemma next_buffer_spec rest : forall current,
  match next_buffer current rest with
  | Some (b, rest') => exists skipped, option_list current ++ rest = skipped ++ b :: rest' /\
      Forall (fun b => buffer_empty b = true) skipped /\ buffer_empty b = false
  | None => Forall (fun b => buffer_empty b = true) (option_list current ++ rest)
  end.
Proof.
  induction rest as [|b' rest IH]; intros [b|]; simpl.
  - destruct (buffer_empty b) eqn:E; simpl; [by constructor|]. by exists [].
  - done.
  - destruct (buffer_empty b) eqn:E; simpl; [|by exists []]. specialize (IH (Some b')). simpl in IH.
    destruct (next_buffer (Some b') rest) as [[c rest']|]; [|by constructor].
    destruct IH as (skipped & -> & ? & ?). exists (b :: skipped). split; [done|]. by split; [constructor|].
  - specialize (IH (Some b')). simpl in IH. destruct (next_buffer (Some b') rest) as [[c rest']|]; done.
Qed.

(** The destinations do not overlap each other nor the sources. *)
Record separate (ds ss : list buffer) : Prop := Separate {
  sp_sized_d : Forall sized ds;
  sp_sized_s : Forall sized ss;
  sp_dests : ForallOrdPairs apart ds;
  sp_both : forall d s, d ∈ ds -> s ∈ ss -> apart d s;
}.

Lemma separate_skip ds1 ds2 ss1 ss2 : separate (ds1 ++ ds2) (ss1 ++ ss2) -> separate ds2 ss2.
Proof.
  intros [H1 H2 H3 H4]. apply Forall_app in H1 as [_ H1], H2 as [_ H2]. split; [done|done| |].
  - clear -H3. induction ds1 as [|d ds1 IH]; [done|]. inversion H3; subst. by apply IH.
  - intros d s Hd Hs. apply H4; apply elem_of_app; by right.
Qed.

(** The part of a buffer that is left after [n] bytes. *)
Definition rest_of b (n : Z) : buffer := Buffer (data b + n) (size b - n).

Lemma separate_rest d ds s ss n :
  0 <= n <= size d -> n <= size s ->
  separate (d :: ds) (s :: ss) -> separate (rest_of d n :: ds) (rest_of s n :: ss).
Proof.
  intros Hn Hn' [H1 H2 H3 H4]. apply Forall_cons in H1 as [Hd H1], H2 as [Hs H2]. inversion H3; subst.
  unfold sized, apart in *. split.
  - constructor; [unfold sized; simpl; lia|done].
  - constructor; [unfold sized; simpl; lia|done].
  - constructor; [|done]. eapply Forall_impl; [exact H5|]. intros c Hc. unfold apart in *. simpl. lia.
  - intros d' s'. rewrite !elem_of_cons. intros [-> |Hd'] [-> |Hs']; unfold apart; simpl.
    + specialize (H4 d s). rewrite !elem_of_cons in H4. lia || (destruct H4; auto; lia).
    + specialize (H4 d s'). rewrite !elem_of_cons in H4. destruct H4; auto; lia.
    + specialize (H4 d' s). rewrite !elem_of_cons in H4. destruct H4; auto; lia.
    + apply H4; by right.
Qed.

Definition nonempty (bs : list buffer) : nat := length (filter (fun b => buffer_empty b = false) bs).

Lemma nonempty_skip skipped b bs :
  Forall (fun b => buffer_empty b = true) skipped -> buffer_empty b = false ->
  nonempty (skipped ++ b :: bs) = S (nonempty bs).
Proof.
  unfold nonempty. induction 1 as [|c skipped Hc _ IH]; intros Hb; simpl.
  - by rewrite filter_cons_True.
  - rewrite filter_cons_False by congruence. by apply IH.
Qed.

Lemma nonempty_rest b bs : (nonempty (b :: bs) <= S (nonempty bs))%nat.
Proof. unfold nonempty. rewrite filter_cons. case_decide; simpl; lia. Qed.

Lemma nonempty_done b n bs : n = size b -> nonempty (rest_of b n :: bs) = nonempty bs.
Proof.
  intros ->. unfold nonempty. rewrite filter_cons_False; [done|].
  unfold buffer_empty, rest_of. simpl. by rewrite Z.sub_diag.
Qed.

(** One round: [n] bytes go from [s] to [d]. *)
Lemma copy_round m d ds s ss xs ys :
  separate (d :: ds) (s :: ss) -> view m (d :: ds) = Some ys -> view m (s :: ss) = Some xs ->
  exists n m1, buffer_copy d s m = Some (Z.of_nat n, m1) /\
    Z.of_nat n = Z.min (size d) (size s) /\ (n <= length xs)%nat /\ (n <= length ys)%nat /\
    bytes_at m1 (data d) (take n xs) /\ changed_only m m1 (data d) n /\
    view m1 (rest_of d (Z.of_nat n) :: ds) = Some (drop n ys) /\
    view m1 (rest_of s (Z.of_nat n) :: ss) = Some (drop n xs).
Proof.
  intros Hsep Hys Hxs. pose proof Hsep as [H1 H2 H3 H4].
  destruct (view_inv _ _ _ H1 Hys) as (yd & zd & -> & Hyd & Hdl & Hzd).
  destruct (view_inv _ _ _ H2 Hxs) as (xd & zs & -> & Hxd & Hsl & Hzs).
  destruct (buffer_copy_ok m d s xd yd Hyd Hdl Hxd Hsl) as (m1 & Hc & Hb & Hch).
  set (n := Nat.min (length yd) (length xd)) in *. exists n, m1.
  assert (n <= length yd /\ n <= length xd)%nat as [Hny Hnx] by lia.
  apply bytes_at_app in Hb as [Hb1 Hb2]. rewrite length_take_le in Hb2 by done.
  split; [done|]. split; [lia|]. rewrite !length_app. do 2 (split; [lia|]).
  rewrite take_app_le, !drop_app_le by done. split; [done|]. split; [done|].
  apply Forall_cons in H1 as [_ H1], H2 as [_ H2]. inversion H3 as [|? ? Hap _]; subst. split.
  - apply view_cons; [exact Hb2|unfold rest_of; simpl; rewrite length_drop; lia|].
    eapply view_frame; [|done|done]. intros j (c & Hcin & Hj). apply Hch.
    rewrite Forall_forall in Hap. specialize (Hap c Hcin). unfold apart in Hap. lia.
  - apply view_cons; [|unfold rest_of; simpl; rewrite length_drop; lia|].
    + assert (bytes_at m (data s + Z.of_nat n) (drop n xd)) as Hx2.
      { rewrite <- (take_drop n xd) in Hxd. apply bytes_at_app in Hxd as [_ Hxd].
        by rewrite length_take_le in Hxd by done. }
      eapply bytes_at_outside; [exact Hch| |exact Hx2]. rewrite length_drop.
      pose proof (H4 d s (list_elem_of_here _ _) (list_elem_of_here _ _)) as Hap'. unfold apart, rest_of in *. simpl. lia.
    + eapply view_frame; [|done|done]. intros j (c & Hcin & Hj). apply Hch.
      pose proof (H4 d c (list_elem_of_here _ _) (list_elem_of_further _ _ _ Hcin)) as Hap'. unfold apart in Hap'. lia.
Qed.

(** The view of [d :: ds] from the bytes at the front of [d] and the view of what follows them. *)
Lemma extend_view m d c ds xs zs :
  bytes_at m (data d) xs -> length xs = c -> Z.of_nat c <= size d -> Forall sized ds ->
  view m (rest_of d (Z.of_nat c) :: ds) = Some zs -> view m (d :: ds) = Some (xs ++ zs).
Proof.
  intros Hx Hl Hc Hs Hv.
  assert (Forall sized (rest_of d (Z.of_nat c) :: ds)) as Hs'.
  { constructor; [unfold sized, rest_of; simpl; lia|done]. }
  destruct (view_inv _ _ _ Hs' Hv) as (y & z & -> & Hy & Hyl & Hz).
  unfold rest_of in *. simpl in *. rewrite app_assoc. apply view_cons; [|rewrite length_app; lia|done].
  apply bytes_at_app. split; [done|]. by rewrite Hl.
Qed.

Lemma inside_app_r bs cs j : inside cs j -> inside (bs ++ cs) j.
Proof. intros (b & Hb & Hj). exists b. split; [apply elem_of_app; by right|done]. Qed.

(** An address after the first [c] bytes of [d :: ds] is an address of [d :: ds] ... *)
Lemma inside_rest d c ds j : 0 <= c -> inside (rest_of d c :: ds) j -> inside (d :: ds) j.
Proof.
  intros Hc (b & [-> |Hb]%elem_of_cons & Hj).
  - exists d. split; [apply list_elem_of_here|]. unfold rest_of in Hj. simpl in Hj. lia.
  - exists b. split; [by right|done].
Qed.

(** ... but not one of those bytes. *)
Lemma rest_outside d c ds j :
  c <= size d -> Forall (apart d) ds -> data d <= j < data d + c -> ~ inside (rest_of d c :: ds) j.
Proof.
  intros Hc Ha Hj (b & [-> |Hb]%elem_of_cons & Hin); [unfold rest_of in Hin; simpl in Hin; lia|].
  rewrite Forall_forall in Ha. specialize (Ha b Hb). unfold apart in Ha. lia.
Qed.

Lemma take_drop_more {A} c n (xs : list A) :
  (c <= n)%nat -> take c xs ++ take (n - c) (drop c xs) = take n xs.
Proof.
  intros. rewrite <- (take_drop c (take n xs)), take_take, Nat.min_l by done. by rewrite skipn_firstn_comm.
Qed.

Lemma copy_loop_ok fuel : forall m cd cs dests sources total xs ys,
  let ds := option_list cd ++ dests in let ss := option_list cs ++ sources in
  separate ds ss -> view m ds = Some ys -> view m ss = Some xs ->
  (nonempty ds + nonempty ss < fuel)%nat -> 0 <= total -> total + Z.of_nat (length ys) < 2 ^ 64 ->
  let n := Nat.min (length ys) (length xs) in
  exists m', copy_loop fuel cd cs dests sources total m = Some (total + Z.of_nat n, m') /\
    view m' ds = Some (take n xs ++ drop n ys) /\ (forall j, ~ inside ds j -> m' !! j = m !! j).
Proof.
  induction fuel as [|fuel IH]; intros m cd cs dests sources total xs ys ds ss Hsep Hy Hx Hf Ht Hb n; [lia|].
  cbn [copy_loop]. pose proof (next_buffer_spec dests cd) as Hd.
  destruct (next_buffer cd dests) as [[d ds']|].
  2: { exists m. fold ds in Hd. rewrite <- (app_nil_r ds), (view_skip _ _ [] Hd) in Hy. simpl in Hy. simplify_eq.
    assert (n = 0%nat) as -> by done. rewrite Z.add_0_r. split; [done|]. split; [|done].
    by rewrite <- (app_nil_r ds), (view_skip _ _ [] Hd). }
  destruct Hd as (skd & Hds & Hskd & Hed). pose proof (next_buffer_spec sources cs) as Hs.
  destruct (next_buffer cs sources) as [[s ss']|].
  2: { exists m. fold ss in Hs. rewrite <- (app_nil_r ss), (view_skip _ _ [] Hs) in Hx. simpl in Hx. simplify_eq.
    assert (n = 0%nat) as -> by (unfold n; simpl; lia). rewrite Z.add_0_r. by split. }
  destruct Hs as (sks & Hss & Hsks & Hes). fold ds in Hds. fold ss in Hss. rewrite Hds, Hss in *.
  clearbody ds ss. rewrite (view_skip _ _ _ Hskd) in Hy. rewrite (view_skip _ _ _ Hsks) in Hx.
  rewrite (nonempty_skip _ _ _ Hskd Hed), (nonempty_skip _ _ _ Hsks Hes) in Hf.
  apply separate_skip in Hsep.
  destruct (copy_round _ _ _ _ _ _ _ Hsep Hy Hx) as (c & m1 & Hc & Hcm & Hcx & Hcy & Hb1 & Hch & Hy1 & Hx1).
  rewrite (prog_bind_ok _ _ _ _ _ Hc). fold (rest_of d (Z.of_nat c)). fold (rest_of s (Z.of_nat c)).
  rewrite u64_small by lia.
  apply Z.eqb_neq in Hed, Hes. pose proof Hsep as [Hsd Hsz Hap _].
  apply Forall_cons in Hsd as [Hsd Hsds], Hsz as [Hsz _]. inversion Hap as [|? ? Had _]; subst. unfold sized in Hsd, Hsz.
  destruct (IH m1 (Some (rest_of d (Z.of_nat c))) (Some (rest_of s (Z.of_nat c))) ds' ss' (total + Z.of_nat c)
    (drop c xs) (drop c ys)) as (m' & Hrun & Hview & Hframe); [|done|done| |lia| |].
  - apply separate_rest; [lia|lia|done].
  - simpl. destruct (Z.min_spec (size d) (size s)) as [[_ E]|[_ E]]; rewrite E in Hcm.
    + rewrite (nonempty_done d (Z.of_nat c) ds' Hcm). pose proof (nonempty_rest (rest_of s (Z.of_nat c)) ss'). lia.
    + rewrite (nonempty_done s (Z.of_nat c) ss' Hcm). pose proof (nonempty_rest (rest_of d (Z.of_nat c)) ds'). lia.
  - rewrite length_drop. lia.
  - exists m'. rewrite !length_drop in Hrun, Hview.
    assert (Nat.min (length ys - c) (length xs - c) = n - c)%nat as En by (unfold n; lia). rewrite En in *.
    assert (c <= n)%nat as Hcn by (unfold n; lia).
    split; [rewrite Hrun; do 2 f_equal; lia|]. split.
    + rewrite (view_skip _ _ _ Hskd). simpl in Hview.
      rewrite (extend_view m' d c ds' (take c xs) (take (n - c) (drop c xs) ++ drop (n - c) (drop c ys)));
        [|intros i x Hi|by apply length_take_le|lia|done|done].
      * rewrite app_assoc, take_drop_more, drop_drop by done. do 3 f_equal. lia.
      * pose proof (lookup_lt_Some _ _ _ Hi) as Hlt. rewrite length_take in Hlt.
        rewrite Hframe; [by apply Hb1|]. apply rest_outside; [lia|done|lia].
    + intros j Hj. rewrite Hframe, (proj1 Hch); [done|..].
      * intros Hin. apply Hj. exists d. split; [apply elem_of_app; right; apply list_elem_of_here|lia].
      * intros Hin. apply Hj, inside_app_r. eapply inside_rest, Hin. lia.
Qed.

Lemma buffers_size_view m bs xs total :
  Forall sized bs -> view m bs = Some xs -> 0 <= total -> total + Z.of_nat (length xs) < 2 ^ 64 ->
  buffers_size_from total bs = total + Z.of_nat (length xs).
Proof.
  revert xs total. induction bs as [|b bs IH]; intros xs total Hs Hv Ht Hb.
  { simpl in *. simplify_eq/=. lia. }
  destruct (view_inv _ _ _ Hs Hv) as (ys & zs & -> & _ & Hl & Hz). apply Forall_cons in Hs as [_ Hs].
  rewrite length_app in *. simpl. rewrite Hl, u64_small by lia. rewrite (IH zs) by (done || lia). lia.
Qed.

Lemma nonempty_length bs : (nonempty bs <= length bs)%nat.
Proof. apply length_filter. Qed.

(** C39: [buffer_copy] between two sequences of buffers, where the destinations overlap neither each
    other nor the sources, moves as many bytes as the smaller of the two totals, which is what it
    returns.  Read one buffer after the other the destinations then hold that many bytes of the
    sources in front of what they held there before, the sources hold what they held, and no byte
    outside the destinations changes, however the two sequences are cut into buffers and whichever
    of them are empty.  The loop ends: the number of buffers bounds its rounds. *)
Theorem buffers_copy_correct m ds ss xs ys :
  separate ds ss -> view m ds = Some ys -> view m ss = Some xs ->
  Z.of_nat (length ys) < 2 ^ 64 -> Z.of_nat (length xs) < 2 ^ 64 ->
  let n := Nat.min (length ys) (length xs) in
  Z.of_nat n = Z.min (buffers_size ds) (buffers_size ss) /\
  exists m', buffers_copy ds ss m = Some (Z.of_nat n, m') /\
    view m' ds = Some (take n xs ++ drop n ys) /\ view m' ss = Some xs /\
    (forall j, ~ inside ds j -> m' !! j = m !! j).
Proof.
  intros Hsep Hy Hx Hby Hbx n. pose proof Hsep as [Hsd Hss _ Hap]. split.
  { unfold buffers_size. rewrite (buffers_size_view m ds ys), (buffers_size_view m ss xs) by (done || lia). lia. }
  destruct (copy_loop_ok (S (length ds + length ss)) m None None ds ss 0 xs ys Hsep Hy Hx) as (m' & Hr & Hv & Hf);
    [pose proof (nonempty_length ds); pose proof (nonempty_length ss); simpl; lia|lia|lia|].
  exists m'. split; [exact Hr|]. split; [exact Hv|]. split; [|exact Hf].
  eapply view_frame; [|done|done]. intros j (s & Hs & Hj). apply Hf. intros (d & Hd & Hj').
  specialize (Hap d s Hd Hs). unfold apart in Hap. lia.
Qed.

(** Three and one byte, an empty buffer between them, from two sources of two bytes. *)
Lemma buffers_copy_correct_witness :
  let ds := [Buffer 10 3; Buffer 0 0; Buffer 15 2] in
  let ss := [Buffer 20 2; Buffer 30 2] in
  let m : memory := list_to_map (zip [10; 11; 12; 15; 16; 20; 21; 30; 31]
    [x00; x00; x00; x00; x00; x01; x02; x03; x04]%byte) in
  exists m', buffers_copy ds ss m = Some (4, m') /\
    view m' ds = Some [x01; x02; x03; x04; x00]%byte /\ view m' ss = Some [x01; x02; x03; x04]%byte.
Proof.
  intros ds ss m.
  destruct (buffers_copy_correct m ds ss [x01; x02; x03; x04]%byte [x00; x00; x00; x00; x00]%byte)
    as (_ & m' & Hr & Hv & Hs & _); [|vm_compute; reflexivity|vm_compute; reflexivity|simpl; lia|simpl; lia|].
  - split.
    + repeat constructor; unfold sized; simpl; lia.
    + repeat constructor; unfold sized; simpl; lia.
    + repeat constructor; unfold apart; simpl; lia.
    + intros d s Hd Hs. unfold ds, ss in *. set_unfold. destruct_or!; subst; unfold apart; simpl; lia.
  - exists m'. done.
Defined.
