(* ===== verification/Result.v ===== *)
(** * Results of input and output

    Models include/forge/io/result.hpp: [io_result], the status, the error and
    the value of an operation.  An [std::error_code] is no error, one of the
    portable conditions of [std::errc] that the code makes, or a value of some
    other category; the result carries one value, the number of bytes moved. *)
From S2P Require Import Prelude.

Inductive errc := io_error | message_size | value_too_large | bad_address.

Inductive error_code :=
| no_error
| generic (c : errc)
| foreign (value category : Z).

#[export] Instance errc_eq_dec : EqDecision errc.
Proof. solve_decision. Defined.
#[export] Instance error_code_eq_dec : EqDecision error_code.
Proof. solve_decision. Defined.

(** [std::error_code::operator bool]: the values of [std::errc] are not zero. *)
Definition is_error (e : error_code) : bool :=
  match e with no_error => false | generic _ => true | foreign v _ => negb (v =? 0)%Z end.

Inductive io_status := value | eof | error.

#[export] Instance io_status_eq_dec : EqDecision io_status.
Proof. solve_decision. Defined.

Record io_result := IoResult { status_ : io_status; error_ : error_code; value_ : Z }.

(** The constructor that takes an error. *)
Definition make_result (e : error_code) (v : Z) : io_result :=
  IoResult (if is_error e then error else value) e v.

Definition success (v : Z) : io_result := make_result no_error v.

Definition failure (e : error_code) (v : Z) : io_result :=
  let result := make_result e v in IoResult error (error_ result) (value_ result).

Definition end_of_file (v : Z) : io_result :=
  let result := make_result no_error v in IoResult eof (error_ result) (value_ result).

Definition status (r : io_result) : io_status := if is_error (error_ r) then error else status_ r.
Definition is_eof (r : io_result) : bool := bool_decide (status r = eof).
Definition has_value (r : io_result) : bool := bool_decide (status r = value).

(** A failure is an error even when the error code it was given is none. *)
Lemma status_failure e v : status (failure e v) = error.
Proof. unfold status. simpl. by destruct (is_error e). Qed.

Lemma status_success v : status (success v) = value.
Proof. done. Qed.

Lemma status_end_of_file v : status (end_of_file v) = eof.
Proof. done. Qed.
