(* ===== verification/Vector.v ===== *)
(** * Vectors of bytes

    [std::vector<std::byte>], as the streams of include/forge/io/memory_stream.hpp
    use it: its elements are in memory, in a block of the allocator, where other
    code may point.  Growing past the capacity moves them to a new block and
    gives the old one back.  Where blocks are and how much capacity a vector
    asks for are the library's choice: they are the fields of [Allocator], with
    what the standard says of them in [AllocatorLaws].  An allocation that fails
    is not modelled. *)
From S2P Require Import Prelude Buffer.
From Stdlib Require Import Strings.Byte.

#[local] Open Scope Z_scope.
#[local] Open Scope prog_scope.
Implicit Types (m : memory) (a : Z) (xs ys : list byte).

(** ** Blocks of memory *)

Class Allocator := {
  allocate : memory -> Z -> Z;        (** the address of a new block of a size *)
  capacity_for : Z -> Z -> Z;         (** the capacity after growing from one to at least another *)
  max_size : Z;
  fill : byte;                        (** what a new block happens to hold *)
}.

Class AllocatorLaws `{Allocator} := {
  allocate_fresh : forall m n j, allocate m n <= j < allocate m n + n -> m !! j = None;
  capacity_for_le : forall c n, n <= capacity_for c n;
  max_size_range : 0 <= max_size < 2 ^ 64;
}.

Fixpoint map_range m a (n : nat) (x : byte) : memory :=
  match n with O => m | S n' => <[a := x]> (map_range m (a + 1) n' x) end.

Fixpoint unmap_range m a (n : nat) : memory :=
  match n with O => m | S n' => delete a (unmap_range m (a + 1) n') end.

Lemma lookup_map_range m a n x j :
  map_range m a n x !! j = if decide (a <= j < a + Z.of_nat n) then Some x else m !! j.
Proof.
  revert a. induction n as [|n IH]; intros a; simpl; [by case_decide; [lia|]|].
  destruct (decide (a = j)) as [<-|]; [rewrite lookup_insert_eq; by case_decide; [|lia]|].
  rewrite lookup_insert_ne, IH by done. do 2 case_decide; done || lia.
Qed.

Lemma lookup_unmap_range m a n j :
  unmap_range m a n !! j = if decide (a <= j < a + Z.of_nat n) then None else m !! j.
Proof.
  revert a. induction n as [|n IH]; intros a; simpl; [by case_decide; [lia|]|].
  destruct (decide (a = j)) as [<-|]; [rewrite lookup_delete_eq; by case_decide; [|lia]|].
  rewrite lookup_delete_ne, IH by done. do 2 case_decide; done || lia.
Qed.

Section vector.
Context `{Allocator}.

(** ** Operations *)

Record vector := Vector { vec_data : Z; vec_size : Z; vec_capacity : Z }.

Definition empty_vector : vector := Vector 0 0 0.

Definition vec_allocate (n : Z) : prog memory Z := fun m =>
  Some (allocate m n, map_range m (allocate m n) (Z.to_nat n) fill).

Definition vec_deallocate a (n : Z) : prog memory unit := modify (fun m => unmap_range m a (Z.to_nat n)).

Definition vec_reallocate (v : vector) (n : Z) : prog memory vector :=
  let c := capacity_for (vec_capacity v) n in
  a ← vec_allocate c;
  memmove a (vec_data v) (vec_size v) ;;
  vec_deallocate (vec_data v) (vec_capacity v) ;;
  give (Vector a (vec_size v) c).

Definition vec_reserve (v : vector) (n : Z) : prog memory vector :=
  if vec_capacity v <? n then vec_reallocate v n else give v.

(** [std::byte{}] for every new element. *)
Definition vec_resize (v : vector) (n : Z) : prog memory vector :=
  if n <=? vec_size v then give (Vector (vec_data v) n (vec_capacity v))
  else
    v' ← vec_reserve v n;
    (fun m => option_map (pair tt) (write_range m (vec_data v' + vec_size v')
      (replicate (Z.to_nat (n - vec_size v')) x00))) ;;
    give (Vector (vec_data v') n (vec_capacity v')).

(** The vector of [n] elements, and the destructor. *)
Definition vec_make (n : Z) : prog memory vector := vec_resize empty_vector n.
Definition vec_clear (v : vector) : vector := Vector (vec_data v) 0 (vec_capacity v).
Definition vec_destroy (v : vector) : prog memory unit := vec_deallocate (vec_data v) (vec_capacity v).

(** ** Well-formed vectors *)

Definition own (v : vector) (j : Z) : Prop := vec_data v <= j < vec_data v + vec_capacity v.

Record vec_ok (m : memory) (v : vector) (xs : list byte) : Prop := VecOk {
  vo_bytes : bytes_at m (vec_data v) xs;
  vo_size : vec_size v = Z.of_nat (length xs);
  vo_fits : vec_size v <= vec_capacity v;
  vo_mapped : forall j, own v j -> is_Some (m !! j);
}.

(** What was mapped outside [P] is as it was and is outside [Q]. *)
Definition keeps (m m' : memory) (P Q : Z -> Prop) : Prop :=
  forall j, ~ P j -> is_Some (m !! j) -> m' !! j = m !! j /\ ~ Q j.

Lemma keeps_trans m1 m2 m3 P Q R : keeps m1 m2 P Q -> keeps m2 m3 Q R -> keeps m1 m3 P R.
Proof.
  intros H1 H2 j Hj Hm. destruct (H1 j Hj Hm) as [E Hq]. destruct (H2 j Hq) as [E' Hr]; [by rewrite E|].
  split; [congruence|done].
Qed.

Lemma keeps_bytes m m' P Q a xs :
  keeps m m' P Q -> (forall j, a <= j < a + Z.of_nat (length xs) -> ~ P j) -> bytes_at m a xs -> bytes_at m' a xs.
Proof.
  intros Hk Ho Hb i x Hi. pose proof (lookup_lt_Some _ _ _ Hi). pose proof (Hb i x Hi) as Hx.
  destruct (Hk (a + Z.of_nat i)) as [-> _]; [apply Ho; lia|by rewrite Hx|done].
Qed.

(** What is mapped afterwards is in [Q], or it was mapped outside [P]: nothing else was
    allocated for good, and [P] was given back but for [Q]. *)
Definition no_more (m m' : memory) (P Q : Z -> Prop) : Prop :=
  forall j, is_Some (m' !! j) -> Q j \/ is_Some (m !! j) /\ ~ P j.

Lemma write_range_mapped m a xs m' j : write_range m a xs = Some m' -> is_Some (m' !! j) -> is_Some (m !! j).
Proof.
  revert m a. induction xs as [|x xs IH]; intros m a; simpl; [by intros [= ->]|].
  destruct (m !! a) as [y|] eqn:E; [|done]. simpl. intros Hw Hj. apply (IH _ _ Hw) in Hj.
  destruct (decide (a = j)) as [->|]; [eauto|]. by rewrite lookup_insert_ne in Hj.
Qed.
Lemma memmove_mapped d s n m u m' j : memmove d s n m = Some (u, m') -> is_Some (m' !! j) -> is_Some (m !! j).
Proof.
  unfold memmove. destruct (read_range _ _ _) as [xs|]; [|done]. simpl. destruct (write_range _ _ _) as [m1|] eqn:E; [|done].
  intros [= _ <-]. by apply (write_range_mapped _ _ _ _ _ E).
Qed.
Lemma buffer_copy_mapped d s m n m' j : buffer_copy d s m = Some (n, m') -> is_Some (m' !! j) -> is_Some (m !! j).
Proof.
  unfold buffer_copy, after. destruct (negb _); [|by intros [= _ <-]].
  destruct (memmove _ _ _ m) as [[u m1]|] eqn:E; [|done]. intros [= _ <-]. by apply (memmove_mapped _ _ _ _ _ _ _ E).
Qed.
Lemma no_more_same m (P : Z -> Prop) : (forall j, Decision (P j)) -> no_more m m P P.
Proof. intros Hd j Hj. destruct (Hd j); [by left|by right]. Qed.
#[export] Instance own_dec v j : Decision (own v j).
Proof. unfold own. apply _. Defined.
Lemma vec_resize_no_more m v n v' m' : vec_resize v n m = Some (v', m') -> no_more m m' (own v) (own v').
Proof.
  assert (forall c d, no_more m m (own v) (own (Vector (vec_data v) c (vec_capacity v))) /\
    no_more m m (own (Vector (vec_data v) d (vec_capacity v))) (own v)) as Hsame.
  { intros c d. split; by apply no_more_same; intros j; apply own_dec. }
  unfold vec_resize. destruct (Z.leb_spec n (vec_size v)); [intros [= <- <-]; by apply Hsame|].
  assert (forall v1 m1, vec_reserve v n m = Some (v1, m1) -> no_more m m1 (own v) (own v1)) as Hres.
  { intros v1 m1. unfold vec_reserve, vec_reallocate, vec_allocate, after.
    destruct (Z.ltb_spec (vec_capacity v) n) as [Hlt|]; [|intros [= <- <-]; apply no_more_same; intros j; apply own_dec].
    destruct (memmove _ _ _ _) as [[u m2]|] eqn:Em; [|done]. unfold vec_deallocate, modify, give. intros [= <- <-].
    intros j. rewrite lookup_unmap_range. unfold own. simpl. case_decide as Hown; [by intros [? ?]|].
    intros Hj%(memmove_mapped _ _ _ _ _ _ _ Em). rewrite lookup_map_range in Hj. case_decide as Hnew; [left; lia|].
    right. split; [done|lia]. }
  unfold after. destruct (vec_reserve v n m) as [[v1 m1]|]; [|done]. specialize (Hres _ _ eq_refl).
  destruct (write_range _ _ _) as [m2|] eqn:Ew; [|done]. simpl. intros [= <- <-] j Hj.
  by apply Hres, (write_range_mapped _ _ _ _ _ Ew).
Qed.
Lemma vec_destroy_unmapped v m m' j : vec_destroy v m = Some (tt, m') -> is_Some (m' !! j) -> is_Some (m !! j) /\ ~ own v j.
Proof.
  intros [= <-]. rewrite lookup_unmap_range. case_decide as Ho; [by intros [? ?]|]. intros ?. split; [done|]. unfold own. lia.
Qed.

Lemma empty_vector_ok m : vec_ok m empty_vector [].
Proof. split; [apply bytes_at_nil|done|done|]. unfold own. simpl. lia. Qed.

(** The bytes of a range that is mapped. *)
Lemma mapped_bytes m a n :
  (forall j, a <= j < a + Z.of_nat n -> is_Some (m !! j)) -> exists xs, bytes_at m a xs /\ length xs = n.
Proof.
  revert a. induction n as [|n IH]; intros a Hm; [exists []; split; [apply bytes_at_nil|done]|].
  destruct (Hm a) as [x Hx]; [lia|]. destruct (IH (a + 1)) as (xs & Hb & Hl); [intros j Hj; apply Hm; lia|].
  exists (x :: xs). rewrite bytes_at_cons. simpl. auto.
Qed.

Lemma vec_clear_ok m v xs : vec_ok m v xs -> vec_ok m (vec_clear v) [].
Proof.
  intros [Hb Hs Hf Hm]. split; [apply bytes_at_nil|done| |exact Hm]. simpl. lia.
Qed.

(** Memory that changed outside the block of a vector. *)
Lemma vec_ok_keep m m' v xs :
  vec_ok m v xs -> (forall j, own v j -> m' !! j = m !! j) -> vec_ok m' v xs.
Proof.
  intros [Hb Hs Hf Hm] Hk. split; [|done|done|].
  - intros i x Hi. pose proof (lookup_lt_Some _ _ _ Hi). rewrite Hk; [by apply Hb|unfold own; lia].
  - intros j Hj. rewrite Hk by done. by apply Hm.
Qed.

Lemma vec_destroy_ok v m :
  vec_destroy v m = Some (tt, unmap_range m (vec_data v) (Z.to_nat (vec_capacity v))) /\
  forall j, ~ own v j -> unmap_range m (vec_data v) (Z.to_nat (vec_capacity v)) !! j = m !! j.
Proof.
  split; [done|]. intros j Hj. rewrite lookup_unmap_range. case_decide; [unfold own in Hj; lia|done].
Qed.
Context `{!AllocatorLaws}.
#[local] Set Default Proof Using "All".

Lemma vec_reallocate_ok m v n xs :
  vec_ok m v xs -> vec_size v <= n ->
  exists v' m', vec_reallocate v n m = Some (v', m') /\ vec_ok m' v' xs /\ n <= vec_capacity v' /\
    keeps m m' (own v) (own v').
Proof.
  intros [Hb Hs Hf Hm] Hn. unfold vec_reallocate.
  set (c := capacity_for (vec_capacity v) n). pose proof (capacity_for_le (vec_capacity v) n) as Hc. fold c in Hc.
  set (a := allocate m c). set (m1 := map_range m a (Z.to_nat c) fill).
  assert (forall j, a <= j < a + c -> m !! j = None) as Hfresh by (intros j; apply allocate_fresh).
  rewrite (prog_bind_ok _ _ m a m1) by done.
  assert (bytes_at m1 (vec_data v) xs) as Hb1.
  { intros i x Hi. pose proof (Hb i x Hi) as Hx. unfold m1. rewrite lookup_map_range.
    case_decide; [|done]. rewrite Hfresh in Hx by lia. done. }
  destruct (mapped_bytes m1 a (length xs)) as (old & Hold & Hlen).
  { intros j Hj. unfold m1. rewrite lookup_map_range. case_decide; [eauto|lia]. }
  destruct (write_range_ok m1 a xs old Hold Hlen) as (m2 & Hw & Hb2 & Hch).
  rewrite (prog_bind_ok _ _ m1 tt m2).
  2: { unfold memmove. rewrite Hs, Nat2Z.id, (read_range_ok _ _ _ Hb1). simpl. by rewrite Hw. }
  unfold vec_deallocate. rewrite prog_modify_bind. do 2 eexists. split; [reflexivity|].
  assert (forall j, own v j -> ~ (a <= j < a + c)) as Hsep.
  { intros j Hj Hin. destruct (Hm j Hj) as [x Hx]. rewrite Hfresh in Hx by done. done. }
  split; [split|split; [done|]]; simpl.
  - intros i x Hi. rewrite lookup_unmap_range. pose proof (lookup_lt_Some _ _ _ Hi).
    case_decide; [|by apply Hb2]. destruct (Hsep (a + Z.of_nat i)); unfold own; lia.
  - done.
  - lia.
  - unfold own at 1. simpl. intros j Hj. rewrite lookup_unmap_range. case_decide.
    + destruct (Hsep j); unfold own; lia.
    + apply (proj2 Hch). unfold m1. rewrite lookup_map_range. case_decide; [eauto|lia].
  - intros j Hj Hsome. unfold own at 1. simpl.
    assert (~ (a <= j < a + c)) as Hout. { intros Hin. rewrite Hfresh in Hsome by done. by destruct Hsome. }
    split; [|done]. rewrite lookup_unmap_range. case_decide; [unfold own in Hj; lia|].
    rewrite (proj1 Hch) by lia. unfold m1. rewrite lookup_map_range. case_decide; [lia|done].
Qed.

Lemma vec_reserve_ok m v n xs :
  vec_ok m v xs -> vec_size v <= n ->
  exists v' m', vec_reserve v n m = Some (v', m') /\ vec_ok m' v' xs /\ n <= vec_capacity v' /\
    keeps m m' (own v) (own v').
Proof.
  intros Hv Hn. unfold vec_reserve. destruct (Z.ltb_spec (vec_capacity v) n).
  - by apply vec_reallocate_ok.
  - exists v, m. split; [done|]. split; [done|]. split; [lia|]. by intros j.
Qed.

Lemma vec_resize_ok m v n xs :
  vec_ok m v xs -> vec_size v <= n ->
  exists v' m', vec_resize v n m = Some (v', m') /\
    vec_ok m' v' (xs ++ replicate (Z.to_nat n - length xs) x00) /\ keeps m m' (own v) (own v').
Proof.
  intros Hv Hn. pose proof Hv as [Hb Hs Hf Hm]. unfold vec_resize. destruct (Z.leb_spec n (vec_size v)).
  { exists (Vector (vec_data v) n (vec_capacity v)), m. split; [done|].
    replace (Z.to_nat n - length xs)%nat with 0%nat by lia. rewrite app_nil_r.
    split; [|by intros j]. split; [done|simpl; lia|simpl; lia|exact Hm]. }
  destruct (vec_reserve_ok m v n xs Hv Hn) as (v' & m1 & Hr & [Hb1 Hs1 Hf1 Hm1] & Hc & Hk).
  rewrite (prog_bind_ok _ _ _ _ _ Hr). set (zs := replicate (Z.to_nat (n - vec_size v')) x00).
  assert (length zs = Z.to_nat n - length xs)%nat as Hlz. { unfold zs. rewrite length_replicate. lia. }
  destruct (mapped_bytes m1 (vec_data v' + vec_size v') (length zs)) as (old & Hold & Hlen).
  { intros j Hj. apply Hm1. unfold own. lia. }
  destruct (write_range_ok m1 _ zs old Hold Hlen) as (m2 & Hw & Hb2 & Hch).
  rewrite (prog_bind_ok _ _ m1 tt m2) by by rewrite Hw. do 2 eexists. split; [reflexivity|].
  replace (Z.to_nat n - length xs)%nat with (Z.to_nat (n - vec_size v')) by lia. fold zs. split; [split|]; simpl.
  - apply bytes_at_app. rewrite <- Hs1. split; [|done]. eapply bytes_at_outside; [exact Hch| |done]. lia.
  - rewrite length_app. lia.
  - lia.
  - intros j Hj. apply Hch, Hm1, Hj.
  - eapply keeps_trans; [exact Hk|]. intros j Hj _. split; [|exact Hj]. apply Hch. unfold own in Hj. lia.
Qed.

Lemma vec_make_ok m n :
  0 <= n -> exists v m', vec_make n m = Some (v, m') /\ vec_ok m' v (replicate (Z.to_nat n) x00) /\
    (forall j, is_Some (m !! j) -> m' !! j = m !! j /\ ~ own v j).
Proof.
  intros Hn. destruct (vec_resize_ok m empty_vector n [] (empty_vector_ok m)) as (v & m' & Hr & Hv & Hk); [done|].
  exists v, m'. rewrite Nat.sub_0_r in Hv. split; [exact Hr|]. split; [exact Hv|].
  intros j Hj. apply Hk; [|done]. unfold own. simpl. lia.
Qed.

End vector.
