(* ===== verification/Stream.v ===== *)
(** * Streams

    Models the transfers of include/forge/io/stream.hpp over the interfaces the
    file declares: [read_exactly], [write_all] and [read_until] are written and
    proved against [ReadStream] and [WriteStream], whose laws say what a stream
    promises; MemoryStream.v and ScriptedStream.v show that the streams of the
    library keep the promise.

    A program on a stream threads the stream and the memory.  What a stream will
    deliver is a list of items, bytes and errors; the end of the list is the end
    of file, for ever. *)
From S2P Require Import Prelude Buffer Result Vector.
From Stdlib Require Import Strings.Byte.

#[local] Open Scope Z_scope.
#[local] Open Scope prog_scope.
Implicit Types (m : memory) (b : buffer) (xs ys : list byte).

(** ** Programs on a stream *)

Definition on_memory {S A} (p : prog memory A) : prog (S * memory) A := fun '(s, m) =>
  match p m with Some (a, m') => Some (a, (s, m')) | None => None end.
Definition get_stream {S} : prog (S * memory) S := read fst.
Definition put_stream {S} (s : S) : prog (S * memory) unit := modify (fun '(_, m) => (s, m)).

Lemma on_memory_ok {S A} (p : prog memory A) (s : S) m a m' :
  p m = Some (a, m') -> on_memory p (s, m) = Some (a, (s, m')).
Proof. unfold on_memory. by intros ->. Qed.

Lemma get_stream_bind {S A} (f : S -> prog (S * memory) A) (s : S) m : after get_stream f (s, m) = f s (s, m).
Proof. done. Qed.

Lemma put_stream_bind {S A} (s' : S) (f : unit -> prog (S * memory) A) (s : S) m :
  after (put_stream s') f (s, m) = f tt (s', m).
Proof. done. Qed.

Lemma on_memory_bind {S A B} (p : prog memory A) (f : A -> prog (S * memory) B) (s : S) m a m' :
  p m = Some (a, m') -> after (on_memory p) f (s, m) = f a (s, m').
Proof. intros Hp. by rewrite (prog_bind_ok _ _ _ _ _ (on_memory_ok _ s _ _ _ Hp)). Qed.

(** ** The interfaces *)

Inductive item := byte_item (x : byte) | error_item (e : error_code).

Definition bytes (xs : list byte) : list item := byte_item <$> xs.

Definition in_buffer b (j : Z) : Prop := data b <= j < data b + size b.

(** What one call that may move [n] bytes, [0 < n], does with the items [its]:
    its result, the bytes it moves and the items that are left. *)
Inductive some_read (n : nat) (its : list item) : io_result -> list byte -> list item -> Prop :=
| some_read_eof : its = [] -> some_read n its (end_of_file 0) [] []
| some_read_bytes xs rest :
    its = bytes xs ++ rest -> (0 < length xs <= n)%nat ->
    some_read n its (success (Z.of_nat (length xs))) xs rest
| some_read_error xs e rest :
    its = bytes xs ++ error_item e :: rest -> (length xs <= n)%nat ->
    some_read n its (failure e (Z.of_nat (length xs))) xs rest.

(** The concept [read_stream]. *)
Class ReadStream (S : Type) := read_some : buffer -> prog (S * memory) io_result.

Class ReadStreamLaws (S : Type) `{ReadStream S} := {
  pending : S -> memory -> list item -> Prop;   (** the items a stream will deliver *)
  read_foot : S -> Z -> Prop;                   (** the addresses that matter to it *)
  pending_frame : forall s m m' its,
    pending s m its -> (forall j, read_foot s j -> m' !! j = m !! j) -> pending s m' its;
  pending_mapped : forall s m its j, pending s m its -> read_foot s j -> is_Some (m !! j);
  read_some_empty : forall s m b, size b = 0 -> read_some b (s, m) = Some (success 0, (s, m));
  read_some_ok : forall s m its b old,
    pending s m its -> bytes_at m (data b) old -> size b = Z.of_nat (length old) -> 0 < size b < 2 ^ 64 ->
    (forall j, in_buffer b j -> ~ read_foot s j) ->
    exists r xs rest s' m', read_some b (s, m) = Some (r, (s', m')) /\
      some_read (length old) its r xs rest /\ pending s' m' rest /\
      bytes_at m' (data b) (xs ++ drop (length xs) old) /\
      (forall j, read_foot s' j -> read_foot s j) /\
      (forall j, ~ in_buffer b j -> ~ read_foot s j -> m' !! j = m !! j);
}.

(** The concept [write_stream]. *)
Class WriteStream (S : Type) := write_some : buffer -> prog (S * memory) io_result.

Class WriteStreamLaws (S : Type) `{WriteStream S} := {
  written : S -> memory -> list byte -> Prop;   (** the bytes a stream has accepted *)
  write_foot : S -> Z -> Prop;
  write_some_ok : forall s m ws b xs,
    written s m ws -> bytes_at m (data b) xs -> size b = Z.of_nat (length xs) -> 0 < size b < 2 ^ 64 ->
    (forall j, in_buffer b j -> ~ write_foot s j) ->
    exists r k s' m', write_some b (s, m) = Some (r, (s', m')) /\
      (k <= length xs)%nat /\ (r = success (Z.of_nat k) \/ exists e, r = failure e (Z.of_nat k)) /\
      written s' m' (ws ++ take k xs) /\ keeps m m' (write_foot s) (write_foot s');
}.

(** ** The transfers *)

Section transfers.
Context `{Allocator}.

Section reads.
Context {S : Type} `{!ReadStream S}.

Fixpoint read_exactly_loop (fuel : nat) (output : buffer) (total : Z) : prog (S * memory) io_result :=
  match fuel with
  | O => undefined
  | Datatypes.S fuel' =>
      if total <? size output then
        result ← read_some (Buffer (data output + total) (size output - total));
        let total := u64 (total + value_ result) in
        if bool_decide (status result = error) then give (failure (error_ result) total)
        else if total =? size output then give (success total)
        else if is_eof result || (value_ result =? 0) then give (end_of_file total)
        else read_exactly_loop fuel' output total
      else give (success total)
  end.

Definition read_exactly (output : buffer) : prog (S * memory) io_result :=
  read_exactly_loop (Datatypes.S (Z.to_nat (size output))) output 0.

(** [read_some] of one byte into a local variable, and the byte that is then in it. *)
Definition read_byte : prog (S * memory) (io_result * byte) :=
  a ← on_memory (vec_allocate 1);
  on_memory (fun m => option_map (pair tt) (write_range m a [x00])) ;;
  result ← read_some (Buffer a 1);
  x ← on_memory (fun m => option_map (fun x => (x, m)) (m !! a));
  on_memory (vec_deallocate a 1) ;;
  give (result, x).

(** The string is the second component of the result. *)
Fixpoint read_until_loop (fuel : nat) (delimiter : byte) (max_bytes : Z) (output : list byte) (total : Z) :
    prog (S * memory) (io_result * list byte) :=
  match fuel with
  | O => undefined
  | Datatypes.S fuel' =>
      if total <? max_bytes then
        rx ← read_byte;
        let '(result, x) := rx in
        let count := value_ result in
        let total := if 0 <? count then u64 (total + 1) else total in
        let output := if 0 <? count then output ++ [x] else output in
        if bool_decide (status result = error) then give (failure (error_ result) total, output)
        else if (0 <? count) && bool_decide (last output = Some delimiter) then give (success total, output)
        else if is_eof result || (count =? 0) then give (end_of_file total, output)
        else read_until_loop fuel' delimiter max_bytes output total
      else give (failure (generic message_size) total, output)
  end.

Definition read_until (fuel : nat) (delimiter : byte) (max_bytes : Z) : prog (S * memory) (io_result * list byte) :=
  read_until_loop fuel delimiter max_bytes [] 0.
End reads.

Section writes.
Context {S : Type} `{!WriteStream S}.

Fixpoint write_all_loop (fuel : nat) (input : buffer) (total : Z) : prog (S * memory) io_result :=
  match fuel with
  | O => undefined
  | Datatypes.S fuel' =>
      if total <? size input then
        result ← write_some (Buffer (data input + total) (size input - total));
        let count := value_ result in
        let total := u64 (total + count) in
        if bool_decide (status result = error) then give (failure (error_ result) total)
        else if count =? 0 then give (failure (generic io_error) total)
        else write_all_loop fuel' input total
      else give (success total)
  end.

Definition write_all (input : buffer) : prog (S * memory) io_result :=
  write_all_loop (Datatypes.S (Z.to_nat (size input))) input 0.
End writes.

(** ** What the transfers do *)

(** [read_exactly] of [n] bytes after [total] bytes. *)
Inductive exact_read (n : nat) (its : list item) (total : Z) : io_result -> list byte -> list item -> Prop :=
| exact_success xs rest :
    its = bytes xs ++ rest -> length xs = n ->
    exact_read n its total (success (total + Z.of_nat n)) xs rest
| exact_error xs e rest :
    its = bytes xs ++ error_item e :: rest -> (length xs <= n)%nat ->
    exact_read n its total (failure e (total + Z.of_nat (length xs))) xs rest
| exact_eof xs :
    its = bytes xs -> (length xs < n)%nat ->
    exact_read n its total (end_of_file (total + Z.of_nat (length xs))) xs [].

Lemma exact_read_more k n xs rest total r ys rest' its :
  its = bytes xs ++ rest -> length xs = k -> (k <= n)%nat ->
  exact_read (n - k) rest (total + Z.of_nat k) r ys rest' -> exact_read n its total r (xs ++ ys) rest'.
Proof.
  intros -> Hk Hn Hr. unfold bytes. destruct Hr as [zs rest'' -> Hl|zs e rest'' -> Hl|zs -> Hl].
  - replace (total + Z.of_nat k + Z.of_nat (n - k)) with (total + Z.of_nat n) by lia.
    apply exact_success; [unfold bytes; by rewrite fmap_app, app_assoc|rewrite length_app; lia].
  - replace (total + Z.of_nat k + Z.of_nat (length zs)) with (total + Z.of_nat (length (xs ++ zs)))
      by (rewrite length_app; lia).
    apply exact_error; [unfold bytes; by rewrite fmap_app, <- app_assoc|rewrite length_app; lia].
  - replace (total + Z.of_nat k + Z.of_nat (length zs)) with (total + Z.of_nat (length (xs ++ zs)))
      by (rewrite length_app; lia).
    apply exact_eof; [unfold bytes; by rewrite fmap_app|rewrite length_app; lia].
Qed.

(** [read_until] after [total] bytes, of [max_bytes] at most, none of them the delimiter. *)
Inductive until_read (d : byte) (max_bytes : Z) (its : list item) (total : Z) :
    io_result -> list byte -> list item -> Prop :=
| until_found xs rest :
    its = bytes (xs ++ [d]) ++ rest -> d ∉ xs -> total + Z.of_nat (length xs) < max_bytes ->
    until_read d max_bytes its total (success (total + Z.of_nat (length xs) + 1)) (xs ++ [d]) rest
| until_error xs e rest :
    its = bytes xs ++ error_item e :: rest -> d ∉ take (length xs - 1) xs ->
    total + Z.of_nat (length xs) <= max_bytes ->
    until_read d max_bytes its total (failure e (total + Z.of_nat (length xs))) xs rest
| until_eof xs :
    its = bytes xs -> d ∉ xs -> total + Z.of_nat (length xs) < max_bytes ->
    until_read d max_bytes its total (end_of_file (total + Z.of_nat (length xs))) xs []
| until_full xs rest :
    its = bytes xs ++ rest -> d ∉ xs -> total + Z.of_nat (length xs) = max_bytes ->
    until_read d max_bytes its total (failure (generic message_size) max_bytes) xs rest.

Lemma until_read_more d max_bytes x rest total r ys rest' :
  x <> d -> until_read d max_bytes rest (total + 1) r ys rest' ->
  until_read d max_bytes (byte_item x :: rest) total r (x :: ys) rest'.
Proof.
  intros Hx Hr. destruct Hr as [zs rest'' -> Hn Hl|zs e rest'' -> Hn Hl|zs -> Hn Hl|zs rest'' -> Hn Hl].
  - replace (total + 1 + Z.of_nat (length zs) + 1) with (total + Z.of_nat (length (x :: zs)) + 1) by (simpl; lia).
    apply (until_found _ _ _ _ (x :: zs)); [done|set_solver|simpl; lia].
  - replace (total + 1 + Z.of_nat (length zs)) with (total + Z.of_nat (length (x :: zs))) by (simpl; lia).
    apply (until_error _ _ _ _ (x :: zs)); [done| |simpl; lia]. simpl. rewrite Nat.sub_0_r.
    destruct zs as [|z zs]; simpl; [set_solver|]. simpl in Hn. rewrite Nat.sub_0_r in Hn. set_solver.
  - replace (total + 1 + Z.of_nat (length zs)) with (total + Z.of_nat (length (x :: zs))) by (simpl; lia).
    apply (until_eof _ _ _ _ (x :: zs)); [done|set_solver|simpl; lia].
  - apply (until_full _ _ _ _ (x :: zs)); [done|set_solver|simpl; lia].
Qed.

(** [read_some] of what is left of a buffer, seen from the whole buffer. *)
Definition in_rest b (total j : Z) : Prop := data b + total <= j < data b + size b.

Section read_proofs.
Context {S : Type} `{!ReadStream S, !ReadStreamLaws S}.

Lemma read_exactly_loop_ok fuel : forall s m its b total old,
  pending s m its -> bytes_at m (data b + total) old -> size b = total + Z.of_nat (length old) ->
  0 <= total -> size b < 2 ^ 64 -> (length old < fuel)%nat ->
  (forall j, in_rest b total j -> ~ read_foot s j) ->
  exists r xs rest s' m', read_exactly_loop fuel b total (s, m) = Some (r, (s', m')) /\
    exact_read (length old) its total r xs rest /\ pending s' m' rest /\
    bytes_at m' (data b + total) (xs ++ drop (length xs) old) /\
    (forall j, read_foot s' j -> read_foot s j) /\
    (forall j, ~ in_rest b total j -> ~ read_foot s j -> m' !! j = m !! j).
Proof.
  induction fuel as [|fuel IH]; intros s m its b total old Hp Hb Hs Ht Hbd Hf Hd; [lia|].
  cbn [read_exactly_loop]. destruct (Z.ltb_spec total (size b)); cycle 1.
  { assert (old = []) as -> by (destruct old; simpl in *; [done|lia]). exists (success total), [], its, s, m.
    simpl. split; [done|]. split; [|done]. rewrite <- (Z.add_0_r total) at 2. by apply (exact_success 0). }
  set (b' := Buffer (data b + total) (size b - total)).
  destruct (read_some_ok s m its b' old) as (r & xs & rest & s1 & m1 & Hr & Hsr & Hp1 & Hb1 & Hf1 & Hk1);
    [done|done|simpl; lia|simpl; lia|intros j Hj; apply Hd; unfold in_buffer, b' in Hj; simpl in Hj; unfold in_rest; lia|].
  assert (forall j, ~ in_rest b total j -> ~ read_foot s j -> m1 !! j = m !! j) as Hk1'.
  { intros j Hj. apply Hk1. unfold in_buffer, b'. simpl. unfold in_rest in Hj. lia. }
  rewrite (prog_bind_ok _ _ _ _ _ Hr). simpl in Hb1.
  destruct Hsr as [-> |xs rest E Hl|xs e rest E Hl].
  - (* the end of the file *)
    simpl. rewrite Z.add_0_r, u64_small by lia. destruct (Z.eqb_spec total (size b)); [lia|]. simpl.
    exists (end_of_file total), [], [], s1, m1. split; [done|]. split; [|done].
    rewrite <- (Z.add_0_r total) at 2. apply (exact_eof _ _ _ []); [done|]. simpl. lia.
  - (* bytes *)
    simpl. rewrite u64_small by lia. destruct (Z.eqb_spec (total + Z.of_nat (length xs)) (size b)) as [E'|].
    + do 5 eexists. split; [reflexivity|]. split; [|done].
      replace (length xs) with (length old) by lia. apply exact_success; [done|lia].
    + destruct (Z.eqb_spec (Z.of_nat (length xs)) 0); [lia|]. simpl.
      apply bytes_at_app in Hb1 as [Hb1 Hb2].
      destruct (IH s1 m1 rest b (total + Z.of_nat (length xs)) (drop (length xs) old))
        as (r & ys & rest' & s' & m' & Hr' & He & Hp' & Hb' & Hf' & Hk').
      * done.
      * by rewrite Z.add_assoc.
      * rewrite length_drop. lia.
      * lia.
      * done.
      * rewrite length_drop. lia.
      * intros j Hj Hfj. apply (Hd j); [unfold in_rest in *; lia|by apply Hf1].
      * exists r, (xs ++ ys), rest', s', m'. split; [done|]. rewrite length_drop in He.
        split; [eapply exact_read_more; [done..|lia|done]|]. split; [done|]. split; [|split].
        -- rewrite <- app_assoc. apply bytes_at_app. rewrite Z.add_assoc in Hb'.
           rewrite length_app, <- drop_drop. split; [|done].
           intros i x Hi. pose proof (lookup_lt_Some _ _ _ Hi).
           rewrite Hk'; [by apply Hb1|unfold in_rest; lia|].
           intros Hfj. apply (Hd (data b + total + Z.of_nat i)); [unfold in_rest; lia|by apply Hf1].
        -- intros j Hj. by apply Hf1, Hf'.
        -- intros j Hj Hfj. rewrite Hk', Hk1'; [done|done|done|unfold in_rest in *; lia|].
           intros Hfj'. by apply Hfj, Hf1.
  - (* an error *)
    rewrite status_failure, bool_decide_eq_true_2 by done. simpl. rewrite u64_small by lia.
    do 5 eexists. split; [reflexivity|]. split; [|done]. by apply exact_error.
Qed.

Lemma read_exactly_ok s m its b old :
  pending s m its -> bytes_at m (data b) old -> size b = Z.of_nat (length old) -> size b < 2 ^ 64 ->
  (forall j, in_buffer b j -> ~ read_foot s j) ->
  exists r xs rest s' m', read_exactly b (s, m) = Some (r, (s', m')) /\
    exact_read (length old) its 0 r xs rest /\ pending s' m' rest /\
    bytes_at m' (data b) (xs ++ drop (length xs) old) /\
    (forall j, ~ in_buffer b j -> ~ read_foot s j -> m' !! j = m !! j).
Proof.
  intros Hp Hb Hs Hbd Hd. unfold read_exactly.
  destruct (read_exactly_loop_ok (Datatypes.S (Z.to_nat (size b))) s m its b 0 old)
    as (r & xs & rest & s' & m' & Hr & He & Hp' & Hb' & _ & Hk).
  - done.
  - by rewrite Z.add_0_r.
  - lia.
  - lia.
  - done.
  - lia.
  - intros j Hj. apply Hd. unfold in_buffer, in_rest in *. lia.
  - exists r, xs, rest, s', m'. rewrite Z.add_0_r in Hb'. split; [done|]. split; [done|]. split; [done|].
    split; [done|]. intros j Hj. apply Hk. unfold in_buffer, in_rest in *. lia.
Qed.

(** A stream of exactly the bytes that are wanted. *)
Lemma exact_read_all zs total r xs rest :
  exact_read (length zs) (bytes zs) total r xs rest ->
  r = success (total + Z.of_nat (length zs)) /\ xs = zs /\ rest = [].
Proof.
  assert (forall its, bytes zs = bytes xs ++ its -> (length xs <= length zs)%nat /\
    its = bytes (drop (length xs) zs) /\ xs = take (length xs) zs) as Hb.
  { revert xs. induction zs as [|z zs IH]; intros [|x xs] its; simpl; [by intros <-|done|intros <-; split; [lia|done]|].
    unfold bytes in *. simpl. intros [= -> E]. destruct (IH xs its E) as (? & -> & Hx).
    split; [lia|]. split; [done|]. by rewrite <- Hx. }
  intros Hr. destruct Hr as [xs rest E Hl|xs e rest E Hl|xs E Hl].
  - destruct (Hb rest E) as (_ & Hr & Hx). rewrite Hl in Hr, Hx. rewrite drop_ge in Hr by lia.
    rewrite take_ge in Hx by lia. by subst.
  - exfalso. destruct (Hb _ E) as (_ & E' & _). unfold bytes in E'. by destruct (drop (length xs) zs).
  - exfalso. rewrite <- (app_nil_r (bytes xs)) in E. destruct (Hb [] E) as (_ & E' & _).
    apply (f_equal length) in E'. unfold bytes in E'. rewrite length_fmap, length_drop in E'. simpl in E'. lia.
Qed.

Context `{!AllocatorLaws}.
#[local] Set Default Proof Using "All".

Lemma read_byte_ok s m its :
  pending s m its ->
  exists r xs rest x s' m', read_byte (s, m) = Some ((r, x), (s', m')) /\
    some_read 1 its r xs rest /\ (xs = [] \/ xs = [x]) /\ pending s' m' rest /\
    (forall j, read_foot s' j -> read_foot s j) /\
    (forall j, is_Some (m !! j) -> ~ read_foot s j -> m' !! j = m !! j).
Proof.
  intros Hp. unfold read_byte. set (a := allocate m 1).
  assert (m !! a = None) as Ha by (apply (allocate_fresh m 1); unfold a; lia).
  assert (forall j, read_foot s j -> j <> a) as Hfa.
  { intros j Hj ->. destruct (pending_mapped s m its a Hp Hj). congruence. }
  rewrite (prog_bind_ok _ _ (s, m) a (s, <[a := fill]> m)) by done.
  rewrite (prog_bind_ok _ _ _ tt (s, <[a := x00]> m)).
  2: { apply on_memory_ok. simpl. rewrite lookup_insert_eq. simpl. by rewrite insert_insert_eq. }
  destruct (read_some_ok s (<[a := x00]> m) its (Buffer a 1) [x00])
    as (r & xs & rest & s1 & m1 & Hr & Hsr & Hp1 & Hb1 & Hf1 & Hk1); try done.
  { eapply pending_frame; [done|]. intros j Hj. rewrite lookup_insert_ne; [done|]. apply not_eq_sym, Hfa, Hj. }
  { apply bytes_at_cons. by rewrite lookup_insert_eq. }
  { intros j Hj Hfj. apply (Hfa j Hfj). unfold in_buffer in Hj. simpl in Hj. lia. }
  rewrite (prog_bind_ok _ _ _ _ _ Hr). simpl in Hb1.
  simpl in Hsr. assert (length xs <= 1)%nat as Hl by (destruct Hsr; simpl; lia).
  assert (exists x, m1 !! a = Some x /\ (xs = [] \/ xs = [x])) as (x & Hx & Hxs).
  { destruct xs as [|x [|? ?]]; simpl in *; [|exists x|lia].
    - exists x00. apply bytes_at_cons in Hb1 as [? _]. auto.
    - apply bytes_at_cons in Hb1 as [? _]. auto. }
  rewrite (prog_bind_ok _ _ _ x (s1, m1)) by (apply on_memory_ok; by rewrite Hx).
  rewrite (prog_bind_ok _ _ _ tt (s1, delete a m1)) by done.
  exists r, xs, rest, x, s1, (delete a m1). split; [done|]. split; [done|]. split; [done|]. split; [|split; [done|]].
  - eapply pending_frame; [done|]. intros j Hj. rewrite lookup_delete_ne; [done|].
    apply not_eq_sym, Hfa, Hf1, Hj.
  - intros j Hj Hfj. assert (a <> j) as Hne by (intros <-; rewrite Ha in Hj; by destruct Hj).
    rewrite lookup_delete_ne, Hk1, lookup_insert_ne; try done. unfold in_buffer. simpl. lia.
Qed.

Lemma read_until_loop_ok d max_bytes fuel : forall s m its out total,
  pending s m its -> (length its < fuel)%nat -> 0 <= total <= max_bytes -> max_bytes < 2 ^ 64 ->
  exists r xs rest s' m', read_until_loop fuel d max_bytes out total (s, m) = Some ((r, out ++ xs), (s', m')) /\
    until_read d max_bytes its total r xs rest /\ pending s' m' rest /\
    (forall j, read_foot s' j -> read_foot s j) /\
    (forall j, is_Some (m !! j) -> ~ read_foot s j -> m' !! j = m !! j).
Proof.
  induction fuel as [|fuel IH]; intros s m its out total Hp Hf Ht Hm; [lia|].
  cbn [read_until_loop]. destruct (Z.ltb_spec total max_bytes); cycle 1.
  { assert (total = max_bytes) as -> by lia.
    exists (failure (generic message_size) max_bytes), [], its, s, m. rewrite app_nil_r. split; [done|].
    split; [|done]. apply (until_full _ _ _ _ []); [done|set_solver|simpl; lia]. }
  destruct (read_byte_ok s m its Hp) as (r & xs & rest & x & s1 & m1 & Hr & Hsr & Hxs & Hp1 & Hf1 & Hk1).
  rewrite (prog_bind_ok _ _ _ _ _ Hr). cbn zeta.
  destruct Hsr as [-> |xs rest -> Hl|xs e rest -> Hl].
  - exists (end_of_file total), [], [], s1, m1. rewrite app_nil_r. split; [done|]. split; [|done].
    rewrite <- (Z.add_0_r total) at 2. apply (until_eof _ _ _ _ []); [done|set_solver|simpl; lia].
  - destruct Hxs as [-> | ->]; [simpl in Hl; lia|]. simpl. rewrite u64_small by lia.
    rewrite last_snoc. destruct (decide (x = d)) as [-> |Hne].
    + rewrite bool_decide_eq_true_2 by done. exists (success (total + 1)), [d], rest, s1, m1.
      split; [done|]. split; [|done]. rewrite <- (Z.add_0_r total) at 2.
      apply (until_found _ _ _ _ []); [done|set_solver|simpl; lia].
    + rewrite bool_decide_eq_false_2 by congruence. simpl in Hf.
      destruct (IH s1 m1 rest (out ++ [x]) (total + 1)) as (r & ys & rest' & s' & m' & Hr' & Hu & Hp' & Hf' & Hk');
        [done|lia|lia|done|].
      exists r, (x :: ys), rest', s', m'. rewrite <- app_assoc in Hr'. split; [exact Hr'|].
      split; [by apply until_read_more|]. split; [done|]. split; [auto|].
      intros j Hj Hfj. rewrite Hk', Hk1; auto. by rewrite Hk1.
  - rewrite status_failure, bool_decide_eq_true_2 by done.
    assert (out ++ xs = (if 0 <? value_ (failure e (Z.of_nat (length xs))) then out ++ [x] else out)) as Eo.
    { destruct Hxs as [-> | ->]; [by rewrite app_nil_r|done]. }
    assert (total + Z.of_nat (length xs) =
      (if 0 <? value_ (failure e (Z.of_nat (length xs))) then u64 (total + 1) else total)) as Et.
    { destruct Hxs as [-> | ->]; simpl; [lia|]. rewrite u64_small; lia. }
    do 5 eexists. split; [rewrite <- Eo, <- Et; reflexivity|]. split; [|done].
    apply until_error; [done| |lia]. destruct Hxs as [-> | ->]; simpl; set_solver.
Qed.
End read_proofs.

Section write_proofs.
Context {S : Type} `{!WriteStream S, !WriteStreamLaws S}.

Lemma write_all_loop_ok fuel : forall s m ws b total xs,
  written s m ws -> bytes_at m (data b + total) xs -> size b = total + Z.of_nat (length xs) ->
  0 <= total -> size b < 2 ^ 64 -> (length xs < fuel)%nat ->
  (forall j, in_rest b total j -> ~ write_foot s j) ->
  exists r k s' m', write_all_loop fuel b total (s, m) = Some (r, (s', m')) /\
    (k <= length xs)%nat /\ written s' m' (ws ++ take k xs) /\ keeps m m' (write_foot s) (write_foot s') /\
    ((k = length xs /\ r = success (size b)) \/ exists e, r = failure e (total + Z.of_nat k)).
Proof.
  induction fuel as [|fuel IH]; intros s m ws b total xs Hw Hb Hs Ht Hbd Hf Hd; [lia|].
  cbn [write_all_loop]. destruct (Z.ltb_spec total (size b)); cycle 1.
  { assert (xs = []) as -> by (destruct xs; simpl in *; [done|lia]). exists (success total), 0%nat, s, m.
    simpl. rewrite app_nil_r. split; [done|]. split; [done|]. split; [done|]. split; [by intros j|].
    left. split; [done|]. simpl in Hs. by rewrite Hs, Z.add_0_r. }
  set (b' := Buffer (data b + total) (size b - total)).
  destruct (write_some_ok s m ws b' xs) as (r & k & s1 & m1 & Hr & Hk & Hcase & Hw1 & Hkeep);
    [done|done|simpl; lia|simpl; lia|intros j Hj; apply Hd; unfold in_buffer, b' in Hj; simpl in Hj; unfold in_rest; lia|].
  rewrite (prog_bind_ok _ _ _ _ _ Hr). destruct Hcase as [-> |[e ->]].
  - simpl. rewrite u64_small by lia. destruct (Z.eqb_spec (Z.of_nat k) 0).
    { assert (k = 0%nat) as -> by lia. do 4 eexists. split; [reflexivity|]. do 3 (split; [done|]).
      right. by eexists. }
    destruct (IH s1 m1 (ws ++ take k xs) b (total + Z.of_nat k) (drop k xs))
      as (r & k' & s' & m' & Hr' & Hk' & Hw' & Hkeep' & Hcase').
    + done.
    + rewrite Z.add_assoc. eapply keeps_bytes; [exact Hkeep| |].
      * rewrite length_drop. intros j Hj. apply Hd. unfold in_rest. lia.
      * rewrite <- (take_drop k xs) in Hb. apply bytes_at_app in Hb as [_ Hb].
        by rewrite length_take_le in Hb by done.
    + rewrite length_drop. lia.
    + lia.
    + done.
    + rewrite length_drop. lia.
    + intros j Hj. destruct (Hkeep j) as [_ ?]; [apply Hd; unfold in_rest in *; lia| |done].
      destruct (lookup_lt_is_Some_2 xs (Z.to_nat (j - (data b + total)))) as [x Hx]; [unfold in_rest in Hj; lia|].
      exists x. replace j with (data b + total + Z.of_nat (Z.to_nat (j - (data b + total))))
        by (unfold in_rest in Hj; lia). by apply Hb.
    + rewrite length_drop in *. exists r, (k + k')%nat, s', m'. split; [done|]. split; [lia|]. split; [|split].
      * rewrite <- app_assoc in Hw'. by rewrite <- (take_drop_more k (k + k') xs), Nat.add_sub' by lia.
      * by eapply keeps_trans.
      * destruct Hcase' as [[-> ->]|[e ->]]; [left; split; [lia|done]|right; exists e].
        by rewrite Nat2Z.inj_add, Z.add_assoc.
  - rewrite status_failure, bool_decide_eq_true_2 by done. simpl. rewrite u64_small by lia.
    do 4 eexists. split; [reflexivity|]. do 3 (split; [done|]). right. by eexists.
Qed.
End write_proofs.
End transfers.
