(* ===== verification/AnyStream.v ===== *)
(** * Streams behind a pointer

    Models [any_read_stream], [any_write_stream], [owning_any_read_stream] and
    [owning_any_write_stream] of include/forge/io/stream.hpp.  The streams they
    refer to are objects at addresses; the owning ones allocate the object from a
    memory resource, destroy it and give the block back to the same resource.
    The world keeps a ledger of the blocks, so that a block that is freed twice,
    or to another resource, is [None].  Reading and writing differ only in the
    operation that is forwarded. *)
From S2P Require Import Prelude Buffer Result Stream.

#[local] Open Scope prog_scope.

(** ** Objects *)

Record world (S : Type) := World { objects : gmap Z S; blocks : gmap Z Z; bytes_of : memory }.
Arguments World {S}.
Arguments objects {S}.
Arguments blocks {S}.
Arguments bytes_of {S}.

(** The identity of a memory resource; null is 0. *)
Abbreviation resource := Z.

Section any_stream.
Context {S : Type}.
Implicit Types (w : world S) (a : Z) (m : resource).

(** A program on the object at an address. *)
Definition on_object {A} a (p : prog (S * memory) A) : prog (world S) A := fun w =>
  (s ← objects w !! a; '(x, (s', m')) ← p (s, bytes_of w); Some (x, World (<[a := s']> (objects w)) (blocks w) m'))%stdpp.

(** ** Not owning *)

(** [read_] is a pointer to [read_model<Stream>]. *)
Record any_read_stream := AnyReadStream {
  read_object : option Z; read_ : option (Z -> buffer -> prog (world S) io_result) }.

Definition read_model `{ReadStream S} (object : Z) (output : buffer) : prog (world S) io_result :=
  on_object object (read_some output).

Definition no_read_stream : any_read_stream := AnyReadStream None None.
Definition any_read_of `{ReadStream S} (stream : Z) : any_read_stream := AnyReadStream (Some stream) (Some read_model).
Definition any_read_engaged (x : any_read_stream) : bool := match read_ x with Some _ => true | None => false end.
Definition any_read_reset (x : any_read_stream) : any_read_stream := AnyReadStream None None.

Definition any_read_some (x : any_read_stream) (output : buffer) : prog (world S) io_result :=
  match read_ x with
  | None => give (failure (generic bad_address) 0)
  | Some f => o ← defined (read_object x); f o output
  end.

Record any_write_stream := AnyWriteStream {
  write_object : option Z; write_ : option (Z -> buffer -> prog (world S) io_result) }.

Definition write_model `{WriteStream S} (object : Z) (input : buffer) : prog (world S) io_result :=
  on_object object (write_some input).

Definition no_write_stream : any_write_stream := AnyWriteStream None None.
Definition any_write_of `{WriteStream S} (stream : Z) : any_write_stream :=
  AnyWriteStream (Some stream) (Some write_model).
Definition any_write_engaged (x : any_write_stream) : bool := match write_ x with Some _ => true | None => false end.
Definition any_write_reset (x : any_write_stream) : any_write_stream := AnyWriteStream None None.

Definition any_write_some (x : any_write_stream) (input : buffer) : prog (world S) io_result :=
  match write_ x with
  | None => give (failure (generic bad_address) 0)
  | Some f => o ← defined (write_object x); f o input
  end.

(** ** Owning *)

(** Where new blocks are, and the default resource: the library's choice. *)
Context (new_block : world S -> Z) (default_memory_resource : resource).

Definition normalize_memory_resource m : resource := if (m =? 0)%Z then default_memory_resource else m.

Definition allocate_object m : prog (world S) Z := fun w =>
  Some (new_block w, World (objects w) (<[new_block w := m]> (blocks w)) (bytes_of w)).

Definition deallocate_object a m : prog (world S) unit := fun w =>
  (m' ← blocks w !! a; if (m' =? m)%Z then Some (tt, World (objects w) (delete a (blocks w)) (bytes_of w)) else None)%stdpp.

Definition destroy_at a : prog (world S) unit := fun w =>
  (_ ← objects w !! a; Some (tt, World (delete a (objects w)) (blocks w) (bytes_of w)))%stdpp.

Record operations := Operations {
  op_call : Z -> buffer -> prog (world S) io_result;
  op_destroy : Z -> resource -> prog (world S) unit }.

Record owner := Owner { object_ : option Z; operations_ : option operations; memory_ : resource }.

Definition destroy_model (object : Z) (memory : resource) : prog (world S) unit :=
  destroy_at object ;; deallocate_object object memory.

Definition read_operations `{ReadStream S} : operations := Operations read_model destroy_model.
Definition write_operations `{WriteStream S} : operations := Operations write_model destroy_model.

Definition empty_owner : owner := Owner None None default_memory_resource.

(** The constructor from a stream: what it is constructed to is [None] when that
    throws, and then the block is given back and the exception is passed on. *)
Definition own_stream (ops : operations) (stream : option S) (memory : resource) : prog (world S) (option owner) :=
  let m := normalize_memory_resource memory in
  a ← allocate_object m;
  match stream with
  | None => deallocate_object a m ;; give None
  | Some s =>
      modify (fun w => World (<[a := s]> (objects w)) (blocks w) (bytes_of w)) ;;
      give (Some (Owner (Some a) (Some ops) m))
  end.

(** The new owner and what is left of the old one. *)
Definition move_construct (other : owner) : owner * owner :=
  (Owner (object_ other) (operations_ other) (memory_ other), Owner None None (memory_ other)).

Definition owner_reset (x : owner) : prog (world S) owner :=
  match operations_ x with
  | None => give x
  | Some ops =>
      o ← defined (object_ x);
      op_destroy ops o (memory_ x) ;;
      give (Owner None None (memory_ x))
  end.

(** The owner at [this_] is assigned the one at [that]. *)
Definition move_assign (this_ that : Z) (x other : owner) : prog (world S) (owner * owner) :=
  if negb (this_ =? that)%Z then
    x' ← owner_reset x;
    give (Owner (object_ other) (operations_ other) (memory_ other), Owner None None (memory_ other))
  else give (x, other).

Definition owner_engaged (x : owner) : bool := match operations_ x with Some _ => true | None => false end.

Definition owner_call (x : owner) (b : buffer) : prog (world S) io_result :=
  match operations_ x with
  | None => give (failure (generic bad_address) 0)
  | Some ops => o ← defined (object_ x); op_call ops o b
  end.

(** The two classes: an owner with the one table of operations or the other. *)
Definition owning_read (stream : option S) (memory : resource) `{ReadStream S} : prog (world S) (option owner) :=
  own_stream read_operations stream memory.
Definition owning_read_some (x : owner) (output : buffer) : prog (world S) io_result := owner_call x output.

Definition owning_write (stream : option S) (memory : resource) `{WriteStream S} : prog (world S) (option owner) :=
  own_stream write_operations stream memory.
Definition owning_write_some (x : owner) (input : buffer) : prog (world S) io_result := owner_call x input.
Definition owning_write_move (other : owner) : owner * owner := move_construct other.
Definition owning_write_assign (this_ that : Z) (x other : owner) : prog (world S) (owner * owner) :=
  move_assign this_ that x other.
Definition owning_write_reset (x : owner) : prog (world S) owner := owner_reset x.

(** ** Every block is given back once, to its resource *)

Definition live (x : owner) (a : Z) (m : resource) : Prop :=
  (exists ops, operations_ x = Some ops /\ op_destroy ops = destroy_model) /\ object_ x = Some a /\ memory_ x = m.

(** The owners [os] own all the objects and blocks of the world, each one its own. *)
Record owners_ok w (os : gmap Z owner) : Prop := OwnersOk {
  oo_live : forall i x, os !! i = Some x -> operations_ x = None \/ exists a m, live x a m;
  oo_apart : forall i j x y a m m', os !! i = Some x -> os !! j = Some y -> live x a m -> live y a m' -> i = j;
  oo_blocks : forall a m, blocks w !! a = Some m <-> exists i x, os !! i = Some x /\ live x a m;
  oo_objects : forall a, is_Some (objects w !! a) <-> is_Some (blocks w !! a);
}.

Lemma not_live x a m : operations_ x = None -> ~ live x a m.
Proof. intros H [[ops [H' _]] _]. congruence. Qed.

Lemma live_same x a m a' m' : live x a m -> live x a' m' -> a = a' /\ m = m'.
Proof. intros (_ & E1 & <-) (_ & E2 & <-). split; [congruence|done]. Qed.

(** [destroy_model] takes the object and the block of a live owner. *)
Definition without (a : Z) w : world S := World (delete a (objects w)) (delete a (blocks w)) (bytes_of w).

Lemma reset_run w os i x :
  owners_ok w os -> os !! i = Some x ->
  (operations_ x = None /\ owner_reset x w = Some (x, w)) \/
  exists a m, live x a m /\ owner_reset x w = Some (Owner None None m, without a w).
Proof.
  intros O Hx. unfold owner_reset. destruct (oo_live _ _ O i x Hx) as [E|(a & m & L)]; [left; by rewrite E|right].
  exists a, m. split; [done|]. pose proof L as ((ops & -> & Ed) & -> & <-).
  assert (blocks w !! a = Some (memory_ x)) as Hb by (apply (oo_blocks _ _ O); eauto).
  destruct (proj2 (oo_objects _ _ O a)) as [s Hs]; [eauto|].
  rewrite prog_defined_bind, Ed. unfold destroy_model, destroy_at, deallocate_object, after. rewrite Hs. simpl.
  rewrite Hb. simpl. by rewrite Z.eqb_refl.
Qed.

(** An owner that is not live can be replaced by another one, or go. *)
Lemma owners_replace w os i x :
  owners_ok w os -> (forall y, os !! i = Some y -> operations_ y = None) -> operations_ x = None ->
  owners_ok w (<[i := x]> os) /\ owners_ok w (delete i os).
Proof.
  intros [H1 H2 H3 H4] Hi Hx.
  assert (forall j y a m, live y a m -> <[i := x]> os !! j = Some y <-> os !! j = Some y) as Hins.
  { intros j y a m L. destruct (decide (i = j)) as [<-|]; [|by rewrite lookup_insert_ne].
    rewrite lookup_insert_eq. split; [intros [= ->]; by apply not_live in L|].
    intros E. apply Hi in E. by apply not_live in L. }
  assert (forall j y a m, live y a m -> delete i os !! j = Some y <-> os !! j = Some y) as Hdel.
  { intros j y a m L. destruct (decide (i = j)) as [<-|]; [|by rewrite lookup_delete_ne].
    rewrite lookup_delete_eq. split; [done|]. intros E. apply Hi in E. by apply not_live in L. }
  split; split; try done.
  - intros j y. rewrite lookup_insert_Some. intros [[<- <-]|[_ E]]; [by left|by eapply H1].
  - intros j k y z a m m' Ey Ez Ly Lz. eapply H2; [by apply (Hins _ _ a m)|by apply (Hins _ _ a m')|done|done].
  - intros a m. rewrite H3. split; intros (j & y & E & L); exists j, y; (split; [by eapply Hins|done]).
  - intros j y [_ E]%lookup_delete_Some. by eapply H1.
  - intros j k y z a m m' Ey Ez Ly Lz. eapply H2; [by apply (Hdel _ _ a m)|by apply (Hdel _ _ a m')|done|done].
  - intros a m. rewrite H3. split; intros (j & y & E & L); exists j, y; (split; [by eapply Hdel|done]).
Qed.

(** The owner of a block goes with it. *)
Lemma owners_without w os i x y a m :
  owners_ok w os -> os !! i = Some x -> live x a m -> operations_ y = None ->
  owners_ok (without a w) (<[i := y]> os).
Proof.
  intros [H1 H2 H3 H4] Hx Lx Hy. split.
  - intros j z. rewrite lookup_insert_Some. intros [[<- <-]|[_ E]]; [by left|by eapply H1].
  - intros j k z z' b n n' [[<- <-]|[_ E]]%lookup_insert_Some [[<- <-]|[_ E']]%lookup_insert_Some L L'; try done;
      [by apply not_live in L|by apply not_live in L'|by eapply H2].
  - intros b n. simpl. rewrite lookup_delete_Some, H3. split.
    + intros [Hne (j & z & E & L)]. exists j, z. split; [|done]. rewrite lookup_insert_ne; [done|].
      intros <-. rewrite Hx in E. simplify_eq. by destruct (live_same _ _ _ _ _ L Lx).
    + intros (j & z & [[<- <-]|[Hne E]]%lookup_insert_Some & L); [by apply not_live in L|].
      split; [|eauto]. intros ->. apply Hne. by eapply H2.
  - intros b. simpl. destruct (decide (a = b)) as [<-|]; [by rewrite !lookup_delete_eq|].
    by rewrite !lookup_delete_ne.
Qed.

Lemma owner_reset_ok w os i x :
  owners_ok w os -> os !! i = Some x ->
  exists x' w', owner_reset x w = Some (x', w') /\ operations_ x' = None /\ owners_ok w' (<[i := x']> os) /\
    owners_ok w' (delete i os).
Proof.
  intros O Hx. destruct (reset_run w os i x O Hx) as [[E ->]|(a & m & L & ->)].
  - exists x, w. split; [done|]. split; [done|]. apply owners_replace; [done| |done]. intros y. rewrite Hx. by intros [= <-].
  - exists (Owner None None m), (without a w). split; [done|]. split; [done|].
    assert (owners_ok (without a w) (<[i := Owner None None m]> os)) as O' by by eapply owners_without.
    split; [done|]. rewrite <- (delete_insert_eq os i (Owner None None m)).
    apply (owners_replace _ _ _ (Owner None None m) O'); [|done]. intros y. rewrite lookup_insert_eq. by intros [= <-].
Qed.

(** Moving: what the one owned the other one owns. *)
Lemma owners_move w os i j x :
  owners_ok w os -> os !! j = Some x -> i <> j -> (forall y, os !! i = Some y -> operations_ y = None) ->
  owners_ok w (<[j := Owner None None (memory_ x)]> (<[i := Owner (object_ x) (operations_ x) (memory_ x)]> os)).
Proof.
  intros [H1 H2 H3 H4] Hx Hne Hi.
  assert (forall k y a m, <[j := Owner None None (memory_ x)]> (<[i := Owner (object_ x) (operations_ x) (memory_ x)]> os) !! k =
    Some y -> live y a m -> exists k', os !! k' = Some (if decide (k = i) then x else y) /\
      (k = i /\ k' = j \/ k <> i /\ k' = k) /\ live (if decide (k = i) then x else y) a m) as Hold.
  { intros k y a m E L. apply lookup_insert_Some in E as [[<- <-]|[Hk E]]; [by apply not_live in L|].
    apply lookup_insert_Some in E as [[<- <-]|[Hk' E]].
    - exists j. rewrite decide_True by done. split; [done|]. split; [by left|exact L].
    - exists k. rewrite decide_False by done. split; [done|]. split; [by right|exact L]. }
  split; try done.
  - intros k y. rewrite !lookup_insert_Some. intros [[<- <-]|[_ [[<- <-]|[_ E]]]]; [by left| |by eapply H1].
    destruct (H1 j x Hx) as [E|(a & m & L)]; [by left|right; by exists a, m].
  - intros k l y z a m m' Ey Ez Ly Lz. destruct (Hold _ _ _ _ Ey Ly) as (k' & Ek & Hk & Lk).
    destruct (Hold _ _ _ _ Ez Lz) as (l' & El & Hl & Ll). pose proof (H2 _ _ _ _ _ _ _ Ek El Lk Ll).
    destruct Hk as [[-> ->]|[? ->]], Hl as [[-> ->]|[? ->]]; try done; subst;
      [apply lookup_insert_Some in Ez as [[_ <-]|[? _]]; [by apply not_live in Lz|done]
      |apply lookup_insert_Some in Ey as [[_ <-]|[? _]]; [by apply not_live in Ly|done]].
  - intros a m. rewrite H3. split.
    + intros (k & y & E & L). destruct (decide (k = j)) as [->|Hk].
      * assert (y = x) as -> by congruence. exists i, (Owner (object_ x) (operations_ x) (memory_ x)).
        split; [|exact L]. by rewrite lookup_insert_ne, lookup_insert_eq.
      * exists k, y. split; [|done]. rewrite !lookup_insert_ne; [done| |done].
        intros <-. apply Hi in E. by apply not_live in L.
    + intros (k & y & E & L). destruct (Hold _ _ _ _ E L) as (k' & Ek & _ & Lk). eauto.
Qed.

Lemma stream_move_assign_ok w os i j x other :
  owners_ok w os -> os !! i = Some x -> os !! j = Some other ->
  exists x' other' w', move_assign i j x other w = Some ((x', other'), w') /\
    owners_ok w' (<[j := other']> (<[i := x']> os)).
Proof.
  intros O Hx Hj. unfold move_assign. destruct (Z.eqb_spec i j) as [<-|Hne]; simpl.
  { assert (other = x) as -> by congruence. exists x, x, w. split; [done|]. by rewrite insert_insert_eq, insert_id. }
  destruct (owner_reset_ok w os i x O Hx) as (x' & w' & Hr & Hx' & O' & _).
  rewrite (prog_bind_ok _ _ _ _ _ Hr). do 3 eexists. split; [reflexivity|].
  pose proof (owners_move w' (<[i := x']> os) i j other O') as Hm. rewrite insert_insert_eq in Hm.
  apply Hm; [by rewrite lookup_insert_ne|done|]. intros y. rewrite lookup_insert_eq. by intros [= <-].
Qed.

(** A stream that is referred to does what it does; without one the result is [bad_address]. *)
Lemma on_object_ok {A} w a s (p : prog (S * memory) A) r s' mem' :
  objects w !! a = Some s -> p (s, bytes_of w) = Some (r, (s', mem')) ->
  on_object a p w = Some (r, World (<[a := s']> (objects w)) (blocks w) mem').
Proof. intros Hs Hp. unfold on_object. rewrite Hs. simpl. by rewrite Hp. Qed.

Lemma any_read_forwards `{ReadStream S} w a s output r s' mem' :
  objects w !! a = Some s -> read_some output (s, bytes_of w) = Some (r, (s', mem')) ->
  any_read_some (any_read_of a) output w = Some (r, World (<[a := s']> (objects w)) (blocks w) mem') /\
  any_read_some (any_read_reset (any_read_of a)) output w = Some (failure (generic bad_address) 0, w).
Proof. intros Hs Hr. split; [by apply on_object_ok with s|done]. Qed.

Lemma any_write_forwards `{WriteStream S} w a s input r s' mem' :
  objects w !! a = Some s -> write_some input (s, bytes_of w) = Some (r, (s', mem')) ->
  any_write_some (any_write_of a) input w = Some (r, World (<[a := s']> (objects w)) (blocks w) mem') /\
  any_write_some (any_write_reset (any_write_of a)) input w = Some (failure (generic bad_address) 0, w).
Proof. intros Hs Hr. split; [by apply on_object_ok with s|done]. Qed.

Context (new_block_fresh : forall w, blocks w !! new_block w = None).
#[local] Set Default Proof Using "All".

(** The constructor: a new owner of a new object, or everything as it was. *)
Lemma own_stream_ok w os i ops stream memory :
  owners_ok w os -> op_destroy ops = destroy_model -> os !! i = None ->
  exists res w', own_stream ops stream memory w = Some (res, w') /\
    match res with
    | Some x => stream <> None /\ owners_ok w' (<[i := x]> os) /\ memory_ x = normalize_memory_resource memory
    | None => stream = None /\ w' = w
    end.
Proof.
  intros O Hd Hi. pose proof O as [H1 H2 H3 H4]. unfold own_stream, allocate_object, after.
  pose proof (new_block_fresh w) as Hf. set (a := new_block w) in *. set (m := normalize_memory_resource memory).
  destruct stream as [s|].
  - do 2 eexists. split; [reflexivity|]. split; [done|]. split; [|done].
    assert (live (Owner (Some a) (Some ops) m) a m) as La by (split; [eauto|done]).
    assert (forall j y n, os !! j = Some y -> ~ live y a n) as Hna.
    { intros j y n E L. assert (blocks w !! a = Some n) by (apply H3; eauto). congruence. }
    split; simpl.
    + intros j y. rewrite lookup_insert_Some. intros [[<- <-]|[_ E]]; [right; eauto|by eapply H1].
    + intros j k y z b n n' [[<- <-]|[? E]]%lookup_insert_Some [[<- <-]|[? E']]%lookup_insert_Some L L'; try done.
      * destruct (live_same _ _ _ _ _ L La) as [-> _]. by destruct (Hna _ _ _ E' L').
      * destruct (live_same _ _ _ _ _ L' La) as [-> _]. by destruct (Hna _ _ _ E L).
      * by eapply H2.
    + intros b n. rewrite lookup_insert_Some, H3. split.
      * intros [[<- <-]|[Hne (j & y & E & L)]]; [exists i; eexists; split; [apply lookup_insert_eq|done]|].
        exists j, y. split; [|done]. rewrite lookup_insert_ne; [done|congruence].
      * intros (j & y & [[<- <-]|[Hne E]]%lookup_insert_Some & L).
        -- left. by destruct (live_same _ _ _ _ _ L La) as [-> ->].
        -- right. split; [|eauto]. intros <-. by apply (Hna _ _ _ E L).
    + intros b. destruct (decide (a = b)) as [<-|]; [rewrite !lookup_insert_eq; split; eauto|].
      by rewrite !lookup_insert_ne.
  - unfold deallocate_object, give. simpl. rewrite lookup_insert_eq. simpl. rewrite Z.eqb_refl, delete_insert_id by done.
    do 2 eexists. split; [reflexivity|]. by destruct w.
Qed.
End any_stream.
