(* ===== verification/MemoryStream.v ===== *)
(** * Streams over memory

    Models [memory_read_stream], [memory_write_stream] and [memory_stream] of
    include/forge/io/memory_stream.hpp.  The write stream either fills a buffer
    it was lent or grows a vector of its own; since [bytes()] shows the vector,
    the bytes to write may be in it, and growing it would free them: the code
    copies them first. *)
From S2P Require Import Prelude Buffer Result Vector Stream.
From Stdlib Require Import Strings.Byte.

#[local] Open Scope Z_scope.
#[local] Open Scope prog_scope.
Implicit Types (m : memory) (b : buffer) (xs ys ws : list byte).

Definition dynamic_extent_limit : Z := 2 ^ 64 - 1.

(** ** Reading *)

Record memory_read_stream := MemoryReadStream {
  rs_input : buffer; rs_position : Z; rs_max_read_size : Z }.

Definition open_read (input : buffer) (max_read_size : Z) : memory_read_stream :=
  MemoryReadStream input 0 max_read_size.

Definition remaining (s : memory_read_stream) : Z := u64 (size (rs_input s) - rs_position s).
Definition rs_eof (s : memory_read_stream) : bool := remaining s =? 0.
Definition reset (s : memory_read_stream) : memory_read_stream :=
  MemoryReadStream (rs_input s) 0 (rs_max_read_size s).

Definition memory_read_some (output : buffer) : prog (memory_read_stream * memory) io_result :=
  if buffer_empty output then give (success 0)
  else
    s ← get_stream;
    if rs_eof s then give (end_of_file 0)
    else
      let transfer_limit := if rs_max_read_size s =? 0 then dynamic_extent_limit else rs_max_read_size s in
      let count := Z.min (Z.min (size output) (remaining s)) transfer_limit in
      on_memory (buffer_copy (buffer_prefix count output) (Buffer (data (rs_input s) + rs_position s) count)) ;;
      put_stream (MemoryReadStream (rs_input s) (u64 (rs_position s + count)) (rs_max_read_size s)) ;;
      give (success count).

#[export] Instance memory_read : ReadStream memory_read_stream := memory_read_some.

(** ** Writing *)

Section writing.
Context `{Allocator}.

Definition copy_to_vector (input : buffer) : prog memory vector :=
  bytes ← vec_make (size input);
  buffer_copy (Buffer (vec_data bytes) (vec_size bytes)) input ;;
  give bytes.

Record memory_write_stream := MemoryWriteStream {
  ws_output : buffer; ws_storage : vector; ws_position : Z; ws_capacity : Z; ws_borrowed : bool }.

Definition empty_write_stream : memory_write_stream :=
  MemoryWriteStream empty_buffer empty_vector 0 dynamic_extent_limit false.

Definition open_write (capacity : Z) : prog memory memory_write_stream :=
  storage ← (if negb (capacity =? dynamic_extent_limit) then vec_reserve empty_vector capacity
             else give empty_vector);
  give (MemoryWriteStream empty_buffer storage 0 capacity false).

Definition open_borrowed (output : buffer) : memory_write_stream :=
  MemoryWriteStream output empty_vector 0 (size output) true.

Definition ws_size (w : memory_write_stream) : Z :=
  if ws_borrowed w then ws_position w else vec_size (ws_storage w).

Definition remaining_capacity (w : memory_write_stream) : Z :=
  if ws_capacity w =? dynamic_extent_limit then dynamic_extent_limit
  else let current := ws_size w in if current <? ws_capacity w then ws_capacity w - current else 0.

(** [bytes()]: the span of what was written. *)
Definition ws_bytes (w : memory_write_stream) : buffer :=
  if ws_borrowed w then Buffer (data (ws_output w)) (ws_position w)
  else Buffer (vec_data (ws_storage w)) (vec_size (ws_storage w)).

Definition with_position (w : memory_write_stream) (p : Z) : memory_write_stream :=
  MemoryWriteStream (ws_output w) (ws_storage w) p (ws_capacity w) (ws_borrowed w).
Definition with_storage (w : memory_write_stream) (v : vector) : memory_write_stream :=
  MemoryWriteStream (ws_output w) v (ws_position w) (ws_capacity w) (ws_borrowed w).

Definition clear (w : memory_write_stream) : memory_write_stream :=
  if ws_borrowed w then with_position w 0 else with_storage w (vec_clear (ws_storage w)).

(** The input to copy from, and the copy of it that was made if it is in the storage. *)
Definition stage_input (storage : vector) (count : Z) (input : buffer) : prog memory (buffer * vector) :=
  let old_size := vec_size storage in
  let begin_ := vec_data storage in
  if negb (old_size =? 0) && negb (data input <? begin_) && (data input <? begin_ + old_size) then
    staged_input ← copy_to_vector (buffer_prefix count input);
    give (Buffer (vec_data staged_input) (vec_size staged_input), staged_input)
  else give (input, empty_vector).

Definition memory_write_some (input : buffer) : prog (memory_write_stream * memory) io_result :=
  if buffer_empty input then give (success 0)
  else
    w ← get_stream;
    let count := if ws_capacity w =? dynamic_extent_limit then size input
                 else Z.min (size input) (remaining_capacity w) in
    if count =? 0 then give (success 0)
    else if ws_borrowed w then
      on_memory (buffer_copy (Buffer (data (ws_output w) + ws_position w) count) (buffer_prefix count input)) ;;
      put_stream (with_position w (u64 (ws_position w + count))) ;;
      give (success count)
    else
      let old_size := vec_size (ws_storage w) in
      if u64 (max_size - old_size) <? count then give (failure (generic value_too_large) 0)
      else
        staged ← on_memory (stage_input (ws_storage w) count input);
        storage ← on_memory (vec_resize (ws_storage w) (u64 (old_size + count)));
        put_stream (with_storage w storage) ;;
        on_memory (buffer_copy (Buffer (vec_data storage + old_size) count) (buffer_prefix count (fst staged))) ;;
        on_memory (vec_destroy (snd staged)) ;;
        give (success count).

#[export] Instance memory_write : WriteStream memory_write_stream := memory_write_some.

(** ** Both *)

Record memory_stream := MemoryStream { reader_ : memory_read_stream; writer_ : memory_write_stream }.

Definition open_input (input : buffer) : memory_stream :=
  MemoryStream (open_read input dynamic_extent_limit) empty_write_stream.

Definition open_both (input : buffer) (write_capacity : Z) : prog memory memory_stream :=
  writer ← open_write write_capacity;
  give (MemoryStream (open_read input dynamic_extent_limit) writer).

Definition open_both_borrowed (input output : buffer) : memory_stream :=
  MemoryStream (open_read input dynamic_extent_limit) (open_borrowed output).

Definition with_reader {A} (p : prog (memory_read_stream * memory) A) : prog (memory_stream * memory) A :=
  fun '(s, m) =>
    match p (reader_ s, m) with Some (a, (r, m')) => Some (a, (MemoryStream r (writer_ s), m')) | None => None end.
Definition with_writer {A} (p : prog (memory_write_stream * memory) A) : prog (memory_stream * memory) A :=
  fun '(s, m) =>
    match p (writer_ s, m) with Some (a, (w, m')) => Some (a, (MemoryStream (reader_ s) w, m')) | None => None end.

Definition memory_stream_read_some (output : buffer) : prog (memory_stream * memory) io_result :=
  with_reader (read_some output).
Definition memory_stream_write_some (input : buffer) : prog (memory_stream * memory) io_result :=
  with_writer (write_some input).

#[export] Instance memory_stream_read : ReadStream memory_stream := memory_stream_read_some.
#[export] Instance memory_stream_write : WriteStream memory_stream := memory_stream_write_some.
Definition written_bytes (s : memory_stream) : buffer := ws_bytes (writer_ s).
End writing.

(** ** The read stream keeps its promise *)

Definition read_pending (s : memory_read_stream) (m : memory) (its : list item) : Prop :=
  exists before xs, its = bytes xs /\ bytes_at m (data (rs_input s)) (before ++ xs) /\
    rs_position s = Z.of_nat (length before) /\ size (rs_input s) = Z.of_nat (length (before ++ xs)) /\
    size (rs_input s) < 2 ^ 64 /\ 0 <= rs_max_read_size s.

(** A buffer that is a prefix of another. *)
Lemma prefix_copy m b c n xs old :
  bytes_at m (data b) old -> size b = Z.of_nat (length old) -> bytes_at m (data c) xs ->
  (n <= length old)%nat -> (n <= length xs)%nat ->
  exists m', buffer_copy (buffer_prefix (Z.of_nat n) b) (Buffer (data c) (Z.of_nat n)) m = Some (Z.of_nat n, m') /\
    bytes_at m' (data b) (take n xs ++ drop n old) /\ changed_only m m' (data b) n.
Proof.
  intros Hb Hs Hx Hn Hn'.
  assert (bytes_at m (data b) (take n old) /\ bytes_at m (data b + Z.of_nat n) (drop n old)) as [Hb1 Hb2].
  { rewrite <- (take_drop n old) in Hb. apply bytes_at_app in Hb. by rewrite length_take_le in Hb by done. }
  assert (bytes_at m (data c) (take n xs)) as Hx1.
  { rewrite <- (take_drop n xs) in Hx. by apply bytes_at_app in Hx as [? _]. }
  destruct (buffer_copy_ok m (buffer_prefix (Z.of_nat n) b) (Buffer (data c) (Z.of_nat n)) (take n xs) (take n old))
    as (m' & Hc & Hb' & Hch); [done|simpl; rewrite length_take; lia|done|simpl; rewrite length_take; lia|].
  rewrite !length_take_le, Nat.min_id in * by done. exists m'. split; [exact Hc|]. split; [|exact Hch].
  rewrite take_take, Nat.min_id, drop_ge, app_nil_r in Hb' by (rewrite length_take; lia).
  apply bytes_at_app. split; [exact Hb'|]. rewrite length_take_le by done.
  eapply bytes_at_outside; [exact Hch| |done]. simpl. lia.
Qed.

#[export] Program Instance memory_read_laws : ReadStreamLaws memory_read_stream := {|
  pending := read_pending;
  read_foot s := in_buffer (rs_input s);
|}.
Next Obligation.
  intros s m m' its (before & xs & Hits & Hb & Hp & Hs & Hl & Hm) Hf. exists before, xs.
  split_and!; try done. intros i x Hi. pose proof (lookup_lt_Some _ _ _ Hi).
  rewrite Hf; [by apply Hb|]. unfold in_buffer. lia.
Qed.
Next Obligation.
  intros s m its j (before & xs & _ & Hb & _ & Hs & _) Hj. unfold in_buffer in Hj.
  destruct (lookup_lt_is_Some_2 (before ++ xs) (Z.to_nat (j - data (rs_input s)))) as [x Hx]; [lia|].
  exists x. replace j with (data (rs_input s) + Z.of_nat (Z.to_nat (j - data (rs_input s)))) by lia. by apply Hb.
Qed.
Next Obligation.
  intros s m b Hb. unfold read_some, memory_read, memory_read_some, buffer_empty. by rewrite Hb.
Qed.
Next Obligation.
  intros s m its b old (before & xs & -> & Hb & Hp & Hs & Hl & Hm) Hold Hsize Hrange Hd.
  unfold read_some, memory_read, memory_read_some, buffer_empty. zb. rewrite get_stream_bind.
  rewrite length_app in Hs. assert (remaining s = Z.of_nat (length xs)) as Hrem.
  { unfold remaining. rewrite u64_small; lia. }
  unfold rs_eof. rewrite Hrem. destruct (Z.eqb_spec (Z.of_nat (length xs)) 0) as [E0|Hne].
  { assert (xs = []) as -> by (destruct xs; done). exists (end_of_file 0), [], [], s, m.
    split; [done|]. split; [by apply some_read_eof|]. split; [|done].
    exists before, []. split; [done|]. split; [done|]. rewrite length_app. simpl in *. lia. }
  set (limit := if rs_max_read_size s =? 0 then dynamic_extent_limit else rs_max_read_size s).
  assert (0 < limit) as Hlim. { unfold limit, dynamic_extent_limit. case_zb; lia. }
  set (n := Z.to_nat (Z.min (Z.min (size b) (Z.of_nat (length xs))) limit)).
  assert (Z.min (Z.min (size b) (Z.of_nat (length xs))) limit = Z.of_nat n) as Hn by lia.
  assert (0 < n <= length xs /\ n <= length old)%nat as [Hnx Hno] by lia. rewrite Hn.
  apply bytes_at_app in Hb as [Hb1 Hb2].
  destruct (prefix_copy m b (Buffer (data (rs_input s) + rs_position s) (Z.of_nat n)) n xs old)
    as (m' & Hc & Hb' & Hch); [done|done|simpl; by rewrite Hp|lia|lia|].
  rewrite (on_memory_bind _ _ _ _ _ _ Hc), put_stream_bind.
  assert (length (take n xs) = n) as Hlt by (apply length_take_le; lia).
  exists (success (Z.of_nat n)), (take n xs), (bytes (drop n xs)). do 2 eexists. split; [reflexivity|].
  split; [|split; [|split; [|split]]].
  - replace (success (Z.of_nat n)) with (success (Z.of_nat (length (take n xs)))) by by rewrite Hlt.
    apply some_read_bytes; [|lia]. unfold bytes. by rewrite <- fmap_app, take_drop.
  - exists (before ++ take n xs), (drop n xs). simpl. split; [done|].
    rewrite <- app_assoc, take_drop. split; [|rewrite !length_app, Hlt, u64_small by lia; lia].
    assert (forall a ys, bytes_at m a ys -> (forall i, (i < length ys)%nat -> in_buffer (rs_input s) (a + Z.of_nat i)) ->
      bytes_at m' a ys) as Hkeep.
    { intros a ys Hy Hin i x Hi. pose proof (lookup_lt_Some _ _ _ Hi). rewrite (proj1 Hch); [by apply Hy|].
      intros Hj. apply (Hd (a + Z.of_nat i)); [unfold in_buffer; lia|by apply Hin]. }
    apply bytes_at_app. split; (apply Hkeep; [done|]); intros i Hi; unfold in_buffer; lia.
  - by rewrite Hlt.
  - done.
  - intros j Hj _. apply Hch. unfold in_buffer in Hj. lia.
Qed.

(** ** The write stream *)

Section write_proofs.
Context `{Allocator}.

(** The stream [w] has accepted the bytes [ws]. *)
Definition write_rep (w : memory_write_stream) (m : memory) (ws : list byte) : Prop :=
  0 <= ws_capacity w < 2 ^ 64 /\ Z.of_nat (length ws) <= ws_capacity w /\
  if ws_borrowed w then
    bytes_at m (data (ws_output w)) ws /\ ws_position w = Z.of_nat (length ws) /\
    size (ws_output w) = ws_capacity w /\ ws_capacity w < dynamic_extent_limit /\
    (forall j, in_buffer (ws_output w) j -> is_Some (m !! j))
  else vec_ok m (ws_storage w) ws /\ Z.of_nat (length ws) <= max_size.

Definition write_own (w : memory_write_stream) (j : Z) : Prop :=
  if ws_borrowed w then in_buffer (ws_output w) j else own (ws_storage w) j.

Lemma write_own_dec w j : Decision (write_own w j).
Proof. unfold write_own, in_buffer. destruct (ws_borrowed w); apply _. Defined.

(** How many of [n] bytes the capacity lets through. *)
Definition room (w : memory_write_stream) (ws : list byte) (n : nat) : nat :=
  if ws_capacity w =? dynamic_extent_limit then n
  else Nat.min n (Z.to_nat (ws_capacity w) - length ws).

Definition same_kind (w w' : memory_write_stream) : Prop :=
  ws_capacity w' = ws_capacity w /\ ws_borrowed w' = ws_borrowed w /\ ws_output w' = ws_output w.

(** Where the bytes to write may be: outside the storage, or in what was written to it. *)
Definition source_ok (v : vector) (input : buffer) : Prop :=
  (forall j, in_buffer input j -> ~ own v j) \/
  (vec_data v <= data input /\ data input + size input <= vec_data v + vec_size v).

Definition input_ok (w : memory_write_stream) (input : buffer) : Prop :=
  ws_borrowed w = true \/ source_ok (ws_storage w) input.

Lemma size_ws w m ws : write_rep w m ws -> ws_size w = Z.of_nat (length ws).
Proof.
  intros (_ & _ & Hr). unfold ws_size. destruct (ws_borrowed w); [by destruct Hr as (_ & ? & _)|].
  by destruct Hr as [[_ ? _ _] _].
Qed.

Lemma remaining_ws w m ws n :
  write_rep w m ws ->
  (if ws_capacity w =? dynamic_extent_limit then Z.of_nat n else Z.min (Z.of_nat n) (remaining_capacity w)) =
  Z.of_nat (room w ws n).
Proof.
  intros Hr. pose proof (size_ws _ _ _ Hr) as Hs. destruct Hr as (Hc & Hl & _). unfold remaining_capacity, room.
  destruct (ws_capacity w =? dynamic_extent_limit); [done|]. rewrite Hs. cbn zeta. case_zb; lia.
Qed.

Context `{!AllocatorLaws}.
#[local] Set Default Proof Using "All".

Lemma copy_to_vector_ok m b xs :
  bytes_at m (data b) xs -> size b = Z.of_nat (length xs) ->
  exists v m', copy_to_vector b m = Some (v, m') /\ vec_ok m' v xs /\
    (forall j, is_Some (m !! j) -> m' !! j = m !! j /\ ~ own v j).
Proof.
  intros Hb Hs. unfold copy_to_vector. destruct (vec_make_ok m (size b)) as (v & m1 & Hm & Hv & Hk); [lia|].
  rewrite (prog_bind_ok _ _ _ _ _ Hm). pose proof Hv as [Hvb Hvs Hvf Hvm]. rewrite length_replicate in Hvs.
  destruct (buffer_copy_ok m1 (Buffer (vec_data v) (vec_size v)) b xs (replicate (Z.to_nat (size b)) x00))
    as (m2 & Hc & Hb2 & Hch); [done|simpl; rewrite length_replicate; lia| |done|].
  { intros i x Hi. destruct (Hk (data b + Z.of_nat i)) as [-> _]; [by rewrite (Hb i x Hi)|by apply Hb]. }
  rewrite (prog_bind_ok _ _ _ _ _ Hc). exists v, m2. split; [done|].
  rewrite length_replicate, Hs, Nat2Z.id, Nat.min_id in *. simpl in *.
  rewrite take_ge, drop_ge, app_nil_r in Hb2 by (rewrite ?length_replicate; lia). split.
  - split; [done|lia|lia|]. intros j Hj. by apply Hch, Hvm.
  - intros j Hj. destruct (Hk j Hj) as [E Ho]. split; [|done]. rewrite <- E. apply Hch. unfold own in Ho. lia.
Qed.

Lemma stage_input_ok m v ws b xs n :
  vec_ok m v ws -> bytes_at m (data b) xs -> size b = Z.of_nat (length xs) -> (0 < n <= length xs)%nat ->
  source_ok v b ->
  exists b' st m', stage_input v (Z.of_nat n) b m = Some ((b', st), m') /\ vec_ok m' v ws /\
    bytes_at m' (data b') (take n xs) /\ Z.of_nat n <= size b' /\
    (forall j, data b' <= j < data b' + Z.of_nat n -> ~ own v j) /\
    (forall j, is_Some (m !! j) -> m' !! j = m !! j /\ ~ own st j) /\
    (forall j, own st j -> is_Some (m' !! j)).
Proof.
  intros Hv Hb Hs Hn Hsrc. pose proof Hv as [Hvb Hvs Hvf Hvm]. unfold stage_input.
  assert (bytes_at m (data b) (take n xs)) as Hbt.
  { rewrite <- (take_drop n xs) in Hb. by apply bytes_at_app in Hb as [? _]. }
  destruct (negb (vec_size v =? 0) && negb (data b <? vec_data v) && (data b <? vec_data v + vec_size v)) eqn:E.
  - assert (Z.of_nat n = Z.min (Z.of_nat n) (size b)) as Hmin by lia.
    destruct (copy_to_vector_ok m (buffer_prefix (Z.of_nat n) b) (take n xs)) as (st & m' & Hc & Hst & Hk);
      [done|simpl; rewrite length_take; lia|].
    rewrite (prog_bind_ok _ _ _ _ _ Hc). pose proof Hst as [Hsb Hss Hsf Hsm]. rewrite length_take_le in Hss by lia.
    do 3 eexists. split; [reflexivity|]. split; [|split; [done|split; [simpl; lia|split; [|done]]]].
    + split; [|done|done|].
      * intros i x Hi. pose proof (Hvb i x Hi) as Hx.
        destruct (Hk (vec_data v + Z.of_nat i)) as [-> _]; [by rewrite Hx|done].
      * intros j Hj. destruct (Hk j (Hvm j Hj)) as [-> _]. by apply Hvm.
    + simpl. intros j Hj Ho. destruct (Hk j (Hvm j Ho)) as [_ Hns]. apply Hns. unfold own. lia.
  - exists b, empty_vector, m. split; [done|]. split; [done|]. split; [done|]. split; [lia|].
    split; [|split; [intros j _; split; [done|]|intros j]; unfold own; simpl; lia].
    destruct Hsrc as [Ho|[H1 H2]]; [intros j Hj; apply Ho; unfold in_buffer; lia|].
    apply andb_false_iff in E as [E|E]; [apply andb_false_iff in E as [E|E]|].
    + apply negb_false_iff, Z.eqb_eq in E. lia.
    + apply negb_false_iff, Z.ltb_lt in E. lia.
    + apply Z.ltb_ge in E. lia.
Qed.

Lemma stage_input_mapped v n b b' st m m1 j :
  stage_input v n b m = Some ((b', st), m1) -> is_Some (m1 !! j) -> own st j \/ is_Some (m !! j).
Proof.
  unfold stage_input, copy_to_vector, vec_make, after. destruct (_ && _); [|intros [= _ <- <-]; by right].
  destruct (vec_resize _ _ m) as [[v2 m2]|] eqn:Er; [|done]. destruct (buffer_copy _ _ m2) as [[k m3]|] eqn:Ec; [|done].
  intros [= _ <- <-] Hj. apply (buffer_copy_mapped _ _ _ _ _ _ Ec) in Hj.
  destruct (vec_resize_no_more _ _ _ _ _ Er j Hj) as [|[? _]]; [by left|by right].
Qed.

(** Growing the storage and copying the input behind what it holds. *)
Lemma append_ok m v ws b xs n :
  vec_ok m v ws -> bytes_at m (data b) xs -> size b = Z.of_nat (length xs) -> (0 < n <= length xs)%nat ->
  source_ok v b ->
  exists b' st v' m1 m2 m3 m4, stage_input v (Z.of_nat n) b m = Some ((b', st), m1) /\
    vec_resize v (Z.of_nat (length ws + n)) m1 = Some (v', m2) /\
    buffer_copy (Buffer (vec_data v' + vec_size v) (Z.of_nat n)) (buffer_prefix (Z.of_nat n) b') m2 =
      Some (Z.of_nat n, m3) /\
    vec_destroy st m3 = Some (tt, m4) /\ vec_ok m4 v' (ws ++ take n xs) /\ keeps m m4 (own v) (own v') /\
    no_more m m4 (own v) (own v').
Proof.
  intros Hv Hb Hs Hn Hsrc.
  destruct (stage_input_ok _ _ _ _ _ _ Hv Hb Hs Hn Hsrc) as (b' & st & m1 & Hst & Hv1 & Hb1 & Hl1 & Ho1 & Hk1 & Hsm).
  destruct (vec_resize_ok m1 v (Z.of_nat (length ws + n)) ws Hv1) as (v' & m2 & Hr & Hv2 & Hk2);
    [pose proof (vo_size _ _ _ Hv1); lia|].
  rewrite Nat2Z.id, Nat.add_sub' in Hv2. pose proof Hv2 as [Hb2 Hs2 Hf2 Hm2].
  rewrite length_app, length_replicate in Hs2. pose proof (vo_size _ _ _ Hv) as Hvs.
  apply bytes_at_app in Hb2 as [Hb2 Hz2]. assert (length (take n xs) = n) as Hlt by (apply length_take_le; lia).
  destruct (buffer_copy_ok m2 (Buffer (vec_data v' + vec_size v) (Z.of_nat n)) (buffer_prefix (Z.of_nat n) b')
    (take n xs) (replicate n x00)) as (m3 & Hc & Hb3 & Hch).
  { simpl. by rewrite Hvs. }
  { simpl. by rewrite length_replicate. }
  { simpl. eapply keeps_bytes; [exact Hk2| |exact Hb1]. rewrite Hlt. exact Ho1. }
  { simpl. lia. }
  rewrite length_replicate, Hlt, Nat.min_id in *. simpl in Hb3, Hch.
  rewrite take_ge, drop_ge, app_nil_r in Hb3 by (rewrite ?length_replicate; lia).
  destruct (vec_destroy_ok st m3) as [Hd Hkd].
  assert (forall j, own st j -> ~ own v' j) as Hst'.
  { intros j Hj. apply (Hk2 j); [|by apply Hsm]. intros Hjv.
    by destruct (Hk1 j (vo_mapped _ _ _ Hv j Hjv)) as [_ ?]. }
  exists b', st, v', m1, m2, m3. eexists. split; [done|]. split; [done|]. split; [done|]. split; [exact Hd|].
  split.
  - apply vec_ok_keep with m3; [|intros j Hj; apply Hkd; intros Hj'; by apply (Hst' j)]. split.
    + apply bytes_at_app. split; [eapply bytes_at_outside; [exact Hch| |done]; lia|by rewrite <- Hvs].
    + rewrite length_app. lia.
    + done.
    + intros j Hj. apply Hch, Hm2, Hj.
  - split.
    + intros j Hj Hm. destruct (Hk1 j Hm) as [E1 Hns]. destruct (Hk2 j Hj) as [E2 Hnv]; [by rewrite E1|].
      split; [|done]. rewrite Hkd, <- E1, <- E2 by done. apply Hch. unfold own in Hnv. lia.
    + intros j [Hj3 Hns]%(vec_destroy_unmapped _ _ _ _ Hd). apply (buffer_copy_mapped _ _ _ _ _ _ Hc) in Hj3.
      destruct (vec_resize_no_more _ _ _ _ _ Hr j Hj3) as [|[Hj1 Hnv]]; [by left|right].
      destruct (stage_input_mapped _ _ _ _ _ _ _ _ Hst Hj1); [done|by split].
Qed.

(** What [write_some] of [xs] comes to: as many bytes as there is room for, or
    [value_too_large] and none of them when the storage cannot get that big. *)
Definition write_outcome (w : memory_write_stream) (m : memory) (ws xs : list byte)
    (res : option (io_result * (memory_write_stream * memory))) : Prop :=
  let n := room w ws (length xs) in
  exists r k w' m', res = Some (r, (w', m')) /\
    (if ws_borrowed w || (Z.of_nat (length ws + n) <=? max_size) then r = success (Z.of_nat k) /\ k = n
     else r = failure (generic value_too_large) 0 /\ k = 0%nat) /\
    write_rep w' m' (ws ++ take k xs) /\ same_kind w w' /\ keeps m m' (write_own w) (write_own w') /\
    no_more m m' (write_own w) (write_own w').

Lemma write_nothing w m ws xs :
  write_rep w m ws -> room w ws (length xs) = 0%nat -> write_outcome w m ws xs (give (success 0) (w, m)).
Proof.
  intros Hw E. exists (success 0), 0%nat, w, m. split; [done|]. rewrite take_0, app_nil_r.
  split; [|split; [done|split; [done|split; [by intros j|apply no_more_same, write_own_dec]]]]. rewrite E. destruct Hw as (_ & _ & Hr).
  destruct (ws_borrowed w); [done|]. simpl. rewrite Nat.add_0_r. case_zb; [done|]. destruct Hr; lia.
Qed.

Lemma room_le w ws n : (room w ws n <= n)%nat.
Proof. unfold room. destruct (_ =? _); lia. Qed.

Lemma write_borrowed w m ws b xs n :
  write_rep w m ws -> ws_borrowed w = true -> bytes_at m (data b) xs -> size b = Z.of_nat (length xs) ->
  n = room w ws (length xs) ->
  exists m', buffer_copy (Buffer (data (ws_output w) + ws_position w) (Z.of_nat n)) (buffer_prefix (Z.of_nat n) b) m =
      Some (Z.of_nat n, m') /\
    u64 (ws_position w + Z.of_nat n) = ws_position w + Z.of_nat n /\
    write_rep (with_position w (ws_position w + Z.of_nat n)) m' (ws ++ take n xs) /\
    keeps m m' (write_own w) (write_own w).
Proof.
  intros (Hc & Hl & Hr) Eb Hb Hs Hn. unfold write_own. rewrite Eb in *. destruct Hr as (Hw & Hp & Ho & Hlim & Hm).
  unfold room in Hn. destruct (Z.eqb_spec (ws_capacity w) dynamic_extent_limit) as [E|_]; [lia|].
  assert (length (take n xs) = n) as Hlt by (apply length_take_le; lia).
  destruct (mapped_bytes m (data (ws_output w) + ws_position w) n) as (old & Hold & Hlo).
  { intros j Hj. apply Hm. unfold in_buffer. lia. }
  destruct (buffer_copy_ok m (Buffer (data (ws_output w) + ws_position w) (Z.of_nat n)) (buffer_prefix (Z.of_nat n) b)
    (take n xs) old) as (m' & Hcp & Hb' & Hch); [done|simpl; lia| |simpl; lia|].
  { rewrite <- (take_drop n xs) in Hb. by apply bytes_at_app in Hb as [? _]. }
  rewrite Hlo, Hlt, Nat.min_id in *. rewrite take_ge, drop_ge, app_nil_r in Hb' by lia. simpl in Hb', Hch.
  exists m'. split; [done|]. split; [apply u64_small; lia|]. split.
  - unfold write_rep. simpl. rewrite Eb, length_app, Hlt. split; [done|]. split; [lia|].
    split; [|split; [lia|split; [done|split; [done|]]]].
    + apply bytes_at_app. rewrite <- Hp. split; [|done]. eapply bytes_at_outside; [exact Hch| |done]. lia.
    + intros j Hj. by apply Hch, Hm.
  - intros j Hj _. split; [|done]. apply Hch. unfold in_buffer in Hj. lia.
Qed.

Lemma memory_write_ok w m ws b xs :
  write_rep w m ws -> bytes_at m (data b) xs -> size b = Z.of_nat (length xs) -> size b < 2 ^ 64 ->
  input_ok w b -> write_outcome w m ws xs (write_some b (w, m)).
Proof.
  intros Hw Hb Hs Hbd Hin. pose proof (remaining_ws _ _ _ (length xs) Hw) as Hroom.
  pose proof (room_le w ws (length xs)) as Hnx.
  unfold write_some, memory_write, memory_write_some, buffer_empty.
  destruct (Z.eqb_spec (size b) 0) as [E0|Hne]; [apply write_nothing; [done|lia]|]. rewrite get_stream_bind, Hs, Hroom.
  destruct (Z.eqb_spec (Z.of_nat (room w ws (length xs))) 0) as [E|Hn]; [apply write_nothing; [done|lia]|].
  unfold write_outcome. remember (room w ws (length xs)) as n eqn:En.
  destruct (ws_borrowed w) eqn:Eb; simpl orb.
  - destruct (write_borrowed w m ws b xs n Hw Eb Hb Hs En) as (m' & Hcp & Hu & Hw' & Hk).
    rewrite (on_memory_bind _ _ _ _ _ _ Hcp), Hu, put_stream_bind.
    exists (success (Z.of_nat n)), n, (with_position w (ws_position w + Z.of_nat n)), m'.
    split; [done|]. split; [done|]. split; [done|]. split; [done|]. split; [exact Hk|]. intros j Hj.
    apply (no_more_same m _ (write_own_dec w)), (buffer_copy_mapped _ _ _ _ _ _ Hcp), Hj.
  - pose proof Hw as (Hc & Hl & Hr). rewrite Eb in Hr.
    destruct Hr as [Hv Hmax]. pose proof max_size_range as Hms. pose proof (vo_size _ _ _ Hv) as Hvs.
    rewrite Hvs, u64_small by lia.
    destruct (Z.ltb_spec (max_size - Z.of_nat (length ws)) (Z.of_nat n)).
    { exists (failure (generic value_too_large) 0), 0%nat, w, m. split; [done|]. rewrite take_0, app_nil_r.
      split; [by zb|]. split; [done|]. split; [done|]. split; [by intros j|apply no_more_same, write_own_dec]. }
    assert (source_ok (ws_storage w) b) as Hsrc by (destruct Hin; [congruence|done]).
    destruct (append_ok m (ws_storage w) ws b xs n Hv Hb Hs) as (b' & st & v' & m1 & m2 & m3 & m4 & Hst & Hrs & Hcp & Hdes & Hv' & Hk);
      [lia|done|].
    rewrite (on_memory_bind _ _ _ _ _ _ Hst), u64_small, <- Nat2Z.inj_add by lia.
    rewrite (on_memory_bind _ _ _ _ _ _ Hrs), put_stream_bind. rewrite Hvs in Hcp.
    rewrite (on_memory_bind _ _ _ _ _ _ Hcp), (on_memory_bind _ _ _ _ _ _ Hdes).
    exists (success (Z.of_nat n)), n, (with_storage w v'), m4. split; [done|]. split; [by zb|].
    split; [|split; [done|]].
    + unfold write_rep. simpl. rewrite Eb, length_app, length_take_le by lia. split; [done|].
      split; [|split; [done|lia]]. unfold room in En. destruct (Z.eqb_spec (ws_capacity w) dynamic_extent_limit) as [E|]; [|lia].
      rewrite E. unfold dynamic_extent_limit. lia.
    + unfold write_own. simpl. by rewrite Eb.
Qed.

#[export] Program Instance memory_write_laws : WriteStreamLaws memory_write_stream := {|
  written := write_rep;
  write_foot := write_own;
|}.
Next Obligation.
  intros s m ws b xs Hw Hb Hs Hrange Hd.
  destruct (memory_write_ok s m ws b xs) as (r & k & w' & m' & E & Hres & Hw' & _ & Hk & _); [done..|lia| |].
  { unfold input_ok, source_ok, write_own in *. destruct (ws_borrowed s); auto. }
  exists r, k, w', m'. split; [done|]. pose proof (room_le s ws (length xs)).
  destruct (ws_borrowed s || _); destruct Hres as [-> ->]; (split; [lia|]); (split; [|done]); [by left|right; by eexists].
Qed.

(** All of it goes in at once when there is room. *)
Lemma write_all_room w m ws b xs :
  write_rep w m ws -> bytes_at m (data b) xs -> size b = Z.of_nat (length xs) -> size b < 2 ^ 64 ->
  (forall j, in_buffer b j -> ~ write_own w j) -> room w ws (length xs) = length xs ->
  ws_borrowed w = true \/ Z.of_nat (length ws + length xs) <= max_size ->
  exists w' m', write_all b (w, m) = Some (success (Z.of_nat (length xs)), (w', m')) /\
    write_rep w' m' (ws ++ xs).
Proof.
  intros Hw Hb Hs Hbd Hd Hroom Hmax. unfold write_all. destruct (Z.to_nat (size b)) as [|fuel] eqn:Ef.
  { assert (xs = []) as -> by (destruct xs; simpl in *; [done|lia]). exists w, m. rewrite app_nil_r.
    split; [|done]. cbn [write_all_loop]. by zb. }
  cbn [write_all_loop]. zb. rewrite Z.add_0_r, Z.sub_0_r.
  destruct (memory_write_ok w m ws (Buffer (data b) (size b)) xs) as (r & k & w' & m' & Hr & Hres & Hw' & _);
    [done..| |].
  { unfold input_ok, source_ok, write_own in *. destruct (ws_borrowed w); auto. }
  rewrite Hroom in Hres. replace (ws_borrowed w || (Z.of_nat (length ws + length xs) <=? max_size)) with true in Hres.
  2: { symmetry. apply orb_true_iff. destruct Hmax; [by left|right; by apply Z.leb_le]. }
  destruct Hres as [-> ->]. rewrite (prog_bind_ok _ _ _ _ _ Hr). exists w', m'. rewrite take_ge in Hw' by done.
  split; [|done]. simpl. rewrite u64_small by lia. zb. done.
Qed.

(** Reading what a write stream shows. *)
Lemma ws_bytes_ok w m ws :
  write_rep w m ws -> bytes_at m (data (ws_bytes w)) ws /\ size (ws_bytes w) = Z.of_nat (length ws) /\
    size (ws_bytes w) < 2 ^ 64 /\ forall j, in_buffer (ws_bytes w) j -> write_own w j.
Proof.
  intros (Hc & Hl & Hr). unfold ws_bytes, write_own, in_buffer. destruct (ws_borrowed w).
  - destruct Hr as (Hb & Hp & Ho & Hlim & Hm). simpl. split; [done|]. split; [done|]. split; [lia|].
    unfold in_buffer. lia.
  - destruct Hr as [[Hb Hs Hf Hm] Hms]. simpl. split; [done|]. split; [done|]. split; [lia|].
    unfold own. lia.
Qed.

Lemma read_back w m zs limit o old :
  write_rep w m zs -> 0 <= limit -> bytes_at m (data o) old -> size o = Z.of_nat (length old) ->
  length old = length zs -> (forall j, in_buffer o j -> ~ write_own w j) ->
  exists s' m', read_exactly o (open_read (ws_bytes w) limit, m) = Some (success (Z.of_nat (length zs)), (s', m')) /\
    bytes_at m' (data o) zs /\ rs_eof s' = true.
Proof.
  intros Hw Hlim Ho Hos Hol Hod. destruct (ws_bytes_ok _ _ _ Hw) as (Hb & Hs & Hbd & Hown).
  destruct (read_exactly_ok (open_read (ws_bytes w) limit) m (bytes zs) o old)
    as (r & ys & rest & s' & m' & Hr & He & Hp & Hb' & _).
  - exists [], zs. by repeat split.
  - done.
  - done.
  - lia.
  - intros j Hj Hf. by apply (Hod j), Hown.
  - rewrite Hol in He. apply exact_read_all in He as (-> & -> & ->). exists s', m'. split; [done|].
    rewrite drop_ge, app_nil_r in Hb' by lia. split; [done|].
    destruct Hp as (before & xs & E & _ & Hpos & Hsize & Hlt & _). unfold rs_eof, remaining.
    destruct xs; [|done]. rewrite app_nil_r in Hsize. by rewrite Hpos, Hsize, Z.sub_diag.
Qed.

(** ** The stream of both *)

Lemma with_reader_ok {A} (p : prog (memory_read_stream * memory) A) s m a r m' :
  p (reader_ s, m) = Some (a, (r, m')) -> with_reader p (s, m) = Some (a, (MemoryStream r (writer_ s), m')).
Proof. unfold with_reader. by intros ->. Qed.

Lemma with_writer_ok {A} (p : prog (memory_write_stream * memory) A) s m a w m' :
  p (writer_ s, m) = Some (a, (w, m')) -> with_writer p (s, m) = Some (a, (MemoryStream (reader_ s) w, m')).
Proof. unfold with_writer. by intros ->. Qed.

#[export] Program Instance memory_stream_read_laws : ReadStreamLaws memory_stream := {|
  pending s := pending (reader_ s);
  read_foot s := read_foot (reader_ s);
|}.
Next Obligation. intros s m m' its. apply pending_frame. Qed.
Next Obligation. intros s m its j. apply pending_mapped. Qed.
Next Obligation.
  intros [r w] m b Hb. unfold read_some, memory_stream_read, memory_stream_read_some. erewrite with_reader_ok; [|by apply read_some_empty].
  done.
Qed.
Next Obligation.
  intros [r w] m its b old Hp Hb Hs Hr Hd.
  destruct (read_some_ok r m its b old Hp Hb Hs Hr Hd) as (res & xs & rest & r' & m' & E & Hrest).
  exists res, xs, rest, (MemoryStream r' w), m'. split; [|exact Hrest]. by apply (with_reader_ok _ (MemoryStream r w)).
Qed.

#[export] Program Instance memory_stream_write_laws : WriteStreamLaws memory_stream := {|
  written s := written (writer_ s);
  write_foot s := write_foot (writer_ s);
|}.
Next Obligation.
  intros [r w] m ws b xs Hw Hb Hs Hr Hd.
  destruct (write_some_ok w m ws b xs Hw Hb Hs Hr Hd) as (res & k & w' & m' & E & Hrest).
  exists res, k, (MemoryStream r w'), m'. split; [|exact Hrest]. by apply (with_writer_ok _ (MemoryStream r w)).
Qed.
End write_proofs.
