(* ===== verification/ScriptedStream.v ===== *)
(** * The scripted stream

    Models [scripted_read_step] and [scripted_read_stream] of
    include/forge/io/memory_stream.hpp: a queue of steps, each some bytes,
    possibly with an error at their end, an error, or the end of the file.  The
    steps own their bytes, which are freed when a step is done. *)
From S2P Require Import Prelude Buffer Result Vector Stream MemoryStream.
From Stdlib Require Import Strings.Byte.

#[local] Open Scope Z_scope.
#[local] Open Scope prog_scope.
Implicit Types (m : memory) (b : buffer) (xs ys : list byte) (its : list item).

Inductive kind := kind_bytes | kind_error | kind_eof.

Section scripted.
Context `{Allocator}.

Record scripted_read_step := Step {
  kind_ : kind; bytes_ : vector; position_ : Z; step_error_ : error_code; completes_with_error_ : bool }.

(** ** Steps *)

Definition step_eof : scripted_read_step := Step kind_eof empty_vector 0 no_error false.
Definition step_error (e : error_code) : scripted_read_step := Step kind_error empty_vector 0 e false.

Definition step_bytes (input : buffer) : prog memory scripted_read_step :=
  bytes ← copy_to_vector input;
  give (Step kind_bytes bytes 0 no_error false).

Definition step_bytes_then_error (input : buffer) (e : error_code) : prog memory scripted_read_step :=
  step ← step_bytes input;
  give (Step (kind_ step) (bytes_ step) (position_ step) e true).

(** ** The stream *)

Definition scripted_read_stream : Type := list scripted_read_step.
Implicit Types steps : scripted_read_stream.

Definition push (steps : scripted_read_stream) (step : scripted_read_step) : scripted_read_stream :=
  steps ++ [step].
Definition pending_steps (steps : scripted_read_stream) : Z := Z.of_nat (length steps).
Definition scripted_empty (steps : scripted_read_stream) : bool := bool_decide (steps = []).

(** [steps_.pop_front()], which destroys the step. *)
Definition pop_front : prog (scripted_read_stream * memory) unit :=
  steps ← get_stream;
  match steps with
  | [] => undefined
  | step :: rest => put_stream rest ;; on_memory (vec_destroy (bytes_ step))
  end.

Definition advance (step : scripted_read_step) (position : Z) : scripted_read_step :=
  Step (kind_ step) (bytes_ step) position (step_error_ step) (completes_with_error_ step).

Definition read_bytes_step (output : buffer) : prog (scripted_read_stream * memory) io_result :=
  steps ← get_stream;
  match steps with
  | [] => undefined
  | step :: rest =>
      let available := u64 (vec_size (bytes_ step) - position_ step) in
      let error := step_error_ step in
      let completes_with_error := completes_with_error_ step in
      if available =? 0 then
        pop_front ;;
        if completes_with_error then give (failure error 0) else give (end_of_file 0)
      else
        copied ← on_memory (buffer_copy output (Buffer (vec_data (bytes_ step) + position_ step) available));
        let position := u64 (position_ step + copied) in
        put_stream (advance step position :: rest) ;;
        if position =? vec_size (bytes_ step) then
          pop_front ;;
          if completes_with_error then give (failure error copied) else give (success copied)
        else give (success copied)
  end.

(** The loop of [read_some]; [steps] is the queue at the head of the loop. *)
Fixpoint read_steps (steps : list scripted_read_step) (output : buffer) : prog (scripted_read_stream * memory) io_result :=
  match steps with
  | [] => give (end_of_file 0)
  | step :: rest =>
      match kind_ step with
      | kind_eof => give (end_of_file 0)
      | kind_error => pop_front ;; give (failure (step_error_ step) 0)
      | kind_bytes =>
          if (position_ step =? vec_size (bytes_ step)) && negb (completes_with_error_ step)
          then pop_front ;; read_steps rest output
          else read_bytes_step output
      end
  end.

Definition scripted_read_some (output : buffer) : prog (scripted_read_stream * memory) io_result :=
  if buffer_empty output then give (success 0)
  else steps ← get_stream; read_steps steps output.

#[export] Instance scripted_read : ReadStream scripted_read_stream := scripted_read_some.

(** ** What a script delivers *)

Definition step_items (step : scripted_read_step) (xs : list byte) : list item :=
  match kind_ step with
  | kind_eof => []
  | kind_error => [error_item (step_error_ step)]
  | kind_bytes =>
      bytes (drop (Z.to_nat (position_ step)) xs) ++
      (if completes_with_error_ step then [error_item (step_error_ step)] else [])
  end.

(** Nothing is read past the end of the file. *)
Definition after_step (step : scripted_read_step) (its : list item) : list item :=
  match kind_ step with kind_eof => [] | _ => its end.

Definition step_rep (step : scripted_read_step) (m : memory) (xs : list byte) : Prop :=
  vec_ok m (bytes_ step) xs /\ 0 <= position_ step <= vec_size (bytes_ step) /\ vec_size (bytes_ step) < 2 ^ 64.

Definition script_foot (steps : scripted_read_stream) (j : Z) : Prop :=
  exists step, step ∈ steps /\ own (bytes_ step) j.

Fixpoint script_rep (steps : list scripted_read_step) (m : memory) (its : list item) : Prop :=
  match steps with
  | [] => its = []
  | step :: rest => exists xs its', step_rep step m xs /\ (forall j, own (bytes_ step) j -> ~ script_foot rest j) /\
      script_rep rest m its' /\ its = step_items step xs ++ after_step step its'
  end.

Lemma script_foot_cons step steps j :
  script_foot (step :: steps) j <-> own (bytes_ step) j \/ script_foot steps j.
Proof.
  unfold script_foot. split.
  - intros (s & [-> |Hs]%elem_of_cons & Hj); [by left|]. right. by exists s.
  - intros [Hj|(s & Hs & Hj)]; [exists step|exists s]; (split; [|done]); [apply list_elem_of_here|by right].
Qed.

Lemma script_frame steps m m' its :
  script_rep steps m its -> (forall j, script_foot steps j -> m' !! j = m !! j) -> script_rep steps m' its.
Proof.
  revert its. induction steps as [|step steps IH]; intros its; simpl; [done|].
  intros (xs & its' & (Hv & Hp & Hb) & Hd & Hr & ->) Hf. exists xs, its'.
  split; [split; [|done]|split; [done|split; [|done]]].
  - apply vec_ok_keep with m; [done|]. intros j Hj. apply Hf, script_foot_cons. by left.
  - apply IH; [done|]. intros j Hj. apply Hf, script_foot_cons. by right.
Qed.

Lemma script_mapped steps m its j : script_rep steps m its -> script_foot steps j -> is_Some (m !! j).
Proof.
  revert its. induction steps as [|step steps IH]; intros its; simpl; [by intros _ (? & ?%elem_of_nil & _)|].
  intros (xs & its' & (Hv & _) & _ & Hr & _) [Hj|Hj]%script_foot_cons; [by eapply vo_mapped|by eapply IH].
Qed.

(** A finished step goes: what is left, and memory outside it. *)
Lemma pop_step_ok step rest m its :
  (forall j, own (bytes_ step) j -> ~ script_foot rest j) -> script_rep rest m its ->
  exists m', pop_front (step :: rest, m) = Some (tt, (rest, m')) /\ script_rep rest m' its /\
    (forall j, ~ own (bytes_ step) j -> m' !! j = m !! j).
Proof.
  intros Hd Hr. destruct (vec_destroy_ok (bytes_ step) m) as [Hx Hk]. eexists. split.
  - unfold pop_front. rewrite get_stream_bind, put_stream_bind. by apply on_memory_ok.
  - split; [|exact Hk]. apply script_frame with m; [done|]. intros j Hj. apply Hk. intros Ho. by apply (Hd j).
Qed.

(** The law of [read_some] for a result of the loop. *)
Definition read_outcome (steps : scripted_read_stream) (m : memory) (its : list item) (b : buffer) (old : list byte)
    (res : option (io_result * (scripted_read_stream * memory))) : Prop :=
  exists r xs rest steps' m', res = Some (r, (steps', m')) /\
    some_read (length old) its r xs rest /\ script_rep steps' m' rest /\
    bytes_at m' (data b) (xs ++ drop (length xs) old) /\
    (forall j, script_foot steps' j -> script_foot steps j) /\
    (forall j, ~ in_buffer b j -> ~ script_foot steps j -> m' !! j = m !! j).

(** The first step goes without a byte: the rest as it was, with the result [r]. *)
Lemma pop_outcome step rest m its its' b old r :
  (forall j, own (bytes_ step) j -> ~ script_foot rest j) -> script_rep rest m its' ->
  bytes_at m (data b) old -> size b = Z.of_nat (length old) ->
  (forall j, in_buffer b j -> ~ script_foot (step :: rest) j) ->
  some_read (length old) its r [] its' ->
  read_outcome (step :: rest) m its b old ((pop_front ;; give r) (step :: rest, m)).
Proof.
  intros Hd Hr Hb Hs Hin Hread. destruct (pop_step_ok step rest m its' Hd Hr) as (m' & Hp & Hr' & Hk).
  rewrite (prog_bind_ok _ _ _ _ _ Hp). exists r, [], its', rest, m'. split; [done|]. split; [done|].
  split; [done|]. split; [|split].
  - intros i x Hi. pose proof (lookup_lt_Some _ _ _ Hi) as Hlt. simpl in Hlt. rewrite length_drop in Hlt.
    rewrite Hk; [by apply Hb|]. intros Ho.
    apply (Hin (data b + Z.of_nat i)); [unfold in_buffer; lia|]. apply script_foot_cons. by left.
  - intros j Hj. apply script_foot_cons. by right.
  - intros j _ Hj. apply Hk. intros Ho. apply Hj, script_foot_cons. by left.
Qed.

Lemma read_bytes_step_ok step rest m xs its' b old :
  kind_ step = kind_bytes -> step_rep step m xs -> script_rep rest m its' ->
  (forall j, own (bytes_ step) j -> ~ script_foot rest j) ->
  position_ step <> vec_size (bytes_ step) \/ completes_with_error_ step = true ->
  bytes_at m (data b) old -> size b = Z.of_nat (length old) -> 0 < size b ->
  (forall j, in_buffer b j -> ~ script_foot (step :: rest) j) ->
  read_outcome (step :: rest) m (step_items step xs ++ its') b old (read_bytes_step b (step :: rest, m)).
Proof.
  intros Hkind (Hv & Hp & Hbd) Hr Hd Hne Hb Hs Hpos Hin. pose proof Hv as [Hvb Hvs Hvf Hvm].
  unfold read_bytes_step. rewrite get_stream_bind. cbn zeta. rewrite u64_small by lia.
  set (k := Z.to_nat (position_ step)). assert (position_ step = Z.of_nat k) as Hk by lia.
  unfold step_items. rewrite Hkind. fold k.
  destruct (Z.eqb_spec (vec_size (bytes_ step) - position_ step) 0) as [E|E].
  { destruct Hne as [?|Hc]; [lia|]. rewrite Hc. apply pop_outcome with its'; try done.
    rewrite drop_ge by lia. by apply (some_read_error _ _ []); [|simpl; lia]. }
  assert (bytes_at m (vec_data (bytes_ step) + position_ step) (drop k xs)) as Hsrc.
  { rewrite <- (take_drop k xs) in Hvb. apply bytes_at_app in Hvb as [_ Hvb].
    rewrite length_take_le in Hvb by lia. by rewrite Hk. }
  destruct (buffer_copy_ok m b (Buffer (vec_data (bytes_ step) + position_ step) (vec_size (bytes_ step) - position_ step))
    (drop k xs) old) as (m1 & Hc & Hb1 & Hch); [done|done|done|simpl; rewrite length_drop; lia|].
  rewrite length_drop in Hc, Hb1, Hch. set (n := Nat.min (length old) (length xs - k)) in *.
  assert (0 < n <= length old /\ n <= length xs - k)%nat as [Hn Hnk] by lia.
  rewrite (on_memory_bind _ _ _ _ _ _ Hc), put_stream_bind, u64_small, Hk, <- Nat2Z.inj_add by lia.
  set (moved := take n (drop k xs)) in *.
  assert (length moved = n) as Hlm by (apply length_take_le; rewrite length_drop; lia).
  assert (bytes (drop k xs) = bytes moved ++ bytes (drop (k + n) xs)) as Hits.
  { unfold moved, bytes. by rewrite <- fmap_app, <- drop_drop, take_drop. }
  assert (forall j, script_foot (step :: rest) j -> m1 !! j = m !! j) as Hfoot.
  { intros j Hj. apply Hch. intros Hj'. apply (Hin j); [unfold in_buffer; lia|done]. }
  assert (step_rep (advance step (Z.of_nat (k + n))) m1 xs) as Hstep.
  { split; [|simpl; lia]. simpl. apply vec_ok_keep with m; [done|]. intros j Hj. apply Hfoot, script_foot_cons. by left. }
  assert (script_rep rest m1 its') as Hr1.
  { apply script_frame with m; [done|]. intros j Hj. apply Hfoot, script_foot_cons. by right. }
  destruct (Z.eqb_spec (Z.of_nat (k + n)) (vec_size (bytes_ step))) as [E'|E'].
  - destruct (pop_step_ok (advance step (Z.of_nat (k + n))) rest m1 its' Hd Hr1) as (m2 & Hpop & Hr2 & Hk2).
    simpl in Hk2. rewrite (prog_bind_ok _ _ _ _ _ Hpop). rewrite (drop_ge xs (k + n)), app_nil_r in Hits by lia.
    set (r := if completes_with_error_ step then failure (step_error_ step) (Z.of_nat n) else success (Z.of_nat n)).
    exists r, moved, its', rest, m2. split; [unfold r; by destruct (completes_with_error_ step)|].
    rewrite Hlm. split; [|split; [done|split; [|split]]].
    + rewrite Hits. unfold r. rewrite <- Hlm.
      destruct (completes_with_error_ step); [apply some_read_error|apply some_read_bytes]; rewrite <- ?app_assoc; done || lia.
    + intros i x Hi. pose proof (lookup_lt_Some _ _ _ Hi) as Hlt. rewrite length_app, length_drop in Hlt.
      rewrite Hk2; [by apply Hb1|]. intros Ho.
      apply (Hin (data b + Z.of_nat i)); [unfold in_buffer; lia|]. apply script_foot_cons. by left.
    + intros j Hj. apply script_foot_cons. by right.
    + intros j Hj Hf. rewrite Hk2; [apply Hch; unfold in_buffer in Hj; lia|].
      intros Ho. apply Hf, script_foot_cons. by left.
  - exists (success (Z.of_nat n)), moved.
    eexists (bytes (drop (k + n) xs) ++ (if completes_with_error_ step then [error_item (step_error_ step)] else []) ++ its').
    do 2 eexists. split; [reflexivity|]. rewrite Hlm. split; [|split; [|split; [done|split]]].
    + rewrite Hits, <- !app_assoc. rewrite <- Hlm at 2. apply some_read_bytes; [done|lia].
    + exists xs, its'. split; [done|]. split; [done|]. split; [done|]. unfold step_items, after_step. simpl.
      by rewrite Hkind, Nat2Z.id, <- app_assoc.
    + intros j. rewrite !script_foot_cons. tauto.
    + intros j Hj _. apply Hch. unfold in_buffer in Hj. lia.
Qed.

Lemma read_steps_ok steps : forall m its b old,
  script_rep steps m its -> bytes_at m (data b) old -> size b = Z.of_nat (length old) -> 0 < size b ->
  (forall j, in_buffer b j -> ~ script_foot steps j) ->
  read_outcome steps m its b old (read_steps steps b (steps, m)).
Proof.
  induction steps as [|step rest IH]; intros m its b old Hr Hb Hs Hpos Hin.
  { simpl in Hr. subst its. exists (end_of_file 0), [], [], [], m. split; [done|]. by split; [constructor|]. }
  destruct Hr as (xs & its' & Hstep & Hd & Hr & ->). cbn [read_steps]. unfold after_step.
  destruct (kind_ step) eqn:Hkind.
  - destruct ((position_ step =? vec_size (bytes_ step)) && negb (completes_with_error_ step)) eqn:E.
    + apply andb_true_iff in E as [Ep Ec%negb_true_iff]. apply Z.eqb_eq in Ep.
      destruct (pop_step_ok step rest m its' Hd Hr) as (m1 & Hp & Hr1 & Hk1).
      rewrite (prog_bind_ok _ _ _ _ _ Hp).
      assert (step_items step xs = []) as ->.
      { unfold step_items. rewrite Hkind, Ec, drop_ge; [done|]. destruct Hstep as ([_ Hvs _ _] & _). lia. }
      destruct (IH m1 its' b old Hr1) as (r & ys & rest' & steps' & m' & E & Hread & Hrep & Hbytes & Hfoot & Hkeep).
      * intros i x Hi. pose proof (lookup_lt_Some _ _ _ Hi). rewrite Hk1; [by apply Hb|].
        intros Ho. apply (Hin (data b + Z.of_nat i)); [unfold in_buffer; lia|]. apply script_foot_cons. by left.
      * done.
      * done.
      * intros j Hj Hf. apply (Hin j Hj), script_foot_cons. by right.
      * exists r, ys, rest', steps', m'. split; [done|]. split; [done|]. split; [done|]. split; [done|]. split.
        -- intros j Hj. apply script_foot_cons. right. by apply Hfoot.
        -- intros j Hj Hf. rewrite script_foot_cons in Hf. rewrite Hkeep by tauto. apply Hk1. tauto.
    + apply read_bytes_step_ok; try done. apply andb_false_iff in E as [E%Z.eqb_neq|E%negb_false_iff]; auto.
  - unfold step_items. rewrite Hkind. apply pop_outcome with its'; try done.
    by apply (some_read_error _ _ []); [|simpl; lia].
  - unfold step_items. rewrite Hkind. exists (end_of_file 0), [], [], (step :: rest), m. split; [done|].
    split; [by constructor|]. split; [|done]. exists xs, its'. split; [done|]. split; [done|]. split; [done|].
    unfold step_items, after_step. by rewrite Hkind.
Qed.

#[export] Program Instance scripted_read_laws : ReadStreamLaws scripted_read_stream := {|
  pending := script_rep;
  read_foot := script_foot;
|}.
Next Obligation. intros steps m m' its. apply script_frame. Qed.
Next Obligation. intros steps m its j. apply script_mapped. Qed.
Next Obligation. intros steps m b Hb. unfold read_some, scripted_read, scripted_read_some, buffer_empty. by rewrite Hb. Qed.
Next Obligation.
  intros steps m its b old Hp Hb Hs Hr Hd. unfold read_some, scripted_read, scripted_read_some, buffer_empty. zb.
  rewrite get_stream_bind. apply read_steps_ok; done || lia.
Qed.

(** ** Building a script *)

(** The items of a script and of a step pushed behind it. *)
Lemma push_ok steps step m its xs :
  script_rep steps m its -> Forall (fun step => kind_ step <> kind_eof) steps -> step_rep step m xs ->
  (forall j, own (bytes_ step) j -> ~ script_foot steps j) ->
  script_rep (push steps step) m (its ++ step_items step xs).
Proof.
  unfold push. revert its. induction steps as [|s steps IH]; intros its; simpl.
  - intros -> _ Hs _. exists xs, []. split; [done|]. split; [by intros j _ (? & ?%elem_of_nil & _)|].
    split; [done|]. unfold after_step. by destruct (kind_ step); rewrite app_nil_r.
  - intros (ys & its' & Hs & Hd & Hr & ->) [Hk Hks]%Forall_cons Hstep Hin. exists ys, (its' ++ step_items step xs).
    split; [done|]. split; [|split].
    + intros j Hj (s' & [Hs'|Hs']%elem_of_app & Hj'); [apply (Hd j Hj); by exists s'|].
      apply list_elem_of_singleton in Hs' as ->. apply (Hin j Hj'), script_foot_cons. by left.
    + apply IH; [done|done|done|]. intros j Hj Hf. apply (Hin j Hj), script_foot_cons. by right.
    + unfold after_step. destruct (kind_ s); [| |done]; by rewrite app_assoc.
Qed.
End scripted.
