(* ===== verification/StreamProps.v ===== *)
(** * Properties of the streams

    The transfers of include/forge/io/stream.hpp over any stream that keeps the
    promise of the interface, and the streams of memory_stream.hpp. *)
From S2P Require Import Prelude Buffer Result Vector Stream MemoryStream ScriptedStream.
From Stdlib Require Import Strings.Byte.

#[local] Open Scope Z_scope.
#[local] Open Scope prog_scope.

(** An allocator for the examples: the next block is behind every mapped address. *)
#[local] Instance bump_allocator : Allocator := {|
  allocate m n := map_fold (fun j _ a => Z.max a (j + 1)) 1 m;
  capacity_for c n := Z.max (2 * c) n;
  max_size := 2 ^ 63 - 1;
  fill := xff;
|}.

Lemma bump_above (m : memory) j x : m !! j = Some x -> j < map_fold (fun j _ a => Z.max a (j + 1)) 1 m.
Proof.
  revert j x. induction m as [|i y m Hi Hfst IH] using map_first_key_ind; intros j x; [done|].
  rewrite map_fold_insert_first_key by done. intros [[-> ->]|[_ Hj]]%lookup_insert_Some; [lia|].
  specialize (IH j x Hj). lia.
Qed.

#[local] Instance bump_laws : AllocatorLaws.
Proof.
  split; simpl.
  - intros m n j Hj. destruct (m !! j) as [x|] eqn:E; [|done]. apply bump_above in E. lia.
  - lia.
  - lia.
Qed.

(** [read_exactly] on any stream that keeps the promise of [read_stream], whatever pieces the
    stream delivers: it succeeds when the buffer is full, with the next items of the stream in it;
    it fails with the first error of the stream, telling how many bytes came before it, all of them
    in the buffer; and it meets the end of the file exactly when the stream ends in front of the
    last byte.  It always returns, the stream has lost exactly the bytes and the error that were
    taken, and no memory outside the buffer and the stream changes. *)
Theorem read_exactly_correct {S : Type} `{ReadStreamLaws S} (s : S) m its b old :
  pending s m its -> bytes_at m (data b) old -> size b = Z.of_nat (length old) -> size b < 2 ^ 64 ->
  (forall j, in_buffer b j -> ~ read_foot s j) ->
  exists r xs rest s' m', read_exactly b (s, m) = Some (r, (s', m')) /\
    exact_read (length old) its 0 r xs rest /\ pending s' m' rest /\
    bytes_at m' (data b) (xs ++ drop (length xs) old) /\
    (forall j, ~ in_buffer b j -> ~ read_foot s j -> m' !! j = m !! j).
Proof. apply read_exactly_ok. Qed.

(** Three bytes from a stream that hands out two at a time. *)
Lemma read_exactly_correct_witness :
  let m : memory := list_to_map (zip [10; 11; 12; 20; 21; 22; 23] [x00; x00; x00; x01; x02; x03; x04]%byte) in
  let s := open_read (Buffer 20 4) 2 in
  exists r xs rest s' m', read_exactly (Buffer 10 3) (s, m) = Some (r, (s', m')) /\
    exact_read 3 (bytes [x01; x02; x03; x04]%byte) 0 r xs rest /\ r = success 3.
Proof.
  intros m s.
  destruct (read_exactly_correct s m (bytes [x01; x02; x03; x04]%byte) (Buffer 10 3) [x00; x00; x00]%byte)
    as (r & xs & rest & s' & m' & Hr & He & _).
  - exists [], [x01; x02; x03; x04]%byte. split; [done|]. split; [|done].
    apply (read_range_inv m 20 4). vm_compute. reflexivity.
  - apply (read_range_inv m 10 3). vm_compute. reflexivity.
  - done.
  - simpl. lia.
  - intros j Hj Hf. unfold read_foot, in_buffer in *. simpl in *. unfold in_buffer in *. simpl in *. lia.
  - exists r, xs, rest, s', m'. split; [exact Hr|]. split; [exact He|]. vm_compute in Hr. simplify_eq. reflexivity.
Defined.

(** [read_until] on any stream that keeps the promise of [read_stream], for more fuel than the
    stream has items: the string is the bytes up to and with the first delimiter, or as many as the
    limit allows when none of those is the delimiter ([message_size]), or the bytes before the first
    error or the end of the file.  Not one byte behind what it returns has been taken from the
    stream, and memory outside the stream is as it was: the one byte it reads into is gone. *)
Theorem read_until_correct `{AllocatorLaws} {S : Type} `{ReadStreamLaws S} (s : S) m its d max_bytes fuel :
  pending s m its -> (length its < fuel)%nat -> 0 <= max_bytes < 2 ^ 64 ->
  exists r xs rest s' m', read_until fuel d max_bytes (s, m) = Some ((r, xs), (s', m')) /\
    until_read d max_bytes its 0 r xs rest /\ pending s' m' rest /\
    (forall j, is_Some (m !! j) -> ~ read_foot s j -> m' !! j = m !! j).
Proof.
  intros Hp Hf Hm. unfold read_until.
  destruct (read_until_loop_ok d max_bytes fuel s m its [] 0) as (r & xs & rest & s' & m' & Hr & Hu & Hp' & _ & Hk);
    [done|done|lia|lia|]. by exists r, xs, rest, s', m'.
Qed.

(** A line from a script of two pieces of text; the rest of the second piece stays. *)
Lemma read_until_correct_witness :
  exists s m r xs rest s' m', script_rep s m (bytes [x61; x62; x0a; x63]%byte) /\
    read_until 5 x0a%byte 10 (s, m) = Some ((r, xs), (s', m')) /\
    until_read x0a%byte 10 (bytes [x61; x62; x0a; x63]%byte) 0 r xs rest /\ xs = [x61; x62; x0a]%byte.
Proof.
  set (m := list_to_map (zip [10; 11; 20; 21] [x61; x62; x0a; x63]%byte) : memory).
  set (step v := Step kind_bytes v 0 no_error false).
  set (s := [step (Vector 10 2 2); step (Vector 20 2 2)] : scripted_read_stream).
  assert (script_rep s m (bytes [x61; x62; x0a; x63]%byte)) as Hs.
  { exists [x61; x62]%byte, (bytes [x0a; x63]%byte). split; [|split; [|split; [|done]]].
    - split; [|simpl; lia]. split; [|done|done|].
      + apply (read_range_inv m 10 2). vm_compute. reflexivity.
      + unfold own. simpl. intros j Hj. assert (j = 10 \/ j = 11) as [-> | ->] by lia; vm_compute; eauto.
    - intros j Hj (v & [-> |Hv]%elem_of_cons & Hj'); [unfold own in *; simpl in *; lia|by apply elem_of_nil in Hv].
    - exists [x0a; x63]%byte, []. split; [|split; [|done]].
      + split; [|simpl; lia]. split; [|done|done|].
        * apply (read_range_inv m 20 2). vm_compute. reflexivity.
        * unfold own. simpl. intros j Hj. assert (j = 20 \/ j = 21) as [-> | ->] by lia; vm_compute; eauto.
      + intros j _ (v & Hv & _). by apply elem_of_nil in Hv. }
  assert (pending s m (bytes [x61; x62; x0a; x63]%byte)) as Hp by exact Hs.
  destruct (read_until_correct s m _ x0a%byte 10 5 Hp) as (r & xs & rest & s' & m' & Hr & Hu & _);
    [simpl; lia|lia|].
  exists s, m, r, xs, rest, s', m'. split; [exact Hs|]. split; [exact Hr|]. split; [exact Hu|].
  vm_compute in Hr. simplify_eq. reflexivity.
Defined.

(** C40: [write_some] of [memory_write_stream] takes as many bytes as its capacity leaves room for
    and appends exactly them to what it holds, or none, with [value_too_large], when its vector
    cannot grow that far.  That is so wherever the bytes come from, including the stream's own
    storage as [bytes()] shows it: growing the vector frees the bytes under the caller's pointer,
    and the stream has copied them before.  No other memory that was in use is changed, and the
    copy is given back: nothing else stays allocated.  And what [write_all] puts into a memory stream with room for it,
    [read_exactly] gets back out of the stream's bytes, in front of it whatever the stream held
    before, for any read size the reader is limited to; the reader is then at its end. *)
Theorem write_read_roundtrip `{AllocatorLaws} w m ws b xs :
  write_rep w m ws -> bytes_at m (data b) xs -> size b = Z.of_nat (length xs) -> size b < 2 ^ 64 ->
  (input_ok w b -> write_outcome w m ws xs (write_some b (w, m))) /\
  ((forall j, in_buffer b j -> ~ write_own w j) -> room w ws (length xs) = length xs ->
  ws_borrowed w = true \/ Z.of_nat (length ws + length xs) <= max_size ->
  exists w' m', write_all b (w, m) = Some (success (Z.of_nat (length xs)), (w', m')) /\
    write_rep w' m' (ws ++ xs) /\
    forall limit o old, 0 <= limit -> bytes_at m' (data o) old ->
      size o = Z.of_nat (length old) -> length old = length (ws ++ xs) ->
      (forall j, in_buffer o j -> ~ write_own w' j) ->
      exists s' m'', read_exactly o (open_read (ws_bytes w') limit, m') =
          Some (success (Z.of_nat (length (ws ++ xs))), (s', m'')) /\
        bytes_at m'' (data o) (ws ++ xs) /\ rs_eof s' = true).
Proof.
  intros Hw Hb Hs Hbd. split; [by apply memory_write_ok|]. intros Hd Hroom Hmax.
  destruct (write_all_room w m ws b xs) as (w' & m' & Hr & Hw'); [done..|].
  exists w', m'. split; [done|]. split; [done|]. intros limit o old Hlim Ho Hos Hol Hod.
  by apply read_back with old.
Qed.

(** Three bytes through a buffer of four that is lent to the stream; and a stream that holds two
    bytes, full to its capacity of storage, is given its own bytes. *)
Lemma write_read_roundtrip_witness :
  (let m : memory := list_to_map (zip [10; 11] [x61; x62]%byte) in
   let w := MemoryWriteStream empty_buffer (Vector 10 2 2) 0 dynamic_extent_limit false in
   exists w' m', write_some (ws_bytes w) (w, m) = Some (success 2, (w', m')) /\
     write_rep w' m' [x61; x62; x61; x62]%byte /\ m' !! 10 = None) /\
  let m : memory := list_to_map (zip [10; 11; 12; 13; 20; 21; 22; 30; 31; 32]
    [x00; x00; x00; x00; x01; x02; x03; x00; x00; x00]%byte) in
  exists w' m' s' m'', write_all (Buffer 20 3) (open_borrowed (Buffer 10 4), m) = Some (success 3, (w', m')) /\
    read_exactly (Buffer 30 3) (open_read (ws_bytes w') 1, m') = Some (success 3, (s', m'')) /\
    bytes_at m'' 30 [x01; x02; x03]%byte.
Proof.
  split; intros m.
  { intros w.
    assert (write_rep w m [x61; x62]%byte) as Hw.
    { split; [done|]. split; [done|]. split; [|done]. split; [|done|done|].
      - apply (read_range_inv m 10 2). vm_compute. reflexivity.
      - unfold own. simpl. intros j Hj. assert (j = 10 \/ j = 11) as [-> | ->] by lia; vm_compute; eauto. }
    assert (bytes_at m (data (ws_bytes w)) [x61; x62]%byte) as Hb.
    { apply (read_range_inv m 10 2). vm_compute. reflexivity. }
    destruct (proj1 (write_read_roundtrip w m [x61; x62]%byte (ws_bytes w) [x61; x62]%byte Hw Hb
      eq_refl eq_refl)) as (r & k & w' & m' & Hr & Hres & Hw' & _).
    - right. right. simpl. lia.
    - destruct Hres as [-> ->]. exists w', m'. split; [exact Hr|]. split; [exact Hw'|].
      vm_compute in Hr. simplify_eq. vm_compute. reflexivity. }
  assert (write_rep (open_borrowed (Buffer 10 4)) m []) as Hw.
  { split; [done|]. split; [done|]. split; [apply bytes_at_nil|]. split; [done|]. split; [done|].
    split; [done|]. unfold in_buffer. simpl. intros j Hj.
    assert (j = 10 \/ j = 11 \/ j = 12 \/ j = 13) as [-> |[-> |[-> | ->]]] by lia; vm_compute; eauto. }
  assert (bytes_at m 20 [x01; x02; x03]%byte) as Hb.
  { apply (read_range_inv m 20 3). vm_compute. reflexivity. }
  destruct (proj2 (write_read_roundtrip (open_borrowed (Buffer 10 4)) m [] (Buffer 20 3) [x01; x02; x03]%byte
    Hw Hb eq_refl eq_refl)) as (w' & m' & Hr & Hw' & Hback).
  - unfold in_buffer, write_own. simpl. unfold in_buffer. simpl. lia.
  - done.
  - by left.
  - assert (Hr' := Hr). vm_compute in Hr'. simplify_eq.
    destruct (Hback 1 (Buffer 30 3) [x00; x00; x00]%byte) as (s' & m'' & Hr' & Hbk & _); [lia| |done|done| |].
    + apply (read_range_inv _ 30 3). vm_compute. reflexivity.
    + unfold in_buffer, write_own. simpl. unfold in_buffer. simpl. lia.
    + do 4 eexists. split; [exact Hr|]. split; [exact Hr'|exact Hbk].
Defined.
