(* ===== verification/Extents.v ===== *)
(** * Index types and extents of mdspan

    The integers the layouts of mdspan compute with, and the extents they
    compute from.  An [IndexType] is any integer type up to the width of
    [size_t]; a conversion to it wraps around ([cast]); an arithmetic
    expression over it is evaluated in the promoted type, where an overflow of
    a signed type is undefined ([arith] has no result).  The extents themselves
    are those of the standard library: static ones are part of the type. *)
From S2P Require Import Prelude.

#[local] Open Scope Z_scope.

(** [std::dynamic_extent]. *)
Definition dynamic_extent : Z := 2 ^ 64 - 1.

(** ** Integer types *)

Class IndexType := {
  index_bits : Z;
  index_signed : bool;
  index_bits_range : 8 <= index_bits <= 64;
}.

Section index_type.
Context `{IndexType}.
Implicit Types z a b : Z.

Definition index_min : Z := if index_signed then - 2 ^ (index_bits - 1) else 0.
Definition index_max : Z := if index_signed then 2 ^ (index_bits - 1) - 1 else 2 ^ index_bits - 1.

Definition representable z : bool := (index_min <=? z) && (z <=? index_max).

(** [static_cast<index_type>(z)]. *)
Definition cast z : Z :=
  if index_signed
  then (z + 2 ^ (index_bits - 1)) mod 2 ^ index_bits - 2 ^ (index_bits - 1)
  else z mod 2 ^ index_bits.

(** The value of an arithmetic expression whose operands have the index type:
    types narrower than [int] are promoted to it. *)
Definition arith z : option Z :=
  if index_bits <? 32 then
    if (- 2 ^ 31 <=? z) && (z <? 2 ^ 31) then Some z else None
  else if index_signed then
    if representable z then Some z else None
  else Some (z mod 2 ^ index_bits).

Lemma index_powers : 0 < 2 ^ (index_bits - 1) /\ 2 ^ index_bits = 2 * 2 ^ (index_bits - 1) /\
  2 ^ index_bits <= 2 ^ 64.
Proof.
  pose proof index_bits_range. split_and!.
  - apply Z.pow_pos_nonneg; lia.
  - rewrite <- Z.pow_succ_r by lia. f_equal. lia.
  - apply Z.pow_le_mono_r; lia.
Qed.

Lemma index_max_range : 127 <= index_max < 2 ^ 64 /\ index_min <= 0.
Proof.
  pose proof index_powers as (? & ? & ?). pose proof index_bits_range.
  pose proof (Z.pow_le_mono_r 2 7 (index_bits - 1)).
  unfold index_max, index_min. destruct index_signed; lia.
Qed.

Lemma representable_spec z : representable z = true <-> index_min <= z <= index_max.
Proof. unfold representable. rewrite andb_true_iff, !Z.leb_le. done. Qed.

Lemma cast_id z : index_min <= z <= index_max -> cast z = z.
Proof.
  pose proof index_powers as (? & ? & ?). unfold index_min, index_max, cast. destruct index_signed.
  - intros ?. rewrite Z.mod_small; lia.
  - intros ?. apply Z.mod_small. lia.
Qed.

Lemma cast_nonneg z : 0 <= z <= index_max -> cast z = z.
Proof. pose proof index_max_range as [_ ?]. intros ?. apply cast_id. lia. Qed.

Lemma cast_range z : index_min <= cast z <= index_max.
Proof.
  pose proof index_powers as (? & ? & ?). unfold index_min, index_max, cast. destruct index_signed.
  - pose proof (Z.mod_pos_bound (z + 2 ^ (index_bits - 1)) (2 ^ index_bits)). lia.
  - pose proof (Z.mod_pos_bound z (2 ^ index_bits)). lia.
Qed.

Lemma arith_nonneg z : 0 <= z <= index_max -> arith z = Some z.
Proof.
  pose proof index_powers as (? & ? & ?). pose proof index_max_range as [_ ?]. intros Hz.
  unfold arith. destruct (Z.ltb_spec index_bits 32).
  - assert (index_max < 2 ^ 31).
    { unfold index_max. destruct index_signed.
      - pose proof (Z.pow_le_mono_r 2 (index_bits - 1) 30). lia.
      - pose proof (Z.pow_le_mono_r 2 index_bits 31). lia. }
    by zb.
  - destruct index_signed eqn:E.
    + assert (representable z = true) as -> by (apply representable_spec; lia). done.
    + rewrite Z.mod_small; [done|]. unfold index_max in Hz. rewrite E in Hz. lia.
Qed.
End index_type.

#[export] Hint Resolve cast_range : machine.

(** [int] and [size_t]. *)
#[export] Program Instance int_index : IndexType := {| index_bits := 32; index_signed := true |}.
Next Obligation. lia. Qed.
Definition size_t_index : IndexType.
Proof. refine {| index_bits := 64; index_signed := false |}. lia. Defined.

(** ** Extents *)

(** One dimension of [std::extents]: its extent is part of the type or stored. *)
Inductive dimension := Static (n : Z) | Dynamic (n : Z).
Abbreviation extents := (list dimension).

Definition dim_extent (d : dimension) : Z := match d with Static n | Dynamic n => n end.
Definition dim_static (d : dimension) : Z :=
  match d with Static n => n | Dynamic _ => dynamic_extent end.

Definition rank (e : extents) : nat := length e.
(** [e.extent(r)]; outside the rank it is undefined. *)
Definition extent (e : extents) (r : nat) : option Z := dim_extent <$> e !! r.
Definition static_extent (e : extents) (r : nat) : option Z := dim_static <$> e !! r.
Abbreviation values := (fmap dim_extent).

Section extents.
Context `{IndexType}.

(** A dimension of an [extents] object constructed from a static extent and an
    extent. *)
Definition make_dimension (ns n : Z) : dimension :=
  if ns =? dynamic_extent then Dynamic (cast n) else Static ns.

(** Extents are values of the index type; a static one is not the reserved
    number. *)
Definition dim_ok (d : dimension) : Prop :=
  0 <= dim_extent d <= index_max /\
  match d with Static n => n <> dynamic_extent | Dynamic _ => True end.
End extents.

(** ** Sums and products of extents and strides *)

Definition product (l : list Z) : Z := foldr Z.mul 1 l.

(** The offset of a multi-index: the sum of the indices times the strides. *)
Fixpoint dot (l ss : list Z) : Z :=
  match l, ss with i :: l', s :: ss' => i * s + dot l' ss' | _, _ => 0 end.

(** A multi-index of an index space. *)
Definition in_range (l es : list Z) : Prop := Forall2 (fun i e => 0 <= i < e) l es.

Definition nonempty (es : list Z) : Prop := Forall (fun e => 0 < e) es.

(** The number of elements a strided layout reaches over. *)
Definition span (es ss : list Z) : Z :=
  if existsb (Z.eqb 0) es then 0 else 1 + dot (Z.pred <$> es) ss.

Lemma product_app l1 l2 : product (l1 ++ l2) = product l1 * product l2.
Proof.
  induction l1 as [|x l1 IH]; [by rewrite Z.mul_1_l|].
  change (x * product (l1 ++ l2) = x * product l1 * product l2). rewrite IH. lia.
Qed.

Lemma product_rev l : product (rev l) = product l.
Proof.
  induction l as [|x l IH]; [done|]. simpl. rewrite product_app, IH. simpl. lia.
Qed.

Lemma product_pos l : nonempty l -> 1 <= product l.
Proof. induction 1; simpl; [lia|]. fold (product l). nia. Qed.

Lemma product_nonneg l : Forall (fun e => 0 <= e) l -> 0 <= product l.
Proof. induction 1; simpl; [lia|]. fold (product l). nia. Qed.

Lemma dot_app l1 l2 ss1 ss2 :
  length l1 = length ss1 -> dot (l1 ++ l2) (ss1 ++ ss2) = dot l1 ss1 + dot l2 ss2.
Proof.
  revert ss1. induction l1 as [|i l1 IH]; intros [|s ss1]; simpl; try done.
  intros [= E]. rewrite IH by done. lia.
Qed.

Lemma dot_rev l ss : length l = length ss -> dot (rev l) (rev ss) = dot l ss.
Proof.
  revert ss. induction l as [|i l IH]; intros [|s ss]; simpl; try done.
  intros [= E]. rewrite dot_app, IH by (try rewrite !length_rev; done). simpl. lia.
Qed.

Lemma in_range_nonempty l es : in_range l es -> nonempty es.
Proof. induction 1; constructor; [lia|done]. Qed.

Lemma nonempty_existsb es :
  Forall (fun e => 0 <= e) es -> existsb (Z.eqb 0) es = false <-> nonempty es.
Proof.
  induction 1 as [|e es He _ IH]; cbn [existsb]; [split; [constructor|done]|].
  rewrite orb_false_iff, IH, Z.eqb_neq. split.
  - intros [? ?]. constructor; [lia|done].
  - intros [? ?]%Forall_cons. split; [lia|done].
Qed.

Lemma span_nonempty es ss : nonempty es -> span es ss = 1 + dot (Z.pred <$> es) ss.
Proof.
  intros Hn. unfold span. assert (existsb (Z.eqb 0) es = false) as ->; [|done].
  apply nonempty_existsb; [|done]. eapply Forall_impl; [exact Hn|]. simpl. lia.
Qed.

Lemma dot_nonneg l ss :
  Forall (fun i => 0 <= i) l -> Forall (fun s => 0 <= s) ss -> 0 <= dot l ss.
Proof.
  intros Hl. revert ss. induction Hl as [|i l Hi _ IH]; intros ss Hss; simpl; [lia|].
  destruct Hss as [|s ss Hs Hss]; [lia|]. specialize (IH ss Hss). nia.
Qed.

Lemma dot_bounds l es ss :
  in_range l es -> Forall (fun s => 0 <= s) ss -> length ss = length es ->
  0 <= dot l ss <= dot (Z.pred <$> es) ss.
Proof.
  intros Hl. revert ss. induction Hl as [|i e l es Hi _ IH]; intros [|s ss] Hs Hlen; try done.
  apply Forall_cons in Hs as [Hs Hss]. injection Hlen as Hlen. specialize (IH ss Hss Hlen).
  csimpl. cbn [dot]. nia.
Qed.

(** Every offset of an index space lies within its span. *)
Lemma dot_span l es ss :
  in_range l es -> Forall (fun s => 0 <= s) ss -> length ss = length es ->
  0 <= dot l ss < span es ss.
Proof.
  intros Hl Hs Hlen. rewrite span_nonempty by by eapply in_range_nonempty.
  pose proof (dot_bounds _ _ _ Hl Hs Hlen). lia.
Qed.
