(* ===== verification/Layouts.v ===== *)
(** * Layout mappings of mdspan

    Models backport/cpp26/mdspan_padded.hpp: the mappings of
    [layout_left_padded] and [layout_right_padded], with every arithmetic
    operation in the index type, next to the three mappings of the standard
    library they convert from and to, which are given by the formulas of their
    specification.  A definition has no result when the code would not compile
    (a failed [static_assert]) or when a signed computation overflows. *)
From S2P Require Import Prelude Extents.

#[local] Open Scope Z_scope.

(** A mapping object, with what is part of its type. *)
Inductive mapping :=
  | LayoutLeft (e : extents)
  | LayoutRight (e : extents)
  | LayoutStride (e : extents) (strides_ : list Z)
  | LayoutLeftPadded (padding_value : Z) (e : extents) (stride_1_ : Z)
  | LayoutRightPadded (padding_value : Z) (e : extents) (stride_rm2_ : Z).

Definition extents_of (m : mapping) : extents :=
  match m with
  | LayoutLeft e | LayoutRight e | LayoutStride e _
  | LayoutLeftPadded _ e _ | LayoutRightPadded _ e _ => e
  end.

(** ** Helpers *)

Section helpers.
Context `{IndexType}.

Definition empty_extents (e : extents) : bool := existsb (Z.eqb 0) (values e).

Definition least_multiple_at_least (alignment value : Z) : option Z :=
  if alignment =? 0 then Some value
  else if value =? 0 then Some 0
  else
    let remainder := Z.rem value alignment in
    if remainder =? 0 then Some value
    else
      gap ← arith (alignment - remainder);
      sum ← arith (value + gap);
      Some (cast sum).

Definition index_digits : Z := if index_signed then index_bits - 1 else index_bits.
Definition static_size_limit : Z := if index_digits <? 64 then index_max else 2 ^ 64 - 1.

Definition static_stride_representable (padding ext : Z) : bool :=
  let limit := static_size_limit in
  if limit <? ext then false
  else if padding =? 0 then true
  else
    let remainder := ext mod padding in
    (remainder =? 0) || (padding - remainder <=? limit - ext).

(** The loop over the factors; the index type is the type of the limit. *)
Fixpoint product_loop (limit acc : Z) (factors : list Z) : option bool :=
  match factors with
  | [] => Some true
  | factor :: factors' =>
      if limit / acc <? factor then Some false
      else p ← arith (acc * cast factor); product_loop limit (cast p) factors'
  end.

Definition static_product_representable (limit : Z) (factors : list Z) : option bool :=
  if existsb (Z.eqb 0) factors then Some true else product_loop limit 1 factors.

(** The static extents, with one of them replaced by the padded stride. *)
Definition padded_factors (e : extents) (padded_dim : nat) (padded_stride : Z) : list Z :=
  <[padded_dim := padded_stride]> (dim_static <$> e).

Definition rank_dynamic (e : extents) : nat :=
  length (filter (fun d => dim_static d = dynamic_extent) e).

(** The extents of a type with static extents [ns] made from other extents. *)
Definition convert_extents (ns : list Z) (e : extents) : extents :=
  zip_with make_dimension ns (values e).

Definition make_stride (ext padding : Z) : option Z := least_multiple_at_least padding ext.

End helpers.

Section mappings.
Context `{IndexType}.

(** ** [layout_left_padded] *)

Definition first_static_extent (e : extents) : Z :=
  match e with [] => dynamic_extent | d :: _ => dim_static d end.

Definition left_static_padding_stride (padding_value : Z) (e : extents) : option Z :=
  if (rank e <=? 1)%nat then Some 1
  else if (padding_value =? dynamic_extent) || (first_static_extent e =? dynamic_extent)
  then Some dynamic_extent
  else if static_stride_representable padding_value (first_static_extent e)
  then @least_multiple_at_least size_t_index padding_value (first_static_extent e)
  else Some 0.

(** The loop that multiplies [count] extents from index [k] on. *)
Fixpoint stride_loop (e : extents) (count k : nat) (result : Z) : option Z :=
  match count with
  | O => Some result
  | S count' =>
      x ← extent e k;
      p ← arith (result * cast x);
      stride_loop e count' (S k) (cast p)
  end.

Definition left_padded_stride (e : extents) (stride_1_ : Z) (r : nat) : option Z :=
  if (rank e =? 0)%nat then Some 1
  else if (r =? 0)%nat then Some 1
  else if (r =? 1)%nat then Some stride_1_
  else stride_loop e (r - 1) 1 stride_1_.

(** ** [layout_right_padded] *)

Definition last_static_extent (e : extents) : Z :=
  match last e with None => dynamic_extent | Some d => dim_static d end.

Definition right_static_padding_stride (padding_value : Z) (e : extents) : option Z :=
  if (rank e <=? 1)%nat then Some 1
  else if (padding_value =? dynamic_extent) || (last_static_extent e =? dynamic_extent)
  then Some dynamic_extent
  else if static_stride_representable padding_value (last_static_extent e)
  then @least_multiple_at_least size_t_index padding_value (last_static_extent e)
  else Some 0.

Definition right_padded_stride (e : extents) (stride_rm2_ : Z) (r : nat) : option Z :=
  if (rank e =? 0)%nat then Some 1
  else if (r =? rank e - 1)%nat then Some 1
  else if (r =? rank e - 2)%nat then Some stride_rm2_
  else stride_loop e (rank e - 1 - (r + 1)) (r + 1) stride_rm2_.

(** ** The members of a mapping *)

(** The mappings of the standard library: a product of extents, or the stored
    stride. *)
Definition stride (m : mapping) (r : nat) : option Z :=
  match m with
  | LayoutLeft e => if (r <? rank e)%nat then Some (product (take r (values e))) else None
  | LayoutRight e => if (r <? rank e)%nat then Some (product (drop (S r) (values e))) else None
  | LayoutStride e ss => ss !! r
  | LayoutLeftPadded _ e stride_1_ => left_padded_stride e stride_1_ r
  | LayoutRightPadded _ e stride_rm2_ => right_padded_stride e stride_rm2_ r
  end.

Definition strides (m : mapping) : option (list Z) :=
  mapM (stride m) (seq 0 (rank (extents_of m))).

(** [result += static_cast<index_type>(idx) * stride(r++)], for all indices. *)
Fixpoint call_loop (m : mapping) (r : nat) (l : list Z) (result : Z) : option Z :=
  match l with
  | [] => Some result
  | i :: l' =>
      s ← stride m r;
      p ← arith (cast i * s);
      t ← arith (result + p);
      call_loop m (S r) l' (cast t)
  end.

(** [operator()]. *)
Definition call (m : mapping) (l : list Z) : option Z :=
  match m with
  | LayoutLeftPadded _ _ _ | LayoutRightPadded _ _ _ => call_loop m 0 l 0
  | _ => dot l <$> strides m
  end.

Fixpoint span_loop (m : mapping) (r : nat) (es : list Z) (result : Z) : option Z :=
  match es with
  | [] => Some result
  | x :: es' =>
      d ← arith (x - 1);
      s ← stride m r;
      p ← arith (cast d * s);
      t ← arith (result + p);
      span_loop m (S r) es' (cast t)
  end.

Definition required_span_size (m : mapping) : option Z :=
  match m with
  | LayoutLeftPadded _ e _ | LayoutRightPadded _ e _ =>
      if empty_extents e then Some 0
      else t ← span_loop m 0 (values e) 0; u ← arith (t + 1); Some (cast u)
  | LayoutLeft e | LayoutRight e => Some (product (values e))
  | LayoutStride e ss => Some (span (values e) ss)
  end.

(** [is_exhaustive] and [is_always_exhaustive] of the padded mappings. *)
Definition is_exhaustive (m : mapping) : option bool :=
  match m with
  | LayoutLeftPadded _ e _ =>
      if (rank e <=? 1)%nat then Some true
      else x ← extent e 0; s ← stride m 1; Some (cast x =? s)
  | LayoutRightPadded _ e _ =>
      if (rank e <=? 1)%nat then Some true
      else x ← extent e (rank e - 1); s ← stride m (rank e - 2); Some (cast x =? s)
  | _ => None
  end.

Definition is_always_exhaustive (m : mapping) : option bool :=
  match m with
  | LayoutLeftPadded p e _ =>
      if (rank e <=? 1)%nat then Some true
      else
        s ← left_static_padding_stride p e;
        Some (if negb (s =? dynamic_extent) && negb (first_static_extent e =? dynamic_extent)
              then s =? first_static_extent e else false)
  | LayoutRightPadded p e _ =>
      if (rank e <=? 1)%nat then Some true
      else
        s ← right_static_padding_stride p e;
        Some (if negb (s =? dynamic_extent) && negb (last_static_extent e =? dynamic_extent)
              then s =? last_static_extent e else false)
  | _ => None
  end.

(** ** The [static_assert]s of the two classes *)

Definition padded_mandates (padding_value : Z) (e : extents) (static_ext : Z)
    (padded_dim : nat) (static_padding_stride : option Z) : option bool :=
  products ← (if (0 <? rank_dynamic e)%nat then Some true
              else static_product_representable index_max (dim_static <$> e));
  let padding := (padding_value =? dynamic_extent) || representable padding_value in
  let stride := (rank e <=? 1)%nat || (padding_value =? dynamic_extent) ||
    (static_ext =? dynamic_extent) || static_stride_representable padding_value static_ext in
  s ← static_padding_stride;
  padded ← (if (rank e <=? 1)%nat || (padding_value =? dynamic_extent) ||
               (0 <? rank_dynamic e)%nat then Some true
            else @static_product_representable size_t_index static_size_limit
                   (padded_factors e padded_dim s));
  Some (products && padding && stride && padded).

Definition left_padded_mandates (padding_value : Z) (e : extents) : option bool :=
  padded_mandates padding_value e (first_static_extent e) 0
    (left_static_padding_stride padding_value e).
Definition right_padded_mandates (padding_value : Z) (e : extents) : option bool :=
  padded_mandates padding_value e (last_static_extent e) (rank e - 1)
    (right_static_padding_stride padding_value e).

(** ** Constructors *)

Definition left_padded_of_extents (padding_value : Z) (e : extents) : option mapping :=
  s ← (if (1 <? rank e)%nat then
         x ← extent e 0;
         if padding_value =? dynamic_extent then Some (cast x)
         else make_stride (cast x) (cast padding_value)
       else Some 1);
  Some (LayoutLeftPadded padding_value e s).

Definition left_padded_with_padding (padding_value : Z) (e : extents) (padding : Z) : option mapping :=
  s ← (if (1 <? rank e)%nat then
         x ← extent e 0; make_stride (cast x) (cast padding)
       else Some 1);
  Some (LayoutLeftPadded padding_value e s).

Definition right_padded_of_extents (padding_value : Z) (e : extents) : option mapping :=
  s ← (if (1 <? rank e)%nat then
         x ← extent e (rank e - 1);
         if padding_value =? dynamic_extent then Some (cast x)
         else make_stride (cast x) (cast padding_value)
       else Some 1);
  Some (LayoutRightPadded padding_value e s).

Definition right_padded_with_padding (padding_value : Z) (e : extents) (padding : Z) : option mapping :=
  s ← (if (1 <? rank e)%nat then
         x ← extent e (rank e - 1); make_stride (cast x) (cast padding)
       else Some 1);
  Some (LayoutRightPadded padding_value e s).

(** ** Conversions *)

(** Static extents (or strides, or paddings) that may be equal. *)
Definition compatible (a b : Z) : bool :=
  (a =? dynamic_extent) || (b =? dynamic_extent) || (a =? b).

(** [is_constructible_v] between types of extents. *)
Definition is_constructible (ns : list Z) (e : extents) : bool :=
  (length ns =? rank e)%nat && forallb (fun p => compatible p.1 (dim_static p.2)) (zip ns e).

(** The constructors of [layout_left_padded<padding_value>::mapping] with
    static extents [ns] from another mapping. *)
Definition to_left_padded (padding_value : Z) (ns : list Z) (other : mapping) : option mapping :=
  if negb (is_constructible ns (extents_of other)) then None else
  let e := convert_extents ns (extents_of other) in
  match other with
  | LayoutLeft oe =>
      s ← left_static_padding_stride padding_value e;
      if (1 <? rank oe)%nat && negb (compatible s (first_static_extent oe)) then None
      else left_padded_of_extents padding_value e
  | LayoutStride _ _ =>
      s ← (if (1 <? rank e)%nat then cast <$> stride other 1 else Some 1);
      Some (LayoutLeftPadded padding_value e s)
  | LayoutLeftPadded p _ _ =>
      if (1 <? rank e)%nat && negb (compatible padding_value p) then None else
      s ← (if (1 <? rank e)%nat then cast <$> stride other 1 else Some 1);
      Some (LayoutLeftPadded padding_value e s)
  | LayoutRightPadded _ _ _ | LayoutRight _ =>
      if (rank e <=? 1)%nat then Some (LayoutLeftPadded padding_value e 1) else None
  end.

Definition to_right_padded (padding_value : Z) (ns : list Z) (other : mapping) : option mapping :=
  if negb (is_constructible ns (extents_of other)) then None else
  let e := convert_extents ns (extents_of other) in
  match other with
  | LayoutRight oe =>
      s ← right_static_padding_stride padding_value e;
      if (1 <? rank oe)%nat && negb (compatible s (last_static_extent oe)) then None
      else right_padded_of_extents padding_value e
  | LayoutStride _ _ =>
      s ← (if (1 <? rank e)%nat then cast <$> stride other (rank e - 2) else Some 1);
      Some (LayoutRightPadded padding_value e s)
  | LayoutRightPadded p _ _ =>
      if (1 <? rank e)%nat && negb (compatible padding_value p) then None else
      s ← (if (1 <? rank e)%nat then cast <$> stride other (rank e - 2) else Some 1);
      Some (LayoutRightPadded padding_value e s)
  | LayoutLeftPadded _ _ _ | LayoutLeft _ =>
      if (rank e <=? 1)%nat then Some (LayoutRightPadded padding_value e 1) else None
  end.

(** The conversions of a padded mapping to the mappings of the library. *)
Definition to_layout_left (ns : list Z) (m : mapping) : option mapping :=
  match m with
  | LayoutLeftPadded p e _ =>
      if negb (is_constructible ns e) then None else
      s ← left_static_padding_stride p e;
      if (1 <? length ns)%nat && negb (compatible (hd dynamic_extent ns) s) then None
      else Some (LayoutLeft (convert_extents ns e))
  | _ => None
  end.

Definition to_layout_right (ns : list Z) (m : mapping) : option mapping :=
  match m with
  | LayoutRightPadded p e _ =>
      if negb (is_constructible ns e) then None else
      s ← right_static_padding_stride p e;
      if (1 <? length ns)%nat && negb (compatible (List.last ns dynamic_extent) s) then None
      else Some (LayoutRight (convert_extents ns e))
  | _ => None
  end.

Definition to_layout_stride (ns : list Z) (m : mapping) : option mapping :=
  match m with
  | LayoutLeftPadded _ e _ | LayoutRightPadded _ e _ =>
      if negb (is_constructible ns e) then None else
      converted ← strides m;
      Some (LayoutStride (convert_extents ns e) (cast <$> converted))
  | _ => None
  end.

(** [operator==] of two padded mappings of the same side and rank. *)
Definition padded_eqb (x y : mapping) : option bool :=
  let equal := bool_decide (values (extents_of x) = values (extents_of y)) in
  match x, y with
  | LayoutLeftPadded _ e _, LayoutLeftPadded _ _ _ =>
      if (rank e <=? 1)%nat then Some equal
      else s ← stride x 1; t ← stride y 1; Some (equal && (s =? t))
  | LayoutRightPadded _ e _, LayoutRightPadded _ _ _ =>
      if (rank e <=? 1)%nat then Some equal
      else s ← stride x (rank e - 2); t ← stride y (rank e - 2); Some (equal && (s =? t))
  | _, _ => None
  end.
End mappings.
