(* ===== verification/LayoutSpec.v ===== *)
(** * What the layout mappings compute and what makes them well formed

    The strides of every mapping in closed form ([ref_strides]), when a mapping
    is well formed ([mapping_ok]), and that on a well-formed mapping the code
    computes, without an overflow, the strides, the offset of every multi-index
    and the size of the span that the closed form gives. *)
From S2P Require Import Prelude Extents Layouts.

#[local] Open Scope Z_scope.

(** ** Strides in closed form *)

(** Each stride is the one before it times the extent before it. *)
Fixpoint prefix_strides (s : Z) (es : list Z) : list Z :=
  match es with [] => [] | e :: es' => s :: prefix_strides (s * e) es' end.

(** The strides of a padded layout, from the dimension of stride 1 on. *)
Definition padded_strides (s : Z) (es : list Z) : list Z :=
  match es with [] => [] | _ :: es' => 1 :: prefix_strides s es' end.

Definition ref_strides (m : mapping) : list Z :=
  let es := values (extents_of m) in
  match m with
  | LayoutLeft _ => prefix_strides 1 es
  | LayoutRight _ => rev (prefix_strides 1 (rev es))
  | LayoutStride _ ss => ss
  | LayoutLeftPadded _ _ s => padded_strides s es
  | LayoutRightPadded _ _ s => rev (padded_strides s (rev es))
  end.

Lemma prefix_strides_length s es : length (prefix_strides s es) = length es.
Proof. revert s. induction es; intros s; simpl; auto. Qed.

Lemma padded_strides_length s es : length (padded_strides s es) = length es.
Proof. destruct es; simpl; [done|]. by rewrite prefix_strides_length. Qed.

Lemma prefix_strides_lookup s es r :
  (r < length es)%nat -> prefix_strides s es !! r = Some (s * product (take r es)).
Proof.
  revert s r. induction es as [|e es IH]; intros s [|r] Hr; simpl in *; try lia.
  - f_equal. lia.
  - rewrite IH by lia. f_equal. unfold product. simpl. lia.
Qed.

Lemma prefix_strides_app s es1 es2 :
  prefix_strides s (es1 ++ es2) = prefix_strides s es1 ++ prefix_strides (s * product es1) es2.
Proof.
  revert s. induction es1 as [|e es1 IH]; intros s; simpl; [f_equal; lia|].
  rewrite IH. do 3 f_equal. unfold product. simpl. lia.
Qed.

Lemma padded_strides_lookup s es r :
  (0 < r < length es)%nat -> padded_strides s es !! r = Some (s * product (take (r - 1) (drop 1 es))).
Proof.
  destruct es as [|e es]; intros Hr; simpl in *; [lia|]. destruct r as [|r]; [lia|]. simpl.
  rewrite Nat.sub_0_r, drop_0. apply prefix_strides_lookup. lia.
Qed.

(** The mixed-radix number of a multi-index. *)
Fixpoint number (l es : list Z) : Z :=
  match l, es with i :: l', e :: es' => i + e * number l' es' | _, _ => 0 end.

Lemma dot_prefix_strides s l es :
  length l = length es -> dot l (prefix_strides s es) = s * number l es.
Proof.
  revert s l. induction es as [|e es IH]; intros s [|i l] E; simpl in *; try lia.
  rewrite IH by lia. lia.
Qed.

Lemma number_bounds l es : in_range l es -> 0 <= number l es < product es.
Proof.
  induction 1 as [|i e l es Hi _ IH]; simpl; [done|].
  change (product (e :: es)) with (e * product es).
  nia.
Qed.

Lemma digit_inj b i i' a a' :
  0 <= i < b -> 0 <= i' < b -> i + b * a = i' + b * a' -> i = i' /\ a = a'.
Proof. intros Hi Hi' E. destruct (Z.div_mod_unique b a a' i i'); lia. Qed.

Lemma number_inj l l' es : in_range l es -> in_range l' es -> number l es = number l' es -> l = l'.
Proof.
  intros Hl. revert l'. induction Hl as [|i e l es Hi Hl IH]; intros l' Hl' E;
    inversion Hl' as [|i' ? l0 ? Hi' Hl0]; subst; [done|]. simpl in E.
  destruct (digit_inj _ _ _ _ _ Hi Hi' E) as [-> ?]. f_equal. by apply IH.
Qed.

Lemma prefix_strides_inj l l' es :
  in_range l es -> in_range l' es ->
  dot l (prefix_strides 1 es) = dot l' (prefix_strides 1 es) -> l = l'.
Proof.
  intros Hl Hl' E. eapply number_inj; [done..|].
  rewrite !dot_prefix_strides in E by (eapply Forall2_length; done). lia.
Qed.

(** Padding only widens the first dimension. *)
Lemma padded_strides_inj s l l' es :
  (match es with e :: _ :: _ => e <= s | _ => True end) ->
  in_range l es -> in_range l' es ->
  dot l (padded_strides s es) = dot l' (padded_strides s es) -> l = l'.
Proof.
  intros Hs Hl Hl'. inversion Hl as [|i e l1 es1 Hi Hl1]; subst; [by inversion Hl'|].
  inversion Hl' as [|i' ? l1' ? Hi' Hl1']; subst. simpl.
  rewrite !dot_prefix_strides by (eapply Forall2_length; done). intros E.
  pose proof (number_bounds _ _ Hl1). pose proof (number_bounds _ _ Hl1').
  destruct es1 as [|e1 es1].
  - inversion Hl1; inversion Hl1'; subst. f_equal. simpl in E. lia.
  - destruct (digit_inj s i i' (number l1 (e1 :: es1)) (number l1' (e1 :: es1))) as [-> ?]; try lia.
    f_equal. by eapply number_inj.
Qed.

Lemma in_range_rev l es : in_range l es -> in_range (rev l) (rev es).
Proof.
  induction 1 as [|i e l es Hi _ IH]; simpl; [constructor|]. apply Forall2_app; [done|].
  by constructor.
Qed.

Lemma nonempty_rev es : nonempty (rev es) <-> nonempty es.
Proof. unfold nonempty. by rewrite <- Permutation_rev. Qed.

(** ** Well-formed mappings *)

(** The least multiple of [pad] that is at least [n]. *)
Definition lm (pad n : Z) : Z := if pad =? 0 then n else (n + pad - 1) / pad * pad.

Section well_formed.
Context `{IndexType}.
Implicit Types (m : mapping) (e : extents).

(** Extents with the empty ones left out of their product. *)
Definition grown (es : list Z) : list Z := Z.max 1 <$> es.

(** The extents [es] of a padded mapping, in the order of its strides, and its
    stored stride [s]: the padded index space fits the index type, and the
    stride is the one of the type when that is fixed. *)
Definition padded_ok (padding_value static_ext s : Z) (es : list Z) : Prop :=
  match es with
  | e :: (_ :: _) as es' =>
      e <= s /\ s * product (grown es') <= index_max /\
      (padding_value <> dynamic_extent -> 0 <= padding_value <= index_max /\
       (static_ext <> dynamic_extent -> s = lm padding_value static_ext))
  | _ => s = 1
  end.

(** The preconditions of the constructors.  An empty index space has to fit
    the index type without its empty dimensions, since the code multiplies
    strides before it looks for them. *)
Definition layout_ok m : Prop :=
  match m with
  | LayoutLeft e | LayoutRight e => product (grown (values e)) <= index_max
  | LayoutStride e ss =>
      length ss = rank e /\ Forall (fun s => index_min <= s <= index_max) ss /\
      (nonempty (values e) -> Forall (fun s => 0 <= s) ss /\ span (values e) ss <= index_max)
  | LayoutLeftPadded p e s => padded_ok p (first_static_extent e) s (values e)
  | LayoutRightPadded p e s => padded_ok p (last_static_extent e) s (rev (values e))
  end.

Definition mapping_ok m : Prop := Forall dim_ok (extents_of m) /\ layout_ok m.

Lemma ref_strides_length m : layout_ok m -> length (ref_strides m) = rank (extents_of m).
Proof.
  unfold rank. destruct m; simpl; try (by intros [? _]); intros HL;
    rewrite ?length_rev, ?prefix_strides_length, ?padded_strides_length, ?length_rev, ?length_fmap; done.
Qed.

Lemma values_range e : Forall dim_ok e -> Forall (fun x => 0 <= x <= index_max) (values e).
Proof. intros He. apply Forall_fmap. eapply Forall_impl; [exact He|]. by intros d [? _]. Qed.

Lemma values_nonneg e : Forall dim_ok e -> Forall (fun x => 0 <= x) (values e).
Proof. intros He. eapply Forall_impl; [by apply values_range|]. simpl. lia. Qed.

Lemma extent_lookup e r x : values e !! r = Some x -> extent e r = Some x.
Proof. unfold extent. by rewrite list_lookup_fmap. Qed.

(** ** Strides *)

Lemma grown_app es1 es2 : grown (es1 ++ es2) = grown es1 ++ grown es2.
Proof. apply fmap_app. Qed.

Lemma grown_rev es : grown (rev es) = rev (grown es).
Proof. apply map_rev. Qed.

Lemma grown_nonempty es : nonempty es -> grown es = es.
Proof. induction 1 as [|e es He _ IH]; csimpl; [done|]. f_equal; [lia|done]. Qed.

Lemma grown_pos es : 1 <= product (grown es).
Proof. apply product_pos. apply Forall_fmap, Forall_true. simpl. lia. Qed.

(** Leaving extents out, or making them smaller, makes the product smaller. *)
Lemma grown_stretch es1 es2 es3 : product (grown es2) <= product (grown (es1 ++ es2 ++ es3)).
Proof.
  rewrite !grown_app, !product_app. pose proof (grown_pos es1). pose proof (grown_pos es2).
  pose proof (grown_pos es3).
  assert (product (grown es2) <= product (grown es2) * product (grown es3)) by nia. nia.
Qed.

Lemma grown_bound es : Forall (fun x => 0 <= x) es -> 0 <= product es <= product (grown es).
Proof.
  intros He. split; [by apply product_nonneg|].
  induction He as [|e es H1 H2 IH]; [done|]. csimpl.
  change (e * product es <= Z.max 1 e * product (grown es)).
  pose proof (product_nonneg _ H2). pose proof (grown_pos es). nia.
Qed.

Lemma stretch_bound s es k i :
  0 <= s -> Forall (fun x => 0 <= x) es -> s * product (grown es) <= index_max ->
  0 <= s * product (take i (drop k es)) <= index_max.
Proof.
  intros Hs He Hm.
  destruct (grown_bound (take i (drop k es))) as [H1 H2]; [by apply Forall_take, Forall_drop|].
  pose proof (grown_stretch (take k es) (take i (drop k es)) (drop i (drop k es))) as H3.
  rewrite !take_drop in H3. nia.
Qed.

(** The loop computes the product of the extents it passes. *)
Lemma stride_loop_ok e count k s es0 :
  Forall dim_ok e -> (k + count <= rank e)%nat -> 0 <= s ->
  es0 = take count (drop k (values e)) -> s * product (grown es0) <= index_max ->
  stride_loop e count k s = Some (s * product es0).
Proof.
  intros He Hk Hs ->. revert k s Hk Hs. induction count as [|count IH]; intros k s Hk Hs Hm; simpl.
  { f_equal. unfold product. simpl. lia. }
  unfold rank in Hk. destruct (lookup_lt_is_Some_2 (values e) k) as [x Hx]; [rewrite length_fmap; lia|].
  rewrite (extent_lookup _ _ _ Hx). simpl.
  pose proof (values_range _ He) as Hr. rewrite Forall_forall in Hr.
  specialize (Hr x (list_elem_of_lookup_2 _ _ _ Hx)).
  rewrite cast_nonneg by done. rewrite (drop_S _ _ _ Hx) in *. csimpl in Hm. csimpl.
  change (product (?y :: ?l)) with (y * product l) in *.
  set (es1 := take count (drop (S k) (values e))) in *. pose proof (grown_pos es1).
  change (s * (Z.max 1 x * product (grown es1)) <= index_max) in Hm.
  assert (x <= Z.max 1 x /\ 1 <= Z.max 1 x) as [H1 H2] by lia. set (m := Z.max 1 x) in *.
  assert (s * x <= s * m) by nia. assert (s * m <= s * m * product (grown es1)) by nia.
  assert (s * x * product (grown es1) <= s * m * product (grown es1)) by nia.
  assert (0 <= s * x <= index_max) as Hsx by lia.
  rewrite arith_nonneg by done. simpl. rewrite cast_nonneg by done.
  rewrite IH; [by rewrite Z.mul_assoc|unfold rank; lia|nia|]. fold es1. lia.
Qed.

Lemma prefix_strides_range s es :
  0 <= s -> Forall (fun x => 0 <= x) es -> s * product (grown es) <= index_max ->
  Forall (fun x => 0 <= x <= index_max) (prefix_strides s es).
Proof.
  intros Hs He Hm. apply Forall_lookup. intros r x Hx.
  pose proof (lookup_lt_Some _ _ _ Hx) as Hr. rewrite prefix_strides_length in Hr.
  rewrite prefix_strides_lookup in Hx by done. injection Hx as <-.
  by apply (stretch_bound s es 0 r).
Qed.

Lemma padded_ok_range p n s es :
  Forall (fun x => 0 <= x) es -> padded_ok p n s es ->
  0 <= s /\ s * product (grown (drop 1 es)) <= index_max.
Proof.
  pose proof index_max_range. destruct es as [|x [|y es]]; cbn [padded_ok drop]; intros He.
  - intros ->. simpl. lia.
  - intros ->. simpl. lia.
  - apply Forall_cons in He as [? _]. intros (? & ? & _). lia.
Qed.

Lemma padded_strides_range p n s es :
  Forall (fun x => 0 <= x) es -> padded_ok p n s es ->
  Forall (fun x => 0 <= x <= index_max) (padded_strides s es).
Proof.
  intros He Hok. destruct (padded_ok_range _ _ _ _ He Hok) as [Hs Hm]. pose proof index_max_range.
  destruct es as [|x es]; cbn [padded_strides]; constructor; [lia|].
  apply Forall_cons in He as [_ He]. by apply prefix_strides_range.
Qed.

Lemma rev_lookup {A} (l : list A) i : (i < length l)%nat -> rev l !! i = l !! (length l - S i)%nat.
Proof. rewrite rev_alt. apply reverse_lookup. Qed.

(** Extents read from the last dimension on. *)
Lemma outer_right (es : list Z) r :
  (r < length es)%nat -> drop (S r) es = rev (take (length es - S r) (rev es)).
Proof.
  intros Hr. rewrite firstn_rev, rev_involutive. f_equal. lia.
Qed.

Lemma inner_right (es : list Z) r :
  (S r < length es)%nat ->
  take (length es - 1 - (r + 1)) (drop (r + 1) es) =
  rev (take (length es - S r - 1) (drop 1 (rev es))).
Proof.
  intros Hr. rewrite skipn_rev, firstn_rev, rev_involutive, length_take.
  rewrite take_drop_commute. f_equal; [lia|f_equal; lia].
Qed.

(** On a well-formed mapping the code computes the strides. *)
Lemma stride_ok m r :
  mapping_ok m -> (r < rank (extents_of m))%nat -> stride m r = ref_strides m !! r.
Proof.
  intros [He HL] Hr. pose proof (values_nonneg _ He) as Hn.
  assert (rank (extents_of m) = length (values (extents_of m))) as Hlen by by rewrite length_fmap.
  destruct m as [e|e|e ss|p e s|p e s]; simpl in *.
  - destruct (Nat.ltb_spec r (rank e)); [|lia].
    rewrite prefix_strides_lookup by lia. f_equal. lia.
  - destruct (Nat.ltb_spec r (rank e)); [|lia].
    rewrite rev_lookup, prefix_strides_length, length_rev by (by rewrite prefix_strides_length, length_rev, <- Hlen).
    rewrite prefix_strides_lookup by (rewrite length_rev; lia).
    rewrite outer_right, product_rev by lia. f_equal. lia.
  - done.
  - destruct (padded_ok_range _ _ _ _ Hn HL) as [Hs Hm]. unfold left_padded_stride.
    destruct (Nat.eqb_spec (rank e) 0); [lia|]. destruct (Nat.eqb_spec r 0) as [->|].
    { by destruct e. }
    rewrite padded_strides_lookup by lia. destruct (Nat.eqb_spec r 1) as [->|].
    { f_equal. unfold product. simpl. lia. }
    eapply stride_loop_ok; [done|lia|done|done|].
    pose proof (grown_stretch [] (take (r - 1) (drop 1 (values e))) (drop (r - 1) (drop 1 (values e)))) as Hg.
    rewrite app_nil_l, take_drop in Hg. nia.
  - destruct (padded_ok_range _ _ _ _ ltac:(by apply Forall_rev) HL) as [Hs Hm]. unfold right_padded_stride.
    destruct (Nat.eqb_spec (rank e) 0); [lia|].
    rewrite rev_lookup, padded_strides_length, length_rev, <- Hlen
      by (by rewrite padded_strides_length, length_rev, <- Hlen).
    destruct (Nat.eqb_spec r (rank e - 1)) as [->|].
    { replace (rank e - S (rank e - 1))%nat with 0%nat by lia.
      destruct (rev (values e)) eqn:E; [|done]. apply (f_equal length) in E. rewrite length_rev in E. simpl in E. lia. }
    rewrite padded_strides_lookup by (rewrite length_rev; lia).
    destruct (Nat.eqb_spec r (rank e - 2)) as [->|].
    { replace (rank e - S (rank e - 2) - 1)%nat with 0%nat by lia. f_equal. unfold product. simpl. lia. }
    rewrite <- (product_rev (take _ (drop 1 _))), Hlen, <- inner_right by lia.
    eapply stride_loop_ok; [done|lia|done|by f_equal; lia|].
    rewrite inner_right, grown_rev, product_rev by lia.
    set (t := drop 1 (rev (values e))) in *.
    pose proof (grown_stretch [] (take (length (values e) - S r - 1) t) (drop (length (values e) - S r - 1) t)) as Hg.
    rewrite app_nil_l, take_drop in Hg. nia.
Qed.

Lemma ref_strides_range m :
  mapping_ok m -> Forall (fun s => index_min <= s <= index_max) (ref_strides m).
Proof.
  intros [He HL]. pose proof (values_nonneg _ He) as H0. pose proof index_max_range as [Hmax Hmin].
  assert (forall l, Forall (fun s => 0 <= s <= index_max) l ->
    Forall (fun s => index_min <= s <= index_max) l) as Hweak.
  { intros l Hl. eapply Forall_impl; [exact Hl|]. simpl. lia. }
  destruct m as [e|e|e ss|p e s|p e s]; simpl in *; [| |by apply HL| |]; apply Hweak.
  - apply prefix_strides_range; [lia|done|lia].
  - apply Forall_rev, prefix_strides_range; [lia|by apply Forall_rev|]. rewrite grown_rev, product_rev. lia.
  - by eapply padded_strides_range.
  - apply Forall_rev. eapply padded_strides_range; [by apply Forall_rev|done].
Qed.

Lemma strides_ok m : mapping_ok m -> strides m = Some (ref_strides m).
Proof.
  intros Hm. unfold strides. pose proof (ref_strides_length m (proj2 Hm)) as Hlen.
  apply mapM_Some, Forall2_same_length_lookup_2; [by rewrite length_seq|].
  intros i r x Hr Hx. apply lookup_seq in Hr as [-> Hr]. rewrite stride_ok; [done..|lia].
Qed.

(** ** The span of an index space *)

Lemma number_last es : nonempty es -> number (Z.pred <$> es) es = product es - 1.
Proof.
  induction 1 as [|e es He _ IH]; csimpl; [done|]. rewrite IH.
  change (product (e :: es)) with (e * product es). lia.
Qed.

Lemma span_prefix s es :
  nonempty es -> span es (prefix_strides s es) = 1 + s * (product es - 1).
Proof.
  intros Hn. rewrite span_nonempty, dot_prefix_strides, number_last by (done || by rewrite length_fmap).
  done.
Qed.

Lemma span_padded s es :
  nonempty es -> span es (padded_strides s es) =
  match es with [] => 1 | e :: es' => e + s * (product es' - 1) end.
Proof.
  intros Hn. rewrite span_nonempty by done. destruct Hn as [|e es He Hn]; [done|].
  csimpl. cbn [padded_strides dot]. rewrite dot_prefix_strides, number_last by (done || by rewrite length_fmap).
  lia.
Qed.

Lemma span_rev es ss : length es = length ss -> span (rev es) (rev ss) = span es ss.
Proof.
  intros E. unfold span. assert (existsb (Z.eqb 0) (rev es) = existsb (Z.eqb 0) es) as ->.
  { apply eq_true_iff_eq. rewrite !existsb_exists. by setoid_rewrite <- in_rev. }
  assert (Z.pred <$> rev es = rev (Z.pred <$> es)) as -> by apply map_rev.
  by rewrite dot_rev by by rewrite length_fmap.
Qed.

Lemma span_right es : nonempty es -> span es (rev (prefix_strides 1 (rev es))) = product es.
Proof.
  intros Hn. rewrite <- (rev_involutive es) at 1. rewrite span_rev by by rewrite prefix_strides_length.
  rewrite span_prefix, product_rev by by apply nonempty_rev. lia.
Qed.

Lemma span_padded_bound p n s es :
  nonempty es -> Forall (fun x => x <= index_max) es -> padded_ok p n s es ->
  span es (padded_strides s es) <= index_max.
Proof.
  pose proof index_max_range. intros Hn He Hok. rewrite span_padded by done.
  destruct es as [|x es]; [lia|]. apply Forall_cons in He as [Hx He].
  destruct es as [|y es]; cbn [padded_ok] in Hok; [subst; simpl; lia|]. destruct Hok as (? & Hm & _).
  apply Forall_cons in Hn as [_ Hn]. rewrite (grown_nonempty (y :: es)) in Hm by done. lia.
Qed.

(** The strides of a non-empty index space, and its span. *)
Lemma ref_strides_ok m :
  mapping_ok m -> nonempty (values (extents_of m)) ->
  Forall (fun s => 0 <= s) (ref_strides m) /\
  span (values (extents_of m)) (ref_strides m) <= index_max.
Proof.
  intros [He HL] Hn. pose proof (values_nonneg _ He) as H0. pose proof (values_range _ He) as H1.
  pose proof index_max_range as [Hmax _].
  assert (forall l, Forall (fun s => 0 <= s <= index_max) l -> Forall (fun s => 0 <= s) l) as Hweak.
  { intros l Hl. eapply Forall_impl; [exact Hl|]. simpl. lia. }
  assert (Forall (fun x => x <= index_max) (values (extents_of m))) as H2.
  { eapply Forall_impl; [exact H1|]. simpl. lia. }
  pose proof (ref_strides_length m HL) as Hlen. unfold rank in Hlen.
  destruct m as [e|e|e ss|p e s|p e s]; simpl in *.
  - split; [apply Hweak, prefix_strides_range; [lia|done|lia]|].
    rewrite span_prefix by done. rewrite grown_nonempty in HL by done. lia.
  - split.
    + apply Hweak, Forall_rev, prefix_strides_range; [lia|by apply Forall_rev|].
      rewrite grown_rev, product_rev. lia.
    + rewrite span_right by done. by rewrite grown_nonempty in HL.
  - destruct HL as (_ & _ & HL). by apply HL.
  - split; [by eapply Hweak, padded_strides_range|by eapply span_padded_bound].
  - split; [apply Hweak, Forall_rev; eapply padded_strides_range; [by apply Forall_rev|done]|].
    rewrite <- (rev_involutive (values e)) at 1. rewrite span_rev by by rewrite padded_strides_length.
    eapply span_padded_bound; [by apply nonempty_rev|by apply Forall_rev|done].
Qed.

(** ** Offsets *)

(** The sum of indices times strides, when the sum does not overflow. *)
Lemma call_loop_ok m r l ss acc :
  length ss = length l -> (forall i, (i < length l)%nat -> stride m (r + i) = ss !! i) ->
  Forall (fun i => 0 <= i <= index_max) l -> Forall (fun s => 0 <= s) ss ->
  0 <= acc -> acc + dot l ss <= index_max ->
  call_loop m r l acc = Some (acc + dot l ss).
Proof.
  revert r ss acc. induction l as [|i l IH]; intros r [|s ss] acc E Hs Hl Hss Ha Hm; try done.
  { simpl. f_equal. lia. }
  apply Forall_cons in Hl as [Hi Hl]. apply Forall_cons in Hss as [Hs0 Hss]. injection E as E.
  cbn [dot] in Hm. simpl. pose proof (Hs 0%nat ltac:(simpl; lia)) as H0. rewrite Nat.add_0_r in H0.
  rewrite H0. simpl. rewrite cast_nonneg by done.
  assert (0 <= dot l ss) as Hd.
  { apply dot_nonneg; [|done]. eapply Forall_impl; [exact Hl|]. simpl. lia. }
  rewrite arith_nonneg by nia. simpl. rewrite arith_nonneg by nia. simpl. rewrite cast_nonneg by nia.
  rewrite (IH (S r) ss); [f_equal; lia|done| |done|done|nia|lia].
  intros k Hk. specialize (Hs (S k) ltac:(simpl; lia)). by rewrite Nat.add_succ_r in Hs.
Qed.

Lemma span_loop_call m r es acc :
  Forall (fun x => 0 < x <= index_max) es ->
  span_loop m r es acc = call_loop m r (Z.pred <$> es) acc.
Proof.
  revert r acc. induction es as [|x es IH]; intros r acc He; csimpl; [done|].
  apply Forall_cons in He as [Hx He]. rewrite arith_nonneg by lia. simpl.
  destruct (stride m r); simpl; [|done]. replace (x - 1) with (Z.pred x) by lia.
  destruct (arith _); simpl; [|done]. destruct (arith _); simpl; [|done]. by apply IH.
Qed.

Lemma in_range_values l e :
  Forall dim_ok e -> in_range l (values e) -> Forall (fun i => 0 <= i <= index_max) l.
Proof.
  intros He%values_range Hl. revert He. induction Hl as [|i x l es Hi _ IH]; intros He; constructor.
  - apply Forall_cons in He as [? _]. lia.
  - apply IH. by apply Forall_cons in He as [_ ?].
Qed.

(** On a well-formed mapping the code computes the offset of a multi-index. *)
Lemma call_ok m l :
  mapping_ok m -> in_range l (values (extents_of m)) -> call m l = Some (dot l (ref_strides m)).
Proof.
  intros Hm Hl. destruct (ref_strides_ok m Hm) as [Hn Hs]; [by eapply in_range_nonempty|].
  pose proof (ref_strides_length m (proj2 Hm)) as Hlen.
  assert (length (ref_strides m) = length (values (extents_of m))) as Hlen2 by by rewrite length_fmap.
  pose proof (Forall2_length _ _ _ Hl) as Hll.
  pose proof (dot_span _ _ _ Hl Hn Hlen2) as Hd.
  assert (call_loop m 0 l 0 = Some (dot l (ref_strides m))) as Hloop.
  { rewrite (call_loop_ok m 0 _ (ref_strides m) 0); [done|congruence| | |done|lia|lia].
    - intros i Hi. apply stride_ok; [done|]. rewrite Hll, length_fmap in Hi. done.
    - eapply in_range_values; [apply Hm|done]. }
  unfold call. destruct m; try done; by rewrite strides_ok by done.
Qed.

(** On a well-formed mapping the code computes the size of the span. *)
Lemma required_span_size_ok m :
  mapping_ok m ->
  required_span_size m = Some (span (values (extents_of m)) (ref_strides m)).
Proof.
  intros Hm. pose proof (values_nonneg _ (proj1 Hm)) as H0. pose proof (values_range _ (proj1 Hm)) as H1.
  destruct (existsb (Z.eqb 0) (values (extents_of m))) eqn:E.
  - assert (span (values (extents_of m)) (ref_strides m) = 0) as ->; [unfold span; by rewrite E|].
    assert (product (values (extents_of m)) = 0) as Hp.
    { clear -E. induction (values (extents_of m)) as [|x l IH]; [done|]. cbn [existsb] in E.
      change (product (x :: l)) with (x * product l). apply orb_true_iff in E as [?%Z.eqb_eq|?]; [lia|].
      rewrite IH by done. lia. }
    destruct m; simpl in *; unfold empty_extents, span; rewrite ?E, ?Hp; done.
  - apply nonempty_existsb in E; [|done]. destruct (ref_strides_ok m Hm E) as [Hn Hs].
    pose proof (ref_strides_length m (proj2 Hm)) as Hlen.
    assert (empty_extents (extents_of m) = false) as Hne.
    { unfold empty_extents. by apply nonempty_existsb. }
    assert (Some (span (values (extents_of m)) (ref_strides m)) =
      (t ← span_loop m 0 (values (extents_of m)) 0; u ← arith (t + 1); Some (cast u))) as Hloop.
    { assert (Forall (fun x => 0 < x <= index_max) (values (extents_of m))) as Hr.
      { apply Forall_and. split; [done|]. eapply Forall_impl; [exact H1|]. simpl. lia. }
      assert (Forall (fun i => 0 <= i <= index_max) (Z.pred <$> values (extents_of m))) as Hp.
      { apply Forall_fmap. eapply Forall_impl; [exact Hr|]. simpl. lia. }
      assert (0 <= dot (Z.pred <$> values (extents_of m)) (ref_strides m)) as Hd.
      { apply dot_nonneg; [|done]. eapply Forall_impl; [exact Hp|]. simpl. lia. }
      rewrite span_loop_call by done. rewrite span_nonempty in * by done.
      rewrite (call_loop_ok m 0 _ (ref_strides m) 0); simpl.
      - rewrite arith_nonneg by lia. simpl. rewrite cast_nonneg by lia. f_equal. lia.
      - by rewrite length_fmap, length_fmap.
      - intros i Hi. rewrite !length_fmap in Hi. by apply stride_ok.
      - done.
      - done.
      - lia.
      - lia. }
    destruct m; simpl in *; rewrite ?Hne; try done.
    + rewrite span_prefix by done. f_equal. lia.
    + by rewrite span_right.
Qed.

(** Two multi-indices with the same offset are equal; layouts with strides of
    the user's choice make no such promise. *)
Lemma ref_strides_inj m l l' :
  mapping_ok m -> (match m with LayoutStride _ _ => False | _ => True end) ->
  in_range l (values (extents_of m)) -> in_range l' (values (extents_of m)) ->
  dot l (ref_strides m) = dot l' (ref_strides m) -> l = l'.
Proof.
  intros [_ HL] Hm Hl Hl'. pose proof (in_range_rev _ _ Hl). pose proof (in_range_rev _ _ Hl').
  pose proof (Forall2_length _ _ _ Hl). pose proof (Forall2_length _ _ _ Hl').
  destruct m as [e|e|e ss|p e s|p e s]; simpl in *; [| |done| |].
  - by apply prefix_strides_inj.
  - rewrite <- (dot_rev l), <- (dot_rev l'), rev_involutive
      by by rewrite length_rev, prefix_strides_length, length_rev.
    intros E%prefix_strides_inj; [|done..]. by apply (f_equal (@rev Z)) in E; rewrite !rev_involutive in E.
  - intros E. eapply padded_strides_inj; [|done..|exact E].
    destruct (values e) as [|? [|? ?]]; try done. by destruct HL.
  - rewrite <- (dot_rev l), <- (dot_rev l'), rev_involutive
      by by rewrite length_rev, padded_strides_length, length_rev.
    intros E%padded_strides_inj; [| |done..].
    + by apply (f_equal (@rev Z)) in E; rewrite !rev_involutive in E.
    + destruct (rev (values e)) as [|? [|? ?]]; try done. by destruct HL.
Qed.
End well_formed.

(** ** Padded layouts: their constructors and static checks

    The least multiple that pads a stride, the products the [static_assert]s of
    the padded mappings compute, and that the constructors make well-formed
    mappings. *)

(** ** The least multiple *)

Lemma lm_cases pad n :
  0 < pad -> 0 <= n -> lm pad n = if n mod pad =? 0 then n else n + (pad - n mod pad).
Proof.
  intros Hp Hn. unfold lm. destruct (Z.eqb_spec pad 0); [lia|].
  pose proof (Z.div_mod n pad ltac:(lia)) as Hd. pose proof (Z.mod_pos_bound n pad Hp) as Hr.
  set (q := n / pad) in *. set (r := n mod pad) in *. destruct (Z.eqb_spec r 0) as [E|E].
  - assert ((n + pad - 1) / pad = q) as ->; [|lia].
    symmetry. apply Z.div_unique with (r := pad - 1); lia.
  - assert ((n + pad - 1) / pad = q + 1) as ->; [|lia].
    symmetry. apply Z.div_unique with (r := r - 1); lia.
Qed.

(** It is a multiple, it is no less, and it is the least such number. *)
Lemma lm_least pad n : 0 < pad -> 0 <= n -> (pad | lm pad n) /\ n <= lm pad n < n + pad.
Proof.
  intros Hp Hn. split.
  - unfold lm. destruct (Z.eqb_spec pad 0); [lia|]. apply Z.divide_factor_r.
  - rewrite lm_cases by done. pose proof (Z.mod_pos_bound n pad Hp). case_zb; lia.
Qed.

Lemma lm_small s n : 0 <= n <= s -> lm s n = if n =? 0 then 0 else s.
Proof.
  intros Hn. destruct (Z.eq_dec s 0) as [->|Hs].
  { by assert (n = 0) as -> by lia. }
  rewrite lm_cases by lia. destruct (Z.eqb_spec n 0) as [->|]; [by rewrite Zmod_0_l|].
  destruct (Z.eq_dec n s) as [->|]; [by rewrite Z_mod_same_full|].
  rewrite Z.mod_small by lia. zb. lia.
Qed.

Section padded.
Context `{IndexType}.
Implicit Types (e : extents).

Lemma least_multiple_ok pad n :
  0 <= pad <= index_max -> 0 <= n <= index_max -> lm pad n <= index_max ->
  least_multiple_at_least pad n = Some (lm pad n).
Proof.
  intros Hp Hn Hm. unfold least_multiple_at_least. destruct (Z.eqb_spec pad 0) as [->|]; [done|].
  rewrite lm_cases in * by lia. destruct (Z.eqb_spec n 0) as [->|]; [by rewrite Zmod_0_l|].
  rewrite Z.rem_mod_nonneg by lia. pose proof (Z.mod_pos_bound n pad ltac:(lia)).
  destruct (Z.eqb_spec (n mod pad) 0); [done|]. rewrite arith_nonneg by lia. simpl.
  rewrite arith_nonneg by lia. simpl. by rewrite cast_nonneg by lia.
Qed.

(** ** Static checks *)

Lemma static_size_limit_max : static_size_limit = index_max.
Proof.
  pose proof index_bits_range. unfold static_size_limit, index_digits, index_max.
  destruct index_signed; case_zb; try done; [lia|]. by replace index_bits with 64 by lia.
Qed.

Lemma static_stride_representable_spec pad n :
  0 <= pad -> 0 <= n ->
  static_stride_representable pad n = true <-> lm pad n <= index_max /\ n <= index_max.
Proof.
  intros Hp Hn. unfold static_stride_representable. rewrite static_size_limit_max.
  destruct (Z.ltb_spec index_max n); [split; [done|lia]|].
  destruct (Z.eqb_spec pad 0) as [->|]; [by unfold lm|].
  rewrite lm_cases, orb_true_iff, Z.eqb_eq, Z.leb_le by lia. case_zb; split; intros; try lia.
Qed.

Lemma product_loop_spec limit acc fs :
  limit <= index_max -> 0 < acc <= limit -> Forall (fun f => 0 < f) fs ->
  product_loop limit acc fs = Some (acc * product fs <=? limit).
Proof.
  intros Hl Ha Hf. revert acc Ha. induction Hf as [|f fs Hf Hfs IH]; intros acc Ha; simpl.
  { unfold product. simpl. by zb. }
  change (product (f :: fs)) with (f * product fs). pose proof (product_pos _ Hfs) as Hp.
  destruct (Z.ltb_spec (limit / acc) f) as [Hlt|Hle].
  - assert (limit < acc * f) by (pose proof (Z.mul_succ_div_gt limit acc ltac:(lia)); nia).
    f_equal. symmetry. apply Z.leb_gt. nia.
  - assert (acc * f <= limit) by (pose proof (Z.mul_div_le limit acc ltac:(lia)); nia).
    rewrite cast_nonneg by nia. rewrite arith_nonneg by nia. simpl. rewrite cast_nonneg by nia.
    rewrite IH by nia. by rewrite Z.mul_assoc.
Qed.

(** The check multiplies without an overflow and compares with the limit. *)
Lemma static_product_spec limit fs :
  1 <= limit <= index_max -> Forall (fun f => 0 <= f) fs ->
  static_product_representable limit fs = Some (product fs <=? limit).
Proof.
  intros Hl Hf. unfold static_product_representable. destruct (existsb (Z.eqb 0) fs) eqn:E.
  - assert (product fs = 0) as ->; [|by zb]. clear -E. induction fs as [|f fs IH]; [done|].
    change (product (f :: fs)) with (f * product fs). cbn [existsb] in E.
    apply orb_true_iff in E as [?%Z.eqb_eq|?]; [lia|]. rewrite IH by done. lia.
  - apply nonempty_existsb in E; [|done]. rewrite product_loop_spec by (done || lia).
    by rewrite Z.mul_1_l.
Qed.

End padded.

#[local] Instance product_perm : Proper (Permutation ==> eq) product.
Proof.
  intros l1 l2 HP. induction HP; [done| | |by etrans].
  - change (x * product l = x * product l'). by rewrite IHHP.
  - change (y * (x * product l) = x * (y * product l)). lia.
Qed.

Section mandates.
Context `{IndexType}.
Implicit Types (e : extents).

Lemma all_static e :
  Forall dim_ok e -> rank_dynamic e = 0%nat -> dim_static <$> e = values e.
Proof.
  unfold rank_dynamic. induction 1 as [|d e [Hd Hd'] He IH]; [done|]. intros Hr. csimpl.
  destruct (decide (dim_static d = dynamic_extent)) as [E|E].
  { rewrite filter_cons_True in Hr by done. done. }
  rewrite filter_cons_False in Hr by done. rewrite IH by done. by destruct d.
Qed.

(** The checks of a padded class pass: its padding is the stride [s] or not
    fixed, and the index space fits the index type when padded with [s]. *)
Lemma padded_mandates_ok p e n ns s static_ext dim :
  Forall dim_ok e -> (2 <= rank e)%nat -> values e ≡ₚ n :: ns ->
  (static_ext = dynamic_extent \/ static_ext = n) ->
  (rank_dynamic e = 0%nat -> static_ext = n /\
     forall x, padded_factors e dim x ≡ₚ x :: ns) ->
  (p = dynamic_extent \/ p = s) -> n <= s -> s * product (grown ns) <= index_max ->
  padded_mandates p e static_ext dim
    (Some (if (p =? dynamic_extent) || (static_ext =? dynamic_extent) then dynamic_extent else lm p n)) =
  Some true.
Proof.
  pose proof index_max_range as [Hmax Hmin]. intros He Hr Hv Hst Hdyn Hp Hn Hs.
  pose proof (values_nonneg _ He) as H0. rewrite Hv in H0. apply Forall_cons in H0 as [H0 H1].
  pose proof (grown_pos ns) as Hg. pose proof (grown_bound _ H1) as Hb.
  assert (s <= index_max) as Hsm by nia. pose proof (lm_small s n ltac:(lia)) as Hlm.
  assert (0 <= lm s n <= s) as Hlm' by (rewrite Hlm; case_zb; lia).
  unfold padded_mandates. destruct (Nat.leb_spec (rank e) 1); [lia|].
  assert ((if (0 <? rank_dynamic e)%nat then Some true
           else static_product_representable index_max (dim_static <$> e)) = Some true) as ->.
  { destruct (Nat.ltb_spec 0 (rank_dynamic e)); [done|]. rewrite all_static by (done || lia).
    rewrite static_product_spec by (lia || by apply values_nonneg). f_equal. rewrite Hv.
    change (product (n :: ns)) with (n * product ns). apply Z.leb_le. nia. }
  simpl. destruct Hp as [->| ->]; [done|].
  destruct (Z.eqb_spec s dynamic_extent) as [E|E]; [done|].
  assert (representable s = true) as -> by (apply representable_spec; lia). simpl.
  assert ((static_ext =? dynamic_extent) || static_stride_representable s static_ext = true) as Hrep.
  { destruct (Z.eqb_spec static_ext dynamic_extent); [done|]. destruct Hst as [| ->]; [done|]. simpl.
    apply static_stride_representable_spec; lia. }
  destruct (Nat.ltb_spec 0 (rank_dynamic e)); simpl; [by rewrite Hrep|].
  destruct (Hdyn ltac:(lia)) as [Hst' Hf].
  assert ((static_ext =? dynamic_extent) = false) as Hnd.
  { apply Z.eqb_neq. rewrite Hst'. intros ->.
    pose proof (all_static _ He ltac:(lia)) as Ha.
    assert (dynamic_extent ∈ dim_static <$> e) as [d [Hd Hin]]%list_elem_of_fmap
      by (rewrite Ha, Hv; apply list_elem_of_here).
    rewrite Forall_forall in He. destruct (He d Hin) as [_ Hd2].
    unfold rank_dynamic in *. assert (d ∈ filter (fun d => dim_static d = dynamic_extent) e) as Hin2.
    { by apply list_elem_of_filter. }
    rewrite nil_length_inv in Hin2 by lia. by apply elem_of_nil in Hin2. }
  rewrite Hnd in *. simpl in *. rewrite Hrep. rewrite static_size_limit_max.
  assert (@index_max size_t_index = 2 ^ 64 - 1) as H64 by done.
  rewrite static_product_spec; [|rewrite H64; lia|rewrite Hf; constructor; [lia|done]].
  rewrite Hf. change (product (?x :: ns)) with (x * product ns). simpl. do 2 f_equal.
  apply Z.leb_le. nia.
Qed.
End mandates.

Section constructors.
Context `{IndexType}.
Implicit Types (e : extents).

(** The dimension of stride 1 and the others, read from the left or from the
    right. *)
Lemma values_first e n ns :
  values e = n :: ns -> first_static_extent e = dynamic_extent \/ first_static_extent e = n.
Proof. destruct e as [|[m|m] e]; simpl; [done|..]; intros [= <- <-]; auto. Qed.

Lemma last_static_first e : last_static_extent e = first_static_extent (rev e).
Proof.
  unfold last_static_extent, first_static_extent. rewrite rev_alt, <- (reverse_involutive e) at 1.
  change (rev_append e []) with (reverse e). rewrite last_reverse. by destruct (reverse e).
Qed.

Lemma values_rev e : values (rev e) = rev (values e).
Proof. apply map_rev. Qed.

Lemma rank_rev e : rank (rev e) = rank e.
Proof. apply length_rev. Qed.

Lemma dims_rev e : Forall dim_ok e -> Forall dim_ok (rev e).
Proof. apply Forall_rev. Qed.

Lemma static_first e n ns :
  Forall dim_ok e -> rank_dynamic e = 0%nat -> values e = n :: ns ->
  first_static_extent e = n /\ forall x, padded_factors e 0 x = x :: ns.
Proof.
  intros He Hr Hv. pose proof (all_static e He Hr) as Ha. rewrite Hv in Ha.
  destruct e as [|d e]; [done|]. csimpl in Ha. injection Ha as Hd Ha. split; [done|].
  intros x. unfold padded_factors. csimpl. by rewrite Ha.
Qed.

Lemma rank_dynamic_rev e : rank_dynamic (rev e) = rank_dynamic e.
Proof. unfold rank_dynamic. by rewrite <- Permutation_rev. Qed.

Lemma insert_last (l : list Z) (x : Z) :
  (0 < length l)%nat -> <[(length l - 1)%nat := x]> l = rev (<[0%nat := x]> (rev l)).
Proof.
  intros Hl. destruct l as [|y l _] using rev_ind; [done|].
  rewrite length_app. simpl. rewrite rev_app_distr. simpl. rewrite rev_involutive.
  replace (length l + 1 - 1)%nat with (length l + 0)%nat by lia. by rewrite insert_app_r.
Qed.

Lemma static_last e n ns :
  Forall dim_ok e -> rank_dynamic e = 0%nat -> rev (values e) = n :: ns ->
  last_static_extent e = n /\ forall x, padded_factors e (rank e - 1) x = rev (x :: ns).
Proof.
  intros He Hr Hv. rewrite <- values_rev in Hv. rewrite last_static_first.
  destruct (static_first (rev e) n ns) as [H1 H2]; [by apply dims_rev|by rewrite rank_dynamic_rev|done|].
  split; [done|]. intros x. unfold padded_factors. rewrite <- H2. unfold padded_factors.
  assert (dim_static <$> rev e = rev (dim_static <$> e)) as -> by apply map_rev.
  unfold rank. rewrite <- (length_fmap dim_static e). apply insert_last.
  rewrite length_fmap. destruct e; simpl in *; [done|lia].
Qed.

(** The static stride of the type, in closed form. *)
Definition static_stride (p static_ext n : Z) : Z :=
  if (p =? dynamic_extent) || (static_ext =? dynamic_extent) then dynamic_extent else lm p n.

Lemma size_least_ok p n s :
  0 <= n <= s -> s <= index_max -> p = s ->
  @least_multiple_at_least size_t_index p n = Some (lm p n).
Proof.
  pose proof index_max_range. intros Hn Hs ->.
  assert (@index_max size_t_index = 2 ^ 64 - 1) as H64 by done.
  apply least_multiple_ok; rewrite ?H64; try lia. rewrite lm_small by done. case_zb; lia.
Qed.

Lemma static_padding_stride_ok p static_ext n s (e : extents) :
  (2 <= rank e)%nat -> static_ext = dynamic_extent \/ static_ext = n -> (p = dynamic_extent \/ p = s) ->
  0 <= n <= s -> s <= index_max ->
  (if (rank e <=? 1)%nat then Some 1
   else if (p =? dynamic_extent) || (static_ext =? dynamic_extent) then Some dynamic_extent
   else if static_stride_representable p static_ext
   then @least_multiple_at_least size_t_index p static_ext else Some 0) =
  Some (static_stride p static_ext n).
Proof.
  intros Hr Hst Hp Hn Hs. unfold static_stride. destruct (Nat.leb_spec (rank e) 1); [lia|].
  destruct (Z.eqb_spec p dynamic_extent) as [|Hpd]; [done|]. simpl.
  destruct (Z.eqb_spec static_ext dynamic_extent) as [|Hsd]; [done|]. simpl.
  destruct Hst as [|Hst]; [done|]. destruct Hp as [|Hp]; [done|]. rewrite Hst.
  assert (static_stride_representable p n = true) as ->.
  { apply static_stride_representable_spec; try lia. rewrite Hp, lm_small by done. case_zb; lia. }
  by eapply size_least_ok.
Qed.

Lemma padded_stride_bound n ns s :
  0 <= n -> s * product (grown ns) <= index_max -> n <= s -> s <= index_max.
Proof. pose proof (grown_pos ns). intros. nia. Qed.

Lemma left_mandates_ok p e n ns s :
  Forall dim_ok e -> ns <> [] -> values e = n :: ns -> (p = dynamic_extent \/ p = s) ->
  n <= s -> s * product (grown ns) <= index_max -> left_padded_mandates p e = Some true.
Proof.
  intros He Hns Hv Hp Hn Hs. unfold left_padded_mandates, left_static_padding_stride.
  pose proof (values_nonneg _ He) as H0. rewrite Hv in H0. apply Forall_cons in H0 as [H0 _].
  assert (2 <= rank e)%nat as Hr.
  { unfold rank. rewrite <- (length_fmap dim_extent), Hv. destruct ns; simpl; [done|lia]. }
  pose proof (values_first _ _ _ Hv) as Hst.
  rewrite (static_padding_stride_ok _ _ n s) by (done || lia || by eapply padded_stride_bound).
  apply (padded_mandates_ok _ _ n ns s); try done; [by rewrite Hv|].
  intros Hd. destruct (static_first _ _ _ He Hd Hv) as [? Hf]. split; [done|]. intros x. by rewrite Hf.
Qed.

Lemma right_mandates_ok p e n ns s :
  Forall dim_ok e -> ns <> [] -> rev (values e) = n :: ns -> (p = dynamic_extent \/ p = s) ->
  n <= s -> s * product (grown ns) <= index_max -> right_padded_mandates p e = Some true.
Proof.
  intros He Hns Hv Hp Hn Hs. unfold right_padded_mandates, right_static_padding_stride.
  pose proof (Forall_rev (values_nonneg _ He)) as H0. rewrite Hv in H0. apply Forall_cons in H0 as [H0 _].
  assert (2 <= rank e)%nat as Hr.
  { unfold rank. rewrite <- (length_fmap dim_extent), <- length_rev, Hv. destruct ns; simpl; [done|lia]. }
  assert (last_static_extent e = dynamic_extent \/ last_static_extent e = n) as Hst.
  { rewrite last_static_first. apply (values_first _ _ ns). by rewrite values_rev. }
  rewrite (static_padding_stride_ok _ _ n s) by (done || lia || by eapply padded_stride_bound).
  apply (padded_mandates_ok _ _ n ns s); try done; [by rewrite (Permutation_rev (values e)), Hv|].
  intros Hd. destruct (static_last _ _ _ He Hd Hv) as [? Hf]. split; [done|].
  intros x. by rewrite Hf, <- Permutation_rev.
Qed.

(** ** Constructors *)

(** The padding [pad] fits extents: it agrees with the type's, and the padded
    index space fits the index type. *)
Definition padding_fits (p pad : Z) (es : list Z) : Prop :=
  0 <= pad <= index_max /\ (p = dynamic_extent \/ p = pad) /\
  match es with
  | n :: (_ :: _) as ns => lm pad n * product (grown ns) <= index_max
  | _ => True
  end.

(** The stored stride. *)
Definition stored_stride (pad : Z) (es : list Z) : Z :=
  match es with n :: _ :: _ => lm pad n | _ => 1 end.

Lemma lm_ge pad n : 0 <= pad -> 0 <= n -> n <= lm pad n.
Proof.
  intros Hp Hn. destruct (Z.eq_dec pad 0) as [->|]; [by unfold lm|].
  apply lm_least; lia.
Qed.

Lemma stored_stride_ok p pad static_ext es :
  Forall (fun x => 0 <= x) es -> padding_fits p pad es ->
  (match es with n :: _ :: _ => static_ext = dynamic_extent \/ static_ext = n | _ => True end) ->
  padded_ok p static_ext (stored_stride pad es) es.
Proof.
  intros He (Hpad & Hp & Hfit) Hst. destruct es as [|n [|n' es]]; simpl; try done.
  apply Forall_cons in He as [Hn _]. split; [apply lm_ge; lia|]. split; [done|].
  intros ?. destruct Hp as [|<-]; [done|]. split; [done|]. intros ?. destruct Hst; [done|congruence].
Qed.

Lemma stored_stride_fits p pad n n' ns :
  0 <= n -> padding_fits p pad (n :: n' :: ns) -> lm pad n <= index_max.
Proof.
  intros Hn (Hpad & _ & Hfit). pose proof (lm_ge pad n ltac:(lia) Hn). pose proof (grown_pos (n' :: ns)). nia.
Qed.

Lemma make_stride_ok p pad n n' ns :
  0 <= n <= index_max -> padding_fits p pad (n :: n' :: ns) ->
  make_stride (cast n) (cast pad) = Some (lm pad n).
Proof.
  intros Hn Hfit. pose proof Hfit as (Hpad & _ & _). unfold make_stride.
  rewrite !cast_nonneg by lia. apply least_multiple_ok; [lia|lia|].
  eapply stored_stride_fits; [lia|done].
Qed.

Lemma left_with_padding_ok p pad e :
  Forall dim_ok e -> padding_fits p pad (values e) ->
  left_padded_with_padding p e pad = Some (LayoutLeftPadded p e (stored_stride pad (values e))) /\
  mapping_ok (LayoutLeftPadded p e (stored_stride pad (values e))).
Proof.
  intros He Hfit. pose proof (values_range _ He) as Hr. split.
  - unfold left_padded_with_padding. destruct e as [|d [|d' e]]; [done..|]. csimpl in *.
    apply Forall_cons in Hr as [Hd _]. by erewrite make_stride_ok by done.
  - split; [done|]. apply stored_stride_ok; [by apply values_nonneg|done|].
    destruct (values e) as [|n [|n' ns]] eqn:E; try done. by eapply values_first.
Qed.

Lemma rev_last {A} (l : list A) x l' : rev l = x :: l' -> l !! (length l - 1)%nat = Some x.
Proof.
  intros E. assert (l = rev l' ++ [x]) as ->.
  { rewrite <- (rev_involutive l), E. done. }
  rewrite length_app. simpl. rewrite lookup_app_r by lia.
  by replace (length (rev l') + 1 - 1 - length (rev l'))%nat with 0%nat by lia.
Qed.

Lemma right_with_padding_ok p pad e :
  Forall dim_ok e -> padding_fits p pad (rev (values e)) ->
  right_padded_with_padding p e pad = Some (LayoutRightPadded p e (stored_stride pad (rev (values e)))) /\
  mapping_ok (LayoutRightPadded p e (stored_stride pad (rev (values e)))).
Proof.
  intros He Hfit. pose proof (Forall_rev (values_range _ He)) as Hr. split.
  - unfold right_padded_with_padding. assert (length (rev (values e)) = rank e) as Hl
      by by rewrite length_rev, length_fmap.
    destruct (rev (values e)) as [|n [|n' ns]] eqn:E; simpl in Hl; rewrite <- Hl; [done..|].
    apply Forall_cons in Hr as [Hn _]. pose proof (rev_last _ _ _ E) as Hlast.
    rewrite length_fmap in Hlast. unfold rank in Hl. rewrite <- Hl in Hlast.
    simpl in Hlast |- *. rewrite (extent_lookup _ _ _ Hlast). simpl. by erewrite make_stride_ok by done.
  - split; [done|]. apply stored_stride_ok; [by apply Forall_rev, values_nonneg|done|].
    destruct (rev (values e)) as [|n [|n' ns]] eqn:E; try done.
    rewrite last_static_first. eapply values_first. by rewrite values_rev.
Qed.

Lemma static_not_dynamic d e :
  rank_dynamic (d :: e) = 0%nat -> dim_static d <> dynamic_extent.
Proof. intros Hd E. unfold rank_dynamic in Hd. by rewrite filter_cons_True in Hd by done. Qed.

(** What the checks of a class without dynamic extents let pass. *)
Lemma padded_mandates_fit p e n ns dim :
  Forall dim_ok e -> rank_dynamic e = 0%nat -> (2 <= rank e)%nat -> nonempty (n :: ns) ->
  0 <= p < dynamic_extent -> 0 < n <= index_max -> n <> dynamic_extent ->
  (forall x, padded_factors e dim x ≡ₚ x :: ns) -> ns <> [] ->
  padded_mandates p e n dim
    (if (rank e <=? 1)%nat then Some 1
     else if (p =? dynamic_extent) || (n =? dynamic_extent) then Some dynamic_extent
     else if static_stride_representable p n
     then @least_multiple_at_least size_t_index p n else Some 0) = Some true ->
  padding_fits p p (n :: ns).
Proof.
  pose proof index_max_range as [Hmax Hmin]. intros He Hd Hr Hn Hp Hn0 Hnd Hf Hns.
  unfold padded_mandates. destruct (Nat.leb_spec (rank e) 1); [lia|]. rewrite Hd. simpl.
  destruct (Z.eqb_spec p dynamic_extent); [lia|]. destruct (Z.eqb_spec n dynamic_extent); [done|]. simpl.
  destruct (static_product_representable index_max _); [|done]. simpl.
  destruct (static_stride_representable p n) eqn:Hs; simpl; [|
    destruct (representable p); simpl; destruct (static_product_representable _ _); simpl; try done;
    by rewrite ?andb_false_r].
  apply static_stride_representable_spec in Hs as [Hlm _]; [|lia..].
  destruct (representable p) eqn:Hrep; simpl.
  2: { destruct (least_multiple_at_least p n); simpl; [|done].
       destruct (static_product_representable _ _); by destruct b. }
  apply representable_spec in Hrep. assert (@index_max size_t_index = 2 ^ 64 - 1) as H64 by done.
  rewrite least_multiple_ok by (rewrite H64; lia). simpl. rewrite static_size_limit_max.
  pose proof (lm_ge p n ltac:(lia) ltac:(lia)).
  apply Forall_cons in Hn as [_ Hn].
  rewrite static_product_spec; [|rewrite H64; lia|].
  - rewrite Hf. change (product (?x :: ns)) with (x * product ns). simpl. intros E.
    destruct ns as [|n' ns]; [done|]. split; [lia|]. split; [by right|].
    rewrite grown_nonempty by done. injection E as E. rewrite !andb_true_iff in E. apply Z.leb_le, E.
  - rewrite Hf. constructor; [lia|]. eapply Forall_impl; [exact Hn|]. simpl. lia.
Qed.

Lemma left_mandates_fit p e :
  Forall dim_ok e -> (2 <= rank e)%nat -> 0 <= p < dynamic_extent -> rank_dynamic e = 0%nat ->
  nonempty (values e) -> left_padded_mandates p e = Some true -> padding_fits p p (values e).
Proof.
  intros He Hr Hp Hd Hn. unfold left_padded_mandates, left_static_padding_stride.
  pose proof (values_range _ He) as Hv.
  destruct (values e) as [|n ns] eqn:E.
  { apply (f_equal length) in E. rewrite length_fmap in E. unfold rank in Hr. simpl in E. lia. }
  destruct (static_first e n ns He Hd E) as [Hs Hf]. rewrite Hs.
  apply Forall_cons in Hv as [Hn1 _]. pose proof Hn as [Hn0 _]%Forall_cons.
  apply padded_mandates_fit; try done; [lia| |intros x; by rewrite Hf|].
  - destruct e as [|d e]; [done|]. simpl in Hs. subst n. by eapply static_not_dynamic.
  - intros ->. apply (f_equal length) in E. rewrite length_fmap in E. unfold rank in Hr. simpl in E. lia.
Qed.

Lemma right_mandates_fit p e :
  Forall dim_ok e -> (2 <= rank e)%nat -> 0 <= p < dynamic_extent -> rank_dynamic e = 0%nat ->
  nonempty (values e) -> right_padded_mandates p e = Some true -> padding_fits p p (rev (values e)).
Proof.
  intros He Hr Hp Hd Hn. unfold right_padded_mandates, right_static_padding_stride.
  pose proof (Forall_rev (values_range _ He)) as Hv. apply nonempty_rev in Hn.
  assert (length (rev (values e)) = rank e) as Hlen by by rewrite length_rev, length_fmap.
  destruct (rev (values e)) as [|n ns] eqn:E; simpl in Hlen; [lia|].
  destruct (static_last e n ns He Hd E) as [Hs Hf]. rewrite Hs.
  apply Forall_cons in Hv as [Hn1 _]. pose proof Hn as [Hn0 _]%Forall_cons.
  apply padded_mandates_fit; try done; [lia| |intros x; by rewrite Hf, <- Permutation_rev|].
  - rewrite last_static_first in Hs. pose proof (dims_rev _ He) as He'. rewrite <- rank_dynamic_rev in Hd.
    destruct (rev e) as [|d e'] eqn:Ee; [simpl in Hs; rewrite <- values_rev, Ee in E; done|].
    simpl in Hs. subst n. by eapply static_not_dynamic.
  - intros ->. simpl in Hlen. lia.
Qed.
End constructors.

(** ** Conversions *)

(** The extents agree with the static extents of another type. *)
Definition fits_static (ns vs : list Z) : Prop :=
  Forall2 (fun s v => s = dynamic_extent \/ s = v) ns vs.

Section conversions.
Context `{IndexType}.
Implicit Types (e : extents) (m : mapping).

Lemma convert_extents_ok ns e :
  Forall dim_ok e -> fits_static ns (values e) ->
  is_constructible ns e = true /\ values (convert_extents ns e) = values e /\
  Forall dim_ok (convert_extents ns e) /\
  is_constructible (dim_static <$> e) (convert_extents ns e) = true /\
  convert_extents (dim_static <$> e) (convert_extents ns e) = e.
Proof.
  unfold is_constructible, convert_extents, fits_static. intros He. revert ns.
  induction He as [|d e [Hd1 Hd2] He IH]; intros ns Hf; csimpl in Hf; inversion Hf as [|s ? ns' ? Hs Hf']; subst.
  { done. }
  destruct (IH ns' Hf') as (IH1 & IH2 & IH3 & IH4 & IH5). csimpl.
  apply andb_true_iff in IH1 as [L1 C1], IH4 as [L2 C2].
  assert (values (make_dimension s (dim_extent d) :: zip_with make_dimension ns' (values e)) =
    values (d :: e)) as Hvals.
  { csimpl. rewrite IH2. f_equal. unfold make_dimension. destruct (Z.eqb_spec s dynamic_extent); simpl.
    - by apply cast_nonneg.
    - by destruct Hs. }
  split_and!.
  - rewrite L1, C1. simpl. rewrite andb_true_r. unfold compatible. destruct d as [k|k]; simpl in *.
    + destruct Hs as [-> | ->]; rewrite ?Z.eqb_refl; simpl; by rewrite ?orb_true_r.
    + by rewrite orb_true_r.
  - exact Hvals.
  - constructor; [|done]. unfold make_dimension. destruct (Z.eqb_spec s dynamic_extent); split; simpl; try done.
    + by rewrite cast_nonneg.
    + by destruct Hs as [| ->].
  - rewrite L2, C2. simpl. rewrite andb_true_r. unfold compatible, make_dimension.
    destruct (Z.eqb_spec s dynamic_extent); simpl; [by rewrite orb_true_r|].
    destruct d as [k|k]; simpl; [|done]. destruct Hs as [|Hs]; [done|]. simpl in Hs. subst s.
    by rewrite Z.eqb_refl, !orb_true_r.
  - csimpl in Hvals. injection Hvals as Hv _. csimpl. f_equal; [|done].
    rewrite Hv. unfold make_dimension. destruct d as [k|k]; simpl in *.
    + by destruct (Z.eqb_spec k dynamic_extent).
    + by rewrite cast_nonneg.
Qed.

Lemma to_layout_stride_ok m ns :
  match m with LayoutLeftPadded _ _ _ | LayoutRightPadded _ _ _ => True | _ => False end ->
  mapping_ok m -> fits_static ns (values (extents_of m)) ->
  to_layout_stride ns m = Some (LayoutStride (convert_extents ns (extents_of m)) (ref_strides m)) /\
  mapping_ok (LayoutStride (convert_extents ns (extents_of m)) (ref_strides m)).
Proof.
  intros Hp Hm Hf. destruct (convert_extents_ok ns (extents_of m) (proj1 Hm) Hf) as (Hc & Hv & Hd & _).
  assert (cast <$> ref_strides m = ref_strides m) as Hcast.
  { pose proof (ref_strides_range m Hm) as Hr. induction Hr as [|s ss Hs _ IH]; [done|]. csimpl.
    by rewrite IH, cast_id. }
  split.
  - unfold to_layout_stride. destruct m; try done; cbn [extents_of] in *; rewrite Hc; cbn [negb];
      rewrite strides_ok by done; cbn [mbind option_bind]; by rewrite Hcast.
  - split; [done|]. cbn [layout_ok extents_of]. split; [|split; [by apply ref_strides_range|]].
    + rewrite ref_strides_length by apply Hm. unfold rank.
      by rewrite <- (length_fmap dim_extent), <- Hv, length_fmap.
    + rewrite Hv. intros Hn. by apply ref_strides_ok.
Qed.
End conversions.
