(* ===== verification/LayoutProps.v ===== *)
(** * Layout mappings: the properties *)
From S2P Require Import Prelude Extents Layouts LayoutSpec.

#[local] Open Scope Z_scope.

Section properties.
Context `{IndexType}.
Implicit Types (e : extents) (m : mapping).

Definition is_padded m : Prop :=
  match m with LayoutLeftPadded _ _ _ | LayoutRightPadded _ _ _ => True | _ => False end.

(** A padded mapping maps. On a well-formed one, no computation overflows;
    the strides are those of the layout in closed form, with the stored stride
    in place of the first (last) extent; every multi-index of the index space
    gets the sum of its indices times the strides, which is an offset below
    [required_span_size()]; and no two multi-indices get the same one. *)
Lemma padded_mapping_ok m :
  is_padded m -> mapping_ok m ->
  strides m = Some (ref_strides m) /\
  exists n, required_span_size m = Some n /\
    (forall l, in_range l (values (extents_of m)) -> exists k,
       call m l = Some k /\ k = dot l (ref_strides m) /\ 0 <= k < n) /\
    (forall l l', in_range l (values (extents_of m)) -> in_range l' (values (extents_of m)) ->
       call m l = call m l' -> l = l').
Proof.
  intros Hp Hm. split; [by apply strides_ok|].
  exists (span (values (extents_of m)) (ref_strides m)). split; [by apply required_span_size_ok|]. split.
  - intros l Hl. exists (dot l (ref_strides m)). split; [by apply call_ok|]. split; [done|].
    destruct (ref_strides_ok m Hm) as [Hs _]; [by eapply in_range_nonempty|].
    apply dot_span; [done|done|]. rewrite ref_strides_length by apply Hm. by rewrite length_fmap.
  - intros l l' Hl Hl'. rewrite !call_ok by done. intros [= E]. eapply ref_strides_inj; try done.
    by destruct m.
Qed.

(** The constructors of the padded mappings. Given extents and a padding
    that agrees with the padding of the type, and a padded index space that
    fits the index type, the constructor makes a well-formed mapping of these
    extents whose stored stride is the least multiple of the padding that is
    no less than the extent it pads.  When the padding and all extents are part
    of the type and no extent is zero, the [static_assert]s of the class are
    enough for that: an index space they let pass fits. *)
Lemma padded_constructors_ok p pad e :
  Forall dim_ok e -> (2 <= rank e)%nat ->
  (padding_fits p pad (values e) -> exists n s,
     extent e 0 = Some n /\ s = lm pad n /\
     left_padded_with_padding p e pad = Some (LayoutLeftPadded p e s) /\
     mapping_ok (LayoutLeftPadded p e s) /\ stride (LayoutLeftPadded p e s) 1 = Some s) /\
  (padding_fits p pad (rev (values e)) -> exists n s,
     extent e (rank e - 1) = Some n /\ s = lm pad n /\
     right_padded_with_padding p e pad = Some (LayoutRightPadded p e s) /\
     mapping_ok (LayoutRightPadded p e s) /\
     stride (LayoutRightPadded p e s) (rank e - 2) = Some s) /\
  (0 <= p < dynamic_extent -> rank_dynamic e = 0%nat -> nonempty (values e) ->
   (left_padded_mandates p e = Some true -> padding_fits p p (values e)) /\
   (right_padded_mandates p e = Some true -> padding_fits p p (rev (values e)))).
Proof.
  intros He Hr. pose proof (values_nonneg _ He) as Hv.
  assert (length (values e) = rank e) as Hlen by by rewrite length_fmap.
  split; [intros Hfit|split; [intros Hfit|]].
  - destruct (left_with_padding_ok p pad e He Hfit) as [H1 H2].
    destruct (values e) as [|n [|n' ns]] eqn:E; simpl in Hlen; [lia..|]. simpl in H1, H2.
    exists n, (lm pad n). split; [apply extent_lookup; by rewrite E|]. split; [done|]. split; [done|]. split; [done|].
    rewrite stride_ok by (done || simpl; lia). simpl. by rewrite E.
  - destruct (right_with_padding_ok p pad e He Hfit) as [H1 H2].
    rewrite <- length_rev in Hlen.
    destruct (rev (values e)) as [|n [|n' ns]] eqn:E; simpl in Hlen; [lia..|]. simpl in H1, H2.
    pose proof (rev_last _ _ _ E) as Hl. rewrite length_fmap in Hl. change (length e) with (rank e) in Hl.
    exists n, (lm pad n). split; [by apply extent_lookup|]. split; [done|]. split; [done|]. split; [done|].
    rewrite stride_ok by (done || simpl; lia). simpl. rewrite E. simpl. rewrite <- Hlen.
    rewrite lookup_app_l by (rewrite length_app, length_rev, prefix_strides_length; simpl; lia).
    rewrite lookup_app_r by (rewrite length_rev, prefix_strides_length; lia).
    rewrite length_rev, prefix_strides_length.
    by replace (S (S (length ns)) - 2 - length ns)%nat with 0%nat by lia.
  - intros Hp Hd Hn. split; [by apply left_mandates_fit|by apply right_mandates_fit].
Qed.

(** The constructor that takes a mapping with any strides back to the class of [m]. *)
Definition back_to m (other : mapping) : option mapping :=
  match m with
  | LayoutLeftPadded p e _ => to_left_padded p (dim_static <$> e) other
  | LayoutRightPadded p e _ => to_right_padded p (dim_static <$> e) other
  | _ => None
  end.

Lemma back_ok m ns :
  is_padded m -> mapping_ok m -> fits_static ns (values (extents_of m)) ->
  back_to m (LayoutStride (convert_extents ns (extents_of m)) (ref_strides m)) = Some m.
Proof.
  intros Hp Hm Hf. destruct (convert_extents_ok ns (extents_of m) (proj1 Hm) Hf) as (_ & _ & _ & Hc & Hback).
  pose proof (ref_strides_length m (proj2 Hm)) as Hlen. pose proof (ref_strides_range m Hm) as Hr.
  assert (forall r s, ref_strides m !! r = Some s -> cast s = s) as Hcast.
  { intros r s Hs. rewrite Forall_lookup in Hr. by eapply cast_id, Hr. }
  destruct m as [e|e|e ss|p e s|p e s]; try done; cbn [back_to extents_of] in *.
  - unfold to_left_padded. cbn [extents_of]. rewrite Hc, Hback. cbn [negb].
    destruct (Nat.ltb_spec 1 (rank e)) as [Hrk|Hrk].
    + cbn [stride]. pose proof (stride_ok _ 1 Hm Hrk) as Hs. simpl in Hs. unfold left_padded_stride in Hs.
      destruct (Nat.eqb_spec (rank e) 0); [lia|]. simpl in Hs. symmetry in Hs.
      simpl. rewrite Hs. simpl. by rewrite (Hcast 1%nat s).
    + pose proof (proj2 Hm) as Hok. cbn [layout_ok] in Hok. unfold rank in Hrk.
      destruct e as [|d [|d' e]]; simpl in *; [by rewrite Hok..|lia].
  - unfold to_right_padded. cbn [extents_of]. rewrite Hc, Hback. cbn [negb].
    destruct (Nat.ltb_spec 1 (rank e)) as [Hrk|Hrk].
    + cbn [stride]. pose proof (stride_ok (LayoutRightPadded p e s) (rank e - 2) Hm ltac:(simpl; lia)) as Hs.
      cbn [stride] in Hs. unfold right_padded_stride in Hs.
      destruct (Nat.eqb_spec (rank e) 0); [lia|]. destruct (Nat.eqb_spec (rank e - 2) (rank e - 1)); [lia|].
      rewrite Nat.eqb_refl in Hs. rewrite <- Hs. cbn [fmap option_fmap option_map mbind option_bind].
      by rewrite (Hcast (rank e - 2)%nat s).
    + pose proof (proj2 Hm) as Hok. cbn [layout_ok] in Hok. unfold rank in Hrk.
      destruct e as [|d [|d' e]]; simpl in *; [by rewrite Hok..|lia].
Qed.

(** The padded strides of an exhaustive mapping are those without padding. *)
Lemma exhaustive_strides m :
  is_padded m -> mapping_ok m -> is_exhaustive m = Some true ->
  ref_strides m = ref_strides (match m with
    | LayoutLeftPadded _ e _ => LayoutLeft e | LayoutRightPadded _ e _ => LayoutRight e | _ => m end).
Proof.
  intros Hp Hm Hx. pose proof (values_range _ (proj1 Hm)) as Hr.
  assert (forall s es, match es with x :: _ :: _ => x = s | _ => True end ->
    padded_strides s es = prefix_strides 1 es) as Heq.
  { intros s [|x [|y es]]; [done|done|]. intros ->. simpl. do 2 f_equal; [by destruct s|].
    f_equal. by destruct s. }
  destruct m as [e|e|e ss|p e s|p e s]; try done; cbn [ref_strides extents_of is_exhaustive] in *.
  - apply Heq. destruct (Nat.leb_spec (rank e) 1) as [Hk|Hk]; unfold rank in Hk.
    { destruct e as [|d [|d' e]]; simpl in *; [done|done|lia]. }
    destruct e as [|d [|d' e]]; simpl in *; try done. apply Forall_cons in Hr as [Hd _].
    rewrite cast_nonneg in Hx by done. injection Hx as Hx%Z.eqb_eq. done.
  - f_equal. apply Heq. assert (length (rev (values e)) = rank e) as Hlen by by rewrite length_rev, length_fmap.
    destruct (Nat.leb_spec (rank e) 1) as [Hk|Hk].
    { destruct (rev (values e)) as [|? [|? ?]]; simpl in *; [done|done|lia]. }
    destruct (rev (values e)) as [|x [|y es]] eqn:E; try done.
    pose proof (rev_last _ _ _ E) as Hl. rewrite length_fmap in Hl. change (length e) with (rank e) in Hl.
    rewrite (extent_lookup _ _ _ Hl) in Hx. cbn [mbind option_bind stride] in Hx. unfold right_padded_stride in Hx.
    destruct (Nat.eqb_spec (rank e) 0); [lia|]. destruct (Nat.eqb_spec (rank e - 2) (rank e - 1)); [lia|].
    rewrite Nat.eqb_refl in Hx. simpl in Hx.
    assert (x ∈ values e) as Hin by by eapply list_elem_of_lookup_2.
    rewrite Forall_forall in Hr. rewrite cast_nonneg in Hx by by apply Hr.
    by injection Hx as Hx%Z.eqb_eq.
Qed.

(** The index space of an exhaustive mapping fits without padding. *)
Lemma exhaustive_fits m :
  is_padded m -> mapping_ok m -> is_exhaustive m = Some true -> nonempty (values (extents_of m)) ->
  product (grown (values (extents_of m))) <= index_max.
Proof.
  intros Hp Hm Hx Hn. destruct (ref_strides_ok m Hm Hn) as [_ Hs].
  rewrite exhaustive_strides in Hs by done. rewrite grown_nonempty by done.
  destruct m as [e|e|e ss|p e s|p e s]; try done; cbn [ref_strides extents_of] in *.
  - rewrite span_prefix in Hs by done. lia.
  - by rewrite span_right in Hs.
Qed.

(** Conversions keep the mapping. *)
Lemma padded_conversions_ok m ns :
  is_padded m -> mapping_ok m -> fits_static ns (values (extents_of m)) ->
  (exists other, to_layout_stride ns m = Some other /\
     values (extents_of other) = values (extents_of m) /\ back_to m other = Some m /\
     forall l, in_range l (values (extents_of m)) -> call other l = call m l) /\
  (forall other, to_layout_left ns m = Some other \/ to_layout_right ns m = Some other ->
     is_exhaustive m = Some true ->
     forall l, in_range l (values (extents_of m)) -> call other l = call m l).
Proof.
  intros Hp Hm Hf. destruct (convert_extents_ok ns (extents_of m) (proj1 Hm) Hf) as (_ & Hv & Hd & _).
  destruct (to_layout_stride_ok m ns Hp Hm Hf) as [Hrun Hok]. split.
  - eexists. split; [exact Hrun|]. split; [done|]. split; [by apply back_ok|].
    intros l Hl. rewrite (call_ok _ l Hok), (call_ok m l Hm Hl); [done|]. cbn [extents_of]. by rewrite Hv.
  - intros other Hto Hx l Hl. pose proof (exhaustive_strides m Hp Hm Hx) as Hs.
    rewrite (call_ok m l Hm Hl).
    assert (extents_of other = convert_extents ns (extents_of m) /\ ref_strides other = ref_strides m /\
      mapping_ok other) as (He & Hr & Ho); [|by rewrite (call_ok other l Ho), Hr; [|rewrite He, Hv]].
    assert (product (grown (values (extents_of m))) <= index_max) as Hg
      by (apply exhaustive_fits; try done; by eapply in_range_nonempty).
    destruct m as [e|e|e ss|p e s|p e s]; try done; cbn [to_layout_left to_layout_right extents_of] in *;
      destruct Hto as [Hto|Hto]; try done; destruct (is_constructible ns e); try done; cbn [negb] in Hto.
    + destruct (left_static_padding_stride p e); [|done]. simpl in Hto. destruct (_ && _); [done|].
      injection Hto as <-. split; [done|]. rewrite Hs. cbn [ref_strides extents_of]. rewrite Hv.
      split; [done|]. split; [done|]. cbn [layout_ok]. by rewrite Hv.
    + destruct (right_static_padding_stride p e); [|done]. simpl in Hto. destruct (_ && _); [done|].
      injection Hto as <-. split; [done|]. rewrite Hs. cbn [ref_strides extents_of]. rewrite Hv.
      split; [done|]. split; [done|]. cbn [layout_ok]. by rewrite Hv.
Qed.

(** C26: a padded mapping maps. On a well-formed one, no computation overflows;
    the strides are those of the layout in closed form, with the stored stride
    in place of the first (last) extent; every multi-index gets the sum of its
    indices times the strides, an offset below [required_span_size()], and no two
    get the same.  Converted to [layout_stride], with static extents that agree
    with the extents, every multi-index keeps its offset, and the constructor from
    [layout_stride] gives the very mapping back; so do offsets stay under the
    conversion of an exhaustive mapping to [layout_left] or [layout_right].  Given
    extents and a padding that agrees with that of the type, and a padded index
    space that fits the index type, the constructor makes such a mapping, whose
    stored stride is the least multiple of the padding that is no less than the
    extent it pads.  When the padding and all extents are part of the type and no
    extent is zero, the [static_assert]s of the class are enough for that. *)
Theorem padded_mapping_correct m p pad e :
  (is_padded m -> mapping_ok m ->
   strides m = Some (ref_strides m) /\
   exists n, required_span_size m = Some n /\
     (forall l, in_range l (values (extents_of m)) -> exists k,
        call m l = Some k /\ k = dot l (ref_strides m) /\ 0 <= k < n) /\
     (forall l l', in_range l (values (extents_of m)) -> in_range l' (values (extents_of m)) ->
        call m l = call m l' -> l = l') /\
     (forall ns, fits_static ns (values (extents_of m)) ->
       (exists other, to_layout_stride ns m = Some other /\
         values (extents_of other) = values (extents_of m) /\ back_to m other = Some m /\
         forall l, in_range l (values (extents_of m)) -> call other l = call m l) /\
       (forall other, to_layout_left ns m = Some other \/ to_layout_right ns m = Some other ->
         is_exhaustive m = Some true ->
         forall l, in_range l (values (extents_of m)) -> call other l = call m l))) /\
  (Forall dim_ok e -> (2 <= rank e)%nat ->
   (padding_fits p pad (values e) -> exists n s,
      extent e 0 = Some n /\ s = lm pad n /\
      left_padded_with_padding p e pad = Some (LayoutLeftPadded p e s) /\
      mapping_ok (LayoutLeftPadded p e s) /\ stride (LayoutLeftPadded p e s) 1 = Some s) /\
   (padding_fits p pad (rev (values e)) -> exists n s,
      extent e (rank e - 1) = Some n /\ s = lm pad n /\
      right_padded_with_padding p e pad = Some (LayoutRightPadded p e s) /\
      mapping_ok (LayoutRightPadded p e s) /\
      stride (LayoutRightPadded p e s) (rank e - 2) = Some s) /\
   (0 <= p < dynamic_extent -> rank_dynamic e = 0%nat -> nonempty (values e) ->
    (left_padded_mandates p e = Some true -> padding_fits p p (values e)) /\
    (right_padded_mandates p e = Some true -> padding_fits p p (rev (values e))))).
Proof.
  split; [|apply padded_constructors_ok]. intros Hp Hm. destruct (padded_mapping_ok m Hp Hm) as (Hs & n & Hn & Hc & Hi).
  split; [done|]. exists n. split_and!; [done|done|done|]. intros ns. by apply padded_conversions_ok.
Qed.
End properties.

(** ** Witnesses *)

(** A 3 by 5 by 7 array whose columns are padded to 4 elements, its rows to 8. *)
Definition demo_extents : extents := [Dynamic 3; Static 5; Dynamic 7].
Definition demo_left : mapping := LayoutLeftPadded 4 demo_extents 4.
Definition demo_right : mapping := LayoutRightPadded dynamic_extent demo_extents 8.

Lemma demo_extents_ok : Forall dim_ok demo_extents.
Proof. repeat constructor; vm_compute; congruence. Qed.

Lemma demo_left_ok : mapping_ok demo_left.
Proof.
  split; [exact demo_extents_ok|]. vm_compute. split; [congruence|]. split; [congruence|].
  intros _. split; [split; congruence|]. intros Hd. by destruct Hd.
Qed.

Lemma demo_right_ok : mapping_ok demo_right.
Proof.
  split; [exact demo_extents_ok|]. vm_compute. split; [congruence|]. split; [congruence|].
  intros Hd. by destruct Hd.
Qed.

Lemma padded_mapping_correct_witness :
  call demo_left [2; 4; 6] = Some 138 /\ call demo_right [2; 4; 6] = Some 118 /\
  strides demo_left = Some (ref_strides demo_left) /\ strides demo_right = Some (ref_strides demo_right) /\
  padding_fits 4 4 (values demo_extents) /\ padding_fits 4 4 (rev (values demo_extents)) /\
  mapping_ok demo_left /\ left_padded_mandates 4 [Static 3; Static 5] = Some true /\
  padding_fits 4 4 [3; 5] /\
  exists other, to_layout_stride [dynamic_extent; 5; 7] demo_left = Some other /\
    back_to demo_left other = Some demo_left /\ call other [2; 4; 6] = call demo_left [2; 4; 6].
Proof.
  split; [reflexivity|]. split; [reflexivity|].
  split; [apply (proj1 (padded_mapping_correct demo_left 4 4 demo_extents) I demo_left_ok)|].
  split; [apply (proj1 (padded_mapping_correct demo_right 4 4 demo_extents) I demo_right_ok)|].
  assert (padding_fits 4 4 (values demo_extents)) as H1.
  { vm_compute. split; [split; congruence|]. split; [by right|congruence]. }
  assert (padding_fits 4 4 (rev (values demo_extents))) as H2.
  { vm_compute. split; [split; congruence|]. split; [by right|congruence]. }
  split; [exact H1|]. split; [exact H2|]. split.
  - destruct (proj2 (padded_mapping_correct demo_left 4 4 demo_extents) demo_extents_ok ltac:(simpl; lia)) as [H3 _].
    destruct (H3 H1) as (n & s & Hn & -> & _ & Hok & _). vm_compute in Hn. injection Hn as <-. exact Hok.
  - split; [reflexivity|].
    assert (Forall dim_ok [Static 3; Static 5]) as He by (repeat constructor; vm_compute; congruence).
    destruct (proj2 (padded_mapping_correct demo_left 4 4 [Static 3; Static 5]) He ltac:(simpl; lia)) as (_ & _ & H3).
    split; [apply H3; [vm_compute; split; congruence|reflexivity|repeat constructor|reflexivity]|].
    destruct (proj1 (padded_mapping_correct demo_left 4 4 demo_extents) I demo_left_ok) as (_ & n & _ & _ & _ & Hconv).
    assert (fits_static [dynamic_extent; 5; 7] (values demo_extents)) as Hf.
    { repeat (constructor; [solve [by left|by right]|]). constructor. }
    destruct (Hconv _ Hf) as [(other & H4 & _ & H5 & H6) _].
    exists other. split; [exact H4|]. split; [exact H5|]. apply H6. repeat constructor; simpl; lia.
Defined.
