(* ===== verification/Slices.v ===== *)
(** * Slices of mdspan

    Models the slices of backport/cpp26/submdspan.hpp: what a caller passes to
    [submdspan] for one dimension, how [canonical_slices] turns it into a
    canonical slice of the index type, which canonical slices the types admit,
    and the members later stages read.  A value that is part of a type (an
    integral constant, a [constant_wrapper]) is told from a run-time value.  A
    definition has no result when the code would not compile or when it
    computes something undefined. *)
From S2P Require Import Prelude Extents Layouts.

#[local] Open Scope Z_scope.

(** An integer in a slice: part of its type, or known at run time only. *)
Inductive value := Const (n : Z) | Var (n : Z).

Definition get (v : value) : Z := match v with Const n | Var n => n end.

(** The slices of one dimension.  [PairSlice] is a pair, a tuple of two, an
    array of two or anything else of two parts. *)
Inductive slice :=
  | IndexSlice (i : value)
  | FullExtent
  | ExtentSlice (offset extent_ stride_ : value)
  | RangeSlice (first last_ stride_ : value)
  | PairSlice (first last_ : value).

(** ** Kinds of slices *)

Definition is_full (s : slice) : bool := match s with FullExtent => true | _ => false end.
Definition is_index_slice (s : slice) : bool := match s with IndexSlice _ => true | _ => false end.

(** A slice that is known, from its type, to have stride 1. *)
Definition is_unit_stride_slice (s : slice) : bool :=
  match s with
  | FullExtent => true
  | ExtentSlice _ _ (Const n) => n =? 1
  | _ => false
  end.

(** ** The members of a slice *)

Definition first_of (s : slice) : value :=
  match s with
  | IndexSlice i => i
  | FullExtent => Const 0
  | ExtentSlice offset _ _ => offset
  | RangeSlice first _ _ | PairSlice first _ => first
  end.

Definition last_of (d : dimension) (s : slice) : value :=
  match s with
  | IndexSlice i => i
  | FullExtent => match d with Static n => Const n | Dynamic n => Var n end
  | ExtentSlice _ extent_ _ => extent_
  | RangeSlice _ last_ _ | PairSlice _ last_ => last_
  end.

Definition stride_of (s : slice) : value :=
  match s with
  | ExtentSlice _ _ stride_ | RangeSlice _ _ stride_ => stride_
  | _ => Const 1
  end.

Section slices.
Context `{IndexType}.

(** ** Canonical slices *)

(** A constant has to be representable; a run-time value is converted. *)
Definition canonical_index (v : value) : option value :=
  match v with
  | Const n => if representable n then Some (Const (cast n)) else None
  | Var n => Some (Var (cast n))
  end.

(** [last - first] of two canonical indices. *)
Definition difference (l f : value) : option value :=
  d ← arith (get l - get f);
  Some (match l, f with Const _, Const _ => Const d | _, _ => Var d end).

Definition canonical_stride (c_span : value) (strides : option value) : option value :=
  match strides, c_span with
  | None, _ | _, Const 0 => Some (Const 1)
  | Some s, _ =>
      stride ← canonical_index s;
      Some (match stride with
            | Const _ => stride
            | Var _ => if get c_span =? 0 then Var 1 else stride
            end)
  end.

Definition canonical_range_slice (offset span : value) (strides : option value) : option slice :=
  c_offset ← canonical_index offset;
  c_span ← canonical_index span;
  c_stride ← canonical_stride c_span strides;
  if match c_stride with Const n => n <=? 0 | Var _ => false end then None else
  extent_v ← (if get c_span =? 0 then Some 0
              else if get c_stride =? 0 then None
              else
                d ← arith (get c_span - 1);
                t ← arith (1 + Z.quot d (get c_stride));
                Some (cast t));
  Some (ExtentSlice c_offset
          (match c_span, c_stride with Const _, Const _ => Const extent_v | _, _ => Var extent_v end)
          c_stride).

Definition canonical_slice (s : slice) : option slice :=
  match s with
  | FullExtent => Some FullExtent
  | IndexSlice i => IndexSlice <$> canonical_index i
  | ExtentSlice o e st =>
      o' ← canonical_index o;
      e' ← canonical_index e;
      st' ← canonical_index st;
      Some (ExtentSlice o' e' st')
  | RangeSlice f l st =>
      c_first ← canonical_index f;
      c_last ← canonical_index l;
      c_stride ← canonical_index st;
      d ← difference c_last c_first;
      canonical_range_slice c_first d (Some c_stride)
  | PairSlice f l =>
      c_first ← canonical_index f;
      c_last ← canonical_index l;
      d ← difference c_last c_first;
      canonical_range_slice c_first d None
  end.

(** ** What the types of canonical slices admit *)

Definition is_canonical_index_slice (v : value) : bool :=
  match v with Const n => representable n && (0 <=? n) | Var _ => true end.

Definition has_valid_static_stride (extent_ stride_ : value) : bool :=
  match extent_, stride_ with Const _, Const n => 0 <? n | _, _ => true end.

Definition is_canonical_slice (s : slice) : bool :=
  match s with
  | FullExtent => true
  | IndexSlice i => is_canonical_index_slice i
  | ExtentSlice o e st =>
      is_canonical_index_slice o && is_canonical_index_slice e && is_canonical_index_slice st &&
      has_valid_static_stride e st
  | _ => false
  end.

Definition static_index_or (v : value) (fallback : Z) : Z :=
  match v with Const n => u64 n | Var _ => fallback end.

Definition is_valid_static_slice_type (d : dimension) (s : slice) : bool :=
  match d with
  | Dynamic _ => true
  | Static x =>
      match s with
      | FullExtent => true
      | ExtentSlice o e st =>
          let offset := static_index_or o 0 in
          let ext := static_index_or e 0 in
          let stride := static_index_or st 1 in
          if (x <? offset) || (x <? ext) then false
          else if ext =? 0 then true
          else if x <=? offset then false
          else if ext =? 1 then true
          else if stride =? 0 then false
          else ext - 1 <=? (x - offset - 1) / stride
      | IndexSlice (Const n) => u64 n <? x
      | _ => true
      end
  end.

Definition has_valid_static_slice_types (e : extents) (ss : list slice) : bool :=
  forallb (fun p => is_valid_static_slice_type p.1 p.2) (zip e ss).

Definition has_canonical_mapping_slices (e : extents) (ss : list slice) : bool :=
  (length ss =? rank e)%nat && forallb is_canonical_slice ss && has_valid_static_slice_types e ss.

Definition has_valid_raw_slice_types (e : extents) (ss : list slice) : bool :=
  (length ss =? rank e)%nat &&
  match mapM canonical_slice ss with
  | Some cs => has_canonical_mapping_slices e cs
  | None => false
  end.

(** [canonical_slices]. *)
Definition canonical_slices (e : extents) (ss : list slice) : option (list slice) :=
  if has_valid_raw_slice_types e ss then mapM canonical_slice ss else None.
End slices.
