(* ===== verification/Submdspan.v ===== *)
(** * Submdspan: the mapping and the view of a part of an mdspan

    Models the second half of backport/cpp26/submdspan.hpp: the extents of a
    submdspan, the layout its mapping gets, its strides and its offset, one
    definition per helper, [submdspan_mapping] for the five layouts, and
    [submdspan] itself over the accessor of the mdspan. *)
From S2P Require Import Prelude Extents Layouts Slices.

#[local] Open Scope Z_scope.

(** ** Which layout the result has *)

(** A loop that returns [false] at the first [k] in [a..b-1] that fails. *)
Definition all_from (p : slice -> bool) (a b : nat) (ss : list slice) : bool :=
  forallb (fun k => match ss !! k with Some s => p s | None => false end) (seq a (b - a)).

Definition at_slice (p : slice -> bool) (k : nat) (ss : list slice) : bool :=
  match ss !! k with Some s => p s | None => false end.

(** The first index from [k] on, or the last one below [k], whose slice
    satisfies [p]. *)
Fixpoint find_up (p : slice -> bool) (count k : nat) (ss : list slice) : option nat :=
  match count with
  | O => None
  | S count' => if at_slice p k ss then Some k else find_up p count' (S k) ss
  end.
Fixpoint find_down (p : slice -> bool) (k : nat) (ss : list slice) : option nat :=
  match k with
  | O => None
  | S k' => if at_slice p k' ss then Some k' else find_down p k' ss
  end.

Definition not_index (s : slice) : bool := negb (is_index_slice s).

Definition ll_preserving (sub_rank src_rank : nat) (ss : list slice) : bool :=
  if (sub_rank =? 0)%nat then true
  else if (sub_rank =? 1)%nat then
    match find_up not_index src_rank 0 ss with
    | None => false
    | Some first_rng =>
        at_slice is_unit_stride_slice first_rng ss &&
        all_from is_full 0 first_rng ss &&
        all_from is_index_slice (first_rng + 1) src_rank ss
    end
  else
    all_from is_full 0 (sub_rank - 1) ss &&
    at_slice is_unit_stride_slice (sub_rank - 1) ss &&
    all_from is_index_slice sub_rank src_rank ss.

Definition lr_preserving (sub_rank src_rank : nat) (ss : list slice) : bool :=
  if (sub_rank =? 0)%nat then true
  else if (sub_rank =? 1)%nat then
    match find_down not_index src_rank ss with
    | None => false
    | Some last_rng =>
        at_slice is_unit_stride_slice last_rng ss &&
        all_from is_full (last_rng + 1) src_rank ss &&
        all_from is_index_slice 0 last_rng ss
    end
  else
    all_from is_full (src_rank - sub_rank + 1) src_rank ss &&
    at_slice is_unit_stride_slice (src_rank - sub_rank) ss &&
    all_from is_index_slice 0 (src_rank - sub_rank) ss.

(** The index of the source stride that becomes the padded stride; [src_rank]
    when the result is not padded. *)
Definition left_padded_stride_index (sub_rank src_rank : nat) (ss : list slice) : nat :=
  if (sub_rank <? 2)%nat || (src_rank <? 2)%nat then src_rank
  else if negb (at_slice is_unit_stride_slice 0 ss) then src_rank
  else
    match find_up is_unit_stride_slice (src_rank - 1) 1 ss with
    | None => src_rank
    | Some stride_index =>
        if (src_rank - 1 - stride_index <? sub_rank - 2)%nat then src_rank
        else
          let final_unit := (stride_index + sub_rank - 2)%nat in
          if negb (all_from is_full stride_index final_unit ss) then src_rank
          else if at_slice is_unit_stride_slice final_unit ss then stride_index else src_rank
    end.

Definition right_padded_stride_index (sub_rank src_rank : nat) (ss : list slice) : nat :=
  if (sub_rank <? 2)%nat || (src_rank <? 2)%nat then src_rank
  else if negb (at_slice is_unit_stride_slice (src_rank - 1) ss) then src_rank
  else
    match find_down is_unit_stride_slice (src_rank - 1) ss with
    | None => src_rank
    | Some stride_index =>
        if (stride_index <? sub_rank - 2)%nat then src_rank
        else
          let final_unit := (stride_index - (sub_rank - 2))%nat in
          if negb (all_from is_full (final_unit + 1) (stride_index + 1) ss) then src_rank
          else if at_slice is_unit_stride_slice final_unit ss then stride_index else src_rank
    end.

(** ** Static paddings *)

Fixpoint static_product_loop (result : Z) (statics : list Z) : Z :=
  match statics with
  | [] => result
  | ext :: statics' =>
      if ext =? dynamic_extent then dynamic_extent
      else static_product_loop (u64 (result * ext)) statics'
  end.

Definition static_extent_product (e : extents) (first last : nat) (initial : Z) : Z :=
  if initial =? dynamic_extent then dynamic_extent
  else static_product_loop initial (dim_static <$> take (last - first) (drop first e)).

(** [least_multiple_at_least] of this file, over [size_t]. *)
Definition size_least_multiple_at_least (alignment value : Z) : Z :=
  if (alignment =? 0) || (value =? 0) then value
  else
    let remainder := value mod alignment in
    if remainder =? 0 then value else u64 (value + u64 (alignment - remainder)).

Definition static_padding_stride_of (padding_value : Z) (e : extents) (static_ext : Z) : Z :=
  if (rank e <=? 1)%nat then 1
  else if (padding_value =? dynamic_extent) || (static_ext =? dynamic_extent) then dynamic_extent
  else size_least_multiple_at_least padding_value static_ext.

Section submdspan.
Context `{IndexType}.

(** ** Extents *)

(** The dimension a canonical slice leaves, if any. *)
Definition sub_dimension (d : dimension) (s : slice) : option extents :=
  match s with
  | IndexSlice _ => Some []
  | FullExtent =>
      let ns := match first_of s, last_of d s with
                | Const v0, Const v1 => if v0 <=? v1 then v1 - v0 else dynamic_extent
                | _, _ => dynamic_extent
                end in
      dyn ← arith (cast (get (last_of d s)) - cast (get (first_of s)));
      Some [make_dimension ns (cast dyn)]
  | ExtentSlice _ (Const n) _ =>
      if negb (u64 n =? dynamic_extent) then Some [make_dimension (u64 n) (cast (u64 n))]
      else Some [make_dimension dynamic_extent (cast n)]
  | ExtentSlice _ (Var n) _ => Some [make_dimension dynamic_extent (cast n)]
  | RangeSlice _ _ _ | PairSlice _ _ => None
  end.

Fixpoint extents_builder (e : extents) (ss : list slice) : option extents :=
  match e, ss with
  | [], [] => Some []
  | d :: e', s :: ss' =>
      ds ← sub_dimension d s;
      rest ← extents_builder e' ss';
      Some (ds ++ rest)
  | _, _ => None
  end.

Definition subextents (e : extents) (raw_slices : list slice) : option extents :=
  ss ← canonical_slices e raw_slices;
  extents_builder e ss.

(** ** Offset and strides *)

(** Whether a slice begins at the end of its dimension. *)
Definition one_oob (ext : Z) (s : slice) : bool :=
  match s with
  | FullExtent => u64 (get (first_of s)) =? u64 ext
  | _ => get (first_of s) =? ext
  end.

Definition any_oob (e : extents) (ss : list slice) : bool :=
  existsb (fun p => one_oob (dim_extent p.1) p.2) (zip e ss).

(** The source dimensions that the result keeps. *)
Fixpoint inv_map_rank (c : nat) (ss : list slice) : list nat :=
  match ss with
  | [] => []
  | s :: ss' => if is_index_slice s then inv_map_rank (S c) ss' else c :: inv_map_rank (S c) ss'
  end.

Definition stride_factor (s : slice) : Z :=
  match s with
  | ExtentSlice _ extent_ stride_ => if 1 <? u64 (get extent_) then u64 (get stride_) else 1
  | _ => u64 (get (stride_of s))
  end.

Definition make_stride_factors (ss : list slice) : list Z := stride_factor <$> ss.

Definition build_sub_strides (src : mapping) (inv : list nat) (sf : list Z) : option (list Z) :=
  mapM (fun k => s ← stride src k; f ← sf !! k; Some (cast (u64 (u64 s * f)))) inv.

(** ** The mapping of a part *)

(** The offset of the first element. *)
Definition sub_offset (src : mapping) (ss : list slice) : option Z :=
  if any_oob (extents_of src) ss then u64 <$> required_span_size src
  else u64 <$> call src (cast ∘ get ∘ first_of <$> ss).

Definition strided_result (src : mapping) (sub_ext : extents) (ss : list slice) (off : Z)
    : option (mapping * Z) :=
  let inv := inv_map_rank 0 ss in
  let sf := make_stride_factors ss in
  sts ← build_sub_strides src inv sf;
  Some (LayoutStride sub_ext sts, off).

(** A padded result, whose class has to admit its extents and padding. *)
Definition left_padded_result (src : mapping) (sub_ext : extents) (stride_index : nat)
    (static_padding off : Z) : option (mapping * Z) :=
  admitted ← left_padded_mandates static_padding sub_ext;
  if negb admitted then None else
  s ← stride src stride_index;
  dst ← left_padded_with_padding static_padding sub_ext s;
  Some (dst, off).

Definition right_padded_result (src : mapping) (sub_ext : extents) (stride_index : nat)
    (static_padding off : Z) : option (mapping * Z) :=
  admitted ← right_padded_mandates static_padding sub_ext;
  if negb admitted then None else
  s ← stride src stride_index;
  dst ← right_padded_with_padding static_padding sub_ext s;
  Some (dst, off).

Definition submdspan_mapping_left (e : extents) (ss : list slice) : option (mapping * Z) :=
  let src := LayoutLeft e in
  sub_ext ← subextents e ss;
  let sr := rank e in
  let dr := rank sub_ext in
  if (sr =? 0)%nat then Some (LayoutLeft sub_ext, 0) else
  off ← sub_offset src ss;
  if (dr =? 0)%nat then Some (LayoutLeft sub_ext, off)
  else if ll_preserving dr sr ss then Some (LayoutLeft sub_ext, off)
  else
    let stride_index := left_padded_stride_index dr sr ss in
    if negb (stride_index =? sr)%nat then
      left_padded_result src sub_ext stride_index (static_extent_product e 0 stride_index 1) off
    else strided_result src sub_ext ss off.

Definition submdspan_mapping_right (e : extents) (ss : list slice) : option (mapping * Z) :=
  let src := LayoutRight e in
  sub_ext ← subextents e ss;
  let sr := rank e in
  let dr := rank sub_ext in
  if (sr =? 0)%nat then Some (LayoutRight sub_ext, 0) else
  off ← sub_offset src ss;
  if (dr =? 0)%nat then Some (LayoutRight sub_ext, off)
  else if lr_preserving dr sr ss then Some (LayoutRight sub_ext, off)
  else
    let stride_index := right_padded_stride_index dr sr ss in
    if negb (stride_index =? sr)%nat then
      right_padded_result src sub_ext stride_index
        (static_extent_product e (stride_index + 1) sr 1) off
    else strided_result src sub_ext ss off.

Definition submdspan_mapping_stride (e : extents) (sts : list Z) (ss : list slice)
    : option (mapping * Z) :=
  let src := LayoutStride e sts in
  sub_ext ← subextents e ss;
  if (rank e =? 0)%nat then Some (LayoutStride sub_ext [], 0) else
  off ← sub_offset src ss;
  strided_result src sub_ext ss off.

Definition submdspan_mapping_left_padded (p : Z) (e : extents) (s1 : Z) (ss : list slice)
    : option (mapping * Z) :=
  let src := LayoutLeftPadded p e s1 in
  sub_ext ← subextents e ss;
  let sr := rank e in
  let dr := rank sub_ext in
  if (sr =? 0)%nat then Some (src, 0) else
  off ← sub_offset src ss;
  if (dr =? 0)%nat then Some (LayoutLeft sub_ext, off)
  else if (dr =? 1)%nat && at_slice is_unit_stride_slice 0 ss then Some (LayoutLeft sub_ext, off)
  else
    let stride_index := left_padded_stride_index dr sr ss in
    if negb (stride_index =? sr)%nat then
      left_padded_result src sub_ext stride_index
        (static_extent_product e 1 stride_index
           (static_padding_stride_of p e (first_static_extent e))) off
    else strided_result src sub_ext ss off.

Definition submdspan_mapping_right_padded (p : Z) (e : extents) (s2 : Z) (ss : list slice)
    : option (mapping * Z) :=
  let src := LayoutRightPadded p e s2 in
  sub_ext ← subextents e ss;
  let sr := rank e in
  let dr := rank sub_ext in
  if (sr =? 0)%nat then Some (src, 0) else
  off ← sub_offset src ss;
  if (dr =? 0)%nat then Some (LayoutRight sub_ext, off)
  else if (dr =? 1)%nat && at_slice is_unit_stride_slice (sr - 1) ss then Some (LayoutRight sub_ext, off)
  else
    let stride_index := right_padded_stride_index dr sr ss in
    if negb (stride_index =? sr)%nat then
      right_padded_result src sub_ext stride_index
        (static_extent_product e (stride_index + 1) (sr - 1)
           (static_padding_stride_of p e (last_static_extent e))) off
    else strided_result src sub_ext ss off.

(** [submdspan_mapping], for canonical slices. *)
Definition submdspan_mapping (src : mapping) (ss : list slice) : option (mapping * Z) :=
  if negb (has_canonical_mapping_slices (extents_of src) ss) then None else
  match src with
  | LayoutLeft e => submdspan_mapping_left e ss
  | LayoutRight e => submdspan_mapping_right e ss
  | LayoutStride e sts => submdspan_mapping_stride e sts ss
  | LayoutLeftPadded p e s => submdspan_mapping_left_padded p e s ss
  | LayoutRightPadded p e s => submdspan_mapping_right_padded p e s ss
  end.
End submdspan.

(** ** Views *)

(** What an mdspan needs of its accessor: the element behind a handle and an
    offset, the handle moved by an offset, and the elements behind that, seen
    through the accessor's offset policy. *)
Class Accessor (Handle SubHandle Element : Type) := {
  access : Handle -> Z -> Element;
  offset_handle : Handle -> Z -> SubHandle;
  sub_access : SubHandle -> Z -> Element;
}.

(** The requirement on accessors: moving the handle moves the elements. *)
Class AccessorLaws (Handle SubHandle Element : Type) `{Accessor Handle SubHandle Element} : Prop :=
  offset_access : forall p i j, 0 <= i -> 0 <= j -> sub_access (offset_handle p i) j = access p (i + j).

Record mdspan (Handle : Type) := Mdspan { data_handle : Handle; mapping_of : mapping }.
Arguments Mdspan {_} _ _.
Arguments data_handle {_} _.
Arguments mapping_of {_} _.

Section views.
Context `{IndexType} {Handle SubHandle Element : Type} `{Accessor Handle SubHandle Element}.

(** [submdspan]. *)
Definition submdspan (src : mdspan Handle) (raw_slices : list slice) : option (mdspan SubHandle) :=
  slices ← canonical_slices (extents_of (mapping_of src)) raw_slices;
  result ← submdspan_mapping (mapping_of src) slices;
  Some (Mdspan (offset_handle (data_handle src) result.2) result.1).

(** [operator[]] of the source and of the part. *)
Definition element_at (src : mdspan Handle) (l : list Z) : option Element :=
  access (data_handle src) <$> call (mapping_of src) l.
Definition sub_element_at (sub : mdspan SubHandle) (l : list Z) : option Element :=
  sub_access (data_handle sub) <$> call (mapping_of sub) l.
End views.
