(* ===== verification/SubmdspanSpec.v ===== *)
(** * What a submdspan selects

    The part of an index space that canonical slices select: the multi-index
    of the source behind every multi-index of the part ([source_index]), and
    the relation between the strides of the source and those of a mapping of
    the part ([part]) from which it follows that the mapping addresses the
    right elements within the span of the source. *)
From S2P Require Import Prelude Extents Layouts LayoutSpec Slices Submdspan.

#[local] Open Scope Z_scope.

(** The number of elements a canonical slice selects of [n], and their step. *)
Definition slice_count (n : Z) (s : slice) : Z :=
  match s with ExtentSlice _ e _ => get e | _ => n end.
Definition slice_step (s : slice) : Z :=
  match s with ExtentSlice _ _ st => get st | _ => 1 end.

(** The multi-index of the source: the index a slice fixes, or its first one
    plus steps. *)
Fixpoint source_index (ss : list slice) (js : list Z) : list Z :=
  match ss with
  | [] => []
  | IndexSlice i :: ss' => get i :: source_index ss' js
  | s :: ss' =>
      match js with
      | [] => []
      | j :: js' => (get (first_of s) + j * slice_step s) :: source_index ss' js'
      end
  end.

(** The extents of the part. *)
Fixpoint sub_values (es : list Z) (ss : list slice) : list Z :=
  match es, ss with
  | e :: es', s :: ss' =>
      if is_index_slice s then sub_values es' ss' else slice_count e s :: sub_values es' ss'
  | _, _ => []
  end.

Definition firsts (ss : list slice) : list Z := get ∘ first_of <$> ss.

Section parts.
Context `{IndexType}.

(** The preconditions on a canonical slice of a dimension with [n] elements. *)
Definition slice_ok (n : Z) (s : slice) : Prop :=
  is_canonical_slice s = true /\
  match s with
  | IndexSlice i => 0 <= get i < n
  | FullExtent => True
  | ExtentSlice o e st =>
      0 <= get o <= n /\ 0 <= get e /\ index_min <= get st <= index_max /\
      (1 <= get e -> get o < n) /\
      (1 < get e -> 0 < get st /\ get o + (get e - 1) * get st < n)
  | _ => False
  end.

Lemma slice_ok_first n s : 0 <= n -> slice_ok n s -> 0 <= get (first_of s) <= n.
Proof. intros Hn [_ Hs]. destruct s; simpl in *; lia. Qed.

Lemma slice_ok_count n s : 0 <= n -> slice_ok n s -> is_index_slice s = false -> 0 <= slice_count n s <= n.
Proof. intros Hn [_ Hs]. destruct s; simpl in *; try done; intros _; nia. Qed.

(** The elements a slice selects lie in its dimension. *)
Lemma slice_ok_element n s j :
  0 <= n -> slice_ok n s -> is_index_slice s = false -> 0 <= j < slice_count n s ->
  0 <= get (first_of s) + j * slice_step s < n.
Proof.
  intros Hn [_ Hs]. destruct s as [i| |o e st|f l st|f l]; simpl in *; try done; intros _ Hj; [lia|].
  destruct Hs as (Ho & He & _ & H1 & H2). specialize (H1 ltac:(lia)).
  destruct (Z.eq_dec j 0) as [->|]; [lia|]. destruct (H2 ltac:(lia)) as [H3 H4].
  pose proof (Z.mul_le_mono_nonneg_r j (get e - 1) (get st)). nia.
Qed.

Lemma firsts_nonneg es ss :
  Forall (fun x => 0 <= x) es -> Forall2 slice_ok es ss -> Forall (fun i => 0 <= i) (firsts ss).
Proof.
  intros He Hs. revert He. induction Hs as [|n c es ss Hc _ IH]; intros He; constructor.
  - apply Forall_cons in He as [Hn _]. by apply (slice_ok_first n).
  - apply IH. by apply Forall_cons in He as [_ ?].
Qed.

(** [part sl es ss ns ts]: the slices [sl] of a source with extents [es] and
    strides [ss] leave extents [ns], which the strides [ts] go through in the
    steps of the source.  The stride of a dimension with one element does not
    matter. *)
Inductive part : list slice -> list Z -> list Z -> list Z -> list Z -> Prop :=
  | part_nil : part [] [] [] [] []
  | part_index sl e es s ss ns ts i :
      slice_ok e (IndexSlice i) -> part sl es ss ns ts ->
      part (IndexSlice i :: sl) (e :: es) (s :: ss) ns ts
  | part_keep sl e es s ss ns ts c n t :
      slice_ok e c -> is_index_slice c = false -> n = slice_count e c ->
      (n <= 1 \/ t = s * slice_step c) -> part sl es ss ns ts ->
      part (c :: sl) (e :: es) (s :: ss) (n :: ns) (t :: ts).

Lemma part_app sl1 es1 ss1 ns1 ts1 sl2 es2 ss2 ns2 ts2 :
  part sl1 es1 ss1 ns1 ts1 -> part sl2 es2 ss2 ns2 ts2 ->
  part (sl1 ++ sl2) (es1 ++ es2) (ss1 ++ ss2) (ns1 ++ ns2) (ts1 ++ ts2).
Proof. intros Hp Hq. induction Hp; simpl; [done|constructor; auto..]. Qed.

Lemma part_rev sl es ss ns ts :
  part sl es ss ns ts -> part (rev sl) (rev es) (rev ss) (rev ns) (rev ts).
Proof.
  induction 1 as [|sl e es s ss ns ts i Hi Hp IH|sl e es s ss ns ts c n t Hc Hx Hn Ht Hp IH]; simpl.
  - constructor.
  - rewrite <- (app_nil_r (rev ns)), <- (app_nil_r (rev ts)). apply part_app; [done|].
    apply part_index; [done|constructor].
  - apply part_app; [done|]. apply part_keep; [done..|constructor].
Qed.

Lemma part_length sl es ss ns ts :
  part sl es ss ns ts ->
  length sl = length es /\ length ss = length es /\ length ts = length ns /\
  ns = sub_values es sl /\ Forall2 slice_ok es sl.
Proof.
  induction 1 as [|sl e es s ss ns ts i Hi Hp IH|sl e es s ss ns ts c n t Hc Hx Hn Ht Hp IH]; simpl.
  - done.
  - destruct IH as (-> & -> & -> & <- & ?). by repeat split; try constructor.
  - destruct IH as (-> & -> & -> & <- & ?). rewrite Hx. subst. by repeat split; try constructor.
Qed.

(** The strides of a part lead from its first element to the element of the
    source that the slices select. *)
Lemma part_dot sl es ss ns ts js :
  part sl es ss ns ts -> Forall (fun e => 0 <= e) es -> in_range js ns ->
  in_range (source_index sl js) es /\
  dot (firsts sl) ss + dot js ts = dot (source_index sl js) ss.
Proof.
  intros Hp. revert js.
  induction Hp as [|sl e es s ss ns ts i Hi Hp IH|sl e es s ss ns ts c n t Hc Hx Hn Ht Hp IH];
    intros js He Hj.
  - inversion Hj; subst. by split; [constructor|].
  - apply Forall_cons in He as [He Hes]. destruct (IH js Hes Hj) as [H1 H2]. destruct Hi as [_ Hi].
    split; [by constructor|]. change (firsts (?c :: ?l)) with (get (first_of c) :: firsts l).
    cbn [dot source_index first_of]. lia.
  - apply Forall_cons in He as [He Hes]. inversion Hj as [|j ? js' ? Hjn Hj']; subst.
    destruct (IH js' Hes Hj') as [H1 H2].
    pose proof (slice_ok_element _ _ _ He Hc Hx Hjn) as Hel.
    assert (source_index (c :: sl) (j :: js') =
      (get (first_of c) + j * slice_step c) :: source_index sl js') as -> by by destruct c.
    split; [by constructor|]. change (firsts (?c :: ?l)) with (get (first_of c) :: firsts l).
    cbn [dot].
    assert (j * t = j * slice_step c * s); [|lia].
    destruct Ht as [Ht| ->]; [|lia]. assert (j = 0) as -> by lia. lia.
Qed.

(** A part stays within the span of its source. *)
Lemma part_span sl es ss ns ts :
  part sl es ss ns ts -> nonempty es -> nonempty ns -> Forall (fun s => 0 <= s) ss ->
  dot (firsts sl) ss + span ns ts <= span es ss.
Proof.
  intros Hp He Hn Hs. destruct (part_length _ _ _ _ _ Hp) as (_ & Hlen & _).
  rewrite (span_nonempty ns) by done.
  assert (in_range (Z.pred <$> ns) ns) as Hl.
  { clear -Hn. induction Hn; csimpl; constructor; [lia|done]. }
  destruct (part_dot _ _ _ _ _ _ Hp ltac:(eapply Forall_impl; [exact He|simpl; lia]) Hl) as [H1 H2].
  pose proof (dot_span _ _ _ H1 Hs Hlen). lia.
Qed.

Lemma sub_values_app es1 es2 sl1 sl2 :
  length es1 = length sl1 -> sub_values (es1 ++ es2) (sl1 ++ sl2) = sub_values es1 sl1 ++ sub_values es2 sl2.
Proof.
  revert sl1. induction es1 as [|e es1 IH]; intros [|c sl1]; simpl; try done.
  intros [= E]. rewrite IH by done. by destruct (is_index_slice c).
Qed.

(** A part of an empty dimension is empty. *)
Lemma sub_nonempty es sl :
  Forall2 slice_ok es sl -> nonempty (sub_values es sl) -> nonempty es.
Proof.
  induction 1 as [|e c es sl Hc Hp IH]; simpl; [done|]. destruct (is_index_slice c) eqn:Hx.
  - intros Hn. constructor; [|by apply IH]. destruct c; try done. destruct Hc as [_ Hc]. lia.
  - intros [Hn Hns]%Forall_cons. constructor; [|by apply IH].
    destruct c; try done; destruct Hc as [_ Hc]; simpl in *; lia.
Qed.

(** ** Extents of a part *)

Definition fixed (n : Z) : dimension := if n =? dynamic_extent then Dynamic n else Static n.

(** The dimension a slice leaves, in closed form. *)
Definition sub_dims (d : dimension) (s : slice) : extents :=
  match s with
  | FullExtent => [d]
  | ExtentSlice _ (Const n) _ => [fixed n]
  | ExtentSlice _ (Var n) _ => [Dynamic n]
  | _ => []
  end.

Fixpoint sub_extents (e : extents) (ss : list slice) : extents :=
  match e, ss with d :: e', s :: ss' => sub_dims d s ++ sub_extents e' ss' | _, _ => [] end.

(** Slices for all the dimensions. *)
Definition slices_ok (e : extents) (ss : list slice) : Prop := Forall2 slice_ok (values e) ss.

Lemma sub_dimension_ok d s :
  dim_ok d -> slice_ok (dim_extent d) s -> sub_dimension d s = Some (sub_dims d s).
Proof.
  pose proof index_max_range as [Hmax Hmin]. intros [Hd Hd'] [Hc Hs].
  assert (forall n, cast (cast n) = cast n) as Hcc by (intros n; apply cast_id, cast_range).
  assert (0 <= slice_count (dim_extent d) s <= index_max \/ is_index_slice s = true) as Hcount.
  { destruct (is_index_slice s) eqn:E; [by right|left].
    pose proof (slice_ok_count (dim_extent d) s ltac:(lia) (conj Hc Hs) E). lia. }
  destruct s as [i| |o [n|n] st|f l st|f l]; try done; simpl in *.
  - destruct d as [n|n]; simpl in *.
    + rewrite Z.sub_0_r, (cast_nonneg n), (cast_nonneg 0), Z.sub_0_r, arith_nonneg by lia. simpl.
      destruct (Z.leb_spec 0 n); [|lia]. unfold make_dimension. by destruct (Z.eqb_spec n dynamic_extent).
    + rewrite (cast_nonneg n), (cast_nonneg 0), Z.sub_0_r, arith_nonneg by lia. simpl.
      unfold make_dimension. rewrite Z.eqb_refl. by rewrite ?Hcc, (cast_nonneg n) by lia.
  - destruct Hcount as [Hn|]; [|done]. rewrite u64_small by lia. unfold fixed, make_dimension.
    destruct (Z.eqb_spec n dynamic_extent); simpl.
    + by rewrite Hcc, (cast_nonneg n) by lia.
    + done.
  - destruct Hcount as [Hn|]; [|done]. unfold make_dimension. rewrite Z.eqb_refl.
    by rewrite ?Hcc, (cast_nonneg n) by lia.
Qed.

Lemma sub_dims_values d s :
  slice_ok (dim_extent d) s ->
  values (sub_dims d s) = if is_index_slice s then [] else [slice_count (dim_extent d) s].
Proof.
  intros [_ Hs]. destruct s as [i| |o [n|n] st|f l st|f l]; simpl in *; try done.
  unfold fixed. by destruct (n =? dynamic_extent).
Qed.

Lemma sub_dims_ok d s : dim_ok d -> slice_ok (dim_extent d) s -> Forall dim_ok (sub_dims d s).
Proof.
  intros Hd Hs. pose proof Hd as [Hd1 _]. destruct (is_index_slice s) eqn:E.
  { by destruct s. }
  pose proof (slice_ok_count _ _ (proj1 Hd1) Hs E) as Hc.
  destruct s as [i| |o [n|n] st|f l st|f l]; try done; simpl in *; apply Forall_singleton.
  - done.
  - unfold fixed. destruct (Z.eqb_spec n dynamic_extent); split; simpl; done || lia.
  - split; simpl; done || lia.
Qed.

Lemma sub_extents_ok e ss :
  Forall dim_ok e -> slices_ok e ss ->
  extents_builder e ss = Some (sub_extents e ss) /\ Forall dim_ok (sub_extents e ss) /\
  values (sub_extents e ss) = sub_values (values e) ss.
Proof.
  unfold slices_ok. intros He. revert ss. induction He as [|d e Hd He IH]; intros ss Hs; csimpl in Hs.
  - by inversion Hs.
  - inversion Hs as [|? s ? ss' Hds Hss]; subst. destruct (IH _ Hss) as (IH1 & IH2 & IH3). csimpl.
    rewrite sub_dimension_ok by done. simpl. rewrite IH1. simpl. split; [done|]. split.
    + apply Forall_app. split; [by apply sub_dims_ok|done].
    + rewrite fmap_app, sub_dims_values, IH3 by done. by destruct (is_index_slice s).
Qed.

(** Canonical slices are their own canonical slices. *)
Lemma canonical_index_id v :
  index_min <= get v <= index_max -> is_canonical_index_slice v = true -> canonical_index v = Some v.
Proof.
  intros Hv. destruct v as [n|n]; simpl in *; [|by rewrite cast_id].
  intros _. by rewrite (proj2 (representable_spec n)), cast_id.
Qed.

Lemma canonical_slice_id n s :
  0 <= n <= index_max -> slice_ok n s -> canonical_slice s = Some s.
Proof.
  pose proof index_max_range as [Hmax Hmin]. intros Hn [Hc Hs].
  destruct s as [i| |o e st|f l st|f l]; simpl in *; try done.
  - rewrite canonical_index_id by (done || lia). done.
  - rewrite !andb_true_iff in Hc. destruct Hc as [[[Ho He] Hst] _].
    assert (get e <= n) by nia.
    rewrite !canonical_index_id by (done || lia). done.
Qed.

Lemma canonical_slices_id e ss :
  Forall dim_ok e -> slices_ok e ss -> has_canonical_mapping_slices e ss = true ->
  canonical_slices e ss = Some ss.
Proof.
  intros He Hs Hc.
  assert (mapM canonical_slice ss = Some ss) as HM.
  { apply mapM_Some. pose proof (values_range _ He) as Hr. clear -Hs Hr. unfold slices_ok in Hs.
    induction Hs as [|n s es ss Hns _ IH]; constructor.
    - apply Forall_cons in Hr as [? _]. by eapply canonical_slice_id.
    - apply IH. by apply Forall_cons in Hr as [_ ?]. }
  unfold canonical_slices, has_valid_raw_slice_types. rewrite HM, Hc.
  unfold has_canonical_mapping_slices in Hc. rewrite !andb_true_iff in Hc.
  destruct Hc as [[-> _] _]. done.
Qed.

Lemma subextents_ok e ss :
  Forall dim_ok e -> slices_ok e ss -> has_canonical_mapping_slices e ss = true ->
  subextents e ss = Some (sub_extents e ss).
Proof.
  intros He Hs Hc. unfold subextents. rewrite canonical_slices_id by done. simpl.
  by apply sub_extents_ok.
Qed.

(** ** The offset of a part *)

Lemma one_oob_spec n s :
  0 <= n <= index_max -> slice_ok n s -> one_oob n s = (get (first_of s) =? n).
Proof.
  pose proof index_max_range. intros Hn Hs. destruct s; simpl; try done. by rewrite !u64_small by lia.
Qed.

(** A slice at the end of its dimension is empty; otherwise the first elements
    of the slices are in the index space. *)
Lemma any_oob_spec e ss :
  Forall dim_ok e -> slices_ok e ss ->
  if any_oob e ss then ~ nonempty (sub_values (values e) ss) else in_range (firsts ss) (values e).
Proof.
  unfold slices_ok. intros He. revert ss. induction He as [|d e [Hd _] He IH]; intros ss Hs; csimpl in Hs.
  { inversion Hs. constructor. }
  inversion Hs as [|? s ? ss' Hds Hss]; subst. specialize (IH _ Hss). unfold any_oob in *. csimpl.
  rewrite one_oob_spec by done. pose proof (slice_ok_first _ _ (proj1 Hd) Hds) as Hf.
  destruct (Z.eqb_spec (get (first_of s)) (dim_extent d)) as [E|E]; simpl.
  - destruct Hds as [Hc Hs0]. destruct s as [i| |o x st|f l st|f l]; simpl in *; try done; try lia;
      intros [? _]%Forall_cons; lia.
  - destruct (existsb _ _).
    + destruct (is_index_slice s); [done|]. by intros [_ ?]%Forall_cons.
    + constructor; [lia|done].
Qed.

Lemma firsts_cast e ss :
  Forall dim_ok e -> slices_ok e ss -> cast ∘ get ∘ first_of <$> ss = firsts ss.
Proof.
  unfold slices_ok. intros He. revert ss. induction He as [|d e [Hd _] He IH]; intros ss Hs; csimpl in Hs.
  { by inversion Hs. }
  inversion Hs as [|? s ? ss' Hds Hss]; subst. unfold firsts in *. csimpl. rewrite IH by done.
  pose proof (slice_ok_first _ _ (proj1 Hd) Hds). by rewrite cast_nonneg by lia.
Qed.

Lemma sub_offset_ok m ss :
  mapping_ok m -> slices_ok (extents_of m) ss ->
  exists off, sub_offset m ss = Some off /\
    (nonempty (sub_values (values (extents_of m)) ss) -> off = dot (firsts ss) (ref_strides m)) /\
    (~ nonempty (sub_values (values (extents_of m)) ss) ->
     0 <= off <= span (values (extents_of m)) (ref_strides m)).
Proof.
  intros Hm Hs. pose proof (any_oob_spec _ _ (proj1 Hm) Hs) as Hoob. pose proof index_max_range.
  unfold sub_offset. destruct (any_oob (extents_of m) ss).
  - rewrite required_span_size_ok by done. simpl. eexists. split; [done|]. split; [done|].
    intros _. set (es := values (extents_of m)).
    assert (0 <= span es (ref_strides m) <= index_max) as Hsp; [|rewrite u64_small; lia].
    destruct (existsb (Z.eqb 0) es) eqn:E.
    + unfold span. rewrite E. lia.
    + apply nonempty_existsb in E; [|apply values_nonneg, Hm].
      destruct (ref_strides_ok m Hm E) as [H1 H2]. split; [|done]. rewrite span_nonempty by done.
      assert (0 <= dot (Z.pred <$> es) (ref_strides m)); [|lia]. apply dot_nonneg; [|done].
      apply Forall_fmap. eapply Forall_impl; [exact E|]. simpl. lia.
  - assert (nonempty (values (extents_of m))) as Hn by by eapply in_range_nonempty.
    destruct (ref_strides_ok m Hm Hn) as [H1 H2].
    rewrite (firsts_cast (extents_of m)) by (done || apply Hm). rewrite call_ok by done. simpl.
    pose proof (dot_span _ _ _ Hoob H1) as Hd. rewrite ref_strides_length in Hd by apply Hm.
    specialize (Hd ltac:(by rewrite length_fmap)).
    eexists. split; [done|]. rewrite u64_small by lia. split; [done|lia].
Qed.

(** ** Strided results *)

(** The strides of the dimensions that are kept. *)
Fixpoint kept_strides (ss : list slice) (strides : list Z) : list Z :=
  match ss, strides with
  | c :: ss', s :: strides' =>
      if is_index_slice c then kept_strides ss' strides'
      else cast (u64 (u64 s * stride_factor c)) :: kept_strides ss' strides'
  | _, _ => []
  end.

Lemma inv_map_ok (g : nat -> option Z) c ss strides :
  length ss = length strides ->
  (forall i x s, ss !! i = Some x -> strides !! i = Some s ->
     g (c + i)%nat = Some (cast (u64 (u64 s * stride_factor x)))) ->
  mapM g (inv_map_rank c ss) = Some (kept_strides ss strides).
Proof.
  revert c strides. induction ss as [|x ss IH]; intros c [|s strides] E Hg; simpl; try done.
  injection E as E.
  assert (mapM g (inv_map_rank (S c) ss) = Some (kept_strides ss strides)) as HI.
  { apply IH; [done|]. intros i x' s' Hx Hs'. specialize (Hg (S i) x' s' Hx Hs').
    by rewrite Nat.add_succ_r in Hg. }
  destruct (is_index_slice x); [done|]. simpl. specialize (Hg 0%nat x s eq_refl eq_refl).
  rewrite Nat.add_0_r in Hg. by rewrite Hg, HI.
Qed.

Lemma build_sub_strides_ok m ss :
  mapping_ok m -> length ss = rank (extents_of m) ->
  build_sub_strides m (inv_map_rank 0 ss) (make_stride_factors ss) = Some (kept_strides ss (ref_strides m)).
Proof.
  intros Hm Hs. apply inv_map_ok.
  { by rewrite ref_strides_length by apply Hm. }
  intros i x s Hx Hi. simpl. rewrite stride_ok, Hi; simpl; [|done|].
  - unfold make_stride_factors. rewrite list_lookup_fmap, Hx. done.
  - rewrite <- Hs. by eapply lookup_lt_Some.
Qed.

(** One dimension: the stride of the part is the stride of the source times the
    step of the slice, unless one element is left. *)
Lemma kept_stride_ok n c s :
  slice_ok n c -> is_index_slice c = false -> 0 < n <= index_max -> 0 <= s <= index_max ->
  s * (n - 1) <= index_max ->
  0 <= cast (u64 (u64 s * stride_factor c)) /\
  (slice_count n c <= 1 \/ cast (u64 (u64 s * stride_factor c)) = s * slice_step c).
Proof.
  pose proof index_max_range as [Hmax _]. intros Hs Hc Hn Hs0 Hm.
  pose proof (slice_ok_count n c ltac:(lia) Hs Hc) as Hcount. destruct Hs as [_ Hs].
  assert (forall f, 0 <= s * f <= index_max -> cast (u64 (u64 s * f)) = s * f) as Hexact.
  { intros f Hf. rewrite (u64_small s), u64_small, cast_nonneg by lia. done. }
  destruct c as [i| |o e st|f l st|f l]; try done; simpl in *.
  - rewrite (u64_small 1), Hexact by lia. lia.
  - destruct Hs as (Ho & _ & _ & _ & H2). rewrite (u64_small (get e)) by lia.
    destruct (Z.ltb_spec 1 (get e)) as [He|He]; [|rewrite Hexact by lia; lia].
    destruct (H2 He) as [H3 H4].
    assert (get st <= (get e - 1) * get st) by nia. assert (get st <= n - 1) by lia.
    pose proof (Z.mul_le_mono_nonneg_l (get st) (n - 1) s).
    assert (0 <= s * get st <= index_max) by nia.
    rewrite (u64_small (get st)), Hexact by lia. lia.
Qed.

Lemma kept_strides_part es ss strides :
  nonempty es -> Forall2 slice_ok es ss ->
  Forall2 (fun e s => e <= index_max /\ 0 <= s <= index_max) es strides ->
  dot (Z.pred <$> es) strides <= index_max ->
  part ss es strides (sub_values es ss) (kept_strides ss strides) /\
  Forall (fun s => 0 <= s) (kept_strides ss strides).
Proof.
  intros Hn Hs. revert strides. induction Hs as [|n c es ss Hc Hs IH]; intros strides Hr Hm.
  { inversion Hr. by repeat constructor. }
  apply Forall_cons in Hn as [Hn0 Hn]. inversion Hr as [|? s ? strides' [Hn1 Hs0] Hr']; subst.
  csimpl in Hm. cbn [dot] in Hm.
  assert (0 <= dot (Z.pred <$> es) strides') as Hd.
  { apply dot_nonneg.
    - apply Forall_fmap. eapply Forall_impl; [exact Hn|]. simpl. lia.
    - clear -Hr'. induction Hr' as [|? ? ? ? [_ ?] ? IH]; constructor; [lia|done]. }
  destruct (IH Hn strides' Hr' ltac:(nia)) as [IH1 IH2]. simpl.
  destruct (is_index_slice c) eqn:E.
  - split; [|done]. destruct c; try done. by apply part_index.
  - destruct (kept_stride_ok n c s Hc E ltac:(lia) Hs0 ltac:(nia)) as [H1 H2].
    split; [by apply part_keep|by constructor].
Qed.

Lemma kept_strides_length es ss strides :
  length es = length ss -> length strides = length ss ->
  length (kept_strides ss strides) = length (sub_values es ss).
Proof.
  revert es strides. induction ss as [|c ss IH]; intros [|e es] [|s strides]; simpl; try done.
  intros [= E1] [= E2]. specialize (IH es strides E1 E2). destruct (is_index_slice c); simpl; auto.
Qed.

Lemma kept_strides_range ss strides :
  Forall (fun s => index_min <= s <= index_max) (kept_strides ss strides).
Proof.
  revert strides. induction ss as [|c ss IH]; intros [|s strides]; simpl; try constructor.
  destruct (is_index_slice c); [done|]. constructor; [apply cast_range|done].
Qed.
End parts.

(** ** Canonical slices select what the caller asked for

    The positions a slice of any kind selects of its dimension, when a slice is
    valid, and that canonicalization keeps the positions. *)

(** The positions that a slice of a dimension with [n] elements selects, in
    order: a range every [stride] positions from its first one. *)
Definition positions (n : Z) (s : slice) : list Z :=
  match s with
  | IndexSlice i => [get i]
  | FullExtent => seqZ 0 n
  | ExtentSlice o e st => (fun k => get o + k * get st) <$> seqZ 0 (get e)
  | RangeSlice f l st => filter (fun p => (p - get f) mod get st = 0) (seqZ (get f) (get l - get f))
  | PairSlice f l => seqZ (get f) (get l - get f)
  end.

Lemma seqZ_succ m n : 0 <= n -> seqZ m (Z.succ n) = seqZ m n ++ [m + n].
Proof. intros Hn. by rewrite <- Z.add_1_r, seqZ_app by lia. Qed.

(** A range in steps, as an enumeration. *)
Lemma strided_positions f st m :
  0 < st -> 0 <= m ->
  (fun k => f + k * st) <$> seqZ 0 ((m + st - 1) / st) =
  filter (fun p => (p - f) mod st = 0) (seqZ f m).
Proof.
  intros Hst. revert m. apply natlike_ind.
  { rewrite Z.div_small by lia. done. }
  intros m Hm IH. rewrite seqZ_succ, filter_app, <- IH by done.
  pose proof (Z.div_mod m st ltac:(lia)) as Hd. pose proof (Z.mod_pos_bound m st Hst) as Hr.
  set (q := m / st) in *. set (r := m mod st) in *.
  assert ((m + st - 1) / st = if decide (r = 0) then q else q + 1) as ->.
  { case_decide; symmetry; [apply Z.div_unique with (r := st - 1)|apply Z.div_unique with (r := r - 1)]; lia. }
  assert ((Z.succ m + st - 1) / st = q + 1) as -> by (symmetry; apply Z.div_unique with (r := r); lia).
  assert (0 <= q) by (apply Z.div_pos; lia).
  assert ((f + m - f) mod st = r) as Hmod by (subst r; f_equal; lia). case_decide as E.
  - rewrite filter_cons_True by by rewrite Hmod. change (q + 1) with (Z.succ q).
    rewrite seqZ_succ, fmap_app by done. f_equal. simpl. f_equal. lia.
  - rewrite filter_cons_False by by rewrite Hmod. simpl. by rewrite app_nil_r.
Qed.

Section raw.
Context `{IndexType}.

(** The preconditions on a slice of a dimension with [n] elements, and what the
    type of a constant stride has to satisfy. *)
Definition raw_ok (n : Z) (s : slice) : Prop :=
  match s with
  | IndexSlice i => 0 <= get i < n
  | FullExtent => True
  | ExtentSlice o e st =>
      0 <= get o <= n /\ 0 <= get e /\ index_min <= get st <= index_max /\
      (1 <= get e -> get o < n) /\
      (1 < get e -> 0 < get st /\ get o + (get e - 1) * get st < n) /\
      (match st with Const k => 0 < k | Var _ => True end)
  | RangeSlice f l st =>
      0 <= get f <= get l /\ get l <= n /\ index_min <= get st <= index_max /\
      (get f < get l -> 0 < get st) /\ (match st with Const k => 0 < k | Var _ => True end)
  | PairSlice f l => 0 <= get f <= get l /\ get l <= n
  end.

(** A canonical slice that selects the same positions. *)
Definition canonical_for (n : Z) (s c : slice) : Prop :=
  slice_ok n c /\ positions n c = positions n s /\ is_index_slice c = is_index_slice s.

Lemma canonical_index_nonneg v :
  0 <= get v <= index_max -> canonical_index v = Some v /\ is_canonical_index_slice v = true.
Proof.
  pose proof index_max_range as [_ Hmin]. intros Hv.
  assert (is_canonical_index_slice v = true) as Hc.
  { destruct v as [k|k]; simpl in *; [|done]. apply andb_true_iff. rewrite representable_spec. split; [lia|].
    apply Z.leb_le. lia. }
  split; [|done]. apply canonical_index_id; [lia|done].
Qed.

(** The extent of a range of [span] positions in steps of [st]. *)
Definition range_extent (span st : Z) : Z := if span =? 0 then 0 else 1 + (span - 1) / st.

Definition const_of (a b : value) (n : Z) : value :=
  match a, b with Const _, Const _ => Const n | _, _ => Var n end.

Lemma difference_ok f l :
  0 <= get f <= get l -> get l <= index_max -> difference l f = Some (const_of l f (get l - get f)).
Proof. intros H1 H2. unfold difference, const_of. by rewrite arith_nonneg by lia. Qed.

Lemma get_const_of a b n : get (const_of a b n) = n.
Proof. by destruct a, b. Qed.

(** The extent as the code computes it. *)
Lemma range_extent_ok span st :
  0 <= span <= index_max -> (0 < span -> 0 < st) ->
  (if span =? 0 then Some 0
   else if st =? 0 then None
   else d ← arith (span - 1); t ← arith (1 + Z.quot d st); Some (cast t)) = Some (range_extent span st) /\
  0 <= range_extent span st <= span /\ (1 < range_extent span st -> (range_extent span st - 1) * st < span).
Proof.
  intros Hs Hst. unfold range_extent. destruct (Z.eqb_spec span 0) as [->|]; [split_and!; done || lia|].
  destruct (Z.eqb_spec st 0); [lia|]. rewrite arith_nonneg by lia. simpl.
  assert (0 <= (span - 1) / st) by (apply Z.div_pos; lia).
  pose proof (Z.mul_div_le (span - 1) st ltac:(lia)).
  assert ((span - 1) / st <= span - 1) by (apply Z.div_le_upper_bound; nia).
  rewrite Z.quot_div_nonneg by lia. rewrite arith_nonneg by lia. simpl. rewrite cast_nonneg by lia.
  split_and!; try done; lia.
Qed.

Lemma range_positions f span st :
  0 <= span -> (0 < span -> 0 < st) ->
  (fun k => f + k * st) <$> seqZ 0 (range_extent span st) =
  filter (fun p => (p - f) mod st = 0) (seqZ f span).
Proof.
  intros Hs Hst. unfold range_extent. destruct (Z.eqb_spec span 0) as [->|]; [done|].
  rewrite <- strided_positions by lia. do 2 f_equal.
  replace (span + st - 1) with (span - 1 + 1 * st) by lia. rewrite Z.div_add by lia. lia.
Qed.

(** A range of [span] positions from [o] on. *)
Lemma canonical_range_ok n o span strides st :
  0 <= n <= index_max -> 0 <= get o -> 0 <= get span -> get o + get span <= n ->
  canonical_stride span strides = Some st -> index_min <= get st <= index_max ->
  (0 < get span -> 0 < get st) -> (match st with Const k => 0 < k | Var _ => True end) ->
  exists c, canonical_range_slice o span strides = Some c /\ slice_ok n c /\ is_index_slice c = false /\
    positions n c = filter (fun p => (p - get o) mod get st = 0) (seqZ (get o) (get span)).
Proof.
  intros Hn Ho Hs Hle Hst Hr Hpos Hconst. unfold canonical_range_slice.
  destruct (canonical_index_nonneg o) as [-> Hoc]; [lia|]. simpl.
  destruct (canonical_index_nonneg span) as [-> _]; [lia|]. simpl. rewrite Hst. simpl.
  assert (match st with Const k => k <=? 0 | Var _ => false end = false) as ->.
  { destruct st; [|done]. apply Z.leb_gt. lia. }
  destruct (range_extent_ok (get span) (get st)) as (-> & He1 & He2); [lia|done|]. simpl.
  exists (ExtentSlice o (const_of span st (range_extent (get span) (get st))) st).
  split; [by destruct span, st|]. split; [|split; [done|]].
  - split; simpl; rewrite ?get_const_of; [|split_and!; lia].
    rewrite Hoc. simpl. destruct (canonical_index_nonneg (const_of span st (range_extent (get span) (get st))))
      as [_ ->]; [rewrite get_const_of; lia|]. simpl.
    destruct st as [k|k]; simpl in *; [|by destruct span].
    rewrite (proj2 (representable_spec k)) by done. destruct (Z.leb_spec 0 k); [|lia]. simpl.
    destruct span; simpl; [apply Z.ltb_lt; lia|done].
  - simpl. rewrite get_const_of. by apply range_positions.
Qed.

Lemma canonical_stride_ok span st :
  index_min <= get st <= index_max -> 0 <= get span -> (0 < get span -> 0 < get st) ->
  (match st with Const k => 0 < k | Var _ => True end) ->
  exists st', canonical_stride span (Some st) = Some st' /\ index_min <= get st' <= index_max /\
    (0 < get span -> get st' = get st) /\ (match st' with Const k => 0 < k | Var _ => True end).
Proof.
  pose proof index_max_range as [Hmax Hmin]. intros Hr Hs Hpos Hc.
  assert (canonical_index st = Some st) as Hci.
  { destruct st as [k|k]; simpl in *; [by rewrite (proj2 (representable_spec k)), cast_id|by rewrite cast_id]. }
  assert (forall st', (stride ← canonical_index st;
    Some (match stride with Const _ => stride | Var _ => if get span =? 0 then Var 1 else stride end)) = Some st' ->
    exists st'', Some st' = Some st'' /\ index_min <= get st'' <= index_max /\
    (0 < get span -> get st'' = get st) /\ (match st'' with Const k => 0 < k | Var _ => True end)) as Hgen.
  { intros st'. rewrite Hci. simpl. intros [= <-]. eexists. split; [done|].
    destruct st as [k|k]; [done|]. destruct (Z.eqb_spec (get span) 0); [|done]. simpl. split_and!; done || lia. }
  unfold canonical_stride. destruct span as [[|k|k]|k]; simpl in *;
    try (rewrite Hci in Hgen |- *; simpl in Hgen |- *; by eapply Hgen).
  exists (Const 1). split_and!; simpl; done || lia.
Qed.

(** Canonicalization of a valid slice. *)
Lemma canonical_slice_ok n s :
  0 <= n <= index_max -> raw_ok n s -> exists c, canonical_slice s = Some c /\ canonical_for n s c.
Proof.
  pose proof index_max_range as [Hmax Hmin]. intros Hn Hs.
  destruct s as [i| |o e st|f l st|f l]; simpl in Hs.
  - destruct (canonical_index_nonneg i) as [E Hc]; [lia|]. simpl. rewrite E. simpl.
    exists (IndexSlice i). split; [done|]. by split.
  - by exists FullExtent.
  - assert (get e <= n) by nia. destruct (canonical_index_nonneg o) as [E1 Hc1]; [lia|].
    destruct (canonical_index_nonneg e) as [E2 Hc2]; [lia|]. destruct Hs as (Ho & He & Hst & H1 & H2 & H3).
    assert (canonical_index st = Some st /\ is_canonical_index_slice st = true) as [E3 Hc3].
    { destruct st as [k|k]; simpl in *; [|by rewrite cast_id].
      rewrite (proj2 (representable_spec k)), cast_id by done. by destruct (Z.leb_spec 0 k); [|lia]. }
    exists (ExtentSlice o e st). simpl. rewrite E1, E2, E3. split; [done|]. split; [|done].
    split; [|done]. simpl. rewrite Hc1, Hc2, Hc3. simpl. destruct e, st; simpl in *; try done. apply Z.ltb_lt. lia.
  - destruct Hs as (Hf & Hl & Hst & Hpos & Hc). simpl.
    destruct (canonical_index_nonneg f) as [-> _]; [lia|]. destruct (canonical_index_nonneg l) as [-> _]; [lia|].
    simpl. assert (canonical_index st = Some st) as ->.
    { destruct st as [k|k]; simpl in *; [by rewrite (proj2 (representable_spec k)), cast_id|by rewrite cast_id]. }
    simpl. rewrite difference_ok by lia. simpl. set (span := const_of l f (get l - get f)).
    assert (get span = get l - get f) as Hspan by apply get_const_of.
    destruct (canonical_stride_ok span st) as (st' & E & Hr' & Hst' & Hc'); [done|lia|lia|done|].
    destruct (canonical_range_ok n f span (Some st) st') as (c & Ec & Hok & Hx & Hp); try lia; try done.
    exists c. split; [done|]. split; [done|]. split; [|done]. rewrite Hp, Hspan. simpl.
    destruct (Z.eq_dec (get l - get f) 0) as [->|]; [done|]. rewrite Hst' by lia. done.
  - destruct Hs as (Hf & Hl). simpl.
    destruct (canonical_index_nonneg f) as [-> _]; [lia|]. destruct (canonical_index_nonneg l) as [-> _]; [lia|].
    simpl. rewrite difference_ok by lia. simpl. set (span := const_of l f (get l - get f)).
    assert (get span = get l - get f) as Hspan by apply get_const_of.
    destruct (canonical_range_ok n f span None (Const 1)) as (c & Ec & Hok & Hx & Hp); simpl; try lia; try done.
    exists c. split; [done|]. split; [done|]. split; [|done]. rewrite Hp, Hspan. simpl.
    induction (seqZ (get f) (get l - get f)) as [|p ps IH]; [done|].
    rewrite filter_cons_True by apply Z.mod_1_r. by f_equal.
Qed.

(** A valid slice has a valid type. *)
Lemma valid_static_slice d c :
  dim_ok d -> slice_ok (dim_extent d) c -> is_valid_static_slice_type d c = true.
Proof.
  pose proof index_max_range. intros [Hd _] [Hc Hs]. destruct d as [x|x]; [|done]. simpl in *.
  destruct c as [[i|i]| |o e st|f l st|f l]; try done; simpl in *.
  { rewrite u64_small by lia. apply Z.ltb_lt. lia. }
  rewrite !andb_true_iff in Hc. destruct Hc as [[[_ _] Hcst] _]. destruct Hs as (Ho & He & Hr & H1 & H2).
  assert (get e <= x) by nia.
  assert (0 <= static_index_or o 0 <= get o) as HO by (destruct o; simpl in *; rewrite ?u64_small by lia; lia).
  assert (static_index_or e 0 = 0 \/ static_index_or e 0 = get e) as HE
    by (destruct e; simpl in *; rewrite ?u64_small by lia; lia).
  assert (static_index_or st 1 = 1 \/ static_index_or st 1 = get st) as HS.
  { destruct st as [k|k]; simpl in *; [right|by left].
    apply andb_true_iff in Hcst as [_ Hk%Z.leb_le]. by rewrite u64_small by lia. }
  set (O := static_index_or o 0) in *. set (E := static_index_or e 0) in *. set (S := static_index_or st 1) in *.
  destruct (Z.ltb_spec x O); [lia|]. destruct (Z.ltb_spec x E); [lia|]. simpl.
  destruct (Z.eqb_spec E 0); [done|]. destruct HE as [|HE]; [done|]. specialize (H1 ltac:(lia)).
  destruct (Z.leb_spec x O); [lia|]. destruct (Z.eqb_spec E 1); [done|]. destruct (H2 ltac:(lia)) as [Hp1 Hp2].
  destruct (Z.eqb_spec S 0); [lia|]. apply Z.leb_le, Z.div_le_lower_bound; [lia|].
  rewrite HE. destruct HS as [-> | ->]; nia.
Qed.

Lemma canonical_slices_ok e ss :
  Forall dim_ok e -> Forall2 raw_ok (values e) ss ->
  exists cs, canonical_slices e ss = Some cs /\ has_canonical_mapping_slices e cs = true /\
    slices_ok e cs /\ Forall2 (fun n p => canonical_for n p.1 p.2) (values e) (zip ss cs) /\
    length cs = length ss.
Proof.
  intros He Hs.
  assert (exists cs, mapM canonical_slice ss = Some cs /\ slices_ok e cs /\
    forallb is_canonical_slice cs = true /\ has_valid_static_slice_types e cs = true /\
    Forall2 (fun n p => canonical_for n p.1 p.2) (values e) (zip ss cs) /\ length cs = length ss)
    as (cs & HM & Hok & Hc & Hv & Hfor & Hlen).
  { unfold slices_ok, has_valid_static_slice_types. revert ss Hs.
    induction He as [|d e Hd He IH]; intros ss Hs; csimpl in Hs.
    { inversion Hs. by exists []. }
    inversion Hs as [|? s ? ss' Hs0 Hss]; subst. destruct (IH ss' Hss) as (cs & HM & Hok & Hc & Hv & Hfor & Hlen).
    pose proof Hd as [Hdr _]. destruct (canonical_slice_ok _ _ Hdr Hs0) as (c & E & Hcf).
    pose proof Hcf as [Hcok _]. exists (c :: cs). simpl. rewrite E, HM. simpl.
    split; [done|]. split; [by constructor|]. rewrite Hc, Hv, (valid_static_slice d c) by done.
    pose proof Hcok as [-> _]. split; [done|]. split; [done|]. split; [by constructor|by rewrite Hlen]. }
  pose proof (Forall2_length _ _ _ Hs) as Hl. rewrite length_fmap in Hl.
  assert (has_canonical_mapping_slices e cs = true) as Hcan.
  { unfold has_canonical_mapping_slices. rewrite Hc, Hv, Hlen, <- Hl. unfold rank. by rewrite Nat.eqb_refl. }
  exists cs. split; [|done]. unfold canonical_slices, has_valid_raw_slice_types. rewrite HM, Hcan.
  unfold rank. by rewrite Hl, Nat.eqb_refl.
Qed.
End raw.

(** ** The elements of a part *)

(** The multi-index of the source at the positions [js] of the slices. *)
Fixpoint pick (es : list Z) (ss : list slice) (js : list Z) : option (list Z) :=
  match es, ss with
  | n :: es', IndexSlice i :: ss' => (get i ::.) <$> pick es' ss' js
  | n :: es', s :: ss' =>
      match js with
      | [] => None
      | j :: js' => p ← positions n s !! Z.to_nat j; (p ::.) <$> pick es' ss' js'
      end
  | _, _ => match js with [] => Some [] | _ => None end
  end.

(** How many positions each dimension keeps. *)
Fixpoint counts (es : list Z) (ss : list slice) : list Z :=
  match es, ss with
  | n :: es', s :: ss' =>
      if is_index_slice s then counts es' ss'
      else Z.of_nat (length (positions n s)) :: counts es' ss'
  | _, _ => []
  end.

Section picks.
Context `{IndexType}.

Lemma canonical_positions n c :
  0 <= n -> slice_ok n c -> is_index_slice c = false ->
  Z.of_nat (length (positions n c)) = slice_count n c /\
  forall j, 0 <= j < slice_count n c ->
    positions n c !! Z.to_nat j = Some (get (first_of c) + j * slice_step c).
Proof.
  intros Hn [_ Hs] Hx. destruct c as [i| |o e st|f l st|f l]; try done; simpl in *.
  - rewrite length_seqZ. split; [lia|]. intros j Hj. apply lookup_seqZ. lia.
  - rewrite length_fmap, length_seqZ. split; [lia|]. intros j Hj.
    rewrite list_lookup_fmap, (proj2 (lookup_seqZ 0 (get e) (Z.to_nat j) j)) by lia. done.
Qed.

Lemma pick_ok es ss cs js :
  Forall (fun n => 0 <= n) es -> length cs = length ss ->
  Forall2 (fun n p => canonical_for n p.1 p.2) es (zip ss cs) ->
  counts es ss = sub_values es cs /\
  (in_range js (sub_values es cs) -> pick es ss js = Some (source_index cs js)).
Proof.
  intros He. revert ss cs js. induction He as [|n es Hn He IH]; intros [|s ss] [|c cs] js Hlen Hf;
    simpl in *; try done; try (by inversion Hf).
  { split; [done|]. intros Hj. by inversion Hj. }
  inversion Hf as [|? ? ? ? (Hok & Hpos & Hx) Hf']; subst. simpl in *. injection Hlen as Hlen.
  destruct (is_index_slice c) eqn:Ec.
  - destruct (IH ss cs js Hlen Hf') as [IH1 IH2]. rewrite <- Hx. split; [done|]. intros Hj.
    destruct s as [i| |o e st|f l st|f l]; try done. destruct c as [i'| |o e st|f l st|f l]; try done.
    simpl in Hpos. injection Hpos as ->. by rewrite IH2.
  - destruct (canonical_positions n c Hn Hok Ec) as [Hcount Hlook]. rewrite <- Hx.
    destruct (IH ss cs (tl js) Hlen Hf') as [IH1 IH2]. split; [by rewrite <- Hpos, Hcount, IH1|]. intros Hj.
    inversion Hj as [|j ? js' ? Hjn Hj']; subst. simpl in IH2. specialize (IH2 Hj').
    assert (source_index (c :: cs) (j :: js') =
      (get (first_of c) + j * slice_step c) :: source_index cs js') as Hsrc by by destruct c.
    assert (pick (n :: es) (s :: ss) (j :: js') =
      (p ← positions n s !! Z.to_nat j; (p ::.) <$> pick es ss js')) as Hpick by by destruct s.
    change (pick (n :: es) (s :: ss) (j :: js') = Some (source_index (c :: cs) (j :: js'))).
    by rewrite Hsrc, Hpick, <- Hpos, (Hlook j Hjn), IH2.
Qed.
End picks.
