(* ===== verification/SubmdspanLayout.v ===== *)
(** * When a part keeps the layout of its source

    The tests by which [submdspan_mapping] chooses a layout for its result
    ([ll_preserving], [left_padded_stride_index] and their mirror images) say
    what the slices look like; on slices of that form, the strides of the
    layout chosen are the strides of the source.  The right layouts are the
    left ones read from the last dimension on. *)
From S2P Require Import Prelude Extents Layouts LayoutSpec Slices Submdspan SubmdspanSpec.

#[local] Open Scope Z_scope.

(** ** Reading the tests *)

(** The number of dimensions that slices keep. *)
Definition kept (ss : list slice) : nat := length (filter (fun s => is_index_slice s = false) ss).

Lemma kept_app ss1 ss2 : kept (ss1 ++ ss2) = (kept ss1 + kept ss2)%nat.
Proof. unfold kept. by rewrite filter_app, length_app. Qed.

Lemma kept_all ss : Forall (fun s => is_index_slice s = false) ss -> kept ss = length ss.
Proof. unfold kept. intros Hs. f_equal. induction Hs; [done|]. rewrite filter_cons_True by done. by f_equal. Qed.

Lemma kept_none ss : kept ss = 0%nat -> Forall (fun s => is_index_slice s = true) ss.
Proof.
  unfold kept. induction ss as [|s ss IH]; [constructor|]. destruct (is_index_slice s) eqn:E.
  - rewrite filter_cons_False by congruence. intros ?. constructor; auto.
  - rewrite filter_cons_True by done. done.
Qed.

Lemma unit_not_index s : is_unit_stride_slice s = true -> is_index_slice s = false.
Proof. by destruct s. Qed.
Lemma full_not_index s : is_full s = true -> is_index_slice s = false.
Proof. by destruct s. Qed.

Lemma at_slice_spec p k ss : at_slice p k ss = true <-> exists s, ss !! k = Some s /\ p s = true.
Proof.
  unfold at_slice. destruct (ss !! k) as [s|]; [|by split; [|intros (? & ? & _)]].
  split; [by exists s|]. by intros (? & [= <-] & ?).
Qed.

Lemma all_from_spec p a b ss :
  all_from p a b ss = true <-> forall k, (a <= k < b)%nat -> at_slice p k ss = true.
Proof.
  unfold all_from. rewrite forallb_forall. split.
  - intros Hp k Hk. apply Hp, in_seq. lia.
  - intros Hp k [? ?]%in_seq. apply Hp. lia.
Qed.

Lemma all_from_Forall p a b ss :
  (b <= length ss)%nat -> all_from p a b ss = true ->
  Forall (fun s => p s = true) (take (b - a) (drop a ss)).
Proof.
  intros Hb Hp. rewrite all_from_spec in Hp. apply Forall_lookup. intros i s Hi.
  apply lookup_take_Some in Hi as [Hi Hlt]. rewrite lookup_drop in Hi.
  specialize (Hp (a + i)%nat ltac:(lia)). apply at_slice_spec in Hp as (s' & Hs' & ?). by simplify_eq.
Qed.

Lemma at_slice_rev p k ss : (k < length ss)%nat -> at_slice p k (rev ss) = at_slice p (length ss - S k) ss.
Proof. intros Hk. unfold at_slice. by rewrite rev_lookup. Qed.

Lemma all_from_rev p a b ss :
  (b <= length ss)%nat -> all_from p a b ss = true ->
  all_from p (length ss - b) (length ss - a) (rev ss) = true.
Proof.
  intros Hb Hp. rewrite all_from_spec in *. intros k Hk. rewrite at_slice_rev by lia. apply Hp. lia.
Qed.

Lemma find_up_spec p count k ss i :
  find_up p count k ss = Some i -> (k <= i < k + count)%nat /\ at_slice p i ss = true.
Proof.
  revert k. induction count as [|count IH]; intros k; simpl; [done|].
  destruct (at_slice p k ss) eqn:E.
  - intros [= <-]. split; [lia|done].
  - intros Hf. destruct (IH _ Hf). split; [lia|done].
Qed.

Lemma find_down_spec p k ss i : find_down p k ss = Some i -> (i < k)%nat /\ at_slice p i ss = true.
Proof.
  induction k as [|k IH]; simpl; [done|]. destruct (at_slice p k ss) eqn:E.
  - intros [= <-]. split; [lia|done].
  - intros Hf. destruct (IH Hf). split; [lia|done].
Qed.

(** ** The two forms *)

(** Full slices, one of stride 1, then indices. *)
Definition preserved (ss : list slice) : Prop := exists fulls u rest,
  ss = fulls ++ u :: rest /\ Forall (fun s => is_full s = true) fulls /\
  is_unit_stride_slice u = true /\ Forall (fun s => is_index_slice s = true) rest.

(** One slice of stride 1, [mid] indices, then the form above. *)
Definition padded (mid : nat) (ss : list slice) : Prop := exists u0 indices ss',
  ss = u0 :: indices ++ ss' /\ is_unit_stride_slice u0 = true /\
  length indices = mid /\ Forall (fun s => is_index_slice s = true) indices /\ preserved ss'.

Lemma preserved_intro k ss :
  (k < length ss)%nat -> all_from is_full 0 k ss = true ->
  at_slice is_unit_stride_slice k ss = true ->
  all_from is_index_slice (k + 1) (length ss) ss = true -> preserved ss.
Proof.
  intros Hk Hf Hu Hr. apply at_slice_spec in Hu as (u & Hu & Hu').
  apply all_from_Forall in Hf, Hr; [|lia..].
  exists (take k ss), u, (drop (S k) ss). split; [by rewrite take_drop_middle|].
  rewrite Nat.sub_0_r, drop_0 in Hf. split; [done|]. split; [done|].
  rewrite Nat.add_1_r, take_ge in Hr; [done|]. rewrite length_drop. lia.
Qed.

Lemma ll_preserving_form ss :
  (0 < kept ss)%nat -> (kept ss <= length ss)%nat ->
  ll_preserving (kept ss) (length ss) ss = true -> preserved ss.
Proof.
  intros Hk Hle. unfold ll_preserving. destruct (Nat.eqb_spec (kept ss) 0); [lia|].
  destruct (Nat.eqb_spec (kept ss) 1) as [E|].
  - destruct (find_up _ _ _ _) as [i|] eqn:Hf; [|done]. apply find_up_spec in Hf as [Hi _].
    rewrite !andb_true_iff. intros [[Hu Hfull] Hidx]. by apply (preserved_intro i); [lia|..].
  - rewrite !andb_true_iff. intros [[Hfull Hu] Hidx]. apply (preserved_intro (kept ss - 1)); [lia|done..|].
    by replace (kept ss - 1 + 1)%nat with (kept ss) by lia.
Qed.

Lemma preserved_intro_rev k ss :
  (k < length ss)%nat -> all_from is_full (k + 1) (length ss) ss = true ->
  at_slice is_unit_stride_slice k ss = true ->
  all_from is_index_slice 0 k ss = true -> preserved (rev ss).
Proof.
  intros Hk Hf Hu Hr. apply all_from_rev in Hf, Hr; [|lia..].
  apply (preserved_intro (length ss - 1 - k)); rewrite ?length_rev; [lia| | |].
  - by replace (length ss - 1 - k)%nat with (length ss - (k + 1))%nat by lia;
      replace (length ss - length ss)%nat with 0%nat in Hf by lia.
  - rewrite at_slice_rev by lia. by replace (length ss - S (length ss - 1 - k))%nat with k by lia.
  - replace (length ss - 1 - k + 1)%nat with (length ss - k)%nat by lia. by rewrite Nat.sub_0_r in Hr.
Qed.

Lemma lr_preserving_form ss :
  (0 < kept ss)%nat -> (kept ss <= length ss)%nat ->
  lr_preserving (kept ss) (length ss) ss = true -> preserved (rev ss).
Proof.
  intros Hk Hle. unfold lr_preserving. destruct (Nat.eqb_spec (kept ss) 0); [lia|].
  destruct (Nat.eqb_spec (kept ss) 1) as [E|].
  - destruct (find_down _ _ _) as [i|] eqn:Hf; [|done]. apply find_down_spec in Hf as [Hi _].
    rewrite !andb_true_iff. intros [[Hu Hfull] Hidx]. by apply (preserved_intro_rev i).
  - rewrite !andb_true_iff. intros [[Hfull Hu] Hidx].
    apply (preserved_intro_rev (length ss - kept ss)); [lia|done..].
Qed.

(** The dimensions that are kept are those the test has looked at. *)
Lemma padded_intro si ss :
  (2 <= kept ss)%nat -> (1 <= si)%nat -> (si + kept ss - 2 < length ss)%nat ->
  at_slice is_unit_stride_slice 0 ss = true ->
  all_from is_full si (si + kept ss - 2) ss = true ->
  at_slice is_unit_stride_slice (si + kept ss - 2) ss = true -> padded (si - 1) ss.
Proof.
  intros Hk Hsi Hlt H0 Hf Hu. apply all_from_Forall in Hf; [|lia].
  apply at_slice_spec in H0 as (u0 & Hu0 & Hu0'). apply at_slice_spec in Hu as (u & Hu & Hu').
  remember (si + kept ss - 2)%nat as fu eqn:Hfu. destruct ss as [|s0 ss0]; [done|]. injection Hu0 as ->.
  destruct si as [|si]; [lia|]. simpl in Hf.
  set (indices := take si ss0). set (fulls := take (fu - S si) (drop si ss0)) in *.
  set (rest := drop fu ss0).
  assert (ss0 = indices ++ fulls ++ u :: rest) as Hss.
  { subst indices fulls rest. rewrite <- (take_drop si ss0) at 1. f_equal.
    assert (drop si ss0 !! (fu - S si)%nat = Some u) as Hl.
    { rewrite lookup_drop. rewrite lookup_cons_ne_0 in Hu by lia. rewrite <- Hu. f_equal. lia. }
    rewrite <- (take_drop_middle (drop si ss0) (fu - S si) u) at 1 by done. do 2 f_equal.
    rewrite drop_drop. f_equal. lia. }
  assert (kept (u0 :: ss0) = S (kept ss0)) as Hk0.
  { unfold kept. by rewrite filter_cons_True by by apply unit_not_index. }
  assert (kept (u :: rest) = S (kept rest)) as Hk1.
  { unfold kept. by rewrite filter_cons_True by by apply unit_not_index. }
  assert (kept fulls = length fulls) as Hk2.
  { apply kept_all. eapply Forall_impl; [exact Hf|]. apply full_not_index. }
  assert (length fulls = (fu - S si)%nat) as Hk3.
  { subst fulls. rewrite length_take, length_drop. simpl in Hlt. lia. }
  pose proof Hk0 as Hcount. rewrite Hss, !kept_app in Hcount. rewrite <- Hss in Hcount.
  rewrite Hk1, Hk2, Hk3 in Hcount.
  exists u0, indices, (fulls ++ u :: rest). rewrite <- Hss. split; [done|]. split; [done|].
  split; [subst indices; rewrite length_take; simpl in Hlt; lia|].
  split; [apply kept_none; lia|]. exists fulls, u, rest. split; [done|]. split; [done|]. split; [done|].
  apply kept_none. lia.
Qed.

Lemma left_padded_form ss :
  left_padded_stride_index (kept ss) (length ss) ss <> length ss ->
  (2 <= kept ss)%nat /\ exists mid, left_padded_stride_index (kept ss) (length ss) ss = S mid /\
    padded mid ss /\ (S mid < length ss)%nat.
Proof.
  unfold left_padded_stride_index.
  destruct (Nat.ltb_spec (kept ss) 2), (Nat.ltb_spec (length ss) 2); try done. simpl.
  destruct (at_slice _ 0 ss) eqn:Hz; [|done]. simpl.
  destruct (find_up _ _ _ _) as [si|] eqn:Hf; [|done]. apply find_up_spec in Hf as [Hi _].
  destruct (Nat.ltb_spec (length ss - 1 - si) (kept ss - 2)); [done|].
  destruct (all_from _ _ _ _) eqn:Hfull; [|done]. simpl.
  destruct (at_slice _ (si + kept ss - 2) ss) eqn:Hu; [|done]. intros _. split; [done|].
  exists (si - 1)%nat. split; [lia|]. split; [|lia]. apply padded_intro; (done || lia).
Qed.

Lemma kept_rev ss : kept (rev ss) = kept ss.
Proof. unfold kept. by rewrite <- Permutation_rev. Qed.

Lemma right_padded_form ss :
  right_padded_stride_index (kept ss) (length ss) ss <> length ss ->
  (2 <= kept ss)%nat /\ exists mid,
    right_padded_stride_index (kept ss) (length ss) ss = (length ss - S (S mid))%nat /\
    padded mid (rev ss) /\ (S mid < length ss)%nat.
Proof.
  unfold right_padded_stride_index.
  destruct (Nat.ltb_spec (kept ss) 2), (Nat.ltb_spec (length ss) 2); try done. simpl.
  destruct (at_slice _ (length ss - 1) ss) eqn:Hz; [|done]. simpl.
  destruct (find_down _ _ _) as [si|] eqn:Hf; [|done]. apply find_down_spec in Hf as [Hi _].
  destruct (Nat.ltb_spec si (kept ss - 2)); [done|].
  destruct (all_from _ _ _ _) eqn:Hfull; [|done]. simpl.
  destruct (at_slice _ (si - (kept ss - 2)) ss) eqn:Hu; [|done]. intros _. split; [done|].
  exists (length ss - S (S si))%nat. split; [lia|]. split; [|lia].
  apply all_from_rev in Hfull; [|lia].
  replace (length ss - S (S si))%nat with (length ss - S si - 1)%nat by lia.
  apply padded_intro; rewrite ?kept_rev, ?length_rev; try lia.
  - rewrite at_slice_rev by lia. by replace (length ss - 1)%nat with (length ss - 1)%nat in Hz by lia.
  - replace (length ss - S si)%nat with (length ss - (si + 1))%nat by lia.
    replace (length ss - (si + 1) + kept ss - 2)%nat
      with (length ss - (si - (kept ss - 2) + 1))%nat by lia. done.
  - rewrite at_slice_rev by lia.
    by replace (length ss - S (length ss - S si + kept ss - 2))%nat with (si - (kept ss - 2))%nat by lia.
Qed.

(** ** The strides of a part that keeps the layout *)

Section strides.
Context `{IndexType}.

Lemma unit_step n s : slice_ok n s -> is_unit_stride_slice s = true -> slice_step s = 1.
Proof. intros _. destruct s as [i| |o e [st|st]|f l st|f l]; simpl; try done. by intros ?%Z.eqb_eq. Qed.

Lemma full_slice s : is_full s = true -> s = FullExtent.
Proof. by destruct s. Qed.

Lemma index_part ss es strides :
  Forall (fun s => is_index_slice s = true) ss -> Forall2 slice_ok es ss ->
  length strides = length es -> part ss es strides [] [] /\ sub_values es ss = [].
Proof.
  intros Hx Hs. revert strides. induction Hs as [|e c es ss Hc Hs IH]; intros [|s strides] E; try done.
  { split; [constructor|done]. }
  apply Forall_cons in Hx as [Hx0 Hx]. injection E as E. destruct (IH Hx _ E) as [H1 H2]. simpl.
  rewrite Hx0. split; [|done]. destruct c; try done. by apply part_index.
Qed.

Lemma preserved_part ss es s :
  preserved ss -> Forall2 slice_ok es ss ->
  part ss es (prefix_strides s es) (sub_values es ss) (prefix_strides s (sub_values es ss)).
Proof.
  intros (fulls & u & rest & -> & Hf & Hu & Hr). revert es s.
  induction Hf as [|f fulls Hf0 Hf IH]; intros es s Hs; inversion Hs as [|e ? es' ? He Hes]; subst; simpl.
  - destruct (index_part rest es' (prefix_strides (s * e) es')) as [H1 H2];
      [done|done|by rewrite prefix_strides_length|].
    rewrite (unit_not_index _ Hu), H2. simpl. apply part_keep; [done|by apply unit_not_index|done| |done].
    right. by rewrite (unit_step e), Z.mul_1_r.
  - rewrite (full_not_index _ Hf0). apply full_slice in Hf0 as ->. simpl.
    apply part_keep; [done..|right; simpl; lia|]. by apply IH.
Qed.

(** A part is not larger than its source. *)
Lemma grown_sub es ss :
  Forall2 slice_ok es ss -> product (grown (sub_values es ss)) <= product (grown es).
Proof.
  induction 1 as [|e c es ss Hc Hs IH]; simpl; [done|]. pose proof (grown_pos (sub_values es ss)) as H0.
  change (product (grown (e :: es))) with (Z.max 1 e * product (grown es)).
  destruct (is_index_slice c) eqn:E; [nia|].
  change (product (grown (?n :: ?ns))) with (Z.max 1 n * product (grown ns)).
  assert (Z.max 1 (slice_count e c) <= Z.max 1 e).
  { destruct (Z.le_gt_cases 0 e) as [He|He]; [pose proof (slice_ok_count e c He Hc E); lia|].
    destruct Hc as [_ Hc]. destruct c; try done; simpl in *; lia. }
  nia.
Qed.

(** The stride that becomes the padded one. *)
Lemma padded_part mid ss e es s :
  padded mid ss -> slice_ok e (hd FullExtent ss) -> Forall2 slice_ok es (tl ss) ->
  exists n ns, sub_values (e :: es) ss = n :: ns /\ n = slice_count e (hd FullExtent ss) /\
    ns <> [] /\ 1 <= product (take mid es) /\
    product (take mid es) * product (grown ns) <= product (grown es) /\
    part ss (e :: es) (1 :: prefix_strides s es) (n :: ns)
      (1 :: prefix_strides (s * product (take mid es)) ns).
Proof.
  intros (u0 & indices & ss' & -> & Hu & Hlen & Hx & Hp) He Hes. cbn [hd tl] in *.
  apply Forall2_app_inv_r in Hes as (es1 & es2 & H1 & H2 & ->).
  assert (take mid (es1 ++ es2) = es1) as ->.
  { rewrite take_app_le, take_ge; [done|..]; rewrite (Forall2_length _ _ _ H1); lia. }
  rewrite prefix_strides_app.
  destruct (index_part indices es1 (prefix_strides s es1)) as [H3 H4]; [done..|by rewrite prefix_strides_length|].
  pose proof (preserved_part ss' es2 (s * product es1) Hp H2) as H5.
  assert (nonempty es1) as Hn1.
  { clear -H1 Hx. induction H1 as [|x c es1 indices Hc _ IH]; constructor.
    - apply Forall_cons in Hx as [Hx _]. destruct c; try done. destruct Hc as [_ ?]. lia.
    - apply IH. by apply Forall_cons in Hx as [_ ?]. }
  exists (slice_count e u0), (sub_values es2 ss'). simpl. rewrite (unit_not_index _ Hu).
  rewrite sub_values_app, H4 by by eapply Forall2_length. split; [done|]. split; [done|]. split.
  - destruct Hp as (fulls & u & rest & -> & Hf & Hu' & _). clear -H2 Hf Hu'.
    destruct Hf as [|f fulls Hf0 Hf]; inversion H2; subst; simpl.
    + by rewrite (unit_not_index _ Hu').
    + by rewrite (full_not_index _ Hf0).
  - split; [by apply product_pos|]. split.
    { rewrite grown_app, product_app, (grown_nonempty es1) by done. pose proof (product_pos _ Hn1).
      pose proof (grown_sub es2 ss' H2). nia. }
    apply part_keep; [done|by apply unit_not_index|done|right; by rewrite (unit_step e)|].
    change (sub_values es2 ss') with ([] ++ sub_values es2 ss').
    change (prefix_strides ?x (?l)) with (prefix_strides x l).
    rewrite <- (app_nil_l (prefix_strides (s * product es1) ([] ++ sub_values es2 ss'))).
    by apply part_app.
Qed.
End strides.

(** ** The mapping of a part, layout by layout

    Each branch of [submdspan_mapping] makes a well-formed mapping of the part
    ([result_ok]): the strided one, the ones that keep the layout, and the
    padded ones, whose class accepts them and whose static padding is the
    stride they are given. *)

Section results.
Context `{IndexType}.
Implicit Types (e : extents) (src m : mapping).

(** A mapping of the part of [src] that [ss] selects. *)
Record result_ok src ss m : Prop := ResultOk {
  ro_mapping : mapping_ok m;
  ro_values : values (extents_of m) = sub_values (values (extents_of src)) ss;
  ro_part : nonempty (sub_values (values (extents_of src)) ss) ->
    part ss (values (extents_of src)) (ref_strides src)
      (sub_values (values (extents_of src)) ss) (ref_strides m);
}.

Lemma slices_ok_length e ss : slices_ok e ss -> length ss = rank e.
Proof. intros Hs. apply Forall2_length in Hs. by rewrite length_fmap in Hs. Qed.

Lemma sub_values_length es ss :
  length es = length ss -> length (sub_values es ss) = kept ss.
Proof.
  unfold kept. revert es. induction ss as [|c ss IH]; intros [|x es]; simpl; try done.
  intros [= E]. destruct (is_index_slice c) eqn:Ec.
  - rewrite filter_cons_False by congruence. by apply IH.
  - rewrite filter_cons_True by done. simpl. by rewrite IH.
Qed.

Lemma sub_values_rev es ss :
  length es = length ss -> sub_values (rev es) (rev ss) = rev (sub_values es ss).
Proof.
  revert es. induction ss as [|c ss IH]; intros [|x es]; simpl; try done. intros [= E].
  rewrite sub_values_app, IH by (rewrite ?length_rev; done). simpl.
  destruct (is_index_slice c); simpl; [by rewrite app_nil_r|done].
Qed.

Lemma slices_ok_rev es ss : Forall2 slice_ok es ss -> Forall2 slice_ok (rev es) (rev ss).
Proof.
  induction 1; simpl; [constructor|]. apply Forall2_app; [done|]. constructor; [done|constructor].
Qed.

(** A relation between parts, read from the right. *)
Lemma part_rev_inv ss es sts ns ts :
  part (rev ss) (rev es) (rev sts) (rev ns) ts -> part ss es sts ns (rev ts).
Proof. intros Hp%part_rev. by rewrite !rev_involutive in Hp. Qed.

(** The stride of a padded part: what its constructor stores, and that the
    padded part fits the index type. *)
Lemma padded_facts mid ss x es s p :
  padded mid ss -> Forall2 slice_ok (x :: es) ss -> 0 <= x <= index_max -> x <= s ->
  s * product (grown es) <= index_max -> (p = dynamic_extent \/ p = s * product (take mid es)) ->
  exists n ns, sub_values (x :: es) ss = n :: ns /\ ns <> [] /\ 0 <= n <= s * product (take mid es) /\
    (s * product (take mid es) * product (grown ns) <= index_max /\
     padding_fits p (s * product (take mid es)) (n :: ns)) /\
    (0 < n -> part ss (x :: es) (1 :: prefix_strides s es) (n :: ns)
      (padded_strides (stored_stride (s * product (take mid es)) (n :: ns)) (n :: ns))).
Proof.
  intros Hp Hss Hx0 Hx Hs Hpad. inversion Hss as [|? c ? ss' Hc Hss']; subst.
  destruct (padded_part mid (c :: ss') x es s Hp Hc Hss') as (n & ns & E1 & E2 & Hne & Hpos & Hg & Hpart).
  assert (0 <= n <= x) as Hn.
  { rewrite E2. destruct Hp as (u0 & ? & ? & E & Hu & _). injection E as -> _. simpl.
    apply slice_ok_count; [lia|done|by apply unit_not_index]. }
  set (S0 := s * product (take mid es)) in *.
  assert (S0 * product (grown ns) <= index_max /\ n <= S0) as [Hfit HnS].
  { subst S0. pose proof (grown_pos ns). split; nia. }
  pose proof (padded_stride_bound n ns S0 ltac:(lia) Hfit HnS) as HS.
  exists n, ns. split; [done|]. split; [done|]. split; [lia|]. destruct ns as [|n' ns]; [done|]. split.
  - split; [done|]. split; [lia|]. split; [done|]. rewrite lm_small by lia.
    pose proof (grown_pos (n' :: ns)). case_zb; nia.
  - intros Hn0. cbn [stored_stride padded_strides]. rewrite lm_small by lia.
    by destruct (Z.eqb_spec n 0); [lia|].
Qed.

Section source.
#[local] Set Default Proof Using "All".
Context (src : mapping) (ss : list slice).
Let e : extents := extents_of src.
Let ns : list Z := sub_values (values e) ss.
Hypothesis src_ok : mapping_ok src.
Hypothesis ss_ok : slices_ok e ss.

Lemma sub_ok : Forall dim_ok (sub_extents e ss) /\ values (sub_extents e ss) = ns.
Proof. by apply sub_extents_ok; [apply src_ok|]. Qed.

Lemma values_length : length (values e) = length ss.
Proof. by rewrite length_fmap, (slices_ok_length e). Qed.

Lemma rank_sub : rank (sub_extents e ss) = kept ss.
Proof.
  unfold rank. rewrite <- (length_fmap dim_extent), (proj2 sub_ok). apply sub_values_length, values_length.
Qed.

Lemma rank_src : rank e = length ss.
Proof. by rewrite (slices_ok_length e). Qed.

Lemma sub_nonneg : Forall (fun x => 0 <= x) ns.
Proof. rewrite <- (proj2 sub_ok). apply values_nonneg, sub_ok. Qed.

(** The strided result. *)
Lemma strided_result_ok off :
  exists sts, strided_result src (sub_extents e ss) ss off =
    Some (LayoutStride (sub_extents e ss) sts, off) /\
    result_ok src ss (LayoutStride (sub_extents e ss) sts).
Proof.
  destruct sub_ok as [Hd Hv]. pose proof (values_range _ (proj1 src_ok)) as Hr.
  exists (kept_strides ss (ref_strides src)). unfold strided_result.
  rewrite build_sub_strides_ok by (done || by rewrite (slices_ok_length e)). simpl. split; [done|].
  pose proof (ref_strides_length src (proj2 src_ok)) as Hlen.
  assert (nonempty ns -> part ss (values e) (ref_strides src) ns (kept_strides ss (ref_strides src)) /\
    Forall (fun s => 0 <= s) (kept_strides ss (ref_strides src)) /\ nonempty (values e)) as Hpart.
  { intros Hns. assert (nonempty (values e)) as Hn by by eapply sub_nonempty.
    destruct (ref_strides_ok src src_ok Hn) as [H0 Hsp]. rewrite span_nonempty in Hsp by done. fold e in Hsp.
    destruct (kept_strides_part (values e) ss (ref_strides src)) as [H1 H2]; [done|done| |lia|done].
    apply Forall2_same_length_lookup_2; [by rewrite Hlen, length_fmap|].
    intros i x s Hx Hs. pose proof (ref_strides_range src src_ok) as Hrs.
    rewrite Forall_lookup in Hrs, H0, Hr. specialize (Hr _ _ Hx). specialize (Hrs _ _ Hs).
    specialize (H0 _ _ Hs). simpl in *. lia. }
  split; [split; [done|]|done|intros Hns; by apply Hpart].
  split; [|split; [apply kept_strides_range|]].
  - rewrite kept_strides_length with (es := values e).
    + simpl. rewrite rank_sub. apply sub_values_length, values_length.
    + apply values_length.
    + rewrite Hlen. exact rank_src.
  - simpl. rewrite Hv. intros Hns. destruct (Hpart Hns) as (H1 & H2 & Hn). split; [done|].
    destruct (ref_strides_ok src src_ok Hn) as [H3 Hsp].
    pose proof (part_span _ _ _ _ _ H1 Hn Hns H3).
    assert (0 <= dot (firsts ss) (ref_strides src)); [|fold e in Hsp; lia].
    apply dot_nonneg; [|done]. eapply firsts_nonneg; [by apply values_nonneg, src_ok|done].
Qed.

(** A left padded result, from a source whose strides are padded ones too. *)
Lemma left_padded_result_ok x es s mid p off :
  values e = x :: es -> ref_strides src = 1 :: prefix_strides s es -> x <= s ->
  s * product (grown es) <= index_max -> padded mid ss -> (S mid < rank e)%nat ->
  (p = dynamic_extent \/ p = s * product (take mid es)) ->
  exists m, left_padded_result src (sub_extents e ss) (S mid) p off = Some (m, off) /\ result_ok src ss m.
Proof.
  intros Hv Hst Hx Hs Hp Hmid Hpad. destruct sub_ok as [Hd Hsv].
  pose proof ss_ok as Hss. unfold slices_ok in Hss. rewrite Hv in Hss.
  pose proof (values_range _ (proj1 src_ok)) as Hr. fold e in Hr. rewrite Hv in Hr.
  apply Forall_cons in Hr as [Hx0 _].
  destruct (padded_facts mid ss x es s p Hp Hss Hx0 Hx Hs Hpad) as (n & ns' & Hns & Hne & Hn & Hfit & Hpart).
  subst ns. rewrite Hv, Hns in Hsv. unfold left_padded_result.
  rewrite (left_mandates_ok p _ n ns' (s * product (take mid es))) by (done || apply Hfit || lia). simpl.
  rewrite stride_ok, Hst by done. simpl.
  rewrite prefix_strides_lookup
    by (apply (f_equal length) in Hv; rewrite length_fmap in Hv; unfold rank in Hmid; simpl in Hv; lia).
  simpl. set (S0 := s * product (take mid es)) in *.
  destruct (left_with_padding_ok p S0 (sub_extents e ss)) as [H1 H2]; [done|rewrite Hsv; apply Hfit|].
  rewrite H1. simpl. eexists. split; [done|]. unfold e in Hv.
  split; [done|simpl; by rewrite Hsv, Hv, Hns|]. rewrite Hst, Hv, Hns. simpl. rewrite Hsv.
  intros [Hn0 _]%Forall_cons. by apply Hpart.
Qed.

Lemma right_padded_result_ok x es s mid p off :
  rev (values e) = x :: es -> ref_strides src = rev (1 :: prefix_strides s es) -> x <= s ->
  s * product (grown es) <= index_max -> padded mid (rev ss) -> (S mid < rank e)%nat ->
  (p = dynamic_extent \/ p = s * product (take mid es)) ->
  exists m, right_padded_result src (sub_extents e ss) (length ss - S (S mid)) p off = Some (m, off) /\
    result_ok src ss m.
Proof.
  intros Hv Hst Hx Hs Hp Hmid Hpad. destruct sub_ok as [Hd Hsv].
  pose proof (slices_ok_rev _ _ ss_ok) as Hss. rewrite Hv in Hss.
  pose proof (Forall_rev (values_range _ (proj1 src_ok))) as Hr. fold e in Hr. rewrite Hv in Hr.
  apply Forall_cons in Hr as [Hx0 _].
  destruct (padded_facts mid (rev ss) x es s p Hp Hss Hx0 Hx Hs Hpad)
    as (n & ns' & Hns & Hne & Hn & Hfit & Hpart).
  assert (rev ns = n :: ns') as Hrns.
  { unfold ns. rewrite <- sub_values_rev by apply values_length. by rewrite Hv. }
  pose proof (f_equal (@rev Z) Hsv) as Hsv'. rewrite Hrns in Hsv'. unfold right_padded_result.
  rewrite (right_mandates_ok p _ n ns' (s * product (take mid es))) by (done || apply Hfit || lia). simpl.
  pose proof rank_src as Hrk. pose proof (f_equal length Hv) as Hlen. rewrite length_rev, length_fmap in Hlen.
  rewrite stride_ok by (done || fold e; lia). unfold rank in Hrk. simpl in Hlen.
  rewrite Hst, rev_lookup by (simpl; rewrite prefix_strides_length; lia).
  assert (length (1%Z :: prefix_strides s es) - S (length ss - S (S mid)) = S mid)%nat as ->.
  { simpl. rewrite prefix_strides_length. unfold rank in Hmid. lia. }
  simpl. rewrite prefix_strides_lookup by (unfold rank in Hmid; lia).
  simpl. set (S0 := s * product (take mid es)) in *.
  destruct (right_with_padding_ok p S0 (sub_extents e ss)) as [H1 H2]; [done|rewrite Hsv'; apply Hfit|].
  rewrite H1. simpl. eexists. split; [done|]. split; [done|done|]. fold e. fold ns. simpl. rewrite Hsv', Hst.
  intros Hns0. apply part_rev_inv. rewrite Hv, Hrns, rev_involutive. apply Hpart.
  apply nonempty_rev in Hns0. rewrite Hrns in Hns0. by apply Forall_cons in Hns0 as [? _].
Qed.
End source.

(** ** Static paddings *)

Lemma static_product_loop_ok ds r :
  Forall dim_ok ds -> 0 <= r < 2 ^ 64 ->
  static_product_loop r (dim_static <$> ds) = dynamic_extent \/
  static_product_loop r (dim_static <$> ds) = u64 (r * product (values ds)).
Proof.
  intros Hd. revert r. induction Hd as [|d ds [Hd1 Hd2] Hd IH]; intros r Hr; csimpl.
  { right. change (product []) with 1. by rewrite Z.mul_1_r, u64_small. }
  destruct (Z.eqb_spec (dim_static d) dynamic_extent) as [|E]; [by left|].
  destruct d as [n|n]; [|done]. simpl in *. change (product (n :: values ds)) with (n * product (values ds)).
  destruct (IH (u64 (r * n)) ltac:(apply u64_range)) as [Hx|Hx]; rewrite Hx; [by left|right].
  unfold u64. by rewrite Zmult_mod_idemp_l, Z.mul_assoc.
Qed.

(** The static padding of a result is the stride it gets, or not fixed. *)
Lemma static_extent_product_ok e a b init s :
  Forall dim_ok e -> (init = dynamic_extent \/ init = s) -> 0 <= s <= index_max ->
  s * product (take (b - a) (drop a (values e))) <= index_max ->
  static_extent_product e a b init = dynamic_extent \/
  static_extent_product e a b init = s * product (take (b - a) (drop a (values e))).
Proof.
  pose proof index_max_range. intros He Hi Hs Hm. unfold static_extent_product.
  destruct (Z.eqb_spec init dynamic_extent); [by left|]. destruct Hi as [| ->]; [done|].
  assert (values (take (b - a) (drop a e)) = take (b - a) (drop a (values e))) as Hv
    by by rewrite fmap_take, fmap_drop.
  assert (Forall dim_ok (take (b - a) (drop a e))) as Hd by by apply Forall_take, Forall_drop.
  pose proof (product_nonneg _ (values_nonneg _ Hd)) as Hn. rewrite Hv in Hn.
  destruct (static_product_loop_ok (take (b - a) (drop a e)) s Hd ltac:(lia)) as [Hx|Hx]; rewrite Hx; [by left|].
  right. rewrite Hv, u64_small by nia. done.
Qed.

Lemma static_padding_stride_of_ok p e static_ext s es :
  (2 <= rank e)%nat -> Forall (fun x => 0 <= x) es ->
  match es with n :: _ => static_ext = dynamic_extent \/ static_ext = n | _ => False end ->
  padded_ok p static_ext s es -> length es = rank e ->
  static_padding_stride_of p e static_ext = dynamic_extent \/ static_padding_stride_of p e static_ext = s.
Proof.
  pose proof index_max_range. intros Hr He Hst Hok Hlen. unfold static_padding_stride_of.
  destruct (Nat.leb_spec (rank e) 1); [lia|].
  destruct es as [|n [|n' es]]; simpl in Hlen; [lia..|]. apply Forall_cons in He as [Hn _].
  destruct Hok as (Hns & Hm & Hp).
  destruct (Z.eqb_spec p dynamic_extent); [by left|].
  destruct (Z.eqb_spec static_ext dynamic_extent); [by left|]. right. simpl.
  destruct (Hp ltac:(done)) as [Hp1 Hp2]. specialize (Hp2 ltac:(done)). destruct Hst as [|Hst]; [done|].
  rewrite Hst in *. pose proof (grown_pos (n' :: es)) as Hg. assert (s <= index_max) by nia. rewrite Hp2 in *.
  unfold size_least_multiple_at_least. destruct (Z.eqb_spec p 0) as [->|]; [done|]. simpl.
  rewrite lm_cases in * by lia. destruct (Z.eqb_spec n 0) as [->|]; [by rewrite Zmod_0_l|].
  pose proof (Z.mod_pos_bound n p ltac:(lia)). destruct (Z.eqb_spec (n mod p) 0); [done|].
  rewrite (u64_small (p - _)) by lia. by rewrite u64_small by lia.
Qed.
End results.
