(* ===== verification/SubmdspanProps.v ===== *)
(** * Submdspan: the properties

    That [submdspan_mapping] maps a part for each of the five layouts: the branch
    taken is one of those of SubmdspanLayout, and the offset is that of the first
    element; and that [submdspan] shows the elements at the positions the caller's
    slices name. *)
From S2P Require Import Prelude Extents Layouts LayoutSpec LayoutProps Slices Submdspan SubmdspanSpec SubmdspanLayout.

#[local] Open Scope Z_scope.
#[local] Set Default Proof Using "All".

Section mappings.
Context `{IndexType}.
Implicit Types (e : extents) (src m : mapping).

(** The offset of a part: of its first element, or anywhere in the span when
    there is none. *)
Definition offset_ok src ss off : Prop :=
  let ns := sub_values (values (extents_of src)) ss in
  (nonempty ns -> off = dot (firsts ss) (ref_strides src)) /\
  (~ nonempty ns -> 0 <= off <= span (values (extents_of src)) (ref_strides src)).

Definition part_of src ss (r : option (mapping * Z)) : Prop :=
  exists m off, r = Some (m, off) /\ result_ok src ss m /\ offset_ok src ss off.

Section source.
Context (src : mapping) (ss : list slice).
#[local] Abbreviation e := (extents_of src).
Hypothesis src_ok : mapping_ok src.
Hypothesis ss_ok : slices_ok e ss.

(** A result for slices that are all indices. *)
Lemma no_rank_ok m :
  kept ss = 0%nat -> extents_of m = sub_extents e ss -> mapping_ok m -> result_ok src ss m.
Proof.
  intros Hk Hm Hok. destruct (sub_ok src ss src_ok ss_ok) as [_ Hv].
  destruct (index_part ss (values e) (ref_strides src)) as [H1 H2]; [by apply kept_none|done| |].
  { by rewrite length_fmap, ref_strides_length by apply src_ok. }
  split; [done|by rewrite Hm|]. rewrite H2. intros _.
  assert (length (ref_strides m) = 0)%nat as ->%nil_length_inv; [|done].
  rewrite ref_strides_length by apply Hok. by rewrite Hm, (rank_sub src ss src_ok ss_ok).
Qed.

Lemma layout_left_ok :
  product (grown (values e)) <= index_max -> mapping_ok (LayoutLeft (sub_extents e ss)).
Proof.
  intros Hg. destruct (sub_ok src ss src_ok ss_ok) as [Hd Hv]. split; [done|]. simpl. rewrite Hv.
  etrans; [by apply grown_sub|done].
Qed.

Lemma layout_right_ok :
  product (grown (values e)) <= index_max -> mapping_ok (LayoutRight (sub_extents e ss)).
Proof. exact layout_left_ok. Qed.

Lemma left_kept_ok :
  product (grown (values e)) <= index_max -> ref_strides src = prefix_strides 1 (values e) ->
  preserved ss -> result_ok src ss (LayoutLeft (sub_extents e ss)).
Proof.
  intros Hg Hst Hp. destruct (sub_ok src ss src_ok ss_ok) as [Hd Hv].
  split; [by apply layout_left_ok|done|]. intros _. simpl. rewrite Hv, Hst. by apply preserved_part.
Qed.

Lemma right_kept_ok :
  product (grown (values e)) <= index_max -> ref_strides src = rev (prefix_strides 1 (rev (values e))) ->
  preserved (rev ss) -> result_ok src ss (LayoutRight (sub_extents e ss)).
Proof.
  intros Hg Hst Hp. destruct (sub_ok src ss src_ok ss_ok) as [Hd Hv].
  split; [by apply layout_right_ok|done|]. intros _. simpl. rewrite Hv, Hst. apply part_rev_inv.
  rewrite rev_involutive, <- sub_values_rev by by eapply values_length.
  apply preserved_part; [done|by apply slices_ok_rev].
Qed.

Hypothesis canonical : has_canonical_mapping_slices e ss = true.

(** Every branch begins with the extents and the offset of the part. *)
Lemma sub_run (k : extents -> option (mapping * Z)) :
  subextents e ss ≫= k = k (sub_extents e ss).
Proof. by rewrite subextents_ok by (done || apply src_ok). Qed.

Lemma offset_run (k : Z -> option (mapping * Z)) :
  (forall off, offset_ok src ss off -> part_of src ss (k off)) ->
  part_of src ss (sub_offset src ss ≫= k).
Proof.
  intros Hk. destruct (sub_offset_ok src ss src_ok ss_ok) as (off & -> & H1 & H2). simpl.
  by apply Hk.
Qed.

Lemma part_intro m off : offset_ok src ss off -> result_ok src ss m -> part_of src ss (Some (m, off)).
Proof. intros Ho Hm. by exists m, off. Qed.

Lemma part_strided off :
  offset_ok src ss off -> part_of src ss (strided_result src (sub_extents e ss) ss off).
Proof.
  intros Ho. destruct (strided_result_ok src ss src_ok ss_ok off) as (sts & -> & Hm). by apply part_intro.
Qed.

Lemma rank_zero m :
  rank e = 0%nat -> extents_of m = sub_extents e ss -> mapping_ok m -> part_of src ss (Some (m, 0)).
Proof.
  intros Hr Hm Hok. pose proof (rank_src src ss src_ok ss_ok) as Hrk. rewrite Hr in Hrk.
  symmetry in Hrk. pose proof (nil_length_inv _ Hrk) as Hss. apply part_intro.
  - unfold offset_ok. rewrite Hss. assert (sub_values (values e) [] = []) as -> by by destruct (values e).
    split; [done|]. intros Hn. destruct Hn. constructor.
  - apply no_rank_ok; [by rewrite Hss|done|done].
Qed.
End source.

(** The strides up to the padded one of a mapping that is not padded. *)
Lemma left_stride_bound x es mid :
  Forall (fun y => 0 <= y <= index_max) (x :: es) -> product (grown (x :: es)) <= index_max ->
  0 <= product (x :: take mid es) <= index_max.
Proof.
  intros Hr Hg. destruct (stretch_bound 1 (x :: es) 0 (S mid)) as [H0 H1]; [lia| |lia|].
  - eapply Forall_impl; [exact Hr|]. simpl. lia.
  - rewrite Z.mul_1_l in *. exact (conj H0 H1).
Qed.

Lemma grown_factor x es :
  0 <= x -> product (grown (x :: es)) <= index_max -> x * product (grown es) <= index_max.
Proof.
  change (product (grown (x :: es))) with (Z.max 1 x * product (grown es)). pose proof (grown_pos es).
  pose proof (Z.mul_le_mono_nonneg_r x (Z.max 1 x) (product (grown es))). lia.
Qed.

Lemma mapping_left_ok e ss :
  mapping_ok (LayoutLeft e) -> slices_ok e ss -> has_canonical_mapping_slices e ss = true ->
  part_of (LayoutLeft e) ss (submdspan_mapping_left e ss).
Proof.
  intros Hm Hs Hc. pose proof (rank_src (LayoutLeft e) ss Hm Hs) as Hrk.
  pose proof (proj2 Hm : product (grown (values e)) <= index_max) as Hg.
  pose proof (rank_sub (LayoutLeft e) ss Hm Hs) as Hsub.
  pose proof (layout_left_ok (LayoutLeft e) ss Hm Hs Hg) as Hleft. simpl in Hrk, Hsub, Hleft.
  unfold submdspan_mapping_left. rewrite (sub_run (LayoutLeft e) ss Hm Hs Hc). simpl.
  destruct (Nat.eqb_spec (rank e) 0); [by apply rank_zero|].
  apply offset_run; [done..|]. intros off Ho. rewrite Hsub, Hrk.
  destruct (Nat.eqb_spec (kept ss) 0).
  { apply part_intro; [done..|]. by apply no_rank_ok. }
  assert (kept ss <= length ss)%nat as Hle by apply length_filter.
  destruct (ll_preserving _ _ _) eqn:Hll.
  { apply part_intro; [done..|]. apply (left_kept_ok (LayoutLeft e)); [done..|].
    apply ll_preserving_form; [lia..|done]. }
  destruct (Nat.eqb_spec (left_padded_stride_index (kept ss) (length ss) ss) (length ss)) as [|Hi]; simpl;
    [by apply (part_strided (LayoutLeft e))|].
  apply left_padded_form in Hi as (Hk & mid & -> & Hp & Hmid).
  pose proof (values_range _ (proj1 Hm)) as Hr. simpl in Hr.
  destruct (values e) as [|x es] eqn:Hv.
  { exfalso. apply (f_equal length) in Hv. rewrite length_fmap in Hv. unfold rank in Hrk. simpl in Hv. lia. }
  pose proof (left_stride_bound x es mid Hr Hg) as Hpm. pose proof index_max_range.
  assert (0 <= x) by (apply Forall_cons in Hr as [? _]; lia). pose proof (grown_pos es).
  destruct (left_padded_result_ok (LayoutLeft e) ss Hm Hs x es x mid (static_extent_product e 0 (S mid) 1) off)
    as (m & Hrun & Hres); [done| |lia| |done|simpl; lia| |simpl in Hrun; rewrite Hrun; by apply part_intro].
  - simpl. rewrite Hv. simpl. by destruct x.
  - by apply grown_factor.
  - destruct (static_extent_product_ok e 0 (S mid) 1 1) as [|Hx1]; [apply Hm|by right|lia| |by left|].
    + rewrite Hv, Z.mul_1_l. apply Hpm.
    + right. rewrite Hx1, Hv. apply Z.mul_1_l.
Qed.

Lemma mapping_right_ok e ss :
  mapping_ok (LayoutRight e) -> slices_ok e ss -> has_canonical_mapping_slices e ss = true ->
  part_of (LayoutRight e) ss (submdspan_mapping_right e ss).
Proof.
  intros Hm Hs Hc. pose proof (rank_src (LayoutRight e) ss Hm Hs) as Hrk.
  pose proof (proj2 Hm : product (grown (values e)) <= index_max) as Hg.
  pose proof (rank_sub (LayoutRight e) ss Hm Hs) as Hsub.
  pose proof (layout_right_ok (LayoutRight e) ss Hm Hs Hg) as Hright. simpl in Hrk, Hsub, Hright.
  unfold submdspan_mapping_right. rewrite (sub_run (LayoutRight e) ss Hm Hs Hc). simpl.
  destruct (Nat.eqb_spec (rank e) 0); [by apply rank_zero|].
  apply offset_run; [done..|]. intros off Ho. rewrite Hsub, Hrk.
  destruct (Nat.eqb_spec (kept ss) 0).
  { apply part_intro; [done..|]. by apply no_rank_ok. }
  assert (kept ss <= length ss)%nat as Hle by apply length_filter.
  destruct (lr_preserving _ _ _) eqn:Hll.
  { apply part_intro; [done..|]. apply (right_kept_ok (LayoutRight e)); [done..|].
    apply lr_preserving_form; [lia..|done]. }
  destruct (Nat.eqb_spec (right_padded_stride_index (kept ss) (length ss) ss) (length ss)) as [|Hi]; simpl;
    [by apply (part_strided (LayoutRight e))|].
  apply right_padded_form in Hi as (Hk & mid & -> & Hp & Hmid).
  pose proof (Forall_rev (values_range _ (proj1 Hm))) as Hr. simpl in Hr.
  assert (length (rev (values e)) = length ss) as Hlen by by rewrite length_rev, length_fmap.
  destruct (rev (values e)) as [|x es] eqn:Hv; [simpl in Hlen; lia|].
  assert (product (grown (x :: es)) <= index_max) as Hg' by by rewrite <- Hv, grown_rev, product_rev.
  pose proof (left_stride_bound x es mid Hr Hg') as Hpm. pose proof index_max_range.
  assert (0 <= x) by (apply Forall_cons in Hr as [? _]; lia).
  assert (product (take (length ss - (length ss - S (S mid) + 1)) (drop (length ss - S (S mid) + 1) (values e)))
    = product (x :: take mid es)) as Hprod.
  { rewrite Nat.add_1_r, take_ge by (rewrite length_drop, length_fmap; unfold rank in Hrk; lia).
    rewrite outer_right, product_rev, Hv by (rewrite length_fmap; unfold rank in Hrk; lia).
    rewrite length_fmap. unfold rank in Hrk. rewrite Hrk.
    by replace (length ss - S (length ss - S (S mid)))%nat with (S mid) by lia. }
  destruct (right_padded_result_ok (LayoutRight e) ss Hm Hs x es x mid
    (static_extent_product e (length ss - S (S mid) + 1) (length ss) 1) off)
    as (m & Hrun & Hres); [done| |lia|by apply grown_factor|done|simpl; lia| |simpl in Hrun; rewrite Hrun; by apply part_intro].
  - simpl. rewrite Hv. by destruct x.
  - destruct (static_extent_product_ok e (length ss - S (S mid) + 1) (length ss) 1 1)
      as [|Hx1]; [apply Hm|by right|lia| |by left|].
    + rewrite Hprod. lia.
    + right. rewrite Hx1, Hprod. apply Z.mul_1_l.
Qed.

Lemma mapping_stride_ok e sts ss :
  mapping_ok (LayoutStride e sts) -> slices_ok e ss -> has_canonical_mapping_slices e ss = true ->
  part_of (LayoutStride e sts) ss (submdspan_mapping_stride e sts ss).
Proof.
  intros Hm Hs Hc. unfold submdspan_mapping_stride. rewrite (sub_run (LayoutStride e sts) ss Hm Hs Hc). simpl.
  destruct (Nat.eqb_spec (rank e) 0) as [Hr|].
  - apply rank_zero; try done. pose proof (rank_src (LayoutStride e sts) ss Hm Hs) as Hrk.
    assert (sub_extents e ss = []) as ->.
    { apply nil_length_inv in Hr as ->. by destruct ss. }
    split; [constructor|]. simpl. split; [done|]. split; [constructor|]. split; [constructor|].
    pose proof index_max_range. unfold span. simpl. lia.
  - apply offset_run; [done..|]. intros off Ho. by apply (part_strided (LayoutStride e sts)).
Qed.

(** Of a padded source: nothing is kept, or the dimension of stride 1 only. *)
Lemma nothing_kept src ss :
  mapping_ok src -> slices_ok (extents_of src) ss -> kept ss = 0%nat ->
  sub_extents (extents_of src) ss = [].
Proof. intros Hm Hs Hk. apply nil_length_inv. by rewrite <- Hk, <- (rank_sub src ss Hm Hs). Qed.

Lemma empty_mapping_ok : mapping_ok (LayoutLeft []) /\ mapping_ok (LayoutRight []).
Proof.
  pose proof index_max_range. split; (split; [constructor|]); simpl; unfold product; simpl; lia.
Qed.

Lemma one_kept_part ss x es sts :
  kept ss = 1%nat -> at_slice is_unit_stride_slice 0 ss = true ->
  Forall2 slice_ok (x :: es) ss -> length sts = length es ->
  exists n, sub_values (x :: es) ss = [n] /\ part ss (x :: es) (1 :: sts) [n] [1].
Proof.
  intros Hk Hu Hs Hlen. inversion Hs as [|? u ? rest Hu0 Hr]; subst. unfold at_slice in Hu. simpl in Hu.
  assert (Forall (fun s => is_index_slice s = true) rest) as Hx.
  { apply kept_none. unfold kept in *. rewrite filter_cons_True in Hk by by apply unit_not_index.
    simpl in Hk. lia. }
  destruct (index_part rest es sts Hx Hr Hlen) as [H1 H2]. exists (slice_count x u). simpl.
  rewrite (unit_not_index _ Hu), H2. split; [done|].
  apply part_keep; [done|by apply unit_not_index|done|right; by rewrite (unit_step x)|done].
Qed.

Lemma single_ok n (d : dimension) :
  dim_ok d -> values [d] = [n] -> mapping_ok (LayoutLeft [d]) /\ mapping_ok (LayoutRight [d]).
Proof.
  pose proof index_max_range. intros Hd [= E]. pose proof Hd as [Hr _].
  assert (product (grown (values [d])) <= index_max).
  { csimpl. change (product [?y]) with (y * 1). lia. }
  by split; (split; [by apply Forall_singleton|]).
Qed.

Lemma mapping_left_padded_ok p e s ss :
  mapping_ok (LayoutLeftPadded p e s) -> slices_ok e ss -> has_canonical_mapping_slices e ss = true ->
  part_of (LayoutLeftPadded p e s) ss (submdspan_mapping_left_padded p e s ss).
Proof.
  intros Hm Hs Hc. set (src := LayoutLeftPadded p e s) in Hm |- *.
  pose proof (rank_src src ss Hm Hs) as Hrk. pose proof (rank_sub src ss Hm Hs) as Hsub.
  destruct (sub_ok src ss Hm Hs) as [Hd Hv]. simpl in Hrk, Hsub, Hd, Hv.
  unfold submdspan_mapping_left_padded. rewrite (sub_run src ss Hm Hs Hc). simpl.
  destruct (Nat.eqb_spec (rank e) 0) as [Hr0|].
  { apply rank_zero; try done. simpl. apply nil_length_inv in Hr0 as ->. by destruct ss. }
  apply offset_run; [done..|]. intros off Ho. rewrite Hsub, Hrk.
  destruct (Nat.eqb_spec (kept ss) 0) as [Hk0|].
  { apply part_intro; [done..|]. apply no_rank_ok; try done.
    pose proof (nothing_kept src ss Hm Hs Hk0) as Hz. simpl in Hz. rewrite Hz. apply empty_mapping_ok. }
  destruct (values e) as [|x es] eqn:Hve.
  { exfalso. apply (f_equal length) in Hve. rewrite length_fmap in Hve. unfold rank in *. simpl in Hve. lia. }
  pose proof Hs as Hss. unfold slices_ok in Hss. rewrite Hve in Hss.
  assert (length es = length ss - 1)%nat as Hles.
  { apply (f_equal length) in Hve. rewrite length_fmap in Hve. unfold rank in *. simpl in Hve. lia. }
  destruct ((kept ss =? 1)%nat && at_slice is_unit_stride_slice 0 ss) eqn:H1.
  { apply andb_true_iff in H1 as [H1%Nat.eqb_eq H2]. apply part_intro; [done..|].
    destruct (one_kept_part ss x es (prefix_strides s es)) as (k & E & Hp); try done.
    { by rewrite prefix_strides_length. }
    destruct (sub_extents e ss) as [|d [|d' ?]] eqn:Esub; try by rewrite E in Hv.
    destruct (single_ok k d) as [Hone _]; [by apply Forall_singleton|by rewrite <- E|].
    rewrite E in Hv. split; [done|simpl; by rewrite Hve, E|].
    intros _. simpl. by rewrite Hve, E. }
  destruct (Nat.eqb_spec (left_padded_stride_index (kept ss) (length ss) ss) (length ss)) as [|Hi]; simpl;
    [by apply (part_strided src)|].
  apply left_padded_form in Hi as (Hk & mid & -> & Hp & Hmid).
  pose proof (proj2 Hm : padded_ok p (first_static_extent e) s (values e)) as Hpo.
  pose proof (values_nonneg _ (proj1 Hm)) as Hr. simpl in Hr. rewrite Hve in Hr, Hpo.
  destruct es as [|x' es]; [simpl in Hles; lia|]. pose proof Hpo as (Hxs & Hg & _).
  pose proof Hr as [Hx Hes]%Forall_cons. pose proof (stretch_bound s (x' :: es) 0 mid ltac:(lia) Hes Hg) as Hpm.
  pose proof (grown_pos (x' :: es)).
  pose proof (static_padding_stride_of_ok p e (first_static_extent e) s (x :: x' :: es) ltac:(lia) Hr
    (values_first _ _ _ Hve) Hpo ltac:(simpl in Hles |- *; lia)) as Hinit.
  pose proof (static_extent_product_ok e 1 (S mid) _ s (proj1 Hm) Hinit) as Hstat.
  rewrite Hve in Hstat. simpl (drop 1 _) in Hstat. replace (S mid - 1)%nat with mid in Hstat by lia.
  assert (s <= index_max) by nia.
  destruct (left_padded_result_ok src ss Hm Hs x (x' :: es) s mid
      (static_extent_product e 1 (S mid) (static_padding_stride_of p e (first_static_extent e))) off)
    as (m & Hrun & Hres); [done|simpl; by rewrite Hve|done|done|done|simpl; lia| |].
  { apply Hstat; [lia|]. rewrite drop_0 in Hpm. lia. }
  simpl in Hrun. fold src. rewrite Hrun. by apply part_intro.
Qed.

Lemma mapping_right_padded_ok p e s ss :
  mapping_ok (LayoutRightPadded p e s) -> slices_ok e ss -> has_canonical_mapping_slices e ss = true ->
  part_of (LayoutRightPadded p e s) ss (submdspan_mapping_right_padded p e s ss).
Proof.
  intros Hm Hs Hc. set (src := LayoutRightPadded p e s) in Hm |- *.
  pose proof (rank_src src ss Hm Hs) as Hrk. pose proof (rank_sub src ss Hm Hs) as Hsub.
  destruct (sub_ok src ss Hm Hs) as [Hd Hv]. simpl in Hrk, Hsub, Hd, Hv.
  unfold submdspan_mapping_right_padded. rewrite (sub_run src ss Hm Hs Hc). simpl.
  destruct (Nat.eqb_spec (rank e) 0) as [Hr0|].
  { apply rank_zero; try done. simpl. apply nil_length_inv in Hr0 as ->. by destruct ss. }
  apply offset_run; [done..|]. intros off Ho. rewrite Hsub, Hrk.
  destruct (Nat.eqb_spec (kept ss) 0) as [Hk0|].
  { apply part_intro; [done..|]. apply no_rank_ok; try done.
    pose proof (nothing_kept src ss Hm Hs Hk0) as Hz. simpl in Hz. rewrite Hz. apply empty_mapping_ok. }
  pose proof (slices_ok_rev _ _ Hs) as Hss.
  assert (length (rev (values e)) = length ss) as Hlen by by rewrite length_rev, length_fmap.
  destruct (rev (values e)) as [|x es] eqn:Hve; simpl in Hlen; [unfold rank in *; lia|].
  assert (sub_values (x :: es) (rev ss) = rev (sub_values (values e) ss)) as Hrev.
  { rewrite <- Hve. apply sub_values_rev. by rewrite length_fmap. }
  destruct ((kept ss =? 1)%nat && at_slice is_unit_stride_slice (length ss - 1) ss) eqn:H1.
  { apply andb_true_iff in H1 as [H1%Nat.eqb_eq H2]. apply part_intro; [done..|].
    destruct (one_kept_part (rev ss) x es (prefix_strides s es)) as (k & E & Hp); [| |done| |].
    { by rewrite kept_rev. }
    { rewrite at_slice_rev by lia. by replace (length ss - 1)%nat with (length ss - 1)%nat by lia. }
    { by rewrite prefix_strides_length. }
    assert (sub_values (values e) ss = [k]) as E'.
    { rewrite <- (rev_involutive (sub_values _ _)), <- Hrev, E. done. }
    destruct (sub_extents e ss) as [|d [|d' ?]] eqn:Esub; try by rewrite E' in Hv.
    destruct (single_ok k d) as [_ Hone]; [by apply Forall_singleton|by rewrite <- E'|].
    split; [done|done|]. intros _. simpl. rewrite E'.
    apply (part_rev_inv ss _ _ [k] [1]). by rewrite rev_involutive, Hve. }
  destruct (Nat.eqb_spec (right_padded_stride_index (kept ss) (length ss) ss) (length ss)) as [|Hi]; simpl;
    [by apply (part_strided src)|].
  apply right_padded_form in Hi as (Hk & mid & -> & Hp & Hmid).
  pose proof (proj2 Hm : padded_ok p (last_static_extent e) s (rev (values e))) as Hpo.
  pose proof (Forall_rev (values_nonneg _ (proj1 Hm))) as Hr. simpl in Hr. rewrite Hve in Hr, Hpo.
  destruct es as [|x' es]; [simpl in Hlen; lia|]. pose proof Hpo as (Hxs & Hg & _).
  pose proof Hr as [Hx Hes]%Forall_cons. pose proof (stretch_bound s (x' :: es) 0 mid ltac:(lia) Hes Hg) as Hpm.
  pose proof (grown_pos (x' :: es)).
  assert (last_static_extent e = dynamic_extent \/ last_static_extent e = x) as Hlast.
  { rewrite last_static_first. apply (values_first _ _ (x' :: es)). by rewrite values_rev. }
  pose proof (static_padding_stride_of_ok p e (last_static_extent e) s (x :: x' :: es) ltac:(lia) Hr
    Hlast Hpo ltac:(simpl in Hlen |- *; lia)) as Hinit.
  pose proof (static_extent_product_ok e (length ss - S (S mid) + 1) (length ss - 1) _ s (proj1 Hm) Hinit)
    as Hstat.
  assert (take (length ss - 1 - (length ss - S (S mid) + 1)) (drop (length ss - S (S mid) + 1) (values e))
    = rev (take mid (x' :: es))) as Hprod.
  { pose proof (inner_right (values e) (length ss - S (S mid))) as Hin. rewrite length_fmap in Hin.
    unfold rank in Hrk. rewrite Hrk in Hin. rewrite Hin by lia. rewrite Hve. simpl (drop 1 _).
    by replace (length ss - S (length ss - S (S mid)) - 1)%nat with mid by lia. }
  rewrite Hprod, product_rev in Hstat. assert (s <= index_max) by nia.
  destruct (right_padded_result_ok src ss Hm Hs x (x' :: es) s mid
      (static_extent_product e (length ss - S (S mid) + 1) (length ss - 1)
         (static_padding_stride_of p e (last_static_extent e))) off)
    as (m & Hrun & Hres); [done|simpl; by rewrite Hve|done|done|done|simpl; lia| |].
  { apply Hstat; [lia|]. rewrite drop_0 in Hpm. lia. }
  simpl in Hrun. fold src. rewrite Hrun. by apply part_intro.
Qed.

(** Every layout. *)
Lemma submdspan_mapping_ok src ss :
  mapping_ok src -> slices_ok (extents_of src) ss ->
  has_canonical_mapping_slices (extents_of src) ss = true ->
  part_of src ss (submdspan_mapping src ss).
Proof.
  intros Hm Hs Hc. unfold submdspan_mapping. rewrite Hc. simpl. destruct src.
  - by apply mapping_left_ok.
  - by apply mapping_right_ok.
  - by apply mapping_stride_ok.
  - by apply mapping_left_padded_ok.
  - by apply mapping_right_padded_ok.
Qed.

(** The part stays within the span of its source. *)
Lemma result_span src ss m off :
  mapping_ok src -> slices_ok (extents_of src) ss -> result_ok src ss m -> offset_ok src ss off ->
  0 <= off /\
  off + span (values (extents_of m)) (ref_strides m) <= span (values (extents_of src)) (ref_strides src).
Proof.
  intros Hm Hs [Hok Hv Hp] [Ho1 Ho2]. rewrite Hv. set (ns := sub_values (values (extents_of src)) ss) in *.
  destruct (existsb (Z.eqb 0) ns) eqn:E.
  - assert (span ns (ref_strides m) = 0) as -> by (unfold span; by rewrite E).
    assert (~ nonempty ns) as Hn.
    { intros Hn. apply nonempty_existsb in Hn; [congruence|]. rewrite <- Hv. by apply values_nonneg, Hok. }
    specialize (Ho2 Hn). lia.
  - apply nonempty_existsb in E; [|rewrite <- Hv; by apply values_nonneg, Hok].
    specialize (Ho1 E). specialize (Hp E).
    assert (nonempty (values (extents_of src))) as Hn by by eapply sub_nonempty.
    destruct (ref_strides_ok src Hm Hn) as [H0 _].
    pose proof (part_span _ _ _ _ _ Hp Hn E H0). split; [|lia].
    subst off. apply dot_nonneg; [|done]. eapply firsts_nonneg; [by apply values_nonneg, Hm|done].
Qed.
End mappings.

(** ** Submdspan: the properties

    That the mapping of a part is well formed, stays within the span of its
    source, and addresses the elements the slices select, for every layout of
    the source; and that [submdspan] shows the elements at the positions the
    caller's slices name. *)

Section mappings.
Context `{IndexType}.
Implicit Types (src m : mapping).

(** The mapping of a part. *)
Lemma submdspan_mapping_part src ss :
  mapping_ok src -> slices_ok (extents_of src) ss ->
  has_canonical_mapping_slices (extents_of src) ss = true ->
  exists m off, submdspan_mapping src ss = Some (m, off) /\ mapping_ok m /\
    values (extents_of m) = sub_values (values (extents_of src)) ss /\
    (exists n n', required_span_size src = Some n /\ required_span_size m = Some n' /\
       0 <= off /\ off + n' <= n) /\
    forall js, in_range js (values (extents_of m)) ->
      in_range (source_index ss js) (values (extents_of src)) /\
      exists k, call m js = Some k /\ call src (source_index ss js) = Some (off + k).
Proof.
  intros Hm Hs Hc. destruct (submdspan_mapping_ok src ss Hm Hs Hc) as (m & off & -> & Hres & Hoff).
  exists m, off. split; [done|]. destruct (result_span _ _ _ _ Hm Hs Hres Hoff) as [H0 H1].
  destruct Hres as [Hok Hv Hpart]. split; [done|]. split; [done|]. split.
  { eexists _, _. split; [by apply required_span_size_ok|]. split; [by apply required_span_size_ok|done]. }
  intros js Hjs. rewrite Hv in Hjs. pose proof (in_range_nonempty _ _ Hjs) as Hn.
  destruct (part_dot _ _ _ _ _ js (Hpart Hn) (values_nonneg _ (proj1 Hm)) Hjs) as [H2 H3].
  split; [done|]. eexists. split; [apply call_ok; [done|by rewrite Hv]|].
  rewrite call_ok by done. f_equal. rewrite (proj1 Hoff Hn). lia.
Qed.
End mappings.

Section views.
Context `{IndexType} {Handle SubHandle Element : Type} `{AccessorLaws Handle SubHandle Element}.
Implicit Types (src : mdspan Handle).

(** The view of a part. *)
Lemma submdspan_part src ss :
  mapping_ok (mapping_of src) -> Forall2 raw_ok (values (extents_of (mapping_of src))) ss ->
  exists sub, submdspan src ss = Some sub /\ mapping_ok (mapping_of sub) /\
    values (extents_of (mapping_of sub)) = counts (values (extents_of (mapping_of src))) ss /\
    forall js, in_range js (values (extents_of (mapping_of sub))) ->
      exists l x, pick (values (extents_of (mapping_of src))) ss js = Some l /\
        in_range l (values (extents_of (mapping_of src))) /\
        element_at src l = Some x /\ sub_element_at sub js = Some x.
Proof.
  intros Hm Hs. set (es := values (extents_of (mapping_of src))) in *.
  destruct (canonical_slices_ok _ ss (proj1 Hm) Hs) as (cs & Hcan & Hc & Hcs & Hfor & Hlen).
  destruct (submdspan_mapping_ok _ _ Hm Hcs Hc) as (m & off & Hrun & Hres & Hoff).
  destruct (result_span _ _ _ _ Hm Hcs Hres Hoff) as [Hoff0 _]. destruct Hres as [Hok Hv Hpart].
  exists (Mdspan (offset_handle (data_handle src) off) m). unfold submdspan. rewrite Hcan. simpl. rewrite Hrun. simpl.
  split; [done|]. split; [done|]. pose proof (values_nonneg _ (proj1 Hm)) as Hnn. fold es in Hnn.
  split. { rewrite Hv. symmetry. by apply (pick_ok es ss cs []). }
  intros js Hjs. rewrite Hv in Hjs. pose proof (in_range_nonempty _ _ Hjs) as Hn.
  destruct (part_dot _ _ _ _ _ js (Hpart Hn) Hnn Hjs) as [Hin Hdot].
  exists (source_index cs js), (access (data_handle src) (dot (source_index cs js) (ref_strides (mapping_of src)))).
  split; [by apply (pick_ok es ss cs js)|]. split; [done|].
  unfold element_at, sub_element_at. rewrite call_ok by done. split; [done|]. simpl.
  rewrite call_ok by (done || by rewrite Hv). simpl.
  destruct (ref_strides_ok m Hok) as [Hms _]; [by rewrite Hv|].
  rewrite offset_access; [|done|].
  - do 2 f_equal. rewrite (proj1 Hoff Hn). lia.
  - apply dot_nonneg; [|done]. clear -Hjs. induction Hjs; constructor; [lia|done].
Qed.

(** C25: [submdspan] shows the elements that were asked for. For a well-formed
    source of any of the five layouts and valid slices of any kind (indices, full
    extents, extents with an offset and a step, ranges with or without a step,
    constant or not), it makes a view with as many elements in each dimension that
    is kept as its slice names positions, and the element of the view at a
    multi-index is the element of the source at the positions with these numbers.
    For canonical slices, [submdspan_mapping] makes a well-formed mapping of the
    extents that the slices leave; the offset plus the span of the part stay within
    the span of the source; and every multi-index of the part has, from the offset
    on, the offset that the source gives to the multi-index the slices select.  No
    computation overflows, and when the result has a padded layout, its class
    admits it. *)
Theorem submdspan_correct :
  (forall (src : mdspan Handle) ss, mapping_ok (mapping_of src) -> Forall2 raw_ok (values (extents_of (mapping_of src))) ss ->
    exists sub, submdspan src ss = Some sub /\ mapping_ok (mapping_of sub) /\
      values (extents_of (mapping_of sub)) = counts (values (extents_of (mapping_of src))) ss /\
      forall js, in_range js (values (extents_of (mapping_of sub))) ->
        exists l x, pick (values (extents_of (mapping_of src))) ss js = Some l /\
          in_range l (values (extents_of (mapping_of src))) /\
          element_at src l = Some x /\ sub_element_at sub js = Some x) /\
  (forall (src : mapping) ss, mapping_ok src -> slices_ok (extents_of src) ss ->
    has_canonical_mapping_slices (extents_of src) ss = true ->
    exists m off, submdspan_mapping src ss = Some (m, off) /\ mapping_ok m /\
      values (extents_of m) = sub_values (values (extents_of src)) ss /\
      (exists n n', required_span_size src = Some n /\ required_span_size m = Some n' /\
         0 <= off /\ off + n' <= n) /\
      forall js, in_range js (values (extents_of m)) ->
        in_range (source_index ss js) (values (extents_of src)) /\
        exists k, call m js = Some k /\ call src (source_index ss js) = Some (off + k)).
Proof. split; [apply submdspan_part|intros m ss; apply submdspan_mapping_part]. Qed.
End views.

(** ** Instances *)

(** Slices of the extents [3, 5, 7]: the second row, its columns 0 and 2 ... *)
Definition demo_slices : list slice :=
  [IndexSlice (Var 1); ExtentSlice (Const 0) (Const 2) (Const 3); FullExtent].
(** ... and raw ones: the first and the last row, column 4, and a pair. *)
Definition demo_raw_slices : list slice :=
  [RangeSlice (Var 0) (Var 3) (Const 2); IndexSlice (Var 4); PairSlice (Var 2) (Var 6)].

(** Handles and elements that are addresses. *)
#[export] Instance address_accessor : Accessor Z Z Z :=
  {| access p i := p + i; offset_handle p i := p + i; sub_access p i := p + i |}.
#[export] Instance address_accessor_laws : AccessorLaws Z Z Z.
Proof. intros p i j _ _. simpl. lia. Qed.

Lemma demo_slices_ok : slices_ok demo_extents demo_slices.
Proof. repeat (apply Forall2_cons; split); [..|by apply Forall2_nil]; vm_compute; repeat split; congruence. Qed.

Lemma submdspan_correct_witness :
  exists sub, submdspan (Mdspan 1000 demo_right) demo_raw_slices = Some sub /\
    values (extents_of (mapping_of sub)) = [2; 4] /\
    exists l x, pick [3; 5; 7] demo_raw_slices [1; 3] = Some l /\ l = [2; 4; 5] /\
      sub_element_at sub [1; 3] = Some x /\ x = 1117 /\
  exists m off, submdspan_mapping demo_left demo_slices = Some (m, off) /\ off = 1 /\
    values (extents_of m) = [2; 7] /\ exists k, call m [1; 6] = Some k /\ 1 + k = 133.
Proof.
  assert (Forall2 raw_ok (values demo_extents) demo_raw_slices) as Hs.
  { repeat (apply Forall2_cons; split); [..|by apply Forall2_nil]; vm_compute; repeat split; congruence. }
  destruct (proj1 submdspan_correct (Mdspan 1000 demo_right) demo_raw_slices demo_right_ok Hs)
    as (sub & Hrun & _ & Hv & Hel).
  exists sub. split; [exact Hrun|]. split; [by rewrite Hv|].
  destruct (Hel [1; 3]) as (l & x & Hl & _ & Hsrc & Hsub).
  { rewrite Hv. vm_compute. repeat (apply Forall2_cons; split); [..|by apply Forall2_nil]; done. }
  vm_compute in Hl. injection Hl as <-. exists [2; 4; 5], x. split; [done|]. split; [done|].
  split; [exact Hsub|]. split; [vm_compute in Hsrc; by injection Hsrc|].
  destruct (proj2 submdspan_correct demo_left demo_slices demo_left_ok demo_slices_ok eq_refl)
    as (m & off & Hmap & _ & Hvm & _ & Hcall).
  exists m, off. split; [exact Hmap|].
  assert (off = 1) as -> by (vm_compute in Hmap; by inversion Hmap). split; [done|].
  split; [by rewrite Hvm|]. destruct (Hcall [1; 6]) as (_ & k & Hk & Hsrc').
  { rewrite Hvm. vm_compute. repeat (apply Forall2_cons; split); [..|by apply Forall2_nil]; done. }
  exists k. split; [exact Hk|]. vm_compute in Hsrc'. injection Hsrc'. done.
Defined.
