(* ===== verification/LinalgViews.v ===== *)
(** * linalg: views of vectors and matrices

    Models what the algorithms of backport/cpp26/linalg work on: elements of
    some type with its arithmetic ([Scalar]), memory that holds them, and views
    of it, each a handle, a layout and an accessor.  The layouts are those of
    Layouts, the packed one of triangular matrices (tags_layout.hpp), the
    transposed one (accessor.hpp) and any other that a program brings along; the
    accessors are the default one and the two of accessor.hpp, and the view
    functions of that file are at the end.  All views of a call have elements of
    one type and one index type. *)
From S2P Require Import Prelude Extents Layouts.

#[local] Open Scope Z_scope.

(** ** Elements *)

(** The arithmetic of an element type: [has_conj] says whether it is not
    arithmetic and has a [conj] (then it has a [real], too). *)
Class Scalar (E : Type) := {
  zero : E;
  one : E;
  add_ : E -> E -> E;
  sub_ : E -> E -> E;
  mul_ : E -> E -> E;
  div_ : E -> E -> E;
  neg_ : E -> E;
  has_conj : bool;
  conj : E -> E;
  real : E -> E;
}.

Declare Scope scalar_scope.
Delimit Scope scalar_scope with E.
Infix "+" := add_ : scalar_scope.
Infix "-" := sub_ : scalar_scope.
Infix "*" := mul_ : scalar_scope.
Infix "/" := div_ : scalar_scope.
Notation "- x" := (neg_ x) : scalar_scope.

Definition conj_if_needed `{Scalar E} (value : E) : E := if has_conj then conj value else value.
Definition real_if_needed `{Scalar E} (value : E) : E := if has_conj then real value else value.

(** ** Loops *)

Section loops.
Context {S A X : Type}.

(** [for (i : l) a = f(i, a)]. *)
Fixpoint accumulate (l : list X) (f : X -> A -> prog S A) (a : A) : prog S A :=
  match l with
  | [] => give a
  | i :: l' => after (f i a) (accumulate l' f)
  end.
End loops.

Definition loop {S X} (l : list X) (body : X -> prog S unit) : prog S unit :=
  accumulate l (fun i _ => body i) tt.

(** [for (i = lo; i < hi; ++i)] and [for (i = hi; i-- > lo; )]. *)
Definition up (lo hi : Z) : list Z := seqZ lo (hi - lo).
Definition down (hi lo : Z) : list Z := rev (up lo hi).

(** ** Layouts *)

(** [Custom] is a layout of the program's own, with its [operator()]. *)
Inductive layout :=
  | Plain (m : mapping)
  | BlasPacked (upper column_major : bool) (e : extents)
  | Transposed (nested : layout)
  | Custom (e : extents) (offset_of : list Z -> option Z).

Fixpoint layout_extents (l : layout) : extents :=
  match l with
  | Plain m => extents_of m
  | BlasPacked _ _ e | Custom e _ => e
  | Transposed n => rev (layout_extents n)
  end.

Section layouts.
Context `{IndexType}.

(** [layout_blas_packed::mapping]: its [operator()] and its span. *)
Definition packed_call (upper column_major : bool) (e : extents) (i j : Z) : option Z :=
  let '(i, j) :=
    if upper then (if j <? i then (j, i) else (i, j))
    else (if i <? j then (j, i) else (i, j)) in
  if column_major then
    if upper then
      s ← arith (j + 1); p ← arith (j * s); q ← arith (Z.quot p 2 + i); Some (cast q)
    else
      n ← extent e 0;
      a ← arith (n * j); b ← arith (i + a);
      s ← arith (j + 1); p ← arith (j * s); q ← arith (b - Z.quot p 2); Some (cast q)
  else
    if upper then
      n ← extent e 0;
      a ← arith (i * n); s ← arith (i - 1); p ← arith (i * s);
      b ← arith (a - Z.quot p 2); c ← arith (b + j); d ← arith (c - i); Some (cast d)
    else
      s ← arith (i + 1); p ← arith (i * s); q ← arith (Z.quot p 2 + j); Some (cast q).

Definition packed_span (e : extents) : option Z :=
  n ← extent e 0; s ← arith (n + 1); p ← arith (n * s); Some (cast (Z.quot p 2)).

(** The class mandate on static extents. *)
Definition packed_static_product_representable (e : extents) : bool :=
  if negb (length e =? 2)%nat then false
  else if (0 <? rank_dynamic e)%nat then true
  else
    match e with
    | d :: _ => let n := dim_static d in
        negb (n =? 2 ^ 64 - 1) && (n <=? index_max / (n + 1))
    | [] => false
    end.

Fixpoint layout_call (l : layout) (js : list Z) : option Z :=
  match l with
  | Plain m => call m js
  | BlasPacked u c e =>
      match js with [i; j] => packed_call u c e (cast i) (cast j) | _ => None end
  | Transposed n => match js with [i; j] => layout_call n [j; i] | _ => None end
  | Custom _ offset_of => offset_of js
  end.
End layouts.

(** ** Views *)

(** The elements behind addresses. *)
Abbreviation memory E := (gmap Z E).

Section views.
Context `{IndexType} {E : Type} `{Scalar E}.

Inductive accessor :=
  | DefaultAccessor
  | ScaledAccessor (scaling_factor : E) (nested : accessor)
  | ConjugatedAccessor (nested : accessor).

(** [access(p, i)] of an accessor. *)
Fixpoint access (a : accessor) (p i : Z) (mem : memory E) : option E :=
  match a with
  | DefaultAccessor => mem !! (p + i)
  | ScaledAccessor s nested => e ← access nested p i mem; Some (s * e)%E
  | ConjugatedAccessor nested => e ← access nested p i mem; Some (conj_if_needed e)
  end.

Record view := View { view_handle : Z; view_layout : layout; view_accessor : accessor }.
Implicit Types v : view.

Definition view_extents v : extents := layout_extents (view_layout v).
Definition view_rank v : nat := length (view_extents v).

(** The address behind an index, and [v[js]] as a value and as a program. *)
Definition address v (js : list Z) : option Z :=
  i ← layout_call (view_layout v) js; Some (view_handle v + i).
Definition element v (js : list Z) (mem : memory E) : option E :=
  i ← layout_call (view_layout v) js; access (view_accessor v) (view_handle v) i mem.
Definition get v (js : list Z) : prog (memory E) E := fun mem =>
  match element v js mem with Some e => Some (e, mem) | None => None end.

(** [v[js] = e]: only the default accessor gives references. *)
Definition set v (js : list Z) (e : E) : prog (memory E) unit := fun mem =>
  match view_accessor v, address v js with
  | DefaultAccessor, Some a =>
      match mem !! a with Some _ => Some (tt, <[a := e]> mem) | None => None end
  | _, _ => None
  end.

Definition size v (r : nat) : prog (memory E) Z := defined (extent (view_extents v) r).

(** ** [scaled], [conjugated], [transposed] *)

Definition scaled (alpha : E) v : view :=
  View (view_handle v) (view_layout v) (ScaledAccessor alpha (view_accessor v)).

Definition conjugated v : view :=
  match view_accessor v with
  | ConjugatedAccessor nested => View (view_handle v) (view_layout v) nested
  | a => if negb has_conj then v else View (view_handle v) (view_layout v) (ConjugatedAccessor a)
  end.

Definition transposed_layout (l : layout) : option layout :=
  match l with
  | Plain (LayoutLeft e) => Some (Plain (LayoutRight (rev e)))
  | Plain (LayoutRight e) => Some (Plain (LayoutLeft (rev e)))
  | Plain (LayoutLeftPadded p e s) =>
      st ← stride (LayoutLeftPadded p e s) 1; Plain <$> right_padded_with_padding p (rev e) st
  | Plain (LayoutRightPadded p e s) =>
      st ← stride (LayoutRightPadded p e s) 0; Plain <$> left_padded_with_padding p (rev e) st
  | Plain (LayoutStride e ss) =>
      s1 ← ss !! 1%nat; s0 ← ss !! 0%nat; Some (Plain (LayoutStride (rev e) [s1; s0]))
  | BlasPacked u c e => Some (BlasPacked (negb u) (negb c) (rev e))
  | Transposed nested => Some nested
  | Custom _ _ => Some (Transposed l)
  end.

Definition transposed v : option view :=
  if negb (view_rank v =? 2)%nat then None else
  l ← transposed_layout (view_layout v);
  Some (View (view_handle v) l (view_accessor v)).

Definition conjugate_transposed v : option view := conjugated <$> transposed v.
End views.
Arguments view : clear implicits.
Arguments accessor : clear implicits.
