(* ===== verification/LinalgLevel1.v ===== *)
(** * linalg: BLAS 1

    Models backport/cpp26/linalg/level1.hpp: the loops over vectors and
    matrices, with their vectorised versions next to the plain ones, and the
    sums of magnitudes of integers with the saturating arithmetic of detail.hpp.
    Norms and rotations that take square roots are left out. *)
From S2P Require Import Prelude Extents Layouts LinalgViews.

#[local] Open Scope Z_scope.
#[local] Open Scope prog_scope.

Section level1.
Context `{IndexType} {E : Type} `{Scalar E}.
Implicit Types (x y z from to A : view E) (alpha c s : E).

(** The loops over one index or two of the functions for vectors and matrices. *)
Definition each_index x (body : list Z -> prog (memory E) unit) : prog (memory E) unit :=
  if (view_rank x =? 1)%nat then
    n ← size x 0; loop (up 0 n) (fun i => body [i])
  else
    n ← size x 0;
    loop (up 0 n) (fun i => m ← size x 1; loop (up 0 m) (fun j => body [i; j])).

Definition copy from to : prog (memory E) unit :=
  each_index from (fun js => e ← get from js; set to js e).

Definition scale alpha x : prog (memory E) unit :=
  each_index x (fun js => e ← get x js; set x js (alpha * e)%E).

Definition swap_elements x y : prog (memory E) unit :=
  each_index x (fun js => a ← get x js; b ← get y js; set x js b;; set y js a).

Definition add x y z : prog (memory E) unit :=
  each_index x (fun js => a ← get x js; b ← get y js; set z js (a + b)%E).

Definition dot x y (init : E) : prog (memory E) E :=
  n ← size x 0;
  accumulate (up 0 n) (fun i sum => a ← get x [i]; b ← get y [i]; give (sum + a * b)%E) init.

Definition dotc x y (init : E) : prog (memory E) E :=
  n ← size x 0;
  accumulate (up 0 n) (fun i sum =>
    a ← get x [i]; b ← get y [i]; give (sum + conj_if_needed a * b)%E) init.

(** For real and for complex elements. *)
Definition apply_givens_rotation x y c s : prog (memory E) unit :=
  n ← size x 0;
  loop (up 0 n) (fun i =>
    xi ← get x [i]; yi ← get y [i];
    set x [i] (c * xi + s * yi)%E;;
    set y [i] (- s * xi + c * yi)%E).
Definition apply_givens_rotation_complex x y c s : prog (memory E) unit :=
  n ← size x 0;
  loop (up 0 n) (fun i =>
    xi ← get x [i]; yi ← get y [i];
    set x [i] (c * xi + s * yi)%E;;
    set y [i] (- conj s * xi + c * yi)%E).

(** [vector_idx_abs_max], with the magnitude of an element in an ordered type. *)
Definition vector_idx_abs_max {R : Type} (abs_sum_term : E -> R) (gt : R -> R -> bool) x
    : prog (memory E) Z :=
  n ← size x 0;
  if n =? 0 then give (2 ^ index_bits - 1)%Z else
  e ← get x [0];
  best ← accumulate (up 1 n) (fun i (best : Z * R) =>
    e ← get x [i];
    let v := abs_sum_term e in
    give (if gt v best.2 then (i, v) else best)) (0, abs_sum_term e);
  give best.1.
End level1.

(** ** Sums of the magnitudes of integers

    [T] is the type of the sum, [V] that of the elements: both are integer
    types with their widths; [uintmax_t] has 64 bits. *)
Section integral_sums.
Context `{IndexType} `{Scalar Z} (T V : IndexType).
Implicit Types (x A : view Z) (init total magnitude value : Z).

(** The magnitude of an integer, in the unsigned counterpart of its type. *)
Definition abs_if_needed value : Z :=
  if negb (@index_signed V) then value
  else
    let widened := value mod 2 ^ (@index_bits V) in
    if value <? 0 then (0 - widened) mod 2 ^ (@index_bits V) else widened.

Definition saturating_accumulate_magnitude total magnitude : Z :=
  let term := u64 magnitude in
  let maximum := 2 ^ 64 - 1 in
  if u64 (maximum - total) <? term then maximum else u64 (total + term).

Definition saturating_add_magnitude init magnitude : option Z :=
  if magnitude =? 0 then Some init
  else
    let top := @index_max T in
    if negb (@index_signed T) || (0 <=? init) then
      (room ← @arith T (top - init);
       if u64 room <? magnitude then Some top
       else sum ← @arith T (init + @cast T magnitude); Some (@cast T sum))%stdpp
    else
      let distance := (0 - init mod 2 ^ (@index_bits T)) mod 2 ^ (@index_bits T) in
      if magnitude <? distance then
        (d ← @arith T (- @cast T (u64 (distance - magnitude))); Some (@cast T d))%stdpp
      else
        let magnitude := u64 (magnitude - distance) in
        if u64 top <? magnitude then Some top else Some (@cast T magnitude).

Definition vector_abs_sum x init : prog (memory Z) Z :=
  n ← size x 0;
  magnitude ← accumulate (up 0 n) (fun i magnitude =>
    e ← get x [i]; give (saturating_accumulate_magnitude magnitude (abs_if_needed e))) 0;
  defined (saturating_add_magnitude init magnitude).

Definition matrix_one_norm A init : prog (memory Z) Z :=
  n ← size A 1;
  if n =? 0 then give init else
  max_col_sum ← accumulate (up 0 n) (fun j max_col_sum =>
    m ← size A 0;
    col_sum ← accumulate (up 0 m) (fun i col_sum =>
      e ← get A [i; j]; give (saturating_accumulate_magnitude col_sum (abs_if_needed e))) 0;
    give (if max_col_sum <? col_sum then col_sum else max_col_sum)) 0;
  defined (saturating_add_magnitude init max_col_sum).

Definition matrix_inf_norm A init : prog (memory Z) Z :=
  m ← size A 0;
  if m =? 0 then give init else
  max_row_sum ← accumulate (up 0 m) (fun i max_row_sum =>
    n ← size A 1;
    row_sum ← accumulate (up 0 n) (fun j row_sum =>
      e ← get A [i; j]; give (saturating_accumulate_magnitude row_sum (abs_if_needed e))) 0;
    give (if max_row_sum <? row_sum then row_sum else max_row_sum)) 0;
  defined (saturating_add_magnitude init max_row_sum).
End integral_sums.
