(* ===== verification/LinalgLevel2.v ===== *)
(** * linalg: BLAS 2

    Models backport/cpp26/linalg/level2.hpp: products of matrices and vectors,
    the solution of triangular systems, and updates of low rank.  The two
    branches of an [if constexpr] on the triangle are one definition where they
    differ in the range of a loop only ([triangle_range]). *)
From S2P Require Import Prelude Extents Layouts LinalgViews.

#[local] Open Scope Z_scope.
#[local] Open Scope prog_scope.

(** The columns of row [i] that the triangle has: [i..n-1] or [0..i]. *)
Definition triangle_range (is_upper : bool) (i n : Z) : list Z :=
  if is_upper then up i n else up 0 (i + 1).

Section level2.
Context `{IndexType} {E : Type} `{Scalar E}.
Implicit Types (A Em : view E) (x y z : view E) (alpha : E) (is_upper is_unit : bool).

(** ** General matrices *)

Definition matrix_vector_product A x y : prog (memory E) unit :=
  m ← size A 0;
  loop (up 0 m) (fun i =>
    n ← size A 1;
    sum ← accumulate (up 0 n) (fun j sum =>
      a ← get A [i; j]; b ← get x [j]; give (sum + a * b)%E) zero;
    set y [i] sum).

Definition matrix_vector_product_update A x y z : prog (memory E) unit :=
  m ← size A 0;
  loop (up 0 m) (fun i =>
    n ← size A 1;
    sum ← accumulate (up 0 n) (fun j sum =>
      a ← get A [i; j]; b ← get x [j]; give (sum + a * b)%E) zero;
    e ← get y [i];
    set z [i] (e + sum)%E).

(** ** Triangular matrices *)

(** The sum of one row. *)
Definition triangular_row is_upper is_unit A x (n i : Z) : prog (memory E) E :=
  accumulate (triangle_range is_upper i n) (fun j sum =>
    if is_unit && (j =? i) then b ← get x [j]; give (sum + b)%E
    else a ← get A [i; j]; b ← get x [j]; give (sum + a * b)%E) zero.

Definition triangular_matrix_vector_product is_upper is_unit A x : prog (memory E) unit :=
  n ← size A 0;
  let compute_row i := sum ← triangular_row is_upper is_unit A x n i; set x [i] sum in
  if is_upper then loop (up 0 n) compute_row else loop (down n 0) compute_row.

Definition triangular_matrix_vector_product_to is_upper is_unit A x y : prog (memory E) unit :=
  n ← size A 0;
  loop (up 0 n) (fun i => sum ← triangular_row is_upper is_unit A x n i; set y [i] sum).

Definition triangular_matrix_vector_solve is_upper is_unit A x : prog (memory E) unit :=
  n ← size A 0;
  let solve_row i :=
    loop (if is_upper then up (i + 1) n else up 0 i) (fun j =>
      a ← get A [i; j]; b ← get x [j]; e ← get x [i]; set x [i] (e - a * b)%E);;
    if negb is_unit then a ← get A [i; i]; e ← get x [i]; set x [i] (e / a)%E else give tt in
  if is_upper then loop (down n 0) solve_row else loop (up 0 n) solve_row.

(** ** Symmetric and hermitian matrices *)

Definition symmetric_matrix_vector_product is_upper A x y : prog (memory E) unit :=
  n ← size A 0;
  loop (up 0 n) (fun i => set y [i] zero);;
  loop (up 0 n) (fun i =>
    a ← get A [i; i]; b ← get x [i]; e ← get y [i]; set y [i] (e + a * b)%E;;
    loop (up (i + 1) n) (fun j =>
      aij ← (if is_upper then get A [i; j] else get A [j; i]);
      b ← get x [j]; e ← get y [i]; set y [i] (e + aij * b)%E;;
      b ← get x [i]; e ← get y [j]; set y [j] (e + aij * b)%E)).

Definition symmetric_matrix_vector_product_update is_upper A x y z : prog (memory E) unit :=
  n ← size A 0;
  loop (up 0 n) (fun i =>
    sum ← accumulate (up 0 n) (fun j sum =>
      a ← (if i =? j then get A [i; i]
           else if is_upper then (if i <? j then get A [i; j] else get A [j; i])
           else (if i <? j then get A [j; i] else get A [i; j]));
      b ← get x [j];
      give (sum + a * b)%E) zero;
    e ← get y [i];
    set z [i] (e + sum)%E).

Definition hermitian_matrix_vector_product is_upper A x y : prog (memory E) unit :=
  n ← size A 0;
  loop (up 0 n) (fun i => set y [i] zero);;
  loop (up 0 n) (fun i =>
    a ← get A [i; i]; b ← get x [i]; e ← get y [i]; set y [i] (e + real_if_needed a * b)%E;;
    loop (up (i + 1) n) (fun j =>
      if is_upper then
        a ← get A [i; j]; b ← get x [j]; e ← get y [i]; set y [i] (e + a * b)%E;;
        a ← get A [i; j]; b ← get x [i]; e ← get y [j]; set y [j] (e + conj_if_needed a * b)%E
      else
        a ← get A [j; i]; b ← get x [j]; e ← get y [i]; set y [i] (e + conj_if_needed a * b)%E;;
        a ← get A [j; i]; b ← get x [i]; e ← get y [j]; set y [j] (e + a * b)%E)).

Definition hermitian_matrix_vector_product_update is_upper A x y z : prog (memory E) unit :=
  n ← size A 0;
  loop (up 0 n) (fun i =>
    sum ← accumulate (up 0 n) (fun j sum =>
      a ← (if i =? j then a ← get A [i; i]; give (real_if_needed a)
           else if is_upper then
             if i <? j then get A [i; j] else a ← get A [j; i]; give (conj_if_needed a)
           else
             if i <? j then a ← get A [j; i]; give (conj_if_needed a) else get A [i; j]);
      b ← get x [j];
      give (sum + a * b)%E) zero;
    e ← get y [i];
    set z [i] (e + sum)%E).

(** ** Updates of rank 1 and 2 *)

(** The nested loops that assign every element of [A]. *)
Definition fill_matrix A (value : Z -> Z -> prog (memory E) E) : prog (memory E) unit :=
  m ← size A 0;
  loop (up 0 m) (fun i =>
    n ← size A 1;
    loop (up 0 n) (fun j => e ← value i j; set A [i; j] e)).

(** The nested loops that assign the elements of a triangle of [A]. *)
Definition fill_triangle is_upper A (value : Z -> Z -> prog (memory E) E) : prog (memory E) unit :=
  n ← size A 0;
  loop (up 0 n) (fun i =>
    loop (triangle_range is_upper i n) (fun j => e ← value i j; set A [i; j] e)).

(** A hermitian matrix has a real diagonal. *)
Definition real_diagonal (i j : Z) (value : E) : E :=
  if i =? j then real_if_needed value else value.

Definition matrix_rank_1_update x y A : prog (memory E) unit :=
  fill_matrix A (fun i j => a ← get x [i]; b ← get y [j]; give (a * b)%E).
Definition matrix_rank_1_update_from x y Em A : prog (memory E) unit :=
  fill_matrix A (fun i j =>
    e ← get Em [i; j]; a ← get x [i]; b ← get y [j]; give (e + a * b)%E).
Definition matrix_rank_1_update_c x y A : prog (memory E) unit :=
  fill_matrix A (fun i j => a ← get x [i]; b ← get y [j]; give (a * conj_if_needed b)%E).
Definition matrix_rank_1_update_c_from x y Em A : prog (memory E) unit :=
  fill_matrix A (fun i j =>
    e ← get Em [i; j]; a ← get x [i]; b ← get y [j]; give (e + a * conj_if_needed b)%E).

Definition symmetric_matrix_rank_1_update alpha x A is_upper : prog (memory E) unit :=
  fill_triangle is_upper A (fun i j =>
    a ← get x [i]; b ← get x [j]; give (alpha * a * b)%E).
Definition symmetric_matrix_rank_1_update_from alpha x Em A is_upper : prog (memory E) unit :=
  fill_triangle is_upper A (fun i j =>
    e ← get Em [i; j]; a ← get x [i]; b ← get x [j]; give (e + alpha * a * b)%E).
Definition symmetric_matrix_rank_2_update x y A is_upper : prog (memory E) unit :=
  fill_triangle is_upper A (fun i j =>
    a ← get x [i]; b ← get y [j]; c ← get y [i]; d ← get x [j]; give (a * b + c * d)%E).
Definition symmetric_matrix_rank_2_update_from x y Em A is_upper : prog (memory E) unit :=
  fill_triangle is_upper A (fun i j =>
    e ← get Em [i; j];
    a ← get x [i]; b ← get y [j]; c ← get y [i]; d ← get x [j]; give (e + a * b + c * d)%E).
Definition symmetric_matrix_rank_2_update_scaled alpha is_upper x y A : prog (memory E) unit :=
  fill_triangle is_upper A (fun i j =>
    a ← get x [i]; b ← get y [j]; c ← get y [i]; d ← get x [j];
    give (alpha * (a * b + c * d))%E).

Definition hermitian_matrix_rank_1_update alpha x A is_upper : prog (memory E) unit :=
  let scaling := real_if_needed alpha in
  fill_triangle is_upper A (fun i j =>
    a ← get x [i]; b ← get x [j];
    give (real_diagonal i j (scaling * a * conj_if_needed b)%E)).
Definition hermitian_matrix_rank_1_update_from alpha x Em A is_upper : prog (memory E) unit :=
  let scaling := real_if_needed alpha in
  fill_triangle is_upper A (fun i j =>
    e ← get Em [i; j]; a ← get x [i]; b ← get x [j];
    give (real_diagonal i j (e + scaling * a * conj_if_needed b)%E)).
Definition hermitian_matrix_rank_1_update_one is_upper x A : prog (memory E) unit :=
  hermitian_matrix_rank_1_update one x A is_upper.
Definition hermitian_matrix_rank_2_update x y A is_upper : prog (memory E) unit :=
  fill_triangle is_upper A (fun i j =>
    a ← get x [i]; b ← get y [j]; c ← get y [i]; d ← get x [j];
    give (real_diagonal i j (a * conj_if_needed b + c * conj_if_needed d)%E)).
Definition hermitian_matrix_rank_2_update_from x y Em A is_upper : prog (memory E) unit :=
  fill_triangle is_upper A (fun i j =>
    e ← get Em [i; j];
    a ← get x [i]; b ← get y [j]; c ← get y [i]; d ← get x [j];
    give (real_diagonal i j (e + a * conj_if_needed b + c * conj_if_needed d)%E)).
End level2.
