(* ===== verification/LinalgLevel3.v ===== *)
(** * linalg: BLAS 3

    Models backport/cpp26/linalg/level3.hpp: products of matrices, solutions of
    triangular systems with many right-hand sides, and updates of rank k, with
    the loops of LinalgLevel2. *)
From S2P Require Import Prelude Extents Layouts LinalgViews LinalgLevel2.

#[local] Open Scope Z_scope.
#[local] Open Scope prog_scope.

(** The number of elements of a copy of a matrix ([detail.hpp]); [None] is the
    exception [length_error]. *)
Definition checked_matrix_storage_size (rows columns : Z) : option Z :=
  let row_count := u64 rows in
  let column_count := u64 columns in
  if negb (column_count =? 0) && ((2 ^ 64 - 1) / column_count <? row_count) then None
  else Some (u64 (row_count * column_count)).

Section level3.
Context `{IndexType} {E : Type} `{Scalar E}.
Implicit Types (A B C Em : view E) (alpha : E) (is_upper is_unit : bool) (tmp : list E).

Definition matrix_product A B C : prog (memory E) unit :=
  k ← size A 1;
  fill_matrix C (fun i j =>
    accumulate (up 0 k) (fun l sum =>
      a ← get A [i; l]; b ← get B [l; j]; give (sum + a * b)%E) zero).
Definition matrix_product_update A B Em C : prog (memory E) unit :=
  k ← size A 1;
  fill_matrix C (fun i j =>
    sum ← accumulate (up 0 k) (fun l sum =>
      a ← get A [i; l]; b ← get B [l; j]; give (sum + a * b)%E) zero;
    e ← get Em [i; j];
    give (e + sum)%E).

(** ** Triangular matrices *)

(** [tmp[i * column_count + j]] of the vector with the copy. *)
Definition at_tmp tmp (column_count i j : Z) : prog (memory E) E :=
  defined (tmp !! Z.to_nat (u64 (u64 (u64 i * column_count) + u64 j))).
Definition put_tmp tmp (column_count i j : Z) (e : E) : prog (memory E) (list E) :=
  let k := Z.to_nat (u64 (u64 (u64 i * column_count) + u64 j)) in
  _ ← defined (tmp !! k); give (<[k := e]> tmp).

(** The copy of [C]; [None] when its size cannot be represented. *)
Definition copy_to_tmp C : prog (memory E) (option (list E)) :=
  m ← size C 0;
  n ← size C 1;
  match checked_matrix_storage_size m n with
  | None => give None
  | Some k =>
      tmp ← accumulate (up 0 m) (fun i =>
        accumulate (up 0 n) (fun j tmp => e ← get C [i; j]; put_tmp tmp (u64 n) i j e))
        (replicate (Z.to_nat k) zero);
      give (Some tmp)
  end.

(** The result says whether it did not throw. *)
Definition triangular_matrix_left_product is_upper is_unit A C : prog (memory E) bool :=
  copied ← copy_to_tmp C;
  match copied with
  | None => give false
  | Some tmp =>
      m ← size C 0;
      n ← size C 1;
      fill_matrix C (fun i j =>
        accumulate (triangle_range is_upper i m) (fun k sum =>
          if is_unit && (k =? i) then t ← at_tmp tmp (u64 n) k j; give (sum + t)%E
          else a ← get A [i; k]; t ← at_tmp tmp (u64 n) k j; give (sum + a * t)%E) zero);;
      give true
  end.

Definition triangular_matrix_right_product is_upper is_unit A C : prog (memory E) bool :=
  copied ← copy_to_tmp C;
  match copied with
  | None => give false
  | Some tmp =>
      n ← size C 1;
      fill_matrix C (fun i j =>
        accumulate (if is_upper then up 0 (j + 1) else up j n) (fun k sum =>
          if is_unit && (k =? j) then t ← at_tmp tmp (u64 n) i k; give (sum + t)%E
          else t ← at_tmp tmp (u64 n) i k; a ← get A [k; j]; give (sum + t * a)%E) zero);;
      give true
  end.

Definition triangular_matrix_matrix_left_solve is_upper is_unit A B : prog (memory E) unit :=
  n ← size A 0;
  nrhs ← size B 1;
  loop (up 0 nrhs) (fun j =>
    let solve_row i :=
      loop (if is_upper then up (i + 1) n else up 0 i) (fun k =>
        a ← get A [i; k]; b ← get B [k; j]; e ← get B [i; j]; set B [i; j] (e - a * b)%E);;
      if negb is_unit then a ← get A [i; i]; e ← get B [i; j]; set B [i; j] (e / a)%E
      else give tt in
    if is_upper then loop (down n 0) solve_row else loop (up 0 n) solve_row).

(** ** Symmetric and hermitian matrices *)

Definition symmetric_matrix_product is_upper A B C : prog (memory E) unit :=
  k ← size A 0;
  fill_matrix C (fun i j =>
    accumulate (up 0 k) (fun l sum =>
      ail ← (if i =? l then get A [i; i]
             else if is_upper then (if i <? l then get A [i; l] else get A [l; i])
             else (if l <? i then get A [i; l] else get A [l; i]));
      b ← get B [l; j];
      give (sum + ail * b)%E) zero).

Definition hermitian_matrix_product is_upper A B C : prog (memory E) unit :=
  fill_matrix C (fun i j =>
    k ← size A 1;
    accumulate (up 0 k) (fun l sum =>
      ail ← (if i =? l then a ← get A [i; i]; give (real_if_needed a)
             else if is_upper then
               if i <? l then get A [i; l] else a ← get A [l; i]; give (conj_if_needed a)
             else
               if l <? i then get A [i; l] else a ← get A [l; i]; give (conj_if_needed a));
      b ← get B [l; j];
      give (sum + ail * b)%E) zero).

Definition symmetric_matrix_rank_k_update alpha A C is_upper : prog (memory E) unit :=
  k ← size A 1;
  fill_triangle is_upper C (fun i j =>
    sum ← accumulate (up 0 k) (fun l sum =>
      a ← get A [i; l]; b ← get A [j; l]; give (sum + a * b)%E) zero;
    give (alpha * sum)%E).
Definition symmetric_matrix_rank_k_update_from alpha A Em C is_upper : prog (memory E) unit :=
  k ← size A 1;
  fill_triangle is_upper C (fun i j =>
    sum ← accumulate (up 0 k) (fun l sum =>
      a ← get A [i; l]; b ← get A [j; l]; give (sum + a * b)%E) zero;
    e ← get Em [i; j];
    give (e + alpha * sum)%E).

(** The sum of an update of rank 2k. *)
Definition rank_2k_sum A B (k i j : Z) : prog (memory E) E :=
  accumulate (up 0 k) (fun l sum =>
    a ← get A [i; l]; b ← get B [j; l]; c ← get B [i; l]; d ← get A [j; l];
    give (sum + (a * b + c * d))%E) zero.

Definition symmetric_matrix_rank_2k_update A B C is_upper : prog (memory E) unit :=
  k ← size A 1;
  fill_triangle is_upper C (fun i j => rank_2k_sum A B k i j).
Definition symmetric_matrix_rank_2k_update_from A B Em C is_upper : prog (memory E) unit :=
  k ← size A 1;
  fill_triangle is_upper C (fun i j =>
    sum ← rank_2k_sum A B k i j; e ← get Em [i; j]; give (e + sum)%E).
Definition symmetric_matrix_rank_2k_update_scaled alpha is_upper A B C : prog (memory E) unit :=
  k ← size A 1;
  fill_triangle is_upper C (fun i j => sum ← rank_2k_sum A B k i j; give (alpha * sum)%E).

Definition hermitian_matrix_rank_k_update alpha A C is_upper : prog (memory E) unit :=
  k ← size A 1;
  let scaling := real_if_needed alpha in
  fill_triangle is_upper C (fun i j =>
    sum ← accumulate (up 0 k) (fun l sum =>
      a ← get A [i; l]; b ← get A [j; l]; give (sum + a * conj_if_needed b)%E) zero;
    give (real_diagonal i j (scaling * sum)%E)).
Definition hermitian_matrix_rank_k_update_from alpha A Em C is_upper : prog (memory E) unit :=
  k ← size A 1;
  let scaling := real_if_needed alpha in
  fill_triangle is_upper C (fun i j =>
    sum ← accumulate (up 0 k) (fun l sum =>
      a ← get A [i; l]; b ← get A [j; l]; give (sum + a * conj_if_needed b)%E) zero;
    e ← get Em [i; j];
    give (real_diagonal i j (e + scaling * sum)%E)).
Definition hermitian_matrix_rank_k_update_one is_upper A C : prog (memory E) unit :=
  hermitian_matrix_rank_k_update one A C is_upper.
End level3.
