(* ===== verification/LinalgSimd.v ===== *)
(** * linalg: the vectorised loops

    Models the branches of level1.hpp and level2.hpp for contiguous views of
    elements that simd supports, with the unmasked [reduce] of simd/reductions.hpp.
    They read and write the memory behind the handle, [kN] elements at a time,
    and the rest one by one. *)
From S2P Require Import Prelude Extents Layouts LinalgViews.

#[local] Open Scope Z_scope.
#[local] Open Scope prog_scope.

Section simd.
Context `{IndexType} {E : Type} `{Scalar E} (kN : Z).
Implicit Types (x y from to A : view E) (p i : Z) (alpha : E).

(** [p[i]], read and written. *)
Definition load p i : prog (memory E) E := fun mem =>
  match mem !! (p + i) with Some e => Some (e, mem) | None => None end.
Definition store p i (e : E) : prog (memory E) unit := fun mem =>
  match mem !! (p + i) with Some _ => Some (tt, <[p + i := e]> mem) | None => None end.

(** A vector of [kN] elements, loaded from [p + i] and stored lane by lane. *)
Definition load_vector p i : prog (memory E) (list E) :=
  accumulate (up 0 kN) (fun j vs => e ← load p (i + j); give (vs ++ [e])) [].
Fixpoint store_vector p i (vs : list E) : prog (memory E) unit :=
  match vs with [] => give tt | e :: vs' => store p i e;; store_vector p (i + 1) vs' end.

Definition reduce (vs : list E) : prog (memory E) E :=
  match vs with [] => undefined | e :: vs' => give (foldl add_ e vs') end.

(** [for (; i + kN <= n; i += kN)]: the index where it ends, with the result. *)
Fixpoint vector_loop {R} (fuel : nat) (n i : Z) (body : Z -> R -> prog (memory E) R) (a : R)
    : prog (memory E) (Z * R) :=
  next ← defined (arith (i + cast kN));
  if next <=? n then
    match fuel with
    | O => undefined
    | S fuel' => a' ← body i a; vector_loop fuel' n (cast next) body a'
    end
  else give (i, a).

Definition copy_simd from to : prog (memory E) unit :=
  n ← size from 0;
  let src := view_handle from in
  let dst := view_handle to in
  r ← vector_loop (Z.to_nat n) n 0 (fun i _ => v ← load_vector src i; store_vector dst i v) tt;
  loop (up r.1 n) (fun i => e ← load src i; store dst i e).

Definition scale_simd alpha x : prog (memory E) unit :=
  n ← size x 0;
  let px := view_handle x in
  r ← vector_loop (Z.to_nat n) n 0 (fun i _ =>
    v ← load_vector px i; store_vector px i (mul_ alpha <$> v)) tt;
  loop (up r.1 n) (fun i => e ← load px i; store px i (alpha * e)%E).

Definition dot_simd x y (init : E) : prog (memory E) E :=
  n ← size x 0;
  if n =? 0 then give init else
  let px := view_handle x in
  let py := view_handle y in
  r ← vector_loop (Z.to_nat n) n 0 (fun i acc =>
    vx ← load_vector px i; vy ← load_vector py i;
    s ← reduce (zip_with mul_ vx vy);
    give (acc + s)%E) zero;
  acc ← accumulate (up r.1 n) (fun i acc =>
    a ← load px i; b ← load py i; give (acc + a * b)%E) r.2;
  give (init + acc)%E.

Definition matrix_vector_product_simd A x y : prog (memory E) unit :=
  rows ← size A 0;
  cols ← size A 1;
  let px := view_handle x in
  loop (up 0 rows) (fun i =>
    r ← vector_loop (Z.to_nat cols) cols 0 (fun j sum =>
      a0 ← defined (address A [i; 0]);
      va ← load_vector a0 j; vx ← load_vector px j;
      s ← reduce (zip_with mul_ va vx);
      give (sum + s)%E) zero;
    sum ← accumulate (up r.1 cols) (fun j sum =>
      a ← get A [i; j]; b ← load px j; give (sum + a * b)%E) r.2;
    set y [i] sum).
End simd.
