(* ===== verification/LinalgSpec.v ===== *)
(** * linalg: reasoning about loops over views

    What memory holds at a family of addresses ([stored]), how views read it,
    and the rules for loops: [accumulate] with a loop invariant, a sum that only
    reads, and a loop that assigns one element after the other.  The algorithms
    assume of their inputs that they are away from the output, or meet it only
    at the same index. *)
From stdpp Require Import functions.
From S2P Require Import Prelude Extents Layouts LinalgViews LinalgLevel2.

#[local] Open Scope Z_scope.

(** ** Loops *)

Section loop_rules.
Context {S A X : Type}.
Implicit Types (l done rest : list X) (f : X -> A -> prog S A).

Lemma after_assoc {B C} (m : prog S A) (f : A -> prog S B) (g : B -> prog S C) s :
  after (after m f) g s = after m (fun a => after (f a) g) s.
Proof. unfold after. by destruct (m s) as [[]|]. Qed.

Lemma after_ext {B} (m : prog S A) (f g : A -> prog S B) s :
  (forall a s', f a s' = g a s') -> after m f s = after m g s.
Proof. unfold after. destruct (m s) as [[]|]; auto. Qed.

Lemma accumulate_rule (I : list X -> A -> S -> Prop) l f a s :
  I [] a s ->
  (forall done i rest a s, l = done ++ i :: rest -> I done a s ->
    exists a' s', f i a s = Some (a', s') /\ I (done ++ [i]) a' s') ->
  exists a' s', accumulate l f a s = Some (a', s') /\ I l a' s'.
Proof.
  intros H0 Hf.
  assert (forall done rest a s, l = done ++ rest -> I done a s ->
    exists a' s', accumulate rest f a s = Some (a', s') /\ I l a' s') as Hall; [|by apply (Hall [])].
  clear H0 a s. intros done rest. revert done. induction rest as [|i rest IH]; intros done a s Hl HI; simpl.
  - rewrite app_nil_r in Hl. subst. by exists a, s.
  - destruct (Hf _ _ _ _ _ Hl HI) as (a' & s' & E & HI'). rewrite (prog_bind_ok _ _ _ _ _ E).
    apply (IH (done ++ [i])); [by rewrite <- app_assoc|done].
Qed.

Lemma accumulate_ext l f f' a s :
  (forall i a s, i ∈ l -> f i a s = f' i a s) -> accumulate l f a s = accumulate l f' a s.
Proof.
  revert a s. induction l as [|i l IH]; intros a s Hf; simpl; [done|].
  unfold after. rewrite Hf by apply list_elem_of_here. destruct (f' i a s) as [[]|]; [|done].
  apply IH. intros. apply Hf. by apply list_elem_of_further.
Qed.

Lemma accumulate_app l1 l2 f a s :
  accumulate (l1 ++ l2) f a s = after (accumulate l1 f a) (accumulate l2 f) s.
Proof.
  revert a s. induction l1 as [|i l1 IH]; intros a s; simpl; [done|].
  unfold after at 1 2 3. destruct (f i a s) as [[]|]; [|done]. apply IH.
Qed.

(** A loop that changes no state is a fold. *)
Lemma accumulate_pure l f (h : A -> X -> A) a s :
  (forall i a, i ∈ l -> f i a s = Some (h a i, s)) -> accumulate l f a s = Some (foldl h a l, s).
Proof.
  revert a. induction l as [|i l IH]; intros a Hf; simpl; [done|].
  rewrite (prog_bind_ok _ _ _ _ _ (Hf i a ltac:(apply list_elem_of_here))).
  apply IH. intros. apply Hf. by apply list_elem_of_further.
Qed.
End loop_rules.

Lemma accumulate_fmap {S A X Y} (g : Y -> X) (l : list Y) (f : X -> A -> prog S A) a s :
  accumulate (g <$> l) f a s = accumulate l (fun i => f (g i)) a s.
Proof.
  revert a s. induction l as [|i l IH]; intros a s; simpl; [done|].
  unfold after. destruct (f (g i) a s) as [[]|]; [|done]. apply IH.
Qed.

(** The pairs of two nested loops. *)
Definition pairs (l : list Z) (r : Z -> list Z) : list (list Z) :=
  l ≫= fun i => (fun j => [i; j]) <$> r i.

Lemma elem_of_pairs l r js : js ∈ pairs l r <-> exists i j, js = [i; j] /\ i ∈ l /\ j ∈ r i.
Proof.
  unfold pairs. rewrite list_elem_of_bind. split.
  - intros (i & (j & -> & Hj)%list_elem_of_fmap & Hi). eauto.
  - intros (i & j & -> & Hi & Hj). exists i. split; [|done]. apply list_elem_of_fmap. eauto.
Qed.

Lemma pairs_NoDup l r : NoDup l -> (forall i, NoDup (r i)) -> NoDup (pairs l r).
Proof.
  intros Hl Hr. unfold pairs. induction Hl as [|i l Hi Hl IH]; simpl; [constructor|].
  apply list.NoDup_app. split; [|split; [|done]].
  - apply NoDup_fmap_2; [|done]. by intros ? ? [= ->].
  - intros js (j & -> & Hj)%list_elem_of_fmap Hin.
    apply (elem_of_pairs l r) in Hin as (i' & j' & [= <- <-] & Hi' & _). done.
Qed.

Lemma nested_accumulate {S A} l r (body : list Z -> A -> prog S A) a s :
  accumulate l (fun i => accumulate (r i) (fun j => body [i; j])) a s =
    accumulate (pairs l r) body a s.
Proof.
  unfold pairs. revert a s. induction l as [|i l IH]; intros a s; [done|].
  change ((i :: l) ≫= fun i => (fun j => [i; j]) <$> r i)
    with (((fun j => [i; j]) <$> r i) ++ pairs l r).
  rewrite accumulate_app. simpl. unfold after. rewrite accumulate_fmap.
  destruct (accumulate (r i) _ a s) as [[a' s']|]; [|done]. apply IH.
Qed.

Lemma nested_loop {S} l r (body : list Z -> prog S unit) s :
  loop l (fun i => loop (r i) (fun j => body [i; j])) s = loop (pairs l r) body s.
Proof.
  unfold loop. rewrite <- nested_accumulate. apply accumulate_ext. intros i [] s' _.
  apply accumulate_ext. by intros j [] s2 _.
Qed.

(** Ranges. *)
Lemma elem_of_up lo hi i : i ∈ up lo hi <-> lo <= i < hi.
Proof. unfold up. rewrite elem_of_seqZ. lia. Qed.

Lemma up_NoDup lo hi : NoDup (up lo hi).
Proof. apply NoDup_seqZ. Qed.

Lemma up_cons lo hi : lo < hi -> up lo hi = lo :: up (lo + 1) hi.
Proof. intros. unfold up. rewrite seqZ_cons by lia. do 2 f_equal; lia. Qed.

Lemma up_nil lo hi : hi <= lo -> up lo hi = [].
Proof. intros. unfold up. apply seqZ_nil. lia. Qed.

Lemma up_app lo mid hi : lo <= mid <= hi -> up lo hi = up lo mid ++ up mid hi.
Proof.
  intros. unfold up. replace (hi - lo) with ((mid - lo) + (hi - mid)) by lia.
  rewrite seqZ_app by lia. do 2 f_equal; lia.
Qed.

(** Where a loop upwards stands: what is before and what is behind. *)
Lemma up_split lo hi done i rest :
  up lo hi = done ++ i :: rest -> lo <= i < hi /\ done = up lo i /\ rest = up (i + 1) hi.
Proof.
  revert lo. induction done as [|k done IH]; intros lo Hs; simpl in Hs.
  - destruct (Z_lt_le_dec lo hi); [|by rewrite up_nil in Hs by lia].
    rewrite up_cons in Hs by done. injection Hs as <- <-. split; [lia|]. by rewrite up_nil by lia.
  - destruct (Z_lt_le_dec lo hi); [|by rewrite up_nil in Hs by lia].
    rewrite up_cons in Hs by done. injection Hs as <- Hs.
    destruct (IH _ Hs) as (Hi & -> & ->). split; [lia|]. by rewrite (up_cons lo i) by lia.
Qed.

Lemma elem_of_down hi lo i : i ∈ down hi lo <-> lo <= i < hi.
Proof. unfold down. rewrite list_elem_of_In, <- in_rev, <- list_elem_of_In. apply elem_of_up. Qed.

Lemma down_split hi lo done i rest :
  down hi lo = done ++ i :: rest -> lo <= i < hi /\ done = down hi (i + 1) /\ rest = down i lo.
Proof.
  unfold down. intros Hs. apply (f_equal (@rev Z)) in Hs. rewrite rev_involutive, rev_app_distr in Hs.
  simpl in Hs. rewrite <- app_assoc in Hs. destruct (up_split _ _ _ _ _ Hs) as (Hi & E1 & E2).
  rewrite <- E1, <- E2, !rev_involutive. done.
Qed.

(** ** What memory holds at a family of addresses *)

Section stored.
Context {E K : Type} `{EqDecision K} (addr : K -> option Z) (P : K -> Prop).
Implicit Types (g : K -> E) (M : gmap Z E) (k : K).

(** The keys [P] have addresses of their own. *)
Definition distinct : Prop := forall k1 k2, P k1 -> P k2 -> addr k1 = addr k2 -> k1 = k2.

(** Memory [M] holds [g] at the keys [P] and is [M0] elsewhere. *)
Definition stored g M0 M : Prop :=
  (forall k, P k -> exists a, addr k = Some a /\ M !! a = Some (g k)) /\
  (forall a, (forall k, P k -> addr k <> Some a) -> M !! a = M0 !! a).

Lemma stored_refl g M : (forall k, P k -> exists a, addr k = Some a /\ M !! a = Some (g k)) -> stored g M M.
Proof. done. Qed.

Lemma stored_set g M0 M k e :
  distinct -> P k -> stored g M0 M ->
  exists a, addr k = Some a /\ is_Some (M !! a) /\ stored (<[k := e]> g) M0 (<[a := e]> M).
Proof.
  intros Hd Hk [Hg HM]. destruct (Hg k Hk) as (a & Ha & Hm). exists a. split; [done|].
  split; [eauto|]. split.
  - intros k' Hk'. destruct (Hg k' Hk') as (a' & Ha' & Hm'). exists a'. split; [done|].
    destruct (decide (k' = k)) as [->|Hne].
    + rewrite fn_lookup_insert. rewrite Ha in Ha'. injection Ha' as <-. apply lookup_insert_eq.
    + rewrite fn_lookup_insert_ne by done. rewrite lookup_insert_ne; [done|]. intros ->.
      apply Hne, Hd; [done|done|congruence].
  - intros b Hb. rewrite lookup_insert_ne; [by apply HM|]. intros ->. by apply (Hb k).
Qed.

(** Changes that end where they began. *)
Lemma stored_undo `{forall k, Decision (P k)} (ks : list K) g t t' M M1 M2 :
  (forall k, P k -> k ∈ ks) -> stored g M M -> stored t M M1 -> stored t' M1 M2 ->
  (forall k, P k -> t' k = g k) -> M2 = M.
Proof.
  intros Hks [Hg _] [_ HM1] [Ht' HM2] Hback. apply map_eq. intros a.
  destruct (decide (Exists (fun k => P k /\ addr k = Some a) ks)) as [Hin|Hout].
  - apply Exists_exists in Hin as (k & _ & Hk & Ha).
    destruct (Hg k Hk) as (b & Hb & Hm). destruct (Ht' k Hk) as (b' & Hb' & Hm').
    assert (a = b) as <- by congruence. assert (a = b') as <- by congruence.
    by rewrite Hm, Hm', Hback.
  - assert (forall k, P k -> addr k <> Some a) as Hno.
    { intros k Hk Ha. apply Hout, Exists_exists. eauto. }
    by rewrite HM2, HM1.
Qed.

(** Two ways to the same elements. *)
Lemma stored_unique `{forall k, Decision (P k)} (ks : list K) g M M1 M2 :
  (forall k, P k -> k ∈ ks) -> stored g M M1 -> stored g M M2 -> M1 = M2.
Proof.
  intros Hks [H1 HM1] [H2 HM2]. apply map_eq. intros a.
  destruct (decide (Exists (fun k => P k /\ addr k = Some a) ks)) as [Hin|Hout].
  - apply Exists_exists in Hin as (k & _ & Hk & Ha).
    destruct (H1 k Hk) as (b & Hb & Hm). destruct (H2 k Hk) as (b' & Hb' & Hm').
    assert (a = b) as <- by congruence. assert (a = b') as <- by congruence. by rewrite Hm, Hm'.
  - assert (forall k, P k -> addr k <> Some a) as Hno.
    { intros k Hk Ha. apply Hout, Exists_exists. eauto. }
    by rewrite HM1, HM2.
Qed.

Lemma stored_ext g g' M0 M : (forall k, P k -> g k = g' k) -> stored g M0 M -> stored g' M0 M.
Proof.
  intros Hg [H1 H2]. split; [|done]. intros k Hk. destruct (H1 k Hk) as (a & Ha & Hm).
  exists a. split; [done|]. by rewrite <- Hg.
Qed.

End stored.

(** ** Views *)

Section views.
Context `{IndexType} {E : Type} `{Scalar E}.
Implicit Types (v w : view E) (P Q : list Z -> Prop) (f g old : list Z -> E) (M : memory E).
Implicit Types (js ks : list Z).

(** The index space of a view. *)
Definition sizes v : list Z := values (view_extents v).
Definition within v js : Prop := in_range js (sizes v).

(** At the indices [Q], [v] shows [f]. *)
Definition shows M v Q f : Prop := forall js, Q js -> element v js M = Some (f js).

Lemma access_lookup (a : accessor E) p i M e :
  access a p i M = Some e ->
  is_Some (M !! (p + i)) /\ forall M', M' !! (p + i) = M !! (p + i) -> access a p i M' = Some e.
Proof.
  revert e. induction a as [|s a IH|a IH]; simpl; intros e.
  - intros He. split; [eauto|]. by intros M' ->.
  - destruct (access a p i M) as [e0|]; [|done]. intros [= <-]. destruct (IH _ eq_refl) as [? IH2].
    split; [done|]. intros M' HM. by rewrite IH2.
  - destruct (access a p i M) as [e0|]; [|done]. intros [= <-]. destruct (IH _ eq_refl) as [? IH2].
    split; [done|]. intros M' HM. by rewrite IH2.
Qed.

Lemma element_address v js M e :
  element v js M = Some e ->
  exists a, address v js = Some a /\ is_Some (M !! a) /\
    forall M', M' !! a = M !! a -> element v js M' = Some e.
Proof.
  unfold element, address. destruct (layout_call (view_layout v) js) as [i|]; simpl; [|done].
  intros He. destruct (access_lookup _ _ _ _ _ He) as [H1 H2]. by exists (view_handle v + i).
Qed.

(** The output [w]: references to distinct elements at [P], which hold [old]. *)
Record writable M w P old : Prop := Writable {
  wr_default : view_accessor w = DefaultAccessor;
  wr_distinct : distinct (address w) P;
  wr_shows : shows M w P old;
}.

(** The program leaves [g] at the indices [P] of the output, and all other
    memory as it was. *)
Definition assigns M w P g (p : prog (memory E) unit) : Prop :=
  exists M', p M = Some (tt, M') /\ stored (address w) P g M M'.

(** The input [v] shows [f] at [Q], away from the elements [P] of [w]. *)
Record input M v Q f w P : Prop := Input {
  in_shows : shows M v Q f;
  in_apart : forall js ks, Q js -> P ks -> address v js <> address w ks;
}.

(** The input [v] meets the elements [P] of [w] at the same index only. *)
Record input_same M v Q f w P : Prop := InputSame {
  is_shows : shows M v Q f;
  is_same : forall js ks, Q js -> P ks -> address v js = address w ks -> js = ks;
}.

Lemma input_weaken M v Q f w P : input M v Q f w P -> input_same M v Q f w P.
Proof. intros [H1 H2]. split; [done|]. intros js ks Hj Hk E1. by destruct (H2 js ks). Qed.

Lemma get_element v js M e : element v js M = Some e -> get v js M = Some (e, M).
Proof. unfold get. by intros ->. Qed.

Lemma get_shown M v Q f js : shows M v Q f -> Q js -> get v js M = Some (f js, M).
Proof. intros Hf Hj. by apply get_element, Hf. Qed.

Lemma writable_stored M w P old : writable M w P old -> stored (address w) P old M M.
Proof.
  intros [Hd _ Hs]. apply stored_refl. intros ks Hk. specialize (Hs ks Hk).
  unfold element in Hs. unfold address. destruct (layout_call (view_layout w) ks) as [i|]; [|done].
  simpl in *. rewrite Hd in Hs. by exists (view_handle w + i).
Qed.

(** Reading an input, the output, and an input that may be the output. *)
Lemma get_input M0 M v Q f w P g js :
  input M0 v Q f w P -> stored (address w) P g M0 M -> Q js -> get v js M = Some (f js, M).
Proof.
  intros [Hs Ha] [_ HM] Hj. destruct (element_address _ _ _ _ (Hs js Hj)) as (a & Hva & _ & He).
  apply get_element, He, HM. intros ks Hk E1. apply (Ha js ks Hj Hk). congruence.
Qed.

Lemma get_output M0 M w P g js :
  view_accessor w = DefaultAccessor -> stored (address w) P g M0 M -> P js ->
  get w js M = Some (g js, M).
Proof.
  intros Hd [Hg _] Hj. destruct (Hg js Hj) as (a & Ha & Hm). apply get_element.
  unfold element, address in *. destruct (layout_call (view_layout w) js) as [i|]; [|done].
  simpl in *. injection Ha as <-. by rewrite Hd.
Qed.

(** [v] may meet the output where it still is what it was. *)
Lemma get_same M0 M v Q f w P `{forall ks, Decision (P ks)} old g js :
  input_same M0 v Q f w P -> writable M0 w P old -> stored (address w) P g M0 M ->
  Q js -> (P js -> g js = old js) -> get v js M = Some (f js, M).
Proof.
  intros [Hs Hsame] Hw [Hg HM] Hj Hold.
  destruct (element_address _ _ _ _ (Hs js Hj)) as (a & Hva & _ & He). apply get_element, He.
  destruct (writable_stored _ _ _ _ Hw) as [Hg0 _].
  assert (forall ks, P ks -> address w ks = Some a -> js = ks) as Hone.
  { intros ks Hk Ha. apply Hsame; [done|done|congruence]. }
  destruct (decide (P js)) as [Hp|Hp].
  2: { apply HM. intros ks Hk Ha. pose proof (Hone ks Hk Ha). by subst. }
  destruct (Hg js Hp) as (b & Hb & Hm). destruct (Hg0 js Hp) as (b' & Hb' & Hm').
  assert (b' = b) as -> by congruence. destruct (decide (a = b)) as [Hab|Hne].
  - rewrite Hab, Hm, Hm'. by rewrite Hold.
  - apply HM. intros ks Hk Ha. pose proof (Hone ks Hk Ha). subst ks. congruence.
Qed.

(** Inputs and outputs stay so when the output is assigned. *)
Lemma stored_writable M0 M w P old g :
  writable M0 w P old -> stored (address w) P g M0 M -> writable M w P g.
Proof.
  intros [Hd Hdis _] Hst. split; [done..|]. intros js Hj.
  pose proof (get_output _ _ _ _ _ _ Hd Hst Hj) as He. unfold get in He.
  by destruct (element w js M); [injection He as ->|].
Qed.

Lemma stored_input M0 M v Q f w P g :
  input M0 v Q f w P -> stored (address w) P g M0 M -> input M v Q f w P.
Proof.
  intros Hi Hst. split; [|apply Hi]. intros js Hj.
  pose proof (get_input _ _ _ _ _ _ _ _ js Hi Hst Hj) as He. unfold get in He.
  by destruct (element v js M); [injection He as ->|].
Qed.

(** Assigning an element of the output. *)
Lemma set_output M0 M w P g js e :
  view_accessor w = DefaultAccessor -> distinct (address w) P -> P js ->
  stored (address w) P g M0 M ->
  exists M', set w js e M = Some (tt, M') /\ stored (address w) P (<[js := e]> g) M0 M'.
Proof.
  intros Hd Hdis Hj Hs. destruct (stored_set _ _ _ _ _ _ e Hdis Hj Hs) as (a & Ha & [e0 Hm] & Hs').
  exists (<[a := e]> M). split; [|done]. unfold set. by rewrite Hd, Ha, Hm.
Qed.

(** A loop that assigns [value js] to [w[js]] for all [js] of a list, one after
    the other. *)
Lemma fill_ok M0 w (ids : list (list Z)) (value : list Z -> prog (memory E) E) old g :
  NoDup ids -> writable M0 w (.∈ ids) old ->
  (forall done js rest M, ids = done ++ js :: rest ->
     stored (address w) (.∈ ids) (fun ks => if decide (ks ∈ done) then g ks else old ks) M0 M ->
     value js M = Some (g js, M)) ->
  exists M', loop ids (fun js => after (value js) (set w js)) M0 = Some (tt, M') /\
    stored (address w) (.∈ ids) g M0 M'.
Proof.
  intros Hnd Hw Hv.
  destruct (accumulate_rule (fun done (_ : unit) M =>
    stored (address w) (.∈ ids) (fun ks => if decide (ks ∈ done) then g ks else old ks) M0 M)
    ids (fun js _ => after (value js) (set w js)) tt M0) as ([] & M' & Hrun & HM).
  - eapply stored_ext; [|by eapply writable_stored]. intros k _. by rewrite decide_False by apply not_elem_of_nil.
  - intros done js rest [] M Hids HM. rewrite (prog_bind_ok _ _ _ _ _ (Hv _ _ _ _ Hids HM)).
    destruct (set_output M0 M w _ _ js (g js) (wr_default _ _ _ _ Hw) (wr_distinct _ _ _ _ Hw)
      ltac:(rewrite Hids; apply elem_of_app; right; apply list_elem_of_here) HM) as (M2 & Hset & HM2).
    exists tt, M2. split; [done|]. eapply stored_ext; [|exact HM2]. intros k _.
    destruct (decide (k = js)) as [->|Hne].
    + rewrite fn_lookup_insert, decide_True; [done|]. apply elem_of_app. right. apply list_elem_of_here.
    + rewrite fn_lookup_insert_ne by done. destruct (decide (k ∈ done)) as [Hin|Hin].
      * rewrite decide_True; [done|]. apply elem_of_app. by left.
      * rewrite decide_False; [done|]. rewrite elem_of_app, list_elem_of_singleton. tauto.
  - exists M'. split; [exact Hrun|]. eapply stored_ext; [|exact HM]. intros k Hk. cbn beta in *. by rewrite decide_True.
Qed.

(** ** Index spaces *)

#[export] Instance within_dec v js : Decision (within v js).
Proof. unfold within, in_range. apply _. Defined.

Lemma within_vector v n js : sizes v = [n] -> within v js <-> js ∈ (fun i => [i]) <$> up 0 n.
Proof.
  intros Hv. unfold within, in_range. rewrite Hv, list_elem_of_fmap. split.
  - intros (i & js' & Hi & ->%Forall2_nil_inv_r & ->)%Forall2_cons_inv_r. exists i. split; [done|]. by apply elem_of_up.
  - intros (i & -> & Hi%elem_of_up). by repeat apply Forall2_cons_2.
Qed.

Lemma within_matrix v m n js : sizes v = [m; n] -> within v js <-> js ∈ pairs (up 0 m) (fun _ => up 0 n).
Proof.
  intros Hv. unfold within, in_range. rewrite Hv, elem_of_pairs. split.
  - intros (i & js' & Hi & (j & js2 & Hj & ->%Forall2_nil_inv_r & ->)%Forall2_cons_inv_r & ->)%Forall2_cons_inv_r.
    exists i, j. split; [done|]. by split; apply elem_of_up.
  - intros (i & j & -> & Hi%elem_of_up & Hj%elem_of_up). by repeat apply Forall2_cons_2.
Qed.

(** The indices of a vector or a matrix. *)
Definition indices v : list (list Z) :=
  match sizes v with
  | [n] => (fun i => [i]) <$> up 0 n
  | [m; n] => pairs (up 0 m) (fun _ => up 0 n)
  | _ => []
  end.

Lemma within_indices v js : length (sizes v) = 1%nat \/ length (sizes v) = 2%nat -> within v js -> js ∈ indices v.
Proof.
  unfold indices. intros Hl. destruct (sizes v) as [|m [|n [|]]] eqn:Hv; simpl in Hl; try lia.
  - by apply within_vector.
  - by apply within_matrix.
Qed.

Lemma within1 v n i : sizes v = [n] -> 0 <= i < n -> within v [i].
Proof. intros Hv Hi. unfold within, in_range. rewrite Hv. by repeat apply Forall2_cons_2. Qed.

Lemma within2 v m n i j : sizes v = [m; n] -> 0 <= i < m -> 0 <= j < n -> within v [i; j].
Proof. intros Hv Hi Hj. unfold within, in_range. rewrite Hv. by repeat apply Forall2_cons_2. Qed.

(** The indices of a triangle of a matrix with [n] rows and columns. *)
Definition triangle (is_upper : bool) (n : Z) js : Prop :=
  match js with
  | [i; j] => 0 <= i < n /\ 0 <= j < n /\ (if is_upper then i <= j else j <= i)
  | _ => False
  end.

#[export] Instance triangle_dec is_upper n js : Decision (triangle is_upper n js).
Proof. unfold triangle. destruct is_upper; repeat case_match; apply _. Defined.

Lemma elem_of_triangle_range is_upper n i j :
  0 <= i < n -> j ∈ triangle_range is_upper i n <-> 0 <= j < n /\ if is_upper then i <= j else j <= i.
Proof. intros Hi. unfold triangle_range. destruct is_upper; rewrite elem_of_up; lia. Qed.

Lemma triangle_pairs is_upper n js :
  triangle is_upper n js <-> js ∈ pairs (up 0 n) (fun i => triangle_range is_upper i n).
Proof.
  rewrite elem_of_pairs. split.
  - destruct js as [|i [|j [|]]]; try done. intros (Hi & Hj & Ho). exists i, j.
    by rewrite elem_of_up, elem_of_triangle_range.
  - intros (i & j & -> & Hi%elem_of_up & Hj). rewrite elem_of_triangle_range in Hj by done. by simpl.
Qed.

Lemma size_ok v (ns : list Z) r n M : sizes v = ns -> ns !! r = Some n -> size v r M = Some (n, M).
Proof.
  intros Hv Hr. unfold size, extent. rewrite <- list_lookup_fmap. unfold sizes in Hv.
  by rewrite Hv, Hr.
Qed.

Lemma rank_sizes v : view_rank v = length (sizes v).
Proof. unfold view_rank, sizes. by rewrite length_fmap. Qed.

Lemma stored_iff (addr : list Z -> option Z) P Q g M0 M :
  (forall js, P js <-> Q js) -> stored addr P g M0 M -> stored addr Q g M0 M.
Proof.
  intros Hpq [H1 H2]. split.
  - intros js Hj. by apply H1, Hpq.
  - intros a Ha. apply H2. intros js Hj. by apply Ha, Hpq.
Qed.

Lemma writable_iff M w P Q old : (forall js, P js <-> Q js) -> writable M w P old -> writable M w Q old.
Proof.
  intros Hpq [H1 H2 H3]. split; [done| |].
  - intros k1 k2 Hk1%Hpq Hk2%Hpq. by apply H2.
  - intros js Hj%Hpq. by apply H3.
Qed.

(** ** Loops that fill a vector, a matrix or a triangle

    The value of an element may depend on memory as it was: on inputs, and on
    the element itself. *)
Definition computes M0 w P old (value : list Z -> prog (memory E) E) g : Prop :=
  forall js cur M, P js -> stored (address w) P cur M0 M -> cur js = old js ->
    value js M = Some (g js, M).

Lemma fill_ids_ok M0 w P ids value old g :
  NoDup ids -> (forall js, P js <-> js ∈ ids) -> writable M0 w P old ->
  computes M0 w P old value g ->
  exists M', loop ids (fun js => after (value js) (set w js)) M0 = Some (tt, M') /\
    stored (address w) P g M0 M'.
Proof.
  intros Hnd Hids Hw Hv.
  destruct (fill_ok M0 w ids value old g Hnd) as (M' & Hrun & HM).
  - by eapply writable_iff.
  - intros done js rest M Hs HM. eapply Hv.
    + apply Hids. rewrite Hs. apply elem_of_app. right. apply list_elem_of_here.
    + eapply stored_iff; [|exact HM]. intros ks. symmetry. apply Hids.
    + cbn beta. rewrite decide_False; [done|]. intros Hin. rewrite Hs in Hnd.
      apply list.NoDup_app in Hnd as (_ & Hd & _). apply (Hd js Hin), list_elem_of_here.
  - exists M'. split; [exact Hrun|]. eapply stored_iff; [|exact HM]. intros ks. symmetry. apply Hids.
Qed.

(** [value] as a function of one index or two. *)
Definition on_index (value : Z -> prog (memory E) E) js : prog (memory E) E :=
  match js with [i] => value i | _ => undefined end.
Definition on_pair (value : Z -> Z -> prog (memory E) E) js : prog (memory E) E :=
  match js with [i; j] => value i j | _ => undefined end.

Lemma fill_matrix_ok M0 w m n value old g :
  sizes w = [m; n] -> writable M0 w (within w) old ->
  computes M0 w (within w) old (on_pair value) g ->
  exists M', fill_matrix w value M0 = Some (tt, M') /\ stored (address w) (within w) g M0 M'.
Proof.
  intros Hw Hwr Hv.
  destruct (fill_ids_ok M0 w (within w) (pairs (up 0 m) (fun _ => up 0 n)) (on_pair value) old g)
    as (M' & Hrun & HM); [|by intros; apply within_matrix|done|done|].
  { apply pairs_NoDup; intros; apply up_NoDup. }
  exists M'. split; [|done]. unfold fill_matrix.
  rewrite (prog_bind_ok _ _ _ _ _ (size_ok w _ 0 m M0 Hw eq_refl)).
  rewrite <- Hrun, <- nested_loop. apply accumulate_ext. intros i [] M Hi.
  by rewrite (prog_bind_ok _ _ _ _ _ (size_ok w _ 1 n M Hw eq_refl)).
Qed.

Lemma fill_triangle_ok M0 w n is_upper value old g :
  sizes w = [n; n] -> writable M0 w (triangle is_upper n) old ->
  computes M0 w (triangle is_upper n) old (on_pair value) g ->
  exists M', fill_triangle is_upper w value M0 = Some (tt, M') /\
    stored (address w) (triangle is_upper n) g M0 M'.
Proof.
  intros Hw Hwr Hv.
  destruct (fill_ids_ok M0 w (triangle is_upper n)
    (pairs (up 0 n) (fun i => triangle_range is_upper i n)) (on_pair value) old g)
    as (M' & Hrun & HM); [|by intros; apply triangle_pairs|done|done|].
  { apply pairs_NoDup; intros; [apply up_NoDup|]. unfold triangle_range. destruct is_upper; apply up_NoDup. }
  exists M'. split; [|done]. unfold fill_triangle.
  rewrite (prog_bind_ok _ _ _ _ _ (size_ok w _ 0 n M0 Hw eq_refl)).
  by rewrite <- Hrun, <- nested_loop.
Qed.

(** The elements of a vector, in order. *)
Lemma fill_vector_ok M0 w n body value old g :
  sizes w = [n] -> writable M0 w (within w) old ->
  (forall i M, body i M = after (value i) (set w [i]) M) ->
  computes M0 w (within w) old (on_index value) g ->
  exists M', loop (up 0 n) body M0 = Some (tt, M') /\ stored (address w) (within w) g M0 M'.
Proof.
  intros Hw Hwr Hb Hv.
  destruct (fill_ids_ok M0 w (within w) ((fun i => [i]) <$> up 0 n) (on_index value) old g)
    as (M' & Hrun & HM); [|by intros; apply within_vector|done|exact Hv|].
  { apply NoDup_fmap_2; [|apply up_NoDup]. by intros ? ? [= ->]. }
  exists M'. split; [|done]. rewrite <- Hrun. unfold loop. rewrite accumulate_fmap.
  apply accumulate_ext. by intros.
Qed.
End views.
