(* ===== verification/LinalgProducts.v ===== *)
(** * linalg: sums, the matrices that triangles stand for, and products

    The values the algorithms compute, as functions of indices: sums in the
    order of the indices, and the symmetric and hermitian matrices of which
    memory holds one triangle.  The tactics at the end run the programs whose
    reads they can justify. *)
From stdpp Require Import functions.
From S2P Require Import Prelude Extents Layouts LinalgViews LinalgLevel2 LinalgSpec.

#[local] Open Scope Z_scope.
#[local] Open Scope prog_scope.

Section sums.
Context `{IndexType} {E : Type} `{Scalar E}.
Implicit Types (v w A : view E) (f g a old cur : list Z -> E) (M : memory E) (i j n : Z).
Implicit Types (is_upper is_unit : bool).

(** [init + t i1 + t i2 + ...] *)
Definition sum_from (init : E) (l : list Z) (t : Z -> E) : E := foldl (fun s i => s + t i)%E init l.
Definition sum (l : list Z) (t : Z -> E) : E := sum_from zero l t.

Lemma sum_from_ok l (body : Z -> E -> prog (memory E) E) t init M :
  (forall j s, j ∈ l -> body j s M = Some ((s + t j)%E, M)) ->
  accumulate l body init M = Some (sum_from init l t, M).
Proof. intros Hb. apply accumulate_pure. auto. Qed.

Lemma sum_ok l (body : Z -> E -> prog (memory E) E) t M :
  (forall j s, j ∈ l -> body j s M = Some ((s + t j)%E, M)) ->
  accumulate l body zero M = Some (sum l t, M).
Proof. apply sum_from_ok. Qed.

Lemma sum_from_ext init l t t' : (forall i, i ∈ l -> t i = t' i) -> sum_from init l t = sum_from init l t'.
Proof.
  unfold sum_from. revert init. induction l as [|i l IH]; intros init Ht; simpl; [done|].
  rewrite Ht by apply list_elem_of_here. apply IH. intros. apply Ht. by apply list_elem_of_further.
Qed.

Lemma sum_ext l t t' : (forall i, i ∈ l -> t i = t' i) -> sum l t = sum l t'.
Proof. apply sum_from_ext. Qed.

Lemma sum_from_app init l1 l2 t : sum_from init (l1 ++ l2) t = sum_from (sum_from init l1 t) l2 t.
Proof. apply foldl_app. Qed.

Lemma length_up lo hi : lo <= hi -> Z.of_nat (length (up lo hi)) = hi - lo.
Proof. intros. unfold up. rewrite length_seqZ. lia. Qed.

Lemma up_snoc lo hi : lo <= hi -> up lo (hi + 1) = up lo hi ++ [hi].
Proof. intros. rewrite (up_app lo hi (hi + 1)), (up_cons hi (hi + 1)) by lia. by rewrite (up_nil (hi + 1)) by lia. Qed.

Lemma sum_snoc n t : 0 <= n -> sum (up 0 (n + 1)) t = (sum (up 0 n) t + t n)%E.
Proof. intros. unfold sum. by rewrite up_snoc, sum_from_app by lia. Qed.

(** Whether the triangle has an element. *)
Definition in_triangle is_upper i j : bool := if is_upper then i <=? j else j <=? i.

(** The matrix of which [a] gives a triangle. *)
Definition symmetric_of is_upper a i j : E :=
  if in_triangle is_upper i j then a [i; j] else a [j; i].
Definition hermitian_of is_upper a i j : E :=
  if i =? j then real_if_needed (a [i; i])
  else if in_triangle is_upper i j then a [i; j] else conj_if_needed (a [j; i]).

(** The elements of a triangular matrix that memory holds: the diagonal may be
    implicitly all ones. *)
Definition triangle_read is_upper is_unit n (js : list Z) : Prop :=
  match js with
  | [i; j] => 0 <= i < n /\ 0 <= j < n /\ (if is_upper then i <= j else j <= i) /\
      (is_unit = true -> i <> j)
  | _ => False
  end.

(** A product with an element of a triangular matrix: the diagonal may be
    all ones. *)
Definition triangular_term is_unit a (x : E) i j : E :=
  if is_unit && (j =? i) then x else (a [i; j] * x)%E.

(** ** Reading *)

Lemma input_shows M0 M v Q f w P g :
  input M0 v Q f w P -> stored (address w) P g M0 M -> shows M v Q f.
Proof.
  intros Hi Hs js Hj. pose proof (get_input _ _ _ _ _ _ _ _ js Hi Hs Hj) as He.
  unfold get in He. by destruct (element v js M); [injection He as ->|].
Qed.

Lemma same_shows M0 M v Q f w P `{forall ks, Decision (P ks)} old g js :
  input_same M0 v Q f w P -> writable M0 w P old -> stored (address w) P g M0 M ->
  Q js -> (P js -> g js = old js) -> shows M v (fun ks => ks = js) f.
Proof.
  intros Hi Hw Hs Hj Hold ks ->.
  pose proof (get_same M0 M v Q f w P old g js Hi Hw Hs Hj Hold) as He.
  unfold get in He. by destruct (element v js M); [injection He as ->|].
Qed.

Lemma shows_weaken M v (Q Q' : list Z -> Prop) f f' :
  shows M v Q f -> (forall js, Q' js -> Q js /\ f js = f' js) -> shows M v Q' f'.
Proof. intros Hs HQ js Hj. destruct (HQ js Hj) as [Hq <-]. by apply Hs. Qed.

Lemma stored_shows M0 M w P g :
  view_accessor w = DefaultAccessor -> stored (address w) P g M0 M -> shows M w P g.
Proof.
  intros Hd Hs js Hj. pose proof (get_output _ _ _ _ _ js Hd Hs Hj) as He.
  unfold get in He. by destruct (element w js M); [injection He as ->|].
Qed.

(** ** Loops that fill a vector, a matrix or a triangle, element by element *)

(** Functions of one index or two as functions of lists of indices. *)
Definition of_index (t : Z -> E) (js : list Z) : E := match js with [i] => t i | _ => zero end.
Definition of_pair (t : Z -> Z -> E) (js : list Z) : E := match js with [i; j] => t i j | _ => zero end.

(** A function with one value replaced. *)
Definition put (t : Z -> E) i (e : E) : Z -> E := fun k => if k =? i then e else t k.

Lemma put_ne t i e k : k <> i -> put t i e k = t k.
Proof. unfold put. intros. by zb. Qed.

Lemma put_eq t i e : put t i e i = e.
Proof. unfold put. by zb. Qed.

Lemma put_put t i e e' k : put (put t i e) i e' k = put t i e' k.
Proof. unfold put. by case_zb. Qed.

Lemma stored_index M0 M w n t t' :
  sizes w = [n] -> (forall k, 0 <= k < n -> t k = t' k) ->
  stored (address w) (within w) (of_index t) M0 M -> stored (address w) (within w) (of_index t') M0 M.
Proof.
  intros Hw Ht. apply stored_ext. intros js Hjs.
  apply (within_vector _ _ _ Hw), list_elem_of_fmap in Hjs as (k & -> & Hk%elem_of_up). by apply Ht.
Qed.

(** [w[k] = e] *)
Lemma assign_ok M0 M w n t k (e : E) :
  sizes w = [n] -> view_accessor w = DefaultAccessor -> distinct (address w) (within w) -> 0 <= k < n ->
  stored (address w) (within w) (of_index t) M0 M ->
  exists M', set w [k] e M = Some (tt, M') /\
    stored (address w) (within w) (of_index (put t k e)) M0 M'.
Proof.
  intros Hw Hd Hdis Hk Hst.
  destruct (set_output _ _ _ _ _ [k] e Hd Hdis ltac:(by eapply within1) Hst) as (M' & Hset & Hst').
  exists M'. split; [exact Hset|]. eapply stored_ext; [|exact Hst'].
  intros js Hjs. apply (within_vector _ _ _ Hw), list_elem_of_fmap in Hjs as (k' & -> & _).
  unfold put. simpl. destruct (Z.eqb_spec k' k) as [->|Hne].
  - apply fn_lookup_insert.
  - rewrite fn_lookup_insert_ne; [done|congruence].
Qed.

(** [w[k] = h(w[k])], at the end of a program or before its rest. *)
Lemma bump_ok M0 M w n t k (h : E -> E) :
  sizes w = [n] -> view_accessor w = DefaultAccessor -> distinct (address w) (within w) -> 0 <= k < n ->
  stored (address w) (within w) (of_index t) M0 M ->
  exists M', after (get w [k]) (fun e => set w [k] (h e)) M = Some (tt, M') /\
    (forall B (rest : unit -> prog (memory E) B),
      after (get w [k]) (fun e => after (set w [k] (h e)) rest) M = rest tt M') /\
    stored (address w) (within w) (of_index (put t k (h (t k)))) M0 M'.
Proof.
  intros Hw Hd Hdis Hk Hst. pose proof (stored_shows _ _ _ _ _ Hd Hst) as Hs.
  destruct (assign_ok _ _ _ _ _ k (h (t k)) Hw Hd Hdis Hk Hst) as (M' & Hset & Hst').
  pose proof (get_shown _ _ _ _ [k] Hs ltac:(by eapply within1)) as Hget.
  exists M'. split; [|split; [|done]]; intros; rewrite (prog_bind_ok _ _ _ _ _ Hget); [done|].
  by rewrite (prog_bind_ok _ _ _ _ _ Hset).
Qed.

(** The assignments may be in any order, and read elements not yet assigned. *)
Lemma fill_indices M0 w n (l : list Z) value t old :
  sizes w = [n] -> writable M0 w (within w) old -> (forall i, i ∈ l <-> 0 <= i < n) ->
  (forall done i rest M, l = done ++ i :: rest ->
    stored (address w) (within w) (of_index (fun k => if decide (k ∈ done) then t k else old [k])) M0 M ->
    value i M = Some (t i, M)) ->
  exists M', loop l (fun i => after (value i) (set w [i])) M0 = Some (tt, M') /\
    stored (address w) (within w) (of_index t) M0 M'.
Proof.
  intros Hw Hwr Hl Hv. pose proof (writable_stored _ _ _ _ Hwr) as Hst0. destruct Hwr as [Hd Hdis _].
  assert (forall i, i ∈ l -> within w [i]) as Hin by (intros i Hi; eapply within1; [done|by apply Hl]).
  destruct (accumulate_rule (fun done (_ : unit) M =>
    stored (address w) (within w) (of_index (fun k => if decide (k ∈ done) then t k else old [k])) M0 M)
    l (fun i _ => after (value i) (set w [i])) tt M0) as ([] & M' & Hloop & HM).
  - eapply stored_ext; [|exact Hst0]. intros js Hjs.
    apply (within_vector _ _ _ Hw), list_elem_of_fmap in Hjs as (k & -> & _). cbn [of_index].
    rewrite decide_False; [done|apply not_elem_of_nil].
  - intros done i rest [] M Hsplit HM. assert (i ∈ l) as Hi by (rewrite Hsplit; set_solver).
    rewrite (prog_bind_ok _ _ _ _ _ (Hv _ _ _ _ Hsplit HM)).
    destruct (set_output _ _ _ _ _ [i] (t i) Hd Hdis (Hin i Hi) HM) as (M2 & Hset & HM2).
    exists tt, M2. split; [done|]. eapply stored_ext; [|exact HM2]. intros js Hjs.
    apply (within_vector _ _ _ Hw), list_elem_of_fmap in Hjs as (k & -> & _). cbn [of_index].
    destruct (decide (k = i)) as [->|Hne].
    + rewrite fn_lookup_insert, decide_True; [done|set_solver].
    + rewrite fn_lookup_insert_ne by congruence. cbn [of_index].
      destruct (decide (k ∈ done)); [rewrite decide_True|rewrite decide_False]; try done; set_solver.
  - exists M'. split; [exact Hloop|]. eapply stored_index; [done| |exact HM]. intros k Hk.
    cbn beta. rewrite decide_True; [done|by apply Hl].
Qed.

Lemma fill_vector M0 w n body value t old :
  sizes w = [n] -> writable M0 w (within w) old ->
  (forall i M, body i M = after (value i) (set w [i]) M) ->
  (forall i cur M, 0 <= i < n -> stored (address w) (within w) cur M0 M -> cur [i] = old [i] ->
    value i M = Some (t i, M)) ->
  exists M', loop (up 0 n) body M0 = Some (tt, M') /\
    stored (address w) (within w) (of_index t) M0 M'.
Proof.
  intros Hw Hwr Hb Hv. apply (fill_vector_ok M0 w n body value old); [done..|].
  intros js cur M Hjs Hst Hold.
  apply (within_vector _ _ _ Hw), list_elem_of_fmap in Hjs as (i & -> & Hi%elem_of_up). by eapply Hv.
Qed.

Lemma fill_matrix_with M0 w m n value t old :
  sizes w = [m; n] -> writable M0 w (within w) old ->
  (forall i j cur M, 0 <= i < m -> 0 <= j < n -> stored (address w) (within w) cur M0 M ->
    cur [i; j] = old [i; j] -> value i j M = Some (t i j, M)) ->
  exists M', fill_matrix w value M0 = Some (tt, M') /\
    stored (address w) (within w) (of_pair t) M0 M'.
Proof.
  intros Hw Hwr Hv. apply (fill_matrix_ok M0 w m n value old); [done..|].
  intros js cur M Hjs Hst Hold.
  apply (within_matrix _ _ _ _ Hw), elem_of_pairs in Hjs as (i & j & -> & Hi%elem_of_up & Hj%elem_of_up).
  by eapply Hv.
Qed.

Lemma fill_triangle_with M0 w n is_upper value t old :
  sizes w = [n; n] -> writable M0 w (triangle is_upper n) old ->
  (forall i j cur M, 0 <= i < n -> 0 <= j < n -> in_triangle is_upper i j = true ->
    stored (address w) (triangle is_upper n) cur M0 M ->
    cur [i; j] = old [i; j] -> value i j M = Some (t i j, M)) ->
  exists M', fill_triangle is_upper w value M0 = Some (tt, M') /\
    stored (address w) (triangle is_upper n) (of_pair t) M0 M'.
Proof.
  intros Hw Hwr Hv. apply (fill_triangle_ok M0 w n is_upper value old); [done..|].
  intros js cur M Hjs Hst Hold. destruct js as [|i [|j [|]]]; try done.
  destruct Hjs as (Hi & Hj & Ho). eapply Hv; try done. unfold in_triangle. destruct is_upper; lia.
Qed.
End sums.

(** ** Running programs *)

Lemma triangle_in {n is_upper} i j :
  0 <= i < n -> 0 <= j < n -> in_triangle is_upper i j = true -> triangle is_upper n [i; j].
Proof. unfold in_triangle. intros. simpl. destruct is_upper; lia. Qed.

(** The index of a read. *)
Ltac solve_index :=
  first
    [ done
    | eapply within1; [eassumption|lia]
    | eapply within2; [eassumption|lia|lia]
    | match goal with |- triangle_read ?u _ _ _ =>
        simpl; destruct u; repeat split; first [lia | congruence | intros; subst; simpl in *; lia]
      end
    | match goal with |- triangle ?u _ _ => simpl; first [lia | destruct u; lia] end ].

(** One step: an extent, an element, or a step of the language. *)
Ltac run_step :=
  first
    [ match goal with
      | Hv : sizes ?v = ?ns |- context [after (size ?v ?r) ?k ?M] =>
          rewrite (prog_bind_ok _ _ _ _ _ (size_ok v ns r _ M Hv eq_refl))
      end
    | match goal with
      | Hs : shows ?M ?v ?Q ?f |- context [after (get ?v ?js) ?k ?M] =>
          rewrite (prog_bind_ok _ _ _ _ _ (get_shown M v Q f js Hs ltac:(solve_index)))
      | Hs : shows ?M ?v ?Q ?f |- context [get ?v ?js ?M] =>
          rewrite (get_shown M v Q f js Hs ltac:(solve_index))
      end
    | rewrite prog_ret_bind | rewrite after_assoc ].
Ltac run := repeat run_step.

(** Two programs that differ in where their steps are bracketed. *)
Ltac assoc := intros; repeat (rewrite !after_assoc; apply after_ext; intros); rewrite ?after_assoc; reflexivity.

(** What the inputs show when the output [w] holds what [Hst] says. *)
Ltac show_inputs Hst :=
  match type of Hst with
  | stored (address ?w) ?P ?g ?M0 ?M =>
      repeat match goal with
      | Hi : input M0 ?v ?Q ?f w P |- _ =>
          lazymatch goal with
          | _ : shows M v Q f |- _ => fail
          | _ => pose proof (input_shows _ _ _ _ _ _ _ _ Hi Hst)
          end
      end
  end.

(** A sum: its terms remain, and what comes after it. *)
Ltac sum_terms j Hj :=
  apply sum_ok; let s := fresh "s" in intros j s Hj; first [apply elem_of_up in Hj | idtac].
Tactic Notation "run_sum" ident(j) ident(Hj) :=
  first
    [ erewrite prog_bind_ok; [|sum_terms j Hj]
    | erewrite sum_ok; [|let s := fresh "s" in intros j s Hj; first [apply elem_of_up in Hj | idtac]] ].

(** The instance of [bump_ok] that the next write of the goal is. *)
Ltac run_bump :=
  lazymatch goal with
  | |- context [after (get ?y [?k]) _ ?M] =>
      lazymatch goal with
      | Hst : stored (address y) _ _ _ M, Hy : sizes y = [?n], Hd : view_accessor y = _,
        Hdis : distinct (address y) _ |- _ =>
          let M' := fresh "M" in let Hrun := fresh "Hrun" in let Hrest := fresh "Hrest" in
          let Hst' := fresh "Hst" in
          let Hb := fresh "Hb" in
          pose proof (fun e => bump_ok _ _ y n _ k e Hy Hd Hdis ltac:(lia) Hst) as Hb;
          edestruct Hb as (M' & Hrun & Hrest & Hst'); clear Hb;
          first [rewrite Hrest | exists M'; split; [exact Hrun|]]
      end
  end.

(** ** linalg: matrix-vector products

    Each element of the result is the sum over the row of the matrix, in the
    order of the indices; the matrix is given whole, or by a triangle. *)

Section products.
Context `{IndexType} {E : Type} `{Scalar E}.
Implicit Types (A x y z : view E) (a f g old : list Z -> E) (M : memory E) (i j m n : Z).
Implicit Types (is_upper is_unit : bool).

(** [A*x] for the matrix [a] and the vector [f]. *)
Definition times (a : Z -> Z -> E) f n i : E := sum (up 0 n) (fun j => a i j * f [j])%E.
Definition entries a i j : E := a [i; j].

Lemma matrix_vector_product_ok A x y m n a f old M :
  sizes A = [m; n] -> sizes x = [n] -> sizes y = [m] ->
  writable M y (within y) old -> input M A (within A) a y (within y) ->
  input M x (within x) f y (within y) ->
  assigns M y (within y) (of_index (times (entries a) f n))
    (matrix_vector_product A x y).
Proof.
  intros HA Hx Hy Hw HiA Hix. unfold assigns, matrix_vector_product. run.
  eapply (fill_vector M y m _ (fun i => n ← size A 1; accumulate (up 0 n) _ zero)); [done..| |].
  { intros. rewrite after_assoc. reflexivity. }
  intros i cur M' Hi Hst _. show_inputs Hst. run. run_sum j Hj; [done|]. by run.
Qed.

Lemma matrix_vector_product_update_ok A x y z m n a f e old M :
  sizes A = [m; n] -> sizes x = [n] -> sizes y = [m] -> sizes z = [m] ->
  writable M z (within z) old -> input M A (within A) a z (within z) ->
  input M x (within x) f z (within z) -> input_same M y (within y) e z (within z) ->
  assigns M z (within z) (of_index (fun i => e [i] + times (entries a) f n i)%E)
    (matrix_vector_product_update A x y z).
Proof.
  intros HA Hx Hy Hz Hw HiA Hix Hiy. unfold assigns, matrix_vector_product_update. run.
  eapply (fill_vector M z m _ (fun i => n ← size A 1; sum ← accumulate (up 0 n) _ zero;
    e ← get y [i]; give (e + sum)%E)); [done..| |].
  { intros. rewrite !after_assoc. apply after_ext. intros. rewrite !after_assoc. apply after_ext. intros.
    rewrite !after_assoc. reflexivity. }
  intros i cur M' Hi Hst Hold. show_inputs Hst.
  pose proof (same_shows _ _ _ _ _ _ _ _ _ [i] Hiy Hw Hst ltac:(solve_index) (fun _ => Hold)).
  run. run_sum j Hj; [by run|]. by run.
Qed.

(** ** A symmetric matrix, given by a triangle *)

Lemma symmetric_read A is_upper n a i j M :
  shows M A (triangle is_upper n) a -> 0 <= i < n -> 0 <= j < n ->
  (if i =? j then get A [i; i]
   else if is_upper then (if i <? j then get A [i; j] else get A [j; i])
   else (if i <? j then get A [j; i] else get A [i; j])) M = Some (symmetric_of is_upper a i j, M).
Proof.
  intros Hs Hi Hj. unfold symmetric_of, in_triangle.
  destruct (Z.eqb_spec i j) as [->|Hne].
  - run. by destruct is_upper; rewrite Z.leb_refl.
  - destruct is_upper, (Z.ltb_spec i j); [| | |]; run; do 2 f_equal; case_match; lia || done.
Qed.

Lemma hermitian_read A is_upper n a i j M :
  shows M A (triangle is_upper n) a -> 0 <= i < n -> 0 <= j < n ->
  (if i =? j then a ← get A [i; i]; give (real_if_needed a)
   else if is_upper then
     if i <? j then get A [i; j] else a ← get A [j; i]; give (conj_if_needed a)
   else
     if i <? j then a ← get A [j; i]; give (conj_if_needed a) else get A [i; j]) M
  = Some (hermitian_of is_upper a i j, M).
Proof.
  intros Hs Hi Hj. unfold hermitian_of, in_triangle.
  destruct (Z.eqb_spec i j) as [->|Hne]; [by run|].
  destruct is_upper, (Z.ltb_spec i j); run; do 2 f_equal; case_match; lia || done.
Qed.

(** Above the diagonal, and at the diagonal. *)
Lemma symmetric_read_above A is_upper n a i j M :
  shows M A (triangle is_upper n) a -> 0 <= i < j -> j < n ->
  (if is_upper then get A [i; j] else get A [j; i]) M = Some (symmetric_of is_upper a i j, M).
Proof.
  intros Hs Hi Hj. unfold symmetric_of, in_triangle. destruct is_upper; run; zb; done.
Qed.

Lemma symmetric_mirror is_upper a i j : i <> j -> symmetric_of is_upper a i j = symmetric_of is_upper a j i.
Proof. intros. unfold symmetric_of, in_triangle. destruct is_upper; repeat case_zb; done || lia. Qed.

Lemma symmetric_diagonal is_upper a i : symmetric_of is_upper a i i = a [i; i].
Proof. unfold symmetric_of. by destruct (in_triangle is_upper i i). Qed.

Lemma hermitian_diagonal is_upper a i : hermitian_of is_upper a i i = real_if_needed (a [i; i]).
Proof. unfold hermitian_of. by rewrite Z.eqb_refl. Qed.

Lemma symmetric_update_ok A x y z is_upper n a f e old M :
  sizes A = [n; n] -> sizes x = [n] -> sizes y = [n] -> sizes z = [n] ->
  writable M z (within z) old -> input M A (triangle is_upper n) a z (within z) ->
  input M x (within x) f z (within z) -> input_same M y (within y) e z (within z) ->
  assigns M z (within z) (of_index (fun i => e [i] + times (symmetric_of is_upper a) f n i)%E)
    (symmetric_matrix_vector_product_update is_upper A x y z).
Proof.
  intros HA Hx Hy Hz Hw HiA Hix Hiy. unfold assigns, symmetric_matrix_vector_product_update. run.
  eapply (fill_vector M z n _ (fun i => sum ← accumulate (up 0 n) _ zero;
    e ← get y [i]; give (e + sum)%E)); [done..| |].
  { intros. rewrite !after_assoc. apply after_ext. intros. by rewrite !after_assoc. }
  intros i cur M' Hi Hst Hold. show_inputs Hst.
  pose proof (same_shows _ _ _ _ _ _ _ _ _ [i] Hiy Hw Hst ltac:(solve_index) (fun _ => Hold)).
  run_sum j Hj; [by run|].
  rewrite (prog_bind_ok _ _ _ _ _ (symmetric_read _ _ _ _ i j _ ltac:(eassumption) Hi Hj)). by run.
Qed.

Lemma hermitian_update_ok A x y z is_upper n a f e old M :
  sizes A = [n; n] -> sizes x = [n] -> sizes y = [n] -> sizes z = [n] ->
  writable M z (within z) old -> input M A (triangle is_upper n) a z (within z) ->
  input M x (within x) f z (within z) -> input_same M y (within y) e z (within z) ->
  assigns M z (within z) (of_index (fun i => e [i] + times (hermitian_of is_upper a) f n i)%E)
    (hermitian_matrix_vector_product_update is_upper A x y z).
Proof.
  intros HA Hx Hy Hz Hw HiA Hix Hiy. unfold assigns, hermitian_matrix_vector_product_update. run.
  eapply (fill_vector M z n _ (fun i => sum ← accumulate (up 0 n) _ zero;
    e ← get y [i]; give (e + sum)%E)); [done..| |].
  { intros. rewrite !after_assoc. apply after_ext. intros. by rewrite !after_assoc. }
  intros i cur M' Hi Hst Hold. show_inputs Hst.
  pose proof (same_shows _ _ _ _ _ _ _ _ _ [i] Hiy Hw Hst ltac:(solve_index) (fun _ => Hold)).
  run_sum j Hj; [by run|].
  rewrite (prog_bind_ok _ _ _ _ _ (hermitian_read _ _ _ _ i j _ ltac:(eassumption) Hi Hj)). by run.
Qed.

(** ** Both triangles at once

    The products of a symmetric or a hermitian matrix read each element off the
    diagonal once, and add its product to two elements of the result.  Still
    each element of the result grows in the order of the indices. *)
Section scatter.
#[local] Set Default Proof Using "All".
Context (y : view E) (n : Z) (M0 : memory E) (t : Z -> Z -> E).
Context (body diagonal : Z -> prog (memory E) unit) (pair : Z -> Z -> prog (memory E) unit).
Context (Hy : sizes y = [n]).

#[local] Abbreviation holds r M := (stored (address y) (within y) (of_index r) M0 M).

Context (Hbody : forall i M, body i M = (diagonal i;; loop (up (i + 1) n) (pair i)) M).
Context (Hdiagonal : forall i r M, 0 <= i < n -> holds r M ->
  exists M', diagonal i M = Some (tt, M') /\ holds (put r i (r i + t i i)%E) M').
Context (Hpair : forall i j r M, 0 <= i < j -> j < n -> holds r M ->
  exists M', pair i j M = Some (tt, M') /\
    holds (put (put r i (r i + t i j)%E) j (r j + t j i)%E) M').

(** How many terms each element has after [i] rounds, and within round [i]. *)
Definition rounds i k : Z := if k <? i then n else i.
Definition within_round i j k : Z :=
  if k <? i then n else if k =? i then j else if k <? j then i + 1 else i.

Lemma scatter_round i M :
  0 <= i < n -> holds (fun k => sum (up 0 (rounds i k)) (t k)) M ->
  exists M', body i M = Some (tt, M') /\
    holds (fun k => sum (up 0 (rounds (i + 1) k)) (t k)) M'.
Proof.
  rewrite Hbody. intros Hi HM. destruct (Hdiagonal i _ M Hi HM) as (M1 & Hrun & HM1).
  rewrite (prog_bind_ok _ _ _ _ _ Hrun).
  destruct (accumulate_rule (fun done (_ : unit) M =>
    holds (fun k => sum (up 0 (within_round i (i + 1 + Z.of_nat (length done)) k)) (t k)) M)
    (up (i + 1) n) (fun j _ => pair i j) tt M1) as ([] & M' & Hloop & HM').
  - eapply stored_index; [done| |exact HM1]. intros k Hk. unfold put, within_round, rounds. simpl.
    destruct (Z.eqb_spec k i) as [->|]; [by rewrite !Z.ltb_irrefl, ?Z.eqb_refl, Z.add_0_r, sum_snoc by lia|].
    repeat case_zb; try done; lia.
  - intros done j rest [] M2 Hs HM2. destruct (up_split _ _ _ _ _ Hs) as (Hj & -> & _).
    destruct (Hpair i j _ M2 ltac:(lia) ltac:(lia) HM2) as (M3 & Hrun3 & HM3).
    exists tt, M3. split; [done|]. eapply stored_index; [done| |exact HM3].
    intros k Hk. rewrite length_app, Nat2Z.inj_add, length_up by lia.
    replace (i + 1 + (j - (i + 1))) with j by lia.
    replace (i + 1 + (j - (i + 1) + Z.of_nat (length [j]))) with (j + 1) by (simpl; lia). unfold put, within_round.
    destruct (Z.eqb_spec k j) as [->|]; [|destruct (Z.eqb_spec k i) as [->|]].
    + zb. by rewrite sum_snoc by lia.
    + zb. by rewrite sum_snoc by lia.
    + repeat case_zb; try done; lia.
  - exists M'. split; [exact Hloop|]. eapply stored_index; [done| |exact HM'].
    intros k Hk. rewrite length_up by lia. unfold within_round, rounds.
    repeat case_zb; try (f_equal; f_equal; lia); lia.
Qed.

Lemma scatter_ok M :
  0 <= n -> holds (fun _ => zero) M ->
  exists M', loop (up 0 n) body M = Some (tt, M') /\
    holds (fun i => sum (up 0 n) (t i)) M'.
Proof.
  intros Hn HM.
  destruct (accumulate_rule (fun done (_ : unit) M =>
    holds (fun k => sum (up 0 (rounds (Z.of_nat (length done)) k)) (t k)) M)
    (up 0 n) (fun i _ => body i) tt M) as ([] & M' & Hloop & HM').
  - eapply stored_index; [done| |exact HM]. intros k Hk. unfold rounds. simpl.
    by zb.
  - intros done i rest [] M2 Hs HM2. destruct (up_split _ _ _ _ _ Hs) as (Hi & -> & _).
    rewrite length_up, Z.sub_0_r in HM2 by lia.
    destruct (scatter_round i M2 Hi HM2) as (M3 & Hrun & HM3). exists tt, M3. split; [done|].
    by rewrite length_app, Nat2Z.inj_add, length_up, Z.sub_0_r by lia.
  - exists M'. split; [exact Hloop|]. eapply stored_index; [done| |exact HM'].
    intros k Hk. rewrite length_up by lia. unfold rounds. by zb.
Qed.
End scatter.

(** The vector of zeros, with which the product starts. *)
Lemma zeros_ok y n old M :
  sizes y = [n] -> writable M y (within y) old ->
  exists M', loop (up 0 n) (fun i => set y [i] zero) M = Some (tt, M') /\
    stored (address y) (within y) (of_index (fun _ => zero)) M M'.
Proof.
  intros Hy Hw. by apply (fill_vector M y n _ (fun _ => give zero) (fun _ => zero) old).
Qed.

Lemma symmetric_product_ok A x y is_upper n a f old M :
  sizes A = [n; n] -> sizes x = [n] -> sizes y = [n] -> 0 <= n ->
  writable M y (within y) old -> input M A (triangle is_upper n) a y (within y) ->
  input M x (within x) f y (within y) ->
  assigns M y (within y) (of_index (times (symmetric_of is_upper a) f n))
    (symmetric_matrix_vector_product is_upper A x y).
Proof.
  intros HA Hx Hy Hn Hw HiA Hix. unfold assigns, symmetric_matrix_vector_product. run.
  destruct (zeros_ok y n old M Hy Hw) as (M0 & Hrun & Hst0).
  rewrite (prog_bind_ok _ _ _ _ _ Hrun). destruct Hw as [Hd Hdis _].
  eapply (scatter_ok y n M (fun i j => symmetric_of is_upper a i j * f [j])%E _
    (fun i => a ← get A [i; i]; b ← get x [i]; e ← get y [i]; set y [i] (e + a * b)%E)); [done|assoc| | |done|done].
  - intros i r M1 Hi Hst. show_inputs Hst. run. run_bump. by rewrite symmetric_diagonal.
  - intros i j r M1 Hi Hj Hst. show_inputs Hst. cbn beta.
    rewrite (prog_bind_ok _ _ _ _ _ (symmetric_read_above A is_upper n a i j _ ltac:(eassumption) ltac:(lia) Hj)).
    run. run_bump. show_inputs Hst1. run. run_bump.
    rewrite put_ne in Hst2 by lia. by rewrite (symmetric_mirror _ _ j) by lia.
Qed.

Lemma hermitian_product_ok A x y is_upper n a f old M :
  sizes A = [n; n] -> sizes x = [n] -> sizes y = [n] -> 0 <= n ->
  writable M y (within y) old -> input M A (triangle is_upper n) a y (within y) ->
  input M x (within x) f y (within y) ->
  assigns M y (within y) (of_index (times (hermitian_of is_upper a) f n))
    (hermitian_matrix_vector_product is_upper A x y).
Proof.
  intros HA Hx Hy Hn Hw HiA Hix. unfold assigns, hermitian_matrix_vector_product. run.
  destruct (zeros_ok y n old M Hy Hw) as (M0 & Hrun & Hst0).
  rewrite (prog_bind_ok _ _ _ _ _ Hrun). destruct Hw as [Hd Hdis _].
  eapply (scatter_ok y n M (fun i j => hermitian_of is_upper a i j * f [j])%E _
    (fun i => a ← get A [i; i]; b ← get x [i]; e ← get y [i];
      set y [i] (e + real_if_needed a * b)%E)); [done|assoc| | |done|done].
  - intros i r M1 Hi Hst. show_inputs Hst. run. run_bump.
    by rewrite hermitian_diagonal.
  - intros i j r M1 Hi Hj Hst. show_inputs Hst. cbn beta. destruct is_upper.
    all: run; run_bump; show_inputs Hst1; run; run_bump.
    all: rewrite put_ne in Hst2 by lia; unfold hermitian_of, in_triangle; by zb.
Qed.

(** ** Triangular matrices *)

(** The product of row [i] of a triangular matrix and the vector [f]. *)
Definition triangular_times is_upper is_unit a f n i : E :=
  sum (if is_upper then up i n else up 0 (i + 1)) (fun j => triangular_term is_unit a (f [j]) i j).

Lemma triangular_row_ok is_upper is_unit A x n i a f M :
  0 <= i < n -> shows M A (triangle_read is_upper is_unit n) a ->
  shows M x (fun js => exists j, js = [j] /\ 0 <= j < n /\ j ∈ triangle_range is_upper i n) f ->
  triangular_row is_upper is_unit A x n i M = Some (triangular_times is_upper is_unit a f n i, M).
Proof.
  intros Hi HA Hx. unfold triangular_row, triangular_times. fold (triangle_range is_upper i n).
  apply sum_ok. intros j s Hj.
  pose proof Hj as [Hjn Ho]%elem_of_triangle_range; [|done].
  assert (get x [j] M = Some (f [j], M)) as Hxj by (eapply get_shown; [exact Hx|by exists j]).
  unfold triangular_term. destruct (is_unit && (j =? i)) eqn:Hu.
  - by rewrite (prog_bind_ok _ _ _ _ _ Hxj).
  - run. by rewrite (prog_bind_ok _ _ _ _ _ Hxj).
Qed.

Lemma triangular_product_to_ok A x y is_upper is_unit n a f old M :
  sizes A = [n; n] -> sizes x = [n] -> sizes y = [n] ->
  writable M y (within y) old -> input M A (triangle_read is_upper is_unit n) a y (within y) ->
  input M x (within x) f y (within y) ->
  assigns M y (within y) (of_index (triangular_times is_upper is_unit a f n))
    (triangular_matrix_vector_product_to is_upper is_unit A x y).
Proof.
  intros HA Hx Hy Hw HiA Hix. unfold assigns, triangular_matrix_vector_product_to. run.
  eapply (fill_vector M y n _ (triangular_row is_upper is_unit A x n)); [done..|].
  intros i cur M' Hi Hst _. show_inputs Hst. apply triangular_row_ok; [done..|].
  eapply shows_weaken; [eassumption|]. intros js (j & -> & Hj & _). split; [solve_index|done].
Qed.

Lemma triangular_product_ok A x is_upper is_unit n a f M :
  sizes A = [n; n] -> sizes x = [n] -> writable M x (within x) f ->
  input M A (triangle_read is_upper is_unit n) a x (within x) ->
  assigns M x (within x) (of_index (triangular_times is_upper is_unit a f n))
    (triangular_matrix_vector_product is_upper is_unit A x).
Proof.
  intros HA Hx Hw HiA. unfold assigns, triangular_matrix_vector_product. run. cbn zeta.
  set (l := if is_upper then up 0 n else down n 0).
  destruct (fill_indices M x n l (triangular_row is_upper is_unit A x n)
    (triangular_times is_upper is_unit a f n) f) as (M' & Hrun & Hst); [done..| | |].
  - intros i. unfold l. destruct is_upper; [apply elem_of_up|apply elem_of_down].
  - intros done i rest M' Hl Hst. show_inputs Hst.
    assert (0 <= i < n /\ forall j, j ∈ triangle_range is_upper i n -> j ∉ done) as [Hi Hd].
    { unfold l in Hl. unfold triangle_range. destruct is_upper.
      - destruct (up_split _ _ _ _ _ Hl) as (Hi & -> & _). split; [done|]. intros j. rewrite !elem_of_up. lia.
      - destruct (down_split _ _ _ _ _ Hl) as (Hi & -> & _). split; [done|].
        intros j. rewrite elem_of_up, elem_of_down. lia. }
    apply triangular_row_ok; [done..|].
    eapply shows_weaken; [by eapply stored_shows; [by apply wr_default in Hw|]|].
    intros js (j & -> & Hj & Hr). split; [solve_index|]. simpl. by rewrite decide_False by auto.
  - exists M'. split; [|done]. rewrite <- Hrun. unfold l. by destruct is_upper.
Qed.
End products.
