(* ===== verification/LinalgSolve.v ===== *)
(** * linalg: triangular systems

    What the solvers leave in the output solves the system of equations, when
    the arithmetic is exact: subtraction undoes addition, and division by the
    elements of the diagonal undoes multiplication.  A column of a matrix is a
    vector with a layout of its own, so that the solver for many right-hand
    sides is the one for vectors. *)
From stdpp Require Import functions.
From S2P Require Import Prelude Extents Layouts LinalgViews LinalgLevel2 LinalgLevel3 LinalgSpec.
From S2P Require Import LinalgProducts.

#[local] Open Scope Z_scope.
#[local] Open Scope prog_scope.

(** The columns of row [i] off the diagonal. *)
Definition strict_range (is_upper : bool) (i n : Z) : list Z :=
  if is_upper then up (i + 1) n else up 0 i.

Section solve.
Context `{IndexType} {E : Type} `{Scalar E}.
Implicit Types (A B x : view E) (a f : list Z -> E) (M : memory E) (i j n : Z) (t : Z -> E).
Implicit Types (is_upper is_unit : bool).

(** What one row gives for the values [t] of the other unknowns. *)
Definition reduced a t (b : E) (l : list Z) i : E := foldl (fun e j => e - a [i; j] * t j)%E b l.
Definition solved is_upper is_unit a f t n i : E :=
  let e := reduced a t (f [i]) (strict_range is_upper i n) i in
  if is_unit then e else (e / a [i; i])%E.

Lemma reduced_ext a t t' b l i : (forall j, j ∈ l -> t j = t' j) -> reduced a t b l i = reduced a t' b l i.
Proof.
  unfold reduced. revert b. induction l as [|j l IH]; intros b Ht; simpl; [done|].
  rewrite Ht by apply list_elem_of_here. apply IH. intros. apply Ht. by apply list_elem_of_further.
Qed.

Lemma reduce_row_ok A x is_upper is_unit n a t i l M0 M :
  sizes x = [n] -> view_accessor x = DefaultAccessor -> distinct (address x) (within x) ->
  0 <= i < n -> (forall j, j ∈ l -> 0 <= j < n /\ j <> i /\ in_triangle is_upper i j = true) ->
  input M0 A (triangle_read is_upper is_unit n) a x (within x) ->
  stored (address x) (within x) (of_index t) M0 M ->
  exists M', loop l (fun j =>
      a ← get A [i; j]; b ← get x [j]; e ← get x [i]; set x [i] (e - a * b)%E) M = Some (tt, M') /\
    stored (address x) (within x) (of_index (put t i (reduced a t (t i) l i))) M0 M'.
Proof.
  intros Hx Hd Hdis Hi Hl HiA Hst.
  destruct (accumulate_rule (fun done (_ : unit) M =>
    stored (address x) (within x) (of_index (put t i (reduced a t (t i) done i))) M0 M)
    l (fun j _ => a ← get A [i; j]; b ← get x [j]; e ← get x [i]; set x [i] (e - a * b)%E) tt M)
    as ([] & M' & Hrun & Hst').
  - eapply stored_index; [done| |exact Hst]. intros k _. unfold put. simpl. case_zb; congruence.
  - intros done j rest [] M1 Hs Hst1. show_inputs Hst1.
    destruct (Hl j ltac:(rewrite Hs; set_solver)) as (Hj & Hne & Hin). unfold in_triangle in Hin.
    pose proof (stored_shows _ _ _ _ _ Hd Hst1) as Hsx. run. cbn [of_index].
    rewrite put_eq, put_ne by done.
    destruct (assign_ok _ _ x n _ i (reduced a t (t i) done i - a [i; j] * t j)%E Hx Hd Hdis Hi Hst1) as (M2 & Hset & Hst2).
    exists tt, M2. split; [exact Hset|]. eapply stored_index; [done| |exact Hst2].
    intros k _. rewrite put_put. unfold reduced. by rewrite foldl_snoc.
  - by exists M'.
Qed.

Lemma elem_of_strict_range is_upper i n j :
  0 <= i < n -> j ∈ strict_range is_upper i n -> 0 <= j < n /\ j <> i /\ in_triangle is_upper i j = true.
Proof. unfold strict_range, in_triangle. intros Hi. destruct is_upper; rewrite elem_of_up; lia. Qed.

(** The order in which the unknowns are found. *)
Definition order is_upper n : list Z := if is_upper then down n 0 else up 0 n.

Lemma order_split is_upper n done i rest :
  order is_upper n = done ++ i :: rest ->
  0 <= i < n /\ i ∉ done /\
  forall k j, k ∈ done \/ k = i -> j ∈ strict_range is_upper k n -> j ∈ done.
Proof.
  unfold order, strict_range. intros Hs. destruct is_upper.
  - destruct (down_split _ _ _ _ _ Hs) as (Hi & -> & _). split; [done|]. rewrite elem_of_down.
    split; [lia|]. intros k j. rewrite elem_of_up, !elem_of_down. lia.
  - destruct (up_split _ _ _ _ _ Hs) as (Hi & -> & _). split; [done|]. rewrite elem_of_up.
    split; [lia|]. intros k j. rewrite !elem_of_up. lia.
Qed.

Lemma solved_put is_upper is_unit a f t e n i k :
  i ∉ strict_range is_upper k n ->
  solved is_upper is_unit a f (put t i e) n k = solved is_upper is_unit a f t n k.
Proof.
  intros Hi. unfold solved.
  rewrite (reduced_ext a (put t i e) t) by (intros j Hj; apply put_ne; intros ->; done). done.
Qed.

(** One row of the solver. *)
Lemma solve_row_ok A x is_upper is_unit n a f t i M0 M :
  sizes x = [n] -> view_accessor x = DefaultAccessor -> distinct (address x) (within x) ->
  0 <= i < n -> input M0 A (triangle_read is_upper is_unit n) a x (within x) ->
  stored (address x) (within x) (of_index t) M0 M -> t i = f [i] ->
  exists M', (loop (if is_upper then up (i + 1) n else up 0 i) (fun j =>
      a ← get A [i; j]; b ← get x [j]; e ← get x [i]; set x [i] (e - a * b)%E);;
    if negb is_unit then a ← get A [i; i]; e ← get x [i]; set x [i] (e / a)%E else give tt) M
    = Some (tt, M') /\
    stored (address x) (within x) (of_index (put t i (solved is_upper is_unit a f t n i))) M0 M'.
Proof.
  intros Hx Hd Hdis Hi HiA Hst Hti.
  destruct (reduce_row_ok A x is_upper is_unit n a t i (strict_range is_upper i n) M0 M)
    as (M1 & Hrun & Hst1); try done; [intros; by apply elem_of_strict_range|].
  fold (strict_range is_upper i n). rewrite (prog_bind_ok _ _ _ _ _ Hrun).
  unfold solved. rewrite <- Hti. destruct is_unit; simpl; [by exists M1|].
  show_inputs Hst1. run. run_bump.
  eapply stored_index; [done| |exact Hst0]. intros k _. by rewrite put_put, put_eq.
Qed.

Lemma triangular_solve_ok A x is_upper is_unit n a f M :
  sizes A = [n; n] -> sizes x = [n] -> writable M x (within x) f ->
  input M A (triangle_read is_upper is_unit n) a x (within x) ->
  exists t M', triangular_matrix_vector_solve is_upper is_unit A x M = Some (tt, M') /\
    stored (address x) (within x) (of_index t) M M' /\
    (forall i, 0 <= i < n -> t i = solved is_upper is_unit a f t n i).
Proof.
  intros HA Hx Hw HiA. unfold triangular_matrix_vector_solve. run. cbn zeta.
  pose proof (writable_stored _ _ _ _ Hw) as Hst0. destruct Hw as [Hd Hdis _].
  destruct (accumulate_rule (fun done (_ : unit) M' => exists t,
    stored (address x) (within x) (of_index t) M M' /\
    (forall k, k ∈ done -> t k = solved is_upper is_unit a f t n k) /\
    (forall k, k ∉ done -> t k = f [k])) (order is_upper n) (fun i _ =>
      loop (if is_upper then up (i + 1) n else up 0 i) (fun j =>
        a ← get A [i; j]; b ← get x [j]; e ← get x [i]; set x [i] (e - a * b)%E);;
      if negb is_unit then a ← get A [i; i]; e ← get x [i]; set x [i] (e / a)%E else give tt) tt M)
    as ([] & M' & Hrun & t & Hst & Hsolved & _).
  - exists (fun k => f [k]). split; [|split; [|done]].
    + eapply stored_ext; [|exact Hst0]. intros js Hjs.
      by apply (within_vector _ _ _ Hx), list_elem_of_fmap in Hjs as (k & -> & _).
    + intros k Hk. by apply not_elem_of_nil in Hk.
  - intros done i rest [] M1 Hs (t & Hst & Hsolved & Hrest).
    destruct (order_split _ _ _ _ _ Hs) as (Hi & Hni & Hdone).
    destruct (solve_row_ok A x is_upper is_unit n a f t i M M1) as (M2 & Hrun & Hst2); try done;
      [by apply Hrest|].
    exists tt, M2. split; [exact Hrun|]. eexists. split; [exact Hst2|]. split.
    + intros k Hk. assert (k ∈ done \/ k = i) as Hk' by set_solver.
      rewrite solved_put by (intros Hin; by apply Hni, (Hdone k i)).
      destruct (decide (k = i)) as [->|Hne]; [by rewrite put_eq|]. rewrite put_ne by done.
      apply Hsolved. tauto.
    + intros k Hk. rewrite put_ne by set_solver. apply Hrest. set_solver.
  - exists t, M'. split; [|split; [done|]].
    + rewrite <- Hrun. unfold order. by destruct is_upper.
    + intros i Hi. apply Hsolved. unfold order. destruct is_upper; [by apply elem_of_down|by apply elem_of_up].
Qed.

(** ** Many right-hand sides *)

(** Column [j] of a matrix. *)
Definition column B j : view E :=
  View (view_handle B)
    (Custom (take 1 (view_extents B)) (fun js => layout_call (view_layout B) (js ++ [j])))
    (view_accessor B).

Lemma column_sizes B n m j : sizes B = [n; m] -> sizes (column B j) = [n].
Proof.
  intros HB. change (sizes (column B j)) with (dim_extent <$> take 1 (view_extents B)).
  unfold sizes in HB. by rewrite fmap_take, HB.
Qed.

Lemma column_within B n m j js :
  sizes B = [n; m] -> 0 <= j < m -> within (column B j) js -> within B (js ++ [j]).
Proof.
  intros HB Hj Hjs. apply (within_vector _ n) in Hjs; [|by eapply column_sizes].
  apply list_elem_of_fmap in Hjs as (k & -> & Hk%elem_of_up). by eapply within2.
Qed.

Lemma column_writable M0 M B n m j g :
  sizes B = [n; m] -> 0 <= j < m -> view_accessor B = DefaultAccessor ->
  distinct (address B) (within B) -> stored (address B) (within B) g M0 M ->
  writable M (column B j) (within (column B j)) (fun js => g (js ++ [j])).
Proof.
  intros HB Hj Hd Hdis Hst. split; [done| |].
  - intros k1 k2 H1 H2 E1.
    apply (app_inj_tail k1 k2 j j), Hdis; [by eapply column_within..|exact E1].
  - intros js Hjs. apply (stored_shows _ _ _ _ _ Hd Hst (js ++ [j])). by eapply column_within.
Qed.

Lemma column_input M0 M A B n m j g Q a :
  sizes B = [n; m] -> 0 <= j < m -> stored (address B) (within B) g M0 M ->
  input M0 A Q a B (within B) -> input M A Q a (column B j) (within (column B j)).
Proof.
  intros HB Hj Hst HiA. split.
  - by eapply input_shows.
  - intros js ks Hjs Hks. apply (in_apart _ _ _ _ _ _ HiA js (ks ++ [j]) Hjs). by eapply column_within.
Qed.

Lemma column_stored M0 M1 M2 B n m j (g : Z -> Z -> E) t :
  sizes B = [n; m] -> 0 <= j < m -> distinct (address B) (within B) ->
  stored (address B) (within B) (of_pair g) M0 M1 ->
  stored (address (column B j)) (within (column B j)) (of_index t) M1 M2 ->
  stored (address B) (within B) (of_pair (fun i k => if k =? j then t i else g i k)) M0 M2.
Proof.
  intros HB Hj Hdis [Hg HM1] [Ht HM2]. split.
  - intros js Hjs. pose proof Hjs as Hjs'.
    apply (within_matrix _ _ _ _ HB), elem_of_pairs in Hjs' as (i & k & -> & Hi%elem_of_up & Hk%elem_of_up).
    simpl. case_zb.
    + subst k. apply (Ht [i]). eapply within1; [by eapply column_sizes|done].
    + destruct (Hg _ Hjs) as (b & Hb & Hm). exists b. split; [done|]. rewrite HM2; [exact Hm|].
      intros ks Hks Ec. assert ([i; k] = ks ++ [j]) as Hc.
      { apply Hdis; [done|by eapply column_within|]. by rewrite Hb, <- Ec. }
      by apply (app_inj_tail [i] ks k j) in Hc as [_ ?].
  - intros b Hb. rewrite HM2; [apply HM1, Hb|].
    intros ks Hks. apply (Hb (ks ++ [j])). by eapply column_within.
Qed.

Lemma left_solve_ok A B is_upper is_unit n m a f M :
  sizes A = [n; n] -> sizes B = [n; m] -> writable M B (within B) f ->
  input M A (triangle_read is_upper is_unit n) a B (within B) ->
  exists (t : Z -> Z -> E) M', triangular_matrix_matrix_left_solve is_upper is_unit A B M = Some (tt, M') /\
    stored (address B) (within B) (of_pair t) M M' /\
    (forall i j, 0 <= i < n -> 0 <= j < m ->
      t i j = solved is_upper is_unit a (of_index (fun k => f [k; j])) (fun k => t k j) n i).
Proof.
  intros HA HB Hw HiA. unfold triangular_matrix_matrix_left_solve. run.
  pose proof (writable_stored _ _ _ _ Hw) as Hst0. destruct Hw as [Hd Hdis _].
  edestruct (accumulate_rule (fun done (_ : unit) M' => exists t : Z -> Z -> E,
    stored (address B) (within B) (of_pair t) M M' /\
    (forall j, j ∈ done -> forall i, 0 <= i < n ->
      t i j = solved is_upper is_unit a (of_index (fun k => f [k; j])) (fun k => t k j) n i) /\
    (forall i j, j ∉ done -> t i j = f [i; j])) (up 0 m)) as ([] & M' & Hrun & t & Hst & Hsolved & _);
    [| |exists t, M'; split; [exact Hrun|]].
  - exists (fun i j => f [i; j]). split; [|split; [|done]].
    + eapply stored_ext; [|exact Hst0]. intros js Hjs.
      by apply (within_matrix _ _ _ _ HB), elem_of_pairs in Hjs as (i & k & -> & _).
    + intros j Hj. by apply not_elem_of_nil in Hj.
  - intros done j rest [] M1 Hs (t & Hst & Hsolved & Hrest).
    destruct (up_split _ _ _ _ _ Hs) as (Hj & Hdone & _).
    assert (j ∉ done) as Hnj by (rewrite Hdone, elem_of_up; lia).
    destruct (triangular_solve_ok A (column B j) is_upper is_unit n a
      (fun js => of_pair t (js ++ [j])) M1) as (tj & M2 & Hrun & Hst2 & Hsj);
      [done|by eapply column_sizes|by eapply column_writable|by eapply column_input|].
    exists tt, M2. split.
    + rewrite <- Hrun. unfold triangular_matrix_vector_solve. by run.
    + exists (fun i k => if k =? j then tj i else t i k). split; [by eapply column_stored|]. split.
      * intros k Hk i Hi. destruct (Z.eqb_spec k j) as [->|Hne].
        -- rewrite Hsj by done. unfold solved. simpl. by rewrite Hrest.
        -- apply Hsolved; [set_solver|done].
      * intros i k Hk. case_zb; [set_solver|]. apply Hrest. set_solver.
  - split; [done|]. intros i j Hi Hj. apply Hsolved; [by apply elem_of_up|done].
Qed.
End solve.

(** ** Exact arithmetic *)

(** The laws of addition and subtraction that floating-point numbers break. *)
Class ExactScalar (E : Type) `{Scalar E} : Prop := {
  add_assoc (x y z : E) : (x + (y + z) = x + y + z)%E;
  add_comm (x y : E) : (x + y = y + x)%E;
  zero_add (x : E) : (zero + x = x)%E;
  sub_add (x y : E) : (x - y + y = x)%E;
}.

Section exact.
#[local] Set Default Proof Using "All".
Context `{IndexType} {E : Type} `{Scalar E} `{!ExactScalar E}.
Implicit Types (a f : list Z -> E) (i j n : Z) (t : Z -> E) (is_upper is_unit : bool).

Lemma sum_from_sum (init : E) l t : sum_from init l t = (init + sum l t)%E.
Proof.
  revert init. induction l as [|i l IH]; intros init; unfold sum.
  - unfold sum_from. simpl. by rewrite add_comm, zero_add.
  - change (sum_from (init + t i)%E l t = (init + sum_from (zero + t i)%E l t)%E).
    by rewrite !IH, zero_add, add_assoc.
Qed.

Lemma reduced_sum a t (b : E) l i : (reduced a t b l i + sum l (fun j => a [i; j] * t j) = b)%E.
Proof.
  revert b. induction l as [|j l IH]; intros b.
  - unfold reduced, sum, sum_from. simpl. by rewrite add_comm, zero_add.
  - change (reduced a t b (j :: l) i) with (reduced a t (b - a [i; j] * t j)%E l i).
    change (sum (j :: l) ?h) with (sum_from (zero + h j)%E l h).
    rewrite sum_from_sum, zero_add.
    rewrite (add_comm (a [i; j] * t j)%E), add_assoc, IH. apply sub_add.
Qed.

(** A solution solves the system. *)
Lemma solved_times is_upper is_unit a f t n i :
  0 <= i < n -> (is_unit = false -> forall e, (a [i; i] * (e / a [i; i]) = e)%E) ->
  t i = solved is_upper is_unit a f t n i ->
  triangular_times is_upper is_unit a (of_index t) n i = f [i].
Proof.
  intros Hi Hdiv Ht. set (S := strict_range is_upper i n).
  pose proof (reduced_sum a t (f [i]) S i) as Hsum.
  assert (triangular_term is_unit a (t i) i i = reduced a t (f [i]) S i) as Hdiag.
  { unfold triangular_term. rewrite Z.eqb_refl, andb_true_r, Ht. unfold solved. fold S.
    destruct is_unit; [done|]. by rewrite Hdiv. }
  assert (sum S (fun j => triangular_term is_unit a (t j) i j) = sum S (fun j => a [i; j] * t j)%E) as HS.
  { apply sum_ext. intros j Hj. destruct (elem_of_strict_range is_upper i n j Hi Hj) as (_ & Hne & _).
    unfold triangular_term. zb. by rewrite andb_false_r. }
  rewrite <- Hsum, <- HS, <- Hdiag.
  unfold triangular_times, S, strict_range. destruct is_upper.
  - rewrite (up_cons i n) by lia.
    change (sum (i :: ?l) ?h) with (sum_from (zero + h i)%E l h). by rewrite sum_from_sum, zero_add.
  - rewrite up_snoc by lia. unfold sum at 1. rewrite sum_from_app. apply add_comm.
Qed.
End exact.
