(* ===== verification/LinalgMatrices.v ===== *)
(** * linalg: matrix products and updates

    The products and the updates of low rank fill a matrix or a triangle,
    element by element; the input [E] of an update may be the output itself.
    The products with a triangular matrix in place work on a copy, whose size
    must fit. *)
From S2P Require Import Prelude Extents Layouts LinalgViews LinalgLevel2 LinalgLevel3 LinalgSpec.
From S2P Require Import LinalgProducts.

#[local] Open Scope Z_scope.
#[local] Open Scope prog_scope.

Section matrices.
Context `{IndexType} {E : Type} `{Scalar E}.
Implicit Types (A B C Em x y : view E) (a b c e f g old : list Z -> E) (M : memory E).
Implicit Types (i j l m n k : Z) (is_upper is_unit : bool) (alpha : E).

(** The element of a product of matrices. *)
Definition product_entry (a : Z -> Z -> E) b k i j : E := sum (up 0 k) (fun l => a i l * b [l; j])%E.

Lemma matrix_product_ok A B C m k n a b old M :
  sizes A = [m; k] -> sizes B = [k; n] -> sizes C = [m; n] ->
  writable M C (within C) old -> input M A (within A) a C (within C) ->
  input M B (within B) b C (within C) ->
  assigns M C (within C) (of_pair (product_entry (entries a) b k)) (matrix_product A B C).
Proof.
  intros HA HB HC Hw HiA HiB. unfold assigns, matrix_product. run.
  eapply fill_matrix_with; [done..|]. intros i j cur M' Hi Hj Hst _. show_inputs Hst.
  run_sum l Hl; [done|]. by run.
Qed.

Lemma matrix_product_update_ok A B Em C m k n a b e old M :
  sizes A = [m; k] -> sizes B = [k; n] -> sizes Em = [m; n] -> sizes C = [m; n] ->
  writable M C (within C) old -> input M A (within A) a C (within C) ->
  input M B (within B) b C (within C) -> input_same M Em (within Em) e C (within C) ->
  assigns M C (within C) (of_pair (fun i j => e [i; j] + product_entry (entries a) b k i j)%E)
    (matrix_product_update A B Em C).
Proof.
  intros HA HB HE HC Hw HiA HiB HiE. unfold assigns, matrix_product_update. run.
  eapply fill_matrix_with; [done..|]. intros i j cur M' Hi Hj Hst Hold. show_inputs Hst.
  pose proof (same_shows _ _ _ _ _ _ _ _ _ [i; j] HiE Hw Hst ltac:(solve_index) (fun _ => Hold)).
  run_sum l Hl; [by run|]. by run.
Qed.

Lemma symmetric_product_matrix_ok A B C is_upper m n a b old M :
  sizes A = [m; m] -> sizes B = [m; n] -> sizes C = [m; n] ->
  writable M C (within C) old -> input M A (triangle is_upper m) a C (within C) ->
  input M B (within B) b C (within C) ->
  assigns M C (within C) (of_pair (product_entry (symmetric_of is_upper a) b m))
    (symmetric_matrix_product is_upper A B C).
Proof.
  intros HA HB HC Hw HiA HiB. unfold assigns, symmetric_matrix_product. run.
  eapply fill_matrix_with; [done..|]. intros i j cur M' Hi Hj Hst _. show_inputs Hst.
  run_sum l Hl; [done|]. unfold symmetric_of, in_triangle.
  destruct (Z.eqb_spec i l) as [->|Hne]; [run; by destruct is_upper; zb|].
  destruct is_upper; [destruct (Z.ltb_spec i l)|destruct (Z.ltb_spec l i)]; run; by zb.
Qed.

Lemma hermitian_product_matrix_ok A B C is_upper m n a b old M :
  sizes A = [m; m] -> sizes B = [m; n] -> sizes C = [m; n] ->
  writable M C (within C) old -> input M A (triangle is_upper m) a C (within C) ->
  input M B (within B) b C (within C) ->
  assigns M C (within C) (of_pair (product_entry (hermitian_of is_upper a) b m))
    (hermitian_matrix_product is_upper A B C).
Proof.
  intros HA HB HC Hw HiA HiB. unfold assigns, hermitian_matrix_product.
  eapply fill_matrix_with; [done..|]. intros i j cur M' Hi Hj Hst _. show_inputs Hst. run.
  run_sum l Hl; [done|]. unfold hermitian_of, in_triangle.
  destruct (Z.eqb_spec i l) as [->|Hne]; [run; by zb|].
  destruct is_upper; [destruct (Z.ltb_spec i l)|destruct (Z.ltb_spec l i)]; run; by zb.
Qed.

(** ** Updates of low rank *)

#[local] Ltac update_matrix HiE Hw :=
  unfold assigns; eapply fill_matrix_with; [done..|];
  intros i j cur M' Hi Hj Hst Hold; show_inputs Hst;
  pose proof (same_shows _ _ _ _ _ _ _ _ _ [i; j] HiE Hw Hst ltac:(solve_index) (fun _ => Hold));
  by run.

Lemma rank_1_ok x y Em A m n f g e old M :
  sizes x = [m] -> sizes y = [n] -> sizes Em = [m; n] -> sizes A = [m; n] ->
  writable M A (within A) old -> input M x (within x) f A (within A) ->
  input M y (within y) g A (within A) -> input_same M Em (within Em) e A (within A) ->
  assigns M A (within A) (of_pair (fun i j => f [i] * g [j])%E) (matrix_rank_1_update x y A) /\
  assigns M A (within A) (of_pair (fun i j => e [i; j] + f [i] * g [j])%E)
    (matrix_rank_1_update_from x y Em A) /\
  assigns M A (within A) (of_pair (fun i j => f [i] * conj_if_needed (g [j]))%E)
    (matrix_rank_1_update_c x y A) /\
  assigns M A (within A) (of_pair (fun i j => e [i; j] + f [i] * conj_if_needed (g [j]))%E)
    (matrix_rank_1_update_c_from x y Em A).
Proof. intros Hx Hy HE HA Hw Hix Hiy HiE. repeat split; update_matrix HiE Hw. Qed.

#[local] Ltac update_triangle HiE Hw :=
  unfold assigns; eapply fill_triangle_with; [done..|];
  intros i j cur M' Hi Hj Ho Hst Hold; show_inputs Hst;
  pose proof (triangle_in i j Hi Hj Ho) as Hin;
  pose proof (same_shows _ _ _ _ _ _ _ _ _ [i; j] HiE Hw Hst Hin (fun _ => Hold));
  run.

(** The triangle of an update in terms of the rows of its inputs. *)
Section triangles.
Context (is_upper : bool) (n : Z) (A Em : view E) (e old : list Z -> E) (M : memory E).
Context (HA : sizes A = [n; n]) (Hw : writable M A (triangle is_upper n) old).
Context (HiE : input_same M Em (triangle is_upper n) e A (triangle is_upper n)).
#[local] Set Default Proof Using "All".

#[local] Abbreviation updated g p := (assigns M A (triangle is_upper n) (of_pair g) p).

Lemma symmetric_rank_ok alpha x y f g :
  sizes x = [n] -> sizes y = [n] -> input M x (within x) f A (triangle is_upper n) ->
  input M y (within y) g A (triangle is_upper n) ->
  updated (fun i j => alpha * f [i] * f [j])%E (symmetric_matrix_rank_1_update alpha x A is_upper) /\
  updated (fun i j => e [i; j] + alpha * f [i] * f [j])%E
    (symmetric_matrix_rank_1_update_from alpha x Em A is_upper) /\
  updated (fun i j => f [i] * g [j] + g [i] * f [j])%E (symmetric_matrix_rank_2_update x y A is_upper) /\
  updated (fun i j => e [i; j] + f [i] * g [j] + g [i] * f [j])%E
    (symmetric_matrix_rank_2_update_from x y Em A is_upper) /\
  updated (fun i j => alpha * (f [i] * g [j] + g [i] * f [j]))%E
    (symmetric_matrix_rank_2_update_scaled alpha is_upper x y A).
Proof. intros Hx Hy Hix Hiy. repeat split; update_triangle HiE Hw; done. Qed.

Lemma hermitian_rank_ok alpha x y f g :
  sizes x = [n] -> sizes y = [n] -> input M x (within x) f A (triangle is_upper n) ->
  input M y (within y) g A (triangle is_upper n) ->
  let r := real_if_needed in let c := conj_if_needed in
  updated (fun i j => real_diagonal i j (r alpha * f [i] * c (f [j]))%E)
    (hermitian_matrix_rank_1_update alpha x A is_upper) /\
  updated (fun i j => real_diagonal i j (e [i; j] + r alpha * f [i] * c (f [j]))%E)
    (hermitian_matrix_rank_1_update_from alpha x Em A is_upper) /\
  updated (fun i j => real_diagonal i j (r one * f [i] * c (f [j]))%E)
    (hermitian_matrix_rank_1_update_one is_upper x A) /\
  updated (fun i j => real_diagonal i j (f [i] * c (g [j]) + g [i] * c (f [j]))%E)
    (hermitian_matrix_rank_2_update x y A is_upper) /\
  updated (fun i j => real_diagonal i j (e [i; j] + f [i] * c (g [j]) + g [i] * c (f [j]))%E)
    (hermitian_matrix_rank_2_update_from x y Em A is_upper).
Proof. intros Hx Hy Hix Hiy r c. repeat split; update_triangle HiE Hw; done. Qed.

(** The products of the rows of two matrices. *)
Definition rows_product (h : E -> E) a b k i j : E := sum (up 0 k) (fun l => a [i; l] * h (b [j; l]))%E.
Definition rows_product_2 a b k i j : E :=
  sum (up 0 k) (fun l => a [i; l] * b [j; l] + b [i; l] * a [j; l])%E.

#[local] Ltac row_sums := first [ done | run_sum l Hl; by run ].

Lemma symmetric_rank_k_ok alpha B C k b c :
  sizes B = [n; k] -> sizes C = [n; k] -> input M B (within B) b A (triangle is_upper n) ->
  input M C (within C) c A (triangle is_upper n) ->
  updated (fun i j => alpha * rows_product id b b k i j)%E
    (symmetric_matrix_rank_k_update alpha B A is_upper) /\
  updated (fun i j => e [i; j] + alpha * rows_product id b b k i j)%E
    (symmetric_matrix_rank_k_update_from alpha B Em A is_upper) /\
  updated (rows_product_2 b c k) (symmetric_matrix_rank_2k_update B C A is_upper) /\
  updated (fun i j => e [i; j] + rows_product_2 b c k i j)%E
    (symmetric_matrix_rank_2k_update_from B C Em A is_upper) /\
  updated (fun i j => alpha * rows_product_2 b c k i j)%E
    (symmetric_matrix_rank_2k_update_scaled alpha is_upper B C A).
Proof.
  intros HB HC HiB HiC. unfold rank_2k_sum.
  repeat split; unfold assigns, symmetric_matrix_rank_k_update, symmetric_matrix_rank_k_update_from,
    symmetric_matrix_rank_2k_update, symmetric_matrix_rank_2k_update_from,
    symmetric_matrix_rank_2k_update_scaled.
  all: run; update_triangle HiE Hw; unfold rank_2k_sum; repeat row_sums.
Qed.

Lemma hermitian_rank_k_ok alpha B k b :
  sizes B = [n; k] -> input M B (within B) b A (triangle is_upper n) ->
  let r := real_if_needed in let c := conj_if_needed in
  updated (fun i j => real_diagonal i j (r alpha * rows_product c b b k i j)%E)
    (hermitian_matrix_rank_k_update alpha B A is_upper) /\
  updated (fun i j => real_diagonal i j (e [i; j] + r alpha * rows_product c b b k i j)%E)
    (hermitian_matrix_rank_k_update_from alpha B Em A is_upper) /\
  updated (fun i j => real_diagonal i j (r one * rows_product c b b k i j)%E)
    (hermitian_matrix_rank_k_update_one is_upper B A).
Proof.
  intros HB HiB r c.
  repeat split; unfold assigns, hermitian_matrix_rank_k_update_one,
    hermitian_matrix_rank_k_update, hermitian_matrix_rank_k_update_from.
  all: run; update_triangle HiE Hw; repeat row_sums.
Qed.
End triangles.

(** ** Products in place with a triangular matrix *)

Lemma storage_size_spec m n :
  0 <= m < 2 ^ 64 -> 0 <= n < 2 ^ 64 ->
  checked_matrix_storage_size m n = if m * n <? 2 ^ 64 then Some (m * n) else None.
Proof.
  intros Hm Hn. unfold checked_matrix_storage_size. rewrite !u64_small by done.
  destruct (Z.eqb_spec n 0) as [->|Hn0]; simpl.
  { rewrite Z.mul_0_r. by rewrite u64_small. }
  pose proof (Z.mul_div_le (2 ^ 64 - 1) n ltac:(lia)) as Hq.
  destruct (Z.ltb_spec ((2 ^ 64 - 1) / n) m) as [Hlt|Hle].
  - destruct (Z.ltb_spec (m * n) (2 ^ 64)) as [Hmn|Hmn]; [|done].
    pose proof (Z.div_le_lower_bound (2 ^ 64 - 1) n m ltac:(lia) ltac:(lia)). lia.
  - assert (m * n <= 2 ^ 64 - 1) by nia. zb. by rewrite u64_small by lia.
Qed.

(** Where the copy keeps an element. *)
Definition position n (js : list Z) : nat :=
  match js with [i; j] => Z.to_nat (i * n + j) | _ => 0%nat end.

Lemma position_u64 m n i j :
  0 <= i < m -> 0 <= j < n -> m * n < 2 ^ 64 ->
  u64 (u64 (u64 i * u64 n) + u64 j) = i * n + j /\ 0 <= i * n + j < m * n.
Proof.
  intros Hi Hj Hmn. assert (i * n + j < m * n) by nia. assert (n <= m * n) by nia. assert (i < m * n) by nia.
  rewrite (u64_small i), (u64_small n), (u64_small j) by lia.
  rewrite (u64_small (i * n)), u64_small by nia. nia.
Qed.

Lemma position_inj n i j i' j' :
  0 <= i -> 0 <= j < n -> 0 <= i' -> 0 <= j' < n ->
  position n [i; j] = position n [i'; j'] -> [i; j] = [i'; j'].
Proof.
  simpl. intros. assert (i * n + j = i' * n + j') as He by nia. assert (i = i') as -> by nia.
  repeat f_equal. lia.
Qed.

(** The copy has every element, and memory is as it was. *)
Definition copied (tmp : list E) m n f : Prop :=
  forall i j, 0 <= i < m -> 0 <= j < n -> tmp !! position n [i; j] = Some (f [i; j]).

Lemma at_tmp_ok tmp m n f i j M :
  copied tmp m n f -> m * n < 2 ^ 64 -> 0 <= i < m -> 0 <= j < n ->
  at_tmp tmp (u64 n) i j M = Some (f [i; j], M).
Proof.
  intros Hc Hmn Hi Hj. unfold at_tmp. destruct (position_u64 m n i j Hi Hj Hmn) as [-> _].
  specialize (Hc i j Hi Hj). simpl in Hc. by rewrite Hc.
Qed.

Lemma copy_to_tmp_ok C m n f M :
  sizes C = [m; n] -> 0 <= m < 2 ^ 64 -> 0 <= n < 2 ^ 64 -> shows M C (within C) f ->
  if m * n <? 2 ^ 64 then exists tmp, copy_to_tmp C M = Some (Some tmp, M) /\ copied tmp m n f
  else copy_to_tmp C M = Some (None, M).
Proof.
  intros HC Hm Hn Hs. unfold copy_to_tmp. run. rewrite storage_size_spec by done.
  destruct (Z.ltb_spec (m * n) (2 ^ 64)) as [Hmn|_]; [|done].
  set (body := fun (js : list Z) (tmp : list E) => match js with
    | [i; j] => e ← get C [i; j]; put_tmp tmp (u64 n) i j e | _ => undefined end).
  destruct (accumulate_rule (fun done tmp M' => M' = M /\ length tmp = Z.to_nat (m * n) /\
      forall js, js ∈ done -> tmp !! position n js = Some (f js))
    (pairs (up 0 m) (fun _ => up 0 n)) body (replicate (Z.to_nat (m * n)) zero) M)
    as (tmp & M' & Hrun & -> & _ & Htmp).
  - split; [done|]. split; [apply length_replicate|]. intros js Hjs. by apply not_elem_of_nil in Hjs.
  - intros done js rest tmp M' Hids (-> & Hlen & Htmp).
    assert (js ∈ pairs (up 0 m) (fun _ => up 0 n)) as Hjs by (rewrite Hids; set_solver).
    apply elem_of_pairs in Hjs as (i & j & -> & Hi%elem_of_up & Hj%elem_of_up).
    destruct (position_u64 m n i j Hi Hj Hmn) as [Hp Hb]. unfold body. run. unfold put_tmp. rewrite Hp.
    destruct (lookup_lt_is_Some_2 tmp (Z.to_nat (i * n + j)) ltac:(lia)) as [e0 He0].
    rewrite He0, prog_defined_bind. eexists _, M. split; [done|]. split; [done|].
    split; [by rewrite length_insert|].
    intros js Hjs. destruct (decide (position n js = position n [i; j])) as [Heq|Hne].
    + assert (js = [i; j]) as ->.
      { apply elem_of_app in Hjs as [Hjs|Hjs]; [|set_solver].
        assert (js ∈ pairs (up 0 m) (fun _ => up 0 n)) as Hin by (rewrite Hids; set_solver).
        apply elem_of_pairs in Hin as (i' & j' & -> & Hi'%elem_of_up & Hj'%elem_of_up).
        apply position_inj in Heq; [done|lia..]. }
      simpl. apply list_lookup_insert_eq. lia.
    + rewrite list_lookup_insert_ne by done. apply Htmp. set_solver.
  - exists tmp. split.
    + rewrite (prog_bind_ok _ _ M tmp M); [done|]. rewrite <- Hrun, <- nested_accumulate. done.
    + intros i j Hi Hj. apply Htmp, elem_of_pairs. exists i, j. by rewrite !elem_of_up.
Qed.

Lemma left_product_ok A C is_upper is_unit m n a f M :
  sizes A = [m; m] -> sizes C = [m; n] -> 0 <= m < 2 ^ 64 -> 0 <= n < 2 ^ 64 ->
  writable M C (within C) f -> input M A (triangle_read is_upper is_unit m) a C (within C) ->
  if m * n <? 2 ^ 64 then
    exists M', triangular_matrix_left_product is_upper is_unit A C M = Some (true, M') /\
      stored (address C) (within C) (of_pair (fun i j =>
        triangular_times is_upper is_unit a (of_index (fun k => f [k; j])) m i)) M M'
  else triangular_matrix_left_product is_upper is_unit A C M = Some (false, M).
Proof.
  intros HA HC Hm Hn Hw HiA. unfold triangular_matrix_left_product.
  pose proof (copy_to_tmp_ok C m n f M HC Hm Hn (wr_shows _ _ _ _ Hw)) as Hcopy.
  destruct (Z.ltb_spec (m * n) (2 ^ 64)) as [Hmn|_]; [|by rewrite (prog_bind_ok _ _ _ _ _ Hcopy)].
  destruct Hcopy as (tmp & Hcopy & Hc). rewrite (prog_bind_ok _ _ _ _ _ Hcopy). run.
  edestruct (fill_matrix_with M C m n) with (old := f) (t := fun i j =>
    triangular_times is_upper is_unit a (of_index (fun k => f [k; j])) m i)
    as (M' & Hrun & Hst); [done..| |].
  2: { exists M'. split; [rewrite (prog_bind_ok _ _ _ _ _ Hrun); done|exact Hst]. }
  intros i j cur M' Hi Hj Hst _. show_inputs Hst. apply sum_ok. intros k s Hk.
  apply (elem_of_triangle_range is_upper) in Hk as [Hk Ho]; [|done].
  pose proof (at_tmp_ok tmp m n f k j M' Hc Hmn Hk Hj) as Ht.
  unfold triangular_term. destruct (is_unit && (k =? i)) eqn:Hu.
  - by rewrite (prog_bind_ok _ _ _ _ _ Ht).
  - run. by rewrite (prog_bind_ok _ _ _ _ _ Ht).
Qed.

(** The element of a product with a triangular matrix on the right. *)
Definition times_triangular is_upper is_unit a f n i j : E :=
  sum (if is_upper then up 0 (j + 1) else up j n) (fun k =>
    if is_unit && (k =? j) then f [i; k] else (f [i; k] * a [k; j])%E).

Lemma right_product_ok A C is_upper is_unit m n a f M :
  sizes A = [n; n] -> sizes C = [m; n] -> 0 <= m < 2 ^ 64 -> 0 <= n < 2 ^ 64 ->
  writable M C (within C) f -> input M A (triangle_read is_upper is_unit n) a C (within C) ->
  if m * n <? 2 ^ 64 then
    exists M', triangular_matrix_right_product is_upper is_unit A C M = Some (true, M') /\
      stored (address C) (within C) (of_pair (times_triangular is_upper is_unit a f n)) M M'
  else triangular_matrix_right_product is_upper is_unit A C M = Some (false, M).
Proof.
  intros HA HC Hm Hn Hw HiA. unfold triangular_matrix_right_product.
  pose proof (copy_to_tmp_ok C m n f M HC Hm Hn (wr_shows _ _ _ _ Hw)) as Hcopy.
  destruct (Z.ltb_spec (m * n) (2 ^ 64)) as [Hmn|_]; [|by rewrite (prog_bind_ok _ _ _ _ _ Hcopy)].
  destruct Hcopy as (tmp & Hcopy & Hc). rewrite (prog_bind_ok _ _ _ _ _ Hcopy). run.
  edestruct (fill_matrix_with M C m n) with (old := f) (t := times_triangular is_upper is_unit a f n)
    as (M' & Hrun & Hst); [done..| |].
  2: { exists M'. split; [rewrite (prog_bind_ok _ _ _ _ _ Hrun); done|exact Hst]. }
  intros i j cur M' Hi Hj Hst _. show_inputs Hst. apply sum_ok. intros k s Hk.
  assert (0 <= k < n /\ if is_upper then k <= j else j <= k) as [Hkn Ho]
    by (destruct is_upper; apply elem_of_up in Hk; lia).
  pose proof (at_tmp_ok tmp m n f i k M' Hc Hmn Hi Hkn) as Ht.
  cbv beta. destruct (is_unit && (k =? j)) eqn:Hu.
  - by rewrite (prog_bind_ok _ _ _ _ _ Ht).
  - rewrite (prog_bind_ok _ _ _ _ _ Ht). by run.
Qed.
End matrices.
