(* ===== verification/LinalgVectors.v ===== *)
(** * linalg: vectors, element by element, and sums of magnitudes

    The functions of BLAS 1 that assign elements, sums and the search for the
    greatest magnitude. *)
From stdpp Require Import functions.
From S2P Require Import Prelude Extents Layouts LinalgViews LinalgLevel1 LinalgLevel2 LinalgSpec LinalgProducts.

#[local] Open Scope Z_scope.
#[local] Open Scope prog_scope.

Section vectors.
Context `{IndexType} {E : Type} `{Scalar E}.
Implicit Types (x y z from to : view E) (f g old : list Z -> E) (M : memory E) (js : list Z).
Implicit Types (i n : Z) (alpha c s : E).

(** A vector or a matrix. *)
Definition small x : Prop := length (sizes x) = 1%nat \/ length (sizes x) = 2%nat.

Lemma indices_within x js : small x -> within x js <-> js ∈ indices x.
Proof.
  unfold small, indices. intros Hl. destruct (sizes x) as [|m [|n [|]]] eqn:Hv; simpl in Hl; try lia.
  - by apply within_vector.
  - by apply within_matrix.
Qed.

Lemma indices_NoDup x : NoDup (indices x).
Proof.
  unfold indices. destruct (sizes x) as [|m [|n [|]]]; try constructor.
  - apply NoDup_fmap_2; [|apply up_NoDup]. by intros ? ? [= ->].
  - apply pairs_NoDup; intros; apply up_NoDup.
Qed.

Lemma indices_sizes x y : sizes x = sizes y -> indices x = indices y.
Proof. unfold indices. by intros ->. Qed.

Lemma within_sizes x y js : sizes x = sizes y -> within x js <-> within y js.
Proof. unfold within. by intros ->. Qed.

(** The loops go through the indices. *)
Lemma each_index_loop x body M :
  small x -> each_index x body M = loop (indices x) body M.
Proof.
  unfold small, each_index, indices. rewrite rank_sizes. intros Hl.
  destruct (sizes x) as [|m [|n [|]]] eqn:Hv; simpl in Hl; try lia; simpl.
  - run. unfold loop. by rewrite accumulate_fmap.
  - run. rewrite <- nested_loop. apply accumulate_ext. intros i [] M' Hi. by run.
Qed.

(** Assigning every element of [w], which may be or overlap an input at the
    same index. *)
Lemma each_index_ok M0 x w body value g old :
  small x -> sizes w = sizes x -> writable M0 w (within w) old ->
  (forall js M, body js M = after (value js) (set w js) M) ->
  (forall js cur M, within w js -> stored (address w) (within w) cur M0 M -> cur js = old js ->
    value js M = Some (g js, M)) ->
  assigns M0 w (within w) g (each_index x body).
Proof.
  intros Hx Hw Hwr Hb Hv. unfold assigns. rewrite each_index_loop by done.
  assert (small w) as Hws by (unfold small; by rewrite Hw).
  destruct (fill_ids_ok M0 w (within w) (indices w) value old g) as (M' & Hrun & HM); [|by intros; apply indices_within|done|done|].
  { apply indices_NoDup. }
  exists M'. split; [|done]. rewrite <- Hrun, (indices_sizes x w) by done.
  apply accumulate_ext. by intros.
Qed.

Lemma copy_ok from to f old M :
  small from -> sizes to = sizes from -> writable M to (within to) old ->
  input_same M from (within from) f to (within to) ->
  assigns M to (within to) f (copy from to).
Proof.
  intros Hs Ht Hw Hi. eapply (each_index_ok _ _ _ _ (get from)); [done..|].
  intros js cur M' Hjs Hst Hold.
  apply (get_same _ _ _ _ _ _ _ _ _ js Hi Hw Hst); [by apply (within_sizes to)|by intros].
Qed.

Lemma scale_ok alpha x f M :
  small x -> writable M x (within x) f ->
  assigns M x (within x) (fun js => alpha * f js)%E (scale alpha x).
Proof.
  intros Hs Hw. eapply (each_index_ok _ _ _ _ (fun js => e ← get x js; give (alpha * e)%E)); [done..| |].
  { intros. by rewrite after_assoc. }
  intros js cur M' Hjs Hst Hold. pose proof (wr_default _ _ _ _ Hw) as Hd.
  rewrite (prog_bind_ok _ _ _ _ _ (get_output _ _ _ _ _ _ Hd Hst Hjs)). by rewrite Hold.
Qed.

Lemma add_ok x y z f g old M :
  small x -> sizes y = sizes x -> sizes z = sizes x -> writable M z (within z) old ->
  input_same M x (within x) f z (within z) -> input_same M y (within y) g z (within z) ->
  assigns M z (within z) (fun js => f js + g js)%E (add x y z).
Proof.
  intros Hs Hy Hz Hw Hix Hiy.
  eapply (each_index_ok _ _ _ _ (fun js => a ← get x js; b ← get y js; give (a + b)%E)); [done..| |].
  { assoc. }
  intros js cur M' Hjs Hst Hold.
  rewrite (prog_bind_ok _ _ _ _ _ (get_same _ _ _ _ _ _ _ _ _ _ Hix Hw Hst
    ltac:(by apply (within_sizes z)) (fun _ => Hold))).
  by rewrite (prog_bind_ok _ _ _ _ _ (get_same _ _ _ _ _ _ _ _ _ _ Hiy Hw Hst
    ltac:(by apply (within_sizes z); [congruence|]) (fun _ => Hold))).
Qed.

(** ** Two outputs *)

(** The elements of two views, by view and index. *)
Definition address_both x y (k : bool * list Z) : option Z := address (if k.1 then x else y) k.2.
Definition within_both x (k : bool * list Z) : Prop := within x k.2.
Definition both f g (k : bool * list Z) : E := if k.1 then f k.2 else g k.2.

(** Both outputs, with elements of their own. *)
Record writable2 M x y f g : Prop := Writable2 {
  w2_x : writable M x (within x) f;
  w2_y : writable M y (within y) g;
  w2_apart : forall js ks, within x js -> within y ks -> address x js <> address y ks;
}.

Lemma writable2_distinct M x y f g :
  sizes y = sizes x -> writable2 M x y f g -> distinct (address_both x y) (within_both x).
Proof.
  intros Hy [[_ Hdx _] [_ Hdy _] Ha] [[] js] [[] ks]; unfold within_both, address_both; simpl; intros Hj Hk He.
  - by rewrite (Hdx js ks).
  - exfalso. apply (Ha js ks); [done|by apply (within_sizes y x)|done].
  - exfalso. apply (Ha ks js); [done|by apply (within_sizes y x)|done].
  - rewrite (Hdy js ks); [done|by apply (within_sizes y x)|by apply (within_sizes y x)|done].
Qed.

Lemma writable2_stored M x y f g :
  sizes y = sizes x -> writable2 M x y f g -> stored (address_both x y) (within_both x) (both f g) M M.
Proof.
  intros Hy [Hwx Hwy _]. apply stored_refl.
  destruct (writable_stored _ _ _ _ Hwx) as [Hsx _]. destruct (writable_stored _ _ _ _ Hwy) as [Hsy _].
  intros [[] js] Hjs; [by apply Hsx|]. apply Hsy. by apply (within_sizes y x).
Qed.

(** Reading and assigning either of two outputs. *)
Lemma get2 M0 M x y cur (b : bool) js :
  view_accessor x = DefaultAccessor -> view_accessor y = DefaultAccessor ->
  stored (address_both x y) (within_both x) cur M0 M -> within x js ->
  get (if b then x else y) js M = Some (cur (b, js), M).
Proof.
  intros Hdx Hdy [Hg _] Hj. destruct (Hg (b, js) Hj) as (a & Ha & Hm). apply get_element.
  unfold element, address_both, address in *. simpl in *.
  destruct (layout_call (view_layout (if b then x else y)) js) as [i|]; [|done].
  simpl in *. injection Ha as <-. by destruct b; rewrite ?Hdx, ?Hdy.
Qed.

Lemma set2 M0 M x y cur (b : bool) js (e : E) :
  view_accessor x = DefaultAccessor -> view_accessor y = DefaultAccessor ->
  distinct (address_both x y) (within_both x) ->
  stored (address_both x y) (within_both x) cur M0 M -> within x js ->
  exists M', set (if b then x else y) js e M = Some (tt, M') /\
    stored (address_both x y) (within_both x) (<[(b, js) := e]> cur) M0 M'.
Proof.
  intros Hdx Hdy Hdis Hst Hj.
  destruct (stored_set _ _ _ _ _ (b, js) e Hdis Hj Hst) as (a & Ha & [e0 Hm] & Hs').
  exists (<[a := e]> M). split; [|done]. unfold set. unfold address_both in Ha. simpl in Ha. rewrite Ha, Hm.
  by destruct b; rewrite ?Hdx, ?Hdy.
Qed.

(** The loops that read and then assign both. *)
Lemma update_both_ok M0 x y f g (hx hy : E -> E -> E) body :
  small x -> sizes y = sizes x -> writable2 M0 x y f g ->
  (forall js M, body js M =
    (a ← get x js; b ← get y js; set x js (hx a b);; set y js (hy a b)) M) ->
  exists M', loop (indices x) body M0 = Some (tt, M') /\
    stored (address_both x y) (within_both x)
      (both (fun js => hx (f js) (g js)) (fun js => hy (f js) (g js))) M0 M'.
Proof.
  intros Hs Hy Hw Hb. pose proof (writable2_distinct _ _ _ _ _ Hy Hw) as Hdis.
  pose proof (writable2_stored _ _ _ _ _ Hy Hw) as Hst0.
  destruct Hw as [[Hdx _ _] [Hdy _ _] _]. pose proof (indices_NoDup x) as Hnd.
  set (new := both (fun js => hx (f js) (g js)) (fun js => hy (f js) (g js))).
  destruct (accumulate_rule (fun done (_ : unit) M =>
    stored (address_both x y) (within_both x)
      (fun k => if decide (k.2 ∈ done) then new k else both f g k) M0 M)
    (indices x) (fun js _ => body js) tt M0) as ([] & M' & Hrun & HM).
  - eapply stored_ext; [|exact Hst0]. intros k _. rewrite decide_False; [done|apply not_elem_of_nil].
  - intros done js rest [] M Hids HM.
    assert (within x js) as Hj by (apply indices_within; [done|rewrite Hids; set_solver]).
    assert (js ∉ done) as Hnot.
    { rewrite Hids in Hnd. apply list.NoDup_app in Hnd as (_ & Hd & _). intros Hin.
      apply (Hd js Hin). set_solver. }
    rewrite Hb.
    rewrite (prog_bind_ok _ _ _ _ _ (get2 _ _ _ _ _ true js Hdx Hdy HM Hj)).
    rewrite (prog_bind_ok _ _ _ _ _ (get2 _ _ _ _ _ false js Hdx Hdy HM Hj)). simpl.
    rewrite !decide_False by done.
    destruct (set2 _ _ _ _ _ true js (hx (f js) (g js)) Hdx Hdy Hdis HM Hj) as (M1 & Hset1 & HM1).
    rewrite (prog_bind_ok _ _ _ _ _ Hset1).
    destruct (set2 _ _ _ _ _ false js (hy (f js) (g js)) Hdx Hdy Hdis HM1 Hj) as (M2 & Hset2 & HM2).
    exists tt, M2. split; [exact Hset2|]. eapply stored_ext; [|exact HM2].
    intros [b ks] _. simpl. destruct (decide (ks = js)) as [->|Hne].
    + rewrite (decide_True (P := js ∈ done ++ [js])) by set_solver. destruct b.
      * by rewrite fn_lookup_insert_ne, fn_lookup_insert.
      * by rewrite fn_lookup_insert.
    + rewrite !fn_lookup_insert_ne by congruence. simpl.
      destruct (decide (ks ∈ done)); [rewrite decide_True|rewrite decide_False]; try done; set_solver.
  - exists M'. split; [exact Hrun|]. eapply stored_ext; [|exact HM]. intros [b ks] Hk.
    cbn beta. rewrite decide_True; [done|by apply indices_within].
Qed.

Lemma swap_ok x y f g M :
  small x -> sizes y = sizes x -> writable2 M x y f g ->
  exists M', swap_elements x y M = Some (tt, M') /\
    stored (address_both x y) (within_both x) (both g f) M M'.
Proof.
  intros Hs Hy Hw. unfold swap_elements. rewrite each_index_loop by done.
  by apply (update_both_ok M x y f g (fun _ b => b) (fun a _ => a)).
Qed.

Lemma givens_ok x y n f g c s M :
  sizes x = [n] -> sizes y = [n] -> writable2 M x y f g ->
  (exists M', apply_givens_rotation x y c s M = Some (tt, M') /\
    stored (address_both x y) (within_both x)
      (both (fun js => c * f js + s * g js)%E (fun js => - s * f js + c * g js)%E) M M') /\
  (exists M', apply_givens_rotation_complex x y c s M = Some (tt, M') /\
    stored (address_both x y) (within_both x)
      (both (fun js => c * f js + s * g js)%E (fun js => - conj s * f js + c * g js)%E) M M').
Proof.
  intros Hx Hy Hw. assert (small x) as Hs by (left; by rewrite Hx).
  assert (indices x = (fun i => [i]) <$> up 0 n) as Hids by (unfold indices; by rewrite Hx).
  split.
  all: unfold apply_givens_rotation, apply_givens_rotation_complex; run; unfold loop;
    rewrite <- (accumulate_fmap (fun i => [i]) (up 0 n) (fun js (_ : unit) =>
      a ← get x js; b ← get y js; set x js (c * a + s * b)%E;; set y js (_ * a + c * b)%E)), <- Hids;
    by apply (update_both_ok M x y f g (fun a b => c * a + s * b)%E (fun a b => _ * a + c * b)%E);
      [|congruence|..].
Qed.

(** ** Sums and searches *)

Lemma dot_ok x y n f g init M :
  sizes x = [n] -> shows M x (within x) f -> sizes y = [n] -> shows M y (within y) g ->
  dot x y init M = Some (sum_from init (up 0 n) (fun i => f [i] * g [i])%E, M) /\
  dotc x y init M = Some (sum_from init (up 0 n) (fun i => conj_if_needed (f [i]) * g [i])%E, M).
Proof.
  intros Hx Hf Hy Hg. unfold dot, dotc. run.
  split; apply sum_from_ok; intros i s Hi%elem_of_up; by run.
Qed.

(** A comparison that is a strict order in which incomparable elements form
    classes. *)
Record strict_weak {R} (gt : R -> R -> bool) : Prop := {
  sw_irrefl r : gt r r = false;
  sw_split (a b d : R) : gt a d = true -> gt a b = true \/ gt b d = true;
  sw_asym (a b : R) : gt a b = true -> gt b a = false;
}.

(** The first of the greatest magnitudes. *)
Definition first_greatest {R} (gt : R -> R -> bool) (v : Z -> R) n best : Prop :=
  0 <= best < n /\ (forall j, 0 <= j < n -> gt (v j) (v best) = false) /\
  (forall j, 0 <= j < best -> gt (v best) (v j) = true).

Lemma idx_abs_max_ok {R} (abs_sum_term : E -> R) gt x n f M :
  strict_weak gt -> sizes x = [n] -> 0 <= n -> shows M x (within x) f ->
  if n =? 0 then vector_idx_abs_max abs_sum_term gt x M = Some (2 ^ index_bits - 1, M)
  else exists best, vector_idx_abs_max abs_sum_term gt x M = Some (best, M) /\
    first_greatest gt (fun i => abs_sum_term (f [i])) n best.
Proof.
  intros Hgt Hx Hn Hf. unfold vector_idx_abs_max. run. case_zb; [done|]. run.
  set (v := fun i => abs_sum_term (f [i])).
  set (pick := fun (best : Z * R) i => if gt (v i) best.2 then (i, v i) else best).
  rewrite (prog_bind_ok _ _ _ (foldl pick (0, v 0) (up 1 n)) M).
  2: { apply accumulate_pure. intros i a Hi%elem_of_up. by run. }
  assert (forall k, 1 <= k -> let best := foldl pick (0, v 0) (up 1 k) in
    best.2 = v best.1 /\ first_greatest gt v k best.1) as Hbest.
  { intros k Hk. pattern k. revert k Hk. apply Zlt_lower_bound_ind. intros k IH Hk.
    destruct (decide (k = 1)) as [->|Hne].
    - rewrite up_nil by lia. simpl. split; [done|]. split; [lia|]. split; [|lia].
      intros j Hj. assert (j = 0) as -> by lia. apply (sw_irrefl _ Hgt).
    - replace k with ((k - 1) + 1) by lia. rewrite up_snoc, foldl_snoc by lia.
      destruct (IH (k - 1) ltac:(lia)) as [Hv (Hb & Hmax & Hfirst)].
      set (best := foldl pick (0, v 0) (up 1 (k - 1))) in *. unfold pick at 1. rewrite Hv.
      destruct (gt (v (k - 1)) (v best.1)) eqn:Hg; simpl; (split; [done|]).
      + split; [lia|]. split.
        * intros j Hj. destruct (decide (j = k - 1)) as [->|Hj1]; [apply (sw_irrefl _ Hgt)|].
          apply (sw_asym _ Hgt).
          destruct (sw_split _ Hgt _ (v j) _ Hg) as [|Hc]; [done|]. by rewrite Hmax in Hc by lia.
        * intros j Hj. destruct (sw_split _ Hgt _ (v j) _ Hg) as [|Hc]; [done|].
          by rewrite Hmax in Hc by lia.
      + split; [lia|]. split; [|done]. intros j Hj.
        destruct (decide (j = k - 1)) as [->|Hj1]; [done|]. apply Hmax. lia. }
  destruct (Hbest n ltac:(lia)) as [_ Hfg]. eexists. split; [reflexivity|exact Hfg].
Qed.
End vectors.

(** ** linalg: sums of magnitudes of integers

    The saturating arithmetic: the exact sum, or the greatest value of the
    result's type. *)

Section magnitudes.
Context `{IndexType} `{Scalar Z} (T V : IndexType).
Implicit Types (x A : view Z) (f : list Z -> Z) (M : memory Z) (init total magnitude value : Z).

(** The exact sum of magnitudes. *)
Definition abs_total (l : list Z) (t : Z -> Z) : Z := foldr (fun i s => Z.abs (t i) + s) 0 l.

(** The values of a type. *)
Definition fits (U : IndexType) (z : Z) : Prop := @index_min U <= z <= @index_max U.

Lemma width_powers (U : IndexType) :
  1 <= 2 ^ (@index_bits U - 1) <= 2 ^ 63 /\ 2 ^ (@index_bits U) = 2 * 2 ^ (@index_bits U - 1).
Proof.
  pose proof (@index_bits_range U). split.
  - split; [apply Z.pow_le_mono_r with (b := 0); lia|apply Z.pow_le_mono_r; lia].
  - rewrite <- Z.pow_succ_r by lia. f_equal. lia.
Qed.

Lemma abs_if_needed_ok value : fits V value -> abs_if_needed V value = Z.abs value.
Proof.
  pose proof (width_powers V) as [Hp He]. unfold fits, index_min, index_max, abs_if_needed.
  destruct index_signed; simpl; [|lia]. intros Hv. case_zb.
  - rewrite Zminus_mod_idemp_r. replace (0 - value) with (- value) by lia.
    rewrite Z.mod_small by lia. lia.
  - rewrite Z.mod_small by lia. lia.
Qed.

Lemma accumulate_ok total magnitude :
  0 <= total < 2 ^ 64 -> 0 <= magnitude < 2 ^ 64 ->
  saturating_accumulate_magnitude total magnitude = Z.min (2 ^ 64 - 1) (total + magnitude).
Proof.
  intros Ht Hm. unfold saturating_accumulate_magnitude.
  rewrite (u64_small magnitude), (u64_small (2 ^ 64 - 1 - total)) by lia.
  case_zb; [lia|]. rewrite u64_small by lia. lia.
Qed.

Lemma arith_signed z : fits T z -> @arith T z = Some z.
Proof.
  intros Hz. destruct (Z.le_gt_cases 0 z); [apply arith_nonneg; unfold fits in Hz; lia|].
  unfold arith. pose proof (width_powers T) as [Hp He]. unfold fits in Hz.
  destruct (@index_signed T) eqn:Hs; [|unfold index_min in Hz; rewrite Hs in Hz; lia].
  case_zb.
  - assert (2 ^ (@index_bits T - 1) <= 2 ^ 30) by (apply Z.pow_le_mono_r; lia).
    unfold index_min, index_max in Hz. rewrite Hs in Hz. by zb.
  - by rewrite (proj2 (@representable_spec T z)).
Qed.

Lemma add_magnitude_ok init magnitude :
  fits T init -> 0 <= magnitude < 2 ^ 64 ->
  saturating_add_magnitude T init magnitude = Some (Z.min (@index_max T) (init + magnitude)).
Proof.
  intros Hi Hm. unfold saturating_add_magnitude. cbv zeta.
  pose proof (width_powers T) as [Hp He]. pose proof Hi as Hi'. unfold fits, index_min in Hi.
  destruct (Z.eqb_spec magnitude 0) as [->|Hm0]; [f_equal; lia|].
  assert (0 <= @index_max T < 2 ^ 64) as Hmax by (unfold index_max; destruct index_signed; lia).
  assert (@index_min T <= 0) as Hmin by (unfold index_min; destruct index_signed; lia).
  destruct (negb (@index_signed T) || (0 <=? init)) eqn:Hcase.
  - assert (0 <= init) by (revert Hcase Hi; destruct (@index_signed T); simpl; lia).
    rewrite (@arith_nonneg T (@index_max T - init)) by lia. simpl.
    rewrite u64_small by lia. case_zb; [f_equal; lia|].
    rewrite (@cast_nonneg T magnitude) by lia. rewrite (@arith_nonneg T) by lia. simpl.
    rewrite (@cast_nonneg T) by lia. f_equal. lia.
  - apply orb_false_iff in Hcase as [Hs Hneg]. apply negb_false_iff in Hs.
    assert (init < 0) by lia.
    assert (2 ^ (@index_bits T - 1) <= 2 ^ 63) by lia.
    assert (@index_max T = 2 ^ (@index_bits T - 1) - 1) as Htop by (unfold index_max; by rewrite Hs).
    assert (- 2 ^ (@index_bits T - 1) <= init) by (rewrite Hs in Hi; lia).
    rewrite Zminus_mod_idemp_r. replace (0 - init) with (- init) by lia.
    rewrite (Z.mod_small (- init)) by lia. case_zb.
    + rewrite u64_small by lia. rewrite (@cast_nonneg T) by lia.
      rewrite arith_signed by (unfold fits, index_min; rewrite Hs; lia). simpl.
      rewrite (@cast_id T) by (unfold index_min; rewrite Hs; lia). f_equal. lia.
    + rewrite !u64_small by lia. case_zb; [f_equal; lia|].
      rewrite (@cast_nonneg T) by lia. f_equal. lia.
Qed.

Lemma abs_total_nonneg l t : 0 <= abs_total l t.
Proof. induction l as [|i l IH]; simpl; lia. Qed.

(** A loop that adds magnitudes. *)
Lemma magnitudes_ok l (body : Z -> Z -> prog (memory Z) Z) t total M :
  (forall i s, i ∈ l -> body i s M = Some (saturating_accumulate_magnitude s (abs_if_needed V (t i)), M)) ->
  (forall i, i ∈ l -> fits V (t i)) -> 0 <= total < 2 ^ 64 ->
  accumulate l body total M = Some (Z.min (2 ^ 64 - 1) (total + abs_total l t), M).
Proof.
  revert total. induction l as [|i l IH]; intros total Hb Hf Ht; simpl.
  - unfold give. do 2 f_equal. lia.
  - assert (i ∈ i :: l) as Hi by apply list_elem_of_here.
    rewrite (prog_bind_ok _ _ _ _ _ (Hb i total Hi)), abs_if_needed_ok by auto.
    pose proof (width_powers V) as [Hp He].
    assert (0 <= Z.abs (t i) < 2 ^ 64) as Habs.
    { specialize (Hf i Hi). unfold fits, index_min, index_max in Hf. destruct index_signed; lia. }
    rewrite accumulate_ok by done. rewrite IH.
    + do 2 f_equal. pose proof (abs_total_nonneg l t). lia.
    + intros j s Hj. apply Hb. by apply list_elem_of_further.
    + intros j Hj. apply Hf. by apply list_elem_of_further.
    + lia.
Qed.

(** The final addition loses nothing to the saturation before it. *)
Lemma add_saturated init s :
  fits T init -> 0 <= s ->
  saturating_add_magnitude T init (Z.min (2 ^ 64 - 1) s) = Some (Z.min (@index_max T) (init + s)).
Proof.
  intros Hi Hs. rewrite add_magnitude_ok by (done || lia). f_equal.
  pose proof (width_powers T) as [Hp He]. unfold fits, index_min, index_max in *.
  destruct index_signed; lia.
Qed.

Lemma abs_sum_ok x n f init M :
  sizes x = [n] -> shows M x (within x) f -> (forall js, within x js -> fits V (f js)) -> fits T init ->
  vector_abs_sum T V x init M =
    Some (Z.min (@index_max T) (init + abs_total (up 0 n) (fun i => f [i])), M).
Proof.
  intros Hx Hf Hv Hi. unfold vector_abs_sum. run.
  rewrite (prog_bind_ok _ _ M (Z.min (2 ^ 64 - 1) (0 + abs_total (up 0 n) (fun i => f [i]))) M).
  - rewrite add_saturated by (done || apply abs_total_nonneg). done.
  - apply magnitudes_ok; [|intros i Hi'%elem_of_up; apply Hv; by eapply within1|lia].
    intros i s Hi'%elem_of_up. by run.
Qed.

(** The greatest of some totals, which are not negative. *)
Definition greatest (l : list Z) (t : Z -> Z) : Z := foldr (fun i s => Z.max (t i) s) 0 l.

Lemma greatest_ok l (body : Z -> Z -> prog (memory Z) Z) t best M :
  (forall i s, i ∈ l -> body i s M =
    Some (let c := Z.min (2 ^ 64 - 1) (t i) in if s <? c then c else s, M)) ->
  0 <= best < 2 ^ 64 ->
  accumulate l body best M = Some (Z.min (2 ^ 64 - 1) (Z.max best (greatest l t)), M).
Proof.
  revert best. induction l as [|i l IH]; intros best Hb Ht; simpl.
  - unfold give. do 2 f_equal. lia.
  - rewrite (prog_bind_ok _ _ _ _ _ (Hb i best ltac:(apply list_elem_of_here))). cbv zeta.
    rewrite IH; [|intros j s Hj; apply Hb; by apply list_elem_of_further|case_zb; lia].
    do 2 f_equal. case_zb; lia.
Qed.

Lemma greatest_nonneg l t : 0 <= greatest l t.
Proof. induction l as [|i l IH]; simpl; lia. Qed.

Lemma norms_ok A m n f init M :
  sizes A = [m; n] -> 0 <= m -> 0 <= n -> shows M A (within A) f ->
  (forall js, within A js -> fits V (f js)) -> fits T init ->
  matrix_one_norm T V A init M = Some (Z.min (@index_max T)
    (init + greatest (up 0 n) (fun j => abs_total (up 0 m) (fun i => f [i; j]))), M) /\
  matrix_inf_norm T V A init M = Some (Z.min (@index_max T)
    (init + greatest (up 0 m) (fun i => abs_total (up 0 n) (fun j => f [i; j]))), M).
Proof.
  intros HA Hm Hn Hf Hv Hi. unfold matrix_one_norm, matrix_inf_norm.
  assert (forall t l, defined (saturating_add_magnitude T init (Z.min (2 ^ 64 - 1) (Z.max 0 (greatest l t)))) M
    = Some (Z.min (@index_max T) (init + greatest l t), M)) as Hend.
  { intros t l. rewrite add_saturated; [|done|lia]. pose proof (greatest_nonneg l t).
    by rewrite Z.max_r by lia. }
  split; run; case_zb.
  1, 3: subst; rewrite up_nil by lia; unfold give; simpl; do 2 f_equal; unfold fits in Hi; lia.
  - erewrite prog_bind_ok; [apply Hend|]. apply greatest_ok; [|lia]. intros j s Hj%elem_of_up. run.
    rewrite (prog_bind_ok _ _ M (Z.min (2 ^ 64 - 1) (0 + abs_total (up 0 m) (fun i => f [i; j]))) M); [done|].
    apply magnitudes_ok; [|intros i Hi'%elem_of_up; apply Hv; by eapply within2|lia].
    intros i s' Hi'%elem_of_up. by run.
  - erewrite prog_bind_ok; [apply Hend|]. apply greatest_ok; [|lia]. intros i s Hi'%elem_of_up. run.
    rewrite (prog_bind_ok _ _ M (Z.min (2 ^ 64 - 1) (0 + abs_total (up 0 n) (fun j => f [i; j]))) M); [done|].
    apply magnitudes_ok; [|intros j Hj%elem_of_up; apply Hv; by eapply within2|lia].
    intros j s' Hj%elem_of_up. by run.
Qed.
End magnitudes.
