(* ===== verification/LinalgTransposed.v ===== *)
(** * linalg: views of views

    A transposed view shows the same elements with their indices swapped, for
    every layout; scaling and conjugation act on what is read.  The packed layout
    of triangular matrices numbers the elements of the triangle. *)
From S2P Require Import Prelude Extents Layouts LayoutSpec LinalgViews LinalgSpec.

#[local] Open Scope Z_scope.

(** ** The packed layout *)

(** [0 + 1 + ... + k] *)
Definition tri (k : Z) : Z := k * (k + 1) / 2.

Lemma tri_double k : 2 * tri k = k * (k + 1).
Proof.
  unfold tri. destruct (Z.Even_or_Odd k) as [[m ->]|[m ->]].
  - replace (2 * m * (2 * m + 1)) with (m * (2 * m + 1) * 2) by lia. rewrite Z.div_mul by lia. lia.
  - replace ((2 * m + 1) * (2 * m + 1 + 1)) with ((2 * m + 1) * (m + 1) * 2) by lia.
    rewrite Z.div_mul by lia. lia.
Qed.

(** The offset of the element [(a, b)], [a <= b], of an upper triangle, by
    columns or by rows. *)
Definition packed_number (by_columns : bool) (n a b : Z) : Z :=
  if by_columns then tri b + a else a * n - tri a + b.

Lemma packed_number_mirror n a b :
  packed_number false n a b = tri n - 1 - packed_number true n (n - 1 - b) (n - 1 - a).
Proof.
  unfold packed_number. pose proof (tri_double a). pose proof (tri_double n).
  pose proof (tri_double (n - 1 - a)). nia.
Qed.

Lemma packed_columns n a b :
  0 <= a <= b -> b < n -> 0 <= packed_number true n a b < tri n.
Proof.
  unfold packed_number. intros. pose proof (tri_double b). pose proof (tri_double n). nia.
Qed.

Lemma packed_columns_inj n a b a' b' :
  0 <= a <= b -> 0 <= a' <= b' -> packed_number true n a b = packed_number true n a' b' ->
  a = a' /\ b = b'.
Proof.
  unfold packed_number. intros. pose proof (tri_double b). pose proof (tri_double b').
  assert (b = b') as -> by nia. lia.
Qed.

Lemma packed_columns_onto n o :
  0 <= n -> 0 <= o < tri n -> exists a b, 0 <= a <= b /\ b < n /\ packed_number true n a b = o.
Proof.
  intros Hn. revert o. pattern n. revert n Hn. apply natlike_ind; [intros o Ho; change (tri 0) with 0 in Ho; lia|].
  intros n Hn IH o Ho. pose proof (tri_double n). pose proof (tri_double (Z.succ n)).
  destruct (Z_lt_le_dec o (tri n)) as [Hlt|Hle].
  - destruct (IH o ltac:(lia)) as (a & b & ? & ? & ?). exists a, b. split; [done|]. split; [lia|done].
  - exists (o - tri n), n. unfold packed_number. split; [nia|]. split; lia.
Qed.

(** Either way, the elements of the triangle get the numbers from 0 on. *)
Lemma packed_number_bounds by_columns n a b :
  0 <= a <= b -> b < n -> 0 <= packed_number by_columns n a b < tri n.
Proof.
  intros Ha Hb. destruct by_columns; [by apply packed_columns|]. rewrite packed_number_mirror.
  pose proof (packed_columns n (n - 1 - b) (n - 1 - a)). lia.
Qed.

Lemma packed_number_inj by_columns n a b a' b' :
  0 <= a <= b -> b < n -> 0 <= a' <= b' -> b' < n ->
  packed_number by_columns n a b = packed_number by_columns n a' b' -> a = a' /\ b = b'.
Proof.
  intros Ha Hb Ha' Hb'. destruct by_columns; [by apply packed_columns_inj|].
  rewrite !packed_number_mirror. intros He.
  destruct (packed_columns_inj n (n - 1 - b) (n - 1 - a) (n - 1 - b') (n - 1 - a')); lia.
Qed.

Lemma packed_number_onto by_columns n o :
  0 <= n -> 0 <= o < tri n -> exists a b, 0 <= a <= b /\ b < n /\ packed_number by_columns n a b = o.
Proof.
  intros Hn Ho. destruct by_columns; [by apply packed_columns_onto|].
  destruct (packed_columns_onto n (tri n - 1 - o) Hn ltac:(lia)) as (a & b & Ha & Hb & Ho').
  exists (n - 1 - b), (n - 1 - a). split; [lia|]. split; [lia|].
  rewrite packed_number_mirror. replace (n - 1 - (n - 1 - a)) with a by lia.
  replace (n - 1 - (n - 1 - b)) with b by lia. lia.
Qed.

Section packed.
Context `{IndexType}.
Implicit Types (e : extents) (i j n : Z).

(** A square matrix whose packed size fits the index type. *)
Definition packed_ok e : Prop :=
  exists n, values e = [n; n] /\ 0 <= n /\ n * (n + 1) <= index_max.

Lemma quot_tri k : 0 <= k -> Z.quot (k * (k + 1)) 2 = tri k.
Proof. intros. unfold tri. apply Z.quot_div_nonneg; nia. Qed.

Lemma arith_minus_one : exists s, arith (0 - 1) = Some s.
Proof.
  unfold arith. destruct (index_bits <? 32); [by eexists|]. destruct index_signed eqn:Hs; [|by eexists].
  rewrite (proj2 (representable_spec (0 - 1))); [by eexists|].
  pose proof index_powers. unfold index_min, index_max. rewrite Hs. lia.
Qed.

Lemma packed_call_ok upper column_major e n i j :
  values e = [n; n] -> n * (n + 1) <= index_max -> 0 <= i < n -> 0 <= j < n ->
  packed_call upper column_major e i j =
    Some (packed_number (eqb upper column_major) n (Z.min i j) (Z.max i j)).
Proof.
  intros He Hn Hi Hj. assert (extent e 0 = Some n) as Hext by (apply extent_lookup; by rewrite He).
  unfold packed_call. rewrite Hext.
  set (a := Z.min i j). set (b := Z.max i j).
  assert (0 <= a <= b /\ b < n) as (Ha & Hb) by lia.
  pose proof (tri_double a). pose proof (tri_double b). pose proof (tri_double (a - 1)).
  destruct upper.
  - replace (if j <? i then (j, i) else (i, j)) with (a, b) by (case_zb; f_equal; lia).
    destruct column_major; simpl.
    + rewrite arith_nonneg by nia. simpl. rewrite arith_nonneg by nia. simpl.
      rewrite quot_tri by lia. rewrite arith_nonneg by nia. simpl. by rewrite cast_nonneg by nia.
    + rewrite (arith_nonneg (a * n)) by nia. simpl.
      assert (exists s p, arith (a - 1) = Some s /\ arith (a * s) = Some p /\ Z.quot p 2 = tri a - a)
        as (s & p & -> & Hp & Hq).
      { destruct (decide (a = 0)) as [->|Hne].
        - destruct arith_minus_one as [s Hs]. exists s, 0. rewrite Hs. split; [done|].
          rewrite Z.mul_0_l, arith_nonneg by (pose proof index_max_range; lia). done.
        - exists (a - 1), (a * (a - 1)). rewrite !arith_nonneg by nia. split; [done|]. split; [done|].
          replace (a * (a - 1)) with ((a - 1) * ((a - 1) + 1)) by lia. rewrite quot_tri by lia. lia. }
      simpl. rewrite Hp. simpl. rewrite Hq. rewrite arith_nonneg by nia. simpl.
      rewrite arith_nonneg by nia. simpl. rewrite arith_nonneg by nia. simpl.
      rewrite cast_nonneg by nia. f_equal. lia.
  - replace (if i <? j then (j, i) else (i, j)) with (b, a) by (case_zb; f_equal; lia).
    destruct column_major; simpl.
    + rewrite arith_nonneg by nia. simpl. rewrite arith_nonneg by nia. simpl.
      rewrite arith_nonneg by nia. simpl. rewrite arith_nonneg by nia. simpl.
      rewrite quot_tri by lia. rewrite arith_nonneg by nia. simpl.
      rewrite cast_nonneg by nia. f_equal. lia.
    + rewrite arith_nonneg by nia. simpl. rewrite arith_nonneg by nia. simpl.
      rewrite quot_tri by lia. rewrite arith_nonneg by nia. simpl. by rewrite cast_nonneg by nia.
Qed.

Lemma packed_span_ok e n :
  values e = [n; n] -> 0 <= n -> n * (n + 1) <= index_max -> packed_span e = Some (tri n).
Proof.
  intros He Hn Hmax. assert (extent e 0 = Some n) as Hext by (apply extent_lookup; by rewrite He).
  unfold packed_span. rewrite Hext. simpl. pose proof (tri_double n). pose proof index_max_range.
  rewrite arith_nonneg by nia. simpl. rewrite arith_nonneg by nia. simpl.
  rewrite quot_tri by lia. by rewrite cast_nonneg by nia.
Qed.

Lemma packed_correct upper column_major e n :
  values e = [n; n] -> 0 <= n -> n * (n + 1) <= index_max ->
  let inside i j := 0 <= i < n /\ 0 <= j < n in
  let offset i j := packed_call upper column_major e i j in
  exists span, packed_span e = Some span /\
  (forall i j, inside i j -> exists o, offset i j = Some o /\ 0 <= o < span /\ offset j i = Some o) /\
  (forall i j i' j', inside i j -> inside i' j' -> offset i j = offset i' j' ->
    (i, j) = (i', j') \/ (i, j) = (j', i')) /\
  (forall o, 0 <= o < span -> exists i j, inside i j /\ offset i j = Some o).
Proof.
  intros Hv Hn Hmax inside offset. set (c := eqb upper column_major).
  assert (forall i j, inside i j -> offset i j = Some (packed_number c n (Z.min i j) (Z.max i j))) as Ho.
  { intros i j [Hi Hj]. by apply packed_call_ok. }
  exists (tri n). split; [by apply packed_span_ok|]. split; [|split].
  - intros i j Hij. eexists. split; [by apply Ho|].
    split; [apply packed_number_bounds; unfold inside in Hij; lia|].
    rewrite Ho by (unfold inside in *; lia). by rewrite Z.min_comm, Z.max_comm.
  - intros i j i' j' Hij Hij' He. rewrite !Ho in He by done. injection He as He. unfold inside in *.
    apply packed_number_inj in He as [He1 He2]; [|lia..].
    assert (i = i' /\ j = j' \/ i = j' /\ j = i') as [[-> ->] | [-> ->]] by lia; auto.
  - intros o Hin. destruct (packed_number_onto c n o Hn Hin) as (a & b & Hab & Hb & <-).
    exists a, b. unfold inside. split; [lia|]. rewrite Ho by (unfold inside; lia).
    by rewrite Z.min_l, Z.max_r by lia.
Qed.
End packed.

(** ** Transposed layouts *)

Section transposed.
Context `{IndexType}.
Implicit Types (m : mapping) (l : layout) (e : extents) (i j n : Z).

(** The matrices that can be transposed. *)
Fixpoint layout_fine l : Prop :=
  match l with
  | Plain m => mapping_ok m
  | BlasPacked _ _ e => packed_ok e
  | Transposed nested => layout_fine nested
  | Custom _ _ => True
  end.
Definition matrix_layout l : Prop := length (layout_extents l) = 2%nat /\ layout_fine l.

(** A mapping with the extents and the strides of another in reverse. *)
Lemma reversed_call m m' (l : list Z) :
  mapping_ok m -> mapping_ok m' -> extents_of m' = rev (extents_of m) ->
  ref_strides m' = rev (ref_strides m) -> in_range l (values (extents_of m)) ->
  call m' (rev l) = call m l.
Proof.
  intros Hm Hm' He Hs Hl. rewrite (call_ok m), (call_ok m'); [|done| |done|done].
  - rewrite Hs, dot_rev; [done|]. rewrite ref_strides_length by apply Hm.
    by rewrite (Forall2_length _ _ _ Hl), length_fmap.
  - rewrite He, values_rev. by apply in_range_rev.
Qed.

Lemma padded_stride_kept p static_ext s n0 n1 :
  0 < n0 -> padded_ok p static_ext s [n0; n1] ->
  make_stride (cast n0) (cast s) = Some s.
Proof.
  intros Hn (Hle & Hs & _). unfold make_stride. pose proof (grown_pos [n1]) as Hg.
  assert (s <= index_max) by nia.
  rewrite !cast_nonneg by lia. rewrite least_multiple_ok; rewrite ?lm_small by lia; zb; lia || done.
Qed.

(** The transposed mapping of each layout with strides. *)
Lemma transposed_plain m n0 n1 :
  mapping_ok m -> values (extents_of m) = [n0; n1] -> 0 < n0 -> 0 < n1 ->
  exists m', transposed_layout (Plain m) = Some (Plain m') /\ mapping_ok m' /\
    extents_of m' = rev (extents_of m) /\ ref_strides m' = rev (ref_strides m).
Proof.
  intros Hm He Hn0 Hn1. pose proof Hm as [Hd Hl]. pose proof (dims_rev _ Hd) as Hd'.
  assert (length (extents_of m) = 2%nat) as Hlen.
  { rewrite <- (length_fmap dim_extent), He. done. }
  destruct m as [e|e|e ss|p e s|p e s]; simpl in *.
  - eexists. split; [reflexivity|]. split; [split; [done|]|split; [done|]]; simpl.
    + by rewrite values_rev, grown_rev, product_rev.
    + by rewrite values_rev, rev_involutive.
  - eexists. split; [reflexivity|]. split; [split; [done|]|split; [done|]]; simpl.
    + by rewrite values_rev, grown_rev, product_rev.
    + by rewrite values_rev, rev_involutive.
  - destruct Hl as (Hss & Hf & Hspan). unfold rank in Hss. rewrite Hlen in Hss.
    destruct ss as [|s0 [|s1 [|]]]; try done. simpl.
    eexists. split; [reflexivity|]. split; [split; [done|]|split; [done|done]]. simpl.
    split; [by rewrite rank_rev; unfold rank; rewrite Hlen|].
    change [s1; s0] with (rev [s0; s1]). split; [exact (Forall_rev Hf)|].
    rewrite values_rev. intros Hne. destruct (Hspan (proj1 (nonempty_rev _) Hne)) as [Hp Hsp].
    split; [exact (Forall_rev Hp)|]. rewrite span_rev; [done|]. by rewrite length_fmap, Hlen.
  - assert (stride (LayoutLeftPadded p e s) 1 = Some s) as Hst.
    { rewrite stride_ok; [simpl; by rewrite He|done|simpl; unfold rank; lia]. }
    simpl in Hst. rewrite Hst. simpl. rewrite He in Hl. unfold right_padded_with_padding.
    rewrite rank_rev. unfold rank. rewrite Hlen. simpl.
    rewrite (extent_lookup (rev e) 1 n0) by (by rewrite values_rev, He). simpl.
    rewrite (padded_stride_kept _ _ _ _ _ Hn0 Hl). simpl.
    eexists. split; [reflexivity|]. split; [split; [done|]|split; [done|]]; simpl.
    + by rewrite last_static_first, rev_involutive, values_rev, rev_involutive, He.
    + by rewrite values_rev, rev_involutive.
  - assert (stride (LayoutRightPadded p e s) 0 = Some s) as Hst.
    { rewrite stride_ok; [simpl; by rewrite He|done|simpl; unfold rank; lia]. }
    simpl in Hst. rewrite Hst. simpl. rewrite He in Hl. simpl in Hl. unfold left_padded_with_padding.
    rewrite rank_rev. unfold rank. rewrite Hlen. simpl.
    rewrite (extent_lookup (rev e) 0 n1) by (by rewrite values_rev, He). simpl.
    rewrite (padded_stride_kept _ _ _ _ _ Hn1 Hl). simpl.
    eexists. split; [reflexivity|]. split; [split; [done|]|split; [done|]]; simpl.
    + by rewrite <- last_static_first, values_rev, He.
    + by rewrite values_rev, rev_involutive.
Qed.

Lemma transposed_layout_ok l n0 n1 :
  matrix_layout l -> values (layout_extents l) = [n0; n1] -> 0 < n0 -> 0 < n1 ->
  exists l', transposed_layout l = Some l' /\ matrix_layout l' /\
    layout_extents l' = rev (layout_extents l) /\
    forall i j, 0 <= i < n0 -> 0 <= j < n1 -> layout_call l' [j; i] = layout_call l [i; j].
Proof.
  intros [Hlen Hl] He Hn0 Hn1. destruct l as [m|u c e|nested|e f].
  - destruct (transposed_plain m n0 n1 Hl He Hn0 Hn1) as (m' & Ht & Hm' & Hext & Hs).
    exists (Plain m'). split; [done|]. split; [split; [simpl; by rewrite Hext, length_rev|done]|].
    split; [done|]. intros i j Hi Hj. apply (reversed_call m m' [i; j]); try done.
    simpl in He. rewrite He. by repeat apply Forall2_cons_2.
  - destruct Hl as (n & Hn & Hn' & Hmax). simpl in He. rewrite He in Hn. injection Hn as -> ->.
    assert (values (rev e) = [n; n]) as He' by (by rewrite values_rev, He).
    eexists. split; [reflexivity|]. split; [split; [simpl; by rewrite length_rev|]|split; [done|]].
    { exists n. done. }
    intros i j Hi Hj. assert (n <= index_max) by nia. simpl.
    rewrite !cast_nonneg by lia. rewrite !(packed_call_ok _ _ _ n) by done.
    rewrite Z.min_comm, Z.max_comm. by destruct u, c.
  - exists nested. simpl in *. split; [done|]. rewrite length_rev in Hlen. split; [done|].
    by rewrite rev_involutive.
  - eexists. split; [reflexivity|]. split; [split; [simpl; by rewrite length_rev|done]|]. done.
Qed.
End transposed.

(** ** Views of views *)

Section views_of_views.
Context `{IndexType} {E : Type} `{Scalar E}.
Implicit Types (v t : view E) (M : memory E) (js : list Z) (i j : Z).

Lemma transposed_ok v n0 n1 :
  matrix_layout (view_layout v) -> sizes v = [n0; n1] -> 0 < n0 -> 0 < n1 ->
  exists t, transposed v = Some t /\ matrix_layout (view_layout t) /\ sizes t = [n1; n0] /\
    forall i j, 0 <= i < n0 -> 0 <= j < n1 ->
      address t [j; i] = address v [i; j] /\ forall M, element t [j; i] M = element v [i; j] M.
Proof.
  intros Hl Hv Hn0 Hn1.
  destruct (transposed_layout_ok _ _ _ Hl Hv Hn0 Hn1) as (l' & Ht & Hl' & He & Hcall).
  unfold transposed. rewrite rank_sizes, Hv. simpl. rewrite Ht. simpl.
  eexists. split; [reflexivity|]. split; [done|]. split.
  - unfold sizes, view_extents. simpl. rewrite He, values_rev. unfold sizes, view_extents in Hv. by rewrite Hv.
  - intros i j Hi Hj. unfold address, element. simpl. by rewrite Hcall.
Qed.

Lemma scaled_ok (alpha : E) v js M :
  element (scaled alpha v) js M = mul_ alpha <$> element v js M /\
  address (scaled alpha v) js = address v js.
Proof. unfold element, address. simpl. by destruct (layout_call (view_layout v) js). Qed.

Lemma conjugated_ok v js M :
  (forall e : E, conj_if_needed (conj_if_needed e) = e) ->
  element (conjugated v) js M = conj_if_needed <$> element v js M /\
  address (conjugated v) js = address v js.
Proof.
  intros Hconj. unfold element, address, conjugated.
  destruct (view_accessor v) as [|s a|a] eqn:Ha.
  - destruct has_conj eqn:Hc; simpl; rewrite ?Ha; (split; [|done]);
      (destruct (layout_call (view_layout v) js); [|done]); simpl;
      unfold conj_if_needed; rewrite Hc; by destruct (M !! _).
  - destruct has_conj eqn:Hc; simpl; rewrite ?Ha; (split; [|done]);
      (destruct (layout_call (view_layout v) js); [|done]); simpl;
      unfold conj_if_needed; rewrite Hc; by destruct (access a _ _ _).
  - simpl. split; [|done]. destruct (layout_call (view_layout v) js); [|done]. simpl.
    destruct (access a _ _ _); simpl; by rewrite ?Hconj.
Qed.
End views_of_views.
