(* ===== verification/LinalgVectorised.v ===== *)
(** * linalg: the vectorised loops

    They leave what the plain loops leave: those that assign elements for any
    arithmetic, those that sum where addition is associative and commutative.
    The index must have room for one more vector than the size. *)
From S2P Require Import Prelude Extents Layouts LinalgViews LinalgLevel2 LinalgSimd LinalgSpec.
From S2P Require Import LinalgProducts LinalgSolve LinalgVectors.

#[local] Open Scope Z_scope.
#[local] Open Scope prog_scope.

Section vectorised.
Context `{IndexType} {E : Type} `{Scalar E} (kN : Z) (HkN : 0 < kN).
Implicit Types (v w x y from to A : view E) (f g old : list Z -> E) (M : memory E) (i j n : Z).
#[local] Set Default Proof Using "HkN".

(** A vector whose elements lie one after the other. *)
Definition contiguous v n : Prop :=
  sizes v = [n] /\ view_accessor v = DefaultAccessor /\
  forall i, 0 <= i < n -> layout_call (view_layout v) [i] = Some i.

Lemma load_get v n i M : contiguous v n -> 0 <= i < n -> load (view_handle v) i M = get v [i] M.
Proof using Type. intros (_ & Hd & Hc) Hi. unfold load, get, element. by rewrite Hc, Hd by done. Qed.

Lemma store_set v n i (e : E) M :
  contiguous v n -> 0 <= i < n -> store (view_handle v) i e M = set v [i] e M.
Proof using Type. intros (_ & Hd & Hc) Hi. unfold store, set, address. by rewrite Hd, Hc by done. Qed.

(** The loop over vectors: where it ends, no further vector fits. *)
Lemma vector_loop_ok {R} (I : Z -> R -> memory E -> Prop) n body a M :
  0 <= n -> n + kN <= index_max -> I 0 a M ->
  (forall i a M, 0 <= i -> i + kN <= n -> I i a M ->
    exists a' M', body i a M = Some (a', M') /\ I (i + kN) a' M') ->
  exists i a' M', vector_loop kN (Z.to_nat n) n 0 body a M = Some ((i, a'), M') /\
    0 <= i <= n /\ I i a' M'.
Proof.
  intros Hn Hmax HI Hb.
  assert (forall fuel i a M, 0 <= i <= n -> n - i <= Z.of_nat fuel -> I i a M ->
    exists i' a' M', vector_loop kN fuel n i body a M = Some ((i', a'), M') /\ 0 <= i' <= n /\ I i' a' M')
    as Hall; [|apply Hall; [lia|lia|done]].
  clear HI a M. induction fuel as [|fuel IH]; intros i a M Hi Hf HI; simpl;
    rewrite (cast_nonneg kN), arith_nonneg, prog_defined_bind by lia.
  - zb. by exists i, a, M.
  - case_zb; [|by exists i, a, M]. destruct (Hb i a M ltac:(lia) ltac:(lia) HI) as (a' & M' & Hrun & HI').
    rewrite (prog_bind_ok _ _ _ _ _ Hrun), cast_nonneg by lia. apply IH; [lia|lia|done].
Qed.

Lemma collected i (t : Z -> E) k :
  0 <= k -> foldl (fun vs j => vs ++ [t (i + j)]) [] (up 0 k) = t <$> up i (i + k).
Proof.
  revert k. apply natlike_ind; [by rewrite !up_nil by lia|].
  intros k Hk IH. unfold Z.succ. rewrite up_snoc, foldl_snoc, IH by lia.
  replace (i + (k + 1)) with ((i + k) + 1) by lia. by rewrite up_snoc, fmap_app by lia.
Qed.

Lemma load_vector_ok p i (t : Z -> E) M :
  (forall j, i <= j < i + kN -> load p j M = Some (t j, M)) ->
  load_vector kN p i M = Some (t <$> up i (i + kN), M).
Proof.
  intros Ht. unfold load_vector.
  rewrite (accumulate_pure _ _ (fun vs j => vs ++ [t (i + j)])).
  - by rewrite collected by lia.
  - intros j vs Hj%elem_of_up. by rewrite (prog_bind_ok _ _ _ _ _ (Ht (i + j) ltac:(lia))).
Qed.

Lemma store_vector_ok w n lo hi (t cur : Z -> E) M0 M :
  contiguous w n -> distinct (address w) (within w) -> 0 <= lo <= hi -> hi <= n ->
  stored (address w) (within w) (of_index cur) M0 M ->
  exists M', store_vector (view_handle w) lo (t <$> up lo hi) M = Some (tt, M') /\
    stored (address w) (within w)
      (of_index (fun k => if (lo <=? k) && (k <? hi) then t k else cur k)) M0 M'.
Proof.
  intros Hc Hdis Hlo Hhi. pose proof Hc as (Hw & Hd & _).
  remember (Z.to_nat (hi - lo)) as k eqn:Hk. revert lo Hlo Hk cur M.
  induction k as [|k IH]; intros lo Hlo Hk cur M Hst.
  - rewrite up_nil by lia. exists M. split; [done|]. eapply stored_index; [done| |exact Hst].
    intros j _. by replace ((lo <=? j) && (j <? hi)) with false by lia.
  - rewrite up_cons by lia. simpl.
    destruct (assign_ok _ _ _ _ _ lo (t lo) Hw Hd Hdis ltac:(lia) Hst) as (M1 & Hset & Hst1).
    rewrite <- (store_set w n) in Hset by (done || lia). rewrite (prog_bind_ok _ _ _ _ _ Hset).
    destruct (IH (lo + 1) ltac:(lia) ltac:(lia) _ M1 Hst1) as (M2 & Hrun & Hst2).
    exists M2. split; [done|]. eapply stored_index; [done| |exact Hst2].
    intros j _. unfold put. destruct (Z.eqb_spec j lo) as [->|Hne].
    + by replace ((lo + 1 <=? lo) && (lo <? hi)) with false by lia;
        replace ((lo <=? lo) && (lo <? hi)) with true by lia.
    + by replace (lo + 1 <=? j) with (lo <=? j) by lia.
Qed.

(** The elements before [i] are done. *)
Definition done_to (t : Z -> E) old i k : E := if k <? i then t k else old [k].

(** A loop over vectors and then over the rest, that assigns [t] from left to
    right. *)
Lemma assign_vectors_ok w n (t : Z -> E) old block single M0 :
  contiguous w n -> 0 <= n -> n + kN <= index_max -> writable M0 w (within w) old ->
  (forall i M, 0 <= i -> i + kN <= n ->
    stored (address w) (within w) (of_index (done_to t old i)) M0 M ->
    block i tt M = store_vector (view_handle w) i (t <$> up i (i + kN)) M) ->
  (forall i M, 0 <= i < n ->
    stored (address w) (within w) (of_index (done_to t old i)) M0 M ->
    single i M = set w [i] (t i) M) ->
  assigns M0 w (within w) (of_index t)
    (r ← vector_loop kN (Z.to_nat n) n 0 block tt; loop (up r.1 n) single).
Proof.
  intros Hc Hn Hmax Hw Hblock Hsingle. pose proof Hc as (Hs & _ & _).
  pose proof (writable_stored _ _ _ _ Hw) as Hst0. destruct Hw as [Hd Hdis _].
  destruct (vector_loop_ok (fun i (_ : unit) M =>
    stored (address w) (within w) (of_index (done_to t old i)) M0 M) n block tt M0)
    as (i & [] & M1 & Hrun & Hi & Hst1); [done|done| | |].
  - eapply stored_ext; [|exact Hst0]. intros js Hjs.
    apply (within_vector _ _ _ Hs), list_elem_of_fmap in Hjs as (k & -> & Hk%elem_of_up).
    simpl. unfold done_to. by zb.
  - intros i [] M Hi Hin Hst. rewrite Hblock by done.
    destruct (store_vector_ok w n i (i + kN) t _ M0 M Hc Hdis ltac:(lia) Hin Hst) as (M' & Hrun & Hst').
    exists tt, M'. split; [done|]. eapply stored_index; [done| |exact Hst'].
    intros k _. unfold done_to. repeat case_zb; simpl; try done; lia.
  - unfold assigns. rewrite (prog_bind_ok _ _ _ _ _ Hrun). simpl.
    destruct (accumulate_rule (fun done (_ : unit) M =>
      stored (address w) (within w) (of_index (done_to t old (i + Z.of_nat (length done)))) M0 M)
      (up i n) (fun k _ => single k) tt M1) as ([] & M2 & Hloop & Hst2).
    + simpl. by rewrite Z.add_0_r.
    + intros done k rest [] M Hsplit HM. destruct (up_split _ _ _ _ _ Hsplit) as (Hk & -> & _).
      rewrite length_up in HM by lia. replace (i + (k - i)) with k in HM by lia.
      rewrite (Hsingle k M) by (done || lia).
      destruct (assign_ok _ _ _ _ _ k (t k) Hs Hd Hdis ltac:(lia) HM) as (M' & Hset & HM').
      exists tt, M'. split; [done|]. eapply stored_index; [done| |exact HM'].
      intros j _. rewrite length_app, Nat2Z.inj_add, length_up by lia. simpl.
      unfold put, done_to. repeat case_zb; subst; try done; lia.
    + exists M2. split; [done|]. eapply stored_index; [done| |exact Hst2].
      intros k Hk. rewrite length_up by lia. unfold done_to. by zb.
Qed.

Lemma copy_simd_ok from to n f old M :
  contiguous from n -> contiguous to n -> 0 <= n -> n + kN <= index_max ->
  writable M to (within to) old -> input_same M from (within from) f to (within to) ->
  assigns M to (within to) (of_index (fun i => f [i])) (copy_simd kN from to).
Proof.
  intros Hf Ht Hn Hmax Hw Hi. pose proof Hf as (Hsf & _ & _). pose proof Ht as (Hst & _ & _).
  unfold assigns, copy_simd. run. cbv zeta.
  assert (forall i j M', 0 <= i -> i <= j < n ->
    stored (address to) (within to) (of_index (done_to (fun i => f [i]) old i)) M M' ->
    load (view_handle from) j M' = Some (f [j], M')) as Hload.
  { intros i j M' Hi0 Hj HM'. rewrite (load_get from n) by (done || lia).
    apply (get_same _ _ _ _ _ _ _ _ _ [j] Hi Hw HM'); [eapply within1; [done|lia]|].
    intros _. simpl. unfold done_to. by zb. }
  apply (assign_vectors_ok to n _ old _ _ M); [done..| |].
  - intros i M' Hi0 Hin HM'.
    by rewrite (prog_bind_ok _ _ _ _ _ (load_vector_ok _ i (fun j => f [j]) M'
      (fun j Hj => Hload i j M' Hi0 ltac:(lia) HM'))).
  - intros i M' Hi0 HM'. rewrite (prog_bind_ok _ _ _ _ _ (Hload i i M' ltac:(lia) ltac:(lia) HM')).
    by apply (store_set to n).
Qed.

Lemma scale_simd_ok alpha x n f M :
  contiguous x n -> 0 <= n -> n + kN <= index_max -> writable M x (within x) f ->
  assigns M x (within x) (of_index (fun i => alpha * f [i])%E) (scale_simd kN alpha x).
Proof.
  intros Hx Hn Hmax Hw. pose proof Hx as (Hsx & Hd & _).
  unfold assigns, scale_simd. run. cbv zeta.
  assert (forall i j M', 0 <= i -> i <= j < n ->
    stored (address x) (within x) (of_index (done_to (fun i => alpha * f [i])%E f i)) M M' ->
    load (view_handle x) j M' = Some (f [j], M')) as Hload.
  { intros i j M' Hi0 Hj HM'. rewrite (load_get x n) by (done || lia).
    rewrite (get_output _ _ _ _ _ [j] Hd HM') by (eapply within1; [done|lia]).
    simpl. unfold done_to. by zb. }
  apply (assign_vectors_ok x n _ f _ _ M); [done..| |].
  - intros i M' Hi0 Hin HM'.
    rewrite (prog_bind_ok _ _ _ _ _ (load_vector_ok _ i (fun j => f [j]) M'
      (fun j Hj => Hload i j M' Hi0 ltac:(lia) HM'))).
    by rewrite <- list_fmap_compose.
  - intros i M' Hi0 HM'. rewrite (prog_bind_ok _ _ _ _ _ (Hload i i M' ltac:(lia) ltac:(lia) HM')).
    by apply (store_set x n).
Qed.
End vectorised.

(** ** Sums *)

Section sums.
Context `{IndexType} {E : Type} `{Scalar E} `{!ExactScalar E} (kN : Z) (HkN : 0 < kN).
Implicit Types (v w x y A : view E) (f g old : list Z -> E) (M : memory E) (i j n : Z) (t : Z -> E).
#[local] Set Default Proof Using "All".

Lemma foldl_sum l t (e : E) : foldl add_ e (t <$> l) = sum_from e l t.
Proof. unfold sum_from. revert e. induction l as [|k l IH]; intros e; [done|]. apply IH. Qed.

Lemma reduce_ok i t M :
  exists s, reduce (t <$> up i (i + kN)) M = Some (s, M) /\
  forall acc : E, (acc + s)%E = sum_from acc (up i (i + kN)) t.
Proof.
  rewrite up_cons, fmap_cons by lia. eexists. split; [reflexivity|]. intros acc. rewrite foldl_sum.
  change (sum_from acc (i :: ?l) t) with (sum_from (acc + t i)%E l t).
  by rewrite !(sum_from_sum (_ + _)%E), (sum_from_sum (t i)), add_assoc.
Qed.

(** A loop that sums vectors and then the rest. *)
Lemma sum_vectors_ok n t (block : Z -> E -> prog (memory E) E) M :
  0 <= n -> n + kN <= index_max ->
  (forall i acc, 0 <= i -> i + kN <= n -> block i acc M =
    (s ← reduce (t <$> up i (i + kN)); give (acc + s)%E) M) ->
  forall single, (forall i acc, 0 <= i < n -> single i acc M = Some ((acc + t i)%E, M)) ->
  exists r, vector_loop kN (Z.to_nat n) n 0 block zero M = Some (r, M) /\
  accumulate (up r.1 n) single r.2 M = Some (sum (up 0 n) t, M).
Proof.
  intros Hn Hmax Hblock single Hsingle.
  destruct (vector_loop_ok kN HkN (fun i acc M' => M' = M /\ acc = sum (up 0 i) t) n block zero M)
    as (i & acc & M' & Hrun & Hi & -> & ->); [done|done|done| |].
  - intros i acc M' Hi Hin [-> ->]. rewrite Hblock by done.
    destruct (reduce_ok i t M) as (s & Hs & Hacc). rewrite (prog_bind_ok _ _ _ _ _ Hs).
    eexists _, _. split; [reflexivity|]. split; [done|]. rewrite Hacc. unfold sum.
    by rewrite <- sum_from_app, <- up_app by lia.
  - exists (i, sum (up 0 i) t). split; [done|]. simpl.
    rewrite (sum_from_ok _ _ t) by (intros j s Hj%elem_of_up; apply Hsingle; lia).
    unfold sum. by rewrite <- sum_from_app, <- up_app by lia.
Qed.

Lemma load_products n (s t : Z -> E) i M (p q : Z) :
  0 <= i -> i + kN <= n ->
  (forall j, 0 <= j < n -> load p j M = Some (s j, M)) ->
  (forall j, 0 <= j < n -> load q j M = Some (t j, M)) ->
  forall {R} (k : list E -> prog (memory E) R),
  (vx ← load_vector kN p i; vy ← load_vector kN q i; k (zip_with mul_ vx vy)) M =
    k ((fun j => s j * t j)%E <$> up i (i + kN)) M.
Proof.
  intros Hi Hin Hf Hg R k.
  rewrite (prog_bind_ok _ _ _ _ _ (load_vector_ok kN HkN p i s M (fun j Hj => Hf j ltac:(lia)))).
  rewrite (prog_bind_ok _ _ _ _ _ (load_vector_ok kN HkN q i t M (fun j Hj => Hg j ltac:(lia)))).
  by rewrite zip_with_fmap_l, zip_with_fmap_r, zip_with_diag.
Qed.

Lemma dot_simd_ok x y n f g (init : E) M :
  contiguous x n -> contiguous y n -> 0 <= n -> n + kN <= index_max ->
  shows M x (within x) f -> shows M y (within y) g ->
  dot_simd kN x y init M = Some (sum_from init (up 0 n) (fun i => f [i] * g [i])%E, M).
Proof.
  intros Hx Hy Hn Hmax Hf Hg. pose proof Hx as (Hsx & _ & _). pose proof Hy as (Hsy & _ & _).
  unfold dot_simd. run. case_zb; [subst; by rewrite up_nil by lia|]. cbv zeta.
  assert (forall j, 0 <= j < n -> load (view_handle x) j M = Some (f [j], M)) as Hlx.
  { intros j Hj. rewrite (load_get x n) by done. eapply get_shown; [exact Hf|by eapply within1]. }
  assert (forall j, 0 <= j < n -> load (view_handle y) j M = Some (g [j], M)) as Hly.
  { intros j Hj. rewrite (load_get y n) by done. eapply get_shown; [exact Hg|by eapply within1]. }
  edestruct (sum_vectors_ok n (fun j => f [j] * g [j])%E) as (r & Hrun & Hrest); [done|done| | |].
  3: { rewrite (prog_bind_ok _ _ _ _ _ Hrun), (prog_bind_ok _ _ _ _ _ Hrest). by rewrite sum_from_sum. }
  - intros i acc Hi Hin. by apply (load_products n (fun j => f [j]) (fun j => g [j]) i M _ _ Hi Hin Hlx Hly
      (fun vs => s ← reduce vs; give (acc + s)%E)).
  - intros i acc Hi. cbv beta.
    rewrite (prog_bind_ok _ _ _ _ _ (Hlx i Hi)). by rewrite (prog_bind_ok _ _ _ _ _ (Hly i Hi)).
Qed.

(** A matrix whose rows lie one element after the other. *)
Definition contiguous_rows A m n : Prop :=
  sizes A = [m; n] /\ view_accessor A = DefaultAccessor /\
  forall i, 0 <= i < m -> exists o, forall j, 0 <= j < n -> layout_call (view_layout A) [i; j] = Some (o + j).

Lemma matrix_vector_simd_ok A x y m n a f old M :
  contiguous_rows A m n -> contiguous x n -> sizes y = [m] -> 0 <= n -> n + kN <= index_max ->
  writable M y (within y) old -> input M A (within A) a y (within y) ->
  input M x (within x) f y (within y) ->
  assigns M y (within y) (of_index (times (entries a) f n)) (matrix_vector_product_simd kN A x y).
Proof.
  intros (HA & HdA & HoA) Hx Hy Hn Hmax Hw HiA Hix. pose proof Hx as (Hsx & _ & _).
  unfold assigns, matrix_vector_product_simd. run. cbv zeta.
  eapply (fill_vector M y m _ (fun i => r ← vector_loop kN (Z.to_nat n) n 0 _ zero;
    accumulate (up r.1 n) _ r.2)); [done|done| |].
  { intros. by rewrite after_assoc. }
  intros i cur M' Hi Hst _. show_inputs Hst. destruct (HoA i Hi) as [o Ho].
  assert (forall j, 0 <= j < n -> load (view_handle x) j M' = Some (f [j], M')) as Hlx.
  { intros j Hj. rewrite (load_get x n) by done. eapply get_shown; [eassumption|by eapply within1]. }
  assert (shows M' A (within A) a) as HsA by done.
  assert (forall j, 0 <= j < n -> load (view_handle A + o) j M' = Some (a [i; j], M')) as HlA.
  { intros j Hj. pose proof (HsA [i; j] (within2 _ _ _ _ _ HA Hi Hj)) as He.
    unfold element in He. rewrite Ho, HdA in He by done. simpl in He. unfold load.
    by rewrite <- Z.add_assoc, He. }
  edestruct (sum_vectors_ok n (fun j => a [i; j] * f [j])%E) as (r & Hrun & Hrest); [done|done| | |].
  3: { rewrite (prog_bind_ok _ _ _ _ _ Hrun). exact Hrest. }
  - intros j acc Hj Hjn. cbv beta.
    assert (address A [i; 0] = Some (view_handle A + o)) as Haddr.
    { unfold address. rewrite Ho by lia. simpl. f_equal. lia. }
    rewrite Haddr, prog_defined_bind.
    by apply (load_products n (fun j => a [i; j]) (fun j => f [j]) j M' _ _ Hj Hjn HlA Hlx
      (fun vs => s ← reduce vs; give (acc + s)%E)).
  - intros j acc Hj. cbv beta. run. by rewrite (prog_bind_ok _ _ _ _ _ (Hlx j Hj)).
Qed.
End sums.

(** ** The same as the plain loops *)

Section plain.
Context `{IndexType} {E : Type} `{Scalar E}.
Implicit Types (x y w from to A : view E) (f g old : list Z -> E) (M : memory E) (n : Z).

Lemma assigns_same M w g (p q : prog (memory E) unit) :
  small w -> assigns M w (within w) g p -> assigns M w (within w) g q -> p M = q M.
Proof.
  intros Hw (M1 & -> & H1) (M2 & -> & H2). do 2 f_equal.
  apply (stored_unique (address w) (within w) (indices w) g M); [|done|done].
  intros js. by apply within_indices.
Qed.
End plain.

(** ** The end of the index type

    Where fewer than [kN] values of the index type lie above [i], the test of
    the vector loop has no meaning for a signed type, and wraps around for an
    unsigned one: it then succeeds although fewer than [kN] elements remain. *)
Lemma vector_loop_test_wraps `{IndexType} (kN i n : Z) :
  32 <= index_bits -> 0 <= i <= n -> n <= index_max -> 0 < kN <= index_max -> index_max < i + kN ->
  if index_signed then arith (i + cast kN) = None
  else exists next, arith (i + cast kN) = Some next /\ next <= n < i + kN.
Proof.
  intros Hb Hi Hn Hk Hmax. rewrite cast_nonneg by lia. unfold arith.
  replace (index_bits <? 32) with false by lia. pose proof index_bits_range.
  unfold representable, index_min, index_max in *. destruct index_signed.
  - by replace (i + kN <=? 2 ^ (index_bits - 1) - 1) with false by lia; rewrite andb_false_r.
  - exists (i + kN - 2 ^ index_bits). split; [|lia]. f_equal. unfold cast.
    symmetry. apply Z.mod_unique with 1; lia.
Qed.
