(* ===== verification/LinalgExamples.v ===== *)
(** * linalg: concrete views

    Arithmetic types, and tests of what the theorems assume of views, to be
    evaluated on concrete memory. *)
From Stdlib Require Import QArith.Qcanon.
From S2P Require Import Prelude Extents Layouts LinalgViews LinalgLevel2 LinalgSpec LinalgProducts.
From S2P Require Import LinalgSolve.

#[local] Open Scope Z_scope.

(** ** Arithmetic *)

(** Gaussian integers: [a + b i]. *)
Definition gaussian : Type := Z * Z.
#[export] Instance gaussian_dec : EqDecision gaussian.
Proof. unfold gaussian. apply _. Defined.
#[export] Instance gaussian_scalar : Scalar gaussian := {|
  zero := (0, 0);
  one := (1, 0);
  add_ '(a, b) '(c, d) := (a + c, b + d);
  sub_ '(a, b) '(c, d) := (a - c, b - d);
  mul_ '(a, b) '(c, d) := (a * c - b * d, a * d + b * c);
  div_ '(a, b) '(c, d) :=
    let n := c * c + d * d in (Z.quot (a * c + b * d) n, Z.quot (b * c - a * d) n);
  neg_ '(a, b) := (- a, - b);
  has_conj := true;
  conj '(a, b) := (a, - b);
  real '(a, b) := (a, 0);
|}.

(** Rational numbers. *)
#[export] Instance rational_dec : EqDecision Qc := Qc_eq_dec.
#[export] Instance rational_scalar : Scalar Qc := {|
  zero := Q2Qc (QArith_base.Qmake 0 1);
  one := Q2Qc (QArith_base.Qmake 1 1);
  add_ := Qcplus;
  sub_ := Qcminus;
  mul_ := Qcmult;
  div_ := Qcdiv;
  neg_ := Qcopp;
  has_conj := false;
  conj x := x;
  real x := x;
|}.
#[export] Instance rational_exact : ExactScalar Qc.
Proof. split; intros; simpl; ring. Qed.

(** ** Tests of views *)

Section tests.
Context `{IndexType} {E : Type} `{Scalar E} `{EqDecision E}.
Implicit Types (v w : view E) (f g old : list Z -> E) (M : memory E) (ids : list (list Z)).

Definition test_shows M v ids f : bool :=
  forallb (fun js => bool_decide (element v js M = Some (f js))) ids.
Definition test_apart v ids w ids' : bool :=
  forallb (fun js => forallb (fun ks => bool_decide (address v js <> address w ks)) ids') ids.
Definition test_same v ids w ids' : bool :=
  forallb (fun js => forallb (fun ks =>
    bool_decide (address v js <> address w ks) || bool_decide (js = ks)) ids') ids.

Lemma triangle_indices v n is_upper js : sizes v = [n; n] -> triangle is_upper n js -> js ∈ indices v.
Proof.
  unfold indices. intros -> Hjs. destruct js as [|i [|j [|]]]; try done. destruct Hjs as (Hi & Hj & _).
  apply elem_of_pairs. exists i, j. by rewrite !elem_of_up.
Qed.

Lemma triangle_read_triangle is_upper is_unit n js :
  triangle_read is_upper is_unit n js -> triangle is_upper n js.
Proof. destruct js as [|i [|j [|]]]; simpl; tauto. Qed.

Lemma test_shows_ok M v ids f (Q : list Z -> Prop) :
  (forall js, Q js -> js ∈ ids) -> test_shows M v ids f = true -> shows M v Q f.
Proof.
  intros HQ Ht js Hj. unfold test_shows in Ht. rewrite forallb_forall in Ht.
  specialize (Ht js ltac:(by apply list_elem_of_In, HQ)). by apply bool_decide_eq_true in Ht.
Qed.

Lemma test_apart_ok v ids w ids' (Q P : list Z -> Prop) :
  (forall js, Q js -> js ∈ ids) -> (forall js, P js -> js ∈ ids') -> test_apart v ids w ids' = true ->
  forall js ks, Q js -> P ks -> address v js <> address w ks.
Proof.
  intros HQ HP Ht js ks Hj Hk. unfold test_apart in Ht. rewrite forallb_forall in Ht.
  specialize (Ht js ltac:(by apply list_elem_of_In, HQ)). rewrite forallb_forall in Ht.
  specialize (Ht ks ltac:(by apply list_elem_of_In, HP)). by apply bool_decide_eq_true in Ht.
Qed.

Lemma test_same_ok v ids w ids' (Q P : list Z -> Prop) :
  (forall js, Q js -> js ∈ ids) -> (forall js, P js -> js ∈ ids') -> test_same v ids w ids' = true ->
  forall js ks, Q js -> P ks -> address v js = address w ks -> js = ks.
Proof.
  intros HQ HP Ht js ks Hj Hk Ha. unfold test_same in Ht. rewrite forallb_forall in Ht.
  specialize (Ht js ltac:(by apply list_elem_of_In, HQ)). rewrite forallb_forall in Ht.
  specialize (Ht ks ltac:(by apply list_elem_of_In, HP)).
  apply orb_true_iff in Ht as [Ht|Ht]; apply bool_decide_eq_true in Ht; done.
Qed.

Definition test_input M v ids f w ids' : bool := test_shows M v ids f && test_apart v ids w ids'.
Definition test_input_same M v ids f w ids' : bool := test_shows M v ids f && test_same v ids w ids'.
Definition test_output M w ids old : bool :=
  match view_accessor w with DefaultAccessor => true | _ => false end &&
  test_same w ids w ids && test_shows M w ids old.

Lemma test_input_ok M v ids f w ids' (Q P : list Z -> Prop) :
  (forall js, Q js -> js ∈ ids) -> (forall js, P js -> js ∈ ids') ->
  test_input M v ids f w ids' = true -> input M v Q f w P.
Proof.
  intros HQ HP [H1 H2]%andb_prop. split; [by eapply test_shows_ok|by eapply test_apart_ok].
Qed.

Lemma test_input_same_ok M v ids f w ids' (Q P : list Z -> Prop) :
  (forall js, Q js -> js ∈ ids) -> (forall js, P js -> js ∈ ids') ->
  test_input_same M v ids f w ids' = true -> input_same M v Q f w P.
Proof.
  intros HQ HP [H1 H2]%andb_prop. split; [by eapply test_shows_ok|by eapply test_same_ok].
Qed.

Lemma test_output_ok M w ids old (P : list Z -> Prop) :
  (forall js, P js -> js ∈ ids) -> test_output M w ids old = true -> writable M w P old.
Proof.
  intros HP [[H1 H2]%andb_prop H3]%andb_prop. split.
  - by destruct (view_accessor w).
  - intros k1 k2. by apply (test_same_ok w ids w ids P P).
  - by eapply test_shows_ok.
Qed.
End tests.

(** Discharge an assumption about concrete views. *)
Ltac in_indices :=
  intros ? ?;
  first [ apply within_indices; [vm_compute; tauto|assumption]
        | eapply triangle_indices; [reflexivity|eassumption]
        | eapply triangle_indices; [reflexivity|eapply triangle_read_triangle; eassumption] ].
Ltac test_view :=
  match goal with
  | |- writable _ ?w _ _ => apply (test_output_ok _ _ (indices w)); [in_indices|vm_compute; reflexivity]
  | |- input _ ?v _ _ ?w _ =>
      apply (test_input_ok _ _ (indices v) _ _ (indices w)); [in_indices..|vm_compute; reflexivity]
  | |- input_same _ ?v _ _ ?w _ =>
      apply (test_input_same_ok _ _ (indices v) _ _ (indices w)); [in_indices..|vm_compute; reflexivity]
  end.

(** ** A matrix and vectors in memory *)

(** Elements from address [p] on. *)
Definition from_list {E} (p : Z) (l : list E) : memory E := list_to_map (zip (seqZ p (Z.of_nat (length l))) l).

Definition matrix_view {E} (p m n : Z) : view E :=
  View p (Plain (LayoutRight [Dynamic m; Dynamic n])) DefaultAccessor.
Definition vector_view {E} (p n : Z) : view E :=
  View p (Plain (LayoutRight [Dynamic n])) DefaultAccessor.

(** What the elements at a handle are, by their index. *)
Definition vector_of {E} `{Scalar E} (l : list E) (js : list Z) : E :=
  match js with [i] => nth (Z.to_nat i) l zero | _ => zero end.
Definition matrix_of {E} `{Scalar E} (n : Z) (l : list E) (js : list Z) : E :=
  match js with [i; j] => nth (Z.to_nat (i * n + j)) l zero | _ => zero end.
