(* ===== verification/LinalgProps.v ===== *)
(** * linalg: the properties

    The algorithms compute what their names say, for element types with any
    arithmetic: only the solution of triangular systems and the vectorised sums
    assume laws of it. *)
From Stdlib Require Import QArith.Qcanon.
From S2P Require Import Prelude Extents Layouts LinalgViews LinalgLevel1 LinalgLevel2 LinalgLevel3.
From S2P Require Import LinalgSpec LinalgProducts LinalgSolve LinalgMatrices LinalgExamples.

#[local] Open Scope Z_scope.
#[local] Open Scope prog_scope.

(** C27: the products of a matrix and a vector leave in each element of the
    output the sum of the products over the row of the matrix, from zero and in
    the order of the indices ([times]), and change no other memory; with a
    summand [y], which may be the output itself, the sum is added to it.  A
    symmetric or hermitian matrix is read from one triangle only, a triangular
    one from its triangle without the diagonal that is implicitly all ones, and
    its product may be formed in place.  No law of arithmetic is assumed: the
    products of symmetric and hermitian matrices, which visit each element
    once, add in the same order. *)
Theorem matrix_vector_products_correct `{IndexType} {E} `{Scalar E} (is_upper is_unit : bool)
    (A x y z : view E) (m n : Z) (a f e old : list Z -> E) (M : memory E) :
  sizes A = [m; n] -> sizes x = [n] -> sizes y = [m] -> sizes z = [m] ->
  writable M z (within z) old -> input M x (within x) f z (within z) ->
  input_same M y (within y) e z (within z) ->
  (input M A (within A) a z (within z) ->
   assigns M z (within z) (of_index (times (entries a) f n)) (matrix_vector_product A x z) /\
   assigns M z (within z) (of_index (fun i => e [i] + times (entries a) f n i)%E)
     (matrix_vector_product_update A x y z)) /\
  (m = n -> 0 <= n -> input M A (triangle is_upper n) a z (within z) ->
   assigns M z (within z) (of_index (times (symmetric_of is_upper a) f n))
     (symmetric_matrix_vector_product is_upper A x z) /\
   assigns M z (within z) (of_index (fun i => e [i] + times (symmetric_of is_upper a) f n i)%E)
     (symmetric_matrix_vector_product_update is_upper A x y z) /\
   assigns M z (within z) (of_index (times (hermitian_of is_upper a) f n))
     (hermitian_matrix_vector_product is_upper A x z) /\
   assigns M z (within z) (of_index (fun i => e [i] + times (hermitian_of is_upper a) f n i)%E)
     (hermitian_matrix_vector_product_update is_upper A x y z)) /\
  (m = n -> input M A (triangle_read is_upper is_unit n) a z (within z) ->
   assigns M z (within z) (of_index (triangular_times is_upper is_unit a f n))
     (triangular_matrix_vector_product_to is_upper is_unit A x z)) /\
  (m = n -> writable M x (within x) f -> input M A (triangle_read is_upper is_unit n) a x (within x) ->
   assigns M x (within x) (of_index (triangular_times is_upper is_unit a f n))
     (triangular_matrix_vector_product is_upper is_unit A x)).
Proof.
  intros HA Hx Hy Hz Hw Hix Hiy. split; [|split; [|split]].
  - intros HiA. split; [by eapply matrix_vector_product_ok|by eapply matrix_vector_product_update_ok].
  - intros -> Hn HiA. split; [by eapply symmetric_product_ok|].
    split; [by eapply symmetric_update_ok|]. split; [by eapply hermitian_product_ok|].
    by eapply hermitian_update_ok.
  - intros -> HiA. by eapply triangular_product_to_ok.
  - intros -> Hwx HiA. by eapply triangular_product_ok.
Qed.

(** C28: solving a triangular system and multiplying its matrix with the
    solution gives back the right-hand side: with exact arithmetic, and where
    division by the elements of the diagonal is exact (if they are not
    implicitly one), the memory after both is the memory before.  This is so for
    a vector, and for all columns of a matrix at once. *)
Theorem triangular_solve_correct `{IndexType} {E} `{Scalar E} `{!ExactScalar E}
    (is_upper is_unit : bool) (A x B : view E) (m n : Z) (a f g : list Z -> E) (M : memory E) :
  sizes A = [n; n] ->
  (is_unit = false -> forall i e, 0 <= i < n -> (a [i; i] * (e / a [i; i]) = e)%E) ->
  (sizes x = [n] -> writable M x (within x) f ->
   input M A (triangle_read is_upper is_unit n) a x (within x) ->
   (triangular_matrix_vector_solve is_upper is_unit A x;;
    triangular_matrix_vector_product is_upper is_unit A x) M = Some (tt, M)) /\
  (sizes B = [n; m] -> 0 <= n -> 0 <= m -> n * m < 2 ^ 64 -> n < 2 ^ 64 -> m < 2 ^ 64 ->
   writable M B (within B) g ->
   input M A (triangle_read is_upper is_unit n) a B (within B) ->
   (triangular_matrix_matrix_left_solve is_upper is_unit A B;;
    triangular_matrix_left_product is_upper is_unit A B) M = Some (true, M)).
Proof.
  intros HA Hdiv. split.
  - intros Hx Hw HiA.
    destruct (triangular_solve_ok A x is_upper is_unit n a f M HA Hx Hw HiA) as (t & M1 & Hrun & Hst & Hs).
    rewrite (prog_bind_ok _ _ _ _ _ Hrun).
    destruct (triangular_product_ok A x is_upper is_unit n a (of_index t) M1) as (M2 & Hrun2 & Hst2);
      [done|done|by eapply stored_writable|by eapply stored_input|].
    rewrite Hrun2. do 2 f_equal.
    eapply (stored_undo (address x) (within x) (indices x)); [|by eapply writable_stored|done|done|].
    + intros js. apply within_indices. rewrite Hx. by left.
    + intros js Hjs. apply (within_vector _ _ _ Hx), list_elem_of_fmap in Hjs as (i & -> & Hi%elem_of_up).
      apply solved_times; auto.
  - intros HB Hn Hm Hnm Hn64 Hm64 Hw HiA.
    destruct (left_solve_ok A B is_upper is_unit n m a g M HA HB Hw HiA) as (t & M1 & Hrun & Hst & Hs).
    rewrite (prog_bind_ok _ _ _ _ _ Hrun).
    pose proof (left_product_ok A B is_upper is_unit n m a (of_pair t) M1 HA HB ltac:(lia) ltac:(lia)
      ltac:(by eapply stored_writable) ltac:(by eapply stored_input)) as Hleft.
    replace (n * m <? 2 ^ 64) with true in Hleft by lia. destruct Hleft as (M2 & Hrun2 & Hst2).
    rewrite Hrun2. do 2 f_equal.
    eapply (stored_undo (address B) (within B) (indices B)); [|by eapply writable_stored|done|done|].
    + intros js. apply within_indices. rewrite HB. by right.
    + intros js Hjs. apply (within_matrix _ _ _ _ HB), elem_of_pairs in Hjs
        as (i & j & -> & Hi%elem_of_up & Hj%elem_of_up).
      apply (solved_times is_upper is_unit a (of_index (fun k => g [k; j])) (fun k => t k j)); auto.
Qed.

(** C29: the products of matrices leave in each element of the output the sum of
    the products of a row and a column, in order, from zero, and change no other
    memory: of general matrices, with a summand that may be the output itself,
    and of a symmetric or hermitian matrix given by a triangle.  The products in
    place with a triangular matrix on the left or the right do so too, from a
    copy of the matrix; when the number of its elements does not fit into 64
    bits they throw [length_error] and change nothing. *)
Theorem matrix_products_correct `{IndexType} {E} `{Scalar E} (is_upper is_unit : bool)
    (A B C Em : view E) (m k n : Z) (a b e old : list Z -> E) (M : memory E) :
  sizes B = [k; n] -> sizes Em = [m; n] -> sizes C = [m; n] -> writable M C (within C) old ->
  (sizes A = [m; k] -> input M A (within A) a C (within C) -> input M B (within B) b C (within C) ->
   input_same M Em (within Em) e C (within C) ->
   assigns M C (within C) (of_pair (product_entry (entries a) b k)) (matrix_product A B C) /\
   assigns M C (within C) (of_pair (fun i j => e [i; j] + product_entry (entries a) b k i j)%E)
     (matrix_product_update A B Em C)) /\
  (k = m -> sizes A = [m; m] -> input M A (triangle is_upper m) a C (within C) ->
   input M B (within B) b C (within C) ->
   assigns M C (within C) (of_pair (product_entry (symmetric_of is_upper a) b m))
     (symmetric_matrix_product is_upper A B C) /\
   assigns M C (within C) (of_pair (product_entry (hermitian_of is_upper a) b m))
     (hermitian_matrix_product is_upper A B C)) /\
  (0 <= m < 2 ^ 64 -> 0 <= n < 2 ^ 64 ->
   (sizes A = [m; m] -> input M A (triangle_read is_upper is_unit m) a C (within C) ->
    if m * n <? 2 ^ 64 then
      exists M', triangular_matrix_left_product is_upper is_unit A C M = Some (true, M') /\
        stored (address C) (within C) (of_pair (fun i j =>
          triangular_times is_upper is_unit a (of_index (fun l => old [l; j])) m i)) M M'
    else triangular_matrix_left_product is_upper is_unit A C M = Some (false, M)) /\
   (sizes A = [n; n] -> input M A (triangle_read is_upper is_unit n) a C (within C) ->
    if m * n <? 2 ^ 64 then
      exists M', triangular_matrix_right_product is_upper is_unit A C M = Some (true, M') /\
        stored (address C) (within C) (of_pair (times_triangular is_upper is_unit a old n)) M M'
    else triangular_matrix_right_product is_upper is_unit A C M = Some (false, M))).
Proof.
  intros HB HE HC Hw. split; [|split].
  - intros HA HiA HiB HiE. split; [by eapply matrix_product_ok|by eapply matrix_product_update_ok].
  - intros -> HA HiA HiB.
    split; [by eapply symmetric_product_matrix_ok|by eapply hermitian_product_matrix_ok].
  - intros Hm Hn. split; intros HA HiA; [by apply left_product_ok|by apply right_product_ok].
Qed.

(** C30: the updates of rank 1, 2, k and 2k leave in each element what their
    formula gives, and change no other memory.  Those of symmetric and hermitian
    matrices write one triangle only; a hermitian one gets a real diagonal.  The
    matrix they add to may be the output itself. *)
Theorem rank_updates_correct `{IndexType} {E} `{Scalar E} (is_upper : bool) (alpha : E)
    (A Em B C x y : view E) (n p k : Z) (b c e f g old : list Z -> E) (M : memory E) :
  let r := real_if_needed in let co := conj_if_needed in
  sizes x = [n] -> sizes Em = [n; p] -> sizes A = [n; p] ->
  (sizes y = [p] -> writable M A (within A) old -> input M x (within x) f A (within A) ->
   input M y (within y) g A (within A) -> input_same M Em (within Em) e A (within A) ->
   let updated h prog := assigns M A (within A) (of_pair h) prog in
   updated (fun i j => f [i] * g [j])%E (matrix_rank_1_update x y A) /\
   updated (fun i j => e [i; j] + f [i] * g [j])%E (matrix_rank_1_update_from x y Em A) /\
   updated (fun i j => f [i] * co (g [j]))%E (matrix_rank_1_update_c x y A) /\
   updated (fun i j => e [i; j] + f [i] * co (g [j]))%E (matrix_rank_1_update_c_from x y Em A)) /\
  (p = n -> sizes y = [n] -> sizes B = [n; k] -> sizes C = [n; k] ->
   let T := triangle is_upper n in
   writable M A T old -> input M x (within x) f A T -> input M y (within y) g A T ->
   input M B (within B) b A T -> input M C (within C) c A T -> input_same M Em T e A T ->
   let updated h prog := assigns M A T (of_pair h) prog in
   (updated (fun i j => alpha * f [i] * f [j])%E (symmetric_matrix_rank_1_update alpha x A is_upper) /\
    updated (fun i j => e [i; j] + alpha * f [i] * f [j])%E
      (symmetric_matrix_rank_1_update_from alpha x Em A is_upper) /\
    updated (fun i j => f [i] * g [j] + g [i] * f [j])%E (symmetric_matrix_rank_2_update x y A is_upper) /\
    updated (fun i j => e [i; j] + f [i] * g [j] + g [i] * f [j])%E
      (symmetric_matrix_rank_2_update_from x y Em A is_upper) /\
    updated (fun i j => alpha * (f [i] * g [j] + g [i] * f [j]))%E
      (symmetric_matrix_rank_2_update_scaled alpha is_upper x y A)) /\
   (updated (fun i j => real_diagonal i j (r alpha * f [i] * co (f [j]))%E)
      (hermitian_matrix_rank_1_update alpha x A is_upper) /\
    updated (fun i j => real_diagonal i j (e [i; j] + r alpha * f [i] * co (f [j]))%E)
      (hermitian_matrix_rank_1_update_from alpha x Em A is_upper) /\
    updated (fun i j => real_diagonal i j (r one * f [i] * co (f [j]))%E)
      (hermitian_matrix_rank_1_update_one is_upper x A) /\
    updated (fun i j => real_diagonal i j (f [i] * co (g [j]) + g [i] * co (f [j]))%E)
      (hermitian_matrix_rank_2_update x y A is_upper) /\
    updated (fun i j => real_diagonal i j (e [i; j] + f [i] * co (g [j]) + g [i] * co (f [j]))%E)
      (hermitian_matrix_rank_2_update_from x y Em A is_upper)) /\
   (updated (fun i j => alpha * rows_product id b b k i j)%E
      (symmetric_matrix_rank_k_update alpha B A is_upper) /\
    updated (fun i j => e [i; j] + alpha * rows_product id b b k i j)%E
      (symmetric_matrix_rank_k_update_from alpha B Em A is_upper) /\
    updated (rows_product_2 b c k) (symmetric_matrix_rank_2k_update B C A is_upper) /\
    updated (fun i j => e [i; j] + rows_product_2 b c k i j)%E
      (symmetric_matrix_rank_2k_update_from B C Em A is_upper) /\
    updated (fun i j => alpha * rows_product_2 b c k i j)%E
      (symmetric_matrix_rank_2k_update_scaled alpha is_upper B C A)) /\
   (updated (fun i j => real_diagonal i j (r alpha * rows_product co b b k i j)%E)
      (hermitian_matrix_rank_k_update alpha B A is_upper) /\
    updated (fun i j => real_diagonal i j (e [i; j] + r alpha * rows_product co b b k i j)%E)
      (hermitian_matrix_rank_k_update_from alpha B Em A is_upper) /\
    updated (fun i j => real_diagonal i j (r one * rows_product co b b k i j)%E)
      (hermitian_matrix_rank_k_update_one is_upper B A))).
Proof.
  intros r co Hx HE HA. split.
  - intros Hy Hw Hix Hiy HiE. by eapply (rank_1_ok x y Em A n p).
  - intros -> Hy HB HC T Hw Hix Hiy HiB HiC HiE updated.
    split; [by eapply symmetric_rank_ok|]. split; [by eapply hermitian_rank_ok|].
    split; [by eapply symmetric_rank_k_ok|by eapply hermitian_rank_k_ok].
Qed.

(** ** Witnesses *)

(** Over the Gaussian integers: a 2 by 2 matrix at 0, vectors at 4 and 6, and
    the output at 8. *)
Definition demo_elements : list gaussian :=
  [(2, 0); (1, 3); (0, 1); (-1, 0); (3, 0); (1, -1); (5, 0); (0, 2); (0, 0); (0, 0)].
Definition demo_memory : memory gaussian := from_list 0 demo_elements.

Lemma matrix_vector_products_correct_witness :
  let A := matrix_view 0 2 2 in let x := vector_view 4 2 in let z := vector_view 8 2 in
  assigns demo_memory z (within z)
    (of_index (times (hermitian_of true (matrix_of 2 demo_elements))
      (vector_of [(3, 0); (1, -1)]) 2))
    (hermitian_matrix_vector_product true A x z) /\
  times (hermitian_of true (matrix_of 2 demo_elements)) (vector_of [(3, 0); (1, -1)]) 2 1 = (2, -8).
Proof.
  intros A x z. split; [|vm_compute; reflexivity].
  destruct (matrix_vector_products_correct true true A x (vector_view 6 2) z 2 2
    (matrix_of 2 demo_elements) (vector_of [(3, 0); (1, -1)]) (vector_of [(5, 0); (0, 2)])
    (vector_of [(0, 0); (0, 0)]) demo_memory eq_refl eq_refl eq_refl eq_refl ltac:(test_view)
    ltac:(test_view) ltac:(test_view)) as (_ & Hsym & _ & _).
  apply Hsym; [reflexivity|lia|test_view].
Defined.

(** Over the rational numbers: an upper triangular matrix at 0, a vector at 4,
    a matrix with two columns at 6. *)
Definition rational (n : Z) : Qc := Q2Qc (QArith_base.Qmake n 1).
Definition demo_rationals : list Qc :=
  rational <$> [2; 1; 7; 4; 3; 5; 1; 2; 3; 4].

Lemma triangular_solve_correct_witness :
  let A := matrix_view 0 2 2 in let x := vector_view 4 2 in let B := matrix_view 6 2 2 in
  let M := from_list 0 demo_rationals in
  (triangular_matrix_vector_solve true false A x;;
   triangular_matrix_vector_product true false A x) M = Some (tt, M) /\
  (triangular_matrix_matrix_left_solve true false A B;;
   triangular_matrix_left_product true false A B) M = Some (true, M).
Proof.
  intros A x B M.
  destruct (triangular_solve_correct true false A x B 2 2 (matrix_of 2 demo_rationals)
    (vector_of (drop 4 demo_rationals)) (matrix_of 2 (drop 6 demo_rationals)) M eq_refl)
    as [Hsolve Hleft].
  - intros _ i e Hi. assert (i = 0 \/ i = 1) as [-> | ->] by lia; simpl; by apply Qcmult_div_r.
  - split; [apply Hsolve; [reflexivity|test_view..]|apply Hleft; [reflexivity|lia..|test_view|test_view]].
Defined.

Lemma matrix_products_correct_witness :
  let A := matrix_view 0 2 2 in let B := matrix_view 2 2 2 in let C := matrix_view 6 2 2 in
  assigns demo_memory C (within C)
    (of_pair (product_entry (entries (matrix_of 2 demo_elements)) (matrix_of 2 (drop 2 demo_elements)) 2))
    (matrix_product A B C) /\
  product_entry (entries (matrix_of 2 demo_elements)) (matrix_of 2 (drop 2 demo_elements)) 2 1 0 = (-4, 0).
Proof.
  intros A B C. split; [|vm_compute; reflexivity].
  destruct (matrix_products_correct true true A B C C 2 2 2 (matrix_of 2 demo_elements)
    (matrix_of 2 (drop 2 demo_elements)) (matrix_of 2 (drop 6 demo_elements))
    (matrix_of 2 (drop 6 demo_elements)) demo_memory eq_refl eq_refl eq_refl ltac:(test_view))
    as (Hprod & _ & _).
  apply Hprod; [reflexivity|test_view..].
Defined.

Lemma rank_updates_correct_witness :
  let A := matrix_view 0 2 2 in let x := vector_view 4 2 in
  assigns demo_memory A (triangle false 2) (of_pair (fun i j =>
    real_diagonal i j (matrix_of 2 demo_elements [i; j] +
      real_if_needed (0, 1) * vector_of (drop 4 demo_elements) [i] *
        conj_if_needed (vector_of (drop 4 demo_elements) [j]))%E))
    (hermitian_matrix_rank_1_update_from (0, 1) x A A false).
Proof.
  intros A x.
  destruct (rank_updates_correct false (0, 1) A A (matrix_view 6 2 1) (matrix_view 6 2 1) x
    (vector_view 6 2) 2 2 1 (matrix_of 1 (drop 6 demo_elements)) (matrix_of 1 (drop 6 demo_elements))
    (matrix_of 2 demo_elements) (vector_of (drop 4 demo_elements)) (vector_of (drop 6 demo_elements))
    (matrix_of 2 demo_elements) demo_memory eq_refl eq_refl eq_refl) as [_ Htri].
  apply Htri; try reflexivity; test_view.
Defined.
