(* ===== verification/LinalgVectorProps.v ===== *)
(** * linalg: the properties of views and of the operations on vectors

    The elements that views show, packed layouts, BLAS 1, the sums of magnitudes
    of integers, and the vectorised loops next to the plain ones. *)
From Stdlib Require Import QArith.Qcanon.
From S2P Require Import Prelude Extents Layouts LayoutSpec LinalgViews LinalgLevel1 LinalgLevel2.
From S2P Require Import LinalgSimd LinalgSpec LinalgProducts LinalgSolve LinalgVectors.
From S2P Require Import LinalgVectors LinalgTransposed LinalgVectorised LinalgExamples.

#[local] Open Scope Z_scope.
#[local] Open Scope prog_scope.

(** C33: the views made by [transposed], [scaled], [conjugated] and
    [conjugate_transposed] show the elements of the view they are made from
    under exchanged indices, multiplied, or conjugated, whatever the memory, and
    at the same addresses; transposing finds a layout for every valid layout of
    a matrix without empty rows or columns.  The offsets of a packed layout are
    the numbers below [n (n + 1) / 2], which is the required span: indices
    [(i, j)] and [(j, i)] share theirs, no others do, and each is used. *)
Theorem views_correct `{IndexType} {E} `{Scalar E} (alpha : E) (v : view E) (n0 n1 : Z) :
  (forall e : E, conj_if_needed (conj_if_needed e) = e) ->
  matrix_layout (view_layout v) -> sizes v = [n0; n1] -> 0 < n0 -> 0 < n1 ->
  (exists t h, transposed v = Some t /\ conjugate_transposed v = Some h /\
    sizes t = [n1; n0] /\ sizes h = [n1; n0] /\
    forall i j, 0 <= i < n0 -> 0 <= j < n1 ->
      address t [j; i] = address v [i; j] /\ address h [j; i] = address v [i; j] /\
      forall M, element t [j; i] M = element v [i; j] M /\
        element h [j; i] M = conj_if_needed <$> element v [i; j] M) /\
  (forall js M, element (scaled alpha v) js M = mul_ alpha <$> element v js M /\
    element (conjugated v) js M = conj_if_needed <$> element v js M /\
    address (scaled alpha v) js = address v js /\ address (conjugated v) js = address v js) /\
  (forall upper column_major e, view_layout v = BlasPacked upper column_major e ->
    let inside i j := 0 <= i < n0 /\ 0 <= j < n0 in
    let offset i j := packed_call upper column_major e i j in
    exists span, packed_span e = Some span /\
    (forall i j, inside i j -> exists o, offset i j = Some o /\ 0 <= o < span /\ offset j i = Some o) /\
    (forall i j i' j', inside i j -> inside i' j' -> offset i j = offset i' j' ->
      (i, j) = (i', j') \/ (i, j) = (j', i')) /\
    (forall o, 0 <= o < span -> exists i j, inside i j /\ offset i j = Some o)).
Proof.
  intros Hinv Hl Hs Hn0 Hn1. split; [|split].
  - destruct (transposed_ok v n0 n1 Hl Hs Hn0 Hn1) as (t & Ht & Htl & Hts & Hall).
    exists t, (conjugated t). unfold conjugate_transposed. rewrite Ht. repeat split.
    + done.
    + rewrite <- Hts. unfold conjugated, sizes. destruct (view_accessor t); simpl; by destruct has_conj.
    + by apply Hall.
    + rewrite (proj2 (conjugated_ok t [j; i] ∅ Hinv)). by apply Hall.
    + by apply Hall.
    + rewrite (proj1 (conjugated_ok t [j; i] M Hinv)). f_equal. by apply Hall.
  - intros js M. destruct (scaled_ok alpha v js M), (conjugated_ok v js M Hinv). by repeat split.
  - intros upper column_major e He inside offset. destruct Hl as [_ Hl]. rewrite He in Hl.
    destruct Hl as (n & Hv & Hn & Hmax). assert (n = n0) as ->.
    { revert Hs. unfold sizes, view_extents. rewrite He. simpl. rewrite Hv. by intros [= -> _]. }
    by apply packed_correct.
Qed.

(** C31: copying, scaling, adding and swapping the elements of vectors and
    matrices, and rotating those of vectors, leave in each element what they
    are named for, in terms of the elements before, and change no other memory.
    An input may be the output itself; the two that are swapped or rotated have
    elements of their own.  The scalar products add the products of the elements,
    the first of them conjugated in [dotc], to the initial value in the order of
    the indices, and [vector_idx_abs_max] finds the first of the elements whose
    magnitude no other exceeds, for every strict weak order of magnitudes, or
    gives the greatest index of an empty vector; these change no memory. *)
Theorem vector_operations_correct `{IndexType} {E R} `{Scalar E} (abs_sum_term : E -> R) (gt : R -> R -> bool)
    (alpha c s init : E) (x y z : view E) (f g old : list Z -> E) (M : memory E) :
  small x -> sizes y = sizes x -> sizes z = sizes x ->
  (writable M x (within x) f -> assigns M x (within x) (fun js => alpha * f js)%E (scale alpha x)) /\
  (writable M z (within z) old -> input_same M x (within x) f z (within z) ->
   assigns M z (within z) f (copy x z) /\
   (input_same M y (within y) g z (within z) ->
    assigns M z (within z) (fun js => f js + g js)%E (add x y z))) /\
  (writable2 M x y f g ->
   let leaves p f' g' := exists M', p M = Some (tt, M') /\
     stored (address_both x y) (within_both x) (both f' g') M M' in
   leaves (swap_elements x y) g f /\
   (length (sizes x) = 1%nat ->
    let first js := (c * f js + s * g js)%E in
    leaves (apply_givens_rotation x y c s) first (fun js => - s * f js + c * g js)%E /\
    leaves (apply_givens_rotation_complex x y c s) first (fun js => - conj s * f js + c * g js)%E)) /\
  (forall n, sizes x = [n] -> 0 <= n -> shows M x (within x) f ->
   (shows M y (within y) g ->
    dot x y init M = Some (sum_from init (up 0 n) (fun i => f [i] * g [i])%E, M) /\
    dotc x y init M = Some (sum_from init (up 0 n) (fun i => conj_if_needed (f [i]) * g [i])%E, M)) /\
   (strict_weak gt ->
    if n =? 0 then vector_idx_abs_max abs_sum_term gt x M = Some (2 ^ index_bits - 1, M)
    else exists best, vector_idx_abs_max abs_sum_term gt x M = Some (best, M) /\
      first_greatest gt (fun i => abs_sum_term (f [i])) n best)).
Proof.
  intros Hx Hy Hz. split; [by apply scale_ok|]. split; [|split].
  - intros Hw Hix. split; [by eapply copy_ok|]. intros Hiy. by eapply add_ok.
  - intros Hw. split; [by apply swap_ok|]. intros Hlen.
    destruct (sizes x) as [|n [|]] eqn:Hs; try done. by eapply givens_ok.
  - intros n Hn Hpos Hf. split; [intros Hg; apply dot_ok; by rewrite ?Hy|]. intros Hgt. by apply idx_abs_max_ok.
Qed.

(** C32: the sums of magnitudes of integers, of a vector, and the greatest of the
    columns or the rows of a matrix, are added to the initial value exactly, or
    give the greatest value of the result's type where that is less: for all
    widths and signs of the types of elements and result, with 64-bit
    intermediate sums and for the least elements, whose magnitude their own type
    cannot represent. *)
Theorem integral_sums_saturate `{IndexType} `{Scalar Z} (T V : IndexType) (x A : view Z) (m n init : Z)
    (f a : list Z -> Z) (M : memory Z) :
  let saturated s := Some (Z.min (@index_max T) (init + s), M) in
  sizes x = [n] -> shows M x (within x) f -> (forall js, within x js -> fits V (f js)) ->
  sizes A = [m; n] -> shows M A (within A) a -> (forall js, within A js -> fits V (a js)) ->
  fits T init -> 0 <= m -> 0 <= n ->
  vector_abs_sum T V x init M = saturated (abs_total (up 0 n) (fun i => f [i])) /\
  matrix_one_norm T V A init M =
    saturated (greatest (up 0 n) (fun j => abs_total (up 0 m) (fun i => a [i; j]))) /\
  matrix_inf_norm T V A init M =
    saturated (greatest (up 0 m) (fun i => abs_total (up 0 n) (fun j => a [i; j]))).
Proof.
  intros saturated Hx Hf Hfit HA Ha Hafit Hinit Hm Hn. split; [by apply abs_sum_ok|by apply norms_ok].
Qed.

(** C34: the vectorised loops end in the same result and memory as the plain
    ones, for every vector length: copying and scaling with any arithmetic, the
    scalar product and the product of a matrix and a vector, whose order of
    additions differs, where addition is associative and commutative.  The index
    type must have room for one more vector than the size: where fewer values
    than a vector has elements lie above the index, the test of the loop
    overflows, or wraps around and succeeds, although fewer elements remain. *)
Theorem vector_loops_equal_plain `{IndexType} {E} `{Scalar E} (kN : Z) (alpha : E)
    (A x y z : view E) (m n : Z) (a f g old : list Z -> E) (M : memory E) :
  0 < kN -> 0 <= n -> n + kN <= index_max -> contiguous x n -> contiguous y n ->
  (writable M x (within x) f -> scale_simd kN alpha x M = scale alpha x M) /\
  (writable M y (within y) g -> input_same M x (within x) f y (within y) ->
   copy_simd kN x y M = copy x y M) /\
  (ExactScalar E -> shows M x (within x) f -> shows M y (within y) g ->
   forall init, dot_simd kN x y init M = dot x y init M) /\
  (ExactScalar E -> contiguous_rows A m n -> sizes z = [m] -> writable M z (within z) old ->
   input M A (within A) a z (within z) -> input M x (within x) f z (within z) ->
   matrix_vector_product_simd kN A x z M = matrix_vector_product A x z M) /\
  (forall i k, 32 <= index_bits -> 0 <= i <= k -> k <= index_max < i + kN -> kN <= index_max ->
   if index_signed then arith (i + cast kN) = None
   else exists next, arith (i + cast kN) = Some next /\ next <= k < i + kN).
Proof.
  intros Hk Hn Hmax Hx Hy. pose proof Hx as (Hsx & Hdx & _). pose proof Hy as (Hsy & Hdy & _).
  assert (small x) as Hsm by (left; by rewrite Hsx).
  assert (forall v : view E, sizes v = [n] -> forall h : list Z -> E,
    forall js, within v js -> of_index (fun i => h [i]) js = h js) as Hix.
  { intros v Hv h js Hjs. apply (within_vector _ _ _ Hv), list_elem_of_fmap in Hjs as (i & -> & _). done. }
  split; [|split; [|split; [|split]]].
  - intros Hw. eapply (assigns_same M x); [done|by eapply scale_simd_ok|].
    destruct (scale_ok alpha x f M Hsm Hw) as (M' & Hrun & Hst). exists M'. split; [done|].
    eapply stored_ext; [|exact Hst]. intros js Hjs. by rewrite (Hix x Hsx (fun js => alpha * f js)%E).
  - intros Hw Hi. eapply (assigns_same M y); [left; by rewrite Hsy|by eapply copy_simd_ok|].
    destruct (copy_ok x y f g M Hsm ltac:(by rewrite Hsx) Hw Hi) as (M' & Hrun & Hst). exists M'.
    split; [done|]. eapply stored_ext; [|exact Hst]. intros js Hjs. by rewrite (Hix y Hsy f).
  - intros Hex Hf Hg init. rewrite (dot_simd_ok kN Hk x y n f g) by done.
    by rewrite (proj1 (dot_ok x y n f g init M Hsx Hf Hsy Hg)).
  - intros Hex HA Hz Hw HiA Hi. pose proof HA as (HsA & _ & _).
    eapply (assigns_same M z); [left; by rewrite Hz|by eapply matrix_vector_simd_ok|].
    by eapply matrix_vector_product_ok.
  - intros i k Hb Hi Hki HkN. apply (vector_loop_test_wraps kN i k); lia.
Qed.

(** ** Witnesses *)

(** Over the Gaussian integers, a vector of two elements at 0, another at 2, and
    the packed lower triangle of a matrix with two rows at 4. *)
Definition demo_vectors : memory gaussian :=
  from_list 0 [(2, 0); (1, 3); (0, 1); (-1, 0); (3, 0); (1, -1); (5, 0)].
Definition demo_packed : view gaussian :=
  View 4 (BlasPacked false true [Dynamic 2; Dynamic 2]) DefaultAccessor.

Lemma views_correct_witness :
  (exists t h, transposed demo_packed = Some t /\ conjugate_transposed demo_packed = Some h /\
    element t [0; 1] demo_vectors = element demo_packed [1; 0] demo_vectors /\
    element h [0; 1] demo_vectors = conj_if_needed <$> element demo_packed [1; 0] demo_vectors) /\
  element demo_packed [1; 0] demo_vectors = Some (1, -1).
Proof.
  split; [|vm_compute; reflexivity].
  destruct (views_correct (0, 1) demo_packed 2 2) as ((t & h & Ht & Hh & _ & _ & Hall) & _).
  - intros [a b]. unfold conj_if_needed. simpl. by rewrite Z.opp_involutive.
  - split; [reflexivity|]. simpl. exists 2. split; [reflexivity|]. vm_compute. split; discriminate.
  - reflexivity.
  - lia.
  - lia.
  - destruct (Hall 1 0 ltac:(lia) ltac:(lia)) as (_ & _ & Hel).
    exists t, h. split; [exact Ht|]. split; [exact Hh|]. exact (Hel demo_vectors).
Defined.

Lemma vector_operations_correct_witness :
  let x := vector_view 0 2 in let y := vector_view 2 2 in
  exists M', swap_elements x y demo_vectors = Some (tt, M') /\
    stored (address_both x y) (within_both x)
      (both (vector_of [(0, 1); (-1, 0)]) (vector_of [(2, 0); (1, 3)])) demo_vectors M' /\
  dotc x y (0, 0) demo_vectors = Some ((-1, 5), demo_vectors) /\
  exists best, vector_idx_abs_max (fun e : gaussian => Z.abs e.1 + Z.abs e.2)
      (fun a b => b <? a) x demo_vectors = Some (best, demo_vectors).
Proof.
  intros x y.
  destruct (vector_operations_correct (fun e : gaussian => Z.abs e.1 + Z.abs e.2) (fun a b => b <? a)
    (0, 1) (0, 1) (0, 1) (0, 0) x y y (vector_of [(2, 0); (1, 3)])
    (vector_of [(0, 1); (-1, 0)]) (vector_of [(0, 1); (-1, 0)]) demo_vectors) as (_ & _ & Hboth & Hsearch).
  { left. reflexivity. }
  { reflexivity. }
  { reflexivity. }
  destruct (Hsearch 2 eq_refl ltac:(lia)) as [Hdot Hmax].
  { apply (test_shows_ok _ _ (indices x)); [in_indices|vm_compute; reflexivity]. }
  destruct Hboth as [(M' & Hswap) _].
  { split; [test_view|test_view|].
    apply (test_apart_ok _ (indices x) _ (indices y)); [in_indices|in_indices|vm_compute; reflexivity]. }
  exists M'. destruct Hswap as [Hp Hst]. split; [exact Hp|]. split; [exact Hst|]. split.
  - apply Hdot. apply (test_shows_ok _ _ (indices y)); [in_indices|vm_compute; reflexivity].
  - destruct Hmax as (best & Hbest & _); [split; intros; lia|]. exists best. exact Hbest.
Defined.

(** Eight-bit elements, among them the least, with integers as scalars. *)
Definition byte_type : IndexType.
Proof. refine {| index_bits := 8; index_signed := true |}. lia. Defined.
#[local] Instance integer_scalar : Scalar Z := {|
  zero := 0; one := 1; add_ := Z.add; sub_ := Z.sub; mul_ := Z.mul; div_ := Z.quot; neg_ := Z.opp;
  has_conj := false; conj x := x; real x := x
|}.
Definition demo_integers : list Z := [-128; 127; 3; -4].

Lemma integral_sums_saturate_witness :
  let x := vector_view 0 2 in let A := matrix_view 0 2 2 in let M := from_list 0 demo_integers in
  vector_abs_sum int_index byte_type x 10 M = Some (265, M) /\
  matrix_inf_norm byte_type byte_type A (-100) M = Some (127, M).
Proof.
  intros x A M.
  assert (forall (w : view Z) (h : list Z -> Z), length (sizes w) = 1%nat \/ length (sizes w) = 2%nat ->
    forallb (fun js => bool_decide (-128 <= h js <= 127)) (indices w) = true ->
    forall js, within w js -> fits byte_type (h js)) as Hfits.
  { intros w h Hw Hall js Hjs. rewrite forallb_forall in Hall.
    specialize (Hall js (proj1 (list_elem_of_In _ _) (within_indices w js Hw Hjs))).
    by apply bool_decide_eq_true in Hall. }
  assert (shows M x (within x) (vector_of demo_integers)) as Hx
    by (apply (test_shows_ok _ _ (indices x)); [in_indices|vm_compute; reflexivity]).
  assert (shows M A (within A) (matrix_of 2 demo_integers)) as HA
    by (apply (test_shows_ok _ _ (indices A)); [in_indices|vm_compute; reflexivity]).
  pose proof (Hfits x (vector_of demo_integers) ltac:(left; reflexivity) ltac:(vm_compute; reflexivity)) as Fx.
  pose proof (Hfits A (matrix_of 2 demo_integers) ltac:(right; reflexivity) ltac:(vm_compute; reflexivity)) as FA.
  split.
  - apply (integral_sums_saturate int_index byte_type x A 2 2 10 (vector_of demo_integers)
      (matrix_of 2 demo_integers) M eq_refl Hx Fx eq_refl HA FA); [|lia|lia].
    vm_compute. split; discriminate.
  - apply (integral_sums_saturate byte_type byte_type x A 2 2 (-100) (vector_of demo_integers)
      (matrix_of 2 demo_integers) M eq_refl Hx Fx eq_refl HA FA); [|lia|lia].
    vm_compute. split; discriminate.
Defined.

Definition fraction (a : Z) (b : positive) : Qc := Q2Qc (QArith_base.Qmake a b).

Lemma vector_loops_equal_plain_witness :
  let x := vector_view 0 3 in let y := vector_view 3 3 in
  let M := from_list 0 [fraction 1 2; fraction 2 1; fraction 3 1; fraction 4 1; fraction 5 1; fraction 1 3] in
  copy_simd 2 x y M = copy x y M /\ dot_simd 2 x y 1%Qc M = dot x y 1%Qc M.
Proof.
  intros x y M. set (l := [fraction 1 2; fraction 2 1; fraction 3 1]).
  set (l' := [fraction 4 1; fraction 5 1; fraction 1 3]).
  assert (forall p, contiguous (vector_view (E:=Qc) p 3) 3) as Hc.
  { intros p. split; [reflexivity|]. split; [reflexivity|]. intros i Hi.
    assert (i = 0 \/ i = 1 \/ i = 2) as [->|[->| ->]] by lia; reflexivity. }
  assert (3 + 2 <= index_max) as Hmax by (vm_compute; discriminate).
  destruct (vector_loops_equal_plain 2 1%Qc (matrix_view 0 1 3) x y (vector_view 0 1) 1 3
    (vector_of l) (vector_of l) (vector_of l') (vector_of l) M ltac:(lia) ltac:(lia)
    Hmax (Hc 0) (Hc 3)) as (_ & Hcopy & Hdot & _).
  split.
  - apply Hcopy; test_view.
  - apply Hdot; [exact _|..].
    + apply (test_shows_ok _ _ (indices x)); [in_indices|vm_compute; reflexivity].
    + apply (test_shows_ok _ _ (indices y)); [in_indices|vm_compute; reflexivity].
Defined.
