(* ===== verification/WhenAll.v ===== *)
(** * when_all

    Models the operation state of backport/cpp26/execution/when_all.hpp.  The
    children complete in any threads, so each access to shared members is a
    definition of its own: the exchanges of the disposition, the critical
    sections that store a result, the decrement of the counter.  [X] is the type
    of the values, a completion with values has a list of them; [E] is the type
    of errors, with [std::exception_ptr] among them.  Whether copying a value or
    an error throws is a parameter, [throws]: the exception, if there is one. *)
From S2P Require Import Prelude.

#[local] Open Scope prog_scope.

Section when_all.
Context {X E : Type}.
Implicit Types (e : E) (vs : list X) (throws : option E) (i : nat).

Inductive disposition := Started | Error | Stopped.
#[export] Instance disposition_dec : EqDecision disposition.
Proof. solve_decision. Defined.

(** [std::variant<std::monostate, error_variant_t, __stopped_tag>] *)
Inductive result := Monostate | ErrorResult e | StoppedResult | Valueless.

Inductive signal := SetValue vs | SetError e | SetStopped.

(** [__op]: [stop_requested] is the state of [__stop_src]; [stop_callback]
    whether [__stop_callback_storage] has a callback. *)
Record op := Op {
  pending : Z;
  disp : disposition;
  res : result;
  partial : list (option (list X));
  stop_requested : bool;
  stop_callback : bool;
}.

Definition set_res r o := Op (pending o) (disp o) r (partial o) (stop_requested o) (stop_callback o).
Definition set_disp d o := Op (pending o) d (res o) (partial o) (stop_requested o) (stop_callback o).
Definition set_partial l o := Op (pending o) (disp o) (res o) l (stop_requested o) (stop_callback o).
Definition set_pending n o := Op n (disp o) (res o) (partial o) (stop_requested o) (stop_callback o).
Definition set_stop b o := Op (pending o) (disp o) (res o) (partial o) b (stop_callback o).
Definition set_callback b o := Op (pending o) (disp o) (res o) (partial o) (stop_requested o) b.

(** The members before the children are started. *)
Definition new_op (n : nat) : op := Op (Z.of_nat n) Started Monostate (replicate n None) false false.

(** [__stop_src.request_stop()] *)
Definition request_stop : prog op unit := modify (set_stop true).

(** What [register_outer_stop_callback] finds: no token to register with, a
    token without or with a stop request, or an exception. *)
Inductive registration := NoToken | Registered | RegisteredStopped | RegisterThrows.
Definition register_outer_stop_callback (r : registration) : prog op unit :=
  match r with
  | NoToken => give tt
  | Registered => modify (set_callback true)
  | RegisteredStopped => request_stop;; modify (set_callback true)
  | RegisterThrows => request_stop
  end.

(** [set_value] of the receiver of child [i], up to [child_fail] or
    [child_done]: the exception, if copying the values throws. *)
Definition set_value i vs throws : prog op (option E) :=
  match throws with
  | Some ex => modify (fun o => set_partial (<[i := None]> (partial o)) o);; give (Some ex)
  | None => modify (fun o => set_partial (<[i := Some vs]> (partial o)) o);; give None
  end.

(** [child_fail]: whether this is the first error; storing it, with the
    exception if that throws; storing the exception. *)
Definition child_fail_exchange : prog op bool :=
  d ← read disp;
  modify (set_disp Error);;
  give (match d with Error => false | _ => true end).
Definition child_fail_store e throws : prog op (option E) :=
  match throws with
  | Some ex => modify (set_res Valueless);; give (Some ex)
  | None => modify (set_res (ErrorResult e));; give None
  end.
Definition child_fail_store_exception (ex : E) : prog op unit := modify (set_res (ErrorResult ex)).

(** [child_stop] *)
Definition child_stop_exchange : prog op bool :=
  d ← read disp;
  match d with Started => modify (set_disp Stopped);; give true | _ => give false end.
Definition child_stop_store : prog op unit :=
  r ← read res;
  match r with Monostate => modify (set_res StoppedResult) | _ => give tt end.

(** [child_done]: whether this was the last child. *)
Definition child_done : prog op bool :=
  n ← read pending;
  let n' := u64 (n - 1) in
  modify (set_pending n');; give (n' =? 0)%Z.

(** For each child, whether it may complete with values and whether it may be
    stopped: its completion signatures. *)
Variable traits : list (bool * bool).
Definition can_value_complete : bool := forallb fst traits.
Definition sends_stopped : bool := existsb snd traits.

(** The values of all children, one after the other: each [optional] has some. *)
Fixpoint deliver_flattened (l : list (option (list X))) (vs : list X) : option (list X) :=
  match l with
  | [] => Some vs
  | Some next :: l' => deliver_flattened l' (vs ++ next)
  | None :: _ => None
  end.
Definition try_deliver_values : prog op signal :=
  l ← read partial;
  vs ← defined (deliver_flattened l []);
  give (SetValue vs).

Definition deliver : prog op signal :=
  modify (set_callback false);;
  r ← read res;
  match r with
  | ErrorResult e => give (SetError e)
  | StoppedResult => if sends_stopped then give SetStopped else undefined
  | Monostate | Valueless =>
      if can_value_complete then try_deliver_values
      else if sends_stopped then give SetStopped
      else undefined
  end.

(** ** The system

    Where the completion of a child is.  Between two phases the thread has left
    the atomic action it was in; other children's completions, also those that
    run inside [request_stop], may go on in between. *)
Inductive phase :=
  | Connected
  | Running
  | Storing vs throws                  (** in [set_value] *)
  | Failing e throws                   (** at the start of [child_fail] *)
  | FailRequest e throws               (** before [request_stop] *)
  | FailStore e throws                 (** before the result is stored *)
  | FailStoreException (ex : E)        (** in the handler of the exception *)
  | Stopping                           (** at the start of [child_stop] *)
  | StopStore
  | StopRequest
  | Counting                           (** at [child_done] *)
  | Delivering
  | Completed.

(** How a child completes: with values, an error, or stopped, and whether the
    copy throws. *)
Inductive completion := ByValue vs throws | ByError e throws | ByStopped.

(** What that counts as. *)
Inductive outcome := Value vs | Failure e | WasStopped.
Definition outcome_of (c : completion) : outcome :=
  match c with
  | ByValue vs None => Value vs
  | ByValue _ (Some ex) => Failure ex
  | ByError e None => Failure e
  | ByError _ (Some ex) => Failure ex
  | ByStopped => WasStopped
  end.

(** The operation is gone once the receiver has its signal, which may destroy
    it.  [next] is the child to be started next, when the callback is
    registered.  [outcomes], [failed] (in the order of their exchanges) and
    [log] record what happened. *)
Record system := System {
  the_op : option op;
  next : option nat;
  phases : list phase;
  outcomes : list (option outcome);
  failed : list nat;
  log : list signal;
}.

Definition init : system :=
  let n := length traits in
  System (Some (new_op n)) None (replicate n Connected) (replicate n None) [] [].

Definition set_op o sy := System o (next sy) (phases sy) (outcomes sy) (failed sy) (log sy).
Definition set_next n sy := System (the_op sy) n (phases sy) (outcomes sy) (failed sy) (log sy).
Definition set_phase i p sy := System (the_op sy) (next sy) (<[i := p]> (phases sy)) (outcomes sy) (failed sy) (log sy).
Definition set_outcome i o sy := System (the_op sy) (next sy) (phases sy) (<[i := Some o]> (outcomes sy)) (failed sy) (log sy).
Definition add_failed i sy := System (the_op sy) (next sy) (phases sy) (outcomes sy) (failed sy ++ [i]) (log sy).
Definition add_log s sy := System (the_op sy) (next sy) (phases sy) (outcomes sy) (failed sy) (log sy ++ [s]).

(** An action on the operation, which must still be there, and what follows. *)
Definition on_op {A} (p : prog op A) (f : A -> system -> system) (sy : system) : option system :=
  match the_op sy with
  | Some o => match p o with Some (a, o') => Some (f a (set_op (Some o') sy)) | None => None end
  | None => None
  end.

(** Nothing else refers to the operation after [deliver]. *)
Definition on_deliver i (sy : system) : option system :=
  match the_op sy with
  | Some o =>
      match deliver o with
      | Some (s, _) => Some (add_log s (set_phase i Completed (set_op None sy)))
      | None => None
      end
  | None => None
  end.

(** The next atomic action of the completion of child [i]. *)
Definition advance i (sy : system) : option system :=
  match phases sy !! i with
  | Some (Storing vs throws) =>
      on_op (set_value i vs throws) (fun t =>
        set_phase i (match t with None => Counting | Some ex => Failing ex None end)) sy
  | Some (Failing e throws) =>
      on_op child_fail_exchange (fun first sy => add_failed i
        (set_phase i (if first : bool then FailRequest e throws else Counting) sy)) sy
  | Some (FailRequest e throws) => on_op request_stop (fun _ => set_phase i (FailStore e throws)) sy
  | Some (FailStore e throws) =>
      on_op (child_fail_store e throws) (fun t =>
        set_phase i (match t with None => Counting | Some ex => FailStoreException ex end)) sy
  | Some (FailStoreException ex) =>
      on_op (child_fail_store_exception ex) (fun _ => set_phase i Counting) sy
  | Some Stopping =>
      on_op child_stop_exchange (fun first => set_phase i (if first : bool then StopStore else StopRequest)) sy
  | Some StopStore => on_op child_stop_store (fun _ => set_phase i StopRequest) sy
  | Some StopRequest => on_op request_stop (fun _ => set_phase i Counting) sy
  | Some Counting =>
      on_op child_done (fun last => set_phase i (if last : bool then Delivering else Completed)) sy
  | Some Delivering => on_deliver i sy
  | Some (Connected | Running | Completed) | None => None
  end.

(** [start]: the callback is registered, then the children are started in turn,
    each of them from the members of the operation. *)
Definition start_child (sy : system) : option system :=
  match next sy with
  | Some i =>
      if (i <? length traits)%nat then
        on_op (give tt) (fun _ sy => set_phase i Running (set_next (Some (S i)) sy)) sy
      else None
  | None => None
  end.
Definition start (r : registration) (sy : system) : option system :=
  match next sy with
  | None => on_op (register_outer_stop_callback r) (fun _ => set_next (Some O)) sy
  | Some _ => None
  end.

(** A running child completes, in a way its signatures name. *)
Definition allowed i (c : completion) : bool :=
  match traits !! i, c with
  | Some (values, _), ByValue _ _ => values
  | Some (_, stopped), ByStopped => stopped
  | Some _, ByError _ _ => true
  | None, _ => false
  end.
Definition complete i (c : completion) (sy : system) : option system :=
  match phases sy !! i with
  | Some Running =>
      if allowed i c then
        Some (set_outcome i (outcome_of c) (set_phase i
          (match c with ByValue vs t => Storing vs t | ByError e t => Failing e t | ByStopped => Stopping end) sy))
      else None
  | _ => None
  end.

(** The callback runs. *)
Definition outer_stop (sy : system) : option system :=
  match the_op sy with
  | Some o => if stop_callback o then on_op request_stop (fun _ sy => sy) sy else None
  | None => None
  end.

(** What the threads do by themselves, and what the children and the outside do. *)
Inductive internal (sy : system) : system -> Prop :=
| internal_start sy' : start_child sy = Some sy' -> internal sy sy'
| internal_advance i sy' : advance i sy = Some sy' -> internal sy sy'.

Inductive step (sy : system) : system -> Prop :=
| step_start r sy' : start r sy = Some sy' -> step sy sy'
| step_complete i c sy' : complete i c sy = Some sy' -> step sy sy'
| step_outer_stop sy' : outer_stop sy = Some sy' -> step sy sy'
| step_internal sy' : internal sy sy' -> step sy sy'.

Inductive reachable : system -> Prop :=
| reachable_init : reachable init
| reachable_step sy sy' : reachable sy -> step sy sy' -> reachable sy'.

(** ** What the receiver should get

    The first error, else stopped if any child was, else the values of all. *)
Definition outcome_values (o : option outcome) : list X :=
  match o with Some (Value vs) => vs | _ => [] end.
Definition was_stopped (o : option outcome) : bool :=
  match o with Some WasStopped => true | _ => false end.
Definition joined (outs : list (option outcome)) (fails : list nat) : signal :=
  match fails with
  | i :: _ =>
      match outs !! i with Some (Some (Failure e)) => SetError e | _ => SetStopped end
  | [] =>
      if existsb was_stopped outs then SetStopped
      else SetValue (concat (outcome_values <$> outs))
  end.
End when_all.
