(* ===== verification/WhenAllInv.v ===== *)
(** * when_all: the invariant

    What is true of the shared members while the children complete, by the
    phase each of them is in. *)
From S2P Require Import Prelude WhenAll.

Section inv.
Context {X E : Type} (traits : list (bool * bool)).
Implicit Types (e : E) (vs : list X) (throws : option E) (i k : nat) (p q : @phase X E).
Implicit Types (sy : @system X E) (o : @op X E) (outs : list (option (@outcome X E))).

(** ** Counting children *)

Definition uncounted p : bool := match p with Delivering | Completed => false | _ => true end.
(** ** One child *)

(** What a signature allows. *)
Definition named (tr : bool * bool) (out : option (@outcome X E)) : Prop :=
  match out with Some (Value _) => tr.1 = true | Some WasStopped => tr.2 = true | _ => True end.

(** Child [i] in phase [p]: the disposition [d], the result [r], whether stop
    is requested, and who failed. *)
Definition child_ok (d : disposition) (r : result) (stop : bool) (fails : list nat)
    i p (out : option outcome) (part : option (list X)) : Prop :=
  match p with
  | Connected | Running => out = None /\ i ∉ fails
  | Storing vs throws => out = Some (outcome_of (ByValue vs throws)) /\ i ∉ fails
  | Failing e throws => out = Some (outcome_of (ByError e throws)) /\ i ∉ fails
  | FailRequest e throws => out = Some (outcome_of (ByError e throws)) /\ head fails = Some i /\
      (r = Monostate \/ r = StoppedResult)
  | FailStore e throws => out = Some (outcome_of (ByError e throws)) /\ head fails = Some i /\
      (r = Monostate \/ r = StoppedResult) /\ stop = true
  | FailStoreException ex => out = Some (Failure ex) /\ head fails = Some i /\ r = Valueless /\ stop = true
  | Stopping => out = Some WasStopped /\ i ∉ fails
  | StopStore | StopRequest => out = Some WasStopped /\ d <> Started /\ i ∉ fails
  | Counting | Delivering | Completed =>
      match out with
      | None => False
      | Some (Value vs) => part = Some vs /\ i ∉ fails
      | Some (Failure e) => i ∈ fails /\ (head fails = Some i -> r = ErrorResult e /\ stop = true)
      | Some WasStopped => d <> Started /\ stop = true /\ i ∉ fails
      end
  end.

(** ** The system *)

Record alive sy o : Prop := Alive {
  al_op : the_op sy = Some o;
  al_log : log sy = [];
  al_lengths : length (phases sy) = length traits /\ length (outcomes sy) = length traits /\
    length (partial o) = length traits;
  al_children i p : phases sy !! i = Some p -> exists out part tr,
    outcomes sy !! i = Some out /\ partial o !! i = Some part /\ traits !! i = Some tr /\
    named tr out /\ child_ok (disp o) (res o) (stop_requested o) (failed sy) i p out part;
  al_pending : pending o = Z.of_nat (count uncounted (phases sy));
  al_delivering i j p : phases sy !! i = Some Delivering -> phases sy !! j = Some p -> j = i \/ p = Completed;
  al_last : pending o = 0%Z -> (0 < length traits)%nat -> exists i, phases sy !! i = Some Delivering;
  al_disp : disp o = Error <-> failed sy <> [];
  al_failed : Forall (fun i => (i < length traits)%nat) (failed sy);
  al_res : failed sy = [] ->
    (disp o = Started /\ res o = Monostate) \/
    (disp o = Stopped /\ (exists i, outcomes sy !! i = Some (Some WasStopped)) /\
      (res o = StoppedResult \/ res o = Monostate /\ exists j, phases sy !! j = Some StopStore));
  al_next : match next sy with
    | None => forall i p, phases sy !! i = Some p -> p = Connected
    | Some k => (k <= length traits)%nat /\ forall i p, phases sy !! i = Some p -> (p = Connected <-> (k <= i)%nat)
    end;
}.

Record over sy : Prop := Over {
  ov_op : the_op sy = None;
  ov_log : log sy = [joined (outcomes sy) (failed sy)];
  ov_completed i p : phases sy !! i = Some p -> p = Completed;
  ov_outcomes : length (phases sy) = length traits /\ length (outcomes sy) = length traits /\
    forall i out, outcomes sy !! i = Some out -> is_Some out;
  ov_failed k : head (failed sy) = Some k -> exists e, outcomes sy !! k = Some (Some (Failure e));
  ov_next : next sy = Some (length traits);
}.

Definition system_ok sy : Prop := (exists o, alive sy o) \/ over sy.

Lemma when_all_init_ok : system_ok (init traits).
Proof.
  left. exists (new_op (length traits)). split; simpl; try done.
  - by rewrite !length_replicate.
  - intros i p [-> Hi]%lookup_replicate. exists None, None.
    destruct (lookup_lt_is_Some_2 traits i Hi) as [tr Htr]. exists tr.
    rewrite !lookup_replicate. split_and!; try done. split; [done|by apply not_elem_of_nil].
  - f_equal. induction (length traits) as [|n IH]; [done|]. simpl. by rewrite IH at 1.
  - by intros i j p [? _]%lookup_replicate.
  - intros ? ?. lia.
  - auto.
  - by intros i p [-> _]%lookup_replicate.
Qed.

(** ** Changes of the shared members that other children do not notice *)

Lemma child_ok_stop d r stop fails i p out part :
  child_ok d r stop fails i p out part -> child_ok d r true fails i p out part.
Proof. destruct p; simpl; try tauto; destruct out as [[]|]; tauto. Qed.

Lemma child_ok_disp d d' r stop fails i p out part :
  (d <> Started -> d' <> Started) ->
  child_ok d r stop fails i p out part -> child_ok d' r stop fails i p out part.
Proof. intros Hd. destruct p; simpl; try tauto; destruct out as [[]|]; tauto. Qed.

Lemma child_ok_failed d r stop fails i j p out part :
  j <> i -> child_ok d r stop fails j p out part -> child_ok Error r stop (fails ++ [i]) j p out part.
Proof.
  intros Hne. assert (j ∈ fails ++ [i] <-> j ∈ fails) as Hin.
  { rewrite elem_of_app, list_elem_of_singleton. tauto. }
  assert (head (fails ++ [i]) = Some j <-> head fails = Some j) as Hhead.
  { destruct fails; simpl; [|done]. split; [by intros [= ->]|done]. }
  assert (Error <> Started) by done.
  destruct p; simpl; rewrite ?Hin, ?Hhead; try tauto; destruct out as [[]|]; tauto.
Qed.

Lemma child_ok_owner d r r' stop fails i j p out part :
  head fails = Some i -> j <> i ->
  child_ok d r stop fails j p out part -> child_ok d r' stop fails j p out part.
Proof.
  intros Hi Hne. assert (head fails <> Some j) as Hj by congruence.
  destruct p; simpl; try tauto; destruct out as [[]|]; tauto.
Qed.

Lemma child_ok_stopped d stop fails i p out part :
  child_ok d Monostate stop fails i p out part -> child_ok d StoppedResult stop fails i p out part.
Proof.
  assert (forall ex, Monostate <> @ErrorResult E ex) as Hno by done. assert (Monostate <> @Valueless E) by done.
  assert (@StoppedResult E = StoppedResult) by done.
  destruct p; simpl; try tauto; destruct out as [[|e|]|]; try tauto;
    specialize (Hno e); tauto.
Qed.

(** ** A child moves on *)

Lemma move sy o i p q out out' o' fails' :
  alive sy o -> phases sy !! i = Some p -> outcomes sy !! i = Some out ->
  uncounted p = true -> uncounted q = true -> p <> Connected -> q <> Connected ->
  pending o' = pending o -> length (partial o') = length (partial o) ->
  (forall j, j <> i -> partial o' !! j = partial o !! j) ->
  (forall tr, traits !! i = Some tr -> named tr out -> named tr out') ->
  (forall part, partial o' !! i = Some part ->
    child_ok (disp o') (res o') (stop_requested o') fails' i q out' part) ->
  (forall j pj outj part, j <> i ->
    child_ok (disp o) (res o) (stop_requested o) (failed sy) j pj outj part ->
    child_ok (disp o') (res o') (stop_requested o') fails' j pj outj part) ->
  (disp o' = Error <-> fails' <> []) -> Forall (fun i => (i < length traits)%nat) fails' ->
  (fails' = [] ->
    (disp o' = Started /\ res o' = Monostate) \/
    (disp o' = Stopped /\ (exists k, <[i := out']> (outcomes sy) !! k = Some (Some WasStopped)) /\
      (res o' = StoppedResult \/
       res o' = Monostate /\ exists j, <[i := q]> (phases sy) !! j = Some StopStore))) ->
  alive (System (Some o') (next sy) (<[i := q]> (phases sy)) (<[i := out']> (outcomes sy)) fails' (log sy)) o'.
Proof.
  intros [Hop Hlog (Hlp & Hlo & Hlpa) Hch Hpend Hdel Hlast _ _ _ Hnext] Hp Hout Hup Huq Hpc Hqc Epend Elen
    Epart Hnamed Hnew Hother Hd Hf Hr.
  assert (i < length (phases sy))%nat as Hi by (by eapply lookup_lt_Some).
  assert (forall j, phases sy !! j = Some Delivering -> False) as Hnodel.
  { intros j Hj. destruct (Hdel j i p Hj Hp) as [-> | ->]; [|done]. rewrite Hp in Hj. by injection Hj as ->. }
  split; simpl; try done.
  - by rewrite !length_insert, Elen.
  - intros j pj Hj. apply list_lookup_insert_Some in Hj as [(<- & <- & _)|[Hne Hj]].
    + destruct (Hch i p Hp) as (out0 & part & tr & Ho0 & Hpa & Htr & Hna & _).
      destruct (lookup_lt_is_Some_2 (partial o') i) as [part' Hpa']; [rewrite Elen; by eapply lookup_lt_Some|].
      exists out', part', tr. rewrite list_lookup_insert_eq by (by eapply lookup_lt_Some).
      split_and!; [done..| |by apply Hnew]. apply Hnamed; [done|]. congruence.
    + destruct (Hch j pj Hj) as (outj & part & tr & Ho0 & Hpa & Htr & Hna & Hok).
      exists outj, part, tr. rewrite list_lookup_insert_ne by congruence. rewrite Epart by congruence.
      split_and!; [done..|]. by apply Hother.
  - rewrite Epend, Hpend. f_equal. pose proof (count_insert uncounted (phases sy) i p q Hp) as Hins.
    rewrite Hup, Huq in Hins. simpl in Hins. lia.
  - intros j k pk Hj. exfalso. apply list_lookup_insert_Some in Hj as [(_ & -> & _)|[_ Hj]]; [done|].
    by apply (Hnodel j).
  - rewrite Epend. intros H0 Hpos. destruct (Hlast H0 Hpos) as (j & Hj). exfalso. by apply (Hnodel j).
  - destruct (next sy) as [k|].
    + destruct Hnext as [Hk Hall]. split; [done|]. intros j pj Hj.
      apply list_lookup_insert_Some in Hj as [(<- & <- & _)|[_ Hj]]; [|by apply Hall].
      rewrite <- (Hall i p Hp). done.
    + exfalso. by apply Hpc, (Hnext i p).
Qed.

(** The same without a new outcome. *)
Lemma move_phase sy o i p q o' fails' :
  alive sy o -> phases sy !! i = Some p ->
  uncounted p = true -> uncounted q = true -> p <> Connected -> q <> Connected ->
  pending o' = pending o -> length (partial o') = length (partial o) ->
  (forall j, j <> i -> partial o' !! j = partial o !! j) ->
  (forall out part part', outcomes sy !! i = Some out -> partial o !! i = Some part ->
    partial o' !! i = Some part' ->
    child_ok (disp o) (res o) (stop_requested o) (failed sy) i p out part ->
    child_ok (disp o') (res o') (stop_requested o') fails' i q out part') ->
  (forall j pj outj part, j <> i ->
    child_ok (disp o) (res o) (stop_requested o) (failed sy) j pj outj part ->
    child_ok (disp o') (res o') (stop_requested o') fails' j pj outj part) ->
  (disp o' = Error <-> fails' <> []) -> Forall (fun i => (i < length traits)%nat) fails' ->
  (fails' = [] ->
    (disp o' = Started /\ res o' = Monostate) \/
    (disp o' = Stopped /\ (exists k, outcomes sy !! k = Some (Some WasStopped)) /\
      (res o' = StoppedResult \/
       res o' = Monostate /\ exists j, <[i := q]> (phases sy) !! j = Some StopStore))) ->
  system_ok (System (Some o') (next sy) (<[i := q]> (phases sy)) (outcomes sy) fails' (log sy)).
Proof.
  intros Hal Hp Hup Huq Hpc Hqc Epend Elen Epart Hnew Hother Hd Hf Hr.
  destruct (al_children _ _ Hal i p Hp) as (out & part & tr & Hout & Hpart & _ & _ & Hok).
  left. exists o'.
  pose proof (move sy o i p q out out o' fails' Hal Hp Hout Hup Huq Hpc Hqc Epend Elen Epart) as Hmove.
  rewrite !list_insert_id in Hmove by done. apply Hmove; [done| |done..].
  intros part' Hpart'. by apply (Hnew out part).
Qed.

Definition active p : bool := match p with Connected | Running | Completed => false | _ => true end.

(** What a change of the shared members needs for the disposition and the result. *)
Lemma al_res_phase sy o i p q : alive sy o -> phases sy !! i = Some p -> p <> StopStore ->
  failed sy = [] ->
  (disp o = Started /\ res o = Monostate) \/
  (disp o = Stopped /\ (exists k, outcomes sy !! k = Some (Some WasStopped)) /\
    (res o = StoppedResult \/
     res o = Monostate /\ exists j, <[i := q]> (phases sy) !! j = Some StopStore)).
Proof.
  intros Hal Hp Hne Hf. destruct (al_res _ _ Hal Hf) as [?|(Hd & Hk & [?|[Hr (j & Hj)]])]; [by left|right..].
  - split_and!; [done..|by left].
  - split_and!; [done..|]. right. split; [done|]. exists j. rewrite list_lookup_insert_ne; [done|]. congruence.
Qed.

Lemma store_value_ok sy o i vs throws :
  alive sy o -> phases sy !! i = Some (Storing vs throws) ->
  exists sy', advance traits i sy = Some sy' /\ system_ok sy'.
Proof.
  intros Hal Hp. unfold advance. rewrite Hp. unfold on_op. rewrite (al_op _ _ Hal).
  assert (i < length (partial o))%nat as Hi.
  { destruct (al_children _ _ Hal i _ Hp) as (? & ? & ? & _ & Hpart & _). by eapply lookup_lt_Some. }
  destruct throws as [ex|]; simpl; (eexists; split; [reflexivity|]);
    (eapply (move_phase sy o i); [exact Hal|exact Hp|done..| | | | |exact (al_disp _ _ Hal)|exact (al_failed _ _ Hal)|]); simpl.
  - by rewrite length_insert.
  - intros j Hj. by rewrite list_lookup_insert_ne by congruence.
  - intros out part part' _ _ _ [-> Hn]. by split.
  - done.
  - by apply (al_res_phase sy o i (Storing vs (Some ex))).
  - by rewrite length_insert.
  - intros j Hj. by rewrite list_lookup_insert_ne by congruence.
  - intros out part part' _ _ Hpart' [-> Hn]. rewrite list_lookup_insert_eq in Hpart' by done. simplify_eq/=. done.
  - done.
  - by apply (al_res_phase sy o i (Storing vs None)).
Qed.

(** The completion of a child whose actions do not touch the values. *)
Ltac moving Hal Hp :=
  unfold advance; rewrite Hp; unfold on_op; rewrite (al_op _ _ Hal); simpl.

Lemma no_failed sy o : alive sy o -> disp o <> Error ->
  failed sy = [] /\ (res o = Monostate \/ res o = StoppedResult).
Proof.
  intros Hal Hd. assert (failed sy = []) as Hf.
  { destruct (failed sy) as [|k l] eqn:Hf; [done|]. destruct Hd. apply (al_disp _ _ Hal). by rewrite Hf. }
  split; [done|]. destruct (al_res _ _ Hal Hf) as [[_ ->]|(_ & _ & [->|[-> _]])]; auto.
Qed.

Lemma fail_exchange_ok sy o i e throws :
  alive sy o -> phases sy !! i = Some (Failing e throws) ->
  exists sy', advance traits i sy = Some sy' /\ system_ok sy'.
Proof.
  intros Hal Hp. moving Hal Hp. eexists. split; [reflexivity|].
  assert (i < length traits)%nat as Hi.
  { destruct (al_lengths _ _ Hal) as (<- & _ & _). by eapply lookup_lt_Some. }
  set (q := match disp o with Error => @Counting X E | _ => FailRequest e throws end).
  replace (set_phase i _ _) with (System (Some (set_disp Error o)) (next sy)
    (<[i := q]> (phases sy)) (outcomes sy) (failed sy) (log sy)) by (unfold q; by destruct (disp o)).
  assert (failed sy ++ [i] <> []) as Hne by (by destruct (failed sy)).
  eapply (move_phase sy o i);
    [exact Hal|exact Hp|done|unfold q; by destruct (disp o)|done|unfold q; by destruct (disp o)|done..| | |done| |done].
  - intros out part part' _ _ _ [-> Hin]. destruct (decide (disp o = Error)) as [Hd|Hd].
    + unfold q. rewrite Hd. simpl. assert (failed sy <> []) as Hf by (by apply (al_disp _ _ Hal)).
      assert (i ∈ failed sy ++ [i]) by (apply elem_of_app; right; by apply list_elem_of_singleton).
      assert (head (failed sy ++ [i]) <> Some i) as Hhead.
      { destruct (failed sy) as [|k l]; [done|]. simpl. intros [= ->]. apply Hin, list_elem_of_here. }
      destruct throws; simpl; split; done.
    + destruct (no_failed _ _ Hal Hd) as [Hf Hr]. rewrite Hf. unfold q. by destruct (disp o).
  - intros j pj outj part. apply child_ok_failed.
  - apply Forall_app. split; [apply (al_failed _ _ Hal)|]. by constructor.
Qed.

Lemma fail_request_ok sy o i e throws :
  alive sy o -> phases sy !! i = Some (FailRequest e throws) ->
  exists sy', advance traits i sy = Some sy' /\ system_ok sy'.
Proof.
  intros Hal Hp. moving Hal Hp. eexists. split; [reflexivity|].
  eapply (move_phase sy o i); [exact Hal|exact Hp|done..| | |exact (al_disp _ _ Hal)|exact (al_failed _ _ Hal)|].
  - intros out part part' _ _ _ (-> & Hh & Hr). done.
  - intros j pj outj part _. apply child_ok_stop.
  - by apply (al_res_phase sy o i (FailRequest e throws)).
Qed.

Lemma fail_store_ok sy o i e throws :
  alive sy o -> phases sy !! i = Some (FailStore e throws) ->
  exists sy', advance traits i sy = Some sy' /\ system_ok sy'.
Proof.
  intros Hal Hp. moving Hal Hp.
  assert (head (failed sy) = Some i) as Hi.
  { by destruct (al_children _ _ Hal i _ Hp) as (? & ? & ? & _ & _ & _ & _ & _ & Hh & _). }
  destruct throws as [ex|]; simpl; (eexists; split; [reflexivity|]);
    (eapply (move_phase sy o i); [exact Hal|exact Hp|done..| | |exact (al_disp _ _ Hal)|exact (al_failed _ _ Hal)|]).
  - intros out part part' _ _ _ (-> & _ & _ & Hs). by simpl; rewrite Hs.
  - intros j pj outj part Hj. by apply (child_ok_owner _ _ _ _ _ i).
  - intros Hf. simpl in Hf. by rewrite Hf in Hi.
  - intros out part part' _ _ _ (-> & _ & _ & Hs). simpl. split; [by apply head_is_Some_elem|done].
  - intros j pj outj part Hj. by apply (child_ok_owner _ _ _ _ _ i).
  - intros Hf. simpl in Hf. by rewrite Hf in Hi.
Qed.

Lemma fail_store_exception_ok sy o i ex :
  alive sy o -> phases sy !! i = Some (FailStoreException ex) ->
  exists sy', advance traits i sy = Some sy' /\ system_ok sy'.
Proof.
  intros Hal Hp. moving Hal Hp. eexists. split; [reflexivity|].
  assert (head (failed sy) = Some i) as Hi.
  { by destruct (al_children _ _ Hal i _ Hp) as (? & ? & ? & _ & _ & _ & _ & _ & Hh & _). }
  eapply (move_phase sy o i); [exact Hal|exact Hp|done..| | |exact (al_disp _ _ Hal)|exact (al_failed _ _ Hal)|].
  - intros out part part' _ _ _ (-> & _ & _ & Hs). simpl. split; [by apply head_is_Some_elem|done].
  - intros j pj outj part Hj. by apply (child_ok_owner _ _ _ _ _ i).
  - intros Hf. simpl in Hf. by rewrite Hf in Hi.
Qed.

Lemma stop_exchange_ok sy o i :
  alive sy o -> phases sy !! i = Some Stopping ->
  exists sy', advance traits i sy = Some sy' /\ system_ok sy'.
Proof.
  intros Hal Hp. moving Hal Hp. unfold child_stop_exchange. rewrite prog_read_bind.
  destruct (al_children _ _ Hal i _ Hp) as (out & part & tr & Hout & _ & _ & _ & -> & Hin).
  destruct (disp o) eqn:Hd; simpl; (eexists; split; [reflexivity|]);
    (eapply (move_phase sy o i); [exact Hal|exact Hp|done..| | | |exact (al_failed _ _ Hal)|]).
  - intros out part' part'' _ _ _ [-> _]. done.
  - intros j pj outj partj _. by apply child_ok_disp.
  - rewrite <- (al_disp _ _ Hal). by rewrite Hd.
  - intros Hf. right. split; [done|]. split; [by exists i|]. right.
    destruct (al_res _ _ Hal Hf) as [[_ Hr]|[? _]]; [|congruence]. split; [done|]. exists i.
    apply list_lookup_insert_eq. by eapply lookup_lt_Some.
  - intros out part' part'' _ _ _ [-> _]. by rewrite Hd.
  - done.
  - exact (al_disp _ _ Hal).
  - by apply (al_res_phase sy o i Stopping).
  - intros out part' part'' _ _ _ [-> _]. by rewrite Hd.
  - done.
  - exact (al_disp _ _ Hal).
  - by apply (al_res_phase sy o i Stopping).
Qed.

Lemma stop_store_ok sy o i :
  alive sy o -> phases sy !! i = Some StopStore ->
  exists sy', advance traits i sy = Some sy' /\ system_ok sy'.
Proof.
  intros Hal Hp. moving Hal Hp. unfold child_stop_store. rewrite prog_read_bind.
  destruct (al_children _ _ Hal i _ Hp) as (out & part & tr & Hout & _ & _ & _ & -> & Hds & Hin).
  assert (forall r', (res o = Monostate -> r' = StoppedResult) -> (res o <> Monostate -> r' = res o) ->
    system_ok (System (Some (set_res r' o)) (next sy) (<[i := StopRequest]> (phases sy)) (outcomes sy)
      (failed sy) (log sy))) as Hall.
  { intros r' Hm Hn.
    eapply (move_phase sy o i); [exact Hal|exact Hp|done..| | |exact (al_disp _ _ Hal)|exact (al_failed _ _ Hal)|].
    - intros out part' part'' _ _ _ (-> & _ & _). done.
    - intros j pj outj partj _. simpl. destruct (res o) eqn:Hr; [|by rewrite Hn..].
      rewrite Hm by done. apply child_ok_stopped.
    - intros Hf. right. destruct (al_res _ _ Hal Hf) as [[? _]|(Hd & Hk & [Hr|[Hr _]])]; [done|split; [done|]..].
      + split; [done|]. left. simpl. rewrite Hn; congruence.
      + split; [done|]. left. simpl. by apply Hm. }
  destruct o as [pe d r pa st cb]. simpl in *.
  destruct r as [|e| |]; simpl; (eexists; split; [reflexivity|]); by apply Hall.
Qed.

Lemma stop_request_ok sy o i :
  alive sy o -> phases sy !! i = Some StopRequest ->
  exists sy', advance traits i sy = Some sy' /\ system_ok sy'.
Proof.
  intros Hal Hp. moving Hal Hp. eexists. split; [reflexivity|].
  eapply (move_phase sy o i); [exact Hal|exact Hp|done..| | |exact (al_disp _ _ Hal)|exact (al_failed _ _ Hal)|].
  - intros out part part' _ _ _ (-> & Hd & Hin). done.
  - intros j pj outj part _. apply child_ok_stop.
  - by apply (al_res_phase sy o i StopRequest).
Qed.

(** ** The last steps of a child *)

Hypothesis Hfits : (Z.of_nat (length traits) < 2 ^ 64)%Z.
#[local] Set Default Proof Using "Hfits".

Lemma child_done_ok sy o i :
  alive sy o -> phases sy !! i = Some Counting ->
  exists sy', advance traits i sy = Some sy' /\ system_ok sy'.
Proof.
  intros Hal Hp. moving Hal Hp. eexists. split; [reflexivity|].
  destruct Hal as [Hop Hlog (Hlp & Hlo & Hlpa) Hch Hpend Hdel Hlast Hd Hf Hr Hnext].
  set (q := if (u64 (pending o - 1) =? 0)%Z then @Delivering X E else Completed).
  replace (set_phase i _ _) with (System (Some (set_pending (u64 (pending o - 1)) o)) (next sy)
    (<[i := q]> (phases sy)) (outcomes sy) (failed sy) (log sy)) by done.
  pose proof (count_insert uncounted (phases sy) i Counting q Hp) as Hins.
  assert (uncounted q = false) as Hq by (unfold q; by case_zb).
  rewrite Hq in Hins. simpl in Hins. pose proof (count_bound uncounted (phases sy)) as Hbound.
  assert (u64 (pending o - 1) = Z.of_nat (count uncounted (<[i:=q]> (phases sy)))) as Hu
    by (rewrite u64_small; lia).
  assert (forall j, phases sy !! j = Some Delivering -> False) as Hnodel.
  { intros j Hj. destruct (Hdel j i Counting Hj Hp) as [-> |?]; [|done]. by rewrite Hp in Hj. }
  assert (i < length (phases sy))%nat as Hi by (by eapply lookup_lt_Some).
  left. eexists. split; simpl; try done.
  - by rewrite length_insert.
  - intros j pj Hj. apply list_lookup_insert_Some in Hj as [(<- & <- & _)|[Hne Hj]]; [|by apply Hch].
    destruct (Hch i _ Hp) as (out & part & tr & ? & ? & ? & ? & Hok). exists out, part, tr.
    split_and!; [done..|]. unfold q. by case_zb.
  - intros j k pk Hj Hk. apply list_lookup_insert_Some in Hj as [(<- & Hqd & _)|[_ Hj]].
    + assert (u64 (pending o - 1) = 0)%Z as H0 by (revert Hqd; unfold q; by case_zb).
      apply list_lookup_insert_Some in Hk as [(<- & _)|[Hne Hk]]; [by left|right].
      assert (uncounted pk = false) as Hpk.
      { apply (count_zero uncounted (<[i:=q]> (phases sy)) k); [lia|]. by rewrite list_lookup_insert_ne. }
      destruct pk; try done. by destruct (Hnodel k).
    + by destruct (Hnodel j).
  - intros H0 _. exists i. rewrite list_lookup_insert_eq by done. simpl in H0. unfold q. by rewrite H0.
  - intros Hf0. destruct (Hr Hf0) as [?|(Hds & Hk & [?|[Hm (j & Hj)]])]; [by left|right..].
    + split_and!; [done..|by left].
    + split_and!; [done..|]. right. split; [done|]. exists j. rewrite list_lookup_insert_ne; [done|]. congruence.
  - destruct (next sy) as [k|].
    + destruct Hnext as [Hk Hall]. split; [done|]. intros j pj Hj.
      apply list_lookup_insert_Some in Hj as [(<- & <- & _)|[_ Hj]]; [|by apply Hall].
      rewrite <- (Hall i _ Hp). unfold q. by case_zb.
    + by specialize (Hnext i _ Hp).
Qed.

Lemma values_collected (parts : list (option (list X))) outs vs0 :
  length parts = length outs ->
  (forall j out, outs !! j = Some out -> exists vs, out = Some (Value vs) /\ parts !! j = Some (Some vs)) ->
  deliver_flattened parts vs0 = Some (vs0 ++ concat (outcome_values <$> outs)).
Proof using Type.
  revert outs vs0. induction parts as [|part parts IH]; intros [|out outs] vs0 Hlen Hall; simplify_eq/=.
  - by rewrite app_nil_r.
  - destruct (Hall 0%nat out eq_refl) as (vs & -> & [= ->]).
    by rewrite (IH outs _ Hlen (fun j => Hall (S j))), <- app_assoc.
Qed.

Lemma deliver_joined sy o i :
  alive sy o -> phases sy !! i = Some Delivering ->
  exists o', deliver traits o = Some (joined (outcomes sy) (failed sy), o').
Proof.
  intros Hal Hp. pose proof Hal as [Hop Hlog (Hlp & Hlo & Hlpa) Hch Hpend Hdel Hlast Hd Hf Hr Hnext].
  assert (forall j, (j < length traits)%nat -> exists out part tr, outcomes sy !! j = Some (Some out) /\
    partial o !! j = Some part /\ traits !! j = Some tr /\ named tr (Some out) /\
    match out with
    | Value vs => part = Some vs /\ j ∉ failed sy
    | Failure e => j ∈ failed sy /\ (head (failed sy) = Some j -> res o = ErrorResult e)
    | WasStopped => disp o <> Started /\ j ∉ failed sy
    end) as Hall.
  { intros j Hj. destruct (lookup_lt_is_Some_2 (phases sy) j) as [pj Hpj]; [by rewrite Hlp|].
    destruct (Hch j pj Hpj) as (out & part & tr & ? & ? & ? & ? & Hok).
    assert (pj = Delivering \/ pj = Completed) as Hpc.
    { destruct (Hdel i j pj Hp Hpj) as [-> | ->]; [left; congruence|by right]. }
    destruct out as [out|]; [|by destruct Hpc; subst].
    exists out, part, tr. split_and!; [done..|]. destruct Hpc; subst; destruct out; simpl in Hok; naive_solver. }
  unfold deliver. rewrite prog_modify_bind, prog_read_bind. unfold joined. simpl.
  destruct (failed sy) as [|k fs] eqn:Hfs.
  - destruct (Hr eq_refl) as [[Hds ->]|(Hds & (k & Hk) & Hres)].
    + assert (forall j out, outcomes sy !! j = Some out -> exists vs tr, out = Some (Value vs) /\
        partial o !! j = Some (Some vs) /\ traits !! j = Some tr /\ tr.1 = true) as Hvalues.
      { intros j out Hj. destruct (Hall j ltac:(rewrite <- Hlo; by eapply lookup_lt_Some))
          as (out' & part & tr & Ho & Hpa & Htr & Hna & Hout).
        rewrite Ho in Hj. injection Hj as <-. destruct out' as [vs|e|].
        - exists vs, tr. destruct Hout as [-> _]. by split_and!.
        - destruct Hout as [Hin _]. by apply not_elem_of_nil in Hin.
        - by destruct Hout as [? _]. }
      assert (can_value_complete traits = true) as ->.
      { unfold can_value_complete. apply forallb_forall. intros tr Htr%list_elem_of_In.
        apply list_elem_of_lookup in Htr as [j Hj]. assert (j < length (outcomes sy))%nat as Hlt
          by (rewrite Hlo; by eapply lookup_lt_Some).
        destruct (lookup_lt_is_Some_2 _ _ Hlt) as [out Hout].
        destruct (Hvalues j out Hout) as (vs & tr' & _ & _ & Htr & Ht). congruence. }
      assert (existsb was_stopped (outcomes sy) = false) as ->.
      { apply not_true_is_false. intros (out & Hin & Hst)%existsb_exists.
        apply list_elem_of_In, list_elem_of_lookup in Hin as [j Hj].
        by destruct (Hvalues j out Hj) as (vs & tr' & -> & _). }
      unfold try_deliver_values. rewrite prog_read_bind. simpl.
      rewrite (values_collected (partial o) (outcomes sy)); [by eexists|by rewrite Hlo|].
      intros j out Hj. destruct (Hvalues j out Hj) as (vs & _ & -> & Hpa & _). by exists vs.
    + destruct (Hall k ltac:(rewrite <- Hlo; by eapply lookup_lt_Some))
        as (out & part & tr & Ho & _ & Htr & Hna & _).
      rewrite Ho in Hk. injection Hk as ->.
      assert (existsb was_stopped (outcomes sy) = true) as ->.
      { apply existsb_exists. exists (Some WasStopped). split; [|done].
        apply list_elem_of_In. by eapply list_elem_of_lookup_2. }
      assert (sends_stopped traits = true) as ->.
      { apply existsb_exists. exists tr. split; [|done]. apply list_elem_of_In. by eapply list_elem_of_lookup_2. }
      destruct Hres as [->|[_ (j & Hj)]]; [by eexists|].
      destruct (Hdel i j _ Hp Hj) as [-> |?]; [|done]. by rewrite Hp in Hj.
  - assert (k < length traits)%nat as Hk by (by rewrite Forall_cons in Hf; destruct Hf).
    destruct (Hall k Hk) as (out & part & tr & -> & _ & _ & _ & Hout).
    destruct out as [vs|e|].
    + destruct Hout as [_ Hn]. destruct Hn. apply list_elem_of_here.
    + destruct Hout as [_ ->]; [|done]. by eexists.
    + destruct Hout as [_ Hn]. destruct Hn. apply list_elem_of_here.
Qed.

Lemma deliver_ok sy o i :
  alive sy o -> phases sy !! i = Some Delivering ->
  exists sy', advance traits i sy = Some sy' /\ system_ok sy'.
Proof.
  intros Hal Hp. unfold advance. rewrite Hp. unfold on_deliver. rewrite (al_op _ _ Hal).
  destruct (deliver_joined sy o i Hal Hp) as [o' ->]. eexists. split; [reflexivity|].
  destruct Hal as [Hop Hlog (Hlp & Hlo & Hlpa) Hch Hpend Hdel Hlast Hd Hf Hr Hnext].
  assert (forall j p, phases sy !! j = Some p -> p = Delivering \/ p = Completed) as Hall.
  { intros j p Hj. destruct (Hdel i j p Hp Hj) as [-> | ->]; [left; congruence|by right]. }
  right. split; simpl.
  - done.
  - by rewrite Hlog.
  - intros j p Hj. apply list_lookup_insert_Some in Hj as [(_ & <- & _)|[Hne Hj]]; [done|].
    destruct (Hdel i j p Hp Hj) as [->|?]; done.
  - rewrite length_insert. split_and!; [done..|]. intros j out Hj.
    destruct (lookup_lt_is_Some_2 (phases sy) j) as [pj Hpj]; [rewrite Hlp, <- Hlo; by eapply lookup_lt_Some|].
    destruct (Hch j pj Hpj) as (out' & part & tr & Ho & _ & _ & _ & Hok). rewrite Hj in Ho. injection Ho as <-.
    destruct (Hall j pj Hpj); subst; by destruct out.
  - intros k Hk. assert (k ∈ failed sy) as Hin by (by apply head_is_Some_elem).
    rewrite Forall_forall in Hf. destruct (lookup_lt_is_Some_2 (phases sy) k) as [pk Hpk]; [rewrite Hlp; auto|].
    destruct (Hch k pk Hpk) as (out & part & tr & Ho & _ & _ & _ & Hok).
    assert (match out with Some (Failure _) => True | _ => False end) as Hfail.
    { destruct (Hall k pk Hpk); subst; destruct out as [[]|]; simpl in Hok; naive_solver. }
    destruct out as [[|e|]|]; try done. by exists e.
  - destruct (next sy) as [k|]; [|by specialize (Hnext i _ Hp)]. f_equal. destruct Hnext as [Hk Hnc].
    destruct (decide (k = length traits)) as [|Hne]; [done|exfalso].
    destruct (lookup_lt_is_Some_2 (phases sy) k) as [pk Hpk]; [rewrite Hlp; lia|].
    assert (pk = Connected) as -> by (by apply (Hnc k pk Hpk)). by destruct (Hall k _ Hpk).
Qed.

(** Every action of a child that is completing is possible. *)
Lemma when_all_advance_ok sy i p :
  system_ok sy -> phases sy !! i = Some p -> active p = true ->
  exists sy', advance traits i sy = Some sy' /\ system_ok sy'.
Proof.
  intros [[o Hal]|Hov] Hp Hact; [|by rewrite (ov_completed _ Hov i p Hp) in Hact].
  destruct p as [| |vs t|e t|e t|e t|ex| | | | | |]; try done.
  - by eapply store_value_ok.
  - by eapply fail_exchange_ok.
  - by eapply fail_request_ok.
  - by eapply fail_store_ok.
  - by eapply fail_store_exception_ok.
  - by eapply stop_exchange_ok.
  - by eapply stop_store_ok.
  - by eapply stop_request_ok.
  - by eapply child_done_ok.
  - by eapply deliver_ok.
Qed.

(** ** The other steps *)

Lemma when_all_complete_ok sy sy' i c : system_ok sy -> complete traits i c sy = Some sy' -> system_ok sy'.
Proof.
  intros Hok. unfold complete. destruct (phases sy !! i) as [p|] eqn:Hp; [|done].
  destruct p; try done. destruct (allowed traits i c) eqn:Hall; [|done]. intros [= <-].
  destruct Hok as [[o Hal]|Hov]; [|by specialize (ov_completed _ Hov i _ Hp)].
  destruct (al_children _ _ Hal i _ Hp) as (out & part & tr & Hout & Hpart & Htr & _ & [-> Hin]).
  left. exists o. unfold set_outcome, set_phase. simpl. rewrite (al_op _ _ Hal).
  eapply (move sy o i Running _ None); [exact Hal|exact Hp|exact Hout|done|by destruct c|done|by destruct c|done..| | | |
    exact (al_disp _ _ Hal)|exact (al_failed _ _ Hal)|].
  - intros tr' Htr' _. unfold allowed in Hall. rewrite Htr' in Hall. destruct tr' as [v s].
    destruct c as [vs [ex|]|e [ex|]|]; simpl; done.
  - intros part' _. by destruct c.
  - done.
  - intros Hf. destruct (al_res_phase sy o i Running (match c with ByValue vs t => Storing vs t
      | ByError e t => Failing e t | ByStopped => Stopping end) Hal Hp ltac:(done) Hf)
      as [?|(Hd & (k & Hk) & Hr)]; [by left|right]. split; [done|]. split; [|done]. exists k.
    rewrite list_lookup_insert_ne; [done|]. congruence.
Qed.

(** A step that touches the callback and the stop source only. *)
Lemma stop_change_ok sy o o' nx :
  alive sy o -> pending o' = pending o -> disp o' = disp o -> res o' = res o -> partial o' = partial o ->
  (stop_requested o' = stop_requested o \/ stop_requested o' = true) ->
  (nx = next sy \/ next sy = None /\ nx = Some 0%nat) ->
  alive (System (Some o') nx (phases sy) (outcomes sy) (failed sy) (log sy)) o'.
Proof.
  intros [Hop Hlog Hlen Hch Hpend Hdel Hlast Hd Hf Hr Hnext] Ep Ed Er Epa Est Hnx.
  split; simpl; rewrite ?Ep, ?Ed, ?Er, ?Epa; try done.
  - intros i p Hp. destruct (Hch i p Hp) as (out & part & tr & ? & ? & ? & ? & Hok).
    exists out, part, tr. split_and!; [done..|]. destruct Est as [-> | ->]; [done|]. by eapply child_ok_stop.
  - destruct Hnx as [->|[Hnone ->]]; [done|]. rewrite Hnone in Hnext. split; [lia|].
    intros i p Hp. rewrite (Hnext i p Hp). split; [lia|done].
Qed.

Lemma when_all_start_ok sy sy' r : system_ok sy -> start r sy = Some sy' -> system_ok sy'.
Proof.
  intros Hok. unfold start. destruct (next sy) eqn:Hn; [done|]. unfold on_op.
  destruct Hok as [[o Hal]|Hov]; [|by rewrite (ov_next _ Hov) in Hn]. rewrite (al_op _ _ Hal).
  destruct r; simpl; intros [= <-]; left; eexists; apply (stop_change_ok sy o); simpl; auto.
Qed.

Lemma outer_stop_ok sy sy' : system_ok sy -> outer_stop sy = Some sy' -> system_ok sy'.
Proof.
  intros Hok. unfold outer_stop. destruct Hok as [[o Hal]|Hov]; [|by rewrite (ov_op _ Hov)].
  rewrite (al_op _ _ Hal). destruct (stop_callback o); [|done]. unfold on_op. rewrite (al_op _ _ Hal).
  simpl. intros [= <-]. left. eexists. apply (stop_change_ok sy o); simpl; auto.
Qed.

Lemma start_child_ok sy k :
  system_ok sy -> next sy = Some k -> (k < length traits)%nat ->
  exists sy', start_child traits sy = Some sy' /\ system_ok sy'.
Proof.
  intros Hok Hn Hk. unfold start_child. rewrite Hn.
  destruct Hok as [[o Hal]|Hov]; [|rewrite (ov_next _ Hov) in Hn; injection Hn as <-; lia].
  replace (k <? length traits)%nat with true by (symmetry; by apply Nat.ltb_lt). unfold on_op.
  rewrite (al_op _ _ Hal). simpl. eexists. split; [reflexivity|]. left. exists o.
  destruct Hal as [Hop Hlog (Hlp & Hlo & Hlpa) Hch Hpend Hdel Hlast Hd Hf Hr Hnext]. rewrite Hn in Hnext.
  destruct Hnext as [_ Hnext].
  assert (phases sy !! k = Some Connected) as Hp.
  { destruct (lookup_lt_is_Some_2 (phases sy) k) as [p Hp]; [by rewrite Hlp|]. rewrite Hp. f_equal.
    by apply (Hnext k p Hp). }
  unfold set_phase, set_next, set_op. simpl. split; simpl; try done.
  - by rewrite length_insert.
  - intros j p Hj. apply list_lookup_insert_Some in Hj as [(<- & <- & _)|[Hne Hj]]; [|by apply Hch].
    by destruct (Hch k _ Hp) as (out & part & tr & ? & ? & ? & ? & ?); exists out, part, tr.
  - rewrite Hpend. f_equal. pose proof (count_insert uncounted (phases sy) k _ Running Hp). simpl in *. lia.
  - intros i j p Hi Hj. apply list_lookup_insert_Some in Hi as [(_ & ? & _)|[_ Hi]]; [done|].
    destruct (Hdel i k _ Hi Hp) as [->|?]; [|done]. by rewrite Hp in Hi.
  - intros H0 Hpos. destruct (Hlast H0 Hpos) as [i Hi]. exists i. rewrite list_lookup_insert_ne; [done|]. congruence.
  - intros Hf0. destruct (Hr Hf0) as [?|(Hds & Hk' & [?|[Hm (j & Hj)]])]; [by left|right..].
    + split_and!; [done..|by left].
    + split_and!; [done..|]. right. split; [done|]. exists j. rewrite list_lookup_insert_ne; [done|]. congruence.
  - split; [lia|]. intros i p Hi. apply list_lookup_insert_Some in Hi as [(<- & <- & _)|[Hne Hi]].
    + split; [done|lia].
    + rewrite (Hnext i p Hi). lia.
Qed.

Lemma when_all_internal_ok sy sy' : system_ok sy -> internal traits sy sy' -> system_ok sy'.
Proof.
  intros Hok [sy1 Hs|i sy1 Hs].
  - unfold start_child in Hs. destruct (next sy) as [k|] eqn:Hn; [|done].
    destruct (k <? length traits)%nat eqn:Hk; [|done]. apply Nat.ltb_lt in Hk.
    destruct (start_child_ok sy k Hok Hn Hk) as (sy2 & Hs2 & Hok2). unfold start_child in Hs2.
    rewrite Hn, (proj2 (Nat.ltb_lt _ _) Hk) in Hs2. congruence.
  - destruct (phases sy !! i) as [p|] eqn:Hp; [|unfold advance in Hs; by rewrite Hp in Hs].
    destruct (active p) eqn:Ha; [|unfold advance in Hs; rewrite Hp in Hs; by destruct p].
    destruct (when_all_advance_ok sy i p Hok Hp Ha) as (sy2 & Hs2 & Hok2). congruence.
Qed.

Lemma when_all_reachable_ok sy : reachable traits sy -> system_ok sy.
Proof.
  induction 1 as [|sy sy' _ IH Hs]; [apply when_all_init_ok|].
  destruct Hs as [r sy' Hs|i c sy' Hs|sy' Hs|sy' Hs].
  - by eapply when_all_start_ok.
  - by eapply when_all_complete_ok.
  - by eapply outer_stop_ok.
  - by eapply when_all_internal_ok.
Qed.
End inv.
