(* ===== verification/WhenAllProps.v ===== *)
(** * when_all: the properties *)
From S2P Require Import Prelude WhenAll WhenAllInv.

Section props.
Context {X E : Type} (traits : list (bool * bool)).
Implicit Types (sy : @system X E) (o : @op X E) (p : @phase X E) (i k : nat).

(** ** The work that is left to the threads *)

Definition weight p : nat :=
  match p with
  | Running | Completed => 0
  | Connected | Delivering => 1
  | Counting => 2
  | StopRequest | FailStoreException _ => 3
  | StopStore | FailStore _ _ => 4
  | Stopping | FailRequest _ _ => 5
  | Failing _ _ => 6
  | Storing _ _ => 7
  end.
Definition work sy : nat := sum_list_with weight (phases sy).

Lemma advance_work sy sy' i : advance traits i sy = Some sy' -> work sy' < work sy.
Proof.
  unfold advance, work. destruct (phases sy !! i) as [p|] eqn:Hp; [|done].
  unfold on_op, on_deliver.
  destruct p as [| |vs t|e t|e t|e t|ex| | | | | |]; try done; (destruct (the_op sy) as [o|]; [|done]).
  - destruct (set_value i vs t o) as [[[] ?]|]; [| |done]; intros [= <-]; by apply (sum_insert_lt weight _ i _ _ Hp); simpl; lia.
  - destruct (child_fail_exchange o) as [[[] ?]|]; [| |done]; intros [= <-]; apply (sum_insert_lt weight _ i _ _ Hp); simpl; lia.
  - destruct (request_stop o) as [[[] ?]|]; [|done]; intros [= <-]; apply (sum_insert_lt weight _ i _ _ Hp); simpl; lia.
  - destruct (child_fail_store e t o) as [[[] ?]|]; [| |done]; intros [= <-]; apply (sum_insert_lt weight _ i _ _ Hp); simpl; lia.
  - destruct (child_fail_store_exception ex o) as [[[] ?]|]; [|done]; intros [= <-]; apply (sum_insert_lt weight _ i _ _ Hp); simpl; lia.
  - destruct (child_stop_exchange o) as [[[] ?]|]; [| |done]; intros [= <-]; apply (sum_insert_lt weight _ i _ _ Hp); simpl; lia.
  - destruct (child_stop_store o) as [[[] ?]|]; [|done]; intros [= <-]; apply (sum_insert_lt weight _ i _ _ Hp); simpl; lia.
  - destruct (request_stop o) as [[[] ?]|]; [|done]; intros [= <-]; apply (sum_insert_lt weight _ i _ _ Hp); simpl; lia.
  - destruct (child_done o) as [[[] ?]|]; [| |done]; intros [= <-]; apply (sum_insert_lt weight _ i _ _ Hp); simpl; lia.
  - destruct (deliver traits o) as [[? ?]|]; [|done]; intros [= <-]; apply (sum_insert_lt weight _ i _ _ Hp); simpl; lia.
Qed.

Lemma advance_next sy sy' i : advance traits i sy = Some sy' -> next sy' = next sy.
Proof.
  unfold advance. destruct (phases sy !! i) as [p|]; [|done]. unfold on_op, on_deliver.
  destruct p; try done; (destruct (the_op sy) as [o|]; [|done]); case_match; try done; destruct_and?;
    repeat case_match; by intros [= <-].
Qed.

Lemma when_all_internal_work sy sy' : system_ok traits sy -> internal traits sy sy' -> work sy' < work sy.
Proof.
  intros Hok [sy1 Hs|i sy1 Hs]; [|by eapply advance_work].
  unfold start_child in Hs. destruct (next sy) as [k|] eqn:Hn; [|done].
  destruct (k <? length traits)%nat eqn:Hk; [|done]. apply Nat.ltb_lt in Hk.
  unfold on_op in Hs. destruct (the_op sy) as [o|] eqn:Ho; [|done]. simpl in Hs. injection Hs as <-.
  destruct Hok as [[o' Hal]|Hov]; [|by rewrite (ov_op _ _ Hov) in Ho].
  destruct (al_lengths _ _ _ Hal) as (Hlp & _). pose proof (al_next _ _ _ Hal) as Hnext. rewrite Hn in Hnext.
  destruct (lookup_lt_is_Some_2 (phases sy) k) as [p Hp]; [by rewrite Hlp|].
  assert (p = Connected) as -> by (by apply (proj2 Hnext k p Hp)).
  apply (sum_insert_lt weight _ k Connected); [done|simpl; lia].
Qed.

(** Once [start] was called, the threads make at most [work] steps of their
    own before each child is either still running, with no more to do for
    anybody but the child, or done; and when all are done, the receiver has been
    completed.  So [when_all] completes if its children do, in whatever order
    they do. *)
Lemma when_all_finishes n sy sy' :
  (Z.of_nat (length traits) < 2 ^ 64)%Z -> reachable traits sy -> next sy <> None -> 0 < length traits -> nsteps (internal traits) n sy sy' ->
  n <= work sy /\
  ((exists sy'', internal traits sy' sy'') \/
   (forall i, i < length traits -> phases sy' !! i = Some Running \/ phases sy' !! i = Some Completed) /\
   ((forall i, i < length traits -> phases sy' !! i = Some Completed) ->
    log sy' = [joined (outcomes sy') (failed sy')])).
Proof.
  intros Hfits Hr Hn Hpos Hsteps. pose proof (when_all_reachable_ok traits Hfits sy Hr) as Hok. clear Hr.
  assert (system_ok traits sy' /\ next sy' <> None /\ n + work sy' <= work sy) as (Hok' & Hn' & Hw).
  { clear Hpos. induction Hsteps as [sy|n sy sy1 sy' Hs _ IH]; [split_and!; [done|done|lia]|].
    pose proof (when_all_internal_work _ _ Hok Hs). assert (next sy1 <> None) as Hn1.
    { destruct Hs as [sy1 Hs|i sy1 Hs].
      - unfold start_child in Hs. destruct (next sy); [|done]. case_match; [|done]. unfold on_op in Hs.
        destruct (the_op sy); [|done]. simpl in Hs. by injection Hs as <-.
      - by rewrite (advance_next sy sy1 i Hs). }
    destruct (IH Hn1 (when_all_internal_ok traits Hfits _ _ Hok Hs)) as (? & ? & ?). split_and!; [done|done|lia]. }
  split; [lia|]. destruct (next sy') as [k|] eqn:Hk; [|done].
  destruct (decide (k < length traits)) as [Hlt|Hge].
  { left. destruct (start_child_ok traits Hfits sy' k Hok' Hk Hlt) as (sy2 & Hs & _). exists sy2. by constructor. }
  destruct (decide (Exists (fun p => active p = true) (phases sy'))) as [Hex|Hno].
  { left. apply Exists_exists in Hex as (p & Hp & Ha). apply list_elem_of_lookup in Hp as [i Hi].
    destruct (when_all_advance_ok traits Hfits sy' i p Hok' Hi Ha) as (sy2 & Hs & _). exists sy2. by econstructor 2. }
  right. assert (length (phases sy') = length traits) as Hlp.
  { destruct Hok' as [[o Hal]|Hov]; [by destruct (al_lengths _ _ _ Hal)|by destruct (ov_outcomes _ _ Hov)]. }
  split.
  - intros i Hi. destruct (lookup_lt_is_Some_2 (phases sy') i) as [p Hp]; [by rewrite Hlp|]. rewrite Hp.
    assert (active p <> true) as Ha.
    { intros Ha. apply Hno, Exists_exists. exists p. split; [by eapply list_elem_of_lookup_2|done]. }
    destruct p; simpl in Ha; try done; auto. destruct Hok' as [[o Hal]|Hov].
    + pose proof (al_next _ _ _ Hal) as Hnext. rewrite Hk in Hnext.
      assert (k <= i) by (by apply (proj2 Hnext i _ Hp)). lia.
    + by specialize (ov_completed _ _ Hov i _ Hp).
  - intros Hall. destruct Hok' as [[o Hal]|Hov]; [|apply (ov_log _ _ Hov)]. exfalso.
    assert (pending o = 0%Z) as H0.
    { rewrite (al_pending _ _ _ Hal). rewrite count_none; [done|]. intros p Hp.
      apply list_elem_of_lookup in Hp as [i Hi]. rewrite (Hall i) in Hi by (rewrite <- Hlp; by eapply lookup_lt_Some).
      by injection Hi as <-. }
    destruct (al_last _ _ _ Hal H0 Hpos) as [i Hi].
    rewrite (Hall i) in Hi by (rewrite <- Hlp; by eapply lookup_lt_Some). done.
Qed.

(** C15: [when_all] completes its receiver once, after all children: with the
    error of the first child that failed, in the order of the exchanges of the
    disposition; else stopped, if any child was; else with the values of all
    children in their order ([joined]).  An exception from copying a value or an
    error counts as the failure of that child.  This is so for all orders of
    the atomic actions of the children's completions.  Until then the operation
    exists, and every action of a child that is completing is possible; after it
    nothing touches the operation, which the receiver may have destroyed.  When a
    child that was stopped, or that failed first, is done, the others have been
    asked to stop.  Once [start] was called, the threads make at most [work] steps
    of their own before each child is either still running, with no more to do for
    anybody but the child, or done; and when all are done, the receiver has been
    completed: [when_all] completes if its children do, in whatever order. *)
Theorem when_all_joins sy :
  (Z.of_nat (length traits) < 2 ^ 64)%Z -> reachable traits sy ->
  (forall i p, phases sy !! i = Some p -> active p = true -> is_Some (advance traits i sy)) /\
  (forall n sy', next sy <> None -> 0 < length traits -> nsteps (internal traits) n sy sy' -> n <= work sy /\
    ((exists sy'', internal traits sy' sy'') \/
     (forall i, i < length traits -> phases sy' !! i = Some Running \/ phases sy' !! i = Some Completed) /\
     ((forall i, i < length traits -> phases sy' !! i = Some Completed) ->
      log sy' = [joined (outcomes sy') (failed sy')]))) /\
  match the_op sy with
  | Some o => log sy = [] /\
      forall i, phases sy !! i = Some Completed ->
        outcomes sy !! i = Some (Some WasStopped) \/ head (failed sy) = Some i -> stop_requested o = true
  | None => log sy = [joined (outcomes sy) (failed sy)] /\
      (forall i, i < length traits ->
        phases sy !! i = Some Completed /\ exists out, outcomes sy !! i = Some (Some out)) /\
      (forall k, head (failed sy) = Some k -> exists e, outcomes sy !! k = Some (Some (Failure e)))
  end.
Proof.
  intros Hfits Hr. pose proof (when_all_reachable_ok traits Hfits sy Hr) as Hok. split; [|split].
  - intros i p Hp Ha. destruct (when_all_advance_ok traits Hfits sy i p Hok Hp Ha) as (sy' & -> & _). done.
  - intros n sy'. by apply when_all_finishes.
  - destruct Hok as [[o Hal]|Hov].
    + rewrite (al_op _ _ _ Hal). split; [apply (al_log _ _ _ Hal)|]. intros i Hi Hout.
      destruct (al_children _ _ _ Hal i _ Hi) as (out & part & tr & Ho & _ & _ & _ & Hc). simpl in Hc.
      destruct out as [[vs|e|]|]; [| | |done].
      * destruct Hout as [Hout|Hh]; [congruence|]. destruct Hc as [_ Hin]. destruct Hin.
        by apply head_is_Some_elem.
      * destruct Hout as [Hout|Hh]; [congruence|]. by apply Hc.
      * by destruct Hc as (_ & -> & _).
    + rewrite (ov_op _ _ Hov). split; [apply (ov_log _ _ Hov)|]. split; [|apply (ov_failed _ _ Hov)].
      destruct (ov_outcomes _ _ Hov) as (Hlp & Hlo & Hall). intros i Hi.
      destruct (lookup_lt_is_Some_2 (phases sy) i) as [p Hp]; [by rewrite Hlp|].
      destruct (lookup_lt_is_Some_2 (outcomes sy) i) as [out Ho]; [by rewrite Hlo|].
      rewrite Hp, (ov_completed _ _ Hov i p Hp), Ho. split; [done|]. destruct (Hall i out Ho) as [x ->]. by exists x.
Qed.

End props.

(** ** An example

    Three children: the first completes with values, the third is stopped while
    the second fails.  Its error arrives although the third stopped first. *)
Definition demo_traits : list (bool * bool) := [(true, false); (true, true); (true, true)].

Inductive move := Begin (r : registration) | Start | Completes (i : nat) (c : @completion nat nat) | Advance (i : nat).
Definition perform (m : move) (sy : @system nat nat) : option system :=
  match m with
  | Begin r => start r sy
  | Start => start_child demo_traits sy
  | Completes i c => complete demo_traits i c sy
  | Advance i => advance demo_traits i sy
  end.
Fixpoint perform_all (ms : list move) (sy : system) : option system :=
  match ms with [] => Some sy | m :: ms' => match perform m sy with Some sy' => perform_all ms' sy' | None => None end end.

Lemma perform_reachable ms sy sy' :
  reachable demo_traits sy -> perform_all ms sy = Some sy' -> reachable demo_traits sy'.
Proof.
  revert sy. induction ms as [|m ms IH]; intros sy Hr; simpl; [by intros [= <-]|].
  destruct (perform m sy) as [sy1|] eqn:Hm; [|done]. apply IH. eapply reachable_step; [exact Hr|].
  destruct m; simpl in Hm; [by eapply step_start|by eapply step_internal, internal_start|by eapply step_complete|].
  by eapply step_internal, internal_advance.
Qed.

(** Up to the point where the second child has failed and is about to ask the
    others to stop, and the third has stopped. *)
Definition demo_moves : list move :=
  [Begin NoToken; Start; Completes 0 (ByValue [1; 2] None); Start; Start; Completes 2 ByStopped;
   Completes 1 (ByError 7 None); Advance 2; Advance 1; Advance 2; Advance 2].
Definition demo_joining : system := default (init demo_traits) (perform_all demo_moves (init demo_traits)).
Definition demo_rest : list move :=
  [Advance 0; Advance 2; Advance 0; Advance 1; Advance 1; Advance 1; Advance 1].
Definition demo_joined : system := default (init demo_traits) (perform_all demo_rest demo_joining).

Lemma demo_joining_reachable : reachable demo_traits demo_joining.
Proof. apply (perform_reachable demo_moves (init demo_traits)); [constructor|vm_compute; reflexivity]. Qed.
Lemma demo_joined_reachable : reachable demo_traits demo_joined.
Proof. apply (perform_reachable demo_rest demo_joining); [apply demo_joining_reachable|vm_compute; reflexivity]. Qed.

Lemma when_all_joins_witness :
  reachable demo_traits demo_joined /\ log demo_joined = [SetError 7] /\
  joined (outcomes demo_joined) (failed demo_joined) = SetError 7 /\
  reachable demo_traits demo_joining /\ exists sy'', internal demo_traits demo_joining sy''.
Proof.
  split; [exact demo_joined_reachable|].
  destruct (when_all_joins demo_traits demo_joined ltac:(vm_compute; reflexivity) demo_joined_reachable) as (_ & _ & Hj).
  split; [|split; [vm_compute; reflexivity|split; [exact demo_joining_reachable|]]]; [exact (proj1 Hj)|].
  destruct (when_all_joins demo_traits demo_joining ltac:(vm_compute; reflexivity) demo_joining_reachable)
    as (_ & Hf & _).
  destruct (Hf 0 demo_joining ltac:(vm_compute; discriminate) ltac:(vm_compute; lia) (nsteps_O _ _))
    as [_ [Hs|[Hs _]]]; [exact Hs|].
  exfalso. destruct (Hs 1 ltac:(vm_compute; lia)) as [H1|H1]; vm_compute in H1; discriminate H1.
Defined.
