(* ===== verification/Workers.v ===== *)
(** * Threads that work off a queue

    The loops of [run_loop::run] (backport/cpp26/execution/run_loop.hpp) and of
    the workers of the thread pool (include/forge/static_thread_pool.hpp): lock,
    wait on a condition variable until there is a task or the queue is closed,
    take a task or leave, run it without the lock, lock and count it as done.
    [WorkerQueue] has what the loop calls, [WorkerQueueLaws] what it relies on;
    the theorems are proved for every queue with these laws. *)
From S2P Require Import Prelude.

Abbreviation task_id := Z.

(** ** The interface *)

(** [ready] is the predicate of the wait; [push] adds a task, and tells whether it
    was accepted, which may depend on things outside the queue; [others] are changes by threads that neither push,
    close nor work. *)
Class WorkerQueue (S : Type) := {
  ready : S -> bool;
  pop : prog S (option task_id);
  push : task_id -> S -> bool -> S -> Prop;
  close : prog S unit;
  execute : task_id -> prog S unit;
  task_done : prog S unit;
  others : S -> S -> Prop;
}.

(** [holds s ts n c]: the tasks [ts] are in the queue, [n] are not done, and [c]
    tells whether it is closed.  [valid s t]: the operation of task [t] exists;
    a task that is executed may end its operation, and nobody else does. *)
Class WorkerQueueLaws (S : Type) `{WorkerQueue S} := {
  holds : S -> list task_id -> nat -> bool -> Prop;
  valid : S -> task_id -> Prop;
  kept s s' := forall t, valid s t -> valid s' t;
  ready_ok s ts n c : holds s ts n c -> ready s = negb (bool_decide (ts = [])) || c;
  pop_task s t ts n c : holds s (t :: ts) n c -> (length ts < n)%nat ->
    exists s', pop s = Some (Some t, s') /\ holds s' ts n c /\ kept s s';
  pop_none s n c : holds s [] n c -> exists s', pop s = Some (None, s') /\ holds s' [] n c /\ kept s s';
  push_ok s ts n c t b s' : holds s ts n c -> t ∉ ts -> (Z.of_nat n + 1 < 2 ^ 64)%Z ->
    push t s b s' -> kept s s' /\
    if b then holds s' (ts ++ [t]) (n + 1) c /\ valid s' t else holds s' ts n c;
  close_ok s ts n c : holds s ts n c -> exists s', close s = Some (tt, s') /\ holds s' ts n true /\ kept s s';
  execute_ok s ts n c t : holds s ts n c -> t ∉ ts -> valid s t ->
    exists s', execute t s = Some (tt, s') /\ holds s' ts n c /\
      forall t', t' <> t -> valid s t' -> valid s' t';
  task_done_ok s ts n c : holds s ts n c -> (0 < n)%nat -> (Z.of_nat n < 2 ^ 64)%Z ->
    exists s', task_done s = Some (tt, s') /\ holds s' ts (n - 1) c /\ kept s s';
  others_ok s ts n c s' : holds s ts n c -> others s s' -> holds s' ts n c /\ kept s s';
}.

(** ** The threads *)

Inductive worker :=
  | AtLock                      (** before it locks to take a task *)
  | Asleep                      (** blocked on the condition variable *)
  | Executing (t : task_id)
  | AtCount                     (** before it locks to count the task as done *)
  | Returned.

#[export] Instance worker_dec : EqDecision worker.
Proof. solve_decision. Defined.

Definition awake (w : worker) : bool := match w with AtLock | Executing _ | AtCount => true | _ => false end.
Definition busy (w : worker) : bool := match w with Executing _ | AtCount => true | _ => false end.
Definition in_hand (w : worker) : option task_id := match w with Executing t => Some t | _ => None end.

(** [notify_all], and [notify_one], which wakes any one of those that sleep. *)
Definition wake_all (ws : list worker) : list worker :=
  (fun w => match w with Asleep => AtLock | _ => w end) <$> ws.
Inductive wake_one (ws : list worker) : list worker -> Prop :=
| wake_sleeper i : ws !! i = Some Asleep -> wake_one ws (<[i := AtLock]> ws)
| wake_nobody : Asleep ∉ ws -> wake_one ws ws.

Section workers.
Context {S : Type} `{WorkerQueueLaws S}.
Implicit Types (s : S) (ts : list task_id) (t : task_id) (ws : list worker) (w : worker) (i n : nat).

(** [accepted], [taken] and [executed] record the tasks in the order of the
    calls. *)
Record system := System {
  shared : S;
  workers : list worker;
  accepted : list task_id;
  taken : list task_id;
  executed : list task_id;
}.
Implicit Types sy : system.

(** The locked part of a round: take a task, leave, or go to sleep. *)
Definition take_task (i : nat) sy : option system :=
  match workers sy !! i with
  | Some AtLock =>
      if ready (shared sy) then
        match pop (shared sy) with
        | Some (Some t, s') =>
            Some (System s' (<[i := Executing t]> (workers sy)) (accepted sy) (taken sy ++ [t]) (executed sy))
        | Some (None, s') =>
            Some (System s' (<[i := Returned]> (workers sy)) (accepted sy) (taken sy) (executed sy))
        | None => None
        end
      else Some (System (shared sy) (<[i := Asleep]> (workers sy)) (accepted sy) (taken sy) (executed sy))
  | _ => None
  end.
Definition run_task (i : nat) sy : option system :=
  match workers sy !! i with
  | Some (Executing t) =>
      match execute t (shared sy) with
      | Some (_, s') =>
          Some (System s' (<[i := AtCount]> (workers sy)) (accepted sy) (taken sy) (executed sy ++ [t]))
      | None => None
      end
  | _ => None
  end.
Definition count_task (i : nat) sy : option system :=
  match workers sy !! i with
  | Some AtCount =>
      match task_done (shared sy) with
      | Some (_, s') =>
          Some (System s' (<[i := AtLock]> (workers sy)) (accepted sy) (taken sy) (executed sy))
      | None => None
      end
  | _ => None
  end.

Inductive internal sy : system -> Prop :=
| internal_take i sy' : take_task i sy = Some sy' -> internal sy sy'
| internal_run i sy' : run_task i sy = Some sy' -> internal sy sy'
| internal_count i sy' : count_task i sy = Some sy' -> internal sy sy'.

(** What other threads do: start the loop, push a task that was not pushed
    before, close the queue; a condition variable may also wake a thread for no
    reason. *)
Inductive step sy : system -> Prop :=
| step_internal sy' : internal sy sy' -> step sy sy'
| step_worker :
    step sy (System (shared sy) (workers sy ++ [AtLock]) (accepted sy) (taken sy) (executed sy))
| step_push t s' ws' :
    t ∉ accepted sy -> (Z.of_nat (length (accepted sy)) + 1 < 2 ^ 64)%Z ->
    push t (shared sy) true s' -> wake_one (workers sy) ws' ->
    step sy (System s' ws' (accepted sy ++ [t]) (taken sy) (executed sy))
| step_refused t s' :
    t ∉ accepted sy -> (Z.of_nat (length (accepted sy)) + 1 < 2 ^ 64)%Z ->
    push t (shared sy) false s' ->
    step sy (System s' (workers sy) (accepted sy) (taken sy) (executed sy))
| step_close s' :
    close (shared sy) = Some (tt, s') ->
    step sy (System s' (wake_all (workers sy)) (accepted sy) (taken sy) (executed sy))
| step_spurious i :
    workers sy !! i = Some Asleep ->
    step sy (System (shared sy) (<[i := AtLock]> (workers sy)) (accepted sy) (taken sy) (executed sy))
| step_others s' :
    others (shared sy) s' -> step sy (System s' (workers sy) (accepted sy) (taken sy) (executed sy)).

(** From a queue with no worker. *)
Definition start_of s : system := System s [] [] [] [].
Inductive reachable s : system -> Prop :=
| reachable_init : reachable s (start_of s)
| reachable_step sy sy' : reachable s sy -> step sy sy' -> reachable s sy'.

(** ** The invariant *)

Record workers_ok ts c sy : Prop := WorkersOk {
  wk_holds : holds (shared sy) ts (length ts + count busy (workers sy)) c;
  wk_order : taken sy ++ ts = accepted sy;
  wk_nodup : NoDup (accepted sy);
  wk_executed : executed sy ++ omap in_hand (workers sy) ≡ₚ taken sy;
  wk_bound : (Z.of_nat (length (accepted sy)) < 2 ^ 64)%Z;
  wk_count : length ts + count busy (workers sy) <= length (accepted sy);
  wk_returned : Returned ∈ workers sy -> c = true;
  wk_asleep : Asleep ∈ workers sy -> c = false /\ (ts <> [] -> exists w, w ∈ workers sy /\ awake w = true);
  wk_valid t : t ∈ ts ++ omap in_hand (workers sy) -> valid (shared sy) t;
}.

Lemma in_hand_insert ws i w w' : ws !! i = Some w ->
  exists rest, omap in_hand ws ≡ₚ option_list (in_hand w) ++ rest /\
    omap in_hand (<[i := w']> ws) ≡ₚ option_list (in_hand w') ++ rest.
Proof.
  intros Hi. exists (omap in_hand (take i ws) ++ omap in_hand (drop (Datatypes.S i) ws)). split.
  - rewrite <- (take_drop_middle ws i w Hi) at 1. rewrite omap_app. simpl.
    destruct (in_hand w); simpl; [by rewrite Permutation_middle|done].
  - rewrite insert_take_drop by (by eapply lookup_lt_Some). rewrite omap_app. simpl.
    destruct (in_hand w'); simpl; [by rewrite Permutation_middle|done].
Qed.

Lemma elem_of_insert ws i w x : x ∈ <[i := w]> ws -> x = w \/ x ∈ ws.
Proof.
  intros (j & Hj)%list_elem_of_lookup. apply list_lookup_insert_Some in Hj as [(_ & -> & _)|[_ Hj]]; [by left|].
  right. by eapply list_elem_of_lookup_2.
Qed.

Lemma insert_elem_of ws i w w0 : ws !! i = Some w0 -> w ∈ <[i := w]> ws.
Proof.
  intros Hi. apply (list_elem_of_lookup_2 _ i). apply list_lookup_insert_eq. by eapply lookup_lt_Some.
Qed.

Lemma awake_insert ws i w w0 x : ws !! i = Some w0 -> x ∈ ws -> awake x = true ->
  (awake w0 = true -> awake w = true) -> exists y, y ∈ <[i := w]> ws /\ awake y = true.
Proof.
  intros Hi Hx Hax Hw. apply list_elem_of_lookup in Hx as [j Hj]. destruct (decide (j = i)) as [->|Hne].
  - exists w. split; [by eapply insert_elem_of|]. apply Hw. congruence.
  - exists x. split; [|done]. apply (list_elem_of_lookup_2 _ j). by rewrite list_lookup_insert_ne.
Qed.

Lemma take_task_ok ts c sy i :
  workers_ok ts c sy -> workers sy !! i = Some AtLock ->
  exists sy' ts', take_task i sy = Some sy' /\ workers_ok ts' c sy' /\
    (length ts' < length ts \/ ts' = ts /\ (ts = [] \/ c = false)) /\ (ts <> [] -> ts' <> ts).
Proof.
  intros [Hh Ho Hnd He Hb Hc Hr Ha Hv] Hi. unfold take_task. rewrite Hi, (ready_ok _ _ _ _ Hh).
  destruct (in_hand_insert _ i _ Asleep Hi) as (rest & Ein & Eas). simpl in Ein, Eas.
  destruct ts as [|t ts]; simpl.
  - destruct c.
    + destruct (pop_none _ _ _ Hh) as (s' & -> & Hh' & Hk). eexists _, []. split; [reflexivity|].
      split; [|split; [by right; auto|done]]. pose proof (count_insert busy _ i _ Returned Hi) as Hci.
      simpl in Hci. split; simpl; try done.
      * replace (count busy (<[i:=Returned]> (workers sy))) with (count busy (workers sy)) by lia. done.
      * destruct (in_hand_insert _ i _ Returned Hi) as (rest' & E1 & E2). simpl in E1, E2. by rewrite E2, <- E1.
      * simpl in Hc. lia.
      * intros [?|Hin]%elem_of_insert; [done|]. by destruct (Ha Hin).
      * destruct (in_hand_insert _ i _ Returned Hi) as (rest' & E1 & E2). simpl in E1, E2.
        intros t. rewrite E2, <- E1. auto.
    + eexists _, []. split; [reflexivity|].
      split; [|split; [by right; auto|done]]. pose proof (count_insert busy _ i _ Asleep Hi) as Hci.
      simpl in Hci. split; simpl; try done.
      * replace (count busy (<[i:=Asleep]> (workers sy))) with (count busy (workers sy)) by lia. done.
      * by rewrite Eas, <- Ein.
      * simpl in Hc. lia.
      * intros [?|Hin]%elem_of_insert; [done|auto].
      * intros t. rewrite Eas, <- Ein. auto.
  - destruct (pop_task _ _ _ _ _ Hh) as (s' & -> & Hh' & Hk); [simpl; lia|]. eexists _, ts. split; [reflexivity|].
    split; [|split; [left; simpl; lia|]].
    2: { intros _ E. apply (f_equal length) in E. simpl in E. lia. }
    pose proof (count_insert busy _ i _ (Executing t) Hi) as Hci. simpl in Hci.
    destruct (in_hand_insert _ i _ (Executing t) Hi) as (rest' & E1 & E2). simpl in E1, E2.
    split; simpl; try done.
    + replace (length ts + count busy (<[i:=Executing t]> (workers sy)))
        with (length (t :: ts) + count busy (workers sy)) by (simpl; lia). done.
    + by rewrite <- app_assoc.
    + rewrite E2, <- Permutation_middle, <- E1. rewrite He. by rewrite Permutation_app_comm.
    + simpl in Hc. lia.
    + intros [?|Hin]%elem_of_insert; [done|auto].
    + intros [?|Hin]%elem_of_insert; [done|]. destruct (Ha Hin) as [Hcf _]. split; [done|].
      intros _. exists (Executing t). split; [by eapply insert_elem_of|done].
    + intros t'. rewrite elem_of_app, E2, <- E1. intros Ht. apply Hk, Hv. set_solver.
Qed.

Lemma run_task_ok ts c sy i t :
  workers_ok ts c sy -> workers sy !! i = Some (Executing t) ->
  exists sy', run_task i sy = Some sy' /\ workers_ok ts c sy'.
Proof.
  intros [Hh Ho Hnd He Hb Hc Hr Ha Hv] Hi. unfold run_task. rewrite Hi.
  assert (t ∉ ts) as Hnot.
  { rewrite <- Ho in Hnd. apply NoDup_app in Hnd as (_ & Hd & _). intros Hin. apply (Hd t); [|done].
    rewrite <- He. apply elem_of_app. right. apply list_elem_of_omap. exists (Executing t).
    split; [by eapply list_elem_of_lookup_2|done]. }
  assert (t ∈ omap in_hand (workers sy)) as Htin.
  { apply list_elem_of_omap. exists (Executing t). split; [by eapply list_elem_of_lookup_2|done]. }
  assert (valid (shared sy) t) as Hvt by (apply Hv, elem_of_app; by right).
  destruct (execute_ok _ _ _ _ _ Hh Hnot Hvt) as (s' & -> & Hh' & Hk). eexists. split; [reflexivity|].
  pose proof (count_insert busy _ i _ AtCount Hi) as Hci. simpl in Hci.
  destruct (in_hand_insert _ i _ AtCount Hi) as (rest & E1 & E2). simpl in E1, E2.
  split; simpl; try done.
  - replace (count busy (<[i:=AtCount]> (workers sy))) with (count busy (workers sy)) by lia. done.
  - rewrite E2, <- app_assoc. simpl. by rewrite <- E1.
  - lia.
  - intros [?|Hin]%elem_of_insert; [done|auto].
  - intros [?|Hin]%elem_of_insert; [done|]. destruct (Ha Hin) as [Hcf _]. split; [done|].
    intros _. exists AtCount. split; [by eapply insert_elem_of|done].
  - intros t'. rewrite E2. intros Ht'. apply Hk.
    + assert (NoDup (omap in_hand (workers sy))) as Hnh.
      { rewrite <- Ho, <- He in Hnd. apply NoDup_app in Hnd as (Hnd & _ & _). by apply NoDup_app in Hnd as (_ & _ & ?). }
      rewrite E1 in Hnh. apply NoDup_cons in Hnh as [Hnr _]. intros ->. apply elem_of_app in Ht' as [?|?]; done.
    + apply Hv. rewrite E1. set_solver.
Qed.

Lemma count_task_ok ts c sy i :
  workers_ok ts c sy -> workers sy !! i = Some AtCount ->
  exists sy', count_task i sy = Some sy' /\ workers_ok ts c sy'.
Proof.
  intros [Hh Ho Hnd He Hb Hc Hr Ha Hv] Hi. unfold count_task. rewrite Hi.
  pose proof (count_insert busy _ i _ AtLock Hi) as Hci. simpl in Hci.
  destruct (task_done_ok _ _ _ _ Hh) as (s' & -> & Hh' & Hk); [lia|lia|]. eexists. split; [reflexivity|].
  destruct (in_hand_insert _ i _ AtLock Hi) as (rest & E1 & E2). simpl in E1, E2.
  split; simpl; try done.
  - replace (length ts + count busy (<[i:=AtLock]> (workers sy)))
      with (length ts + count busy (workers sy) - 1) by lia. done.
  - by rewrite E2, <- E1.
  - lia.
  - intros [?|Hin]%elem_of_insert; [done|auto].
  - intros [?|Hin]%elem_of_insert; [done|]. destruct (Ha Hin) as [Hcf _]. split; [done|].
    intros _. exists AtLock. split; [by eapply insert_elem_of|done].
  - intros t. rewrite E2, <- E1. auto.
Qed.

Lemma wake_all_in_hand ws : omap in_hand (wake_all ws) = omap in_hand ws.
Proof.
  unfold wake_all. induction ws as [|w ws IH]; [done|]. rewrite fmap_cons.
  destruct w; cbn [omap list_omap in_hand]; try exact IH. f_equal. exact IH.
Qed.

Lemma wake_all_busy ws : count busy (wake_all ws) = count busy ws.
Proof.
  unfold wake_all. induction ws as [|w ws IH]; [done|]. rewrite fmap_cons, !count_cons. by destruct w; simpl; rewrite IH.
Qed.

Lemma wake_all_elem ws w : w ∈ wake_all ws -> w = AtLock \/ w ∈ ws /\ w <> Asleep.
Proof. intros (v & -> & Hv)%list_elem_of_fmap. destruct v; auto. Qed.

(** Waking a thread changes neither what the threads have in hand nor the rest. *)
Lemma wake_ok ts c sy i :
  workers_ok ts c sy -> workers sy !! i = Some Asleep ->
  workers_ok ts c (System (shared sy) (<[i := AtLock]> (workers sy)) (accepted sy) (taken sy) (executed sy)).
Proof.
  intros [Hh Ho Hnd He Hb Hc Hr Ha Hv] Hi.
  pose proof (count_insert busy _ i _ AtLock Hi) as Hci. simpl in Hci.
  destruct (in_hand_insert _ i _ AtLock Hi) as (rest & E1 & E2). simpl in E1, E2.
  split; simpl; try done.
  - replace (count busy (<[i:=AtLock]> (workers sy))) with (count busy (workers sy)) by lia. done.
  - by rewrite E2, <- E1.
  - lia.
  - intros [?|Hin]%elem_of_insert; [done|auto].
  - intros [?|Hin]%elem_of_insert; [done|]. destruct (Ha Hin) as [Hcf _]. split; [done|].
    intros _. exists AtLock. split; [by eapply insert_elem_of|done].
  - intros t. rewrite E2, <- E1. auto.
Qed.

Lemma push_accepted_ok ts c sy t s' ws' :
  workers_ok ts c sy -> t ∉ accepted sy -> (Z.of_nat (length (accepted sy)) + 1 < 2 ^ 64)%Z ->
  push t (shared sy) true s' -> wake_one (workers sy) ws' ->
  workers_ok (ts ++ [t]) c (System s' ws' (accepted sy ++ [t]) (taken sy) (executed sy)).
Proof.
  intros [Hh Ho Hnd He Hb Hc Hr Ha Hv] Ht Hlen Hp Hw.
  assert (t ∉ ts) as Hts by (rewrite <- Ho, elem_of_app in Ht; tauto).
  destruct (push_ok _ _ _ _ _ _ _ Hh Hts ltac:(lia) Hp) as (Hk & Hh' & Hvt).
  assert (omap in_hand ws' ≡ₚ omap in_hand (workers sy) /\ count busy ws' = count busy (workers sy)) as [Ein Ec].
  { destruct Hw as [i Hi|]; [|done]. destruct (in_hand_insert _ i _ AtLock Hi) as (rest & E1 & E2).
    pose proof (count_insert busy _ i _ AtLock Hi) as Hci. simpl in *. split; [by rewrite E2, <- E1|lia]. }
  split; simpl.
  - rewrite length_app, Ec. simpl. by replace (length ts + 1 + count busy (workers sy))
      with (length ts + count busy (workers sy) + 1) by lia.
  - by rewrite app_assoc, Ho.
  - apply NoDup_app. split; [done|]. split; [|by apply NoDup_singleton].
    by intros x Hx ->%list_elem_of_singleton.
  - by rewrite Ein.
  - rewrite length_app. simpl. lia.
  - rewrite !length_app. simpl. lia.
  - destruct Hw as [i Hi|]; [|done]. intros [?|Hin]%elem_of_insert; [done|auto].
  - destruct Hw as [i Hi|Hno]; [|done]. intros Hin. split.
    + apply elem_of_insert in Hin as [?|Hin]; [done|]. by apply Ha.
    + intros _. exists AtLock. split; [by eapply insert_elem_of|done].
  - intros t'. rewrite Ein, !elem_of_app, list_elem_of_singleton. intros [[?| ->]|?]; [|done|]; apply Hk, Hv; set_solver.
Qed.

Lemma close_workers_ok ts c sy s' :
  workers_ok ts c sy -> close (shared sy) = Some (tt, s') ->
  workers_ok ts true (System s' (wake_all (workers sy)) (accepted sy) (taken sy) (executed sy)).
Proof.
  intros [Hh Ho Hnd He Hb Hc Hr Ha Hv] Hcl. destruct (close_ok _ _ _ _ Hh) as (s2 & Hcl2 & Hh' & Hk).
  assert (s2 = s') as -> by congruence.
  split; simpl; rewrite ?wake_all_busy, ?wake_all_in_hand; try done.
  - intros [?|[_ ?]]%wake_all_elem; done.
  - auto.
Qed.

Lemma workers_internal_ok ts c sy sy' :
  workers_ok ts c sy -> internal sy sy' -> exists ts', workers_ok ts' c sy'.
Proof.
  intros Hok [i sy1 Hs|i sy1 Hs|i sy1 Hs].
  - destruct (workers sy !! i) as [[]|] eqn:Hi; try (unfold take_task in Hs; by rewrite Hi in Hs).
    destruct (take_task_ok ts c sy i Hok Hi) as (sy2 & ts' & Hs2 & Hok' & _). exists ts'. congruence.
  - destruct (workers sy !! i) as [[]|] eqn:Hi; try (unfold run_task in Hs; by rewrite Hi in Hs).
    destruct (run_task_ok ts c sy i _ Hok Hi) as (sy2 & Hs2 & Hok'). exists ts. congruence.
  - destruct (workers sy !! i) as [[]|] eqn:Hi; try (unfold count_task in Hs; by rewrite Hi in Hs).
    destruct (count_task_ok ts c sy i Hok Hi) as (sy2 & Hs2 & Hok'). exists ts. congruence.
Qed.

Lemma workers_step_ok ts c sy sy' :
  workers_ok ts c sy -> step sy sy' -> exists ts' c', workers_ok ts' c' sy'.
Proof.
  intros Hok Hs. destruct Hs as [sy' Hs| |t s' ws' Ht Hlen Hp Hw|t s' Ht Hlen Hp|s' Hc|i Hi|s' Hot].
  - destruct (workers_internal_ok _ _ _ _ Hok Hs) as [ts' ?]. by exists ts', c.
  - exists ts, c. destruct Hok as [Hh Ho Hnd He Hb Hc Hr Ha Hv]. split; simpl; try done.
    + rewrite count_app. unfold count at 2. simpl. by rewrite Nat.add_0_r.
    + rewrite omap_app. simpl. by rewrite app_nil_r.
    + rewrite count_app. unfold count at 2. simpl. lia.
    + rewrite elem_of_app, list_elem_of_singleton. intros [?|?]; [auto|done].
    + rewrite elem_of_app, list_elem_of_singleton. intros [Hin|?]; [|done]. destruct (Ha Hin) as [Hcf _].
      split; [done|]. intros _. exists AtLock. split; [|done]. apply elem_of_app. right. by apply list_elem_of_singleton.
    + intros t. rewrite omap_app. simpl. rewrite app_nil_r. auto.
  - eexists _, _. by eapply push_accepted_ok.
  - exists ts, c. destruct Hok as [Hh Ho Hnd He Hb Hc Hr Ha Hv].
    assert (t ∉ ts) as Hts by (rewrite <- Ho, elem_of_app in Ht; tauto).
    destruct (push_ok _ _ _ _ _ _ _ Hh Hts ltac:(lia) Hp) as (Hk & Hh'). split; auto.
  - eexists _, _. by eapply close_workers_ok.
  - eexists _, _. by apply wake_ok.
  - exists ts, c. destruct Hok as [Hh Ho Hnd He Hb Hc Hr Ha Hv]. destruct (others_ok _ _ _ _ _ Hh Hot) as [Hh' Hk]. split; auto.
Qed.

Lemma reachable_workers_ok s sy :
  holds s [] 0 false -> reachable s sy -> exists ts c, workers_ok ts c sy.
Proof.
  intros Hs. induction 1 as [|sy sy' _ (ts & c & IH) Hstep]; [|by eapply workers_step_ok].
  exists [], false. split; simpl; try done; try apply NoDup_nil_2; try (by intros ?%not_elem_of_nil); by intros ? ?%not_elem_of_nil.
Qed.

(** ** The work that is left *)

Definition weight (w : worker) : nat :=
  match w with Asleep | Returned => 0 | AtLock => 1 | AtCount => 2 | Executing _ => 3 end.
Definition work ts sy : nat := 3 * length ts + sum_list_with weight (workers sy).

Definition quiet sy : Prop := forall w, w ∈ workers sy -> w = Asleep \/ w = Returned.

(** Each step of the workers makes the work smaller; the queue only gets shorter,
    and a worker leaves only when it is empty. *)
Lemma workers_internal_work ts c sy sy' :
  workers_ok ts c sy -> internal sy sy' ->
  exists ts', workers_ok ts' c sy' /\ work ts' sy' < work ts sy /\
    accepted sy' = accepted sy /\
    ((ts <> [] -> exists w, w ∈ workers sy /\ w <> Returned) ->
     ts' <> [] -> exists w, w ∈ workers sy' /\ w <> Returned).
Proof.
  intros Hok [i sy1 Hs|i sy1 Hs|i sy1 Hs]; unfold work.
  - destruct (workers sy !! i) as [[]|] eqn:Hi; try (unfold take_task in Hs; by rewrite Hi in Hs).
    destruct (take_task_ok ts c sy i Hok Hi) as (sy2 & ts' & Hs2 & Hok' & Hlt & Hne).
    assert (sy2 = sy1) as -> by congruence. exists ts'. split; [done|].
    pose proof (wk_order _ _ _ Hok) as Ho. pose proof (wk_order _ _ _ Hok') as Ho'.
    unfold take_task in Hs. rewrite Hi in Hs.
    destruct (ready (shared sy)).
    + destruct (pop (shared sy)) as [[[t|] s']|]; [| |done]; injection Hs as <-; simpl in *.
      * pose proof (sum_insert weight (workers sy) i AtLock (Executing t) Hi). simpl in *.
        assert (length ts' < length ts) as Hl.
        { apply (f_equal length) in Ho, Ho'. rewrite !length_app in *. simpl in *. lia. }
        split; [lia|]. split; [done|]. intros _ _. exists (Executing t). split; [by eapply insert_elem_of|done].
      * pose proof (sum_insert weight (workers sy) i AtLock Returned Hi). simpl in *.
        assert (ts' = ts) as -> by (eapply app_inv_head; by rewrite Ho, Ho').
        split; [lia|]. split; [done|]. intros _ Hts. by destruct (Hne Hts).
    + injection Hs as <-. simpl in *. pose proof (sum_insert weight (workers sy) i AtLock Asleep Hi). simpl in *.
      assert (ts' = ts) as -> by (eapply app_inv_head; by rewrite Ho, Ho').
      split; [lia|]. split; [done|]. intros _ Hts. by destruct (Hne Hts).
  - destruct (workers sy !! i) as [[]|] eqn:Hi; try (unfold run_task in Hs; by rewrite Hi in Hs).
    destruct (run_task_ok ts c sy i _ Hok Hi) as (sy2 & Hs2 & Hok'). assert (sy2 = sy1) as -> by congruence.
    exists ts. split; [done|]. unfold run_task in Hs. rewrite Hi in Hs.
    destruct (execute t (shared sy)) as [[? ?]|]; [|done]. injection Hs as <-. simpl.
    pose proof (sum_insert weight (workers sy) i _ AtCount Hi). simpl in *.
    split; [lia|]. split; [done|]. intros _ _. exists AtCount. split; [by eapply insert_elem_of|done].
  - destruct (workers sy !! i) as [[]|] eqn:Hi; try (unfold count_task in Hs; by rewrite Hi in Hs).
    destruct (count_task_ok ts c sy i Hok Hi) as (sy2 & Hs2 & Hok'). assert (sy2 = sy1) as -> by congruence.
    exists ts. split; [done|]. unfold count_task in Hs. rewrite Hi in Hs.
    destruct (task_done (shared sy)) as [[? ?]|]; [|done]. injection Hs as <-. simpl.
    pose proof (sum_insert weight (workers sy) i _ AtLock Hi). simpl in *.
    split; [lia|]. split; [done|]. intros _ _. exists AtLock. split; [by eapply insert_elem_of|done].
Qed.

Lemma workers_progress ts c sy : workers_ok ts c sy -> (exists sy', internal sy sy') \/ quiet sy.
Proof.
  intros Hok. destruct (decide (Exists (fun w => awake w = true) (workers sy))) as [Hex|Hno].
  - left. apply Exists_exists in Hex as (w & (i & Hi)%list_elem_of_lookup & Hw). destruct w; try done.
    + destruct (take_task_ok ts c sy i Hok Hi) as (sy' & _ & Hs & _). exists sy'. by econstructor.
    + destruct (run_task_ok ts c sy i _ Hok Hi) as (sy' & Hs & _). exists sy'. by econstructor 2.
    + destruct (count_task_ok ts c sy i Hok Hi) as (sy' & Hs & _). exists sy'. by econstructor 3.
  - right. intros w Hw. assert (awake w <> true) as Ha by (intros Ha; apply Hno, Exists_exists; eauto).
    destruct w; simpl in Ha; auto; done.
Qed.

Lemma workers_run n ts c sy sy' :
  workers_ok ts c sy -> nsteps internal n sy sy' ->
  exists ts', workers_ok ts' c sy' /\ n + work ts' sy' <= work ts sy /\ accepted sy' = accepted sy /\
    ((ts <> [] -> exists w, w ∈ workers sy /\ w <> Returned) ->
     ts' <> [] -> exists w, w ∈ workers sy' /\ w <> Returned).
Proof.
  intros Hok Hn. revert ts Hok. induction Hn as [sy|n sy sy1 sy' Hs _ IH]; intros ts Hok.
  - exists ts. split_and!; [done|lia|done|done].
  - destruct (workers_internal_work ts c sy sy1 Hok Hs) as (ts1 & Hok1 & Hw & Ea & Hl).
    destruct (IH ts1 Hok1) as (ts' & Hok' & Hw' & Ea' & Hl'). exists ts'.
    split_and!; [done|lia|congruence|]. intros Hex. by apply Hl', Hl.
Qed.

Lemma workers_work_bound ts c sy : workers_ok ts c sy -> work ts sy <= 3 * (length (accepted sy) + length (workers sy)).
Proof.
  intros Hok. unfold work.
  assert (sum_list_with weight (workers sy) <= 3 * length (workers sy)); [|pose proof (wk_count _ _ _ Hok); lia].
  clear Hok. induction (workers sy) as [|[] ws IH]; simpl; lia.
Qed.

(** Where all is quiet and the queue is closed, everything is done, if somebody
    is left to do it. *)
Lemma workers_quiet_closed ts sy :
  workers_ok ts true sy -> quiet sy -> (ts <> [] -> exists w, w ∈ workers sy /\ w <> Returned) ->
  (forall w, w ∈ workers sy -> w = Returned) /\ ts = [] /\ executed sy ≡ₚ accepted sy /\
  count busy (workers sy) = 0.
Proof.
  intros Hok Hq Hleft. assert (forall w, w ∈ workers sy -> w = Returned) as Hall.
  { intros w Hw. destruct (Hq w Hw) as [->|?]; [|done]. by destruct (wk_asleep _ _ _ Hok Hw). }
  assert (ts = []) as ->.
  { destruct ts as [|t ts]; [done|]. destruct (Hleft ltac:(done)) as (w & Hw & Hne). by destruct Hne; apply Hall. }
  split; [done|]. split; [done|]. split.
  - rewrite <- (wk_order _ _ _ Hok), app_nil_r, <- (wk_executed _ _ _ Hok).
    assert (omap in_hand (workers sy) = []) as ->; [|by rewrite app_nil_r].
    clear -Hall. induction (workers sy) as [|w ws IH]; [done|].
    rewrite (Hall w) by apply list_elem_of_here. apply IH. intros v Hv. apply Hall. by apply list_elem_of_further.
  - apply count_none. intros w Hw. by rewrite (Hall w Hw).
Qed.

Lemma workers_reachable_internal s n sy sy' : reachable s sy -> nsteps internal n sy sy' -> reachable s sy'.
Proof.
  intros Hr Hn. revert Hr. induction Hn as [|n sy sy1 sy' Hs _ IH]; intros Hr; [done|]. apply IH.
  eapply reachable_step; [exact Hr|by constructor].
Qed.
End workers.

Arguments system : clear implicits.
