(* ===== verification/RunLoop.v ===== *)
(** * run_loop

    Models backport/cpp26/execution/run_loop.hpp: the intrusive queue of the
    operations, the counter of those that are not done, and the operations of
    [schedule()], which complete when the loop executes them.  The loop itself is
    in Workers.v; this file shows that a [run_loop] is a queue for it. *)
From S2P Require Import Prelude Linked RecordQueue Workers.

#[local] Open Scope prog_scope.

(** What the receiver of an operation is told, and its stop token: one that
    cannot be stopped, or one that tells whether stop is requested. *)
Inductive signal := SetValue | SetStopped.
Inductive token := Unstoppable | Stoppable (requested : bool).

(** [tasks] are the [__next] members of the operations that exist, [signals]
    the completions so far. *)
Record run_loop := RunLoop {
  tasks : links;
  tokens : gmap task_id token;
  head_tail : record_queue;
  finishing : bool;
  task_count : Z;
  signals : list (task_id * signal);
}.
Implicit Types (l : run_loop) (t : task_id).

Definition new_loop : run_loop := RunLoop ∅ ∅ empty_queue false 0 [].

(** [~run_loop] *)
Definition destroy : prog run_loop unit :=
  n ← read task_count;
  if (0 <? n)%Z then undefined else give tt.

Definition finish : prog run_loop unit :=
  modify (fun l => RunLoop (tasks l) (tokens l) (head_tail l) true (task_count l) (signals l)).

(** [__push], but for the notification. *)
Definition push_task t : prog run_loop unit := fun l =>
  match push_back (head_tail l) (tasks l) t with
  | Some (q, nx) => Some (tt, RunLoop nx (tokens l) q (finishing l) (u64 (task_count l + 1)) (signals l))
  | None => None
  end.

(** The predicate of the wait in [__pop], and what follows the wait. *)
Definition pop_ready l : bool := negb (is_empty (head_tail l)) || finishing l.
Definition pop_task : prog run_loop (option task_id) := fun l =>
  match q_head (head_tail l) with
  | None => Some (None, l)
  | Some t =>
      match tasks l !! t with
      | Some next =>
          let tail := match next with None => None | Some _ => q_tail (head_tail l) end in
          Some (Some t, RunLoop (tasks l) (tokens l) (RecordQueue next tail) (finishing l) (task_count l) (signals l))
      | None => None
      end
  end.

(** The counting in [run]. *)
Definition task_counted : prog run_loop unit :=
  modify (fun l => RunLoop (tasks l) (tokens l) (head_tail l) (finishing l) (u64 (task_count l - 1)) (signals l)).

(** [__execute] of an operation, which its receiver may then destroy. *)
Definition execute_task t : prog run_loop unit := fun l =>
  match tasks l !! t, tokens l !! t with
  | Some _, Some k =>
      let sig := match k with Stoppable true => SetStopped | _ => SetValue end in
      Some (tt, RunLoop (delete t (tasks l)) (delete t (tokens l)) (head_tail l) (finishing l) (task_count l)
        (signals l ++ [(t, sig)]))
  | _, _ => None
  end.

(** Connecting a sender, and a request to stop an operation. *)
Definition connect t k : prog run_loop unit :=
  modify (fun l => RunLoop (<[t := None]> (tasks l)) (<[t := k]> (tokens l)) (head_tail l) (finishing l)
    (task_count l) (signals l)).
Definition request_stop t : prog run_loop unit :=
  modify (fun l => RunLoop (tasks l) (<[t := Stoppable true]> (tokens l)) (head_tail l) (finishing l)
    (task_count l) (signals l)).

Inductive user_step l : run_loop -> Prop :=
| user_connect t k l' : tasks l !! t = None -> connect t k l = Some (tt, l') -> user_step l l'
| user_stop t l' : tokens l !! t = Some (Stoppable false) -> request_stop t l = Some (tt, l') -> user_step l l'.

(** ** The queue of the loop *)

#[export] Instance run_loop_queue : WorkerQueue run_loop := {|
  ready := pop_ready;
  pop := pop_task;
  push t l b l' := push_task t l = Some (tt, l') /\ b = true;
  close := finish;
  execute := execute_task;
  task_done := task_counted;
  others := user_step;
|}.

Record loop_holds l (ts : list task_id) (n : nat) (c : bool) : Prop := LoopHolds {
  lh_queue : queue_rep (tasks l) (head_tail l) ts;
  lh_count : task_count l = Z.of_nat n;
  lh_finishing : finishing l = c;
  lh_tokens t : is_Some (tasks l !! t) <-> is_Some (tokens l !! t);
}.
Definition exists_op l t : Prop := is_Some (tasks l !! t).

Lemma pop_task_ok l t ts n c : loop_holds l (t :: ts) n c ->
  exists l', pop_task l = Some (Some t, l') /\ loop_holds l' ts n c /\ tasks l' = tasks l.
Proof.
  intros [Hq Hn Hc Hk]. pose proof Hq as [Hh Ht [Hl1 Hl2] Hnd]. unfold pop_task. rewrite Hh. simpl. rewrite Hl1.
  rewrite hd_or_Some. eexists. split; [reflexivity|]. split; [|done]. split; [|done..].
  apply NoDup_cons in Hnd as [_ Hnd]. split; [done| |done|done]. simpl. rewrite Ht. by destruct ts.
Qed.

Lemma push_task_ok l ts n c t l' :
  loop_holds l ts n c -> t ∉ ts -> (Z.of_nat n + 1 < 2 ^ 64)%Z -> push_task t l = Some (tt, l') ->
  loop_holds l' (ts ++ [t]) (n + 1) c /\ same_records (tasks l) (tasks l') /\ exists_op l t.
Proof.
  intros [Hq Hn Hc Hk] Ht Hb Hp. unfold push_task in Hp.
  destruct (push_back (head_tail l) (tasks l) t) as [[q nx]|] eqn:Epb; [|done]. injection Hp as <-.
  assert (is_Some (tasks l !! t)) as Hs.
  { unfold push_back, set_next in Epb. destruct (tasks l !! t); [by eexists|done]. }
  destruct (push_back_ok _ _ _ _ Hq Ht Hs) as (q' & nx' & Epb' & Hq' & Hsame & _).
  assert (q' = q /\ nx' = nx) as [-> ->] by (split; congruence). split; [|by split].
  split; simpl; [done| |done|].
  - rewrite Hn, u64_small by lia. lia.
  - intros t'. rewrite (Hsame t'). apply Hk.
Qed.

Lemma execute_task_ok l ts n c t :
  loop_holds l ts n c -> t ∉ ts -> exists_op l t ->
  exists l' k, execute_task t l = Some (tt, l') /\ loop_holds l' ts n c /\ tasks l' = delete t (tasks l) /\
    tokens l !! t = Some k /\
    signals l' = signals l ++ [(t, match k with Stoppable true => SetStopped | _ => SetValue end)].
Proof.
  intros [Hq Hn Hc Hk] Ht Hs. unfold execute_task. pose proof (proj1 (Hk t) Hs) as [k Hkt].
  destruct Hs as [nx Hnx]. rewrite Hnx, Hkt. eexists _, k. split; [reflexivity|]. split; [|done].
  split; simpl; [|done..|].
  - eapply queue_rep_ext; [exact Hq|]. intros j Hj. apply lookup_delete_ne. by intros ->.
  - intros t'. destruct (decide (t' = t)) as [->|]; [by rewrite !lookup_delete_eq|].
    rewrite !lookup_delete_ne by done. apply Hk.
Qed.

Lemma user_step_ok l ts n c l' :
  loop_holds l ts n c -> user_step l l' -> loop_holds l' ts n c /\ forall t, exists_op l t -> exists_op l' t.
Proof.
  intros [Hq Hn Hc Hk] [t k l1 Ht Hs|t l1 Ht Hs]; injection Hs as <-; split; [split|..]; simpl; try done.
  - eapply queue_rep_ext; [exact Hq|]. intros j Hj. apply lookup_insert_ne. intros ->.
    destruct (queue_rep_in _ _ _ _ Hq Hj). congruence.
  - intros t'. destruct (decide (t' = t)) as [->|]; [rewrite !lookup_insert_eq; split; eauto|].
    rewrite !lookup_insert_ne by done. apply Hk.
  - intros t' Hs. unfold exists_op in *. simpl. destruct (decide (t' = t)) as [->|];
      [rewrite lookup_insert_eq; eauto|by rewrite lookup_insert_ne].
  - split; simpl; try done. intros t'. rewrite Hk. destruct (decide (t' = t)) as [->|];
      [rewrite lookup_insert_eq, Ht; split; eauto|by rewrite lookup_insert_ne].
Qed.

#[export] Program Instance run_loop_laws : WorkerQueueLaws run_loop := {|
  holds := loop_holds;
  valid := exists_op;
|}.
Next Obligation.
  intros l ts n c [Hq _ Hc _]. simpl. unfold pop_ready. by rewrite (is_empty_iff _ _ _ Hq), Hc.
Qed.
Next Obligation.
  intros l t ts n c Hh _. destruct (pop_task_ok l t ts n c Hh) as (l' & Hp & Hh' & E).
  exists l'. split; [exact Hp|]. split; [done|]. intros t'. unfold exists_op. by rewrite E.
Qed.
Next Obligation.
  intros l n c Hh. exists l. split; [|by split]. destruct Hh as [[Hhd _ _ _] _ _ _]. simpl. unfold pop_task.
  by rewrite Hhd.
Qed.
Next Obligation.
  intros l ts n c t b l' Hh Ht Hb [Hp ->].
  destruct (push_task_ok _ _ _ _ _ _ Hh Ht Hb Hp) as (Hh' & Hsame & Hs).
  split; [intros t' Ht'; by apply Hsame|]. split; [done|]. by apply Hsame.
Qed.
Next Obligation.
  intros l ts n c [Hq Hn Hc Hk]. eexists. split; [reflexivity|]. by split.
Qed.
Next Obligation.
  intros l ts n c t Hh Ht Hs. destruct (execute_task_ok _ _ _ _ _ Hh Ht Hs) as (l' & k & Hx & Hh' & E & _).
  exists l'. split; [exact Hx|]. split; [done|]. intros t' Hne. unfold exists_op. by rewrite E, lookup_delete_ne.
Qed.
Next Obligation.
  intros l ts n c [Hq Hn Hc Hk] Hpos Hb. eexists. split; [reflexivity|]. split; [|done]. split; simpl; [done| |done..].
  rewrite Hn, u64_small by lia. lia.
Qed.
Next Obligation. intros l ts n c l' Hh Hs. by apply (user_step_ok l ts n c l'). Qed.

Lemma new_loop_holds : holds new_loop [] 0 false.
Proof. split; try done; [apply empty_rep|]. intros t. simpl. by rewrite !lookup_empty. Qed.

(** ** Completions *)

Lemma push_task_signals l t b l' : push t l b l' -> b = true /\ signals l' = signals l.
Proof.
  simpl. unfold push_task. destruct (push_back (head_tail l) (tasks l) t) as [[q nx]|]; [|by intros []].
  by intros [[= <-] ->].
Qed.

(** What a step leaves of the signals. *)
Lemma loop_signals l sy :
  reachable l sy -> holds l [] 0 false -> (signals (shared sy)).*1 = (signals l).*1 ++ executed sy.
Proof.
  intros Hr Hl. induction Hr as [|sy sy' Hr IH Hs]; [simpl; by rewrite app_nil_r|].
  destruct (reachable_workers_ok _ _ Hl Hr) as (ts & c & Hok).
  destruct Hs as [sy' [i sy1 Hs|i sy1 Hs|i sy1 Hs]| |t s' ws' Ht Hlen Hp Hw|t s' Ht Hlen Hp|s' Hc|i Hi|s' Ho]; simpl.
  - unfold take_task in Hs. case_match; [|done]. case_match; try done. case_match; [|by injection Hs as <-].
    simpl in Hs. unfold pop_task in Hs. repeat case_match; simplify_eq; done.
  - destruct (workers sy !! i) as [[]|] eqn:Hi; try (unfold run_task in Hs; by rewrite Hi in Hs).
    unfold run_task in Hs. rewrite Hi in Hs. simpl in Hs. unfold execute_task in Hs.
    repeat case_match; simplify_eq/=; by rewrite fmap_app, IH, app_assoc.
  - unfold count_task in Hs. case_match; [|done]. case_match; try done. simpl in Hs. by simplify_eq/=.
  - done.
  - by destruct (push_task_signals _ _ _ _ Hp) as [_ ->].
  - by destruct (push_task_signals _ _ _ _ Hp) as [_ ->].
  - simpl in Hc. by injection Hc as <-.
  - done.
  - simpl in Ho. destruct Ho as [t k l' Ht Hs|t l' Ht Hs]; by injection Hs as <-.
Qed.
