(* ===== verification/ThreadPool.v ===== *)
(** * Thread pools

    Models include/forge/static_thread_pool.hpp: the state that a pool shares with
    its workers, the operations of its scheduler and those who wait for the pool
    to be idle.  The loop of the workers is in Workers.v; this file shows that the
    state is a queue for it.

    Threads in [wait] are [idle_checking] before they lock and test the
    condition, and [idle_blocked] while they sleep on it.  [started] and [signals]
    record the operations and their completions. *)
From S2P Require Import Prelude Workers.

#[local] Open Scope prog_scope.

Inductive pool_signal := PoolValue | PoolStopped.
#[export] Instance pool_signal_dec : EqDecision pool_signal.
Proof. solve_decision. Defined.

Record pool := Pool {
  tasks : list task_id;
  queue_capacity : option Z;
  stop : bool;
  active : Z;
  idle_checking : nat;
  idle_blocked : nat;
  started : list task_id;
  signals : list (task_id * pool_signal);
}.
Implicit Types (p : pool) (t : task_id).

Definition new_pool (capacity : option Z) : pool := Pool [] capacity false 0 0 0 [] [].

(** The threads that the constructor launches, given how many were asked for and
    before which one launching fails; and whether it throws, after it has shut
    the pool down and joined those. *)
Definition launched (thread_count : Z) (fails_before : option Z) : Z * bool :=
  let n := if (thread_count =? 0)%Z then 1%Z else thread_count in
  match fails_before with
  | Some k => if (k <? n)%Z then (k, true) else (n, false)
  | None => (n, false)
  end.

Definition set_signals l p :=
  Pool (tasks p) (queue_capacity p) (stop p) (active p) (idle_checking p) (idle_blocked p) (started p) l.
Definition set_idle c b p :=
  Pool (tasks p) (queue_capacity p) (stop p) (active p) c b (started p) (signals p).

Definition shutdown : prog pool unit :=
  modify (fun p => Pool (tasks p) (queue_capacity p) true (active p) (idle_checking p) (idle_blocked p)
    (started p) (signals p)).

(** [__submit], but for the notification: [None] when it throws, since there is no
    memory for the task. *)
Definition submit (memory : bool) t : prog pool (option bool) := fun p =>
  if stop p then Some (Some false, p)
  else if match queue_capacity p with Some c => (c <=? Z.of_nat (length (tasks p)))%Z | None => false end
  then Some (Some false, p)
  else if negb memory then Some (None, p)
  else Some (Some true, Pool (tasks p ++ [t]) (queue_capacity p) (stop p) (u64 (active p + 1))
    (idle_checking p) (idle_blocked p) (started p) (signals p)).

Definition complete t (sig : pool_signal) : prog pool unit :=
  modify (fun p => set_signals (signals p ++ [(t, sig)]) p).

(** [__op::start]: whether the operation was submitted. *)
Definition start (stop_requested memory : bool) t : prog pool bool :=
  modify (fun p => Pool (tasks p) (queue_capacity p) (stop p) (active p) (idle_checking p) (idle_blocked p)
    (started p ++ [t]) (signals p));;
  if stop_requested then complete t PoolStopped;; give false
  else
    r ← submit memory t;
    match r with
    | Some true => give true
    | Some false | None => complete t PoolStopped;; give false
    end.

(** [__run]: the predicate of the wait, taking a task, running it, counting it. *)
Definition run_ready p : bool := negb (bool_decide (tasks p = [])) || stop p.
Definition take_front : prog pool (option task_id) := fun p =>
  match tasks p with
  | [] => Some (None, p)
  | t :: ts => Some (Some t, Pool ts (queue_capacity p) (stop p) (active p) (idle_checking p) (idle_blocked p)
      (started p) (signals p))
  end.
Definition run_front t : prog pool unit := complete t PoolValue.
Definition count_done : prog pool unit :=
  modify (fun p => Pool (tasks p) (queue_capacity p) (stop p) (u64 (active p - 1)) (idle_checking p) (idle_blocked p)
    (started p) (signals p));;
  p ← read id;
  if bool_decide (tasks p = []) && (active p =? 0)%Z
  then modify (set_idle (idle_checking p + idle_blocked p) 0)
  else give tt.

(** [wait]: a worker does not wait; others test the condition, with the lock,
    until it holds. *)
Definition idle p : bool := bool_decide (tasks p = []) && (active p =? 0)%Z.
Definition wait (called_from_worker : bool) : prog pool unit :=
  if called_from_worker then give tt else modify (fun p => set_idle (S (idle_checking p)) (idle_blocked p) p).
Inductive idle_step p : pool -> Prop :=
| idle_wait w p' : wait w p = Some (tt, p') -> idle_step p p'
| idle_returns n : idle_checking p = S n -> idle p = true -> idle_step p (set_idle n (idle_blocked p) p)
| idle_sleeps n : idle_checking p = S n -> idle p = false -> idle_step p (set_idle n (S (idle_blocked p)) p)
| idle_wakes n : idle_blocked p = S n -> idle_step p (set_idle (S (idle_checking p)) n p).

(** ** The queue of the pool *)

#[export] Instance pool_queue : WorkerQueue pool := {|
  ready := run_ready;
  pop := take_front;
  push t p b p' := (t ∉ started p) /\ (exists stop_requested memory, start stop_requested memory t p = Some (b, p'));
  close := shutdown;
  execute := run_front;
  task_done := count_done;
  others := idle_step;
|}.

Record pool_holds p (ts : list task_id) (n : nat) (c : bool) : Prop := PoolHolds {
  ph_tasks : tasks p = ts;
  ph_active : active p = Z.of_nat n;
  ph_stop : stop p = c;
  ph_capacity cap : queue_capacity p = Some cap -> (Z.of_nat (length ts) <= Z.max 0 cap)%Z;
  ph_idle : idle p = true -> idle_blocked p = 0;
}.

(** What [start] does: it submits the operation unless a stop is requested, the
    pool is shut down, the queue is full or there is no memory. *)
Definition accepts (stop_requested memory : bool) p : bool :=
  negb stop_requested && negb (stop p) && memory &&
  match queue_capacity p with Some c => (Z.of_nat (length (tasks p)) <? c)%Z | None => true end.

Lemma pool_start_ok stop_requested memory t p :
  start stop_requested memory t p = Some (accepts stop_requested memory p,
    if accepts stop_requested memory p
    then Pool (tasks p ++ [t]) (queue_capacity p) (stop p) (u64 (active p + 1)) (idle_checking p) (idle_blocked p)
      (started p ++ [t]) (signals p)
    else Pool (tasks p) (queue_capacity p) (stop p) (active p) (idle_checking p) (idle_blocked p)
      (started p ++ [t]) (signals p ++ [(t, PoolStopped)])).
Proof.
  unfold start, accepts. rewrite prog_modify_bind. destruct stop_requested; [done|]. simpl.
  unfold submit, after. simpl. destruct (stop p); [done|]. simpl.
  destruct (queue_capacity p) as [c|]; simpl.
  - rewrite (Z.ltb_antisym c). destruct (c <=? _)%Z; simpl; [by rewrite andb_false_r|]. by destruct memory.
  - by destruct memory.
Qed.

Lemma count_done_ok p ts n c : pool_holds p ts n c -> (0 < n)%nat -> (Z.of_nat n < 2 ^ 64)%Z  ->
  exists p', count_done p = Some (tt, p') /\ pool_holds p' ts (n - 1) c /\ signals p' = signals p /\
    started p' = started p.
Proof.
  intros [Ht Ha Hs Hc Hi] Hn H64. unfold count_done. rewrite prog_modify_bind, prog_read_bind.
  unfold id. simpl. rewrite Ha, u64_small by lia.
  destruct (bool_decide (tasks p = []) && (Z.of_nat n - 1 =? 0)%Z) eqn:E; (eexists; split; [reflexivity|]);
    (split; [|done]); split; simpl; try done; try lia.
  intros Hidle. unfold idle in Hidle. simpl in Hidle. congruence.
Qed.

#[export] Program Instance pool_laws : WorkerQueueLaws pool := {|
  holds := pool_holds;
  valid _ _ := True;
|}.
Next Obligation. intros p ts n c [Ht _ Hs _ _]. simpl. unfold run_ready. by rewrite Ht, Hs. Qed.
Next Obligation.
  intros p t ts n c [Ht Ha Hs Hc Hi] Hn. simpl. unfold take_front. rewrite Ht. eexists. split; [reflexivity|].
  split; [|done]. split; simpl; try done.
  - intros cap Hcap. specialize (Hc cap Hcap). simpl in Hc. lia.
  - unfold idle. simpl. rewrite Ha. intros [_ ?%Z.eqb_eq]%andb_prop. lia.
Qed.
Next Obligation.
  intros p n c Hh. exists p. pose proof Hh as [Ht _ _ _ _]. simpl. unfold take_front. by rewrite Ht.
Qed.
Next Obligation.
  intros p ts n c t b p' [Ht Ha Hs Hc Hi] Hnot Hb [_ (sr & mem & Hst)].
  rewrite pool_start_ok in Hst. injection Hst as Hacc <-. split; [done|].
  destruct (accepts sr mem p) eqn:E; subst b.
  - split; [|done]. split; simpl; try done.
    + by rewrite Ht.
    + rewrite Ha, u64_small by lia. lia.
    + intros cap Hcap. unfold accepts in E. rewrite Hcap, !andb_true_iff, Z.ltb_lt, Ht in E.
      rewrite length_app. simpl. lia.
    + unfold idle. simpl. rewrite Ha, u64_small by lia. intros [_ ?%Z.eqb_eq]%andb_prop. lia.
  - by split.
Qed.
Next Obligation. intros p ts n c [Ht Ha Hs Hc Hi]. eexists. split; [reflexivity|]. by split. Qed.
Next Obligation.
  intros p ts n c t [Ht Ha Hs Hc Hi] _ _. eexists. split; [reflexivity|]. by split.
Qed.
Next Obligation.
  intros p ts n c Hh Hn H64. destruct (count_done_ok p ts n c Hh Hn H64) as (p' & Hd & Hh' & _). by exists p'.
Qed.
Next Obligation.
  intros p ts n c p' [Ht Ha Hs Hc Hi] Hst. split; [|done].
  destruct Hst as [w p' Hw|k Hk Hid|k Hk Hid|k Hk].
  - destruct w; injection Hw as <-; by split.
  - by split.
  - split; try done. simpl. intros Hid'. change (idle p = true) in Hid'. congruence.
  - split; try done. simpl. intros Hid'. change (idle p = true) in Hid'. rewrite Hk in Hi. by specialize (Hi Hid').
Qed.

Lemma new_pool_holds capacity : holds (new_pool capacity) [] 0 false.
Proof. split; try done. intros cap _. simpl. lia. Qed.

(** ** Completions

    Which operations were told what: those that were stopped never entered the
    queue. *)
Definition stopped_of (l : list (task_id * pool_signal)) : list task_id :=
  (filter (fun e => e.2 = PoolStopped) l).*1.
Definition values_of (l : list (task_id * pool_signal)) : list task_id :=
  (filter (fun e => e.2 = PoolValue) l).*1.

Lemma stopped_of_snoc l e :
  stopped_of (l ++ [e]) = stopped_of l ++ (if decide (e.2 = PoolStopped) then [e.1] else []).
Proof. unfold stopped_of. rewrite filter_app, filter_cons, filter_nil, fmap_app. by case_decide. Qed.
Lemma values_of_snoc l e :
  values_of (l ++ [e]) = values_of l ++ (if decide (e.2 = PoolValue) then [e.1] else []).
Proof. unfold values_of. rewrite filter_app, filter_cons, filter_nil, fmap_app. by case_decide. Qed.

Lemma signals_split l : l.*1 ≡ₚ stopped_of l ++ values_of l.
Proof.
  induction l as [|[t []] l IH] using rev_ind; [done|..];
    rewrite stopped_of_snoc, values_of_snoc, fmap_app, IH; simpl; rewrite ?app_nil_r, <- !app_assoc; [done|].
  f_equiv. apply Permutation_app_comm.
Qed.

Record signals_ok (sy : system pool) : Prop := SignalsOk {
  sg_values : values_of (signals (shared sy)) = executed sy;
  sg_started : stopped_of (signals (shared sy)) ++ accepted sy ≡ₚ started (shared sy);
  sg_nodup : NoDup (started (shared sy));
}.

Lemma signals_kept sy sy' :
  signals_ok sy -> signals (shared sy') = signals (shared sy) -> started (shared sy') = started (shared sy) ->
  executed sy' = executed sy -> accepted sy' = accepted sy -> signals_ok sy'.
Proof. intros [H1 H2 H3] E1 E2 E3 E4. split; by rewrite ?E1, ?E2, ?E3, ?E4. Qed.

Lemma count_done_keeps p u p' : count_done p = Some (u, p') -> signals p' = signals p /\ started p' = started p.
Proof.
  unfold count_done. rewrite prog_modify_bind, prog_read_bind. unfold id. simpl.
  destruct (bool_decide (tasks p = []) && (u64 (active p - 1) =? 0)%Z); by intros [= _ <-].
Qed.

Lemma idle_step_keeps p p' : idle_step p p' -> signals p' = signals p /\ started p' = started p.
Proof. intros [w p1 Hw|n _ _|n _ _|n _]; [|done..]. destruct w; by injection Hw as <-. Qed.

Lemma pool_signals capacity sy : reachable (new_pool capacity) sy -> signals_ok sy.
Proof.
  induction 1 as [|sy sy' Hr IH Hs]; [by split; simpl; [| |apply NoDup_nil_2]|].
  destruct Hs as [sy' [i sy1 Hs|i sy1 Hs|i sy1 Hs]| |t s' ws' Ht Hlen [Hnew (sr & mem & Hp)] Hw
    |t s' Ht Hlen [Hnew (sr & mem & Hp)]|s' Hc|i Hi|s' Ho].
  - unfold take_task in Hs. case_match; [|done]. case_match; try done. case_match; [|injection Hs as <-; by eapply signals_kept].
    simpl in Hs. unfold take_front in Hs.
    destruct (tasks (shared sy)); injection Hs as <-; by eapply signals_kept.
  - unfold run_task in Hs. case_match; [|done]. case_match; try done. simpl in Hs. injection Hs as <-.
    destruct IH as [H1 H2 H3]. split; simpl; [|by rewrite stopped_of_snoc; simpl; rewrite app_nil_r|done].
    by rewrite values_of_snoc, H1.
  - unfold count_task in Hs. case_match; [|done]. case_match; try done. simpl in Hs.
    destruct (count_done (shared sy)) as [[u p']|] eqn:Hd; [|done]. injection Hs as <-.
    destruct (count_done_keeps _ _ _ Hd). by eapply signals_kept.
  - by eapply signals_kept.
  - rewrite pool_start_ok in Hp. injection Hp as Hacc <-. rewrite Hacc. destruct IH as [H1 H2 H3]. split; simpl; [done| |].
    + by rewrite app_assoc, H2.
    + apply NoDup_app. split; [done|]. split; [|apply NoDup_singleton]. by intros x Hx ->%list_elem_of_singleton.
  - rewrite pool_start_ok in Hp. injection Hp as Hacc <-. rewrite Hacc. destruct IH as [H1 H2 H3]. split; simpl.
    + rewrite values_of_snoc. simpl. by rewrite app_nil_r.
    + rewrite stopped_of_snoc. simpl. rewrite <- H2, <- !app_assoc. f_equiv. apply Permutation_app_comm.
    + apply NoDup_app. split; [done|]. split; [|apply NoDup_singleton]. by intros x Hx ->%list_elem_of_singleton.
  - simpl in Hc. injection Hc as <-. by eapply signals_kept.
  - by eapply signals_kept.
  - destruct (idle_step_keeps _ _ Ho). by eapply signals_kept.
Qed.
