(* ===== verification/WorkersProps.v ===== *)
(** * Run loops and thread pools: the properties *)
From S2P Require Import Prelude RecordQueue Workers RunLoop ThreadPool.

(** C18: a [run_loop] executes what is pushed to it once each, in the order of the
    pushes, in any number of threads in [run] and for all interleavings: the
    operations taken from the queue and those still in it are those pushed, in
    this order; each that was taken is in some thread's hand or has completed,
    with one signal, and it completes stopped exactly if stop is requested then.
    [run] returns only once [finish] was called.  The counter is the number of
    operations not done, so the destructor terminates the program exactly if one
    is queued, in hand or still to be counted.  No wakeup is lost: while
    operations are queued or the loop finishes, some thread of the loop is awake
    if any is left.  Pushing an operation that exists never fails. *)
Theorem run_loop_executes sy :
  reachable new_loop sy ->
  exists ts, queue_rep (RunLoop.tasks (shared sy)) (head_tail (shared sy)) ts /\
    taken sy ++ ts = accepted sy /\ NoDup (accepted sy) /\
    (RunLoop.signals (shared sy)).*1 ++ omap in_hand (workers sy) ≡ₚ taken sy /\
    (forall i t, workers sy !! i = Some (Executing t) -> exists k sy',
      tokens (shared sy) !! t = Some k /\ run_task i sy = Some sy' /\ RunLoop.signals (shared sy') =
        RunLoop.signals (shared sy) ++ [(t, match k with Stoppable true => SetStopped | _ => SetValue end)]) /\
    (Returned ∈ workers sy -> finishing (shared sy) = true) /\
    (is_Some (destroy (shared sy)) <-> ts = [] /\ count busy (workers sy) = 0) /\
    (Asleep ∈ workers sy -> finishing (shared sy) = false /\
      (ts <> [] -> exists w, w ∈ workers sy /\ awake w = true)) /\
    (forall t, t ∉ accepted sy -> is_Some (RunLoop.tasks (shared sy) !! t) -> is_Some (push_task t (shared sy))).
Proof.
  intros Hr. destruct (reachable_workers_ok _ _ new_loop_holds Hr) as (ts & c & Hok).
  pose proof (loop_signals _ _ Hr new_loop_holds) as Hsig. simpl in Hsig.
  pose proof Hok as [Hh Ho Hnd He Hb Hc Hret Ha Hv]. destruct Hh as [Hq Hn Hcl Hk]. exists ts.
  split_and!; [done|done|done|by rewrite Hsig| |by rewrite Hcl| |by rewrite Hcl|].
  - intros i t Hi. assert (t ∉ ts /\ exists_op (shared sy) t) as [Hnot Hex].
    { assert (t ∈ omap in_hand (workers sy)) as Hin.
      { apply list_elem_of_omap. exists (Executing t). split; [by eapply list_elem_of_lookup_2|done]. }
      split; [|apply Hv, elem_of_app; by right]. rewrite <- Ho, NoDup_app in Hnd.
      destruct Hnd as (_ & Hd & _). intros Ht. apply (Hd t); [|done]. rewrite <- He. apply elem_of_app. by right. }
    destruct (execute_task_ok _ _ _ _ _ (LoopHolds _ _ _ _ Hq Hn Hcl Hk) Hnot Hex)
      as (l' & k & Hx & _ & _ & Hkt & Hs). exists k. unfold run_task. rewrite Hi. simpl. rewrite Hx. eauto.
  - unfold destroy. rewrite prog_read_bind, Hn. case_zb; (split; [|intros [-> E]]).
    + by intros [].
    + rewrite E in *. simpl in *. lia.
    + intros _. split; [apply length_zero_iff_nil|]; lia.
    + done.
  - intros t Ht Hs. assert (t ∉ ts) as Hts by (rewrite <- Ho, elem_of_app in Ht; tauto).
    destruct (push_back_ok _ _ _ _ Hq Hts Hs) as (q & nx & Hp & _). unfold push_task. by rewrite Hp.
Qed.

(** C19: a [run_loop] finishes: the threads in [run] make at most three steps for
    each operation and each thread until all of them sleep or have returned; and
    when [finish] has been called and a thread is still in [run], all threads
    return after that many steps, every operation that was pushed has completed,
    and the loop may be destroyed. *)
Theorem run_loop_finishes n sy sy' :
  reachable new_loop sy -> nsteps internal n sy sy' ->
  n <= 3 * (length (accepted sy) + length (workers sy)) /\
  ((exists sy'', internal sy' sy'') \/
   (quiet sy' /\
    (finishing (shared sy) = true -> (exists w, w ∈ workers sy /\ w <> Returned) ->
     (forall w, w ∈ workers sy' -> w = Returned) /\ is_empty (head_tail (shared sy')) = true /\
     (RunLoop.signals (shared sy')).*1 ≡ₚ accepted sy' /\ is_Some (destroy (shared sy'))))).
Proof.
  intros Hr Hn. destruct (reachable_workers_ok _ _ new_loop_holds Hr) as (ts & c & Hok).
  destruct (workers_run _ _ _ _ _ Hok Hn) as (ts' & Hok' & Hw & Ea & Hleft).
  split; [pose proof (workers_work_bound _ _ _ Hok); lia|].
  destruct (workers_progress _ _ _ Hok') as [?|Hq]; [by left|right]. split; [done|]. intros Hf Hex.
  pose proof (workers_reachable_internal _ _ _ _ Hr Hn) as Hr'.
  pose proof (loop_signals _ _ Hr' new_loop_holds) as Hsig. simpl in Hsig.
  assert (c = true) as -> by (pose proof (wk_holds _ _ _ Hok) as [_ _ Hc _]; congruence).
  destruct (workers_quiet_closed _ _ Hok' Hq ltac:(by apply Hleft)) as (Hall & -> & He & Hb).
  pose proof (wk_holds _ _ _ Hok') as [Hqu Hcount _ _]. split_and!; [done| | |].
  - by rewrite (is_empty_iff _ _ _ Hqu).
  - by rewrite Hsig.
  - unfold destroy. rewrite prog_read_bind, Hcount, Hb. by eexists.
Qed.

(** C20: an operation of a thread pool's scheduler completes once: stopped, at once
    and without touching the queue, exactly if a stop is requested, the pool is
    shut down, the queue is full or there is no memory for its task; and else
    with a value, executed by a worker.  The operations that were not stopped are
    taken from the queue in the order they were submitted, and executed once
    each.  The queue never outgrows its capacity, the counter is the number of
    tasks not done, workers leave only after a shutdown, and no wakeup is lost:
    while a task is queued some worker is awake, and nobody sleeps in [wait] while
    the pool is idle. *)
Theorem pool_completes_once capacity sy :
  reachable (new_pool capacity) sy ->
  let p := shared sy in
  taken sy ++ tasks p = accepted sy /\ NoDup (started p) /\
  values_of (signals p) ++ omap in_hand (workers sy) ≡ₚ taken sy /\
  stopped_of (signals p) ++ accepted sy ≡ₚ started p /\
  (forall sr memory t, exists p', start sr memory t p = Some (accepts sr memory p, p') /\
    if accepts sr memory p then tasks p' = tasks p ++ [t] /\ signals p' = signals p
    else tasks p' = tasks p /\ active p' = active p /\ signals p' = signals p ++ [(t, PoolStopped)]) /\
  (forall cap, queue_capacity p = Some cap -> (Z.of_nat (length (tasks p)) <= Z.max 0 cap)%Z) /\
  active p = Z.of_nat (length (tasks p) + count busy (workers sy)) /\
  (Returned ∈ workers sy -> stop p = true) /\
  (Asleep ∈ workers sy -> stop p = false /\ (tasks p <> [] -> exists w, w ∈ workers sy /\ awake w = true)) /\
  (idle p = true -> idle_blocked p = 0).
Proof.
  intros Hr p. destruct (reachable_workers_ok _ _ (new_pool_holds capacity) Hr) as (ts & c & Hok).
  destruct (pool_signals _ _ Hr) as [Hval Hst Hnd].
  pose proof Hok as [Hh Ho _ He Hb Hc Hret Ha Hv]. destruct Hh as [Ht Hact Hs Hcap Hidle].
  unfold p. rewrite Ht. split_and!; [done|done|by rewrite Hval|done| |done|done|by rewrite Hs|by rewrite Hs|done].
  intros sr memory t. rewrite pool_start_ok. eexists. split; [reflexivity|].
  destruct (accepts sr memory (shared sy)); simpl; by rewrite Ht.
Qed.

(** C21: a thread pool finishes its work: the workers make at most three steps for
    each task and each worker until all of them sleep or have left; after a
    shutdown with workers that have not left, all of them leave, so that they can
    be joined, and every operation that was started has completed.  The
    constructor launches at least one worker, or throws. *)
Theorem pool_drains capacity n sy sy' :
  reachable (new_pool capacity) sy -> nsteps internal n sy sy' ->
  n <= 3 * (length (accepted sy) + length (workers sy)) /\
  ((exists sy'', internal sy' sy'') \/
   (quiet sy' /\
    (stop (shared sy) = true -> (exists w, w ∈ workers sy /\ w <> Returned) ->
     (forall w, w ∈ workers sy' -> w = Returned) /\ tasks (shared sy') = [] /\ idle (shared sy') = true /\
     (signals (shared sy')).*1 ≡ₚ started (shared sy')))) /\
  (forall count fails, (0 <= count)%Z -> let '(threads, throws) := launched count fails in
    throws = false -> (1 <= threads)%Z /\ (0 < count -> threads = count)%Z).
Proof.
  intros Hr Hn. destruct (reachable_workers_ok _ _ (new_pool_holds capacity) Hr) as (ts & c & Hok).
  destruct (workers_run _ _ _ _ _ Hok Hn) as (ts' & Hok' & Hw & Ea & Hleft).
  split; [pose proof (workers_work_bound _ _ _ Hok); lia|]. split.
  - destruct (workers_progress _ _ _ Hok') as [?|Hq]; [by left|right]. split; [done|]. intros Hf Hex.
    pose proof (workers_reachable_internal _ _ _ _ Hr Hn) as Hr'.
    assert (c = true) as -> by (destruct (wk_holds _ _ _ Hok) as [_ _ Hc _ _]; congruence).
    destruct (workers_quiet_closed _ _ Hok' Hq ltac:(by apply Hleft)) as (Hall & -> & He & Hb).
    destruct (wk_holds _ _ _ Hok') as [Hts Hact _ _ _]. destruct (pool_signals _ _ Hr') as [Hval Hst _].
    split; [done|]. split; [done|]. split.
    + unfold idle. by rewrite Hts, Hact, Hb.
    + rewrite <- Hst, <- He, <- Hval. apply signals_split.
  - intros count fails Hcount. unfold launched. case_zb; subst.
    + destruct fails as [k|]; [case_zb|]; intros; simplify_eq; lia.
    + destruct fails as [k|]; [case_zb|]; intros; simplify_eq; lia.
Qed.

(** ** Examples *)

(** A loop with a thread in [run], an operation that was pushed, and [finish]. *)
Definition loop_after {A} (m : prog run_loop A) (l : run_loop) : run_loop :=
  match m l with Some (_, l') => l' | None => l end.
Definition demo_connected : run_loop := loop_after (connect 1%Z (Stoppable true)) new_loop.
Definition demo_pushed : run_loop := loop_after (push_task 1%Z) demo_connected.
Definition demo_loop : system run_loop :=
  System (loop_after finish demo_pushed) [AtLock] [1%Z] [] [].

Lemma demo_loop_reachable : reachable new_loop demo_loop.
Proof.
  eapply reachable_step; [eapply reachable_step; [eapply reachable_step; [eapply reachable_step;
    [apply reachable_init|]|]|]|].
  - apply (step_others (start_of new_loop) demo_connected).
    by apply (user_connect new_loop 1%Z (Stoppable true)).
  - apply step_worker.
  - apply (step_push (System demo_connected [AtLock] [] [] []) 1%Z demo_pushed [AtLock]).
    + apply not_elem_of_nil.
    + done.
    + by split; vm_compute.
    + apply wake_nobody. by intros [?|?%not_elem_of_nil]%elem_of_cons.
  - by apply (step_close (System demo_pushed [AtLock] [1%Z] [] [])).
Qed.

Lemma run_loop_executes_witness :
  reachable new_loop demo_loop /\ exists ts, taken demo_loop ++ ts = accepted demo_loop /\
    (Returned ∈ workers demo_loop -> finishing (shared demo_loop) = true) /\ ts = [1%Z].
Proof.
  split; [exact demo_loop_reachable|].
  destruct (run_loop_executes demo_loop demo_loop_reachable) as (ts & _ & Ho & _ & _ & _ & Hr & _).
  exists ts. split; [exact Ho|]. split; [exact Hr|]. exact Ho.
Defined.

Lemma run_loop_finishes_witness :
  reachable new_loop demo_loop /\ exists sy, internal demo_loop sy.
Proof.
  split; [exact demo_loop_reachable|].
  destruct (run_loop_finishes 0 demo_loop demo_loop demo_loop_reachable (nsteps_O _ _)) as [_ [Hs|[Hq _]]].
  - exact Hs.
  - exfalso. destruct (Hq AtLock ltac:(by left)); discriminate.
Defined.

(** A pool with a queue of one task, whose worker sleeps: an operation is
    submitted and wakes it, another one is refused. *)
Definition pool_after {A} (m : prog pool A) (p : pool) : pool :=
  match m p with Some (_, p') => p' | None => p end.
Definition demo_submitted : pool := pool_after (start false true 1%Z) (new_pool (Some 1%Z)).
Definition demo_refused : pool := pool_after (start false true 2%Z) demo_submitted.
Definition demo_pool : system pool := System demo_refused [AtLock] [1%Z] [] [].

Lemma demo_pool_reachable : reachable (new_pool (Some 1%Z)) demo_pool.
Proof.
  eapply reachable_step; [eapply reachable_step; [eapply reachable_step; [eapply reachable_step;
    [apply reachable_init|]|]|]|].
  - apply step_worker.
  - by apply step_internal, (internal_take _ 0).
  - apply (step_push (System (new_pool (Some 1%Z)) [Asleep] [] [] []) 1%Z demo_submitted [AtLock]).
    + apply not_elem_of_nil.
    + done.
    + split; [apply not_elem_of_nil|]. exists false, true. by vm_compute.
    + by apply (wake_sleeper [Asleep] 0).
  - apply (step_refused (System demo_submitted [AtLock] [1%Z] [] []) 2%Z demo_refused).
    + by intros [?|?%not_elem_of_nil]%elem_of_cons.
    + done.
    + split; [by intros [?|?%not_elem_of_nil]%elem_of_cons|]. exists false, true. by vm_compute.
Qed.

Lemma pool_completes_once_witness :
  reachable (new_pool (Some 1%Z)) demo_pool /\
  stopped_of (signals (shared demo_pool)) ++ accepted demo_pool ≡ₚ started (shared demo_pool) /\
  stopped_of (signals (shared demo_pool)) = [2%Z] /\ accepted demo_pool = [1%Z].
Proof.
  split; [exact demo_pool_reachable|].
  destruct (pool_completes_once (Some 1%Z) demo_pool demo_pool_reachable) as (_ & _ & _ & Hs & _).
  split; [exact Hs|]. split; vm_compute; reflexivity.
Defined.

Lemma pool_drains_witness :
  reachable (new_pool (Some 1%Z)) demo_pool /\ exists sy, internal demo_pool sy.
Proof.
  split; [exact demo_pool_reachable|].
  destruct (pool_drains (Some 1%Z) 0 demo_pool demo_pool demo_pool_reachable (nsteps_O _ _)) as (_ & [Hs|[Hq _]] & _).
  - exact Hs.
  - exfalso. destruct (Hq AtLock ltac:(by left)); discriminate.
Defined.
