(* ===== verification/Split.v ===== *)
(** * split

    Models the shared state of backport/cpp26/execution/split.hpp: an operation
    that is started by the first subscriber and whose completion all subscribers
    receive.  [X] is the type of the values, [E] that of [std::exception_ptr].
    Where memory or a copy may fail, the exception is a parameter.  As in
    WhenAll.v, the critical sections and the atomic exchanges are the steps. *)
From S2P Require Import Prelude.

#[local] Open Scope prog_scope.

Section split.
Context {X E : Type}.
Implicit Types (e ex : E) (vs : list X) (i : nat) (throws : option E).

Inductive run_phase := Idle | InProgress | Done.
#[global] Instance run_phase_dec : EqDecision run_phase.
Proof. solve_decision. Defined.

(** [std::variant<std::monostate, value_tuple_t, std::exception_ptr, __stopped_tag>] *)
Inductive cached := Monostate | Values vs | Exception e | StoppedTag | Valueless.

Inductive signal := SetValue vs | SetError e | SetStopped.

(** [__shared_state]: [on_done] are the subscribers of the callbacks. *)
Record shared_state := SharedState { phase : run_phase; result : cached; on_done : list nat }.

(** Whether the source may complete with values, and may be stopped. *)
Variables (sends_values sends_stopped : bool).

Definition deliver_result (st : shared_state) : option signal :=
  match result st with
  | Monostate | Valueless => None
  | Values vs => if sends_values then Some (SetValue vs) else None
  | Exception e => Some (SetError e)
  | StoppedTag => if sends_stopped then Some SetStopped else None
  end.

(** ** The receiver of the source

    [set_value]: the exception, if storing the values throws; storing that. *)
Definition store_values vs throws : prog shared_state (option E) := fun st =>
  match throws with
  | None => Some (None, SharedState Done (Values vs) (on_done st))
  | Some ex => Some (Some ex, SharedState (phase st) Valueless (on_done st))
  end.
Definition store_exception e : prog shared_state unit :=
  modify (fun st => SharedState Done (Exception e) (on_done st)).
Definition store_stopped : prog shared_state unit :=
  modify (fun st => SharedState Done StoppedTag (on_done st)).

(** The locked part of [notify_all]. *)
Definition take_callbacks : prog shared_state (list nat) := fun st =>
  Some (on_done st, SharedState (phase st) (result st) []).

(** ** Starting a subscriber

    The locked part of [start], where [push_back] may throw: what remains to be
    done after unlocking. *)
Inductive duty := DeliverResult | StartSource | Nothing | DeliverException ex.
Definition subscribe i throws : prog shared_state duty := fun st =>
  match phase st with
  | Done => Some (DeliverResult, st)
  | Idle =>
      match throws with
      | None => Some (StartSource, SharedState InProgress (result st) (on_done st ++ [i]))
      | Some ex => Some (DeliverResult, SharedState Done (Exception ex) (on_done st))
      end
  | InProgress =>
      match throws with
      | None => Some (Nothing, SharedState (phase st) (result st) (on_done st ++ [i]))
      | Some ex => Some (DeliverException ex, st)
      end
  end.

(** ** The system

    A subscriber is connected; then a thread is in its [start]: before it makes
    the callback, before the lock, or before it delivers something; then its
    callback waits. [active] is the flag of its [__subscriber], [has_op] whether
    its operation still exists. *)
Inductive sub_phase :=
  | Connected
  | Called
  | AtLock
  | Delivering
  | DeliveringException ex
  | Returned.
Record subscriber := Subscriber { sub : sub_phase; active : bool; has_op : bool }.
Definition set_sub p (s : subscriber) := Subscriber p (active s) (has_op s).
Definition deactivate (s : subscriber) := Subscriber (sub s) false (has_op s).

(** The source: not started, to be started, running; in a completion, with the
    exception of [set_value] or not; in [notify_all], before the lock, before the
    next callback, or in one that has locked its subscriber; over. *)
Inductive source_phase :=
  | Unstarted
  | Launching
  | Running
  | Storing vs throws
  | StoringException e
  | StoringStopped
  | Notifying
  | Calling (cbs : list nat)
  | InCallback i (cbs : list nat)
  | Over.

(** How the source completes, and the signal that is. *)
Inductive completion := ByValue vs throws | ByError e | ByStopped.
Definition signal_of (c : completion) : signal :=
  match c with
  | ByValue vs None => SetValue vs
  | ByValue _ (Some ex) => SetError ex
  | ByError e => SetError e
  | ByStopped => SetStopped
  end.

(** [launches] counts the starts of the source, [completed], [refused] and [log]
    record its completion, the exceptions of [start] and the signals. *)
Record system := System {
  shared : shared_state;
  subs : list subscriber;
  source : source_phase;
  launches : nat;
  completed : option completion;
  refused : list (nat * E);
  log : list (nat * signal);
}.
Implicit Types sy : system.

Definition init (n : nat) : system :=
  System (SharedState Idle Monostate []) (replicate n (Subscriber Connected true true)) Unstarted 0 None [] [].

Definition set_shared st sy := System st (subs sy) (source sy) (launches sy) (completed sy) (refused sy) (log sy).
Definition set_source p sy := System (shared sy) (subs sy) p (launches sy) (completed sy) (refused sy) (log sy).
Definition set_subscriber i s sy :=
  System (shared sy) (<[i := s]> (subs sy)) (source sy) (launches sy) (completed sy) (refused sy) (log sy).
Definition add_refused i ex sy :=
  System (shared sy) (subs sy) (source sy) (launches sy) (completed sy) (refused sy ++ [(i, ex)]) (log sy).
Definition add_log i sig sy :=
  System (shared sy) (subs sy) (source sy) (launches sy) (completed sy) (refused sy) (log sy ++ [(i, sig)]).
Definition add_launch sy := System (shared sy) (subs sy) Running (S (launches sy)) (completed sy) (refused sy) (log sy).
Definition add_completed c sy :=
  System (shared sy) (subs sy) (source sy) (launches sy) (Some c) (refused sy) (log sy).

(** [deliver_to_subscriber] and [deliver_exception_to_subscriber]: the exchange of
    the flag, and the signal. *)
Definition deliver_to_subscriber i sy : option system :=
  match subs sy !! i with
  | Some s =>
      if active s then
        match deliver_result (shared sy) with
        | Some sig => Some (add_log i sig (set_subscriber i (deactivate s) sy))
        | None => None
        end
      else Some sy
  | None => None
  end.
Definition deliver_exception_to_subscriber i ex sy : option system :=
  match subs sy !! i with
  | Some s => if active s then Some (add_log i (SetError ex) (set_subscriber i (deactivate s) sy)) else Some sy
  | None => None
  end.

(** Steps of [start] of subscriber [i]. *)
Definition returns i sy : system :=
  match subs sy !! i with Some s => set_subscriber i (set_sub Returned s) sy | None => sy end.
Definition start_step i throws sy : option system :=
  match subs sy !! i with
  | Some s =>
      match sub s with
      | Called =>
          match throws with
          | Some ex => Some (add_refused i ex (set_subscriber i (set_sub (DeliveringException ex) s) sy))
          | None => Some (set_subscriber i (set_sub AtLock s) sy)
          end
      | AtLock =>
          match subscribe i throws (shared sy) with
          | Some (d, st) =>
              let sy' := set_shared st sy in
              Some (match d with
              | DeliverResult => set_subscriber i (set_sub Delivering s) sy'
              | StartSource => set_source Launching (set_subscriber i (set_sub Returned s) sy')
              | Nothing => set_subscriber i (set_sub Returned s) sy'
              | DeliverException ex => add_refused i ex (set_subscriber i (set_sub (DeliveringException ex) s) sy')
              end)
          | None => None
          end
      | Delivering => returns i <$> deliver_to_subscriber i sy
      | DeliveringException ex => returns i <$> deliver_exception_to_subscriber i ex sy
      | Connected | Returned => None
      end
  | None => None
  end.

(** Whether a callback can lock its subscriber: the operation or a thread in
    [start] holds it. *)
Definition lockable (s : subscriber) : bool :=
  has_op s || match sub s with Connected | Returned => false | _ => true end.

(** Steps of the source. *)
Definition source_step sy : option system :=
  match source sy with
  | Launching => Some (add_launch sy)
  | Storing vs throws =>
      match store_values vs throws (shared sy) with
      | Some (t, st) =>
          Some (set_source (match t with None => Notifying | Some ex => StoringException ex end) (set_shared st sy))
      | None => None
      end
  | StoringException e =>
      match store_exception e (shared sy) with
      | Some (_, st) => Some (set_source Notifying (set_shared st sy))
      | None => None
      end
  | StoringStopped =>
      match store_stopped (shared sy) with
      | Some (_, st) => Some (set_source Notifying (set_shared st sy))
      | None => None
      end
  | Notifying =>
      match take_callbacks (shared sy) with
      | Some (cbs, st) => Some (set_source (Calling cbs) (set_shared st sy))
      | None => None
      end
  | Calling [] => Some (set_source Over sy)
  | Calling (i :: cbs) =>
      match subs sy !! i with
      | Some s => Some (set_source (if lockable s then InCallback i cbs else Calling cbs) sy)
      | None => None
      end
  | InCallback i cbs => set_source (Calling cbs) <$> deliver_to_subscriber i sy
  | Unstarted | Running | Over => None
  end.

(** The source completes, in a way its signatures name. *)
Definition complete (c : completion) sy : option system :=
  match source sy with
  | Running =>
      let sy' := add_completed c sy in
      match c with
      | ByValue vs throws => if sends_values then Some (set_source (Storing vs throws) sy') else None
      | ByError e => Some (set_source (StoringException e) sy')
      | ByStopped => if sends_stopped then Some (set_source StoringStopped sy') else None
      end
  | _ => None
  end.

(** The users start operations and destroy them, also while they are starting
    or waiting. *)
Definition start i sy : option system :=
  match subs sy !! i with
  | Some (Subscriber Connected a true) => Some (set_subscriber i (Subscriber Called a true) sy)
  | _ => None
  end.
Definition destroy_op i sy : option system :=
  match subs sy !! i with
  | Some s => if has_op s then Some (set_subscriber i (Subscriber (sub s) false false) sy) else None
  | None => None
  end.

Inductive internal sy : system -> Prop :=
| internal_start i throws sy' : start_step i throws sy = Some sy' -> internal sy sy'
| internal_source sy' : source_step sy = Some sy' -> internal sy sy'.
Inductive step sy : system -> Prop :=
| step_internal sy' : internal sy sy' -> step sy sy'
| step_complete c sy' : complete c sy = Some sy' -> step sy sy'
| step_start i sy' : start i sy = Some sy' -> step sy sy'
| step_destroy i sy' : destroy_op i sy = Some sy' -> step sy sy'.
Inductive reachable (n : nat) : system -> Prop :=
| reachable_init : reachable n (init n)
| reachable_step sy sy' : reachable n sy -> step sy sy' -> reachable n sy'.
End split.
