(* ===== verification/SplitProps.v ===== *)
(** * split: the invariant and the properties

    The subscribers are told once each, of the same result, and nothing else is
    left to be done when no step is possible. *)
From S2P Require Import Prelude Split.

Section inv.
Context {X E : Type} (sends_values sends_stopped : bool).
Implicit Types (e ex : E) (vs : list X) (i j n : nat) (throws : option E) (st : @shared_state X E).
Implicit Types (sy : @system X E) (s : @subscriber E) (W lg : list nat) (rf : list (nat * E)).

(** The subscribers whose callbacks wait to be called. *)
Definition in_calls (p : @source_phase X E) : list nat :=
  match p with Calling cbs => cbs | InCallback i cbs => i :: cbs | _ => [] end.
Definition waiting sy : list nat := on_done (shared sy) ++ in_calls (source sy).

(** Subscriber [i], given who waits, who has a signal, who was refused, and
    whether there is a result. *)
Definition sub_ok W lg rf (d : run_phase) i s : Prop :=
  (active s = true <-> has_op s = true /\ i ∉ lg) /\
  match sub s with
  | Connected | Called | AtLock => i ∉ lg /\ i ∉ W /\ i ∉ rf.*1
  | Delivering => i ∉ lg /\ i ∉ W /\ i ∉ rf.*1 /\ d = Done
  | DeliveringException ex => i ∉ lg /\ i ∉ W /\ (i, ex) ∈ rf
  | Returned => i ∈ W /\ i ∉ lg \/ i ∉ W /\ (i ∈ lg \/ has_op s = false)
  end.

Lemma sub_ok_other W W' lg lg' rf rf' d d' i s :
  (i ∈ W' <-> i ∈ W) -> (i ∈ lg' <-> i ∈ lg) -> (forall ex, (i, ex) ∈ rf' <-> (i, ex) ∈ rf) ->
  (d = Done -> d' = Done) -> sub_ok W lg rf d i s -> sub_ok W' lg' rf' d' i s.
Proof.
  intros HW Hl Hr Hd [Ha Hs]. assert (i ∈ rf'.*1 <-> i ∈ rf.*1) as Hr1.
  { rewrite !list_elem_of_fmap. split; intros ([j ex] & -> & Hin); exists (j, ex); by split; [|apply Hr]. }
  split; [by rewrite Hl|]. destruct (sub s); rewrite ?HW, ?Hl, ?Hr1, ?Hr; tauto.
Qed.

(** The source and the result. *)
Definition has_result st (p : @source_phase X E) (launches : nat) (c : option completion) : Prop :=
  launches = 1 /\ phase st = Done /\
  exists c', c = Some c' /\ deliver_result sends_values sends_stopped st = Some (signal_of c').
Definition source_ok st (p : @source_phase X E) (launches : nat) (c : option completion) : Prop :=
  match p with
  | Unstarted => launches = 0 /\ c = None /\ on_done st = [] /\
      (phase st = Idle /\ result st = Monostate \/ phase st = Done /\ exists ex, result st = Exception ex)
  | Launching => launches = 0 /\ c = None /\ phase st = InProgress
  | Running => launches = 1 /\ c = None /\ phase st = InProgress
  | Storing vs t => launches = 1 /\ c = Some (ByValue vs t) /\ phase st = InProgress /\ sends_values = true
  | StoringException e => launches = 1 /\ (exists c', c = Some c' /\ signal_of c' = SetError e) /\ phase st = InProgress
  | StoringStopped => launches = 1 /\ c = Some ByStopped /\ phase st = InProgress /\ sends_stopped = true
  | Notifying => has_result st p launches c
  | Calling _ | InCallback _ _ | Over => has_result st p launches c /\ on_done st = []
  end.

Record split_ok n sy : Prop := SplitOk {
  so_length : length (subs sy) = n;
  so_subs i s : subs sy !! i = Some s ->
    sub_ok (waiting sy) (log sy).*1 (refused sy) (phase (shared sy)) i s;
  so_waiting : NoDup (waiting sy);
  so_known i : i ∈ waiting sy -> i < n;
  so_log_nodup : NoDup (log sy).*1;
  so_log i sig : (i, sig) ∈ log sy ->
    (exists ex, (i, ex) ∈ refused sy /\ sig = SetError ex) \/
    phase (shared sy) = Done /\ deliver_result sends_values sends_stopped (shared sy) = Some sig;
  so_source : source_ok (shared sy) (source sy) (launches sy) (completed sy);
}.

Lemma split_init_ok n : split_ok n (init n).
Proof.
  split; simpl; try done; try apply NoDup_nil_2.
  - apply length_replicate.
  - intros i s [-> _]%lookup_replicate. split; simpl; [split; [|done]|]; repeat split; apply not_elem_of_nil.
  - by intros i ?%not_elem_of_nil.
  - by intros i sig ?%not_elem_of_nil.
  - repeat split; try done. by left.
Qed.

Lemma done_result n sy : split_ok n sy -> phase (shared sy) = Done ->
  exists sig, deliver_result sends_values sends_stopped (shared sy) = Some sig.
Proof.
  intros Hok Hd. pose proof (so_source _ _ Hok) as Hs.
  destruct (source sy); simpl in Hs; unfold has_result in Hs; destruct_ex; try congruence; eauto.
  destruct H2 as [[? _]|[_ [ex Hr]]]; [congruence|]. unfold deliver_result. rewrite Hr. by eexists.
Qed.

(** ** A subscriber is told

    The end of a delivery to subscriber [i], in [start] or in a callback: it gets
    a signal, or nothing if its operation is gone.  The list of those that wait
    may lose [i]. *)
Lemma told_ok n sy i s o p' s' :
  split_ok n sy -> subs sy !! i = Some s -> i ∉ (log sy).*1 ->
  let sy' := System (shared sy) (<[i := s']> (subs sy)) p' (launches sy) (completed sy) (refused sy)
    (log sy ++ (match o with Some sig => [(i, sig)] | None => [] end)) in
  (waiting sy' = waiting sy /\ i ∉ waiting sy \/ waiting sy = i :: waiting sy') ->
  source_ok (shared sy) p' (launches sy) (completed sy) ->
  match o with
  | None => has_op s = false
  | Some sig => (exists ex, (i, ex) ∈ refused sy /\ sig = SetError ex) \/
      phase (shared sy) = Done /\ deliver_result sends_values sends_stopped (shared sy) = Some sig
  end ->
  s' = Subscriber Returned false (has_op s) ->
  split_ok n sy'.
Proof.
  intros [Hlen Hsubs Hw Hk Hnd Hlog Hsrc] Hi Hil sy' HW Hsrc' Ho ->.
  assert (i ∉ waiting sy') as Hnw.
  { destruct HW as [[-> ?]|HW]; [done|]. rewrite HW in Hw. by apply NoDup_cons in Hw as [? _]. }
  assert (forall j, j <> i -> j ∈ waiting sy' <-> j ∈ waiting sy) as Hother.
  { intros j Hj. destruct HW as [[-> _]| ->]; [done|]. rewrite elem_of_cons. tauto. }
  assert (NoDup (waiting sy') /\ forall j, j ∈ waiting sy' -> j < n) as [Hw' Hk'].
  { destruct HW as [[-> _]|HW]; [done|]. rewrite HW in Hw, Hk. apply NoDup_cons in Hw as [_ Hw]. split; [done|].
    intros j Hj. apply Hk. by right. }
  assert (forall j, j ∈ (log sy').*1 <-> j ∈ (log sy).*1 \/ j = i /\ o <> None) as Hlg.
  { intros j. simpl. rewrite fmap_app, elem_of_app. destruct o; simpl.
    - rewrite list_elem_of_singleton. split; intros [?|?]; auto. destruct_ex; auto.
    - rewrite elem_of_nil. tauto. }
  split; try done.
  - simpl. by rewrite length_insert.
  - intros j sj Hj. simpl in Hj. apply list_lookup_insert_Some in Hj as [(<- & <- & _)|[Hne Hj]].
    + split; cbn [active has_op sub].
      * split; [done|]. intros [Hop Hn]. destruct o; [|congruence]. destruct Hn. apply Hlg. by right.
      * right. split; [done|]. destruct o; [left|by right]. apply Hlg. by right.
    + eapply sub_ok_other; [| | | |by apply Hsubs]; try done; [by apply Hother|].
      rewrite Hlg. split; [|by left]. by intros [?|[? _]].
  - simpl. rewrite fmap_app. destruct o; simpl; [|by rewrite app_nil_r]. apply NoDup_app. split; [done|].
    split; [|apply NoDup_singleton]. by intros j Hj ->%list_elem_of_singleton.
  - intros j sg. simpl. rewrite elem_of_app. intros [Hin|Hin]; [by apply Hlog|].
    destruct o; [|by apply not_elem_of_nil in Hin]. apply list_elem_of_singleton in Hin. by simplify_eq.
Qed.

(** ** Steps of [start] *)

(** A step that changes the phase of subscriber [i] only. *)
Lemma sub_step_ok n sy i s s' st p' rf :
  split_ok n sy -> subs sy !! i = Some s ->
  let sy' := System st (<[i := s']> (subs sy)) p' (launches sy) (completed sy) rf (log sy) in
  (waiting sy' = waiting sy \/ waiting sy' ≡ₚ i :: waiting sy /\ i ∉ waiting sy) ->
  (forall j ex, j <> i -> (j, ex) ∈ rf <-> (j, ex) ∈ refused sy) -> (forall ex, (i, ex) ∈ refused sy -> (i, ex) ∈ rf) ->
  (phase (shared sy) = Done -> st = shared sy) ->
  source_ok st p' (launches sy) (completed sy) ->
  sub_ok (waiting sy') (log sy).*1 rf (phase st) i s' ->
  split_ok n sy'.
Proof.
  intros Hok Hi sy' HW Hrf Hrfi Hst Hsrc' Hnew. pose proof Hok as [Hlen Hsubs Hw Hk Hnd Hlog Hsrc].
  assert (forall j, j <> i -> j ∈ waiting sy' <-> j ∈ waiting sy) as Hother.
  { intros j Hj. destruct HW as [->|[-> _]]; [done|]. rewrite elem_of_cons. tauto. }
  assert (i < n) as Hin by (rewrite <- Hlen; by eapply lookup_lt_Some).
  split; try done; simpl.
  - by rewrite length_insert.
  - intros j sj Hj. apply list_lookup_insert_Some in Hj as [(<- & <- & _)|[Hne Hj]]; [done|].
    eapply sub_ok_other; [| | | |by apply Hsubs]; try done; [by apply Hother|auto|].
    intros Hd. by rewrite Hst.
  - destruct HW as [->|[-> Hnot]]; [done|]. by apply NoDup_cons.
  - intros j Hj. destruct (decide (j = i)) as [->|Hne]; [done|]. apply Hk. by apply Hother.
  - intros j sig Hj. destruct (Hlog j sig Hj) as [(ex & Hex & ->)|[Hd Hr]].
    + left. exists ex. split; [|done]. destruct (decide (j = i)) as [->|Hne]; [by apply Hrfi|by apply Hrf].
    + right. by rewrite Hst.
Qed.

(** ** Steps of [start] *)
Lemma subscribe_ok n sy i s throws d st :
  split_ok n sy -> subs sy !! i = Some s -> sub s = AtLock -> subscribe i throws (shared sy) = Some (d, st) ->
  split_ok n (match d with
    | DeliverResult => set_subscriber i (set_sub Delivering s) (set_shared st sy)
    | StartSource => set_source Launching (set_subscriber i (set_sub Returned s) (set_shared st sy))
    | Nothing => set_subscriber i (set_sub Returned s) (set_shared st sy)
    | DeliverException ex =>
        add_refused i ex (set_subscriber i (set_sub (DeliveringException ex) s) (set_shared st sy))
    end).
Proof.
  intros Hok Hi Hs Hd. destruct (so_subs _ _ Hok i s Hi) as [Ha Hp]. rewrite Hs in Hp.
  destruct Hp as (Hl & Hw & Hr). pose proof (so_source _ _ Hok) as Hsrc. unfold subscribe in Hd.
  destruct (phase (shared sy)) eqn:Hph; [|destruct throws as [ex|]; simplify_eq|].
  - assert (source sy = Unstarted) as Hun.
    { destruct (source sy); simpl in Hsrc; unfold has_result in Hsrc; destruct_ex; congruence. }
    rewrite Hun in Hsrc. destruct Hsrc as (Hla & Hc & Hon & _).
    destruct throws as [ex|]; simplify_eq; unfold set_source, set_subscriber, set_shared; simpl.
    + apply (sub_step_ok n sy i s); simpl; try done; auto.
      * rewrite Hph; discriminate.
      * rewrite Hun. split_and!; try done. right. eauto.
    + apply (sub_step_ok n sy i s); simpl; try done; auto.
      * right. split; [|done]. unfold waiting. simpl. rewrite Hon, Hun. done.
      * rewrite Hph; discriminate.
      * split; [done|]. left. split; [|done]. unfold waiting. simpl. rewrite Hon. by left.
  - apply (sub_step_ok n (set_shared (shared sy) sy) i s (set_sub (DeliveringException ex) s)
      (shared sy) (source sy) (refused sy ++ [(i, ex)])); try done; simpl; auto.
    + by destruct sy.
    + intros j ex' Hj. rewrite elem_of_app, list_elem_of_singleton. split; [|by left].
      by intros [?|?]; [|simplify_eq].
    + intros ex' ?. apply elem_of_app. by left.
    + split; [done|]. simpl. split; [done|]. split; [done|]. apply elem_of_app. right. by left.
  - unfold set_subscriber, set_shared; simpl. apply (sub_step_ok n sy i s); simpl; try done; auto.
    + right. split; [|done]. unfold waiting. simpl. rewrite <- app_assoc. symmetry. apply Permutation_middle.
    + rewrite Hph; discriminate.
    + destruct (source sy); simpl in *; unfold has_result in *; destruct_ex; try congruence; eauto 10.
      intuition congruence.
    + split; [done|]. left. split; [|done]. unfold waiting. simpl. rewrite !elem_of_app. left. right. by left.
  - simplify_eq. unfold set_subscriber, set_shared; simpl. apply (sub_step_ok n sy i s); simpl; try done; auto.
Qed.

Lemma returns_told_ok n sy i s sig :
  split_ok n sy -> subs sy !! i = Some s -> i ∉ (log sy).*1 -> i ∉ waiting sy ->
  (exists ex, (i, ex) ∈ refused sy /\ sig = SetError ex) \/
    phase (shared sy) = Done /\ deliver_result sends_values sends_stopped (shared sy) = Some sig ->
  split_ok n (returns i (if active s then add_log i sig (set_subscriber i (deactivate s) sy) else sy)).
Proof.
  intros Hok Hi Hl Hw Hsig. destruct (so_subs _ _ Hok i s Hi) as [Ha _]. pose proof (so_source _ _ Hok).
  destruct (active s) eqn:Hact; unfold returns; simpl.
  - rewrite list_lookup_insert_eq by (by eapply lookup_lt_Some). unfold set_subscriber. simpl.
    rewrite list_insert_insert_eq. apply (told_ok n sy i s (Some sig) (source sy)); auto.
  - rewrite Hi. unfold set_subscriber. simpl. rewrite <- (app_nil_r (log sy)).
    apply (told_ok n sy i s None (source sy)); auto; [|unfold set_sub; by rewrite Hact].
    destruct (has_op s); [|done]. by destruct Ha as [_ <-].
Qed.

Lemma start_step_ok n i throws sy sy' :
  split_ok n sy -> start_step sends_values sends_stopped i throws sy = Some sy' -> split_ok n sy'.
Proof.
  intros Hok Hst. unfold start_step in Hst. destruct (subs sy !! i) as [s|] eqn:Hi; [|done].
  destruct (so_subs _ _ Hok i s Hi) as [Ha Hp]. destruct (sub s) eqn:Hs; try done.
  - destruct Hp as (Hl & Hw & Hr). destruct throws as [ex|]; simplify_eq.
    + apply (sub_step_ok n sy i s (set_sub (DeliveringException ex) s)
        (shared sy) (source sy) (refused sy ++ [(i, ex)])); try done; simpl; auto.
      * intros j ex' Hj. rewrite elem_of_app, list_elem_of_singleton. split; [|by left].
        by intros [?|?]; [|simplify_eq].
      * intros ex' ?. apply elem_of_app. by left.
      * apply so_source in Hok. done.
      * split; [done|]. simpl. split; [done|]. split; [done|]. apply elem_of_app. right. by left.
    + apply (sub_step_ok n sy i s (set_sub AtLock s) (shared sy) (source sy) (refused sy)); try done; simpl; auto.
      by apply so_source in Hok.
  - destruct (subscribe i throws (shared sy)) as [[d st]|] eqn:Hd; [|done]. simplify_eq.
    pose proof (subscribe_ok _ _ _ _ _ _ _ Hok Hi Hs Hd). by destruct d.
  - destruct Hp as (Hl & Hw & Hr & Hd). destruct (done_result _ _ Hok Hd) as [sig Hsig].
    unfold deliver_to_subscriber in Hst. rewrite Hi, Hsig in Hst.
    pose proof (returns_told_ok n sy i s sig Hok Hi Hl Hw (or_intror (conj Hd Hsig))).
    destruct (active s); by simplify_eq/=.
  - destruct Hp as (Hl & Hw & Hr). unfold deliver_exception_to_subscriber in Hst. rewrite Hi in Hst.
    pose proof (returns_told_ok n sy i s (SetError ex) Hok Hi Hl Hw (or_introl (ex_intro _ ex (conj Hr eq_refl)))).
    destruct (active s); by simplify_eq/=.
Qed.

(** ** Steps of the source *)
Lemma source_move_ok n sy st p' l c :
  split_ok n sy -> on_done st ++ in_calls p' = waiting sy ->
  (phase (shared sy) = Done -> phase st = Done /\ result st = result (shared sy)) ->
  source_ok st p' l c ->
  split_ok n (System st (subs sy) p' l c (refused sy) (log sy)).
Proof.
  intros [Hlen Hsubs Hw Hk Hnd Hlog Hsrc] HW Hd Hsrc'. split; unfold waiting; simpl; rewrite ?HW; try done.
  - intros i s Hi. eapply sub_ok_other; [| | | |by apply Hsubs]; try done. intros ?. by apply Hd.
  - intros i sig Hi. destruct (Hlog i sig Hi) as [?|[Hdone Hr]]; [by left|right].
    destruct (Hd Hdone) as [? Hres]. split; [done|]. unfold deliver_result. by rewrite Hres.
Qed.

Lemma waiting_sub n sy i :
  split_ok n sy -> i ∈ waiting sy ->
  exists s, subs sy !! i = Some s /\ sub s = Returned /\ i ∉ (log sy).*1 /\ active s = has_op s.
Proof.
  intros Hok Hi. pose proof (so_known _ _ Hok i Hi) as Hlt. rewrite <- (so_length _ _ Hok) in Hlt.
  apply lookup_lt_is_Some in Hlt as [s Hs]. exists s. split; [done|].
  destruct (so_subs _ _ Hok i s Hs) as [Ha Hp].
  assert (sub s = Returned /\ i ∉ (log sy).*1) as [-> Hl] by (destruct (sub s); tauto).
  split_and!; [done..|]. destruct (active s), (has_op s); intuition congruence.
Qed.

(** A callback is over: its subscriber was told, or its operation is gone. *)
Lemma called_ok n sy i s cbs o :
  split_ok n sy -> in_calls (source sy) = i :: cbs ->
  subs sy !! i = Some s -> sub s = Returned -> i ∉ (log sy).*1 -> active s = has_op s ->
  match o with
  | None => has_op s = false
  | Some sig => phase (shared sy) = Done /\ deliver_result sends_values sends_stopped (shared sy) = Some sig
  end ->
  split_ok n (System (shared sy) (<[i := deactivate s]> (subs sy)) (Calling cbs) (launches sy) (completed sy)
    (refused sy) (log sy ++ match o with Some sig => [(i, sig)] | None => [] end)).
Proof.
  intros Hok Hin Hi Hs Hl Ha Ho. pose proof (so_source _ _ Hok) as Hsrc.
  assert (has_result (shared sy) (Calling cbs) (launches sy) (completed sy) /\ on_done (shared sy) = []) as [Hr Hon].
  { destruct (source sy); try done; by destruct Hsrc. }
  apply (told_ok n sy i s o); try done.
  - right. unfold waiting. simpl. by rewrite Hon, Hin.
  - destruct o; [by right|done].
  - unfold deactivate. by rewrite Hs.
Qed.

Lemma source_step_ok n sy sy' :
  split_ok n sy -> source_step sends_values sends_stopped sy = Some sy' -> split_ok n sy'.
Proof.
  intros Hok Hst. pose proof (so_source _ _ Hok) as Hsrc. unfold source_step in Hst.
  destruct (source sy) as [| | |vs t|e| | |[|i cbs]|i cbs|] eqn:Hp; simpl in Hsrc, Hst; simplify_eq.
  - destruct_ex. apply (source_move_ok n sy); try done.
    + unfold waiting. by rewrite Hp.
    + simpl. auto.
  - destruct_ex. unfold store_values in Hst. destruct t as [ex|]; simplify_eq.
    + apply (source_move_ok n sy); try done; [unfold waiting; by rewrite Hp|congruence|]. simpl. split_and!; eauto.
    + apply (source_move_ok n sy); try done; [unfold waiting; by rewrite Hp|congruence|]. simpl.
      split_and!; try done. eexists; split; [done|]. unfold deliver_result. simpl. by case_match.
  - destruct_ex. apply (source_move_ok n sy); try done; [unfold waiting; by rewrite Hp|congruence|]. simpl.
    split_and!; try done. eexists; split; [done|]. unfold deliver_result. simpl. congruence.
  - destruct_ex. apply (source_move_ok n sy); try done; [unfold waiting; by rewrite Hp|congruence|]. simpl.
    split_and!; try done. eexists; split; [done|]. unfold deliver_result. simpl. by case_match.
  - apply (source_move_ok n sy); try done.
    unfold waiting. by rewrite Hp, app_nil_r.
  - destruct Hsrc as [? Hon]. apply (source_move_ok n sy); try done. unfold waiting. by rewrite Hp.
  - destruct (waiting_sub n sy i Hok) as (s & Hi & Hs & Hl & Ha).
    { unfold waiting. rewrite Hp. apply elem_of_app. right. by left. }
    rewrite Hi in Hst. destruct (lockable s) eqn:Hlk; simplify_eq.
    + apply (source_move_ok n sy); try done. unfold waiting. by rewrite Hp.
    + unfold lockable in Hlk. rewrite Hs, orb_false_r in Hlk.
      pose proof (called_ok n sy i s cbs None Hok ltac:(by rewrite Hp) Hi Hs Hl Ha Hlk) as Hc.
      rewrite app_nil_r, list_insert_id in Hc; [done|]. rewrite Hi. destruct s; simpl in *; unfold deactivate. simpl. congruence.
  - destruct (waiting_sub n sy i Hok) as (s & Hi & Hs & Hl & Ha).
    { unfold waiting. rewrite Hp. apply elem_of_app. right. by left. }
    destruct Hsrc as [Hr Hon]. destruct Hr as (Hla & Hd & _). destruct (done_result _ _ Hok Hd) as [sig Hsig].
    unfold deliver_to_subscriber in Hst. rewrite Hi, Hsig in Hst. destruct (active s) eqn:Hact; simplify_eq/=.
    + apply (called_ok n sy i s cbs (Some sig) Hok ltac:(by rewrite Hp) Hi Hs Hl ltac:(congruence) (conj Hd Hsig)).
    + pose proof (called_ok n sy i s cbs None Hok ltac:(by rewrite Hp) Hi Hs Hl ltac:(congruence) ltac:(done)) as Hc.
      rewrite app_nil_r, list_insert_id in Hc; [done|]. rewrite Hi. destruct s; simpl in *; unfold deactivate. simpl. congruence.
Qed.

Lemma split_complete_ok n c sy sy' :
  split_ok n sy -> complete sends_values sends_stopped c sy = Some sy' -> split_ok n sy'.
Proof.
  intros Hok Hc. pose proof (so_source _ _ Hok) as Hsrc. unfold complete in Hc.
  destruct (source sy) eqn:Hp; try done. destruct Hsrc as (? & ? & ?).
  destruct c; [destruct sends_values eqn:?; [|done]| |destruct sends_stopped eqn:?; [|done]]; simplify_eq;
    (apply (source_move_ok n sy); try done; try (unfold waiting; by rewrite Hp); simpl; split_and!; eauto).
Qed.

(** ** Starting and destroying operations *)
Lemma sub_change_ok n sy i s s' :
  split_ok n sy -> subs sy !! i = Some s ->
  sub_ok (waiting sy) (log sy).*1 (refused sy) (phase (shared sy)) i s' -> split_ok n (set_subscriber i s' sy).
Proof.
  intros Hok Hi Hs. apply (sub_step_ok n sy i s s' (shared sy) (source sy) (refused sy)); auto.
  by apply so_source in Hok.
Qed.

Lemma split_start_ok n i sy sy' : split_ok n sy -> start i sy = Some sy' -> split_ok n sy'.
Proof.
  intros Hok Hst. unfold start in Hst. destruct (subs sy !! i) as [[[] a []]|] eqn:Hi; simplify_eq.
  by apply (sub_change_ok _ _ _ _ _ Hok Hi), (so_subs _ _ Hok i _ Hi).
Qed.

Lemma destroy_ok n i sy sy' : split_ok n sy -> destroy_op i sy = Some sy' -> split_ok n sy'.
Proof.
  intros Hok Hst. unfold destroy_op in Hst. destruct (subs sy !! i) as [s|] eqn:Hi; [|done].
  destruct (has_op s) eqn:Hh; simplify_eq. apply (sub_change_ok _ _ _ _ _ Hok Hi).
  destruct (so_subs _ _ Hok i s Hi) as [_ Hp]. split; cbn [active has_op sub]; [by split; [|intros [? _]]|].
  destruct (sub s); tauto.
Qed.

Lemma step_ok n sy sy' : split_ok n sy -> step sends_values sends_stopped sy sy' -> split_ok n sy'.
Proof.
  intros Hok [? [i throws ? Hs|? Hs]|c ? Hs|i ? Hs|i ? Hs].
  - by eapply start_step_ok.
  - by eapply source_step_ok.
  - by eapply split_complete_ok.
  - by eapply split_start_ok.
  - by eapply destroy_ok.
Qed.

Lemma reachable_ok n sy : reachable sends_values sends_stopped n sy -> split_ok n sy.
Proof. induction 1; [apply split_init_ok|by eapply step_ok]. Qed.
End inv.

(** ** split: the properties *)

Section props.
Context {X E : Type} (sends_values sends_stopped : bool).
Implicit Types (e ex : E) (i n m : nat) (throws : option E) (s : @subscriber E) (sig : @signal X E) (c : @completion X E).
Implicit Types sy : @system X E.

(** ** Steps that are possible *)
Lemma subscribe_some i throws (st : @shared_state X E) : exists d st', subscribe i throws st = Some (d, st').
Proof. unfold subscribe. destruct (phase st), throws; eauto. Qed.

Lemma start_step_some n sy i s throws :
  split_ok sends_values sends_stopped n sy -> subs sy !! i = Some s -> sub s <> Connected -> sub s <> Returned ->
  is_Some (start_step sends_values sends_stopped i throws sy).
Proof.
  intros Hok Hi Hc Hr. destruct (so_subs _ _ _ _ Hok i s Hi) as [_ Hp]. unfold start_step. rewrite Hi.
  destruct (sub s); try done.
  - by destruct throws.
  - by destruct (subscribe_some i throws (shared sy)) as (d & st & ->).
  - destruct Hp as (_ & _ & _ & Hd). destruct (done_result _ _ _ _ Hok Hd) as [sig Hsig].
    unfold deliver_to_subscriber. rewrite Hi, Hsig. by destruct (active s).
  - unfold deliver_exception_to_subscriber. rewrite Hi. by destruct (active s).
Qed.

Definition starting (p : @sub_phase E) : bool :=
  match p with Connected | Returned => false | _ => true end.
Definition settled (p : @source_phase X E) : bool :=
  match p with Unstarted | Running | Over => true | _ => false end.

Lemma source_step_some n sy :
  split_ok sends_values sends_stopped n sy -> settled (source sy) = false ->
  is_Some (source_step sends_values sends_stopped sy).
Proof.
  intros Hok Hn. pose proof (so_source _ _ _ _ Hok) as Hsrc. unfold source_step.
  destruct (source sy) as [| | |vs t|e| | |[|i cbs]|i cbs|] eqn:Hp; simpl in *; try done; try congruence.
  - unfold store_values. by destruct t.
  - destruct (waiting_sub _ _ n sy i Hok) as (s & -> & _); [|done].
    unfold waiting. rewrite Hp. apply elem_of_app. right. by left.
  - destruct (waiting_sub _ _ n sy i Hok) as (s & Hi & _).
    { unfold waiting. rewrite Hp. apply elem_of_app. right. by left. }
    destruct Hsrc as [(_ & Hd & _) _]. destruct (done_result _ _ _ _ Hok Hd) as [sig Hsig].
    unfold deliver_to_subscriber. rewrite Hi, Hsig. by destruct (active s).
Qed.

(** ** The steps that are left *)
Definition phase_weight (p : @sub_phase E) : nat :=
  match p with Called => 5 | AtLock => 4 | Delivering | DeliveringException _ => 1 | Connected | Returned => 0 end.
Definition sub_weight s : nat := phase_weight (sub s).
Definition source_weight (p : @source_phase X E) : nat :=
  match p with
  | Launching | Calling _ => 1
  | Storing _ _ => 4 | StoringException _ | StoringStopped => 3 | Notifying => 2
  | Unstarted | Running | InCallback _ _ | Over => 0
  end.
Definition work sy : nat :=
  sum_list_with sub_weight (subs sy) + 2 * length (waiting sy) + source_weight (source sy).

Lemma returns_work sy i s :
  subs sy !! i = Some s -> sub_weight s = 1 -> work (returns i sy) < work sy.
Proof.
  intros Hi Hs. unfold returns. rewrite Hi. unfold work, waiting. simpl.
  pose proof (sum_insert sub_weight _ _ _ (set_sub Returned s) Hi). change (sub_weight (set_sub Returned s)) with 0 in *. lia.
Qed.

(** A delivery changes no phase. *)
Lemma told_work sy i s sig :
  subs sy !! i = Some s ->
  let sy' := add_log i sig (set_subscriber i (deactivate s) sy) in
  work sy' = work sy /\ subs sy' !! i = Some (deactivate s).
Proof.
  intros Hi sy'. split; [|simpl; apply list_lookup_insert_eq; by eapply lookup_lt_Some].
  unfold work, waiting. simpl. pose proof (sum_insert sub_weight _ _ _ (deactivate s) Hi).
  change (sub_weight (deactivate s)) with (sub_weight s) in *. lia.
Qed.

Lemma deliver_work sy sy' i s :
  subs sy !! i = Some s ->
  deliver_to_subscriber sends_values sends_stopped i sy = Some sy' \/
    (exists ex, deliver_exception_to_subscriber i ex sy = Some sy') ->
  work sy' = work sy /\ source sy' = source sy /\ waiting sy' = waiting sy /\
  exists s', subs sy' !! i = Some s' /\ sub s' = sub s.
Proof.
  intros Hi Hd. unfold deliver_to_subscriber, deliver_exception_to_subscriber in Hd. rewrite Hi in Hd.
  destruct (active s); [|destruct Hd as [?|[ex ?]]; simplify_eq; split_and!; eauto].
  assert (exists sig, sy' = add_log i sig (set_subscriber i (deactivate s) sy)) as [sig ->].
  { destruct Hd as [Hd|[ex ?]]; [|simplify_eq; eauto]. destruct (deliver_result _ _ _); simplify_eq. eauto. }
  destruct (told_work sy i s sig Hi) as [Hw Hs]. split_and!; try done. by exists (deactivate s).
Qed.

Lemma start_step_work i throws sy sy' :
  start_step sends_values sends_stopped i throws sy = Some sy' -> work sy' < work sy.
Proof.
  intros Hst. unfold start_step in Hst. destruct (subs sy !! i) as [s|] eqn:Hi; [|done].
  pose proof (fun s' => sum_insert sub_weight _ _ _ s' Hi) as Hsum.
  assert (forall sy1, sub_weight s = 1 -> deliver_to_subscriber sends_values sends_stopped i sy = Some sy1 \/
    (exists ex, deliver_exception_to_subscriber i ex sy = Some sy1) -> work (returns i sy1) < work sy) as Hret.
  { intros sy1 Hw Hd. destruct (deliver_work _ _ _ _ Hi Hd) as (<- & _ & _ & s1 & Hi1 & Hs1).
    apply (returns_work _ _ s1); [done|]. unfold sub_weight. by rewrite Hs1. }
  unfold sub_weight in Hsum at 2 4. unfold sub_weight in Hret. 
  destruct (sub s) eqn:Hs; try done; cbn [phase_weight] in *.
  - destruct throws as [ex|]; simplify_eq; unfold work, waiting; simpl.
    + specialize (Hsum (set_sub (DeliveringException ex) s)). cbn [set_sub sub phase_weight] in Hsum. lia.
    + specialize (Hsum (set_sub AtLock s)). cbn [set_sub sub phase_weight] in Hsum. lia.
  - destruct (subscribe i throws (shared sy)) as [[d st]|] eqn:Hd; [|done]. simplify_eq.
    pose proof (Hsum (set_sub Delivering s)). pose proof (Hsum (set_sub Returned s)).
    pose proof (fun ex => Hsum (set_sub (DeliveringException ex) s)) as Hx. cbn [set_sub sub phase_weight] in *.
    unfold subscribe in Hd. destruct (phase (shared sy)) eqn:Hph, throws as [ex|]; simplify_eq;
      unfold work, waiting; simpl; rewrite ?length_app; simpl; try specialize (Hx ex); try lia.
  - destruct (deliver_to_subscriber _ _ i sy) eqn:Hd; simplify_eq/=. auto.
  - destruct (deliver_exception_to_subscriber i ex sy) eqn:Hd; simplify_eq/=. eauto.
Qed.

Lemma source_step_work sy sy' :
  source_step sends_values sends_stopped sy = Some sy' -> work sy' < work sy.
Proof.
  intros Hst. unfold source_step in Hst.
  destruct (source sy) as [| | |vs t|e| | |[|i cbs]|i cbs|] eqn:Hp; simplify_eq.
  7: { destruct (subs sy !! i) as [s|] eqn:Hi; [|done]. simplify_eq. unfold work, waiting. simpl. rewrite Hp.
    destruct (lockable s); simpl; rewrite !length_app; simpl; lia. }
  7: { destruct (deliver_to_subscriber _ _ i sy) as [sy1|] eqn:Hd; simplify_eq/=.
    assert (exists s, subs sy !! i = Some s) as [s Hi].
    { unfold deliver_to_subscriber in Hd. destruct (subs sy !! i); [eauto|done]. }
    destruct (deliver_work _ _ _ _ Hi (or_introl Hd)) as (<- & Hs & _). unfold work, waiting. simpl.
    rewrite Hs, Hp, !length_app. simpl. lia. }
  2: unfold store_values in Hst; destruct t; simplify_eq.
  all: simplify_eq/=; unfold work, waiting; simpl; rewrite Hp; simpl; rewrite ?app_nil_r; lia.
Qed.

Lemma split_internal_work sy sy' : internal sends_values sends_stopped sy sy' -> work sy' < work sy.
Proof. intros [i throws ? Hs|? Hs]; [by eapply start_step_work|by eapply source_step_work]. Qed.

Lemma split_work_bound n sy : split_ok sends_values sends_stopped n sy -> work sy <= 7 * n + 4.
Proof.
  intros Hok. unfold work. pose proof (sum_bound sub_weight 5 (subs sy)) as Hs. rewrite (so_length _ _ _ _ Hok) in Hs.
  assert (length (waiting sy) <= n) as Hw.
  { rewrite <- (length_seq n 0). apply submseteq_length, NoDup_submseteq; [apply (so_waiting _ _ _ _ Hok)|].
    intros i Hi. apply elem_of_seq. pose proof (so_known _ _ _ _ Hok i Hi). lia. }
  assert (source_weight (source sy) <= 4) by (destruct (source sy); simpl; lia).
  assert (forall s, sub_weight s <= 5) as H5 by (intros s; unfold sub_weight; destruct (sub s); simpl; lia).
  specialize (Hs H5). lia.
Qed.

Lemma split_reachable_internal n m sy sy' :
  reachable sends_values sends_stopped n sy -> nsteps (internal sends_values sends_stopped) m sy sy' ->
  reachable sends_values sends_stopped n sy' /\ m + work sy' <= work sy.
Proof.
  intros Hr Hn. induction Hn as [sy|m sy sy1 sy' Hs Hn IH]; [split; [done|lia]|].
  destruct IH as [? ?]; [eapply reachable_step; [done|by apply step_internal]|].
  pose proof (split_internal_work _ _ Hs). split; [done|lia].
Qed.

(** ** Deliveries *)

Lemma deliver_tells sy sy' i :
  deliver_to_subscriber sends_values sends_stopped i sy = Some sy' \/
    (exists ex, deliver_exception_to_subscriber i ex sy = Some sy') ->
  log sy' = log sy \/ exists s sig, subs sy !! i = Some s /\ active s = true /\ log sy' = log sy ++ [(i, sig)].
Proof.
  unfold deliver_to_subscriber, deliver_exception_to_subscriber. destruct (subs sy !! i) as [s|].
  - destruct (active s) eqn:Ha; [|intros [?|[ex ?]]; simplify_eq; by left].
    destruct (deliver_result _ _ _); intros [?|[ex ?]]; simplify_eq; right; eauto.
  - by intros [?|[ex ?]].
Qed.

Lemma log_returns i sy : log (returns i sy) = log sy.
Proof. unfold returns. by destruct (subs sy !! i). Qed.

Lemma internal_tells sy sy' :
  internal sends_values sends_stopped sy sy' ->
  log sy' = log sy \/ exists i s sig, subs sy !! i = Some s /\ active s = true /\ log sy' = log sy ++ [(i, sig)].
Proof.
  intros [i throws sy1 Hst|sy1 Hst].
  - unfold start_step in Hst. destruct (subs sy !! i) as [s|] eqn:Hi; [|done].
    destruct (sub s) as [| | | |ex|]; try done.
    + destruct throws; simplify_eq; by left.
    + destruct (subscribe i throws (shared sy)) as [[[] st]|]; simplify_eq; by left.
    + destruct (deliver_to_subscriber _ _ i sy) as [sy2|] eqn:Hd; simplify_eq/=. rewrite log_returns.
      destruct (deliver_tells _ _ _ (or_introl Hd)) as [?|(s1 & sig & ?)]; [by left|right; eauto].
    + destruct (deliver_exception_to_subscriber i ex sy) as [sy2|] eqn:Hd; simplify_eq/=. rewrite log_returns.
      destruct (deliver_tells _ _ _ (or_intror (ex_intro _ ex Hd))) as [?|(s1 & sig & ?)]; [by left|right; eauto].
  - unfold source_step in Hst. destruct (source sy) as [| | |vs t|e| | |[|i cbs]|i cbs|]; simplify_eq/=; try by left.
    + unfold store_values in Hst. destruct t; simplify_eq; by left.
    + destruct (subs sy !! i); simplify_eq; by left.
    + destruct (deliver_to_subscriber _ _ i sy) as [sy2|] eqn:Hd; simplify_eq/=.
      destruct (deliver_tells _ _ _ (or_introl Hd)) as [?|(s1 & sig & ?)]; [by left|right; eauto].
Qed.

Lemma step_tells n sy sy' i sig :
  split_ok sends_values sends_stopped n sy -> step sends_values sends_stopped sy sy' -> (i, sig) ∈ log sy' ->
  (i, sig) ∈ log sy \/ exists s, subs sy !! i = Some s /\ has_op s = true.
Proof.
  intros Hok [sy1 Hs|c sy1 Hs|j sy1 Hs|j sy1 Hs] Hin.
  - destruct (internal_tells _ _ Hs) as [Hl|(j & s & sg & Hj & Ha & Hl)]; rewrite Hl in Hin; [by left|].
    apply elem_of_app in Hin as [?|Hin]; [by left|right]. apply list_elem_of_singleton in Hin. simplify_eq.
    exists s. split; [done|]. by apply (so_subs _ _ _ _ Hok) in Hj as [[Hop _] _]; apply Hop.
  - left. unfold complete in Hs. destruct (source sy); try done. by destruct c, sends_values, sends_stopped; simplify_eq.
  - left. unfold start in Hs. by destruct (subs sy !! j) as [[[] a []]|]; simplify_eq.
  - left. unfold destroy_op in Hs. destruct (subs sy !! j) as [s|]; [|done]. by destruct (has_op s); simplify_eq.
Qed.

(** [split] completes: the steps in [start] and in the source's receiver are
    bounded, and when none is left and the source is not running, every
    subscriber that was started and whose operation still exists has its
    signal. *)
Lemma split_finishes n m sy sy' :
  reachable sends_values sends_stopped n sy -> nsteps (internal sends_values sends_stopped) m sy sy' ->
  m <= 7 * n + 4 /\
  ((exists sy'', internal sends_values sends_stopped sy' sy'') \/ source sy' = Running \/
   forall i s, subs sy' !! i = Some s -> sub s <> Connected -> has_op s = true -> i ∈ (log sy').*1).
Proof.
  intros Hr Hn. destruct (split_reachable_internal _ _ _ _ Hr Hn) as [Hr' Hw].
  pose proof (split_work_bound _ _ (reachable_ok _ _ _ _ Hr)). split; [lia|].
  pose proof (reachable_ok _ _ _ _ Hr') as Hok. pose proof (so_source _ _ _ _ Hok) as Hsrc.
  destruct (settled (source sy')) eqn:Hp; [|left; destruct (source_step_some _ _ Hok Hp) as [sy'' Hs];
    exists sy''; by apply internal_source].
  destruct (decide (0 < count (fun s => starting (sub s)) (subs sy'))) as [Hc|Hc].
  - left. apply count_pos in Hc as (i & s & Hi & Hs).
    destruct (start_step_some n sy' i s None Hok Hi) as [sy'' Hx]; [by intros E1; rewrite E1 in Hs..|].
    exists sy''. by eapply internal_start.
  - assert (count (fun s => starting (sub s)) (subs sy') = 0) as Hc0 by lia.
    right. destruct (source sy') eqn:Hsy; try done; [right|by left|right]; intros i s Hi Hn1 Hop.
    all: destruct (so_subs _ _ _ _ Hok i s Hi) as [_ Hs]; pose proof (count_zero _ _ i s Hc0 Hi) as Hall; simpl in Hall.
    all: assert (on_done (shared sy') = []) as Hon by (simpl in Hsrc; tauto).
    all: assert (waiting sy' = []) as Hwt by (unfold waiting; by rewrite Hsy, Hon).
    all: destruct (sub s); try done; rewrite Hwt in Hs.
    all: destruct Hs as [[Hin _]|[_ [?|?]]]; [by apply not_elem_of_nil in Hin|done|congruence].
Qed.

(** C16: every subscriber of a [split] sender receives what its source completed
    with, for all interleavings of the starting and destroying threads with the
    source and whatever throws.  At most one signal is sent to each subscriber,
    and none once its operation is destroyed; a signal is what [deliver_result]
    makes of the cached result, which is the same for all, or the exception that
    the subscriber's own [start] met.  The source is started at most once, by the
    first subscriber; what is cached from its completion on is this completion, or
    the exception that was thrown in storing its values.  The program never
    terminates: [start] can always proceed, and so can the source's receiver.  The
    steps they make are bounded, and when none is left and the source is not
    running, every subscriber that was started and whose operation still exists
    has its signal. *)
Theorem split_delivers n sy :
  reachable sends_values sends_stopped n sy ->
  NoDup (log sy).*1 /\ launches sy <= 1 /\
  (forall i sig, (i, sig) ∈ log sy -> (exists ex, (i, ex) ∈ refused sy /\ sig = SetError ex) \/
    phase (shared sy) = Done /\ deliver_result sends_values sends_stopped (shared sy) = Some sig) /\
  (forall c, completed sy = Some c -> phase (shared sy) = Done -> launches sy = 1 /\
    deliver_result sends_values sends_stopped (shared sy) = Some (signal_of c)) /\
  (forall i s throws, subs sy !! i = Some s -> sub s <> Connected -> sub s <> Returned ->
    is_Some (start_step sends_values sends_stopped i throws sy)) /\
  (settled (source sy) = false -> is_Some (source_step sends_values sends_stopped sy)) /\
  (forall sy' i sig, step sends_values sends_stopped sy sy' -> (i, sig) ∈ log sy' ->
    (i, sig) ∈ log sy \/ exists s, subs sy !! i = Some s /\ has_op s = true) /\
  (forall m sy', nsteps (internal sends_values sends_stopped) m sy sy' -> m <= 7 * n + 4 /\
    ((exists sy'', internal sends_values sends_stopped sy' sy'') \/ source sy' = Running \/
     forall i s, subs sy' !! i = Some s -> sub s <> Connected -> has_op s = true -> i ∈ (log sy').*1)).
Proof.
  intros Hr. pose proof (reachable_ok _ _ _ _ Hr) as Hok. pose proof (so_source _ _ _ _ Hok) as Hsrc.
  split_and!.
  - apply Hok.
  - destruct (source sy); simpl in Hsrc; unfold has_result in Hsrc; destruct_ex; lia.
  - intros i sig. apply (so_log _ _ _ _ Hok).
  - intros c Hc Hd. destruct (source sy); simpl in Hsrc; unfold has_result in Hsrc; destruct_ex; try congruence.
    all: split; congruence.
  - intros. by eapply start_step_some.
  - intros. by eapply source_step_some.
  - intros sy' i sig. by eapply step_tells.
  - intros m sy'. by apply split_finishes.
Qed.

End props.

(** ** Examples

    Two subscribers, of which the first starts the source and the second finds no
    memory to wait; then the source completes with a value. *)
Definition demo_split : @system Z bool := run_all
  [start 0; start_step true true 0 None; start_step true true 0 None; source_step true true;
   start 1; start_step true true 1 None; start_step true true 1 (Some false); start_step true true 1 None;
   complete true true (ByValue [7%Z] None); source_step true true; source_step true true;
   source_step true true; source_step true true] (init 2).

Lemma demo_split_reachable : reachable true true 2 demo_split.
Proof.
  apply (run_all_invariant (reachable true true 2)); [|apply reachable_init]. intros f sy sy' Hf Hs Hr.
  eapply reachable_step; [exact Hr|]. revert Hs.
  repeat (apply elem_of_cons in Hf as [->|Hf]; [first
    [by apply step_start|by apply step_complete|intros ?; apply step_internal; by eapply internal_start
    |intros ?; apply step_internal; by apply internal_source]|]).
  by apply not_elem_of_nil in Hf.
Qed.

Definition demo_told : @system Z bool := run_all [source_step true true] demo_split.

Lemma split_delivers_witness :
  reachable true true 2 demo_split /\ log demo_split = [(1, SetError false); (0, SetValue [7%Z])] /\
  launches demo_split = 1 /\ deliver_result true true (shared demo_split) = Some (SetValue [7%Z]) /\
  nsteps (internal true true) 1 demo_split demo_told /\ 1 <= 7 * 2 + 4 /\ source demo_told = Over.
Proof.
  assert (nsteps (internal true true) 1 demo_split demo_told) as Hn.
  { eapply nsteps_l; [apply internal_source; vm_compute; reflexivity|apply nsteps_O]. }
  destruct (split_delivers true true 2 demo_split demo_split_reachable) as (_ & _ & _ & Hc & _ & _ & _ & Hb).
  destruct (Hc (ByValue [7%Z] None) ltac:(vm_compute; reflexivity) ltac:(vm_compute; reflexivity)) as [Hl Hd].
  split; [exact demo_split_reachable|]. split; [vm_compute; reflexivity|]. split; [exact Hl|]. split; [exact Hd|].
  split; [exact Hn|]. split; [exact (proj1 (Hb 1 demo_told Hn))|vm_compute; reflexivity].
Defined.
