(* ===== verification/SpawnFuture.v ===== *)
(** * spawn_future

    Models backport/cpp26/execution/spawn_future.hpp: an operation that is started
    at once, and a sender that receives its result, in any threads.  [X] is the
    type of values, [E] that of errors, [std::exception_ptr] among them; whether
    something throws is a parameter.  Critical sections and atomic exchanges are
    the steps.  [reset] of a stop callback keeps it from being called; that it also
    waits for a call that is under way is left out, so the caller may go on
    earlier than it does. *)
From S2P Require Import Prelude.

#[local] Open Scope prog_scope.

Section spawn_future.
Context {X E : Type}.
Implicit Types (e ex : E) (vs : list X) (throws : option E).

Inductive run_phase := Running | Done.
(** [__result_variant] *)
Inductive result := Monostate | ValueResult vs | ErrorResult e | StoppedResult.
Inductive consume_result := Registered | DeliverNow | AlreadyConsumed.
Inductive signal := SetValue vs | SetError e | SetStopped.

(** [__shared_state]: [consumer_cb] tells whether the consumer is registered,
    [env_stop] whether the callback on the token of the environment is. *)
Record shared_state := SharedState {
  phase : run_phase;
  consumer_taken : bool;
  res : result;
  consumer_cb : bool;
  stop_requested : bool;
  env_stop : bool;
  keepalive : bool;
}.
Implicit Types st : shared_state.

Definition new_state : shared_state := SharedState Running false Monostate false false false false.
Definition set_keepalive b st :=
  SharedState (phase st) (consumer_taken st) (res st) (consumer_cb st) (stop_requested st) (env_stop st) b.
Definition set_env_stop b st :=
  SharedState (phase st) (consumer_taken st) (res st) (consumer_cb st) (stop_requested st) b (keepalive st).
Definition set_taken st :=
  SharedState (phase st) true (res st) (consumer_cb st) (stop_requested st) (env_stop st) (keepalive st).
Definition set_consumer b st :=
  SharedState (phase st) (consumer_taken st) (res st) b (stop_requested st) (env_stop st) (keepalive st).

(** The end of the operation with result [r]: whether there is a consumer to be
    delivered to. *)
Definition finish r : prog shared_state bool := fun st =>
  Some (consumer_cb st, SharedState Done (consumer_taken st) r false (stop_requested st) (env_stop st) (keepalive st)).

(** The locked part of [__complete_with], where moving the result may throw, and
    of [__try_cancel]. *)
Definition complete_store alt throws : prog shared_state bool :=
  p ← read phase;
  match p with
  | Done => give false
  | Running => finish (match throws with None => alt | Some ex => ErrorResult ex end)
  end.
Definition cancel_store : prog shared_state bool :=
  p ← read phase;
  match p with
  | Done => give false
  | Running => finish StoppedResult
  end.

Definition request_stop : prog shared_state unit :=
  modify (fun st => SharedState (phase st) (consumer_taken st) (res st) (consumer_cb st) true (env_stop st) (keepalive st)).

(** The locked part of [__abandon_unconsumed]: whether to request a stop. *)
Definition abandon_unconsumed : prog shared_state bool :=
  t ← read consumer_taken;
  if t : bool then give false
  else
    modify set_taken;;
    p ← read phase;
    give (match p with Done => false | Running => true end).

Definition consume : prog shared_state consume_result :=
  t ← read consumer_taken;
  if t : bool then give AlreadyConsumed
  else
    modify set_taken;;
    p ← read phase;
    match p with
    | Done => give DeliverNow
    | Running => modify (set_consumer true);; give Registered
    end.

Definition detach_consumer : prog shared_state unit := modify (set_consumer false).

Definition deliver_to (r : result) : signal :=
  match r with
  | Monostate | StoppedResult => SetStopped
  | ValueResult vs => SetValue vs
  | ErrorResult e => SetError e
  end.

(** ** The system

    [__consumer]: [active], whether it refers to the state, and whether its stop
    callback is registered. *)
Record consumer := Consumer { active : bool; has_state : bool; stop_callback : bool }.

(** Where the spawned operation is: in [__start], running, in [__complete_with]. *)
Inductive source_phase :=
  | Beginning
  | Installing
  | Connecting
  | Operating
  | ResetEnv (alt : result) throws
  | Storing (alt : result) throws
  | Delivering
  | Telling
  | Releasing
  | Over.

(** Where the callback on the token of the consumer's receiver is, in
    [__try_cancel]. *)
Inductive callback_phase :=
  | NotCalled
  | Requesting
  | CancelStoring
  | CancelDelivering
  | CancelTelling
  | CallbackOver.

(** Where the user of the sender is: in [spawn_future], before [connect], before
    [start], in [start], or after one of those, or dropping the sender.  [start]
    looks at the stop token, may have to cancel, registers the callback (which
    may be called at once), consumes and maybe delivers; or it fails, with a
    deliver of the exception, from the first part or from consuming. *)
Inductive user_phase :=
  | Spawning
  | Unconnected
  | Connected
  | Looking
  | DirectRequest
  | DirectStore
  | DirectDeliver
  | DirectTell
  | Emplacing
  | CalledInline
  | Consuming
  | DeliveringNow
  | TellingNow
  | DeliveringStopped
  | TellingStopped
  | Failing ex (consuming : bool)
  | TellingError ex (consuming : bool)
  | FailAbandon
  | FailRequest
  | Returned
  | Dropping
  | DropRequest
  | Gone.

(** Where [~__op] is. *)
Inductive destroy_phase :=
  | NotDestroyed
  | AbandonLock
  | AbandonRequest
  | Claiming
  | Detaching
  | Resetting
  | Stopping
  | Destroyed.

(** How the operation completes; what that leaves as the result. *)
Inductive completion := ByValue vs throws | ByError e throws | ByStopped.
Definition alternative (c : completion) : result :=
  match c with
  | ByValue vs None => ValueResult vs
  | ByError e None => ErrorResult e
  | ByValue _ (Some ex) | ByError _ (Some ex) => ErrorResult ex
  | ByStopped => StoppedResult
  end.

(** [outcome], [cancelled], [refused] and [log] record what [__complete_with]
    stored, whether [__try_cancel] did, the exception of [start] and the signals
    to the consumer's receiver. *)
Record system := System {
  shared : shared_state;
  cons : consumer;
  source : source_phase;
  callback : callback_phase;
  user : user_phase;
  destroyer : destroy_phase;
  outcome : option result;
  cancelled : bool;
  refused : option E;
  log : list signal;
}.
Implicit Types sy : system.

(** [__spawn_future]: the scope may refuse to associate. *)
Definition init (associated : bool) : system :=
  System new_state (Consumer true false false)
    (if associated then Beginning else ResetEnv StoppedResult None) NotCalled Spawning NotDestroyed None false None [].

Definition set_shared st sy := System st (cons sy) (source sy) (callback sy) (user sy) (destroyer sy) (outcome sy) (cancelled sy) (refused sy) (log sy).
Definition set_cons c sy := System (shared sy) c (source sy) (callback sy) (user sy) (destroyer sy) (outcome sy) (cancelled sy) (refused sy) (log sy).
Definition set_source p sy := System (shared sy) (cons sy) p (callback sy) (user sy) (destroyer sy) (outcome sy) (cancelled sy) (refused sy) (log sy).
Definition set_callback p sy := System (shared sy) (cons sy) (source sy) p (user sy) (destroyer sy) (outcome sy) (cancelled sy) (refused sy) (log sy).
Definition set_user p sy := System (shared sy) (cons sy) (source sy) (callback sy) p (destroyer sy) (outcome sy) (cancelled sy) (refused sy) (log sy).
Definition set_destroyer p sy := System (shared sy) (cons sy) (source sy) (callback sy) (user sy) p (outcome sy) (cancelled sy) (refused sy) (log sy).
Definition set_outcome r sy := System (shared sy) (cons sy) (source sy) (callback sy) (user sy) (destroyer sy) (Some r) (cancelled sy) (refused sy) (log sy).
Definition set_cancelled sy := System (shared sy) (cons sy) (source sy) (callback sy) (user sy) (destroyer sy) (outcome sy) true (refused sy) (log sy).
Definition set_refused ex sy := System (shared sy) (cons sy) (source sy) (callback sy) (user sy) (destroyer sy) (outcome sy) (cancelled sy) (Some ex) (log sy).

Definition on_state {A} (p : prog shared_state A) (f : A -> system -> system) sy : option system :=
  match p (shared sy) with Some (a, st) => Some (f a (set_shared st sy)) | None => None end.

(** The deliveries of a consumer: the exchange of [active], and what the winner
    does: release the state, reset the callback and send the signal. *)
Definition claim (won lost : system -> system) sy : system :=
  if active (cons sy) then won (set_cons (Consumer false (has_state (cons sy)) (stop_callback (cons sy))) sy)
  else lost sy.
Definition tell (sig : signal) sy : system :=
  System (shared sy) (Consumer (active (cons sy)) false false) (source sy) (callback sy) (user sy) (destroyer sy)
    (outcome sy) (cancelled sy) (refused sy) (log sy ++ [sig]).
Definition tell_result sy : system := tell (deliver_to (res (shared sy))) sy.

(** A successful [__complete_with] or [__try_cancel] is recorded. *)
Definition recorded (f : system -> system) st sy : system :=
  match phase st with Running => f sy | Done => sy end.

(** Steps of the operation.  [install] tells what the environment's token does. *)
Inductive install := NoToken | Installed | AlreadyStopped | InstallThrows ex.
Definition source_step (i : install) throws sy : option system :=
  match source sy with
  | Beginning => on_state (modify (set_keepalive true)) (fun _ => set_source Installing) sy
  | Installing =>
      match i with
      | NoToken => Some (set_source Connecting sy)
      | Installed => on_state (modify (set_env_stop true)) (fun _ => set_source Connecting) sy
      | AlreadyStopped => on_state (request_stop;; modify (set_env_stop true)) (fun _ => set_source Connecting) sy
      | InstallThrows ex => Some (set_source (ResetEnv (ErrorResult ex) None) sy)
      end
  | Connecting =>
      Some (set_source (match throws with None => Operating | Some ex => ResetEnv (ErrorResult ex) None end) sy)
  | ResetEnv alt t => on_state (modify (set_env_stop false)) (fun _ => set_source (Storing alt t)) sy
  | Storing alt t =>
      on_state (complete_store alt t) (fun cb sy' =>
        set_source (if cb : bool then Delivering else Releasing)
          (recorded (set_outcome (match t with None => alt | Some ex => ErrorResult ex end)) (shared sy) sy')) sy
  | Delivering => Some (claim (set_source Telling) (set_source Releasing) sy)
  | Telling => Some (set_source Releasing (tell_result sy))
  | Releasing => on_state (modify (set_keepalive false)) (fun _ => set_source Over) sy
  | Operating | Over => None
  end.

(** [__try_cancel]: its first and its second step. *)
Definition cancel_request (f : system -> system) sy : option system := on_state request_stop (fun _ => f) sy.
Definition cancel_lock (f : bool -> system -> system) sy : option system :=
  on_state cancel_store (fun cb sy' => f cb (recorded set_cancelled (shared sy) sy')) sy.

Definition callback_step sy : option system :=
  match callback sy with
  | Requesting => cancel_request (set_callback CancelStoring) sy
  | CancelStoring => cancel_lock (fun cb => set_callback (if cb : bool then CancelDelivering else CallbackOver)) sy
  | CancelDelivering => Some (claim (set_callback CancelTelling) (set_callback CallbackOver) sy)
  | CancelTelling => Some (set_callback CallbackOver (tell_result sy))
  | NotCalled | CallbackOver => None
  end.

(** Steps of [start] and of dropping a sender.  [look] is what the token of the
    receiver says; [inline] whether the callback is called when it is registered. *)
Inductive look := LookThrows ex | IsRequested | IsPossible | NotPossible.
Definition user_step (l : look) (inline : bool) throws sy : option system :=
  match user sy with
  | Looking =>
      let sy := set_cons (Consumer (active (cons sy)) true (stop_callback (cons sy))) sy in
      Some (match l with
        | LookThrows ex => set_user (Failing ex false) (set_refused ex sy)
        | IsRequested => set_user DirectRequest sy
        | IsPossible => set_user Emplacing sy
        | NotPossible => set_user Consuming sy
        end)
  | DirectRequest => cancel_request (set_user DirectStore) sy
  | DirectStore => cancel_lock (fun cb => set_user (if cb : bool then DirectDeliver else Emplacing)) sy
  | DirectDeliver => Some (claim (set_user DirectTell) (set_user Emplacing) sy)
  | DirectTell => Some (set_user Emplacing (tell_result sy))
  | Emplacing =>
      match throws with
      | Some ex => Some (set_user (Failing ex false) (set_refused ex sy))
      | None =>
          let sy := set_cons (Consumer (active (cons sy)) (has_state (cons sy)) true) sy in
          Some (if inline then set_callback Requesting (set_user CalledInline sy) else set_user Consuming sy)
      end
  | CalledInline => match callback sy with CallbackOver => Some (set_user Consuming sy) | _ => None end
  | Consuming =>
      match throws with
      | Some ex => Some (set_user (Failing ex true) (set_refused ex sy))
      | None =>
          on_state consume (fun r => set_user
            (match r with Registered => Returned | DeliverNow => DeliveringNow | AlreadyConsumed => DeliveringStopped end)) sy
      end
  | DeliveringNow => Some (claim (set_user TellingNow) (set_user Returned) sy)
  | TellingNow => Some (set_user Returned (tell_result sy))
  | DeliveringStopped => Some (claim (set_user TellingStopped) (set_user Returned) sy)
  | TellingStopped => Some (set_user Returned (tell SetStopped sy))
  | Failing ex c =>
      Some (claim (set_user (TellingError ex c)) (set_user (if c then FailRequest else FailAbandon)) sy)
  | TellingError ex c => Some (set_user (if c then FailRequest else FailAbandon) (tell (SetError ex) sy))
  | FailAbandon => on_state abandon_unconsumed (fun b => set_user (if b : bool then FailRequest else Returned)) sy
  | FailRequest => on_state request_stop (fun _ => set_user Returned) sy
  | Dropping => on_state abandon_unconsumed (fun b => set_user (if b : bool then DropRequest else Gone)) sy
  | DropRequest => on_state request_stop (fun _ => set_user Gone) sy
  | Spawning | Unconnected | Connected | Returned | Gone => None
  end.

(** Steps of [~__op]: [__abandon_unconsumed] if it was not started, [__abandon]. *)
Definition destroy_step sy : option system :=
  match destroyer sy with
  | AbandonLock => on_state abandon_unconsumed (fun b => set_destroyer (if b : bool then AbandonRequest else Claiming)) sy
  | AbandonRequest => on_state request_stop (fun _ => set_destroyer Claiming) sy
  | Claiming =>
      Some (if active (cons sy) then
        set_destroyer (if has_state (cons sy) then Detaching else Destroyed)
          (set_cons (Consumer false false (stop_callback (cons sy))) sy)
      else set_destroyer Destroyed sy)
  | Detaching => on_state detach_consumer (fun _ => set_destroyer Resetting) sy
  | Resetting => Some (set_destroyer Stopping (set_cons (Consumer (active (cons sy)) (has_state (cons sy)) false) sy))
  | Stopping => on_state request_stop (fun _ => set_destroyer Destroyed) sy
  | NotDestroyed | Destroyed => None
  end.

(** What others do: the operation completes, the tokens are stopped. *)
Definition complete (c : completion) sy : option system :=
  match source sy with Operating => Some (set_source (ResetEnv (alternative c) None) sy) | _ => None end.
Definition complete_moving (r : result) ex sy : option system :=
  match source sy with Operating => Some (set_source (ResetEnv r (Some ex)) sy) | _ => None end.
Definition env_stops sy : option system :=
  if env_stop (shared sy) then on_state request_stop (fun _ sy => sy) sy else None.
Definition token_stops sy : option system :=
  match callback sy with
  | NotCalled => if stop_callback (cons sy) then Some (set_callback Requesting sy) else None
  | _ => None
  end.

(** What the user does: [spawn_future] returns; the sender is dropped or
    connected, which may throw; the operation is started, and destroyed before it
    is started, or after it has returned or was told. *)
Definition spawned sy : option system :=
  match user sy, source sy with
  | Spawning, (Beginning | Installing | Connecting) => None
  | Spawning, _ => Some (set_user Unconnected sy)
  | _, _ => None
  end.
Definition drop sy : option system :=
  match user sy with Unconnected => Some (set_user Dropping sy) | _ => None end.
Definition connect throws sy : option system :=
  match user sy with
  | Unconnected => Some (set_user (match throws with None => Connected | Some _ => Dropping end) sy)
  | _ => None
  end.
Definition start sy : option system :=
  match user sy with Connected => Some (set_user Looking sy) | _ => None end.
Definition destroy_op sy : option system :=
  match destroyer sy, user sy with
  | NotDestroyed, Connected => Some (set_destroyer AbandonLock (set_user Gone sy))
  | NotDestroyed, Returned => Some (set_destroyer Claiming sy)
  | NotDestroyed, _ => match log sy with [] => None | _ => Some (set_destroyer Claiming sy) end
  | _, _ => None
  end.

Inductive internal sy : system -> Prop :=
| internal_source i throws sy' : source_step i throws sy = Some sy' -> internal sy sy'
| internal_callback sy' : callback_step sy = Some sy' -> internal sy sy'
| internal_user l inline throws sy' : user_step l inline throws sy = Some sy' -> internal sy sy'
| internal_destroy sy' : destroy_step sy = Some sy' -> internal sy sy'.
Inductive step sy : system -> Prop :=
| step_internal sy' : internal sy sy' -> step sy sy'
| step_complete c sy' : complete c sy = Some sy' -> step sy sy'
| step_complete_moving r ex sy' : r <> Monostate -> complete_moving r ex sy = Some sy' -> step sy sy'
| step_env sy' : env_stops sy = Some sy' -> step sy sy'
| step_token sy' : token_stops sy = Some sy' -> step sy sy'
| step_spawned sy' : spawned sy = Some sy' -> step sy sy'
| step_drop sy' : drop sy = Some sy' -> step sy sy'
| step_connect throws sy' : connect throws sy = Some sy' -> step sy sy'
| step_start sy' : start sy = Some sy' -> step sy sy'
| step_destroy sy' : destroy_op sy = Some sy' -> step sy sy'.
Inductive reachable (associated : bool) : system -> Prop :=
| reachable_init : reachable associated (init associated)
| reachable_step sy sy' : reachable associated sy -> step sy sy' -> reachable associated sy'.

(** ** Who keeps the state alive

    The strong references: [__keepalive], [__complete_with] and the threads in
    [__try_cancel], the sender, the operation before it is started, [start], the
    consumer while something refers to it, and [__abandon]. *)
Definition in_completion (p : source_phase) : bool :=
  match p with ResetEnv _ _ | Storing _ _ | Delivering | Telling | Releasing => true | _ => false end.
Definition in_callback (p : callback_phase) : bool :=
  match p with NotCalled | CallbackOver => false | _ => true end.
Definition user_refers (p : user_phase) : bool := match p with Returned | Gone => false | _ => true end.
Definition destroyer_refers (p : destroy_phase) : bool :=
  match p with AbandonLock | AbandonRequest | Detaching | Resetting | Stopping => true | _ => false end.
Definition consumer_referred sy : bool :=
  match destroyer sy with Destroyed => false | _ => true end || consumer_cb (shared sy) ||
  match source sy with Delivering | Telling => true | _ => false end ||
  match callback sy with CancelDelivering | CancelTelling => true | _ => false end.
Definition held sy : bool :=
  keepalive (shared sy) || in_completion (source sy) || in_callback (callback sy) || user_refers (user sy) ||
  destroyer_refers (destroyer sy) || (has_state (cons sy) && consumer_referred sy).
End spawn_future.
