(* ===== verification/SpawnFutureProps.v ===== *)
(** * spawn_future: the invariant and the properties

    One thing at a time has the right to deliver the result: a [start] that has not
    registered the consumer, the state in which it is registered, or a thread that
    took it out.  One thing at most has won the exchange of [active] and tells the
    consumer, or has done so.  The flags of the invariant are kept as numbers and
    booleans, so that a step is arithmetic. *)
From Stdlib Require Import ZifyBool.
From S2P Require Import Prelude SpawnFuture.

(** Hypotheses about known booleans. *)
Ltac simp_flags :=
  repeat match goal with
  | H : true = true -> _ |- _ => specialize (H eq_refl)
  | H : false = false -> _ |- _ => specialize (H eq_refl)
  | H : true = false -> _ |- _ => clear H
  | H : false = true -> _ |- _ => clear H
  | H : ?x = ?x |- _ => clear H
  | H : true = false |- _ => discriminate H
  | H : false = true |- _ => discriminate H
  | H : ?b = true -> true = false |- _ =>
      assert (b = false) by (destruct b; [discriminate (H eq_refl)|reflexivity]); clear H
  | H : ?b = true -> false = true |- _ =>
      assert (b = false) by (destruct b; [discriminate (H eq_refl)|reflexivity]); clear H
  | H : ?b = false -> true = false |- _ =>
      assert (b = true) by (destruct b; [reflexivity|discriminate (H eq_refl)]); clear H
  | H : ?b = false -> false = true |- _ =>
      assert (b = true) by (destruct b; [reflexivity|discriminate (H eq_refl)]); clear H
  | E : ?b = true, F : ?b = false |- _ => congruence
  | H : ?b = true -> _, E : ?b = true |- _ => specialize (H E)
  | H : ?b = false -> _, E : ?b = false |- _ => specialize (H E)
  | H : 0 < 1 -> _ |- _ => specialize (H Nat.lt_0_1)
  | H : ?b = true -> _, E : ?b = false |- _ => clear H
  | H : ?b = false -> _, E : ?b = true |- _ => clear H
  end.
Ltac facts_only :=
  repeat match goal with
  | H : _ -> _ |- _ => match type of H with forall _ : ?A, _ => match type of A with Prop => clear H end end
  end.
Ltac flag_goal :=
  intros; simp_flags;
  first [assumption | reflexivity | solve [auto 4] | facts_only; lia
    | solve [match goal with p : destroy_phase |- _ => destruct p; simpl in *; simp_flags; first [discriminate | facts_only; lia] end]
    | solve [facts_only; match goal with p : callback_phase |- _ => destruct p; simpl in *; try discriminate; lia end]
    | solve [match goal with u : user_phase |- _ => destruct u; simpl in *; simp_flags; first [discriminate | assumption | facts_only; lia] end]
    | idtac].
Section inv.
Context {X E : Type}.
Implicit Types (e ex : E) (vs : list X) (throws : option E) (st : @shared_state X E) (sy : @system X E).

(** ** Rights and claims *)
Definition owns (u : @user_phase E) : bool :=
  match u with
  | Spawning | Unconnected | Connected | Looking | DirectRequest | DirectStore | Emplacing | CalledInline
  | Consuming | DeliveringNow | DirectDeliver | DirectTell | DeliveringStopped | TellingStopped | Failing _ _ => true
  | _ => false
  end.
Definition user_right (u : @user_phase E) : nat := if owns u then 1 else 0.
Definition user_tells (u : @user_phase E) : nat :=
  match u with TellingNow | DirectTell | TellingStopped | TellingError _ _ => 1 | _ => 0 end.
Definition source_right (p : @source_phase X E) : nat := match p with Delivering => 1 | _ => 0 end.
Definition source_tells (p : @source_phase X E) : nat := match p with Telling => 1 | _ => 0 end.
Definition callback_right (p : callback_phase) : nat := match p with CancelDelivering => 1 | _ => 0 end.
Definition callback_tells (p : callback_phase) : nat := match p with CancelTelling => 1 | _ => 0 end.
Definition rights sy : nat :=
  user_right (user sy) + Nat.b2n (consumer_cb (shared sy)) + source_right (source sy) + callback_right (callback sy).
Definition tells sy : nat :=
  user_tells (user sy) + source_tells (source sy) + callback_tells (callback sy) + length (log sy).

(** ** Phases *)
Definition running st : bool := match phase st with Running => true | Done => false end.
Definition starting_source (p : @source_phase X E) : bool :=
  match p with Beginning | SpawnFuture.Installing | Connecting => true | _ => false end.
Definition kept_source (p : @source_phase X E) : bool :=
  match p with SpawnFuture.Installing | Connecting | Operating => true | _ => false end.
Definition stored_source (p : @source_phase X E) : bool :=
  match p with Delivering | Telling | Releasing | Over => true | _ => false end.
Definition over_source (p : @source_phase X E) : bool := match p with Over | Beginning => true | _ => false end.
Definition spawning (u : @user_phase E) : bool := match u with Spawning => true | _ => false end.
Definition early (u : @user_phase E) : bool :=
  match u with
  | Spawning | Unconnected | Connected | Looking | DirectRequest | DirectStore | Emplacing | Dropping | DropRequest | Gone => true
  | _ => false
  end.
Definition stateless (u : @user_phase E) : bool :=
  match u with Spawning | Unconnected | Connected | Looking | Dropping | DropRequest | Gone => true | _ => false end.
Definition unconsumed (u : @user_phase E) : bool :=
  match u with
  | Spawning | Unconnected | Connected | Looking | DirectRequest | DirectStore | Emplacing | CalledInline
  | Consuming | Failing _ _ | TellingError _ _ | FailAbandon | Dropping => true
  | _ => false
  end.
Definition dropped (u : @user_phase E) : bool := match u with Dropping | DropRequest | Gone => true | _ => false end.
Definition gone (u : @user_phase E) : bool := match u with Gone => true | _ => false end.
Definition returned (u : @user_phase E) : bool := match u with Returned => true | _ => false end.
Definition inline (u : @user_phase E) : bool := match u with CalledInline => true | _ => false end.
Definition impossible (u : @user_phase E) : bool :=
  match u with DirectDeliver | DirectTell | DeliveringStopped | TellingStopped => true | _ => false end.
Definition delivers_now (u : @user_phase E) : bool := match u with DeliveringNow | TellingNow => true | _ => false end.
Definition failing (u : @user_phase E) : bool :=
  match u with TellingError _ _ | FailAbandon | FailRequest => true | _ => false end.
Definition not_called (p : callback_phase) : bool := match p with NotCalled => true | _ => false end.
Definition not_destroyed (p : destroy_phase) : bool := match p with NotDestroyed => true | _ => false end.
Definition unstarted_destroy (p : destroy_phase) : bool := match p with AbandonLock | AbandonRequest => true | _ => false end.
Definition at_lock (p : destroy_phase) : bool := match p with AbandonLock => true | _ => false end.
Definition claiming (p : destroy_phase) : bool := match p with Claiming => true | _ => false end.
Definition claimed (p : destroy_phase) : bool := match p with Detaching | Resetting | Stopping => true | _ => false end.
Definition resets (p : destroy_phase) : bool := match p with Detaching | Resetting => true | _ => false end.
Definition destroyed (p : destroy_phase) : bool := match p with Destroyed => true | _ => false end.

(** ** The invariant: the flags *)
Record flags_ok sy : Prop := FlagsOk {
  fl_rights : rights sy <= 1;
  fl_live : active (cons sy) = true -> dropped (user sy) = false -> rights sy = 1;
  fl_tells : tells sy <= 1;
  fl_active : active (cons sy) = true -> tells sy = 0;
  fl_claimed : claimed (destroyer sy) = true -> tells sy = 0;
  fl_claimed_by : claimed (destroyer sy) = true -> active (cons sy) = false;
  fl_destroyed_by : destroyed (destroyer sy) = true -> active (cons sy) = false;
  fl_inactive : active (cons sy) = false -> claimed (destroyer sy) = false -> destroyed (destroyer sy) = false -> tells sy = 1;
  fl_source_done : 0 < source_right (source sy) + source_tells (source sy) -> running (shared sy) = false;
  fl_callback_done : 0 < callback_right (callback sy) + callback_tells (callback sy) -> running (shared sy) = false;
  fl_user_done : delivers_now (user sy) = true -> running (shared sy) = false;
  fl_registered : consumer_cb (shared sy) = true -> running (shared sy) = true;
  fl_registered_user : consumer_cb (shared sy) = true -> returned (user sy) = true;
  fl_taken : unconsumed (user sy) = true -> consumer_taken (shared sy) = false;
  fl_stored : stored_source (source sy) = true -> running (shared sy) = false;
  fl_starting : starting_source (source sy) = true -> spawning (user sy) = true;
  fl_kept : kept_source (source sy) = true -> keepalive (shared sy) = true;
  fl_over : over_source (source sy) = true -> keepalive (shared sy) = false;
  fl_user : impossible (user sy) = false;
  fl_owns : owns (user sy) = true -> active (cons sy) = true;
  fl_stateless : has_state (cons sy) = true -> stateless (user sy) = false;
  fl_state_used : has_state (cons sy) = true -> active (cons sy) = false ->
    user_tells (user sy) + source_tells (source sy) + callback_tells (callback sy) = 1;
  fl_stateful : active (cons sy) = true -> stateless (user sy) = false -> has_state (cons sy) = true;
  fl_early_callback : early (user sy) = true -> stop_callback (cons sy) = false;
  fl_early : early (user sy) = true -> not_called (callback sy) = true;
  fl_inline : inline (user sy) = true -> not_called (callback sy) = false;
  fl_callback_state : stop_callback (cons sy) = true -> resets (destroyer sy) = false -> has_state (cons sy) = true;
  fl_unstarted : unstarted_destroy (destroyer sy) = true -> gone (user sy) = true;
  fl_started : claimed (destroyer sy) = true -> gone (user sy) = false;
  fl_lock : at_lock (destroyer sy) = true -> consumer_taken (shared sy) = false;
  fl_destroyer : not_destroyed (destroyer sy) = false -> gone (user sy) = false -> returned (user sy) = false -> length (log sy) = 1;
  fl_gone_stop : running (shared sy) = true -> gone (user sy) = true -> unstarted_destroy (destroyer sy) = false ->
    stop_requested (shared sy) = true;
  fl_destroyed_stop : running (shared sy) = true -> destroyed (destroyer sy) = true -> failing (user sy) = false ->
    stop_requested (shared sy) = true;
  fl_told_stop : running (shared sy) = true -> length (log sy) = 1 -> failing (user sy) = false ->
    stop_requested (shared sy) = true;
}.

Lemma init_flags b : flags_ok (init b).
Proof. destruct b; split; unfold rights, tells; simpl; intros; lia. Qed.

(** Open up a state and the invariant; what is left is arithmetic. *)
Ltac flags_step :=
  match goal with
  | H : flags_ok _ |- _ => destruct H
  end;
  unfold rights, tells, running, user_right in *; simpl in *; simp_flags;
  split; unfold rights, tells, running, user_right; simpl; rewrite ?length_app; simpl; flag_goal.

Lemma source_flags i throws sy sy' : flags_ok sy -> source_step i throws sy = Some sy' -> flags_ok sy'.
Proof.
  intros Hok Hs. destruct sy as [[ph tk rs cb sr es ka] [a hs sc] src clb u d out can rf lg].
  destruct src as [| | | |alt t|alt t| | | |]; unfold source_step in Hs; simpl in Hs.
  - injection Hs as <-. flags_step.
  - destruct i; injection Hs as <-; flags_step.
  - destruct throws; injection Hs as <-; flags_step.
  - done.
  - injection Hs as <-. flags_step.
  - unfold on_state, complete_store, after in Hs. simpl in Hs. unfold recorded in Hs.
    destruct ph; simpl in Hs; [|injection Hs as <-; flags_step].
    destruct cb; injection Hs as <-; destruct t; flags_step.
  - unfold claim in Hs. simpl in Hs. destruct a; injection Hs as <-; flags_step.
  - injection Hs as <-. flags_step.
  - injection Hs as <-. flags_step.
  - done.
Qed.

Lemma callback_flags sy sy' : flags_ok sy -> callback_step sy = Some sy' -> flags_ok sy'.
Proof.
  intros Hok Hs. destruct sy as [[ph tk rs cb sr es ka] [a hs sc] src clb u d out can rf lg].
  destruct clb; unfold callback_step, cancel_request, cancel_lock, on_state, cancel_store, recorded, after in Hs;
    simpl in Hs.
  - done.
  - injection Hs as <-. flags_step.
  - destruct ph; simpl in Hs; [destruct cb|]; injection Hs as <-; flags_step.
  - unfold claim in Hs. simpl in Hs. destruct a; injection Hs as <-; flags_step.
  - injection Hs as <-. flags_step.
  - done.
Qed.

Lemma user_flags l inl throws sy sy' : flags_ok sy -> user_step l inl throws sy = Some sy' -> flags_ok sy'.
Proof.
  intros Hok Hs. destruct sy as [[ph tk rs cb sr es ka] [a hs sc] src clb u d out can rf lg].
  destruct u; unfold user_step, cancel_request, cancel_lock, on_state, cancel_store, abandon_unconsumed, consume,
    recorded, after in Hs; simpl in Hs; try done.
  - destruct l; injection Hs as <-; flags_step.
  - injection Hs as <-. flags_step.
  - destruct ph; simpl in Hs; [destruct cb|]; injection Hs as <-; flags_step.
  - by destruct Hok.
  - by destruct Hok.
  - destruct throws, inl; injection Hs as <-; flags_step.
  - destruct clb; try done. injection Hs as <-. flags_step.
  - destruct throws, tk, ph; simpl in Hs; injection Hs as <-; flags_step.
  - unfold claim in Hs. simpl in Hs. destruct a; injection Hs as <-; flags_step.
  - injection Hs as <-. flags_step.
  - by destruct Hok.
  - by destruct Hok.
  - unfold claim in Hs. simpl in Hs. destruct a, consuming; injection Hs as <-; flags_step.
  - destruct consuming; injection Hs as <-; flags_step.
  - destruct tk, ph; simpl in Hs; injection Hs as <-; flags_step.
  - injection Hs as <-. flags_step.
  - destruct tk, ph; simpl in Hs; injection Hs as <-; flags_step.
  - injection Hs as <-. flags_step.
Qed.

(** While the operation runs, only an exception of [start] is told. *)
Lemma told_running sy :
  flags_ok sy -> running (shared sy) = true -> failing (user sy) = false -> tells sy = length (log sy).
Proof.
  intros Hok Hr Hf. pose proof (fl_source_done _ Hok) as Hs. pose proof (fl_callback_done _ Hok) as Hc.
  pose proof (fl_user_done _ Hok) as Hu. pose proof (fl_user _ Hok) as Hi. rewrite Hr in Hs, Hc, Hu. unfold tells.
  assert (source_tells (source sy) = 0) as -> by (destruct (source sy); try done; discriminate (Hs Nat.lt_0_1)).
  assert (callback_tells (callback sy) = 0) as -> by (destruct (callback sy); try done; discriminate (Hc Nat.lt_0_1)).
  destruct (user sy); try done; discriminate (Hu eq_refl).
Qed.

Lemma destroy_flags sy sy' : flags_ok sy -> destroy_step sy = Some sy' -> flags_ok sy'.
Proof.
  intros Hok Hs. destruct sy as [[ph tk rs cb sr es ka] [a hs sc] src clb u d out can rf lg].
  destruct d; unfold destroy_step, on_state, abandon_unconsumed, after in Hs; simpl in Hs; try done.
  - destruct tk, ph; simpl in Hs; injection Hs as <-; flags_step.
  - injection Hs as <-. flags_step.
  - pose proof (told_running _ Hok) as Htold. unfold tells, running in Htold. simpl in Htold.
    destruct a, hs; injection Hs as <-; flags_step; rewrite Htold in fl_inactive0 by done; auto.
  - injection Hs as <-. flags_step.
  - injection Hs as <-. flags_step.
  - injection Hs as <-. flags_step.
Qed.

Lemma outside_flags sy sy' :
  flags_ok sy -> (exists c, complete c sy = Some sy') \/ (exists r ex, complete_moving r ex sy = Some sy') \/
    env_stops sy = Some sy' \/ token_stops sy = Some sy' -> flags_ok sy'.
Proof.
  intros Hok Hs. destruct sy as [[ph tk rs cb sr es ka] [a hs sc] src clb u d out can rf lg].
  destruct Hs as [[c Hs]|[(r & ex & Hs)|[Hs|Hs]]];
    unfold complete, complete_moving, env_stops, token_stops, on_state in Hs; simpl in Hs.
  - destruct src; try done. injection Hs as <-. flags_step.
  - destruct src; try done. injection Hs as <-. flags_step.
  - destruct es; try done. injection Hs as <-. flags_step.
  - destruct clb, sc; try done. injection Hs as <-. flags_step.
Qed.

Lemma use_flags sy sy' :
  flags_ok sy -> spawned sy = Some sy' \/ drop sy = Some sy' \/ (exists throws, connect throws sy = Some sy') \/
    start sy = Some sy' \/ destroy_op sy = Some sy' -> flags_ok sy'.
Proof.
  intros Hok Hs. destruct sy as [[ph tk rs cb sr es ka] [a hs sc] src clb u d out can rf lg].
  destruct Hs as [Hs|[Hs|[[throws Hs]|[Hs|Hs]]]];
    unfold spawned, drop, connect, start, destroy_op in Hs; simpl in Hs.
  - destruct u; try done. destruct src; try done; injection Hs as <-; flags_step.
  - destruct u; try done. injection Hs as <-. flags_step.
  - destruct u; try done. injection Hs as <-. destruct throws; flags_step.
  - destruct u; try done. injection Hs as <-. flags_step.
  - destruct d; try done. assert (exists u' d', (u' = u /\ d' = Claiming /\ (u = Returned \/ 0 < length lg) \/
      u' = Gone /\ u = Connected /\ d' = AbandonLock) /\
      sy' = System (SharedState ph tk rs cb sr es ka) (Consumer a hs sc) src clb u' d' out can rf lg) as (u' & d' & Hu & ->).
    { destruct u; try (destruct lg; [done|]; injection Hs as <-; do 2 eexists; split; [left; split_and!; [done|done|right; simpl; lia]|done]).
      - injection Hs as <-. do 2 eexists. split; [by right|done].
      - injection Hs as <-. do 2 eexists. split; [left; split_and!; auto|done]. }
    destruct Hu as [(-> & -> & [->|Hlg])|(-> & -> & ->)]; flags_step.
Qed.

Lemma step_flags sy sy' : flags_ok sy -> step sy sy' -> flags_ok sy'.
Proof.
  intros Hok Hs. destruct Hs as [sy' [i throws sy1 Hs|sy1 Hs|l inl throws sy1 Hs|sy1 Hs]| | | | | | | | |].
  - by eapply source_flags.
  - by eapply callback_flags.
  - by eapply user_flags.
  - by eapply destroy_flags.
  - eapply outside_flags; [done|left; by eexists].
  - eapply outside_flags; [done|right; left; by do 2 eexists].
  - eapply outside_flags; [done|by do 2 right; left].
  - eapply outside_flags; [done|by do 3 right].
  - eapply use_flags; [done|by left].
  - eapply use_flags; [done|by right; left].
  - eapply use_flags; [done|do 2 right; left; by eexists].
  - eapply use_flags; [done|by do 3 right; left].
  - eapply use_flags; [done|by do 4 right].
Qed.
End inv.

(** ** spawn_future: the properties

    What the results and the signals are, who keeps the state alive, and that
    everything comes to an end. *)

Section props.
Context {X E : Type}.
Implicit Types (e ex : E) (vs : list X) (throws : option E) (st : @shared_state X E) (sy : @system X E).

(** ** The invariant: results and signals *)
Definition unrefused (u : @user_phase E) : bool :=
  match u with
  | Spawning | Unconnected | Connected | Looking | DirectRequest | DirectStore | Emplacing | CalledInline | Consuming => true
  | _ => false
  end.
Definition stopping_callback (p : callback_phase) : bool := match p with CancelStoring => true | _ => false end.
Definition stopping_user (u : @user_phase E) : bool := match u with DirectStore => true | _ => false end.
Definition failure (u : @user_phase E) : option E :=
  match u with Failing ex _ | TellingError ex _ => Some ex | _ => None end.
Definition storing (p : @source_phase X E) : option (@result X E) :=
  match p with ResetEnv alt _ | Storing alt _ => Some alt | _ => None end.

Record data_ok sy : Prop := DataOk {
  da_running : running (shared sy) = true -> res (shared sy) = Monostate /\ outcome sy = None /\ cancelled sy = false;
  da_done : running (shared sy) = false ->
    cancelled sy = true /\ outcome sy = None /\ res (shared sy) = StoppedResult /\ stop_requested (shared sy) = true \/
    cancelled sy = false /\ outcome sy = Some (res (shared sy)) /\ res (shared sy) <> Monostate;
  da_alt alt : storing (source sy) = Some alt -> alt <> Monostate;
  da_fail ex : failure (user sy) = Some ex -> refused sy = Some ex;
  da_unrefused : unrefused (user sy) = true -> refused sy = None;
  da_callback : stopping_callback (callback sy) = true -> stop_requested (shared sy) = true;
  da_user : stopping_user (user sy) = true -> stop_requested (shared sy) = true;
  da_log sig : sig ∈ log sy ->
    running (shared sy) = false /\ sig = deliver_to (res (shared sy)) \/
    exists ex, refused sy = Some ex /\ sig = SetError ex;
}.

Lemma init_data b : data_ok (init b).
Proof. destruct b; split; simpl; intros; simplify_eq; try done; by apply not_elem_of_nil in H. Qed.

Ltac step_cases Hs :=
  repeat match type of Hs with
  | context [match ?x with _ => _ end] => is_var x; destruct x; simpl in Hs; try done
  end; try injection Hs as <-.
Ltac data_step :=
  match goal with H : data_ok _ |- _ => destruct H end;
  unfold running in *; simpl in *; simp_flags;
  split; unfold running; simpl; intros; simplify_eq; try done; try solve [auto 3];
  try match goal with
  | H : _ ∈ _ ++ [_] |- _ => apply elem_of_app in H as [H|H%list_elem_of_singleton]; [|subst]
  end; simp_flags; try done; try solve [auto 3];
  try (match goal with
  | Hl : forall sig, sig ∈ _ -> _, H : _ ∈ _ |- _ => destruct (Hl _ H) as [[? ?]|?]
  end; solve [discriminate|left; split; congruence|by right]);
  destruct_ex; try solve [intuition (congruence || eauto)].

Lemma source_data i throws sy sy' :
  flags_ok sy -> data_ok sy -> source_step i throws sy = Some sy' -> data_ok sy'.
Proof.
  intros Hf Hok Hs. pose proof (fl_source_done _ Hf) as Hdone. clear Hf.
  destruct sy as [[ph tk rs cb sr es ka] [a hs sc] src clb u d out can rf lg].
  unfold source_step, claim, on_state, complete_store, recorded, after in Hs. simpl in Hs, Hdone.
  destruct ph, src as [| | | |alt t|alt t| | | |]; simpl in Hs, Hdone; try done; step_cases Hs.
  all: try pose proof (da_alt _ Hok _ eq_refl).
  all: data_step.
Qed.

Lemma callback_data sy sy' : flags_ok sy -> data_ok sy -> callback_step sy = Some sy' -> data_ok sy'.
Proof.
  intros Hf Hok Hs. pose proof (fl_callback_done _ Hf) as Hdone. clear Hf.
  destruct sy as [[ph tk rs cb sr es ka] [a hs sc] src clb u d out can rf lg].
  unfold callback_step, cancel_request, cancel_lock, on_state, cancel_store, claim, recorded, after in Hs; simpl in Hs.
  destruct ph, clb; simpl in Hs, Hdone; try done; step_cases Hs; data_step.
Qed.

Lemma owner_untold sy : flags_ok sy -> owns (user sy) = true -> log sy = [].
Proof.
  intros Hf Ho. pose proof (fl_active _ Hf (fl_owns _ Hf Ho)) as Ht. unfold tells in Ht.
  apply length_zero_iff_nil. lia.
Qed.

Lemma user_data l inl throws sy sy' :
  flags_ok sy -> data_ok sy -> user_step l inl throws sy = Some sy' -> data_ok sy'.
Proof.
  intros Hf Hok Hs. pose proof (fl_user_done _ Hf) as Hdone. pose proof (fl_user _ Hf) as Himp.
  pose proof (owner_untold _ Hf) as Hnil. clear Hf.
  destruct sy as [[ph tk rs cb sr es ka] [a hs sc] src clb u d out can rf lg].
  unfold user_step, cancel_request, cancel_lock, on_state, cancel_store, abandon_unconsumed, consume, claim,
    recorded, after in Hs; simpl in Hs.
  destruct ph, u; simpl in Hs, Hdone, Himp, Hnil; try done; step_cases Hs;
    try (specialize (Hnil eq_refl); subst lg); data_step; by apply not_elem_of_nil in H.
Qed.

Lemma destroy_data sy sy' : data_ok sy -> destroy_step sy = Some sy' -> data_ok sy'.
Proof.
  intros Hok Hs. destruct sy as [[ph tk rs cb sr es ka] [a hs sc] src clb u d out can rf lg].
  unfold destroy_step, on_state, abandon_unconsumed, after in Hs; simpl in Hs.
  destruct ph, d; simpl in Hs; try done; step_cases Hs; data_step.
Qed.

Lemma step_data sy sy' : flags_ok sy -> data_ok sy -> step sy sy' -> data_ok sy'.
Proof.
  intros Hf Hok [sy1 [i throws sy2 Hs|sy2 Hs|l inl throws sy2 Hs|sy2 Hs]|c sy1 Hs|r ex sy1 Hr Hs|sy1 Hs|sy1 Hs|sy1 Hs|sy1 Hs
    |throws sy1 Hs|sy1 Hs|sy1 Hs].
  1: by eapply source_data. 1: by eapply callback_data. 1: by eapply user_data. 1: by eapply destroy_data.
  all: destruct sy as [[ph tk rs cb sr es ka] [a hs sc] src clb u d out can rf lg]; clear Hf.
  - unfold complete in Hs. simpl in Hs. destruct src; try done. injection Hs as <-.
    assert (alternative c <> Monostate) by (by destruct c as [? []|? []|]). data_step.
  - unfold complete_moving in Hs. simpl in Hs. destruct src; try done. injection Hs as <-. data_step.
  - unfold env_stops, on_state in Hs. simpl in Hs. destruct es; try done. injection Hs as <-. destruct ph; data_step.
  - unfold token_stops in Hs. simpl in Hs. destruct clb, sc; try done. injection Hs as <-. data_step.
  - unfold spawned in Hs. simpl in Hs. destruct u; try done. destruct src; try done; injection Hs as <-; data_step.
  - unfold drop in Hs. simpl in Hs. destruct u; try done. injection Hs as <-. data_step.
  - unfold connect in Hs. simpl in Hs. destruct u, throws; try done; injection Hs as <-; data_step.
  - unfold start in Hs. simpl in Hs. destruct u; try done. injection Hs as <-. data_step.
  - unfold destroy_op in Hs. simpl in Hs. destruct d; try done.
    destruct u; try (destruct lg; try done); injection Hs as <-; data_step.
Qed.

Lemma reachable_both b sy : reachable b sy -> flags_ok sy /\ data_ok sy.
Proof.
  induction 1 as [|sy sy' Hr [Hf Hd] Hs]; [split; [apply init_flags|apply init_data]|].
  split; [by eapply step_flags|by eapply step_data].
Qed.

(** ** The steps that are left *)
Definition source_weight (p : @source_phase X E) : nat :=
  match p with
  | Beginning => 9 | SpawnFuture.Installing => 8 | Connecting => 7 | ResetEnv _ _ => 6 | Storing _ _ => 5
  | Delivering => 4 | Telling => 3 | Releasing => 1 | Operating | Over => 0
  end.
Definition callback_weight (p : callback_phase) : nat :=
  match p with Requesting => 4 | CancelStoring => 3 | CancelDelivering => 2 | CancelTelling => 1 | _ => 0 end.
Definition user_weight (u : @user_phase E) : nat :=
  match u with
  | Looking => 16 | DirectRequest => 15 | DirectStore => 14 | DirectDeliver => 13 | DirectTell => 12 | Emplacing => 11
  | CalledInline => 6 | Consuming => 5 | Failing _ _ => 4 | TellingError _ _ => 3 | FailAbandon => 2 | FailRequest => 1
  | DeliveringNow | DeliveringStopped | Dropping => 2 | TellingNow | TellingStopped | DropRequest => 1
  | Spawning | Unconnected | Connected | Returned | Gone => 0
  end.
Definition destroy_weight (p : destroy_phase) : nat :=
  match p with
  | AbandonLock => 6 | AbandonRequest => 5 | Claiming => 4 | Detaching => 3 | Resetting => 2 | Stopping => 1
  | NotDestroyed | Destroyed => 0
  end.
Definition work sy : nat :=
  source_weight (source sy) + callback_weight (callback sy) + user_weight (user sy) + destroy_weight (destroyer sy).

Lemma spawn_internal_work sy sy' : internal sy sy' -> work sy' < work sy.
Proof.
  intros Hs. destruct sy as [[ph tk rs cb sr es ka] [a hs sc] src clb u d out can rf lg].
  destruct Hs as [i throws sy1 Hs|sy1 Hs|l inl throws sy1 Hs|sy1 Hs].
  - unfold source_step, claim, on_state, complete_store, recorded, after in Hs. simpl in Hs.
    destruct ph, src; simpl in Hs; try done; step_cases Hs; unfold work; simpl; lia.
  - unfold callback_step, cancel_request, cancel_lock, on_state, cancel_store, claim, recorded, after in Hs; simpl in Hs.
    destruct ph, clb; simpl in Hs; try done; step_cases Hs; unfold work; simpl; lia.
  - unfold user_step, cancel_request, cancel_lock, on_state, cancel_store, abandon_unconsumed, consume, claim,
      recorded, after in Hs; simpl in Hs.
    destruct ph, u; simpl in Hs; try done; step_cases Hs; unfold work; simpl; lia.
  - unfold destroy_step, on_state, abandon_unconsumed, after in Hs; simpl in Hs.
    destruct ph, d; simpl in Hs; try done; step_cases Hs; unfold work; simpl; lia.
Qed.

Lemma spawn_work_bound sy : work sy <= 35.
Proof. unfold work. destruct (source sy), (callback sy), (destroyer sy), (user sy); simpl; lia. Qed.

Lemma spawn_reachable_internal b n sy sy' :
  reachable b sy -> nsteps internal n sy sy' -> reachable b sy' /\ n + work sy' <= work sy.
Proof.
  intros Hr Hn. induction Hn as [sy|n sy sy1 sy' Hs Hn IH]; [split; [done|lia]|].
  destruct IH as [? ?]; [eapply reachable_step; [done|by apply step_internal]|].
  pose proof (spawn_internal_work _ _ Hs). split; [done|lia].
Qed.

(** ** Nothing is stuck *)
Definition settled sy : bool :=
  match source sy with Operating | Over => true | _ => false end &&
  match callback sy with NotCalled | CallbackOver => true | _ => false end &&
  match user sy with Spawning | Unconnected | Connected | Returned | Gone => true | _ => false end &&
  match destroyer sy with NotDestroyed | Destroyed => true | _ => false end.

Lemma spawn_progress sy : flags_ok sy -> settled sy = false -> exists sy', internal sy sy'.
Proof.
  intros Hf Hs. pose proof (fl_inline _ Hf) as Hi.
  destruct (source_step NoToken None sy) as [sy1|] eqn:E1; [exists sy1; by eapply internal_source|].
  destruct (callback_step sy) as [sy1|] eqn:E2; [exists sy1; by apply internal_callback|].
  destruct (user_step NotPossible false None sy) as [sy1|] eqn:E3; [exists sy1; by eapply internal_user|].
  destruct (destroy_step sy) as [sy1|] eqn:E4; [exists sy1; by apply internal_destroy|]. exfalso. clear Hf.
  destruct sy as [[ph tk rs cb sr es ka] [a hs sc] src clb u d out can rf lg].
  unfold settled, source_step, callback_step, user_step, destroy_step, cancel_request, cancel_lock, on_state,
    complete_store, cancel_store, abandon_unconsumed, consume, after in *. simpl in *.
  destruct src; simpl in *; try (destruct ph; discriminate); destruct clb; simpl in *; try (destruct ph; discriminate);
    destruct d; simpl in *; try (destruct tk, ph; discriminate); destruct u; simpl in *; try discriminate;
    try (destruct tk, ph; discriminate); by discriminate (Hi eq_refl).
Qed.

(** ** The state's lifetime *)
Lemma source_held sy : flags_ok sy -> source sy <> Over -> held sy = true.
Proof.
  intros Hf Hs. pose proof (fl_starting _ Hf) as H1. pose proof (fl_kept _ Hf) as H2. unfold held.
  destruct (source sy); try done; simpl in *; rewrite ?H2, ?orb_true_r by done; try done.
  destruct (user sy); try discriminate (H1 eq_refl). simpl. by rewrite !orb_true_r.
Qed.

Lemma settled_released sy :
  flags_ok sy -> settled sy = true -> source sy = Over -> log sy <> [] \/ user sy = Gone \/ destroyer sy = Destroyed ->
  user sy = Returned \/ user sy = Gone -> held sy = false.
Proof.
  intros Hf Hs Ho Hend Hu. unfold settled in Hs. rewrite Ho in Hs. pose proof (fl_over _ Hf) as Hk. rewrite Ho in Hk.
  assert (has_state (cons sy) = false) as Hst.
  { apply not_true_iff_false. intros Hh. pose proof (fl_stateless _ Hf Hh) as Hless.
    assert (active (cons sy) = true) as Ha.
    { apply not_false_iff_true. intros Ha. pose proof (fl_state_used _ Hf Hh Ha) as Ht. rewrite Ho in Ht.
      destruct (callback sy); try done; destruct Hu as [Hu|Hu]; rewrite Hu in Ht; done. }
    destruct Hend as [Hl|[Hg|Hd]].
    - pose proof (fl_active _ Hf Ha) as Ht. unfold tells in Ht. destruct (log sy); [done|simpl in Ht; lia].
    - by rewrite Hg in Hless.
    - pose proof (fl_destroyed_by _ Hf) as Hx. rewrite Hd, Ha in Hx. by specialize (Hx eq_refl). }
  unfold held. rewrite (Hk eq_refl), Ho, Hst. destruct (callback sy); try done; destruct (destroyer sy);
    try (by rewrite ?andb_false_r in Hs); by destruct Hu as [-> | ->].
Qed.

(** What is settled is told, or the operation does not end. *)
Lemma settled_told sy :
  flags_ok sy -> settled sy = true -> user sy = Returned -> destroyer sy = NotDestroyed ->
  phase (shared sy) = Done -> log sy <> [].
Proof.
  intros Hf Hs Hu Hd Hp Hl. unfold settled in Hs. rewrite Hu, Hd in Hs.
  destruct (active (cons sy)) eqn:Ha.
  - pose proof (fl_live _ Hf Ha) as Hr. unfold rights in Hr. rewrite Hu in Hr. specialize (Hr eq_refl).
    assert (consumer_cb (shared sy) = false) as Hcb.
    { apply not_true_iff_false. intros Hc. pose proof (fl_registered _ Hf Hc) as Hx. unfold running in Hx. by rewrite Hp in Hx. }
    rewrite Hcb in Hr. destruct (source sy), (callback sy); done.
  - pose proof (fl_inactive _ Hf Ha) as Ht. rewrite Hd in Ht. specialize (Ht eq_refl eq_refl). unfold tells in Ht.
    rewrite Hu, Hl in Ht. destruct (source sy), (callback sy); done.
Qed.

(** C17: [spawn_future] gives its result to one consumer, once, for all orders of the
    actions of the operation, the consumer, the stop tokens and the destructors,
    and whatever throws.  At most one signal is sent; it is the exception that
    [start] met, or the result: what the operation completed with, unless a stop
    of the consumer came first, which is then passed on to the operation.  The
    state, with its association to the scope, lives as long as the operation.
    The threads make at most 35 steps before the operation runs or everything is
    settled; a consumer that was started and not destroyed then has its signal if
    there is a result, an operation nobody waits for has been asked to stop, and
    when it is over, nothing refers to the state any more. *)
Theorem spawn_future_delivers b sy :
  reachable b sy ->
  length (log sy) <= 1 /\
  (forall sig, sig ∈ log sy -> phase (shared sy) = Done /\ sig = deliver_to (res (shared sy)) \/
    exists ex, refused sy = Some ex /\ sig = SetError ex) /\
  (phase (shared sy) = Done ->
    cancelled sy = true /\ res (shared sy) = StoppedResult /\ stop_requested (shared sy) = true \/
    cancelled sy = false /\ outcome sy = Some (res (shared sy))) /\
  (source sy <> Over -> held sy = true) /\
  (forall n sy', nsteps internal n sy sy' -> n <= 35 /\
    ((exists sy'', internal sy' sy'') \/
     (user sy' = Returned -> destroyer sy' = NotDestroyed -> phase (shared sy') = Done -> log sy' <> []) /\
     (user sy' = Gone \/ destroyer sy' = Destroyed ->
       (phase (shared sy') = Running -> stop_requested (shared sy') = true)) /\
     (source sy' = Over -> user sy' = Gone \/ user sy' = Returned /\ (log sy' <> [] \/ destroyer sy' = Destroyed) ->
       held sy' = false))).
Proof.
  intros Hr. destruct (reachable_both _ _ Hr) as [Hf Hd]. split_and!.
  - pose proof (fl_tells _ Hf). unfold tells in *. lia.
  - intros sig Hs. destruct (da_log _ Hd sig Hs) as [[Hp ?]|?]; [left|by right]. split; [|done].
    unfold running in Hp. by destruct (phase (shared sy)).
  - intros Hp. destruct (da_done _ Hd) as [?|?]; [unfold running; by rewrite Hp|left|right]; tauto.
  - by apply source_held.
  - intros n sy' Hn. destruct (spawn_reachable_internal _ _ _ _ Hr Hn) as [Hr' Hw].
    pose proof (spawn_work_bound sy). split; [lia|]. destruct (reachable_both _ _ Hr') as [Hf' _].
    destruct (settled sy') eqn:Hs; [right|left; by apply spawn_progress]. split_and!.
    + by apply settled_told.
    + intros Hg Hp. assert (running (shared sy') = true) as Hrun by (unfold running; by rewrite Hp).
      unfold settled in Hs. destruct Hg as [Hg|Hg].
      * apply (fl_gone_stop _ Hf' Hrun); [by rewrite Hg|].
        destruct (destroyer sy'); try done; by rewrite !andb_false_r in Hs.
      * apply (fl_destroyed_stop _ Hf' Hrun); [by rewrite Hg|].
        destruct (user sy'); try done; by rewrite ?andb_false_r in Hs.
    + intros Ho Hend. apply settled_released; tauto.
Qed.
End props.

(** ** An example

    A consumer starts while the operation runs; the operation completes with a
    value. *)
Definition demo_steps : list (@system Z bool -> option (@system Z bool)) :=
  [source_step NoToken None; source_step Installed None; source_step NoToken None; spawned; connect None; start;
   user_step IsPossible false None; user_step NotPossible false None; user_step NotPossible false None;
   complete (ByValue [7%Z] None); source_step NoToken None; source_step NoToken None; source_step NoToken None;
   source_step NoToken None; source_step NoToken None].
Definition demo_future : @system Z bool :=
  run_all demo_steps (init true).

Lemma demo_future_reachable : reachable true demo_future.
Proof.
  apply (run_all_invariant (reachable true)); [|apply reachable_init]. intros f sy sy' Hf Hs Hr.
  eapply reachable_step; [exact Hr|].
  repeat (apply elem_of_cons in Hf as [->|Hf]; [first
    [by apply step_spawned|by eapply step_connect|by apply step_start|by eapply step_complete
    |apply step_internal; by eapply internal_source|apply step_internal; by eapply internal_user]|]).
  by apply not_elem_of_nil in Hf.
Qed.

Lemma spawn_future_delivers_witness :
  reachable true demo_future /\ log demo_future = [SetValue [7%Z]] /\ held demo_future = false.
Proof.
  split; [exact demo_future_reachable|]. split; [vm_compute; reflexivity|].
  destruct (spawn_future_delivers true demo_future demo_future_reachable) as (_ & _ & _ & _ & Hend).
  destruct (Hend 0 demo_future (nsteps_O _ _)) as [_ [[sy' Hs]|(_ & _ & Hh)]].
  - exfalso. destruct Hs as [i throws sy' Hs|sy' Hs|l inl throws sy' Hs|sy' Hs]; vm_compute in Hs; discriminate Hs.
  - apply Hh; [vm_compute; reflexivity|]. right. split; [vm_compute; reflexivity|]. left. vm_compute. discriminate.
Defined.
