(* ===== verification/TimerContext.v ===== *)
(** * Timers

    Models include/forge/timer_context.hpp: the list of waiting items, the worker
    that delivers them when they are due or stopped, and the operations that are
    started, stopped and destroyed in other threads.  Times are ticks of the steady
    clock.  Critical sections and atomic exchanges are the steps.  [reset] of a
    stop callback keeps it from being called; that it also waits for a call that is
    under way is left out, so the caller may go on earlier than it does.  The
    comparisons in [long double] are taken as exact. *)
From S2P Require Import Prelude.

#[local] Open Scope prog_scope.
#[local] Open Scope Z_scope.

(** ** Times *)
Definition time_max : Z := 2 ^ 63 - 1.
Definition saturating_time_difference (target now : Z) : Z := Z.max 0 (Z.min time_max (target - now)).
Definition saturating_time_add (base delay : Z) : Z :=
  if (0 <? delay) && (time_max - delay <? base) then time_max else base + delay.

(** [__when] *)
Inductive when := At (deadline : Z) | After (delay : Z).
Definition resolve_at_start (w : when) (now : Z) : Z :=
  match w with At d => d | After delay => saturating_time_add now delay end.

(** ** Items and the list of them

    [__item]: [stop_callback] tells whether its callback is registered. *)
Record item := Item { deadline : Z; stop_requested : bool; delivered : bool; stop_callback : bool }.

(** [__state] *)
Record state := State { items : list nat; stop : bool; pending : Z }.
Implicit Types (st : state) (i j : nat).

(** [enqueue], but for the notification: nothing if [push_back] throws. *)
Definition enqueue i (throws : bool) : prog state (option bool) := fun st =>
  if stop st then Some (Some false, st)
  else if throws then Some (None, st)
  else Some (Some true, State (items st ++ [i]) (stop st) (u64 (pending st + 1))).

(** The locked part of [shutdown]. *)
Definition shutdown : prog state unit := modify (fun st => State (items st) true (pending st)).

(** [items.erase] of the first position that holds [i]. *)
Fixpoint erase i (l : list nat) : list nat :=
  match l with [] => [] | j :: l' => if (j =? i)%nat then l' else j :: erase i l' end.

(** The counting of an item that is delivered or discarded: whether to wake those
    who wait for the context to be idle. *)
Definition count_done : prog state bool :=
  modify (fun st => State (items st) (stop st) (u64 (pending st - 1)));;
  n ← read pending;
  give (n =? 0).

Definition discard_item i : prog state (option bool) := fun st =>
  if existsb (fun j => (j =? i)%nat) (items st) then
    match count_done (State (erase i (items st)) (stop st) (pending st)) with
    | Some (b, st') => Some (Some b, st')
    | None => None
    end
  else Some (None, st).

(** ** The choice of the worker

    [std::min_element] by deadline, from a first element on. *)
Fixpoint min_element (best : nat * item) (l : list (nat * item)) : nat * item :=
  match l with
  | [] => best
  | x :: l' => min_element (if deadline x.2 <? deadline best.2 then x else best) l'
  end.

(** The items behind the pointers. *)
Fixpoint resolve (find_item : nat -> option item) (l : list nat) : option (list (nat * item)) :=
  match l with
  | [] => Some []
  | i :: l' =>
      match find_item i, resolve find_item l' with
      | Some it, Some l'' => Some ((i, it) :: l'')
      | _, _ => None
      end
  end.

Definition max_wait_slice : Z := 24 * 3600 * 1000000000.

(** A round of the inner loop of [run]: leave, take an item, with whether it is to
    be told that it was stopped, or wait, until some time. *)
Inductive choice := Leave | Take i (stopped : bool) | Sleep (until : option Z).
Definition choose (find_item : nat -> option item) (now : Z) : prog state choice :=
  st ← read id;
  if stop st then
    match last (items st) with
    | None => give Leave
    | Some i => modify (fun st => State (removelast (items st)) (stop st) (pending st));; give (Take i true)
    end
  else
    its ← defined (resolve find_item (items st));
    match its with
    | [] => give (Sleep None)
    | first :: rest =>
        let take i b := modify (fun st => State (erase i (items st)) (stop st) (pending st));; give (Take i b) in
        match find (fun x => stop_requested x.2) its with
        | Some x => take x.1 true
        | None =>
            let next := min_element first rest in
            if deadline next.2 <=? now then take next.1 false
            else give (Sleep (Some (now + Z.min (saturating_time_difference (deadline next.2) now) max_wait_slice)))
        end
    end.

(** ** The system

    An operation: where its [start] is (when it has returned, whether it queued the item), its item, the flag [done_], where its stop
    callback and its destructor are. *)
Inductive signal := SetValue | SetStopped.
Inductive start_phase :=
  | Connected
  | Making
  | Installing
  | CalledInline
  | Enqueueing
  | InlineReset
  | InlineComplete
  | InlineTell
  | InlineFinish
  | Returned (queued : bool)
  | Abandoned.
Inductive callback_phase := NotCalled | Requesting | Notifying | CallbackOver.
Inductive destroy_phase := Alive | Claiming | Discarding | Resetting | Waiting | Destroyed.
Record op := Op {
  when_ : when;
  starting : start_phase;
  the_item : option item;
  done : bool;
  called : callback_phase;
  dying : destroy_phase;
}.

(** The worker: before it locks, waiting until some time, delivering an item (it
    resets the callback, exchanges [done_], sends the signal, marks the item) and
    counting it. *)
Inductive worker_phase :=
  | AtLock
  | Asleep (until : option Z)
  | WorkerReset i (stopped : bool)
  | WorkerComplete i (stopped : bool)
  | WorkerTell i (stopped : bool)
  | WorkerFinish i
  | WorkerCount
  | WorkerReturned.

(** [now] is the time of the clock, [notifying] the threads in [shutdown] that have
    unlocked and not yet notified; threads in [wait] are [idle_checking] before
    they test the condition and [idle_blocked] while they sleep on it.  [log] has
    the signals with their times. *)
Record system := System {
  shared : state;
  ops : list op;
  worker : worker_phase;
  now : Z;
  notifying : nat;
  idle_checking : nat;
  idle_blocked : nat;
  log : list (nat * signal * Z);
}.
Implicit Types (sy : system) (o : op).

Definition init (start_time : Z) (whens : list when) : system :=
  System (State [] false 0) ((fun w => Op w Connected None false NotCalled Alive) <$> whens) AtLock start_time O O O [].

Definition set_shared st sy := System st (ops sy) (worker sy) (now sy) (notifying sy) (idle_checking sy) (idle_blocked sy) (log sy).
Definition set_op i o sy := System (shared sy) (<[i := o]> (ops sy)) (worker sy) (now sy) (notifying sy) (idle_checking sy) (idle_blocked sy) (log sy).
Definition set_worker w sy := System (shared sy) (ops sy) w (now sy) (notifying sy) (idle_checking sy) (idle_blocked sy) (log sy).
Definition set_notifying n sy := System (shared sy) (ops sy) (worker sy) (now sy) n (idle_checking sy) (idle_blocked sy) (log sy).
Definition set_idle c b sy := System (shared sy) (ops sy) (worker sy) (now sy) (notifying sy) c b (log sy).
Definition add_log i sig sy :=
  System (shared sy) (ops sy) (worker sy) (now sy) (notifying sy) (idle_checking sy) (idle_blocked sy)
    (log sy ++ [(i, sig, now sy)]).
Definition set_now t sy := System (shared sy) (ops sy) (worker sy) t (notifying sy) (idle_checking sy) (idle_blocked sy) (log sy).

Definition set_starting p o := Op (when_ o) p (the_item o) (done o) (called o) (dying o).
Definition set_item it o := Op (when_ o) (starting o) it (done o) (called o) (dying o).
Definition set_done o := Op (when_ o) (starting o) (the_item o) true (called o) (dying o).
Definition set_called c o := Op (when_ o) (starting o) (the_item o) (done o) c (dying o).
Definition set_dying d o := Op (when_ o) (starting o) (the_item o) (done o) (called o) d.

Definition set_callback b (it : item) := Item (deadline it) (stop_requested it) (delivered it) b.
Definition set_delivered (it : item) := Item (deadline it) (stop_requested it) true (stop_callback it).
Definition request_stop (it : item) := Item (deadline it) true (delivered it) (stop_callback it).
Definition on_item (f : item -> item) o := set_item (f <$> the_item o) o.

(** [cv.notify_all], and [cv_wait.notify_all]. *)
Definition notify sy : system := match worker sy with Asleep _ => set_worker AtLock sy | _ => sy end.
Definition notify_idle (b : bool) sy : system :=
  if b then set_idle (idle_checking sy + idle_blocked sy) O sy else sy.

Definition find_item sy i : option item := match ops sy !! i with Some o => the_item o | None => None end.

(** Steps of [start] of operation [i].  [making] tells how far it gets before the
    callback: no item, no callables, or what the stop token says. *)
Inductive making := NoItem | NoCallables | TokenStopped | TokenPossible | TokenNever.
Definition start_step i (m : making) (throws inline : bool) sy : option system :=
  match ops sy !! i with
  | None => None
  | Some o =>
      let it := Some (Item (resolve_at_start (when_ o) (now sy)) false false false) in
      match starting o with
      | Making =>
          Some (set_op i (match m with
            | NoItem => set_starting InlineReset o
            | NoCallables | TokenStopped => set_starting InlineReset (set_item it o)
            | TokenPossible => set_starting Installing (set_item it o)
            | TokenNever => set_starting Enqueueing (set_item it o)
            end) sy)
      | Installing =>
          Some (set_op i (if throws then set_starting InlineReset o
            else if inline then set_starting CalledInline (set_called Requesting (on_item (set_callback true) o))
            else set_starting Enqueueing (on_item (set_callback true) o)) sy)
      | CalledInline =>
          match called o with CallbackOver => Some (set_op i (set_starting Enqueueing o) sy) | _ => None end
      | Enqueueing =>
          match enqueue i throws (shared sy) with
          | Some (Some true, st) => Some (notify (set_op i (set_starting (Returned true) o) (set_shared st sy)))
          | Some (_, st) => Some (set_op i (set_starting InlineReset o) (set_shared st sy))
          | None => None
          end
      | InlineReset => Some (set_op i (set_starting InlineComplete (on_item (set_callback false) o)) sy)
      | InlineComplete =>
          Some (set_op i (if done o then set_starting InlineFinish o else set_starting InlineTell (set_done o)) sy)
      | InlineTell => Some (add_log i SetStopped (set_op i (set_starting InlineFinish o) sy))
      | InlineFinish => Some (set_op i (set_starting (Returned false) (on_item set_delivered o)) sy)
      | Connected | Returned _ | Abandoned => None
      end
  end.

(** Steps of the worker. *)
Definition worker_step sy : option system :=
  match worker sy with
  | AtLock =>
      match choose (find_item sy) (now sy) (shared sy) with
      | Some (c, st) =>
          let idle := pending st =? 0 in
          Some (match c with
            | Leave => notify_idle idle (set_worker WorkerReturned (set_shared st sy))
            | Take i b => set_worker (WorkerReset i b) (set_shared st sy)
            | Sleep None => notify_idle idle (set_worker (Asleep None) (set_shared st sy))
            | Sleep until => set_worker (Asleep until) (set_shared st sy)
            end)
      | None => None
      end
  | Asleep (Some t) => if t <=? now sy then Some (set_worker AtLock sy) else None
  | WorkerReset i b =>
      match ops sy !! i with
      | Some o => Some (set_worker (WorkerComplete i b) (set_op i (on_item (set_callback false) o) sy))
      | None => None
      end
  | WorkerComplete i b =>
      match ops sy !! i with
      | Some o =>
          Some (if done o then set_worker (WorkerFinish i) sy
            else set_worker (WorkerTell i b) (set_op i (set_done o) sy))
      | None => None
      end
  | WorkerTell i b => Some (set_worker (WorkerFinish i) (add_log i (if b then SetStopped else SetValue) sy))
  | WorkerFinish i =>
      match ops sy !! i with
      | Some o => Some (set_worker WorkerCount (set_op i (on_item set_delivered o) sy))
      | None => None
      end
  | WorkerCount =>
      match count_done (shared sy) with
      | Some (b, st) => Some (notify_idle b (set_worker AtLock (set_shared st sy)))
      | None => None
      end
  | Asleep None | WorkerReturned => None
  end.

(** Steps of a stop callback: [request_item_stop] with the lock, the notification. *)
Definition callback_step i sy : option system :=
  match ops sy !! i with
  | Some o =>
      match called o with
      | Requesting => Some (set_op i (set_called Notifying (on_item request_stop o)) sy)
      | Notifying => Some (notify (set_op i (set_called CallbackOver o) sy))
      | NotCalled | CallbackOver => None
      end
  | None => None
  end.

(** Steps of [~__op] in a thread that does not send the signal. *)
Definition destroy_step i sy : option system :=
  match ops sy !! i with
  | Some o =>
      match dying o with
      | Claiming =>
          Some (set_op i (match the_item o with
            | None => set_dying Destroyed o
            | Some _ => if done o then set_dying Waiting o else set_dying Discarding (set_done o)
            end) sy)
      | Discarding =>
          match discard_item i (shared sy) with
          | Some (Some b, st) => Some (notify_idle b (set_op i (set_dying Resetting o) (set_shared st sy)))
          | Some (None, st) => Some (set_op i (set_dying Waiting o) (set_shared st sy))
          | None => None
          end
      | Resetting => Some (set_op i (set_dying Destroyed (on_item (set_callback false) o)) sy)
      | Waiting =>
          match the_item o with
          | Some it => if delivered it then Some (set_op i (set_dying Destroyed o) sy) else None
          | None => None
          end
      | Alive | Destroyed => None
      end
  | None => None
  end.

Definition shutdown_notifies sy : option system :=
  match notifying sy with S n => Some (notify (set_notifying n sy)) | O => None end.

(** Steps of the threads in [wait]. *)
Definition idle_step sy : option system :=
  match idle_checking sy with
  | S n =>
      Some (if pending (shared sy) =? 0 then set_idle n (idle_blocked sy) sy else set_idle n (S (idle_blocked sy)) sy)
  | O => None
  end.

(** What others do: start an operation, stop its token, destroy it before it is
    started, after [start] has returned or it was told, or while its signal is being
    sent, in the thread that sends it; shut the context down, wait for it; and
    the clock goes on, and threads may wake for no reason. *)
Definition start i sy : option system :=
  match ops sy !! i with
  | Some o =>
      match starting o with Connected => Some (set_op i (set_starting Making o) sy) | _ => None end
  | None => None
  end.
Definition token_stops i sy : option system :=
  match ops sy !! i with
  | Some o =>
      match called o, the_item o with
      | NotCalled, Some it => if stop_callback it then Some (set_op i (set_called Requesting o) sy) else None
      | _, _ => None
      end
  | None => None
  end.
Definition told i sy : bool := existsb (fun e => (e.1.1 =? i)%nat) (log sy).
Definition destroy i sy : option system :=
  match ops sy !! i with
  | Some o =>
      match dying o, starting o with
      | Alive, Connected => Some (set_op i (set_dying Destroyed (set_starting Abandoned o)) sy)
      | Alive, Returned _ => Some (set_op i (set_dying Claiming o) sy)
      | Alive, _ => if told i sy then Some (set_op i (set_dying Claiming o) sy) else None
      | _, _ => None
      end
  | None => None
  end.
Definition destroy_inside i sy : option system :=
  match ops sy !! i with
  | Some o =>
      match dying o with
      | Alive =>
          if told i sy && (match worker sy with WorkerFinish j => (j =? i)%nat | _ => false end ||
                           match starting o with InlineFinish => true | _ => false end)
          then Some (set_op i (set_dying Destroyed o) sy) else None
      | _ => None
      end
  | None => None
  end.
Definition shut sy : option system :=
  match shutdown (shared sy) with
  | Some (_, st) => Some (set_notifying (S (notifying sy)) (set_shared st sy))
  | None => None
  end.
Definition wait sy : option system := Some (set_idle (S (idle_checking sy)) (idle_blocked sy) sy).

Inductive internal sy : system -> Prop :=
| internal_start i m throws inline sy' : start_step i m throws inline sy = Some sy' -> internal sy sy'
| internal_worker sy' : worker_step sy = Some sy' -> internal sy sy'
| internal_callback i sy' : callback_step i sy = Some sy' -> internal sy sy'
| internal_destroy i sy' : destroy_step i sy = Some sy' -> internal sy sy'
| internal_shutdown sy' : shutdown_notifies sy = Some sy' -> internal sy sy'
| internal_idle sy' : idle_step sy = Some sy' -> internal sy sy'.
Inductive step sy : system -> Prop :=
| step_internal sy' : internal sy sy' -> step sy sy'
| step_start i sy' : start i sy = Some sy' -> step sy sy'
| step_token i sy' : token_stops i sy = Some sy' -> step sy sy'
| step_destroy i sy' : destroy i sy = Some sy' -> step sy sy'
| step_destroy_inside i sy' : destroy_inside i sy = Some sy' -> step sy sy'
| step_shutdown sy' : shut sy = Some sy' -> step sy sy'
| step_wait sy' : wait sy = Some sy' -> step sy sy'
| step_tick t : now sy <= t -> step sy (set_now t sy)
| step_wake until : worker sy = Asleep until -> step sy (set_worker AtLock sy)
| step_idle_wake n : idle_blocked sy = S n -> step sy (set_idle (S (idle_checking sy)) n sy).
Inductive reachable (start_time : Z) (whens : list when) : system -> Prop :=
| reachable_init : reachable start_time whens (init start_time whens)
| reachable_step sy sy' : reachable start_time whens sy -> step sy sy' -> reachable start_time whens sy'.
