(* ===== verification/TimerInv.v ===== *)
(** * Timers: the invariant

    What the worker chooses; then, for each operation, the stages it goes through,
    with what holds in each: whether it is queued, where the worker is with it and
    how often it was told; and what holds between the worker, the notifications and
    those who wait. *)
From S2P Require Import Prelude TimerContext.

#[local] Open Scope Z_scope.

(** ** The choice of the worker *)
Definition choice_ok (find_item : nat -> option item) (now : Z) (st : state) (c : choice) (st' : state) : Prop :=
  stop st' = stop st /\ pending st' = pending st /\
  match c with
  | Leave => stop st = true /\ items st = [] /\ items st' = []
  | Take i b =>
      (exists l1 l2, items st = l1 ++ i :: l2 /\ items st' = l1 ++ l2) /\
      (if b then stop st = true \/ exists it, find_item i = Some it /\ stop_requested it = true
       else stop st = false /\ exists it, find_item i = Some it /\ deadline it <= now /\
         forall j jt, j ∈ items st -> find_item j = Some jt -> stop_requested jt = false /\ deadline it <= deadline jt)
  | Sleep u =>
      stop st = false /\ st' = st /\
      (forall j, j ∈ items st -> exists jt t, find_item j = Some jt /\ stop_requested jt = false /\ u = Some t /\ t <= deadline jt) /\
      (forall t, u = Some t -> now < t)
  end.

Lemma resolve_some f l : (forall i, i ∈ l -> is_Some (f i)) -> exists its, resolve f l = Some its.
Proof.
  induction l as [|i l IH]; intros Hl; [by eexists|]. simpl.
  destruct (Hl i) as [it ->]; [apply list_elem_of_here|].
  destruct IH as [its ->]; [intros; apply Hl; by apply list_elem_of_further|]. by eexists.
Qed.

Lemma resolve_items f l its :
  resolve f l = Some its -> its.*1 = l /\ forall x, x ∈ its -> f x.1 = Some x.2.
Proof.
  revert its. induction l as [|i l IH]; intros its; simpl; [intros [= <-]; split; [done|by intros ? ?%not_elem_of_nil]|].
  destruct (f i) as [it|] eqn:Ei; [|done]. destruct (resolve f l) as [l'|]; [|done]. intros [= <-].
  destruct (IH l' eq_refl) as [Hl Hf]. split; [by rewrite fmap_cons, Hl|].
  intros x [->|Hx]%elem_of_cons; [done|by apply Hf].
Qed.

Lemma erase_split i l : i ∈ l -> exists l1 l2, l = l1 ++ i :: l2 /\ erase i l = l1 ++ l2.
Proof.
  induction l as [|j l IH]; intros Hi; [by apply not_elem_of_nil in Hi|]. simpl. destruct (Nat.eqb_spec j i) as [->|Hn].
  - by exists [], l.
  - apply elem_of_cons in Hi as [->|Hi]; [done|]. destruct (IH Hi) as (l1 & l2 & -> & ->). by exists (j :: l1), l2.
Qed.

Lemma min_element_least best l :
  (min_element best l = best \/ min_element best l ∈ l) /\
  deadline (min_element best l).2 <= deadline best.2 /\
  forall x, x ∈ l -> deadline (min_element best l).2 <= deadline x.2.
Proof.
  revert best. induction l as [|y l IH]; intros best; simpl; [split_and!; [by left|lia|by intros ? ?%not_elem_of_nil]|].
  destruct (Z.ltb_spec (deadline y.2) (deadline best.2)) as [Hlt|Hge].
  - destruct (IH y) as (Hin & Hle & Hall). split_and!; [|lia|].
    + right. destruct Hin as [->|Hin]; [apply list_elem_of_here|by apply list_elem_of_further].
    + intros x [->|Hx]%elem_of_cons; [done|by apply Hall].
  - destruct (IH best) as (Hin & Hle & Hall). split_and!; [|done|].
    + destruct Hin as [->|Hin]; [by left|right; by apply list_elem_of_further].
    + intros x [->|Hx]%elem_of_cons; [lia|by apply Hall].
Qed.

Lemma choose_ok f now st :
  (forall i, i ∈ items st -> is_Some (f i)) ->
  exists c st', choose f now st = Some (c, st') /\ choice_ok f now st c st'.
Proof.
  intros Hf. unfold choose, after, read, give, modify, defined. simpl.
  destruct (stop st) eqn:Hstop.
  - destruct (last (items st)) as [i|] eqn:Hl.
    + apply last_Some in Hl as [l Hl]. eexists _, _. split; [done|]. unfold choice_ok; simpl.
      split_and!; [done|done|exists l, []; rewrite Hl, removelast_last, app_nil_r; done|by left].
    + apply last_None in Hl. eexists _, _. split; [done|]. by unfold choice_ok.
  - destruct (resolve_some f (items st) Hf) as [its Hits]. rewrite Hits.
    destruct (resolve_items _ _ _ Hits) as [Hfst Hsnd].
    assert (forall x, x ∈ its -> x.1 ∈ items st) as Hin by (intros x Hx; rewrite <- Hfst; by apply list_elem_of_fmap_2).
    assert (forall j, j ∈ items st -> exists jt, (j, jt) ∈ its) as Hback.
    { intros j Hj. rewrite <- Hfst in Hj. apply list_elem_of_fmap in Hj as ([? jt] & -> & ?). by exists jt. }
    destruct its as [|first rest].
    { eexists _, _. split; [done|]. unfold choice_ok. split_and!; try done.
      intros j Hj. destruct (Hback j Hj) as (? & ?%not_elem_of_nil). done. }
    unfold give. cbv beta iota zeta.
    destruct (find (fun x => stop_requested x.2) (first :: rest)) as [x|] eqn:Hfind.
    { apply find_some in Hfind as [Hx Hreq]. apply list_elem_of_In in Hx.
      eexists _, _. split; [done|]. unfold choice_ok; simpl. split_and!; try done.
      - apply erase_split. by apply Hin.
      - right. exists x.2. split; [by apply Hsnd|done]. }
    assert (forall j jt, j ∈ items st -> f j = Some jt -> (j, jt) ∈ first :: rest /\ stop_requested jt = false) as Hnone.
    { intros j jt Hj Hjt. destruct (Hback j Hj) as (jt' & Hx). pose proof (Hsnd _ Hx) as Hjt'. simpl in Hjt'.
      rewrite Hjt in Hjt'. injection Hjt' as ->. split; [done|].
      apply (find_none _ _ Hfind (j, jt')). by apply list_elem_of_In. }
    destruct (min_element_least first rest) as (Hmin & Hfirst & Hrest). set (next := min_element first rest) in *.
    assert (next ∈ first :: rest) as Hnext.
    { destruct Hmin as [->|?]; [apply list_elem_of_here|by apply list_elem_of_further]. }
    assert (forall j jt, (j, jt) ∈ first :: rest -> deadline next.2 <= deadline jt) as Hleast.
    { intros j jt [E|Hx]%elem_of_cons; [by rewrite <- E in Hfirst|by apply (Hrest (j, jt))]. }
    destruct (Z.leb_spec (deadline next.2) now).
    + eexists _, _. split; [done|]. unfold choice_ok; simpl. split_and!; try done.
      * apply erase_split. by apply Hin.
      * exists next.2. split_and!; [by apply Hsnd|done|]. intros j jt Hj Hjt.
        destruct (Hnone j jt Hj Hjt). eauto.
    + eexists _, _. split; [done|]. unfold choice_ok, saturating_time_difference, max_wait_slice, time_max.
      split_and!; try done; [|intros t [= <-]; lia].
      intros j Hj. destruct (Hf j Hj) as [jt Hjt]. destruct (Hnone j jt Hj Hjt) as [Hx ?].
      eexists jt, _. split_and!; [done|done|done|]. apply Hleast in Hx. lia.
Qed.

(** ** The stages of an operation *)
Inductive place := Elsewhere | ToReset | ToComplete | ToTell | ToFinish.
Definition at_worker (w : worker_phase) (i : nat) : place :=
  match w with
  | WorkerReset j _ => if (j =? i)%nat then ToReset else Elsewhere
  | WorkerComplete j _ => if (j =? i)%nat then ToComplete else Elsewhere
  | WorkerTell j _ => if (j =? i)%nat then ToTell else Elsewhere
  | WorkerFinish j => if (j =? i)%nat then ToFinish else Elsewhere
  | AtLock | Asleep _ | WorkerCount | WorkerReturned => Elsewhere
  end.
Definition times_told (i : nat) sy : nat := count (fun e => (e.1.1 =? i)%nat) (log sy).

Definition waiting_or_alive (d : destroy_phase) : Prop := d = Alive \/ d = Claiming \/ d = Waiting.
Definition preparing (p : start_phase) : Prop :=
  p = Installing \/ p = CalledInline \/ p = Enqueueing \/ p = InlineReset \/ p = InlineComplete.
Definition undelivered o : Prop := from_option delivered false (the_item o) = false.
Definition is_delivered o : Prop := from_option delivered true (the_item o) = true.
Definition uncalled o : Prop := the_item o = None -> called o = NotCalled.
Definition no_callback o : Prop := from_option stop_callback false (the_item o) = false.

(** [queued], [p] and [n] are whether it is queued, where the worker is with it,
    how often it was told. *)
Inductive op_ok o (queued : bool) (p : place) (n : nat) : Prop :=
| ok_early :
    starting o = Connected \/ starting o = Making -> the_item o = None -> done o = false -> called o = NotCalled ->
    dying o = Alive -> queued = false -> p = Elsewhere -> n = O -> op_ok o queued p n
| ok_preparing :
    preparing (starting o) -> (starting o <> InlineReset -> starting o <> InlineComplete -> the_item o <> None) ->
    (starting o = InlineComplete -> no_callback o) -> (starting o = CalledInline -> called o <> NotCalled) ->
    (starting o = Installing -> called o = NotCalled /\ no_callback o) ->
    uncalled o -> undelivered o -> done o = false -> dying o = Alive -> queued = false -> p = Elsewhere -> n = O -> op_ok o queued p n
| ok_inline_tell :
    starting o = InlineTell -> no_callback o -> uncalled o -> undelivered o -> done o = true -> dying o = Alive ->
    queued = false -> p = Elsewhere -> n = O -> op_ok o queued p n
| ok_inline_told :
    starting o = InlineFinish \/ starting o = Returned false -> no_callback o -> uncalled o ->
    (starting o = Returned false -> is_delivered o) -> done o = true ->
    waiting_or_alive (dying o) \/ dying o = Destroyed -> (dying o = Waiting -> the_item o <> None) ->
    queued = false -> p = Elsewhere -> n = 1%nat -> op_ok o queued p n
| ok_queued :
    starting o = Returned true -> the_item o <> None -> undelivered o ->
    done o = false /\ (dying o = Alive \/ dying o = Claiming) \/ done o = true /\ dying o = Discarding ->
    queued = true -> p = Elsewhere -> n = O -> op_ok o queued p n
| ok_worker :
    starting o = Returned true -> the_item o <> None -> undelivered o -> queued = false ->
    (p <> ToReset -> no_callback o) ->
    (p = ToReset \/ p = ToComplete) /\ n = O /\
      (done o = false /\ (dying o = Alive \/ dying o = Claiming) \/ done o = true /\ (dying o = Discarding \/ dying o = Waiting)) \/
    p = ToTell /\ n = O /\ done o = true /\ waiting_or_alive (dying o) \/
    p = ToFinish /\ done o = true /\
      (n = 1%nat /\ (waiting_or_alive (dying o) \/ dying o = Destroyed) \/ n = O /\ (dying o = Discarding \/ dying o = Waiting)) ->
    op_ok o queued p n
| ok_delivered :
    starting o = Returned true -> the_item o <> None -> is_delivered o ->
    no_callback o -> done o = true -> queued = false -> p = Elsewhere ->
    n = 1%nat /\ (waiting_or_alive (dying o) \/ dying o = Destroyed) \/
    n = O /\ (dying o = Discarding \/ dying o = Waiting \/ dying o = Destroyed) -> op_ok o queued p n
| ok_discarded :
    starting o = Returned true -> the_item o <> None -> undelivered o -> done o = true -> queued = false -> p = Elsewhere -> n = O ->
    dying o = Resetting \/ dying o = Destroyed /\ no_callback o -> op_ok o queued p n
| ok_abandoned :
    starting o = Abandoned -> the_item o = None -> done o = false -> called o = NotCalled -> dying o = Destroyed ->
    queued = false -> p = Elsewhere -> n = O -> op_ok o queued p n.

Definition ops_ok sy : Prop :=
  forall i o, ops sy !! i = Some o ->
    op_ok o (bool_decide (i ∈ items (shared sy))) (at_worker (worker sy) i) (times_told i sy).

(** A step of operation [i] leaves the others alone. *)
Lemma ops_ok_update i sy sy' o o' :
  ops_ok sy -> ops sy !! i = Some o -> ops sy' = <[i := o']> (ops sy) ->
  (forall j, j <> i -> (j ∈ items (shared sy') <-> j ∈ items (shared sy)) /\
    at_worker (worker sy') j = at_worker (worker sy) j /\ times_told j sy' = times_told j sy) ->
  (op_ok o (bool_decide (i ∈ items (shared sy))) (at_worker (worker sy) i) (times_told i sy) ->
   op_ok o' (bool_decide (i ∈ items (shared sy'))) (at_worker (worker sy') i) (times_told i sy')) ->
  ops_ok sy'.
Proof.
  intros Hok Hi Hops Hrest Hnew j o1 Hj. rewrite Hops in Hj. destruct (decide (j = i)) as [->|Hn].
  - rewrite list_lookup_insert_eq in Hj; [|by eapply lookup_lt_Some]. injection Hj as <-. apply Hnew. by apply Hok.
  - rewrite list_lookup_insert_ne in Hj by done. destruct (Hrest j Hn) as (Hq & -> & ->).
    rewrite (bool_decide_ext _ _ Hq). by apply Hok.
Qed.
Lemma ops_ok_same sy sy' :
  ops_ok sy -> ops sy' = ops sy ->
  (forall j, (j ∈ items (shared sy') <-> j ∈ items (shared sy)) /\
    at_worker (worker sy') j = at_worker (worker sy) j /\ times_told j sy' = times_told j sy) -> ops_ok sy'.
Proof.
  intros Hok Hops Hrest j o Hj. rewrite Hops in Hj. destruct (Hrest j) as (Hq & -> & ->).
  rewrite (bool_decide_ext _ _ Hq). by apply Hok.
Qed.

(** ** Steps keep the stages *)
Lemma times_told_log i j sig t l :
  count (fun e : nat * signal * Z => (e.1.1 =? i)%nat) (l ++ [(j, sig, t)]) =
    (count (fun e => (e.1.1 =? i)%nat) l + Nat.b2n (j =? i)%nat)%nat.
Proof. rewrite count_app, count_cons. unfold count. simpl. lia. Qed.

(** What is known in a stage, with the phases evaluated. *)
Ltac stage_facts :=
  repeat match goal with
  | H : ?a = ?a -> _ |- _ => specialize (H eq_refl)
  | H : ?a <> ?b -> _ |- _ => specialize (H ltac:(discriminate))
  | H : ?a = ?b -> _ |- _ => let F := fresh in assert (F : a <> b) by discriminate; clear F; clear H
  | H : ?a <> ?b |- _ => let F := fresh in assert (F : a <> b) by discriminate; clear F; clear H
  | H : ?a = ?a |- _ => clear H
  | H : ?x = ?y |- _ => first [is_var x; subst x | is_var y; subst y]
  end.
Ltac stage_by c :=
  eapply c; simpl; first [reflexivity | eassumption | lia
    | unfold preparing, waiting_or_alive, no_callback, uncalled, undelivered, is_delivered in *; simpl in *; intros; simplify_eq; simpl in *;
      first [done | tauto | idtac] ].
Ltac any_stage :=
  first [solve [stage_by ok_early] | solve [stage_by ok_preparing] | solve [stage_by ok_inline_tell]
    | solve [stage_by ok_inline_told] | solve [stage_by ok_queued] | solve [stage_by ok_worker]
    | solve [stage_by ok_delivered] | solve [stage_by ok_discarded] | solve [stage_by ok_abandoned] | idtac].
Ltac other_ops :=
  let j := fresh "j" in let Hj := fresh "Hj" in
  intros j Hj; simpl; unfold times_told; simpl;
  rewrite ?times_told_log, ?(proj2 (Nat.eqb_neq _ _) (not_eq_sym Hj)); simpl;
  rewrite ?Nat.add_0_r; split_and!;
  first [done | rewrite ?elem_of_app, ?list_elem_of_singleton; by intuition].

Ltac split_stage :=
  unfold waiting_or_alive in *;
  repeat match goal with
  | H : _ /\ _ |- _ => destruct H
  | H : _ \/ _ |- _ => destruct H
  | H : bool_decide ?P = true, F : ~ ?P |- _ => by apply bool_decide_eq_true in H
  | H : ?x = ?y |- _ => first [discriminate H | is_var x; subst x | is_var y; subst y]
  end; try done;
  try match goal with H : count ?f ?l = _ |- context [count ?f ?l] => rewrite H; simpl end.
Ltac contradict_stage :=
  try match goal with
  | H : _ \/ _ |- _ => solve [destruct H; simplify_eq]
  | H : preparing _ |- _ => solve [unfold preparing in H; naive_solver]
  end.
Ltac focus i Hok Hi :=
  eapply (ops_ok_update i); [exact Hok|exact Hi|reflexivity|other_ops|];
  unfold times_told; simpl; rewrite ?times_told_log, ?Nat.eqb_refl; simpl;
  let Hop := fresh "Hop" in intros Hop; destruct Hop; simpl in *; try discriminate; contradict_stage;
  unfold no_callback, uncalled, undelivered, is_delivered in *; simpl in *; stage_facts.

Lemma notify_ops sy : ops_ok sy -> ops_ok (notify sy).
Proof.
  intros Hok. unfold notify. destruct (worker sy) eqn:Hw; try done.
  eapply ops_ok_same; [exact Hok|done|]. intros j. simpl. by rewrite Hw.
Qed.
Lemma notify_idle_ops b sy : ops_ok sy -> ops_ok (notify_idle b sy).
Proof. intros Hok. unfold notify_idle. destruct b; [|done]. by eapply ops_ok_same. Qed.

Lemma start_step_ops i m throws inline sy sy' : ops_ok sy -> start_step i m throws inline sy = Some sy' -> ops_ok sy'.
Proof.
  intros Hok. unfold start_step. destruct (ops sy !! i) as [o|] eqn:Hi; [|done].
  destruct o as [w p it d c dy]; simpl. destruct p; try done.
  - intros <-%(inj Some). destruct it as [[dl sr de cb]|], m; focus i Hok Hi; stage_by ok_preparing.
  - intros <-%(inj Some). destruct it as [[dl sr de cb]|], throws, inline; focus i Hok Hi; stage_by ok_preparing.
  - destruct c; try done. intros <-%(inj Some). destruct it as [[dl sr de cb]|]; focus i Hok Hi; stage_by ok_preparing.
  - unfold enqueue. destruct (stop (shared sy)); [|destruct throws].
    1, 2: intros <-%(inj Some); destruct it as [[dl sr de cb]|]; focus i Hok Hi; stage_by ok_preparing.
    intros <-%(inj Some). apply notify_ops. destruct it as [[dl sr de cb]|]; focus i Hok Hi.
    all: rewrite bool_decide_true by (apply elem_of_app; right; apply list_elem_of_here). stage_by ok_queued.
  - intros <-%(inj Some). destruct it as [[dl sr de cb]|]; focus i Hok Hi; stage_by ok_preparing.
  - intros <-%(inj Some). destruct it as [[dl sr de cb]|], d; focus i Hok Hi; stage_by ok_inline_tell.
  - intros <-%(inj Some). destruct it as [[dl sr de cb]|]; focus i Hok Hi; stage_by ok_inline_told.
  - intros <-%(inj Some). destruct it as [[dl sr de cb]|]; focus i Hok Hi; stage_by ok_inline_told.
Qed.

(** Taking an item out of the list. *)
Lemma in_items i l : existsb (fun j => (j =? i)%nat) l = bool_decide (i ∈ l).
Proof.
  induction l as [|j l IH]; [done|]. cbn [existsb]. rewrite IH.
  destruct (Nat.eqb_spec j i) as [->|Hn]; simpl.
  - symmetry. apply bool_decide_true, list_elem_of_here.
  - apply bool_decide_ext. rewrite elem_of_cons. naive_solver.
Qed.
Lemma taken_out (i : nat) l l1 l2 :
  NoDup l -> l = l1 ++ i :: l2 ->
  bool_decide (i ∈ l) = true /\ bool_decide (i ∈ l1 ++ l2) = false /\ NoDup (l1 ++ l2) /\
  length l = S (length (l1 ++ l2)) /\ (forall j, j ∈ l1 ++ l2 -> j ∈ l) /\
  forall j, j <> i -> (j ∈ l1 ++ l2 <-> j ∈ l).
Proof.
  intros Hnd ->. rewrite <- (Permutation_middle l1 l2 i) in Hnd. apply NoDup_cons in Hnd as [Hn Hnd]. split_and!.
  - apply bool_decide_true. set_solver.
  - by apply bool_decide_false.
  - done.
  - rewrite !length_app. simpl. lia.
  - set_solver.
  - intros j Hj. set_solver.
Qed.

Lemma op_ok_installing o q p n : op_ok o q p n -> starting o = Installing -> called o = NotCalled /\ no_callback o.
Proof.
  intros Hop Hs. destruct Hop; try congruence; auto; match goal with H : _ \/ _ |- _ => by destruct H; congruence end.
Qed.

(** Being called changes no stage. *)
Lemma op_ok_called o c f q p n :
  the_item o <> None -> c <> NotCalled -> starting o <> Installing ->
  (forall it, delivered (f it) = delivered it /\ stop_callback (f it) = stop_callback it) ->
  op_ok o q p n -> op_ok (set_called c (on_item f o)) q p n.
Proof.
  intros Hit Hc Hs Hf Hop. destruct o as [w s [it|] d c' dy]; [|done]. destruct (Hf it) as [E1 E2]. clear Hf Hit.
  destruct Hop; unfold no_callback, uncalled, undelivered, is_delivered in *; simpl in *; rewrite <- ?E1, <- ?E2 in *; simplify_eq;
    [by eapply ok_preparing|by eapply ok_inline_tell|by eapply ok_inline_told|by eapply ok_queued|by eapply ok_worker
    |by eapply ok_delivered|by eapply ok_discarded].
Qed.

Lemma callback_step_ops i sy sy' : ops_ok sy -> callback_step i sy = Some sy' -> ops_ok sy'.
Proof.
  intros Hok. unfold callback_step. destruct (ops sy !! i) as [o|] eqn:Hi; [|done].
  destruct o as [w p it d c dy]; simpl. destruct c; try done; intros <-%(inj Some); [|apply notify_ops].
  all: eapply (ops_ok_update i); [exact Hok|exact Hi|reflexivity|other_ops|]; unfold times_told; simpl; intros Hop;
    destruct it as [it|]; [|destruct Hop; unfold uncalled in *; simpl in *; naive_solver].
  all: assert (p <> Installing) as Hp by (intros ->; by destruct (op_ok_installing _ _ _ _ Hop eq_refl)).
  - by apply (op_ok_called _ Notifying request_stop) in Hop.
  - by apply (op_ok_called _ CallbackOver id) in Hop.
Qed.

Lemma destroy_step_ops i sy sy' : NoDup (items (shared sy)) -> ops_ok sy -> destroy_step i sy = Some sy' -> ops_ok sy'.
Proof.
  intros Hnd Hok. unfold destroy_step. destruct (ops sy !! i) as [o|] eqn:Hi; [|done].
  destruct o as [w p it d c dy]; simpl. destruct dy; try done.
  - intros <-%(inj Some). destruct it as [[dl sr de cb]|], d; focus i Hok Hi; split_stage; any_stage.
  - unfold discard_item. rewrite in_items. destruct (bool_decide_reflect (i ∈ items (shared sy))) as [Hin|Hout].
    + unfold count_done, after, modify, read, give. cbv beta iota. intros <-%(inj Some). apply notify_idle_ops.
      apply erase_split in Hin as (l1 & l2 & Hl & He). destruct (taken_out _ _ _ _ Hnd Hl) as (Hq & Hq' & _ & _ & _ & Hrest).
      eapply (ops_ok_update i); [exact Hok|exact Hi|reflexivity| |].
      { intros j Hj. split_and!; [|done|done]. simpl. rewrite He. by apply Hrest. }
      simpl. rewrite He, Hq, Hq'. unfold times_told; simpl.
      intros Hop; destruct Hop; simpl in *; try discriminate; contradict_stage; stage_facts; split_stage; any_stage.
    + intros <-%(inj Some). destruct it as [[dl sr de cb]|]; focus i Hok Hi; split_stage; any_stage.
  - intros <-%(inj Some). destruct it as [[dl sr de cb]|]; focus i Hok Hi; split_stage; any_stage.
  - destruct it as [[dl sr de cb]|]; [|done]. simpl. destruct de; [|done]. intros <-%(inj Some). focus i Hok Hi; split_stage; any_stage.
Qed.

(** A step of the worker with operation [i]. *)
Ltac worker_focus i Hok Hi Hw :=
  eapply (ops_ok_update i); [exact Hok|exact Hi|try reflexivity; simpl; by rewrite list_insert_id| |];
  [let j := fresh "j" in let Hj := fresh "Hj" in
   intros j Hj; simpl; unfold times_told; simpl; rewrite Hw, ?times_told_log; simpl;
   rewrite ?(proj2 (Nat.eqb_neq _ _) (not_eq_sym Hj)); simpl; rewrite ?Nat.add_0_r; split_and!; done
  |simpl; rewrite Hw, ?Nat.eqb_refl; unfold times_told; simpl; rewrite ?times_told_log, ?Nat.eqb_refl; simpl;
   let Hop := fresh "Hop" in intros Hop; destruct Hop; simpl in *; try discriminate; contradict_stage;
   unfold no_callback, uncalled, undelivered, is_delivered in *; simpl in *; stage_facts; split_stage; any_stage].

Lemma worker_choice_ops sy c st' :
  NoDup (items (shared sy)) -> (forall i, i ∈ items (shared sy) -> is_Some (find_item sy i)) ->
  ops_ok sy -> worker sy = AtLock -> choice_ok (find_item sy) (now sy) (shared sy) c st' ->
  ops_ok (match c with
    | Leave => set_worker WorkerReturned (set_shared st' sy)
    | Take i b => set_worker (WorkerReset i b) (set_shared st' sy)
    | Sleep until => set_worker (Asleep until) (set_shared st' sy)
    end).
Proof.
  intros Hnd Hf Hok Hw (_ & _ & Hc). destruct c as [|i b|u].
  - destruct Hc as (_ & Hi & Hi'). eapply ops_ok_same; [exact Hok|done|].
    intros j. simpl. by rewrite Hw, Hi, Hi'.
  - destruct Hc as [(l1 & l2 & Hl & Hl') _]. destruct (taken_out _ _ _ _ Hnd Hl) as (Hq & Hq' & _ & _ & _ & Hrest).
    assert (exists o, ops sy !! i = Some o) as [o Hi].
    { destruct (Hf i) as [it Hit]; [by apply bool_decide_eq_true in Hq|]. unfold find_item in Hit.
      destruct (ops sy !! i) as [o|]; [by exists o|done]. }
    eapply (ops_ok_update i _ _ o o); [exact Hok|exact Hi|simpl; by rewrite list_insert_id| |].
    + intros j Hj. simpl. rewrite Hw, Hl', (proj2 (Nat.eqb_neq i j) (not_eq_sym Hj)). split_and!; [by apply Hrest|done|done].
    + simpl. rewrite Hl', Hq, Hq', Hw, Nat.eqb_refl. unfold times_told; simpl.
      intros Hop; destruct Hop; simpl in *; try discriminate. subst.
      eapply ok_worker; try done. left. split_and!; [by left|done|tauto].
  - destruct Hc as (_ & -> & _). eapply ops_ok_same; [exact Hok|done|]. intros j. simpl. by rewrite Hw.
Qed.

Lemma worker_step_ops sy sy' :
  NoDup (items (shared sy)) -> (forall i, i ∈ items (shared sy) -> is_Some (find_item sy i)) ->
  (forall i, at_worker (worker sy) i <> Elsewhere -> is_Some (ops sy !! i)) -> ops_ok sy -> worker_step sy = Some sy' -> ops_ok sy'.
Proof.
  intros Hnd Hf Hwk Hok. unfold worker_step. destruct (worker sy) as [|u|i b|i b|i b|i| |] eqn:Hw.
  - destruct (choose_ok _ (now sy) _ Hf) as (c & st' & -> & Hc). intros <-%(inj Some).
    pose proof (worker_choice_ops sy c st' Hnd Hf Hok Hw Hc). destruct c as [|i b|[u|]]; try done; by apply notify_idle_ops.
  - destruct u as [t|]; [|done]. destruct (t <=? now sy); [|done]. intros <-%(inj Some).
    eapply ops_ok_same; [exact Hok|done|]. intros j. simpl. by rewrite Hw.
  - destruct (ops sy !! i) as [o|] eqn:Hi; [|done]. intros <-%(inj Some).
    destruct o as [w p [[dl sr de cb]|] d c dy]; worker_focus i Hok Hi Hw.
  - destruct (ops sy !! i) as [o|] eqn:Hi; [|done]. intros <-%(inj Some).
    destruct o as [w p [[dl sr de cb]|] [|] c dy]; worker_focus i Hok Hi Hw.
  - intros <-%(inj Some). destruct (ops sy !! i) as [o|] eqn:Hi.
    + destruct o as [w p [[dl sr de cb]|] d c dy]; worker_focus i Hok Hi Hw.
    + destruct (Hwk i) as [o ?]; [simpl; by rewrite Nat.eqb_refl|]. by rewrite Hi in *.
  - destruct (ops sy !! i) as [o|] eqn:Hi; [|done]. intros <-%(inj Some).
    destruct o as [w p [[dl sr de cb]|] d c dy]; worker_focus i Hok Hi Hw.
  - unfold count_done, after, modify, read, give. cbv beta iota. intros <-%(inj Some). apply notify_idle_ops.
    eapply ops_ok_same; [exact Hok|done|]. intros j. simpl. by rewrite Hw.
  - done.
Qed.

Lemma start_ops i sy sy' : ops_ok sy -> start i sy = Some sy' -> ops_ok sy'.
Proof.
  intros Hok. unfold start. destruct (ops sy !! i) as [o|] eqn:Hi; [|done].
  destruct o as [w p it d c dy]; simpl. destruct p; try done. intros <-%(inj Some). focus i Hok Hi; any_stage.
Qed.

Lemma token_stops_ops i sy sy' : ops_ok sy -> token_stops i sy = Some sy' -> ops_ok sy'.
Proof.
  intros Hok. unfold token_stops. destruct (ops sy !! i) as [o|] eqn:Hi; [|done].
  destruct o as [w p [it|] d c dy]; simpl; destruct c; try done. destruct (stop_callback it) eqn:Hcb; [|done]. intros <-%(inj Some).
  eapply (ops_ok_update i); [exact Hok|exact Hi|reflexivity|other_ops|]. unfold times_told; simpl. intros Hop.
  assert (p <> Installing) as Hp.
  { intros ->. destruct (op_ok_installing _ _ _ _ Hop eq_refl) as [_ Hn]. unfold no_callback in Hn. simpl in Hn. congruence. }
  by apply (op_ok_called _ Requesting id) in Hop.
Qed.

Lemma told_times i sy : told i sy = true -> times_told i sy <> O.
Proof.
  unfold told, times_told. intros (e & He & Hi)%existsb_exists Hc. apply list_elem_of_In, list_elem_of_lookup in He as [k Hk].
  pose proof (count_zero _ _ _ _ Hc Hk). simpl in *. congruence.
Qed.

Lemma destroy_ops i sy sy' : ops_ok sy -> destroy i sy = Some sy' -> ops_ok sy'.
Proof.
  intros Hok. unfold destroy. destruct (ops sy !! i) as [o|] eqn:Hi; [|done].
  destruct (told i sy) eqn:Ht; [apply told_times in Ht; unfold times_told in Ht|].
  all: destruct o as [w p [[dl sr de cb]|] d c dy]; simpl; destruct dy; try done; destruct p; try done; intros <-%(inj Some);
    focus i Hok Hi; split_stage; any_stage.
Qed.
Lemma destroy_inside_ops i sy sy' : ops_ok sy -> destroy_inside i sy = Some sy' -> ops_ok sy'.
Proof.
  intros Hok. unfold destroy_inside. destruct (ops sy !! i) as [o|] eqn:Hi; [|done].
  destruct o as [w p it d c dy]; simpl; destruct dy; try done.
  destruct (told i sy) eqn:Ht; [apply told_times in Ht; unfold times_told in Ht|done]. simpl.
  destruct (match worker sy with WorkerFinish j => (j =? i)%nat | _ => false end) eqn:Hw.
  - assert (at_worker (worker sy) i = ToFinish) as Hp.
    { destruct (worker sy); try done. simpl. by rewrite Hw. }
    intros <-%(inj Some). destruct it as [[dl sr de cb]|]; focus i Hok Hi; rewrite Hp in *; split_stage; any_stage.
  - simpl. destruct p; try done. intros <-%(inj Some). destruct it as [[dl sr de cb]|]; focus i Hok Hi; split_stage; any_stage.
Qed.

(** ** Timers: who asked for what

    The rest of the invariant: what is counted, why an operation is told what it is
    told, and why the worker may sleep. *)

(** ** The rest of the invariant *)
Section rest.
Context (t0 : Z).

Definition busy (w : worker_phase) : Z :=
  match w with WorkerReset _ _ | WorkerComplete _ _ | WorkerTell _ _ | WorkerFinish _ | WorkerCount => 1 | _ => 0 end.
Definition carried (w : worker_phase) : option (nat * bool) :=
  match w with WorkerReset i b | WorkerComplete i b | WorkerTell i b => Some (i, b) | _ => None end.

(** Who asked for a stop; where the deadline is from. *)
Definition item_ok (now : Z) o : Prop := forall it, the_item o = Some it ->
  (stop_requested it = true <-> called o = Notifying \/ called o = CallbackOver) /\
  exists t, t0 <= t <= now /\ deadline it = resolve_at_start (when_ o) t.

(** Why an operation is told what. *)
Definition due sy i (t : Z) : Prop :=
  exists o it, ops sy !! i = Some o /\ the_item o = Some it /\ deadline it <= t /\ starting o = Returned true.
Definition asked_to_stop sy i : Prop :=
  stop (shared sy) = true \/ exists o it, ops sy !! i = Some o /\ the_item o = Some it /\ stop_requested it = true.
Definition not_queued sy i : Prop :=
  exists o, ops sy !! i = Some o /\ (starting o = InlineFinish \/ starting o = Returned false).
Definition told_cause sy (e : nat * signal * Z) : Prop :=
  t0 <= e.2 <= now sy /\
  match e.1.2 with
  | SetValue => due sy e.1.1 e.2
  | SetStopped => asked_to_stop sy e.1.1 \/ not_queued sy e.1.1
  end.

Record rest_ok sy : Prop := RestOk {
  re_start : t0 <= now sy;
  re_nodup : NoDup (items (shared sy));
  re_items : forall i, i ∈ items (shared sy) -> is_Some (ops sy !! i);
  re_worker : forall i, at_worker (worker sy) i <> Elsewhere -> is_Some (ops sy !! i);
  re_pending : pending (shared sy) = Z.of_nat (length (items (shared sy))) + busy (worker sy);
  re_item : forall i o, ops sy !! i = Some o -> item_ok (now sy) o;
  re_carried : forall i b, carried (worker sy) = Some (i, b) -> if b then asked_to_stop sy i else due sy i (now sy);
  re_log : forall e, e ∈ log sy -> told_cause sy e;
  re_returned : worker sy = WorkerReturned -> stop (shared sy) = true /\ items (shared sy) = [];
  re_idle : idle_blocked sy <> O -> pending (shared sy) <> 0;
}.

(** The worker sleeps only as long as there is nothing to do, or someone is about to
    wake it. *)
Definition asleep_ok sy : Prop := forall u, worker sy = Asleep u ->
  (stop (shared sy) = true -> notifying sy <> O) /\
  forall i o, i ∈ items (shared sy) -> ops sy !! i = Some o ->
    called o <> CallbackOver /\ forall it, the_item o = Some it -> exists t, u = Some t /\ t <= deadline it.

(** What no step takes back. *)
Definition op_later o o' : Prop :=
  (forall it, the_item o = Some it -> exists it', the_item o' = Some it' /\ deadline it' = deadline it /\
    (stop_requested it = true -> stop_requested it' = true)) /\
  (starting o = InlineFinish \/ starting o = Returned false -> starting o' = InlineFinish \/ starting o' = Returned false) /\
  (starting o = Returned true -> starting o' = Returned true).
Definition later sy sy' : Prop :=
  now sy <= now sy' /\ (stop (shared sy) = true -> stop (shared sy') = true) /\
  forall i o, ops sy !! i = Some o -> exists o', ops sy' !! i = Some o' /\ op_later o o'.

Lemma op_later_refl o : op_later o o.
Proof. unfold op_later. naive_solver. Qed.
Lemma later_same sy sy' :
  now sy <= now sy' -> (stop (shared sy) = true -> stop (shared sy') = true) -> ops sy' = ops sy -> later sy sy'.
Proof. intros Hn Hs E. split_and!; [done|done|]. rewrite E. intros i o Hi. exists o. split; [done|apply op_later_refl]. Qed.
Lemma later_update i o o' sy sy' :
  now sy <= now sy' -> (stop (shared sy) = true -> stop (shared sy') = true) ->
  ops sy !! i = Some o -> ops sy' = <[i := o']> (ops sy) -> op_later o o' -> later sy sy'.
Proof.
  intros Hn Hs Hi E Hl. split_and!; [done|done|]. intros j o1 Hj. rewrite E. destruct (decide (j = i)) as [->|Hne].
  - rewrite list_lookup_insert_eq by (by eapply lookup_lt_Some). rewrite Hi in Hj. injection Hj as <-. by exists o'.
  - rewrite list_lookup_insert_ne by done. exists o1. split; [done|apply op_later_refl].
Qed.

Lemma later_known sy sy' i : later sy sy' -> is_Some (ops sy !! i) -> is_Some (ops sy' !! i).
Proof. intros (_ & _ & Hl) [o Hi]. destruct (Hl _ _ Hi) as (o' & ? & _). by exists o'. Qed.
Lemma later_due sy sy' i t t' : later sy sy' -> t <= t' -> due sy i t -> due sy' i t'.
Proof.
  intros (_ & _ & Hl) Ht (o & it & Hi & Hit & Hd & Hs). destruct (Hl _ _ Hi) as (o' & Hi' & Hit' & _ & Hs').
  destruct (Hit' _ Hit) as (it' & ? & ? & _). exists o', it'. split_and!; [done|done|lia|auto].
Qed.
Lemma later_asked sy sy' i : later sy sy' -> asked_to_stop sy i -> asked_to_stop sy' i.
Proof.
  intros (_ & Hs & Hl) [?|(o & it & Hi & Hit & Hr)]; [left; auto|right].
  destruct (Hl _ _ Hi) as (o' & Hi' & Hit' & _). destruct (Hit' _ Hit) as (it' & ? & _ & ?). exists o', it'. auto.
Qed.
Lemma later_told sy sy' e : later sy sy' -> told_cause sy e -> told_cause sy' e.
Proof.
  intros Hl [Ht Hc]. pose proof (proj1 Hl). split; [lia|]. destruct (e.1.2).
  - eapply later_due; [done| |done]. lia.
  - destruct Hc as [Hc|(o & Hi & Hs)]; [left; by eapply later_asked|right].
    destruct Hl as (_ & _ & Hl). destruct (Hl _ _ Hi) as (o' & ? & _ & ? & _). exists o'. auto.
Qed.

(** ** Steps keep the rest *)
Definition goes_on (w w' : worker_phase) : Prop :=
  (forall i, at_worker w' i <> Elsewhere -> at_worker w i <> Elsewhere) /\ busy w' = busy w /\
  (forall i b, carried w' = Some (i, b) -> carried w = Some (i, b)) /\ (w' = WorkerReturned -> w = WorkerReturned).

Lemma rest_update i o o' sy sy' :
  rest_ok sy -> ops sy !! i = Some o -> ops sy' = <[i := o']> (ops sy) -> op_later o o' ->
  (item_ok (now sy) o -> item_ok (now sy) o') ->
  shared sy' = shared sy -> goes_on (worker sy) (worker sy') -> now sy' = now sy -> idle_blocked sy' = idle_blocked sy ->
  (forall e, e ∈ log sy' -> e ∈ log sy \/ told_cause sy' e) -> rest_ok sy'.
Proof.
  intros [H1 H2 H3 H4 H5 H6 H7 H8 H9 H10] Hi Hops Hlater Hitem Hsh (Ha & Hb & Hc & Hr) Hnow Hidle Hlog.
  assert (later sy sy') as Hl.
  { eapply later_update; [lia|by rewrite Hsh|exact Hi|exact Hops|exact Hlater]. }
  constructor; rewrite ?Hsh, ?Hnow, ?Hidle, ?Hb; try done.
  - intros j Hj. eapply later_known; [done|auto].
  - intros j Hj. eapply later_known; [done|auto].
  - intros j o1 Hj. rewrite Hops in Hj. destruct (decide (j = i)) as [->|Hn].
    + rewrite list_lookup_insert_eq in Hj by (by eapply lookup_lt_Some). injection Hj as <-. eauto.
    + rewrite list_lookup_insert_ne in Hj by done. eauto.
  - intros j b Hj. apply Hc in Hj. pose proof (H7 _ _ Hj) as Hx. destruct b; [by eapply later_asked|].
    eapply later_due; [done| |done]. lia.
  - intros e He. destruct (Hlog e He) as [He'|He']; [by eapply later_told; [|apply H8]|done].
  - intros Hw. apply H9. auto.
Qed.

Lemma goes_on_refl w : goes_on w w.
Proof. by split_and!. Qed.

Lemma rest_notify sy : rest_ok sy -> rest_ok (notify sy).
Proof.
  intros Hr. unfold notify. destruct (worker sy) eqn:Hw; try done.
  destruct Hr as [H1 H2 H3 H4 H5 H6 H7 H8 H9 H10]. rewrite Hw in *. by constructor.
Qed.
Lemma rest_notify_idle b sy : rest_ok sy -> rest_ok (notify_idle b sy).
Proof. intros [H1 H2 H3 H4 H5 H6 H7 H8 H9 H10]. unfold notify_idle. destruct b; by constructor. Qed.

(** A step of one operation that leaves the shared state alone. *)
Lemma rest_op i o o' sy :
  rest_ok sy -> ops sy !! i = Some o -> op_later o o' -> (item_ok (now sy) o -> item_ok (now sy) o') ->
  rest_ok (set_op i o' sy).
Proof.
  intros Hr Hi Hl Ho. eapply (rest_update i); [exact Hr|exact Hi|done|done|done|done|apply goes_on_refl|done|done|].
  intros e He. by left.
Qed.

(** A new item and a stage that goes on. *)
Lemma item_ok_ext now o o' :
  when_ o' = when_ o -> called o' = called o ->
  the_item o' = the_item o \/
    (exists f, the_item o' = f <$> the_item o /\ forall it, deadline (f it) = deadline it /\ stop_requested (f it) = stop_requested it) ->
  item_ok now o -> item_ok now o'.
Proof.
  intros Hw Hc Hit Ho it' E. rewrite Hw, Hc. destruct Hit as [Hit|(f & Hit & Hf)]; rewrite Hit in E; [by apply Ho|].
  apply fmap_Some in E as (it & E & ->). destruct (Hf it) as [-> ->]. by apply Ho.
Qed.
Lemma op_later_ext o o' :
  (starting o = InlineFinish \/ starting o = Returned false -> starting o' = InlineFinish \/ starting o' = Returned false) ->
  (starting o = Returned true -> starting o' = Returned true) ->
  the_item o = None \/ the_item o' = the_item o \/
    (exists f, the_item o' = f <$> the_item o /\
      forall it, deadline (f it) = deadline it /\ (stop_requested it = true -> stop_requested (f it) = true)) ->
  op_later o o'.
Proof.
  intros H1 H2 Hit. split_and!; [|done|done]. intros it E. destruct Hit as [Hit|[Hit|(f & Hit & Hf)]].
  - congruence.
  - rewrite Hit. by exists it.
  - rewrite Hit, E. exists (f it). split; [done|apply Hf].
Qed.
Ltac op_goes_on :=
  apply op_later_ext;
    [simpl; intros [?|?]; simplify_eq; tauto|simpl; intros ?; simplify_eq; done
    |first [left; reflexivity|right; left; reflexivity|right; right; eexists; split; [reflexivity|done]]].
Ltac item_same :=
  apply item_ok_ext; [done|done|first [left; reflexivity|right; eexists; split; [reflexivity|done]]].

Lemma set_shared_same sy : set_shared (shared sy) sy = sy.
Proof. by destruct sy. Qed.
Lemma known_bound n l : NoDup l -> (forall i, i ∈ l -> (i < n)%nat) -> (length l <= n)%nat.
Proof.
  intros Hnd Hl. rewrite <- (length_seq n 0). apply submseteq_length, NoDup_submseteq; [done|].
  intros i Hi. apply elem_of_seq. specialize (Hl _ Hi). lia.
Qed.
Lemma items_bound sy : rest_ok sy -> (length (items (shared sy)) <= length (ops sy))%nat.
Proof.
  intros Hr. apply known_bound; [apply (re_nodup _ Hr)|]. intros i Hi. apply lookup_lt_is_Some. by apply (re_items _ Hr).
Qed.

Lemma enqueue_rest i o o' sy :
  rest_ok sy -> Z.of_nat (length (ops sy)) + 2 < 2 ^ 64 -> ops sy !! i = Some o -> stop (shared sy) = false ->
  i ∉ items (shared sy) -> op_later o o' -> (item_ok (now sy) o -> item_ok (now sy) o') ->
  rest_ok (set_op i o' (set_shared (State (items (shared sy) ++ [i]) (stop (shared sy)) (u64 (pending (shared sy) + 1))) sy)).
Proof.
  intros Hr Hlen Hi Hstop Hout Hl Ho. pose proof (items_bound _ Hr) as Hb.
  destruct (rest_op i o o' sy Hr Hi Hl Ho) as [H1 H2 H3 H4 H5 H6 H7 H8 H9 H10].
  constructor; simpl in *; try done.
  - apply NoDup_app. split_and!; [done|by intros j Hj ->%list_elem_of_singleton|apply NoDup_singleton].
  - intros j [Hj| ->%list_elem_of_singleton]%elem_of_app; [by apply H3|].
    rewrite list_lookup_insert_eq by (by eapply lookup_lt_Some). by eexists.
  - rewrite u64_small; rewrite H5; [rewrite length_app; simpl; lia|].
    assert (0 <= busy (worker sy) <= 1) by (destruct (worker sy); simpl; lia). lia.
  - intros Hw. destruct (H9 Hw). congruence.
  - intros Hidle. rewrite u64_small; rewrite H5; assert (0 <= busy (worker sy) <= 1) by (destruct (worker sy); simpl; lia); lia.
Qed.

Lemma start_step_rest i m throws inline sy sy' :
  rest_ok sy -> ops_ok sy -> Z.of_nat (length (ops sy)) + 2 < 2 ^ 64 -> start_step i m throws inline sy = Some sy' -> rest_ok sy'.
Proof.
  intros Hr Hok Hlen. unfold start_step. destruct (ops sy !! i) as [o|] eqn:Hi; [|done].
  pose proof (Hok _ _ Hi) as Hop. pose proof (re_start _ Hr) as Hstart.
  destruct o as [w p it d c dy]; simpl. destruct p; try done.
  - intros <-%(inj Some). destruct Hop; simpl in *; try discriminate; contradict_stage. subst.
    assert (item_ok (now sy) (Op w Connected (Some (Item (resolve_at_start w (now sy)) false false false)) false NotCalled Alive)) as Hit.
    { intros it [= <-]. simpl. split; [split; [done|by intros [?|?]]|]. exists (now sy). split; [lia|done]. }
    apply (rest_op i _ _ _ Hr Hi).
    + destruct m; op_goes_on.
    + intros _. destruct m; (done || exact Hit).
  - intros <-%(inj Some). apply (rest_op i _ _ _ Hr Hi); destruct throws, inline; try op_goes_on; try item_same.
    intros Ho it' E. simpl in *. destruct it as [it|]; [|done]. simpl in E. injection E as <-. simpl.
    destruct (Ho _ eq_refl) as [Hs Hd]. simpl in *. split; [|done].
    destruct (op_ok_installing _ _ _ _ Hop eq_refl) as [Hc _]. simpl in Hc. subst c. naive_solver.
  - destruct c; try done. intros <-%(inj Some). apply (rest_op i _ _ _ Hr Hi); [op_goes_on|item_same].
  - unfold enqueue. destruct (decide (stop (shared sy) = true)) as [Hstop|Hstop%not_true_is_false]; rewrite Hstop at 1; [|destruct throws].
    1, 2: rewrite set_shared_same; intros <-%(inj Some); apply (rest_op i _ _ _ Hr Hi); [op_goes_on|item_same].
    intros <-%(inj Some). apply rest_notify. eapply enqueue_rest; [exact Hr|exact Hlen|exact Hi|exact Hstop| |op_goes_on|item_same].
    destruct Hop; simpl in *; try discriminate; contradict_stage. by eapply bool_decide_eq_false_1.
  - intros <-%(inj Some). apply (rest_op i _ _ _ Hr Hi); [op_goes_on|item_same].
  - intros <-%(inj Some). apply (rest_op i _ _ _ Hr Hi); destruct d; try op_goes_on; try item_same.
  - intros <-%(inj Some). eapply (rest_update i); [exact Hr|exact Hi|done|op_goes_on|item_same|done|apply goes_on_refl|done|done|].
    intros e [He|He]%elem_of_app; [by left|right]. apply list_elem_of_singleton in He as ->. split; [simpl; lia|]. right.
    simpl. eexists. split; [apply list_lookup_insert_eq; by eapply lookup_lt_Some|]. by left.
  - intros <-%(inj Some). apply (rest_op i _ _ _ Hr Hi); [op_goes_on|item_same].
Qed.

Lemma callback_step_rest i sy sy' : rest_ok sy -> callback_step i sy = Some sy' -> rest_ok sy'.
Proof.
  intros Hr. unfold callback_step. destruct (ops sy !! i) as [o|] eqn:Hi; [|done].
  destruct o as [w p it d c dy]; simpl. destruct c; try done; intros <-%(inj Some); [|apply rest_notify].
  - apply (rest_op i _ _ _ Hr Hi); [op_goes_on|]. intros Ho it' E. apply fmap_Some in E as (it0 & E & ->). simpl in *.
    destruct (Ho _ E) as [_ Hd]. split; [|done]. split; [by left|done].
  - apply (rest_op i _ _ _ Hr Hi); [op_goes_on|]. intros Ho it' E. simpl in *. destruct (Ho _ E) as [Hs Hd]. split; [|done].
    rewrite Hs. simpl. tauto.
Qed.

(** The list and the counter change, as the worker does. *)
Lemma rest_shared st' w sy :
  rest_ok sy -> stop st' = stop (shared sy) -> NoDup (items st') -> (forall j, j ∈ items st' -> j ∈ items (shared sy)) ->
  pending st' = Z.of_nat (length (items st')) + busy w ->
  (forall j, at_worker w j <> Elsewhere -> is_Some (ops sy !! j)) ->
  (forall j b, carried w = Some (j, b) -> if b then asked_to_stop sy j else due sy j (now sy)) ->
  (w = WorkerReturned -> stop st' = true /\ items st' = []) -> rest_ok (set_idle O O (set_worker w (set_shared st' sy))).
Proof.
  intros [H1 H2 H3 H4 H5 H6 H7 H8 H9 H10] Hstop Hnd Hin Hp Hw Hc Hret. constructor; simpl; try done; [by auto| |].
  - intros j b Hj. specialize (Hc j b Hj). destruct b; [|done]. unfold asked_to_stop in *. simpl. by rewrite Hstop.
  - intros e He. specialize (H8 e He). unfold told_cause, asked_to_stop in *. simpl. by rewrite Hstop.
Qed.
Lemma rest_idle sy : rest_ok (set_idle O O sy) -> rest_ok (notify_idle (pending (shared sy) =? 0) sy).
Proof.
  intros [H1 H2 H3 H4 H5 H6 H7 H8 H9 _]. unfold notify_idle. destruct (Z.eqb_spec (pending (shared sy)) 0); by constructor.
Qed.
Lemma rest_awake c b sy : rest_ok (set_idle O O sy) -> (b <> O -> pending (shared sy) <> 0) -> rest_ok (set_idle c b sy).
Proof. intros [H1 H2 H3 H4 H5 H6 H7 H8 H9 _] Hb. by constructor. Qed.

Lemma pending_range sy : rest_ok sy -> Z.of_nat (length (ops sy)) + 2 < 2 ^ 64 ->
  0 <= pending (shared sy) < 2 ^ 64 - 1.
Proof.
  intros Hr Hlen. pose proof (items_bound _ Hr). rewrite (re_pending _ Hr). destruct (worker sy); simpl; lia.
Qed.

Lemma discard_rest i l1 l2 sy :
  rest_ok sy -> Z.of_nat (length (ops sy)) + 2 < 2 ^ 64 -> items (shared sy) = l1 ++ i :: l2 ->
  rest_ok (set_idle O O (set_shared (State (l1 ++ l2) (stop (shared sy)) (u64 (pending (shared sy) - 1))) sy)).
Proof.
  intros Hr Hlen Hl. destruct (taken_out _ _ _ _ (re_nodup _ Hr) Hl) as (_ & _ & Hnd & Hn & Hsub & _).
  pose proof (pending_range _ Hr Hlen). pose proof (re_pending _ Hr) as Hp.
  assert (0 <= busy (worker sy)) by (destruct (worker sy); simpl; lia).
  apply (rest_shared _ (worker sy) _ Hr); simpl; try done.
  - rewrite u64_small; lia.
  - apply (re_worker _ Hr).
  - apply (re_carried _ Hr).
  - intros Hw. destruct (re_returned _ Hr Hw) as [_ E]. rewrite Hl in E. by destruct l1.
Qed.

Lemma destroy_step_rest i sy sy' :
  rest_ok sy -> Z.of_nat (length (ops sy)) + 2 < 2 ^ 64 -> destroy_step i sy = Some sy' -> rest_ok sy'.
Proof.
  intros Hr Hlen. unfold destroy_step. destruct (ops sy !! i) as [o|] eqn:Hi; [|done].
  destruct o as [w p it d c dy]; simpl. destruct dy; try done.
  - intros <-%(inj Some). apply (rest_op i _ _ _ Hr Hi); destruct it, d; first [op_goes_on|item_same].
  - unfold discard_item. rewrite in_items. destruct (bool_decide_reflect (i ∈ items (shared sy))) as [Hin|Hout].
    + unfold count_done, after, modify, read, give. cbv beta iota. intros <-%(inj Some).
      apply erase_split in Hin as (l1 & l2 & Hl & He). simpl. rewrite He.
      apply (rest_idle (set_op i _ (set_shared (State (l1 ++ l2) (stop (shared sy)) (u64 (pending (shared sy) - 1))) sy))).
      apply (rest_op i (Op w p it d c Discarding) _ _ (discard_rest _ _ _ _ Hr Hlen Hl) Hi); [op_goes_on|item_same].
    + rewrite set_shared_same. intros <-%(inj Some). apply (rest_op i _ _ _ Hr Hi); [op_goes_on|item_same].
  - intros <-%(inj Some). apply (rest_op i _ _ _ Hr Hi); [op_goes_on|item_same].
  - destruct it as [it|]; [|done]. simpl. destruct (delivered it); [|done]. intros <-%(inj Some).
    apply (rest_op i _ _ _ Hr Hi); [op_goes_on|item_same].
Qed.

Lemma items_found sy i : rest_ok sy -> ops_ok sy -> i ∈ items (shared sy) -> is_Some (find_item sy i).
Proof.
  intros Hr Hok Hin. destruct (re_items _ Hr i Hin) as [o Hi]. pose proof (Hok _ _ Hi) as Hop. unfold find_item. rewrite Hi.
  rewrite bool_decide_true in Hop by done. destruct Hop; try done. destruct (the_item o); [by eexists|done].
Qed.
Lemma queued_returned sy i o : ops_ok sy -> i ∈ items (shared sy) -> ops sy !! i = Some o -> starting o = Returned true.
Proof. intros Hok Hin Hi. pose proof (Hok _ _ Hi) as Hop. rewrite bool_decide_true in Hop by done. by destruct Hop. Qed.
Lemma found_item sy i it : find_item sy i = Some it -> exists o, ops sy !! i = Some o /\ the_item o = Some it.
Proof. unfold find_item. destruct (ops sy !! i) as [o|]; [by exists o|done]. Qed.

Lemma worker_take_rest sy i b st' :
  rest_ok sy -> ops_ok sy -> worker sy = AtLock -> choice_ok (find_item sy) (now sy) (shared sy) (Take i b) st' ->
  rest_ok (set_worker (WorkerReset i b) (set_shared st' sy)).
Proof.
  intros Hr Hok Hw (Hstop & Hp & (l1 & l2 & Hl & Hl') & Hc).
  destruct (taken_out _ _ _ _ (re_nodup _ Hr) Hl) as (Hin & _ & Hnd & Hn & Hsub & _). apply bool_decide_eq_true in Hin.
  pose proof (re_pending _ Hr) as Hpend. rewrite Hw in Hpend. simpl in Hpend.
  apply (rest_awake (idle_checking sy) (idle_blocked sy) (set_worker (WorkerReset i b) (set_shared st' sy)));
    [|simpl; rewrite Hp; apply (re_idle _ Hr)].
  apply (rest_shared st' (WorkerReset i b) _ Hr Hstop); simpl; rewrite ?Hl'; try done; [lia| |].
  - intros j Hj. destruct (Nat.eqb_spec i j) as [E|]; [subst j|done]. by apply (re_items _ Hr).
  - intros j b' [= <- <-]. destruct b.
    + destruct Hc as [?|(it & Hit & ?)]; [by left|right]. destruct (found_item _ _ _ Hit) as (o & ? & ?). by exists o, it.
    + destruct Hc as (_ & it & Hit & Hd & _). destruct (found_item _ _ _ Hit) as (o & Hi & ?). exists o, it.
      split_and!; try done. by eapply queued_returned.
Qed.

(** The worker goes on with what it has taken. *)
Lemma worker_goes_on_rest w sy : rest_ok sy -> goes_on (worker sy) w -> rest_ok (set_worker w sy).
Proof.
  intros [H1 H2 H3 H4 H5 H6 H7 H8 H9 H10] (Ha & Hb & Hc & Hret). constructor; simpl; rewrite ?Hb; auto.
  intros j b Hj. apply (H7 j b). by apply Hc.
Qed.

Lemma log_rest i sig sy : rest_ok sy -> told_cause sy (i, sig, now sy) -> rest_ok (add_log i sig sy).
Proof.
  intros [H1 H2 H3 H4 H5 H6 H7 H8 H9 H10] Hc. constructor; simpl; try done.
  intros e [He| ->%list_elem_of_singleton]%elem_of_app; [by apply H8|done].
Qed.

Ltac on_the_way Hw :=
  simpl; rewrite Hw; split_and!; simpl; try done; let j := fresh in intros j; by destruct (_ =? j)%nat.
Lemma worker_step_rest sy sy' :
  rest_ok sy -> ops_ok sy -> Z.of_nat (length (ops sy)) + 2 < 2 ^ 64 -> worker_step sy = Some sy' -> rest_ok sy'.
Proof.
  intros Hr Hok Hlen. pose proof (re_pending _ Hr) as Hpend. pose proof (pending_range _ Hr Hlen) as Hrange.
  unfold worker_step. destruct (worker sy) as [|u|i b|i b|i b|i| |] eqn:Hw; simpl in Hpend.
  - destruct (choose_ok (find_item sy) (now sy) (shared sy)) as (c & st' & -> & Hc); [intros; by apply items_found|].
    intros <-%(inj Some). destruct c as [|i b|u]; [|by apply worker_take_rest|].
    + destruct Hc as (Hs & Hp & Hstop & Hi & Hi'). apply (rest_idle (set_worker WorkerReturned (set_shared st' sy))).
      apply (rest_shared st' WorkerReturned _ Hr Hs); rewrite ?Hi'; simpl; try done; [apply NoDup_nil_2|by intros j ?%not_elem_of_nil| |].
      * rewrite Hp, Hpend, Hi. done.
      * intros _. split; [congruence|done].
    + destruct Hc as (_ & _ & _ & -> & _). rewrite set_shared_same.
      assert (rest_ok (set_worker (Asleep u) sy)) as Hr'.
      { apply worker_goes_on_rest; [done|]. on_the_way Hw. }
      destruct u; [done|by apply rest_notify_idle].
  - destruct u as [t|]; [|done]. destruct (t <=? now sy); [|done]. intros <-%(inj Some).
    apply worker_goes_on_rest; [done|]. on_the_way Hw.
  - destruct (ops sy !! i) as [o|] eqn:Hi; [|done]. intros <-%(inj Some).
    apply worker_goes_on_rest; [apply (rest_op i _ _ _ Hr Hi); [op_goes_on|item_same]|]. on_the_way Hw.
  - destruct (ops sy !! i) as [o|] eqn:Hi; [|done]. intros <-%(inj Some). destruct (done o).
    + apply worker_goes_on_rest; [done|]. on_the_way Hw.
    + apply worker_goes_on_rest; [apply (rest_op i _ _ _ Hr Hi); [op_goes_on|item_same]|]. on_the_way Hw.
  - intros <-%(inj Some). apply worker_goes_on_rest; [|on_the_way Hw].
    apply log_rest; [done|]. pose proof (re_carried _ Hr i b) as Hc. rewrite Hw in Hc. specialize (Hc eq_refl).
    split; [simpl; pose proof (re_start _ Hr); lia|]. destruct b; simpl; [by left|done].
  - destruct (ops sy !! i) as [o|] eqn:Hi; [|done]. intros <-%(inj Some).
    apply worker_goes_on_rest; [apply (rest_op i _ _ _ Hr Hi); [op_goes_on|item_same]|]. on_the_way Hw.
  - unfold count_done, after, modify, read, give. cbv beta iota. intros <-%(inj Some). simpl.
    apply (rest_idle (set_worker AtLock (set_shared (State (items (shared sy)) (stop (shared sy)) (u64 (pending (shared sy) - 1))) sy))).
    apply (rest_shared _ AtLock _ Hr); simpl; try done; [apply (re_nodup _ Hr)|]. rewrite u64_small; lia.
  - done.
Qed.

Lemma start_rest i sy sy' : rest_ok sy -> start i sy = Some sy' -> rest_ok sy'.
Proof.
  intros Hr. unfold start. destruct (ops sy !! i) as [o|] eqn:Hi; [|done].
  destruct o as [w p it d c dy]; simpl. destruct p; try done. intros <-%(inj Some).
  apply (rest_op i _ _ _ Hr Hi); [op_goes_on|item_same].
Qed.
Lemma token_stops_rest i sy sy' : rest_ok sy -> token_stops i sy = Some sy' -> rest_ok sy'.
Proof.
  intros Hr. unfold token_stops. destruct (ops sy !! i) as [o|] eqn:Hi; [|done].
  destruct o as [w p it d c dy]; simpl. destruct c, it as [it|]; try done. destruct (stop_callback it); [|done].
  intros <-%(inj Some). apply (rest_op i _ _ _ Hr Hi); [op_goes_on|]. intros Ho it' E. simpl in *. destruct (Ho _ E) as [Hs Hd].
  split; [|done]. rewrite Hs. naive_solver.
Qed.
Lemma destroy_rest i sy sy' : rest_ok sy -> destroy i sy = Some sy' -> rest_ok sy'.
Proof.
  intros Hr. unfold destroy. destruct (ops sy !! i) as [o|] eqn:Hi; [|done].
  destruct o as [w p it d c dy]; simpl. destruct dy, p, (told i sy); try done; intros <-%(inj Some);
    (apply (rest_op i _ _ _ Hr Hi); [op_goes_on|item_same]).
Qed.
Lemma destroy_inside_rest i sy sy' : rest_ok sy -> destroy_inside i sy = Some sy' -> rest_ok sy'.
Proof.
  intros Hr. unfold destroy_inside. destruct (ops sy !! i) as [o|] eqn:Hi; [|done].
  destruct (dying o); try done. destruct (told i sy && _); [|done]. intros <-%(inj Some).
  apply (rest_op i _ _ _ Hr Hi); [op_goes_on|item_same].
Qed.
Lemma shut_rest sy sy' : rest_ok sy -> shut sy = Some sy' -> rest_ok sy'.
Proof.
  intros [H1 H2 H3 H4 H5 H6 H7 H8 H9 H10]. unfold shut, shutdown, modify. intros <-%(inj Some).
  constructor; simpl; try done.
  - intros i b Hj. specialize (H7 i b Hj). destruct b; [by left|done].
  - intros e He. destruct (H8 e He) as [Ht Hc]. split; [done|]. destruct (e.1.2); [done|]. by left; left.
  - intros Hw. by destruct (H9 Hw).
Qed.
Lemma tick_rest t sy : rest_ok sy -> now sy <= t -> rest_ok (set_now t sy).
Proof.
  intros [H1 H2 H3 H4 H5 H6 H7 H8 H9 H10] Ht. assert (later sy (set_now t sy)) as Hl by (by apply later_same).
  constructor; simpl; try done; [lia| | |].
  - intros i o Hi it Hit. destruct (H6 _ _ Hi it Hit) as [? (t1 & ? & ?)]. split; [done|]. exists t1. split; [lia|done].
  - intros i b Hj. specialize (H7 i b Hj). destruct b; [by eapply later_asked|]. by eapply later_due.
  - intros e He. eapply later_told; [done|auto].
Qed.
Lemma notifying_rest n sy : rest_ok sy -> rest_ok (set_notifying n sy).
Proof. intros [H1 H2 H3 H4 H5 H6 H7 H8 H9 H10]. by constructor. Qed.
Lemma idle_rest c b sy : rest_ok sy -> (b <> O -> pending (shared sy) <> 0) -> rest_ok (set_idle c b sy).
Proof. intros [H1 H2 H3 H4 H5 H6 H7 H8 H9 H10] Hb. by constructor. Qed.

(** ** Steps keep the worker awake when it is needed *)
Lemma asleep_notify sy : asleep_ok (notify sy).
Proof. intros u. unfold notify. destruct (worker sy) eqn:Hw; simpl; congruence. Qed.
Lemma asleep_awake sy : (forall u, worker sy <> Asleep u) -> asleep_ok sy.
Proof. intros Hw u E. by destruct (Hw u). Qed.
Lemma asleep_notify_idle b sy : asleep_ok sy -> asleep_ok (notify_idle b sy).
Proof. by destruct b. Qed.

Lemma asleep_op i o o' sy :
  asleep_ok sy -> ops sy !! i = Some o -> (called o' = CallbackOver -> called o = CallbackOver) ->
  (i ∈ items (shared sy) -> forall it', the_item o' = Some it' -> exists it, the_item o = Some it /\ deadline it' = deadline it) ->
  asleep_ok (set_op i o' sy).
Proof.
  intros Ha Hi Hc Hit u Hw. destruct (Ha u Hw) as [Hs Hq]. split; [done|]. intros j o1 Hj Hj'. simpl in *.
  destruct (decide (j = i)) as [->|Hn].
  - rewrite list_lookup_insert_eq in Hj' by (by eapply lookup_lt_Some). injection Hj' as <-.
    destruct (Hq i o Hj Hi) as [Hco Hd]. split; [auto|]. intros it' E. destruct (Hit Hj it' E) as (it & E' & ->). by apply Hd.
  - rewrite list_lookup_insert_ne in Hj' by done. by eapply Hq.
Qed.

Ltac asleep_same :=
  first [done | intros _ ? ?; simpl in *; first [by eexists | simplify_eq; by eexists
    | match goal with E : _ <$> _ = Some _ |- _ => apply fmap_Some in E as (? & ? & ->); by eexists end]].

Lemma start_step_asleep i m throws inline sy sy' :
  ops_ok sy -> asleep_ok sy -> start_step i m throws inline sy = Some sy' -> asleep_ok sy'.
Proof.
  intros Hok Ha. unfold start_step. destruct (ops sy !! i) as [o|] eqn:Hi; [|done].
  assert (i ∈ items (shared sy) -> starting o = Returned true) as Hq by (intros Hin; by eapply queued_returned).
  destruct o as [w p it d c dy]; simpl in *.
  destruct p; try done.
  - intros <-%(inj Some). apply (asleep_op i _ _ _ Ha Hi); [by destruct m|intros Hin; by specialize (Hq Hin)].
  - intros <-%(inj Some). apply (asleep_op i _ _ _ Ha Hi); [by destruct throws, inline|intros Hin; by specialize (Hq Hin)].
  - destruct c; try done. intros <-%(inj Some). apply (asleep_op i _ _ _ Ha Hi); asleep_same.
  - unfold enqueue. destruct (stop (shared sy)), throws; try (intros <-%(inj Some); apply asleep_notify).
    all: rewrite set_shared_same; intros <-%(inj Some); apply (asleep_op i _ _ _ Ha Hi); asleep_same.
  - intros <-%(inj Some). apply (asleep_op i _ _ _ Ha Hi); asleep_same.
  - intros <-%(inj Some). apply (asleep_op i _ _ _ Ha Hi); destruct d; asleep_same.
  - intros <-%(inj Some). assert (asleep_ok (set_op i (set_starting InlineFinish (Op w InlineTell it d c dy)) sy)); [|done].
    apply (asleep_op i _ _ _ Ha Hi); asleep_same.
  - intros <-%(inj Some). apply (asleep_op i _ _ _ Ha Hi); asleep_same.
Qed.

Lemma callback_step_asleep i sy sy' : asleep_ok sy -> callback_step i sy = Some sy' -> asleep_ok sy'.
Proof.
  intros Ha. unfold callback_step. destruct (ops sy !! i) as [o|] eqn:Hi; [|done].
  destruct o as [w p it d c dy]; simpl. destruct c; try done; intros <-%(inj Some); [|apply asleep_notify].
  apply (asleep_op i _ _ _ Ha Hi); asleep_same.
Qed.

Lemma destroy_step_asleep i sy sy' : asleep_ok sy -> destroy_step i sy = Some sy' -> asleep_ok sy'.
Proof.
  intros Ha. unfold destroy_step. destruct (ops sy !! i) as [o|] eqn:Hi; [|done].
  destruct o as [w p it d c dy]; simpl. destruct dy; try done.
  - intros <-%(inj Some). apply (asleep_op i _ _ _ Ha Hi); destruct it, d; asleep_same.
  - unfold discard_item. destruct (existsb _ _) eqn:He.
    + unfold count_done, after, modify, read, give. cbv beta iota. intros <-%(inj Some). apply asleep_notify_idle. simpl.
      rewrite in_items in He. apply bool_decide_eq_true in He. apply erase_split in He as (l1 & l2 & Hl & He).
      apply (asleep_op i (Op w p it d c Discarding) _ (set_shared (State (erase i (items (shared sy))) (stop (shared sy)) (u64 (pending (shared sy) - 1))) sy));
        [|exact Hi|asleep_same|asleep_same].
      intros u Hw. destruct (Ha u Hw) as [Hs Hq]. split; [done|]. simpl. intros j o Hj. apply Hq. rewrite He in Hj. rewrite Hl. set_solver.
    + rewrite set_shared_same. intros <-%(inj Some). apply (asleep_op i _ _ _ Ha Hi); asleep_same.
  - intros <-%(inj Some). apply (asleep_op i _ _ _ Ha Hi); asleep_same.
  - destruct it as [it|]; [|done]. simpl. destruct (delivered it); [|done]. intros <-%(inj Some).
    apply (asleep_op i _ _ _ Ha Hi); asleep_same.
Qed.

Lemma worker_step_asleep sy sy' : rest_ok sy -> ops_ok sy -> worker_step sy = Some sy' -> asleep_ok sy'.
Proof.
  intros Hr Hok. unfold worker_step. destruct (worker sy) as [|u|i b|i b|i b|i| |] eqn:Hw; try done.
  - destruct (choose_ok (find_item sy) (now sy) (shared sy)) as (c & st' & -> & Hc); [intros; by apply items_found|].
    intros <-%(inj Some). destruct c as [|i b|u]; [by apply asleep_notify_idle|done|].
    destruct Hc as (_ & _ & Hs & -> & Hq & _).
    assert (asleep_ok (set_worker (Asleep u) (set_shared (shared sy) sy))) as Ha.
    { intros u' [= <-]. simpl. rewrite Hs. split; [done|]. intros i o Hin Hi.
      destruct (Hq i Hin) as (it & t & Hf & Hn & -> & Ht). destruct (found_item _ _ _ Hf) as (o' & Hi' & Hit).
      rewrite Hi in Hi'. injection Hi' as <-. destruct (re_item _ Hr _ _ Hi _ Hit) as [Hreq _]. split.
      - intros Hc. rewrite Hn in Hreq. by discriminate (proj2 Hreq (or_intror Hc)).
      - intros it' Hit'. rewrite Hit in Hit'. injection Hit' as <-. by exists t. }
    destruct u; [done|by apply asleep_notify_idle].
  - destruct u as [t|]; [|done]. destruct (t <=? now sy); [|done]. intros <-%(inj Some). by apply asleep_awake.
  - destruct (ops sy !! i) as [o|] eqn:Hi; [|done]. intros <-%(inj Some). by apply asleep_awake.
  - destruct (ops sy !! i) as [o|] eqn:Hi; [|done]. intros <-%(inj Some). destruct (done o); by apply asleep_awake.
  - intros <-%(inj Some). by apply asleep_awake.
  - destruct (ops sy !! i) as [o|] eqn:Hi; [|done]. intros <-%(inj Some). by apply asleep_awake.
  - unfold count_done, after, modify, read, give. cbv beta iota. intros <-%(inj Some).
    apply asleep_notify_idle. by apply asleep_awake.
Qed.

(** ** All of it *)
Record timer_ok sy : Prop := TimerOk { tm_ops : ops_ok sy; tm_rest : rest_ok sy; tm_asleep : asleep_ok sy }.

(** No step changes what an operation is to wait for, or forgets one. *)
Lemma notify_ops_same sy : ops (notify sy) = ops sy.
Proof. unfold notify. by destruct (worker sy). Qed.
Lemma notify_idle_ops_same b sy : ops (notify_idle b sy) = ops sy.
Proof. by destruct b. Qed.
Lemma insert_whens (i : nat) o o' (l : list op) : l !! i = Some o -> when_ o' = when_ o -> when_ <$> <[i := o']> l = when_ <$> l.
Proof. intros Hi Ho. rewrite list_fmap_insert, Ho. apply list_insert_id. by rewrite list_lookup_fmap, Hi. Qed.
Ltac same_whens :=
  repeat first
    [done | progress simpl | rewrite notify_ops_same | rewrite notify_idle_ops_same
    | match goal with
      | |- _ = Some _ -> _ => intros <-%(inj Some)
      | Hi : ops ?sy !! ?i = Some _ |- context [<[?i := _]> (ops ?sy)] => by apply (insert_whens _ _ _ _ Hi)
      | |- context [match ?x with _ => _ end] => destruct x eqn:?
      end].
Lemma internal_whens sy sy' : internal sy sy' -> when_ <$> ops sy' = when_ <$> ops sy.
Proof.
  intros [i m throws inline sy1 Hs|sy1 Hs|i sy1 Hs|i sy1 Hs|sy1 Hs|sy1 Hs]; revert Hs.
  - unfold start_step, enqueue. same_whens.
  - unfold worker_step, count_done, after, modify, read, give. same_whens.
  - unfold callback_step. same_whens.
  - unfold destroy_step, discard_item. same_whens.
  - unfold shutdown_notifies. same_whens.
  - unfold idle_step. same_whens.
Qed.
Lemma step_whens sy sy' : step sy sy' -> when_ <$> ops sy' = when_ <$> ops sy.
Proof.
  intros [sy1 Hs|i sy1 Hs|i sy1 Hs|i sy1 Hs|i sy1 Hs|sy1 Hs|sy1 Hs|t Ht|u Hu|n Hn]; try done; [by apply internal_whens| ..]; revert Hs.
  - unfold start. same_whens.
  - unfold token_stops. same_whens.
  - unfold destroy. same_whens.
  - unfold destroy_inside. same_whens.
  - unfold shut, shutdown, modify. same_whens.
  - unfold wait. same_whens.
Qed.

Lemma timer_internal_ok sy sy' : timer_ok sy -> Z.of_nat (length (ops sy)) + 2 < 2 ^ 64 -> internal sy sy' -> timer_ok sy'.
Proof.
  intros [Hok Hr Ha] Hlen [i m throws inline sy1 Hs|sy1 Hs|i sy1 Hs|i sy1 Hs|sy1 Hs|sy1 Hs].
  - split; [by eapply start_step_ops|by eapply start_step_rest|by eapply start_step_asleep].
  - split; [|by eapply worker_step_rest|by eapply worker_step_asleep].
    eapply worker_step_ops; [apply (re_nodup _ Hr)|intros; by apply items_found|apply (re_worker _ Hr)|done|done].
  - split; [by eapply callback_step_ops|by eapply callback_step_rest|by eapply callback_step_asleep].
  - split; [|by eapply destroy_step_rest|by eapply destroy_step_asleep]. eapply destroy_step_ops; [apply (re_nodup _ Hr)|done|done].
  - unfold shutdown_notifies in Hs. destruct (notifying sy) as [|n]; [done|]. injection Hs as <-.
    split; [by apply notify_ops|by apply rest_notify, notifying_rest|apply asleep_notify].
  - unfold idle_step in Hs. destruct (idle_checking sy) as [|n]; [done|]. injection Hs as <-. pose proof (re_idle _ Hr).
    destruct (Z.eqb_spec (pending (shared sy)) 0); (split; [done|by apply idle_rest|done]).
Qed.
Lemma timer_step_ok sy sy' : timer_ok sy -> Z.of_nat (length (ops sy)) + 2 < 2 ^ 64 -> step sy sy' -> timer_ok sy'.
Proof.
  intros Ht Hlen Hs. pose proof Ht as [Hok Hr Ha].
  destruct Hs as [sy1 Hs|i sy1 Hs|i sy1 Hs|i sy1 Hs|i sy1 Hs|sy1 Hs|sy1 Hs|t Hn|u Hu|n Hn].
  - by eapply timer_internal_ok.
  - split; [by eapply start_ops|by eapply start_rest|]. unfold start in Hs. destruct (ops sy !! i) as [o|] eqn:Hi; [|done].
    destruct (starting o); try done. injection Hs as <-. apply (asleep_op i _ _ _ Ha Hi); asleep_same.
  - split; [by eapply token_stops_ops|by eapply token_stops_rest|]. unfold token_stops in Hs.
    destruct (ops sy !! i) as [o|] eqn:Hi; [|done]. destruct (called o), (the_item o) as [it|]; try done.
    destruct (stop_callback it); [|done]. injection Hs as <-. apply (asleep_op i _ _ _ Ha Hi); asleep_same.
  - split; [by eapply destroy_ops|by eapply destroy_rest|]. unfold destroy in Hs.
    destruct (ops sy !! i) as [o|] eqn:Hi; [|done]. destruct (dying o), (starting o), (told i sy); try done; injection Hs as <-;
      (apply (asleep_op i _ _ _ Ha Hi); asleep_same).
  - split; [by eapply destroy_inside_ops|by eapply destroy_inside_rest|]. unfold destroy_inside in Hs.
    destruct (ops sy !! i) as [o|] eqn:Hi; [|done]. destruct (dying o); try done. destruct (told i sy && _); [|done].
    injection Hs as <-. apply (asleep_op i _ _ _ Ha Hi); asleep_same.
  - split; [|by eapply shut_rest|]; unfold shut, shutdown, modify in Hs; injection Hs as <-; [done|].
    intros u Hu. destruct (Ha u Hu). done.
  - unfold wait in Hs. injection Hs as <-. split; [done|by apply idle_rest, (re_idle _ Hr)|done].
  - split; [done|by apply tick_rest|done].
  - split; [|apply worker_goes_on_rest; [done|by rewrite Hu]|by apply asleep_awake].
    eapply ops_ok_same; [exact Hok|done|]. intros j. simpl. by rewrite Hu.
  - split; [done| |done]. apply idle_rest; [done|]. intros _. apply (re_idle _ Hr). by rewrite Hn.
Qed.

Lemma init_ok whens : timer_ok (init t0 whens).
Proof.
  split.
  - intros i o Hi. simpl in *. apply list_lookup_fmap_Some in Hi as (w & -> & _). by eapply ok_early; [left|..].
  - constructor; simpl; try done; [apply NoDup_nil_2|by intros i ?%not_elem_of_nil| |by intros i ?%not_elem_of_nil].
    intros i o Hi it Hit. apply list_lookup_fmap_Some in Hi as (w & -> & _). done.
  - by apply asleep_awake.
Qed.

Lemma timer_reachable_ok whens sy :
  Z.of_nat (length whens) + 2 < 2 ^ 64 -> reachable t0 whens sy -> timer_ok sy /\ when_ <$> ops sy = whens.
Proof.
  intros Hlen. induction 1 as [|sy sy' Hr [IH Hl] Hs].
  { split; [apply init_ok|]. simpl. rewrite <- list_fmap_compose. by apply list_fmap_id. }
  split; [eapply timer_step_ok; [done| |done]|by rewrite (step_whens _ _ Hs)].
  by rewrite <- Hl, length_fmap in Hlen.
Qed.
End rest.
