(* ===== verification/TimerProps.v ===== *)
(** * Timers: the properties

    The steps that are left, that nothing gets stuck, and what that means for those
    who wait. *)
From S2P Require Import Prelude TimerContext TimerInv.

#[local] Open Scope Z_scope.

(** ** The steps that are left *)
Definition start_weight (p : start_phase) : nat :=
  match p with
  | Making => 18 | Installing => 17 | CalledInline => 11 | Enqueueing => 10
  | InlineReset => 4 | InlineComplete => 3 | InlineTell => 2 | InlineFinish => 1
  | Connected | Returned _ | Abandoned => 0
  end.
Definition callback_weight (p : callback_phase) : nat := match p with Requesting => 5 | Notifying => 4 | _ => 0 end.
Definition destroy_weight (p : destroy_phase) : nat :=
  match p with Claiming => 3 | Discarding => 2 | Resetting | Waiting => 1 | Alive | Destroyed => 0 end.
Definition op_weight o : nat := start_weight (starting o) + callback_weight (called o) + destroy_weight (dying o).
Definition worker_weight (now : Z) (w : worker_phase) : nat :=
  match w with
  | WorkerReset _ _ => 7 | WorkerComplete _ _ => 6 | WorkerTell _ _ => 5 | WorkerFinish _ => 4 | WorkerCount => 3
  | AtLock => 2
  | Asleep (Some t) => if t <=? now then 3 else 0
  | Asleep None | WorkerReturned => 0
  end.
Definition busyness sy : nat :=
  sum_list_with op_weight (ops sy) + worker_weight (now sy) (worker sy) + 4 * notifying sy + 6 * length (items (shared sy)).
(** Those who wait for the context to be idle may look once for each step of others. *)
Definition work sy : nat := S (idle_checking sy + idle_blocked sy) * busyness sy + idle_checking sy.

Lemma work_less sy sy' :
  (busyness sy' < busyness sy)%nat -> (idle_checking sy' + idle_blocked sy' <= idle_checking sy + idle_blocked sy)%nat ->
  (work sy' < work sy)%nat.
Proof.
  intros Hb Hi. unfold work.
  assert (S (idle_checking sy' + idle_blocked sy') * S (busyness sy') <= S (idle_checking sy + idle_blocked sy) * busyness sy)%nat
    by (apply Nat.mul_le_mono; lia). lia.
Qed.
Lemma notify_busyness sy : (busyness (notify sy) <= busyness sy + 2)%nat.
Proof. unfold notify, busyness. destruct (worker sy) as [|[t|]| | | | | |] eqn:Hw; rewrite ?Hw; cbn; lia. Qed.
Lemma notify_waiting sy : idle_checking (notify sy) = idle_checking sy /\ idle_blocked (notify sy) = idle_blocked sy.
Proof. unfold notify. by destruct (worker sy). Qed.
Lemma notify_idle_busyness b sy : busyness (notify_idle b sy) = busyness sy.
Proof. by destruct b. Qed.
Lemma notify_idle_waiting b sy :
  (idle_checking (notify_idle b sy) + idle_blocked (notify_idle b sy) = idle_checking sy + idle_blocked sy)%nat.
Proof. destruct b; simpl; lia. Qed.

Lemma op_work i o o' sy :
  ops sy !! i = Some o -> (op_weight o' < op_weight o)%nat -> (busyness (set_op i o' sy) < busyness sy)%nat.
Proof. intros Hi Hw. unfold busyness. simpl. pose proof (sum_insert op_weight _ _ _ o' Hi). lia. Qed.

Lemma op_step_work i o o' sy : ops sy !! i = Some o -> (op_weight o' < op_weight o)%nat -> (work (set_op i o' sy) < work sy)%nat.
Proof. intros Hi Hw. apply work_less; [|done]. by eapply op_work. Qed.

Lemma timer_start_step_work i m throws inline sy sy' : start_step i m throws inline sy = Some sy' -> (work sy' < work sy)%nat.
Proof.
  unfold start_step. destruct (ops sy !! i) as [o|] eqn:Hi; [|done].
  destruct o as [w p it d c dy]; simpl. destruct p; try done.
  - intros <-%(inj Some). apply (op_step_work i _ _ _ Hi). destruct m; unfold op_weight; simpl; lia.
  - intros <-%(inj Some). apply (op_step_work i _ _ _ Hi). destruct throws, inline; unfold op_weight; simpl; lia.
  - destruct c; try done. intros <-%(inj Some). apply (op_step_work i _ _ _ Hi). unfold op_weight; simpl; lia.
  - unfold enqueue. destruct (stop (shared sy)), throws.
    1-3: rewrite set_shared_same; intros <-%(inj Some); apply (op_step_work i _ _ _ Hi); unfold op_weight; simpl; lia.
    intros <-%(inj Some). apply work_less; [|by rewrite !(proj1 (notify_waiting _)), !(proj2 (notify_waiting _))].
    match goal with |- (busyness (notify ?x) < _)%nat => pose proof (notify_busyness x) as Hn; set (sy1 := x) in * end.
    assert (busyness sy1 + 4 = busyness sy)%nat; [|lia]. unfold busyness. simpl. rewrite length_app. simpl.
    pose proof (sum_insert op_weight _ _ _ (set_starting (Returned true) (Op w Enqueueing it d c dy)) Hi) as Hs.
    unfold op_weight in Hs at 2 4. simpl in Hs. lia.
  - intros <-%(inj Some). apply (op_step_work i _ _ _ Hi). unfold op_weight; simpl; lia.
  - intros <-%(inj Some). apply (op_step_work i _ _ _ Hi). destruct d; unfold op_weight; simpl; lia.
  - intros <-%(inj Some). apply (op_step_work i _ (set_starting InlineFinish (Op w InlineTell it d c dy)) _ Hi). unfold op_weight; simpl; lia.
  - intros <-%(inj Some). apply (op_step_work i _ _ _ Hi). unfold op_weight; simpl; lia.
Qed.

Lemma callback_step_work i sy sy' : callback_step i sy = Some sy' -> (work sy' < work sy)%nat.
Proof.
  unfold callback_step. destruct (ops sy !! i) as [o|] eqn:Hi; [|done].
  destruct o as [w p it d c dy]; simpl. destruct c; try done; intros <-%(inj Some).
  - apply (op_step_work i _ _ _ Hi). unfold op_weight; simpl; lia.
  - apply work_less; [|by rewrite !(proj1 (notify_waiting _)), !(proj2 (notify_waiting _))].
    match goal with |- (busyness (notify ?x) < _)%nat => pose proof (notify_busyness x) as Hn; set (sy1 := x) in * end.
    assert (busyness sy1 + 4 = busyness sy)%nat; [|lia]. unfold busyness. simpl.
    pose proof (sum_insert op_weight _ _ _ (set_called CallbackOver (Op w p it d Notifying dy)) Hi) as Hs.
    unfold op_weight in Hs at 2 4. simpl in Hs. lia.
Qed.

Lemma destroy_step_work i sy sy' : destroy_step i sy = Some sy' -> (work sy' < work sy)%nat.
Proof.
  unfold destroy_step. destruct (ops sy !! i) as [o|] eqn:Hi; [|done].
  destruct o as [w p it d c dy]; simpl. destruct dy; try done.
  - intros <-%(inj Some). apply (op_step_work i _ _ _ Hi). destruct it, d; unfold op_weight; simpl; lia.
  - unfold discard_item. destruct (existsb _ _) eqn:He.
    + unfold count_done, after, modify, read, give. cbv beta iota. intros <-%(inj Some). simpl.
      rewrite in_items in He. apply bool_decide_eq_true, erase_split in He as (l1 & l2 & Hl & He).
      apply work_less; [rewrite notify_idle_busyness|rewrite notify_idle_waiting; simpl; lia]. unfold busyness. simpl.
      rewrite He, Hl, !length_app. simpl.
      pose proof (sum_insert op_weight _ _ _ (set_dying Resetting (Op w p it d c Discarding)) Hi) as Hs.
      unfold op_weight in Hs at 2 4. simpl in Hs. lia.
    + rewrite set_shared_same. intros <-%(inj Some). apply (op_step_work i _ _ _ Hi). unfold op_weight; simpl; lia.
  - intros <-%(inj Some). apply (op_step_work i _ _ _ Hi). unfold op_weight; simpl; lia.
  - destruct it as [it|]; [|done]. simpl. destruct (delivered it); [|done]. intros <-%(inj Some).
    apply (op_step_work i _ _ _ Hi). unfold op_weight; simpl; lia.
Qed.

Lemma worker_work w sy :
  (worker_weight (now sy) w < worker_weight (now sy) (worker sy))%nat -> (work (set_worker w sy) < work sy)%nat.
Proof. intros Hw. apply work_less; [|done]. unfold busyness. simpl. lia. Qed.
Lemma op_worker_work i o o' w sy :
  ops sy !! i = Some o -> op_weight o' = op_weight o ->
  (worker_weight (now sy) w < worker_weight (now sy) (worker sy))%nat -> (work (set_worker w (set_op i o' sy)) < work sy)%nat.
Proof.
  intros Hi Ho Hw. apply work_less; [|done]. unfold busyness. simpl. pose proof (sum_insert op_weight _ _ _ o' Hi). lia.
Qed.

Section work.
Context (t0 : Z).

Lemma worker_step_work sy sy' : rest_ok t0 sy -> ops_ok sy -> worker_step sy = Some sy' -> (work sy' < work sy)%nat.
Proof.
  intros Hr Hok. unfold worker_step. destruct (worker sy) as [|u|i b|i b|i b|i| |] eqn:Hw; try done.
  - destruct (choose_ok (find_item sy) (now sy) (shared sy)) as (c & st' & -> & Hc); [intros; by eapply items_found|].
    intros <-%(inj Some). destruct c as [|i b|u].
    + destruct Hc as (_ & _ & _ & Hi & Hi'). apply work_less; [rewrite notify_idle_busyness|rewrite notify_idle_waiting; simpl; lia].
      unfold busyness. simpl. rewrite Hw, Hi, Hi'. simpl. lia.
    + destruct Hc as (_ & _ & (l1 & l2 & Hl & Hl') & _). apply work_less; [|done].
      unfold busyness. simpl. rewrite Hw, Hl, Hl', !length_app. simpl. lia.
    + destruct Hc as (_ & _ & _ & -> & _ & Hlt). rewrite set_shared_same.
      assert (worker_weight (now sy) (Asleep u) = O) as Hu.
      { destruct u as [t|]; [|done]. cbn [worker_weight]. rewrite (proj2 (Z.leb_gt _ _)); [done|by apply Hlt]. }
      assert (busyness (set_worker (Asleep u) sy) < busyness sy)%nat.
      { unfold busyness. simpl. rewrite Hw. cbn [worker_weight] in *. lia. }
      destruct u; [by apply work_less|]. apply work_less; [by rewrite notify_idle_busyness|rewrite notify_idle_waiting; simpl; lia].
  - destruct u as [t|]; [|done]. destruct (t <=? now sy) eqn:Ht; [|done]. intros <-%(inj Some).
    apply worker_work. rewrite Hw. cbn [worker_weight]. rewrite Ht. lia.
  - destruct (ops sy !! i) as [o|] eqn:Hi; [|done]. intros <-%(inj Some).
    eapply op_worker_work; [done|done|]. rewrite Hw. simpl. lia.
  - destruct (ops sy !! i) as [o|] eqn:Hi; [|done]. intros <-%(inj Some). destruct (done o).
    + apply worker_work. rewrite Hw. simpl. lia.
    + eapply op_worker_work; [done|done|]. rewrite Hw. simpl. lia.
  - intros <-%(inj Some). assert (work (set_worker (WorkerFinish i) sy) < work sy)%nat; [|done].
    apply worker_work. rewrite Hw. simpl. lia.
  - destruct (ops sy !! i) as [o|] eqn:Hi; [|done]. intros <-%(inj Some).
    eapply op_worker_work; [done|done|]. rewrite Hw. simpl. lia.
  - unfold count_done, after, modify, read, give. cbv beta iota. intros <-%(inj Some).
    apply work_less; [rewrite notify_idle_busyness|rewrite notify_idle_waiting; simpl; lia].
    unfold busyness. simpl. rewrite Hw. simpl. lia.
Qed.

Lemma timer_internal_work sy sy' : timer_ok t0 sy -> internal sy sy' -> (work sy' < work sy)%nat.
Proof.
  intros [Hok Hr Ha] [i m throws inline sy1 Hs|sy1 Hs|i sy1 Hs|i sy1 Hs|sy1 Hs|sy1 Hs].
  - by eapply timer_start_step_work.
  - by eapply worker_step_work.
  - by eapply callback_step_work.
  - by eapply destroy_step_work.
  - unfold shutdown_notifies in Hs. destruct (notifying sy) as [|n] eqn:Hn; [done|]. injection Hs as <-.
    apply work_less; [|rewrite (proj1 (notify_waiting _)), (proj2 (notify_waiting _)); simpl; lia].
    pose proof (notify_busyness (set_notifying n sy)) as Hb.
    assert (busyness (set_notifying n sy) + 4 = busyness sy)%nat; [|lia]. unfold busyness. simpl. rewrite Hn. lia.
  - unfold idle_step in Hs. destruct (idle_checking sy) as [|n] eqn:Hn; [done|]. injection Hs as <-.
    destruct (pending (shared sy) =? 0).
    + assert (busyness (set_idle n (idle_blocked sy) sy) = busyness sy) as E by done. unfold work. rewrite E, Hn. simpl. lia.
    + assert (busyness (set_idle n (S (idle_blocked sy)) sy) = busyness sy) as E by done. unfold work. rewrite E, Hn. simpl. lia.
Qed.

Lemma timer_steps whens n sy sy' :
  Z.of_nat (length whens) + 2 < 2 ^ 64 -> reachable t0 whens sy -> nsteps internal n sy sy' ->
  reachable t0 whens sy' /\ (n + work sy' <= work sy)%nat.
Proof.
  intros Hlen Hr Hn. induction Hn as [sy|n sy sy1 sy' Hs Hn IH]; [split; [done|lia]|].
  destruct IH as [? ?]; [eapply reachable_step; [done|by apply step_internal]|].
  pose proof (timer_internal_work _ _ (proj1 (timer_reachable_ok _ _ _ Hlen Hr)) Hs). split; [done|lia].
Qed.

(** ** Nothing is stuck *)
Definition quiet sy : Prop :=
  Forall (fun o => op_weight o = O) (ops sy) /\ worker_weight (now sy) (worker sy) = O /\ notifying sy = O /\ idle_checking sy = O.

Lemma worker_moves sy i : timer_ok t0 sy -> at_worker (worker sy) i <> Elsewhere -> exists sy', internal sy sy'.
Proof.
  intros [Hok Hr Ha] Hw. assert (exists sy', worker_step sy = Some sy') as [sy' Hs]; [|exists sy'; by apply internal_worker].
  pose proof (re_worker _ _ Hr i Hw) as [o Hi]. unfold worker_step.
  destruct (worker sy) as [|u|j b|j b|j b|j| |]; try done; simpl in Hw; destruct (Nat.eqb_spec j i); try done; subst j;
    rewrite ?Hi; by eexists.
Qed.
Lemma start_step_none i o sy :
  ops sy !! i = Some o -> start_step i NoItem false false sy = None ->
  start_weight (starting o) = O \/ starting o = CalledInline /\ called o <> CallbackOver.
Proof.
  unfold start_step, enqueue. intros ->. destruct (starting o); try done; try (by left).
  - intros Hs. right. split; [done|]. intros E. by rewrite E in Hs.
  - by destruct (stop (shared sy)).
Qed.
Lemma callback_step_none i o sy :
  ops sy !! i = Some o -> callback_step i sy = None -> callback_weight (called o) = O.
Proof. unfold callback_step. intros ->. by destruct (called o). Qed.
Lemma destroy_step_none i o sy :
  ops sy !! i = Some o -> destroy_step i sy = None ->
  destroy_weight (dying o) = O \/ dying o = Waiting /\ forall it, the_item o = Some it -> delivered it = false.
Proof.
  unfold destroy_step, discard_item, count_done, after, modify, read, give. intros ->. destruct (dying o); try done; try (by left).
  - by destruct (existsb _ _).
  - intros Hs. right. split; [done|]. intros it Hit. rewrite Hit in Hs. by destruct (delivered it).
Qed.

Lemma called_inline o q p n : op_ok o q p n -> starting o = CalledInline -> called o <> NotCalled.
Proof.
  intros Hop Hs. destruct Hop; try congruence; auto; match goal with H : _ \/ _ |- _ => destruct H; congruence end.
Qed.
Lemma waits_for o q n :
  op_ok o q Elsewhere n -> dying o = Waiting -> starting o = InlineFinish \/ exists it, the_item o = Some it /\ delivered it = true.
Proof.
  intros Hop Hs. destruct Hop as [| | |Hp ? ? Hd ? ? Hit| |? ? ? ? ? Hp|? ? Hd| |]; try congruence.
  - destruct Hp as [?|Hp]; [by left|right]. specialize (Hd Hp). specialize (Hit Hs). unfold is_delivered in Hd.
    destruct (the_item o) as [it|]; [by exists it|done].
  - repeat match goal with H : _ /\ _ |- _ => destruct H | H : _ \/ _ |- _ => destruct H end; congruence.
  - unfold waiting_or_alive in *.
    repeat match goal with H : _ /\ _ |- _ => destruct H | H : _ \/ _ |- _ => destruct H end; congruence.
  - right. unfold is_delivered in Hd. destruct (the_item o) as [it|]; [by exists it|done].
  - match goal with H : _ \/ _ |- _ => destruct H as [?|[? _]]; congruence end.
Qed.

Lemma op_moves sy i o : timer_ok t0 sy -> ops sy !! i = Some o -> op_weight o <> O -> exists sy', internal sy sy'.
Proof.
  intros Htm Hi Hw. pose proof (tm_ops _ _ Htm _ _ Hi) as Hop.
  destruct (start_step i NoItem false false sy) as [sy1|] eqn:E1; [exists sy1; by eapply internal_start|].
  destruct (callback_step i sy) as [sy1|] eqn:E2; [exists sy1; by eapply internal_callback|].
  destruct (destroy_step i sy) as [sy1|] eqn:E3; [exists sy1; by eapply internal_destroy|].
  destruct (at_worker (worker sy) i) eqn:Hp; [|by eapply worker_moves; [done|rewrite Hp]..]. exfalso.
  pose proof (callback_step_none _ _ _ Hi E2) as Hc. unfold op_weight in Hw.
  destruct (start_step_none _ _ _ Hi E1) as [Hs|[Hs Hover]].
  - destruct (destroy_step_none _ _ _ Hi E3) as [Hd|[Hd Hdel]]; [lia|].
    destruct (waits_for _ _ _ Hop Hd) as [E|(it & Hit & E)]; [by rewrite E in Hs|]. by rewrite (Hdel _ Hit) in E.
  - pose proof (called_inline _ _ _ _ Hop Hs). by destruct (called o).
Qed.

Lemma timer_progress sy : timer_ok t0 sy -> quiet sy \/ exists sy', internal sy sy'.
Proof.
  intros Htm. destruct (decide (Forall (fun o => op_weight o = O) (ops sy))) as [Hall|Hex].
  - destruct (worker_step sy) as [sy1|] eqn:Hs; [right; exists sy1; by apply internal_worker|].
    destruct (notifying sy) as [|n] eqn:Hn.
    2: { right. eexists. apply internal_shutdown. unfold shutdown_notifies. by rewrite Hn. }
    destruct (idle_checking sy) as [|n] eqn:Hc.
    2: { right. eexists. apply internal_idle. unfold idle_step. by rewrite Hc. }
    left. split_and!; try done. destruct Htm as [Hok Hr Ha]. unfold worker_step in Hs.
    destruct (worker sy) as [|[t|]|i b|i b|i b|i| |] eqn:Hw; try done.
    + destruct (choose_ok (find_item sy) (now sy) (shared sy)) as (c & st' & E & _); [intros; by eapply items_found|].
      rewrite E in Hs. by destruct c as [| |[?|]].
    + cbn [worker_weight]. by destruct (t <=? now sy).
    + destruct (re_worker _ _ Hr i) as [o Hi]; [rewrite Hw; simpl; by rewrite Nat.eqb_refl|]. by rewrite Hi in Hs.
    + destruct (re_worker _ _ Hr i) as [o Hi]; [rewrite Hw; simpl; by rewrite Nat.eqb_refl|]. rewrite Hi in Hs. by destruct (done o).
    + destruct (re_worker _ _ Hr i) as [o Hi]; [rewrite Hw; simpl; by rewrite Nat.eqb_refl|]. by rewrite Hi in Hs.
  - right. apply not_Forall_Exists, Exists_exists in Hex as (o & Ho & Hw); [|apply _].
    apply list_elem_of_lookup in Ho as [i Hi]. by eapply op_moves.
Qed.
End work.

(** ** After the destructor *)
Definition destroyed i sy : Prop := exists o, ops sy !! i = Some o /\ dying o = Destroyed.

Lemma insert_destroyed i j o o' (l : list op) :
  l !! j = Some o -> (dying o = Destroyed -> dying o' = Destroyed) ->
  (exists o, l !! i = Some o /\ dying o = Destroyed) -> exists o, <[j := o']> l !! i = Some o /\ dying o = Destroyed.
Proof.
  intros Hj Hd (o1 & Hi & Ho). destruct (decide (i = j)) as [->|Hn].
  - exists o'. rewrite list_lookup_insert_eq by (by eapply lookup_lt_Some). rewrite Hj in Hi. injection Hi as <-. auto.
  - exists o1. by rewrite list_lookup_insert_ne.
Qed.
Ltac keeps_destroyed :=
  repeat first
    [done | progress simpl | rewrite notify_ops_same | rewrite notify_idle_ops_same
    | match goal with
      | |- _ = Some _ -> _ => intros <-%(inj Some)
      | Hj : ops ?sy !! ?j = Some _ |- context [<[?j := _]> (ops ?sy)] =>
          first [apply (insert_destroyed _ _ _ _ _ Hj); simpl; first [done|congruence]]
      | |- context [match ?x with _ => _ end] => destruct x eqn:?
      end].
Lemma timer_step_destroyed i sy sy' : step sy sy' -> destroyed i sy -> destroyed i sy'.
Proof.
  unfold destroyed. intros [sy1 [j m throws inline sy2 Hs|sy2 Hs|j sy2 Hs|j sy2 Hs|sy2 Hs|sy2 Hs]|j sy1 Hs|j sy1 Hs|j sy1 Hs|j sy1 Hs|sy1 Hs|sy1 Hs|t Ht|u Hu|n Hn];
    try done; revert Hs.
  - unfold start_step, enqueue. keeps_destroyed.
  - unfold worker_step, count_done, after, modify, read, give. keeps_destroyed.
  - unfold callback_step. keeps_destroyed.
  - unfold destroy_step, discard_item. keeps_destroyed.
  - unfold shutdown_notifies. keeps_destroyed.
  - unfold idle_step. keeps_destroyed.
  - unfold start. keeps_destroyed.
  - unfold token_stops. keeps_destroyed.
  - unfold destroy. keeps_destroyed.
  - unfold destroy_inside. keeps_destroyed.
  - unfold shut, shutdown, modify. keeps_destroyed.
  - unfold wait. keeps_destroyed.
Qed.

(** Who adds to the log. *)
Definition teller sy i : Prop :=
  at_worker (worker sy) i = ToTell \/ exists o, ops sy !! i = Some o /\ starting o = InlineTell.
Lemma notify_log sy : log (notify sy) = log sy.
Proof. unfold notify. by destruct (worker sy). Qed.
Lemma notify_idle_log b sy : log (notify_idle b sy) = log sy.
Proof. by destruct b. Qed.
Ltac same_log :=
  repeat first
    [done | by left | progress simpl | rewrite notify_log | rewrite notify_idle_log
    | match goal with
      | |- _ = Some _ -> _ => intros <-%(inj Some)
      | |- context [match ?x with _ => _ end] => destruct x eqn:?
      end].
Lemma step_log sy sy' :
  step sy sy' -> log sy' = log sy \/ exists i sig, log sy' = log sy ++ [(i, sig, now sy)] /\ teller sy i.
Proof.
  intros [sy1 [j m throws inline sy2 Hs|sy2 Hs|j sy2 Hs|j sy2 Hs|sy2 Hs|sy2 Hs]|j sy1 Hs|j sy1 Hs|j sy1 Hs|j sy1 Hs|sy1 Hs|sy1 Hs|t Ht|u Hu|n Hn];
    try (by left); revert Hs.
  - unfold start_step, enqueue. same_log. right. exists j, SetStopped. split; [done|]. right. by eexists.
  - unfold worker_step, count_done, after, modify, read, give. same_log; right; eexists _, _; (split; [done|]); left.
    all: by rewrite Heqw; simpl; rewrite Nat.eqb_refl.
  - unfold callback_step. same_log.
  - unfold destroy_step, discard_item. same_log.
  - unfold shutdown_notifies. same_log.
  - unfold idle_step. same_log.
  - unfold start. same_log.
  - unfold token_stops. same_log.
  - unfold destroy. same_log.
  - unfold destroy_inside. same_log.
  - unfold shut, shutdown, modify. same_log.
  - unfold wait. same_log.
Qed.

Lemma op_ok_destroyed o q p n :
  op_ok o q p n -> dying o = Destroyed ->
  q = false /\ no_callback o /\ (p = Elsewhere \/ p = ToFinish) /\ starting o <> InlineTell.
Proof.
  intros Hop Hd. destruct Hop; unfold waiting_or_alive, no_callback in *; try congruence;
    repeat match goal with H : _ /\ _ |- _ => destruct H | H : _ \/ _ |- _ => destruct H end; try congruence;
    (split_and!; [done| |tauto|congruence]); try done.
  - apply H3. by subst.
  - by rewrite H0.
Qed.
Lemma destroyed_untold t0 whens i sy sy' :
  Z.of_nat (length whens) + 2 < 2 ^ 64 -> reachable t0 whens sy -> destroyed i sy -> rtc step sy sy' -> times_told i sy' = times_told i sy.
Proof.
  intros Hlen Hr Hd Hs. induction Hs as [|sy sy1 sy' Hs Hrest IH]; [done|].
  rewrite IH; [|by eapply reachable_step|by eapply timer_step_destroyed]. clear IH Hrest. unfold times_told.
  destruct (step_log _ _ Hs) as [->|(j & sig & -> & Ht)]; [done|]. rewrite times_told_log.
  destruct (Nat.eqb_spec j i) as [->|]; [|simpl; lia]. exfalso. destruct Hd as (o & Hi & Ho).
  destruct (timer_reachable_ok _ _ _ Hlen Hr) as [[Hok _ _] _].
  destruct (op_ok_destroyed _ _ _ _ (Hok _ _ Hi) Ho) as (_ & _ & Hp & Hst).
  destruct Ht as [Ht|(o1 & Hi1 & Ht)]; [rewrite Ht in Hp; by destruct Hp|]. congruence.
Qed.

Lemma op_ok_told o q p n : op_ok o q p n -> (n <= 1)%nat.
Proof. intros Hop. destruct Hop; repeat match goal with H : _ /\ _ |- _ => destruct H | H : _ \/ _ |- _ => destruct H end; lia. Qed.
(** ** Since when an operation has had its item

    Operation [i] of kind [w], whose [start] had not read the clock at time [t1]: its
    item, if it has one by now, is from a time since then. *)
Definition item_since (w : when) (t1 now : Z) o : Prop :=
  when_ o = w /\ forall it, the_item o = Some it -> exists t, t1 <= t <= now /\ deadline it = resolve_at_start w t.
Definition since i w t1 (l : list op) (now : Z) : Prop := exists o, l !! i = Some o /\ item_since w t1 now o.

Lemma item_since_same w t1 now o o' :
  when_ o' = when_ o -> the_item o' = the_item o -> item_since w t1 now o -> item_since w t1 now o'.
Proof. unfold item_since. by intros -> ->. Qed.
Lemma item_since_on_item w t1 now f o o' :
  (forall it, deadline (f it) = deadline it) -> when_ o' = when_ o -> the_item o' = f <$> the_item o ->
  item_since w t1 now o -> item_since w t1 now o'.
Proof.
  unfold item_since. intros Hf -> -> [Hw H]. split; [done|]. intros it' (it & Hit & ->)%fmap_Some.
  rewrite Hf. by apply H.
Qed.
Lemma item_since_new w t1 now b c d o o' :
  t1 <= now -> when_ o' = when_ o -> the_item o' = Some (Item (resolve_at_start (when_ o) now) b c d) ->
  item_since w t1 now o -> item_since w t1 now o'.
Proof. unfold item_since. intros Ht -> -> [Hw H]. split; [done|]. intros it [= <-]. exists now. rewrite Hw. split; [lia|done]. Qed.
Lemma since_insert i j o o' w t1 (l : list op) now :
  l !! j = Some o -> (item_since w t1 now o -> item_since w t1 now o') -> since i w t1 l now -> since i w t1 (<[j := o']> l) now.
Proof.
  intros Hj Ho (o1 & Hi & H). destruct (decide (i = j)) as [->|Hn].
  - exists o'. rewrite list_lookup_insert_eq by (by eapply lookup_lt_Some). rewrite Hj in Hi. injection Hi as <-. auto.
  - exists o1. by rewrite list_lookup_insert_ne.
Qed.
Lemma since_later i w t1 l now now' : now <= now' -> since i w t1 l now -> since i w t1 l now'.
Proof.
  intros Hn (o & Hi & Hw & H). exists o. split; [done|]. split; [done|]. intros it Hit.
  destruct (H it Hit) as (t & ? & ?). exists t. split; [lia|done].
Qed.
Lemma notify_now sy : now (notify sy) = now sy.
Proof. unfold notify. by destruct (worker sy). Qed.
Lemma notify_idle_now b sy : now (notify_idle b sy) = now sy.
Proof. by destruct b. Qed.
Ltac keeps_since :=
  repeat first
    [done | progress simpl
    | rewrite notify_ops_same | rewrite notify_idle_ops_same | rewrite notify_now | rewrite notify_idle_now
    | match goal with
      | |- _ = Some _ -> _ => intros <-%(inj Some)
      | Hj : ops ?sy !! ?j = Some _ |- context [<[?j := _]> (ops ?sy)] =>
          apply (since_insert _ _ _ _ _ _ _ _ Hj);
          first [by apply item_since_same
                |by apply (item_since_on_item _ _ _ (set_callback true))|by apply (item_since_on_item _ _ _ (set_callback false))
                |by apply (item_since_on_item _ _ _ set_delivered)|by apply (item_since_on_item _ _ _ request_stop)
                |by eapply item_since_new]
      | |- context [match ?x with _ => _ end] => destruct x eqn:?
      end].
Lemma step_since i w t1 sy sy' :
  step sy sy' -> t1 <= now sy -> since i w t1 (ops sy) (now sy) -> since i w t1 (ops sy') (now sy').
Proof.
  intros [sy1 [j m throws inline sy2 Hs|sy2 Hs|j sy2 Hs|j sy2 Hs|sy2 Hs|sy2 Hs]|j sy1 Hs|j sy1 Hs|j sy1 Hs|j sy1 Hs|sy1 Hs|sy1 Hs|t Ht|u Hu|n Hn] Hnow;
    try done; [..|by apply since_later]; revert Hs.
  - unfold start_step, enqueue. keeps_since.
  - unfold worker_step, count_done, after, modify, read, give. keeps_since.
  - unfold callback_step. keeps_since.
  - unfold destroy_step, discard_item. keeps_since.
  - unfold shutdown_notifies. keeps_since.
  - unfold idle_step. keeps_since.
  - unfold start. keeps_since.
  - unfold token_stops. keeps_since.
  - unfold destroy. keeps_since.
  - unfold destroy_inside. keeps_since.
  - unfold shut, shutdown, modify. keeps_since.
  - unfold wait. keeps_since.
Qed.

Ltac same_now :=
  repeat first
    [done | progress simpl | rewrite notify_now | rewrite notify_idle_now
    | match goal with
      | |- _ = Some _ -> _ => intros <-%(inj Some)
      | |- context [match ?x with _ => _ end] => destruct x eqn:?
      end].
Lemma step_now sy sy' : step sy sy' -> now sy <= now sy'.
Proof.
  intros [sy1 [j m throws inline sy2 Hs|sy2 Hs|j sy2 Hs|j sy2 Hs|sy2 Hs|sy2 Hs]|j sy1 Hs|j sy1 Hs|j sy1 Hs|j sy1 Hs|sy1 Hs|sy1 Hs|t Ht|u Hu|n Hn];
    try done; revert Hs.
  - unfold start_step, enqueue. same_now.
  - unfold worker_step, count_done, after, modify, read, give. same_now.
  - unfold callback_step. same_now.
  - unfold destroy_step, discard_item. same_now.
  - unfold shutdown_notifies. same_now.
  - unfold idle_step. same_now.
  - unfold start. same_now.
  - unfold token_stops. same_now.
  - unfold destroy. same_now.
  - unfold destroy_inside. same_now.
  - unfold shut, shutdown, modify. same_now.
  - unfold wait. same_now.
Qed.
Lemma steps_since i w t1 sy sy' :
  rtc step sy sy' -> t1 <= now sy -> since i w t1 (ops sy) (now sy) -> since i w t1 (ops sy') (now sy').
Proof.
  intros Hs. induction Hs as [sy|sy sy1 sy' Hs _ IH]; intros Hle H; [done|]. pose proof (step_now _ _ Hs).
  apply IH; [lia|by eapply step_since].
Qed.

(** A delay runs from the start on: an operation that was not started, or whose start
    had not read the clock, is not told before the delay after that is over. *)
Lemma told_after_delay t0 whens sy1 sy i o d t :
  Z.of_nat (length whens) + 2 < 2 ^ 64 -> reachable t0 whens sy1 -> rtc step sy1 sy ->
  whens !! i = Some (After d) -> 0 <= d <= time_max -> now sy1 <= time_max ->
  ops sy1 !! i = Some o -> starting o = Connected \/ starting o = Making ->
  (i, SetValue, t) ∈ log sy -> Z.min time_max (now sy1 + d) <= t.
Proof.
  intros Hlen Hr1 Hs Hwhen Hd Hnow Hi Hst Hin. destruct (timer_reachable_ok _ _ _ Hlen Hr1) as [[Hok _ _] Hwhens].
  assert (when_ o = After d) as Hw.
  { rewrite <- Hwhens, list_lookup_fmap, Hi in Hwhen. by injection Hwhen. }
  assert (the_item o = None) as Hnone.
  { destruct (Hok _ _ Hi); try done; unfold preparing in *; destruct Hst;
      repeat match goal with H : _ /\ _ |- _ => destruct H | H : _ \/ _ |- _ => destruct H end; congruence. }
  assert (since i (After d) (now sy1) (ops sy1) (now sy1)) as H
    by (exists o; rewrite <- Hw; split; [done|]; split; [done|]; by rewrite Hnone).
  apply (steps_since _ _ _ _ _ Hs) in H as (o1 & Hi1 & _ & Hitem); [|done].
  assert (reachable t0 whens sy) as Hr by (clear -Hr1 Hs; induction Hs; eauto using reachable_step).
  destruct (timer_reachable_ok _ _ _ Hlen Hr) as [[_ Hrest _] _].
  destruct (re_log _ _ Hrest _ Hin) as [_ (o' & it & Hi' & Hit & Hdl & _)]. simpl in *.
  rewrite Hi' in Hi1. injection Hi1 as <-.
  destruct (Hitem _ Hit) as (t' & Ht' & E). rewrite E in Hdl. revert Hdl.
  unfold resolve_at_start, saturating_time_add. destruct (Z.ltb_spec 0 d), (Z.ltb_spec (time_max - d) t'); simpl; lia.
Qed.

(** C22: a timer tells each operation once, in time.  For all orders of the actions of
    the operations, the worker, the stop tokens, the destructors and the shutdown,
    an operation gets at most one signal.  It gets [set_value] no earlier than the
    time it is for; or, when it is for a delay, no earlier than that delay after any
    moment at which it was not started or its start had not read the clock yet, or
    than the greatest time there is if that is less; and [set_stopped] only if its token
    or the context was stopped, or its start did not queue it.  The worker always
    has a next action: a stopped item first, then one with the least deadline if
    that has come.  The counter counts what is queued or being delivered.  After its
    destructor has returned, an operation is not told anything, it is not queued,
    and no callback of its own is registered. *)
Theorem timer_tells_once t0 whens sy :
  Z.of_nat (length whens) + 2 < 2 ^ 64 -> reachable t0 whens sy ->
  (forall i o, ops sy !! i = Some o -> (times_told i sy <= 1)%nat) /\
  (forall i t, (i, SetValue, t) ∈ log sy -> t <= now sy /\ exists w, whens !! i = Some w /\
    (forall d, w = At d -> d <= t) /\
    (forall d sy1 o, w = After d -> 0 <= d <= time_max -> reachable t0 whens sy1 -> rtc step sy1 sy ->
      ops sy1 !! i = Some o -> starting o = Connected \/ starting o = Making -> now sy1 <= time_max ->
      Z.min time_max (now sy1 + d) <= t)) /\
  (forall i t, (i, SetStopped, t) ∈ log sy -> asked_to_stop sy i \/ not_queued sy i) /\
  (exists c st', choose (find_item sy) (now sy) (shared sy) = Some (c, st') /\
    choice_ok (find_item sy) (now sy) (shared sy) c st') /\
  pending (shared sy) = Z.of_nat (length (items (shared sy))) + busy (worker sy) /\ NoDup (items (shared sy)) /\
  (forall i o, ops sy !! i = Some o -> dying o = Destroyed ->
    i ∉ items (shared sy) /\ no_callback o /\ forall sy', rtc step sy sy' -> times_told i sy' = times_told i sy).
Proof.
  intros Hlen Hr. destruct (timer_reachable_ok _ _ _ Hlen Hr) as [[Hok Hrest Ha] Hwhens]. split_and!.
  - intros i o Hi. by eapply op_ok_told, Hok.
  - intros i t Hin. destruct (re_log _ _ Hrest _ Hin) as [Ht (o & it & Hi & Hit & Hd & _)]. simpl in *. split; [lia|].
    exists (when_ o). split; [by rewrite <- Hwhens, list_lookup_fmap, Hi|].
    destruct (re_item _ _ Hrest _ _ Hi _ Hit) as [_ (t1 & Ht1 & E)]. rewrite E in Hd. split.
    + intros d Hw. by rewrite Hw in Hd.
    + intros d sy1 o1 Hw Hrange Hr1 Hs Hi1 Hst Hnow. eapply told_after_delay; try done.
      by rewrite <- Hwhens, list_lookup_fmap, Hi, <- Hw.
  - intros i t Hin. apply (re_log _ _ Hrest _ Hin).
  - apply choose_ok. intros i Hin. by eapply items_found.
  - apply (re_pending _ _ Hrest).
  - apply (re_nodup _ _ Hrest).
  - intros i o Hi Hd. destruct (op_ok_destroyed _ _ _ _ (Hok _ _ Hi) Hd) as (Hq & Hn & _). split_and!; [|done|].
    + by apply bool_decide_eq_false in Hq.
    + intros sy' Hs. eapply destroyed_untold; [done|done|by exists o|done].
Qed.

(** What holds when nothing can go on by itself. *)
Lemma quiet_worker t0 sy :
  timer_ok t0 sy -> quiet sy ->
  worker sy = WorkerReturned /\ stop (shared sy) = true /\ items (shared sy) = [] \/
  stop (shared sy) = false /\ exists u, worker sy = Asleep u /\
    forall i o, i ∈ items (shared sy) -> ops sy !! i = Some o -> exists it t, the_item o = Some it /\
      stop_requested it = false /\ u = Some t /\ now sy < t <= deadline it.
Proof.
  intros [Hok Hr Ha] (Hall & Hw & Hn & _). destruct (worker sy) as [|u|i b|i b|i b|i| |] eqn:Ew; try done.
  - right. destruct (Ha u Ew) as [Hs Hq]. split; [by apply not_true_is_false; intros E; destruct (Hs E)|].
    exists u. split; [done|]. intros i o Hin Hi. destruct (Hq i o Hin Hi) as [Hc Hd].
    destruct (items_found _ _ _ Hr Hok Hin) as [it Hit]. destruct (found_item _ _ _ Hit) as (o' & Hi' & Hit').
    rewrite Hi in Hi'. injection Hi' as <-. destruct (Hd _ Hit') as (t & -> & Ht). exists it, t. split_and!; try done.
    + apply not_true_is_false. intros Hreq. destruct (re_item _ _ Hr _ _ Hi _ Hit') as [Hiff _].
      apply Hiff in Hreq as [Hcall|]; [|done]. rewrite Forall_lookup in Hall. specialize (Hall _ _ Hi).
      unfold op_weight in Hall. rewrite Hcall in Hall. simpl in Hall. lia.
    + cbn [worker_weight] in Hw. destruct (Z.leb_spec t (now sy)); [done|]. lia.
  - left. destruct (re_returned _ _ Hr Ew). done.
Qed.
Lemma quiet_op t0 i o sy :
  timer_ok t0 sy -> quiet sy -> ops sy !! i = Some o ->
  (starting o = Connected \/ starting o = Abandoned \/ exists b, starting o = Returned b) /\
  (called o = NotCalled \/ called o = CallbackOver) /\ (dying o = Alive \/ dying o = Destroyed) /\
  ((exists b, starting o = Returned b) -> dying o = Alive -> i ∈ items (shared sy) \/ times_told i sy = 1%nat).
Proof.
  intros [Hok Hr Ha] (Hall & Hw & _ & _) Hi. rewrite Forall_lookup in Hall. specialize (Hall _ _ Hi). unfold op_weight in Hall.
  pose proof (Hok _ _ Hi) as Hop.
  assert (at_worker (worker sy) i = Elsewhere) as Hp by (by destruct (worker sy)). rewrite Hp in Hop. split_and!.
  - destruct (starting o); simpl in Hall; try lia; eauto.
  - destruct (called o); simpl in Hall; try lia; auto.
  - destruct (dying o); simpl in Hall; try lia; auto.
  - intros [b Hs] Hd. destruct (decide (i ∈ items (shared sy))) as [|Hn]; [by left|right]. rewrite bool_decide_false in Hop by done.
    destruct Hop; try done; unfold preparing in *;
      repeat match goal with H : _ /\ _ |- _ => destruct H | H : _ \/ _ |- _ => destruct H end; congruence.
Qed.

(** C23: timers finish.  From any state, the threads make at most [work] steps before
    something else has to happen: time to pass, or a call from outside.  When they
    can make none, no start, stop callback or destructor is under way, and every
    operation that was started and lives has been told, or it is in the queue, it was
    not stopped, and the worker sleeps until a time after now that is not after its
    deadline.  After a shutdown the worker has returned and nothing is queued; and
    who still waits for the context to be idle has something to wait for. *)
Theorem timer_finishes t0 whens sy n sy' :
  Z.of_nat (length whens) + 2 < 2 ^ 64 -> reachable t0 whens sy -> nsteps internal n sy sy' ->
  (n <= work sy)%nat /\
  ((exists sy'', internal sy' sy'') \/
   (forall i o, ops sy' !! i = Some o ->
     (starting o = Connected \/ starting o = Abandoned \/ exists b, starting o = Returned b) /\
     (called o = NotCalled \/ called o = CallbackOver) /\ (dying o = Alive \/ dying o = Destroyed) /\
     ((exists b, starting o = Returned b) -> dying o = Alive -> times_told i sy' = 1%nat \/
       i ∈ items (shared sy') /\ exists it t, the_item o = Some it /\ stop_requested it = false /\ worker sy' = Asleep (Some t) /\
         now sy' < t <= deadline it)) /\
   (stop (shared sy') = true -> worker sy' = WorkerReturned /\ items (shared sy') = []) /\
   (idle_blocked sy' <> O -> items (shared sy') <> [])).
Proof.
  intros Hlen Hr Hn. destruct (timer_steps _ _ _ _ _ Hlen Hr Hn) as [Hr' Hw]. split; [lia|].
  destruct (timer_reachable_ok _ _ _ Hlen Hr') as [Htm _].
  destruct (timer_progress _ _ Htm) as [Hq|Hs]; [right|by left]. pose proof (quiet_worker _ _ Htm Hq) as Hwk. split_and!.
  - intros i o Hi. destruct (quiet_op _ _ _ _ Htm Hq Hi) as (Hst & Hc & Hd & Ht). split_and!; try done. intros Hb Ha.
    destruct (Ht Hb Ha) as [Hin|]; [right; split; [done|]|by left]. destruct Hwk as [(_ & _ & E)|(_ & u & E & Hitems)].
    + rewrite E in Hin. by apply not_elem_of_nil in Hin.
    + destruct (Hitems _ _ Hin Hi) as (it & t & Hit & Hreq & -> & Hlt). by exists it, t.
  - intros Hs. destruct Hwk as [(? & _ & ?)|[E _]]; [done|congruence].
  - intros Hb Hi. apply (re_idle _ _ (tm_rest _ _ Htm) Hb). rewrite (re_pending _ _ (tm_rest _ _ Htm)), Hi.
    destruct Hwk as [(-> & _)|(_ & u & -> & _)]; done.
Qed.

(** ** An example

    One timer for time 5, one with a delay of 10; time goes on to 7.  The first is
    told and destroyed, the second is queued. *)
Definition tick (t : Z) sy : option system := if now sy <=? t then Some (set_now t sy) else None.
Definition demo_steps : list (system -> option system) :=
  [start 0; start_step 0 TokenNever false false; start_step 0 TokenNever false false;
   start 1; start_step 1 TokenPossible false false; start_step 1 NoItem false false; start_step 1 NoItem false false;
   worker_step; wait; idle_step; tick 7;
   worker_step; worker_step; worker_step; worker_step; worker_step; worker_step; worker_step; worker_step;
   destroy 0; destroy_step 0; destroy_step 0].
Definition demo_whens : list when := [At 5; After 10].
Definition demo_timers : system := run_all demo_steps (init 0 demo_whens).

Lemma demo_timers_reachable : reachable 0 demo_whens demo_timers.
Proof.
  apply (run_all_invariant (reachable 0 demo_whens)); [|apply reachable_init]. intros f sy sy' Hf Hs Hr.
  eapply reachable_step; [exact Hr|].
  repeat (apply elem_of_cons in Hf as [->|Hf]; [first
    [by eapply step_start|by eapply step_destroy|by apply step_wait
    |apply step_internal; first [by eapply internal_start|by apply internal_worker|by eapply internal_destroy|by apply internal_idle]
    |unfold tick in Hs; destruct (Z.leb_spec (now sy) 7); [injection Hs as <-; by apply step_tick|done]]|]).
  by apply not_elem_of_nil in Hf.
Qed.

Lemma timer_tells_once_witness :
  Z.of_nat (length demo_whens) + 2 < 2 ^ 64 /\ reachable 0 demo_whens demo_timers /\ log demo_timers = [(0%nat, SetValue, 7)] /\
  forall sy', rtc step demo_timers sy' -> times_told 0 sy' = 1%nat.
Proof.
  assert (Z.of_nat (length demo_whens) + 2 < 2 ^ 64) as Hlen by reflexivity.
  split; [exact Hlen|]. split; [exact demo_timers_reachable|]. split; [vm_compute; reflexivity|].
  destruct (timer_tells_once 0 demo_whens demo_timers Hlen demo_timers_reachable) as (_ & _ & _ & _ & _ & _ & Hd).
  intros sy' Hs. destruct (ops demo_timers !! 0%nat) as [o|] eqn:Hi; [|vm_compute in Hi; discriminate Hi].
  assert (dying o = Destroyed) as Ho by (vm_compute in Hi; injection Hi as <-; reflexivity).
  destruct (Hd 0%nat o Hi Ho) as (_ & _ & E). rewrite (E sy' Hs). vm_compute. reflexivity.
Defined.

Lemma timer_finishes_witness :
  reachable 0 demo_whens demo_timers /\ nsteps internal 0 demo_timers demo_timers /\ (0 <= work demo_timers)%nat /\
  idle_blocked demo_timers = 1%nat /\ items (shared demo_timers) = [1%nat].
Proof.
  assert (Z.of_nat (length demo_whens) + 2 < 2 ^ 64) as Hlen by reflexivity.
  split; [exact demo_timers_reachable|]. split; [apply nsteps_O|].
  destruct (timer_finishes 0 demo_whens demo_timers 0 demo_timers Hlen demo_timers_reachable (nsteps_O _ _)) as [Hn _].
  split; [exact Hn|]. split; vm_compute; reflexivity.
Defined.
