(* ===== verification/Senders.v ===== *)
(** * Sender adaptors

    The completion signatures of senders, as execution/concepts.hpp,
    execution/detail/value_result.hpp and the adaptors compute them at compile time:
    signatures are lists of types, a template that computes a list is a function, and
    what does not compile has no result.  Types have no qualifiers but references;
    [decay_t] takes them away.

    And the adaptors of execution that have no state shared between threads: just.hpp,
    read_env.hpp, then.hpp, upon.hpp, let.hpp, bulk.hpp, into_variant.hpp,
    stopped_as.hpp, continues_on.hpp, and when_all.hpp as far as what comes of its
    children's completions.  [cs_of] is the computation of their signatures, [None]
    where that does not compile; [run] is how a started sender completes, [None] where
    the program is terminated because something threw in a [noexcept] function.  All
    other senders are leaves that complete with one of their signatures, be it because
    of a stop request or not.  Whether a function or a copy throws, how a schedule
    operation completes and which child of [when_all] fails first are parameters. *)
From S2P Require Import Prelude.

(** ** Types *)
Inductive ty :=
  | Base (n : nat)
  | ExceptionPtr
  | LRef (t : ty)
  | RRef (t : ty)
  | Tuple (ts : list ty)
  | Variant (ts : list ty)
  | Optional (t : ty).
Implicit Types (t : ty) (ts : list ty).

Fixpoint ty_eqb t t' : bool :=
  let fix eqb_list ts ts' :=
    match ts, ts' with
    | [], [] => true
    | t :: ts, t' :: ts' => ty_eqb t t' && eqb_list ts ts'
    | _, _ => false
    end in
  match t, t' with
  | Base n, Base n' => n =? n'
  | ExceptionPtr, ExceptionPtr => true
  | LRef t, LRef t' | RRef t, RRef t' | Optional t, Optional t' => ty_eqb t t'
  | Tuple ts, Tuple ts' | Variant ts, Variant ts' => eqb_list ts ts'
  | _, _ => false
  end.

Fixpoint decay t : ty := match t with LRef t | RRef t => decay t | _ => t end.

(** [set_value_t(Vs...)], [set_error_t(E)] and [set_stopped_t()] *)
Inductive sig := SetValueT ts | SetErrorT t | SetStoppedT.
Implicit Types (g : sig) (cs : list sig).

(** [std::is_same_v] decides equality. *)
Section ty_induction.
Context (P : ty -> Prop) (HBase : forall n, P (Base n)) (HException : P ExceptionPtr)
  (HLRef : forall t, P t -> P (LRef t)) (HRRef : forall t, P t -> P (RRef t))
  (HTuple : forall ts, Forall P ts -> P (Tuple ts)) (HVariant : forall ts, Forall P ts -> P (Variant ts))
  (HOptional : forall t, P t -> P (Optional t)).
Fixpoint ty_nested_ind t : P t :=
  let fix all ts : Forall P ts :=
    match ts with
    | [] => Forall_nil_2 P
    | t :: ts => Forall_cons_2 P t ts (ty_nested_ind t) (all ts)
    end in
  match t with
  | Base n => HBase n
  | ExceptionPtr => HException
  | LRef t => HLRef t (ty_nested_ind t)
  | RRef t => HRRef t (ty_nested_ind t)
  | Tuple ts => HTuple ts (all ts)
  | Variant ts => HVariant ts (all ts)
  | Optional t => HOptional t (ty_nested_ind t)
  end.
End ty_induction.

Lemma ty_eqb_spec t t' : ty_eqb t t' = true <-> t = t'.
Proof.
  revert t'. induction t as [n| |t IH|t IH|ts IH|ts IH|t IH] using ty_nested_ind; intros t'; destruct t' as [n'| |u|u|us|us|u]; simpl;
    try done; rewrite ?Nat.eqb_eq, ?IH; try naive_solver.
  all: split; [intros E|intros [= <-]]; [f_equal|].
  all: revert us E || clear -IH.
  all: induction IH as [|t ts Ht _ IHl].
  all: try (intros [|u us]; try done; rewrite andb_true_iff, Ht; intros [-> E]; f_equal; by apply IHl).
  all: try done; rewrite (proj2 (Ht t)) by done; exact IHl.
Qed.
#[export] Instance ty_eq_dec : EqDecision ty.
Proof. intros t t'. destruct (ty_eqb t t') eqn:E; [left; by apply ty_eqb_spec|right; intros E'; apply ty_eqb_spec in E'; congruence]. Defined.
#[export] Instance sig_eq_dec : EqDecision sig.
Proof. solve_decision. Defined.

(** ** Lists of types: [list_contains], [list_push_unique] and what uses them *)
Section lists.
Context {A : Type} `{EqDecision A}.
Implicit Types (l : list A) (x : A).

Definition list_contains l x : bool := existsb (fun y => bool_decide (x = y)) l.
Definition list_push_unique l x : list A := if list_contains l x then l else l ++ [x].
Fixpoint list_push_unique_all l xs : list A :=
  match xs with [] => l | x :: xs => list_push_unique_all (list_push_unique l x) xs end.
(** [__append_all] of [__concat_unique_cs] *)
Fixpoint append_all l (ls : list (list A)) : list A :=
  match ls with [] => l | xs :: ls => append_all (list_push_unique_all l xs) ls end.
Definition concat_unique (ls : list (list A)) : list A := append_all [] ls.

Lemma list_contains_spec l x : list_contains l x = true <-> x ∈ l.
Proof.
  unfold list_contains. rewrite existsb_exists. split.
  - intros (y & Hy & ->%bool_decide_eq_true). by apply list_elem_of_In.
  - intros Hx. exists x. split; [by apply list_elem_of_In|by apply bool_decide_eq_true].
Qed.
Lemma elem_of_push_unique l x y : y ∈ list_push_unique l x <-> y ∈ l \/ y = x.
Proof.
  unfold list_push_unique. destruct (list_contains l x) eqn:E; [apply list_contains_spec in E; naive_solver|].
  rewrite elem_of_app, list_elem_of_singleton. done.
Qed.
Lemma elem_of_push_unique_all l xs y : y ∈ list_push_unique_all l xs <-> y ∈ l \/ y ∈ xs.
Proof.
  revert l. induction xs as [|x xs IH]; intros l; simpl; [set_solver|]. rewrite IH, elem_of_push_unique, elem_of_cons. tauto.
Qed.
Lemma elem_of_append_all l ls y : y ∈ append_all l ls <-> y ∈ l \/ exists xs, xs ∈ ls /\ y ∈ xs.
Proof.
  revert l. induction ls as [|xs ls IH]; intros l; simpl.
  - split; [by left|intros [?|(xs & Hx & _)]; [done|by apply not_elem_of_nil in Hx]].
  - rewrite IH, elem_of_push_unique_all. setoid_rewrite elem_of_cons. naive_solver.
Qed.
Lemma elem_of_concat_unique ls y : y ∈ concat_unique ls <-> exists xs, xs ∈ ls /\ y ∈ xs.
Proof. unfold concat_unique. rewrite elem_of_append_all. set_solver. Qed.

Lemma push_unique_nodup l x : NoDup l -> NoDup (list_push_unique l x).
Proof.
  intros Hl. unfold list_push_unique. destruct (list_contains l x) eqn:E; [done|].
  apply NoDup_app. split_and!; [done| |apply NoDup_singleton]. intros y Hy ->%list_elem_of_singleton.
  apply list_contains_spec in Hy. congruence.
Qed.
Lemma push_unique_all_nodup l xs : NoDup l -> NoDup (list_push_unique_all l xs).
Proof. revert l. induction xs as [|x xs IH]; intros l Hl; simpl; [done|]. by apply IH, push_unique_nodup. Qed.
Lemma concat_unique_nodup ls : NoDup (concat_unique ls).
Proof.
  unfold concat_unique. assert (forall l, NoDup l -> NoDup (append_all l ls)) as H; [|apply H, NoDup_nil_2].
  induction ls as [|xs ls IH]; intros l Hl; simpl; [done|]. by apply IH, push_unique_all_nodup.
Qed.
End lists.

(** ** Parts of signatures *)

(** [sends_stopped_from], [has_stopped_v] *)
Definition has_stopped cs : bool := existsb (fun g => match g with SetStoppedT => true | _ => false end) cs.
(** [value_tuple_list]: the tuples of the value completions. *)
Definition push_value_tuple (l : list (list ty)) g : list (list ty) :=
  match g with SetValueT ts => list_push_unique l (decay <$> ts) | _ => l end.
Definition value_tuple_list cs : list (list ty) := foldl push_value_tuple [] cs.
(** [__non_value_completion_signatures] *)
Definition non_value_completion g : list sig := match g with SetValueT _ => [] | _ => [g] end.
Definition non_value_completion_signatures cs : list sig := concat_unique (non_value_completion <$> cs).
Definition error_if (b : bool) : list sig := if b then [SetErrorT ExceptionPtr] else [].

Lemma elem_of_value_tuple_list cs us : us ∈ value_tuple_list cs <-> exists ts, SetValueT ts ∈ cs /\ us = decay <$> ts.
Proof.
  unfold value_tuple_list.
  assert (forall l, us ∈ foldl push_value_tuple l cs <-> us ∈ l \/ exists ts, SetValueT ts ∈ cs /\ us = decay <$> ts) as H;
    [|rewrite H; set_solver].
  induction cs as [|g cs IH]; intros l; simpl; [set_solver|]. rewrite IH. setoid_rewrite elem_of_cons.
  destruct g as [ts|t|]; simpl; rewrite ?elem_of_push_unique; naive_solver.
Qed.

(** ** Values *)
Inductive value :=
  | VBase (n : nat) (z : Z)
  | VException (z : Z)
  | VLRef (v : value)
  | VRRef (v : value)
  | VTuple (vs : list value)
  | VVariant (ts : list ty) (v : value)
  | VOptional (t : ty) (o : option value).
Implicit Types (v : value) (vs ws : list value) (ex : Z).

Fixpoint type_of v : ty :=
  match v with
  | VBase n _ => Base n
  | VException _ => ExceptionPtr
  | VLRef v => LRef (type_of v)
  | VRRef v => RRef (type_of v)
  | VTuple vs => Tuple (type_of <$> vs)
  | VVariant ts _ => Variant ts
  | VOptional t _ => Optional t
  end.
Fixpoint decayed v : value := match v with VLRef v | VRRef v => decayed v | _ => v end.

(** A variant holds one of its alternatives, an optional what it is for. *)
Fixpoint value_ok v : Prop :=
  match v with
  | VBase _ _ | VException _ => True
  | VLRef v | VRRef v => value_ok v
  | VTuple vs => (fix all vs := match vs with [] => True | v :: vs => value_ok v /\ all vs end) vs
  | VVariant ts v => type_of v ∈ ts /\ value_ok v
  | VOptional t o => match o with Some v => type_of v = t /\ value_ok v | None => True end
  end.

(** A completion, and its signature. *)
Inductive completion := SetValue vs | SetError v | SetStopped.
Definition sig_of (c : completion) : sig :=
  match c with SetValue vs => SetValueT (type_of <$> vs) | SetError v => SetErrorT (type_of v) | SetStopped => SetStoppedT end.
Definition completion_ok (c : completion) : Prop :=
  match c with SetValue vs => Forall value_ok vs | SetError v => value_ok v | SetStopped => True end.

(** ** Functions

    [invoke_result_t], with [None] for [void], if there is one, and
    [is_nothrow_invocable_v]; a function object, which throws or returns. *)
Record fn_type := FnType { result_of : list ty -> option (option ty); nothrow : list ty -> bool }.
Record callable := Callable { fn_of : fn_type; invoke : list value -> Z + option value }.
Implicit Types (ft : fn_type) (f : callable).
(** A function of [bulk], which gets an index (or two) and may change the values. *)
Record bulk_fn := BulkFn { bulk_accepts : list ty -> bool; bulk_nothrow : list ty -> bool; bulk_call : Z -> Z -> list value -> Z + list value }.
Implicit Types b : bulk_fn.

Definition throws ex : completion := SetError (VException ex).

(** ** Senders *)
Inductive which := WValue | WError | WStopped.

(** The types: [TLet] has the type of the sender its function makes from
    references to the arguments, if there is one. *)
Inductive sender_type :=
  | TJust (ts : list ty)
  | TJustError (t : ty)
  | TJustStopped
  | TLeaf (cs : list sig)
  | TReadEnv (t : ty) (nothrow_query : bool)
  | TThen (s : sender_type) ft
  | TUponError (s : sender_type) ft
  | TUponStopped (s : sender_type) ft
  | TLet (w : which) (s : sender_type) (inner : list ty -> option sender_type)
  | TBulk (s : sender_type) b
  | TIntoVariant (s : sender_type)
  | TStoppedAsOptional (s : sender_type)
  | TStoppedAsError (s : sender_type) (t : ty)
  | TContinuesOn (sched_cs : list sig) (s : sender_type)
  | TWhenAll (ss : list sender_type).

(** The senders. What throws while the function of [Let] makes its sender, or while
    that is connected, is [inl]. *)
Inductive sender :=
  | Just vs
  | JustError v
  | JustStopped
  | Leaf (cs : list sig) (c : completion)
  | ReadEnv (t : ty) (nothrow_query : bool) (query : Z + value)
  | Then (s : sender) f
  | UponError (s : sender) f
  | UponStopped (s : sender) f
  | Let (w : which) (s : sender) (inner : list ty -> option sender_type) (fn : list value -> Z + sender)
  | Bulk (chunked : bool) (s : sender) (shape : Z) b
  | IntoVariant (s : sender)
  | StoppedAsOptional (s : sender)
  | StoppedAsError (s : sender) v
  | ContinuesOn (sched_cs : list sig) (sched : Z + completion) (s : sender)
  | WhenAll (ss : list sender) (first_to_fail : nat).

Fixpoint sender_type_of (s : sender) : sender_type :=
  match s with
  | Just vs => TJust (type_of <$> vs)
  | JustError v => TJustError (type_of v)
  | JustStopped => TJustStopped
  | Leaf cs _ => TLeaf cs
  | ReadEnv t n _ => TReadEnv t n
  | Then s f => TThen (sender_type_of s) (fn_of f)
  | UponError s f => TUponError (sender_type_of s) (fn_of f)
  | UponStopped s f => TUponStopped (sender_type_of s) (fn_of f)
  | Let w s inner _ => TLet w (sender_type_of s) inner
  | Bulk _ s _ b => TBulk (sender_type_of s) b
  | IntoVariant s => TIntoVariant (sender_type_of s)
  | StoppedAsOptional s => TStoppedAsOptional (sender_type_of s)
  | StoppedAsError s v => TStoppedAsError (sender_type_of s) (type_of v)
  | ContinuesOn cs _ s => TContinuesOn cs (sender_type_of s)
  | WhenAll ss _ => TWhenAll (sender_type_of <$> ss)
  end.

Section senders.
(** [is_nothrow_constructible_v<decay_t<V>, V>], and whether a copy throws. *)
Context (nothrow_copy : ty -> bool) (copy_throws : value -> option Z).

Definition nothrow_copies (ts : list ty) : bool := forallb nothrow_copy ts.
Definition copy v : Z + value := match copy_throws v with Some ex => inl ex | None => inr (decayed v) end.
Fixpoint copies vs : Z + list value :=
  match vs with
  | [] => inr []
  | v :: vs =>
      match copy v, copies vs with
      | inl ex, _ | _, inl ex => inl ex
      | inr w, inr ws => inr (w :: ws)
      end
  end.

(** ** The signatures *)
Fixpoint all_some {A} (l : list (option A)) : option (list A) :=
  match l with
  | [] => Some []
  | Some x :: l => match all_some l with Some xs => Some (x :: xs) | None => None end
  | None :: _ => None
  end.

(** [value_sig_from_result], [__value_cs_from_result] *)
Definition value_sig_from_result (r : option ty) : sig := SetValueT (option_list r).

(** then.hpp *)
Definition then_sig ft g : option sig :=
  match g with SetValueT ts => value_sig_from_result <$> result_of ft ts | _ => Some g end.
Definition then_may_throw ft g : bool := match g with SetValueT ts => negb (nothrow ft ts) | _ => false end.
Definition then_cs ft cs : option (list sig) :=
  match all_some (then_sig ft <$> cs) with
  | Some gs =>
      let mapped := list_push_unique_all [] gs in
      Some (if existsb (then_may_throw ft) cs then list_push_unique mapped (SetErrorT ExceptionPtr) else mapped)
  | None => None
  end.

(** upon.hpp *)
Definition upon_sig (is_error : bool) ft g : option (list sig) :=
  match is_error, g with
  | true, SetErrorT t => (fun r => [value_sig_from_result r]) <$> result_of ft [t]
  | false, SetStoppedT => (fun r => [value_sig_from_result r]) <$> result_of ft []
  | _, _ => Some [g]
  end.
Definition handler_may_throw (is_error : bool) ft g : bool :=
  match is_error, g with
  | true, SetErrorT t => negb (nothrow ft [t])
  | false, SetStoppedT => negb (nothrow ft [])
  | _, _ => false
  end.
Definition upon_cs (is_error : bool) ft cs : option (list sig) :=
  (fun css => concat_unique (css ++ [error_if (existsb (handler_may_throw is_error ft) cs)])) <$>
    all_some (upon_sig is_error ft <$> cs).

(** let.hpp: the arguments of the function for a completion it handles. *)
Definition let_args (w : which) g : option (list ty) :=
  match w, g with
  | WValue, SetValueT ts => Some (LRef ∘ decay <$> ts)
  | WError, SetErrorT t => Some [LRef (decay t)]
  | WStopped, SetStoppedT => Some []
  | _, _ => None
  end.
Definition matches_which (w : which) g : bool := match let_args w g with Some _ => true | None => false end.

(** bulk.hpp *)
Definition bulk_may_throw b g : bool := match g with SetValueT ts => negb (bulk_nothrow b ts) | _ => false end.
Definition bulk_sig_accepted b g : bool := match g with SetValueT ts => bulk_accepts b ts | _ => true end.
Definition bulk_cs b cs : option (list sig) :=
  if forallb (bulk_sig_accepted b) cs then
    Some (if existsb (bulk_may_throw b) cs then concat_unique [cs; [SetErrorT ExceptionPtr]] else cs)
  else None.

(** into_variant.hpp *)
Definition value_may_throw g : bool := match g with SetValueT ts => negb (nothrow_copies ts) | _ => false end.
Definition variant_type_of cs : list ty := Tuple <$> value_tuple_list cs.
Definition variant_value_cs cs : list sig :=
  match variant_type_of cs with [] => [] | ts => [SetValueT [Variant ts]] end.
Definition push_non_value (l : list sig) g : list sig := match g with SetValueT _ => l | _ => list_push_unique l g end.
Definition into_variant_cs cs : list sig :=
  concat_unique [variant_value_cs cs; foldl push_non_value [] cs; error_if (existsb value_may_throw cs)].

(** stopped_as.hpp *)
Definition optional_value_type ts : ty := match ts with [t] => Optional (decay t) | _ => Optional (Tuple (decay <$> ts)) end.
Definition valid_optional_cs cs : bool :=
  (length (filter (fun g => match g with SetValueT _ => true | _ => false end = true) cs) =? 1) &&
  existsb (fun g => match g with SetValueT (_ :: _) => true | _ => false end) cs.
Fixpoint first_optional_type cs : ty :=
  match cs with
  | [] => Optional (Tuple [])
  | SetValueT ts :: _ => optional_value_type ts
  | _ :: cs => first_optional_type cs
  end.
Definition optional_sig g : list sig :=
  match g with SetValueT ts => [SetValueT [optional_value_type ts]] | SetStoppedT => [] | _ => [g] end.
Definition stopped_as_optional_cs cs : option (list sig) :=
  if valid_optional_cs cs then
    Some (concat_unique ((optional_sig <$> cs) ++
      [if has_stopped cs then [SetValueT [first_optional_type cs]] else []; error_if (existsb value_may_throw cs)]))
  else None.
Definition drop_stopped_sig g : list sig := match g with SetStoppedT => [] | _ => [g] end.
Definition stopped_as_error_cs (t : ty) cs : list sig :=
  concat_unique ((drop_stopped_sig <$> cs) ++ [if has_stopped cs then [SetErrorT (decay t)] else []]).

(** continues_on.hpp *)
Definition value_completion_count cs : nat :=
  length (filter (fun g => match g with SetValueT _ => true | _ => false end = true) cs).
Definition decayed_completion g : list sig :=
  match g with SetValueT ts => [SetValueT (decay <$> ts)] | SetErrorT t => [SetErrorT (decay t)] | _ => [g] end.
Definition decayed_completions cs : list sig := concat_unique (decayed_completion <$> cs).
Definition continues_on_cs (sched_cs : list sig) cs : option (list sig) :=
  if value_completion_count cs <=? 1 then
    Some (concat_unique [decayed_completions cs; non_value_completion_signatures sched_cs; [SetErrorT ExceptionPtr]])
  else None.

(** when_all.hpp *)
Definition tuple_product (l l' : list (list ty)) : list (list ty) := mjoin ((fun ts => app ts <$> l') <$> l).
Fixpoint cartesian_value_tuples (ls : list (list (list ty))) : list (list ty) :=
  match ls with [] => [[]] | l :: ls => tuple_product l (cartesian_value_tuples ls) end.
Definition push_error_type (l : list ty) g : list ty := match g with SetErrorT t => list_push_unique l (decay t) | _ => l end.
Definition error_type_list cs : list ty := foldl push_error_type [] cs.
Definition result_copy_may_throw g : bool :=
  match g with SetValueT ts => negb (nothrow_copies ts) | SetErrorT t => negb (nothrow_copy t) | SetStoppedT => false end.
Definition all_error_types (css : list (list sig)) : list ty :=
  append_all (if existsb (existsb result_copy_may_throw) css then [ExceptionPtr] else []) (error_type_list <$> css).
Definition when_all_cs (css : list (list sig)) : list sig :=
  concat_unique [SetValueT <$> cartesian_value_tuples (value_tuple_list <$> css); SetErrorT <$> all_error_types css;
    if existsb has_stopped css then [SetStoppedT] else []].

(** [get_completion_signatures] *)
Fixpoint cs_of (s : sender_type) : option (list sig) :=
  match s with
  | TJust ts => Some [SetValueT ts]
  | TJustError t => Some [SetErrorT t]
  | TJustStopped => Some [SetStoppedT]
  | TLeaf cs => Some cs
  | TReadEnv t n => Some (SetValueT [t] :: error_if (negb n))
  | TThen s ft => match cs_of s with Some cs => then_cs ft cs | None => None end
  | TUponError s ft => match cs_of s with Some cs => upon_cs true ft cs | None => None end
  | TUponStopped s ft => match cs_of s with Some cs => upon_cs false ft cs | None => None end
  | TLet w s inner =>
      match cs_of s with
      | Some cs =>
          let let_sig g :=
            match let_args w g with
            | Some ts => match inner ts with Some s' => cs_of s' | None => None end
            | None => Some [g]
            end in
          (fun css => concat_unique (css ++ [error_if (existsb (matches_which w) cs)])) <$> all_some (let_sig <$> cs)
      | None => None
      end
  | TBulk s b => match cs_of s with Some cs => bulk_cs b cs | None => None end
  | TIntoVariant s => into_variant_cs <$> cs_of s
  | TStoppedAsOptional s => match cs_of s with Some cs => stopped_as_optional_cs cs | None => None end
  | TStoppedAsError s t => stopped_as_error_cs t <$> cs_of s
  | TContinuesOn sched_cs s => match cs_of s with Some cs => continues_on_cs sched_cs cs | None => None end
  | TWhenAll [] => None
  | TWhenAll ss => when_all_cs <$> all_some (cs_of <$> ss)
  end.

(** ** The receivers *)

(** A call of a function by the receiver of [then] or [upon]. *)
Definition call f vs : option completion :=
  match invoke f vs with
  | inr o => Some (SetValue (option_list o))
  | inl ex => if nothrow (fn_of f) (type_of <$> vs) then None else Some (throws ex)
  end.
Definition then_recv f (c : completion) : option completion :=
  match c with SetValue vs => call f vs | _ => Some c end.
Definition recv_error f (c : completion) : option completion :=
  match c with SetError v => call f [v] | _ => Some c end.
Definition recv_stopped f (c : completion) : option completion :=
  match c with SetStopped => call f [] | _ => Some c end.
(** The loop of [bulk]. *)
Fixpoint bulk_loop (fuel : nat) b (i shape : Z) vs : Z + list value :=
  match fuel with
  | O => inr vs
  | S fuel =>
      if (i <? shape)%Z then
        match bulk_call b i (i + 1) vs with inl ex => inl ex | inr ws => bulk_loop fuel b (i + 1) shape ws end
      else inr vs
  end.
Definition bulk_run (chunked : bool) b (shape : Z) vs : Z + list value :=
  if chunked then if (0 <? shape)%Z then bulk_call b 0 shape vs else inr vs
  else bulk_loop (Z.to_nat shape) b 0 shape vs.
Definition bulk_complete (chunked : bool) b (shape : Z) vs : option completion :=
  match bulk_run chunked b shape vs with
  | inr ws => Some (SetValue ws)
  | inl ex => if bulk_nothrow b (type_of <$> vs) then None else Some (throws ex)
  end.
Definition bulk_recv (chunked : bool) b (shape : Z) (c : completion) : option completion :=
  match c with SetValue vs => bulk_complete chunked b shape vs | _ => Some c end.
(** [VariantT var(in_place_type<tup_t>, vs...)] *)
Definition to_variant (ts : list ty) vs : option completion :=
  match copies vs with
  | inr ws => Some (SetValue [VVariant ts (VTuple ws)])
  | inl ex => if nothrow_copies (type_of <$> vs) then None else Some (throws ex)
  end.
Definition into_variant_recv cs (c : completion) : option completion :=
  match c with SetValue vs => to_variant (variant_type_of cs) vs | _ => Some c end.
(** [__make_optional_value] *)
Definition make_optional_value ws : value :=
  match ws with
  | [w] => VOptional (type_of w) (Some w)
  | _ => VOptional (Tuple (type_of <$> ws)) (Some (VTuple ws))
  end.
Definition to_optional vs : option completion :=
  match copies vs with
  | inr ws => Some (SetValue [make_optional_value ws])
  | inl ex => if nothrow_copies (type_of <$> vs) then None else Some (throws ex)
  end.
Definition optional_recv cs (c : completion) : option completion :=
  match c with
  | SetValue vs => to_optional vs
  | SetError _ => Some c
  | SetStopped => match first_optional_type cs with Optional t => Some (SetValue [VOptional t None]) | _ => None end
  end.
Definition error_recv v (c : completion) : completion :=
  match c with SetStopped => SetError (decayed v) | _ => c end.
(** [__start_scheduled]: what the schedule operation's completion turns into. *)
Definition start_scheduled (sched : Z + completion) (payload : completion) : completion :=
  match sched with
  | inl ex => throws ex
  | inr (SetValue _) => payload
  | inr (SetError v) => SetError v
  | inr SetStopped => SetStopped
  end.
Definition continue_on (sched : Z + completion) (c : completion) : completion :=
  start_scheduled sched
    match c with
    | SetValue vs => match copies vs with inr ws => SetValue ws | inl ex => throws ex end
    | SetError v => match copy v with inr w => SetError w | inl ex => throws ex end
    | SetStopped => SetStopped
    end.
(** [when_all]: what a child leaves; the completion when all are done. *)
Inductive child_result := ChildValue vs | ChildError v | ChildStopped.
Definition child_completes (c : completion) : option child_result :=
  match c with
  | SetValue vs =>
      match copies vs with
      | inr ws => Some (ChildValue ws)
      | inl ex => if nothrow_copies (type_of <$> vs) then None else Some (ChildError (VException ex))
      end
  | SetError v => Some (ChildError v)
  | SetStopped => Some ChildStopped
  end.
Definition child_errors (rs : list child_result) : list value :=
  omap (fun r => match r with ChildError v => Some v | _ => None end) rs.
Definition child_values (rs : list child_result) : list value :=
  mjoin ((fun r => match r with ChildValue vs => vs | _ => [] end) <$> rs).
Definition when_all_deliver (first_to_fail : nat) (rs : list child_result) : option completion :=
  match child_errors rs !! (first_to_fail mod length (child_errors rs)) with
  | Some v =>
      match copy v with
      | inr w => Some (SetError w)
      | inl ex => if nothrow_copy (type_of v) then None else Some (throws ex)
      end
  | None =>
      if existsb (fun r => match r with ChildStopped => true | _ => false end) rs then Some SetStopped
      else Some (SetValue (child_values rs))
  end.

(** What starting a sender's operation comes to. *)
Definition handled (w : which) (c : completion) : option (list value) :=
  match w, c with
  | WValue, SetValue vs => Some vs
  | WError, SetError v => Some [v]
  | WStopped, SetStopped => Some []
  | _, _ => None
  end.
Fixpoint run (s : sender) : option completion :=
  match s with
  | Just vs => Some (SetValue vs)
  | JustError v => Some (SetError v)
  | JustStopped => Some SetStopped
  | Leaf _ c => Some c
  | ReadEnv _ n (inr v) => Some (SetValue [v])
  | ReadEnv _ n (inl ex) => if n then None else Some (throws ex)
  | Then s f => run s ≫= then_recv f
  | UponError s f => run s ≫= recv_error f
  | UponStopped s f => run s ≫= recv_stopped f
  | Let w s _ fn =>
      match run s with
      | Some c =>
          match handled w c with
          | Some vs =>
              match copies vs with
              | inr ws => match fn (VLRef <$> ws) with inr s' => run s' | inl ex => Some (throws ex) end
              | inl ex => Some (throws ex)
              end
          | None => Some c
          end
      | None => None
      end
  | Bulk chunked s shape b => run s ≫= bulk_recv chunked b shape
  | IntoVariant s => match cs_of (sender_type_of s) with Some cs => run s ≫= into_variant_recv cs | None => None end
  | StoppedAsOptional s => match cs_of (sender_type_of s) with Some cs => run s ≫= optional_recv cs | None => None end
  | StoppedAsError s v => error_recv v <$> run s
  | ContinuesOn _ sched s => continue_on sched <$> run s
  | WhenAll ss first =>
      all_some (run <$> ss) ≫= fun ds => all_some (child_completes <$> ds) ≫= when_all_deliver first
  end.

(** ** What typechecks, beyond its signatures *)
Definition callable_ok f : Prop := forall vs r,
  result_of (fn_of f) (type_of <$> vs) = Some r -> Forall value_ok vs ->
  match invoke f vs with
  | inl _ => nothrow (fn_of f) (type_of <$> vs) = false
  | inr o => type_of <$> o = r /\ Forall value_ok (option_list o)
  end.
Definition bulk_ok b : Prop := forall i j vs,
  bulk_accepts b (type_of <$> vs) = true -> Forall value_ok vs ->
  match bulk_call b i j vs with
  | inl _ => bulk_nothrow b (type_of <$> vs) = false
  | inr ws => type_of <$> ws = type_of <$> vs /\ Forall value_ok ws
  end.
Definition sched_ok (sched_cs : list sig) (sched : Z + completion) : Prop :=
  match sched with inr c => sig_of c ∈ sched_cs /\ completion_ok c | inl _ => True end.
Fixpoint sender_ok (s : sender) : Prop :=
  match s with
  | Just vs => Forall value_ok vs
  | JustError v => value_ok v
  | JustStopped => True
  | Leaf cs c => sig_of c ∈ cs /\ completion_ok c
  | ReadEnv t n r => match r with inr v => type_of v = t /\ value_ok v | inl _ => n = false end
  | Then s f | UponError s f | UponStopped s f => sender_ok s /\ callable_ok f
  | Let w s inner fn => sender_ok s /\ forall vs st,
      inner (type_of <$> vs) = Some st -> Forall value_ok vs ->
      match fn vs with inr s' => sender_type_of s' = st /\ sender_ok s' | inl _ => True end
  | Bulk _ s _ b => sender_ok s /\ bulk_ok b
  | IntoVariant s | StoppedAsOptional s => sender_ok s
  | StoppedAsError s v => sender_ok s /\ value_ok v
  | ContinuesOn sched_cs sched s => sender_ok s /\ sched_ok sched_cs sched
  | WhenAll ss _ => (fix all ss := match ss with [] => True | s :: ss => sender_ok s /\ all ss end) ss
  end.
End senders.
