(* ===== verification/SenderProps.v ===== *)
(** * Sender adaptors: senders complete as they declare

    For every adaptor: what it does with a completion of its child is among the
    signatures it computes from the child's.  And [stopped_as.hpp] against the
    expressions of other adaptors that it replaces. *)
From S2P Require Import Prelude Senders.
Implicit Types (v : value) (vs ws : list value) (ex : Z) (t : ty) (ts : list ty) (g : sig) (cs : list sig)
  (c : completion) (o : option completion) (s : sender) (f : callable) (ft : fn_type) (b : bulk_fn).

(** A started operation completes, with one of the signatures [cs]. *)
Definition completes cs o : Prop :=
  match o with Some c => sig_of c ∈ cs /\ completion_ok c | None => False end.

Lemma completes_mono cs cs' o : (forall g, g ∈ cs -> g ∈ cs') -> completes cs o -> completes cs' o.
Proof. intros H. destruct o; [|done]. intros [??]. split; [by apply H|done]. Qed.
Lemma completes_bind cs cs' o k :
  completes cs o -> (forall c, sig_of c ∈ cs -> completion_ok c -> completes cs' (k c)) -> completes cs' (o ≫= k).
Proof. destruct o as [c|]; [|done]. intros [??] Hk. by apply Hk. Qed.
Lemma completes_fmap cs cs' o (k : completion -> completion) :
  completes cs o -> (forall c, sig_of c ∈ cs -> completion_ok c -> completes cs' (Some (k c))) -> completes cs' (k <$> o).
Proof. destruct o as [c|]; [|done]. intros [??] Hk. by apply Hk. Qed.
Lemma completes_throws cs ex : SetErrorT ExceptionPtr ∈ cs -> completes cs (Some (throws ex)).
Proof. done. Qed.

(** ** Lists *)
Lemma all_some_Some {A} (l : list (option A)) xs : all_some l = Some xs -> l = Some <$> xs.
Proof.
  revert xs. induction l as [|[x|] l IH]; intros xs; simpl; [by intros [= <-]| |done].
  destruct (all_some l) as [ys|]; [|done]. intros [= <-]. simpl. by rewrite (IH ys).
Qed.
Lemma all_some_elem {A B} (h : A -> option B) l ys x : all_some (h <$> l) = Some ys -> x ∈ l -> exists y, h x = Some y /\ y ∈ ys.
Proof.
  intros E Hx. apply all_some_Some in E. assert (h x ∈ h <$> l) as H by by apply list_elem_of_fmap_2.
  rewrite E in H. apply list_elem_of_fmap in H as (y & -> & Hy). by exists y.
Qed.
Lemma all_some_total {A B} (h : A -> option B) k l : (forall x, h x = Some (k x)) -> all_some (h <$> l) = Some (k <$> l).
Proof. intros H. induction l as [|x l IH]; [done|]. csimpl. by rewrite H, IH. Qed.
Lemma existsb_elem {A} (p : A -> bool) l x : x ∈ l -> p x = true -> existsb p l = true.
Proof. intros Hx Hp. apply existsb_exists. exists x. split; [by apply list_elem_of_In|done]. Qed.
Lemma elem_of_error_if q : q = true -> SetErrorT ExceptionPtr ∈ error_if q.
Proof. intros ->. by apply list_elem_of_singleton. Qed.
Lemma concat_unique_elem g cs css : g ∈ cs -> cs ∈ css -> g ∈ concat_unique css.
Proof. intros Hg Hc. apply elem_of_concat_unique. by exists cs. Qed.
#[local] Hint Resolve list_elem_of_here list_elem_of_further elem_of_error_if concat_unique_elem : core.
Lemma elem_of_app_last {A} (l : list A) x : x ∈ l ++ [x].
Proof. apply elem_of_app. right. by apply list_elem_of_singleton. Qed.
Lemma elem_of_app_left {A} (l k : list A) x : x ∈ l -> x ∈ l ++ k.
Proof. intros ?. apply elem_of_app. by left. Qed.
#[local] Hint Resolve elem_of_app_last elem_of_app_left : core.

Lemma Forall2_elem_l {A B} (R : A -> B -> Prop) l k x : Forall2 R l k -> x ∈ l -> exists y, y ∈ k /\ R x y.
Proof.
  intros H. induction H as [|x' y l k Hxy _ IH]; [by intros ?%not_elem_of_nil|]. intros [->|Hx]%elem_of_cons; [eauto|].
  destruct (IH Hx) as (z & ? & ?). eauto.
Qed.

(** ** Values *)
Lemma type_of_decayed v : type_of (decayed v) = decay (type_of v).
Proof. induction v; simpl; done. Qed.
Lemma decayed_ok v : value_ok v -> value_ok (decayed v).
Proof. induction v; simpl; done. Qed.
Lemma tuple_ok vs : value_ok (VTuple vs) <-> Forall value_ok vs.
Proof. simpl. induction vs as [|v vs IH]; [by rewrite Forall_nil|by rewrite Forall_cons, IH]. Qed.
Lemma types_decayed vs : type_of <$> (decayed <$> vs) = decay <$> (type_of <$> vs).
Proof. rewrite <- !list_fmap_compose. apply list_fmap_ext. intros ? v _. apply type_of_decayed. Qed.
Lemma decay_decay t : decay (decay t) = decay t.
Proof. induction t; simpl; done. Qed.

(** ** The lists of when_all.hpp *)
Lemma elem_of_error_type_list cs t : t ∈ error_type_list cs <-> exists u, SetErrorT u ∈ cs /\ t = decay u.
Proof.
  unfold error_type_list.
  assert (forall l, t ∈ foldl push_error_type l cs <-> t ∈ l \/ exists u, SetErrorT u ∈ cs /\ t = decay u) as H;
    [|rewrite H; set_solver].
  induction cs as [|g cs IH]; intros l; simpl; [set_solver|]. rewrite IH. setoid_rewrite elem_of_cons.
  destruct g as [ts|u|]; simpl; rewrite ?elem_of_push_unique; naive_solver.
Qed.
Lemma elem_of_tuple_product l l' ts us : ts ∈ l -> us ∈ l' -> ts ++ us ∈ tuple_product l l'.
Proof. intros Ht Hu. apply list_elem_of_join. exists (app ts <$> l'). split; [by apply list_elem_of_fmap_2|by apply (list_elem_of_fmap_2 (fun ts => app ts <$> l'))]. Qed.

Section senders.
Context (nothrow_copy : ty -> bool) (copy_throws : value -> option Z).
Hypothesis copy_law : forall v, nothrow_copy (type_of v) = true -> copy_throws v = None.

#[local] Abbreviation nothrow_copies := (nothrow_copies nothrow_copy).
#[local] Abbreviation copies := (copies copy_throws).
#[local] Abbreviation cs_of := (cs_of nothrow_copy).
#[local] Abbreviation run := (run nothrow_copy copy_throws).
Set Default Proof Using "Type".

Lemma copy_spec v : copy copy_throws v = inr (decayed v) \/ exists ex, copy copy_throws v = inl ex /\ nothrow_copy (type_of v) = false.
Proof using copy_law.
  unfold copy. destruct (copy_throws v) as [ex|] eqn:E; [right|by left]. exists ex. split; [done|].
  destruct (nothrow_copy (type_of v)) eqn:En; [|done]. apply copy_law in En. congruence.
Qed.
Lemma copies_spec vs : copies vs = inr (decayed <$> vs) \/ exists ex, copies vs = inl ex /\ nothrow_copies (type_of <$> vs) = false.
Proof using copy_law.
  unfold Senders.nothrow_copies. induction vs as [|v vs IH]; [by left|]. csimpl.
  destruct (copy_spec v) as [->|(ex & -> & ->)]; [|right; by eauto].
  destruct IH as [->|(ex & -> & IH)]; [by left|right]. exists ex. split; [done|]. by rewrite IH, andb_false_r.
Qed.
Lemma copies_ok vs : Forall value_ok vs -> Forall value_ok (decayed <$> vs).
Proof. intros H. apply Forall_fmap. apply (Forall_impl _ _ _ H). intros v. apply decayed_ok. Qed.

(** ** then.hpp and upon.hpp *)
Lemma call_completes f vs r cs :
  callable_ok f -> Forall value_ok vs -> result_of (fn_of f) (type_of <$> vs) = Some r -> value_sig_from_result r ∈ cs ->
  (nothrow (fn_of f) (type_of <$> vs) = false -> SetErrorT ExceptionPtr ∈ cs) -> completes cs (call f vs).
Proof.
  intros Hf Hvs Hr Hv He. specialize (Hf vs r Hr Hvs). unfold call. destruct (invoke f vs) as [ex|o].
  - rewrite Hf. by apply completes_throws, He.
  - destruct Hf as [<- Ho]. split; [|done]. simpl. by destruct o.
Qed.
Lemma then_completes f cs cs' c :
  callable_ok f -> then_cs (fn_of f) cs = Some cs' -> sig_of c ∈ cs -> completion_ok c -> completes cs' (then_recv f c).
Proof.
  intros Hf Hcs Hc Hok. unfold then_cs in Hcs. destruct (all_some _) as [gs|] eqn:Egs; [|done].
  destruct (all_some_elem _ _ _ _ Egs Hc) as (g' & Hg & Hg').
  assert (forall g, g ∈ gs -> g ∈ cs') as Hgs.
  { intros g0 ?. injection Hcs as <-. case_match; rewrite ?elem_of_push_unique, elem_of_push_unique_all; tauto. }
  destruct c as [vs|v|]; simpl in *; [|injection Hg as <-; split; [by apply Hgs|done]..].
  destruct (result_of _ _) as [r|] eqn:Er; [|done]. injection Hg as <-.
  eapply call_completes; [done|done|exact Er|by apply Hgs|]. intros Hn. injection Hcs as <-.
  rewrite (existsb_elem _ _ _ Hc) by (simpl; by rewrite Hn). rewrite elem_of_push_unique. by right.
Qed.
Lemma upon_completes (is_error : bool) f cs cs' c :
  callable_ok f -> upon_cs is_error (fn_of f) cs = Some cs' -> sig_of c ∈ cs -> completion_ok c ->
  completes cs' (if is_error then recv_error f c else recv_stopped f c).
Proof.
  intros Hf Hcs Hc Hok. unfold upon_cs in Hcs. destruct (all_some _) as [css|] eqn:Ecss; [|done]. injection Hcs as <-.
  destruct (all_some_elem _ _ _ _ Ecss Hc) as (gs & Hg & Hgs).
  assert (forall vs r, Forall value_ok vs -> result_of (fn_of f) (type_of <$> vs) = Some r -> gs = [value_sig_from_result r] ->
    (nothrow (fn_of f) (type_of <$> vs) = false -> handler_may_throw is_error (fn_of f) (sig_of c) = true) ->
    completes (concat_unique (css ++ [error_if (existsb (handler_may_throw is_error (fn_of f)) cs)])) (call f vs)) as Hcall.
  { intros vs r Hvs Hr -> Hn. eapply call_completes; [done..| |]; [eauto|]. intros Ht. eapply concat_unique_elem; [|done].
    apply elem_of_error_if. eapply existsb_elem; eauto. }
  destruct is_error, c as [vs|v|]; simpl in *.
  2: destruct (result_of _ _) as [r|] eqn:Er; [|done]; injection Hg as <-; apply (Hcall [v] r); try done; [by apply Forall_singleton|].
  6: destruct (result_of _ _) as [r|] eqn:Er; [|done]; injection Hg as <-; apply (Hcall [] r); try done.
  all: try (intros E; simpl in E; by rewrite E).
  all: injection Hg as <-; split; [|done]; eauto.
Qed.

(** ** bulk.hpp *)
Lemma bulk_run_ok (chunked : bool) b (shape : Z) vs :
  bulk_ok b -> bulk_accepts b (type_of <$> vs) = true -> Forall value_ok vs ->
  match bulk_run chunked b shape vs with
  | inl _ => bulk_nothrow b (type_of <$> vs) = false
  | inr ws => type_of <$> ws = type_of <$> vs /\ Forall value_ok ws
  end.
Proof.
  intros Hb. unfold bulk_run. destruct chunked; [intros; destruct (0 <? shape)%Z; [by apply Hb|done]|]. generalize 0%Z. generalize (Z.to_nat shape).
  intros fuel. revert vs. induction fuel as [|fuel IH]; intros vs i Ha Hvs; simpl; [done|].
  destruct (i <? shape)%Z; [|done]. pose proof (Hb i (i + 1)%Z vs Ha Hvs) as Hcall.
  destruct (bulk_call b i (i + 1) vs) as [ex|ws]; [done|]. destruct Hcall as [Ht Hws].
  rewrite <- Ht. apply IH; [by rewrite Ht|done].
Qed.
Lemma bulk_completes (chunked : bool) b (shape : Z) cs cs' c :
  bulk_ok b -> bulk_cs b cs = Some cs' -> sig_of c ∈ cs -> completion_ok c -> completes cs' (bulk_recv chunked b shape c).
Proof.
  intros Hb Hcs Hc Hok. unfold bulk_cs in Hcs. destruct (forallb _ _) eqn:Ea; [|done]. injection Hcs as <-.
  assert (sig_of c ∈ if existsb (bulk_may_throw b) cs then concat_unique [cs; [SetErrorT ExceptionPtr]] else cs) as Hin
    by (case_match; eauto).
  destruct c as [vs|v|]; simpl in *; [|done..]. unfold bulk_complete.
  rewrite forallb_forall in Ea. pose proof (Ea _ (proj1 (list_elem_of_In _ _) Hc)) as Hacc. simpl in Hacc.
  pose proof (bulk_run_ok chunked b shape vs Hb Hacc Hok) as Hr. destruct (bulk_run _ _ _ _) as [ex|ws].
  - rewrite Hr, (existsb_elem _ _ _ Hc) by (simpl; by rewrite Hr). apply completes_throws. eauto.
  - destruct Hr as [Ht Hws]. split; [|done]. simpl. by rewrite Ht.
Qed.

(** ** into_variant.hpp and stopped_as.hpp *)
Lemma value_may_throw_elem cs vs :
  SetValueT (type_of <$> vs) ∈ cs -> nothrow_copies (type_of <$> vs) = false ->
  existsb (value_may_throw nothrow_copy) cs = true.
Proof. intros Hc Hn. eapply existsb_elem; [done|]. simpl. by rewrite Hn. Qed.
Lemma elem_of_non_value l cs g : g ∈ cs -> (forall ts, g <> SetValueT ts) -> g ∈ foldl push_non_value l cs.
Proof.
  intros Hg Hv.
  assert (forall cs l, g ∈ l -> g ∈ foldl push_non_value l cs) as Hl.
  { clear -Hv. induction cs as [|g' cs IH]; intros l Hl; [done|]. simpl. apply IH.
    destruct g'; simpl; rewrite ?elem_of_push_unique; auto. }
  revert l. induction Hg as [g cs|g g' cs Hg IH]; intros l; simpl.
  - apply Hl. destruct g as [ts| |]; [by destruct (Hv ts)|..]; simpl; rewrite elem_of_push_unique; by right.
  - by apply IH.
Qed.
Lemma into_variant_completes cs c :
  sig_of c ∈ cs -> completion_ok c ->
  completes (into_variant_cs nothrow_copy cs) (into_variant_recv nothrow_copy copy_throws cs c).
Proof using copy_law.
  intros Hc Hok. destruct c as [vs|v|]; simpl.
  2,3: split; [|done]; eapply concat_unique_elem; [by apply elem_of_non_value|]; eauto.
  unfold to_variant. destruct (copies_spec vs) as [->|(ex & -> & Hn)].
  - assert (Tuple (decay <$> (type_of <$> vs)) ∈ variant_type_of cs) as Ht.
    { apply list_elem_of_fmap_2, elem_of_value_tuple_list. eauto. }
    split.
    + eapply concat_unique_elem; [|apply list_elem_of_here]. unfold variant_value_cs.
      destruct (variant_type_of cs); [by apply not_elem_of_nil in Ht|]. by apply list_elem_of_singleton.
    + apply Forall_singleton. split; [|apply tuple_ok, copies_ok, Hok].
      change (type_of (VTuple (decayed <$> vs))) with (Tuple (type_of <$> (decayed <$> vs))). by rewrite types_decayed.
  - rewrite Hn. apply completes_throws. eapply concat_unique_elem; [by apply elem_of_error_if, (value_may_throw_elem cs vs)|]. eauto.
Qed.
Lemma make_optional_value_ok vs : Forall value_ok vs ->
  type_of (make_optional_value (decayed <$> vs)) = optional_value_type (type_of <$> vs) /\ value_ok (make_optional_value (decayed <$> vs)).
Proof.
  intros Hvs%copies_ok. split.
  - pose proof (types_decayed vs) as E. destruct vs as [|v [|v' vs]]; [done|simpl; by rewrite type_of_decayed|].
    cbn -[fmap list_fmap]. unfold optional_value_type. by rewrite <- E.
  - destruct vs as [|v [|v' vs]]; [done| |]; (split; [done|]); [by inversion Hvs|by apply tuple_ok].
Qed.
Lemma first_optional_type_spec cs : exists t, first_optional_type cs = Optional t.
Proof. induction cs as [|[[|t [|? ?]]|t|] cs IH]; simpl; eauto. Qed.
Lemma optional_completes cs cs' c :
  stopped_as_optional_cs nothrow_copy cs = Some cs' -> sig_of c ∈ cs -> completion_ok c ->
  completes cs' (optional_recv nothrow_copy copy_throws cs c).
Proof using copy_law.
  intros Hcs Hc Hok. unfold stopped_as_optional_cs in Hcs. destruct (valid_optional_cs cs); [|done]. injection Hcs as <-.
  assert (forall g, g ∈ optional_sig (sig_of c) -> g ∈ concat_unique ((optional_sig <$> cs) ++
      [if has_stopped cs then [SetValueT [first_optional_type cs]] else []; error_if (existsb (value_may_throw nothrow_copy) cs)])) as H.
  { intros g Hg. eapply concat_unique_elem; [done|]. apply elem_of_app_left. by apply list_elem_of_fmap_2. }
  destruct c as [vs|v|]; simpl in *; [|split; [|done]; eauto|].
  - unfold to_optional. destruct (copies_spec vs) as [->|(ex & -> & Hn)].
    + destruct (make_optional_value_ok vs Hok) as [Ht Ho]. split; [|by apply Forall_singleton].
      apply H. simpl. rewrite Ht. by apply list_elem_of_singleton.
    + rewrite Hn. apply completes_throws. eapply concat_unique_elem; [by apply elem_of_error_if, (value_may_throw_elem cs vs)|].
      apply elem_of_app. right. eauto.
  - destruct (first_optional_type_spec cs) as [t Et]. rewrite Et. split; [|by apply Forall_singleton].
    unfold has_stopped. rewrite (existsb_elem _ _ _ Hc) by done. eapply concat_unique_elem; [by apply list_elem_of_singleton|].
    apply elem_of_app. right. eauto.
Qed.
Lemma stopped_as_error_completes v cs c : value_ok v ->
  sig_of c ∈ cs -> completion_ok c -> completes (stopped_as_error_cs (type_of v) cs) (Some (error_recv v c)).
Proof.
  intros Hv Hc Hok. unfold stopped_as_error_cs.
  destruct c as [vs|w|]; simpl in *; (split; [|by try apply decayed_ok]); simpl.
  1,2: eapply concat_unique_elem; [|apply elem_of_app_left; by apply (list_elem_of_fmap_2 drop_stopped_sig _ _ Hc)]; by apply list_elem_of_singleton.
  unfold has_stopped. rewrite (existsb_elem _ _ _ Hc), type_of_decayed by done.
  eapply concat_unique_elem; [by apply list_elem_of_singleton|]. eauto.
Qed.

(** ** continues_on.hpp *)
Lemma start_scheduled_completes sched_cs sched cs c :
  sched_ok sched_cs sched -> completes cs (Some c) -> SetErrorT ExceptionPtr ∈ cs ->
  (forall g, g ∈ non_value_completion_signatures sched_cs -> g ∈ cs) -> completes cs (Some (start_scheduled sched c)).
Proof.
  intros Hs Hc He Hn. destruct sched as [ex|d]; simpl; [done|]. destruct Hs as [Hd Hok].
  destruct d as [vs|v|]; [done|..]; (split; [|done]); apply Hn;
    (eapply concat_unique_elem; [|apply (list_elem_of_fmap_2 non_value_completion _ _ Hd)]); simpl; eauto.
Qed.
Lemma continue_on_completes sched_cs sched cs cs' c :
  sched_ok sched_cs sched -> continues_on_cs sched_cs cs = Some cs' -> sig_of c ∈ cs -> completion_ok c ->
  completes cs' (Some (continue_on copy_throws sched c)).
Proof using copy_law.
  intros Hs Hcs Hc Hok. unfold continues_on_cs in Hcs. destruct (value_completion_count cs <=? 1); [|done]. injection Hcs as <-.
  assert (SetErrorT ExceptionPtr ∈ concat_unique [decayed_completions cs; non_value_completion_signatures sched_cs; [SetErrorT ExceptionPtr]])
    as He by eauto.
  assert (forall g, g ∈ decayed_completion (sig_of c) ->
    g ∈ concat_unique [decayed_completions cs; non_value_completion_signatures sched_cs; [SetErrorT ExceptionPtr]]) as H.
  { intros g Hg. eapply concat_unique_elem; [|eauto]. eapply concat_unique_elem; [exact Hg|by apply list_elem_of_fmap_2]. }
  unfold continue_on. eapply start_scheduled_completes; [done| |done|eauto].
  destruct c as [vs|v|]; simpl in *.
  - destruct (copies_spec vs) as [->|(ex & -> & _)]; [|by apply completes_throws].
    split; [|by apply copies_ok]. apply H. simpl. rewrite types_decayed. by apply list_elem_of_singleton.
  - destruct (copy_spec v) as [->|(ex & -> & _)]; [|by apply completes_throws].
    split; [|by apply decayed_ok]. apply H. simpl. rewrite type_of_decayed. by apply list_elem_of_singleton.
  - split; [|done]. apply H. by apply list_elem_of_singleton.
Qed.

(** ** when_all.hpp *)
Lemma elem_of_when_all css g :
  g ∈ SetValueT <$> cartesian_value_tuples (value_tuple_list <$> css) \/
  g ∈ SetErrorT <$> all_error_types nothrow_copy css \/ g = SetStoppedT /\ existsb has_stopped css = true ->
  g ∈ when_all_cs nothrow_copy css.
Proof.
  unfold when_all_cs. intros [Hg|[Hg|[-> ->]]]; [eapply concat_unique_elem; [exact Hg|eauto]..|].
  eapply concat_unique_elem; [by apply list_elem_of_singleton|]. eauto.
Qed.
Lemma all_error_types_exception cs css g : cs ∈ css -> g ∈ cs -> result_copy_may_throw nothrow_copy g = true ->
  ExceptionPtr ∈ all_error_types nothrow_copy css.
Proof.
  intros Hcs Hg Ht. apply elem_of_append_all. left. rewrite (existsb_elem _ css cs Hcs); [eauto|]. by eapply existsb_elem.
Qed.
(** With what [copy_law] says, a child always leaves a result. *)
Definition child_result_of c : child_result :=
  match c with
  | SetValue vs => match copies vs with inr ws => ChildValue ws | inl ex => ChildError (VException ex) end
  | SetError v => ChildError v
  | SetStopped => ChildStopped
  end.
Lemma child_completes_result c : child_completes nothrow_copy copy_throws c = Some (child_result_of c).
Proof using copy_law.
  destruct c as [vs|v|]; simpl; [|done..]. by destruct (copies_spec vs) as [->|(ex & -> & ->)].
Qed.
Lemma child_error_spec css ds v :
  Forall2 (fun d cs => sig_of d ∈ cs /\ completion_ok d) ds css -> v ∈ child_errors (child_result_of <$> ds) ->
  decay (type_of v) ∈ all_error_types nothrow_copy css /\ value_ok v /\
  (nothrow_copy (type_of v) = false -> ExceptionPtr ∈ all_error_types nothrow_copy css).
Proof using copy_law.
  intros H2 (r & (d & -> & Hd)%list_elem_of_fmap & Hr)%list_elem_of_omap.
  destruct (Forall2_elem_l _ _ _ _ H2 Hd) as (cs & Hcs & Hg & Hok). destruct d as [vs|w|]; simpl in *; [|injection Hr as <-|done].
  - destruct (copies_spec vs) as [E|(ex & E & Hn)]; rewrite E in Hr; [done|]. injection Hr as <-. simpl.
    assert (ExceptionPtr ∈ all_error_types nothrow_copy css); [|done].
    eapply all_error_types_exception; [done..|]. simpl. by rewrite Hn.
  - split_and!; [|done|].
    + apply elem_of_append_all. right. exists (error_type_list cs). split; [by apply list_elem_of_fmap_2|].
      apply elem_of_error_type_list. eauto.
    + intros Hn. eapply all_error_types_exception; [done..|]. simpl. by rewrite Hn.
Qed.
Lemma child_values_spec css ds :
  Forall2 (fun d cs => sig_of d ∈ cs /\ completion_ok d) ds css ->
  child_errors (child_result_of <$> ds) = [] ->
  existsb (fun r => match r with ChildStopped => true | _ => false end) (child_result_of <$> ds) = false ->
  type_of <$> child_values (child_result_of <$> ds) ∈ cartesian_value_tuples (value_tuple_list <$> css) /\
  Forall value_ok (child_values (child_result_of <$> ds)).
Proof using copy_law.
  intros H2. induction H2 as [|d cs ds css [Hd Hok] _ IH]; intros He Hs; [split; [apply list_elem_of_here|done]|].
  destruct d as [vs|v|]; [|done..]. csimpl in *.
  destruct (copies_spec vs) as [E|(ex & E & _)]; unfold child_errors, child_values in *; csimpl in *; rewrite E in *; [|done]. csimpl in *.
  destruct (IH He Hs) as [Ht Ho]. rewrite fmap_app, types_decayed. split.
  - apply elem_of_tuple_product; [|done]. apply elem_of_value_tuple_list. eauto.
  - apply Forall_app. split; [by apply copies_ok|done].
Qed.
Lemma when_all_completes css ds first :
  Forall2 (fun d cs => sig_of d ∈ cs /\ completion_ok d) ds css ->
  completes (when_all_cs nothrow_copy css) (when_all_deliver nothrow_copy copy_throws first (child_result_of <$> ds)).
Proof using copy_law.
  intros H2. unfold when_all_deliver. destruct (_ !! _) as [v|] eqn:Ev.
  - apply list_elem_of_lookup_2, (child_error_spec _ _ _ H2) in Ev as (Ht & Hok & He).
    destruct (copy_spec v) as [->|(ex & -> & Hn)]; [|rewrite Hn]; (split; [|done || by apply decayed_ok]); apply elem_of_when_all; right; left.
    + simpl. rewrite type_of_decayed. by apply list_elem_of_fmap_2.
    + apply (list_elem_of_fmap_2 SetErrorT), He, Hn.
  - assert (child_errors (child_result_of <$> ds) = []) as He.
    { apply lookup_ge_None in Ev. destruct (child_errors _) as [|e es]; [done|].
      pose proof (Nat.mod_upper_bound first (length (e :: es))). simpl in *. lia. }
    destruct (existsb _ _) eqn:Es.
    + apply existsb_exists in Es as (r & (d & -> & Hd)%list_elem_of_In%list_elem_of_fmap & Hr).
      destruct (Forall2_elem_l _ _ _ _ H2 Hd) as (cs & Hcs & Hg & _). split; [|done]. apply elem_of_when_all. right. right. split; [done|].
      eapply existsb_elem; [exact Hcs|]. eapply existsb_elem; [exact Hg|].
      destruct d as [vs|v|]; [simpl in Hr; by destruct (copies vs)|done..].
    + destruct (child_values_spec _ _ H2 He Es) as [Ht Ho]. split; [|done]. apply elem_of_when_all. left. by apply (list_elem_of_fmap_2 SetValueT).
Qed.

(** ** let.hpp *)
Lemma handled_args w c : let_args w (sig_of c) = (fun vs => LRef ∘ decay <$> (type_of <$> vs)) <$> handled w c.
Proof. by destruct w, c. Qed.
Lemma handled_ok w c vs : handled w c = Some vs -> completion_ok c -> Forall value_ok vs.
Proof. destruct w, c; simpl; try done; intros [= <-]; [done|by intros ?%Forall_singleton|done]. Qed.
Lemma references_ok vs : Forall value_ok vs ->
  type_of <$> (VLRef <$> (decayed <$> vs)) = LRef ∘ decay <$> (type_of <$> vs) /\ Forall value_ok (VLRef <$> (decayed <$> vs)).
Proof.
  intros H. split; [|by apply Forall_fmap, (Forall_impl _ _ _ (copies_ok vs H))].
  rewrite <- !list_fmap_compose. apply list_fmap_ext. intros ? v _. simpl. by rewrite type_of_decayed.
Qed.
Lemma let_completes w inner fn cs css c :
  (forall vs st, inner (type_of <$> vs) = Some st -> Forall value_ok vs ->
     match fn vs with inr s => forall cs, cs_of st = Some cs -> completes cs (run s) | inl _ => True end) ->
  all_some ((fun g => match let_args w g with
                      | Some ts => match inner ts with Some st => cs_of st | None => None end
                      | None => Some [g]
                      end) <$> cs) = Some css ->
  sig_of c ∈ cs -> completion_ok c ->
  completes (concat_unique (css ++ [error_if (existsb (matches_which w) cs)]))
    match handled w c with
    | Some vs =>
        match copies vs with
        | inr ws => match fn (VLRef <$> ws) with inr s => run s | inl ex => Some (throws ex) end
        | inl ex => Some (throws ex)
        end
    | None => Some c
    end.
Proof using copy_law.
  intros Hfn Hcss Hc Hok. destruct (all_some_elem _ _ _ _ Hcss Hc) as (gs & Hg & Hgs). rewrite handled_args in Hg.
  pose proof (existsb_elem (matches_which w) cs _ Hc) as Hm. unfold matches_which in Hm. rewrite handled_args in Hm.
  destruct (handled w c) as [vs|] eqn:Ew; simpl in Hg, Hm.
  - pose proof (handled_ok _ _ _ Ew Hok) as Hvs. destruct (references_ok vs Hvs) as [Et Href].
    assert (SetErrorT ExceptionPtr ∈ concat_unique (css ++ [error_if (existsb (matches_which w) cs)])) as He
      by (eapply concat_unique_elem; [by apply elem_of_error_if, Hm|eauto]).
    destruct (copies_spec vs) as [->|(ex & -> & _)]; [|by apply completes_throws].
    rewrite <- Et in Hg. destruct (inner _) as [st|] eqn:Ei; [|done]. pose proof (Hfn _ _ Ei Href) as Hs.
    destruct (fn _) as [ex|s]; [by apply completes_throws|]. apply (completes_mono gs); [|by apply Hs].
    intros g Hin. eapply concat_unique_elem; [exact Hin|eauto].
  - injection Hg as <-. split; [|done]. eapply concat_unique_elem; [by apply list_elem_of_singleton|eauto].
Qed.
End senders.

(** ** Senders *)
Section sender_induction.
Context (P : sender -> Prop) (HJust : forall vs, P (Just vs)) (HError : forall v, P (JustError v)) (HStopped : P JustStopped)
  (HLeaf : forall cs c, P (Leaf cs c)) (HRead : forall t n r, P (ReadEnv t n r))
  (HThen : forall s f, P s -> P (Then s f)) (HUponE : forall s f, P s -> P (UponError s f))
  (HUponS : forall s f, P s -> P (UponStopped s f))
  (HLet : forall w s inner fn, P s -> (forall vs, match fn vs with inr s' => P s' | inl _ => True end) -> P (Let w s inner fn))
  (HBulk : forall chunked s shape b, P s -> P (Bulk chunked s shape b)) (HInto : forall s, P s -> P (IntoVariant s))
  (HOpt : forall s, P s -> P (StoppedAsOptional s)) (HErr : forall s v, P s -> P (StoppedAsError s v))
  (HCont : forall cs d s, P s -> P (ContinuesOn cs d s)) (HWhen : forall ss first, Forall P ss -> P (WhenAll ss first)).
Fixpoint sender_nested_ind s : P s :=
  let fix all ss : Forall P ss :=
    match ss with
    | [] => Forall_nil_2 P
    | s :: ss => Forall_cons_2 P s ss (sender_nested_ind s) (all ss)
    end in
  match s with
  | Just vs => HJust vs
  | JustError v => HError v
  | JustStopped => HStopped
  | Leaf cs c => HLeaf cs c
  | ReadEnv t n r => HRead t n r
  | Then s f => HThen s f (sender_nested_ind s)
  | UponError s f => HUponE s f (sender_nested_ind s)
  | UponStopped s f => HUponS s f (sender_nested_ind s)
  | Let w s inner fn =>
      HLet w s inner fn (sender_nested_ind s) (fun vs =>
        match fn vs as r return match r with inr s' => P s' | inl _ => True end with inr s' => sender_nested_ind s' | inl _ => I end)
  | Bulk chunked s shape b => HBulk chunked s shape b (sender_nested_ind s)
  | IntoVariant s => HInto s (sender_nested_ind s)
  | StoppedAsOptional s => HOpt s (sender_nested_ind s)
  | StoppedAsError s v => HErr s v (sender_nested_ind s)
  | ContinuesOn cs d s => HCont cs d s (sender_nested_ind s)
  | WhenAll ss first => HWhen ss first (all ss)
  end.
End sender_induction.

Section theorems.
Context (nothrow_copy : ty -> bool) (copy_throws : value -> option Z).
Hypothesis copy_law : forall v, nothrow_copy (type_of v) = true -> copy_throws v = None.
#[local] Abbreviation cs_of := (cs_of nothrow_copy).
#[local] Abbreviation run := (run nothrow_copy copy_throws).

Lemma run_children ss css :
  Forall (fun s => forall cs, sender_ok s -> cs_of (sender_type_of s) = Some cs -> completes cs (run s)) ss ->
  sender_ok (WhenAll ss 0) -> all_some (cs_of <$> (sender_type_of <$> ss)) = Some css ->
  exists ds, all_some (run <$> ss) = Some ds /\ Forall2 (fun d cs => sig_of d ∈ cs /\ completion_ok d) ds css.
Proof.
  intros IH. revert css. induction IH as [|s ss Hs _ IH]; intros css Hok Hcss.
  - injection Hcss as <-. exists []. split; [done|constructor].
  - csimpl in *. destruct Hok as [Ho Hok]. destruct (cs_of (sender_type_of s)) as [cs|] eqn:Ecs; [|done].
    destruct (all_some (cs_of <$> (sender_type_of <$> ss))) as [css'|]; [|done]. injection Hcss as <-.
    destruct (IH css' Hok eq_refl) as (ds & -> & Hds). specialize (Hs cs Ho eq_refl).
    destruct (run s) as [d|]; [|done]. exists (d :: ds). split; [done|]. constructor; done.
Qed.

Lemma sender_completes s cs : sender_ok s -> cs_of (sender_type_of s) = Some cs -> completes cs (run s).
Proof using copy_law.
  revert cs. induction s as [vs|v| |gs c|t n r|s f IH|s f IH|s f IH|w s inner fn IH IHfn|chunked s shape b IH|s IH|s IH|s v IH|gs d s IH|ss first IH]
    using sender_nested_ind; intros cs Hok Hcs; simpl in Hok, Hcs.
  1-4: injection Hcs as <-; simpl; rewrite ?list_elem_of_singleton; done.
  2-10: destruct (cs_of (sender_type_of s)) as [ups|] eqn:Eup; [|done].
  2,3,4,6: destruct Hok as [Hs Hf]; eapply completes_bind; [by apply IH|]; intros c Hc Hcok.
  - injection Hcs as <-. destruct r as [ex|v]; simpl.
    + subst n. apply completes_throws. simpl. eauto.
    + destruct Hok as [<- Hv]. split; [apply list_elem_of_here|by apply Forall_singleton].
  - by eapply then_completes.
  - by eapply (upon_completes true).
  - by eapply (upon_completes false).
  - by eapply bulk_completes.
  - destruct Hok as [Hs Hfn]. destruct (all_some _) as [css|] eqn:Ecss; [|done]. injection Hcs as <-.
    specialize (IH _ Hs eq_refl). simpl. destruct (run s) as [c|]; [|done]. destruct IH as [Hc Hcok].
    eapply let_completes; [done| |exact Ecss|done|done].
    intros vs st Hst Hvs. specialize (Hfn vs st Hst Hvs). specialize (IHfn vs). destruct (fn vs) as [ex|s']; [done|].
    destruct Hfn as [<- Hs']. intros cs' Hcs'. by apply IHfn.
  - injection Hcs as <-. simpl. rewrite Eup. eapply completes_bind; [by apply IH|]. intros c. by apply into_variant_completes.
  - simpl. rewrite Eup. eapply completes_bind; [by apply IH|]. intros c. by apply optional_completes.
  - destruct Hok as [Hs Hv]. injection Hcs as <-. eapply completes_fmap; [by apply IH|]. intros c. by apply stopped_as_error_completes.
  - destruct Hok as [Hs Hd]. eapply completes_fmap; [by apply IH|]. intros c. by eapply continue_on_completes.
  - destruct ss as [|s ss]; [done|]. destruct (all_some _) as [css|] eqn:Ecss; [|done]. injection Hcs as <-.
    destruct (run_children _ _ IH Hok Ecss) as (ds & Eds & Hds).
    change (run (WhenAll (s :: ss) first)) with (all_some (run <$> s :: ss) ≫= fun ds =>
      all_some (child_completes nothrow_copy copy_throws <$> ds) ≫= when_all_deliver nothrow_copy copy_throws first).
    rewrite Eds. simpl. rewrite (all_some_total _ (child_result_of copy_throws)) by by apply child_completes_result.
    by apply when_all_completes.
Qed.

(** C24: a sender that typechecks, made from the modelled adaptors (just, read_env, then,
    upon, let, bulk, into_variant, stopped_as, continues_on and when_all), in any nesting,
    over senders that complete with a signature of theirs, completes when it is started:
    no [noexcept] function throws, which would terminate the program, provided that
    functions and copies that are declared not to throw do not.  It
    completes with one of the completion signatures that are computed for it, and the
    variants and optionals it sends hold what they are for.  So it sends an
    exception_ptr, or is stopped, only if its signatures say so. *)
Theorem senders_complete_as_declared s cs :
  sender_ok s -> cs_of (sender_type_of s) = Some cs ->
  exists c, run s = Some c /\ sig_of c ∈ cs /\ completion_ok c.
Proof using copy_law.
  intros Hs Hcs. pose proof (sender_completes s cs Hs Hcs) as H. destruct (run s) as [c|]; [by exists c|done].
Qed.

(** *** stopped_as.hpp against the expressions it replaces *)
Lemma has_stopped_spec cs : has_stopped cs = true <-> SetStoppedT ∈ cs.
Proof using Type.
  clear. unfold has_stopped. rewrite existsb_exists. split.
  - intros ([| |] & ?%list_elem_of_In & ?); done.
  - intros ?%list_elem_of_In. by exists SetStoppedT.
Qed.
Lemma matches_stopped cs : existsb (matches_which WStopped) cs = has_stopped cs.
Proof using Type. induction cs as [|[] cs IH]; simpl; [done|by rewrite ?IH..]. Qed.
Lemma elem_of_concat_parts {A} (h : A -> list sig) l cs g :
  g ∈ concat_unique ((h <$> l) ++ [cs]) <-> (exists x, x ∈ l /\ g ∈ h x) \/ g ∈ cs.
Proof using Type.
  clear. rewrite elem_of_concat_unique. setoid_rewrite elem_of_app. setoid_rewrite list_elem_of_singleton.
  split.
  - intros (xs & [(x & -> & Hx)%list_elem_of_fmap| ->] & Hg); [left; by exists x|by right].
  - intros [(x & Hx & Hg)|Hg]; [exists (h x)|exists cs]; (split; [|done]); [left; by apply list_elem_of_fmap_2|by right].
Qed.

(** [let_stopped(sndr, [] { return just_error(err); })] *)
Definition let_error_of s v : sender :=
  Let WStopped s (fun _ => Some (TJustError (decay (type_of v)))) (fun _ => inr (JustError (decayed v))).
(** [let_stopped(then(sndr, make_optional), [] { return just(optional<T>()); })] *)
Definition make_optional : callable :=
  Callable (FnType (fun ts => Some (Some (optional_value_type ts))) (nothrow_copies nothrow_copy))
    (fun vs => match copies copy_throws vs with inr ws => inr (Some (make_optional_value ws)) | inl ex => inl ex end).
Definition let_optional_of s t : sender :=
  Let WStopped (Then s make_optional) (fun _ => Some (TJust [Optional t])) (fun _ => inr (Just [VOptional t None])).

Lemma let_stopped_cs st st' ups cs :
  cs_of st = Some ups -> cs_of st' = Some cs ->
  exists cs', cs_of (TLet WStopped st (fun _ => Some st')) = Some cs' /\
    forall g, g ∈ cs' <-> g ∈ ups /\ g <> SetStoppedT \/ SetStoppedT ∈ ups /\ (g ∈ cs \/ g = SetErrorT ExceptionPtr).
Proof using Type.
  intros Eup Ecs. simpl. rewrite Eup.
  rewrite (all_some_total _ (fun g => match g with SetStoppedT => cs | _ => [g] end)) by (intros []; [done..|exact Ecs]).
  eexists. split; [done|]. intros g. rewrite elem_of_concat_parts, matches_stopped, <- !has_stopped_spec. unfold error_if. split.
  - intros [(x & Hx & Hg)|Hg].
    + destruct x; [apply list_elem_of_singleton in Hg as ->; by left..|]. apply has_stopped_spec in Hx. tauto.
    + destruct (has_stopped ups); [apply list_elem_of_singleton in Hg; tauto|by apply not_elem_of_nil in Hg].
  - intros [[Hg Hn]|[Hs [Hg| ->]]].
    + left. exists g. split; [done|]. destruct g; try done; by apply list_elem_of_singleton.
    + left. exists SetStoppedT. split; [by apply has_stopped_spec|done].
    + right. rewrite Hs. by apply list_elem_of_singleton.
Qed.

(** [stopped_as_error] completes like the expression it stands for, and declares the
    same but for the exception_ptr that [let_stopped] might send and it does not. *)
Theorem stopped_as_error_replaces_let s v ups :
  cs_of (sender_type_of s) = Some ups ->
  run (StoppedAsError s v) = run (let_error_of s v) /\
  exists cs cs', cs_of (sender_type_of (StoppedAsError s v)) = Some cs /\ cs_of (sender_type_of (let_error_of s v)) = Some cs' /\
    forall g, g ∈ cs' <-> g ∈ cs \/ SetStoppedT ∈ ups /\ g = SetErrorT ExceptionPtr.
Proof using Type.
  intros Eup. split; [simpl; by destruct (run s) as [[]|]|].
  destruct (let_stopped_cs _ (TJustError (decay (type_of v))) ups _ Eup eq_refl) as (cs' & E' & Hcs').
  exists (stopped_as_error_cs (type_of v) ups), cs'. split; [simpl; by rewrite Eup|]. split; [exact E'|]. intros g. rewrite Hcs'.
  unfold stopped_as_error_cs. rewrite elem_of_concat_parts, list_elem_of_singleton, <- has_stopped_spec.
  assert ((exists x, x ∈ ups /\ g ∈ drop_stopped_sig x) <-> g ∈ ups /\ g <> SetStoppedT) as ->.
  { split.
    - intros (x & Hx & Hg). destruct x; [apply list_elem_of_singleton in Hg as ->; done..|by apply not_elem_of_nil in Hg].
    - intros [Hg Hn]. exists g. split; [done|]. destruct g; [by apply list_elem_of_singleton..|done]. }
  destruct (has_stopped ups); rewrite ?list_elem_of_singleton; [tauto|]. split; [intros [?|[? _]]; [tauto|done]|].
  intros [[?|Hg]|[? _]]; [tauto|by apply not_elem_of_nil in Hg|done].
Qed.
Theorem stopped_as_optional_replaces_let s ups t :
  cs_of (sender_type_of s) = Some ups -> first_optional_type ups = Optional t ->
  run (StoppedAsOptional s) = run (let_optional_of s t).
Proof using Type.
  intros Eup Et. simpl. rewrite Eup. destruct (run s) as [[vs|v|]|]; simpl; try done; [|by rewrite Et].
  unfold to_optional, call. simpl. by destruct (copies copy_throws vs); simpl; [destruct (nothrow_copies _ _)|].
Qed.
End theorems.

(** ** An example

    Values of type 1 may not be copied without throwing, and 13 throws.  A sender of
    all kinds: two children, of which one turns a stop into an optional and the
    other handles the error of a copy that throws and goes on elsewhere. *)
Definition demo_nothrow (t : ty) : bool := bool_decide (t <> Base 1).
Definition demo_throws v : option Z := match v with VBase 1 13 => Some 99%Z | _ => None end.
Lemma demo_law v : demo_nothrow (type_of v) = true -> demo_throws v = None.
Proof.
  unfold demo_nothrow. intros H%bool_decide_eq_true. destruct v as [[|[|n]] z| | | | | |]; try done.
Qed.
Definition demo_add : callable :=
  Callable (FnType (fun ts => match ts with [LRef (Base 0)] | [Base 0] => Some (Some (Base 0)) | _ => None end) (fun _ => true))
    (fun vs => match vs with [VLRef (VBase 0 z)] | [VBase 0 z] => inr (Some (VBase 0 (z + 1))) | _ => inr None end).
Definition demo_let (s : sender) : sender :=
  Let WError s (fun ts => match ts with [LRef ExceptionPtr] => Some (TThen (TJust [Base 0]) (fn_of demo_add)) | _ => None end)
    (fun vs => match vs with [VLRef (VException z)] => inr (Then (Just [VBase 0 z]) demo_add) | _ => inl 0%Z end).
Definition demo_children : list sender :=
  [StoppedAsOptional (Leaf [SetValueT [Base 2]; SetStoppedT] SetStopped);
   ContinuesOn [SetValueT []; SetStoppedT] (inr (SetValue []))
     (demo_let (Let WValue (Just [VBase 1 13]) (fun _ => Some (TJust [Base 0])) (fun _ => inr (Just [VBase 0 7]))))].
Definition demo_sender : sender := IntoVariant (WhenAll demo_children 0).
Definition demo_cs : list sig :=
  [SetValueT [Variant [Tuple [Optional (Base 2); Base 0]]]; SetErrorT ExceptionPtr; SetStoppedT].

Lemma demo_add_ok : callable_ok demo_add.
Proof.
  intros vs r Hr Hvs.
  destruct vs as [|[[|?] ?|?|[[|?] ?|?|?|?|?|?|?]|?|?|?|?] [|? ?]]; try discriminate Hr; injection Hr as <-; (split; [done|by apply Forall_singleton]).
Qed.
Lemma demo_sender_ok : sender_ok demo_sender.
Proof.
  simpl. split; [|split; [|done]].
  - split; [by right; left|done].
  - split; [|split; [by left|constructor]]. split; [split|].
    + by apply Forall_singleton.
    + intros vs st [= <-] _. split; [done|by apply Forall_singleton].
    + intros vs st Hst Hvs.
      destruct vs as [|[? ?|?|[? ?|?|?|?|?|?|?]|?|?|?|?] [|? ?]]; try discriminate Hst; injection Hst as <-.
      split; [done|]. split; [by apply Forall_singleton|apply demo_add_ok].
Qed.
(** It gets the exception of the copy, adds one, and sends it with the empty optional. *)
Lemma senders_complete_as_declared_witness :
  sender_ok demo_sender /\ cs_of demo_nothrow (sender_type_of demo_sender) = Some demo_cs /\
  run demo_nothrow demo_throws demo_sender =
    Some (SetValue [VVariant [Tuple [Optional (Base 2); Base 0]] (VTuple [VOptional (Base 2) None; VBase 0 100])]) /\
  exists c, run demo_nothrow demo_throws demo_sender = Some c /\ sig_of c ∈ demo_cs /\ completion_ok c.
Proof.
  assert (cs_of demo_nothrow (sender_type_of demo_sender) = Some demo_cs) as Hcs by (vm_compute; reflexivity).
  split; [exact demo_sender_ok|]. split; [exact Hcs|]. split; [vm_compute; reflexivity|].
  exact (senders_complete_as_declared demo_nothrow demo_throws demo_law demo_sender demo_cs demo_sender_ok Hcs).
Defined.
